(* ===== verification/_CoqProject ===== *)
-Q . S2P
Prelude.v
Limbs.v
BigInt.v
Numeric.v
BigIntFloat.v
BigIntPow.v
BigIntOps.v
IntPrint.v
JSStrings.v
StringBuffer.v
StringBufferSpec.v
Utf8.v
Utf8Spec.v
CString.v
Encoding.v
Heap.v
Buffer.v
BufferSafety.v
BufferSpec.v
MapKey.v
JsMap.v
JsMapSpec.v
JsMapRefine.v
Async.v
Promise.v
EventLoop.v
AsyncInv.v
AsyncSpec.v
TimerSpec.v
Gc.v
GcSpec.v
GcFree.v
GcFreeInv.v
GcFreeStep.v
GcFreeOps.v
GcFreeFuns.v
GcFreeSpec.v
GcRun.v
Shapes.v
Objects.v
ShapesInv.v
ObjectsInv.v
ObjectsNew.v
ObjectsSpec.v
ObjectsChain.v
ObjectsRefine.v
Sort.v
SortInv.v
SortSpec.v
ArraySort.v
ArraySortSpec.v
Atoms.v
AtomsInv.v
AtomsOps.v
AtomsNew.v
AtomsInit.v
AtomsClient.v
AtomsSpec.v
Ropes.v
RopesDiverge.v
RopesSpec.v
RopesRead.v
RopesAtoms.v
