(* ===== verification/Prelude.v ===== *)
(** * A verification of QNode

    QNode ([src/src]) is a JavaScript runtime: the QuickJS engine
    ([core/quickjs.c]), its standard library and event loop
    ([lib/quickjs-libc.c]), and Node's built-in modules in C ([lib/buffer.c] and
    others).  This development models the parts of it that carry the logic of
    the language and of the event loop, translated function by function from the
    C source, and proves that they do what ECMAScript or Node.js says, or states
    exactly where they do not.

    ** Parts and files

    _Numbers and BigInts_ ([core/quickjs.c]).  [Numeric]: doubles as bit
    patterns, the values [JSValue], [JS_ToNumber], [JS_ToInt32], [JS_ToInt64]
    and the saturating and clamping conversions (12551 to 14321).  [Limbs]: the
    [mp_*] kernels on arrays of 64-bit limbs (10872 to 11185).  [BigInt]: the
    [js_bigint_*] arithmetic on normalized two's complement arrays (11186 to
    12340).  [BigIntFloat]: BigInts against doubles.  [BigIntPow]: when a power fits
    what is reserved for it.  [BigIntOps]: the slow paths
    of the operators of the interpreter with the short BigInts and their 128-bit
    fast paths, [asIntN] and [asUintN].  Each file calls the ones before it.

    _Buffers_ ([lib/buffer.c]).  [CString]: what a C function ends with (a result, an
    exception, a failed assertion, a [Crash]) and the conversions between strings
    and C strings, through [Utf8].  [Encoding]: Base64 and hexadecimal.  [Heap]:
    ArrayBuffers and the typed arrays that alias them, with a monad in which an
    access outside of a live byte array is a [Crash].  [Buffer]: the functions of the
    module in that monad; the user code that conversions of arguments run is a
    parameter, which changes the heap between the steps of a function.
    [BufferSafety] and [BufferSpec]: their safety and what they compute.

    _Map and Set_ ([core/quickjs.c], 51074 to 51945).  [MapKey]: SameValueZero and
    the hash.  [JsMap]: records, hash chains, reference counts and iterators.
    [JsMapSpec], [JsMapRefine]: the simulation with the list of entries of
    ECMAScript, for [getOrInsertComputed] when its callback does not insert the
    key itself ([JsMap.computed_moves_key] shows the difference when it does).

    _Shapes and objects_ ([core/quickjs.c], 4702 to 5377 and 5710 to 10568).
    [Shapes]: the hidden classes with their hash tables, their sharing through the
    table of the runtime, and an allocator that may fail.  [Objects]: the
    properties and prototypes of ordinary objects.  [ShapesInv]: the chains of a
    property table.  [ObjectsInv], [ObjectsNew]: the invariant of the runtime
    (users of shapes, table of the hashed shapes) and the operations on it.
    [ObjectsSpec], [ObjectsChain]: the internal methods of the specification, and
    each operation against them.  [ObjectsRefine]: the operations as steps of a
    state machine; the theorems.

    _The asynchronous runtime_ ([core/quickjs.c], 52618 to 53668, and
    [lib/quickjs-libc.c]).  [Async]: the state, a monad for it, and programs, which
    are arbitrary trees of calls of the engine.  [Promise]: promises, resolving
    functions, reactions and combinators.  [EventLoop]: timers, descriptor and
    signal handlers, the job queue, rejection tracking, [js_os_poll],
    [js_std_loop] and [js_std_await].  [AsyncInv]: what every computation keeps.
    [AsyncSpec], [TimerSpec]: the theorems on the reachable states.

    _Reference counting and the cycle collector_ ([core/quickjs.c], 5692 to 6428).
    [Gc]: the mark phase, trial deletion over the references of every kind of
    object.  [GcSpec]: it keeps exactly what is reachable from outside.  [GcFree]:
    [JS_FreeValue], the functions that free each kind of object, and the removal
    of the cycles.  [GcFreeInv], [GcFreeStep], [GcFreeOps], [GcFreeFuns]: the
    accounts of the references while objects are freed, the steps that keep them,
    and each function.  [GcFreeSpec], [GcRun]: dropping a reference, and a
    collection.

    _Sorting_ ([deps/cutils.c], 345 to 639, and [core/quickjs.c], 42657 to 42815).
    [Sort]: the quicksort behind the sorts of the engine, its heapsort and the
    exchange of elements, for a comparison that is any function of a state.
    [SortInv], [SortSpec]: its loops, and what it does.  [ArraySort]:
    [Array.prototype.sort], over an interface of array operations.
    [ArraySortSpec]: against a stable insertion sort.

    _Strings and atoms_ ([core/quickjs.c], 1922 to 3333, 4145 to 4216, 8590 to
    8622 and 50996 to 51069, and [deps/dtoa.c], 536 to 703).  [IntPrint]: the
    printing of integers in every radix.  [JSStrings]: comparing and hashing
    strings of 8- or 16-bit units, recognising numerals.  [Atoms]: the table of
    the interned names and symbols, in a runtime whose allocator may fail.
    [AtomsInv]: its invariant, relative to the references that are held.
    [AtomsOps], [AtomsNew], [AtomsInit]: freeing, interning, growth and rehashing,
    and the predefined atoms.  [AtomsClient]: a machine that holds references and
    calls the operations in any order.  [AtomsSpec]: the theorems.

    _String buffers, UTF-8 and ropes_ ([core/quickjs.c], 3573 to 4135 and 4216 to 4700,
    and [deps/cutils.c], 211 to 314).  [StringBuffer], [StringBufferSpec]: the
    buffers that strings are built in, over the bytes of their array.  [Utf8],
    [Utf8Spec]: code points and C strings.  [Ropes]: concatenation, rebalancing,
    comparing and flattening, as a monad whose outcomes are a result, an access
    outside of an array and no end.  [RopesSpec]: concatenation.  [RopesRead]:
    comparing and flattening.  [RopesDiverge]: a concatenation without end.
    [RopesAtoms]: what extending a string does to an atom.

    This file holds what all share: machine integers as [Z] with [wrap] and
    [sgn], the exceptions, the error monad, and lemmas on lists and bits.

    ** The theorems

    - _Refinement_: BigInt operators against the integers; Map and Set against a
      list of entries; defining, deleting and assigning properties, setting
      prototypes and preventing extensions against the internal methods of
      ordinary objects, every branch, with the other objects untouched although
      objects share their shapes.
    - _Invariants and safety_: the operations on objects return in every state
      that is reachable, whichever allocations fail, and keep the tables, the
      counts and the ends of the prototype chains; so do the operations on atoms
      and strings, with the table, its free list and the counts, exact but for those
      of predefined atoms; no sequence of Buffer calls leaves its memory, with calls
      of [copy] that do, and unless user code run by a conversion detaches a buffer,
      which does too; a promise is
      settled at most once, by the first call of its resolving functions; no
      comparison function makes the sort leave its array or its stack.
      Dropping a reference never frees what is still reachable and leaves every
      count exact; a collection frees exactly what is not reachable, once.
    - _Termination and liveness_: property lookups end within the number of
      objects; concatenation ends below 3524578 characters, and there is a longer one
      that does not; a queued job runs after those before it; a due timer fires within as
      many turns of the loop as there are timers before it, unless another timer
      that fires clears it; the loop ends only with nothing left to wait for.
    - _Functional correctness_: Knuth's division, the conversions between BigInts,
      doubles and machine integers, comparisons, the windows, copies, searches
      and byte orders of Buffers, the stable sort of arrays; two atoms are equal
      exactly when they are the same property key; concatenating, comparing and
      flattening ropes are what they are on flat strings.
    - _Round trips and bounds_: the Buffer encodings, [from] and [toString], [writeUInt] and [readUInt],
      the sizes the decoders allocate; strings and their atoms, integers and their
      numerals, strings and UTF-8; string buffers stay inside their arrays and hold
      exactly what was put into them.

    ** Conventions

    A C function that can fail returns an option, [res], or a computation of one of
    the two monads.  In [Shapes], [Objects], [Gc], [GcFree], [Atoms],
    [StringBuffer], [Utf8] and [JsMap], [None] is a failed [assert] or an access outside of the
    memory or to a freed object ([Crash] in [Ropes]), and the theorems prove that it does not happen; running out of memory there is a
    result of its own, decided by a list of answers of the allocator.  In [ArraySort] the
    allocation of the slots may fail.  Elsewhere allocation succeeds, except for the
    size limit of a BigInt and for an allocation of no bytes in [Encoding], which fails
    an assertion.  Addresses are integers that are not reused.

    _Fuel._  Loops that the C code ends by its data have fuel that is proved to be
    enough: the length of the arrays for hash chains (of the array of atoms for
    theirs), the size of the buffer for the digits of an integer, 32 for the doublings and
    halvings of a hash table below 2^27 entries, the number of objects for a chain
    of prototypes and for the lists of the collector, the number of limbs or of
    candidates for the BigInt loops, the number of leaves for the comparison of ropes.
    Only two fuels are not proved to suffice, and there running out is an outcome of
    its own: that of the depth of the calls of user code in [EventLoop], because
    programs need not terminate, and that of the calls of itself of the rebalancing of
    ropes: one call is enough below 3524578 characters, no number of them is for
    the rope of [RopesDiverge].

    _Bounds._  An object has at most 2^26 properties (the width of [hash_next]),
    and the table of the shapes at most 2^31 buckets; the array of the atoms has
    fewer than 715827883 elements, where [atom_size * 3] overflows ([small] in
    [AtomsClient]), and a symbol fewer weak references than its counter holds, as
    the code asserts; the limb width is 64, as on
    x86-64.  The slack of an allocation for a string buffer is below 2^28 bytes
    ([small_slack]), since the sizes are added in [int].  The clients of the atoms
    in [AtomsClient] do not extend strings in place: [RopesAtoms] shows what that does.

    ** Not modelled

    Of the engine: the parser, the bytecode and its interpreter, the built-ins of
    strings, [JS_NewAtomLen] and [JS_AtomIsNumericIndex1], the reference counts of
    ropes, the tables of the variables of stack frames (with the assertion of
    [free_var_ref] on them), regular expressions, Unicode
    tables and the printing of doubles; arrays,
    typed arrays other than those behind Buffers, proxies and other exotic
    objects, the global object and variable references; generators, async
    functions and modules; Date, JSON, Math, Reflect, Symbol and the other
    built-ins; weak references to objects.  Of the library: files, child processes, sockets,
    workers, the [std] and [os] modules beyond the loop, which are system calls.
    [repl.c] and the Unicode tables are generated.  The manifest lists these with reasons. *)

From Stdlib Require Import ZArith Lia Bool.
From stdpp Require Import base numbers list option strings.

#[local] Open Scope Z_scope.

(** ** C integer widths

    A [w]-bit unsigned integer is a [Z] in [0, 2^w); conversions and
    wrap-around are written with [wrap], signed reinterpretation with [sgn]. *)

Definition wrap (w z : Z) : Z := z mod 2 ^ w.
Definition sgn (w z : Z) : Z := (z + 2 ^ (w - 1)) mod 2 ^ w - 2 ^ (w - 1).

Abbreviation u8 := (wrap 8).
Abbreviation u16 := (wrap 16).
Abbreviation u32 := (wrap 32).
Abbreviation u64 := (wrap 64).
Abbreviation u128 := (wrap 128).
Abbreviation i32 := (sgn 32).
Abbreviation i64 := (sgn 64).

Definition in_u (w z : Z) : Prop := 0 <= z < 2 ^ w.
Definition in_s (w z : Z) : Prop := - 2 ^ (w - 1) <= z < 2 ^ (w - 1).

#[export] Instance in_u_dec w z : Decision (in_u w z).
Proof. unfold in_u. apply _. Defined.
#[export] Instance in_s_dec w z : Decision (in_s w z).
Proof. unfold in_s. apply _. Defined.

(** ** Errors

    The exceptions the modelled C functions raise.  [Throw] carries the class
    of the JavaScript exception and the message of the [JS_Throw...] call. *)

Inductive exn : Type :=
| TypeError (msg : string)
| RangeError (msg : string)
| SyntaxError (msg : string)
| InternalError (msg : string).

#[export] Instance exn_eq_dec : EqDecision exn.
Proof. solve_decision. Defined.

Inductive res (A : Type) : Type :=
| Ok (a : A)
| Throw (e : exn).
Arguments Ok {A} a.
Arguments Throw {A} e.

Definition res_bind {A B} (m : res A) (f : A -> res B) : res B :=
  match m with Ok a => f a | Throw e => Throw e end.

Declare Scope qn_scope.
Delimit Scope qn_scope with qn.
Notation "'let?' x ':=' m 'in' k" := (res_bind m (fun x => k))
  (at level 10, x pattern, m at level 100, k at level 200) : qn_scope.
Open Scope qn_scope.

Lemma res_bind_Ok_inv {A B} (m : res A) (f : A -> res B) b :
  res_bind m f = Ok b -> exists a, m = Ok a /\ f a = Ok b.
Proof. destruct m; simpl; [eauto | discriminate]. Qed.

(** ** Tactics *)

(** [inv_res H] decomposes [H : let? x := m in k = Ok b]. *)
Ltac inv_res H :=
  let a := fresh "a" in
  apply res_bind_Ok_inv in H as (a & ? & H).

(** Case analysis on the first boolean comparison of [Z] in the goal. *)
Ltac zcase :=
  match goal with
  | |- context [Z.ltb ?a ?b] => destruct (Z.ltb_spec a b)
  | |- context [Z.leb ?a ?b] => destruct (Z.leb_spec a b)
  | |- context [Z.eqb ?a ?b] => destruct (Z.eqb_spec a b)
  | |- context [Nat.ltb ?a ?b] => destruct (Nat.ltb_spec a b)
  | |- context [Nat.leb ?a ?b] => destruct (Nat.leb_spec a b)
  | |- context [Nat.eqb ?a ?b] => destruct (Nat.eqb_spec a b)
  end.

Ltac zcases := repeat zcase; try lia.

(** ** Width lemmas *)

Create HintDb width.
Create Rewrite HintDb width.

Lemma wrap_range w z : 0 <= w -> in_u w (wrap w z).
Proof. intros. apply Z.mod_pos_bound, Z.pow_pos_nonneg; lia. Qed.

Lemma wrap_small w z : in_u w z -> wrap w z = z.
Proof. apply Z.mod_small. Qed.

Lemma wrap_eq w z : 0 <= w -> exists k, wrap w z = z + k * 2 ^ w.
Proof.
  intros. exists (- (z / 2 ^ w)). unfold wrap.
  pose proof (Z.div_mod z (2 ^ w)) as E.
  assert (0 < 2 ^ w) by (apply Z.pow_pos_nonneg; lia). lia.
Qed.

Lemma wrap_unique w z r k : 0 <= w -> in_u w r -> z = r + k * 2 ^ w -> wrap w z = r.
Proof.
  intros Hw Hr ->. unfold wrap. rewrite Z.mod_add by (pose proof (Z.pow_pos_nonneg 2 w); lia).
  now apply Z.mod_small.
Qed.

Lemma sgn_range w z : 1 <= w -> in_s w (sgn w z).
Proof.
  intros Hw. unfold in_s, sgn.
  assert (2 ^ w = 2 * 2 ^ (w - 1)) as E by (rewrite <- Z.pow_succ_r by lia; f_equal; lia).
  pose proof (Z.mod_pos_bound (z + 2 ^ (w - 1)) (2 ^ w)).
  pose proof (Z.pow_pos_nonneg 2 (w - 1)). lia.
Qed.

Lemma sgn_small w z : 1 <= w -> in_s w z -> sgn w z = z.
Proof.
  intros Hw [? ?]. unfold sgn.
  assert (2 ^ w = 2 * 2 ^ (w - 1)) as E by (rewrite <- Z.pow_succ_r by lia; f_equal; lia).
  rewrite Z.mod_small by lia. lia.
Qed.

(** A [w]-bit pattern reinterpreted as signed, by its top bit. *)
Lemma sgn_of_unsigned w z :
  1 <= w -> in_u w z -> sgn w z = if 2 ^ (w - 1) <=? z then z - 2 ^ w else z.
Proof.
  intros Hw [? ?]. unfold sgn.
  assert (2 ^ w = 2 * 2 ^ (w - 1)) as E by (rewrite <- Z.pow_succ_r by lia; f_equal; lia).
  destruct (Z.leb_spec (2 ^ (w - 1)) z).
  - replace (z + 2 ^ (w - 1)) with (z - 2 ^ (w - 1) + 1 * 2 ^ w) by lia.
    rewrite Z.mod_add by lia. rewrite Z.mod_small by lia. lia.
  - rewrite Z.mod_small by lia. lia.
Qed.

Lemma wrap_sgn w z : 1 <= w -> wrap w (sgn w z) = wrap w z.
Proof.
  intros Hw. unfold wrap, sgn.
  rewrite Zminus_mod_idemp_l. f_equal. lia.
Qed.

Lemma sgn_wrap w z : 1 <= w -> sgn w (wrap w z) = sgn w z.
Proof. intros Hw. unfold wrap, sgn. now rewrite Zplus_mod_idemp_l. Qed.

#[export] Hint Resolve wrap_range sgn_range : width.
#[export] Hint Rewrite wrap_sgn sgn_wrap using lia : width.

(** ** Scaled quantities *)

Lemma scaled_range x d p : 0 < p -> 0 <= x * p < d * p -> 0 <= x < d.
Proof. intros Hp [H1 H2]. split; nia. Qed.

Lemma scaled_rem a m r p : a * p + r = m * p -> 0 <= r < p -> a = m /\ r = 0.
Proof.
  intros E Hr. assert ((m - a) * p = r) as E1 by lia.
  assert (0 <= m - a < 1) by (apply (scaled_range _ _ p); lia). nia.
Qed.

(** ** Booleans as C integers *)

Abbreviation b2z := Z.b2z.

Lemma b2z_range b : 0 <= Z.b2z b <= 1.
Proof. destruct b; simpl; lia. Qed.
#[export] Hint Resolve b2z_range : width.

Lemma lor_b2z b1 b2 : Z.lor (b2z b1) (b2z b2) = b2z (b1 || b2).
Proof. now destruct b1, b2. Qed.

(** ** Bits *)

Lemma land_pow2_mask x w : 0 <= w -> Z.land x (2 ^ w - 1) = x mod 2 ^ w.
Proof. intros. rewrite <- Z.land_ones by lia. now rewrite Z.ones_equiv. Qed.

Lemma testbit_high x w n : 0 <= x < 2 ^ w -> 0 <= w <= n -> Z.testbit x n = false.
Proof.
  intros Hx Hn. rewrite Z.testbit_eqb by lia. rewrite Z.div_small; [done|].
  split; [lia|]. apply Z.lt_le_trans with (2 ^ w); [lia | apply Z.pow_le_mono_r; lia].
Qed.

Lemma lor_disjoint_add a b w :
  0 <= w -> 0 <= b < 2 ^ w -> Z.lor (a * 2 ^ w) b = a * 2 ^ w + b.
Proof.
  intros Hw Hb. rewrite <- Z.shiftl_mul_pow2 by lia.
  assert (Z.land (Z.shiftl a w) b = 0) as E.
  { apply Z.bits_inj'. intros n Hn. rewrite Z.land_spec, Z.bits_0.
    destruct (Z.ltb_spec n w).
    - rewrite Z.shiftl_spec_low by lia. reflexivity.
    - rewrite (testbit_high b w) by lia. apply andb_false_r. }
  rewrite <- Z.lxor_lor by exact E. now rewrite <- Z.add_nocarry_lxor.
Qed.

(** The bits of a number made of a low field of [w] bits and the rest. *)
Lemma testbit_concat x w A n :
  0 <= x < 2 ^ w -> 0 <= w -> 0 <= n ->
  Z.testbit (x + 2 ^ w * A) n = if n <? w then Z.testbit x n else Z.testbit A (n - w).
Proof.
  intros Hx Hw Hn. rewrite Z.add_comm, Z.mul_comm, <- lor_disjoint_add by lia.
  rewrite Z.lor_spec, <- Z.shiftl_mul_pow2 by lia. destruct (Z.ltb_spec n w).
  - now rewrite Z.shiftl_spec_low by lia.
  - rewrite Z.shiftl_spec by lia. rewrite (testbit_high x w) by lia. apply orb_false_r.
Qed.

(** ** Lists *)

Lemma Forall_replicate_eq {A} (P : A -> Prop) n x : P x -> Forall P (replicate n x).
Proof. intros H. induction n; simpl; constructor; auto. Qed.

Lemma take_drop_length {A} (l : list A) n :
  (n <= length l)%nat -> length (take n l) = n /\ length (drop n l) = (length l - n)%nat.
Proof. rewrite length_take, length_drop. lia. Qed.

(** [last] element of a non-empty list, as the C idiom [tab[len - 1]]. *)
Definition top {A} (d : A) (l : list A) : A := List.last l d.

Lemma top_snoc {A} (d : A) l x : top d (l ++ [x]) = x.
Proof. unfold top. induction l as [|y l IH]; simpl; [done|]. destruct (l ++ [x]) eqn:E; [|done].
  destruct l; discriminate. Qed.

Lemma snoc_inv {A} (l : list A) : l <> [] -> exists l' x, l = l' ++ [x].
Proof.
  intros H. destruct l as [|y l] using rev_ind; [done|]. eauto.
Qed.
