(* ===== verification/Limbs.v ===== *)
(** * Limb arrays: the multi-precision kernels of [src/core/quickjs.c]

    The [mp_*] functions (lines 10872 to 11185) work on little-endian arrays
    of 64-bit limbs ([JS_LIMB_BITS = 64], the x86-64 configuration).  An array
    argument with its length [n] is a list of [n] limbs; a result array is the
    returned list, the C return value the second component.  [uval] is the
    natural number a limb array denotes; every kernel has one equation relating
    [uval] of its result to [uval] of its arguments, exact including carries. *)

From Stdlib Require Import ZArith Lia Bool.
From stdpp Require Import base numbers list option strings.
From S2P Require Import Prelude.

#[local] Open Scope Z_scope.

Definition JS_LIMB_BITS : Z := 64.

(** The limb base [2^64]. *)
Abbreviation LB := 18446744073709551616 (only parsing).

Definition limb (x : Z) : Prop := 0 <= x < LB.
Abbreviation limbs := (Forall limb).

(** ** Definitions *)

(** [ADDC(res, carry_out, op1, op2, carry_in)]: returns [(res, carry_out)]. *)
Definition ADDC (op1 op2 carry_in : Z) : Z * Z :=
  let v := op1 in
  let a := u64 (v + op2) in
  let k1 := b2z (a <? v) in
  let k := carry_in in
  let a := u64 (a + k) in
  (a, Z.lor (b2z (a <? k)) k1).

Definition js_limb_clz (a : Z) : Z := JS_LIMB_BITS - 1 - Z.log2 a.

Definition js_limb_safe_clz (a : Z) : Z :=
  if a =? 0 then JS_LIMB_BITS else js_limb_clz a.

Fixpoint mp_add (op1 op2 : list Z) (carry : Z) : list Z * Z :=
  match op1, op2 with
  | x :: op1, y :: op2 =>
      let (r, carry) := ADDC x y carry in
      let (rs, carry) := mp_add op1 op2 carry in
      (r :: rs, carry)
  | _, _ => ([], carry)
  end.

Fixpoint mp_sub (op1 op2 : list Z) (k : Z) : list Z * Z :=
  match op1, op2 with
  | v :: op1, y :: op2 =>
      let a := u64 (v - y) in
      let k1 := b2z (v <? a) in
      let v := u64 (a - k) in
      let k := Z.lor (b2z (a <? v)) k1 in
      let (rs, k) := mp_sub op1 op2 k in
      (v :: rs, k)
  | _, _ => ([], k)
  end.

(** The loop of [mp_neg]; [carry] starts at 1. *)
Fixpoint mp_neg_loop (op2 : list Z) (carry : Z) : list Z * Z :=
  match op2 with
  | x :: op2 =>
      let v := u64 (u64 (Z.lnot x) + carry) in
      let carry := b2z (v <? carry) in
      let (rs, carry) := mp_neg_loop op2 carry in
      (v :: rs, carry)
  | [] => ([], carry)
  end.

Definition mp_neg (op2 : list Z) : list Z * Z := mp_neg_loop op2 1.

Fixpoint mp_mul1 (taba : list Z) (b l : Z) : list Z * Z :=
  match taba with
  | x :: taba =>
      let t := u128 (x * b + l) in
      let (rs, l) := mp_mul1 taba b (Z.shiftr t JS_LIMB_BITS) in
      (u64 t :: rs, l)
  | [] => ([], l)
  end.

(** High limb first, as the loop runs: the recursion on the low limbs happens
    after the high ones have been divided, so the list is walked from its end
    with [foldr]-style recursion. *)
Fixpoint mp_div1 (taba : list Z) (b r : Z) : list Z * Z :=
  match taba with
  | x :: taba =>
      let (qs, r) := mp_div1 taba b r in
      let a1 := Z.lor (Z.shiftl r JS_LIMB_BITS) x in
      (u64 (a1 / b) :: qs, u64 (a1 mod b))
  | [] => ([], r)
  end.

Fixpoint mp_add_mul1 (tabr taba : list Z) (b l : Z) : list Z * Z :=
  match tabr, taba with
  | r :: tabr, x :: taba =>
      let t := u128 (x * b + l + r) in
      let (rs, l) := mp_add_mul1 tabr taba b (Z.shiftr t JS_LIMB_BITS) in
      (u64 t :: rs, l)
  | _, _ => ([], l)
  end.

(** The [for] loop of [mp_mul_basecase] over [op2[1..]]: [result] is the part
    of the array from index [i] on that already holds a partial sum
    ([op1_size] limbs); each turn leaves its lowest limb final and appends the
    high word. *)
Fixpoint mp_mul_rows (result op1 op2 : list Z) : list Z :=
  match op2 with
  | [] => result
  | y :: op2 =>
      match result with
      | lo :: window =>
          let (window, r) := mp_add_mul1 window op1 y 0 in
          lo :: mp_mul_rows (window ++ [r]) op1 op2
      | [] => []
      end
  end.

Definition mp_mul_basecase (op1 op2 : list Z) : list Z :=
  match op2 with
  | y :: op2 =>
      let (result, h) := mp_mul1 op1 y 0 in
      mp_mul_rows (result ++ [h]) op1 op2
  | [] => []
  end.

Fixpoint mp_sub_mul1 (tabr taba : list Z) (b l : Z) : list Z * Z :=
  match tabr, taba with
  | r :: tabr, x :: taba =>
      let t := u128 (r - x * b - l) in
      let (rs, l) := mp_sub_mul1 tabr taba b (u64 (- Z.shiftr t JS_LIMB_BITS)) in
      (u64 t :: rs, l)
  | _, _ => ([], l)
  end.

Definition udiv1norm_init (d : Z) : Z :=
  let a1 := u64 (- d - 1) in
  let a0 := u64 (-1) in
  u64 (Z.lor (Z.shiftl a1 JS_LIMB_BITS) a0 / d).

(** Returns [(q, r)]. *)
Definition udiv1norm (a1 a0 d d_inv : Z) : Z * Z :=
  let n1m := u64 (Z.shiftr (i64 a0) (JS_LIMB_BITS - 1)) in
  let n_adj := u64 (a0 + Z.land n1m d) in
  let a := u128 (d_inv * u64 (a1 - n1m) + n_adj) in
  let q := u64 (Z.shiftr a JS_LIMB_BITS + a1) in
  let a := Z.lor (Z.shiftl a1 JS_LIMB_BITS) a0 in
  let a := u128 (a - q * d - d) in
  let ah := u64 (Z.shiftr a JS_LIMB_BITS) in
  let q := u64 (q + u64 (1 + ah)) in
  let r := u64 (u64 a + Z.land ah d) in
  (q, r).

Definition UDIV1NORM_THRESHOLD : nat := 3.

(** The loop of [mp_div1norm] for [n >= UDIV1NORM_THRESHOLD]. *)
Fixpoint mp_div1norm_loop (taba : list Z) (b b_inv r : Z) : list Z * Z :=
  match taba with
  | x :: taba =>
      let (qs, r) := mp_div1norm_loop taba b b_inv r in
      let (q, r) := udiv1norm r x b b_inv in
      (q :: qs, r)
  | [] => ([], r)
  end.

Definition mp_div1norm (taba : list Z) (b r : Z) : list Z * Z :=
  if (UDIV1NORM_THRESHOLD <=? length taba)%nat
  then mp_div1norm_loop taba b (udiv1norm_init b) r
  else mp_div1 taba b r.

(** *** Schoolbook division by a normalized divisor ([mp_divnorm])

    The inner loop works on a window of [nb + 1] limbs of [taba]; the window's
    low limb is the next limb of the dividend, the others are the running
    remainder.  The dividend limbs still to be read are [low]. *)

(** The first quotient limb, 0 or 1: the comparison loop from the high limb
    down (both arguments are given high limb first). *)
Fixpoint divnorm_first_q (ra rb : list Z) : Z :=
  match ra, rb with
  | x :: ra, y :: rb =>
      if x =? y then divnorm_first_q ra rb else if x <? y then 0 else 1
  | _, _ => 1
  end.

(** The estimated quotient limb. *)
Definition divnorm_qhat (utop unext b1 b1_inv : Z) : Z :=
  if b1 <=? utop then u64 (-1)
  else if negb (b1_inv =? 0) then fst (udiv1norm utop unext b1 b1_inv)
  else u64 (Z.lor (Z.shiftl utop JS_LIMB_BITS) unext / b1).

(** The [for(;;)] add-back loop run when the estimate was too large.  It
    makes at most two turns ([divnorm_fix_spec]). *)
Fixpoint divnorm_fix (fuel : nat) (u : list Z) (utop q : Z) (tabb : list Z)
  : list Z * Z * Z :=
  match fuel with
  | O => (u, utop, q)
  | S fuel =>
      let q := u64 (q - 1) in
      let (u, c) := mp_add u tabb 0 in
      if negb (c =? 0) then
        let utop := u64 (utop + 1) in
        if utop =? 0 then (u, utop, q) else divnorm_fix fuel u utop q tabb
      else divnorm_fix fuel u utop q tabb
  end.

Definition divnorm_fuel : nat := 2.

(** One turn of the main loop: [u] is [taba[i .. i + nb]]; returns the new
    remainder window [taba[i .. i + nb - 1]] and the quotient limb. *)
Definition divnorm_step (u tabb : list Z) (b1 b1_inv : Z) : list Z * Z :=
  let nb := length tabb in
  let utop := List.nth nb u 0 in
  let q := divnorm_qhat utop (List.nth (nb - 1) u 0) b1 b1_inv in
  let (w, r) := mp_sub_mul1 (take nb u) tabb q 0 in
  let v := utop in
  let a := u64 (v - r) in
  if v <? a then let '(w, _, q) := divnorm_fix divnorm_fuel w a q tabb in (w, q)
  else (w, q).

Fixpoint divnorm_loop (low w tabb : list Z) (b1 b1_inv : Z) : list Z * list Z :=
  match low with
  | [] => ([], w)
  | x :: low =>
      let (qs, w) := divnorm_loop low w tabb b1 b1_inv in
      let (w, q) := divnorm_step (x :: w) tabb b1 b1_inv in
      (q :: qs, w)
  end.

(** Returns [(tabq, remainder)]: [length taba - length tabb + 1] quotient
    limbs and [length tabb] remainder limbs. *)
Definition mp_divnorm (taba tabb : list Z) : list Z * list Z :=
  let na := length taba in
  let nb := length tabb in
  let b1 := top 0 tabb in
  if (nb =? 1)%nat then
    let (tabq, r) := mp_div1norm taba b1 0 in (tabq, [r])
  else
    let n := (na - nb)%nat in
    let b1_inv := if (UDIV1NORM_THRESHOLD <=? n)%nat then udiv1norm_init b1 else 0 in
    let high := drop n taba in
    let q := divnorm_first_q (rev high) (rev tabb) in
    let high := if negb (q =? 0) then fst (mp_sub high tabb 0) else high in
    let (qs, w) := divnorm_loop (take n taba) high tabb b1 b1_inv in
    (qs ++ [q], w).

Fixpoint mp_shl (taba : list Z) (shift l : Z) : list Z * Z :=
  match taba with
  | v :: taba =>
      let (rs, l') := mp_shl taba shift (Z.shiftr v (JS_LIMB_BITS - shift)) in
      (Z.lor (u64 (Z.shiftl v shift)) l :: rs, l')
  | [] => ([], l)
  end.

(** Returns the shifted array and the last limb read ([l] in the C loop). *)
Fixpoint mp_shr_loop (tab : list Z) (shift l : Z) : list Z * Z :=
  match tab with
  | a :: tab =>
      let (rs, l) := mp_shr_loop tab shift l in
      (Z.lor (Z.shiftr a shift) (u64 (Z.shiftl l (JS_LIMB_BITS - shift))) :: rs, a)
  | [] => ([], l)
  end.

Definition mp_shr (tab : list Z) (shift high : Z) : list Z * Z :=
  let (rs, l) := mp_shr_loop tab shift high in
  (rs, Z.land l (u64 (Z.shiftl 1 shift) - 1)).

(** ** The number a limb array denotes *)

Fixpoint uval (l : list Z) : Z :=
  match l with
  | [] => 0
  | x :: l => x + LB * uval l
  end.

(** [LB^n] for a list length. *)
Definition Bp (n : nat) : Z := LB ^ Z.of_nat n.

Lemma Bp_0 : Bp 0 = 1.
Proof. reflexivity. Qed.

Lemma Bp_S n : Bp (S n) = LB * Bp n.
Proof. unfold Bp. rewrite Nat2Z.inj_succ, Z.pow_succ_r; lia. Qed.

Lemma Bp_pos n : 0 < Bp n.
Proof. unfold Bp. apply Z.pow_pos_nonneg; lia. Qed.

Lemma Bp_add n m : Bp (n + m) = Bp n * Bp m.
Proof. unfold Bp. rewrite Nat2Z.inj_add, Z.pow_add_r; lia. Qed.

Lemma Bp_1 : Bp 1 = LB.
Proof. reflexivity. Qed.

#[export] Hint Resolve Bp_pos : width.

Lemma uval_app l1 l2 : uval (l1 ++ l2) = uval l1 + Bp (length l1) * uval l2.
Proof.
  induction l1 as [|x l1 IH]; cbn [uval app length]; [rewrite Bp_0; lia|].
  rewrite IH, Bp_S. lia.
Qed.

Lemma uval_snoc l x : uval (l ++ [x]) = uval l + Bp (length l) * x.
Proof. rewrite uval_app. cbn [uval]. lia. Qed.

Lemma uval_range l : limbs l -> 0 <= uval l < Bp (length l).
Proof.
  unfold limb. induction 1 as [|x l Hx Hl IH]; cbn [uval length]; [rewrite Bp_0; lia|].
  rewrite Bp_S. lia.
Qed.

Lemma uval_replicate_0 n : uval (replicate n 0) = 0.
Proof. induction n; cbn [uval replicate]; lia. Qed.

Lemma uval_replicate_max n : uval (replicate n (LB - 1)) = Bp n - 1.
Proof. induction n; cbn [uval replicate]; [reflexivity|]. rewrite Bp_S. lia. Qed.

(** Limb arrays of one length are determined by their value. *)
Lemma uval_inj l1 l2 :
  limbs l1 -> limbs l2 -> length l1 = length l2 -> uval l1 = uval l2 -> l1 = l2.
Proof.
  unfold limb. intros H1. revert l2. induction H1 as [|x l1 Hx Hl IH];
    intros [|y l2] H2 Hlen E; try discriminate; [done|].
  inversion H2; subst. cbn [uval] in E. simpl in Hlen.
  assert (uval l1 = uval l2) by lia. assert (x = y) by lia. subst.
  f_equal. apply IH; auto.
Qed.

(** ** Single-limb facts *)

Lemma u64_limb z : limb (u64 z).
Proof. apply (wrap_range 64). lia. Qed.
#[export] Hint Resolve u64_limb : width.

Lemma u64_eq z : exists k, u64 z = z + k * LB.
Proof. apply (wrap_eq 64). lia. Qed.

Lemma u128_small z : 0 <= z < LB * LB -> u128 z = z.
Proof. intros. apply wrap_small. unfold in_u. lia. Qed.

Lemma u64_small z : limb z -> u64 z = z.
Proof. intros. apply wrap_small. exact H. Qed.

Lemma u128_split t : 0 <= t < LB * LB -> t = u64 t + LB * Z.shiftr t JS_LIMB_BITS /\ limb (Z.shiftr t JS_LIMB_BITS).
Proof.
  intros H. unfold JS_LIMB_BITS, limb, wrap. rewrite Z.shiftr_div_pow2 by lia.
  change (2 ^ 64) with LB. pose proof (Z.div_mod t LB). pose proof (Z.mod_pos_bound t LB).
  nia.
Qed.

Lemma shiftl_lor_limb r x : limb x -> Z.lor (Z.shiftl r JS_LIMB_BITS) x = r * LB + x.
Proof.
  intros Hx. unfold JS_LIMB_BITS. rewrite Z.shiftl_mul_pow2 by lia.
  apply lor_disjoint_add; [lia | exact Hx].
Qed.

Lemma ADDC_spec x y c r c' :
  limb x -> limb y -> 0 <= c <= 1 -> ADDC x y c = (r, c') ->
  r + LB * c' = x + y + c /\ limb r /\ 0 <= c' <= 1.
Proof.
  unfold ADDC. intros Hx Hy Hc [= <- <-]. rewrite lor_b2z.
  destruct (u64_eq (x + y)) as [k1 E1]. destruct (u64_eq (u64 (x + y) + c)) as [k2 E2].
  pose proof (u64_limb (x + y)) as R1. pose proof (u64_limb (u64 (x + y) + c)) as R2.
  unfold limb in *.
  set (a := u64 (x + y)) in *. set (b := u64 (a + c)) in *.
  destruct (Z.ltb_spec b c), (Z.ltb_spec a x); cbn [Z.b2z orb]; lia.
Qed.

(** One limb of a subtraction with borrow. *)
Lemma subb_spec x y k :
  limb x -> limb y -> 0 <= k <= 1 ->
  let a := u64 (x - y) in let v := u64 (a - k) in
  let k' := Z.lor (b2z (a <? v)) (b2z (x <? a)) in
  v - LB * k' = x - y - k /\ limb v /\ 0 <= k' <= 1.
Proof.
  intros Hx Hy Hk a v. rewrite lor_b2z. cbv zeta.
  destruct (u64_eq (x - y)) as [k1 E1]. destruct (u64_eq (a - k)) as [k2 E2].
  pose proof (u64_limb (x - y)) as R1. pose proof (u64_limb (a - k)) as R2.
  fold a in E1, R1. fold v in E2, R2. unfold limb in *. clearbody a v.
  destruct (Z.ltb_spec a v), (Z.ltb_spec x a); cbn [Z.b2z orb]; lia.
Qed.

Lemma u64_lnot x : limb x -> u64 (Z.lnot x) = LB - 1 - x.
Proof.
  unfold limb. intros Hx. apply (wrap_unique 64) with (k := -1); [lia | unfold in_u; lia|].
  unfold Z.lnot. lia.
Qed.

(** Side conditions of the kernel equations: limb membership, lengths. *)
Ltac limb_side := auto with width; try lia; try (unfold limb in *; lia).

(** ** The kernels *)

Lemma mp_add_spec op1 op2 c r c' :
  limbs op1 -> limbs op2 -> length op1 = length op2 -> 0 <= c <= 1 ->
  mp_add op1 op2 c = (r, c') ->
  uval r + Bp (length op1) * c' = uval op1 + uval op2 + c /\
  limbs r /\ length r = length op1 /\ 0 <= c' <= 1.
Proof.
  intros H1. revert op2 c r c'. induction H1 as [|x op1 Hx H1 IH];
    intros [|y op2] c r c' H2 Hlen Hc E; try discriminate; cbn [mp_add] in E.
  - injection E as <- <-. cbn [uval length]. rewrite Bp_0. split_and!; auto; lia.
  - inversion H2; subst. destruct (ADDC x y c) as [r0 c0] eqn:E0.
    destruct (mp_add op1 op2 c0) as [rs c1] eqn:E1. injection E as <- <-.
    apply ADDC_spec in E0 as (E0 & ? & ?); auto.
    apply IH in E1 as (E1 & ? & ? & ?); auto.
    cbn [uval length]. rewrite Bp_S. split_and!; auto; lia.
Qed.

Lemma mp_sub_spec op1 op2 k r k' :
  limbs op1 -> limbs op2 -> length op1 = length op2 -> 0 <= k <= 1 ->
  mp_sub op1 op2 k = (r, k') ->
  uval r - Bp (length op1) * k' = uval op1 - uval op2 - k /\
  limbs r /\ length r = length op1 /\ 0 <= k' <= 1.
Proof.
  intros H1. revert op2 k r k'. induction H1 as [|x op1 Hx H1 IH];
    intros [|y op2] k r k' H2 Hlen Hk E; try discriminate; cbn [mp_sub] in E.
  - injection E as <- <-. cbn [uval length]. rewrite Bp_0. split_and!; auto; lia.
  - inversion H2; subst.
    destruct (subb_spec x y k) as (E0 & ? & ?); auto. cbv zeta in *.
    destruct (mp_sub op1 op2 _) as [rs k1] eqn:E1. injection E as <- <-.
    apply IH in E1 as (E1 & ? & ? & ?); auto.
    cbn [uval length]. rewrite Bp_S. split_and!; auto; lia.
Qed.

Lemma mp_neg_loop_spec op c r c' :
  limbs op -> 0 <= c <= 1 -> mp_neg_loop op c = (r, c') ->
  uval r + Bp (length op) * c' = Bp (length op) - 1 - uval op + c /\
  limbs r /\ length r = length op /\ 0 <= c' <= 1.
Proof.
  intros H. revert c r c'. induction H as [|x op Hx H IH]; intros c r c' Hc E;
    cbn [mp_neg_loop] in E.
  - injection E as <- <-. cbn [uval length]. rewrite Bp_0. split_and!; auto; lia.
  - rewrite u64_lnot in E by done. unfold limb in Hx.
    destruct (u64_eq (LB - 1 - x + c)) as [k Ek].
    pose proof (u64_limb (LB - 1 - x + c)) as Rk. unfold limb in Rk.
    set (v := u64 (LB - 1 - x + c)) in *. pose proof (b2z_range (v <? c)).
    destruct (mp_neg_loop op _) as [rs c1] eqn:E1. injection E as <- <-.
    apply IH in E1 as (E1 & ? & ? & ?); auto.
    cbn [uval length]. rewrite Bp_S. split_and!; auto; try lia.
    destruct (Z.ltb_spec v c); cbn [Z.b2z] in *; lia.
Qed.

Lemma mp_neg_spec op r c' :
  limbs op -> mp_neg op = (r, c') ->
  uval r + Bp (length op) * c' = Bp (length op) - uval op /\
  limbs r /\ length r = length op /\ 0 <= c' <= 1.
Proof. intros H E. apply mp_neg_loop_spec in E; intuition lia. Qed.

(** The double-limb accumulator of the multiplication loops never overflows. *)
Lemma mul_acc_range x b l r :
  limb x -> limb b -> limb l -> limb r -> 0 <= x * b + l + r < LB * LB.
Proof. unfold limb. nia. Qed.

Lemma mp_mul1_spec a b l r l' :
  limbs a -> limb b -> limb l -> mp_mul1 a b l = (r, l') ->
  uval r + Bp (length a) * l' = uval a * b + l /\
  limbs r /\ length r = length a /\ limb l'.
Proof.
  intros H Hb. revert l r l'. induction H as [|x a Hx H IH]; intros l r l' Hl E;
    cbn [mp_mul1] in E.
  - injection E as <- <-. cbn [uval length]. rewrite Bp_0. split_and!; auto; lia.
  - assert (limb 0) as H0 by (unfold limb; lia).
    pose proof (mul_acc_range x b l 0 Hx Hb Hl H0) as Ht.
    rewrite u128_small in E by lia. destruct (u128_split (x * b + l)) as [Et ?]; [lia|].
    destruct (mp_mul1 a b _) as [rs l1] eqn:E1. injection E as <- <-.
    apply IH in E1 as (E1 & ? & ? & ?); auto.
    cbn [uval length]. rewrite Bp_S.
    split_and!; auto with width; nia.
Qed.

Lemma mp_add_mul1_spec t a b l r l' :
  limbs t -> limbs a -> length t = length a -> limb b -> limb l ->
  mp_add_mul1 t a b l = (r, l') ->
  uval r + Bp (length a) * l' = uval t + uval a * b + l /\
  limbs r /\ length r = length a /\ limb l'.
Proof.
  intros H Ha Hlen Hb. revert a l r l' Ha Hlen.
  induction H as [|y t Hy H IH]; intros [|x a] l r l' Ha Hlen Hl E; try discriminate;
    cbn [mp_add_mul1] in E.
  - injection E as <- <-. cbn [uval length]. rewrite Bp_0. split_and!; auto; lia.
  - inversion Ha as [|? ? Hx Ha']; subst.
    pose proof (mul_acc_range x b l y Hx Hb Hl Hy) as Ht.
    rewrite u128_small in E by lia. destruct (u128_split (x * b + l + y)) as [Et ?]; [lia|].
    destruct (mp_add_mul1 t a b _) as [rs l1] eqn:E1. injection E as <- <-.
    apply IH in E1 as (E1 & ? & ? & ?); auto.
    cbn [uval length]. rewrite Bp_S.
    split_and!; auto with width; nia.
Qed.

Lemma mp_mul_rows_spec result op1 op2 :
  limbs result -> limbs op1 -> limbs op2 -> length result = S (length op1) ->
  uval (mp_mul_rows result op1 op2) = uval result + LB * (uval op1 * uval op2) /\
  limbs (mp_mul_rows result op1 op2) /\
  length (mp_mul_rows result op1 op2) = (length result + length op2)%nat.
Proof.
  intros Hr H1 H2. revert result Hr. induction H2 as [|y op2 Hy H2 IH];
    intros result Hr Hlen; cbn [mp_mul_rows].
  - cbn [uval length]. split_and!; auto; lia.
  - destruct result as [|lo w]; [discriminate|].
    inversion Hr as [|? ? Hlo Hw]; subst. cbn [length] in Hlen.
    destruct (mp_add_mul1 w op1 y 0) as [w' r] eqn:E.
    apply mp_add_mul1_spec in E as (E & Hw' & Hlw & Hr'); limb_side.
    destruct (IH (w' ++ [r])) as (EV & HL & HN).
    { apply Forall_app; auto. } { rewrite length_app; simpl; lia. }
    rewrite uval_snoc in EV. rewrite length_app in HN. cbn [length] in *.
    cbn [uval]. rewrite EV, Hlw. split_and!; [nia | auto | lia].
Qed.

Lemma mp_mul_basecase_spec op1 op2 :
  limbs op1 -> limbs op2 -> op2 <> [] ->
  uval (mp_mul_basecase op1 op2) = uval op1 * uval op2 /\
  limbs (mp_mul_basecase op1 op2) /\
  length (mp_mul_basecase op1 op2) = (length op1 + length op2)%nat.
Proof.
  intros H1 H2 Hne. destruct op2 as [|y op2]; [done|]. inversion H2; subst.
  unfold mp_mul_basecase. destruct (mp_mul1 op1 y 0) as [r h] eqn:E.
  apply mp_mul1_spec in E as (E & Hr & Hl & Hh); limb_side.
  destruct (mp_mul_rows_spec (r ++ [h]) op1 op2) as (EV & HL & HN); auto.
  { apply Forall_app; auto. } { rewrite length_app; simpl; lia. }
  rewrite uval_snoc, Hl in EV. rewrite length_app in HN. cbn [uval length] in *.
  split_and!; [nia | auto | lia].
Qed.

(** One step of the multiply-and-subtract loop: the borrow limb. *)
Lemma sub_mul_step r x b l :
  limb r -> limb x -> limb b -> limb l ->
  let t := u128 (r - x * b - l) in
  let l' := u64 (- Z.shiftr t JS_LIMB_BITS) in
  u64 t - LB * l' = r - x * b - l /\ limb l'.
Proof.
  unfold limb. intros Hr Hx Hb Hl. cbv zeta.
  assert (- (LB - 1) * LB <= r - x * b - l < LB) as Hrange by nia.
  set (z := r - x * b - l) in *. clearbody z.
  pose proof (Z.div_mod z LB) as Ez. pose proof (Z.mod_pos_bound z LB) as Rz.
  set (hi := z / LB) in *. set (lo := z mod LB) in *. clearbody hi lo.
  assert (- (LB - 1) <= hi <= 0) by lia.
  assert (exists k, u128 z = (hi + k * LB) * LB + lo) as [k Ek].
  { destruct (wrap_eq 128 z) as [k Ek]; [lia|]. exists k. rewrite Ek.
    change (2 ^ 128) with (LB * LB). lia. }
  rewrite Ek. unfold JS_LIMB_BITS. rewrite Z.shiftr_div_pow2 by lia. change (2 ^ 64) with LB.
  rewrite Z.div_add_l, Z.div_small, Z.add_0_r by lia.
  rewrite (wrap_unique 64 _ lo (hi + k * LB)) by (unfold in_u; lia).
  rewrite (wrap_unique 64 _ (- hi) (- k)) by (unfold in_u; lia).
  unfold limb. lia.
Qed.

Lemma mp_sub_mul1_spec t a b l r l' :
  limbs t -> limbs a -> length t = length a -> limb b -> limb l ->
  mp_sub_mul1 t a b l = (r, l') ->
  uval r - Bp (length a) * l' = uval t - uval a * b - l /\
  limbs r /\ length r = length a /\ limb l'.
Proof.
  intros H Ha Hlen Hb. revert a l r l' Ha Hlen.
  induction H as [|y t Hy H IH]; intros [|x a] l r l' Ha Hlen Hl E; try discriminate;
    cbn [mp_sub_mul1] in E.
  - injection E as <- <-. cbn [uval length]. rewrite Bp_0. split_and!; auto; lia.
  - inversion Ha as [|? ? Hx Ha']; subst.
    destruct (sub_mul_step y x b l) as [Et ?]; auto. cbv zeta in *.
    destruct (mp_sub_mul1 t a b _) as [rs l1] eqn:E1. injection E as <- <-.
    apply IH in E1 as (E1 & ? & ? & ?); auto.
    cbn [uval length]. rewrite Bp_S. split_and!; auto with width; nia.
Qed.

(** Division of a limb array by one limb, by any function [dstep] that divides
    the two-limb number [r:x]. *)
Lemma div_step r x b :
  limb x -> limb b -> 0 <= r < b ->
  let a1 := Z.lor (Z.shiftl r JS_LIMB_BITS) x in
  u64 (a1 / b) * b + u64 (a1 mod b) = r * LB + x /\
  limb (u64 (a1 / b)) /\ 0 <= u64 (a1 mod b) < b.
Proof.
  intros Hx Hb Hr. cbv zeta. rewrite shiftl_lor_limb by done. unfold limb in *.
  pose proof (Z.div_mod (r * LB + x) b) as E. pose proof (Z.mod_pos_bound (r * LB + x) b) as R.
  assert (0 <= (r * LB + x) / b < LB) as Q.
  { split; [apply Z.div_pos; lia | apply Z.div_lt_upper_bound; nia]. }
  rewrite !u64_small by (unfold limb; lia). nia.
Qed.

Lemma mp_div1_spec a b r q r' :
  limbs a -> limb b -> 0 <= r < b -> mp_div1 a b r = (q, r') ->
  uval a + Bp (length a) * r = b * uval q + r' /\
  limbs q /\ length q = length a /\ 0 <= r' < b.
Proof.
  intros H Hb. revert r q r'. induction H as [|x a Hx H IH]; intros r q r' Hr E;
    cbn [mp_div1] in E.
  - injection E as <- <-. cbn [uval length]. rewrite Bp_0. split_and!; auto; lia.
  - destruct (mp_div1 a b r) as [qs r1] eqn:E1. injection E as <- <-.
    apply IH in E1 as (E1 & ? & ? & Hr1); auto.
    destruct (div_step r1 x b) as (E2 & ? & ?); auto. cbv zeta in *.
    cbn [uval length]. rewrite Bp_S. split_and!; auto; nia.
Qed.

(** *** Division by an invariant normalized limb *)

(** The precomputed reciprocal: [d_inv * d = LB^2 - 1 - LB * d - e], [0 <= e < d]. *)
Lemma udiv1norm_init_spec d :
  LB / 2 <= d < LB ->
  exists e, 0 <= e < d /\ udiv1norm_init d * d = LB * LB - 1 - LB * d - e /\ limb (udiv1norm_init d).
Proof.
  intros Hd. change (LB / 2) with 9223372036854775808 in Hd. unfold udiv1norm_init.
  rewrite (wrap_unique 64 (- d - 1) (LB - 1 - d) (-1)) by (unfold in_u; lia).
  rewrite (wrap_unique 64 (-1) (LB - 1) (-1)) by (unfold in_u; lia).
  rewrite shiftl_lor_limb by (unfold limb; lia).
  set (N := (LB - 1 - d) * LB + (LB - 1)).
  pose proof (Z.div_mod N d) as E. pose proof (Z.mod_pos_bound N d) as R.
  assert (0 <= N / d < LB) as Q.
  { split; [apply Z.div_pos; lia | apply Z.div_lt_upper_bound; lia]. }
  rewrite u64_small by exact Q. exists (N mod d). unfold limb. split_and!; lia.
Qed.

(** The estimate [q1] of the Granlund-Montgomery division is low by at most one. *)
Lemma udiv1norm_estimate d a1 a0 m e nb nadj s1 s0 :
  LB / 2 <= d < LB -> 0 <= a1 < d -> 0 <= a0 < LB ->
  0 <= e < d -> m * d = LB * LB - 1 - LB * d - e ->
  (nb = 0 /\ nadj = a0 /\ a0 < LB / 2 \/ nb = 1 /\ nadj = a0 + d - LB /\ LB / 2 <= a0) ->
  m * (a1 + nb) + nadj = LB * s1 + s0 -> 0 <= s0 < LB ->
  0 <= a1 * LB + a0 - (a1 + s1) * d < 2 * d.
Proof.
  change (LB / 2) with 9223372036854775808.
  intros Hd Ha1 Ha0 He Em Hnb ES Hs0.
  assert (LB * (a1 * LB + a0 - (a1 + s1) * d) =
          LB * a0 + (1 + e) * (a1 + nb) - (LB * LB - LB * d) * nb - d * nadj + d * s0) as E.
  { assert (d * (m * (a1 + nb) + nadj) = d * (LB * s1 + s0)) as E1 by congruence.
    assert ((m * d) * (a1 + nb) = (LB * LB - 1 - LB * d - e) * (a1 + nb)) as E2 by congruence.
    nia. }
  assert (0 <= (1 + e) * (a1 + nb) <= d * d) by (destruct Hnb as [(-> & _)|(-> & _)]; nia).
  assert (0 <= d * s0 <= d * (LB - 1)) by nia.
  clear Em ES. destruct Hnb as [(-> & -> & Htop)|(-> & -> & Htop)].
  - assert (0 <= a0 * (LB - d) <= d * (LB - d)).
    { split; [apply Z.mul_nonneg_nonneg | apply Z.mul_le_mono_nonneg_r]; lia. }
    lia.
  - assert (0 <= (a0 - LB + d) * (LB - d) <= d * (LB - d)).
    { split; [apply Z.mul_nonneg_nonneg | apply Z.mul_le_mono_nonneg_r]; lia. }
    lia.
Qed.

(** The final correction, on the two's complement double limb. *)
Lemma udiv1norm_correct d n q1 :
  LB / 2 <= d < LB -> 0 <= n - q1 * d < 2 * d -> 0 <= q1 < LB - 1 \/ 0 <= q1 < LB /\ n - q1 * d < d ->
  let a := u128 (n - q1 * d - d) in
  let ah := u64 (Z.shiftr a JS_LIMB_BITS) in
  let q := u64 (q1 + u64 (1 + ah)) in
  let r := u64 (u64 a + Z.land ah d) in
  n = q * d + r /\ 0 <= r < d /\ limb q.
Proof.
  change (LB / 2) with 9223372036854775808. intros Hd Hr Hq. cbv zeta.
  set (x := n - q1 * d - d) in *. unfold JS_LIMB_BITS. rewrite Z.shiftr_div_pow2 by lia.
  change (2 ^ 64) with LB.
  destruct (Z.ltb_spec x 0).
  - rewrite (wrap_unique 128 x (LB * LB + x) (-1)) by (unfold in_u; change (2 ^ 128) with (LB * LB); lia).
    assert ((LB * LB + x) / LB = LB - 1) as ->.
    { symmetry. apply Z.div_unique with (LB + x); lia. }
    rewrite (u64_small (LB - 1)) by (unfold limb; lia).
    change (1 + (LB - 1)) with (1 * LB). rewrite (wrap_unique 64 (1 * LB) 0 1) by (unfold in_u; lia).
    rewrite Z.add_0_r, (u64_small q1) by (unfold limb; lia).
    rewrite (wrap_unique 64 (LB * LB + x) (LB + x) (LB - 1)) by (unfold in_u; lia).
    rewrite Z.land_comm. change (LB - 1) with (2 ^ 64 - 1). rewrite land_pow2_mask by lia.
    rewrite (Z.mod_small d) by (change (2 ^ 64) with LB; lia).
    rewrite (wrap_unique 64 _ (x + d) 1) by (unfold in_u; lia). unfold limb. lia.
  - rewrite (wrap_small 128 x) by (unfold in_u; change (2 ^ 128) with (LB * LB); lia).
    rewrite (Z.div_small x LB) by lia. rewrite (u64_small 0) by (unfold limb; lia).
    rewrite Z.land_0_l, !Z.add_0_r, !(u64_small x) by (unfold limb; lia).
    rewrite (u64_small 1), (u64_small (q1 + 1)) by (unfold limb; lia). unfold limb. lia.
Qed.

Lemma quotient_limb n d q : 0 < d -> n < LB * d -> 0 <= n - q * d -> q < LB.
Proof.
  intros Hd Hn Hq. destruct (Z.lt_ge_cases q LB) as [|H]; [done|].
  apply (Z.mul_le_mono_nonneg_r _ _ d) in H; lia.
Qed.

Lemma quotient_nonneg q d r : r < d -> 0 <= q * d + r -> 0 < d -> 0 <= q.
Proof.
  intros Hr Hn Hd. destruct (Z.lt_ge_cases q 0) as [H|]; [|done].
  assert (q * d <= (-1) * d) by (apply Z.mul_le_mono_nonneg_r; lia). lia.
Qed.

Lemma high_word_zero r m a v : 0 < m -> 0 <= a -> 0 <= r -> r + m * a = v -> v < m -> a = 0.
Proof.
  intros Hm Ha Hr E Hv. destruct (Z.eq_dec a 0); [done|].
  assert (m * 1 <= m * a) by (apply Z.mul_le_mono_nonneg_l; lia). lia.
Qed.

Lemma udiv1norm_spec a1 a0 d q r :
  LB / 2 <= d < LB -> 0 <= a1 < d -> limb a0 ->
  udiv1norm a1 a0 d (udiv1norm_init d) = (q, r) ->
  a1 * LB + a0 = q * d + r /\ 0 <= r < d /\ limb q.
Proof.
  intros Hd Ha1 Ha0 E. destruct (udiv1norm_init_spec d Hd) as (e & He & Em & Hm).
  unfold udiv1norm in E. rewrite shiftl_lor_limb in E by done.
  set (m := udiv1norm_init d) in *. clearbody m.
  change (LB / 2) with 9223372036854775808 in *. unfold limb in *.
  set (nb := if 2 ^ 63 <=? a0 then 1 else 0).
  assert (u64 (Z.shiftr (i64 a0) (JS_LIMB_BITS - 1)) = if 2 ^ 63 <=? a0 then LB - 1 else 0) as En.
  { rewrite sgn_of_unsigned by (unfold in_u; lia). change (64 - 1) with 63.
    rewrite Z.shiftr_div_pow2 by (unfold JS_LIMB_BITS; lia).
    change (2 ^ (JS_LIMB_BITS - 1)) with (2 ^ 63).
    destruct (Z.leb_spec (2 ^ 63) a0).
    - assert ((a0 - 2 ^ 64) / 2 ^ 63 = -1) as ->; [|reflexivity].
      symmetry. apply Z.div_unique with (a0 - 2 ^ 63); lia.
    - rewrite Z.div_small by lia. reflexivity. }
  rewrite En in E. clear En.
  set (nadj := if 2 ^ 63 <=? a0 then a0 + d - LB else a0).
  assert (u64 (a0 + Z.land (if 2 ^ 63 <=? a0 then LB - 1 else 0) d) = nadj) as Ea.
  { subst nadj. destruct (Z.leb_spec (2 ^ 63) a0).
    - rewrite Z.land_comm. change (LB - 1) with (2 ^ 64 - 1). rewrite land_pow2_mask by lia.
      rewrite (Z.mod_small d) by (change (2 ^ 64) with LB; lia).
      apply (wrap_unique 64) with 1; unfold in_u; lia.
    - rewrite Z.land_0_l, Z.add_0_r. apply u64_small. unfold limb; lia. }
  rewrite Ea in E.
  assert (u64 (a1 - (if 2 ^ 63 <=? a0 then LB - 1 else 0)) = a1 + nb) as Eb.
  { subst nb. destruct (Z.leb_spec (2 ^ 63) a0).
    - apply (wrap_unique 64) with (-1); unfold in_u; lia.
    - rewrite Z.sub_0_r, Z.add_0_r. apply u64_small. unfold limb; lia. }
  rewrite Eb in E. clear Ea Eb.
  assert (0 <= nadj < LB /\ 0 <= nb <= 1) as [Hnadj Hnb]
    by (subst nadj nb; destruct (Z.leb_spec (2 ^ 63) a0); lia).
  assert (0 <= m * (a1 + nb) + nadj < LB * LB) as HS by nia.
  rewrite u128_small in E by lia.
  set (S := m * (a1 + nb) + nadj) in *.
  replace (Z.shiftr S JS_LIMB_BITS) with (S / LB) in E
    by (unfold JS_LIMB_BITS; rewrite Z.shiftr_div_pow2; [reflexivity | lia]).
  pose proof (Z.div_mod S LB) as ES. pose proof (Z.mod_pos_bound S LB) as RS.
  assert (0 <= S / LB < LB) as HSd by (split; [apply Z.div_pos; lia | apply Z.div_lt_upper_bound; lia]).
  assert (nb = 0 /\ nadj = a0 /\ a0 < LB / 2 \/ nb = 1 /\ nadj = a0 + d - LB /\ LB / 2 <= a0) as Hcase.
  { subst nb nadj. change (LB / 2) with (2 ^ 63).
    destruct (Z.leb_spec (2 ^ 63) a0); [right|left]; lia. }
  pose proof (udiv1norm_estimate d a1 a0 m e nb nadj (S / LB) (S mod LB)
    Hd Ha1 Ha0 He Em Hcase (ES ltac:(lia)) (RS ltac:(lia))) as [Hlo Hhi].
  set (q1 := a1 + S / LB) in *.
  rewrite (Z.add_comm (S / LB) a1) in E. fold q1 in E.
  assert (a1 * LB + a0 < LB * d) as Hn by (clear - Ha1 Ha0; lia).
  assert (0 <= q1 < LB) as Hq1.
  { split; [subst q1; clear - Ha1 HSd; lia|].
    apply (quotient_limb (a1 * LB + a0) d); clear - Hd Hn Hlo; lia. }
  rewrite (u64_small q1) in E by exact Hq1. injection E as <- <-.
  apply (udiv1norm_correct d (a1 * LB + a0) q1); [exact Hd | split; assumption |].
  destruct (Z.eq_dec q1 (LB - 1)) as [Eq|Hne]; [right | left; clear - Hq1 Hne; lia].
  split; [exact Hq1|]. rewrite Eq. clear - Hn. lia.
Qed.

Lemma mp_div1norm_loop_spec a b r q r' :
  limbs a -> LB / 2 <= b < LB -> 0 <= r < b ->
  mp_div1norm_loop a b (udiv1norm_init b) r = (q, r') ->
  uval a + Bp (length a) * r = b * uval q + r' /\
  limbs q /\ length q = length a /\ 0 <= r' < b.
Proof.
  intros H Hb. revert r q r'. induction H as [|x a Hx H IH]; intros r q r' Hr E;
    cbn [mp_div1norm_loop] in E.
  - injection E as <- <-. cbn [uval length]. rewrite Bp_0. split_and!; auto; lia.
  - destruct (mp_div1norm_loop a b _ r) as [qs r1] eqn:E1.
    destruct (udiv1norm r1 x b _) as [q0 r0] eqn:E0. injection E as <- <-.
    apply IH in E1 as (E1 & ? & ? & Hr1); auto.
    apply udiv1norm_spec in E0 as (E0 & ? & ?); auto.
    cbn [uval length]. rewrite Bp_S. split_and!; auto; nia.
Qed.

Lemma mp_div1norm_spec a b r q r' :
  limbs a -> LB / 2 <= b < LB -> 0 <= r < b -> mp_div1norm a b r = (q, r') ->
  uval a + Bp (length a) * r = b * uval q + r' /\
  limbs q /\ length q = length a /\ 0 <= r' < b.
Proof.
  unfold mp_div1norm. intros. destruct (_ <=? _)%nat.
  - eapply mp_div1norm_loop_spec; eauto.
  - eapply mp_div1_spec; eauto. unfold limb. change (LB / 2) with 9223372036854775808 in *. lia.
Qed.

(** *** Shifts *)

Lemma pow2_split s : 0 < s < JS_LIMB_BITS -> LB = 2 ^ s * 2 ^ (JS_LIMB_BITS - s) /\ 0 < 2 ^ s /\ 0 < 2 ^ (JS_LIMB_BITS - s).
Proof.
  unfold JS_LIMB_BITS. intros. rewrite <- Z.pow_add_r by lia.
  replace (s + (64 - s)) with 64 by lia. split; [reflexivity|].
  split; apply Z.pow_pos_nonneg; lia.
Qed.

Lemma shl_step v s l :
  0 < s < JS_LIMB_BITS -> limb v -> 0 <= l < 2 ^ s ->
  let r := Z.lor (u64 (Z.shiftl v s)) l in
  let h := Z.shiftr v (JS_LIMB_BITS - s) in
  r + LB * h = v * 2 ^ s + l /\ limb r /\ 0 <= h < 2 ^ s.
Proof.
  intros Hs Hv Hl. cbv zeta. destruct (pow2_split s Hs) as (E & P1 & P2).
  rewrite Z.shiftl_mul_pow2, Z.shiftr_div_pow2 by (unfold JS_LIMB_BITS in *; lia).
  unfold limb in *. set (p := 2 ^ s) in *. set (c := 2 ^ (JS_LIMB_BITS - s)) in *.
  pose proof (Z.div_mod v c ltac:(lia)) as Ev. pose proof (Z.mod_pos_bound v c P2) as Rv.
  assert (0 <= v / c < p) as Hh by (split; [apply Z.div_pos | apply Z.div_lt_upper_bound]; lia).
  assert (0 <= v mod c * p < LB) as Rm by (rewrite E, (Z.mul_comm p c); split; [apply Z.mul_nonneg_nonneg; lia | apply Z.mul_lt_mono_pos_r; lia]).
  rewrite (wrap_unique 64 _ (v mod c * p) (v / c)); [ | lia | exact Rm | change (2 ^ 64) with LB; rewrite E; nia].
  subst p. rewrite lor_disjoint_add by lia. set (p := 2 ^ s) in *.
  assert (v mod c * p + l < LB) by (rewrite E; nia).
  split; [|lia].
  replace (v * p) with ((c * (v / c) + v mod c) * p) by (rewrite <- Ev; reflexivity).
  rewrite E. ring.
Qed.

Lemma mp_shl_spec a s l r l' :
  limbs a -> 0 < s < JS_LIMB_BITS -> 0 <= l < 2 ^ s -> mp_shl a s l = (r, l') ->
  uval r + Bp (length a) * l' = uval a * 2 ^ s + l /\
  limbs r /\ length r = length a /\ 0 <= l' < 2 ^ s.
Proof.
  intros H Hs. revert l r l'. induction H as [|x a Hx H IH]; intros l r l' Hl E;
    cbn [mp_shl] in E.
  - injection E as <- <-. cbn [uval length]. rewrite Bp_0. split_and!; auto; lia.
  - destruct (shl_step x s l) as (E0 & ? & ?); auto. cbv zeta in *.
    destruct (mp_shl a s _) as [rs l1] eqn:E1. injection E as <- <-.
    apply IH in E1 as (E1 & ? & ? & ?); auto.
    cbn [uval length]. rewrite Bp_S. split_and!; auto; nia.
Qed.

Lemma shr_step a s l :
  0 < s < JS_LIMB_BITS -> limb a -> limb l ->
  let r := Z.lor (Z.shiftr a s) (u64 (Z.shiftl l (JS_LIMB_BITS - s))) in
  r * 2 ^ s + a mod 2 ^ s = a + LB * (l mod 2 ^ s) /\ limb r.
Proof.
  intros Hs Ha Hl. cbv zeta. destruct (pow2_split s Hs) as (E & P1 & P2).
  rewrite Z.shiftl_mul_pow2, Z.shiftr_div_pow2 by (unfold JS_LIMB_BITS in *; lia).
  unfold limb in *. set (p := 2 ^ s) in *. set (c := 2 ^ (JS_LIMB_BITS - s)) in *.
  pose proof (Z.div_mod a p ltac:(lia)) as Ea. pose proof (Z.mod_pos_bound a p P1) as Ra.
  pose proof (Z.div_mod l p ltac:(lia)) as El. pose proof (Z.mod_pos_bound l p P1) as Rl.
  assert (0 <= a / p < c) as Hh by (split; [apply Z.div_pos | apply Z.div_lt_upper_bound]; lia).
  assert (l mod p * c <= (p - 1) * c) by (apply Z.mul_le_mono_nonneg_r; lia).
  rewrite (wrap_unique 64 _ (l mod p * c) (l / p)); [ | lia | unfold in_u; change (2 ^ 64) with LB; nia | change (2 ^ 64) with LB; rewrite E; nia].
  rewrite Z.lor_comm. subst c. rewrite lor_disjoint_add by (unfold JS_LIMB_BITS in *; lia).
  set (c := 2 ^ (JS_LIMB_BITS - s)) in *. split; [rewrite E; nia | nia].
Qed.

Lemma mp_shr_loop_spec t s h r l :
  limbs t -> 0 < s < JS_LIMB_BITS -> limb h -> mp_shr_loop t s h = (r, l) ->
  uval r * 2 ^ s + l mod 2 ^ s = uval t + Bp (length t) * (h mod 2 ^ s) /\
  limbs r /\ length r = length t /\ limb l.
Proof.
  intros H Hs Hh. revert r l. induction H as [|x t Hx H IH]; intros r l E;
    cbn [mp_shr_loop] in E.
  - injection E as <- <-. cbn [uval length]. rewrite Bp_0. split_and!; auto; lia.
  - destruct (mp_shr_loop t s h) as [rs l1] eqn:E1. injection E as <- <-.
    destruct (IH _ _ eq_refl) as (E2 & ? & ? & ?).
    destruct (shr_step x s l1) as (E0 & ?); auto. cbv zeta in *.
    cbn [uval length]. rewrite Bp_S. split_and!; auto; nia.
Qed.

Lemma mp_shr_spec t s h r rem :
  limbs t -> 0 < s < JS_LIMB_BITS -> limb h -> mp_shr t s h = (r, rem) ->
  uval r * 2 ^ s + rem = uval t + Bp (length t) * (h mod 2 ^ s) /\
  limbs r /\ length r = length t /\ 0 <= rem < 2 ^ s.
Proof.
  intros H Hs Hh. unfold mp_shr. destruct (mp_shr_loop t s h) as [rs l] eqn:E.
  intros [= <- <-]. apply mp_shr_loop_spec in E as (E & ? & ? & ?); auto.
  destruct (pow2_split s Hs) as (EB & P1 & P2).
  assert (2 ^ s < LB) by (change LB with (2 ^ 64); apply Z.pow_lt_mono_r; unfold JS_LIMB_BITS in *; lia).
  rewrite Z.shiftl_1_l, (u64_small (2 ^ s)) by (unfold limb; lia).
  rewrite land_pow2_mask by lia. pose proof (Z.mod_pos_bound l (2 ^ s) P1). auto.
Qed.

(** *** Schoolbook division *)

Lemma divnorm_first_q_spec a b :
  limbs a -> limbs b -> length a = length b ->
  divnorm_first_q (rev a) (rev b) = if uval a <? uval b then 0 else 1.
Proof.
  revert b. induction a as [|x a IH] using rev_ind; intros b Ha Hb Hlen.
  - destruct b; [reflexivity | discriminate].
  - destruct (snoc_inv b) as (b' & y & ->); [intros ->; rewrite length_app in Hlen; simpl in Hlen; lia|].
    apply Forall_app in Ha as [Ha Hx]. apply Forall_app in Hb as [Hb Hy].
    inversion Hx; inversion Hy; subst. rewrite !length_app in Hlen. cbn [length] in Hlen.
    assert (length a = length b') as Hl by lia.
    pose proof (uval_range a Ha). pose proof (uval_range b' Hb).
    rewrite !rev_app_distr. cbn [rev app divnorm_first_q]. rewrite !uval_snoc, Hl in *.
    pose proof (Bp_pos (length b')).
    destruct (Z.eqb_spec x y) as [->|Hne].
    + rewrite IH by auto. destruct (Z.ltb_spec (uval a) (uval b')), (Z.ltb_spec (uval a + Bp (length b') * y) (uval b' + Bp (length b') * y)); lia.
    + destruct (Z.ltb_spec x y), (Z.ltb_spec (uval a + Bp (length b') * x) (uval b' + Bp (length b') * y)); nia.
Qed.

(** Knuth's bound on the estimated quotient limb: the trial remainder lies in
    [(-2D, D)]. *)
Lemma qhat_bounds T b1 P Ul Dl q U D :
  0 < P -> U = T * P + Ul -> 0 <= Ul < P -> D = b1 * P + Dl -> 0 <= Dl < P ->
  LB / 2 <= b1 < LB -> 0 <= U < LB * D -> 0 <= q < LB ->
  q * b1 <= T -> (q = LB - 1 \/ T < (q + 1) * b1) ->
  - (2 * D) < U - q * D < D.
Proof.
  change (LB / 2) with 9223372036854775808.
  intros HP EU HUl ED HDl Hb1 HU Hq Hle Hgt. split.
  - assert (q * b1 * P <= T * P) by (apply Z.mul_le_mono_nonneg_r; lia).
    assert (q * Dl <= LB * P) by (apply Z.mul_le_mono_nonneg; lia).
    assert (LB * P <= 2 * (b1 * P)) by (clear - Hb1 HP; nia).
    assert (q * D = q * b1 * P + q * Dl) as -> by (rewrite ED; ring).
    destruct (Z.eq_dec q 0) as [->|]; [nia|].
    assert (q * Dl < LB * P) by (clear - Hq HDl HP n; nia). lia.
  - destruct Hgt as [->|Hgt]; [lia|].
    assert ((T + 1) * P <= (q + 1) * b1 * P) by (apply Z.mul_le_mono_nonneg_r; lia).
    assert ((q + 1) * b1 * P <= (q + 1) * D) by (rewrite ED, <- Z.mul_assoc; apply Z.mul_le_mono_nonneg_l; lia).
    lia.
Qed.

Lemma divnorm_qhat_spec utop unext b1 b1_inv :
  LB / 2 <= b1 < LB -> 0 <= utop <= b1 -> limb unext ->
  b1_inv = 0 \/ b1_inv = udiv1norm_init b1 ->
  let q := divnorm_qhat utop unext b1 b1_inv in let T := utop * LB + unext in
  limb q /\ q * b1 <= T /\ (q = LB - 1 \/ T < (q + 1) * b1).
Proof.
  intros Hb1 Hut Hun Hinv. cbv zeta. unfold divnorm_qhat.
  pose proof Hb1 as Hb1'. change (LB / 2) with 9223372036854775808 in Hb1'. unfold limb in *.
  destruct (Z.leb_spec b1 utop).
  - change (u64 (-1)) with (LB - 1). replace utop with b1 by lia. lia.
  - destruct (Z.eqb_spec b1_inv 0) as [E0|E0]; cbn [negb].
    + destruct (div_step utop unext b1) as (E & Hq & Hr); [done | unfold limb; lia | lia |].
      cbv zeta in *. unfold limb in Hq. lia.
    + destruct Hinv as [?| ->]; [lia|].
      destruct (udiv1norm utop unext b1 _) as [q r] eqn:E.
      apply udiv1norm_spec in E as (E & ? & ?); [|done|lia|done]. cbn [fst]. unfold limb in *. lia.
Qed.

Lemma divnorm_fix_spec fuel w a q tabb R :
  limbs w -> limbs tabb -> length w = length tabb -> limb a ->
  R = uval w + Bp (length tabb) * a - Bp (S (length tabb)) ->
  - (Z.of_nat fuel * uval tabb) <= R < 0 ->
  exists w' k,
    divnorm_fix fuel w a q tabb = (w', 0, u64 (q - k)) /\
    limbs w' /\ length w' = length tabb /\
    uval w' = R + k * uval tabb /\ 0 <= uval w' < uval tabb.
Proof.
  revert w a q R. induction fuel as [|fuel IH]; intros w a q R Hw Hb Hlen Ha ER HR; [lia|].
  cbn [divnorm_fix]. destruct (mp_add w tabb 0) as [w1 c] eqn:E.
  apply mp_add_spec in E as (E & Hw1 & Hl1 & Hc); auto; [|lia].
  pose proof (uval_range w1 Hw1) as Rw1. rewrite Hl1, Hlen in *. rewrite Bp_S in ER.
  pose proof (Bp_pos (length tabb)) as HP. unfold limb in Ha.
  assert (u64 (u64 (q - 1) - 0) = u64 (q - 1)) as Eq1.
  { rewrite Z.sub_0_r. apply u64_small, u64_limb. }
  assert (forall k, u64 (u64 (q - 1) - k) = u64 (q - (k + 1))) as Eq2.
  { intros k. unfold wrap. rewrite Zminus_mod_idemp_l. f_equal. lia. }
  destruct (Z.eqb_spec c 0) as [->|Hc0]; cbn [negb].
  - destruct (IH w1 a (u64 (q - 1)) (R + uval tabb)) as (w' & k & Ef & ? & ? & ? & ?);
      [first [done | lia | unfold limb; lia | rewrite Bp_S; lia | nia] .. |].
    exists w', (k + 1). rewrite Ef, Eq2. split_and!; auto; lia.
  - assert (c = 1) as -> by lia. destruct (Z.eq_dec a (LB - 1)) as [->|Hne].
    + rewrite (wrap_unique 64 (LB - 1 + 1) 0 1) by (unfold in_u; lia). cbn [Z.eqb].
      exists w1, 1. split_and!; auto; lia.
    + rewrite (u64_small (a + 1)) by (unfold limb; lia).
      destruct (Z.eqb_spec (a + 1) 0); [lia|].
      destruct (IH w1 (a + 1) (u64 (q - 1)) (R + uval tabb)) as (w' & k & Ef & ? & ? & ? & ?);
        [first [done | lia | unfold limb; lia | rewrite Bp_S; lia | nia] .. |].
      exists w', (k + 1). rewrite Ef, Eq2. split_and!; auto; lia.
Qed.

Lemma split_last2 {A} (l : list A) k :
  length l = S (S k) -> exists u a b, l = u ++ [a; b] /\ length u = k.
Proof.
  intros H. destruct (snoc_inv l) as (l1 & b & ->); [intros ->; discriminate|].
  rewrite length_app in H. cbn [length] in H.
  destruct (snoc_inv l1) as (u & a & ->); [intros ->; cbn [length] in H; lia|].
  rewrite length_app in H. cbn [length] in H.
  exists u, a, b. rewrite <- app_assoc. split; [done | lia].
Qed.

Lemma uval_pos_top l x : limbs l -> 0 < x -> 0 < uval (l ++ [x]).
Proof.
  intros Hl Hx. rewrite uval_snoc. pose proof (uval_range l Hl).
  pose proof (Bp_pos (length l)). nia.
Qed.

Section divnorm.
Context (tabb : list Z) (b1 b1_inv : Z) (d0 : list Z).
Context (Htabb : limbs tabb) (Hb1 : LB / 2 <= b1 < LB) (Ed : tabb = d0 ++ [b1]).
Context (Hd0 : d0 <> []) (Hinv : b1_inv = 0 \/ b1_inv = udiv1norm_init b1).

Lemma divnorm_step_spec x w w' q :
  limb x -> limbs w -> length w = length tabb -> uval w < uval tabb ->
  divnorm_step (x :: w) tabb b1 b1_inv = (w', q) ->
  x + LB * uval w = q * uval tabb + uval w' /\
  limb q /\ limbs w' /\ length w' = length tabb /\ 0 <= uval w' < uval tabb.
Proof.
  intros Hx Hw Hlen Hlt E.
  assert (limbs d0) as Hd0l by (subst tabb; apply Forall_app in Htabb; tauto).
  assert (length tabb = S (length d0)) as Hnb by (subst tabb; rewrite length_app; simpl; lia).
  destruct (split_last2 (x :: w) (length d0)) as (u0 & un & ut & Eu & Hu0); [cbn [length]; lia|].
  assert (limbs (x :: w)) as Hu by auto. rewrite Eu in Hu.
  apply Forall_app in Hu as [Hu0l Hu2]. inversion Hu2 as [|? ? Hun Hu3]; subst.
  inversion Hu3 as [|? ? Hut _]; subst.
  assert (x + LB * uval w = uval u0 + Bp (length d0) * (un + LB * ut)) as EU.
  { change (x + LB * uval w) with (uval (x :: w)). rewrite Eu, uval_app, Hu0. cbn [uval]. lia. }
  assert (uval (d0 ++ [b1]) = uval d0 + Bp (length d0) * b1) as ED by apply uval_snoc.
  set (D := uval (d0 ++ [b1])) in *. set (P := Bp (length d0)) in *.
  pose proof (uval_range d0 Hd0l) as Rd. pose proof (uval_range u0 Hu0l) as Ru.
  pose proof (uval_range w Hw) as Rw. rewrite Hu0 in Ru. fold P in Rd, Ru.
  assert (0 < P) as HP by apply Bp_pos.
  pose proof Hb1 as Hb1'. change (LB / 2) with 9223372036854775808 in Hb1'. unfold limb in Hx, Hun, Hut.
  assert (0 <= ut <= b1) as Hutb.
  { split; [lia|]. destruct (Z.le_gt_cases ut b1) as [|Hgt]; [done|].
    assert (P * (LB * (b1 + 1)) <= P * (un + LB * ut)) by (apply Z.mul_le_mono_nonneg_l; lia).
    assert (D < P * (b1 + 1)) by lia. lia. }
  unfold divnorm_step in E. rewrite Eu, Hnb in E.
  replace (S (length d0) - 1)%nat with (length u0) in E by lia.
  replace (S (length d0)) with (S (length u0)) in E by lia.
  rewrite !app_nth2 in E by lia.
  replace (S (length u0) - length u0)%nat with 1%nat in E by lia.
  rewrite Nat.sub_diag in E. cbn [List.nth] in E.
  replace (take (S (length u0)) (u0 ++ [un; ut])) with (u0 ++ [un]) in E.
  2:{ change [un; ut] with ([un] ++ [ut]). rewrite app_assoc, take_app_length'; [done|].
      rewrite length_app. simpl. lia. }
  pose proof (divnorm_qhat_spec ut un b1 b1_inv Hb1 Hutb Hun Hinv) as (Hq & Hqle & Hqgt).
  cbv zeta in *. set (qh := divnorm_qhat ut un b1 b1_inv) in *. clearbody qh.
  destruct (qhat_bounds (un + LB * ut) b1 P (uval u0) (uval d0) qh (x + LB * uval w) D)
    as [Hlo Hhi]; [first [lia | (rewrite EU; ring) | (rewrite ED; ring) | (unfold limb in Hq; lia)
                   | (replace (un + LB * ut) with (ut * LB + un) by ring; assumption)
                   | (rewrite (Z.add_comm un), (Z.mul_comm LB ut); assumption)] .. |].
  destruct (mp_sub_mul1 (u0 ++ [un]) (d0 ++ [b1]) qh 0) as [w1 r] eqn:E1.
  assert (limbs (u0 ++ [un])) as Hu1 by (apply Forall_app; auto).
  apply mp_sub_mul1_spec in E1 as (E1 & Hw1 & Hl1 & Hr); auto;
    [|rewrite !length_app; simpl; lia | unfold limb; lia].
  rewrite Hnb, uval_snoc, Hu0 in E1. fold P D in E1. rewrite Bp_S in E1. fold P in E1.
  pose proof (uval_range w1 Hw1) as Rw1. rewrite Hl1, Hnb, Bp_S in Rw1. fold P in Rw1.
  unfold limb in Hr.
  destruct (u64_eq (ut - r)) as [k Ek]. pose proof (u64_limb (ut - r)) as Ra.
  unfold limb in Ra. set (a := u64 (ut - r)) in *.
  set (R := x + LB * uval w - qh * D) in *.
  assert (R = uval w1 + LB * P * (ut - r)) as ER by (subst R; rewrite EU; lia).
  destruct (Z.ltb_spec ut a).
  - assert (a = ut - r + LB) as Ea by lia.
    destruct (divnorm_fix_spec divnorm_fuel w1 a qh (d0 ++ [b1]) R)
      as (w2 & j & Ef & Hw2 & Hl2 & Ew2 & Rw2); auto; try lia.
    { rewrite Hnb, !Bp_S. fold P. lia. }
    { unfold divnorm_fuel. fold D. split; [lia|].
      assert (LB * P * (ut - r) <= LB * P * (-1)) by (apply Z.mul_le_mono_nonneg_l; lia). lia. }
    rewrite Ef in E. injection E as <- <-. fold D in Ew2, Rw2.
    assert (x + LB * uval w = (qh - j) * D + uval w2) as EF by (subst R; lia).
    assert (limb (qh - j)) as Hqj.
    { split; [apply (quotient_nonneg _ D (uval w2)) | apply (quotient_limb (x + LB * uval w) D)]; lia. }
    rewrite u64_small by done. auto.
  - injection E as <- <-. assert (a = ut - r) as Ea by lia.
    assert (a = 0) as Ha0.
    { apply (high_word_zero (uval w1) (LB * P) a R); try lia.
      rewrite ED in Hhi. assert (P * (b1 + 1) <= P * LB) by (apply Z.mul_le_mono_nonneg_l; lia). lia. }
    assert (R = uval w1) by (rewrite ER, <- Ea, Ha0; lia).
    split_and!; auto; subst R; lia.
Qed.

Lemma divnorm_loop_spec low w qs w' :
  limbs low -> limbs w -> length w = length tabb -> uval w < uval tabb ->
  divnorm_loop low w tabb b1 b1_inv = (qs, w') ->
  uval low + Bp (length low) * uval w = uval qs * uval tabb + uval w' /\
  limbs qs /\ length qs = length low /\
  limbs w' /\ length w' = length tabb /\ uval w' < uval tabb.
Proof.
  intros Hlow Hw Hlen Hlt. revert qs w'. induction Hlow as [|x low Hx Hlow IH];
    intros qs w' E; cbn [divnorm_loop] in E.
  - injection E as <- <-. cbn [uval length]. rewrite Bp_0. split_and!; auto; lia.
  - destruct (divnorm_loop low w tabb b1 b1_inv) as [qs1 w1] eqn:E1.
    destruct (divnorm_step (x :: w1) tabb b1 b1_inv) as [w2 q] eqn:E2. injection E as <- <-.
    destruct (IH _ _ eq_refl) as (EV & ? & ? & ? & ? & ?).
    apply divnorm_step_spec in E2 as (E2 & ? & ? & ? & ?); auto.
    cbn [uval length]. rewrite Bp_S. split_and!; auto; nia.
Qed.
End divnorm.

(** The quotient and the remainder of the schoolbook division. *)
Lemma mp_divnorm_spec taba tabb q w :
  limbs taba -> limbs tabb -> (0 < length tabb <= length taba)%nat ->
  LB / 2 <= top 0 tabb < LB ->
  mp_divnorm taba tabb = (q, w) ->
  uval taba = uval q * uval tabb + uval w /\ 0 <= uval w < uval tabb /\
  limbs q /\ length q = (length taba - length tabb + 1)%nat /\
  limbs w /\ length w = length tabb.
Proof.
  intros Ha Hb [Hlb Hlab] Htop E.
  destruct (snoc_inv tabb) as (d0 & b1 & Ed); [intros ->; simpl in Hlb; lia|].
  unfold mp_divnorm in E. rewrite Ed in Htop, E at 1. rewrite Ed, !top_snoc in E.
  rewrite top_snoc in Htop. rewrite <- Ed in E.
  pose proof Htop as Htop'. change (LB / 2) with 9223372036854775808 in Htop'.
  destruct (Nat.eqb_spec (length tabb) 1) as [E1|E1].
  - destruct (mp_div1norm taba b1 0) as [q1 r] eqn:E2. injection E as <- <-.
    apply mp_div1norm_spec in E2 as (E2 & ? & ? & ?); auto; [|lia].
    assert (d0 = []) as -> by (destruct d0; [done | rewrite Ed, length_app in E1; simpl in E1; lia]).
    rewrite Ed. cbn [app uval]. split_and!; auto; try lia.
    { simpl. lia. } { constructor; [unfold limb; lia | constructor]. }
  - set (n := (length taba - length tabb)%nat) in *.
    assert (d0 <> []) as Hd0.
    { intros ->. apply E1. rewrite Ed. reflexivity. }
    assert (limbs (take n taba) /\ limbs (drop n taba)) as [Hlow Hhigh].
    { split; [apply Forall_take | apply Forall_drop]; done. }
    destruct (take_drop_length taba n) as [Hltk Hldp]; [lia|].
    assert (length (drop n taba) = length tabb) as Hlh by (subst n; lia).
    assert (uval taba = uval (take n taba) + Bp n * uval (drop n taba)) as EV.
    { rewrite <- (take_drop n taba) at 1. rewrite uval_app, Hltk. done. }
    rewrite divnorm_first_q_spec in E by auto.
    set (b1_inv := if (UDIV1NORM_THRESHOLD <=? n)%nat then udiv1norm_init b1 else 0) in *.
    assert (b1_inv = 0 \/ b1_inv = udiv1norm_init b1) as Hinv
      by (subst b1_inv; destruct (_ <=? _)%nat; auto).
    assert (exists q0 high, 0 <= q0 <= 1 /\ limbs high /\ length high = length tabb /\
              uval (drop n taba) = q0 * uval tabb + uval high /\ uval high < uval tabb /\
              (let (qs, w) := divnorm_loop (take n taba) high tabb b1 b1_inv in (qs ++ [q0], w)) = (q, w))
      as (q0 & high & Hq0 & Hhl & Hhlen & EH & Hlt & E').
    { destruct (Z.ltb_spec (uval (drop n taba)) (uval tabb)) as [Hl|Hg]; cbn [Z.eqb negb] in E.
      - exists 0, (drop n taba). split_and!; auto; lia.
      - destruct (mp_sub (drop n taba) tabb 0) as [h k] eqn:Es. cbn [fst] in E.
        apply mp_sub_spec in Es as (Es & ? & Hh & ?); auto; [|lia].
        assert (uval tabb = uval d0 + Bp (length d0) * b1) as ED by (rewrite Ed; apply uval_snoc).
        pose proof (uval_range (drop n taba) Hhigh) as Rd. pose proof (uval_range h ltac:(done)) as Rh.
        assert (length tabb = S (length d0)) as Hnb by (rewrite Ed, length_app; simpl; lia).
        rewrite Hh in Rh. rewrite Hlh, Hnb, Bp_S in *. pose proof (Bp_pos (length d0)) as HP.
        assert (0 <= uval d0) by (apply uval_range; subst tabb; apply Forall_app in Hb; tauto).
        assert (k = 0) as Hk by (destruct (Z.eq_dec k 0); [done | assert (k = 1) by lia; subst k; lia]).
        assert (Bp (length d0) * (LB / 2) <= Bp (length d0) * b1) by (apply Z.mul_le_mono_nonneg_l; lia).
        change (LB / 2) with 9223372036854775808 in *.
        exists 1, h. subst k. split_and!; auto; lia. }
    destruct (divnorm_loop (take n taba) high tabb b1 b1_inv) as [qs w0] eqn:El. injection E' as <- <-.
    eapply divnorm_loop_spec in El as (El & Hqs & Hlq & Hw0 & Hlw & Hw0lt); eauto.
    pose proof (uval_range w0 Hw0) as Rw0.
    rewrite Hltk in *. rewrite uval_snoc, length_app, Hlq. cbn [length].
    split_and!; auto; try lia.
    apply Forall_app; split; [done|]. constructor; [unfold limb; lia | constructor].
Qed.

(** C16: the schoolbook division on limbs ([mp_divnorm], with its reciprocal and
    plain paths and its quotient correction loop) returns the quotient and the
    remainder of the two naturals, for a divisor whose high bit is set, and no
    digit overflows a limb. *)
Theorem mp_divnorm_correct taba tabb q w :
  limbs taba -> limbs tabb -> (0 < length tabb <= length taba)%nat ->
  LB / 2 <= top 0 tabb < LB ->
  mp_divnorm taba tabb = (q, w) ->
  uval q = uval taba / uval tabb /\ uval w = uval taba mod uval tabb /\ limbs q /\ limbs w.
Proof.
  intros Ha Hb Hl Ht E. apply mp_divnorm_spec in E as (E & Hw & Hq & _ & Hlw & _); auto.
  split_and!; auto; [apply Z.div_unique with (uval w) | apply Z.mod_unique with (uval q)]; lia.
Qed.

Lemma mp_divnorm_correct_witness :
  let '(q, w) := mp_divnorm [7; 5; 3] [1; LB / 2] in
  uval q = uval [7; 5; 3] / uval [1; LB / 2] /\ uval w = uval [7; 5; 3] mod uval [1; LB / 2].
Proof.
  destruct (mp_divnorm [7; 5; 3] [1; LB / 2]) as [q w] eqn:E.
  destruct (mp_divnorm_correct [7; 5; 3] [1; LB / 2] q w) as (? & ? & _);
    [repeat (apply Forall_cons_2; [vm_compute; split; [discriminate | reflexivity]|]); apply Forall_nil_2
    | repeat (apply Forall_cons_2; [vm_compute; split; [discriminate | reflexivity]|]); apply Forall_nil_2
    | cbn; lia | vm_compute; split; [discriminate | reflexivity] | exact E | auto].
Defined.
