(* ===== verification/BigInt.v ===== *)
(** * BigInt arithmetic of [src/core/quickjs.c] (lines 11186 to 12340)

    A [JSBigInt] is its limb array [tab] (two's complement, least significant
    limb first, [len = length tab]), and [bval] is the integer it denotes.  The
    code keeps every BigInt normalized (no redundant high limb); [normalized]
    is that invariant.  The allocation limit of [js_bigint_new] is modelled as
    the [RangeError] it throws; running out of memory in [js_malloc] is not. *)

From Stdlib Require Import ZArith Lia Bool Zquot.
From stdpp Require Import base numbers list option strings.
From S2P Require Import Prelude Limbs.

#[local] Open Scope Z_scope.

(** ** Definitions *)

(** In limbs. *)
Definition JS_BIGINT_MAX_SIZE : Z := 1024 * 1024 / JS_LIMB_BITS.

Definition too_large_to_allocate : exn := RangeError "BigInt is too large to allocate".

(** The size check of the allocation; the contents are set by the caller. *)
Definition js_bigint_new (len : nat) : res unit :=
  if JS_BIGINT_MAX_SIZE <? Z.of_nat len then Throw too_large_to_allocate else Ok tt.

Definition js_bigint_set_si (a : Z) : list Z := [u64 a].

Definition js_bigint_new_si (a : Z) : res (list Z) :=
  let? _ := js_bigint_new 1 in Ok [u64 a].

Definition js_bigint_new_si64 (a : Z) : res (list Z) := js_bigint_new_si a.

Definition js_bigint_new_ui64 (a : Z) : res (list Z) :=
  if a <=? 2 ^ 63 - 1 then js_bigint_new_si64 a
  else let? _ := js_bigint_new 2 in Ok [a; 0].

(** [a] is a 128-bit signed integer. *)
Definition js_bigint_new_di (a : Z) : res (list Z) :=
  if a =? i64 a then let? _ := js_bigint_new 1 in Ok [u64 a]
  else let? _ := js_bigint_new 2 in Ok [u64 a; u64 (Z.shiftr a JS_LIMB_BITS)].

(** The [while] loop of [js_bigint_normalize1]: the final [l]. *)
Fixpoint js_bigint_normalize_len (tab : list Z) (l : nat) : nat :=
  match l with
  | S l1 =>
      if (1 <? l)%nat then
        let v := List.nth l1 tab 0 in
        if (negb (v =? 0) && negb (v =? LB - 1)) ||
           negb (Z.land v 1 =? Z.shiftr (List.nth (l1 - 1) tab 0) (JS_LIMB_BITS - 1))
        then l
        else js_bigint_normalize_len tab l1
      else l
  | O => O
  end.

Definition js_bigint_normalize1 (a : list Z) (l : nat) : list Z :=
  take (js_bigint_normalize_len a l) a.

Definition js_bigint_normalize (a : list Z) : list Z := js_bigint_normalize1 a (length a).

Definition js_bigint_sign (a : list Z) : Z := Z.shiftr (top 0 a) (JS_LIMB_BITS - 1).

Definition js_bigint_get_si_sat (a : list Z) : Z :=
  if (length a =? 1)%nat then i64 (List.nth 0 a 0)
  else if negb (js_bigint_sign a =? 0) then - 2 ^ 63 else 2 ^ 63 - 1.

(** Add the [op1] limb. *)
Definition js_bigint_extend (r : list Z) (op1 : Z) : list Z :=
  if (negb (op1 =? 0) && negb (op1 =? LB - 1)) ||
     negb (Z.land op1 1 =? Z.shiftr (top 0 r) (JS_LIMB_BITS - 1))
  then r ++ [op1]
  else js_bigint_normalize r.

(** [a + b] ([b_neg = 0]) or [a - b] ([b_neg = 1]).  The three [ADDC] loops are
    runs of [mp_add] over the common part and over the sign-extended part. *)
Definition js_bigint_add (a b : list Z) (b_neg : Z) : res (list Z) :=
  let n2 := Nat.max (length a) (length b) in
  let n1 := Nat.min (length a) (length b) in
  let? _ := js_bigint_new n2 in
  let b := map (fun x => Z.lxor x (u64 (- b_neg))) b in
  let '(r1, carry) := mp_add (take n1 a) (take n1 b) b_neg in
  let a_sign := u64 (- js_bigint_sign a) in
  let b_sign := u64 (- js_bigint_sign b) in
  let '(r2, carry) :=
    if (length b <? length a)%nat then
      mp_add (drop n1 a) (replicate (n2 - n1) b_sign) carry
    else if (length a <? length b)%nat then
      mp_add (replicate (n2 - n1) a_sign) (drop n1 b) carry
    else ([], carry) in
  Ok (js_bigint_extend (r1 ++ r2) (u64 (a_sign + b_sign + carry))).

Definition js_bigint_neg (a : list Z) : res (list Z) :=
  js_bigint_add (js_bigint_set_si 0) a 1.

(** Subtract [b] from [tab[n..]] in place. *)
Definition sub_at (tab b : list Z) (n : nat) : list Z :=
  take n tab ++ fst (mp_sub (drop n tab) b 0).

Definition js_bigint_mul (a b : list Z) : res (list Z) :=
  let? _ := js_bigint_new (length a + length b) in
  let r := mp_mul_basecase a b in
  let r := if negb (js_bigint_sign a =? 0) then sub_at r b (length a) else r in
  let r := if negb (js_bigint_sign b =? 0) then sub_at r a (length b) else r in
  Ok (js_bigint_normalize r).

(** [while (n > 1 && tab[n - 1] == 0) n--] *)
Fixpoint strip_zeros_len (tab : list Z) (n : nat) : nat :=
  match n with
  | S n1 => if (1 <? n)%nat && (List.nth n1 tab 0 =? 0) then strip_zeros_len tab n1 else n
  | O => O
  end.

Definition strip_zeros (tab : list Z) : list Z := take (strip_zeros_len tab (length tab)) tab.

(** The magnitude of a BigInt, as the two first blocks of [js_bigint_divrem]
    compute it. *)
Definition magnitude (a : list Z) : list Z :=
  strip_zeros (if negb (js_bigint_sign a =? 0) then fst (mp_neg a) else a).

(** The division or the remainder. *)
Definition js_bigint_divrem (a b : list Z) (is_rem : bool) : res (list Z) :=
  if (length b =? 1)%nat && (List.nth 0 b 0 =? 0) then
    Throw (RangeError "BigInt division by zero")
  else
    let a_sign := js_bigint_sign a in
    let b_sign := js_bigint_sign b in
    let? _ := js_bigint_new (length a + 2) in
    let r := magnitude a in
    let tabb := magnitude b in
    let na := length r in
    let nb := length tabb in
    if (na <? nb)%nat then
      if is_rem then let? _ := js_bigint_new (length a) in Ok a
      else js_bigint_new_si 0
    else
      let shift := js_limb_clz (top 0 tabb) in
      let '(tabb, r) :=
        if negb (shift =? 0) then
          let (tabb, _) := mp_shl tabb shift 0 in
          let (r, h) := mp_shl r shift 0 in
          (tabb, if negb (h =? 0) then r ++ [h] else r)
        else (tabb, r) in
      let na := length r in
      let? _ := js_bigint_new (na - nb + 2) in
      let (q, r) := mp_divnorm r tabb in
      if is_rem then
        let r := if negb (shift =? 0) then fst (mp_shr r shift 0) else r in
        let r := r ++ [0] in
        let r := if negb (a_sign =? 0) then fst (mp_neg r) else r in
        Ok (js_bigint_normalize r)
      else
        let q := q ++ [0] in
        let q := if negb (Z.lxor a_sign b_sign =? 0) then fst (mp_neg q) else q in
        Ok (js_bigint_normalize q).

Inductive logic_op : Type := OP_or | OP_and | OP_xor.

Definition logic_fn (op : logic_op) : Z -> Z -> Z :=
  match op with OP_or => Z.lor | OP_and => Z.land | OP_xor => Z.lxor end.

Definition js_bigint_logic (a b : list Z) (op : logic_op) : res (list Z) :=
  let '(a, b) := if (length a <? length b)%nat then (b, a) else (a, b) in
  let a_len := length a in
  let b_len := length b in
  let b_sign := u64 (- js_bigint_sign b) in
  let? _ := js_bigint_new a_len in
  let r := zip_with (logic_fn op) (take b_len a) b ++
           map (fun x => logic_fn op x b_sign) (drop b_len a) in
  Ok (js_bigint_normalize r).

Definition js_bigint_not (a : list Z) : res (list Z) :=
  let? _ := js_bigint_new (length a) in
  Ok (map (fun x => u64 (Z.lnot x)) a).

(** [shift1] is an unsigned int. *)
Definition js_bigint_shl (a : list Z) (shift1 : Z) : res (list Z) :=
  if (length a =? 1)%nat && (List.nth 0 a 0 =? 0) then js_bigint_new_si 0
  else
    let d := Z.to_nat (shift1 / JS_LIMB_BITS) in
    let shift := shift1 mod JS_LIMB_BITS in
    let? _ := js_bigint_new (length a + d) in
    if shift =? 0 then Ok (replicate d 0 ++ a)
    else
      let (r, l) := mp_shl a shift 0 in
      let l := if negb (js_bigint_sign a =? 0)
               then Z.lor l (u64 (Z.shiftl (u64 (-1)) shift)) else l in
      Ok (js_bigint_extend (replicate d 0 ++ r) l).

Definition js_bigint_shr (a : list Z) (shift1 : Z) : res (list Z) :=
  let d := Z.to_nat (shift1 / JS_LIMB_BITS) in
  let shift := shift1 mod JS_LIMB_BITS in
  let a_sign := js_bigint_sign a in
  if (length a <=? d)%nat then js_bigint_new_si (- a_sign)
  else
    let n1 := (length a - d)%nat in
    let? _ := js_bigint_new n1 in
    if shift =? 0 then Ok (drop d a)
    else Ok (js_bigint_normalize (fst (mp_shr (drop d a) shift (u64 (- a_sign))))).

(** The comparison loop from the high limb down (arguments high limb first). *)
Fixpoint cmp_from_top (ra rb : list Z) : Z :=
  match ra, rb with
  | x :: ra, y :: rb =>
      if negb (x =? y) then (if x <? y then -1 else 1) else cmp_from_top ra rb
  | _, _ => 0
  end.

(** -1, 0 or 1; the operands are assumed normalized. *)
Definition js_bigint_cmp (a b : list Z) : Z :=
  let a_sign := js_bigint_sign a in
  let b_sign := js_bigint_sign b in
  if negb (a_sign =? b_sign) then 1 - 2 * a_sign
  else if negb (length a =? length b)%nat then
    if (length a <? length b)%nat then 2 * a_sign - 1 else 1 - 2 * a_sign
  else cmp_from_top (rev a) (rev b).

(** The square-and-multiply loop of [js_bigint_pow]; [i] counts down from
    [n_bits - 2] to 0. *)
Fixpoint pow_loop (i : nat) (e : Z) (r a : list Z) : res (list Z) :=
  match i with
  | O => Ok r
  | S i =>
      let? r := js_bigint_mul r r in
      let? r := if Z.testbit e (Z.of_nat i) then js_bigint_mul r a else Ok r in
      pow_loop i e r a
  end.

Definition pow_overflow : exn := RangeError "BigInt is too large".

Definition js_bigint_pow_general (a b : list Z) : res (list Z) :=
  if (1 <? length b)%nat then Throw pow_overflow
  else if 2 ^ 31 - 1 <? List.nth 0 b 0 then Throw pow_overflow
  else
    let e := List.nth 0 b 0 in
    let n_bits := Z.log2 e + 1 in
    let? _ := js_bigint_new (length a) in
    pow_loop (Z.to_nat (n_bits - 1)) e a a.

(** The case of a power of two [v = |a|]. *)
Definition js_bigint_pow_two (v : Z) (is_neg : bool) (b : list Z) : res (list Z) :=
  let n := JS_LIMB_BITS - 1 - js_limb_clz v in
  if (1 <? length b)%nat then Throw pow_overflow
  else if 2 ^ 31 - 1 <? List.nth 0 b 0 then Throw pow_overflow
  else
    let e1 := List.nth 0 b 0 * n in
    if JS_BIGINT_MAX_SIZE * JS_LIMB_BITS <? e1 then Throw pow_overflow
    else
      let e := e1 in
      let is_neg := if is_neg then Z.land (List.nth 0 b 0) 1 else 0 in
      let len := Z.to_nat ((e + JS_LIMB_BITS + 1 - is_neg) / JS_LIMB_BITS) in
      let? _ := js_bigint_new len in
      Ok (<[Z.to_nat (e / JS_LIMB_BITS) :=
              u64 (Z.shiftl (u64 (1 - 2 * is_neg)) (e mod JS_LIMB_BITS))]>
            (replicate len 0)).

Definition js_bigint_pow (a b : list Z) : res (list Z) :=
  if negb (js_bigint_sign b =? 0) then Throw (RangeError "BigInt negative exponent")
  else if (length b =? 1)%nat && (List.nth 0 b 0 =? 0) then js_bigint_new_si 1
  else if (length a =? 1)%nat then
    let v := List.nth 0 a 0 in
    if v <=? 1 then js_bigint_new_si v
    else if v =? LB - 1 then js_bigint_new_si (1 - 2 * Z.land (List.nth 0 b 0) 1)
    else
      let is_neg := i64 v <? 0 in
      let v := if is_neg then u64 (- v) else v in
      if Z.land v (u64 (v - 1)) =? 0 then js_bigint_pow_two v is_neg b
      else js_bigint_pow_general a b
  else js_bigint_pow_general a b.

(** ** The integer a BigInt denotes, and the normalization invariant *)

Definition bval (a : list Z) : Z := uval a - Bp (length a) * js_bigint_sign a.

(** [v] adds nothing as a limb above [lo]: it is the sign extension of [lo]. *)
Definition redundant (lo v : Z) : bool :=
  ((v =? 0) || (v =? LB - 1)) && (Z.land v 1 =? Z.shiftr lo (JS_LIMB_BITS - 1)).

Definition wf (a : list Z) : Prop := limbs a /\ a <> [].

Definition normalized (a : list Z) : Prop :=
  wf a /\ forall l lo v, a = l ++ [lo; v] -> redundant lo v = false.

(** ** Sign and value *)

Lemma top_limb a : wf a -> limb (top 0 a).
Proof.
  intros [H Hne]. destruct (snoc_inv a Hne) as (l & x & ->). rewrite top_snoc.
  apply Forall_app in H as [_ H]. now inversion H.
Qed.

Lemma shiftr63 x : limb x -> Z.shiftr x (JS_LIMB_BITS - 1) = if LB / 2 <=? x then 1 else 0.
Proof.
  unfold limb, JS_LIMB_BITS. intros. rewrite Z.shiftr_div_pow2 by lia.
  change (2 ^ (64 - 1)) with (LB / 2). change (LB / 2) with 9223372036854775808.
  destruct (Z.leb_spec 9223372036854775808 x); [|apply Z.div_small; lia].
  symmetry. apply Z.div_unique with (x - 9223372036854775808); lia.
Qed.

Lemma sign_range a : wf a -> 0 <= js_bigint_sign a <= 1.
Proof.
  intros H. unfold js_bigint_sign. rewrite shiftr63 by now apply top_limb.
  destruct (_ <=? _); lia.
Qed.

Lemma sign_snoc l x : limb x -> js_bigint_sign (l ++ [x]) = if LB / 2 <=? x then 1 else 0.
Proof. intros. unfold js_bigint_sign. rewrite top_snoc. now apply shiftr63. Qed.

Lemma wf_length a : wf a -> (1 <= length a)%nat.
Proof. intros [_ H]. destruct a; [done | simpl; lia]. Qed.

(** The signed value lies in the half-open interval of its limb count. *)
Lemma bval_range a : wf a -> - Bp (length a) <= 2 * bval a < Bp (length a).
Proof.
  intros [H Hne]. unfold bval. destruct (snoc_inv a Hne) as (l & x & ->).
  apply Forall_app in H as [Hl Hx]. inversion Hx as [|? ? Hx' _]; subst.
  rewrite sign_snoc by done. rewrite uval_snoc, length_app. cbn [length].
  rewrite Nat.add_1_r, Bp_S. pose proof (uval_range l Hl). pose proof (Bp_pos (length l)).
  unfold limb in Hx'. change (LB / 2) with 9223372036854775808.
  destruct (Z.leb_spec 9223372036854775808 x); nia.
Qed.

Lemma bval_sign a : wf a -> (js_bigint_sign a = 1 /\ bval a < 0) \/ (js_bigint_sign a = 0 /\ 0 <= bval a).
Proof.
  intros H. pose proof (bval_range a H) as R. unfold bval in *.
  pose proof (uval_range a (proj1 H)). pose proof (Bp_pos (length a)).
  assert (js_bigint_sign a = 0 \/ js_bigint_sign a = 1) as [E|E] by (pose proof (sign_range a H); lia);
    rewrite E in *; lia.
Qed.

Lemma Bp_even n : (1 <= n)%nat -> exists h, Bp n = 2 * h.
Proof. intros. destruct n; [lia|]. rewrite Bp_S. exists (9223372036854775808 * Bp n). lia. Qed.

(** A limb array is determined modulo [Bp n] by the value it denotes. *)
Lemma bval_unique a v k :
  wf a -> uval a = v + k * Bp (length a) -> - Bp (length a) <= 2 * v < Bp (length a) ->
  bval a = v.
Proof.
  intros H E Hv. pose proof (bval_range a H) as R. unfold bval in *.
  pose proof (Bp_pos (length a)) as HP. set (s := js_bigint_sign a) in *.
  assert (uval a - Bp (length a) * s - v = (k - s) * Bp (length a)) as E1 by lia.
  assert (k - s = 0) by nia. nia.
Qed.

Lemma uval_bval a : uval a = bval a + js_bigint_sign a * Bp (length a).
Proof. unfold bval. lia. Qed.

Lemma redundant_spec l lo v :
  limb lo -> limb v -> redundant lo v = true -> bval (l ++ [lo; v]) = bval (l ++ [lo]).
Proof.
  intros Hlo Hv Hr. unfold bval.
  replace (l ++ [lo; v]) with ((l ++ [lo]) ++ [v]) by (rewrite <- app_assoc; done).
  rewrite !sign_snoc, !uval_snoc, !length_app by done. cbn [length].
  rewrite !Nat.add_1_r, !Bp_S. unfold redundant in Hr. rewrite shiftr63 in Hr by done.
  apply andb_true_iff in Hr as [H1 H2]. apply orb_true_iff in H1.
  apply Z.eqb_eq in H2. unfold limb in *. change (LB / 2) with 9223372036854775808 in *.
  rewrite !Z.eqb_eq in H1. destruct H1 as [-> | ->]; cbn in H2;
    destruct (Z.leb_spec 9223372036854775808 lo); try discriminate H2;
    match goal with |- context [if ?b then _ else _] =>
      let b' := eval vm_compute in b in change b with b' end; cbv iota; lia.
Qed.

Lemma redundant_negb lo v :
  (negb (v =? 0) && negb (v =? LB - 1)) ||
  negb (Z.land v 1 =? Z.shiftr lo (JS_LIMB_BITS - 1)) = negb (redundant lo v).
Proof. unfold redundant. now rewrite negb_andb, negb_orb. Qed.

(** ** Normalization *)

Lemma take_nth_snoc (a : list Z) n : (n < length a)%nat -> take (S n) a = take n a ++ [List.nth n a 0].
Proof.
  revert n. induction a as [|x a IH]; intros n H; [simpl in H; lia|].
  destruct n; [done|]. cbn [take List.nth app]. f_equal. apply IH. simpl in H. lia.
Qed.

Lemma limb_nth a n : limbs a -> limb (List.nth n a 0).
Proof.
  intros H. destruct (nth_in_or_default n a 0) as [Hin|E].
  - rewrite List.Forall_forall in H. auto.
  - rewrite E. unfold limb. lia.
Qed.

Lemma normalize_len_spec a l :
  limbs a -> (1 <= l <= length a)%nat ->
  let n := js_bigint_normalize_len a l in
  (1 <= n <= l)%nat /\ bval (take n a) = bval (take l a) /\ normalized (take n a).
Proof.
  intros Ha. induction l as [|l IH]; intros Hl; [lia|]. cbn [js_bigint_normalize_len].
  cbv zeta in *. rewrite redundant_negb.
  assert (wf (take (S l) a)) as Hwf.
  { split; [now apply Forall_take|]. destruct a; [simpl in Hl; lia | done]. }
  destruct (Nat.ltb_spec 1 (S l)).
  - destruct l as [|l]; [lia|].
    replace (S l - 1)%nat with l by lia.
    assert (take (S (S l)) a = take l a ++ [List.nth l a 0; List.nth (S l) a 0]) as E.
    { rewrite take_nth_snoc, take_nth_snoc by lia. now rewrite <- app_assoc. }
    destruct (redundant (List.nth l a 0) (List.nth (S l) a 0)) eqn:Er; cbn [negb].
    + destruct IH as (? & EV & ?); [lia|]. split_and!; auto; try lia.
      rewrite EV, E, (take_nth_snoc a l) by lia.
      symmetry. apply redundant_spec; auto using limb_nth.
    + split_and!; try lia; auto. split; [done|]. intros l' lo v E'.
      rewrite E in E'. apply app_inj_2 in E' as [_ E']; [|done]. now injection E' as <- <-.
  - assert (l = 0%nat) as -> by lia. split_and!; try lia; auto. split; [done|].
    intros l' lo v E'. apply (f_equal length) in E'.
    rewrite length_app, length_take in E'. cbn [length] in E'. lia.
Qed.

Lemma normalize_spec a :
  wf a -> normalized (js_bigint_normalize a) /\ bval (js_bigint_normalize a) = bval a.
Proof.
  intros H. pose proof (wf_length a H). unfold js_bigint_normalize, js_bigint_normalize1.
  destruct (normalize_len_spec a (length a) (proj1 H)) as (? & E & ?); [lia|].
  cbv zeta in *. rewrite firstn_all in E. auto.
Qed.

(** A normalized array is not changed: it is its own normal form. *)
Lemma normalize_id a : normalized a -> js_bigint_normalize a = a.
Proof.
  intros [H Hn]. pose proof (wf_length a H). unfold js_bigint_normalize, js_bigint_normalize1.
  destruct (length a) as [|l] eqn:El; [lia|]. cbn [js_bigint_normalize_len].
  rewrite redundant_negb. destruct (Nat.ltb_spec 1 (S l)); [|rewrite <- El; apply firstn_all].
  destruct l as [|l]; [lia|]. replace (S l - 1)%nat with l by lia.
  rewrite (Hn (take l a)); [cbn [negb]; rewrite <- El; apply firstn_all|].
  rewrite <- (firstn_all a) at 1. rewrite El, take_nth_snoc, take_nth_snoc by lia.
  now rewrite <- app_assoc.
Qed.

(** ** Addition and subtraction *)

Lemma normalized_wf a : normalized a -> wf a.
Proof. now intros [H _]. Qed.

Lemma js_bigint_new_ok n : Z.of_nat n <= JS_BIGINT_MAX_SIZE -> js_bigint_new n = Ok tt.
Proof. unfold js_bigint_new. intros. destruct (Z.ltb_spec JS_BIGINT_MAX_SIZE (Z.of_nat n)); [lia|done]. Qed.

Lemma normalized_snoc r v : wf r -> limb v -> redundant (top 0 r) v = false -> normalized (r ++ [v]).
Proof.
  intros [Hr Hne] Hv Hred. split; [split; [apply Forall_app; auto | now destruct r]|].
  intros l lo v' E. replace (l ++ [lo; v']) with ((l ++ [lo]) ++ [v']) in E by now rewrite <- app_assoc.
  apply app_inj_2 in E as [-> E]; [|done]. injection E as <-. now rewrite top_snoc in Hred.
Qed.

Lemma normalized_single x : limb x -> normalized [x].
Proof.
  intros Hx. split; [split; [constructor; auto | done]|].
  intros l lo v E. apply (f_equal length) in E. rewrite length_app in E. cbn in E. lia.
Qed.

(** [js_bigint_extend r op1] denotes [r] with the limb [op1] on top. *)
Lemma extend_spec r op1 :
  wf r -> limb op1 ->
  normalized (js_bigint_extend r op1) /\ bval (js_bigint_extend r op1) = bval (r ++ [op1]).
Proof.
  intros Hr Hv. unfold js_bigint_extend. rewrite redundant_negb.
  destruct (redundant (top 0 r) op1) eqn:E; cbn [negb].
  - destruct (normalize_spec r Hr) as [? EV]. split; [done|]. rewrite EV.
    destruct Hr as [Hl Hne]. destruct (snoc_inv r Hne) as (l & x & ->). rewrite top_snoc in E.
    apply Forall_app in Hl as [_ Hx]. inversion Hx; subst.
    rewrite <- app_assoc. cbn [app]. symmetry. now apply redundant_spec.
  - split; [|done]. now apply normalized_snoc.
Qed.

Lemma mp_add_app a1 a2 b1 b2 c r1 c1 r2 c2 :
  length a1 = length b1 -> mp_add a1 b1 c = (r1, c1) -> mp_add a2 b2 c1 = (r2, c2) ->
  mp_add (a1 ++ a2) (b1 ++ b2) c = (r1 ++ r2, c2).
Proof.
  revert b1 c r1. induction a1 as [|x a1 IH]; intros [|y b1] c r1 Hlen E1 E2; try discriminate.
  - cbn [mp_add] in E1. injection E1 as <- <-. exact E2.
  - cbn [mp_add app] in *. destruct (ADDC x y c) as [r c'].
    destruct (mp_add a1 b1 c') as [rs c''] eqn:E. injection E1 as <- <-.
    rewrite (IH b1 c' rs); auto.
Qed.

Lemma mp_add_nil c : mp_add [] [] c = ([], c).
Proof. reflexivity. Qed.

(** Sign extension to [n] limbs. *)
Definition sext (n : nat) (a : list Z) : list Z :=
  a ++ replicate (n - length a) (u64 (- js_bigint_sign a)).

Lemma sext_spec n a :
  wf a -> (length a <= n)%nat ->
  limbs (sext n a) /\ length (sext n a) = n /\
  uval (sext n a) = bval a + js_bigint_sign a * Bp n.
Proof.
  intros H Hn. unfold sext. split_and!.
  - apply Forall_app. split; [apply H|]. apply Forall_replicate_eq, u64_limb.
  - rewrite length_app, length_replicate. lia.
  - rewrite uval_app, uval_bval.
    replace n with (length a + (n - length a))%nat at 2 by lia. rewrite Bp_add.
    destruct (bval_sign a H) as [(-> & _)|(-> & _)].
    + change (u64 (- (1))) with (LB - 1). rewrite uval_replicate_max. lia.
    + change (u64 (- 0)) with 0. rewrite uval_replicate_0. lia.
Qed.

(** One's complement, limb by limb. *)
Lemma lxor_max x : limb x -> Z.lxor x (LB - 1) = LB - 1 - x.
Proof.
  intros Hx. change (LB - 1) with (Z.ones 64).
  assert (forall n, 64 <= n -> Z.testbit x n = false) as Hhigh
    by (intros n Hn; apply (testbit_high x 64); [exact Hx | lia]).
  assert (Z.lxor x (Z.ones 64) = Z.ldiff (Z.ones 64) x) as ->.
  { apply Z.bits_inj'. intros n Hn. rewrite Z.lxor_spec, Z.ldiff_spec, Z.testbit_ones_nonneg by lia.
    destruct (Z.ltb_spec n 64); [now destruct (Z.testbit x n) | now rewrite Hhigh by lia]. }
  rewrite <- Z.sub_nocarry_ldiff; [done|].
  apply Z.bits_inj'. intros n Hn. rewrite Z.ldiff_spec, Z.bits_0, Z.testbit_ones_nonneg by lia.
  destruct (Z.ltb_spec n 64); [apply andb_false_r | now rewrite Hhigh by lia].
Qed.

Lemma uval_complement (f : Z -> Z) a :
  limbs a -> (forall x, limb x -> f x = LB - 1 - x) ->
  limbs (map f a) /\ uval (map f a) = Bp (length a) - 1 - uval a.
Proof.
  intros H Hf. induction H as [|x a Hx H [IH1 IH2]]; cbn [map uval length]; [rewrite Bp_0; auto|].
  rewrite Hf, IH2, Bp_S by done. split; [constructor; [unfold limb in *; lia | done] | lia].
Qed.

Lemma wf_map_complement f a :
  wf a -> (forall x, limb x -> f x = LB - 1 - x) ->
  wf (map f a) /\ bval (map f a) = -1 - bval a.
Proof.
  intros [H Hne] Hf. destruct (uval_complement f a H Hf) as [H1 H2].
  assert (wf (map f a)) as Hw by (split; [done | now destruct a]).
  split; [done|]. pose proof (bval_range a (conj H Hne)) as R. rewrite (uval_bval a) in H2.
  destruct (Bp_even (length a)) as [h Eh]; [now apply wf_length|].
  apply bval_unique with (1 - js_bigint_sign a); auto; rewrite length_map; lia.
Qed.

Lemma complement_b b b_neg :
  wf b -> b_neg = 0 \/ b_neg = 1 ->
  let b' := map (fun x => Z.lxor x (u64 (- b_neg))) b in
  wf b' /\ bval b' = (if b_neg =? 0 then bval b else -1 - bval b) /\ length b' = length b.
Proof.
  intros H [-> | ->]; cbv zeta; rewrite length_map.
  - change (u64 (- 0)) with 0.
    replace (map (fun x => Z.lxor x 0) b) with b; [cbn; auto|].
    symmetry. rewrite <- (map_id b) at 2. apply map_ext. intros. apply Z.lxor_0_r.
  - change (u64 (- (1))) with (LB - 1). cbn [Z.eqb].
    destruct (wf_map_complement (fun x => Z.lxor x (LB - 1)) b H); auto using lxor_max.
Qed.

Lemma wf_snoc r x : limbs r -> limb x -> wf (r ++ [x]).
Proof. intros Hr Hx. split; [apply Forall_app; auto | now destruct r]. Qed.

(** The three loops compute one addition of the sign-extended operands. *)
Lemma add_loops a b c r1 c1 r2 c2 :
  let n2 := Nat.max (length a) (length b) in
  let n1 := Nat.min (length a) (length b) in
  mp_add (take n1 a) (take n1 b) c = (r1, c1) ->
  (if (length b <? length a)%nat then
     mp_add (drop n1 a) (replicate (n2 - n1) (u64 (- js_bigint_sign b))) c1
   else if (length a <? length b)%nat then
     mp_add (replicate (n2 - n1) (u64 (- js_bigint_sign a))) (drop n1 b) c1
   else ([], c1)) = (r2, c2) ->
  mp_add (sext n2 a) (sext n2 b) c = (r1 ++ r2, c2).
Proof.
  cbv zeta. intros E1 E2. unfold sext.
  destruct (Nat.ltb_spec (length b) (length a)); [|destruct (Nat.ltb_spec (length a) (length b))].
  - rewrite Nat.max_l, Nat.min_r in * by lia. rewrite Nat.sub_diag, app_nil_r.
    rewrite <- (take_drop (length b) a) at 1. rewrite (firstn_all b) in E1.
    eapply mp_add_app; eauto. rewrite length_take. lia.
  - rewrite Nat.max_r, Nat.min_l in * by lia. rewrite Nat.sub_diag, app_nil_r.
    rewrite <- (take_drop (length a) b) at 2. rewrite (firstn_all a) in E1.
    eapply mp_add_app; eauto. rewrite length_take. lia.
  - assert (length a = length b) as El by lia. rewrite El, Nat.max_id, Nat.min_id in *.
    rewrite Nat.sub_diag. rewrite <- El in E1 at 1. rewrite !firstn_all in E1.
    injection E2 as <- <-. cbn [replicate]. rewrite !app_nil_r. done.
Qed.

Lemma add_spec a b b_neg :
  wf a -> wf b -> b_neg = 0 \/ b_neg = 1 ->
  Z.of_nat (Nat.max (length a) (length b)) <= JS_BIGINT_MAX_SIZE ->
  exists r, js_bigint_add a b b_neg = Ok r /\ normalized r /\
            bval r = if b_neg =? 0 then bval a + bval b else bval a - bval b.
Proof.
  intros Ha Hb Hneg Hlen. unfold js_bigint_add. rewrite js_bigint_new_ok by done. cbn [res_bind].
  destruct (complement_b b b_neg Hb Hneg) as (Hb' & EVb & Elb). cbv zeta in *.
  set (b' := map _ b) in *. rewrite <- Elb in *. clearbody b'.
  destruct (mp_add (take _ a) (take _ b') b_neg) as [r1 c1] eqn:E1.
  match goal with |- context [let '(_, _) := ?X in _] => destruct X as [r2 c2] eqn:E2 end.
  pose proof (add_loops _ _ _ _ _ _ _ E1 E2) as E. clear E1 E2. cbv zeta in *.
  set (n2 := Nat.max (length a) (length b')) in *.
  destruct (sext_spec n2 a Ha) as (HA & LA & VA); [lia|].
  destruct (sext_spec n2 b' Hb') as (HB & LB' & VB); [lia|].
  apply mp_add_spec in E as (E & Hr & Hlr & Hc); auto; [|lia|lia].
  rewrite LA in *. set (r := r1 ++ r2) in *. clearbody r.
  assert (wf r) as Hwr by (split; [done | intros ->; simpl in Hlr; pose proof (wf_length a Ha); lia]).
  set (op1 := u64 _). destruct (extend_spec r op1 Hwr (u64_limb _)) as [Hn EV].
  eexists. split; [reflexivity|]. split; [done|]. rewrite EV.
  pose proof (bval_range a Ha) as Ra. pose proof (bval_range b' Hb') as Rb.
  assert (forall n, (n <= n2)%nat -> Bp n <= Bp n2) as Hmono.
  { intros n Hn'. replace n2 with (n + (n2 - n))%nat by lia. rewrite Bp_add.
    pose proof (Bp_pos n). pose proof (Bp_pos (n2 - n)). nia. }
  pose proof (Hmono (length a) ltac:(lia)). pose proof (Hmono (length b') ltac:(lia)).
  assert (bval a + bval b' + b_neg = if b_neg =? 0 then bval a + bval b else bval a - bval b) as <-.
  { destruct Hneg as [-> | ->]; cbn [Z.eqb] in *; lia. }
  destruct (u64_eq (u64 (- js_bigint_sign a) + u64 (- js_bigint_sign b') + c2)) as [k1 Ek1].
  destruct (u64_eq (- js_bigint_sign a)) as [k2 Ek2]. destruct (u64_eq (- js_bigint_sign b')) as [k3 Ek3].
  assert (limb op1) as Hop by apply u64_limb. fold op1 in Ek1. clearbody op1.
  apply bval_unique with (k1 + k2 + k3).
  - now apply wf_snoc.
  - rewrite uval_snoc, length_app, Hlr. cbn [length]. rewrite Nat.add_1_r, Bp_S.
    rewrite Ek1, Ek2, Ek3. lia.
  - rewrite length_app, Hlr. cbn [length]. rewrite Nat.add_1_r, Bp_S.
    pose proof (Bp_pos n2). destruct Hneg as [-> | ->]; lia.
Qed.

Lemma neg_spec a :
  wf a -> Z.of_nat (length a) <= JS_BIGINT_MAX_SIZE ->
  exists r, js_bigint_neg a = Ok r /\ normalized r /\ bval r = - bval a.
Proof.
  intros Ha Hlen. unfold js_bigint_neg.
  assert (wf (js_bigint_set_si 0)) as Hz by (apply (wf_snoc []); [constructor | apply u64_limb]).
  pose proof (wf_length a Ha).
  destruct (add_spec (js_bigint_set_si 0) a 1) as (r & E & Hr & EV); auto; [cbn [length js_bigint_set_si]; lia|].
  exists r. split_and!; auto.
Qed.

(** ** Multiplication *)

Lemma sub_at_spec tab b n :
  limbs tab -> limbs b -> length tab = (n + length b)%nat ->
  limbs (sub_at tab b n) /\ length (sub_at tab b n) = length tab /\
  exists k, uval (sub_at tab b n) = uval tab - Bp n * uval b + k * Bp (length tab).
Proof.
  intros Ht Hb Hlen. unfold sub_at. destruct (take_drop_length tab n) as [Hl1 Hl2]; [lia|].
  destruct (mp_sub (drop n tab) b 0) as [r k] eqn:E.
  apply mp_sub_spec in E as (E & Hr & Hlr & Hk); auto; [|by apply Forall_drop|lia|lia]. cbn [fst].
  split_and!.
  - apply Forall_app. split; [now apply Forall_take | done].
  - rewrite length_app, Hl1, Hlr. lia.
  - exists k. rewrite uval_app, Hl1. rewrite Hl2 in *.
    rewrite <- (take_drop n tab) at 2. rewrite uval_app, Hl1.
    replace (length tab) with (n + (length tab - n))%nat at 1 by lia. rewrite Bp_add.
    assert (uval r = uval (drop n tab) - uval b + Bp (length tab - n) * k) as -> by lia. ring.
Qed.

Lemma mul_spec a b :
  wf a -> wf b -> Z.of_nat (length a + length b) <= JS_BIGINT_MAX_SIZE ->
  exists r, js_bigint_mul a b = Ok r /\ normalized r /\ bval r = bval a * bval b.
Proof.
  intros Ha Hb Hlen. unfold js_bigint_mul. rewrite js_bigint_new_ok by done. cbn [res_bind].
  destruct (mp_mul_basecase_spec a b) as (EM & HM & LM); [apply Ha | apply Hb | apply Hb|].
  set (r0 := mp_mul_basecase a b) in *. clearbody r0.
  assert (forall r n c, limbs r -> length r = (length a + length b)%nat -> limbs c ->
    (n + length c = length a + length b)%nat -> forall s, s = 0 \/ s = 1 ->
    let r' := if negb (s =? 0) then sub_at r c n else r in
    limbs r' /\ length r' = (length a + length b)%nat /\
    exists k, uval r' = uval r - s * (Bp n * uval c) + k * Bp (length a + length b)) as Hstep.
  { intros r n c Hr Hl Hc Hn s [-> | ->]; cbn [Z.eqb negb].
    - split_and!; auto. exists 0. lia.
    - destruct (sub_at_spec r c n) as (? & Hl' & k & E); auto; [lia|].
      rewrite Hl in *. split_and!; auto. exists k. lia. }
  pose proof (bval_sign a Ha) as Sa. pose proof (bval_sign b Hb) as Sb.
  destruct (Hstep r0 (length a) b HM LM (proj1 Hb) eq_refl (js_bigint_sign a)) as (H1 & L1 & k1 & E1); [tauto|].
  cbv zeta in *. set (r1 := if negb (js_bigint_sign a =? 0) then _ else _) in *. clearbody r1.
  destruct (Hstep r1 (length b) a H1 L1 (proj1 Ha) ltac:(lia) (js_bigint_sign b)) as (H2 & L2 & k2 & E2); [tauto|].
  set (r2 := if negb (js_bigint_sign b =? 0) then _ else _) in *. clearbody r2.
  assert (wf r2) as Hw by (split; [done | intros ->; simpl in L2; pose proof (wf_length a Ha); lia]).
  destruct (normalize_spec r2 Hw) as [Hn EV]. eexists. split_and!; [reflexivity | done |].
  rewrite EV. pose proof (bval_range a Ha). pose proof (bval_range b Hb).
  pose proof (Bp_pos (length a)). pose proof (Bp_pos (length b)).
  apply bval_unique with (k1 + k2 - js_bigint_sign a * js_bigint_sign b); auto; rewrite L2, Bp_add.
  - rewrite E2, E1, EM, Bp_add, !uval_bval. ring.
  - nia.
Qed.

(** ** Division *)

Lemma strip_zeros_spec a :
  wf a ->
  uval (strip_zeros a) = uval a /\ limbs (strip_zeros a) /\
  (1 <= length (strip_zeros a) <= length a)%nat /\
  (length (strip_zeros a) = 1%nat \/ top 0 (strip_zeros a) <> 0).
Proof.
  intros Ha. unfold strip_zeros. pose proof (wf_length a Ha) as Hlen. destruct Ha as [Ha _].
  assert (forall n, (1 <= n <= length a)%nat ->
    let m := strip_zeros_len a n in
    (1 <= m <= n)%nat /\ uval (take m a) = uval (take n a) /\
    (m = 1%nat \/ top 0 (take m a) <> 0)) as H.
  { induction n as [|n IH]; intros Hn; [lia|]. cbn [strip_zeros_len]. cbv zeta.
    destruct (Nat.ltb_spec 1 (S n)); cbn [andb].
    - destruct (Z.eqb_spec (List.nth n a 0) 0) as [E|E].
      + destruct IH as (? & EV & ?); [lia|]. cbv zeta in *. split_and!; auto; try lia.
        rewrite EV, take_nth_snoc, uval_snoc, E by lia. lia.
      + split_and!; try lia. right. now rewrite take_nth_snoc, top_snoc by lia.
    - split_and!; auto; try lia. }
  destruct (H (length a)) as (Hm & EV & Ht); [lia|]. cbv zeta in *.
  rewrite firstn_all in EV. rewrite length_take, Nat.min_l by lia.
  split_and!; auto; try lia. now apply Forall_take.
Qed.

Lemma magnitude_spec a :
  wf a ->
  uval (magnitude a) = Z.abs (bval a) /\ limbs (magnitude a) /\
  (1 <= length (magnitude a) <= length a)%nat /\
  (length (magnitude a) = 1%nat \/ top 0 (magnitude a) <> 0).
Proof.
  intros Ha. unfold magnitude. pose proof (wf_length a Ha).
  pose proof (uval_range a (proj1 Ha)). pose proof (uval_bval a) as EV.
  destruct (bval_sign a Ha) as [(E & Hs)|(E & Hs)]; rewrite E in *; cbn [Z.eqb negb].
  - destruct (mp_neg a) as [r c] eqn:En. apply mp_neg_spec in En as (En & Hr & Hl & Hc); [|apply Ha].
    cbn [fst]. assert (wf r) as Hw by (split; [done | intros ->; simpl in Hl; lia]).
    destruct (strip_zeros_spec r Hw) as (E1 & ? & ? & ?). rewrite Hl in *.
    pose proof (uval_range r Hr) as Rr. rewrite Hl in Rr.
    pose proof (bval_range a Ha).
    assert (c = 0) as -> by (destruct (Z.eq_dec c 0); [done | assert (c = 1) by lia; subst c; lia]).
    split_and!; auto; lia.
  - destruct (strip_zeros_spec a Ha) as (E1 & ? & ? & ?). split_and!; auto; lia.
Qed.

(** Negation of a non-negative array. *)
Lemma mp_neg_bval r :
  wf r -> 0 <= bval r -> wf (fst (mp_neg r)) /\ bval (fst (mp_neg r)) = - bval r.
Proof.
  intros Hr Hp. destruct (mp_neg r) as [r' c] eqn:E. cbn [fst].
  apply mp_neg_spec in E as (E & Hr' & Hl & Hc); [|apply Hr].
  pose proof (wf_length r Hr). pose proof (bval_range r Hr).
  assert (wf r') as Hw by (split; [done | intros ->; simpl in Hl; lia]).
  split; [done|]. pose proof (uval_bval r) as EV.
  destruct (bval_sign r Hr) as [|(Es & _)]; [lia|]. rewrite Es in EV.
  apply bval_unique with (1 - c); auto; rewrite Hl; lia.
Qed.

Lemma bval_snoc0 q : limbs q -> wf (q ++ [0]) /\ bval (q ++ [0]) = uval q.
Proof.
  intros Hq. assert (limb 0) as H0 by (unfold limb; lia).
  split; [now apply wf_snoc|]. unfold bval. rewrite sign_snoc, uval_snoc by done. change (LB / 2 <=? 0) with false. cbv iota. lia.
Qed.

(** A normalized zero is the one-limb zero. *)
Lemma normalized_zero b : normalized b -> bval b = 0 -> b = [0].
Proof.
  intros [Hw Hn] E. pose proof (uval_bval b) as EV.
  destruct (bval_sign b Hw) as [|(Es & _)]; [lia|]. rewrite Es, E in EV.
  destruct Hw as [Hl Hne]. destruct (snoc_inv b Hne) as (l & v & ->).
  apply Forall_app in Hl as [Hl Hv]. inversion Hv as [|? ? Hv' _]; subst.
  rewrite uval_snoc in EV. pose proof (uval_range l Hl). pose proof (Bp_pos (length l)).
  unfold limb in Hv'. assert (v = 0) as -> by nia. assert (uval l = 0) as E0 by nia.
  destruct (decide (l = [])) as [->|Hl0]; [done|]. exfalso.
  destruct (snoc_inv l Hl0) as (l' & lo & ->). apply Forall_app in Hl as [Hl' Hlo].
  inversion Hlo as [|? ? Hlo' _]; subst. rewrite uval_snoc in E0. pose proof (uval_range l' Hl').
  pose proof (Bp_pos (length l')). unfold limb in Hlo'. assert (lo = 0) as -> by nia.
  specialize (Hn l' 0 0). rewrite <- app_assoc in Hn. discriminate (Hn eq_refl).
Qed.

Lemma top_ge l x c : limbs l -> Bp (length l) * c <= uval (l ++ [x]) -> c <= x.
Proof.
  intros Hl. rewrite uval_snoc. pose proof (uval_range l Hl). pose proof (Bp_pos (length l)). nia.
Qed.

(** Normalizing shift of the divisor. *)
Lemma shl_no_carry a s r h :
  limbs a -> 0 < s < JS_LIMB_BITS -> uval a * 2 ^ s < Bp (length a) ->
  mp_shl a s 0 = (r, h) ->
  h = 0 /\ uval r = uval a * 2 ^ s /\ limbs r /\ length r = length a.
Proof.
  intros Ha Hs Hlt E. destruct (pow2_split s Hs) as (_ & P & _).
  apply mp_shl_spec in E as (E & Hr & Hl & Hh); auto; [|lia].
  pose proof (uval_range r Hr) as R. rewrite Hl in R. pose proof (Bp_pos (length a)).
  assert (h = 0) as -> by (apply (high_word_zero (uval r) (Bp (length a)) h (uval a * 2 ^ s)); lia).
  split_and!; auto; lia.
Qed.

Lemma shl_carry a s r h :
  limbs a -> 0 < s < JS_LIMB_BITS -> mp_shl a s 0 = (r, h) ->
  let r' := if negb (h =? 0) then r ++ [h] else r in
  uval r' = uval a * 2 ^ s /\ limbs r' /\ (length a <= length r' <= S (length a))%nat.
Proof.
  intros Ha Hs E. destruct (pow2_split s Hs) as (EB & P & P').
  apply mp_shl_spec in E as (E & Hr & Hl & Hh); auto; [|lia]. cbv zeta.
  destruct (Z.eqb_spec h 0) as [->|]; cbn [negb].
  - split_and!; auto; lia.
  - rewrite uval_snoc, length_app, Hl. cbn [length]. split_and!; [lia | | lia | lia].
    apply Forall_app. split; [done|]. constructor; [|constructor].
    unfold limb. rewrite EB. nia.
Qed.

Lemma clz_spec x :
  limb x -> 0 < x ->
  0 <= js_limb_clz x < JS_LIMB_BITS /\ LB / 2 <= x * 2 ^ js_limb_clz x < LB.
Proof.
  unfold limb, js_limb_clz, JS_LIMB_BITS. intros Hx Hp.
  pose proof (Z.log2_spec x Hp) as [H1 H2]. pose proof (Z.log2_nonneg x).
  assert (Z.log2 x < 64) by (apply Z.log2_lt_pow2; [lia | exact (proj2 Hx)]).
  split; [lia|]. change (LB / 2) with (2 ^ 63). change LB with (2 ^ 64).
  replace 63 with (Z.log2 x + (64 - 1 - Z.log2 x)) at 1 by lia.
  replace 64 with (Z.succ (Z.log2 x) + (64 - 1 - Z.log2 x)) at 4 by lia.
  rewrite !Z.pow_add_r by lia.
  assert (0 < 2 ^ (64 - 1 - Z.log2 x)) by (apply Z.pow_pos_nonneg; lia). nia.
Qed.

(** The normalization block of [js_bigint_divrem]. *)
Definition divrem_shift (tabb r : list Z) (shift : Z) : list Z * list Z :=
  if negb (shift =? 0) then
    let (tabb, _) := mp_shl tabb shift 0 in
    let (r, h) := mp_shl r shift 0 in
    (tabb, if negb (h =? 0) then r ++ [h] else r)
  else (tabb, r).

Lemma divrem_shift_spec tabb r :
  limbs tabb -> limbs r -> (1 <= length tabb)%nat -> 0 < top 0 tabb ->
  let s := js_limb_clz (top 0 tabb) in
  let '(tabb', r') := divrem_shift tabb r s in
  uval tabb' = uval tabb * 2 ^ s /\ uval r' = uval r * 2 ^ s /\
  limbs tabb' /\ limbs r' /\ length tabb' = length tabb /\
  (length r <= length r' <= S (length r))%nat /\ LB / 2 <= top 0 tabb' < LB.
Proof.
  intros Hb Hr Hlen Htop. cbv zeta.
  destruct (snoc_inv tabb) as (d & b1 & ->); [intros ->; simpl in Hlen; lia|].
  rewrite top_snoc in *. pose proof Hb as Hb'. apply Forall_app in Hb' as [Hd Hb1].
  inversion Hb1 as [|? ? Hl1 _]; subst.
  destruct (clz_spec b1 Hl1 Htop) as [Hs Hn]. set (s := js_limb_clz b1) in *. clearbody s.
  unfold divrem_shift. destruct (Z.eqb_spec s 0) as [->|Hs0]; cbn [negb].
  - change (2 ^ 0) with 1 in *. rewrite top_snoc. split_and!; auto; lia.
  - destruct (mp_shl (d ++ [b1]) s 0) as [t h1] eqn:E1. destruct (mp_shl r s 0) as [r1 h] eqn:E2.
    pose proof (uval_snoc d b1) as ED. pose proof (uval_range d Hd) as RD.
    pose proof (Bp_pos (length d)) as HP. destruct (pow2_split s) as (EB & P1 & P2); [lia|].
    assert (length (d ++ [b1]) = S (length d)) as EL by (rewrite length_app; simpl; lia).
    apply shl_no_carry in E1 as (_ & E1 & Ht & Hlt); auto; [|lia|].
    2:{ rewrite EL, Bp_S, ED, EB.
        assert (b1 * 2 ^ s + 2 ^ s <= 2 ^ s * 2 ^ (JS_LIMB_BITS - s)).
        { rewrite EB in Hn. assert (b1 < 2 ^ (JS_LIMB_BITS - s)) by nia. nia. }
        nia. }
    apply shl_carry in E2 as (E2 & Hr' & Hlr); auto; [|lia]. cbv zeta in *.
    split_and!; auto; try lia.
    + destruct (snoc_inv t) as (t0 & tt & ->); [intros ->; simpl in Hlt; lia|]. rewrite top_snoc.
      rewrite length_app in Hlt. cbn [length] in Hlt.
      apply Forall_app in Ht as [Ht0 _]. apply (top_ge t0); [done|].
      replace (length t0) with (length d) by lia. rewrite E1, ED. nia.
    + assert (wf t) as Hwt by (split; [done | intros ->; simpl in Hlt; lia]).
      apply top_limb in Hwt. unfold limb in Hwt. lia.
Qed.

Lemma quot_signs x y q r :
  0 <= r < Z.abs y -> Z.abs x = q * Z.abs y + r ->
  Z.quot x y = (if Z.ltb x 0 then -1 else 1) * (if Z.ltb y 0 then -1 else 1) * q /\
  Z.rem x y = (if Z.ltb x 0 then -1 else 1) * r.
Proof.
  intros Hr E.
  assert (x = y * ((if Z.ltb x 0 then -1 else 1) * (if Z.ltb y 0 then -1 else 1) * q) +
          (if Z.ltb x 0 then -1 else 1) * r) as Ex.
  { destruct (Z.ltb_spec x 0), (Z.ltb_spec y 0); lia. }
  assert (Zquot.Remainder x y ((if Z.ltb x 0 then -1 else 1) * r)) as HR.
  { unfold Zquot.Remainder. destruct (Z.ltb_spec x 0); [right | left]; lia. }
  split; symmetry; [eapply Zquot.Zquot_unique_full | eapply Zquot.Zrem_unique_full]; eauto.
Qed.

Lemma sign_ltb a : wf a -> (bval a <? 0) = negb (js_bigint_sign a =? 0).
Proof.
  intros H. destruct (bval_sign a H) as [(-> & ?)|(-> & ?)]; cbn; lia.
Qed.

(** Apply the sign to a magnitude given with a zero limb on top. *)
Lemma signed_result q (neg : bool) :
  limbs q ->
  let r := js_bigint_normalize (if neg then fst (mp_neg (q ++ [0])) else q ++ [0]) in
  normalized r /\ bval r = (if neg then -1 else 1) * uval q.
Proof.
  intros Hq. destruct (bval_snoc0 q Hq) as [Hw EV]. cbv zeta. pose proof (uval_range q Hq).
  destruct neg.
  - destruct (mp_neg_bval (q ++ [0]) Hw ltac:(lia)) as [Hw' EV'].
    destruct (normalize_spec _ Hw') as [Hn E]. split; [done | lia].
  - destruct (normalize_spec _ Hw) as [Hn E]. split; [done | lia].
Qed.

Lemma divrem_spec a b is_rem :
  wf a -> normalized b -> bval b <> 0 ->
  Z.of_nat (length a + 2) <= JS_BIGINT_MAX_SIZE ->
  exists r, js_bigint_divrem a b is_rem = Ok r /\
    bval r = (if is_rem then Z.rem else Z.quot) (bval a) (bval b) /\
    (normalized a -> normalized r).
Proof.
  intros Ha Hb Hb0 Hlen. unfold js_bigint_divrem.
  assert ((length b =? 1)%nat && (List.nth 0 b 0 =? 0) = false) as ->.
  { destruct (Nat.eqb_spec (length b) 1) as [E|]; [|done]. cbn [andb].
    destruct b as [|v [|? ?]]; try discriminate. apply Z.eqb_neq. intros E0. cbn in E0. subst v. now apply Hb0. }
  rewrite js_bigint_new_ok by done. cbn [res_bind].
  destruct (magnitude_spec a Ha) as (EA & HA & LA & _).
  destruct (magnitude_spec b (proj1 Hb)) as (EB & HB & LBn & TB).
  rewrite <- !sign_ltb by auto using normalized_wf.
  pose proof (sign_ltb a Ha) as Sa. pose proof (sign_ltb b (proj1 Hb)) as Sb.
  set (r := magnitude a) in *. set (tabb := magnitude b) in *. clearbody r tabb.
  assert (0 < top 0 tabb) as Htop.
  { destruct (snoc_inv tabb) as (d & x & ->); [intros ->; simpl in LBn; lia|]. rewrite top_snoc in *.
    apply Forall_app in HB as [HD HX]. inversion HX as [|? ? HX' _]; subst. unfold limb in HX'.
    destruct TB as [E1|]; [|lia]. rewrite length_app in E1. cbn [length] in E1.
    destruct d; [|simpl in E1; lia]. cbn in EB. lia. }
  destruct (Nat.ltb_spec (length r) (length tabb)) as [Hsmall|Hbig].
  - (* |a| < |b| *)
    pose proof (uval_range r HA) as RA.
    destruct (snoc_inv tabb) as (d & x & ->); [intros ->; simpl in LBn; lia|]. rewrite top_snoc in *.
    rewrite length_app in Hsmall. cbn [length] in Hsmall. rewrite uval_snoc in EB.
    apply Forall_app in HB as [HD _]. pose proof (uval_range d HD).
    assert (Bp (length r) <= Bp (length d)) as Hmono.
    { replace (length d) with (length r + (length d - length r))%nat by lia. rewrite Bp_add.
      pose proof (Bp_pos (length r)). pose proof (Bp_pos (length d - length r)). nia. }
    pose proof (Bp_pos (length d)).
    assert (Z.abs (bval a) < Z.abs (bval b)) as Hlt by nia.
    destruct (quot_signs (bval a) (bval b) 0 (Z.abs (bval a))) as [EQ ER]; [lia | lia |].
    destruct is_rem.
    + rewrite js_bigint_new_ok by lia. exists a. split_and!; auto. rewrite ER.
      destruct (Z.ltb_spec (bval a) 0); lia.
    + exists [0]. split_and!; [reflexivity | rewrite EQ, Z.mul_0_r; reflexivity | intros _].
      apply normalized_single. unfold limb. lia.
  - fold (divrem_shift tabb r (js_limb_clz (top 0 tabb))).
    pose proof (divrem_shift_spec tabb r HB HA ltac:(lia) Htop) as HS. cbv zeta in HS.
    destruct (clz_spec (top 0 tabb)) as [Hs _]; auto.
    { apply top_limb. split; [done|]. intros ->. simpl in LBn. lia. }
    set (s := js_limb_clz (top 0 tabb)) in *. clearbody s.
    destruct (divrem_shift tabb r s) as [tabb' r'] eqn:ES. clear ES.
    destruct HS as (VB & VA & HB' & HA' & LB' & LA' & HT).
    rewrite js_bigint_new_ok by lia. cbn [res_bind].
    destruct (mp_divnorm r' tabb') as [q w] eqn:ED.
    apply mp_divnorm_spec in ED as (ED & Rw & Hq & Lq & Hw & Lw); auto; [|lia].
    assert (0 < 2 ^ s) as P2 by (apply Z.pow_pos_nonneg; lia).
    assert (Z.abs (bval b) > 0) as Hbp by lia.
    assert (exists m, uval w = m * 2 ^ s /\ 0 <= m < Z.abs (bval b) /\
              Z.abs (bval a) = uval q * Z.abs (bval b) + m) as (m & Em & Rm & Ediv).
    { exists (Z.abs (bval a) - uval q * Z.abs (bval b)). rewrite <- EA, <- EB in *.
      rewrite VA, VB in *. assert (uval w = (uval r - uval q * uval tabb) * 2 ^ s) as Ew by lia.
      rewrite Ew in Rw. apply scaled_range in Rw; [|done]. split_and!; [done | tauto | tauto | lia]. }
    destruct (quot_signs (bval a) (bval b) (uval q) m Rm Ediv) as [EQ ER].
    destruct is_rem.
    + assert (exists w', (if negb (s =? 0) then fst (mp_shr w s 0) else w) = w' /\ limbs w' /\ uval w' = m)
        as (w' & -> & Hw' & Ew').
      { destruct (Z.eqb_spec s 0) as [->|]; cbn [negb].
        - exists w. split_and!; auto. change (2 ^ 0) with 1 in Em. lia.
        - destruct (mp_shr w s 0) as [w' rem] eqn:Esh.
          apply mp_shr_spec in Esh as (Esh & ? & ? & Hrem); auto; [|lia|unfold limb; lia].
          exists w'. cbn [fst]. split_and!; auto. rewrite Z.mod_0_l in Esh by lia.
          rewrite Em in Esh. apply (scaled_rem (uval w') m rem (2 ^ s)); lia. }
      eexists. split; [reflexivity|].
      destruct (signed_result w' (bval a <? 0) Hw') as [Hn EV]. cbv zeta in *.
      split; [|done]. rewrite EV, ER, Ew'. done.
    + eexists. split; [reflexivity|].
      assert (negb (Z.lxor (js_bigint_sign a) (js_bigint_sign b) =? 0) = xorb (bval a <? 0) (bval b <? 0)) as ->.
      { rewrite Sa, Sb. pose proof (sign_range a Ha). pose proof (sign_range b (proj1 Hb)).
        assert (js_bigint_sign a = 0 \/ js_bigint_sign a = 1) as [-> | ->] by lia;
        assert (js_bigint_sign b = 0 \/ js_bigint_sign b = 1) as [-> | ->] by lia; reflexivity. }
      destruct (signed_result q (xorb (bval a <? 0) (bval b <? 0)) Hq) as [Hn EV]. cbv zeta in *.
      split; [|done]. rewrite EV, EQ. destruct (bval a <? 0), (bval b <? 0); cbn [xorb]; lia.
Qed.

(** ** Bitwise operations *)

(** The value read limb by limb from the low end. *)
Lemma bval_cons x a : wf a -> bval (x :: a) = x + LB * bval a.
Proof.
  intros [_ Hne]. destruct (snoc_inv a Hne) as (l & y & ->). unfold bval, js_bigint_sign.
  change (x :: l ++ [y]) with ((x :: l) ++ [y]). rewrite !top_snoc.
  cbn [uval length app]. rewrite Bp_S. ring.
Qed.

Lemma bval_single x : limb x -> bval [x] = x + LB * - Z.shiftr x (JS_LIMB_BITS - 1).
Proof.
  intros. unfold bval, js_bigint_sign. change (top 0 [x]) with x.
  cbn [uval length]. rewrite Bp_1. ring.
Qed.

Lemma wf_inv a : wf a -> exists x a', a = x :: a' /\ limb x /\ (a' = [] \/ wf a').
Proof.
  intros [H Hne]. destruct a as [|x a']; [done|]. inversion H; subst.
  exists x, a'. split_and!; auto. destruct a'; [auto | right; split; auto; done].
Qed.

Section logic.
Context (f : Z -> Z -> Z) (fb : bool -> bool -> bool).
Context (Hf : forall x y n, 0 <= n -> Z.testbit (f x y) n = fb (Z.testbit x n) (Z.testbit y n)).
Context (Hfb : fb false false = false).

Lemma logic_limb x y : limb x -> limb y -> limb (f x y).
Proof.
  intros Hx Hy. assert (f x y = f x y mod 2 ^ 64) as ->; [|apply (wrap_range 64); lia].
  apply Z.bits_inj'. intros n Hn. destruct (Z.ltb_spec n 64).
  - now rewrite Z.mod_pow2_bits_low by lia.
  - rewrite Z.mod_pow2_bits_high by lia. rewrite Hf by done.
    rewrite !(testbit_high _ 64) by (first [exact Hx | exact Hy | lia]). exact Hfb.
Qed.

Lemma logic_concat x y A B :
  limb x -> limb y -> f (x + LB * A) (y + LB * B) = f x y + LB * f A B.
Proof.
  intros Hx Hy. pose proof (logic_limb x y Hx Hy) as Hxy.
  apply Z.bits_inj'. intros n Hn. change LB with (2 ^ 64).
  rewrite Hf, !testbit_concat by (first [lia | assumption]).
  destruct (Z.ltb_spec n 64); rewrite Hf by lia; done.
Qed.

Lemma logic_sign x y :
  limb x -> limb y ->
  f (- Z.shiftr x (JS_LIMB_BITS - 1)) (- Z.shiftr y (JS_LIMB_BITS - 1)) =
  - Z.shiftr (f x y) (JS_LIMB_BITS - 1).
Proof.
  intros Hx Hy. assert (Z.shiftr (f x y) (JS_LIMB_BITS - 1) =
    f (Z.shiftr x (JS_LIMB_BITS - 1)) (Z.shiftr y (JS_LIMB_BITS - 1))) as ->.
  { apply Z.bits_inj'. intros n Hn.
    rewrite Z.shiftr_spec, !Hf, !Z.shiftr_spec by (unfold JS_LIMB_BITS; lia). done. }
  assert (f 0 0 = 0) as E00.
  { apply Z.bits_inj'. intros n Hn. rewrite Hf, Z.bits_0 by lia. done. }
  assert (forall u v, 0 <= u <= 1 -> 0 <= v <= 1 -> f (- u) (- v) = - f u v) as H.
  { intros u v Hu Hv. apply Z.bits_inj'. intros n Hn. rewrite Hf by lia.
    assert (forall w, 0 <= w <= 1 -> Z.testbit (- w) n = Z.testbit w 0) as Hw.
    { intros w Hw. assert (w = 0 \/ w = 1) as [-> | ->] by lia; [cbn; apply Z.bits_0 | apply Z.bits_m1; lia]. }
    assert (0 <= f u v <= 1) as Hfv.
    { assert (f u v = f u v mod 2 ^ 1) as ->; [|pose proof (Z.mod_pos_bound (f u v) (2 ^ 1)); lia].
      apply Z.bits_inj'. intros m Hm. destruct (Z.ltb_spec m 1).
      - now rewrite Z.mod_pow2_bits_low by lia.
      - rewrite Z.mod_pow2_bits_high, Hf by lia.
        rewrite !(testbit_high _ 1) by lia. exact Hfb. }
    rewrite !Hw by done. now rewrite Hf by lia. }
  apply H; rewrite shiftr63 by done; destruct (_ <=? _); lia.
Qed.

(** Limb-wise operation on arrays of one length. *)
Lemma logic_zip a b :
  wf a -> wf b -> length a = length b ->
  wf (zip_with f a b) /\ bval (zip_with f a b) = f (bval a) (bval b).
Proof.
  revert b. induction a as [|x a IH]; intros b Ha Hb Hlen; [destruct Ha; done|].
  destruct b as [|y b]; [destruct Hb; done|]. cbn [zip_with].
  destruct (wf_inv _ Ha) as (? & ? & [= <- <-] & Hx & Ha').
  destruct (wf_inv _ Hb) as (? & ? & [= <- <-] & Hy & Hb').
  destruct a as [|x' a]; destruct b as [|y' b]; try discriminate.
  - cbn [zip_with]. pose proof (logic_limb x y Hx Hy).
    split; [apply (wf_snoc []); auto|].
    rewrite !bval_single, logic_concat, logic_sign by done. done.
  - destruct Ha' as [|Ha']; [done|]. destruct Hb' as [|Hb']; [done|].
    destruct (IH (y' :: b) Ha' Hb' ltac:(simpl in *; lia)) as [Hw EV].
    split; [destruct Hw; split; [constructor; auto using logic_limb | done]|].
    rewrite (bval_cons x), (bval_cons y), (bval_cons (f x y)) by done. rewrite EV, logic_concat by done. done.
Qed.
End logic.

Lemma sext_bval n a : wf a -> (length a <= n)%nat -> wf (sext n a) /\ bval (sext n a) = bval a.
Proof.
  intros Ha Hn. destruct (sext_spec n a Ha Hn) as (H & Hl & E). pose proof (wf_length a Ha).
  assert (wf (sext n a)) as Hw by (split; [done | intros E0; rewrite E0 in Hl; simpl in Hl; lia]).
  split; [done|]. pose proof (bval_range a Ha) as R.
  assert (Bp (length a) <= Bp n).
  { replace n with (length a + (n - length a))%nat by lia. rewrite Bp_add.
    pose proof (Bp_pos (length a)). pose proof (Bp_pos (n - length a)). nia. }
  apply bval_unique with (js_bigint_sign a); auto; rewrite Hl; lia.
Qed.

Definition logic_fb (op : logic_op) : bool -> bool -> bool :=
  match op with OP_or => orb | OP_and => andb | OP_xor => xorb end.

Lemma logic_fn_spec op x y n :
  0 <= n -> Z.testbit (logic_fn op x y) n = logic_fb op (Z.testbit x n) (Z.testbit y n).
Proof. intros. destruct op; cbn; [apply Z.lor_spec | apply Z.land_spec | apply Z.lxor_spec]. Qed.

Lemma logic_fn_comm op x y : logic_fn op x y = logic_fn op y x.
Proof. destruct op; cbn; [apply Z.lor_comm | apply Z.land_comm | apply Z.lxor_comm]. Qed.

Lemma zip_with_app_replicate (f : Z -> Z -> Z) a b s :
  (length b <= length a)%nat ->
  zip_with f (take (length b) a) b ++ map (fun x => f x s) (drop (length b) a) =
  zip_with f a (b ++ replicate (length a - length b) s).
Proof.
  revert b. induction a as [|x a IH]; intros [|y b] H; try (simpl in H; lia); try done.
  - cbn [length take drop zip_with app map replicate Nat.sub]. f_equal.
    specialize (IH [] ltac:(simpl; lia)). cbn in IH. rewrite Nat.sub_0_r in IH. exact IH.
  - cbn [length take drop zip_with app Nat.sub]. f_equal. apply IH. simpl in H. lia.
Qed.

Lemma logic_spec a b op :
  wf a -> wf b -> Z.of_nat (Nat.max (length a) (length b)) <= JS_BIGINT_MAX_SIZE ->
  exists r, js_bigint_logic a b op = Ok r /\ normalized r /\
            bval r = logic_fn op (bval a) (bval b).
Proof.
  intros Ha Hb Hlen.
  assert (forall a b, wf a -> wf b -> (length b <= length a)%nat ->
    Z.of_nat (length a) <= JS_BIGINT_MAX_SIZE ->
    exists r, (let? _ := js_bigint_new (length a) in
      Ok (js_bigint_normalize (zip_with (logic_fn op) (take (length b) a) b ++
             map (fun x => logic_fn op x (u64 (- js_bigint_sign b))) (drop (length b) a)))) = Ok r /\
      normalized r /\ bval r = logic_fn op (bval a) (bval b)) as H.
  { clear. intros a b Ha Hb Hle Hlen. rewrite js_bigint_new_ok by done. cbn [res_bind].
    rewrite zip_with_app_replicate by done. fold (sext (length a) b).
    destruct (sext_bval (length a) b Hb Hle) as [Hs Es].
    destruct (logic_zip (logic_fn op) (logic_fb op)) with (a := a) (b := sext (length a) b) as [Hw EV];
      auto using logic_fn_spec; [now destruct op | symmetry; now apply sext_spec|].
    destruct (normalize_spec _ Hw) as [Hn En]. eexists. split_and!; [reflexivity | done | congruence]. }
  unfold js_bigint_logic. destruct (Nat.ltb_spec (length a) (length b)).
  - destruct (H b a) as (r & E & Hn & EV); auto; try lia. exists r. rewrite logic_fn_comm. auto.
  - destruct (H a b) as (r & E & Hn & EV); auto; try lia. eauto.
Qed.

Lemma not_spec a :
  normalized a -> Z.of_nat (length a) <= JS_BIGINT_MAX_SIZE ->
  exists r, js_bigint_not a = Ok r /\ normalized r /\ bval r = Z.lnot (bval a).
Proof.
  intros [Ha Hn] Hlen. unfold js_bigint_not. rewrite js_bigint_new_ok by done. cbn [res_bind].
  destruct (wf_map_complement (fun x => u64 (Z.lnot x)) a Ha u64_lnot) as [Hw EV].
  eexists. split_and!; [reflexivity | | rewrite EV; unfold Z.lnot; lia].
  split; [done|]. intros l lo v E.
  apply map_eq_app in E as (l1 & l2 & -> & _ & E).
  destruct l2 as [|lo' [|v' [|? ?]]]; try discriminate. injection E as <- <-.
  specialize (Hn l1 lo' v' eq_refl). destruct Ha as [Ha _]. apply Forall_app in Ha as [_ Ha].
  inversion Ha as [|? ? Hlo Hv']; subst. inversion Hv' as [|? ? Hv _]; subst.
  rewrite !u64_lnot by done. unfold redundant in *. unfold limb in *.
  rewrite !shiftr63 in * by (unfold limb; lia). change (LB / 2) with 9223372036854775808 in *.
  rewrite <- Hn.
  destruct (Z.eqb_spec v' 0) as [->|]; [destruct (Z.leb_spec 9223372036854775808 lo');
    destruct (Z.leb_spec 9223372036854775808 (LB - 1 - lo')); try lia; reflexivity|].
  destruct (Z.eqb_spec v' (LB - 1)) as [->|]; [destruct (Z.leb_spec 9223372036854775808 lo');
    destruct (Z.leb_spec 9223372036854775808 (LB - 1 - lo')); try lia; reflexivity|].
  destruct (Z.eqb_spec (LB - 1 - v') 0); [lia|]. destruct (Z.eqb_spec (LB - 1 - v') (LB - 1)); [lia|].
  reflexivity.
Qed.

(** ** Shifts *)

Lemma uval_replicate_app d a : uval (replicate d 0 ++ a) = Bp d * uval a.
Proof. rewrite uval_app, uval_replicate_0, length_replicate. lia. Qed.

Lemma Bp_pow n : Bp n = 2 ^ (64 * Z.of_nat n).
Proof. unfold Bp. change LB with (2 ^ 64). rewrite <- Z.pow_mul_r; lia. Qed.

(** A shift count is whole limbs and bits. *)
Lemma shift_split n :
  0 <= n -> let d := Z.to_nat (n / JS_LIMB_BITS) in let s := n mod JS_LIMB_BITS in
  0 <= s < JS_LIMB_BITS /\ 2 ^ n = Bp d * 2 ^ s.
Proof.
  intros Hn. cbv zeta. unfold JS_LIMB_BITS.
  pose proof (Z.mod_pos_bound n 64 ltac:(lia)). pose proof (Z.div_pos n 64 ltac:(lia) ltac:(lia)).
  split; [lia|]. rewrite Bp_pow, <- Z.pow_add_r by lia. f_equal.
  rewrite Z2Nat.id by lia. pose proof (Z.div_mod n 64). lia.
Qed.

Lemma top_app {A} (d : A) l1 l2 : l2 <> [] -> top d (l1 ++ l2) = top d l2.
Proof. intros H. destruct (snoc_inv l2 H) as (l & x & ->). now rewrite app_assoc, !top_snoc. Qed.

Lemma sign_app l1 l2 : l2 <> [] -> js_bigint_sign (l1 ++ l2) = js_bigint_sign l2.
Proof. intros. unfold js_bigint_sign. now rewrite top_app. Qed.

(** Whole low zero limbs. *)
Lemma shl_limbs d a :
  normalized a -> a <> [0] -> normalized (replicate d 0 ++ a) /\ bval (replicate d 0 ++ a) = Bp d * bval a.
Proof.
  intros [[Ha Hne] Hn] Hz. split; [split|].
  - split; [apply Forall_app; split; [apply Forall_replicate_eq; unfold limb; lia | done] | destruct d; done].
  - intros l lo v E. destruct (snoc_inv a Hne) as (l0 & v' & ->).
    replace (l ++ [lo; v]) with ((l ++ [lo]) ++ [v]) in E by now rewrite <- app_assoc.
    rewrite app_assoc in E. apply app_inj_2 in E as [E [= <-]]; [|done].
    destruct (decide (l0 = [])) as [->|Hl0].
    + rewrite app_nil_r in E. assert (lo = 0) as ->.
      { assert (lo ∈ replicate d 0) as Hin by (rewrite E; apply elem_of_app; right; constructor).
        now apply elem_of_replicate in Hin as [-> _]. }
      unfold redundant. change (Z.shiftr 0 (JS_LIMB_BITS - 1)) with 0.
      destruct (Z.eqb_spec v' 0) as [->|]; [done|].
      destruct (Z.eqb_spec v' (LB - 1)) as [->|]; [reflexivity | done].
    + destruct (snoc_inv l0 Hl0) as (l1 & lo' & ->). rewrite app_assoc in E.
      apply app_inj_2 in E as [_ [= <-]]; [|done]. apply (Hn l1). now rewrite <- app_assoc.
  - unfold bval. rewrite sign_app, uval_replicate_app, length_app, length_replicate, Bp_add by done. ring.
Qed.

Lemma shl_high_limb l s : 0 < s < JS_LIMB_BITS -> 0 <= l < 2 ^ s ->
  Z.lor l (u64 (Z.shiftl (u64 (-1)) s)) = l + (LB - 2 ^ s).
Proof.
  intros Hs Hl. destruct (pow2_split s Hs) as (EB & P1 & P2).
  change (u64 (-1)) with (LB - 1). rewrite Z.shiftl_mul_pow2 by lia.
  rewrite (wrap_unique 64 _ ((2 ^ (JS_LIMB_BITS - s) - 1) * 2 ^ s) (2 ^ s - 1)).
  - rewrite Z.lor_comm, lor_disjoint_add by lia. lia.
  - lia.
  - unfold in_u. change (2 ^ 64) with LB. nia.
  - change (2 ^ 64) with LB. nia.
Qed.

Lemma shl_spec a n :
  normalized a -> 0 <= n -> Z.of_nat (length a) + n / JS_LIMB_BITS <= JS_BIGINT_MAX_SIZE ->
  exists r, js_bigint_shl a n = Ok r /\ normalized r /\ bval r = Z.shiftl (bval a) n.
Proof.
  intros Hna Hn Hlen. pose proof (proj1 Hna) as Ha. unfold js_bigint_shl.
  pose proof (Z.div_pos n JS_LIMB_BITS Hn eq_refl) as Hd.
  destruct (shift_split n Hn) as [Hs E2]. cbv zeta in *.
  destruct ((length a =? 1)%nat && (List.nth 0 a 0 =? 0)) eqn:Ez.
  { apply andb_true_iff in Ez as [E1 E0]. apply Nat.eqb_eq in E1. apply Z.eqb_eq in E0.
    destruct a as [|v [|? ?]]; try discriminate. cbn in E0. subst v. exists [0].
    split_and!; [reflexivity | done | now rewrite Z.shiftl_0_l]. }
  assert (a <> [0]) as Hz by (intros ->; discriminate).
  rewrite js_bigint_new_ok by lia. cbn [res_bind]. rewrite (Z.shiftl_mul_pow2 (bval a) n Hn), E2.
  set (d := Z.to_nat (n / JS_LIMB_BITS)) in *. set (s := n mod JS_LIMB_BITS) in *. clearbody d s.
  destruct (Z.eqb_spec s 0) as [->|Hs0].
  - destruct (shl_limbs d a Hna Hz) as [Hr EV]. eexists. split_and!; [reflexivity | done |].
    rewrite EV. change (2 ^ 0) with 1. ring.
  - destruct (mp_shl a s 0) as [r l] eqn:E. destruct (pow2_split s) as (EB & P1 & P2); [lia|].
    apply mp_shl_spec in E as (E & Hr & Hl & Hh); [|apply Ha | lia | lia].
    set (l' := if negb _ then _ else _).
    assert (limb l' /\ l' = l + js_bigint_sign a * (LB - 2 ^ s)) as [Hl' El'].
    { subst l'. assert (2 ^ s < LB) by (rewrite EB; assert (2 ^ 1 <= 2 ^ (JS_LIMB_BITS - s)) by (apply Z.pow_le_mono_r; lia); nia).
      unfold limb. destruct (bval_sign a Ha) as [(-> & _)|(-> & _)]; cbn [Z.eqb negb].
      - rewrite shl_high_limb by lia. lia. - lia. }
    assert (wf (replicate d 0 ++ r)) as Hw.
    { pose proof (wf_length a Ha). split; [apply Forall_app; split; [apply Forall_replicate_eq; unfold limb; lia | done]|].
      intros E0. apply app_eq_nil in E0 as [_ ->]. simpl in Hl. lia. }
    destruct (extend_spec _ l' Hw Hl') as [Hn' EV]. eexists. split_and!; [reflexivity | done |].
    rewrite EV. pose proof (bval_range a Ha). pose proof (uval_bval a) as Ea.
    pose proof (Bp_pos d). pose proof (Bp_pos (length a)).
    apply bval_unique with (js_bigint_sign a).
    + apply wf_snoc; [apply Hw | done].
    + rewrite uval_snoc, uval_replicate_app, !length_app, length_replicate, Hl. cbn [length].
      rewrite !Bp_add, Bp_1, El'.
      assert (uval r = (bval a + js_bigint_sign a * Bp (length a)) * 2 ^ s - Bp (length a) * l) as -> by lia.
      ring.
    + rewrite !length_app, length_replicate, Hl. cbn [length]. rewrite !Bp_add, Bp_1.
      assert (0 < 2 ^ s < LB) by (rewrite EB; assert (2 ^ 1 <= 2 ^ (JS_LIMB_BITS - s)) by (apply Z.pow_le_mono_r; lia); nia).
      assert (- (Bp (length a) * LB) <= 2 * bval a * 2 ^ s < Bp (length a) * LB) by nia.
      assert (- (Bp d * (Bp (length a) * LB)) <= Bp d * (2 * bval a * 2 ^ s) < Bp d * (Bp (length a) * LB)) by nia.
      lia.
Qed.

Lemma drop_spec d a :
  wf a -> (d < length a)%nat ->
  wf (drop d a) /\ bval (drop d a) = bval a / Bp d /\ (normalized a -> normalized (drop d a)).
Proof.
  intros Ha Hd. assert (drop d a <> []) as Hne.
  { intros E. apply (f_equal length) in E. rewrite length_drop in E. simpl in E. lia. }
  destruct Ha as [Hl Ha]. assert (wf (drop d a)) as Hw by (split; [now apply Forall_drop | done]).
  split_and!; [done | |].
  - apply Z.div_unique with (uval (take d a)).
    + left. pose proof (uval_range (take d a) ltac:(now apply Forall_take)) as R.
      rewrite length_take, Nat.min_l in R by lia. exact R.
    + rewrite <- (take_drop d a) at 1. unfold bval at 1.
      rewrite sign_app, uval_app, length_app, length_take, Nat.min_l, Bp_add by (done || lia).
      unfold bval. ring.
  - intros [_ Hn]. split; [done|]. intros l lo v E. apply (Hn (take d a ++ l)).
    rewrite <- app_assoc, <- E. symmetry. apply take_drop.
Qed.

Lemma bval_div_small a d : wf a -> (length a <= d)%nat -> bval a / Bp d = - js_bigint_sign a.
Proof.
  intros Ha Hd. pose proof (bval_range a Ha).
  assert (Bp (length a) <= Bp d).
  { replace d with (length a + (d - length a))%nat by lia. rewrite Bp_add.
    pose proof (Bp_pos (length a)). pose proof (Bp_pos (d - length a)). nia. }
  destruct (bval_sign a Ha) as [(-> & ?)|(-> & ?)].
  - symmetry. apply Z.div_unique with (bval a + Bp d); lia.
  - apply Z.div_small. lia.
Qed.

Lemma normalized_si z : normalized [u64 z].
Proof. apply normalized_single, u64_limb. Qed.

Lemma bval_si s : 0 <= s <= 1 -> bval [u64 (- s)] = - s.
Proof. intros. assert (s = 0 \/ s = 1) as [-> | ->] by lia; reflexivity. Qed.

Lemma shr_spec a n :
  normalized a -> 0 <= n -> Z.of_nat (length a - Z.to_nat (n / JS_LIMB_BITS)) <= JS_BIGINT_MAX_SIZE ->
  exists r, js_bigint_shr a n = Ok r /\ normalized r /\ bval r = Z.shiftr (bval a) n.
Proof.
  intros Hna Hn Hlen. pose proof (proj1 Hna) as Ha. unfold js_bigint_shr.
  destruct (shift_split n Hn) as [Hs E2]. cbv zeta in *. rewrite (Z.shiftr_div_pow2 _ _ Hn), E2.
  set (d := Z.to_nat (n / JS_LIMB_BITS)) in *. set (s := n mod JS_LIMB_BITS) in *. clearbody d s.
  pose proof (Bp_pos d). assert (0 < 2 ^ s) by (apply Z.pow_pos_nonneg; lia).
  rewrite <- Z.div_div by lia. pose proof (sign_range a Ha) as Rs.
  destruct (Nat.leb_spec (length a) d).
  - rewrite bval_div_small by (done || lia). eexists. split_and!; [reflexivity | apply normalized_si |].
    rewrite bval_si by done. destruct (bval_sign a Ha) as [(-> & _)|(-> & _)].
    + apply Z.div_unique with (2 ^ s - 1); lia. + now rewrite Z.div_0_l by lia.
  - destruct (drop_spec d a Ha ltac:(lia)) as (Hw & <- & Hnd).
    rewrite js_bigint_new_ok by lia. cbn [res_bind].
    assert (js_bigint_sign (drop d a) = js_bigint_sign a) as ESg.
    { rewrite <- (take_drop d a) at 2. symmetry. apply sign_app. apply Hw. }
    destruct (Z.eqb_spec s 0) as [->|Hs0].
    + eexists. split_and!; [reflexivity | auto |]. change (2 ^ 0) with 1. now rewrite Z.div_1_r.
    + rewrite <- ESg in *. set (t := drop d a) in *. clearbody t.
      destruct (mp_shr t s _) as [r rem] eqn:E. destruct (pow2_split s) as (EB & P1 & P2); [lia|].
      apply mp_shr_spec in E as (E & Hr & Hl & Hrem); [|apply Hw | lia | apply u64_limb].
      assert (u64 (- js_bigint_sign t) mod 2 ^ s = js_bigint_sign t * (2 ^ s - 1)) as Eh.
      { assert (js_bigint_sign t = 0 \/ js_bigint_sign t = 1) as [-> | ->] by lia.
        - change (u64 (- 0)) with 0. rewrite Z.mod_0_l; lia.
        - change (u64 (- (1))) with (LB - 1). symmetry.
          apply Z.mod_unique with (2 ^ (JS_LIMB_BITS - s) - 1); [left; lia | rewrite EB; ring]. }
      rewrite Eh, (uval_bval t) in E.
      assert (wf r) as Hwr by (split; [done | intros ->; pose proof (wf_length t Hw); simpl in Hl; lia]).
      destruct (normalize_spec r Hwr) as [Hn' EV]. eexists. split_and!; [reflexivity | done |].
      cbn [fst]. rewrite EV. pose proof (bval_range t Hw) as Rt.
      pose proof (Z.div_mod (bval t) (2 ^ s) ltac:(lia)) as Ed.
      pose proof (Z.mod_pos_bound (bval t) (2 ^ s) ltac:(lia)) as Rd.
      assert (uval r = bval t / 2 ^ s + js_bigint_sign t * Bp (length t)) as Er.
      { apply (scaled_rem (uval r) _ (rem - bval t mod 2 ^ s) (2 ^ s)).
        - lia.
        - assert (rem = bval t mod 2 ^ s) as ->; [|lia].
          apply Z.mod_unique with (uval r - js_bigint_sign t * Bp (length t)); [left; lia|].
          lia. }
      apply bval_unique with (js_bigint_sign t); auto; rewrite Hl; [done|].
      assert (2 ^ 1 <= 2 ^ s) by (apply Z.pow_le_mono_r; lia). pose proof (Bp_pos (length t)).
      nia.
Qed.

(** ** Comparison *)

Definition sgn_of_comparison (c : comparison) : Z :=
  match c with Lt => -1 | Eq => 0 | Gt => 1 end.

Lemma cmp_from_top_spec a b :
  limbs a -> limbs b -> length a = length b ->
  cmp_from_top (rev a) (rev b) = sgn_of_comparison (uval a ?= uval b).
Proof.
  revert b. induction a as [|x a IH] using rev_ind; intros b Ha Hb Hlen.
  - destruct b; [reflexivity | discriminate].
  - destruct (snoc_inv b) as (b' & y & ->); [intros ->; rewrite length_app in Hlen; simpl in Hlen; lia|].
    apply Forall_app in Ha as [Ha Hx]. apply Forall_app in Hb as [Hb Hy].
    inversion Hx; inversion Hy; subst. rewrite !length_app in Hlen. cbn [length] in Hlen.
    assert (length a = length b') as Hl by lia.
    pose proof (uval_range a Ha). pose proof (uval_range b' Hb).
    rewrite !rev_app_distr. cbn [rev app cmp_from_top]. rewrite !uval_snoc, Hl in *.
    pose proof (Bp_pos (length b')).
    destruct (Z.eqb_spec x y) as [->|Hne]; cbn [negb].
    + rewrite IH by auto. f_equal. symmetry.
      destruct (Z.compare_spec (uval a) (uval b')); [apply Z.compare_eq_iff | apply Z.compare_lt_iff | apply Z.compare_gt_iff]; lia.
    + symmetry. destruct (Z.ltb_spec x y).
      * assert (uval a + Bp (length b') * x < uval b' + Bp (length b') * y) as Hlt by nia.
        now apply Z.compare_lt_iff in Hlt as ->.
      * assert (uval b' + Bp (length b') * y < uval a + Bp (length b') * x) as Hlt by nia.
        now apply Z.compare_gt_iff in Hlt as ->.
Qed.

(** A normalized number of [n >= 2] limbs does not fit in [n - 1] limbs. *)
Lemma normalized_large a l v :
  normalized a -> a = l ++ [v] -> l <> [] ->
  2 * bval a < - Bp (length l) \/ Bp (length l) <= 2 * bval a.
Proof.
  intros [Ha Hn] -> Hl. destruct (snoc_inv l Hl) as (l0 & lo & ->).
  assert (limbs (l0 ++ [lo]) /\ limb v) as [Hlo Hv].
  { destruct Ha as [Ha _]. apply Forall_app in Ha as [? Ha]. inversion Ha; auto. }
  assert (limb lo) as Hlol by (apply Forall_app in Hlo as [_ Hlo]; now inversion Hlo).
  specialize (Hn l0 lo v). rewrite <- app_assoc in Hn. specialize (Hn eq_refl).
  unfold redundant in Hn. rewrite shiftr63 in Hn by done.
  unfold bval. rewrite sign_snoc, uval_snoc, length_app by done.
  assert (limbs l0) as Hl0 by (apply Forall_app in Hlo; tauto).
  rewrite uval_snoc, !length_app. cbn [length]. rewrite !Nat.add_1_r, !Bp_S.
  pose proof (uval_range l0 Hl0). pose proof (Bp_pos (length l0)) as HP. unfold limb in *.
  set (P := Bp (length l0)) in *. clearbody P.
  change (LB / 2) with 9223372036854775808 in *.
  destruct (Z.eqb_spec v 0) as [->|]; [|destruct (Z.eqb_spec v (LB - 1)) as [->|]].
  - destruct (Z.leb_spec 9223372036854775808 lo); [|discriminate]. right. cbn [Z.leb Z.compare]. nia.
  - destruct (Z.leb_spec 9223372036854775808 lo); [discriminate|]. left.
    change (9223372036854775808 <=? LB - 1) with true. cbv iota. nia.
  - destruct (Z.leb_spec 9223372036854775808 v); [left | right]; nia.
Qed.

Lemma longer_larger a b :
  normalized a -> wf b -> (length b < length a)%nat -> js_bigint_sign a = js_bigint_sign b ->
  (js_bigint_sign a = 0 /\ bval b < bval a) \/ (js_bigint_sign a = 1 /\ bval a < bval b).
Proof.
  intros Ha Hb Hlen Es. pose proof (wf_length b Hb).
  destruct (snoc_inv a) as (l & v & E); [apply Ha|].
  assert (l <> []) as Hl by (intros ->; rewrite E in Hlen; simpl in Hlen; lia).
  pose proof (normalized_large a l v Ha E Hl) as HL. pose proof (bval_range b Hb).
  assert (Bp (length b) <= Bp (length l)).
  { rewrite E, length_app in Hlen. cbn [length] in Hlen.
    replace (length l) with (length b + (length l - length b))%nat by lia. rewrite Bp_add.
    pose proof (Bp_pos (length b)). pose proof (Bp_pos (length l - length b)). nia. }
  destruct (bval_sign a (proj1 Ha)) as [(Ea & ?)|(Ea & ?)], (bval_sign b Hb) as [(Eb & ?)|(Eb & ?)];
    rewrite Ea, Eb in Es; try discriminate; [right | left]; lia.
Qed.

(** A normalized BigInt is the only one of its value. *)
Lemma normalized_inj a b : normalized a -> normalized b -> bval a = bval b -> a = b.
Proof.
  intros Ha Hb E.
  assert (js_bigint_sign a = js_bigint_sign b) as Es.
  { destruct (bval_sign a (proj1 Ha)) as [(-> & ?)|(-> & ?)],
      (bval_sign b (proj1 Hb)) as [(-> & ?)|(-> & ?)]; lia. }
  destruct (Nat.lt_trichotomy (length a) (length b)) as [H|[H|H]].
  - destruct (longer_larger b a Hb (proj1 Ha) H) as [(_ & ?)|(_ & ?)]; [done | lia..].
  - apply uval_inj; [apply Ha | apply Hb | done |]. rewrite (uval_bval a), (uval_bval b), E, Es, H. done.
  - destruct (longer_larger a b Ha (proj1 Hb) H Es) as [(_ & ?)|(_ & ?)]; lia.
Qed.

Lemma cmp_spec a b :
  normalized a -> normalized b ->
  js_bigint_cmp a b = sgn_of_comparison (bval a ?= bval b).
Proof.
  intros Ha Hb. unfold js_bigint_cmp. symmetry.
  pose proof (bval_sign a (proj1 Ha)) as Sa. pose proof (bval_sign b (proj1 Hb)) as Sb.
  destruct (Z.eqb_spec (js_bigint_sign a) (js_bigint_sign b)) as [Es|Es]; cbn [negb].
  - destruct (Nat.eqb_spec (length a) (length b)) as [El|El]; cbn [negb].
    + rewrite cmp_from_top_spec by (apply Ha || apply Hb || done).
      unfold bval. rewrite Es, El. f_equal.
      destruct (Z.compare_spec (uval a) (uval b)); [apply Z.compare_eq_iff | apply Z.compare_lt_iff | apply Z.compare_gt_iff]; lia.
    + destruct (Nat.ltb_spec (length a) (length b)).
      * destruct (longer_larger b a Hb (proj1 Ha)) as [(E & Hlt)|(E & Hlt)]; auto;
          rewrite Es, E; [apply Z.compare_lt_iff in Hlt | apply Z.compare_gt_iff in Hlt]; now rewrite Hlt.
      * destruct (longer_larger a b Ha (proj1 Hb)) as [(E & Hlt)|(E & Hlt)]; auto; try lia;
          rewrite E; [apply Z.compare_gt_iff in Hlt | apply Z.compare_lt_iff in Hlt]; now rewrite Hlt.
  - destruct Sa as [(Ea & ?)|(Ea & ?)], Sb as [(Eb & ?)|(Eb & ?)]; rewrite Ea, Eb in *; try done.
    + assert (bval a < bval b) as Hlt by lia. apply Z.compare_lt_iff in Hlt. now rewrite Hlt.
    + assert (bval b < bval a) as Hlt by lia. apply Z.compare_gt_iff in Hlt. now rewrite Hlt.
Qed.

(** ** Exponentiation *)

Lemma js_bigint_new_inv n : js_bigint_new n = Ok tt -> Z.of_nat n <= JS_BIGINT_MAX_SIZE.
Proof. unfold js_bigint_new. destruct (Z.ltb_spec JS_BIGINT_MAX_SIZE (Z.of_nat n)); [discriminate | done]. Qed.

Lemma mul_inv a b r :
  wf a -> wf b -> js_bigint_mul a b = Ok r -> normalized r /\ bval r = bval a * bval b.
Proof.
  intros Ha Hb E. destruct (js_bigint_new (length a + length b)) as [[]|] eqn:En.
  - apply js_bigint_new_inv in En. destruct (mul_spec a b Ha Hb En) as (r' & E' & ?).
    rewrite E in E'. injection E' as <-. done.
  - unfold js_bigint_mul in E. rewrite En in E. discriminate.
Qed.

Lemma pow_loop_spec i e r a r' :
  normalized r -> normalized a -> 0 <= e -> pow_loop i e r a = Ok r' ->
  normalized r' /\ bval r' = bval r ^ 2 ^ Z.of_nat i * bval a ^ (e mod 2 ^ Z.of_nat i).
Proof.
  intros Hr Ha He. revert r Hr. induction i as [|i IH]; intros r Hr E; cbn [pow_loop] in E.
  - injection E as <-. split; [done|]. change (2 ^ Z.of_nat 0) with 1.
    rewrite Z.mod_1_r, Z.pow_1_r, Z.pow_0_r. lia.
  - inv_res E. rename a0 into r1. apply mul_inv in H as [H1 E1]; [|apply Hr..].
    inv_res E. rename a0 into r2.
    assert (normalized r2 /\ bval r2 = bval r1 * bval a ^ Z.b2z (Z.testbit e (Z.of_nat i))) as [H2 E2].
    { destruct (Z.testbit e (Z.of_nat i)); cbn [Z.b2z].
      - apply mul_inv in H as [? ->]; [|apply H1 | apply Ha]. rewrite Z.pow_1_r. auto.
      - injection H as <-. rewrite Z.pow_0_r, Z.mul_1_r. auto. }
    apply IH in E as [Hr' EV]; [|done]. split; [done|]. rewrite EV, E2, E1.
    rewrite Nat2Z.inj_succ, Z.pow_succ_r by lia. set (p := 2 ^ Z.of_nat i).
    assert (0 < p) by (apply Z.pow_pos_nonneg; lia).
    assert (e mod (2 * p) = Z.b2z (Z.testbit e (Z.of_nat i)) * p + e mod p) as ->.
    { rewrite Z.testbit_spec' by lia. fold p. rewrite (Z.mul_comm 2 p), Z.rem_mul_r by lia. ring. }
    pose proof (Z.mod_pos_bound e p ltac:(lia)). pose proof (b2z_range (Z.testbit e (Z.of_nat i))).
    rewrite Z.pow_add_r by nia. rewrite !Z.pow_mul_l, !Z.pow_mul_r by lia.
    rewrite Z.pow_2_r, Z.pow_mul_l. ring.
Qed.

(** The exponent that both branches of [js_bigint_pow] read. *)
Lemma pow_exponent b :
  normalized b -> js_bigint_sign b = 0 -> (length b <= 1)%nat -> List.nth 0 b 0 = bval b.
Proof.
  intros [Hb _] Es Hl. destruct b as [|v [|? ?]]; [destruct Hb; done | | simpl in Hl; lia].
  unfold bval. rewrite Es. cbn [uval List.nth]. lia.
Qed.

Lemma pow_general_spec a b r :
  normalized a -> normalized b -> js_bigint_sign b = 0 -> bval b <> 0 ->
  js_bigint_pow_general a b = Ok r -> normalized r /\ bval r = bval a ^ bval b.
Proof.
  intros Ha Hb Es Hb0 E. unfold js_bigint_pow_general in E.
  destruct (Nat.ltb_spec 1 (length b)); [discriminate|].
  rewrite (pow_exponent b) in E by auto.
  destruct (Z.ltb_spec (2 ^ 31 - 1) (bval b)); [discriminate|]. inv_res E. clear H1.
  destruct (bval_sign b (proj1 Hb)) as [(? & ?)|(_ & Hp)]; [lia|].
  apply pow_loop_spec in E as [Hr EV]; auto. split; [done|]. rewrite EV.
  set (e := bval b) in *. pose proof (Z.log2_nonneg e). rewrite Z2Nat.id by lia.
  replace (Z.log2 e + 1 - 1) with (Z.log2 e) by lia.
  pose proof (Z.log2_spec e ltac:(lia)) as [L1 L2]. rewrite Z.pow_succ_r in L2 by lia.
  assert (e mod 2 ^ Z.log2 e = e - 2 ^ Z.log2 e) as ->.
  { symmetry. apply Z.mod_unique with 1; [left|]; lia. }
  rewrite <- Z.pow_add_r by lia. f_equal. lia.
Qed.

Lemma pow2_of_land v : 0 < v -> Z.land v (v - 1) = 0 -> v = 2 ^ Z.log2 v.
Proof.
  intros Hv E. destruct (Z.eq_dec v (2 ^ Z.log2 v)) as [|Hne]; [done|exfalso].
  pose proof (Z.log2_spec v Hv) as [H1 H2]. pose proof (Z.log2_nonneg v).
  assert (Z.log2 (v - 1) = Z.log2 v) as El by (apply Z.log2_unique; lia).
  assert (Z.testbit (Z.land v (v - 1)) (Z.log2 v) = true) as Hb.
  { rewrite Z.land_spec, Z.bit_log2 by lia. rewrite <- El. apply Z.bit_log2.
    assert (0 < 2 ^ Z.log2 v) by (apply Z.pow_pos_nonneg; lia). lia. }
  rewrite E, Z.bits_0 in Hb. discriminate.
Qed.

Lemma insert_replicate k m w :
  <[k := w]> (replicate (k + S m) 0) = replicate k 0 ++ w :: replicate m 0.
Proof. induction k; cbn; [done | now f_equal]. Qed.

(** The one-bit arrays that [js_bigint_pow] builds for powers of two. *)
Lemma pow_two_array e neg :
  0 <= e -> neg = 0 \/ neg = 1 ->
  let r := <[Z.to_nat (e / JS_LIMB_BITS) := u64 (Z.shiftl (u64 (1 - 2 * neg)) (e mod JS_LIMB_BITS))]>
     (replicate (Z.to_nat ((e + JS_LIMB_BITS + 1 - neg) / JS_LIMB_BITS)) 0) in
  normalized r /\ bval r = (1 - 2 * neg) * 2 ^ e.
Proof.
  intros He Hneg. cbv zeta. destruct (shift_split e He) as [Hs E2]. cbv zeta in *. rewrite E2.
  pose proof (Z.div_mod e JS_LIMB_BITS ltac:(done)) as Ed.
  pose proof (Z.div_pos e JS_LIMB_BITS He eq_refl) as Hd.
  set (k := Z.to_nat (e / JS_LIMB_BITS)) in *. set (s := e mod JS_LIMB_BITS) in *.
  assert (e = 64 * Z.of_nat k + s) as Ek by (unfold JS_LIMB_BITS in *; lia). clearbody k s. clear Ed.
  unfold JS_LIMB_BITS in *. assert (0 < 2 ^ s) as P1 by (apply Z.pow_pos_nonneg; lia).
  assert (forall w m, limb w -> limbs (replicate k 0 ++ w :: replicate m 0)) as Hlimbs.
  { intros w m Hw. apply Forall_app. split; [apply Forall_replicate_eq; unfold limb; lia|].
    constructor; [done|]. apply Forall_replicate_eq; unfold limb; lia. }
  destruct Hneg as [-> | ->]; cbn [Z.mul Z.sub Z.add Z.opp Z.pos_sub].
  - destruct (Z.eq_dec s 63) as [->|Hs63].
    + replace (Z.to_nat ((e + 64 + 1 - 0) / 64)) with (k + 2)%nat.
      2:{ replace ((e + 64 + 1 - 0) / 64) with (Z.of_nat k + 2); [lia|].
          apply Z.div_unique with 0; lia. }
      rewrite (insert_replicate k 1); cbn [replicate]. change (u64 (Z.shiftl (u64 (1 - 2 * 0)) 63)) with (LB / 2).
      assert (wf (replicate k 0 ++ [LB / 2; 0])) as Hw.
      { split; [apply (Hlimbs _ 1%nat); now vm_compute | now destruct k]. }
      split.
      * split; [done|]. intros l lo v E.
        replace (l ++ [lo; v]) with ((l ++ [lo]) ++ [v]) in E by now rewrite <- app_assoc.
        rewrite (cons_middle _ (replicate k 0) [0]), app_assoc in E.
        apply app_inj_tail in E as [E <-]. apply app_inj_tail in E as [_ <-]. reflexivity.
      * rewrite (cons_middle _ (replicate k 0) [0]), app_assoc.
        unfold bval. rewrite sign_snoc by (unfold limb; lia). rewrite uval_snoc, uval_replicate_app.
        change (LB / 2 <=? 0) with false. cbv iota. cbn [uval].
        change (LB / 2) with (2 ^ 63). ring.
    + replace (Z.to_nat ((e + 64 + 1 - 0) / 64)) with (k + 1)%nat.
      2:{ replace ((e + 64 + 1 - 0) / 64) with (Z.of_nat k + 1); [lia|].
          apply Z.div_unique with (s + 1); lia. }
      rewrite (insert_replicate k 0). cbn [replicate]. change (u64 (1 - 2 * 0)) with 1. rewrite Z.shiftl_1_l.
      assert (2 ^ s <= 2 ^ 62) as P62 by (apply Z.pow_le_mono_r; lia). change (2 ^ 62) with 4611686018427387904 in P62.
      rewrite u64_small by (unfold limb; lia).
      assert (limb (2 ^ s)) as Hw by (unfold limb; lia).
      split.
      * split; [split; [now apply (Hlimbs _ 0%nat) | now destruct k]|]. intros l lo v E.
        replace (l ++ [lo; v]) with ((l ++ [lo]) ++ [v]) in E by now rewrite <- app_assoc.
        apply app_inj_tail in E as [_ <-]. unfold redundant.
        destruct (Z.eqb_spec (2 ^ s) 0); [lia|]. destruct (Z.eqb_spec (2 ^ s) (LB - 1)); [lia|]. done.
      * unfold bval. rewrite sign_snoc, uval_replicate_app by done. change (LB / 2) with 9223372036854775808.
        destruct (Z.leb_spec 9223372036854775808 (2 ^ s)); [lia|]. cbn [uval]. ring.
  - replace (Z.to_nat ((e + 64 + 1 - 1) / 64)) with (k + 1)%nat.
    2:{ replace ((e + 64 + 1 - 1) / 64) with (Z.of_nat k + 1); [lia|].
        apply Z.div_unique with s; lia. }
    rewrite (insert_replicate k 0). cbn [replicate]. change (u64 (1 - 2 * 1)) with (LB - 1).
    assert (2 ^ s <= 2 ^ 63) as P63 by (apply Z.pow_le_mono_r; lia). change (2 ^ 63) with 9223372036854775808 in P63.
    rewrite Z.shiftl_mul_pow2 by lia.
    rewrite (wrap_unique 64 _ (LB - 2 ^ s) (2 ^ s - 1)) by (unfold in_u; change (2 ^ 64) with LB; lia).
    assert (limb (LB - 2 ^ s)) as Hw by (unfold limb; lia).
    split.
    + split; [split; [now apply (Hlimbs _ 0%nat) | now destruct k]|]. intros l lo v E.
      replace (l ++ [lo; v]) with ((l ++ [lo]) ++ [v]) in E by now rewrite <- app_assoc.
      apply app_inj_tail in E as [E <-]. unfold redundant.
      assert (lo = 0) as ->.
      { assert (lo ∈ replicate k 0) as Hin by (rewrite E; apply elem_of_app; right; constructor).
        now apply elem_of_replicate in Hin as [-> _]. }
      change (Z.shiftr 0 (JS_LIMB_BITS - 1)) with 0.
      destruct (Z.eqb_spec (LB - 2 ^ s) 0); [lia|].
      destruct (Z.eqb_spec (LB - 2 ^ s) (LB - 1)) as [->|]; [reflexivity | done].
    + unfold bval. rewrite sign_snoc, uval_replicate_app, length_app, length_replicate by done.
      cbn [length uval]. rewrite Nat.add_1_r, Bp_S. change (LB / 2) with 9223372036854775808.
      destruct (Z.leb_spec 9223372036854775808 (LB - 2 ^ s)); [|lia]. ring.
Qed.

Lemma land_1 e : Z.land e 1 = e mod 2.
Proof. change 1 with (Z.ones 1). now rewrite Z.land_ones, Z.pow_1_r. Qed.

Lemma pow_neg_base m e : 0 <= e -> (- m) ^ e = (1 - 2 * Z.land e 1) * m ^ e.
Proof.
  intros He. rewrite land_1.
  pose proof (Z.div_mod e 2 ltac:(done)) as Ed. pose proof (Z.div_pos e 2 He eq_refl).
  destruct (Z.mod_pos_bound e 2 eq_refl). set (q := e / 2) in *.
  assert (forall t, (- t) ^ (2 * q) = t ^ (2 * q)) as Ev.
  { intros t. rewrite !Z.pow_mul_r, !Z.pow_2_r by lia. f_equal. lia. }
  rewrite Ed. assert (e mod 2 = 0 \/ e mod 2 = 1) as [E | E] by lia; rewrite E.
  - rewrite Z.add_0_r, Ev. replace ((2 * q) mod 2) with 0; [lia|].
    rewrite Z.mul_comm, Z.mod_mul; lia.
  - rewrite !Z.pow_add_r, Ev, !Z.pow_1_r by lia. replace ((2 * q + 1) mod 2) with 1; [lia|].
    rewrite Z.add_comm, Z.mul_comm, Z.mod_add; [reflexivity | lia].
Qed.

Lemma pow_two_spec n is_neg b r :
  0 <= n < 64 -> normalized b -> js_bigint_sign b = 0 ->
  js_bigint_pow_two (2 ^ n) is_neg b = Ok r ->
  normalized r /\ bval r = (if is_neg then - 2 ^ n else 2 ^ n) ^ bval b.
Proof.
  intros Hn Hb Es E. unfold js_bigint_pow_two in E.
  destruct (Nat.ltb_spec 1 (length b)); [discriminate|].
  rewrite (pow_exponent b) in E by auto.
  destruct (Z.ltb_spec (2 ^ 31 - 1) (bval b)); [discriminate|].
  assert (JS_LIMB_BITS - 1 - js_limb_clz (2 ^ n) = n) as En.
  { unfold js_limb_clz, JS_LIMB_BITS. rewrite Z.log2_pow2 by lia. lia. }
  rewrite En in E. destruct (Z.ltb_spec (JS_BIGINT_MAX_SIZE * JS_LIMB_BITS) (bval b * n)); [discriminate|].
  inv_res E. clear H2. cbv zeta in E.
  assert (0 <= bval b) as Hp by (destruct (bval_sign b (proj1 Hb)) as [(? & ?)|(_ & ?)]; lia).
  set (ng := if is_neg then Z.land (bval b) 1 else 0) in *.
  assert (ng = 0 \/ ng = 1) as Hng.
  { subst ng. destruct is_neg; [|auto]. rewrite land_1.
    pose proof (Z.mod_pos_bound (bval b) 2 eq_refl). lia. }
  destruct (pow_two_array (bval b * n) ng ltac:(nia) Hng) as [Hr Ev].
  injection E as <-. split; [exact Hr|]. rewrite Ev. subst ng.
  assert ((2 ^ n) ^ bval b = 2 ^ (bval b * n)) as <- by (rewrite <- Z.pow_mul_r by lia; f_equal; lia).
  destruct is_neg; [symmetry; now apply pow_neg_base | lia].
Qed.

Lemma new_si_spec z : in_s 64 z -> js_bigint_new_si z = Ok [u64 z] /\ normalized [u64 z] /\ bval [u64 z] = z.
Proof.
  intros [H1 H2]. change (2 ^ (64 - 1)) with 9223372036854775808 in *.
  split; [reflexivity|]. split; [apply normalized_si|].
  destruct (wrap_eq 64 z ltac:(lia)) as [k Ek]. change (2 ^ 64) with LB in Ek.
  apply bval_unique with k; [apply normalized_si| |]; cbn [uval length]; rewrite Bp_1; lia.
Qed.

Lemma low_limb_parity b : wf b -> Z.land (List.nth 0 b 0) 1 = bval b mod 2.
Proof.
  intros Hb. rewrite land_1. destruct (wf_inv b Hb) as (x & b' & -> & Hx & [-> | Hb']); cbn [List.nth].
  - rewrite bval_single by done. change LB with (2 ^ 63 * 2).
    rewrite <- Z.mul_assoc, (Z.mul_comm 2), Z.mul_assoc, Z.mod_add by done. reflexivity.
  - rewrite bval_cons by done. change LB with (2 ^ 63 * 2).
    rewrite <- Z.mul_assoc, (Z.mul_comm 2), Z.mul_assoc, Z.mod_add by done. reflexivity.
Qed.

(** The one-limb base: the special cases 0, 1, -1 and powers of two. *)
Lemma pow_limb_spec x b r :
  limb x -> normalized b -> 0 < bval b -> js_bigint_sign b = 0 ->
  (if x <=? 1 then js_bigint_new_si x
   else if x =? LB - 1 then js_bigint_new_si (1 - 2 * Z.land (List.nth 0 b 0) 1)
   else
     let is_neg := i64 x <? 0 in
     let v := if is_neg then u64 (- x) else x in
     if Z.land v (u64 (v - 1)) =? 0 then js_bigint_pow_two v is_neg b
     else js_bigint_pow_general [x] b) = Ok r ->
  normalized r /\ bval r = bval [x] ^ bval b.
Proof.
  intros Hx Hb Hp Es E. pose proof (bval_single x Hx) as Ex. rewrite shiftr63 in Ex by done.
  change (LB / 2) with 9223372036854775808 in Ex.
  assert (forall z, in_s 64 z -> z = bval [x] ^ bval b -> js_bigint_new_si z = Ok r ->
    normalized r /\ bval r = bval [x] ^ bval b) as Hsi.
  { intros z Hz Ez Er. destruct (new_si_spec z Hz) as (E1 & ? & E2). rewrite Er in E1.
    injection E1 as ->. rewrite E2. auto. }
  destruct (Z.leb_spec x 1) as [H1|H1].
  { destruct (Z.leb_spec 9223372036854775808 x); [lia|]. apply (Hsi x); [|rewrite Ex|done].
    - destruct Hx. split; [|change (2 ^ (64 - 1)) with 9223372036854775808]; lia.
    - destruct Hx. assert (x = 0 \/ x = 1) as [-> | ->] by lia; cbn [Z.mul Z.opp Z.add].
      + now rewrite Z.pow_0_l.
      + rewrite Z.pow_1_l; lia. }
  destruct (Z.eqb_spec x (LB - 1)) as [->|H2].
  { destruct (Z.leb_spec 9223372036854775808 (LB - 1)); [|lia].
    rewrite low_limb_parity in E by apply Hb. apply (Hsi _) in E; [done| |].
    - pose proof (Z.mod_pos_bound (bval b) 2 eq_refl).
      split; [change (- 2 ^ (64 - 1)) with (-9223372036854775808) | change (2 ^ (64 - 1)) with 9223372036854775808]; lia.
    - rewrite Ex. replace (LB - 1 + LB * - (1)) with (- (1)) by lia.
      rewrite pow_neg_base, land_1, Z.pow_1_l by lia. lia. }
  cbv zeta in E. set (v := if i64 x <? 0 then u64 (- x) else x) in *.
  assert (bval [x] = (if i64 x <? 0 then - v else v) /\ 1 < v < LB) as [Ev Hv].
  { subst v. destruct Hx as [H3 H4]. unfold sgn. change (2 ^ (64 - 1)) with 9223372036854775808.
    change (2 ^ 64) with LB. destruct (Z.leb_spec 9223372036854775808 x).
    - replace ((x + 9223372036854775808) mod LB) with (x - 9223372036854775808)
        by (apply Z.mod_unique with 1; lia).
      destruct (Z.ltb_spec (x - 9223372036854775808 - 9223372036854775808) 0); [|lia].
      rewrite (wrap_unique 64 (- x) (LB - x) (-1)) by (unfold in_u; change (2 ^ 64) with LB; lia). lia.
    - rewrite Z.mod_small by lia. destruct (Z.ltb_spec (x + 9223372036854775808 - 9223372036854775808) 0); lia. }
  rewrite (u64_small (v - 1)) in E by (unfold limb; lia).
  destruct (Z.eqb_spec (Z.land v (v - 1)) 0) as [Ep|_].
  - apply pow2_of_land in Ep; [|lia]. rewrite Ep in E. pose proof (Z.log2_nonneg v).
    assert (Z.log2 v < 64) by (apply Z.log2_lt_pow2; [lia | exact (proj2 Hv)]).
    apply pow_two_spec in E as [? Er]; auto. split; [done|]. rewrite Er, <- Ep, Ev. reflexivity.
  - apply pow_general_spec in E; auto; [now apply normalized_single | lia].
Qed.

(** What [js_bigint_pow] returns on each of its branches. *)
Lemma pow_spec a b r :
  normalized a -> normalized b -> js_bigint_pow a b = Ok r ->
  normalized r /\ 0 <= bval b /\ bval r = bval a ^ bval b.
Proof.
  intros Ha Hb E. unfold js_bigint_pow in E.
  destruct (Z.eqb_spec (js_bigint_sign b) 0) as [Es|]; [cbn [negb] in E | discriminate].
  assert (0 <= bval b) as Hp by (destruct (bval_sign b (proj1 Hb)) as [(? & ?)|(_ & ?)]; lia).
  assert ((length b =? 1)%nat && (List.nth 0 b 0 =? 0) = (bval b =? 0)) as Ez.
  { destruct (Nat.eqb_spec (length b) 1) as [Hl|Hl]; cbn [andb].
    - rewrite pow_exponent; auto; lia.
    - destruct (Z.eqb_spec (bval b) 0) as [E0|]; [|done].
      apply normalized_zero in E0; [subst b; done | done]. }
  rewrite Ez in E. clear Ez. destruct (Z.eqb_spec (bval b) 0) as [E0|E0].
  - destruct (new_si_spec 1) as (E1 & ? & E2); [now vm_compute|]. rewrite E in E1.
    injection E1 as ->. rewrite E0, E2. split_and!; [done | lia | reflexivity].
  - destruct (Nat.eqb_spec (length a) 1) as [Hl|Hl].
    + destruct a as [|x [|? ?]]; try discriminate. cbv zeta in E. cbn [List.nth] in E.
      destruct Ha as [[Hx _] _]. apply Forall_inv in Hx.
      apply pow_limb_spec in E as [? ?]; auto; lia.
    + apply pow_general_spec in E as [? ?]; auto.
Qed.
