(* ===== verification/Numeric.v ===== *)
(** * Number conversions of [src/core/quickjs.c] (lines 12551 to 13131, 14173 to 14321)

    A double is its 64-bit pattern.  [f64_scaled] is the exact value of a
    finite double times 2^1074, so that comparisons with integers and the
    truncation of a cast are integer arithmetic.  The property of this
    component is that the bit manipulations of [JS_ToInt32], [JS_ToInt64] and
    the saturating conversions compute ECMAScript's ToInt32, the same modulo
    2^64, and the clamped truncation. *)

From Stdlib Require Import ZArith Lia Bool Zquot.
From stdpp Require Import base numbers list option strings.
From S2P Require Import Prelude.

#[local] Open Scope Z_scope.

(** ** Doubles *)

Definition f64_sign (u : Z) : Z := Z.shiftr u 63.
Definition f64_exp (u : Z) : Z := Z.land (Z.shiftr u 52) 2047.
Definition f64_mant (u : Z) : Z := Z.land u (2 ^ 52 - 1).
Definition f64_isnan (u : Z) : bool := (f64_exp u =? 2047) && negb (f64_mant u =? 0).
Definition f64_isfinite (u : Z) : bool := negb (f64_exp u =? 2047).

(** |d| * 2^1074 and d * 2^1074 for a finite [d]; for an infinity a number
    beyond every finite one, so that comparisons are those of C. *)
Definition f64_scaled_abs (u : Z) : Z :=
  if f64_exp u =? 0 then f64_mant u else (2 ^ 52 + f64_mant u) * 2 ^ (f64_exp u - 1).
Definition f64_scaled (u : Z) : Z :=
  if f64_sign u =? 0 then f64_scaled_abs u else - f64_scaled_abs u.
Definition f64_unit : Z := 2 ^ 1074.

(** The integer part, the C cast of a double whose truncation fits. *)
Definition f64_trunc (u : Z) : Z := Z.quot (f64_scaled u) f64_unit.

(** [d < k], [d > k], [d >= k] for an integer [k]; false on NaN. *)
Definition f64_ltZ (u k : Z) : bool := negb (f64_isnan u) && (f64_scaled u <? k * f64_unit).
Definition f64_gtZ (u k : Z) : bool := negb (f64_isnan u) && (k * f64_unit <? f64_scaled u).
Definition f64_geZ (u k : Z) : bool := negb (f64_isnan u) && (k * f64_unit <=? f64_scaled u).

(** ** Values *)

(** The primitive values, a BigInt with its limbs; an object is a reference. *)
Inductive prim : Type :=
| JS_TAG_INT (v : Z)
| JS_TAG_BOOL (b : bool)
| JS_TAG_NULL
| JS_TAG_UNDEFINED
| JS_TAG_FLOAT64 (u : Z)
| JS_TAG_SHORT_BIG_INT (v : Z)
| JS_TAG_BIG_INT (tab : list Z)
| JS_TAG_STRING (s : string)
| JS_TAG_SYMBOL (id : Z).

Inductive JSValue : Type :=
| Prim (p : prim)
| JS_TAG_OBJECT (id : Z).

Definition JS_NAN : prim := JS_TAG_FLOAT64 (2047 * 2 ^ 52 + 2 ^ 51).
Definition bigint_to_number : exn := TypeError "cannot convert bigint to number".

Definition JS_IsBigInt (v : JSValue) : bool :=
  match v with
  | Prim (JS_TAG_SHORT_BIG_INT _) | Prim (JS_TAG_BIG_INT _) => true
  | _ => false
  end.

Inductive JSToNumberHint : Type := TON_FLAG_NUMBER | TON_FLAG_NUMERIC.

(** A double as the cast and comparisons see it; [JS_ToInt32Free] and
    [JS_ToInt64Free] on a double. *)
Definition float64_to_int32 (u : Z) : Z :=
  let e := f64_exp u in
  if e <=? 1023 + 30 then i32 (f64_trunc u)
  else if e <=? 1023 + 30 + 53 then
    let v := Z.lor (f64_mant u) (2 ^ 52) in
    let v := u64 (Z.shiftl v (e - 1023 - 52 + 32)) in
    let ret := i32 (Z.shiftr v 32) in
    if negb (f64_sign u =? 0) then i32 (- ret) else ret
  else 0.

Definition float64_to_int64 (u : Z) : Z :=
  let e := f64_exp u in
  if e <=? 1023 + 62 then i64 (f64_trunc u)
  else if e <=? 1023 + 62 + 53 then
    let v := Z.lor (f64_mant u) (2 ^ 52) in
    let ret := i64 (u64 (Z.shiftl v (e - 1023 - 52))) in
    if negb (f64_sign u =? 0) then i64 (- ret) else ret
  else 0.

Definition INT32_MIN : Z := - 2 ^ 31.
Definition INT32_MAX : Z := 2 ^ 31 - 1.
Definition INT64_MIN : Z := - 2 ^ 63.
Definition INT64_MAX : Z := 2 ^ 63 - 1.
Definition MAX_SAFE_INTEGER : Z := 2 ^ 53 - 1.

Definition float64_to_int32_sat (u : Z) : Z :=
  if f64_isnan u then 0
  else if f64_ltZ u INT32_MIN then INT32_MIN
  else if f64_gtZ u INT32_MAX then INT32_MAX
  else f64_trunc u.

Definition float64_to_int64_sat (u : Z) : Z :=
  if f64_isnan u then 0
  else if f64_ltZ u INT64_MIN then INT64_MIN
  else if f64_geZ u (2 ^ 63) then INT64_MAX
  else f64_trunc u.

(** [lrint] in the default rounding mode: to nearest, ties to even. *)
Definition f64_rint (u : Z) : Z :=
  let q := Z.div (f64_scaled u) f64_unit in
  let r := 2 * Z.modulo (f64_scaled u) f64_unit in
  if (r <? f64_unit) || ((r =? f64_unit) && Z.even q) then q else q + 1.

Definition float64_to_uint8_clamp (u : Z) : Z :=
  if f64_isnan u then 0
  else if f64_ltZ u 0 then 0
  else if f64_gtZ u 255 then 255
  else f64_rint u.

Definition f64_is_integer (u : Z) : bool :=
  f64_isfinite u && (Z.modulo (f64_scaled u) f64_unit =? 0).

Definition is_safe_integer (u : Z) : bool :=
  f64_is_integer u && (Z.abs (f64_scaled u) <=? MAX_SAFE_INTEGER * f64_unit).

Section Conversions.
(** The conversions of an object to a primitive (it runs JavaScript code) and
    of a string to a number ([js_atof]). *)
Context (to_primitive : Z -> res prim) (string_to_number : string -> res prim).

Definition JS_ToNumberHint_prim (p : prim) (flag : JSToNumberHint) : res prim :=
  match p with
  | JS_TAG_BIG_INT _ | JS_TAG_SHORT_BIG_INT _ =>
      match flag with
      | TON_FLAG_NUMERIC => Ok p
      | TON_FLAG_NUMBER => Throw bigint_to_number
      end
  | JS_TAG_FLOAT64 _ | JS_TAG_INT _ => Ok p
  | JS_TAG_BOOL b => Ok (JS_TAG_INT (b2z b))
  | JS_TAG_NULL => Ok (JS_TAG_INT 0)
  | JS_TAG_UNDEFINED => Ok JS_NAN
  | JS_TAG_STRING s => string_to_number s
  | JS_TAG_SYMBOL _ => Throw (TypeError "cannot convert symbol to number")
  end.

Definition JS_ToNumberHintFree (val : JSValue) (flag : JSToNumberHint) : res prim :=
  match val with
  | Prim p => JS_ToNumberHint_prim p flag
  | JS_TAG_OBJECT id =>
      let? p := to_primitive id in JS_ToNumberHint_prim p flag
  end.

Definition JS_ToNumberFree (val : JSValue) : res prim := JS_ToNumberHintFree val TON_FLAG_NUMBER.
Definition JS_ToNumericFree (val : JSValue) : res prim := JS_ToNumberHintFree val TON_FLAG_NUMERIC.

(** The [redo] loops of the conversions: [small] and [big] are the cases of
    the small integer tags and of a double, the other tags go through
    [JS_ToNumberFree] and back, and a value that is still not a number after
    that cannot happen ([abort]). *)
Definition number_case (small big : Z -> Z) (p : prim) : option Z :=
  match p with
  | JS_TAG_INT v => Some (small v)
  | JS_TAG_BOOL b => Some (small (b2z b))
  | JS_TAG_NULL | JS_TAG_UNDEFINED => Some (small 0)
  | JS_TAG_FLOAT64 u => Some (big u)
  | _ => None
  end.

Definition convert (small big : Z -> Z) (val : JSValue) : res Z :=
  match match val with Prim p => number_case small big p | _ => None end with
  | Some r => Ok r
  | None =>
      let? p := JS_ToNumberFree val in
      match number_case small big p with
      | Some r => Ok r
      | None => Throw (InternalError "abort")
      end
  end.

Definition JS_ToInt32Free : JSValue -> res Z := convert id float64_to_int32.
Definition JS_ToInt64Free : JSValue -> res Z := convert id float64_to_int64.
Definition JS_ToInt32SatFree : JSValue -> res Z := convert id float64_to_int32_sat.
Definition JS_ToInt64SatFree : JSValue -> res Z := convert id float64_to_int64_sat.
Definition JS_ToUint8ClampFree : JSValue -> res Z :=
  convert (fun v => Z.max 0 (Z.min 255 v)) float64_to_uint8_clamp.

Definition JS_ToInt32Clamp (val : JSValue) (min max min_offset : Z) : res Z :=
  let? v := JS_ToInt32SatFree val in
  Ok (if v <? min then
        let v := i32 (v + min_offset) in if v <? min then min else v
      else if max <? v then max else v).

Definition JS_ToInt64Clamp (val : JSValue) (min max neg_offset : Z) : res Z :=
  let? v := JS_ToInt64SatFree val in
  let v := if v <? 0 then i64 (v + neg_offset) else v in
  Ok (if v <? min then min else if max <? v then max else v).

Definition JS_ToIndex (val : JSValue) : res Z :=
  let? v := JS_ToInt64SatFree val in
  if (v <? 0) || (MAX_SAFE_INTEGER <? v) then Throw (RangeError "invalid array index")
  else Ok v.

Definition JS_ToLengthFree (val : JSValue) : res Z :=
  JS_ToInt64Clamp val 0 MAX_SAFE_INTEGER 0.
End Conversions.

(** ** The fields of a double *)

Lemma sgn_opp_sgn w z : 1 <= w -> sgn w (- sgn w z) = sgn w (- z).
Proof.
  intros Hw. rewrite <- (sgn_wrap w (- sgn w z)), <- (sgn_wrap w (- z)) by done. f_equal.
  unfold wrap. rewrite <- (Z.sub_0_l (sgn w z)), <- (Z.sub_0_l z), <- Zminus_mod_idemp_r.
  change (sgn w z mod 2 ^ w) with (wrap w (sgn w z)). rewrite wrap_sgn by done.
  unfold wrap. apply Zminus_mod_idemp_r.
Qed.

Lemma f64_mant_range u : 0 <= f64_mant u < 2 ^ 52.
Proof. unfold f64_mant. rewrite land_pow2_mask by lia. apply Z.mod_pos_bound. reflexivity. Qed.

Lemma f64_exp_range u : 0 <= f64_exp u <= 2047.
Proof.
  unfold f64_exp. change (Z.land (Z.shiftr u 52) 2047) with (Z.land (Z.shiftr u 52) (2 ^ 11 - 1)).
  rewrite land_pow2_mask by lia.
  pose proof (Z.mod_pos_bound (Z.shiftr u 52) (2 ^ 11) eq_refl). change (2 ^ 11) with 2048 in *. lia.
Qed.

Lemma f64_mant_implicit u : Z.lor (f64_mant u) (2 ^ 52) = 2 ^ 52 + f64_mant u.
Proof.
  rewrite Z.lor_comm. change (2 ^ 52) with (1 * 2 ^ 52) at 1.
  rewrite lor_disjoint_add by (try lia; apply f64_mant_range). reflexivity.
Qed.

Lemma f64_unit_pos : 0 < f64_unit.
Proof. reflexivity. Qed.

Lemma f64_scaled_abs_nonneg u : 0 <= f64_scaled_abs u.
Proof.
  unfold f64_scaled_abs. pose proof (f64_mant_range u). pose proof (f64_exp_range u).
  destruct (Z.eqb_spec (f64_exp u) 0); [lia|]. apply Z.mul_nonneg_nonneg; [lia|].
  apply Z.pow_nonneg. lia.
Qed.

Lemma f64_trunc_eq u :
  f64_trunc u = if f64_sign u =? 0 then f64_scaled_abs u / f64_unit else - (f64_scaled_abs u / f64_unit).
Proof.
  unfold f64_trunc, f64_scaled. pose proof (f64_scaled_abs_nonneg u). pose proof f64_unit_pos.
  destruct (f64_sign u =? 0).
  - apply Z.quot_div_nonneg; lia.
  - rewrite Z.quot_opp_l by lia. now rewrite Z.quot_div_nonneg by lia.
Qed.

(** The integer part of the magnitude from the fields. *)
Lemma f64_abs_div u :
  f64_exp u <> 0 ->
  f64_scaled_abs u / f64_unit = Z.shiftl (2 ^ 52 + f64_mant u) (f64_exp u - 1075).
Proof.
  intros He. unfold f64_scaled_abs. rewrite (proj2 (Z.eqb_neq _ _) He).
  pose proof (f64_exp_range u). set (v := 2 ^ 52 + f64_mant u). unfold f64_unit.
  destruct (Z.le_gt_cases 1075 (f64_exp u)).
  - rewrite Z.shiftl_mul_pow2 by lia.
    replace (f64_exp u - 1) with (f64_exp u - 1075 + 1074) by lia.
    rewrite Z.pow_add_r, Z.mul_assoc by lia. now rewrite Z.div_mul by discriminate.
  - replace (f64_exp u - 1075) with (- (1075 - f64_exp u)) by lia.
    rewrite Z.shiftl_opp_r, Z.shiftr_div_pow2 by lia.
    replace 1074 with (1075 - f64_exp u + (f64_exp u - 1)) at 1 by lia.
    rewrite Z.pow_add_r by lia. rewrite Z.div_mul_cancel_r; [done | |];
      apply Z.pow_nonzero; lia.
Qed.

Lemma f64_abs_div_subnormal u : f64_exp u = 0 -> f64_scaled_abs u / f64_unit = 0.
Proof.
  intros He. unfold f64_scaled_abs. rewrite He. cbn [Z.eqb]. apply Z.div_small.
  pose proof (f64_mant_range u). split; [lia|]. apply Z.lt_le_trans with (2 ^ 52); [lia|].
  apply Z.pow_le_mono_r; lia.
Qed.

(** The shift of the mantissa keeps the low [w] bits of the integer part; here
    [k] bits are shifted in and out again ([k = 32] in [JS_ToInt32Free]). *)
Lemma shift_mod_spec v s k :
  0 <= k <= 64 -> 0 <= s ->
  Z.shiftr (u64 (Z.shiftl v s)) k = wrap (64 - k) (Z.shiftl v (s - k)).
Proof.
  intros Hk Hs. unfold wrap. apply Z.bits_inj'. intros n Hn.
  rewrite Z.shiftr_spec by lia. destruct (Z.le_gt_cases (64 - k) n).
  - rewrite !Z.mod_pow2_bits_high by lia. done.
  - rewrite !Z.mod_pow2_bits_low, !Z.shiftl_spec by lia. f_equal. lia.
Qed.

Lemma sgn_multiple w x k : 1 <= w -> w <= k -> sgn w (Z.shiftl x k) = 0.
Proof.
  intros Hw Hk. rewrite <- sgn_wrap by done. unfold wrap. rewrite Z.shiftl_mul_pow2 by lia.
  replace k with (k - w + w) by lia. rewrite Z.pow_add_r, Z.mul_assoc, Z.mod_mul by lia.
  apply sgn_small; [lia|]. unfold in_s. pose proof (Z.pow_pos_nonneg 2 (w - 1)). lia.
Qed.

(** The reading of an integer modulo 2^[w] from a finite double. *)
Definition to_int_modulo (w u : Z) : Z := if f64_isfinite u then sgn w (f64_trunc u) else 0.

Lemma signed_shift_spec w u x :
  1 <= w -> x = sgn w (f64_scaled_abs u / f64_unit) ->
  (if negb (f64_sign u =? 0) then sgn w (- x) else x) = sgn w (f64_trunc u).
Proof.
  intros Hw ->. rewrite f64_trunc_eq. destruct (f64_sign u =? 0); cbn [negb]; [done|].
  now apply sgn_opp_sgn.
Qed.

Lemma float64_to_int32_spec u : float64_to_int32 u = to_int_modulo 32 u.
Proof.
  unfold float64_to_int32, to_int_modulo, f64_isfinite. pose proof (f64_exp_range u).
  destruct (Z.leb_spec (f64_exp u) (1023 + 30)).
  { destruct (Z.eqb_spec (f64_exp u) 2047); [lia | done]. }
  assert (f64_scaled_abs u / f64_unit = Z.shiftl (2 ^ 52 + f64_mant u) (f64_exp u - 1075)) as E
    by (apply f64_abs_div; lia).
  destruct (Z.leb_spec (f64_exp u) (1023 + 30 + 53)).
  - destruct (Z.eqb_spec (f64_exp u) 2047); [lia|]. cbn [negb]. rewrite f64_mant_implicit.
    apply signed_shift_spec; [lia|]. rewrite shift_mod_spec, E by lia.
    change (64 - 32) with 32. rewrite sgn_wrap by lia. do 2 f_equal. lia.
  - destruct (Z.eqb_spec (f64_exp u) 2047); [done|]. cbn [negb].
    rewrite <- (signed_shift_spec 32 u 0); [now destruct (negb _) | lia |].
    rewrite E. symmetry. apply sgn_multiple; lia.
Qed.

Lemma float64_to_int64_spec u : float64_to_int64 u = to_int_modulo 64 u.
Proof.
  unfold float64_to_int64, to_int_modulo, f64_isfinite. pose proof (f64_exp_range u).
  destruct (Z.leb_spec (f64_exp u) (1023 + 62)).
  { destruct (Z.eqb_spec (f64_exp u) 2047); [lia | done]. }
  assert (f64_scaled_abs u / f64_unit = Z.shiftl (2 ^ 52 + f64_mant u) (f64_exp u - 1075)) as E
    by (apply f64_abs_div; lia).
  destruct (Z.leb_spec (f64_exp u) (1023 + 62 + 53)).
  - destruct (Z.eqb_spec (f64_exp u) 2047); [lia|]. cbn [negb]. rewrite f64_mant_implicit.
    apply signed_shift_spec; [lia|]. rewrite E, sgn_wrap by lia. do 2 f_equal. lia.
  - destruct (Z.eqb_spec (f64_exp u) 2047); [done|]. cbn [negb].
    rewrite <- (signed_shift_spec 64 u 0); [now destruct (negb _) | lia |].
    rewrite E. symmetry. apply sgn_multiple; lia.
Qed.

(** ** Saturation *)

Definition clamp (lo hi z : Z) : Z := Z.max lo (Z.min hi z).

Lemma trunc_lt u k : k <= 0 -> f64_scaled u < k * f64_unit -> f64_trunc u <= k.
Proof.
  intros Hk H. unfold f64_trunc. pose proof f64_unit_pos.
  rewrite <- (Z.quot_mul k f64_unit) by lia. apply Z.quot_le_mono; lia.
Qed.

Lemma trunc_gt u k : 0 <= k -> k * f64_unit <= f64_scaled u -> k <= f64_trunc u.
Proof.
  intros Hk H. unfold f64_trunc. pose proof f64_unit_pos.
  rewrite <- (Z.quot_mul k f64_unit) by lia. apply Z.quot_le_mono; lia.
Qed.

Lemma trunc_ge u k : k <= 0 -> k * f64_unit <= f64_scaled u -> k <= f64_trunc u.
Proof.
  intros Hk H. unfold f64_trunc. pose proof f64_unit_pos.
  rewrite <- (Z.quot_mul k f64_unit) by lia. apply Z.quot_le_mono; lia.
Qed.

Lemma trunc_le u k : 0 <= k -> f64_scaled u < (k + 1) * f64_unit -> f64_trunc u <= k.
Proof.
  intros Hk H. pose proof f64_unit_pos. unfold f64_trunc.
  destruct (Z.le_gt_cases 0 (f64_scaled u)).
  - rewrite Z.quot_div_nonneg by lia. apply Z.lt_succ_r, Z.div_lt_upper_bound; lia.
  - pose proof (Z.quot_le_mono (f64_scaled u) 0 f64_unit ltac:(lia) ltac:(lia)) as Hq.
    rewrite Z.quot_0_l in Hq by lia. lia.
Qed.

Lemma float64_to_int32_sat_spec u :
  float64_to_int32_sat u = if f64_isnan u then 0 else clamp INT32_MIN INT32_MAX (f64_trunc u).
Proof.
  unfold float64_to_int32_sat, f64_ltZ, f64_gtZ, clamp. pose proof f64_unit_pos.
  destruct (f64_isnan u); [done|]; cbn [negb andb].
  assert (INT32_MIN < 0 < INT32_MAX) by (split; reflexivity).
  destruct (Z.ltb_spec (f64_scaled u) (INT32_MIN * f64_unit)) as [H1|H1].
  { apply trunc_lt in H1; lia. }
  apply trunc_ge in H1; [|lia].
  destruct (Z.ltb_spec (INT32_MAX * f64_unit) (f64_scaled u)) as [H2|H2].
  - apply Z.lt_le_incl, trunc_gt in H2; lia.
  - pose proof (trunc_le u INT32_MAX ltac:(lia) ltac:(lia)). lia.
Qed.

Lemma float64_to_int64_sat_spec u :
  float64_to_int64_sat u = if f64_isnan u then 0 else clamp INT64_MIN INT64_MAX (f64_trunc u).
Proof.
  unfold float64_to_int64_sat, f64_ltZ, f64_geZ, clamp. pose proof f64_unit_pos.
  destruct (f64_isnan u); [done|]; cbn [negb andb].
  assert (INT64_MIN < 0 < INT64_MAX) by (split; reflexivity).
  change (2 ^ 63) with (INT64_MAX + 1).
  destruct (Z.ltb_spec (f64_scaled u) (INT64_MIN * f64_unit)) as [H1|H1].
  { apply trunc_lt in H1; lia. }
  apply trunc_ge in H1; [|lia].
  destruct (Z.leb_spec ((INT64_MAX + 1) * f64_unit) (f64_scaled u)) as [H2|H2].
  - apply trunc_gt in H2; lia.
  - apply trunc_le in H2; lia.
Qed.

(** [lrint] returns a nearest integer. *)
Lemma f64_rint_nearest u : 2 * Z.abs (f64_rint u * f64_unit - f64_scaled u) <= f64_unit.
Proof.
  unfold f64_rint. pose proof f64_unit_pos as Hp.
  pose proof (Z.div_mod (f64_scaled u) f64_unit ltac:(lia)) as E.
  pose proof (Z.mod_pos_bound (f64_scaled u) f64_unit Hp).
  set (q := f64_scaled u / f64_unit) in *. set (r := f64_scaled u mod f64_unit) in *.
  destruct (Z.ltb_spec (2 * r) f64_unit); cbn [orb]; [lia|].
  destruct (Z.eqb_spec (2 * r) f64_unit); cbn [andb]; [destruct (Z.even q)|]; lia.
Qed.

Lemma float64_to_uint8_clamp_range u : 0 <= float64_to_uint8_clamp u <= 255.
Proof.
  unfold float64_to_uint8_clamp, f64_ltZ, f64_gtZ. destruct (f64_isnan u); [lia|]; cbn [negb andb].
  destruct (Z.ltb_spec (f64_scaled u) (0 * f64_unit)); [lia|].
  destruct (Z.ltb_spec (255 * f64_unit) (f64_scaled u)); [lia|].
  pose proof (f64_rint_nearest u). pose proof f64_unit_pos. nia.
Qed.

(** ** The values the conversions return *)

(** The ranges that the constructors of the values keep. *)
Definition prim_ok (p : prim) : Prop :=
  match p with
  | JS_TAG_INT v => in_s 32 v
  | JS_TAG_FLOAT64 u => in_u 64 u
  | JS_TAG_SHORT_BIG_INT v => in_s 64 v
  | _ => True
  end.

Definition is_number (p : prim) : bool :=
  match p with JS_TAG_INT _ | JS_TAG_FLOAT64 _ => true | _ => false end.

Section ConversionTheorems.
Context (to_primitive : Z -> res prim) (string_to_number : string -> res prim).
(** [js_atof] returns a number. *)
Hypothesis string_number : forall s p, string_to_number s = Ok p -> is_number p = true.

Abbreviation number_of := (JS_ToNumberFree to_primitive string_to_number).
Abbreviation convert := (convert to_primitive string_to_number).

Lemma ToNumber_prim_number q p :
  JS_ToNumberHint_prim string_to_number q TON_FLAG_NUMBER = Ok p -> is_number p = true.
Proof. destruct q; cbn; try discriminate; try (injection 1 as <-; done). apply string_number. Qed.

Lemma number_of_number val p : number_of val = Ok p -> is_number p = true.
Proof.
  destruct val; cbn; [apply ToNumber_prim_number|].
  intros E. inv_res E. exact (ToNumber_prim_number _ _ E).
Qed.

(** The [redo] loop converts the ECMAScript number of the value. *)
Lemma convert_spec small big val :
  small 0 = big (2047 * 2 ^ 52 + 2 ^ 51) ->
  convert small big val =
  let? p := number_of val in
  match p with
  | JS_TAG_INT v => Ok (small v)
  | JS_TAG_FLOAT64 u => Ok (big u)
  | _ => Throw (InternalError "abort")
  end.
Proof.
  intros H0. unfold Numeric.convert. destruct val as [q|id].
  - destruct q; try reflexivity; cbn; [now rewrite H0|].
    destruct (string_to_number s) as [p|] eqn:E; [|done].
    apply string_number in E. now destruct p.
  - destruct (number_of (JS_TAG_OBJECT id)) as [p|] eqn:E; [|done].
    apply number_of_number in E. now destruct p.
Qed.

Lemma convert_range small big val r (P : Z -> Prop) :
  (forall v, P (small v)) -> (forall u, P (big u)) -> convert small big val = Ok r -> P r.
Proof.
  intros Hs Hb. unfold Numeric.convert.
  assert (forall p z, number_case small big p = Some z -> P z) as Hn
    by (intros [] z; cbn; try discriminate; injection 1 as <-; auto).
  destruct (match val with Prim p => number_case small big p | _ => None end) eqn:E.
  - injection 1 as <-. destruct val; [eauto | discriminate].
  - intros H. inv_res H. destruct (number_case small big a) eqn:Ea; [|discriminate].
    injection H as <-. eauto.
Qed.

(** An int tag holds its value; a double is truncated and reduced. *)
Definition int_modulo (w : Z) (p : prim) : Z :=
  match p with JS_TAG_INT v => v | JS_TAG_FLOAT64 u => to_int_modulo w u | _ => 0 end.

Definition int_saturated (lo hi : Z) (p : prim) : Z :=
  match p with
  | JS_TAG_INT v => v
  | JS_TAG_FLOAT64 u => if f64_isnan u then 0 else clamp lo hi (f64_trunc u)
  | _ => 0
  end.

Lemma convert_int_spec (f : prim -> Z) small big val :
  small 0 = big (2047 * 2 ^ 52 + 2 ^ 51) ->
  (forall v, small v = f (JS_TAG_INT v)) -> (forall u, big u = f (JS_TAG_FLOAT64 u)) ->
  convert small big val = let? p := number_of val in Ok (f p).
Proof.
  intros H0 Hs Hb. rewrite convert_spec by done.
  destruct (number_of val) as [p|] eqn:E; [|done]. apply number_of_number in E.
  destruct p; try discriminate; cbn; now rewrite ?Hs, ?Hb.
Qed.

Lemma to_int64_sat_spec val :
  JS_ToInt64SatFree to_primitive string_to_number val =
  let? p := number_of val in Ok (int_saturated INT64_MIN INT64_MAX p).
Proof. apply convert_int_spec; [done.. | apply float64_to_int64_sat_spec]. Qed.

(** [JS_ToInt32] and [JS_ToInt64] of any value are the ECMAScript
    conversions of its number: the integer part of a finite double reduced
    modulo 2^32 (2^64) to a signed integer, 0 for NaN and the infinities; an
    exception of the conversion to a number is passed on. *)
Theorem to_int_modulo_correct val :
  JS_ToInt32Free to_primitive string_to_number val =
    (let? p := number_of val in Ok (int_modulo 32 p)) /\
  JS_ToInt64Free to_primitive string_to_number val =
    (let? p := number_of val in Ok (int_modulo 64 p)).
Proof.
  split; apply convert_int_spec; try done; [apply float64_to_int32_spec | apply float64_to_int64_spec].
Qed.

(** The clamped conversions that the buffer and array functions use for
    offsets: saturation is exact, and [JS_ToInt64Clamp] returns the clamped
    value of the offset counted from the end when it is negative, always in
    [[min, max]]. *)
Theorem to_int64_clamp_correct val min max neg_offset :
  INT64_MIN <= min <= max -> max <= INT64_MAX -> 0 <= neg_offset <= INT64_MAX ->
  (forall p, number_of val = Ok p -> prim_ok p) ->
  JS_ToInt64Clamp to_primitive string_to_number val min max neg_offset =
    let? p := number_of val in
    let v := int_saturated INT64_MIN INT64_MAX p in
    Ok (clamp min max (if v <? 0 then v + neg_offset else v)).
Proof.
  intros Hmin Hmax Hoff Hok. unfold JS_ToInt64Clamp. rewrite to_int64_sat_spec.
  destruct (number_of val) as [p|] eqn:E; [|done]. specialize (Hok p eq_refl).
  assert (INT64_MIN <= int_saturated INT64_MIN INT64_MAX p <= INT64_MAX) as R.
  { destruct p as [v|b| | |u|v|t|s|i]; cbn in Hok |- *; try (split; discriminate).
    - unfold in_s in Hok. change (2 ^ (32 - 1)) with 2147483648 in Hok. change INT64_MIN with (-9223372036854775808).
      change INT64_MAX with 9223372036854775807. lia.
    - destruct (f64_isnan u); [split; discriminate|]. unfold clamp. lia. }
  cbn [res_bind]. f_equal. set (v := int_saturated _ _ p) in *.
  assert ((if v <? 0 then i64 (v + neg_offset) else v) = (if v <? 0 then v + neg_offset else v)) as ->.
  { destruct (Z.ltb_spec v 0); [|done]. apply sgn_small; [lia|]. unfold in_s.
    change (- 2 ^ (64 - 1)) with INT64_MIN. change (2 ^ (64 - 1)) with (INT64_MAX + 1). lia. }
  unfold clamp. zcases.
Qed.
End ConversionTheorems.

(** A host without objects and strings: [2^32 + 7] as a double. *)
Definition no_object (_ : Z) : res prim := Throw (TypeError "no object").
Definition nan_string (_ : string) : res prim := Ok JS_NAN.
Definition double_2_32_7 : Z := 1055 * 2 ^ 52 + 7 * 2 ^ 20.

Lemma nan_string_number s p : nan_string s = Ok p -> is_number p = true.
Proof. now intros [= <-]. Qed.

Lemma to_int_modulo_correct_witness :
  JS_ToInt32Free no_object nan_string (Prim (JS_TAG_FLOAT64 double_2_32_7)) = Ok 7.
Proof.
  rewrite (proj1 (to_int_modulo_correct no_object nan_string nan_string_number (Prim (JS_TAG_FLOAT64 double_2_32_7)))).
  vm_compute. reflexivity.
Defined.

Lemma to_int64_clamp_correct_witness :
  JS_ToInt64Clamp no_object nan_string (Prim (JS_TAG_INT (-3))) 0 10 10 = Ok 7.
Proof.
  rewrite (to_int64_clamp_correct no_object nan_string nan_string_number
    (Prim (JS_TAG_INT (-3))) 0 10 10).
  - reflexivity.
  - split; discriminate.
  - discriminate.
  - split; discriminate.
  - intros p [= <-]. vm_compute. split; [discriminate | reflexivity].
Defined.
