(* ===== verification/BigIntFloat.v ===== *)
(** * BigInt and doubles: [src/core/quickjs.c], lines 11787 to 11987

    [js_bigint_get_mant_exp] (64-bit mantissa with a sticky bit and binary
    exponent), the rounding conversion [js_bigint_to_float64], the exact
    conversion [js_bigint_from_float64] and the mixed comparison
    [js_bigint_float64_cmp], with doubles as in [Numeric]. *)

From Stdlib Require Import ZArith Lia Bool.
From stdpp Require Import base numbers list option strings.
From S2P Require Import Prelude Limbs BigInt Numeric.

#[local] Open Scope Z_scope.

(** ** Definitions *)

(** The limbs of [abs(a)]: [v = (tab[i] ^ -sgn) + carry; carry = v < carry]. *)
Fixpoint abs_limbs (sgn carry : Z) (tab : list Z) : list Z :=
  match tab with
  | x :: tab =>
      let v := u64 (Z.lxor x (u64 (- sgn)) + carry) in
      v :: abs_limbs sgn (b2z (v <? carry)) tab
  | [] => []
  end.

(** From the two high limbs on: the mantissa and the shift that normalizes it. *)
Definition mant_normalize (a1 a0 : Z) : Z * Z :=
  let '(shift, a1, a0) :=
    if a1 =? 0 then (64, a0, 0)
    else
      let shift := 63 - Z.log2 a1 in
      if negb (shift =? 0) then
        (shift, Z.lor (u64 (Z.shiftl a1 shift)) (Z.shiftr a0 (64 - shift)), u64 (Z.shiftl a0 shift))
      else (shift, a1, a0) in
  (Z.lor a1 (b2z (negb (a0 =? 0))), shift).

(** Returns the mantissa and the exponent. *)
Definition js_bigint_get_mant_exp (a : list Z) : Z * Z :=
  let sgn := js_bigint_sign a in
  let v := abs_limbs sgn sgn a in
  let n1 := (length a - 2)%nat in
  let low_bits := fold_left Z.lor (take n1 v) 0 in
  let '(a0, a1) :=
    if (length a =? 1)%nat then (0, List.nth 0 v 0) else (List.nth n1 v 0, List.nth (S n1) v 0) in
  let a0 := Z.lor a0 (b2z (negb (low_bits =? 0))) in
  let (m, shift) := mant_normalize a1 a0 in
  (m, Z.of_nat (length a) * JS_LIMB_BITS - shift - 1).

Definition shr_rndn (a n : Z) : Z :=
  let addend := Z.land (Z.shiftr a n) 1 + (Z.shiftl 1 (n - 1) - 1) in
  Z.shiftr (u64 (a + addend)) n.

Definition f64_pack (sgn e mant : Z) : Z :=
  Z.lor (Z.lor (u64 (Z.shiftl sgn 63)) (u64 (Z.shiftl e 52))) mant.

(** The rounding of an integer to a double, to nearest with ties to even: what
    a C cast from [int64_t] does, and the reference for the code below. *)
Definition f64_of_Z (z : Z) : Z :=
  let A := Z.abs z in
  let sgn := if z <? 0 then 1 else 0 in
  if A =? 0 then 0
  else
    let e := Z.log2 A in
    if e <=? 52 then f64_pack sgn (e + 1023) (A * 2 ^ (52 - e) - 2 ^ 52)
    else
      let p := 2 ^ (e - 52) in
      let q := A / p in
      let r := A mod p in
      let q := if (p <? 2 * r) || ((2 * r =? p) && Z.odd q) then q + 1 else q in
      let '(q, e) := if q =? 2 ^ 53 then (2 ^ 52, e + 1) else (q, e) in
      if 1023 <? e then f64_pack sgn 2047 0 else f64_pack sgn (e + 1023) (q - 2 ^ 52).

Definition js_bigint_to_float64 (a : list Z) : Z :=
  if (length a =? 1)%nat then f64_of_Z (i64 (List.nth 0 a 0))
  else
    let sgn := js_bigint_sign a in
    let '(mant, e) := js_bigint_get_mant_exp a in
    let '(mant, e) :=
      if 1023 <? e then (0, 1024)
      else
        let mant := Z.lor (Z.shiftr mant 1) (Z.land mant 1) in
        let mant := shr_rndn mant 10 in
        let '(mant, e) := if 2 ^ 53 <=? mant then (Z.shiftr mant 1, e + 1) else (mant, e) in
        (Z.land mant (2 ^ 52 - 1), e) in
    f64_pack sgn (e + 1023) mant.

(** The two failures are the values 1 and 2 of [*pres]. *)
Inductive from_float64_result : Type :=
| FromInteger (r : list Z)
| NotAnInteger
| NotFinite.

Definition js_bigint_from_float64 (a : Z) : res from_float64_result :=
  let sgn := Z.shiftr a 63 in
  let e := Z.land (Z.shiftr a 52) 2047 in
  let mant := Z.land a (2 ^ 52 - 1) in
  if e =? 2047 then Ok NotFinite
  else if (e =? 0) && (mant =? 0) then let? r := js_bigint_new_si 0 in Ok (FromInteger r)
  else
    let e := e - 1023 in
    if e <? 0 then Ok NotAnInteger
    else
      let mant := Z.lor mant (2 ^ 52) in
      let finish mant e :=
        let mant := if negb (sgn =? 0) then u64 (- mant) else mant in
        let? r := js_bigint_shl (js_bigint_set_si mant) e in
        Ok (FromInteger r) in
      if e <? 52 then
        let shift := 52 - e in
        if negb (Z.land mant (Z.shiftl 1 shift - 1) =? 0) then Ok NotAnInteger
        else finish (Z.shiftr mant shift) 0
      else finish mant (e - 52).

(** -1, 0, 1, or 2 (unordered). *)
Definition js_bigint_float64_cmp (a : list Z) (b1 : Z) : Z :=
  let b_sign := Z.shiftr b1 63 in
  let e := Z.land (Z.shiftr b1 52) 2047 in
  let mant := Z.land b1 (2 ^ 52 - 1) in
  let a_sign := js_bigint_sign a in
  let a_zero := (length a =? 1)%nat && (List.nth 0 a 0 =? 0) in
  if e =? 2047 then
    if negb (mant =? 0) then 2 else 2 * b_sign - 1
  else if (e =? 0) && (mant =? 0) then
    if a_zero then 0 else 1 - 2 * a_sign
  else if a_zero then 2 * b_sign - 1
  else if negb (a_sign =? b_sign) then 1 - 2 * a_sign
  else
    let e := e - 1023 in
    let '(a_mant, f) := js_bigint_get_mant_exp a in
    if negb (f =? e) then (if f <? e then -1 else 1)
    else
      let mant := u64 (Z.shiftl (Z.lor mant (2 ^ 52)) 11) in
      if a_mant <? mant then 2 * a_sign - 1
      else if mant <? a_mant then 1 - 2 * a_sign
      else 0.

Example to_float64_1e30 : (* 10^30 *)
  js_bigint_to_float64 [5076944270305263616; 54210108624] = f64_of_Z (10 ^ 30).
Proof. reflexivity. Qed.

Example cmp_negative : js_bigint_float64_cmp [LB - 1] (f64_of_Z (-2)) = -1.
Proof. reflexivity. Qed.

(** ** The mantissa *)

(** [M] is the magnitude [A] shifted to 64 bits, with the lost bits folded into
    its low bit, and [e] the position of the high bit of [A]. *)
Definition sticky (A k : Z) : Z := Z.lor (Z.shiftr A k) (b2z (negb (A mod 2 ^ k =? 0))).

Definition mant_spec (A M e : Z) : Prop :=
  2 ^ e <= A < 2 ^ (e + 1) /\ 0 <= e /\
  M = if e <? 63 then A * 2 ^ (63 - e) else sticky A (e - 63).

Lemma abs_limbs_neg tab c :
  limbs tab -> abs_limbs 1 c tab = fst (mp_neg_loop tab c).
Proof.
  intros H. revert c. induction H as [|x tab Hx H IH]; intros c; cbn [abs_limbs mp_neg_loop]; [done|].
  change (u64 (- (1))) with (LB - 1). rewrite lxor_max, u64_lnot by done.
  rewrite IH. now destruct (mp_neg_loop tab _).
Qed.

Lemma abs_limbs_pos tab : limbs tab -> abs_limbs 0 0 tab = tab.
Proof.
  intros H. induction H as [|x tab Hx H IH]; cbn [abs_limbs]; [done|].
  change (u64 (- 0)) with 0. rewrite Z.lxor_0_r, Z.add_0_r, u64_small by done.
  unfold limb in Hx. destruct (Z.ltb_spec x 0); [lia|]. cbn [Z.b2z]. now rewrite IH.
Qed.

Lemma abs_limbs_spec a :
  wf a -> let v := abs_limbs (js_bigint_sign a) (js_bigint_sign a) a in
  limbs v /\ length v = length a /\ uval v = Z.abs (bval a).
Proof.
  intros Ha. cbv zeta. pose proof (uval_bval a) as EV. pose proof (wf_length a Ha).
  destruct (bval_sign a Ha) as [(E & Hs)|(E & Hs)]; rewrite E in *.
  - rewrite abs_limbs_neg by apply Ha. change (mp_neg_loop a 1) with (mp_neg a).
    destruct (mp_neg a) as [r c] eqn:En. apply mp_neg_spec in En as (En & Hr & Hl & Hc); [|apply Ha].
    cbn [fst]. split_and!; auto. pose proof (uval_range r Hr) as Rr. rewrite Hl in Rr.
    pose proof (bval_range a Ha). assert (c = 0 \/ c = 1) as [-> | ->] by lia; lia.
  - rewrite abs_limbs_pos by apply Ha. split_and!; auto; [apply Ha | lia].
Qed.

Lemma lor_zero_b2z x b : (Z.lor x (b2z b) =? 0) = (x =? 0) && negb b.
Proof.
  destruct b; cbn [Z.b2z negb].
  - rewrite andb_false_r. apply Z.eqb_neq. intros E. apply Z.lor_eq_0_iff in E as [_ E]. discriminate.
  - now rewrite Z.lor_0_r, andb_true_r.
Qed.

Lemma low_bits_zero l acc : limbs l -> (fold_left Z.lor l acc =? 0) = (acc =? 0) && (uval l =? 0).
Proof.
  intros H. revert acc. induction H as [|x l Hx H IH]; intros acc; cbn [fold_left uval].
  - now rewrite andb_true_r.
  - rewrite IH. pose proof (uval_range l H). unfold limb in Hx.
    destruct (Z.eqb_spec (Z.lor acc x) 0) as [E|E].
    + apply Z.lor_eq_0_iff in E as [-> ->]. cbn [Z.eqb andb].
      destruct (Z.eqb_spec (uval l) 0), (Z.eqb_spec (0 + LB * uval l) 0); lia.
    + cbn [andb]. symmetry. apply andb_false_iff.
      destruct (Z.eqb_spec acc 0) as [->|]; [right | now left]. rewrite Z.lor_0_l in E.
      apply Z.eqb_neq. lia.
Qed.

(** The normalization of a 128-bit number [a1:a0]. *)
Lemma mant_normalize_spec a1 a0 m s :
  limb a1 -> limb a0 -> (a1 = 0 -> LB / 2 <= a0) -> mant_normalize a1 a0 = (m, s) ->
  0 <= s <= 64 /\ 2 ^ (127 - s) <= a1 * LB + a0 < 2 ^ (128 - s) /\
  m = sticky (a1 * LB + a0) (64 - s).
Proof.
  intros H1 H0 Hz E. unfold mant_normalize in E. unfold limb in *.
  destruct (Z.eqb_spec a1 0) as [->|Hne].
  { injection E as <- <-. specialize (Hz eq_refl). split; [lia|]. rewrite Z.mul_0_l, Z.add_0_l.
    split; [exact (conj Hz (proj2 H0))|]. unfold sticky. change (64 - 64) with 0.
    now rewrite Z.shiftr_0_r, Z.mod_1_r. }
  pose proof (Z.log2_spec a1 ltac:(lia)) as [L1 L2]. pose proof (Z.log2_nonneg a1).
  assert (Z.log2 a1 < 64) by (apply Z.log2_lt_pow2; [lia | exact (proj2 H1)]).
  set (sh := 63 - Z.log2 a1) in *. assert (0 <= sh <= 63) as Hs by lia.
  assert (LB = 2 ^ sh * 2 ^ (64 - sh)) as EB by (rewrite <- Z.pow_add_r by lia; now replace (sh + (64 - sh)) with 64 by lia).
  assert (0 < 2 ^ sh) as PP by (apply Z.pow_pos_nonneg; lia).
  assert (0 < 2 ^ (64 - sh)) as PK by (apply Z.pow_pos_nonneg; lia).
  assert (2 ^ (127 - sh) <= a1 * LB + a0 < 2 ^ (128 - sh)) as Hr.
  { replace (127 - sh) with (Z.log2 a1 + 64) by lia. replace (128 - sh) with (Z.succ (Z.log2 a1) + 64) by lia.
    rewrite !Z.pow_add_r by lia. change (2 ^ 64) with LB. nia. }
  assert (m = sticky (a1 * LB + a0) (64 - sh) /\ s = sh) as [-> ->]; [|split_and!; auto; lia].
  assert ((a1 * LB + a0) mod 2 ^ (64 - sh) = a0 mod 2 ^ (64 - sh)) as Em.
  { rewrite EB, Z.mul_assoc, Z.add_comm, Z.mod_add by lia. done. }
  assert (Z.shiftr (a1 * LB + a0) (64 - sh) = a1 * 2 ^ sh + Z.shiftr a0 (64 - sh)) as Ed.
  { rewrite !Z.shiftr_div_pow2 by lia. rewrite EB, Z.mul_assoc, Z.div_add_l by lia. done. }
  unfold sticky. rewrite Em, Ed. destruct (Z.eqb_spec sh 0) as [E0|E0]; cbn [negb] in E; injection E as <- <-.
  - split; [|done]. rewrite E0. change (64 - 0) with 64. change LB with (2 ^ 64) in H0.
    rewrite Z.shiftr_div_pow2, Z.div_small, Z.mod_small by lia. rewrite Z.mul_1_r, Z.add_0_r. reflexivity.
  - split; [|done]. f_equal.
    + rewrite !Z.shiftl_mul_pow2 by lia. rewrite u64_small.
      2:{ unfold limb. split; [lia|]. rewrite EB, (Z.mul_comm (2 ^ sh)). apply Z.mul_lt_mono_pos_r; [done|].
          replace (64 - sh) with (Z.succ (Z.log2 a1)) by lia. done. }
      apply lor_disjoint_add; [lia|]. rewrite Z.shiftr_div_pow2 by lia.
      split; [apply Z.div_pos; lia | apply Z.div_lt_upper_bound; lia].
    + do 2 f_equal. unfold wrap. rewrite Z.shiftl_mul_pow2 by lia. change (2 ^ 64) with LB.
      rewrite EB, (Z.mul_comm a0), Z.mul_mod_distr_l by lia.
      destruct (Z.eqb_spec (a0 mod 2 ^ (64 - sh)) 0) as [->|];
        [now rewrite Z.mul_0_r | apply Z.eqb_neq; nia].
Qed.

(** A set bit below the shift is only seen through the sticky bit. *)
Lemma sticky_lor N b k :
  1 <= k -> sticky (Z.lor N (b2z b)) k = Z.lor (Z.shiftr N k) (b2z (negb ((N mod 2 ^ k =? 0) && negb b))).
Proof.
  intros Hk. unfold sticky. f_equal.
  - rewrite Z.shiftr_lor, !(Z.shiftr_div_pow2 (b2z b)) by lia.
    assert (2 ^ 1 <= 2 ^ k) by (apply Z.pow_le_mono_r; lia).
    pose proof (b2z_range b). rewrite (Z.div_small (b2z b)), Z.lor_0_r by lia. done.
  - do 2 f_equal. rewrite <- !Z.land_ones, Z.land_lor_distr_l, !Z.land_ones by lia.
    assert (2 ^ 1 <= 2 ^ k) by (apply Z.pow_le_mono_r; lia).
    rewrite (Z.mod_small (b2z b)) by (pose proof (b2z_range b); lia). apply lor_zero_b2z.
Qed.

Lemma sticky_lor_0 N b : sticky (Z.lor N (b2z b)) 0 = Z.lor N (b2z (negb ((N mod 2 ^ 0 =? 0) && negb b))).
Proof.
  unfold sticky. rewrite !Z.mod_1_r, Z.shiftr_0_r. cbn [Z.eqb negb andb]. rewrite Z.lor_0_r.
  now rewrite negb_involutive.
Qed.

(** The low part of the number only matters as being zero or not. *)
Lemma sticky_scale N L n k :
  0 <= L < Bp n -> 0 <= k ->
  sticky (L + Bp n * N) (64 * Z.of_nat n + k) =
  Z.lor (Z.shiftr N k) (b2z (negb ((N mod 2 ^ k =? 0) && negb (negb (L =? 0))))).
Proof.
  intros HL Hk. pose proof (Bp_pos n) as HP. unfold sticky.
  assert (0 < 2 ^ k) by (apply Z.pow_pos_nonneg; lia).
  rewrite Z.pow_add_r, <- Bp_pow by lia. f_equal.
  - rewrite <- Z.shiftr_shiftr, !Z.shiftr_div_pow2, <- Bp_pow by lia. f_equal.
    rewrite Z.add_comm, Z.mul_comm, Z.div_add_l, Z.div_small by lia. lia.
  - do 2 f_equal. rewrite Z.rem_mul_r by lia.
    rewrite (Z.mul_comm (Bp n) N), Z.mod_add, (Z.mod_small L), Z.div_add, (Z.div_small L) by lia.
    pose proof (Z.mod_pos_bound (0 + N) (2 ^ k) ltac:(done)). rewrite Z.add_0_l in *. rewrite negb_involutive.
    destruct (Z.eqb_spec (N mod 2 ^ k) 0), (Z.eqb_spec L 0); cbn [andb];
      try (apply Z.eqb_eq; nia); apply Z.eqb_neq; nia.
Qed.

Lemma split_high (v : list Z) :
  (2 <= length v)%nat ->
  v = take (length v - 2) v ++ [List.nth (length v - 2) v 0; List.nth (S (length v - 2)) v 0].
Proof.
  intros H. rewrite <- (take_drop (length v - 2) v) at 1. f_equal.
  assert (length (drop (length v - 2) v) = 2%nat) as Hl by (rewrite length_drop; lia).
  assert (forall i, List.nth (i + (length v - 2)) v 0 = List.nth i (drop (length v - 2) v) 0) as Hn.
  { intros i. rewrite <- (take_drop (length v - 2) v) at 2.
    rewrite app_nth2; rewrite length_take; [f_equal; lia | lia]. }
  pose proof (Hn 0%nat) as H0. pose proof (Hn 1%nat) as H1. cbn [Nat.add] in H0, H1. rewrite H0, H1.
  destruct (drop _ v) as [|x [|y [|? ?]]]; try discriminate. reflexivity.
Qed.

Lemma abs_top a :
  normalized a -> (2 <= length a)%nat -> Bp (length a - 1) <= 2 * Z.abs (bval a).
Proof.
  intros Ha Hl. destruct (snoc_inv a) as (l & v & E); [apply Ha|].
  assert (length a - 1 = length l)%nat as -> by (subst a; rewrite length_app; cbn; lia).
  destruct (normalized_large a l v Ha E); [|lia..]. intros ->. subst a. cbn in Hl. lia.
Qed.

Lemma mant_spec_small x s :
  limb x -> 0 < x -> 0 <= s <= 64 -> 2 ^ (127 - s) <= x * LB < 2 ^ (128 - s) ->
  mant_spec x (sticky (x * LB) (64 - s)) (1 * 64 - s - 1).
Proof.
  intros Hx Hp Hs Hr. unfold limb in Hx.
  assert (s <= 63) as Hs'.
  { destruct (Z.eq_dec s 64) as [->|]; [|lia]. change (2 ^ (128 - 64)) with LB in Hr. lia. }
  replace (1 * 64 - s - 1) with (63 - s) by lia. unfold mant_spec.
  replace (127 - s) with (63 - s + 64) in Hr by lia.
  replace (128 - s) with (63 - s + 1 + 64) in Hr by lia.
  rewrite !(Z.pow_add_r 2 _ 64) in Hr by lia. change (2 ^ 64) with LB in Hr.
  split; [lia|]. split; [lia|].
  assert (LB = 2 ^ s * 2 ^ (64 - s)) as EB
    by (rewrite <- Z.pow_add_r by lia; now replace (s + (64 - s)) with 64 by lia).
  assert (0 < 2 ^ (64 - s)) by (apply Z.pow_pos_nonneg; lia).
  assert (sticky (x * LB) (64 - s) = x * 2 ^ s) as ->.
  { unfold sticky. rewrite Z.shiftr_div_pow2, EB, Z.mul_assoc, Z.div_mul, Z.mod_mul by lia.
    apply Z.lor_0_r. }
  destruct (Z.ltb_spec (63 - s) 63); [f_equal; f_equal; lia|].
  assert (s = 0) as -> by lia. unfold sticky. change (63 - 0 - 63) with 0.
  rewrite Z.shiftr_0_r, Z.mod_1_r. cbn [Z.eqb negb]. rewrite Z.lor_0_r. change (2 ^ 0) with 1. lia.
Qed.

Lemma mant_spec_large N L n s :
  0 <= L < Bp n -> 0 <= s <= 64 -> 2 ^ (127 - s) <= N < 2 ^ (128 - s) ->
  mant_spec (L + Bp n * N) (sticky (L + Bp n * N) (64 * Z.of_nat n + (64 - s)))
            (64 * Z.of_nat n + 127 - s).
Proof.
  intros HL Hs HN. unfold mant_spec.
  replace (64 * Z.of_nat n + 127 - s) with (64 * Z.of_nat n + (127 - s)) by lia.
  replace (64 * Z.of_nat n + (127 - s) + 1) with (64 * Z.of_nat n + (128 - s)) by lia.
  rewrite !(Z.pow_add_r 2 (64 * Z.of_nat n)) by lia. rewrite <- Bp_pow.
  pose proof (Bp_pos n). split; [nia|]. split; [lia|].
  destruct (Z.ltb_spec (64 * Z.of_nat n + (127 - s)) 63); [lia|]. f_equal. lia.
Qed.

Lemma lor_b2z_cases x b : 0 <= x -> Z.lor x (b2z b) = if b && Z.even x then x + 1 else x.
Proof.
  intros Hx. destruct b; cbn [Z.b2z andb]; [|apply Z.lor_0_r].
  destruct (Z.even x) eqn:Ev.
  - apply Z.even_spec in Ev as [h ->]. rewrite (Z.mul_comm 2). change (h * 2) with (h * 2 ^ 1).
    now rewrite lor_disjoint_add by lia.
  - assert (Z.odd x = true) as Ho by (rewrite <- Z.negb_even, Ev; done).
    apply Z.odd_spec in Ho as [h ->]. apply Z.bits_inj'. intros n Hn. rewrite Z.lor_spec.
    destruct (Z.eq_dec n 0) as [->|]; [rewrite Z.testbit_odd_0; done|].
    rewrite (testbit_high 1 1) by lia. apply orb_false_r.
Qed.

Lemma limb_lor_b2z x b : limb x -> limb (Z.lor x (b2z b)).
Proof.
  intros Hx. rewrite lor_b2z_cases by apply Hx. unfold limb in *.
  destruct b; cbn [andb]; [|done]. destruct (Z.even x) eqn:E; [|done].
  destruct (Z.eq_dec x (LB - 1)) as [->|]; [discriminate | lia].
Qed.

Lemma lor_b2z_high a1 a0 b s :
  limb a0 -> 0 <= s <= 64 -> 2 ^ (127 - s) <= a1 * LB + Z.lor a0 (b2z b) < 2 ^ (128 - s) ->
  a1 * LB + Z.lor a0 (b2z b) = Z.lor (a1 * LB + a0) (b2z b) /\
  2 ^ (127 - s) <= a1 * LB + a0 < 2 ^ (128 - s).
Proof.
  intros H0 Hs Hr. unfold limb in H0. assert (0 <= a1) as H1.
  { assert (0 < 2 ^ (127 - s)) by (apply Z.pow_pos_nonneg; lia).
    rewrite lor_b2z_cases in Hr by lia. destruct (_ && _); nia. }
  rewrite !lor_b2z_cases in * by lia.
  assert (Z.even (a1 * LB + a0) = Z.even a0) as ->.
  { change LB with (2 * 9223372036854775808). rewrite Z.mul_assoc, (Z.mul_comm a1), <- Z.mul_assoc.
    rewrite Z.even_add, Z.even_mul. now destruct (Z.even a0). }
  replace (127 - s) with (1 + (126 - s)) in * by lia. rewrite Z.pow_add_r in * by lia.
  change (2 ^ 1) with 2 in *. destruct b; cbn [andb] in *; [|lia].
  destruct (Z.even a0) eqn:Ev; [|lia]. apply Z.even_spec in Ev as [h ->]. lia.
Qed.

Lemma sticky_lor_any N b k :
  0 <= k -> sticky (Z.lor N (b2z b)) k = Z.lor (Z.shiftr N k) (b2z (negb ((N mod 2 ^ k =? 0) && negb b))).
Proof.
  intros Hk. destruct (Z.eq_dec k 0) as [->|]; [|apply sticky_lor; lia].
  rewrite sticky_lor_0. now rewrite Z.shiftr_0_r.
Qed.

Lemma get_mant_exp_spec a M e :
  normalized a -> bval a <> 0 -> js_bigint_get_mant_exp a = (M, e) ->
  mant_spec (Z.abs (bval a)) M e.
Proof.
  intros Ha Hne E. unfold js_bigint_get_mant_exp in E.
  destruct (abs_limbs_spec a (proj1 Ha)) as (Hv & Hl & EV). cbv zeta in *.
  set (v := abs_limbs _ _ a) in *. clearbody v. pose proof (wf_length a (proj1 Ha)).
  unfold JS_LIMB_BITS in E. destruct (Nat.eqb_spec (length a) 1) as [H1|H1].
  - rewrite H1 in *. destruct v as [|x [|? ?]]; try discriminate. apply Forall_inv in Hv.
    cbn [uval] in EV. cbn [Nat.sub take fold_left Z.eqb negb Z.b2z Z.lor List.nth] in E.
    change (Z.lor 0 0) with 0 in E. destruct (mant_normalize x 0) as [m s] eqn:En. injection E as <- <-.
    apply mant_normalize_spec in En as (Hs & Hr & ->); [|auto | unfold limb; lia | lia].
    assert (Z.abs (bval a) = x) as -> by lia. rewrite Z.add_0_r in *.
    apply mant_spec_small; auto; lia.
  - assert (2 <= length a)%nat as H2 by lia. rewrite <- Hl in *.
    pose proof (split_high v H2) as Es. set (n := (length v - 2)%nat) in *.
    set (a0 := List.nth n v 0) in *. set (a1 := List.nth (S n) v 0) in *.
    assert (limb a0 /\ limb a1) as [L0 L1] by (split; now apply limb_nth).
    assert (limbs (take n v)) as Hlow by now apply Forall_take.
    rewrite (low_bits_zero _ 0 Hlow) in E. cbn [Z.eqb andb] in E.
    pose proof (uval_range _ Hlow) as HL. rewrite length_take, Nat.min_l in HL by lia.
    set (L := uval (take n v)) in *.
    assert (Z.abs (bval a) = L + Bp n * (a1 * LB + a0)) as EA.
    { rewrite <- EV, Es, uval_app, length_take, Nat.min_l by lia. subst L. cbn [uval]. lia. }
    rewrite EA. destruct (mant_normalize _ _) as [m s] eqn:En. injection E as <- <-.
    apply mant_normalize_spec in En as (Hs & Hr & ->); [|done | now apply limb_lor_b2z |].
    2:{ intros ->. rewrite lor_b2z_cases by apply L0. enough (LB / 2 <= a0) by (destruct (_ && _); lia).
        pose proof (abs_top a Ha ltac:(lia)) as Ht. rewrite EA in Ht.
        replace (length a - 1)%nat with (S n) in Ht by lia. rewrite Bp_S in Ht.
        assert (9223372036854775807 * Bp n < Bp n * a0) by nia.
        change (LB / 2) with 9223372036854775808. nia. }
    destruct (lor_b2z_high a1 a0 (negb (L =? 0)) s L0 ltac:(lia) Hr) as [Eor HN]. rewrite Eor.
    replace (Z.of_nat (length v) * 64 - s - 1) with (64 * Z.of_nat n + 127 - s) by lia.
    rewrite sticky_lor_any by lia. rewrite <- (sticky_scale _ L n) by lia. apply mant_spec_large; lia.
Qed.

(** ** Comparison *)

Lemma exp_cmp_lt A M f u :
  mant_spec A M f -> f < f64_exp u - 1023 -> A * f64_unit < f64_scaled_abs u.
Proof.
  intros ([_ HA] & Hf & _) H. unfold f64_scaled_abs. destruct (Z.eqb_spec (f64_exp u) 0); [lia|].
  pose proof (f64_mant_range u) as Hm. change (2 ^ 52) with 4503599627370496 in *.
  apply Z.lt_le_trans with (2 ^ (f + 1) * f64_unit).
  { apply Z.mul_lt_mono_pos_r; [apply f64_unit_pos | done]. }
  apply Z.le_trans with (2 ^ 52 * 2 ^ (f64_exp u - 1)).
  - unfold f64_unit. rewrite <- !Z.pow_add_r by lia. apply Z.pow_le_mono_r; lia.
  - apply Z.mul_le_mono_nonneg_r; [apply Z.pow_nonneg; lia|]. change (2 ^ 52) with 4503599627370496. lia.
Qed.

Lemma exp_cmp_gt A M f u :
  mant_spec A M f -> f64_exp u - 1023 < f -> f64_scaled_abs u < A * f64_unit.
Proof.
  intros ([HA _] & Hf & _) H. unfold f64_scaled_abs. pose proof (f64_exp_range u).
  pose proof (f64_mant_range u) as Hm. pose proof f64_unit_pos.
  apply Z.lt_le_trans with (2 ^ f * f64_unit).
  2:{ apply Z.mul_le_mono_nonneg_r; [lia | done]. }
  unfold f64_unit. rewrite <- Z.pow_add_r by lia. destruct (Z.eqb_spec (f64_exp u) 0).
  - apply Z.lt_le_trans with (2 ^ 52); [lia|]. apply Z.pow_le_mono_r; lia.
  - apply Z.lt_le_trans with (2 ^ 53 * 2 ^ (f64_exp u - 1)).
    + apply Z.mul_lt_mono_pos_r; [apply Z.pow_pos_nonneg; lia|].
      change (2 ^ 53) with (2 ^ 52 + 2 ^ 52). lia.
    + rewrite <- Z.pow_add_r by lia. apply Z.pow_le_mono_r; lia.
Qed.

Lemma sticky_cmp A k m :
  0 <= A -> 0 <= k -> Z.even m = true -> (sticky A k ?= m) = (A ?= m * 2 ^ k).
Proof.
  intros HA Hk Hm. unfold sticky. assert (0 < 2 ^ k) as HP by (apply Z.pow_pos_nonneg; lia).
  rewrite Z.shiftr_div_pow2 by lia. pose proof (Z.div_pos A (2 ^ k) HA HP).
  rewrite lor_b2z_cases by lia. pose proof (Z.div_mod A (2 ^ k) ltac:(lia)) as E.
  pose proof (Z.mod_pos_bound A (2 ^ k) HP). set (q := A / 2 ^ k) in *. set (r := A mod 2 ^ k) in *.
  apply Z.even_spec in Hm as [h ->].
  destruct (Z.eqb_spec r 0) as [Er|Er]; cbn [negb andb].
  - replace A with (q * 2 ^ k) by lia. apply Zmult_compare_compat_r. lia.
  - assert (q <> 2 * h -> Z.even q = true -> q + 1 <> 2 * h) as Hne.
    { intros _ He. apply Z.even_spec in He as [j ->]. lia. }
    assert (Z.even q = false -> q <> 2 * h) as Hne2.
    { intros He ->. rewrite Z.even_mul in He. discriminate. }
    destruct (Z.lt_ge_cases q (2 * h)) as [Hlt|Hge].
    + assert (A < 2 * h * 2 ^ k) as HA1 by nia. rewrite (proj2 (Z.compare_lt_iff _ _) HA1).
      apply Z.compare_lt_iff. destruct (Z.even q); [specialize (Hne ltac:(lia) eq_refl)|]; lia.
    + assert (2 * h * 2 ^ k < A) as HA1 by nia. rewrite (proj2 (Z.compare_gt_iff _ _) HA1).
      apply Z.compare_gt_iff. destruct (Z.even q); [|specialize (Hne2 eq_refl)]; lia.
Qed.

Lemma mant_cmp A M f u :
  mant_spec A M f -> f = f64_exp u - 1023 ->
  (A * f64_unit ?= f64_scaled_abs u) = (M ?= (2 ^ 52 + f64_mant u) * 2 ^ 11).
Proof.
  intros ([HA1 HA2] & Hf & ->) Ef. unfold f64_scaled_abs. destruct (Z.eqb_spec (f64_exp u) 0); [lia|].
  set (v := 2 ^ 52 + f64_mant u). assert (0 < 2 ^ f) by (apply Z.pow_pos_nonneg; lia).
  assert ((A * f64_unit ?= v * 2 ^ (f64_exp u - 1)) = (A * 2 ^ 52 ?= v * 2 ^ f)) as ->.
  { unfold f64_unit. replace 1074 with (52 + 1022) by lia. replace (f64_exp u - 1) with (f + 1022) by lia.
    rewrite !Z.pow_add_r, !Z.mul_assoc by lia. symmetry. apply Zmult_compare_compat_r. reflexivity. }
  destruct (Z.ltb_spec f 63).
  - rewrite (Zmult_compare_compat_r (A * 2 ^ (63 - f)) (v * 2 ^ 11) (2 ^ f)) by lia.
    rewrite (Zmult_compare_compat_r (A * 2 ^ 52) (v * 2 ^ f) (2 ^ 11)) by reflexivity.
    f_equal; [|ring]. rewrite <- !Z.mul_assoc, <- !Z.pow_add_r by lia. do 2 f_equal. lia.
  - rewrite sticky_cmp by (try lia; now rewrite Z.even_mul, orb_true_r).
    rewrite (Zmult_compare_compat_r A (v * 2 ^ 11 * 2 ^ (f - 63)) (2 ^ 52)) by reflexivity.
    f_equal. rewrite <- !Z.mul_assoc, <- !Z.pow_add_r by lia. do 2 f_equal. lia.
Qed.

(** The order of an integer and a double, and 2 for NaN. *)
Definition f64_compare (z u : Z) : Z :=
  if f64_isnan u then 2
  else if negb (f64_isfinite u) then (if f64_sign u =? 0 then -1 else 1)
  else sgn_of_comparison (z * f64_unit ?= f64_scaled u).

(** Two negative operands whose binary exponents differ. *)
Definition cmp_inverted (z u : Z) : bool :=
  (z <? 0) && negb (f64_sign u =? 0) && f64_isfinite u && negb (f64_scaled u =? 0) &&
  negb (Z.log2 (Z.abs z) =? f64_exp u - 1023).

Lemma f64_sign_range u : in_u 64 u -> f64_sign u = 0 \/ f64_sign u = 1.
Proof.
  intros [H1 H2]. unfold f64_sign. rewrite Z.shiftr_div_pow2 by lia.
  pose proof (Z.div_pos u (2 ^ 63) H1 eq_refl).
  pose proof (Z.div_lt_upper_bound u (2 ^ 63) 2 eq_refl H2). lia.
Qed.

Lemma f64_scaled_abs_zero u : f64_scaled_abs u = 0 <-> f64_exp u = 0 /\ f64_mant u = 0.
Proof.
  unfold f64_scaled_abs. pose proof (f64_mant_range u). pose proof (f64_exp_range u).
  destruct (Z.eqb_spec (f64_exp u) 0); [lia|]. split; [|lia]. intros E.
  assert (0 < 2 ^ (f64_exp u - 1)) by (apply Z.pow_pos_nonneg; lia). nia.
Qed.

Lemma is_zero_spec a :
  normalized a -> ((length a =? 1)%nat && (List.nth 0 a 0 =? 0)) = (bval a =? 0).
Proof.
  intros Ha. destruct (Z.eqb_spec (bval a) 0) as [E|E].
  - now rewrite (normalized_zero a Ha E).
  - apply andb_false_iff. destruct (Nat.eqb_spec (length a) 1); [right | now left].
    destruct a as [|x [|? ?]]; try discriminate. apply Z.eqb_neq. intros Hx. cbn in Hx. subst x. now apply E.
Qed.

Lemma mant_spec_log2 A M f : mant_spec A M f -> Z.log2 A = f.
Proof. intros ([H1 H2] & Hf & _). apply Z.log2_unique; [done | split; [done | now rewrite <- Z.add_1_r]]. Qed.

(** The magnitudes in the branch where the signs agree. *)
Lemma abs_cmp A M f u a_sign :
  mant_spec A M f -> a_sign = 0 \/ a_sign = 1 ->
  (if negb (f =? f64_exp u - 1023) then (if f <? f64_exp u - 1023 then -1 else 1)
   else
     if M <? u64 (Z.shiftl (2 ^ 52 + f64_mant u) 11) then 2 * a_sign - 1
     else if u64 (Z.shiftl (2 ^ 52 + f64_mant u) 11) <? M then 1 - 2 * a_sign else 0) =
  (if f =? f64_exp u - 1023 then 1 - 2 * a_sign else 1) *
  sgn_of_comparison (A * f64_unit ?= f64_scaled_abs u).
Proof.
  intros HM Hs. destruct (Z.eqb_spec f (f64_exp u - 1023)) as [Ef|Ef]; cbn [negb].
  - rewrite (mant_cmp A M f u HM Ef). rewrite Z.shiftl_mul_pow2 by lia.
    rewrite u64_small.
    2:{ pose proof (f64_mant_range u). change (2 ^ 52) with 4503599627370496 in *.
        unfold limb. change (2 ^ 11) with 2048. lia. }
    set (m := (2 ^ 52 + f64_mant u) * 2 ^ 11). clearbody m.
    destruct (Z.ltb_spec M m) as [H|H].
    + rewrite (proj2 (Z.compare_lt_iff _ _) H). cbn. lia.
    + destruct (Z.ltb_spec m M) as [H1|H1].
      * rewrite (proj2 (Z.compare_gt_iff _ _) H1). cbn. lia.
      * assert (M = m) as -> by lia. rewrite Z.compare_refl. cbn. lia.
  - destruct (Z.ltb_spec f (f64_exp u - 1023)).
    + rewrite (proj2 (Z.compare_lt_iff _ _)) by (apply (exp_cmp_lt A M f u); auto). reflexivity.
    + rewrite (proj2 (Z.compare_gt_iff _ _)) by (apply (exp_cmp_gt A M f u); auto; lia). reflexivity.
Qed.

Lemma sgn_compare_pos x y : y < x -> sgn_of_comparison (x ?= y) = 1.
Proof. intros H. now rewrite (proj2 (Z.compare_gt_iff _ _) H). Qed.

Lemma sgn_compare_neg x y : x < y -> sgn_of_comparison (x ?= y) = -1.
Proof. intros H. now rewrite (proj2 (Z.compare_lt_iff _ _) H). Qed.

Lemma f64_zero_test u : (f64_exp u =? 0) && (f64_mant u =? 0) = (f64_scaled_abs u =? 0).
Proof.
  pose proof (f64_scaled_abs_zero u).
  destruct (Z.eqb_spec (f64_exp u) 0), (Z.eqb_spec (f64_mant u) 0),
    (Z.eqb_spec (f64_scaled_abs u) 0); cbn; tauto.
Qed.

(** The comparison with a finite double, by the signs of the operands. *)
Lemma float64_cmp_finite a u :
  normalized a -> in_u 64 u -> f64_exp u <> 2047 ->
  js_bigint_float64_cmp a u =
  (if cmp_inverted (bval a) u then -1 else 1) * sgn_of_comparison (bval a * f64_unit ?= f64_scaled u).
Proof.
  intros Ha Hu Hf. unfold js_bigint_float64_cmp, cmp_inverted, f64_isfinite.
  rewrite is_zero_spec by done.
  change (Z.shiftr u 63) with (f64_sign u). change (Z.land (Z.shiftr u 52) 2047) with (f64_exp u).
  change (Z.land u (2 ^ 52 - 1)) with (f64_mant u).
  rewrite f64_mant_implicit, f64_zero_test, (proj2 (Z.eqb_neq _ _) Hf). cbn [negb].
  pose proof f64_unit_pos as HU. pose proof (f64_scaled_abs_nonneg u) as Hn. unfold f64_scaled.
  destruct (js_bigint_get_mant_exp a) as [M f] eqn:EM.
  assert (bval a <> 0 -> mant_spec (Z.abs (bval a)) M f) as HM by (intros; now apply get_mant_exp_spec).
  destruct (Z.eqb_spec (f64_scaled_abs u) 0) as [E0|E0].
  { (* u is a zero *)
    rewrite E0. assert ((if f64_sign u =? 0 then 0 else - 0) = 0) as -> by now destruct (_ =? _).
    rewrite andb_false_r. cbn [negb andb]. destruct (Z.eqb_spec (bval a) 0) as [->|]; [done|].
    destruct (bval_sign a (proj1 Ha)) as [(-> & ?)|(-> & ?)];
      [rewrite sgn_compare_neg | rewrite sgn_compare_pos]; nia. }
  destruct (Z.eqb_spec (bval a) 0) as [Ea|Ea].
  { rewrite Ea. cbn [Z.ltb Z.compare andb]. rewrite Z.mul_0_l.
    destruct (f64_sign_range u Hu) as [-> | ->]; cbn [Z.eqb Pos.eqb];
      [rewrite sgn_compare_neg | rewrite sgn_compare_pos]; lia. }
  specialize (HM Ea). pose proof (mant_spec_log2 _ _ _ HM) as El.
  destruct (bval_sign a (proj1 Ha)) as [(Es & Hs)|(Es & Hs)]; rewrite Es;
    destruct (f64_sign_range u Hu) as [Eu | Eu]; rewrite Eu; cbn [Z.eqb Pos.eqb negb andb].
  - rewrite andb_false_r. cbn [andb]. rewrite sgn_compare_neg; nia.
  - rewrite (abs_cmp (Z.abs (bval a)) M f u 1) by auto. rewrite El.
    destruct (Z.ltb_spec (bval a) 0); [|lia]. destruct (Z.eqb_spec (- f64_scaled_abs u) 0); [lia|].
    cbn [negb andb]. replace (bval a * f64_unit) with (- (Z.abs (bval a) * f64_unit)) by lia.
    rewrite Z.compare_opp, (Z.compare_antisym (Z.abs (bval a) * f64_unit)).
    destruct (f =? f64_exp u - 1023), (Z.abs (bval a) * f64_unit ?= f64_scaled_abs u); reflexivity.
  - rewrite andb_false_r. cbn [andb]. rewrite (abs_cmp (Z.abs (bval a)) M f u 0) by auto.
    rewrite Z.abs_eq by lia. destruct (f =? f64_exp u - 1023); reflexivity.
  - destruct (Z.ltb_spec (bval a) 0); [lia|]. cbn [andb]. rewrite sgn_compare_pos; nia.
Qed.

Lemma float64_cmp_spec a u :
  normalized a -> in_u 64 u ->
  js_bigint_float64_cmp a u =
  if cmp_inverted (bval a) u then - f64_compare (bval a) u else f64_compare (bval a) u.
Proof.
  intros Ha Hu. destruct (Z.eq_dec (f64_exp u) 2047) as [Ee|Ee].
  - unfold js_bigint_float64_cmp, cmp_inverted, f64_compare, f64_isnan, f64_isfinite.
    change (Z.shiftr u 63) with (f64_sign u). change (Z.land (Z.shiftr u 52) 2047) with (f64_exp u).
    change (Z.land u (2 ^ 52 - 1)) with (f64_mant u). rewrite Ee. cbn [Z.eqb Pos.eqb negb andb].
    rewrite andb_false_r. cbn [andb]. destruct (f64_mant u =? 0); cbn [negb]; [|done].
    destruct (f64_sign_range u Hu) as [-> | ->]; reflexivity.
  - rewrite float64_cmp_finite by done.
    unfold f64_compare, f64_isnan, f64_isfinite. rewrite (proj2 (Z.eqb_neq _ _) Ee).
    cbn [negb andb]. destruct (cmp_inverted _ _); lia.
Qed.

(** ** The exact conversion of a double *)

Definition from_float64_ok (u : Z) (o : res from_float64_result) : Prop :=
  match o with
  | Ok NotFinite => f64_isfinite u = false
  | Ok NotAnInteger => f64_isfinite u = true /\ f64_is_integer u = false
  | Ok (FromInteger r) => f64_isfinite u = true /\ normalized r /\ bval r * f64_unit = f64_scaled u
  | Throw _ => False
  end.

Lemma f64_is_integer_abs u :
  f64_isfinite u = true -> f64_is_integer u = (f64_scaled_abs u mod f64_unit =? 0).
Proof.
  intros Hf. unfold f64_is_integer, f64_scaled. rewrite Hf. cbn [andb].
  destruct (f64_sign u =? 0); [done|]. pose proof f64_unit_pos.
  destruct (Z.eqb_spec (f64_scaled_abs u mod f64_unit) 0) as [E|E].
  - apply Z.eqb_eq. apply Z.mod_opp_l_z; [lia | done].
  - apply Z.eqb_neq. rewrite Z.mod_opp_l_nz by lia.
    pose proof (Z.mod_pos_bound (f64_scaled_abs u) f64_unit ltac:(lia)). lia.
Qed.

Lemma from_float64_finish u m e :
  f64_isfinite u = true -> 0 <= m < 2 ^ 53 -> 0 <= e < 1000 -> m * 2 ^ e * f64_unit = f64_scaled_abs u ->
  from_float64_ok u
    (let? r := js_bigint_shl (js_bigint_set_si (if negb (f64_sign u =? 0) then u64 (- m) else m)) e in
     Ok (FromInteger r)).
Proof.
  intros Hf Hm He E. change (2 ^ 53) with 9007199254740992 in Hm.
  set (z := if negb (f64_sign u =? 0) then - m else m).
  assert (js_bigint_set_si (if negb (f64_sign u =? 0) then u64 (- m) else m) = [u64 z]) as ->.
  { subst z. unfold js_bigint_set_si. destruct (f64_sign u =? 0); cbn [negb]; [done|].
    f_equal. apply u64_small, u64_limb. }
  destruct (new_si_spec z) as (_ & Hz & Ez).
  { unfold in_s. change (2 ^ (64 - 1)) with 9223372036854775808. subst z. destruct (f64_sign u =? 0); cbn [negb]; lia. }
  destruct (shl_spec [u64 z] e Hz ltac:(lia)) as (r & -> & Hr & Er).
  { cbn [length]. unfold JS_LIMB_BITS, JS_BIGINT_MAX_SIZE.
    pose proof (Z.div_lt_upper_bound e 64 16 ltac:(lia) ltac:(lia)).
    change (1024 * 1024 / JS_LIMB_BITS) with 16384. lia. }
  cbn [res_bind from_float64_ok]. split_and!; auto.
  rewrite Er, Ez, Z.shiftl_mul_pow2 by lia. unfold f64_scaled. subst z.
  destruct (f64_sign u =? 0); cbn [negb]; lia.
Qed.

Lemma from_float64_spec u : in_u 64 u -> from_float64_ok u (js_bigint_from_float64 u).
Proof.
  intros Hu. unfold js_bigint_from_float64.
  change (Z.shiftr u 63) with (f64_sign u). change (Z.land (Z.shiftr u 52) 2047) with (f64_exp u).
  change (Z.land u (2 ^ 52 - 1)) with (f64_mant u). rewrite f64_mant_implicit, f64_zero_test.
  destruct (Z.eqb_spec (f64_exp u) 2047) as [E|E].
  { cbn. unfold f64_isfinite. now rewrite E. }
  assert (f64_isfinite u = true) as Hf by (unfold f64_isfinite; now rewrite (proj2 (Z.eqb_neq _ _) E)).
  pose proof (f64_mant_range u) as Hm. pose proof (f64_exp_range u) as Hx. pose proof f64_unit_pos as HU.
  destruct (Z.eqb_spec (f64_scaled_abs u) 0) as [E0|E0].
  { cbn. split_and!; [done | now apply normalized_single |].
    unfold f64_scaled. rewrite E0. now destruct (_ =? _). }
  assert (f64_scaled_abs u = if f64_exp u =? 0 then f64_mant u else (2 ^ 52 + f64_mant u) * 2 ^ (f64_exp u - 1))
    as EA by done.
  destruct (Z.ltb_spec (f64_exp u - 1023) 0) as [H1|H1].
  { cbn. split; [done|]. rewrite f64_is_integer_abs by done. apply Z.eqb_neq. rewrite Z.mod_small; [done|].
    pose proof (f64_scaled_abs_nonneg u). split; [done|]. rewrite EA. unfold f64_unit.
    destruct (Z.eqb_spec (f64_exp u) 0).
    - apply Z.lt_le_trans with (2 ^ 52); [lia | apply Z.pow_le_mono_r; lia].
    - apply Z.lt_le_trans with (2 ^ 53 * 2 ^ (f64_exp u - 1)).
      + apply Z.mul_lt_mono_pos_r; [apply Z.pow_pos_nonneg; lia|]. change (2 ^ 53) with (2 ^ 52 + 2 ^ 52). lia.
      + rewrite <- Z.pow_add_r by lia. apply Z.pow_le_mono_r; lia. }
  rewrite (proj2 (Z.eqb_neq (f64_exp u) 0)) in EA by lia. set (v := 2 ^ 52 + f64_mant u) in *.
  assert (0 <= v < 2 ^ 53) as Hv by (change (2 ^ 53) with (2 ^ 52 + 2 ^ 52); lia).
  destruct (Z.ltb_spec (f64_exp u - 1023) 52) as [H2|H2].
  - set (s := 52 - (f64_exp u - 1023)) in *. rewrite Z.shiftl_1_l, land_pow2_mask by lia.
    assert (0 < 2 ^ s) as P1 by (apply Z.pow_pos_nonneg; lia).
    assert (0 < 2 ^ (1074 - s)) as P2 by (apply Z.pow_pos_nonneg; lia).
    assert (f64_unit = 2 ^ s * 2 ^ (1074 - s)) as EU
      by (rewrite <- Z.pow_add_r by lia; now replace (s + (1074 - s)) with 1074 by lia).
    replace (f64_exp u - 1) with (1074 - s) in EA by lia.
    destruct (Z.eqb_spec (v mod 2 ^ s) 0) as [Ez|Ez]; cbn [negb].
    + rewrite Z.shiftr_div_pow2 by lia. pose proof (Z.div_mod v (2 ^ s) ltac:(lia)) as Ed.
      apply from_float64_finish; [done | | lia |].
      * split; [apply Z.div_pos; lia|]. apply Z.div_lt_upper_bound; [lia|].
        change (2 ^ 53) with 9007199254740992 in *. nia.
      * rewrite EA, EU. change (2 ^ 0) with 1. rewrite Z.mul_1_r. nia.
    + cbn. split; [done|]. rewrite f64_is_integer_abs, EA, EU, Z.mul_mod_distr_r by (done || lia).
      apply Z.eqb_neq. nia.
  - apply from_float64_finish; [done | lia | lia |]. rewrite EA. unfold f64_unit.
    rewrite <- Z.mul_assoc, <- Z.pow_add_r by lia. do 2 f_equal. lia.
Qed.

(** ** The rounding conversion to a double *)

Lemma sticky_shiftr A k j : 0 <= k -> 1 <= j -> Z.shiftr (sticky A k) j = Z.shiftr A (k + j).
Proof.
  intros Hk Hj. unfold sticky. rewrite Z.shiftr_lor, Z.shiftr_shiftr by lia.
  rewrite (Z.shiftr_div_pow2 (b2z _)) by lia. assert (2 ^ 1 <= 2 ^ j) by (apply Z.pow_le_mono_r; lia).
  rewrite Z.div_small by (pose proof (b2z_range (negb (A mod 2 ^ k =? 0))); lia). apply Z.lor_0_r.
Qed.

Lemma sticky_mod A k j : 0 <= k -> 1 <= j -> sticky A k mod 2 ^ j = sticky (A mod 2 ^ (k + j)) k.
Proof.
  intros Hk Hj. unfold sticky. rewrite <- !Z.land_ones, Z.land_lor_distr_l by lia. f_equal.
  - apply Z.bits_inj'. intros n Hn. rewrite Z.land_spec, !Z.shiftr_spec, Z.land_spec, !Z.testbit_ones by lia.
    f_equal. destruct (Z.leb_spec 0 n), (Z.leb_spec 0 (n + k)), (Z.ltb_spec n j), (Z.ltb_spec (n + k) (k + j)); lia.
  - assert (2 ^ 1 <= 2 ^ j) by (apply Z.pow_le_mono_r; lia).
    rewrite Z.land_ones, Z.mod_small by (pose proof (b2z_range (negb (Z.land A (Z.ones k) =? 0))); lia).
    do 3 f_equal. apply Z.bits_inj'. intros n Hn. rewrite !Z.land_spec, !Z.testbit_ones by lia.
    rewrite <- andb_assoc. f_equal.
    destruct (Z.leb_spec 0 n), (Z.ltb_spec n (k + j)), (Z.ltb_spec n k); cbn; lia.
Qed.

Lemma sticky_succ A k :
  0 <= A -> 0 <= k -> Z.lor (Z.shiftr (sticky A k) 1) (Z.land (sticky A k) 1) = sticky A (k + 1).
Proof.
  intros HA Hk. rewrite land_1, sticky_shiftr by lia. change 2 with (2 ^ 1) at 1.
  rewrite sticky_mod by lia. unfold sticky at 2. f_equal.
  pose proof (Z.mod_pos_bound A (2 ^ (k + 1)) ltac:(apply Z.pow_pos_nonneg; lia)) as Hr.
  set (r := A mod 2 ^ (k + 1)) in *. clearbody r. rewrite Z.pow_add_r in Hr by lia. change (2 ^ 1) with 2 in *.
  assert (0 < 2 ^ k) as HP by (apply Z.pow_pos_nonneg; lia). unfold sticky. rewrite Z.shiftr_div_pow2 by lia.
  pose proof (Z.div_mod r (2 ^ k) ltac:(lia)) as Ed. pose proof (Z.mod_pos_bound r (2 ^ k) HP).
  assert (r / 2 ^ k = 0 \/ r / 2 ^ k = 1) as [E | E]
    by (pose proof (Z.div_pos r (2 ^ k) ltac:(lia) HP); pose proof (Z.div_lt_upper_bound r (2 ^ k) 2 HP ltac:(lia)); lia); rewrite E in *.
  - destruct (Z.eqb_spec (r mod 2 ^ k) 0), (Z.eqb_spec r 0); try reflexivity; lia.
  - destruct (Z.eqb_spec (r mod 2 ^ k) 0), (Z.eqb_spec r 0); try reflexivity; lia.
Qed.

(** The rounding shift is to nearest, with ties to even. *)
Lemma shr_rndn_spec m :
  0 <= m < 2 ^ 63 ->
  shr_rndn m 10 = let q := Z.shiftr m 10 in
                  let r := m mod 1024 in
                  if (512 <? r) || ((r =? 512) && Z.odd q) then q + 1 else q.
Proof.
  intros Hm. unfold shr_rndn. cbv zeta. rewrite land_1, !Z.shiftr_div_pow2 by lia.
  change (2 ^ 10) with 1024. change (Z.shiftl 1 (10 - 1) - 1) with 511. change (2 ^ 63) with 9223372036854775808 in Hm.
  pose proof (Z.div_mod m 1024 ltac:(lia)). pose proof (Z.mod_pos_bound m 1024 eq_refl).
  set (q := m / 1024) in *. set (r := m mod 1024) in *.
  pose proof (Z.mod_pos_bound q 2 eq_refl). rewrite u64_small by (unfold limb; lia).
  rewrite (Zmod_odd q). destruct (Z.odd q); rewrite ?andb_true_r, ?andb_false_r.
  - destruct (Z.ltb_spec 512 r), (Z.eqb_spec r 512); cbn [orb]; symmetry;
      ((apply Z.div_unique with (r + 512 - 1024); lia) || (apply Z.div_unique with (r + 512); lia)).
  - destruct (Z.ltb_spec 512 r); cbn [orb]; symmetry;
      ((apply Z.div_unique with (r + 511 - 1024); lia) || (apply Z.div_unique with (r + 511); lia)).
Qed.

(** The significand that the code rounds to, from the magnitude. *)
Lemma rounding_spec A e :
  2 ^ e <= A < 2 ^ (e + 1) -> 63 <= e ->
  let mant := sticky A (e - 63) in
  shr_rndn (Z.lor (Z.shiftr mant 1) (Z.land mant 1)) 10 =
  let p := 2 ^ (e - 52) in
  let q := A / p in
  let r := A mod p in
  (if (p <? 2 * r) || ((2 * r =? p) && Z.odd q) then q + 1 else q).
Proof.
  intros HA He. cbv zeta. assert (0 < 2 ^ e) by (apply Z.pow_pos_nonneg; lia).
  rewrite sticky_succ by lia. set (k := e - 63 + 1).
  assert (0 < 2 ^ k) as HP by (apply Z.pow_pos_nonneg; lia).
  assert (2 ^ (e - 52) = 1024 * 2 ^ k) as Ep.
  { replace (e - 52) with (10 + k) by lia. now rewrite Z.pow_add_r by lia. }
  rewrite shr_rndn_spec.
  2:{ unfold sticky. rewrite Z.shiftr_div_pow2 by lia. pose proof (Z.div_pos A (2 ^ k) ltac:(lia) HP).
      assert (A / 2 ^ k < 2 ^ 63).
      { apply Z.div_lt_upper_bound; [lia|]. rewrite <- Z.pow_add_r by lia.
        replace (k + 63) with (e + 1) by lia. lia. }
      rewrite lor_b2z_cases by lia. change (2 ^ 63) with (2 * 4611686018427387904) in *.
      destruct (negb _); cbn [andb]; [|lia]. destruct (Z.even (A / 2 ^ k)) eqn:Ev; [|lia].
      apply Z.even_spec in Ev as [h Eh]. lia. }
  cbv zeta. rewrite sticky_shiftr, Z.shiftr_div_pow2 by lia. replace (k + 10) with (e - 52) by lia.
  change 1024 with (2 ^ 10) at 1 2. rewrite sticky_mod by lia. replace (k + 10) with (e - 52) by lia.
  pose proof (Z.mod_pos_bound A (2 ^ (e - 52)) ltac:(lia)). set (r := A mod 2 ^ (e - 52)) in *.
  pose proof (sticky_cmp r k 512 ltac:(lia) ltac:(lia) eq_refl) as Hc. rewrite Ep in *.
  destruct (Z.compare_spec (sticky r k) 512) as [E|E|E]; symmetry in Hc;
    [apply Z.compare_eq in Hc | apply (proj1 (Z.compare_lt_iff _ _)) in Hc | apply (proj1 (Z.compare_gt_iff _ _)) in Hc].
  - rewrite E. destruct (Z.ltb_spec (1024 * 2 ^ k) (2 * r)), (Z.eqb_spec (2 * r) (1024 * 2 ^ k)); (lia || reflexivity).
  - destruct (Z.ltb_spec 512 (sticky r k)), (Z.eqb_spec (sticky r k) 512),
      (Z.ltb_spec (1024 * 2 ^ k) (2 * r)), (Z.eqb_spec (2 * r) (1024 * 2 ^ k)); (lia || reflexivity).
  - destruct (Z.ltb_spec 512 (sticky r k)), (Z.ltb_spec (1024 * 2 ^ k) (2 * r)); (lia || reflexivity).
Qed.

Lemma f64_pack_mask sgn e q : 2 ^ 52 <= q < 2 ^ 53 -> f64_pack sgn e (Z.land q (2 ^ 52 - 1)) = f64_pack sgn e (q - 2 ^ 52).
Proof.
  intros Hq. f_equal. rewrite land_pow2_mask by lia. symmetry. apply Z.mod_unique with 1; [|ring].
  change (2 ^ 53) with (2 ^ 52 + 2 ^ 52) in Hq. lia.
Qed.

Lemma to_float64_spec a : normalized a -> js_bigint_to_float64 a = f64_of_Z (bval a).
Proof.
  intros Ha. unfold js_bigint_to_float64. destruct (Nat.eqb_spec (length a) 1) as [H1|H1].
  { destruct a as [|x [|? ?]]; try discriminate. cbn [List.nth]. f_equal.
    destruct Ha as [[Hx _] _]. apply Forall_inv in Hx. rewrite bval_single, shiftr63 by done.
    rewrite (sgn_of_unsigned 64 x ltac:(lia) Hx). change (2 ^ (64 - 1)) with (LB / 2). change (2 ^ 64) with LB.
    destruct (LB / 2 <=? x); lia. }
  pose proof (wf_length a (proj1 Ha)) as Hl. pose proof (abs_top a Ha ltac:(lia)) as Ht.
  assert (bval a <> 0) as Hne by (pose proof (Bp_pos (length a - 1)); lia).
  destruct (js_bigint_get_mant_exp a) as [M e] eqn:EM.
  pose proof (get_mant_exp_spec a M e Ha Hne EM) as HM. pose proof (mant_spec_log2 _ _ _ HM) as El.
  destruct HM as (HA & He & HMe). set (A := Z.abs (bval a)) in *.
  assert (63 <= e) as He63.
  { destruct (Z.le_gt_cases 63 e); [done|]. assert (2 ^ (e + 1) <= 2 ^ 63) by (apply Z.pow_le_mono_r; lia).
    change (2 ^ 63) with 9223372036854775808 in *. destruct (length a) as [|[|n]]; try lia.
    replace (S (S n) - 1)%nat with (S n) in Ht by lia. rewrite Bp_S in Ht. pose proof (Bp_pos n). lia. }
  destruct (Z.ltb_spec e 63); [lia|]. subst M.
  unfold f64_of_Z. fold A. cbv zeta. destruct (Z.eqb_spec A 0); [lia|]. rewrite El.
  destruct (Z.leb_spec e 52); [lia|]. rewrite (rounding_spec A e HA He63). cbv zeta.
  assert (2 ^ (e - 52) * 2 ^ 52 = 2 ^ e) as Ep by (rewrite <- Z.pow_add_r by lia; f_equal; lia).
  assert (0 < 2 ^ (e - 52)) as HP by (apply Z.pow_pos_nonneg; lia).
  rewrite Z.pow_add_r, <- Ep in HA by lia.
  assert (2 ^ 52 <= A / 2 ^ (e - 52) < 2 ^ 53) as Hq.
  { split; [apply Z.div_le_lower_bound; lia | apply Z.div_lt_upper_bound; [lia|]].
    change (2 ^ 53) with (2 ^ 52 * 2 ^ 1). lia. }
  set (q' := if _ || _ then A / 2 ^ (e - 52) + 1 else A / 2 ^ (e - 52)).
  assert (2 ^ 52 <= q' <= 2 ^ 53) as Hq' by (subst q'; destruct (_ || _); lia). clearbody q'.
  assert ((if bval a <? 0 then 1 else 0) = js_bigint_sign a) as ->
    by (rewrite sign_ltb by apply Ha; destruct (bval_sign a (proj1 Ha)) as [(-> & _)|(-> & _)]; done).
  destruct (Z.ltb_spec 1023 e) as [Hov|Hov].
  { assert (f64_pack (js_bigint_sign a) (1024 + 1023) 0 = f64_pack (js_bigint_sign a) 2047 0) as -> by done.
    destruct (q' =? 2 ^ 53); [destruct (Z.ltb_spec 1023 (e + 1)) | destruct (Z.ltb_spec 1023 e)]; done || lia. }
  destruct (Z.eqb_spec q' (2 ^ 53)) as [->|Hn].
  - change (2 ^ 53 <=? 2 ^ 53) with true. change (Z.land (Z.shiftr (2 ^ 53) 1) (2 ^ 52 - 1)) with 0.
    cbv iota. destruct (Z.ltb_spec 1023 (e + 1)); [|done].
    assert (e = 1023) as -> by lia. reflexivity.
  - destruct (Z.leb_spec (2 ^ 53) q'); [lia|]. destruct (Z.ltb_spec 1023 e); [lia|].
    apply f64_pack_mask. lia.
Qed.

(** ** Round trip *)

Lemma f64_pack_sum sgn e m :
  0 <= sgn <= 1 -> 0 <= e < 2048 -> 0 <= m < 2 ^ 52 -> f64_pack sgn e m = sgn * 2 ^ 63 + e * 2 ^ 52 + m.
Proof.
  intros Hs He Hm. unfold f64_pack. rewrite !Z.shiftl_mul_pow2 by lia.
  rewrite !u64_small.
  2,3: unfold limb; change (2 ^ 52) with 4503599627370496; change (2 ^ 63) with 9223372036854775808; lia.
  rewrite (lor_disjoint_add sgn (e * 2 ^ 52) 63).
  2,3: change (2 ^ 52) with 4503599627370496; change (2 ^ 63) with 9223372036854775808; lia.
  replace (sgn * 2 ^ 63 + e * 2 ^ 52) with ((sgn * 2048 + e) * 2 ^ 52) by ring.
  apply lor_disjoint_add; lia.
Qed.

Lemma f64_pack_fields sgn e m :
  0 <= sgn <= 1 -> 0 <= e < 2048 -> 0 <= m < 2 ^ 52 ->
  let u := f64_pack sgn e m in
  in_u 64 u /\ f64_sign u = sgn /\ f64_exp u = e /\ f64_mant u = m.
Proof.
  intros Hs He Hm. cbv zeta. rewrite f64_pack_sum by done.
  unfold f64_sign, f64_exp, f64_mant, in_u. change 2047 with (2 ^ 11 - 1). rewrite !land_pow2_mask by lia.
  rewrite !Z.shiftr_div_pow2 by lia. change (2 ^ 64) with LB. change (2 ^ 63) with 9223372036854775808.
  change (2 ^ 52) with 4503599627370496 in *. change (2 ^ 11) with 2048. split_and!; [lia | lia | | |].
  - symmetry. apply Z.div_unique with (e * 4503599627370496 + m); lia.
  - replace ((sgn * 9223372036854775808 + e * 4503599627370496 + m) / 4503599627370496) with (sgn * 2048 + e)
      by (apply Z.div_unique with m; lia).
    symmetry. apply Z.mod_unique with sgn; lia.
  - symmetry. apply Z.mod_unique with (sgn * 2048 + e); lia.
Qed.

Lemma f64_of_Z_exact z :
  Z.abs z <= 2 ^ 53 ->
  in_u 64 (f64_of_Z z) /\ f64_isfinite (f64_of_Z z) = true /\ f64_scaled (f64_of_Z z) = z * f64_unit.
Proof.
  intros Hz. destruct (Z.eq_dec z 0) as [->|Hne]; [split; [split|]; done|].
  assert (exists e m, f64_of_Z z = f64_pack (if z <? 0 then 1 else 0) (e + 1023) m /\
    0 <= e <= 53 /\ 0 <= m < 2 ^ 52 /\ (2 ^ 52 + m) * 2 ^ e = Z.abs z * 2 ^ 52) as (e & m & -> & He & Hm & Em).
  { unfold f64_of_Z. cbv zeta. set (A := Z.abs z) in *. destruct (Z.eqb_spec A 0); [lia|].
    pose proof (Z.log2_spec A ltac:(lia)) as [L1 L2]. pose proof (Z.log2_nonneg A).
    rewrite Z.pow_succ_r in L2 by lia.
    destruct (Z.leb_spec (Z.log2 A) 52).
    - exists (Z.log2 A), (A * 2 ^ (52 - Z.log2 A) - 2 ^ 52).
      assert (2 ^ (52 - Z.log2 A) * 2 ^ Z.log2 A = 2 ^ 52) as Ep
        by (rewrite <- Z.pow_add_r by lia; f_equal; lia).
      assert (0 < 2 ^ (52 - Z.log2 A)) by (apply Z.pow_pos_nonneg; lia).
      split_and!; [done | lia | lia | rewrite <- Ep; nia | rewrite <- Ep; nia | rewrite <- Ep; nia].
    - assert (2 ^ 53 <= 2 ^ Z.log2 A) by (apply Z.pow_le_mono_r; lia).
      assert (A = 2 ^ 53) as -> by lia. exists 53, 0. split_and!; try done. }
  assert (0 <= (if z <? 0 then 1 else 0) <= 1) as Hs by (destruct (z <? 0); lia).
  destruct (f64_pack_fields _ (e + 1023) m Hs ltac:(lia) Hm) as (Hu & Fs & Fe & Fm). cbv zeta in *.
  split; [done|]. split; [unfold f64_isfinite; rewrite Fe; apply negb_true_iff, Z.eqb_neq; lia|].
  unfold f64_scaled, f64_scaled_abs. rewrite Fs, Fe, Fm.
  destruct (Z.eqb_spec (e + 1023) 0); [lia|].
  assert ((2 ^ 52 + m) * 2 ^ (e + 1023 - 1) = Z.abs z * f64_unit) as ->.
  { replace (e + 1023 - 1) with (e + 1022) by lia. rewrite Z.pow_add_r, Z.mul_assoc, Em by lia.
    unfold f64_unit. rewrite <- Z.mul_assoc, <- Z.pow_add_r by lia. done. }
  destruct (Z.ltb_spec z 0); cbn [Z.eqb Pos.eqb]; lia.
Qed.

Lemma to_from_float64 a :
  normalized a -> Z.abs (bval a) <= 2 ^ 53 ->
  js_bigint_from_float64 (js_bigint_to_float64 a) = Ok (FromInteger a).
Proof.
  intros Ha Hz. rewrite to_float64_spec by done.
  destruct (f64_of_Z_exact (bval a) Hz) as (Hu & Hf & Es).
  pose proof (from_float64_spec _ Hu) as H. pose proof f64_unit_pos as HU.
  destruct (js_bigint_from_float64 _) as [[r| |]|]; cbn in H; [| | |done].
  - destruct H as (_ & Hr & Er). do 2 f_equal. apply normalized_inj; auto. rewrite Es in Er. nia.
  - destruct H as [_ Hi]. unfold f64_is_integer in Hi. rewrite Hf, Es, Z.mod_mul in Hi by lia. discriminate.
  - rewrite Hf in H. discriminate.
Qed.

(** ** Properties *)

(** C29: [js_bigint_to_float64] rounds to nearest, ties to even, with overflow
    to the infinities (it is the reference rounding [f64_of_Z]), and up to
    2^53 in magnitude [js_bigint_from_float64] inverts it. *)
Theorem bigint_to_float64_correct a :
  normalized a ->
  js_bigint_to_float64 a = f64_of_Z (bval a) /\
  (Z.abs (bval a) <= 2 ^ 53 ->
   js_bigint_from_float64 (js_bigint_to_float64 a) = Ok (FromInteger a)).
Proof. intros Ha. split; [now apply to_float64_spec | now apply to_from_float64]. Qed.

Lemma bigint_to_float64_correct_witness :
  js_bigint_to_float64 [2 ^ 63 - 1] = f64_of_Z (2 ^ 63 - 1) /\
  js_bigint_from_float64 (js_bigint_to_float64 [42]) = Ok (FromInteger [42]).
Proof.
  split.
  - apply (bigint_to_float64_correct [2 ^ 63 - 1]). now apply normalized_single.
  - apply (bigint_to_float64_correct [42]); [now apply normalized_single | vm_compute; discriminate].
Defined.

(** C30: [js_bigint_from_float64] returns the exact integer of every finite
    integral double, and tells apart the doubles that are not integers and
    those that are not finite; it never fails otherwise. *)
Theorem bigint_from_float64_correct u :
  in_u 64 u -> from_float64_ok u (js_bigint_from_float64 u).
Proof. apply from_float64_spec. Qed.

Lemma bigint_from_float64_correct_witness :
  js_bigint_from_float64 (f64_of_Z (10 ^ 22)) = Ok (FromInteger [1864712049423024128; 542]) /\
  from_float64_ok (f64_of_Z (10 ^ 22)) (js_bigint_from_float64 (f64_of_Z (10 ^ 22))).
Proof.
  split; [reflexivity|]. apply (bigint_from_float64_correct (f64_of_Z (10 ^ 22))).
  vm_compute. split; [discriminate | reflexivity].
Defined.

(** C31: the comparison of a BigInt with a double is the order of their exact
    values (2 for NaN), except that it is inverted when both are negative and
    their binary exponents differ: [js_bigint_float64_cmp] then returns the
    order of the magnitudes. *)
Theorem bigint_float64_cmp_exact a u :
  normalized a -> in_u 64 u ->
  js_bigint_float64_cmp a u =
  if cmp_inverted (bval a) u then - f64_compare (bval a) u else f64_compare (bval a) u.
Proof. apply float64_cmp_spec. Qed.

(** -1n is found smaller than -2.0. *)
Lemma bigint_float64_cmp_exact_witness :
  js_bigint_float64_cmp [LB - 1] (f64_of_Z (-2)) = -1 /\ f64_compare (-1) (f64_of_Z (-2)) = 1 /\
  js_bigint_float64_cmp [7] (f64_of_Z 9) = f64_compare 7 (f64_of_Z 9).
Proof.
  split; [reflexivity|]. split; [reflexivity|].
  rewrite (bigint_float64_cmp_exact [7] (f64_of_Z 9));
    [reflexivity | now apply normalized_single | vm_compute; split; [discriminate | reflexivity]].
Defined.
