(* ===== verification/BigIntPow.v ===== *)
(** * The size of BigInt powers: [src/core/quickjs.c], lines 11702 to 11777

    The limbs a BigInt needs, and when [js_bigint_pow] meets no limit of the
    allocation. *)

From Stdlib Require Import ZArith Lia Bool.
From stdpp Require Import base numbers list option.
From S2P Require Import Prelude Limbs BigInt.

#[local] Open Scope Z_scope.

(** ** Definitions *)

(** The number of limbs of the normalized BigInt of value [z], its sign bit
    included. *)
Definition limbs_needed (z : Z) : Z :=
  Z.log2 (2 * (if z <? 0 then Z.lnot z else z) + 1) / JS_LIMB_BITS + 1.

(** The absolute value, less one for a negative number *)
Definition magnitude (z : Z) : Z := if z <? 0 then Z.lnot z else z.

(** The power is two limbs away from the limit. *)
Definition pow_fits (x y : Z) : Prop := limbs_needed (x ^ y) + 2 <= JS_BIGINT_MAX_SIZE.

(** ** Bounds of the value *)

Lemma magnitude_bounds z : 0 <= magnitude z /\ Z.abs z - 1 <= magnitude z <= Z.abs z.
Proof. unfold magnitude, Z.lnot. destruct (Z.ltb_spec z 0); lia. Qed.

Lemma limbs_needed_eq z : limbs_needed z = Z.log2 (2 * magnitude z + 1) / 64 + 1.
Proof. reflexivity. Qed.

Lemma limbs_needed_pos z : 1 <= limbs_needed z.
Proof.
  rewrite limbs_needed_eq. pose proof (Z.log2_nonneg (2 * magnitude z + 1)).
  pose proof (Z.div_pos (Z.log2 (2 * magnitude z + 1)) 64 ltac:(lia) ltac:(lia)). lia.
Qed.

Lemma limbs_needed_upper z : 2 * magnitude z + 1 < 2 ^ (64 * limbs_needed z).
Proof.
  rewrite limbs_needed_eq. pose proof (magnitude_bounds z) as [H _]. set (v := 2 * magnitude z + 1).
  pose proof (Z.log2_spec v ltac:(lia)) as [_ Hu]. pose proof (Z.log2_nonneg v).
  pose proof (Z.div_mod (Z.log2 v) 64 ltac:(lia)). pose proof (Z.mod_pos_bound (Z.log2 v) 64 ltac:(lia)).
  eapply Z.lt_le_trans; [exact Hu|]. apply Z.pow_le_mono_r; lia.
Qed.

Lemma limbs_needed_lower z : 2 ^ (64 * (limbs_needed z - 1)) <= 2 * magnitude z + 1.
Proof.
  rewrite limbs_needed_eq. pose proof (magnitude_bounds z) as [H _]. set (v := 2 * magnitude z + 1).
  pose proof (Z.log2_spec v ltac:(lia)) as [Hl _]. pose proof (Z.log2_nonneg v).
  pose proof (Z.div_mod (Z.log2 v) 64 ltac:(lia)). pose proof (Z.mod_pos_bound (Z.log2 v) 64 ltac:(lia)).
  eapply Z.le_trans; [|exact Hl]. apply Z.pow_le_mono_r; lia.
Qed.

Lemma limbs_needed_mono u v : magnitude u <= magnitude v -> limbs_needed u <= limbs_needed v.
Proof.
  intros H. rewrite !limbs_needed_eq.
  assert (Z.log2 (2 * magnitude u + 1) <= Z.log2 (2 * magnitude v + 1)) as Hl by (apply Z.log2_le_mono; lia).
  apply (Z.div_le_mono _ _ 64) in Hl; lia.
Qed.

Lemma limbs_needed_length a : normalized a -> Z.of_nat (length a) <= limbs_needed (bval a).
Proof.
  intros Ha. pose proof (limbs_needed_pos (bval a)). destruct (snoc_inv a) as (l & v & E); [apply Ha|].
  destruct (decide (l = [])) as [->|Hl]; [apply (f_equal length) in E; cbn in E; lia|].
  pose proof (normalized_large a l v Ha E Hl) as HL.
  apply Z.nlt_ge. intros Hlt. assert (limbs_needed (bval a) <= Z.of_nat (length l)) as Hn by (apply (f_equal length) in E; rewrite length_app in E; cbn in E; lia).
  pose proof (limbs_needed_upper (bval a)) as Hu.
  assert (2 ^ (64 * limbs_needed (bval a)) <= Bp (length l)) as Hp by (rewrite Bp_pow; apply Z.pow_le_mono_r; lia).
  unfold magnitude, Z.lnot in Hu. destruct (Z.ltb_spec (bval a) 0); lia.
Qed.

(** *** Products and powers *)

Lemma limbs_needed_mul u v : u <> 0 -> v <> 0 -> limbs_needed u + limbs_needed v <= limbs_needed (u * v) + 2.
Proof.
  intros Hu Hv. apply Z.nlt_ge. intros Hlt.
  pose proof (limbs_needed_pos u). pose proof (limbs_needed_pos v). pose proof (limbs_needed_pos (u * v)).
  assert (forall z, z <> 0 -> 2 ^ (64 * (limbs_needed z - 1)) <= 2 * Z.abs z) as Hlow.
  { intros z Hz. pose proof (limbs_needed_lower z) as Hl. pose proof (magnitude_bounds z) as [_ Hm].
    pose proof (limbs_needed_pos z). destruct (Z.eq_dec (limbs_needed z) 1) as [->|]; [change (2 ^ (64 * (1 - 1))) with 1; lia|].
    replace (64 * (limbs_needed z - 1)) with (Z.succ (64 * (limbs_needed z - 1) - 1)) in * by lia.
    rewrite Z.pow_succ_r in * by lia. lia. }
  pose proof (Hlow u Hu) as Lu. pose proof (Hlow v Hv) as Lv. pose proof (limbs_needed_upper (u * v)) as Up.
  pose proof (magnitude_bounds (u * v)) as [_ Hm]. rewrite Z.abs_mul in Hm.
  set (n := limbs_needed u) in *. set (m := limbs_needed v) in *. set (k := limbs_needed (u * v)) in *.
  assert (2 ^ (64 * k) * 2 ^ 64 <= 2 ^ (64 * (n - 1)) * 2 ^ (64 * (m - 1))) as Hp
    by (rewrite <- !Z.pow_add_r by lia; apply Z.pow_le_mono_r; lia).
  assert (0 < 2 ^ (64 * k)) by (apply Z.pow_pos_nonneg; lia).
  assert (2 ^ (64 * (n - 1)) * 2 ^ (64 * (m - 1)) <= (2 * Z.abs u) * (2 * Z.abs v)) as Hq
    by (apply Z.mul_le_mono_nonneg; try (apply Z.pow_nonneg; lia); done).
  change (2 ^ 64) with 18446744073709551616 in Hp. nia.
Qed.

Lemma abs_pow_ge x k : 2 <= Z.abs x -> 0 <= k -> 2 ^ k <= Z.abs (x ^ k).
Proof. intros Hx Hk. rewrite Z.abs_pow. apply Z.pow_le_mono_l. lia. Qed.

Lemma pow_neq_0 x k : 2 <= Z.abs x -> 0 <= k -> x ^ k <> 0.
Proof. intros Hx Hk. apply Z.pow_nonzero; lia. Qed.

Lemma limbs_needed_pow_mono x j k : 2 <= Z.abs x -> 0 <= j <= k -> limbs_needed (x ^ j) <= limbs_needed (x ^ k).
Proof.
  intros Hx Hjk. destruct (Z.eq_dec j k) as [->|Hne]; [lia|]. apply limbs_needed_mono.
  pose proof (magnitude_bounds (x ^ j)) as [_ Hj]. pose proof (magnitude_bounds (x ^ k)) as [_ Hk].
  pose proof (pow_neq_0 x j Hx ltac:(lia)) as Hn. pose proof (abs_pow_ge x (k - j) Hx ltac:(lia)) as Hd.
  assert (2 ^ 1 <= 2 ^ (k - j)) as H2 by (apply Z.pow_le_mono_r; lia). change (2 ^ 1) with 2 in H2.
  replace (x ^ k) with (x ^ j * x ^ (k - j)) in Hk by (rewrite <- Z.pow_add_r by lia; f_equal; lia).
  rewrite Z.abs_mul in Hk. replace (x ^ k) with (x ^ j * x ^ (k - j)) by (rewrite <- Z.pow_add_r by lia; f_equal; lia). nia.
Qed.

Lemma limbs_needed_exponent x k : 2 <= Z.abs x -> 0 <= k -> k < 64 * limbs_needed (x ^ k).
Proof.
  intros Hx Hk. pose proof (limbs_needed_upper (x ^ k)) as Hu. pose proof (magnitude_bounds (x ^ k)) as [_ Hm].
  pose proof (abs_pow_ge x k Hx Hk) as Hp. pose proof (limbs_needed_pos (x ^ k)).
  assert (0 < 2 ^ k) by (apply Z.pow_pos_nonneg; lia).
  apply (Z.pow_lt_mono_r_iff 2); lia.
Qed.

(** ** [js_bigint_pow] *)

Lemma mul_fits a b x j k K :
  normalized a -> normalized b -> 2 <= Z.abs x -> 0 <= j -> 0 <= k -> j + k <= K -> pow_fits x K ->
  bval a = x ^ j -> bval b = x ^ k -> exists r, js_bigint_mul a b = Ok r /\ normalized r /\ bval r = x ^ (j + k).
Proof.
  intros Ha Hb Hx Hj Hk HK Hf Ea Eb. rewrite Z.pow_add_r by lia. rewrite <- Ea, <- Eb.
  apply mul_spec; [apply Ha | apply Hb|]. pose proof (limbs_needed_length a Ha) as La. pose proof (limbs_needed_length b Hb) as Lb.
  rewrite Ea in La. rewrite Eb in Lb.
  pose proof (limbs_needed_mul (x ^ j) (x ^ k) (pow_neq_0 x j Hx Hj) (pow_neq_0 x k Hx Hk)) as Hm. rewrite <- Z.pow_add_r in Hm by lia.
  pose proof (limbs_needed_pow_mono x (j + k) K Hx ltac:(lia)). unfold pow_fits in Hf. lia.
Qed.

Lemma pow_loop_fits i e a K : normalized a -> 2 <= Z.abs (bval a) -> 0 <= e -> pow_fits (bval a) K ->
  forall r k, normalized r -> bval r = bval a ^ k -> 0 <= k -> k * 2 ^ Z.of_nat i + e mod 2 ^ Z.of_nat i <= K ->
  exists r', pow_loop i e r a = Ok r'.
Proof.
  intros Ha Hx He HK. induction i as [|i IH]; intros r k Hr Er Hk Hle; cbn [pow_loop]; [eauto|].
  rewrite Nat2Z.inj_succ, Z.pow_succ_r in Hle by lia. set (p := 2 ^ Z.of_nat i) in *.
  assert (0 < p) as Hp by (apply Z.pow_pos_nonneg; lia).
  assert (e mod (2 * p) = Z.b2z (Z.testbit e (Z.of_nat i)) * p + e mod p) as Em.
  { rewrite Z.testbit_spec' by lia. fold p. rewrite (Z.mul_comm 2 p), Z.rem_mul_r by lia. ring. }
  pose proof (Z.mod_pos_bound e p Hp). pose proof (b2z_range (Z.testbit e (Z.of_nat i))). rewrite Em in Hle.
  destruct (mul_fits r r (bval a) k k K Hr Hr Hx Hk Hk) as (r1 & -> & H1 & E1); [nia | done..|]. cbn [res_bind].
  destruct (Z.testbit e (Z.of_nat i)); cbn [Z.b2z res_bind] in *.
  - destruct (mul_fits r1 a (bval a) (k + k) 1 K H1 Ha Hx) as (r2 & -> & H2 & E2); [lia | lia | nia | done | done | now rewrite Z.pow_1_r|].
    cbn [res_bind]. apply (IH r2 (k + k + 1)); auto; [lia | nia].
  - apply (IH r1 (k + k)); auto; [lia | nia].
Qed.

(** The exponent is small. *)
Lemma exponent_small x b : normalized b -> js_bigint_sign b = 0 -> 2 <= Z.abs x -> pow_fits x (bval b) ->
  (1 <? length b)%nat = false /\ (2 ^ 31 - 1 <? List.nth 0 b 0) = false /\ List.nth 0 b 0 = bval b.
Proof.
  intros Hb Es Hx Hf. assert (0 <= bval b) as H0 by (destruct (bval_sign b (proj1 Hb)) as [(? & ?)|(_ & ?)]; lia).
  pose proof (limbs_needed_exponent x (bval b) Hx H0) as He. unfold pow_fits, JS_BIGINT_MAX_SIZE, JS_LIMB_BITS in Hf.
  change (1024 * 1024 / 64) with 16384 in Hf. assert (length b <= 1)%nat as Hl.
  { destruct (le_gt_dec (length b) 1) as [|Hgt]; [done|]. exfalso. pose proof (limbs_needed_length b Hb) as Hn.
    pose proof (limbs_needed_lower (bval b)) as HL. pose proof (magnitude_bounds (bval b)) as [_ Hm].
    assert (2 ^ 64 <= 2 ^ (64 * (limbs_needed (bval b) - 1))) by (apply Z.pow_le_mono_r; lia).
    change (2 ^ 64) with 18446744073709551616 in *. lia. }
  rewrite (pow_exponent b) by auto. split_and!; [apply Nat.ltb_ge; lia | apply Z.ltb_ge; lia | done].
Qed.

Lemma pow_general_fits a b : normalized a -> normalized b -> js_bigint_sign b = 0 -> 0 < bval b -> 2 <= Z.abs (bval a) ->
  pow_fits (bval a) (bval b) -> exists r, js_bigint_pow_general a b = Ok r.
Proof.
  intros Ha Hb Es Hp Hx Hf. destruct (exponent_small (bval a) b Hb Es Hx Hf) as (E1 & E2 & E3).
  unfold js_bigint_pow_general. rewrite E1, E2, E3. set (e := bval b) in *.
  pose proof (limbs_needed_length a Ha) as La. pose proof (limbs_needed_pow_mono (bval a) 1 e Hx ltac:(lia)) as Lm. rewrite Z.pow_1_r in Lm.
  rewrite js_bigint_new_ok by (unfold pow_fits in Hf; lia). cbn [res_bind].
  pose proof (Z.log2_nonneg e). pose proof (Z.log2_spec e Hp) as [L1 L2]. rewrite Z.pow_succ_r in L2 by lia.
  apply (pow_loop_fits _ e _ e Ha Hx ltac:(lia) Hf a 1); [done | now rewrite Z.pow_1_r | lia|].
  rewrite Z2Nat.id by lia. replace (Z.log2 e + 1 - 1) with (Z.log2 e) by lia.
  assert (e mod 2 ^ Z.log2 e = e - 2 ^ Z.log2 e) as -> by (symmetry; apply Z.mod_unique with 1; [left|]; lia). lia.
Qed.

Lemma pow_two_fits n (is_neg : bool) b : 1 <= n < 64 -> normalized b -> js_bigint_sign b = 0 ->
  pow_fits (if is_neg then - 2 ^ n else 2 ^ n) (bval b) -> exists r, js_bigint_pow_two (2 ^ n) is_neg b = Ok r.
Proof.
  intros Hn Hb Es Hf. set (x := if is_neg then - 2 ^ n else 2 ^ n) in *.
  assert (2 ^ 1 <= 2 ^ n) as H2 by (apply Z.pow_le_mono_r; lia). change (2 ^ 1) with 2 in H2.
  assert (Z.abs x = 2 ^ n) as Ex by (subst x; destruct is_neg; lia).
  destruct (exponent_small x b Hb Es ltac:(lia) Hf) as (E1 & E2 & E3).
  unfold js_bigint_pow_two. rewrite E1, E2, E3.
  assert (JS_LIMB_BITS - 1 - js_limb_clz (2 ^ n) = n) as En.
  { unfold js_limb_clz, JS_LIMB_BITS. rewrite Z.log2_pow2 by lia. lia. }
  rewrite En. assert (0 <= bval b) as H0 by (destruct (bval_sign b (proj1 Hb)) as [(? & ?)|(_ & ?)]; lia).
  set (e := bval b) in *. assert (Z.abs (x ^ e) = 2 ^ (e * n)) as Ee by (rewrite Z.abs_pow, Ex, <- Z.pow_mul_r by lia; f_equal; lia).
  pose proof (limbs_needed_upper (x ^ e)) as Hu. pose proof (magnitude_bounds (x ^ e)) as [_ Hm]. pose proof (limbs_needed_pos (x ^ e)).
  unfold pow_fits in Hf. assert (e * n < 64 * limbs_needed (x ^ e)) as Hb2.
  { assert (0 < 2 ^ (e * n)) by (apply Z.pow_pos_nonneg; nia). apply (Z.pow_lt_mono_r_iff 2); lia. }
  unfold JS_LIMB_BITS in *. destruct (Z.ltb_spec (JS_BIGINT_MAX_SIZE * 64) (e * n)); [lia|]. cbv zeta.
  set (ng := if is_neg then Z.land e 1 else 0).
  assert (0 <= ng) as Hng by (subst ng; destruct is_neg; [apply Z.land_nonneg; lia | lia]).
  assert ((e * n + 64 + 1 - ng) / 64 <= limbs_needed (x ^ e) + 1) as Hlen.
  { transitivity ((64 * (limbs_needed (x ^ e) + 1)) / 64); [apply Z.div_le_mono; lia|]. rewrite Z.mul_comm, Z.div_mul by lia. lia. }
  rewrite js_bigint_new_ok by lia. cbn [res_bind]. eauto.
Qed.

(** The sign and the magnitude of a limb other than 0, 1 and -1 *)
Lemma limb_magnitude x : limb x -> 1 < x -> x <> LB - 1 ->
  let v := if i64 x <? 0 then u64 (- x) else x in bval [x] = (if i64 x <? 0 then - v else v) /\ 1 < v < LB.
Proof.
  intros Hx H1 H2. pose proof (bval_single x Hx) as Ex. rewrite shiftr63 in Ex by done. cbv zeta.
  destruct Hx as [H3 H4]. unfold sgn. change (2 ^ (64 - 1)) with 9223372036854775808. change (LB / 2) with 9223372036854775808 in Ex.
  change (2 ^ 64) with LB. destruct (Z.leb_spec 9223372036854775808 x).
  - replace ((x + 9223372036854775808) mod LB) with (x - 9223372036854775808) by (apply Z.mod_unique with 1; lia).
    destruct (Z.ltb_spec (x - 9223372036854775808 - 9223372036854775808) 0); [|lia].
    rewrite (wrap_unique 64 (- x) (LB - x) (-1)) by (unfold in_u; change (2 ^ 64) with LB; lia). lia.
  - rewrite Z.mod_small by lia. destruct (Z.ltb_spec (x + 9223372036854775808 - 9223372036854775808) 0); lia.
Qed.

Lemma pow_total a b : normalized a -> normalized b -> 0 <= bval b -> pow_fits (bval a) (bval b) -> exists r, js_bigint_pow a b = Ok r.
Proof.
  intros Ha Hb Hp Hf. unfold js_bigint_pow. destruct (bval_sign b (proj1 Hb)) as [(? & ?)|(Es & _)]; [lia|]. rewrite Es. cbn [Z.eqb negb].
  assert (forall z, exists r, js_bigint_new_si z = Ok r) as Hsi by (intros z; unfold js_bigint_new_si; rewrite js_bigint_new_ok by (vm_compute; discriminate); cbn; eauto).
  destruct (_ && _) eqn:Ez; [apply Hsi|]. assert (bval b <> 0) as Hb0.
  { intros E0. apply normalized_zero in E0; [|done]. rewrite E0 in Ez. discriminate. }
  destruct (Nat.eqb_spec (length a) 1) as [Hl|Hl].
  - destruct a as [|x [|? ?]]; try discriminate. cbn [List.nth]. pose proof Ha as [[Hx _] _]. apply Forall_inv in Hx.
    destruct (Z.leb_spec x 1) as [H1|H1]; [apply Hsi|]. destruct (Z.eqb_spec x (LB - 1)) as [|H2]; [apply Hsi|].
    pose proof (limb_magnitude x Hx H1 H2) as [Ev Hv]. cbv zeta in *. set (v := if i64 x <? 0 then u64 (- x) else x) in *.
    rewrite (u64_small (v - 1)) by (unfold limb; lia). destruct (Z.eqb_spec (Z.land v (v - 1)) 0) as [Ep|_].
    + apply pow2_of_land in Ep; [|lia]. rewrite Ep. pose proof (Z.log2_pos v ltac:(lia)).
      assert (Z.log2 v < 64) by (apply Z.log2_lt_pow2; [lia | exact (proj2 Hv)]).
      apply pow_two_fits; [lia | done | done |]. rewrite <- Ep, <- Ev. exact Hf.
    + apply pow_general_fits; try done; [lia|]. rewrite Ev. destruct (i64 x <? 0); lia.
  - apply pow_general_fits; try done; [lia|]. destruct (snoc_inv a) as (l & v & E); [apply Ha|].
    assert (l <> []) as Hne by (intros ->; apply Hl; now rewrite E). pose proof (normalized_large a l v Ha E Hne) as HL.
    assert (1 <= length l)%nat as Hl1 by (destruct l; [done | cbn; lia]).
    assert (2 ^ 64 <= Bp (length l)) as HB by (rewrite Bp_pow; apply Z.pow_le_mono_r; lia). change (2 ^ 64) with 18446744073709551616 in HB. lia.
Qed.
