(* ===== verification/BigIntOps.v ===== *)
(** * The BigInt operators of the interpreter: [src/core/quickjs.c], lines 12325
      to 12335, 14183 to 14211, 14325 to 15070 and 55593 to 55654

    The slow paths of the arithmetic, bitwise, shift and comparison operators.
    A BigInt value is a short one (an [int64_t] in the value) or a limb array;
    the operators mix the two with fast paths on 128-bit integers, and
    [JS_CompactBigInt] keeps a value that fits short.  The abstract
    specification is the integer function of the operator. *)

From Stdlib Require Import ZArith Lia Bool Zquot.
From stdpp Require Import base numbers list option strings.
From S2P Require Import Prelude Limbs BigInt Numeric BigIntFloat BigIntPow.

#[local] Open Scope Z_scope.

(** ** Definitions *)

Definition js_bigint_set_short (v : Z) : list Z := [u64 v].

Definition JS_CompactBigInt (p : list Z) : prim :=
  if (length p =? 1)%nat then JS_TAG_SHORT_BIG_INT (i64 (List.nth 0 p 0)) else JS_TAG_BIG_INT p.

Definition JS_NewBigInt64 (v : Z) : prim := JS_TAG_SHORT_BIG_INT v.

Definition JS_NewBigUint64 (v : Z) : res prim :=
  if v <=? INT64_MAX then Ok (JS_TAG_SHORT_BIG_INT v)
  else let? p := js_bigint_new_ui64 v in Ok (JS_TAG_BIG_INT p).

(** An int when it fits, a double otherwise. *)
Definition JS_NewInt64 (v : Z) : prim :=
  if v =? i32 v then JS_TAG_INT v else JS_TAG_FLOAT64 (f64_of_Z v).

Definition float64_neg_zero : prim := JS_TAG_FLOAT64 (2 ^ 63).

Inductive arith_op : Type := OP_add | OP_sub | OP_mul | OP_div | OP_mod | OP_pow.
Inductive unary_op : Type := OP_inc | OP_dec | OP_plus | OP_neg.
Inductive binlogic_op : Type := OP_logic (op : logic_op) | OP_shl | OP_sar.
Inductive compare_op : Type := OP_lt | OP_lte | OP_gt | OP_gte | OP_eq.

(** A result: a value, the string concatenation or the double arithmetic on the
    converted operands that remains to be done (by [JS_ConcatString], by the
    machine or by the C library). *)
Inductive numeric_result : Type :=
| Value (p : prim)
| ConcatString (a b : prim)
| F64Op (op : arith_op) (a b : prim).

Definition abort {A} : res A := Throw (InternalError "abort").

(** The operand of a BigInt operation: [js_bigint_set_short] or the pointer. *)
Definition bigint_operand (p : prim) : option (list Z) :=
  match p with
  | JS_TAG_SHORT_BIG_INT v => Some (js_bigint_set_short v)
  | JS_TAG_BIG_INT tab => Some tab
  | _ => None
  end.

(** [JS_ToBigIntBuf]: also an int. *)
Definition JS_ToBigIntBuf (p : prim) : option (list Z) :=
  match p with
  | JS_TAG_INT v => Some (js_bigint_set_si v)
  | _ => bigint_operand p
  end.

Definition bigint_arith (op : arith_op) (p1 p2 : list Z) : res (list Z) :=
  match op with
  | OP_add => js_bigint_add p1 p2 0
  | OP_sub => js_bigint_add p1 p2 1
  | OP_mul => js_bigint_mul p1 p2
  | OP_div => js_bigint_divrem p1 p2 false
  | OP_mod => js_bigint_divrem p1 p2 true
  | OP_pow => js_bigint_pow p1 p2
  end.

Definition compact_result (r : res (list Z)) : res numeric_result :=
  let? r := r in Ok (Value (JS_CompactBigInt r)).

(** A 128-bit result: short if it fits, two limbs otherwise. *)
Definition short_result (v : Z) : res numeric_result :=
  if (INT64_MIN <=? v) && (v <=? INT64_MAX) then Ok (Value (JS_TAG_SHORT_BIG_INT v))
  else let? r := js_bigint_new_di v in Ok (Value (JS_TAG_BIG_INT r)).

(** The fast path on two short BigInts; [None] is [goto slow_big_int]. *)
Definition short_arith (op : arith_op) (v1 v2 : Z) : option (res numeric_result) :=
  let div_slow := (v2 =? 0) || ((u64 v1 =? u64 (Z.shiftl 1 (JS_LIMB_BITS - 1))) && (v2 =? -1)) in
  match op with
  | OP_add => Some abort
  | OP_sub => Some (short_result (v1 - v2))
  | OP_mul => Some (short_result (v1 * v2))
  | OP_div => if div_slow then None else Some (Ok (Value (JS_TAG_SHORT_BIG_INT (Z.quot v1 v2))))
  | OP_mod => if div_slow then None else Some (Ok (Value (JS_TAG_SHORT_BIG_INT (Z.rem v1 v2))))
  | OP_pow => None
  end.

Definition int_arith (op : arith_op) (v1 v2 : Z) : res numeric_result :=
  let fop := Ok (F64Op op (JS_TAG_INT v1) (JS_TAG_INT v2)) in
  match op with
  | OP_add => abort
  | OP_sub => Ok (Value (JS_NewInt64 (v1 - v2)))
  | OP_mul =>
      let v := v1 * v2 in
      if (v =? 0) && (Z.lor v1 v2 <? 0) then Ok (Value float64_neg_zero)
      else Ok (Value (JS_NewInt64 v))
  | OP_mod => if (v1 <? 0) || (v2 <=? 0) then fop else Ok (Value (JS_NewInt64 (Z.rem v1 v2)))
  | OP_div | OP_pow => fop
  end.

Section Operators.
Context (to_primitive : Z -> res prim) (string_to_number : string -> res prim).
Abbreviation ToNumeric := (JS_ToNumericFree to_primitive string_to_number).
Abbreviation ToNumber := (JS_ToNumberFree to_primitive string_to_number).
Abbreviation ToInt32 := (JS_ToInt32Free to_primitive string_to_number).

(** The operands are converted in order; the double arithmetic is on the
    numbers ([JS_ToFloat64Free] raises a [TypeError] on a BigInt). *)
Definition float64_result (op : arith_op) (op1 op2 : prim) : res numeric_result :=
  let? d1 := ToNumber (Prim op1) in
  let? d2 := ToNumber (Prim op2) in
  Ok (F64Op op d1 d2).

Definition js_binary_arith_slow (op1 op2 : JSValue) (op : arith_op) : res numeric_result :=
  let slow (op1 op2 : prim) :=
    match op1, op2 with
    | JS_TAG_INT v1, JS_TAG_INT v2 => int_arith op v1 v2
    | _, _ =>
        match bigint_operand op1, bigint_operand op2 with
        | Some p1, Some p2 => compact_result (bigint_arith op p1 p2)
        | _, _ => float64_result op op1 op2
        end
    end in
  let general :=
    let? op1 := ToNumeric op1 in
    let? op2 := ToNumeric op2 in
    slow op1 op2 in
  match op1, op2 with
  | Prim (JS_TAG_FLOAT64 d1), Prim (JS_TAG_FLOAT64 d2) =>
      Ok (F64Op op (JS_TAG_FLOAT64 d1) (JS_TAG_FLOAT64 d2))
  | Prim (JS_TAG_SHORT_BIG_INT v1), Prim (JS_TAG_SHORT_BIG_INT v2) =>
      match short_arith op v1 v2 with
      | Some r => r
      | None => slow (JS_TAG_SHORT_BIG_INT v1) (JS_TAG_SHORT_BIG_INT v2)
      end
  | _, _ => general
  end.

(** [to_primitive_none] is [JS_ToPrimitiveFree] with [HINT_NONE]. *)
Definition js_add_slow (to_primitive_none : Z -> res prim) (op1 op2 : JSValue) : res numeric_result :=
  let prim_of v := match v with Prim p => Ok p | JS_TAG_OBJECT id => to_primitive_none id end in
  let general :=
    let? op1 := prim_of op1 in
    let? op2 := prim_of op2 in
    match op1, op2 with
    | JS_TAG_STRING _, _ | _, JS_TAG_STRING _ => Ok (ConcatString op1 op2)
    | _, _ =>
        let? op1 := ToNumeric (Prim op1) in
        let? op2 := ToNumeric (Prim op2) in
        match op1, op2 with
        | JS_TAG_INT v1, JS_TAG_INT v2 => Ok (Value (JS_NewInt64 (v1 + v2)))
        | _, _ =>
            match bigint_operand op1, bigint_operand op2 with
            | Some p1, Some p2 => compact_result (js_bigint_add p1 p2 0)
            | _, _ => float64_result OP_add op1 op2
            end
        end
    end in
  match op1, op2 with
  | Prim (JS_TAG_FLOAT64 d1), Prim (JS_TAG_FLOAT64 d2) =>
      Ok (F64Op OP_add (JS_TAG_FLOAT64 d1) (JS_TAG_FLOAT64 d2))
  | Prim (JS_TAG_SHORT_BIG_INT v1), Prim (JS_TAG_SHORT_BIG_INT v2) => short_result (v1 + v2)
  | _, _ => general
  end.

Definition js_unary_arith_slow (op1 : JSValue) (op : unary_op) : res numeric_result :=
  let? op1 := match op1 with Prim (JS_TAG_FLOAT64 d) => Ok (JS_TAG_FLOAT64 d) | _ => ToNumeric op1 end in
  let big p1 :=
    match op with
    | OP_plus => Throw (TypeError "bigint argument with unary +")
    | OP_inc => compact_result (js_bigint_add p1 (js_bigint_set_si 1) 0)
    | OP_dec => compact_result (js_bigint_add p1 (js_bigint_set_si (-1)) 0)
    | OP_neg => compact_result (js_bigint_neg p1)
    end in
  match op1 with
  | JS_TAG_INT v64 =>
      match op with
      | OP_inc => Ok (Value (JS_NewInt64 (v64 + 1)))
      | OP_dec => Ok (Value (JS_NewInt64 (v64 + -1)))
      | OP_plus => Ok (Value (JS_NewInt64 v64))
      | OP_neg => if v64 =? 0 then Ok (Value float64_neg_zero) else Ok (Value (JS_NewInt64 (- v64)))
      end
  | JS_TAG_SHORT_BIG_INT v =>
      match op with
      | OP_plus => Throw (TypeError "bigint argument with unary +")
      | OP_inc => if v =? INT64_MAX then big (js_bigint_set_short v)
                  else Ok (Value (JS_TAG_SHORT_BIG_INT (v + 1)))
      | OP_dec => if v =? INT64_MIN then big (js_bigint_set_short v)
                  else Ok (Value (JS_TAG_SHORT_BIG_INT (v - 1)))
      | OP_neg => if v =? INT64_MIN then big (js_bigint_set_short v)
                  else Ok (Value (JS_TAG_SHORT_BIG_INT (- v)))
      end
  | JS_TAG_BIG_INT tab => big tab
  | JS_TAG_FLOAT64 d =>
      match op with
      | OP_inc => Ok (F64Op OP_add (JS_TAG_FLOAT64 d) (JS_TAG_INT 1))
      | OP_dec => Ok (F64Op OP_add (JS_TAG_FLOAT64 d) (JS_TAG_INT (-1)))
      | OP_plus => Ok (Value (JS_TAG_FLOAT64 d))
      | OP_neg => Ok (Value (JS_TAG_FLOAT64 (Z.lxor d (2 ^ 63))))
      end
  | _ => abort
  end.

Definition js_not_slow (op1 : JSValue) : res prim :=
  let? op1 := ToNumeric op1 in
  match op1 with
  | JS_TAG_SHORT_BIG_INT v => Ok (JS_TAG_SHORT_BIG_INT (Z.lnot v))
  | JS_TAG_BIG_INT tab => let? r := js_bigint_not tab in Ok (JS_CompactBigInt r)
  | _ => let? v1 := ToInt32 (Prim op1) in Ok (JS_TAG_INT (Z.lnot v1))
  end.

(** The fast path on two short BigInts; [None] is [goto slow_big_int]. *)
Definition short_logic (op : binlogic_op) (v1 v2 : Z) : option (res numeric_result) :=
  let sar v2 := Ok (Value (JS_TAG_SHORT_BIG_INT (Z.shiftr v1 v2))) in
  let shl v2 := short_result (sgn 128 (u128 (Z.shiftl v1 v2))) in
  let shift pos neg :=
    if JS_LIMB_BITS - 1 <? v2 then None
    else if v2 <? 0 then
      if v2 <? - (JS_LIMB_BITS - 1) then None else Some (neg (- v2))
    else Some (pos v2) in
  match op with
  | OP_logic op => Some (Ok (Value (JS_TAG_SHORT_BIG_INT (logic_fn op v1 v2))))
  | OP_sar => shift sar shl
  | OP_shl => shift shl sar
  end.

(** The shift count saturated to 32 bits. *)
Definition shift_count (op : binlogic_op) (p2 : list Z) : Z :=
  let shift := js_bigint_get_si_sat p2 in
  let shift := if INT32_MAX <? shift then INT32_MAX
               else if shift <? - INT32_MAX then - INT32_MAX else shift in
  match op with OP_sar => - shift | _ => shift end.

Definition bigint_logic (op : binlogic_op) (p1 p2 : list Z) : res (list Z) :=
  match op with
  | OP_logic op => js_bigint_logic p1 p2 op
  | _ =>
      let shift := shift_count op p2 in
      if 0 <=? shift then js_bigint_shl p1 shift else js_bigint_shr p1 (- shift)
  end.

(** [v1] and [v2] are [uint32_t]. *)
Definition int_logic (op : binlogic_op) (v1 v2 : Z) : Z :=
  match op with
  | OP_logic op => logic_fn op v1 v2
  | OP_shl => u32 (Z.shiftl v1 (Z.land v2 31))
  | OP_sar => u32 (Z.shiftr (i32 v1) (Z.land v2 31))
  end.

Definition js_binary_logic_slow (op1 op2 : JSValue) (op : binlogic_op) : res numeric_result :=
  let slow (op1 op2 : prim) :=
    match bigint_operand op1, bigint_operand op2 with
    | Some p1, Some p2 => compact_result (bigint_logic op p1 p2)
    | _, _ =>
        let? v1 := ToInt32 (Prim op1) in
        let? v2 := ToInt32 (Prim op2) in
        Ok (Value (JS_TAG_INT (i32 (int_logic op (u32 v1) (u32 v2)))))
    end in
  match op1, op2 with
  | Prim (JS_TAG_SHORT_BIG_INT v1), Prim (JS_TAG_SHORT_BIG_INT v2) =>
      match short_logic op v1 v2 with
      | Some r => r
      | None => slow (JS_TAG_SHORT_BIG_INT v1) (JS_TAG_SHORT_BIG_INT v2)
      end
  | _, _ =>
      let? op1 := ToNumeric op1 in
      let? op2 := ToNumeric op2 in
      slow op1 op2
  end.
End Operators.

Definition compare_result (op : compare_op) (val : Z) : bool :=
  match op with
  | OP_lt => val <? 0 | OP_lte => val <=? 0 | OP_gt => 0 <? val | OP_gte => 0 <=? val | OP_eq => val =? 0
  end.

Definition short_or_int (p : prim) : option Z :=
  match p with JS_TAG_INT v | JS_TAG_SHORT_BIG_INT v => Some v | _ => None end.

(** The operands are numeric and at least one is a BigInt. *)
Definition js_compare_bigint (op : compare_op) (op1 op2 : prim) : res bool :=
  let finish val := Ok (compare_result op val) in
  match short_or_int op1, short_or_int op2 with
  | Some v1, Some v2 => finish (b2z (v2 <? v1) - b2z (v1 <? v2))
  | _, _ =>
      match op1, op2 with
      | JS_TAG_FLOAT64 d, _ =>
          match JS_ToBigIntBuf op2 with
          | Some p2 =>
              let val := js_bigint_float64_cmp p2 d in
              if val =? 2 then Ok false else finish (- val)
          | None => abort
          end
      | _, JS_TAG_FLOAT64 d =>
          match JS_ToBigIntBuf op1 with
          | Some p1 =>
              let val := js_bigint_float64_cmp p1 d in
              if val =? 2 then Ok false else finish val
          | None => abort
          end
      | _, _ =>
          match JS_ToBigIntBuf op1, JS_ToBigIntBuf op2 with
          | Some p1, Some p2 => finish (js_bigint_cmp p1 p2)
          | _, _ => abort
          end
      end
  end.

(** [BigInt.asUintN] and [asIntN] on a converted count and BigInt. *)
Definition js_bigint_asUintN (bits : Z) (a : prim) (asIntN : bool) : res prim :=
  if bits =? 0 then Ok (JS_TAG_SHORT_BIG_INT 0)
  else
    match a with
    | JS_TAG_SHORT_BIG_INT v =>
        if 64 <=? bits then Ok a
        else
          let shift := 64 - bits in
          let v := u64 (Z.shiftl (u64 v) shift) in
          let v := if asIntN then u64 (Z.shiftr (i64 v) shift) else Z.shiftr v shift in
          Ok (JS_TAG_SHORT_BIG_INT (i64 v))
    | JS_TAG_BIG_INT p =>
        if Z.of_nat (length p) * JS_LIMB_BITS <=? bits then Ok a
        else
          let len := Z.to_nat ((bits + JS_LIMB_BITS - 1) / JS_LIMB_BITS) in
          let? _ := js_bigint_new len in
          let shift := Z.land (- bits) (JS_LIMB_BITS - 1) in
          let v := u64 (Z.shiftl (List.nth (len - 1) p 0) shift) in
          let v := if asIntN then u64 (Z.shiftr (i64 v) shift) else Z.shiftr v shift in
          Ok (JS_CompactBigInt (js_bigint_normalize (take (len - 1) p ++ [v])))
    | _ => abort
    end.

(** ** The abstract specification *)

(** The integer a BigInt value denotes. *)
Definition bigint_of (p : prim) : option Z :=
  match p with
  | JS_TAG_SHORT_BIG_INT v => Some v
  | JS_TAG_BIG_INT tab => Some (bval tab)
  | _ => None
  end.

(** The representation invariant: a limb array is normalized and is used only
    for the integers that do not fit a short BigInt. *)
Definition num_ok (p : prim) : Prop :=
  prim_ok p /\ match p with JS_TAG_BIG_INT tab => normalized tab /\ (2 <= length tab)%nat | _ => True end.

Definition arith_spec (op : arith_op) (x y : Z) : option Z :=
  match op with
  | OP_add => Some (x + y)
  | OP_sub => Some (x - y)
  | OP_mul => Some (x * y)
  | OP_div => if y =? 0 then None else Some (Z.quot x y)
  | OP_mod => if y =? 0 then None else Some (Z.rem x y)
  | OP_pow => if y <? 0 then None else Some (x ^ y)
  end.

Definition arith_error (op : arith_op) : exn :=
  match op with
  | OP_pow => RangeError "BigInt negative exponent"
  | _ => RangeError "BigInt division by zero"
  end.

Definition binlogic_spec (op : binlogic_op) (x y : Z) : Z :=
  match op with
  | OP_logic op => logic_fn op x y
  | OP_shl => Z.shiftl x y
  | OP_sar => Z.shiftr x y
  end.

(** No allocation limit is met with operands [x] and [y] of [na] and [nb] limbs:
    the sum, product or quotient is within the limit, and the power two limbs
    from it. *)
Definition arith_fits (op : arith_op) (na nb : nat) (x y : Z) : Prop :=
  match op with
  | OP_add | OP_sub => Z.of_nat (Nat.max na nb) <= JS_BIGINT_MAX_SIZE
  | OP_mul => Z.of_nat (na + nb) <= JS_BIGINT_MAX_SIZE
  | OP_div | OP_mod => Z.of_nat (na + 2) <= JS_BIGINT_MAX_SIZE
  | OP_pow => pow_fits x y
  end.

Definition size_error (e : exn) : Prop := e = too_large_to_allocate \/ e = pow_overflow.

(** A BigInt computation gives the normalized [z], or runs into the size limit
    when [fits] does not hold. *)
Definition yields (fits : Prop) (o : res (list Z)) (z : Z) : Prop :=
  match o with
  | Ok r => normalized r /\ bval r = z
  | Throw e => size_error e /\ ~ fits
  end.

Definition yields_value (fits : Prop) (o : res numeric_result) (z : Z) : Prop :=
  match o with
  | Ok (Value r) => num_ok r /\ bigint_of r = Some z
  | Ok _ => False
  | Throw e => size_error e /\ ~ fits
  end.

(** ** Short and long BigInts *)

Lemma in_s64_iff v : in_s 64 v <-> INT64_MIN <= v <= INT64_MAX.
Proof.
  unfold in_s, INT64_MIN, INT64_MAX. change (2 ^ (64 - 1)) with 9223372036854775808.
  change (2 ^ 63) with 9223372036854775808. lia.
Qed.

Lemma set_short_spec v : in_s 64 v -> normalized (js_bigint_set_short v) /\ bval (js_bigint_set_short v) = v.
Proof. intros H. exact (proj2 (new_si_spec v H)). Qed.

Lemma operand_spec p z :
  num_ok p -> bigint_of p = Some z ->
  exists a, bigint_operand p = Some a /\ normalized a /\ bval a = z.
Proof.
  intros [Hp Hb] E. destruct p; try discriminate; injection E as <-; eexists; (split; [reflexivity|]).
  - now apply set_short_spec.
  - tauto.
Qed.

Lemma compact_spec r :
  normalized r -> num_ok (JS_CompactBigInt r) /\ bigint_of (JS_CompactBigInt r) = Some (bval r).
Proof.
  intros Hr. unfold JS_CompactBigInt. pose proof (wf_length r (proj1 Hr)).
  destruct (Nat.eqb_spec (length r) 1) as [H1|H1].
  - destruct r as [|x [|? ?]]; try discriminate. cbn [List.nth bigint_of].
    split; [split; [now apply sgn_range | done]|]. f_equal.
    destruct Hr as [[Hx _] _]. apply Forall_inv in Hx. rewrite bval_single, shiftr63 by done.
    rewrite (sgn_of_unsigned 64 x ltac:(lia) Hx). change (2 ^ (64 - 1)) with (LB / 2). change (2 ^ 64) with LB.
    destruct (LB / 2 <=? x); lia.
  - split; [split; [done | split; [done | lia]] | done].
Qed.

Lemma compact_yields fits o z : yields fits o z -> yields_value fits (compact_result o) z.
Proof.
  unfold yields, compact_result. destruct o as [r|e]; cbn [res_bind yields_value]; [|done].
  intros [Hr <-]. now apply compact_spec.
Qed.

(** Every long BigInt is outside the range of the short ones. *)
Lemma long_not_short tab : normalized tab -> (2 <= length tab)%nat -> ~ in_s 64 (bval tab).
Proof.
  intros Hn Hl Hs. destruct (set_short_spec _ Hs) as [Hn' E].
  apply normalized_inj in E; auto. rewrite <- E in Hl. cbn in Hl. lia.
Qed.

Lemma new_di_spec v :
  in_s 128 v -> ~ in_s 64 v ->
  exists r, js_bigint_new_di v = Ok r /\ normalized r /\ (length r = 2)%nat /\ bval r = v.
Proof.
  intros Hv Hn. unfold js_bigint_new_di. destruct (Z.eqb_spec v (i64 v)) as [E|_].
  { exfalso. apply Hn. rewrite E. now apply sgn_range. }
  rewrite js_bigint_new_ok by (vm_compute; discriminate). eexists. split; [reflexivity|].
  unfold in_s in Hv. change (2 ^ (128 - 1)) with (LB * 9223372036854775808) in Hv.
  unfold JS_LIMB_BITS. rewrite Z.shiftr_div_pow2 by lia. change (2 ^ 64) with LB.
  pose proof (Z.div_mod v LB ltac:(lia)) as Ed. pose proof (Z.mod_pos_bound v LB eq_refl).
  assert (in_s 64 (v / LB)) as Hd.
  { split; [apply Z.div_le_lower_bound | apply Z.div_lt_upper_bound];
      change (2 ^ (64 - 1)) with 9223372036854775808; lia. }
  destruct (set_short_spec _ Hd) as [Hw E]. unfold js_bigint_set_short in *.
  change (u64 v) with (v mod LB). assert (limb (v mod LB)) as Hlo by done.
  assert (bval [v mod LB; u64 (v / LB)] = v) as EV by (rewrite bval_cons, E by apply Hw; lia).
  assert (limb (u64 (v / LB))) as Hhi by apply u64_limb. set (hi := u64 (v / LB)) in *. clearbody hi.
  split_and!; [|reflexivity | exact EV]. split; [apply (wf_snoc [v mod LB]); [constructor; [done | constructor] | done]|].
  intros l lo t El. destruct l as [|? l].
  2:{ apply (f_equal length) in El. cbn in El. rewrite length_app in El. cbn in El. lia. }
  injection El as <- <-. destruct (redundant _ _) eqn:Er; [|done]. exfalso. apply Hn.
  apply (redundant_spec [] _ _ Hlo Hhi) in Er. cbn [app] in Er. rewrite EV in Er. rewrite Er.
  destruct (bval_range [v mod LB]) as [R1 R2]; [now apply (wf_snoc [])|]. cbn [length] in R1, R2.
  rewrite Bp_1 in R1, R2. unfold in_s. change (2 ^ (64 - 1)) with 9223372036854775808. lia.
Qed.

Lemma short_result_spec v fits :
  in_s 128 v -> yields_value fits (short_result v) v.
Proof.
  intros Hv. unfold short_result. destruct (Z.leb_spec INT64_MIN v), (Z.leb_spec v INT64_MAX); cbn [andb].
  1: cbn; split; [split; [now apply in_s64_iff | done] | done].
  all: destruct (new_di_spec v Hv) as (r & -> & Hr & Hl & Er); [rewrite in_s64_iff; lia|];
    cbn; rewrite Er; split; [split; [done | split; [done | lia]] | done].
Qed.

(** ** The arithmetic operators *)

Lemma js_bigint_new_cases n :
  (js_bigint_new n = Ok tt /\ Z.of_nat n <= JS_BIGINT_MAX_SIZE) \/
  (js_bigint_new n = Throw too_large_to_allocate /\ JS_BIGINT_MAX_SIZE < Z.of_nat n).
Proof. unfold js_bigint_new. destruct (Z.ltb_spec JS_BIGINT_MAX_SIZE (Z.of_nat n)); auto. Qed.

Lemma yields_of_exists (fits : Prop) o z :
  (fits -> exists r, o = Ok r /\ normalized r /\ bval r = z) ->
  fits \/ (~ fits /\ o = Throw too_large_to_allocate) -> yields fits o z.
Proof.
  intros H [Hf|[Hf ->]]; cbn; [|split; [now left | done]].
  destruct (H Hf) as (r & -> & ?). done.
Qed.

Lemma add_yields a b b_neg :
  wf a -> wf b -> b_neg = 0 \/ b_neg = 1 ->
  yields (Z.of_nat (Nat.max (length a) (length b)) <= JS_BIGINT_MAX_SIZE)
    (js_bigint_add a b b_neg) (if b_neg =? 0 then bval a + bval b else bval a - bval b).
Proof.
  intros Ha Hb Hn. apply yields_of_exists; [now apply add_spec|]. unfold js_bigint_add.
  destruct (js_bigint_new_cases (Nat.max (length a) (length b))) as [[_ ?]|[-> ?]]; [now left | right].
  split; [lia | done].
Qed.

Lemma mul_yields a b :
  wf a -> wf b ->
  yields (Z.of_nat (length a + length b) <= JS_BIGINT_MAX_SIZE) (js_bigint_mul a b) (bval a * bval b).
Proof.
  intros Ha Hb. apply yields_of_exists; [now apply mul_spec|]. unfold js_bigint_mul.
  destruct (js_bigint_new_cases (length a + length b)) as [[_ ?]|[-> ?]]; [now left | right].
  split; [lia | done].
Qed.

Lemma divrem_yields a b is_rem :
  normalized a -> normalized b -> bval b <> 0 ->
  yields (Z.of_nat (length a + 2) <= JS_BIGINT_MAX_SIZE) (js_bigint_divrem a b is_rem)
    ((if is_rem then Z.rem else Z.quot) (bval a) (bval b)).
Proof.
  intros Ha Hb Hne. apply yields_of_exists.
  { intros Hf. destruct (divrem_spec a b is_rem (proj1 Ha) Hb Hne Hf) as (r & ? & ? & ?). eauto. }
  unfold js_bigint_divrem. rewrite is_zero_spec, (proj2 (Z.eqb_neq _ _) Hne) by done.
  destruct (js_bigint_new_cases (length a + 2)) as [[_ ?]|[-> ?]]; [now left | right].
  split; [lia | done].
Qed.

(** The exceptions that exponentiation can end with. *)
Lemma mul_throw a b e : js_bigint_mul a b = Throw e -> size_error e.
Proof.
  unfold js_bigint_mul. destruct (js_bigint_new_cases (length a + length b)) as [[-> _]|[-> _]];
    cbn; [discriminate|]. intros [= <-]. now left.
Qed.

Lemma pow_loop_throw i e r a x : pow_loop i e r a = Throw x -> size_error x.
Proof.
  revert r. induction i as [|i IH]; intros r E; cbn [pow_loop] in E; [discriminate|].
  destruct (js_bigint_mul r r) as [r1|x1] eqn:E1; cbn [res_bind] in E.
  - destruct (Z.testbit e (Z.of_nat i)).
    + destruct (js_bigint_mul r1 a) as [r2|x2] eqn:E2; cbn [res_bind] in E; [eauto|].
      injection E as <-. eauto using mul_throw.
    + cbn [res_bind] in E. eauto.
  - injection E as <-. eauto using mul_throw.
Qed.

Lemma pow_general_throw a b x : js_bigint_pow_general a b = Throw x -> size_error x.
Proof.
  unfold js_bigint_pow_general. destruct (1 <? length b)%nat; [intros [= <-]; now right|].
  destruct (_ <? _); [intros [= <-]; now right|].
  destruct (js_bigint_new_cases (length a)) as [[-> _]|[-> _]]; cbn [res_bind];
    [apply pow_loop_throw | intros [= <-]; now left].
Qed.

Lemma pow_two_throw v n b x : js_bigint_pow_two v n b = Throw x -> size_error x.
Proof.
  unfold js_bigint_pow_two. destruct (1 <? length b)%nat; [intros [= <-]; now right|].
  destruct (_ <? _); [intros [= <-]; now right|]. destruct (_ <? _); [intros [= <-]; now right|].
  cbv zeta. destruct (js_bigint_new_cases
    (Z.to_nat ((List.nth 0 b 0 * (JS_LIMB_BITS - 1 - js_limb_clz v) + JS_LIMB_BITS + 1 -
                (if n then Z.land (List.nth 0 b 0) 1 else 0)) / JS_LIMB_BITS))) as [[-> _]|[-> _]];
    cbn [res_bind]; [discriminate | intros [= <-]; now left].
Qed.

Lemma pow_throw a b x :
  normalized b -> 0 <= bval b -> js_bigint_pow a b = Throw x -> size_error x.
Proof.
  intros Hb Hp. unfold js_bigint_pow.
  destruct (bval_sign b (proj1 Hb)) as [(? & ?)|(-> & _)]; [lia|]. cbn [Z.eqb negb].
  destruct (_ && _); [discriminate|]. destruct (length a =? 1)%nat; [|apply pow_general_throw].
  destruct (_ <=? 1); [discriminate|]. destruct (_ =? LB - 1); [discriminate|].
  cbv zeta. destruct (_ =? 0); [apply pow_two_throw | apply pow_general_throw].
Qed.

(** The long operation on two BigInts of values [x] and [y]. *)
Definition arith_outcome {A} (fits : Prop) (good : A -> Z -> Prop) (op : arith_op) (x y : Z) (o : res A) : Prop :=
  match o with
  | Ok r => exists z, arith_spec op x y = Some z /\ good r z
  | Throw e =>
      (arith_spec op x y = None /\ e = arith_error op) \/
      (arith_spec op x y <> None /\ size_error e /\ ~ fits)
  end.

Lemma yields_outcome fits op x y z o :
  arith_spec op x y = Some z -> yields fits o z ->
  arith_outcome fits (fun r z => normalized r /\ bval r = z) op x y o.
Proof.
  intros E H. unfold arith_outcome, yields in *. destruct o; [eauto|].
  right. rewrite E. split; [discriminate | done].
Qed.

Lemma bigint_arith_outcome op a b :
  normalized a -> normalized b ->
  arith_outcome (arith_fits op (length a) (length b) (bval a) (bval b)) (fun r z => normalized r /\ bval r = z)
    op (bval a) (bval b) (bigint_arith op a b).
Proof.
  intros Ha Hb.
  assert (forall is_rem, bval b = 0 -> js_bigint_divrem a b is_rem = Throw (RangeError "BigInt division by zero")) as Hz.
  { intros is_rem E. unfold js_bigint_divrem. now rewrite is_zero_spec, E by done. }
  destruct op; cbn [bigint_arith arith_fits].
  - eapply yields_outcome; [reflexivity | apply (add_yields a b 0); [apply Ha | apply Hb | auto]].
  - eapply yields_outcome; [reflexivity | apply (add_yields a b 1); [apply Ha | apply Hb | auto]].
  - eapply yields_outcome; [reflexivity | apply mul_yields; [apply Ha | apply Hb]].
  - destruct (Z.eq_dec (bval b) 0) as [E|E]; [rewrite Hz by done; left; cbn; now rewrite E|].
    eapply yields_outcome; [cbn; now rewrite (proj2 (Z.eqb_neq _ _) E) | now apply (divrem_yields a b false)].
  - destruct (Z.eq_dec (bval b) 0) as [E|E]; [rewrite Hz by done; left; cbn; now rewrite E|].
    eapply yields_outcome; [cbn; now rewrite (proj2 (Z.eqb_neq _ _) E) | now apply (divrem_yields a b true)].
  - unfold arith_outcome. cbn [arith_spec arith_error].
    destruct (Z.ltb_spec (bval b) 0) as [Hn|Hn].
    + unfold js_bigint_pow. destruct (bval_sign b (proj1 Hb)) as [(-> & ?)|(? & ?)]; [|lia]. now left.
    + destruct (js_bigint_pow a b) as [r|e] eqn:E.
      * apply pow_spec in E as (? & ? & ?); eauto.
      * right. split; [discriminate|]. pose proof (pow_throw _ _ _ Hb Hn E). split; [done|]. intros Hf.
        destruct (pow_total a b Ha Hb Hn Hf) as [r Er]. rewrite Er in E. discriminate.
Qed.

Lemma compact_outcome fits op x y o :
  arith_outcome fits (fun r z => normalized r /\ bval r = z) op x y o ->
  arith_outcome fits (fun v z => exists r, v = Value r /\ num_ok r /\ bigint_of r = Some z) op x y (compact_result o).
Proof.
  unfold compact_result. destruct o as [r|e]; cbn [res_bind]; [|done].
  intros (z & ? & Hr & <-). exists (bval r). split; [done|]. eexists. split; [done|]. now apply compact_spec.
Qed.

Lemma short_quot_range v1 v2 :
  in_s 64 v1 -> v2 <> 0 -> ~ (v1 = INT64_MIN /\ v2 = -1) -> in_s 64 (Z.quot v1 v2) /\ in_s 64 (Z.rem v1 v2).
Proof.
  rewrite !in_s64_iff. intros H1 H2 Hn. split.
  - pose proof (Z.quot_rem' v1 v2) as E. pose proof (Z.rem_bound_abs v1 v2 H2).
    destruct (Z.eq_dec v2 (-1)) as [->|].
    + replace (-1) with (- (1)) by lia. rewrite Z.quot_opp_r, Z.quot_1_r by lia.
      unfold INT64_MIN, INT64_MAX in *. lia.
    + pose proof (Z.quot_abs v1 v2 H2) as Ea. destruct (Z.eq_dec v2 1) as [->|]; [now rewrite Z.quot_1_r|].
      pose proof (Z.quot_lt_upper_bound (Z.abs v1) (Z.abs v2) (2 ^ 63)). unfold INT64_MIN, INT64_MAX in *.
      assert (Z.abs v1 ÷ Z.abs v2 < 2 ^ 63) by (apply Z.quot_lt_upper_bound; [lia | lia | nia]). lia.
  - pose proof (Z.rem_abs v1 v2 H2) as Ea. pose proof (Z.rem_sign_nz v1 v2 H2) as Hs.
    pose proof (Z.rem_le (Z.abs v1) (Z.abs v2) ltac:(lia) ltac:(lia)).
    destruct (Z.eq_dec (Z.rem v1 v2) 0) as [->|Hr]; [split; discriminate|].
    specialize (Hs Hr). unfold INT64_MIN, INT64_MAX in *. lia.
Qed.

Lemma short_arith_spec op v1 v2 o :
  op <> OP_add -> in_s 64 v1 -> in_s 64 v2 -> short_arith op v1 v2 = Some o ->
  exists z, arith_spec op v1 v2 = Some z /\ yields_value True o z.
Proof.
  intros Hop H1 H2. unfold short_arith.
  assert ((u64 v1 =? u64 (Z.shiftl 1 (JS_LIMB_BITS - 1))) = (v1 =? INT64_MIN)) as ->.
  { change (u64 (Z.shiftl 1 (JS_LIMB_BITS - 1))) with (u64 INT64_MIN).
    destruct (Z.eqb_spec v1 INT64_MIN) as [->|Hne]; [apply Z.eqb_refl|]. apply Z.eqb_neq. intros E.
    apply Hne. apply (f_equal (sgn 64)) in E. rewrite !sgn_wrap in E by lia.
    now rewrite sgn_small in E by (done || lia). }
  assert (forall v, Z.abs v <= 2 ^ 126 -> in_s 128 v) as H128.
  { intros v Hv. unfold in_s. change (2 ^ (128 - 1)) with (2 * 2 ^ 126). lia. }
  pose proof (proj1 (in_s64_iff _) H1) as R1. pose proof (proj1 (in_s64_iff _) H2) as R2.
  unfold INT64_MIN, INT64_MAX in R1, R2. change (2 ^ 63) with 9223372036854775808 in R1, R2.
  change (2 ^ 126) with (9223372036854775808 * 9223372036854775808) in H128.
  destruct op; [done | intros [= <-].. | |  | discriminate].
  - eexists. split; [reflexivity|]. apply short_result_spec, H128. lia.
  - eexists. split; [reflexivity|]. apply short_result_spec, H128. nia.
  - destruct (Z.eqb_spec v2 0); [discriminate|]. cbn [orb].
    destruct (Z.eqb_spec v1 INT64_MIN), (Z.eqb_spec v2 (-1)); cbn [andb]; try discriminate;
      intros [= <-]; (eexists; split; [cbn; now rewrite (proj2 (Z.eqb_neq _ _) n)|]);
      (cbn; split; [split; [|done] | done]); apply short_quot_range; tauto.
  - destruct (Z.eqb_spec v2 0); [discriminate|]. cbn [orb].
    destruct (Z.eqb_spec v1 INT64_MIN), (Z.eqb_spec v2 (-1)); cbn [andb]; try discriminate;
      intros [= <-]; (eexists; split; [cbn; now rewrite (proj2 (Z.eqb_neq _ _) n)|]);
      (cbn; split; [split; [|done] | done]); apply short_quot_range; tauto.
Qed.

(** A number of limbs of the operand. *)
Definition limbs_of (p : prim) : nat :=
  match p with JS_TAG_BIG_INT tab => length tab | _ => 1%nat end.

Lemma operand_length p a : bigint_operand p = Some a -> length a = limbs_of p.
Proof. destruct p; try discriminate; now intros [= <-]. Qed.

Definition good_value (v : numeric_result) (z : Z) : Prop :=
  exists r, v = Value r /\ num_ok r /\ bigint_of r = Some z.

Lemma yields_value_outcome fits op x y z o :
  arith_spec op x y = Some z -> yields_value fits o z -> arith_outcome fits good_value op x y o.
Proof.
  intros E H. unfold arith_outcome, yields_value in *. destruct o as [[r| |]|]; [|done..|].
  - exists z. split; [done|]. now exists r.
  - right. rewrite E. split; [discriminate | done].
Qed.

Lemma slow_arith_outcome op a b x y pa pb :
  num_ok a -> num_ok b -> bigint_of a = Some x -> bigint_of b = Some y ->
  bigint_operand a = Some pa -> bigint_operand b = Some pb ->
  arith_outcome (arith_fits op (limbs_of a) (limbs_of b) x y) good_value op x y (compact_result (bigint_arith op pa pb)).
Proof.
  intros Ha Hb Ea Eb Oa Ob. rewrite <- (operand_length a pa Oa), <- (operand_length b pb Ob).
  destruct (operand_spec a x Ha Ea) as (pa' & Oa' & Hpa & <-). rewrite Oa in Oa'. injection Oa' as <-.
  destruct (operand_spec b y Hb Eb) as (pb' & Ob' & Hpb & <-). rewrite Ob in Ob'. injection Ob' as <-.
  now apply compact_outcome, bigint_arith_outcome.
Qed.

Lemma outcome_fits {A} (f1 f2 : Prop) (good : A -> Z -> Prop) op x y o :
  (f2 -> f1) -> arith_outcome f1 good op x y o -> arith_outcome f2 good op x y o.
Proof. unfold arith_outcome. destruct o; [done|]. tauto. Qed.

Lemma bigint_cases p x :
  bigint_of p = Some x -> p = JS_TAG_SHORT_BIG_INT x \/ exists t, p = JS_TAG_BIG_INT t.
Proof. destruct p; try discriminate; intros [= <-]; eauto. Qed.

Lemma binary_arith_outcome tp sn op a b x y :
  op <> OP_add -> num_ok a -> num_ok b -> bigint_of a = Some x -> bigint_of b = Some y ->
  arith_outcome (arith_fits op (limbs_of a) (limbs_of b) x y) good_value op x y
    (js_binary_arith_slow tp sn (Prim a) (Prim b) op).
Proof.
  intros Hop Ha Hb Ea Eb. unfold js_binary_arith_slow.
  destruct (bigint_cases a x Ea) as [-> | [ta ->]], (bigint_cases b y Eb) as [-> | [tb ->]]; cbn [res_bind];
    [|eapply slow_arith_outcome; eauto; reflexivity..].
  destruct (short_arith op x y) as [o|] eqn:Es; [|eapply slow_arith_outcome; eauto; reflexivity].
  apply short_arith_spec in Es as (z & Ez & Hy); [|done | apply Ha | apply Hb].
  apply (outcome_fits True); [done | eapply yields_value_outcome; eauto].
Qed.

Lemma add_outcome tp sn tpn a b x y :
  num_ok a -> num_ok b -> bigint_of a = Some x -> bigint_of b = Some y ->
  arith_outcome (arith_fits OP_add (limbs_of a) (limbs_of b) x y) good_value OP_add x y
    (js_add_slow tp sn tpn (Prim a) (Prim b)).
Proof.
  intros Ha Hb Ea Eb. unfold js_add_slow.
  destruct (bigint_cases a x Ea) as [-> | [ta ->]], (bigint_cases b y Eb) as [-> | [tb ->]]; cbn [res_bind];
    [|eapply (slow_arith_outcome OP_add); eauto; reflexivity..].
  eapply yields_value_outcome; [reflexivity|].
  apply short_result_spec. destruct Ha as [Ha _], Hb as [Hb _]. cbn in Ha, Hb.
  apply in_s64_iff in Ha, Hb. unfold INT64_MIN, INT64_MAX in *.
  unfold in_s. change (2 ^ (128 - 1)) with (2 ^ 64 * 2 ^ 63). nia.
Qed.

(** ** The unary operators *)

Definition unary_spec (op : unary_op) (x : Z) : option Z :=
  match op with OP_inc => Some (x + 1) | OP_dec => Some (x - 1) | OP_neg => Some (- x) | OP_plus => None end.

Definition unary_outcome (fits : Prop) (op : unary_op) (x : Z) (o : res numeric_result) : Prop :=
  match unary_spec op x with
  | Some z => yields_value fits o z
  | None => o = Throw (TypeError "bigint argument with unary +")
  end.

Lemma neg_yields a :
  wf a -> yields (Z.of_nat (length a) <= JS_BIGINT_MAX_SIZE) (js_bigint_neg a) (- bval a).
Proof.
  intros Ha. pose proof (add_yields (js_bigint_set_si 0) a 1 (proj1 (normalized_single 0 ltac:(done))) Ha (or_intror eq_refl)) as H.
  unfold js_bigint_neg. change (bval (js_bigint_set_si 0)) with 0 in H. cbn [Z.eqb Pos.eqb Z.sub] in H.
  pose proof (wf_length a Ha). cbn [length js_bigint_set_si] in H. rewrite Nat.max_r in H by lia. exact H.
Qed.

Lemma incr_yields a d :
  wf a -> in_s 64 d ->
  yields (Z.of_nat (length a) <= JS_BIGINT_MAX_SIZE) (js_bigint_add a (js_bigint_set_si d) 0) (bval a + d).
Proof.
  intros Ha Hd. destruct (set_short_spec d Hd) as [Hn E].
  pose proof (add_yields a (js_bigint_set_si d) 0 Ha (proj1 Hn) (or_introl eq_refl)) as H.
  change (js_bigint_set_si d) with (js_bigint_set_short d) in *. rewrite E in H.
  pose proof (wf_length a Ha). cbn [length js_bigint_set_short] in H. rewrite Nat.max_l in H by lia. exact H.
Qed.

Lemma unary_arith_outcome tp sn op a x :
  num_ok a -> bigint_of a = Some x ->
  unary_outcome (Z.of_nat (limbs_of a) <= JS_BIGINT_MAX_SIZE) op x (js_unary_arith_slow tp sn (Prim a) op).
Proof.
  intros Ha Ex. destruct (operand_spec a x Ha Ex) as (pa & Oa & Hpa & <-).
  rewrite <- (operand_length a pa Oa).
  assert (forall o z, yields (Z.of_nat (length pa) <= JS_BIGINT_MAX_SIZE) o z ->
    yields_value (Z.of_nat (length pa) <= JS_BIGINT_MAX_SIZE) (compact_result o) z) as Hc
    by (intros; now apply compact_yields).
  destruct a as [| | | | |v|t| |]; try discriminate; injection Oa as <-; unfold unary_outcome, js_unary_arith_slow;
    cbn [res_bind JS_ToNumericFree JS_ToNumberHintFree JS_ToNumberHint_prim unary_spec].
  - assert (in_s 64 v) as Hv by apply Ha. destruct (set_short_spec v Hv) as [_ Ev].
    apply in_s64_iff in Hv as Rv.
    assert (forall z, INT64_MIN <= z <= INT64_MAX -> forall fits, yields_value fits (Ok (Value (JS_TAG_SHORT_BIG_INT z))) z) as Hs
      by (intros z Hz fits; cbn; split; [split; [now apply in_s64_iff | done] | done]).
    destruct op; cbn [unary_spec].
    + destruct (Z.eqb_spec v INT64_MAX) as [E|]; [apply Hc, incr_yields; [apply Hpa | done]|]. rewrite Ev. apply Hs. lia.
    + destruct (Z.eqb_spec v INT64_MIN) as [E|];
        [apply Hc; apply (incr_yields _ (-1)); [apply Hpa | done]|]. rewrite Ev. apply Hs. lia.
    + reflexivity.
    + destruct (Z.eqb_spec v INT64_MIN) as [E|]; [apply Hc, neg_yields, Hpa|]. rewrite Ev. apply Hs.
      unfold INT64_MIN, INT64_MAX in *. lia.
  - destruct op; cbn [unary_spec]; [| |reflexivity|].
    + apply Hc, incr_yields; [apply Hpa | done].
    + apply Hc. apply (incr_yields _ (-1)); [apply Hpa | done].
    + apply Hc, neg_yields, Hpa.
Qed.

Lemma lnot_in_s64 v : in_s 64 v -> in_s 64 (Z.lnot v).
Proof. rewrite !in_s64_iff. unfold Z.lnot, INT64_MIN, INT64_MAX. lia. Qed.

Lemma not_outcome tp sn a x :
  num_ok a -> bigint_of a = Some x -> Z.of_nat (limbs_of a) <= JS_BIGINT_MAX_SIZE ->
  exists r, js_not_slow tp sn (Prim a) = Ok r /\ num_ok r /\ bigint_of r = Some (Z.lnot x).
Proof.
  intros Ha Ex Hl. destruct a as [| | | | |v|t| |]; try discriminate; injection Ex as <-; cbn.
  - eexists. split; [reflexivity|]. split; [split; [|done] | done]. apply lnot_in_s64, Ha.
  - destruct Ha as [_ [Ht _]]. destruct (not_spec t Ht Hl) as (r & -> & Hr & <-). cbn.
    eexists. split; [reflexivity|]. now apply compact_spec.
Qed.

(** ** Bitwise operators and shifts *)

Lemma logic_yields a b op :
  wf a -> wf b ->
  yields (Z.of_nat (Nat.max (length a) (length b)) <= JS_BIGINT_MAX_SIZE)
    (js_bigint_logic a b op) (logic_fn op (bval a) (bval b)).
Proof.
  intros Ha Hb. apply yields_of_exists; [now apply logic_spec|]. unfold js_bigint_logic.
  destruct (Nat.ltb_spec (length a) (length b)).
  - destruct (js_bigint_new_cases (length b)) as [[_ ?]|[-> ?]]; [left; lia | right; split; [lia | done]].
  - destruct (js_bigint_new_cases (length a)) as [[_ ?]|[-> ?]]; [left; lia | right; split; [lia | done]].
Qed.

Lemma logic_in_s64 op v1 v2 : in_s 64 v1 -> in_s 64 v2 -> in_s 64 (logic_fn op v1 v2).
Proof.
  intros H1 H2. destruct (set_short_spec v1 H1) as [N1 E1], (set_short_spec v2 H2) as [N2 E2].
  destruct (logic_spec (js_bigint_set_short v1) (js_bigint_set_short v2) op) as (r & E & Hr & Ev);
    [apply N1 | apply N2 | cbn; unfold JS_BIGINT_MAX_SIZE; vm_compute; discriminate |].
  rewrite E1, E2 in Ev. rewrite <- Ev. cbn in E. injection E as <-.
  match goal with |- in_s 64 (bval ?l) => assert (length l = 1%nat) as Hl by reflexivity; revert Hr Hl; generalize l end.
  intros l Hr Hl. destruct (bval_range l (proj1 Hr)) as [R1 R2]. rewrite Hl, Bp_1 in *.
  unfold in_s. change (2 ^ (64 - 1)) with 9223372036854775808. lia.
Qed.

(** The count that the code shifts by. *)
Lemma shift_count_spec op p :
  normalized p ->
  shift_count op p = match op with OP_sar => - clamp (- INT32_MAX) INT32_MAX (bval p)
                                 | _ => clamp (- INT32_MAX) INT32_MAX (bval p) end.
Proof.
  intros Hp. unfold shift_count. set (s := if INT32_MAX <? js_bigint_get_si_sat p then _ else _).
  assert (s = clamp (- INT32_MAX) INT32_MAX (bval p)) as ->; [|done]. subst s. unfold clamp.
  assert (js_bigint_get_si_sat p = bval p \/
          (INT32_MAX < js_bigint_get_si_sat p /\ INT32_MAX < bval p) \/
          (js_bigint_get_si_sat p < - INT32_MAX /\ bval p < - INT32_MAX)) as H.
  { unfold js_bigint_get_si_sat. destruct (Nat.eqb_spec (length p) 1) as [H1|H1].
    - left. destruct (compact_spec p Hp) as [_ E]. unfold JS_CompactBigInt in E. rewrite H1 in E. now injection E.
    - pose proof (wf_length p (proj1 Hp)). pose proof (long_not_short p Hp ltac:(lia)) as Hl.
      rewrite in_s64_iff in Hl. unfold INT64_MIN, INT64_MAX, INT32_MAX in *.
      destruct (bval_sign p (proj1 Hp)) as [(-> & ?)|(-> & ?)]; cbn [Z.eqb negb]; right; [right | left]; lia. }
  assert (0 < INT32_MAX) by reflexivity.
  destruct (Z.ltb_spec INT32_MAX (js_bigint_get_si_sat p)); [lia|].
  destruct (Z.ltb_spec (js_bigint_get_si_sat p) (- INT32_MAX)); lia.
Qed.

(** No BigInt is larger: the allocation limit and one limb of [js_bigint_extend]. *)
Definition size_ok (p : prim) : Prop := Z.of_nat (limbs_of p) <= JS_BIGINT_MAX_SIZE + 1.

Definition binlogic_fits (op : binlogic_op) (na nb : nat) (y : Z) : Prop :=
  match op with
  | OP_logic _ => Z.of_nat (Nat.max na nb) <= JS_BIGINT_MAX_SIZE
  | OP_shl => Z.of_nat na + Z.max 0 y / JS_LIMB_BITS <= JS_BIGINT_MAX_SIZE
  | OP_sar => Z.of_nat na + Z.max 0 (- y) / JS_LIMB_BITS <= JS_BIGINT_MAX_SIZE
  end.

Lemma shl_yields a n :
  normalized a -> 0 <= n ->
  yields (Z.of_nat (length a) + n / JS_LIMB_BITS <= JS_BIGINT_MAX_SIZE) (js_bigint_shl a n) (Z.shiftl (bval a) n).
Proof.
  intros Ha Hn. destruct (Z.eq_dec (bval a) 0) as [E|E].
  { unfold js_bigint_shl. rewrite is_zero_spec, E, Z.shiftl_0_l by done. cbn. split; [now apply normalized_single | done]. }
  apply yields_of_exists; [now apply shl_spec|]. unfold js_bigint_shl.
  rewrite is_zero_spec, (proj2 (Z.eqb_neq _ _) E) by done.
  pose proof (Z.div_pos n JS_LIMB_BITS Hn eq_refl).
  destruct (js_bigint_new_cases (length a + Z.to_nat (n / JS_LIMB_BITS))) as [[_ ?]|[-> ?]];
    [left; lia | right; split; [lia | done]].
Qed.

Lemma shr_yields a n :
  normalized a -> 0 <= n ->
  yields (Z.of_nat (length a) <= JS_BIGINT_MAX_SIZE) (js_bigint_shr a n) (Z.shiftr (bval a) n).
Proof.
  intros Ha Hn. assert (Z.of_nat (length a - Z.to_nat (n / JS_LIMB_BITS)) <= JS_BIGINT_MAX_SIZE ->
    exists r, js_bigint_shr a n = Ok r /\ normalized r /\ bval r = Z.shiftr (bval a) n) as Hs by now apply shr_spec.
  unfold js_bigint_shr in *. destruct (Nat.leb_spec (length a) (Z.to_nat (n / JS_LIMB_BITS))).
  - destruct Hs as (r & -> & ?); [|done].
    replace (length a - Z.to_nat (n / JS_LIMB_BITS))%nat with 0%nat by lia. vm_compute. discriminate.
  - destruct (js_bigint_new_cases (length a - Z.to_nat (n / JS_LIMB_BITS))) as [[E ?]|[-> ?]].
    + destruct (Hs ltac:(done)) as (r & -> & ?). done.
    + cbn. split; [now left | lia].
Qed.

(** A count saturated at [INT32_MAX] shifts everything out, or is refused. *)
Lemma shr_saturated z m n la :
  - Bp la <= 2 * z < Bp la -> 64 * Z.of_nat la <= m <= n -> Z.shiftr z n = Z.shiftr z m.
Proof.
  intros Hz Hm.
  assert (Bp la <= 2 ^ m) as Hb by (rewrite Bp_pow; apply Z.pow_le_mono_r; lia).
  assert (2 ^ m <= 2 ^ n) as Hb2 by (apply Z.pow_le_mono_r; lia).
  rewrite !Z.shiftr_div_pow2 by lia. pose proof (Bp_pos la).
  destruct (Z.le_gt_cases 0 z).
  - rewrite !Z.div_small by lia. done.
  - transitivity (-1); [symmetry|]; [apply Z.div_unique with (z + 2 ^ n) | apply Z.div_unique with (z + 2 ^ m)]; lia.
Qed.

Lemma shift_left_yields a y :
  normalized a -> Z.of_nat (length a) <= JS_BIGINT_MAX_SIZE + 1 -> 0 <= y ->
  yields (Z.of_nat (length a) + y / JS_LIMB_BITS <= JS_BIGINT_MAX_SIZE)
    (js_bigint_shl a (clamp (- INT32_MAX) INT32_MAX y)) (Z.shiftl (bval a) y).
Proof.
  intros Ha Hl Hy. assert (0 < INT32_MAX) by reflexivity. unfold clamp.
  destruct (Z.le_gt_cases y INT32_MAX).
  - replace (Z.max (- INT32_MAX) (Z.min INT32_MAX y)) with y by lia. now apply shl_yields.
  - replace (Z.max (- INT32_MAX) (Z.min INT32_MAX y)) with INT32_MAX by lia.
    destruct (Z.eq_dec (bval a) 0) as [E|E].
    { unfold js_bigint_shl. rewrite is_zero_spec, E, Z.shiftl_0_l by done. cbn. split; [now apply normalized_single | done]. }
    unfold js_bigint_shl. rewrite is_zero_spec, (proj2 (Z.eqb_neq _ _) E) by done.
    assert (INT32_MAX / JS_LIMB_BITS <= y / JS_LIMB_BITS) by (apply Z.div_le_mono; [done | lia]).
    change (INT32_MAX / JS_LIMB_BITS) with 33554431 in *. unfold JS_BIGINT_MAX_SIZE in *.
    change (1024 * 1024 / JS_LIMB_BITS) with 16384 in *.
    destruct (js_bigint_new_cases (length a + Z.to_nat 33554431)) as [[_ Hc]|[-> _]].
    + unfold JS_BIGINT_MAX_SIZE in Hc. change (1024 * 1024 / JS_LIMB_BITS) with 16384 in Hc. lia.
    + cbn. split; [now left | lia].
Qed.

Lemma shift_right_yields a y :
  normalized a -> Z.of_nat (length a) <= JS_BIGINT_MAX_SIZE + 1 -> 0 <= y ->
  yields (Z.of_nat (length a) <= JS_BIGINT_MAX_SIZE)
    (js_bigint_shr a (clamp (- INT32_MAX) INT32_MAX y)) (Z.shiftr (bval a) y).
Proof.
  intros Ha Hl Hy. assert (0 < INT32_MAX) by reflexivity. unfold clamp.
  destruct (Z.le_gt_cases y INT32_MAX).
  - replace (Z.max (- INT32_MAX) (Z.min INT32_MAX y)) with y by lia. now apply shr_yields.
  - replace (Z.max (- INT32_MAX) (Z.min INT32_MAX y)) with INT32_MAX by lia.
    rewrite (shr_saturated (bval a) INT32_MAX y (length a)); [apply shr_yields; [done | lia] | apply bval_range, Ha |].
    change JS_BIGINT_MAX_SIZE with 16384 in Hl. change INT32_MAX with 2147483647 in *. lia.
Qed.

Lemma yields_weaken (f1 f2 : Prop) o z : (f2 -> f1) -> yields f1 o z -> yields f2 o z.
Proof. unfold yields. destruct o; [done|]. tauto. Qed.

Lemma bigint_logic_yields op a b :
  normalized a -> normalized b -> Z.of_nat (length a) <= JS_BIGINT_MAX_SIZE + 1 ->
  yields (binlogic_fits op (length a) (length b) (bval b)) (bigint_logic op a b)
    (binlogic_spec op (bval a) (bval b)).
Proof.
  intros Ha Hb Hl. assert (0 < INT32_MAX) by reflexivity. destruct op as [op| |]; cbn [bigint_logic binlogic_spec binlogic_fits].
  - apply logic_yields; [apply Ha | apply Hb].
  - rewrite shift_count_spec by done. destruct (Z.le_gt_cases 0 (bval b)).
    + rewrite Z.max_r by lia. destruct (Z.leb_spec 0 (clamp (- INT32_MAX) INT32_MAX (bval b))); [|unfold clamp in *; lia].
      now apply shift_left_yields.
    + destruct (Z.leb_spec 0 (clamp (- INT32_MAX) INT32_MAX (bval b))); [unfold clamp in *; lia|].
      replace (- clamp (- INT32_MAX) INT32_MAX (bval b)) with (clamp (- INT32_MAX) INT32_MAX (- bval b)) by (unfold clamp; lia).
      replace (bval b) with (- - bval b) at 3 by lia. rewrite Z.shiftl_opp_r.
      eapply yields_weaken; [|apply shift_right_yields; auto; lia].
      rewrite Z.max_l by lia. change (0 / JS_LIMB_BITS) with 0. lia.
  - rewrite shift_count_spec by done. destruct (Z.lt_ge_cases 0 (bval b)).
    + destruct (Z.leb_spec 0 (- clamp (- INT32_MAX) INT32_MAX (bval b))); [unfold clamp in *; lia|].
      rewrite Z.opp_involutive. eapply yields_weaken; [|apply shift_right_yields; auto; lia].
      rewrite Z.max_l by lia. change (0 / JS_LIMB_BITS) with 0. lia.
    + destruct (Z.leb_spec 0 (- clamp (- INT32_MAX) INT32_MAX (bval b))); [|unfold clamp in *; lia].
      replace (- clamp (- INT32_MAX) INT32_MAX (bval b)) with (clamp (- INT32_MAX) INT32_MAX (- bval b)) by (unfold clamp; lia).
      rewrite Z.max_r by lia. replace (bval b) with (- - bval b) at 3 by lia. rewrite Z.shiftr_opp_r.
      apply shift_left_yields; auto; lia.
Qed.

Lemma value_short_spec z fits : in_s 64 z -> yields_value fits (Ok (Value (JS_TAG_SHORT_BIG_INT z))) z.
Proof. intros Hz. cbn. split; [split; [exact Hz | done] | done]. Qed.

Lemma shiftr_in_s64 v n : in_s 64 v -> 0 <= n -> in_s 64 (Z.shiftr v n).
Proof.
  rewrite !in_s64_iff. unfold INT64_MIN, INT64_MAX. intros Hv Hn. rewrite Z.shiftr_div_pow2 by lia.
  assert (0 < 2 ^ n) by (apply Z.pow_pos_nonneg; lia).
  split; [apply Z.div_le_lower_bound; nia | apply Z.lt_succ_r, Z.div_lt_upper_bound; nia].
Qed.

Lemma shiftl_in_s128 v n : in_s 64 v -> 0 <= n <= 63 -> in_s 128 (Z.shiftl v n).
Proof.
  rewrite in_s64_iff. unfold INT64_MIN, INT64_MAX. intros Hv Hn. rewrite Z.shiftl_mul_pow2 by lia.
  assert (0 < 2 ^ n) by (apply Z.pow_pos_nonneg; lia).
  assert (2 ^ n <= 2 ^ 63) by (apply Z.pow_le_mono_r; lia).
  unfold in_s. change (2 ^ (128 - 1)) with (2 * (2 ^ 63 * 2 ^ 63)). change (2 ^ 63) with 9223372036854775808 in *. nia.
Qed.

Lemma short_logic_spec op v1 v2 o :
  in_s 64 v1 -> in_s 64 v2 -> short_logic op v1 v2 = Some o -> yields_value True o (binlogic_spec op v1 v2).
Proof.
  intros H1 H2 E. unfold short_logic in E.
  assert (forall n, 0 <= n <= 63 ->
    yields_value True (short_result (sgn 128 (u128 (Z.shiftl v1 n)))) (Z.shiftl v1 n)) as Hl.
  { intros n Hn. pose proof (shiftl_in_s128 v1 n H1 Hn) as Hr. rewrite sgn_wrap, sgn_small by (done || lia).
    now apply short_result_spec. }
  assert (forall n, 0 <= n <= 63 ->
    yields_value True (Ok (Value (JS_TAG_SHORT_BIG_INT (Z.shiftr v1 n)))) (Z.shiftr v1 n)) as Hr
    by (intros n Hn; apply value_short_spec, shiftr_in_s64; [done | lia]).
  change (JS_LIMB_BITS - 1) with 63 in E. destruct op as [op| |]; cbn [binlogic_spec].
  - injection E as <-. now apply value_short_spec, logic_in_s64.
  - destruct (Z.ltb_spec 63 v2); [discriminate|]. destruct (Z.ltb_spec v2 0).
    + destruct (Z.ltb_spec v2 (- (63))); [discriminate|]. injection E as <-.
      replace v2 with (- - v2) at 2 by lia. rewrite Z.shiftl_opp_r. apply Hr. lia.
    + injection E as <-. apply Hl. lia.
  - destruct (Z.ltb_spec 63 v2); [discriminate|]. destruct (Z.ltb_spec v2 0).
    + destruct (Z.ltb_spec v2 (- (63))); [discriminate|]. injection E as <-.
      replace v2 with (- - v2) at 2 by lia. rewrite Z.shiftr_opp_r. apply Hl. lia.
    + injection E as <-. apply Hr. lia.
Qed.

Lemma yields_value_weaken (f1 f2 : Prop) o z : (f2 -> f1) -> yields_value f1 o z -> yields_value f2 o z.
Proof. unfold yields_value. destruct o as [[]|]; try done. tauto. Qed.

Lemma binary_logic_outcome tp sn op a b x y :
  num_ok a -> num_ok b -> bigint_of a = Some x -> bigint_of b = Some y -> size_ok a ->
  yields_value (binlogic_fits op (limbs_of a) (limbs_of b) y)
    (js_binary_logic_slow tp sn (Prim a) (Prim b) op) (binlogic_spec op x y).
Proof.
  intros Ha Hb Ea Eb Hs.
  assert (forall pa pb, bigint_operand a = Some pa -> bigint_operand b = Some pb ->
    yields_value (binlogic_fits op (limbs_of a) (limbs_of b) y) (compact_result (bigint_logic op pa pb))
      (binlogic_spec op x y)) as Hslow.
  { intros pa pb Oa Ob. destruct (operand_spec a x Ha Ea) as (pa' & Oa' & Hpa & <-).
    destruct (operand_spec b y Hb Eb) as (pb' & Ob' & Hpb & <-).
    rewrite Oa in Oa'. injection Oa' as <-. rewrite Ob in Ob'. injection Ob' as <-.
    unfold size_ok in Hs. rewrite <- (operand_length a pa Oa), <- (operand_length b pb Ob) in *.
    now apply compact_yields, bigint_logic_yields. }
  unfold js_binary_logic_slow.
  destruct (bigint_cases a x Ea) as [-> | [ta ->]], (bigint_cases b y Eb) as [-> | [tb ->]]; cbn [res_bind];
    [|now apply Hslow..].
  destruct (short_logic op x y) as [o|] eqn:Es; [|now apply Hslow].
  apply short_logic_spec in Es; [|apply Ha | apply Hb]. now apply (yields_value_weaken True).
Qed.

(** ** Comparisons *)

Definition integer_of (p : prim) : option Z :=
  match p with JS_TAG_INT v => Some v | _ => bigint_of p end.

Definition compare_spec (op : compare_op) (x y : Z) : bool :=
  match op with
  | OP_lt => x <? y | OP_lte => x <=? y | OP_gt => y <? x | OP_gte => y <=? x | OP_eq => x =? y
  end.

Lemma compare_result_sgn op x y : compare_result op (sgn_of_comparison (x ?= y)) = compare_spec op x y.
Proof.
  destruct (Z.compare_spec x y) as [->|H|H]; cbn [sgn_of_comparison]; destruct op; cbn; lia.
Qed.

Lemma int32_in_s64 v : in_s 32 v -> in_s 64 v.
Proof.
  unfold in_s. change (2 ^ (32 - 1)) with 2147483648. change (2 ^ (64 - 1)) with 9223372036854775808. lia.
Qed.

Lemma ToBigIntBuf_spec p x :
  num_ok p -> integer_of p = Some x -> exists a, JS_ToBigIntBuf p = Some a /\ normalized a /\ bval a = x.
Proof.
  intros Hp E. destruct p; try discriminate; cbn in *.
  - injection E as <-. eexists. split; [reflexivity|]. apply set_short_spec, int32_in_s64, Hp.
  - injection E as <-. eexists. split; [reflexivity|]. apply set_short_spec, Hp.
  - injection E as <-. eexists. split; [reflexivity|]. split; [apply Hp | done].
Qed.

Lemma compare_bigint_spec op a b x y :
  num_ok a -> num_ok b -> integer_of a = Some x -> integer_of b = Some y ->
  js_compare_bigint op a b = Ok (compare_spec op x y).
Proof.
  intros Ha Hb Ea Eb. unfold js_compare_bigint.
  destruct (ToBigIntBuf_spec a x Ha Ea) as (pa & Oa & Na & Va).
  destruct (ToBigIntBuf_spec b y Hb Eb) as (pb & Ob & Nb & Vb). rewrite Oa, Ob.
  assert (compare_result op (js_bigint_cmp pa pb) = compare_spec op x y) as Hs
    by (rewrite cmp_spec, Va, Vb by done; apply compare_result_sgn).
  assert (compare_result op (b2z (y <? x) - b2z (x <? y)) = compare_spec op x y) as Hf.
  { destruct (Z.ltb_spec y x), (Z.ltb_spec x y); destruct op; cbn; lia. }
  destruct a as [v1| | | | |v1|t1| |]; try discriminate; destruct b as [v2| | | | |v2|t2| |]; try discriminate;
    cbn [short_or_int]; try (now rewrite Hs);
    injection Ea as <-; injection Eb as <-; now rewrite Hf.
Qed.

(** With a double on the right, up to the inversion of [cmp_inverted]. *)
Lemma compare_float_spec op a d x :
  num_ok a -> bigint_of a = Some x -> in_u 64 d -> cmp_inverted x d = false ->
  js_compare_bigint op a (JS_TAG_FLOAT64 d) =
  Ok (if f64_compare x d =? 2 then false else compare_result op (f64_compare x d)).
Proof.
  intros Ha Ea Hd Hi. destruct (operand_spec a x Ha Ea) as (pa & Oa & Na & Va).
  pose proof (float64_cmp_spec pa d Na Hd) as Ec. rewrite Va, Hi in Ec. unfold js_compare_bigint.
  destruct (bigint_cases a _ Ea) as [-> | [ta ->]];
    cbn [short_or_int JS_ToBigIntBuf]; rewrite Oa, Ec; destruct (f64_compare _ d =? 2); done.
Qed.

(** ** Truncation to a number of bits *)

(** The high limb, shifted up and down again to keep its low [64 - shift] bits. *)
Lemma trunc_limb_unsigned x shift :
  0 <= shift < 64 -> Z.shiftr (u64 (Z.shiftl x shift)) shift = x mod 2 ^ (64 - shift).
Proof.
  intros Hs. unfold wrap. apply Z.bits_inj'. intros n Hn. rewrite Z.shiftr_spec by lia.
  destruct (Z.le_gt_cases (64 - shift) n).
  - rewrite !Z.mod_pow2_bits_high by lia. done.
  - rewrite !Z.mod_pow2_bits_low, Z.shiftl_spec by lia. f_equal. lia.
Qed.

Lemma trunc_limb_signed x shift :
  0 <= shift < 64 -> Z.shiftr (i64 (u64 (Z.shiftl x shift))) shift = sgn (64 - shift) x.
Proof.
  intros Hs. rewrite sgn_wrap by lia. unfold sgn.
  rewrite Z.shiftr_div_pow2, Z.shiftl_mul_pow2 by lia.
  assert (0 < 2 ^ shift) by (apply Z.pow_pos_nonneg; lia).
  assert (2 ^ 64 = 2 ^ (64 - shift) * 2 ^ shift) as -> by (rewrite <- Z.pow_add_r by lia; f_equal; lia).
  assert (2 ^ (64 - 1) = 2 ^ (64 - shift - 1) * 2 ^ shift) as -> by (rewrite <- Z.pow_add_r by lia; f_equal; lia).
  rewrite <- Z.mul_add_distr_r, Z.mul_mod_distr_r, <- Z.mul_sub_distr_r, Z.div_mul by (try lia; apply Z.pow_nonzero; lia).
  done.
Qed.

Lemma bval_app l1 l2 : l2 <> [] -> bval (l1 ++ l2) = uval l1 + Bp (length l1) * bval l2.
Proof. intros H. unfold bval. rewrite uval_app, sign_app, length_app, Bp_add by done. ring. Qed.

Lemma mod_block L P H Q : 0 <= L < P -> 0 < Q -> (L + P * H) mod (P * Q) = L + P * (H mod Q).
Proof.
  intros HL HQ. rewrite Z.rem_mul_r by lia. rewrite (Z.mul_comm P H), Z.mod_add, (Z.mod_small L) by lia.
  now rewrite Z.div_add, (Z.div_small L) by lia.
Qed.

Lemma sgn_block L n H w :
  0 <= L < Bp n -> 1 <= w -> sgn (64 * Z.of_nat n + w) (L + Bp n * H) = L + Bp n * sgn w H.
Proof.
  intros HL Hw. unfold sgn. replace (64 * Z.of_nat n + w - 1) with (64 * Z.of_nat n + (w - 1)) by lia.
  rewrite !(Z.pow_add_r 2 (64 * Z.of_nat n)) by lia. rewrite <- Bp_pow.
  rewrite <- Z.add_assoc, <- Z.mul_add_distr_l, mod_block by (lia || (apply Z.pow_pos_nonneg; lia)). ring.
Qed.

(** The limbs of a BigInt around the last one that is kept. *)
Lemma trunc_split p n :
  wf p -> (n < length p)%nat ->
  exists k, bval p = uval (take n p) + Bp n * (List.nth n p 0 + LB * k) /\
    0 <= uval (take n p) < Bp n /\ limbs (take n p) /\ limb (List.nth n p 0) /\ length (take n p) = n.
Proof.
  intros Hp Hn. assert (length (take n p) = n) as Hl by (rewrite length_take; lia).
  assert (limbs (take n p)) as Hlo by (apply Forall_take, Hp).
  pose proof (uval_range _ Hlo) as HL. rewrite Hl in HL.
  destruct (drop_spec n p Hp Hn) as (Hw & _ & _).
  assert (bval p = uval (take n p) + Bp n * bval (drop n p)) as E.
  { rewrite <- (take_drop n p) at 1. rewrite bval_app, Hl by apply Hw. done. }
  assert (List.nth n p 0 = List.nth 0 (drop n p) 0) as En.
  { rewrite <- (take_drop n p) at 1. rewrite app_nth2, Hl, Nat.sub_diag by lia. done. }
  assert (limb (List.nth n p 0)) as Hh by (apply limb_nth, Hp). rewrite En in *.
  destruct (wf_inv _ Hw) as (h & r & Er & Hh' & Hr). rewrite Er in *. cbn [List.nth] in *.
  destruct Hr as [-> | Hr].
  - exists (- Z.shiftr h (JS_LIMB_BITS - 1)). rewrite E, bval_single by done. auto.
  - exists (bval r). rewrite E, bval_cons by done. auto.
Qed.

Lemma bval_snoc_limb lo v :
  limbs lo -> limb v ->
  wf (lo ++ [v]) /\ bval (lo ++ [v]) = uval lo + Bp (length lo) * (if LB / 2 <=? v then v - LB else v).
Proof.
  intros Hlo Hv. split; [now apply wf_snoc|]. rewrite bval_app, bval_single, shiftr63 by done.
  destruct (LB / 2 <=? v); ring.
Qed.

(** The full words that [asUintN] leaves signed. *)
Definition asUintN_negative (bits x : Z) (nlimbs : nat) : bool :=
  if 64 * Z.of_nat nlimbs <=? bits then x <? 0
  else (0 <? bits) && (bits mod 64 =? 0) && Z.testbit x (bits - 1).

(** The sizes of the truncation. *)
Lemma asN_sizes bits :
  0 < bits ->
  let len := Z.to_nat ((bits + JS_LIMB_BITS - 1) / JS_LIMB_BITS) in
  let shift := Z.land (- bits) (JS_LIMB_BITS - 1) in
  0 <= shift < 64 /\ (1 <= len)%nat /\ bits = 64 * Z.of_nat (len - 1) + (64 - shift).
Proof.
  intros Hb. cbv zeta. unfold JS_LIMB_BITS.
  assert (Z.land (- bits) (64 - 1) = (- bits) mod 64) as -> by (apply (land_pow2_mask (- bits) 6); lia).
  pose proof (Z.mod_pos_bound (- bits) 64 eq_refl). pose proof (Z.div_mod (- bits) 64 ltac:(lia)) as Ed.
  set (shift := (- bits) mod 64) in *.
  assert ((bits + 64 - 1) / 64 = - (- bits / 64)) as ->
    by (symmetry; apply Z.div_unique with (63 - shift); lia).
  split_and!; lia.
Qed.

Lemma signed_limb_value w h :
  1 <= w <= 64 -> let v := u64 (sgn w h) in (if LB / 2 <=? v then v - LB else v) = sgn w h.
Proof.
  intros Hw. cbv zeta. assert (in_s 64 (sgn w h)) as Hs.
  { pose proof (sgn_range w h ltac:(lia)) as [H1 H2]. unfold in_s.
    assert (2 ^ (w - 1) <= 2 ^ (64 - 1)) by (apply Z.pow_le_mono_r; lia). lia. }
  pose proof (sgn_of_unsigned 64 (u64 (sgn w h)) ltac:(lia) (u64_limb _)) as E.
  rewrite sgn_wrap, sgn_small in E by (done || lia). symmetry. exact E.
Qed.

Lemma unsigned_limb_value w h L n k :
  1 <= w <= 64 -> limb h -> 0 <= L < Bp n ->
  let v := h mod 2 ^ w in
  L + Bp n * (if LB / 2 <=? v then v - LB else v) =
  if (w =? 64) && Z.testbit (L + Bp n * (h + LB * k)) (64 * Z.of_nat n + w - 1)
  then L + Bp n * v - 2 ^ (64 * Z.of_nat n + w) else L + Bp n * v.
Proof.
  intros Hw Hh HL. cbv zeta. change (LB / 2) with 9223372036854775808.
  pose proof (Z.mod_pos_bound h (2 ^ w) ltac:(apply Z.pow_pos_nonneg; lia)).
  destruct (Z.eqb_spec w 64) as [->|Hne]; cbn [andb].
  - rewrite Z.mod_small by done. rewrite Bp_pow, testbit_concat by (rewrite <- ?Bp_pow; lia).
    destruct (Z.ltb_spec (64 * Z.of_nat n + 64 - 1) (64 * Z.of_nat n)); [lia|].
    replace (64 * Z.of_nat n + 64 - 1 - 64 * Z.of_nat n) with 63 by lia.
    assert (Z.testbit (h + LB * k) 63 = (9223372036854775808 <=? h)) as ->.
    { change LB with (2 ^ 64). rewrite testbit_concat by (done || lia). cbn [Z.ltb Z.compare Pos.compare Pos.compare_cont].
      pose proof (shiftr63 h Hh) as Es. change (JS_LIMB_BITS - 1) with 63 in Es. change (LB / 2) with 9223372036854775808 in Es.
      rewrite Z.testbit_odd, Es. now destruct (_ <=? h). }
    rewrite Z.pow_add_r by lia. change (2 ^ 64) with LB. destruct (9223372036854775808 <=? h); ring.
  - assert (2 ^ w <= 2 ^ 63) by (apply Z.pow_le_mono_r; lia). change (2 ^ 63) with 9223372036854775808 in *.
    destruct (Z.leb_spec 9223372036854775808 (h mod 2 ^ w)); [lia | done].
Qed.

Lemma long_asN p bits (s : bool) :
  normalized p -> (2 <= length p)%nat -> Z.of_nat (length p) <= JS_BIGINT_MAX_SIZE ->
  0 < bits < 64 * Z.of_nat (length p) ->
  exists r, js_bigint_asUintN bits (JS_TAG_BIG_INT p) s = Ok r /\ num_ok r /\
    bigint_of r = Some (if s then sgn bits (bval p)
                        else if asUintN_negative bits (bval p) (length p) then bval p mod 2 ^ bits - 2 ^ bits
                        else bval p mod 2 ^ bits).
Proof.
  intros Hp Hl Hsz Hb. unfold js_bigint_asUintN, asUintN_negative.
  destruct (Z.eqb_spec bits 0) as [|_]; [lia|].
  destruct (Z.leb_spec (Z.of_nat (length p) * JS_LIMB_BITS) bits); [unfold JS_LIMB_BITS in *; lia|].
  destruct (Z.leb_spec (64 * Z.of_nat (length p)) bits); [lia|].
  destruct (asN_sizes bits ltac:(lia)) as (Hs & Hlen & Eb). cbv zeta in *.
  set (len := Z.to_nat _) in *. set (shift := Z.land _ _) in *. clearbody len shift.
  rewrite js_bigint_new_ok by lia. cbn [res_bind]. set (n := (len - 1)%nat) in *.
  destruct (trunc_split p n (proj1 Hp) ltac:(lia)) as (k & EV & HL & Hlo & Hh & Hll).
  set (h := List.nth n p 0) in *. set (L := uval (take n p)) in *.
  set (v := if s then u64 _ else _).
  assert (limb v /\ v = if s then u64 (sgn (64 - shift) h) else h mod 2 ^ (64 - shift)) as [Hv Ev].
  { subst v. rewrite trunc_limb_signed, trunc_limb_unsigned by done. split; [|done].
    destruct s; [apply u64_limb|]. pose proof (Z.mod_pos_bound h (2 ^ (64 - shift)) ltac:(apply Z.pow_pos_nonneg; lia)).
    assert (2 ^ (64 - shift) <= 2 ^ 64) by (apply Z.pow_le_mono_r; lia). unfold limb. change (2 ^ 64) with LB in *. lia. }
  clearbody v. destruct (bval_snoc_limb (take n p) v Hlo Hv) as [Hw Ew]. rewrite Hll in Ew. fold L in Ew.
  destruct (normalize_spec _ Hw) as [Hn En]. eexists. split; [reflexivity|].
  destruct (compact_spec _ Hn) as [? ->]. split; [done|]. f_equal. rewrite En, Ew, Ev, EV.
  set (w := 64 - shift) in *. assert (1 <= w <= 64) as Hw' by lia.
  assert (64 = w + shift) as E64 by lia.
  assert (LB = 2 ^ w * 2 ^ shift) as EB by (rewrite <- Z.pow_add_r, <- E64 by lia; reflexivity).
  clearbody w. destruct s.
  - rewrite signed_limb_value, Eb, sgn_block by lia. do 2 f_equal.
    rewrite <- (sgn_wrap w (h + LB * k)), <- (sgn_wrap w h) by lia. f_equal. unfold wrap.
    rewrite EB, <- Z.mul_assoc, (Z.mul_comm (2 ^ w)), Z.mod_add by (apply Z.pow_nonzero; lia). done.
  - assert ((L + Bp n * (h + LB * k)) mod 2 ^ bits = L + Bp n * (h mod 2 ^ w)) as ->.
    { rewrite Eb, Z.pow_add_r, <- Bp_pow, mod_block by (lia || (apply Z.pow_pos_nonneg; lia)).
      rewrite EB, <- Z.mul_assoc, (Z.mul_comm (2 ^ w)), Z.mod_add by (apply Z.pow_nonzero; lia). done. }
    rewrite (unsigned_limb_value w h L n k) by auto. rewrite <- Eb.
    assert ((0 <? bits) && (bits mod 64 =? 0) = (w =? 64)) as ->; [|done].
    destruct (Z.ltb_spec 0 bits); [cbn [andb]|lia].
    rewrite Eb, (Z.mul_comm 64), Z.add_comm, Z.mod_add by lia.
    destruct (Z.eqb_spec w 64) as [->|]; [reflexivity|]. rewrite Z.mod_small by lia. apply Z.eqb_neq. lia.
Qed.

Lemma sgn_wide w v : 64 <= w -> in_s 64 v -> sgn w v = v.
Proof.
  intros Hw [H1 H2]. apply sgn_small; [lia|]. assert (2 ^ (64 - 1) <= 2 ^ (w - 1)) by (apply Z.pow_le_mono_r; lia).
  split; lia.
Qed.

(** An [x] that is a signed [w]-bit number, as an unsigned one. *)
Lemma signed_mod w x : 1 <= w -> in_s w x -> x mod 2 ^ w = if x <? 0 then x + 2 ^ w else x.
Proof.
  intros Hw [H1 H2]. assert (2 ^ w = 2 * 2 ^ (w - 1)) as E by (rewrite <- Z.pow_succ_r by lia; f_equal; lia).
  destruct (Z.ltb_spec x 0); [symmetry; apply Z.mod_unique with (-1) | apply Z.mod_small]; lia.
Qed.

Lemma num_in_s p x : num_ok p -> bigint_of p = Some x -> in_s (64 * Z.of_nat (limbs_of p)) x.
Proof.
  intros Hp E. destruct (bigint_cases p x E) as [-> | [t ->]].
  - apply Hp.
  - injection E as <-. destruct Hp as [_ [Ht Hl]]. destruct (bval_range t (proj1 Ht)) as [R1 R2].
    rewrite Bp_pow in R1, R2. cbn [limbs_of]. unfold in_s.
    assert (2 ^ (64 * Z.of_nat (length t)) = 2 * 2 ^ (64 * Z.of_nat (length t) - 1)) as E2
      by (rewrite <- Z.pow_succ_r by lia; f_equal; lia). lia.
Qed.

Lemma in_s_mono w1 w2 x : 1 <= w1 <= w2 -> in_s w1 x -> in_s w2 x.
Proof.
  intros Hw [H1 H2]. assert (2 ^ (w1 - 1) <= 2 ^ (w2 - 1)) by (apply Z.pow_le_mono_r; lia). split; lia.
Qed.

Lemma asN_spec a x bits (s : bool) :
  num_ok a -> bigint_of a = Some x -> 0 <= bits -> Z.of_nat (limbs_of a) <= JS_BIGINT_MAX_SIZE ->
  exists r, js_bigint_asUintN bits a s = Ok r /\ num_ok r /\
    bigint_of r = Some (if bits =? 0 then 0
                        else if s then sgn bits x
                        else if asUintN_negative bits x (limbs_of a) then x mod 2 ^ bits - 2 ^ bits
                        else x mod 2 ^ bits).
Proof.
  intros Ha Ea Hb Hl. destruct (Z.eqb_spec bits 0) as [->|Hb0].
  { eexists. split_and!; [reflexivity| |reflexivity..]. now vm_compute. }
  pose proof (num_in_s a x Ha Ea) as Hx. destruct (Z.le_gt_cases (64 * Z.of_nat (limbs_of a)) bits) as [Hw|Hw].
  - exists a. assert (1 <= limbs_of a)%nat as H1.
    { destruct (bigint_cases a x Ea) as [-> | [t ->]]; [done|]. destruct Ha as [_ [_ ?]]. cbn. lia. }
    assert (js_bigint_asUintN bits a s = Ok a) as ->.
    { unfold js_bigint_asUintN. rewrite (proj2 (Z.eqb_neq _ _) Hb0).
      destruct (bigint_cases a x Ea) as [-> | [t ->]]; cbn [limbs_of] in Hw.
      - destruct (Z.leb_spec 64 bits); [done | lia].
      - unfold JS_LIMB_BITS. destruct (Z.leb_spec (Z.of_nat (length t) * 64) bits); [done | lia]. }
    split_and!; [done | done |]. rewrite Ea. f_equal. apply (in_s_mono _ bits) in Hx; [|lia].
    unfold asUintN_negative. destruct (Z.leb_spec (64 * Z.of_nat (limbs_of a)) bits); [|lia].
    destruct s; [symmetry; apply sgn_small; [lia | done]|].
    rewrite signed_mod by (done || lia). destruct (x <? 0); lia.
  - destruct (bigint_cases a x Ea) as [-> | [t ->]].
    + cbn [limbs_of] in Hw. unfold js_bigint_asUintN, asUintN_negative. rewrite (proj2 (Z.eqb_neq _ _) Hb0).
      destruct (Z.leb_spec 64 bits); [lia|]. cbn [limbs_of]. destruct (Z.leb_spec (64 * Z.of_nat 1) bits); [lia|].
      rewrite (Z.mod_small bits) by lia. rewrite (proj2 (Z.eqb_neq bits 0)) by done. rewrite andb_false_r. cbn [andb].
      rewrite trunc_limb_signed, trunc_limb_unsigned by lia. replace (64 - (64 - bits)) with bits by lia.
      eexists. split; [reflexivity|].
      assert (in_s 64 (if s then sgn bits (u64 x) else u64 x mod 2 ^ bits)) as Hr.
      { destruct s; [apply (in_s_mono bits); [lia | apply sgn_range; lia]|].
        pose proof (Z.mod_pos_bound (u64 x) (2 ^ bits) ltac:(apply Z.pow_pos_nonneg; lia)).
        assert (2 ^ bits <= 2 ^ 63) by (apply Z.pow_le_mono_r; lia). unfold in_s. change (2 ^ (64 - 1)) with (2 ^ 63). lia. }
      assert (u64 x mod 2 ^ bits = x mod 2 ^ bits) as Em.
      { unfold wrap. replace (2 ^ 64) with (2 ^ bits * 2 ^ (64 - bits)) by (rewrite <- Z.pow_add_r by lia; f_equal; lia).
        rewrite Z.rem_mul_r by (try apply Z.pow_nonzero; try apply Z.pow_pos_nonneg; lia).
        rewrite Z.mul_comm, Z.mod_add, Z.mod_mod by (apply Z.pow_nonzero; lia). done. }
      destruct s.
      * rewrite sgn_wrap by lia. assert (sgn bits (u64 x) = sgn bits x) as Es
          by (rewrite <- (sgn_wrap bits (u64 x)), <- (sgn_wrap bits x) by lia; unfold wrap at 1 3; now rewrite Em).
        rewrite Es in *. rewrite sgn_small by (done || lia). split; [split; done | done].
      * rewrite Em in *. rewrite sgn_small by (done || lia). split; [split; done | done].
    + injection Ea as <-. destruct Ha as [_ [Ht Hlt]]. cbn [limbs_of] in *.
      apply long_asN; auto; lia.
Qed.

(** ** The refinement theorems *)

(** The operator of the interpreter on two values. *)
Definition arith_operator tp sn tpn (op : arith_op) (a b : JSValue) : res numeric_result :=
  match op with
  | OP_add => js_add_slow tp sn tpn a b
  | _ => js_binary_arith_slow tp sn a b op
  end.

(** C9: the operators [+], [-], [*], [/], [%] and [**] on BigInt values, over
    their short and long representations and fast and slow paths, compute the
    integer operation (truncated division) and keep the representation
    invariant; they throw exactly on a zero divisor or a negative exponent,
    and otherwise only the size [RangeError], and only at the allocation limit
    of 16384 limbs: of the longer operand for [+] and [-], of both together for
    [*], of the dividend and two more for [/] and [%], and for [**] of the
    power and two more, whatever the intermediate results are. *)
Theorem bigint_arith_refines tp sn tpn op a b x y :
  num_ok a -> num_ok b -> bigint_of a = Some x -> bigint_of b = Some y ->
  arith_outcome (arith_fits op (limbs_of a) (limbs_of b) x y) good_value op x y
    (arith_operator tp sn tpn op (Prim a) (Prim b)).
Proof.
  intros Ha Hb Ea Eb. destruct op; [now apply add_outcome | now apply binary_arith_outcome..].
Qed.

(** (-2^64) / 3 through the long division. *)
Lemma bigint_arith_refines_witness :
  arith_outcome (arith_fits OP_div 2 1 (- 2 ^ 64) 3) good_value OP_div (- 2 ^ 64) 3
    (arith_operator no_object nan_string no_object OP_div
       (Prim (JS_TAG_BIG_INT [0; LB - 1])) (Prim (JS_TAG_SHORT_BIG_INT 3))).
Proof.
  apply (bigint_arith_refines no_object nan_string no_object OP_div
           (JS_TAG_BIG_INT [0; LB - 1]) (JS_TAG_SHORT_BIG_INT 3) (- 2 ^ 64) 3).
  - split; [done|]. split; [|done].
    split; [apply (wf_snoc [0]); [apply Forall_singleton; done | done]|].
    intros [|? l] lo v E; [now injection E as <- <-|].
    apply (f_equal length) in E. cbn in E. rewrite length_app in E. cbn in E. lia.
  - now vm_compute.
  - reflexivity.
  - reflexivity.
Defined.

(** [++], [--], unary [-] and [~] of a BigInt are the integer successor,
    predecessor, opposite and complement, with the switch to the long
    representation at the bounds of the short one; unary [+] throws. *)
Theorem bigint_unary_refines tp sn a x :
  num_ok a -> bigint_of a = Some x -> Z.of_nat (limbs_of a) <= JS_BIGINT_MAX_SIZE ->
  (forall op, unary_outcome True op x (js_unary_arith_slow tp sn (Prim a) op)) /\
  (exists r, js_not_slow tp sn (Prim a) = Ok r /\ num_ok r /\ bigint_of r = Some (Z.lnot x)).
Proof.
  intros Ha Ea Hl. split; [|now apply not_outcome]. intros op.
  pose proof (unary_arith_outcome tp sn op a x Ha Ea) as H. unfold unary_outcome in *.
  destruct (unary_spec op x); [|done]. now apply (yields_value_weaken _ True) in H.
Qed.

Lemma bigint_unary_refines_witness :
  unary_outcome True OP_neg INT64_MIN (js_unary_arith_slow no_object nan_string (Prim (JS_TAG_SHORT_BIG_INT INT64_MIN)) OP_neg).
Proof.
  apply (bigint_unary_refines no_object nan_string (JS_TAG_SHORT_BIG_INT INT64_MIN) INT64_MIN);
    [split; [split; [discriminate | reflexivity] | done] | reflexivity | vm_compute; discriminate].
Defined.

(** C10: [&], [|], [^], [<<] and [>>] on BigInts are the bitwise operations and
    arithmetic shifts of the infinite two's complement integers, for counts of
    either sign and of any size: the saturation of the count to 32 bits and the
    int64 and int128 fast paths never change the result. *)
Theorem bigint_logic_refines tp sn op a b x y :
  num_ok a -> num_ok b -> bigint_of a = Some x -> bigint_of b = Some y -> size_ok a ->
  yields_value (binlogic_fits op (limbs_of a) (limbs_of b) y)
    (js_binary_logic_slow tp sn (Prim a) (Prim b) op) (binlogic_spec op x y).
Proof. apply binary_logic_outcome. Qed.

Lemma bigint_logic_refines_witness :
  yields_value (binlogic_fits OP_shl 1 1 63)
    (js_binary_logic_slow no_object nan_string (Prim (JS_TAG_SHORT_BIG_INT (-5))) (Prim (JS_TAG_SHORT_BIG_INT 63)) OP_shl)
    (binlogic_spec OP_shl (-5) 63).
Proof.
  apply (bigint_logic_refines no_object nan_string OP_shl (JS_TAG_SHORT_BIG_INT (-5)) (JS_TAG_SHORT_BIG_INT 63) (-5) 63);
    [split; [split; [discriminate | reflexivity] | done] | split; [split; [discriminate | reflexivity] | done]
    | reflexivity | reflexivity | vm_compute; discriminate].
Defined.

(** The relational operators on ints and BigInts in any mix of
    representations decide the order and the equality of the integers. *)
Theorem bigint_compare_correct op a b x y :
  num_ok a -> num_ok b -> integer_of a = Some x -> integer_of b = Some y ->
  js_compare_bigint op a b = Ok (compare_spec op x y).
Proof. apply compare_bigint_spec. Qed.

Lemma bigint_compare_correct_witness :
  js_compare_bigint OP_lt (JS_TAG_SHORT_BIG_INT (-1)) (JS_TAG_INT 1) = Ok true.
Proof.
  rewrite (bigint_compare_correct OP_lt (JS_TAG_SHORT_BIG_INT (-1)) (JS_TAG_INT 1) (-1) 1);
    [reflexivity | split; [split; [discriminate | reflexivity] | done]
    | split; [split; [discriminate | reflexivity] | done] | reflexivity | reflexivity].
Defined.

(** C28: [BigInt.asIntN] reduces to a signed [bits]-bit integer, and
    [BigInt.asUintN] to an unsigned one except where [asUintN_negative] holds
    (a negative operand that is no wider than [bits], or a multiple of 64 bits
    with its top bit set): there the code returns the result minus 2^bits. *)
Theorem bigint_asN_correct a x bits (asIntN : bool) :
  num_ok a -> bigint_of a = Some x -> 0 < bits -> Z.of_nat (limbs_of a) <= JS_BIGINT_MAX_SIZE ->
  exists r, js_bigint_asUintN bits a asIntN = Ok r /\ num_ok r /\
    bigint_of r = Some (if asIntN then sgn bits x
                        else if asUintN_negative bits x (limbs_of a) then x mod 2 ^ bits - 2 ^ bits
                        else x mod 2 ^ bits).
Proof.
  intros Ha Ea Hb Hl. destruct (asN_spec a x bits asIntN Ha Ea ltac:(lia) Hl) as (r & E & Hr & Ev).
  exists r. rewrite (proj2 (Z.eqb_neq bits 0)) in Ev by lia. auto.
Qed.

Lemma bigint_asN_correct_witness :
  js_bigint_asUintN 8 (JS_TAG_SHORT_BIG_INT 200) true = Ok (JS_TAG_SHORT_BIG_INT (-56)) /\
  js_bigint_asUintN 64 (JS_TAG_SHORT_BIG_INT (-1)) false = Ok (JS_TAG_SHORT_BIG_INT (-1)) /\
  exists r, js_bigint_asUintN 8 (JS_TAG_SHORT_BIG_INT 200) true = Ok r /\ num_ok r /\
    bigint_of r = Some (sgn 8 200).
Proof.
  split; [reflexivity|]. split; [reflexivity|].
  apply (bigint_asN_correct (JS_TAG_SHORT_BIG_INT 200) 200 8 true);
    [split; [split; [discriminate | reflexivity] | done] | reflexivity | reflexivity | vm_compute; discriminate].
Defined.
