(* ===== verification/IntPrint.v ===== *)
(** * Printing of integers

    The integer to text functions of [src/deps/dtoa.c] (530 to 702), behind the
    names of array elements, [Number.prototype.toString] and
    [BigInt.prototype.toString].  A text is the list of its bytes.  A write in
    front of a buffer is [None]. *)

From Stdlib Require Import ZArith Lia Bool.
From stdpp Require Import base numbers list option.
From S2P Require Import Prelude.

#[local] Open Scope Z_scope.

(** ** The functions *)

(** [digit + '0'], and for bases above 10 [digit + 'a' - 10]. *)
Definition dec_digit (d : Z) : Z := d + 48.
Definition to_digit (d : Z) : Z := if d <? 10 then d + 48 else d + 97 - 10.

(** A loop on [buf[len - 1]] down to [buf[0]]. *)
Fixpoint u32toa_len (n : Z) (len : nat) : list Z :=
  match len with
  | O => []
  | S len => u32toa_len (n / 10) len ++ [dec_digit (n mod 10)]
  end.

Fixpoint u64toa_bin_len (n radix_bits : Z) (len : nat) : list Z :=
  match len with
  | O => []
  | S len => u64toa_bin_len (Z.shiftr n radix_bits) radix_bits len ++ [to_digit (Z.land n (2 ^ radix_bits - 1))]
  end.

(** The [do] loop that fills [buf1] from its end; [room] bytes are left. *)
Fixpoint to_buf1 (digit : Z -> Z) (radix : Z) (room : nat) (n : Z) (q : list Z) : option (list Z) :=
  match room with
  | O => None
  | S room =>
      let q := digit (n mod radix) :: q in
      let n := n / radix in
      if n =? 0 then Some q else to_buf1 digit radix room n q
  end.

Definition u32toa (n : Z) : option (list Z) := to_buf1 dec_digit 10 10 n [].

Definition i32toa (n : Z) : option (list Z) :=
  if 0 <=? n then u32toa n else s ← u32toa (u32 (- u32 n)); Some (45 :: s).

Definition u64toa (n : Z) : option (list Z) :=
  if n <? 0x100000000 then u32toa n
  else
    let n1 := n / 1000000000 in
    let n := n mod 1000000000 in
    q ← if 0x100000000 <=? n1 then
          let n2 := u32 (n1 / 1000000000) in
          let n1 := n1 mod 1000000000 in
          let q := if 10 <=? n2 then [dec_digit (n2 / 10); dec_digit (n2 mod 10)] else [dec_digit n2] in
          Some (q ++ u32toa_len n1 9)
        else u32toa n1;
    Some (q ++ u32toa_len n 9).

Definition i64toa (n : Z) : option (list Z) :=
  if 0 <=? n then u64toa n else s ← u64toa (u64 (- u64 n)); Some (45 :: s).

Definition clz32 (n : Z) : Z := 31 - Z.log2 n.
Definition clz64 (n : Z) : Z := 63 - Z.log2 n.

Definition u64toa_radix (n radix : Z) : option (list Z) :=
  if radix =? 10 then u64toa n
  else if Z.land radix (radix - 1) =? 0 then
    let radix_bits := 31 - clz32 radix in
    let l := if n =? 0 then 1 else (64 - clz64 n + radix_bits - 1) / radix_bits in
    Some (u64toa_bin_len n radix_bits (Z.to_nat l))
  else to_buf1 to_digit radix 41 n [].

Definition i64toa_radix (n radix : Z) : option (list Z) :=
  if 0 <=? n then u64toa_radix n radix else s ← u64toa_radix (u64 (- u64 n)) radix; Some (45 :: s).

(** ** Numerals *)

Definition digit_value (c : Z) : Z := if c <? 58 then c - 48 else c - 97 + 10.

(** Horner's rule. *)
Definition number (radix : Z) (s : list Z) : Z := foldl (fun n c => n * radix + digit_value c) 0 s.

Definition is_digit (radix c : Z) : Prop := exists d, 0 <= d < radix /\ c = to_digit d.

(** Digits, and no zero in front of others. *)
Definition numeral (radix : Z) (s : list Z) : Prop :=
  Forall (is_digit radix) s /\ match s with [] => False | [_] => True | c :: _ => c <> 48 end.

Definition prints (radix n : Z) (s : list Z) : Prop := numeral radix s /\ number radix s = n.

Lemma digit_value_to_digit d : 0 <= d < 36 -> digit_value (to_digit d) = d.
Proof. intros H. unfold digit_value, to_digit. zcases. Qed.

Lemma to_digit_zero d : 0 <= d -> to_digit d = 48 -> d = 0.
Proof. intros H. unfold to_digit. zcases. Qed.

Lemma dec_digit_eq d : 0 <= d < 10 -> dec_digit d = to_digit d.
Proof. intros H. unfold dec_digit, to_digit. zcases. Qed.

Lemma number_app radix s c : number radix (s ++ [c]) = number radix s * radix + digit_value c.
Proof. unfold number. now rewrite foldl_app. Qed.

(** The digits of a number: the last one, after those of the quotient. *)
Fixpoint digits (radix : Z) (k : nat) (n : Z) : list Z :=
  match k with
  | O => []
  | S k => digits radix k (n / radix) ++ [to_digit (n mod radix)]
  end.

Section Radix.
Context (radix : Z) (Hradix : 2 <= radix <= 36).

Lemma digits_length k : forall n, length (digits radix k n) = k.
Proof using. induction k as [|k IH]; intros n; cbn [digits]; [done|]. rewrite length_app, IH. cbn. lia. Qed.

Lemma digits_digit k : forall n, Forall (is_digit radix) (digits radix k n).
Proof using Hradix.
  induction k as [|k IH]; intros n; cbn [digits]; [constructor|]. apply Forall_app. split; [apply IH|].
  constructor; [|constructor]. exists (n mod radix). split; [apply Z.mod_pos_bound; lia | done].
Qed.

Lemma digits_number k : forall n, 0 <= n -> number radix (digits radix k n) = n mod radix ^ Z.of_nat k.
Proof using Hradix.
  induction k as [|k IH]; intros n Hn; cbn [digits].
  - cbn. now rewrite Z.mod_1_r.
  - rewrite number_app, IH by (apply Z.div_pos; lia). pose proof (Z.mod_pos_bound n radix). rewrite digit_value_to_digit by lia.
    rewrite Nat2Z.inj_succ, Z.pow_succ_r, Z.rem_mul_r by (try apply Z.pow_pos_nonneg; lia). lia.
Qed.

(** [k] digits are enough for a number below [radix ^ k], and print it when the
    first one is not 0. *)
Lemma digits_prints k n : 0 <= n < radix ^ Z.of_nat k -> (k = 1%nat \/ radix ^ (Z.of_nat k - 1) <= n) -> (0 < k)%nat -> prints radix n (digits radix k n).
Proof using Hradix.
  intros Hn Hk Hpos. split; [|rewrite digits_number by lia; apply Z.mod_small; lia]. split; [apply digits_digit|].
  destruct k as [|[|k]]; [lia | done|]. destruct Hk as [Hk|Hk]; [lia|].
  assert (forall k m, (0 < k)%nat -> 0 <= m -> radix ^ (Z.of_nat k - 1) <= m < radix ^ Z.of_nat k ->
    exists c s, digits radix k m = c :: s /\ c <> 48) as Hd.
  { clear - Hradix. induction k as [|k IH]; intros m H0 Hm Hr; [lia|]. cbn [digits]. destruct (decide (k = 0%nat)) as [->|Hne].
    - cbn in *. exists (to_digit (m mod radix)), []. split; [done|]. intros E. apply to_digit_zero in E; [|apply Z.mod_pos_bound; lia].
      rewrite Z.mod_small in E by lia. lia.
    - destruct (IH (m / radix)) as (c & s & -> & Hc); [lia | apply Z.div_pos; lia | |].
      + replace (Z.of_nat (S k) - 1) with (Z.succ (Z.of_nat k - 1)) in Hr by lia. rewrite Nat2Z.inj_succ, !Z.pow_succ_r in Hr by lia. split.
        * apply Z.div_le_lower_bound; lia.
        * apply Z.div_lt_upper_bound; lia.
      + exists c, (s ++ [to_digit (m mod radix)]). done. }
  destruct (Hd (S (S k)) n) as (c & s & E & Hc); [lia | lia | lia|]. rewrite E. destruct s; [|done].
  pose proof (f_equal length E) as EL. rewrite digits_length in EL. cbn in EL. lia.
Qed.

(** The number of digits of [n]. *)
Lemma digits_count n : 0 <= n -> exists k, (0 < k)%nat /\ n < radix ^ Z.of_nat k /\ (k = 1%nat \/ radix ^ (Z.of_nat k - 1) <= n).
Proof using Hradix.
  intros Hn. destruct (decide (n = 0)) as [->|Hne]; [exists 1%nat; split_and!; [lia | lia | now left]|].
  (* the least exponent *)
  assert (forall j, n < radix ^ Z.of_nat j -> exists k, (0 < k)%nat /\ n < radix ^ Z.of_nat k /\ (k = 1%nat \/ radix ^ (Z.of_nat k - 1) <= n)) as H.
  { induction j as [|j IH]; intros Hj; [cbn in Hj; lia|]. destruct (decide (n < radix ^ Z.of_nat j)) as [Hl|Hl]; [auto|].
    exists (S j). split_and!; [lia | done|]. right. replace (Z.of_nat (S j) - 1) with (Z.of_nat j) by lia. lia. }
  apply (H (Z.to_nat n)). rewrite Z2Nat.id by lia. apply Z.pow_gt_lin_r; lia.
Qed.
End Radix.

(** ** The loops *)

Section Loops.
Context (radix : Z) (Hradix : 2 <= radix <= 36).

(** The digits beyond [radix ^ j] do not matter. *)
Lemma digits_mod j : forall n, digits radix j (n mod radix ^ Z.of_nat j) = digits radix j n.
Proof using Hradix.
  induction j as [|j IH]; intros n; cbn [digits]; [done|]. rewrite Nat2Z.inj_succ, Z.pow_succ_r by lia.
  assert (0 < radix ^ Z.of_nat j) by (apply Z.pow_pos_nonneg; lia). f_equal; [|do 2 f_equal].
  - rewrite <- (IH (n / radix)), <- (IH (n mod _ / _)). f_equal. rewrite Z.rem_mul_r by lia.
    rewrite (Z.mul_comm radix (_ mod _)), Z.div_add, Z.div_small by (try apply Z.mod_pos_bound; lia). rewrite Z.add_0_l. apply Z.mod_mod. lia.
  - rewrite Z.rem_mul_r by lia. rewrite (Z.mul_comm radix (_ mod _)), Z.mod_add by lia. apply Z.mod_mod. lia.
Qed.

Lemma digits_app k j : forall n, digits radix (k + j) n = digits radix k (n / radix ^ Z.of_nat j) ++ digits radix j n.
Proof using Hradix.
  induction j as [|j IH]; intros n; cbn [digits].
  - cbn. rewrite Nat.add_0_r, Z.div_1_r. now rewrite app_nil_r.
  - rewrite Nat.add_succ_r. cbn [digits]. rewrite IH, app_assoc. f_equal. f_equal. f_equal.
    rewrite Nat2Z.inj_succ, Z.pow_succ_r, Z.div_div by (try (apply Z.pow_pos_nonneg; lia); lia). done.
Qed.

Lemma to_buf1_eq digit : (forall d, 0 <= d < radix -> digit d = to_digit d) ->
  forall room k n q, (0 < k <= room)%nat -> 0 <= n < radix ^ Z.of_nat k -> (k = 1%nat \/ radix ^ (Z.of_nat k - 1) <= n) ->
  to_buf1 digit radix room n q = Some (digits radix k n ++ q).
Proof using Hradix.
  intros Hd. induction room as [|room IH]; intros k n q Hk Hn Hl; [lia|]. cbn [to_buf1].
  rewrite Hd by (apply Z.mod_pos_bound; lia). destruct k as [|k]; [lia|]. rewrite Nat2Z.inj_succ, Z.pow_succ_r in Hn by lia.
  destruct (Z.eqb_spec (n / radix) 0) as [E|E].
  - apply Z.div_small_iff in E; [|lia]. destruct k as [|k].
    + cbn [digits app]. done.
    + destruct Hl as [?|Hl]; [lia|]. replace (Z.of_nat (S (S k)) - 1) with (Z.succ (Z.of_nat k)) in Hl by lia.
      rewrite Z.pow_succ_r in Hl by lia. pose proof (Z.pow_pos_nonneg radix (Z.of_nat k)). nia.
  - assert (k <> 0%nat) as Hk0.
    { intros ->. apply E, Z.div_small. cbn in Hn. lia. }
    rewrite IH with (k := k); [cbn [digits]; now rewrite <- app_assoc | lia | |].
    + split; [apply Z.div_pos; lia | apply Z.div_lt_upper_bound; lia].
    + destruct Hl as [?|Hl]; [lia|]. right. apply Z.div_le_lower_bound; [lia|].
      replace (Z.of_nat (S k) - 1) with (Z.succ (Z.of_nat k - 1)) in Hl by lia. rewrite Z.pow_succ_r in Hl by lia. lia.
Qed.

Lemma to_buf1_prints digit room n : (forall d, 0 <= d < radix -> digit d = to_digit d) -> (0 < room)%nat ->
  0 <= n < radix ^ Z.of_nat room -> exists s, to_buf1 digit radix room n [] = Some s /\ prints radix n s.
Proof using Hradix.
  intros Hd H0 Hn. destruct (digits_count radix Hradix n) as (k & Hk & Hn' & Hl); [lia|]. exists (digits radix k n). split.
  - rewrite (to_buf1_eq digit Hd room k); [now rewrite app_nil_r | | lia | done]. split; [done|]. destruct Hl as [->|Hl]; [lia|].
    assert (Z.of_nat k - 1 < Z.of_nat room); [|lia]. apply (Z.pow_lt_mono_r_iff radix); lia.
  - apply digits_prints; [done | lia | done | done].
Qed.
End Loops.

Lemma u32toa_len_eq len : forall n, u32toa_len n len = digits 10 len n.
Proof.
  induction len as [|len IH]; intros n; cbn [u32toa_len digits]; [done|]. rewrite IH, dec_digit_eq; [done|].
  apply Z.mod_pos_bound. lia.
Qed.

Lemma u64toa_bin_len_eq bits len : 0 <= bits -> forall n, u64toa_bin_len n bits len = digits (2 ^ bits) len n.
Proof.
  intros Hb. induction len as [|len IH]; intros n; cbn [u64toa_bin_len digits]; [done|]. rewrite IH, Z.shiftr_div_pow2 by lia.
  rewrite Z.sub_1_r, <- Z.ones_equiv, Z.land_ones by lia. done.
Qed.

Lemma u32toa_prints n : in_u 32 n -> exists s, u32toa n = Some s /\ prints 10 n s.
Proof.
  intros Hn. apply to_buf1_prints; [lia | apply dec_digit_eq | lia|]. unfold in_u in Hn.
  change (10 ^ Z.of_nat 10) with 10000000000. lia.
Qed.

(** A number of at most nine digits after another one. *)
Lemma prints_app_digits n k : 0 < n / 10 ^ 9 -> (0 < k)%nat -> n / 10 ^ 9 < 10 ^ Z.of_nat k -> (k = 1%nat \/ 10 ^ (Z.of_nat k - 1) <= n / 10 ^ 9) ->
  prints 10 n (digits 10 k (n / 10 ^ 9) ++ digits 10 9 n).
Proof.
  intros H0 Hk Hn Hl. change 9 with (Z.of_nat 9) at 1. rewrite <- digits_app by lia.
  pose proof (Z.div_mod n (10 ^ 9)) as E. pose proof (Z.mod_pos_bound n (10 ^ 9)).
  apply digits_prints; [lia | | right | lia].
  - rewrite Nat2Z.inj_add, Z.pow_add_r by lia. change (Z.of_nat 9) with 9. nia.
  - rewrite Nat2Z.inj_add. change (Z.of_nat 9) with 9. replace (Z.of_nat k + 9 - 1) with (Z.of_nat k - 1 + 9) by lia. rewrite Z.pow_add_r by lia.
    destruct Hl as [->|Hl]; [cbn [Z.of_nat Pos.of_succ_nat Z.sub Z.pow] in *; nia | nia].
Qed.

Lemma u64toa_prints n : in_u 64 n -> exists s, u64toa n = Some s /\ prints 10 n s.
Proof.
  intros Hn. unfold u64toa, in_u in *. destruct (Z.ltb_spec n 0x100000000) as [H|H]; [now apply u32toa_prints|].
  change 1000000000 with (10 ^ 9). rewrite !u32toa_len_eq.
  change (digits 10 9 (n mod 10 ^ 9)) with (digits 10 9 (n mod 10 ^ Z.of_nat 9)). rewrite digits_mod by lia.
  assert (0 < n / 10 ^ 9) as H0 by (apply Z.div_str_pos; lia).
  assert (n / 10 ^ 9 < 18446744074) as H1 by (apply Z.div_lt_upper_bound; lia).
  destruct (Z.leb_spec 0x100000000 (n / 10 ^ 9)) as [H2|H2].
  - assert (4 <= n / 10 ^ 9 / 10 ^ 9 <= 18) as H3 by (split; [apply Z.div_le_lower_bound; lia | apply Z.lt_succ_r, Z.div_lt_upper_bound; lia]).
    rewrite (wrap_small 32 (n / 10 ^ 9 / 10 ^ 9)) by (unfold in_u; lia). set (n2 := n / 10 ^ 9 / 10 ^ 9) in *.
    change (digits 10 9 (n / 10 ^ 9 mod 10 ^ 9)) with (digits 10 9 (n / 10 ^ 9 mod 10 ^ Z.of_nat 9)). rewrite digits_mod by lia.
    assert (exists k, (if 10 <=? n2 then [dec_digit (n2 / 10); dec_digit (n2 mod 10)] else [dec_digit n2]) = digits 10 k n2 /\
      (0 < k)%nat /\ n2 < 10 ^ Z.of_nat k /\ 10 ^ (Z.of_nat k - 1) <= n2) as (k & -> & Hk & Hk1 & Hk2).
    { destruct (Z.leb_spec 10 n2).
      - exists 2%nat. split_and!; [|lia..]. assert (0 <= n2 / 10 < 10) as Hq by (split; [apply Z.div_pos; lia | apply Z.div_lt_upper_bound; lia]).
        pose proof (Z.mod_pos_bound n2 10 eq_refl) as Hm. cbn [digits app].
        rewrite (dec_digit_eq (n2 / 10)), (dec_digit_eq (n2 mod 10)), (Z.mod_small (n2 / 10)) by done. done.
      - exists 1%nat. split_and!; [|lia..]. cbn [digits app]. rewrite dec_digit_eq, Z.mod_small by lia. done. }
    cbn [mbind option_bind]. eexists. split; [reflexivity|]. unfold n2 in *. change 9 with (Z.of_nat 9) at 2. rewrite <- digits_app by lia.
    apply prints_app_digits; [done | lia | |right].
    + rewrite Nat2Z.inj_add, Z.pow_add_r by lia. change (Z.of_nat 9) with 9.
      pose proof (Z.div_mod (n / 10 ^ 9) (10 ^ 9)). pose proof (Z.mod_pos_bound (n / 10 ^ 9) (10 ^ 9)). nia.
    + rewrite Nat2Z.inj_add. replace (Z.of_nat k + Z.of_nat 9 - 1) with (Z.of_nat k - 1 + 9) by lia. rewrite Z.pow_add_r by lia.
      pose proof (Z.div_mod (n / 10 ^ 9) (10 ^ 9)). pose proof (Z.mod_pos_bound (n / 10 ^ 9) (10 ^ 9)). nia.
  - destruct (digits_count 10 ltac:(lia) (n / 10 ^ 9)) as (k & Hk & Hk1 & Hk2); [lia|].
    unfold u32toa. rewrite (to_buf1_eq 10) with (k := k); [| lia | apply dec_digit_eq | | lia | done].
    + cbn [mbind option_bind]. eexists. split; [reflexivity|]. rewrite app_nil_r. now apply prints_app_digits.
    + split; [done|]. destruct Hk2 as [->|Hk2]; [lia|]. assert (Z.of_nat k - 1 < 10); [|lia].
      apply (Z.pow_lt_mono_r_iff 10); [lia | lia|]. change (10 ^ 10) with 10000000000. lia.
Qed.

(** A power of two, as the test on its bits finds it. *)
Lemma radix_bits_eq radix : 2 <= radix <= 36 -> Z.land radix (radix - 1) = 0 -> radix = 2 ^ (31 - clz32 radix).
Proof.
  intros H. unfold clz32. assert (In radix (map Z.of_nat (seq 2 35))) as Hin.
  { apply in_map_iff. exists (Z.to_nat radix). split; [lia|]. apply in_seq. lia. }
  revert Hin. generalize radix. clear. cbn [seq map]. intros radix Hin E.
  repeat (destruct Hin as [<-|Hin]; [first [reflexivity | discriminate E]|]). destruct Hin.
Qed.

Lemma u64toa_radix_prints radix n : 2 <= radix <= 36 -> in_u 64 n -> exists s, u64toa_radix n radix = Some s /\ prints radix n s.
Proof.
  intros Hr Hn. unfold u64toa_radix, in_u in *. destruct (Z.eqb_spec radix 10) as [->|_]; [now apply u64toa_prints|].
  destruct (Z.eqb_spec (Z.land radix (radix - 1)) 0) as [E|E].
  - apply radix_bits_eq in E; [|done]. set (b := 31 - clz32 radix) in *. assert (0 < b) as Hb.
    { unfold b, clz32. pose proof (Z.log2_pos radix). lia. }
    eexists. split; [reflexivity|]. rewrite u64toa_bin_len_eq by lia. rewrite <- E.
    destruct (Z.eqb_spec n 0) as [->|Hne]; [apply digits_prints; [done | lia | now left | lia]|].
    unfold clz64. replace (64 - (63 - Z.log2 n) + b - 1) with (Z.log2 n + 1 * b) by lia. rewrite Z.div_add by lia.
    pose proof (Z.log2_nonneg n). assert (0 <= Z.log2 n / b) by (apply Z.div_pos; lia).
    destruct (Z.log2_spec n) as [Hl1 Hl2]; [lia|]. pose proof (Z.div_mod (Z.log2 n) b). pose proof (Z.mod_pos_bound (Z.log2 n) b).
    apply digits_prints; [done | | right | lia]; rewrite Z2Nat.id by lia; rewrite E, <- Z.pow_mul_r by lia.
    + split; [lia|]. eapply Z.lt_le_trans; [apply Hl2|]. apply Z.pow_le_mono_r; lia.
    + etransitivity; [|apply Hl1]. apply Z.pow_le_mono_r; lia.
  - assert (radix <> 2) by now intros ->. apply to_buf1_prints; [done | done | lia|]. split; [lia|]. apply Z.lt_le_trans with (3 ^ 41).
    + change (3 ^ 41) with 36472996377170786403. lia.
    + apply Z.pow_le_mono_l. lia.
Qed.

(** ** A number has one numeral *)

Section Unique.
Context (radix : Z) (Hradix : 2 <= radix <= 36).

Lemma number_digits s : Forall (is_digit radix) s -> 0 <= number radix s < radix ^ Z.of_nat (length s) /\ digits radix (length s) (number radix s) = s.
Proof using Hradix.
  induction s as [|c s IH] using rev_ind; intros H; [cbn; split; [lia | done]|]. apply Forall_app in H as [Hs Hc]. destruct (IH Hs) as [Hr E].
  apply Forall_singleton in Hc as (d & Hd & ->). rewrite number_app, digit_value_to_digit, length_app by lia. cbn [length].
  rewrite Nat.add_1_r, Nat2Z.inj_succ, Z.pow_succ_r by lia. split; [nia|]. cbn [digits].
  rewrite Z.div_add_l by lia. rewrite (Z.div_small d) by lia. rewrite Z.add_0_r, E, Z.add_comm, Z.mod_add by lia. now rewrite Z.mod_small by lia.
Qed.

(** A first digit that is not 0 makes a number of that length. *)
Lemma number_lower c s : Forall (is_digit radix) (c :: s) -> c <> 48 -> radix ^ Z.of_nat (length s) <= number radix (c :: s).
Proof using Hradix.
  revert c. induction s as [|x s IH] using rev_ind; intros c H Hc.
  - apply Forall_singleton in H as (d & Hd & ->). cbn. rewrite digit_value_to_digit by lia.
    assert (d <> 0) by (intros ->; now apply Hc). lia.
  - rewrite app_comm_cons in *. apply Forall_app in H as [Hs Hx]. specialize (IH c Hs Hc).
    apply Forall_singleton in Hx as (d & Hd & ->). rewrite number_app, digit_value_to_digit, length_app by lia. cbn [length].
    rewrite Nat.add_1_r, Nat2Z.inj_succ, Z.pow_succ_r by lia. nia.
Qed.

Lemma numeral_unique n s s' : prints radix n s -> prints radix n s' -> s = s'.
Proof using Hradix.
  assert (forall s s', prints radix n s -> prints radix n s' -> (length s < length s')%nat -> False) as H.
  { clear s s'. intros s s' [[D N] E] [[D' N'] E'] Hlt. destruct s' as [|c [|x s']]; [done | destruct s; [done | cbn in Hlt; lia] |].
    pose proof (number_lower c (x :: s') D' N') as Hl. rewrite E' in Hl. destruct (number_digits s D) as [[_ Hu] _]. rewrite E in Hu.
    assert (radix ^ Z.of_nat (length s) <= radix ^ Z.of_nat (length (x :: s'))); [|lia]. apply Z.pow_le_mono_r; [lia|]. cbn in *. lia. }
  intros P P'. destruct (lt_eq_lt_dec (length s) (length s')) as [[Hlt|Heq]|Hlt]; [now destruct (H s s') | | now destruct (H s' s)].
  destruct P as [[D _] E], P' as [[D' _] E'], (number_digits s D) as [_ <-], (number_digits s' D') as [_ <-]. congruence.
Qed.
End Unique.

(** C40: [i64toa_radix] and [u64toa_radix], and with them [Number] and [BigInt]
    [toString(radix)] for machine integers, print every 64-bit number in every
    radix from 2 to 36: no write leaves the 41 bytes of the buffer, the text is
    the numeral without leading zeros that denotes the number, there is no other
    such numeral, and a negative number is a minus sign and the numeral of its
    absolute value, the smallest one included. *)
Theorem integer_printing_exact radix n : 2 <= radix <= 36 ->
  (in_u 64 n -> exists s, u64toa_radix n radix = Some s /\ prints radix n s /\ forall s', prints radix n s' -> s' = s) /\
  (in_s 64 n -> exists s, i64toa_radix n radix = Some (if n <? 0 then 45 :: s else s) /\ prints radix (Z.abs n) s).
Proof.
  intros Hr. split; intros Hn.
  - destruct (u64toa_radix_prints radix n Hr Hn) as (s & E & P). exists s. split_and!; [done | done|]. intros s' P'.
    now apply (numeral_unique radix Hr n).
  - unfold i64toa_radix, in_s in *. destruct (Z.ltb_spec n 0) as [Hneg|Hpos].
    + destruct (u64toa_radix_prints radix (- n) Hr) as (s & E & P); [unfold in_u; lia|].
      exists s. destruct (Z.leb_spec 0 n); [lia|]. assert (u64 (- u64 n) = - n) as ->; [|rewrite E; split; [done|]; now rewrite Z.abs_neq by lia].
      rewrite (wrap_unique 64 n (n + 2 ^ 64) (-1)) by (unfold in_u; lia).
      apply wrap_unique with (k := -1); [lia | unfold in_u; lia | lia].
    + destruct (u64toa_radix_prints radix n Hr) as (s & E & P); [unfold in_u; lia|]. exists s.
      destruct (Z.leb_spec 0 n); [|lia]. now rewrite Z.abs_eq.
Qed.

(** The smallest 64-bit integer, and one beyond 2^53. *)
Lemma integer_printing_exact_witness : exists s, u64toa_radix (2 ^ 64 - 1) 36 = Some s /\ prints 36 (2 ^ 64 - 1) s /\ length s = 13%nat.
Proof.
  destruct (integer_printing_exact 36 (2 ^ 64 - 1) ltac:(lia)) as [H _]. destruct H as (s & E & P & _); [unfold in_u; lia|].
  exists s. split_and!; [exact E | exact P|]. vm_compute in E. now injection E as <-.
Defined.
