(* ===== verification/JSStrings.v ===== *)
(** * Strings

    The strings of [src/core/quickjs.c]: comparison (4145 to 4216), hashing and
    the test for a decimal number (2484 to 2549). *)

From Stdlib Require Import ZArith Lia Bool.
From stdpp Require Import base numbers list option.
From S2P Require Import Prelude IntPrint.

#[local] Open Scope Z_scope.

(** The length is that of the array. *)
Record JSString : Type := mk_string { is_wide_char : bool; str : list Z }.

#[export] Instance JSString_eq_dec : EqDecision JSString.
Proof. solve_decision. Defined.

(** Every element has the width of the array. *)
Definition wf_string (p : JSString) : Prop := Forall (in_u (if is_wide_char p then 16 else 8)) (str p).

Definition string_get (p : JSString) (idx : nat) : option Z := str p !! idx.

(** ** Comparison *)

(** The sign of the result of [memcmp] is that of the first difference. *)
Fixpoint memcmp (src1 src2 : list Z) (len : nat) : Z :=
  match len, src1, src2 with
  | S len, a :: src1, b :: src2 => let c := a - b in if negb (c =? 0) then c else memcmp src1 src2 len
  | _, _, _ => 0
  end.
Definition memcmp16_8 := memcmp.
Definition memcmp16 := memcmp.

Definition js_string_memcmp (p1 : JSString) (pos1 : nat) (p2 : JSString) (pos2 len : nat) : Z :=
  if negb (is_wide_char p1) then
    if negb (is_wide_char p2) then memcmp (drop pos1 (str p1)) (drop pos2 (str p2)) len
    else - memcmp16_8 (drop pos2 (str p2)) (drop pos1 (str p1)) len
  else
    if negb (is_wide_char p2) then memcmp16_8 (drop pos1 (str p1)) (drop pos2 (str p2)) len
    else memcmp16 (drop pos1 (str p1)) (drop pos2 (str p2)) len.

Definition js_string_compare (p1 p2 : JSString) : Z :=
  let len := Nat.min (length (str p1)) (length (str p2)) in
  let res := js_string_memcmp p1 0 p2 0 len in
  if res =? 0 then
    if (length (str p1) =? length (str p2))%nat then 0 else if (length (str p1) <? length (str p2))%nat then -1 else 1
  else res.

Definition js_string_eq (p1 p2 : JSString) : bool :=
  if negb (length (str p1) =? length (str p2))%nat then false else js_string_memcmp p1 0 p2 0 (length (str p1)) =? 0.

(** ** Hashing *)

Definition hash_string8 (str : list Z) (h : Z) : Z := foldl (fun h c => u32 (h * 263 + c)) h str.
Definition hash_string16 (str : list Z) (h : Z) : Z := foldl (fun h c => u32 (h * 263 + c)) h str.
Definition hash_string (p : JSString) (h : Z) : Z :=
  if is_wide_char p then hash_string16 (str p) h else hash_string8 (str p) h.

(** ** Decimal numbers *)

Definition is_num (c : Z) : bool := (48 <=? c) && (c <=? 57).

(** The loop from the second character; [None] is FALSE. *)
Fixpoint is_num_rest (n : Z) (l : list Z) : option Z :=
  match l with
  | [] => Some n
  | c :: l =>
      if negb (is_num c) then None
      else
        let n64 := u64 (n * 10 + (c - 48)) in
        if negb (Z.shiftr n64 32 =? 0) then None else is_num_rest (u32 n64) l
  end.

Definition is_num_string (p : JSString) : option Z :=
  let len := length (str p) in
  if (len =? 0)%nat || (10 <? len)%nat then None
  else
    match str p with
    | [] => None
    | c :: l =>
        if is_num c then
          if c =? 48 then if negb (len =? 1)%nat then None else Some 0
          else is_num_rest (c - 48) l
        else None
    end.

(** ** Lemmas *)

Lemma memcmp_antisym len : forall l1 l2, memcmp l2 l1 len = - memcmp l1 l2 len.
Proof.
  induction len as [|len IH]; intros [|a l1] [|b l2]; cbn; try done. rewrite IH. destruct (Z.eqb_spec (b - a) 0), (Z.eqb_spec (a - b) 0); cbn; lia.
Qed.

Lemma js_string_memcmp_units p1 p2 len : js_string_memcmp p1 0 p2 0 len = memcmp (str p1) (str p2) len.
Proof.
  unfold js_string_memcmp, memcmp16, memcmp16_8. rewrite !drop_0. destruct (is_wide_char p1), (is_wide_char p2); cbn; try done. now rewrite memcmp_antisym, Z.opp_involutive.
Qed.

Lemma memcmp_eq_zero l1 : forall l2, length l1 = length l2 -> memcmp l1 l2 (length l1) = 0 <-> l1 = l2.
Proof.
  induction l1 as [|a l1 IH]; intros [|b l2] E; cbn in *; try done. injection E as E. specialize (IH l2 E).
  destruct (Z.eqb_spec (a - b) 0) as [H|H]; cbn [negb].
  - rewrite IH. split; [intros ->; f_equal; lia | congruence].
  - split; [lia|]. intros [=]. lia.
Qed.

(** Only the code units count, not the width of the arrays. *)
Lemma js_string_memcmp_eq p1 p2 : length (str p1) = length (str p2) -> js_string_memcmp p1 0 p2 0 (length (str p1)) = 0 <-> str p1 = str p2.
Proof. intros E. rewrite js_string_memcmp_units. now apply memcmp_eq_zero. Qed.

Lemma hash_string_units p h : hash_string p h = foldl (fun h c => u32 (h * 263 + c)) h (str p).
Proof. unfold hash_string. now destruct (is_wide_char p). Qed.

Lemma is_num_spec c : is_num c = true <-> is_digit 10 c.
Proof.
  unfold is_num, is_digit. rewrite andb_true_iff, !Z.leb_le. split.
  - intros H. exists (c - 48). unfold to_digit. split; [lia|]. zcases.
  - intros (d & Hd & ->). unfold to_digit. zcases.
Qed.

Lemma is_num_rest_spec l : forall n m, 0 <= n < 2 ^ 32 ->
  is_num_rest n l = Some m <-> Forall (is_digit 10) l /\ foldl (fun n c => n * 10 + digit_value c) n l = m /\ m < 2 ^ 32.
Proof.
  assert (forall l n, 0 <= n -> Forall (is_digit 10) l -> n <= foldl (fun n c => n * 10 + digit_value c) n l) as Hmono.
  { clear l. induction l as [|c l IH]; intros n Hn D; cbn; [lia|]. apply Forall_cons_1 in D as [(d & Hd & ->) D].
    rewrite digit_value_to_digit by lia. specialize (IH (n * 10 + d) ltac:(lia) D). lia. }
  induction l as [|c l IH]; intros n m Hn; cbn [is_num_rest foldl].
  - split; [intros [= ->]; split_and!; [constructor | done | lia] | intros (_ & -> & _); done].
  - destruct (is_num c) eqn:E; cbn [negb].
    + apply is_num_spec in E as (d & Hd & ->). rewrite digit_value_to_digit by lia.
      replace (to_digit d - 48) with d by (unfold to_digit; zcases). rewrite (wrap_small 64) by (unfold in_u; lia).
      rewrite Z.shiftr_div_pow2 by lia. destruct (Z.eqb_spec ((n * 10 + d) / 2 ^ 32) 0) as [E|E]; cbn [negb].
      * apply Z.div_small_iff in E; [|lia]. rewrite (wrap_small 32) by (unfold in_u; lia). rewrite IH by lia. rewrite (list.Forall_cons _ _ l).
        split; [intros (? & ? & ?); split_and!; [eexists; split; [|reflexivity]; lia | done..] | intros ((_ & ?) & ? & ?); done].
      * split; [done|]. intros ((_ & D)%list.Forall_cons & H & Hm). exfalso. apply E, Z.div_small.
        specialize (Hmono l (n * 10 + d) ltac:(lia) D). lia.
    + split; [done|]. intros ((D & _)%list.Forall_cons & _). apply is_num_spec in D. congruence.
Qed.

(** [is_num_string] accepts exactly the numerals below 2^32. *)
Lemma is_num_string_spec p n : is_num_string p = Some n <-> prints 10 n (str p) /\ n < 2 ^ 32.
Proof.
  unfold is_num_string, prints, numeral. destruct (str p) as [|c l] eqn:Ep.
  { cbn. split; [done | intros (((_ & []) & _) & _)]. }
  cbn [length Nat.eqb orb]. destruct (is_num c) eqn:E.
  2: { assert (~ is_digit 10 c) by (intros H%is_num_spec; congruence). split; [now destruct (_ <? _)%nat|].
       intros (((D%list.Forall_cons & _) & _) & _). now destruct D. }
  apply is_num_spec in E as (d & Hd & ->). destruct (Nat.ltb_spec 10 (S (length l))) as [Hlen|Hlen].
  { split; [done|]. intros (([D N] & V) & Hn). exfalso. destruct l as [|c' l]; [cbn in Hlen; lia|].
    pose proof (number_lower 10 ltac:(lia) _ _ D N) as Hl. rewrite V in Hl.
    assert (10 ^ 10 <= 10 ^ Z.of_nat (length (c' :: l))) by (apply Z.pow_le_mono_r; cbn in *; lia). lia. }
  destruct (Z.eqb_spec (to_digit d) 48) as [E|E].
  - apply to_digit_zero in E as E0; [|lia]. subst d. destruct l as [|c' l]; cbn [length Nat.eqb negb].
    + split; [intros [= <-] | intros ((_ & <-) & _); done]. split_and!; try done. repeat constructor. exists 0. split; [lia | done].
    + split; [done|]. intros (((_ & N) & _) & _). now destruct N.
  - rewrite is_num_rest_spec by (unfold to_digit in *; destruct (Z.ltb_spec d 10); lia).
    unfold number. cbn [foldl]. rewrite digit_value_to_digit by lia. replace (to_digit d - 48) with d by (unfold to_digit; destruct (Z.ltb_spec d 10); lia).
    rewrite Z.mul_0_l, Z.add_0_l, (list.Forall_cons _ _ l). split.
    + intros (D & V & Hn). split_and!; try done; [eexists; split; [|reflexivity]; lia | now destruct l].
    + intros (((D & _) & V) & Hn). split_and!; [apply D | done | done].
Qed.

(** Printing is the inverse. *)
Lemma is_num_string_u32toa n s : in_u 32 n -> u32toa n = Some s -> is_num_string (mk_string false s) = Some n.
Proof.
  intros Hn E. destruct (u32toa_prints n Hn) as (s' & E' & P). assert (s' = s) as -> by congruence.
  apply is_num_string_spec. split; [done | apply Hn].
Qed.

Lemma u32toa_is_num_string p n : is_num_string p = Some n -> in_u 32 n /\ u32toa n = Some (str p).
Proof.
  intros [P Hn]%is_num_string_spec. assert (in_u 32 n) as Hr.
  { destruct P as [[D _] <-]. destruct (number_digits 10 ltac:(lia) _ D). unfold in_u. lia. }
  split; [done|]. destruct (u32toa_prints n Hr) as (s & -> & P'). f_equal. now apply (numeral_unique 10 ltac:(lia) n).
Qed.
