(* ===== verification/StringBuffer.v ===== *)
(** * String buffers

    The growing buffers of [src/core/quickjs.c] (3573 to 3934) in which strings
    are built.  The characters are bytes in one array that is read as 8- or 16-bit
    units, so that widening a buffer in place is a loop over overlapping memory.
    [None] is an access outside of the array.  An allocation fails, or gives room
    for some bytes more ([slack]), as the answers of the allocator say. *)

From Stdlib Require Import ZArith Lia Bool.
From stdpp Require Import base numbers list option.
From S2P Require Import Prelude JSStrings.

#[local] Open Scope Z_scope.

Definition JS_STRING_LEN_MAX : Z := 2 ^ 30 - 1.

(** ** Memory *)

(** The answers of the allocator: [None] is a failure. *)
Definition allocator : Type := list (option nat).

Definition allocate (a : allocator) : option nat * allocator :=
  match a with [] => (Some O, []) | x :: a => (x, a) end.

(** The 16-bit units of an array of bytes *)
Definition le16 (l : list Z) : list Z := flat_map (fun c => [c mod 256; c / 256]) l.
Fixpoint decode16 (b : list Z) : list Z :=
  match b with x :: y :: b => x + 256 * y :: decode16 b | _ => [] end.

(** The bytes [l] at the offset [i] *)
Definition store (b : list Z) (i : nat) (l : list Z) : option (list Z) :=
  if (i + length l <=? length b)%nat then Some (take i b ++ l ++ drop (i + length l) b) else None.

Definition store8 (b : list Z) (i : Z) (l : list Z) : option (list Z) := if i <? 0 then None else store b (Z.to_nat i) (map u8 l).
Definition store16 (b : list Z) (i : Z) (l : list Z) : option (list Z) := if i <? 0 then None else store b (Z.to_nat (2 * i)) (le16 (map u16 l)).

(** [realloc]: the bytes that are not written yet are 0. *)
Definition resize (b : list Z) (n : nat) : list Z := take n b ++ replicate (n - length b) 0.

(** ** The buffer *)

Record StringBuffer : Type := mk_buffer {
  buf_str : option (list Z);
  buf_len : Z;
  buf_size : Z;
  buf_wide : bool;
  error_status : Z;
}.

(** The bytes for [size] characters, with the terminator of 8-bit strings *)
Definition string_bytes (size : Z) (wide : bool) : nat := Z.to_nat (Z.shiftl size (b2z wide) + 1 - b2z wide).

Definition js_alloc_string (a : allocator) (max_len : Z) (wide : bool) : option (list Z) * allocator :=
  match allocate a with
  | (None, a) => (None, a)
  | (Some _, a) => (Some (replicate (string_bytes max_len wide) 0), a)
  end.

(** The results are 0, or -1 for an exception. *)
Definition string_buffer_init2 (a : allocator) (size : Z) (is_wide : bool) : Z * StringBuffer * allocator :=
  match js_alloc_string a size is_wide with
  | (None, a) => (-1, mk_buffer None 0 0 is_wide (-1), a)
  | (Some str, a) => (0, mk_buffer (Some str) 0 size is_wide 0, a)
  end.
Definition string_buffer_init (a : allocator) (size : Z) : Z * StringBuffer * allocator := string_buffer_init2 a size false.

Definition string_buffer_set_error (s : StringBuffer) : StringBuffer := mk_buffer None 0 0 (buf_wide s) (-1).

(** [str16\[i\] = str8\[i\]], from the last one *)
Fixpoint widen_loop (n : nat) (b : list Z) : option (list Z) :=
  match n with
  | O => Some b
  | S i => c ← b !! i; b ← store16 b (Z.of_nat i) [c]; widen_loop i b
  end.

Definition string_buffer_widen (s : StringBuffer) (size : Z) (a : allocator) : option (Z * StringBuffer * allocator) :=
  if negb (error_status s =? 0) then Some (-1, s, a)
  else
    str ← buf_str s;
    match allocate a with
    | (None, a) => Some (-1, string_buffer_set_error s, a)
    | (Some slack, a) =>
        let size1 := i32 (size + Z.shiftr (Z.of_nat slack) 1) in
        b ← widen_loop (Z.to_nat (buf_len s)) (resize str (Z.to_nat (2 * size) + slack));
        Some (0, mk_buffer (Some b) (buf_len s) size1 true (error_status s), a)
    end.

Definition string_buffer_realloc (s : StringBuffer) (new_len c : Z) (a : allocator) : option (Z * StringBuffer * allocator) :=
  if negb (error_status s =? 0) then Some (-1, s, a)
  else if JS_STRING_LEN_MAX <? new_len then Some (-1, string_buffer_set_error s, a)
  else
    let new_size := Z.min (Z.max new_len (Z.quot (i32 (buf_size s * 3)) 2)) JS_STRING_LEN_MAX in
    if negb (buf_wide s) && (0x100 <=? c) then string_buffer_widen s new_size a
    else
      str ← buf_str s;
      match allocate a with
      | (None, a) => Some (-1, string_buffer_set_error s, a)
      | (Some slack, a) =>
          let new_size1 := Z.min (i32 (new_size + Z.shiftr (Z.of_nat slack) (b2z (buf_wide s)))) JS_STRING_LEN_MAX in
          Some (0, mk_buffer (Some (resize str (string_bytes new_size (buf_wide s) + slack))) (buf_len s) new_size1 (buf_wide s) (error_status s), a)
      end.

(** [str8\[len++\] = c], and [str16\[len++\] = c] *)
Definition put8 (s : StringBuffer) (c : Z) : option StringBuffer :=
  str ← buf_str s; b ← store8 str (buf_len s) [c]; Some (mk_buffer (Some b) (buf_len s + 1) (buf_size s) (buf_wide s) (error_status s)).
Definition put16 (s : StringBuffer) (c : Z) : option StringBuffer :=
  str ← buf_str s; b ← store16 str (buf_len s) [c]; Some (mk_buffer (Some b) (buf_len s + 1) (buf_size s) (buf_wide s) (error_status s)).
Definition put_ok (s : option StringBuffer) (a : allocator) : option (Z * StringBuffer * allocator) := s ← s; Some (0, s, a).

(** More room when the buffer is [full]; -1 when there is none. *)
Definition with_room (full : bool) (s : StringBuffer) (new_len c : Z) (a : allocator) (k : StringBuffer -> allocator -> option (Z * StringBuffer * allocator)) :
    option (Z * StringBuffer * allocator) :=
  if full then
    '(r, s, a) ← string_buffer_realloc s new_len c a;
    if negb (r =? 0) then Some (-1, s, a) else k s a
  else k s a.

Definition string_buffer_putc16_slow (s : StringBuffer) (c : Z) (a : allocator) : option (Z * StringBuffer * allocator) :=
  with_room (buf_size s <=? buf_len s) s (buf_len s + 1) c a (fun s a =>
    if buf_wide s then put_ok (put16 s c) a
    else if c <? 0x100 then put_ok (put8 s c) a
    else
      '(r, s, a) ← string_buffer_widen s (buf_size s) a;
      if negb (r =? 0) then Some (-1, s, a) else put_ok (put16 s c) a).

Definition string_buffer_putc8 (s : StringBuffer) (c : Z) (a : allocator) : option (Z * StringBuffer * allocator) :=
  with_room (buf_size s <=? buf_len s) s (buf_len s + 1) c a (fun s a => if buf_wide s then put_ok (put16 s c) a else put_ok (put8 s c) a).

Definition string_buffer_putc16 (s : StringBuffer) (c : Z) (a : allocator) : option (Z * StringBuffer * allocator) :=
  if (buf_len s <? buf_size s) && buf_wide s then put_ok (put16 s c) a
  else if (buf_len s <? buf_size s) && (c <? 0x100) then put_ok (put8 s c) a
  else string_buffer_putc16_slow s c a.

(** ** Surrogates *)

Definition is_surrogate (c : Z) : bool := Z.shiftr c 11 =? Z.shiftr 0xD800 11.
Definition is_hi_surrogate (c : Z) : bool := Z.shiftr c 10 =? Z.shiftr 0xD800 10.
Definition is_lo_surrogate (c : Z) : bool := Z.shiftr c 10 =? Z.shiftr 0xDC00 10.
Definition get_hi_surrogate (c : Z) : Z := u32 (Z.shiftr c 10 - Z.shiftr 0x10000 10 + 0xD800).
Definition get_lo_surrogate (c : Z) : Z := Z.lor (Z.land c 0x3FF) 0xDC00.
Definition from_surrogate (hi lo : Z) : Z := u32 (0x10000 + 0x400 * (hi - 0xD800) + (lo - 0xDC00)).

Definition string_buffer_putc_slow (s : StringBuffer) (c : Z) (a : allocator) : option (Z * StringBuffer * allocator) :=
  if 0x10000 <=? c then
    '(r, s, a) ← string_buffer_putc16 s (get_hi_surrogate c) a;
    if negb (r =? 0) then Some (-1, s, a) else string_buffer_putc16 s (get_lo_surrogate c) a
  else string_buffer_putc16 s c a.

Definition string_buffer_putc (s : StringBuffer) (c : Z) (a : allocator) : option (Z * StringBuffer * allocator) :=
  if buf_len s <? buf_size s then
    if buf_wide s then
      if c <? 0x10000 then put_ok (put16 s c) a
      else if buf_len s + 1 <? buf_size s then s ← put16 s (get_hi_surrogate c); put_ok (put16 s (get_lo_surrogate c)) a
      else string_buffer_putc_slow s c a
    else if c <? 0x100 then put_ok (put8 s c) a
    else string_buffer_putc_slow s c a
  else string_buffer_putc_slow s c a.

(** The code point at the index, and the index after it *)
Definition string_getc (p : JSString) (idx : nat) : option (Z * nat) :=
  c ← string_get p idx;
  if is_wide_char p then
    if is_hi_surrogate c && (S idx <? length (str p))%nat then
      c1 ← string_get p (S idx);
      if is_lo_surrogate c1 then Some (from_surrogate c c1, S (S idx)) else Some (c, S idx)
    else Some (c, S idx)
  else Some (c, S idx).

(** ** Appending strings *)

Definition append8 (s : StringBuffer) (p : list Z) : option StringBuffer :=
  str ← buf_str s; b ← store8 str (buf_len s) p;
  Some (mk_buffer (Some b) (buf_len s + Z.of_nat (length p)) (buf_size s) (buf_wide s) (error_status s)).
Definition append16 (s : StringBuffer) (p : list Z) : option StringBuffer :=
  str ← buf_str s; b ← store16 str (buf_len s) p;
  Some (mk_buffer (Some b) (buf_len s + Z.of_nat (length p)) (buf_size s) (buf_wide s) (error_status s)).

(** Appending nothing touches no memory, of which there is none after an error. *)
Definition append (s : StringBuffer) (p : list Z) (a : allocator) : option (Z * StringBuffer * allocator) :=
  match p with
  | [] => Some (0, s, a)
  | _ => put_ok (if buf_wide s then append16 s p else append8 s p) a
  end.

Definition string_buffer_write8 (s : StringBuffer) (p : list Z) (a : allocator) : option (Z * StringBuffer * allocator) :=
  let new_len := i32 (buf_len s + Z.of_nat (length p)) in
  with_room (buf_size s <? new_len) s new_len 0 a (fun s a => append s p a).

Definition string_buffer_write16 (s : StringBuffer) (p : list Z) (a : allocator) : option (Z * StringBuffer * allocator) :=
  let c := foldl Z.lor 0 p in
  let new_len := i32 (buf_len s + Z.of_nat (length p)) in
  if buf_size s <? new_len then
    '(r, s, a) ← string_buffer_realloc s new_len c a;
    if negb (r =? 0) then Some (-1, s, a) else append s p a
  else if negb (buf_wide s) && (0x100 <=? c) then
    '(r, s, a) ← string_buffer_widen s (buf_size s) a;
    if negb (r =? 0) then Some (-1, s, a) else append s p a
  else append s p a.

Definition string_buffer_puts8 := string_buffer_write8.

Definition string_buffer_concat (s : StringBuffer) (p : JSString) (from to : nat) (a : allocator) : option (Z * StringBuffer * allocator) :=
  if (to <=? from)%nat then Some (0, s, a)
  else if (length (str p) <? to)%nat then None
  else
    let units := take (to - from) (drop from (str p)) in
    if is_wide_char p then string_buffer_write16 s units a else string_buffer_write8 s units a.

Fixpoint fill_loop (count : nat) (s : StringBuffer) (c : Z) (a : allocator) : option (Z * StringBuffer * allocator) :=
  match count with
  | O => Some (0, s, a)
  | S count => '(r, s, a) ← string_buffer_putc16 s c a; if negb (r =? 0) then Some (-1, s, a) else fill_loop count s c a
  end.

Definition string_buffer_fill (s : StringBuffer) (c count : Z) (a : allocator) : option (Z * StringBuffer * allocator) :=
  let new_len := i32 (buf_len s + count) in
  with_room (buf_size s <? new_len) s new_len c a (fun s a => fill_loop (Z.to_nat count) s c a).

(** The characters that the first [n] units of the bytes hold *)
Definition units (b : list Z) (wide : bool) (n : Z) : list Z :=
  if wide then decode16 (take (Z.to_nat (2 * n)) b) else take (Z.to_nat n) b.

(** [None] in the result is JS_EXCEPTION. *)
Definition string_buffer_end (s : StringBuffer) (a : allocator) : option (option JSString * allocator) :=
  if negb (error_status s =? 0) then Some (None, a)
  else
    str ← buf_str s;
    if buf_len s =? 0 then Some (Some (mk_string false []), a)
    else
      let '(str, a) :=
        if buf_len s <? buf_size s then
          match allocate a with
          | (None, a) => (str, a)
          | (Some _, a) => (resize str (string_bytes (buf_len s) (buf_wide s)), a)
          end
        else (str, a) in
      b ← if buf_wide s then Some str else store8 str (buf_len s) [0];
      Some (Some (mk_string (buf_wide s) (units b (buf_wide s) (buf_len s))), a).

(** [str2] is the result of [JS_ToStringFree]. *)
Definition JS_ConcatString3 (str1 : list Z) (str2 : option JSString) (str3 : list Z) (a : allocator) : option (option JSString * allocator) :=
  match str2 with
  | None => Some (None, a)
  | Some p =>
      let '(r, b, a) := string_buffer_init2 a (Z.of_nat (length str1) + Z.of_nat (length (str p)) + Z.of_nat (length str3)) (is_wide_char p) in
      if negb (r =? 0) then Some (None, a)
      else
        '(_, b, a) ← string_buffer_write8 b str1 a;
        '(_, b, a) ← string_buffer_concat b p 0 (length (str p)) a;
        '(_, b, a) ← string_buffer_write8 b str3 a;
        string_buffer_end b a
  end.
