(* ===== verification/StringBufferSpec.v ===== *)
(** * What the string buffers promise

    Whatever the allocator answers, no operation leaves the array, each one
    appends its characters or sets the error, and the string at the end has
    exactly the characters that were appended. *)

From Stdlib Require Import ZArith Lia Bool.
From stdpp Require Import base numbers list option gmap.
From S2P Require Import Prelude JSStrings StringBuffer.

#[local] Open Scope Z_scope.

(** ** Bytes and units *)

Lemma decode16_le16 l : Forall (in_u 16) l -> decode16 (le16 l) = l.
Proof.
  induction 1 as [|c l Hc Hl IH]; [done|]. change (le16 (c :: l)) with (c mod 256 :: c / 256 :: le16 l). cbn [decode16]. rewrite IH. f_equal.
  pose proof (Z.div_mod c 256). lia.
Qed.

Lemma length_le16 l : length (le16 l) = (2 * length l)%nat.
Proof. induction l as [|c l IH]; [done|]. change (le16 (c :: l)) with (c mod 256 :: c / 256 :: le16 l). cbn [length]. rewrite IH. lia. Qed.

Lemma le16_app l1 l2 : le16 (l1 ++ l2) = le16 l1 ++ le16 l2.
Proof. apply flat_map_app. Qed.

Lemma le16_bytes l : Forall (in_u 16) l -> Forall (in_u 8) (le16 l).
Proof.
  induction 1 as [|c l Hc Hl IH]; [constructor|]. change (le16 (c :: l)) with (c mod 256 :: c / 256 :: le16 l). unfold in_u in *.
  pose proof (Z.mod_pos_bound c 256). constructor; [lia|]. constructor; [|done]. split; [apply Z.div_pos; lia | apply Z.div_lt_upper_bound; lia].
Qed.

Lemma decode16_app n : forall b1 b2, length b1 = (2 * n)%nat -> decode16 (b1 ++ b2) = decode16 b1 ++ decode16 b2.
Proof.
  induction n as [|n IH]; intros b1 b2 H; [now destruct b1|]. destruct b1 as [|x [|y b1]]; cbn [length] in H; [lia | lia|]. cbn [app decode16].
  rewrite IH by lia. done.
Qed.

Lemma length_decode16 n : forall b, length b = (2 * n)%nat -> length (decode16 b) = n.
Proof.
  induction n as [|n IH]; intros b H; [now destruct b|]. destruct b as [|x [|y b]]; cbn [length] in H; [lia | lia|]. cbn. rewrite IH; lia.
Qed.

Lemma decode16_units b : Forall (in_u 8) b -> Forall (in_u 16) (decode16 b).
Proof.
  revert b. fix IH 1. intros [|x [|y b]] H; [constructor..|]. apply Forall_cons_1 in H as [Hx [Hy H]%Forall_cons_1]. cbn. constructor; [|now apply IH].
  unfold in_u in *. lia.
Qed.

Lemma store_ok b i l : (i + length l <= length b)%nat -> exists b', store b i l = Some b' /\ length b' = length b /\
  take i b' = take i b /\ take (i + length l) b' = take i b ++ l /\ drop (i + length l) b' = drop (i + length l) b.
Proof.
  intros H. unfold store. destruct (Nat.leb_spec (i + length l) (length b)); [|lia]. eexists. split; [reflexivity|]. assert (length (take i b) = i) as Ei by (rewrite length_take; lia).
  split_and!.
  - rewrite !length_app, length_drop, Ei. lia.
  - rewrite take_app_le by lia. apply take_ge. lia.
  - rewrite app_assoc, take_app_le by (rewrite length_app; lia). apply take_ge. rewrite length_app. lia.
  - rewrite app_assoc, drop_app_ge by (rewrite length_app; lia). rewrite length_app, Ei, Nat.sub_diag. apply drop_0.
Qed.

Lemma store_bytes b i l b' : store b i l = Some b' -> Forall (in_u 8) b -> Forall (in_u 8) l -> Forall (in_u 8) b'.
Proof.
  unfold store. destruct (_ <=? _)%nat; [|done]. intros [= <-] Hb Hl. apply Forall_app. split; [now apply Forall_take|]. apply Forall_app. split; [done | now apply Forall_drop].
Qed.

Lemma map_wrap_id w l : Forall (in_u w) l -> map (wrap w) l = l.
Proof. induction 1 as [|c l Hc Hl IH]; [done|]. cbn. now rewrite IH, wrap_small. Qed.

Lemma map_wrap_range w l : 0 <= w -> Forall (in_u w) (map (wrap w) l).
Proof. intros Hw. apply Forall_forall. intros x (y & -> & _)%list_elem_of_fmap. now apply wrap_range. Qed.

Lemma resize_ok b n : length (resize b n) = n /\ forall k, (k <= n)%nat -> (k <= length b)%nat -> take k (resize b n) = take k b.
Proof.
  unfold resize. split.
  - rewrite length_app, length_take, length_replicate. lia.
  - intros k Hk Hb. rewrite take_app_le by (rewrite length_take; lia). rewrite take_take. f_equal. lia.
Qed.

Lemma resize_bytes b n : Forall (in_u 8) b -> Forall (in_u 8) (resize b n).
Proof. intros H. apply Forall_app. split; [now apply Forall_take | apply Forall_replicate; unfold in_u; lia]. Qed.

(** ** Good buffers *)

(** The units that [b] has room for *)
Record good_bytes (b : list Z) (wide : bool) (len size : Z) : Prop := mk_good_bytes {
  gb_bytes : Forall (in_u 8) b;
  gb_len : 0 <= len <= size;
  gb_size : size <= JS_STRING_LEN_MAX + (if wide then 2 ^ 27 else 0);
  gb_room : (string_bytes size wide <= length b)%nat;
}.

(** [s] holds the characters [u]. *)
Definition holds_units (s : StringBuffer) (u : list Z) : Prop :=
  error_status s = 0 /\ exists b, buf_str s = Some b /\ good_bytes b (buf_wide s) (buf_len s) (buf_size s) /\
    units b (buf_wide s) (buf_len s) = u.

Definition failed (s : StringBuffer) : Prop := error_status s = -1 /\ buf_str s = None /\ buf_len s = 0 /\ buf_size s = 0.

Lemma string_bytes_eq size wide : 0 <= size -> string_bytes size wide = if wide then Z.to_nat (2 * size) else S (Z.to_nat size).
Proof. intros H. unfold string_bytes. rewrite Z.shiftl_mul_pow2 by (destruct wide; cbn; lia). destruct wide; cbn [Z.b2z]; lia. Qed.

(** The number of bytes before the end of the units *)
Definition used (wide : bool) (len : Z) : nat := Z.to_nat (if wide then 2 * len else len).

Lemma units_eq b wide n : units b wide n = (if wide then decode16 else id) (take (used wide n) b).
Proof. unfold units, used. now destruct wide. Qed.

Lemma units_length b wide len size : good_bytes b wide len size -> Z.of_nat (length (units b wide len)) = len.
Proof.
  intros [_ H _ Hr]. rewrite string_bytes_eq in Hr by lia. rewrite units_eq. unfold used. destruct wide; cbn.
  - rewrite (length_decode16 (Z.to_nat len)) by (rewrite length_take; lia). lia.
  - rewrite length_take. lia.
Qed.

Lemma units_range b (wide : bool) len : Forall (in_u 8) b -> Forall (in_u (if wide then 16 else 8)) (units b wide len).
Proof. intros H. rewrite units_eq. destruct wide; cbn; [apply decode16_units|]; now apply Forall_take. Qed.

(** Appending units at the end of the buffer *)
Definition encode (wide : bool) (l : list Z) : list Z := if wide then le16 (map u16 l) else map u8 l.

Lemma encode_units (wide : bool) l : Forall (in_u (if wide then 16 else 8)) l -> (if wide then decode16 else id) (encode wide l) = l.
Proof. intros H. unfold encode. destruct wide; cbn; rewrite map_wrap_id by done; [now apply decode16_le16 | done]. Qed.

Lemma length_encode (wide : bool) l : length (encode wide l) = used wide (Z.of_nat (length l)).
Proof. unfold encode, used. destruct wide; [rewrite length_le16|]; rewrite length_map; lia. Qed.

Lemma encode_bytes wide l : Forall (in_u 8) (encode wide l).
Proof. unfold encode. destruct wide; [apply le16_bytes|]; apply map_wrap_range; lia. Qed.

Lemma store_units b (wide : bool) len size l : good_bytes b wide len size -> len + Z.of_nat (length l) <= size -> Forall (in_u (if wide then 16 else 8)) l ->
  exists b', store b (used wide len) (encode wide l) = Some b' /\ good_bytes b' wide (len + Z.of_nat (length l)) size /\
    units b' wide (len + Z.of_nat (length l)) = units b wide len ++ l.
Proof.
  intros [Hb H Hs Hr] Hn Hl. pose proof (length_encode wide l) as E. rewrite string_bytes_eq in Hr by lia.
  assert (used wide (len + Z.of_nat (length l)) = used wide len + length (encode wide l))%nat as Eu by (rewrite E; unfold used; destruct wide; lia).
  destruct (store_ok b (used wide len) (encode wide l)) as (b' & Est & Hlen & _ & Ht & _).
  { rewrite <- Eu. unfold used. destruct wide; lia. }
  exists b'. split; [done|]. split.
  - constructor; [eapply store_bytes; [exact Est | done | apply encode_bytes] | lia | lia|]. rewrite string_bytes_eq, Hlen by lia. done.
  - rewrite !units_eq, Eu, Ht. destruct wide; cbn [id]; [|unfold id; f_equal; exact (encode_units false l Hl)].
    rewrite (decode16_app (Z.to_nat len)) by (rewrite length_take; unfold used in *; lia). f_equal. exact (encode_units true l Hl).
Qed.

Lemma store8_eq b i l : 0 <= i -> store8 b i l = store b (used false i) (encode false l).
Proof. intros H. unfold store8, used, encode. destruct (Z.ltb_spec i 0); [lia | done]. Qed.
Lemma store16_eq b i l : 0 <= i -> store16 b i l = store b (used true i) (encode true l).
Proof. intros H. unfold store16, used, encode. destruct (Z.ltb_spec i 0); [lia | done]. Qed.

(** ** Allocations *)

Definition small_slack (a : allocator) : Prop := Forall (fun x => forall n, x = Some n -> Z.of_nat n < 2 ^ 28) a.
Definition fails (a : allocator) : Prop := None ∈ a.

Lemma small_slack_suffix a a' : a' `suffix_of` a -> small_slack a -> small_slack a'.
Proof. intros [k ->] [_ H]%Forall_app. done. Qed.
Lemma fails_suffix a a' : a' `suffix_of` a -> fails a' -> fails a.
Proof. intros [k ->] H. apply elem_of_app. now right. Qed.
#[export] Hint Resolve small_slack_suffix fails_suffix suffix_cons_r : core.

Lemma allocate_ok a x a' : allocate a = (x, a') -> small_slack a ->
  a' `suffix_of` a /\ small_slack a' /\ match x with Some n => Z.of_nat n < 2 ^ 28 | None => fails a end.
Proof.
  unfold allocate. destruct a as [|y a]; intros [= <- <-] H; [now split_and!|]. apply Forall_cons_1 in H as [Hy H].
  split_and!; [now apply suffix_cons_r | done|]. destruct y as [n|]; [now apply Hy | apply list_elem_of_here].
Qed.

(** ** Growing *)

Lemma widen_loop_ok n : forall b, (2 * n <= length b)%nat -> Forall (in_u 8) b -> exists b', widen_loop n b = Some b' /\ length b' = length b /\
  Forall (in_u 8) b' /\ take (2 * n) b' = le16 (take n b) /\ drop (2 * n) b' = drop (2 * n) b.
Proof.
  induction n as [|n IH]; intros b H Hb; cbn [widen_loop]; [now exists b|]. destruct (lookup_lt_is_Some_2 b n) as [c Hc]; [lia|]. rewrite Hc. cbn [mbind option_bind].
  assert (in_u 8 c) as Hrc by (eapply Forall_lookup_1; eauto). assert (u16 c = c) as Eu by (apply wrap_small; unfold in_u in *; lia).
  unfold store16. destruct (Z.ltb_spec (Z.of_nat n) 0); [lia|]. replace (Z.to_nat (2 * Z.of_nat n)) with (2 * n)%nat by lia. cbn [map]. rewrite Eu.
  destruct (store_ok b (2 * n) (le16 [c])) as (b1 & E1 & L1 & T1 & T1' & D1); [cbn; lia|]. rewrite E1. cbn [mbind option_bind].
  assert (Forall (in_u 8) b1) as Hb1. { eapply store_bytes; [exact E1 | done|]. apply le16_bytes. repeat constructor; unfold in_u in *; lia. }
  destruct (IH b1) as (b2 & E2 & L2 & B2 & T2 & D2); [lia | done|]. exists b2. rewrite E2. change (length (le16 [c])) with 2%nat in *. split_and!; [done | lia | done | |].
  - rewrite (take_S_r _ n c Hc), le16_app. replace (2 * S n)%nat with (2 * n + 2)%nat by lia. rewrite <- (take_drop (2 * n) (take (2 * n + 2) b2)), take_take.
    replace (Nat.min (2 * n) (2 * n + 2)) with (2 * n)%nat by lia. rewrite T2. f_equal.
    + f_equal. assert (take n b1 = take n (take (2 * n) b1)) as -> by (rewrite take_take; f_equal; lia). rewrite T1, take_take. f_equal. lia.
    + rewrite skipn_firstn_comm. replace (2 * n + 2 - 2 * n)%nat with 2%nat by lia. rewrite D2.
      assert (take 2 (drop (2 * n) b1) = drop (2 * n) (take (2 * n + 2) b1)) as -> by (rewrite skipn_firstn_comm; f_equal; lia).
      rewrite T1', drop_app_ge by (rewrite length_take; lia). rewrite length_take. replace (2 * n - Nat.min (2 * n) (length b))%nat with 0%nat by lia. done.
  - replace (2 * S n)%nat with (2 * n + 2)%nat by lia. rewrite <- !drop_drop, D2, !drop_drop. done.
Qed.

(** The result of an operation on a buffer that holds [u]: it holds [v] and
    satisfies [Q], or has failed for the reason [P]. *)
Definition yields (a : allocator) (v : list Z) (Q : StringBuffer -> Prop) (P : Prop) (r : option (Z * StringBuffer * allocator)) : Prop :=
  exists x s' a', r = Some (x, s', a') /\ a' `suffix_of` a /\
    ((x = 0 /\ holds_units s' v /\ Q s') \/ (x = -1 /\ failed s' /\ (fails a \/ P))).

Lemma set_error_failed s : failed (string_buffer_set_error s).
Proof. done. Qed.

Lemma widen_ok s u size a : holds_units s u -> buf_wide s = false -> buf_len s <= size <= JS_STRING_LEN_MAX -> small_slack a ->
  yields a u (fun s' => buf_wide s' = true /\ size <= buf_size s' /\ buf_len s' = buf_len s) False (string_buffer_widen s size a).
Proof.
  intros (He & b & Eb & [Hb Hl Hs Hr] & Hu) Hw Hsize Ha. unfold string_buffer_widen. rewrite He, Eb. cbn [Z.eqb negb mbind option_bind].
  destruct (allocate a) as [x a1] eqn:Ea. destruct (allocate_ok a x a1 Ea Ha) as (S & Ha1 & Hx). destruct x as [slack|].
  2: { eexists _, _, a1. split_and!; [reflexivity | done|]. right. split_and!; [done | apply set_error_failed | now left]. }
  rewrite Hw in *. rewrite string_bytes_eq in Hr by lia. destruct (resize_ok b (Z.to_nat (2 * size) + slack)) as [Lr Tr].
  destruct (widen_loop_ok (Z.to_nat (buf_len s)) (resize b (Z.to_nat (2 * size) + slack))) as (b' & E' & L' & B' & T' & _); [lia | now apply resize_bytes|].
  rewrite E'. cbn [mbind option_bind]. unfold JS_STRING_LEN_MAX in *. assert (i32 (size + Z.shiftr (Z.of_nat slack) 1) = size + Z.of_nat slack / 2) as Ei.
  { rewrite Z.shiftr_div_pow2 by lia. apply sgn_small; [lia|]. unfold in_s. pose proof (Z.div_pos (Z.of_nat slack) 2). pose proof (Z.div_le_upper_bound (Z.of_nat slack) 2 (2 ^ 27)). lia. }
  pose proof (Z.div_pos (Z.of_nat slack) 2). pose proof (Z.div_le_upper_bound (Z.of_nat slack) 2 (2 ^ 27)). pose proof (Z.mul_div_le (Z.of_nat slack) 2).
  eexists 0, _, a1. split_and!; [reflexivity | done|]. left. cbn [buf_wide buf_size buf_len]. rewrite Ei. split_and!; [done | | done | lia | done].
  split; [done|]. exists b'. cbn [buf_wide buf_size buf_len buf_str]. split_and!; [done | |].
  - constructor; [done | lia | unfold JS_STRING_LEN_MAX; lia|]. rewrite string_bytes_eq, L', Lr by lia. lia.
  - rewrite <- Hu, !units_eq. unfold used, id. replace (Z.to_nat (2 * buf_len s)) with (2 * Z.to_nat (buf_len s))%nat by lia. rewrite T', Tr by lia.
    apply decode16_le16. apply Forall_take. eapply Forall_impl; [exact Hb|]. intros c. unfold in_u. lia.
Qed.

(** [js_realloc2] to [size] characters *)
Lemma realloc_bytes_ok b wide len size slack new_size : good_bytes b wide len size -> len <= new_size <= JS_STRING_LEN_MAX -> Z.of_nat slack < 2 ^ 28 ->
  let size1 := Z.min (i32 (new_size + Z.shiftr (Z.of_nat slack) (b2z wide))) JS_STRING_LEN_MAX in
  let b1 := resize b (string_bytes new_size wide + slack) in
  new_size <= size1 /\ good_bytes b1 wide len size1 /\ units b1 wide len = units b wide len.
Proof.
  intros [Hb Hl Hs Hr] Hn Hsl size1 b1. unfold JS_STRING_LEN_MAX in *. rewrite string_bytes_eq in Hr by lia.
  pose proof (Z.mul_div_le (Z.of_nat slack) 2). pose proof (Z.div_pos (Z.of_nat slack) 2).
  assert (size1 = Z.min (new_size + (if wide then Z.of_nat slack / 2 else Z.of_nat slack)) JS_STRING_LEN_MAX) as Es.
  { unfold size1. f_equal. destruct wide; cbn [b2z]; rewrite Z.shiftr_div_pow2 by lia; [change (2 ^ 1) with 2 | rewrite Z.div_1_r]; apply sgn_small; unfold in_s; lia. }
  unfold JS_STRING_LEN_MAX in Es. destruct (resize_ok b (string_bytes new_size wide + slack)) as [Lr Tr]. fold b1 in Lr, Tr. rewrite string_bytes_eq in Lr, Tr by lia.
  split_and!; [destruct wide; lia | constructor |].
  - now apply resize_bytes.
  - destruct wide; lia.
  - unfold JS_STRING_LEN_MAX. destruct wide; lia.
  - rewrite string_bytes_eq, Lr by (destruct wide; lia). destruct wide; lia.
  - rewrite !units_eq. unfold used. now rewrite Tr by (destruct wide; lia).
Qed.

Lemma realloc_ok s u new_len c a : holds_units s u -> buf_len s <= new_len -> small_slack a ->
  yields a u (fun s' => buf_wide s' = buf_wide s || (0x100 <=? c) /\ new_len <= buf_size s' /\ buf_len s' = buf_len s) (JS_STRING_LEN_MAX < new_len)
    (string_buffer_realloc s new_len c a).
Proof.
  intros H Hnew Ha. pose proof H as (He & b & Eb & Hb & Hu). unfold string_buffer_realloc. rewrite He. cbn [Z.eqb negb].
  destruct (Z.ltb_spec JS_STRING_LEN_MAX new_len) as [Hlt|Hle].
  { eexists _, _, a. split_and!; [reflexivity | done|]. right. split_and!; [done | apply set_error_failed | now right]. }
  set (new_size := Z.min (Z.max new_len (Z.quot (i32 (buf_size s * 3)) 2)) JS_STRING_LEN_MAX).
  assert (new_len <= new_size <= JS_STRING_LEN_MAX) as Hns by lia. clearbody new_size. destruct (negb (buf_wide s) && (0x100 <=? c)) eqn:Ew.
  { apply andb_prop in Ew as [Hw%negb_true_iff Hc]. destruct (widen_ok s u new_size a H Hw) as (x & s' & a' & E & S & R); [lia | done|]. exists x, s', a'. split_and!; [done | done|].
    destruct R as [(-> & R & Hw' & Hsz & Hl')|(-> & R & [?|[]])]; [left | right; auto]. split_and!; [done | done | now rewrite Hw', Hw, Hc | lia | done]. }
  rewrite Eb. cbn [mbind option_bind]. destruct (allocate a) as [x a1] eqn:Ea. destruct (allocate_ok a x a1 Ea Ha) as (S & Ha1 & Hx). destruct x as [slack|].
  2: { eexists _, _, a1. split_and!; [reflexivity | done|]. right. split_and!; [done | apply set_error_failed | now left]. }
  destruct (realloc_bytes_ok b (buf_wide s) (buf_len s) (buf_size s) slack new_size Hb) as (Hsz & Hb1 & Hu1); [lia | done|].
  eexists 0, _, a1. split_and!; [reflexivity | done|]. left. cbn [buf_wide buf_size buf_len]. split_and!; [done | | | lia | done].
  - split; [done|]. eexists. split; [reflexivity|]. split; [exact Hb1 | exact (eq_trans Hu1 Hu)].
  - destruct (buf_wide s), (0x100 <=? c); done.
Qed.

(** ** Appending *)

Definition in_width (wide : bool) (l : list Z) : Prop := Forall (in_u (if wide then 16 else 8)) l.

Lemma narrow_width wide l : in_width false l -> in_width wide l.
Proof. intros H. eapply Forall_impl; [exact H|]. intros c. unfold in_u. destruct wide; lia. Qed.

Lemma holds_length s u : holds_units s u -> Z.of_nat (length u) = buf_len s.
Proof. intros (_ & b & _ & Hb & <-). eapply units_length, Hb. Qed.

Lemma append_bytes_ok s u l : holds_units s u -> buf_len s + Z.of_nat (length l) <= buf_size s -> in_width (buf_wide s) l ->
  exists s', (if buf_wide s then append16 s l else append8 s l) = Some s' /\ holds_units s' (u ++ l) /\
    buf_wide s' = buf_wide s /\ buf_size s' = buf_size s /\ buf_len s' = buf_len s + Z.of_nat (length l).
Proof.
  intros (He & b & Eb & Hb & Hu) Hl Hw. pose proof (gb_len _ _ _ _ Hb) as Hlen. destruct (store_units b (buf_wide s) (buf_len s) (buf_size s) l Hb Hl Hw) as (b' & E & Hb' & Hu').
  exists (mk_buffer (Some b') (buf_len s + Z.of_nat (length l)) (buf_size s) (buf_wide s) (error_status s)). split; [|split_and!; try done].
  - unfold append16, append8. rewrite Eb. cbn [mbind option_bind]. destruct (buf_wide s) eqn:Ew; [rewrite store16_eq by lia | rewrite store8_eq by lia]; now rewrite E.
  - split; [done|]. exists b'. cbn. now rewrite Hu', Hu.
Qed.

Lemma append_ok s u l a : holds_units s u -> buf_len s + Z.of_nat (length l) <= buf_size s -> in_width (buf_wide s) l ->
  exists s', append s l a = Some (0, s', a) /\ holds_units s' (u ++ l) /\ buf_wide s' = buf_wide s /\ buf_size s' = buf_size s /\
    buf_len s' = buf_len s + Z.of_nat (length l).
Proof.
  intros H Hl Hw. destruct l as [|c l].
  - exists s. cbn. rewrite app_nil_r. split_and!; try done. lia.
  - destruct (append_bytes_ok s u (c :: l) H Hl Hw) as (s' & E & R). exists s'. unfold append, put_ok. now rewrite E.
Qed.

Lemma put_ok_eq s c a : (if buf_wide s then put_ok (put16 s c) a else put_ok (put8 s c) a) = append s [c] a.
Proof. unfold append, put_ok, put16, put8, append16, append8. now destruct (buf_wide s). Qed.

(** The state of a buffer to which [u] was appended: it holds [u], or has failed,
    for want of memory or because the string is too long *)
Definition tracks (a : allocator) (s : StringBuffer) (u : list Z) : Prop :=
  holds_units s u \/ failed s /\ (fails a \/ JS_STRING_LEN_MAX < Z.of_nat (length u)).

(** An operation appends [l], to any buffer. *)
Definition appends (l : list Z) (op : StringBuffer -> allocator -> option (Z * StringBuffer * allocator)) : Prop :=
  forall a0 s u a, a `suffix_of` a0 -> small_slack a0 -> tracks a0 s u -> Z.of_nat (length (u ++ l)) < 2 ^ 31 ->
  exists x s' a', op s a = Some (x, s', a') /\ a' `suffix_of` a0 /\ tracks a0 s' (u ++ l) /\ (x = 0 \/ x = -1 /\ failed s').

Lemma failed_not_holds s u : failed s -> ~ holds_units s u.
Proof. intros (H & _) (H' & _). congruence. Qed.

Lemma tracks_more a s u l : failed s -> tracks a s u -> tracks a s (u ++ l).
Proof.
  intros Hf [H|(_ & [H|H])]; [now destruct (failed_not_holds s u) | right; auto|]. right. split; [done|]. right. rewrite length_app. lia.
Qed.

(** From what an operation does on buffers that hold characters and on failed ones *)
Lemma appends_intro l op :
  (forall s u a, holds_units s u -> small_slack a -> Z.of_nat (length (u ++ l)) < 2 ^ 31 ->
    yields a (u ++ l) (fun _ => True) (JS_STRING_LEN_MAX < Z.of_nat (length (u ++ l))) (op s a)) ->
  (forall s a, failed s -> Z.of_nat (length l) < 2 ^ 31 -> exists x, op s a = Some (x, s, a) /\ (x = 0 \/ x = -1)) ->
  appends l op.
Proof.
  intros H1 H2 a0 s u a S Ha T Hl. destruct T as [H|[Hf H]].
  - destruct (H1 s u a H (small_slack_suffix _ _ S Ha) Hl) as (x & s' & a' & E & S' & R). exists x, s', a'. split_and!; [done | now transitivity a| |].
    + destruct R as [(_ & R & _)|(_ & Hf & [R|R])]; [now left | right; split; eauto..].
    + destruct R as [(-> & _)|(-> & Hf & _)]; auto.
  - destruct (H2 s a Hf) as (x & E & Hx); [rewrite length_app in Hl; lia|]. exists x, s, a. split_and!; [done | done | | destruct Hx; auto]. apply tracks_more; [done | right; auto].
Qed.

Lemma appends_bind l1 l2 op1 op2 : appends l1 op1 -> appends l2 op2 ->
  appends (l1 ++ l2) (fun s a => '(r, s, a) ← op1 s a; if negb (r =? 0) then Some (-1, s, a) else op2 s a).
Proof.
  intros H1 H2 a0 s u a S Ha T Hl. rewrite app_assoc in *. destruct (H1 a0 s u a S Ha T) as (x & s1 & a1 & E1 & S1 & T1 & Hx); [rewrite length_app in Hl; lia|].
  rewrite E1. cbn [mbind option_bind]. destruct Hx as [->|[-> Hf]]; cbn [Z.eqb negb]; [now apply H2|]. exists (-1), s1, a1. split_and!; [done | done | now apply tracks_more | auto].
Qed.

Lemma appends_ext l op1 op2 : (forall s a, op1 s a = op2 s a) -> appends l op1 -> appends l op2.
Proof. intros E H a0 s u a. rewrite <- E. apply H. Qed.

(** ** The operations *)

Lemma realloc_failed s n c a : failed s -> string_buffer_realloc s n c a = Some (-1, s, a).
Proof. intros (E & _). unfold string_buffer_realloc. now rewrite E. Qed.

(** Room for [n] more units of the size of [c], then [k] *)
Lemma with_room_ok full s u v new_len c a k : holds_units s u -> small_slack a -> (full = false -> new_len <= buf_size s) -> buf_len s <= new_len ->
  new_len <= Z.of_nat (length v) ->
  (forall s' a', holds_units s' u -> a' `suffix_of` a -> small_slack a' -> new_len <= buf_size s' -> buf_len s' = buf_len s ->
    (buf_wide s' = buf_wide s \/ full = true /\ buf_wide s' = buf_wide s || (0x100 <=? c)) ->
    yields a v (fun _ => True) (JS_STRING_LEN_MAX < Z.of_nat (length v)) (k s' a')) ->
  yields a v (fun _ => True) (JS_STRING_LEN_MAX < Z.of_nat (length v)) (with_room full s new_len c a k).
Proof.
  intros H Ha Hfull Hnew Hv Hk. unfold with_room. destruct full; [|apply Hk; auto].
  destruct (realloc_ok s u new_len c a H Hnew Ha) as (x & s' & a' & -> & S & R). cbn [mbind option_bind].
  destruct R as [(-> & R & Hw & Hsz & Hl)|(-> & Hf & R)]; cbn [Z.eqb negb].
  - apply Hk; try done; [eauto | auto].
  - exists (-1), s', a'. split_and!; [done | done|]. right. split_and!; [done | done|]. destruct R; [now left | right; lia].
Qed.

Lemma append_yields s u l a a' : holds_units s u -> a' `suffix_of` a -> buf_len s + Z.of_nat (length l) <= buf_size s -> in_width (buf_wide s) l ->
  yields a (u ++ l) (fun _ => True) (JS_STRING_LEN_MAX < Z.of_nat (length (u ++ l))) (append s l a').
Proof.
  intros H S Hl Hw. destruct (append_ok s u l a' H Hl Hw) as (s' & E & H' & _). exists 0, s', a'. split_and!; [done | done|]. left. auto.
Qed.

(** Widening, then appending *)
Lemma widen_append_yields s u l a a' : holds_units s u -> a' `suffix_of` a -> small_slack a' -> buf_wide s = false ->
  buf_len s + Z.of_nat (length l) <= buf_size s -> in_width true l ->
  yields a (u ++ l) (fun _ => True) (JS_STRING_LEN_MAX < Z.of_nat (length (u ++ l)))
    ('(r, s, a) ← string_buffer_widen s (buf_size s) a'; if negb (r =? 0) then Some (-1, s, a) else append s l a).
Proof.
  intros H S Ha Hw Hl Hin. pose proof H as (_ & b & _ & [_ Hlen Hsz _] & _). rewrite Hw in Hsz.
  destruct (widen_ok s u (buf_size s) a' H Hw) as (x & s1 & a1 & -> & S1 & R); [lia | done|]. cbn [mbind option_bind].
  destruct R as [(-> & H1 & Hw1 & Hs1 & Hl1)|(-> & Hf & [R|[]])]; cbn [Z.eqb negb].
  - apply append_yields; [done | now transitivity a' | lia | now rewrite Hw1].
  - exists (-1), s1, a1. split_and!; [done | now transitivity a'|]. right. split_and!; [done | done | left; eauto].
Qed.

Lemma length_app1 (u : list Z) c : Z.of_nat (length (u ++ [c])) = Z.of_nat (length u) + 1.
Proof. rewrite length_app. cbn. lia. Qed.

Lemma putc8_appends c : in_u 8 c -> appends [c] (fun s a => string_buffer_putc8 s c a).
Proof.
  intros Hc. apply appends_intro.
  - intros s u a H Ha Hl. unfold string_buffer_putc8. pose proof (holds_length s u H) as El.
    apply (with_room_ok _ s u); try done; try (intros; lia).
    + rewrite length_app1. lia.
    + intros s' a' H' S' Ha' Hsz Hl' _. rewrite put_ok_eq. apply append_yields; [done | done | cbn; lia|]. apply narrow_width. now constructor.
  - intros s a Hf _. exists (-1). pose proof Hf as (_ & _ & El & Es). unfold string_buffer_putc8, with_room. rewrite El, Es. cbn [Z.leb Z.compare].
    rewrite realloc_failed by done. auto.
Qed.

Lemma putc16_slow_ok s u c a : in_u 16 c -> holds_units s u -> small_slack a -> 
  yields a (u ++ [c]) (fun _ => True) (JS_STRING_LEN_MAX < Z.of_nat (length (u ++ [c]))) (string_buffer_putc16_slow s c a).
Proof.
  intros Hc H Ha. unfold string_buffer_putc16_slow. pose proof (holds_length s u H) as El. apply (with_room_ok _ s u); try done; try (intros; lia).
  - rewrite length_app1. lia.
  - intros s' a' H' S' Ha' Hsz Hl' _. destruct (buf_wide s') eqn:Hw; [|destruct (Z.ltb_spec c 0x100)].
    + pose proof (put_ok_eq s' c a') as E. rewrite Hw in E. rewrite E. apply append_yields; [done | done | cbn; lia|]. rewrite Hw. now constructor.
    + pose proof (put_ok_eq s' c a') as E. rewrite Hw in E. rewrite E. apply append_yields; [done | done | cbn; lia|]. rewrite Hw. constructor; [unfold in_u in *; lia | done].
    + destruct (widen_append_yields s' u [c] a a') as (x & s2 & a2 & E & R); [done | done | done | done | cbn; lia | now constructor|]. exists x, s2, a2. split; [|done]. rewrite <- E.
      destruct (string_buffer_widen s' (buf_size s') a') as [[[r s3] a3]|] eqn:E3; [|done]. cbn [mbind option_bind]. destruct (negb (r =? 0)) eqn:Er; [done|].
      unfold string_buffer_widen in E3. pose proof H' as (He & b & Eb & _). rewrite He, Eb in E3. cbn [Z.eqb negb mbind option_bind] in E3. destruct (allocate a') as [[n|] a4].
      * destruct (widen_loop _ _); [|done]. cbn [mbind option_bind] in E3. injection E3 as <- <- <-. done.
      * injection E3 as <- <- <-. done.
Qed.

Lemma putc16_appends c : in_u 16 c -> appends [c] (fun s a => string_buffer_putc16 s c a).
Proof.
  intros Hc. apply appends_intro.
  - intros s u a H Ha Hl. unfold string_buffer_putc16. destruct (Z.ltb_spec (buf_len s) (buf_size s)) as [Hlt|Hge]; cbn [andb]; [|now apply putc16_slow_ok].
    pose proof (put_ok_eq s c a) as E. destruct (buf_wide s) eqn:Hw; [|destruct (Z.ltb_spec c 0x100); [|now apply putc16_slow_ok]]; rewrite E; apply append_yields; try done;
      rewrite ?Hw; cbn; try lia; constructor; try done. unfold in_u in *. lia.
  - intros s a Hf _. exists (-1). pose proof Hf as (_ & _ & El & Es). unfold string_buffer_putc16, string_buffer_putc16_slow, with_room. rewrite El, Es.
    cbn [Z.ltb Z.leb Z.compare andb]. rewrite realloc_failed by done. auto.
Qed.

(** The UTF-16 units of a code point *)
Definition utf16 (c : Z) : list Z := if c <? 0x10000 then [c] else [get_hi_surrogate c; get_lo_surrogate c].

Lemma hi_surrogate_eq c : 0x10000 <= c < 0x110000 -> get_hi_surrogate c = 0xD800 + (c - 0x10000) / 0x400.
Proof.
  intros H. unfold get_hi_surrogate. rewrite Z.shiftr_div_pow2 by lia. change (Z.shiftr 65536 10) with 64. change (2 ^ 10) with 1024.
  assert ((c - 65536) / 1024 = c / 1024 - 64) as ->; [|rewrite wrap_small; [lia|]].
  - replace (c - 65536) with (c + (-64) * 1024) by lia. rewrite Z.div_add by lia. lia.
  - pose proof (Z.div_le_lower_bound c 1024 64). pose proof (Z.div_lt_upper_bound c 1024 1088). unfold in_u. lia.
Qed.

Lemma lo_surrogate_eq c : 0 <= c -> get_lo_surrogate c = 0xDC00 + c mod 0x400.
Proof.
  intros H. unfold get_lo_surrogate. change 1023 with (Z.ones 10). rewrite Z.land_ones by lia. change (2 ^ 10) with 1024. pose proof (Z.mod_pos_bound c 1024).
  assert (Z.land (c mod 1024) 56320 = 0) as E.
  { apply Z.bits_inj'. intros m Hm. rewrite Z.land_spec, Z.bits_0. destruct (Z.ltb_spec m 10).
    - replace 56320 with (55 * 2 ^ 10) by lia. rewrite Z.mul_pow2_bits_low by lia. apply andb_false_r.
    - rewrite (Z.bits_above_log2 (c mod 1024) m); [done | lia|]. destruct (decide (c mod 1024 = 0)) as [->|]; [cbn; lia|]. apply Z.log2_lt_pow2; [lia|].
      change 1024 with (2 ^ 10) in *. pose proof (Z.pow_le_mono_r 2 10 m). lia. }
  pose proof (Z.add_lor_land (c mod 1024) 56320). lia.
Qed.

Lemma surrogate_range c : 0x10000 <= c < 0x110000 -> 0xD800 <= get_hi_surrogate c < 0xDC00 /\ 0xDC00 <= get_lo_surrogate c < 0xE000.
Proof.
  intros H. rewrite hi_surrogate_eq, lo_surrogate_eq by lia. pose proof (Z.mod_pos_bound c 1024). pose proof (Z.div_pos (c - 65536) 1024).
  pose proof (Z.div_lt_upper_bound (c - 65536) 1024 1024). lia.
Qed.

Lemma utf16_units c : 0 <= c < 0x110000 -> Forall (in_u 16) (utf16 c).
Proof.
  intros H. unfold utf16. destruct (Z.ltb_spec c 65536); [repeat constructor; unfold in_u; lia|]. pose proof (surrogate_range c).
  repeat constructor; unfold in_u; lia.
Qed.

Lemma putc_slow_appends c : 0 <= c < 0x110000 -> appends (utf16 c) (fun s a => string_buffer_putc_slow s c a).
Proof.
  intros Hc. unfold string_buffer_putc_slow, utf16. pose proof (surrogate_range c) as Hs. destruct (Z.ltb_spec c 0x10000), (Z.leb_spec 0x10000 c); try lia.
  - apply putc16_appends. unfold in_u. lia.
  - apply (appends_bind [_] [_]); apply putc16_appends; unfold in_u; lia.
Qed.

Lemma putc_appends c : 0 <= c < 0x110000 -> appends (utf16 c) (fun s a => string_buffer_putc s c a).
Proof.
  intros Hc a0 s u a S Ha T Hl. pose proof (putc_slow_appends c Hc a0 s u a S Ha T Hl) as Hslow. unfold string_buffer_putc.
  destruct (Z.ltb_spec (buf_len s) (buf_size s)) as [Hlt|_]; [|exact Hslow]. destruct T as [H|[(_ & _ & ? & ?) _]]; [|lia].
  assert (forall v s', put_ok (Some s') a = Some (0, s', a) /\ (holds_units s' v -> v = u ++ utf16 c -> exists x s'' a', Some (0, s', a) = Some (x, s'', a') /\ a' `suffix_of` a0 /\
    tracks a0 s'' (u ++ utf16 c) /\ (x = 0 \/ x = -1 /\ failed s''))) as Hdone.
  { intros v s'. split; [done|]. intros Hv ->. exists 0, s', a. split_and!; [done | done | now left | now left]. }
  assert (forall s u d, holds_units s u -> buf_wide s = true -> buf_len s < buf_size s -> in_u 16 d ->
    exists s', put16 s d = Some s' /\ holds_units s' (u ++ [d]) /\ buf_wide s' = true /\ buf_len s' = buf_len s + 1 /\ buf_size s' = buf_size s) as Hput.
  { clear. intros s u d H Hw Hlt Hd. destruct (append_bytes_ok s u [d] H) as (s' & E & R); [cbn; lia | rewrite Hw; now constructor|]. rewrite Hw in *. exists s'. split; [exact E|].
    cbn [length] in R. destruct R as (? & ? & ? & ?). split_and!; try done. }
  destruct (buf_wide s) eqn:Hw.
  - destruct (Z.ltb_spec c 0x10000) as [Hc1|Hc1]; [|destruct (Z.ltb_spec (buf_len s + 1) (buf_size s)) as [Hlt2|_]; [|exact Hslow]].
    + destruct (Hput s u c H Hw Hlt) as (s' & -> & R & _); [unfold in_u; lia|]. apply (Hdone (u ++ [c])); [done|]. unfold utf16. destruct (Z.ltb_spec c 65536); [done | lia].
    + pose proof (surrogate_range c) as Hs. destruct (Hput s u (get_hi_surrogate c) H Hw Hlt) as (s1 & -> & R1 & Hw1 & Hl1 & Hs1); [unfold in_u; lia|]. cbn [mbind option_bind].
      destruct (Hput s1 _ (get_lo_surrogate c) R1 Hw1) as (s2 & -> & R2 & _); [lia | unfold in_u; lia|].
      apply (Hdone ((u ++ [get_hi_surrogate c]) ++ [get_lo_surrogate c])); [done|]. rewrite <- app_assoc. unfold utf16. destruct (Z.ltb_spec c 65536); [lia | done].
  - destruct (Z.ltb_spec c 0x100) as [Hc1|_]; [|exact Hslow]. destruct (append_bytes_ok s u [c] H) as (s' & E & R & _); [cbn; lia | rewrite Hw; constructor; [unfold in_u; lia | done]|].
    rewrite Hw in E. unfold append8 in E. unfold put8. destruct (buf_str s) as [b|]; [|done]. cbn [mbind option_bind length] in *. change (Z.of_nat 1) with 1 in E. rewrite E.
    apply (Hdone (u ++ [c])); [done|]. unfold utf16. destruct (Z.ltb_spec c 65536); [done | lia].
Qed.

(** ** Writing strings *)

Lemma write8_appends l : in_width false l -> appends l (fun s a => string_buffer_write8 s l a).
Proof.
  intros Hw. apply appends_intro.
  - intros s u a H Ha Hl. pose proof (holds_length s u H) as El. rewrite length_app in Hl. pose proof H as (_ & b & _ & [_ Hlen _ _] & _).
    unfold string_buffer_write8. rewrite sgn_small by (unfold in_s; lia). apply (with_room_ok _ s u); try done; try (intros; lia).
    + rewrite length_app. lia.
    + intros s' a' H' S' Ha' Hsz Hl' _. apply append_yields; [done | done | lia | now apply narrow_width].
  - intros s a Hf Hl. pose proof Hf as (_ & _ & El & Es). unfold string_buffer_write8, with_room. rewrite El, Es, Z.add_0_l, sgn_small by (unfold in_s; lia).
    destruct (Z.ltb_spec 0 (Z.of_nat (length l))); [rewrite realloc_failed by done; eauto|]. destruct l; [cbn; eauto | cbn in *; lia].
Qed.

Lemma lor_bound l n : 0 <= n -> Forall (fun c => 0 <= c) l -> (foldl Z.lor n l < 0x100 <-> n < 0x100 /\ Forall (fun c => c < 0x100) l) /\ 0 <= foldl Z.lor n l.
Proof.
  revert n. induction l as [|c l IH]; intros n Hn Hl; cbn [foldl]; [split; [split; [intros H; split; [done | constructor] | tauto] | done]|].
  apply Forall_cons_1 in Hl as [Hc Hl]. assert (0 <= Z.lor n c) as Hlor by (apply Z.lor_nonneg; lia). destruct (IH (Z.lor n c) Hlor Hl) as [E E0]. split; [|done].
  rewrite E, (list.Forall_cons _ c l). assert (forall x, 0 <= x -> (x < 0x100 <-> Z.shiftr x 8 = 0)) as Hsh.
  { intros x Hx. rewrite Z.shiftr_div_pow2 by lia. rewrite Z.div_small_iff by lia. lia. }
  rewrite !Hsh by lia. rewrite Z.shiftr_lor, Z.lor_eq_0_iff. tauto.
Qed.

Lemma write16_appends l : in_width true l -> appends l (fun s a => string_buffer_write16 s l a).
Proof.
  intros Hw. assert (Forall (fun c => 0 <= c) l) as Hpos by (eapply Forall_impl; [exact Hw|]; intros c; unfold in_u; lia).
  destruct (lor_bound l 0 ltac:(lia) Hpos) as [Hlor _]. apply appends_intro.
  - intros s u a H Ha Hl. pose proof (holds_length s u H) as El. rewrite length_app in Hl. pose proof H as (_ & b & _ & [_ Hlen _ _] & _).
    unfold string_buffer_write16. rewrite sgn_small by (unfold in_s; lia).
    assert (forall w, w = false \/ w = true -> (w = false -> foldl Z.lor 0 l < 0x100) -> in_width w l) as Hin.
    { intros w [-> | ->] Hc; [|done]. specialize (Hc eq_refl). apply Hlor in Hc as [_ Hc]. apply Forall_forall. intros c Hcl. rewrite Forall_forall in Hc, Hpos. unfold in_u. split; [now apply Hpos | now apply Hc]. }
    destruct (Z.ltb_spec (buf_size s) (buf_len s + Z.of_nat (length l))) as [Hlt|Hge].
    + destruct (realloc_ok s u (buf_len s + Z.of_nat (length l)) (foldl Z.lor 0 l) a H) as (x & s' & a' & -> & S & R); [lia | done|]. cbn [mbind option_bind].
      destruct R as [(-> & R & Hw' & Hsz & Hl')|(-> & Hf & R)]; cbn [Z.eqb negb].
      * apply append_yields; [done | done | lia|]. apply Hin; [destruct (buf_wide s'); auto|]. intros E. rewrite E in Hw'. symmetry in Hw'. apply orb_false_elim in Hw' as [_ Hc]. apply Z.leb_gt in Hc. lia.
      * exists (-1), s', a'. split_and!; [done | done|]. right. split_and!; [done | done|]. rewrite length_app. destruct R; [now left | right; lia].
    + destruct (negb (buf_wide s) && (0x100 <=? foldl Z.lor 0 l)) eqn:Ew.
      * apply andb_prop in Ew as [Hn%negb_true_iff _]. now apply widen_append_yields.
      * apply append_yields; [done | done | lia|]. apply Hin; [destruct (buf_wide s); auto|]. intros E. rewrite E in Ew. cbn in Ew. apply Z.leb_gt in Ew. lia.
  - intros s a Hf Hl. pose proof Hf as (_ & _ & El & Es). unfold string_buffer_write16. rewrite El, Es, Z.add_0_l, sgn_small by (unfold in_s; lia).
    destruct (Z.ltb_spec 0 (Z.of_nat (length l))); [rewrite realloc_failed by done; cbn; eauto|]. destruct l; [|cbn in *; lia]. cbn.
    destruct (buf_wide s); cbn; eauto.
Qed.

Lemma concat_appends p from to : wf_string p -> (to <= length (str p))%nat -> appends (take (to - from) (drop from (str p))) (fun s a => string_buffer_concat s p from to a).
Proof.
  intros Hp Hto. unfold string_buffer_concat. destruct (Nat.leb_spec to from) as [Hle|_].
  - replace (to - from)%nat with 0%nat by lia. apply appends_intro; [|eauto]. intros s u a H _ _. rewrite app_nil_r. exists 0, s, a. split_and!; [done | done|]. left. auto.
  - destruct (Nat.ltb_spec (length (str p)) to); [lia|]. unfold wf_string in Hp. destruct (is_wide_char p); [apply write16_appends | apply write8_appends]; now apply Forall_take, Forall_drop.
Qed.

Lemma fill_appends c n : in_u 16 c -> appends (replicate n c) (fun s a => fill_loop n s c a).
Proof.
  intros Hc. induction n as [|n IH]; cbn [fill_loop replicate].
  - apply appends_intro; [|eauto]. intros s u a H _ _. rewrite app_nil_r. exists 0, s, a. split_and!; [done | done|]. left. auto.
  - apply (appends_bind [c]); [now apply putc16_appends | done].
Qed.

Lemma string_buffer_fill_appends c count : in_u 16 c -> 0 <= count -> appends (replicate (Z.to_nat count) c) (fun s a => string_buffer_fill s c count a).
Proof.
  intros Hc H0 a0 s u a S Ha T Hl. pose proof (fill_appends c (Z.to_nat count) Hc) as F. unfold string_buffer_fill, with_room. rewrite length_app, length_replicate in Hl.
  assert (tracks a0 s (u ++ [])) as _ by now rewrite app_nil_r. destruct T as [H|[Hf H]].
  - pose proof (holds_length s u H) as El. pose proof H as (_ & b & _ & [_ Hlen _ _] & _). rewrite sgn_small by (unfold in_s; lia).
    destruct (Z.ltb_spec (buf_size s) (buf_len s + count)); [|apply F; [done | done | now left | rewrite length_app, length_replicate; lia]].
    destruct (realloc_ok s u (buf_len s + count) c a H) as (x & s' & a' & -> & S' & R); [lia | eauto|]. cbn [mbind option_bind].
    destruct R as [(-> & R & _)|(-> & Hf & R)]; cbn [Z.eqb negb].
    + apply F; [now transitivity a | done | now left | rewrite length_app, length_replicate; lia].
    + exists (-1), s', a'. split_and!; [done | now transitivity a | right; split; [done|] | auto]. rewrite length_app, length_replicate. destruct R; [left; eauto | right; lia].
  - pose proof Hf as (_ & _ & El & Es). rewrite El, Es, Z.add_0_l, sgn_small by (unfold in_s; lia). destruct (Z.ltb_spec 0 count).
    + rewrite realloc_failed by done. cbn. exists (-1), s, a. split_and!; [done | done | apply tracks_more; [done | right; auto] | auto].
    + apply F; [done | done | right; auto | rewrite length_app, length_replicate; lia].
Qed.

(** ** The beginning and the end *)

Lemma init2_ok a size wide : 0 <= size <= JS_STRING_LEN_MAX -> small_slack a -> exists x s a', string_buffer_init2 a size wide = (x, s, a') /\ a' `suffix_of` a /\
  ((x = 0 /\ holds_units s [] /\ buf_wide s = wide) \/ (x = -1 /\ failed s /\ fails a)).
Proof.
  intros Hs Ha. unfold string_buffer_init2, js_alloc_string. destruct (allocate a) as [x a'] eqn:Ea. destruct (allocate_ok a x a' Ea Ha) as (S & Ha' & Hx).
  destruct x as [n|]; [eexists 0, _, a' | eexists (-1), _, a']; (split; [reflexivity|]); (split; [done|]); [left | right; done].
  split_and!; [done | | done]. split; [done|]. eexists. split; [reflexivity|]. cbn [buf_wide buf_len buf_size]. split; [|now destruct wide].
  constructor; [apply Forall_replicate; unfold in_u; lia | lia | destruct wide; lia | rewrite length_replicate; lia].
Qed.

Lemma end_ok a0 s u a : tracks a0 s u -> exists r a', string_buffer_end s a = Some (r, a') /\ a' `suffix_of` a /\
  match r with
  | Some p => str p = u /\ wf_string p /\ (u <> [] -> is_wide_char p = buf_wide s)
  | None => fails a0 \/ JS_STRING_LEN_MAX < Z.of_nat (length u)
  end.
Proof.
  intros [H|[Hf H]]; unfold string_buffer_end.
  2: { destruct Hf as (-> & _). cbn. exists None, a. split_and!; done. }
  pose proof (holds_length s u H) as El. destruct H as (-> & b & -> & Hb & Hu). cbn [Z.eqb negb mbind option_bind]. pose proof Hb as [Hbytes Hlen Hsz Hr].
  destruct (Z.eqb_spec (buf_len s) 0) as [E|E].
  { assert (u = []) as -> by (apply length_zero_iff_nil; lia). exists (Some (mk_string false [])), a. split_and!; try done. constructor. }
  rewrite string_bytes_eq in Hr by lia.
  assert (exists b1 a1, (if buf_len s <? buf_size s then match allocate a with (None, a) => (b, a) | (Some _, a) => (resize b (string_bytes (buf_len s) (buf_wide s)), a) end else (b, a)) = (b1, a1) /\
    a1 `suffix_of` a /\ Forall (in_u 8) b1 /\ units b1 (buf_wide s) (buf_len s) = u /\ (string_bytes (buf_len s) (buf_wide s) <= length b1)%nat) as (b1 & a1 & -> & S & Hb1 & Hu1 & Hr1).
  { destruct (resize_ok b (string_bytes (buf_len s) (buf_wide s))) as [Lr Tr].
    destruct (Z.ltb_spec (buf_len s) (buf_size s)); [destruct (allocate a) as [[n|] a1] eqn:Ea|].
    - eexists _, a1. split; [reflexivity|]. split_and!; [| now apply resize_bytes | | lia].
      + unfold allocate in Ea. destruct a as [|? a]; injection Ea as ? <-; [done | now apply suffix_cons_r].
      + rewrite <- Hu, !units_eq. rewrite Tr; [done | |]; rewrite ?string_bytes_eq by lia; unfold used; destruct (buf_wide s); lia.
    - eexists _, a1. split; [reflexivity|]. split_and!; [| done | done | rewrite string_bytes_eq by lia; destruct (buf_wide s); lia].
      unfold allocate in Ea. destruct a as [|? a]; injection Ea as ? <-; [done | now apply suffix_cons_r].
    - eexists b, a. split; [reflexivity|]. split_and!; [done | done | done | rewrite string_bytes_eq by lia; destruct (buf_wide s); lia]. }
  rewrite string_bytes_eq in Hr1 by lia. destruct (buf_wide s) eqn:Hw; cbn [mbind option_bind].
  - eexists _, a1. split; [reflexivity|]. split_and!; [done | cbn; exact Hu1 | | done]. unfold wf_string. cbn. exact (units_range b1 true (buf_len s) Hb1).
  - unfold store8. destruct (Z.ltb_spec (buf_len s) 0); [lia|]. destruct (store_ok b1 (Z.to_nat (buf_len s)) (map u8 [0])) as (b2 & E2 & _ & T2 & _); [cbn; lia|].
    rewrite E2. cbn [mbind option_bind]. eexists _, a1. split; [reflexivity|]. assert (units b2 false (buf_len s) = u) as Hu2 by (rewrite <- Hu1; exact T2).
    split_and!; [done | cbn; exact Hu2 | | done]. unfold wf_string. cbn. apply (units_range b2 false (buf_len s)). eapply store_bytes; [exact E2 | done|]. apply (map_wrap_range 8 [0]); lia.
Qed.

(** ** Programs that use a buffer *)

Inductive command : Type :=
| Putc8 (c : Z)
| Putc16 (c : Z)
| Putc (c : Z)
| Write8 (l : list Z)
| Write16 (l : list Z)
| Concat (p : JSString) (from to : nat)
| Fill (c count : Z).

(** The arguments have the types of the C functions. *)
Definition command_ok (c : command) : Prop :=
  match c with
  | Putc8 c => in_u 8 c
  | Putc16 c => in_u 16 c
  | Putc c => 0 <= c < 0x110000
  | Write8 l => in_width false l
  | Write16 l => in_width true l
  | Concat p from to => wf_string p /\ (to <= length (str p))%nat
  | Fill c count => in_u 16 c /\ 0 <= count
  end.

Definition run_command (c : command) (s : StringBuffer) (a : allocator) : option (Z * StringBuffer * allocator) :=
  match c with
  | Putc8 c => string_buffer_putc8 s c a
  | Putc16 c => string_buffer_putc16 s c a
  | Putc c => string_buffer_putc s c a
  | Write8 l => string_buffer_write8 s l a
  | Write16 l => string_buffer_write16 s l a
  | Concat p from to => string_buffer_concat s p from to a
  | Fill c count => string_buffer_fill s c count a
  end.

Definition characters (c : command) : list Z :=
  match c with
  | Putc8 c => [c]
  | Putc16 c => [c]
  | Putc c => utf16 c
  | Write8 l => l
  | Write16 l => l
  | Concat p from to => take (to - from) (drop from (str p))
  | Fill c count => replicate (Z.to_nat count) c
  end.

Lemma run_command_appends c : command_ok c -> appends (characters c) (run_command c).
Proof.
  destruct c as [c|c|c|l|l|p from to|c n]; cbn [command_ok characters]; intros H.
  - exact (putc8_appends c H).
  - exact (putc16_appends c H).
  - exact (putc_appends c H).
  - exact (write8_appends l H).
  - exact (write16_appends l H).
  - exact (concat_appends p from to (proj1 H) (proj2 H)).
  - exact (string_buffer_fill_appends c n (proj1 H) (proj2 H)).
Qed.

(** The results of the operations are not looked at. *)
Fixpoint run_commands (cs : list command) (s : StringBuffer) (a : allocator) : option (StringBuffer * allocator) :=
  match cs with
  | [] => Some (s, a)
  | c :: cs => '(_, s, a) ← run_command c s a; run_commands cs s a
  end.

Definition build (size : Z) (is_wide : bool) (cs : list command) (a : allocator) : option (option JSString * allocator) :=
  let '(r, s, a) := string_buffer_init2 a size is_wide in
  '(s, a) ← run_commands cs s a; string_buffer_end s a.

Definition all_characters (cs : list command) : list Z := flat_map characters cs.

Lemma run_commands_ok cs : forall s u a0 a, Forall command_ok cs -> a `suffix_of` a0 -> small_slack a0 -> tracks a0 s u ->
  Z.of_nat (length (u ++ all_characters cs)) < 2 ^ 31 ->
  exists s' a', run_commands cs s a = Some (s', a') /\ tracks a0 s' (u ++ all_characters cs).
Proof.
  induction cs as [|c cs IH]; intros s u a0 a H S Ha T Hl; cbn [run_commands all_characters flat_map] in *; [exists s, a; now rewrite app_nil_r|].
  apply Forall_cons_1 in H as [Hc H]. fold (all_characters cs) in *. rewrite app_assoc in Hl.
  destruct (run_command_appends c Hc a0 s u a S Ha T) as (x & s1 & a1 & -> & S1 & T1 & _); [rewrite length_app in Hl; lia|]. cbn [mbind option_bind].
  rewrite app_assoc. now apply (IH s1 _ a0 a1).
Qed.

(** A string between two 8-bit ones *)
Lemma concat_string3_ok str1 p str3 a : in_width false str1 -> wf_string p -> in_width false str3 -> small_slack a ->
  Z.of_nat (length (str1 ++ str p ++ str3)) <= JS_STRING_LEN_MAX ->
  exists r a', JS_ConcatString3 str1 (Some p) str3 a = Some (r, a') /\
    match r with Some q => str q = str1 ++ str p ++ str3 /\ wf_string q | None => fails a end.
Proof.
  intros H1 Hp H3 Ha Hl. unfold JS_ConcatString3. rewrite !length_app in Hl. destruct (init2_ok a (Z.of_nat (length str1) + Z.of_nat (length (str p)) + Z.of_nat (length str3)) (is_wide_char p)) as (x & s & a1 & -> & S & H); [lia | done|].
  destruct H as [(-> & H & _)|(-> & _ & HF)]; [|now exists None, a1]. cbn [Z.eqb negb].
  destruct (run_commands_ok [Write8 str1; Concat p 0 (length (str p)); Write8 str3] s [] a a1) as (s2 & a2 & E & T2); [repeat constructor; auto | done | done | now left | |].
  { unfold all_characters, JS_STRING_LEN_MAX in *. cbn. rewrite drop_0, Nat.sub_0_r, firstn_all, app_nil_r, !length_app. lia. }
  unfold all_characters in T2. cbn [run_commands run_command flat_map characters app] in *. rewrite drop_0, Nat.sub_0_r, firstn_all, app_nil_r in T2.
  destruct (string_buffer_write8 s str1 a1) as [[[y b] a3]|]; [|done]. cbn [mbind option_bind] in *. destruct (string_buffer_concat b p 0 (length (str p)) a3) as [[[y2 b2] a4]|]; [|done]. cbn [mbind option_bind] in *.
  destruct (string_buffer_write8 b2 str3 a4) as [[[y3 b3] a5]|]; [|done]. cbn [mbind option_bind] in *. injection E as -> ->.
  destruct (end_ok a s2 _ a2 T2) as (r & a6 & -> & _ & H6). exists r, a6. split; [done|]. destruct r; [tauto|]. destruct H6 as [?|H6]; [done|]. rewrite !length_app in H6. lia.
Qed.

(** C15: A string buffer holds what was put into it.  From [string_buffer_init2],
    through any sequence of operations, whose results the caller may ignore, to
    [string_buffer_end], with any allocation failing and any slack in the others,
    no byte outside of the array is touched, although 8-bit characters are widened
    in place; the string at the end is the concatenation of all that was appended,
    at the width of its array, and it is missing only when an allocation failed or
    it would have more than 2^30 - 1 characters. *)
Theorem string_buffer_exact size is_wide cs a : 0 <= size <= JS_STRING_LEN_MAX -> small_slack a -> Forall command_ok cs ->
  Z.of_nat (length (all_characters cs)) < 2 ^ 31 ->
  exists r a', build size is_wide cs a = Some (r, a') /\
    match r with
    | Some p => str p = all_characters cs /\ wf_string p
    | None => fails a \/ JS_STRING_LEN_MAX < Z.of_nat (length (all_characters cs))
    end.
Proof.
  intros Hs Ha Hc Hl. unfold build. destruct (init2_ok a size is_wide Hs Ha) as (x & s & a1 & -> & S & H).
  assert (tracks a s []) as T by (destruct H as [(_ & H & _)|(_ & H & ?)]; [now left | right; auto]).
  destruct (run_commands_ok cs s [] a a1 Hc S Ha T Hl) as (s2 & a2 & -> & T2). cbn [mbind option_bind app] in *.
  destruct (end_ok a s2 _ a2 T2) as (r & a3 & -> & _ & H3). exists r, a3. split; [done|]. destruct r; tauto.
Qed.

(** Two letters in an 8-bit buffer, then a character that widens it *)
Definition sample_build : option (option JSString * allocator) := build 1 false [Write8 [104; 105]; Putc 0x1f600; Fill 33 2] [Some 3%nat; Some 5%nat].
Example sample_build_ok : sample_build = Some (Some (mk_string true [104; 105; 0xd83d; 0xde00; 33; 33]), []).
Proof. vm_compute. reflexivity. Qed.

Lemma string_buffer_exact_witness : exists r a', sample_build = Some (r, a') /\
    match r with
    | Some p => str p = [104; 105; 0xd83d; 0xde00; 33; 33] /\ wf_string p
    | None => fails [Some 3%nat; Some 5%nat] \/ JS_STRING_LEN_MAX < 6
    end.
Proof.
  apply (string_buffer_exact 1 false [Write8 [104; 105]; Putc 0x1f600; Fill 33 2] [Some 3%nat; Some 5%nat]).
  - unfold JS_STRING_LEN_MAX. lia.
  - repeat constructor; intros n [= <-]; lia.
  - repeat constructor; unfold in_u; lia.
  - vm_compute. reflexivity.
Defined.
