(* ===== verification/Utf8.v ===== *)
(** * UTF-8

    The coding of code points of [src/deps/cutils.c] (211 to 313) and the
    conversions between C strings and JavaScript strings of [src/core/quickjs.c]
    (3032 to 3040, 3937 to 3992 and 4040 to 4130). *)

From Stdlib Require Import ZArith Lia Bool.
From stdpp Require Import base numbers list option gmap.
From S2P Require Import Prelude JSStrings StringBuffer StringBufferSpec.

#[local] Open Scope Z_scope.

(** ** Code points *)

(** The bytes, none for 2^31 and above *)
Definition unicode_to_utf8 (c : Z) : list Z :=
  if c <? 0x80 then [u8 c]
  else
    let last := u8 (Z.lor (Z.land c 0x3f) 0x80) in
    if c <? 0x800 then [u8 (Z.lor (Z.shiftr c 6) 0xc0); last]
    else
      let q6 := u8 (Z.lor (Z.land (Z.shiftr c 6) 0x3f) 0x80) in
      if c <? 0x10000 then [u8 (Z.lor (Z.shiftr c 12) 0xe0); q6; last]
      else
        let q12 := u8 (Z.lor (Z.land (Z.shiftr c 12) 0x3f) 0x80) in
        if c <? 0x00200000 then [u8 (Z.lor (Z.shiftr c 18) 0xf0); q12; q6; last]
        else
          let q18 := u8 (Z.lor (Z.land (Z.shiftr c 18) 0x3f) 0x80) in
          if c <? 0x04000000 then [u8 (Z.lor (Z.shiftr c 24) 0xf8); q18; q12; q6; last]
          else if c <? 0x80000000 then
            [u8 (Z.lor (Z.shiftr c 30) 0xfc); u8 (Z.lor (Z.land (Z.shiftr c 24) 0x3f) 0x80); q18; q12; q6; last]
          else [].

Definition utf8_min_code : list Z := [0x80; 0x800; 0x10000; 0x00200000; 0x04000000].
Definition utf8_first_code_mask : list Z := [0x1f; 0xf; 0x7; 0x3; 0x1].

(** The number of the bytes that follow, from the first one *)
Definition utf8_length (c : Z) : option nat :=
  if (0xc0 <=? c) && (c <=? 0xdf) then Some 1%nat
  else if (0xe0 <=? c) && (c <=? 0xef) then Some 2%nat
  else if (0xf0 <=? c) && (c <=? 0xf7) then Some 3%nat
  else if (0xf8 <=? c) && (c <=? 0xfb) then Some 4%nat
  else if (0xfc <=? c) && (c <=? 0xfd) then Some 5%nat
  else None.

(** The code and what follows the sequence; [None] is -1 *)
Fixpoint utf8_loop (l : nat) (c : Z) (p : list Z) : option (Z * list Z) :=
  match l with
  | O => Some (c, p)
  | S l =>
      match p with
      | b :: p => if (b <? 0x80) || (0xc0 <=? b) then None else utf8_loop l (Z.lor (Z.shiftl c 6) (Z.land b 0x3f)) p
      | [] => None
      end
  end.

(** [p] is the rest of the buffer: [max_len] is its length, at least 1. *)
Definition unicode_from_utf8 (p : list Z) : option (Z * list Z) :=
  match p with
  | [] => None
  | c :: q =>
      if c <? 0x80 then Some (c, q)
      else
        l ← utf8_length c;
        if (length p - 1 <? l)%nat then None
        else
          '(c, q) ← utf8_loop l (Z.land c (nth (l - 1) utf8_first_code_mask 0)) q;
          if c <? nth (l - 1) utf8_min_code 0 then None else Some (c, q)
  end.

(** ** Strings from UTF-8 *)

Fixpoint count_ascii (buf : list Z) : nat := match buf with c :: buf => if c <? 128 then S (count_ascii buf) else O | [] => O end.

Fixpoint skip_trailing (p : list Z) : list Z :=
  match p with c :: q => if (0x80 <=? c) && (c <? 0xc0) then skip_trailing q else p | [] => [] end.

(** One turn of the loop: the rest, and the code unit of a first surrogate and the
    unit of each turn *)
Definition decode_char (p : list Z) : option Z * Z * list Z :=
  match unicode_from_utf8 p with
  | Some (c, p_next) =>
      if c <? 0x10000 then (None, c, p_next)
      else if c <=? 0x10FFFF then (Some (get_hi_surrogate c), get_lo_surrogate c, p_next)
      else (None, 0xfffd, match skip_trailing p with _ :: q => skip_trailing q | [] => [] end)
  | None => (None, 0xfffd, match skip_trailing p with _ :: q => skip_trailing q | [] => [] end)
  end.

(** The results of the operations on the buffer are not used: an error stays. *)
Fixpoint decode_loop (fuel : nat) (s : StringBuffer) (p : list Z) (a : allocator) : option (StringBuffer * allocator) :=
  match fuel with
  | O => None
  | S fuel =>
      match p with
      | [] => Some (s, a)
      | c :: q =>
          if c <? 128 then '(_, s, a) ← string_buffer_putc8 s c a; decode_loop fuel s q a
          else
            let '(hi, c, q) := decode_char p in
            '(s, a) ← match hi with
                      | Some hi => '(_, s, a) ← string_buffer_putc16 s hi a; Some (s, a)
                      | None => Some (s, a)
                      end;
            '(_, s, a) ← string_buffer_putc16 s c a;
            decode_loop fuel s q a
      end
  end.

(** [None] in the results is JS_EXCEPTION. *)
Definition js_new_string8_len (buf : list Z) (a : allocator) : option JSString * allocator :=
  match buf with
  | [] => (Some (mk_string false []), a)
  | _ => match allocate a with (None, a) => (None, a) | (Some _, a) => (Some (mk_string false buf), a) end
  end.

Definition JS_NewStringLen (buf : list Z) (a : allocator) : option (option JSString * allocator) :=
  let len1 := count_ascii buf in
  let p := drop len1 buf in
  if JS_STRING_LEN_MAX <? Z.of_nat len1 then Some (None, a)
  else
    match p with
    | [] => Some (js_new_string8_len buf a)
    | _ =>
        let '(r, s, a) := string_buffer_init a (i32 (Z.of_nat (length buf))) in
        if negb (r =? 0) then Some (None, a)
        else
          '(_, s, a) ← string_buffer_write8 s (take len1 buf) a;
          '(s, a) ← decode_loop (S (length buf)) s p a;
          string_buffer_end s a
    end.

(** ** UTF-8 from strings *)

Definition encode_narrow (c : Z) : list Z :=
  if c <? 0x80 then [c] else [u8 (Z.lor (Z.shiftr c 6) 0xc0); u8 (Z.lor (Z.land c 0x3f) 0x80)].

Fixpoint encode_wide (cesu8 : bool) (src : list Z) : list Z :=
  match src with
  | [] => []
  | c :: rest =>
      if c <? 0x80 then c :: encode_wide cesu8 rest
      else if is_hi_surrogate c then
        match rest with
        | c1 :: rest1 =>
            if negb cesu8 && is_lo_surrogate c1 then unicode_to_utf8 (from_surrogate c c1) ++ encode_wide cesu8 rest1
            else unicode_to_utf8 c ++ encode_wide cesu8 rest
        | [] => unicode_to_utf8 c ++ encode_wide cesu8 rest
        end
      else unicode_to_utf8 c ++ encode_wide cesu8 rest
  end.

(** The bytes, written to a new string with room for [max_len] and the
    terminator; [None] is a write beyond it.  A negative length asks for more
    memory than there is. *)
Definition write_cstring (max_len : Z) (q : list Z) (a : allocator) : option (option (list Z) * allocator) :=
  match allocate a with
  | (None, a) => Some (None, a)
  | (Some _, a) => if max_len <? 0 then Some (None, a) else if max_len + 1 <? Z.of_nat (length q) + 1 then None else Some (Some q, a)
  end.

(** The value is a string.  [None] in the result is an exception. *)
Definition JS_ToCStringLen2 (str : JSString) (cesu8 : bool) (a : allocator) : option (option (list Z) * allocator) :=
  let len := Z.of_nat (length (JSStrings.str str)) in
  let src := JSStrings.str str in
  if negb (is_wide_char str) then
    let count := foldl (fun count c => count + Z.shiftr c 7) 0 src in
    if count =? 0 then Some (Some src, a) else write_cstring (i32 (len + count)) (flat_map encode_narrow src) a
  else write_cstring (i32 (len * 3)) (encode_wide cesu8 src) a.
