(* ===== verification/Utf8Spec.v ===== *)
(** * What the UTF-8 conversions promise

    Decoding is total and stays within its buffer, and it is the inverse of
    encoding: for code points, and for strings of code units, with their unpaired
    surrogates. *)

From Stdlib Require Import ZArith Lia Bool.
From stdpp Require Import base numbers list option gmap.
From S2P Require Import Prelude JSStrings StringBuffer StringBufferSpec Utf8.

#[local] Open Scope Z_scope.

(** ** Bits *)

Lemma lor_disjoint x y n : 0 <= n -> 0 <= x < 2 ^ n -> 0 <= y -> y mod 2 ^ n = 0 -> Z.lor x y = x + y.
Proof.
  intros Hn Hx Hy Hm. assert (Z.land x y = 0) as E; [|pose proof (Z.add_lor_land x y); lia].
  apply Z.bits_inj'. intros m H. rewrite Z.land_spec, Z.bits_0. destruct (Z.ltb_spec m n).
  - rewrite <- (Z.mod_pow2_bits_low y n m), Hm, Z.bits_0 by done. apply andb_false_r.
  - rewrite <- (Z.mod_small x (2 ^ n)), Z.mod_pow2_bits_high by lia. done.
Qed.

(** The byte of the bits [k] to [k + 5] *)
Lemma cont_byte c k : 0 <= c -> 0 <= k -> u8 (Z.lor (Z.land (Z.shiftr c k) 0x3f) 0x80) = 128 + (c / 2 ^ k) mod 64.
Proof.
  intros Hc Hk. change 63 with (2 ^ 6 - 1). rewrite land_pow2_mask, Z.shiftr_div_pow2 by lia. pose proof (Z.mod_pos_bound (c / 2 ^ k) 64). change (2 ^ 6) with 64.
  rewrite (lor_disjoint _ _ 6); [|lia | change (2 ^ 6) with 64; lia | lia | done]. rewrite wrap_small; [lia | unfold in_u; lia].
Qed.

Lemma first_byte c k m j : 0 <= c -> 0 <= k -> 0 <= j -> c / 2 ^ k < 2 ^ j -> 0 <= m -> m mod 2 ^ j = 0 -> m + 2 ^ j <= 256 ->
  u8 (Z.lor (Z.shiftr c k) m) = m + c / 2 ^ k.
Proof.
  intros Hc Hk Hj Hlt Hm Hmod Hb. rewrite Z.shiftr_div_pow2 by lia. assert (0 <= c / 2 ^ k) by (apply Z.div_pos; [lia | apply Z.pow_pos_nonneg; lia]).
  rewrite (lor_disjoint _ _ j) by lia. rewrite wrap_small; [lia | unfold in_u; lia].
Qed.

Lemma split6 c k : 0 <= k -> c / 2 ^ k = 64 * (c / 2 ^ (k + 6)) + (c / 2 ^ k) mod 64.
Proof.
  intros Hk. rewrite Z.pow_add_r by lia. change (2 ^ 6) with 64. assert (0 < 2 ^ k) by (apply Z.pow_pos_nonneg; lia). rewrite <- Z.div_div by lia. apply Z.div_mod. lia.
Qed.

Lemma loop_step l c d p : 0 <= c -> 0 <= d < 64 -> utf8_loop (S l) c (128 + d :: p) = utf8_loop l (64 * c + d) p.
Proof.
  intros Hc Hd. cbn [utf8_loop]. destruct (Z.ltb_spec (128 + d) 0x80); [lia|]. destruct (Z.leb_spec 0xc0 (128 + d)); [lia|]. cbn [orb]. f_equal.
  change 63 with (2 ^ 6 - 1). rewrite land_pow2_mask by lia. replace ((128 + d) mod 2 ^ 6) with d by (apply Z.mod_unique with 2; lia). rewrite Z.shiftl_mul_pow2 by lia.
  rewrite Z.lor_comm, (lor_disjoint _ _ 6); [lia | lia | lia | lia|]. apply Z_mod_mult.
Qed.

Lemma first_mask m x j : 0 <= j -> 0 <= x < 2 ^ j -> m mod 2 ^ j = 0 -> Z.land (m + x) (2 ^ j - 1) = x.
Proof. intros Hj Hx Hm. rewrite land_pow2_mask by lia. rewrite Z.add_mod, Hm, Z.add_0_l, Z.mod_mod, Z.mod_small by lia. done. Qed.

(** ** Code points *)

(** The sequence of the code [c]: [n] bytes after the first *)
Definition tail_bytes (n : nat) (c : Z) : list Z := map (fun i => 128 + (c / 2 ^ (6 * Z.of_nat i)) mod 64) (rev (seq 0 n)).

Lemma tail_bytes_S n c : tail_bytes (S n) c = 128 + (c / 2 ^ (6 * Z.of_nat n)) mod 64 :: tail_bytes n c.
Proof. unfold tail_bytes. now rewrite seq_S, rev_app_distr. Qed.

Lemma length_tail n c : length (tail_bytes n c) = n.
Proof. unfold tail_bytes. now rewrite length_map, length_rev, length_seq. Qed.

Lemma loop_tail n c p : 0 <= c -> utf8_loop n (c / 2 ^ (6 * Z.of_nat n)) (tail_bytes n c ++ p) = Some (c, p).
Proof.
  intros Hc. induction n as [|n IH]; [change (Some (c / 2 ^ 0, p) = Some (c, p)); now rewrite Z.pow_0_r, Z.div_1_r|]. rewrite tail_bytes_S. cbn [app]. pose proof (Z.mod_pos_bound (c / 2 ^ (6 * Z.of_nat n)) 64).
  rewrite loop_step; [|apply Z.div_pos; [lia | apply Z.pow_pos_nonneg; lia] | lia]. rewrite <- IH. f_equal. pose proof (split6 c (6 * Z.of_nat n) ltac:(lia)) as E.
  replace (6 * Z.of_nat n + 6) with (6 * Z.of_nat (S n)) in E by lia. lia.
Qed.

(** A sequence of a first byte, [m] with [j] bits of the code, and [n] more bytes *)
Definition is_sequence (n : nat) (m j c : Z) : Prop :=
  (1 <= n <= 5)%nat /\ 0 <= j /\ 0 <= c / 2 ^ (6 * Z.of_nat n) < 2 ^ j /\ m mod 2 ^ j = 0 /\ 0x80 <= m /\
  utf8_length (m + c / 2 ^ (6 * Z.of_nat n)) = Some n /\
  nth (n - 1) utf8_first_code_mask 0 = 2 ^ j - 1 /\ nth (n - 1) utf8_min_code 0 <= c.

Lemma div_range c k j : 0 <= c < 2 ^ (k + j) -> 0 <= k -> 0 <= j -> 0 <= c / 2 ^ k < 2 ^ j.
Proof.
  intros H Hk Hj. rewrite Z.pow_add_r in H by lia. assert (0 < 2 ^ k) by (apply Z.pow_pos_nonneg; lia). split; [apply Z.div_pos; lia | apply Z.div_lt_upper_bound; lia].
Qed.

(** The case of [n] bytes after the first *)
Lemma sequence_case n j m c : (n, j, m) ∈ [(1%nat, 5, 0xc0); (2%nat, 4, 0xe0); (3%nat, 3, 0xf0); (4%nat, 2, 0xf8); (5%nat, 1, 0xfc)] ->
  nth (n - 1) utf8_min_code 0 <= c < 2 ^ (6 * Z.of_nat n + j) ->
  is_sequence n m j c /\ u8 (Z.lor (Z.shiftr c (6 * Z.of_nat n)) m) = m + c / 2 ^ (6 * Z.of_nat n).
Proof.
  intros Hin Hc. assert (0 <= c) as H0.
  { destruct Hc as [Hc _]. repeat (apply elem_of_cons in Hin as [[= -> -> ->]|Hin]; [cbn in Hc; lia|]). now apply elem_of_nil in Hin. }
  assert (0 <= j) as Hj by (repeat (apply elem_of_cons in Hin as [[= -> -> ->]|Hin]; [lia|]); now apply elem_of_nil in Hin).
  pose proof (div_range c (6 * Z.of_nat n) j ltac:(lia) ltac:(lia) Hj) as Hd. remember (c / 2 ^ (6 * Z.of_nat n)) as x eqn:Ex.
  assert (is_sequence n m j c) as Hs.
  { unfold is_sequence. rewrite <- Ex. destruct Hc as [Hmin _]. unfold utf8_length.
    repeat (apply elem_of_cons in Hin as [[= -> -> ->]|Hin]; [cbn [nth Nat.sub] in *; split_and!; try lia; try done; repeat zcase; try lia; reflexivity |]).
    now apply elem_of_nil in Hin. }
  split; [exact Hs|]. destruct Hs as (_ & _ & _ & Hm & Hm0 & _). rewrite Ex. apply (first_byte c _ m j); try lia.
  repeat (apply elem_of_cons in Hin as [[= -> -> ->]|Hin]; [lia|]). now apply elem_of_nil in Hin.
Qed.

Lemma unicode_to_utf8_eq c : 0x80 <= c < 0x80000000 -> exists n m j,
  is_sequence n m j c /\ unicode_to_utf8 c = m + c / 2 ^ (6 * Z.of_nat n) :: tail_bytes n c.
Proof.
  intros H. assert (forall k, 0 <= k -> u8 (Z.lor (Z.land (Z.shiftr c k) 0x3f) 0x80) = 128 + (c / 2 ^ k) mod 64) as Hb by (intros; apply cont_byte; lia).
  pose proof (Hb 0 ltac:(lia)) as H0. rewrite Z.shiftr_0_r in H0. unfold unicode_to_utf8. rewrite H0, !Hb by lia. destruct (Z.ltb_spec c 0x80); [lia|].
  destruct (Z.ltb_spec c 0x800); [|destruct (Z.ltb_spec c 0x10000); [|destruct (Z.ltb_spec c 0x200000); [|destruct (Z.ltb_spec c 0x4000000); [|destruct (Z.ltb_spec c 0x80000000); [|lia]]]]].
  - pose proof (sequence_case 1 5 0xc0 c ltac:(rewrite !elem_of_cons; tauto) ltac:(cbn; lia)) as [S E]. exists 1%nat, 0xc0, 5. split; [exact S|]. change (6 * Z.of_nat 1) with 6 in *. now rewrite E.
  - pose proof (sequence_case 2 4 0xe0 c ltac:(rewrite !elem_of_cons; tauto) ltac:(cbn; lia)) as [S E]. exists 2%nat, 0xe0, 4. split; [exact S|]. change (6 * Z.of_nat 2) with 12 in *. now rewrite E.
  - pose proof (sequence_case 3 3 0xf0 c ltac:(rewrite !elem_of_cons; tauto) ltac:(cbn; lia)) as [S E]. exists 3%nat, 0xf0, 3. split; [exact S|]. change (6 * Z.of_nat 3) with 18 in *. now rewrite E.
  - pose proof (sequence_case 4 2 0xf8 c ltac:(rewrite !elem_of_cons; tauto) ltac:(cbn; lia)) as [S E]. exists 4%nat, 0xf8, 2. split; [exact S|]. change (6 * Z.of_nat 4) with 24 in *. now rewrite E.
  - pose proof (sequence_case 5 1 0xfc c ltac:(rewrite !elem_of_cons; tauto) ltac:(cbn; lia)) as [S E]. exists 5%nat, 0xfc, 1. split; [exact S|]. change (6 * Z.of_nat 5) with 30 in *. now rewrite E.
Qed.

(** Decoding is the inverse of encoding. *)
Lemma from_to_utf8 c p : 0 <= c < 0x80000000 -> unicode_from_utf8 (unicode_to_utf8 c ++ p) = Some (c, p).
Proof.
  intros H. destruct (Z.ltb_spec c 0x80) as [Hlt|Hge].
  - unfold unicode_to_utf8. destruct (Z.ltb_spec c 0x80); [|lia]. cbn [app unicode_from_utf8]. rewrite wrap_small by (unfold in_u; lia). destruct (Z.ltb_spec c 0x80); [done | lia].
  - destruct (unicode_to_utf8_eq c) as (n & m & j & (Hn & Hj & Hx & Hm & Hm0 & Hl & Hmask & Hmin) & ->); [lia|]. remember (c / 2 ^ (6 * Z.of_nat n)) as x eqn:Ex.
    cbn [app unicode_from_utf8]. destruct (Z.ltb_spec (m + x) 0x80); [lia|]. rewrite Hl. cbn [mbind option_bind].
    destruct (Nat.ltb_spec (length (m + x :: tail_bytes n c ++ p) - 1) n) as [Hlt|_]; [cbn [length] in Hlt; rewrite length_app, length_tail in Hlt; lia|].
    rewrite Hmask, first_mask, Ex, loop_tail by (done || lia). cbn [mbind option_bind]. destruct (Z.ltb_spec c (nth (n - 1) utf8_min_code 0)); [lia | done].
Qed.

(** ** Decoding strings *)

(** The units that the loop of [JS_NewStringLen] appends *)
Fixpoint decode_units (fuel : nat) (p : list Z) : list Z :=
  match fuel with
  | O => []
  | S fuel =>
      match p with
      | [] => []
      | c :: q =>
          if c <? 128 then c :: decode_units fuel q
          else let '(hi, c, q) := decode_char p in option_list hi ++ c :: decode_units fuel q
      end
  end.

Definition decode (buf : list Z) : list Z := decode_units (S (length buf)) buf.

Lemma utf8_loop_ok l : forall c p c' q, utf8_loop l c p = Some (c', q) -> 0 <= c -> length p = (l + length q)%nat /\ 0 <= c'.
Proof.
  induction l as [|l IH]; intros c p c' q E Hc; cbn [utf8_loop] in E; [injection E as <- <-; split; [done | lia]|]. destruct p as [|b p]; [done|].
  destruct (_ || _) eqn:Eb; [done|]. apply orb_false_elim in Eb as [?%Z.ltb_ge ?%Z.leb_gt]. apply IH in E as [E ?]; [split; [cbn; lia | done]|].
  apply Z.lor_nonneg. split; [apply Z.shiftl_nonneg; lia | apply Z.land_nonneg; lia].
Qed.

Lemma from_utf8_ok b p c q : 0x80 <= b -> unicode_from_utf8 (b :: p) = Some (c, q) -> (length q < length p)%nat /\ 0 <= c.
Proof.
  intros Hb E. cbn [unicode_from_utf8] in E. destruct (Z.ltb_spec b 0x80); [lia|]. destruct (utf8_length b) as [l|] eqn:El; [|done]. cbn [mbind option_bind] in E.
  assert (1 <= l <= 5)%nat as Hl by (unfold utf8_length in El; repeat (destruct (_ && _); [injection El as <-; lia|]); done).
  destruct (_ <? l)%nat; [done|]. destruct (utf8_loop _ _ _) as [[c1 q1]|] eqn:E1; [|done]. cbn [mbind option_bind] in E. destruct (c1 <? _); [done|]. injection E as <- <-.
  apply utf8_loop_ok in E1 as [E1 Hc]; [split; [lia | done]|]. apply Z.land_nonneg. lia.
Qed.

Lemma skip_trailing_length p : (length (skip_trailing p) <= length p)%nat.
Proof. induction p as [|c p IH]; [done|]. cbn. destruct (_ && _); cbn; lia. Qed.

Lemma decode_char_ok b p hi c q : 0x80 <= b -> decode_char (b :: p) = (hi, c, q) ->
  in_u 16 c /\ (forall h, hi = Some h -> in_u 16 h) /\ (length (option_list hi) + length q <= length p)%nat.
Proof.
  intros Hb E. unfold decode_char in E. pose proof (skip_trailing_length (b :: p)) as H. remember (skip_trailing (b :: p)) as t eqn:Et. clear Et.
  assert ((None, 0xfffd, match t with _ :: q => skip_trailing q | [] => [] end) = (hi, c, q) ->
    in_u 16 c /\ (forall h, hi = Some h -> in_u 16 h) /\ (length (option_list hi) + length q <= length p)%nat) as Hbad.
  { intros [= <- <- <-]. split_and!; [done | done|]. cbn [option_list length]. destruct t as [|x r]; [cbn; lia|].
    pose proof (skip_trailing_length r). cbn in *. lia. }
  destruct (unicode_from_utf8 (b :: p)) as [[c1 q1]|] eqn:Eu; [|now apply Hbad]. destruct (from_utf8_ok b p c1 q1 Hb Eu) as [Hlen Hc].
  destruct (Z.ltb_spec c1 0x10000); [injection E as <- <- <-; split_and!; [unfold in_u; lia | done | cbn; lia]|].
  destruct (Z.leb_spec c1 0x10FFFF); [|now apply Hbad]. injection E as <- <- <-. pose proof (surrogate_range c1).
  split_and!; [unfold in_u; lia | intros h [= <-]; unfold in_u; lia | cbn; lia].
Qed.

Lemma utf8_loop_suffix l : forall c p c' q, utf8_loop l c p = Some (c', q) -> q `suffix_of` p.
Proof.
  induction l as [|l IH]; intros c p c' q E; cbn [utf8_loop] in E; [now injection E as _ <-|]. destruct p as [|b p]; [done|]. destruct (_ || _); [done|].
  apply IH in E. now apply suffix_cons_r.
Qed.

Lemma skip_trailing_suffix p : skip_trailing p `suffix_of` p.
Proof. induction p as [|c p IH]; [done|]. cbn. destruct (_ && _); [now apply suffix_cons_r | done]. Qed.

Lemma decode_char_suffix p hi c q : decode_char p = (hi, c, q) -> q `suffix_of` p.
Proof.
  unfold decode_char. assert (forall x y, (x, y, match skip_trailing p with _ :: q => skip_trailing q | [] => [] end) = (hi, c, q) -> q `suffix_of` p) as Hbad.
  { intros x y [= _ _ <-]. pose proof (skip_trailing_suffix p) as H. destruct (skip_trailing p) as [|z r]; [apply suffix_nil|].
    transitivity r; [apply skip_trailing_suffix|]. transitivity (z :: r); [now apply suffix_cons_r | done]. }
  destruct (unicode_from_utf8 p) as [[c1 q1]|] eqn:Eu; [|apply Hbad]. assert (q1 `suffix_of` p) as Hs.
  { destruct p as [|b p]; [done|]. cbn [unicode_from_utf8] in Eu. destruct (b <? 0x80); [injection Eu as _ <-; now apply suffix_cons_r|].
    destruct (utf8_length b) as [l|]; [|done]. cbn [mbind option_bind] in Eu. destruct (_ <? l)%nat; [done|]. destruct (utf8_loop _ _ _) as [[c2 q2]|] eqn:E2; [|done].
    cbn [mbind option_bind] in Eu. destruct (c2 <? _); [done|]. injection Eu as _ <-. apply utf8_loop_suffix in E2. now apply suffix_cons_r. }
  destruct (c1 <? 0x10000); [intros [= _ _ <-]; done|]. destruct (c1 <=? 0x10FFFF); [intros [= _ _ <-]; done | apply Hbad].
Qed.

Lemma decode_units_length fuel : forall p, (length (decode_units fuel p) <= length p)%nat.
Proof.
  induction fuel as [|fuel IH]; intros p; [cbn; lia|]. cbn [decode_units]. destruct p as [|b p]; [done|]. destruct (Z.ltb_spec b 128); [cbn; specialize (IH p); lia|].
  destruct (decode_char (b :: p)) as [[hi c] q] eqn:E. apply decode_char_ok in E as (_ & _ & E); [|lia]. rewrite length_app. cbn [length]. specialize (IH q). lia.
Qed.

(** The fuel is enough. *)
Lemma decode_units_fuel n : forall m p, (length p < n)%nat -> (length p < m)%nat -> decode_units n p = decode_units m p.
Proof.
  induction n as [|n IH]; intros [|m] p Hn Hm; try lia. cbn [decode_units]. destruct p as [|b p]; [done|]. cbn [length] in *.
  destruct (Z.ltb_spec b 128); [f_equal; apply IH; lia|]. destruct (decode_char (b :: p)) as [[hi c] q] eqn:E. apply decode_char_ok in E as (_ & _ & E); [|lia].
  f_equal. f_equal. apply IH; lia.
Qed.

Lemma decode_units_S n b p : decode_units (S n) (b :: p) =
  if b <? 128 then b :: decode_units n p else let '(hi, c, q) := decode_char (b :: p) in option_list hi ++ c :: decode_units n q.
Proof. done. Qed.

Lemma decode_ascii c p : c < 128 -> decode (c :: p) = c :: decode p.
Proof. intros H. unfold decode at 1. rewrite decode_units_S. destruct (Z.ltb_spec c 128); [done | lia]. Qed.

Lemma decode_cons b p hi c q : 0x80 <= b -> decode_char (b :: p) = (hi, c, q) -> decode (b :: p) = option_list hi ++ c :: decode q.
Proof.
  intros Hb E. unfold decode at 1. rewrite decode_units_S, E. destruct (Z.ltb_spec b 128); [lia|]. f_equal. f_equal.
  apply decode_char_ok in E as (_ & _ & E); [|done]. apply decode_units_fuel; cbn; lia.
Qed.

(** One turn appends the units of a character. *)
Lemma appends_id (l : list Z) s u a0 a : a `suffix_of` a0 -> tracks a0 s u -> exists s' a', Some (s, a) = Some (s', a') /\ a' `suffix_of` a0 /\ tracks a0 s' (u ++ []).
Proof. intros S T. exists s, a. now rewrite app_nil_r. Qed.

Lemma decode_loop_ok fuel : forall p s u (a0 a : allocator), (length p < fuel)%nat -> Forall (in_u 8) p -> a `suffix_of` a0 -> small_slack a0 -> tracks a0 s u ->
  Z.of_nat (length u + length p) < 2 ^ 31 ->
  exists s' a', decode_loop fuel s p a = Some (s', a') /\ a' `suffix_of` a0 /\ tracks a0 s' (u ++ decode p).
Proof.
  induction fuel as [|fuel IH]; intros p s u a0 a Hf Hp S Ha T Hl; [lia|]. cbn [decode_loop]. destruct p as [|b p]; [now apply (appends_id [])|].
  pose proof Hp as [Hb Hp']%Forall_cons_1. cbn [length] in *. destruct (Z.ltb_spec b 128) as [Hlt|Hge].
  - destruct (putc8_appends b Hb a0 s u a S Ha T) as (x & s1 & a1 & -> & S1 & T1 & _); [rewrite length_app; cbn; lia|]. cbn [mbind option_bind].
    destruct (IH p s1 (u ++ [b]) a0 a1) as (s2 & a2 & -> & S2 & T2); try done; [lia | rewrite length_app; cbn; lia|]. exists s2, a2. split_and!; [done | done|].
    rewrite decode_ascii by lia. now rewrite <- app_assoc in T2.
  - destruct (decode_char (b :: p)) as [[hi c] q] eqn:E. rewrite (decode_cons b p hi c q) by (done || lia).
    assert (Forall (in_u 8) q) as Hq.
    { destruct (decode_char_suffix (b :: p) hi c q E) as [k Ek]. rewrite Ek in Hp. now apply Forall_app in Hp. }
    apply decode_char_ok in E as (Hc & Hhi & E); [|lia].
    assert (exists s1 (a1 : allocator), match hi with Some hi => '(_, s, a) ← string_buffer_putc16 s hi a; Some (s, a) | None => Some (s, a) end = Some (s1, a1 : allocator) /\ a1 `suffix_of` a0 /\
      tracks a0 s1 (u ++ option_list hi)) as (s1 & a1 & E1 & S1 & T1).
    { destruct hi as [h|]; [|now apply (appends_id [])]. destruct (putc16_appends h (Hhi h eq_refl) a0 s u a S Ha T) as (x & s1 & a1 & -> & S1 & T1 & _);
        [rewrite length_app; cbn in *; lia|]. cbn [mbind option_bind]. now exists s1, a1. }
    cbv beta iota. rewrite E1. cbn [mbind option_bind]. destruct (putc16_appends c Hc a0 s1 _ a1 S1 Ha T1) as (x & s2 & a2 & -> & S2 & T2 & _); [rewrite !length_app; cbn; lia|]. cbn [mbind option_bind].
    destruct (IH q s2 ((u ++ option_list hi) ++ [c]) a0 a2) as (s3 & a3 & -> & S3 & T3); try done; [lia | rewrite !length_app; cbn; lia|]. exists s3, a3. split_and!; [done | done|].
    replace (u ++ option_list hi ++ c :: decode q) with (((u ++ option_list hi) ++ [c]) ++ decode q); [done|]. now rewrite <- !app_assoc.
Qed.

Lemma count_ascii_ok buf : (count_ascii buf <= length buf)%nat /\ Forall (fun c => c < 128) (take (count_ascii buf) buf) /\ decode buf = take (count_ascii buf) buf ++ decode (drop (count_ascii buf) buf).
Proof.
  induction buf as [|c buf (Hl & Ha & E)]; [split_and!; [done | constructor | done]|]. cbn [count_ascii]. destruct (Z.ltb_spec c 128) as [Hc|Hc]; [|split_and!; [cbn; lia | constructor | done]].
  cbn [take drop app length]. split_and!; [lia | now constructor|]. rewrite decode_ascii by done. now rewrite E at 1.
Qed.

(** [JS_NewStringLen] decodes any bytes. *)
Lemma new_string_len_ok buf a : Forall (in_u 8) buf -> Z.of_nat (length buf) <= JS_STRING_LEN_MAX -> small_slack a ->
  exists r a', JS_NewStringLen buf a = Some (r, a') /\ a' `suffix_of` a /\
    match r with Some p => str p = decode buf /\ wf_string p | None => fails a end.
Proof.
  intros Hbuf Hlen Ha. unfold JS_NewStringLen. destruct (count_ascii_ok buf) as (Hc & Hascii & E). unfold JS_STRING_LEN_MAX in Hlen.
  destruct (Z.ltb_spec JS_STRING_LEN_MAX (Z.of_nat (count_ascii buf))) as [H|_]; [unfold JS_STRING_LEN_MAX in H; lia|].
  assert (in_width false (take (count_ascii buf) buf)) as Hw by now apply Forall_take. pose proof (Forall_drop _ (count_ascii buf) _ Hbuf) as Hp.
  assert (length (drop (count_ascii buf) buf) = (length buf - count_ascii buf)%nat) as Hdl by apply length_drop. rewrite E.
  destruct (drop (count_ascii buf) buf) as [|b p] eqn:Ep.
  - cbn [length] in Hdl. rewrite take_ge by lia. rewrite app_nil_r. eexists _, _. split; [apply f_equal, surjective_pairing|]. unfold js_new_string8_len.
    destruct buf as [|c buf]; [split_and!; try done; constructor|]. destruct (allocate a) as [x a1] eqn:Ea. destruct (allocate_ok a x a1 Ea Ha) as (S & _ & Hx).
    destruct x; (split; [exact S|]); [now split | exact Hx].
  - unfold string_buffer_init. rewrite sgn_small by (unfold in_s; lia).
    destruct (init2_ok a (Z.of_nat (length buf)) false) as (x & s & a1 & -> & S & H); [unfold JS_STRING_LEN_MAX; lia | done|].
    destruct H as [(-> & H & _)|(-> & _ & H)]; cbn [Z.eqb negb]; [|exists None, a1; done].
    destruct (write8_appends _ Hw a s [] a1 S Ha (or_introl H)) as (y & s1 & a2 & -> & S1 & T1 & _); [cbn [app]; rewrite length_take; lia|]. cbn [mbind option_bind app] in *.
    destruct (decode_loop_ok (Datatypes.S (length buf)) (b :: p) s1 (take (count_ascii buf) buf) a a2) as (s2 & a3 & -> & S2 & T2); [lia | done | done | done | done | rewrite length_take; lia|]. cbn [mbind option_bind].
    destruct (end_ok a s2 _ a3 T2) as (r & a4 & -> & S3 & H4). exists r, a4. split_and!; [done | now transitivity a3|]. destruct r as [q|]; [tauto|].
    destruct H4 as [H4|H4]; [done|]. rewrite <- E in H4. pose proof (decode_units_length (Datatypes.S (length buf)) buf). unfold decode, JS_STRING_LEN_MAX in *. lia.
Qed.

(** ** Encoding strings *)

Lemma decode_code c p : 0 <= c < 0x110000 -> decode (unicode_to_utf8 c ++ p) = utf16 c ++ decode p.
Proof.
  intros H. pose proof (from_to_utf8 c p ltac:(lia)) as Ed. destruct (Z.ltb_spec c 0x80) as [Hlt|Hge].
  - unfold unicode_to_utf8, utf16. destruct (Z.ltb_spec c 0x80); [|lia]. destruct (Z.ltb_spec c 0x10000); [|lia]. rewrite wrap_small by (unfold in_u; lia).
    cbn [app]. apply decode_ascii. lia.
  - destruct (unicode_to_utf8_eq c) as (n & m & j & (_ & _ & Hx & _ & Hm & _) & E); [lia|]. rewrite E in *. cbn [app] in *. unfold utf16. destruct (Z.ltb_spec c 0x10000).
    + rewrite (decode_cons _ _ None c p); [done | lia|]. unfold decode_char. rewrite Ed. destruct (Z.ltb_spec c 0x10000); [done | lia].
    + rewrite (decode_cons _ _ (Some (get_hi_surrogate c)) (get_lo_surrogate c) p); [done | lia|]. unfold decode_char. rewrite Ed.
      destruct (Z.ltb_spec c 0x10000); [lia|]. destruct (Z.leb_spec c 0x10FFFF); [done | lia].
Qed.

Lemma is_hi_spec c : 0 <= c -> is_hi_surrogate c = true <-> 0xD800 <= c < 0xDC00.
Proof.
  intros Hc. unfold is_hi_surrogate. rewrite Z.eqb_eq, Z.shiftr_div_pow2 by lia. change (Z.shiftr 55296 10) with 54. change (2 ^ 10) with 1024.
  pose proof (Z.div_mod c 1024). pose proof (Z.mod_pos_bound c 1024). split; [lia|]. intros. symmetry. apply Z.div_unique with (c - 54 * 1024); lia.
Qed.

Lemma is_lo_spec c : 0 <= c -> is_lo_surrogate c = true <-> 0xDC00 <= c < 0xE000.
Proof.
  intros Hc. unfold is_lo_surrogate. rewrite Z.eqb_eq, Z.shiftr_div_pow2 by lia. change (Z.shiftr 56320 10) with 55. change (2 ^ 10) with 1024.
  pose proof (Z.div_mod c 1024). pose proof (Z.mod_pos_bound c 1024). split; [lia|]. intros. symmetry. apply Z.div_unique with (c - 55 * 1024); lia.
Qed.

(** A surrogate pair is a code point above 0xFFFF. *)
Lemma from_surrogate_ok hi lo : 0xD800 <= hi < 0xDC00 -> 0xDC00 <= lo < 0xE000 ->
  0x10000 <= from_surrogate hi lo < 0x110000 /\ utf16 (from_surrogate hi lo) = [hi; lo].
Proof.
  intros Hh Hl. unfold from_surrogate. rewrite wrap_small by (unfold in_u; lia). set (c := 65536 + 1024 * (hi - 55296) + (lo - 56320)). split; [lia|].
  unfold utf16. destruct (Z.ltb_spec c 65536); [lia|]. rewrite hi_surrogate_eq, lo_surrogate_eq by lia. f_equal; [|f_equal].
  - rewrite <- (Z.div_unique (c - 65536) 1024 (hi - 55296) (lo - 56320)) by lia. lia.
  - rewrite <- (Z.mod_unique c 1024 (64 + (hi - 55296)) (lo - 56320)) by lia. lia.
Qed.

Lemma encode_narrow_eq c : in_u 8 c -> encode_narrow c = unicode_to_utf8 c.
Proof.
  unfold in_u. intros H. unfold encode_narrow, unicode_to_utf8. destruct (Z.ltb_spec c 0x80); [now rewrite wrap_small by (unfold in_u; lia)|]. destruct (Z.ltb_spec c 0x800); [done | lia].
Qed.

Lemma decode_narrow l : Forall (in_u 8) l -> decode (flat_map encode_narrow l) = l.
Proof.
  induction 1 as [|c l Hc Hl IH]; [done|]. cbn [flat_map]. rewrite encode_narrow_eq by done. unfold in_u in Hc. rewrite decode_code, IH by lia. unfold utf16. destruct (Z.ltb_spec c 0x10000); [done | lia].
Qed.

Lemma decode_wide cesu8 n : forall l, (length l <= n)%nat -> Forall (in_u 16) l -> decode (encode_wide cesu8 l) = l.
Proof.
  induction n as [|n IH]; intros l Hl H; [now destruct l|]. destruct l as [|c l]; [done|]. cbn [length] in Hl. pose proof H as [Hc H']%Forall_cons_1. unfold in_u in Hc.
  assert (decode (unicode_to_utf8 c ++ encode_wide cesu8 l) = c :: l) as Hone.
  { rewrite decode_code, IH by (done || lia). unfold utf16. destruct (Z.ltb_spec c 0x10000); [done | lia]. }
  cbn [encode_wide]. destruct (Z.ltb_spec c 0x80); [rewrite decode_ascii by lia; f_equal; apply IH; [lia | done]|].
  destruct (is_hi_surrogate c) eqn:Eh; [|exact Hone]. destruct l as [|c1 l]; [exact Hone|]. destruct (negb cesu8 && is_lo_surrogate c1) eqn:El; [|exact Hone].
  apply andb_prop in El as [_ El]. apply is_hi_spec in Eh; [|lia]. pose proof H' as [Hc1 H'']%Forall_cons_1. unfold in_u in Hc1. apply is_lo_spec in El; [|lia].
  destruct (from_surrogate_ok c c1 Eh El) as [Hr E]. cbn [length] in Hl. rewrite decode_code, E, IH by (done || lia). done.
Qed.

Lemma length_utf8 c : 0 <= c < 0x110000 -> (length (unicode_to_utf8 c) <= if (c <? 0x10000)%Z then 3 else 4)%nat.
Proof. intros H. unfold unicode_to_utf8. repeat zcase; cbn; lia. Qed.

Lemma encode_wide_length cesu8 n : forall l, (length l <= n)%nat -> Forall (in_u 16) l -> (length (encode_wide cesu8 l) <= 3 * length l)%nat.
Proof.
  induction n as [|n IH]; intros l Hl H; [now destruct l|]. destruct l as [|c l]; [done|]. cbn [length] in *. pose proof H as [Hc H']%Forall_cons_1. unfold in_u in Hc.
  assert (length (unicode_to_utf8 c ++ encode_wide cesu8 l) <= 3 * S (length l))%nat as Hone.
  { rewrite length_app. pose proof (length_utf8 c ltac:(lia)) as H3. destruct (Z.ltb_spec c 0x10000); [|lia]. specialize (IH l ltac:(lia) H'). lia. }
  cbn [encode_wide]. destruct (Z.ltb_spec c 0x80); [specialize (IH l ltac:(lia) H'); cbn [length]; lia|].
  destruct (is_hi_surrogate c) eqn:Eh; [|exact Hone]. destruct l as [|c1 l]; [exact Hone|]. destruct (negb cesu8 && is_lo_surrogate c1) eqn:El; [|exact Hone].
  apply andb_prop in El as [_ El]. apply is_hi_spec in Eh; [|lia]. pose proof H' as [Hc1 H'']%Forall_cons_1. unfold in_u in Hc1. apply is_lo_spec in El; [|lia].
  destruct (from_surrogate_ok c c1 Eh El) as [Hr _]. pose proof (length_utf8 (from_surrogate c c1) ltac:(lia)) as H4. destruct (Z.ltb_spec (from_surrogate c c1) 0x10000); [lia|].
  cbn [length] in *. rewrite length_app. specialize (IH l ltac:(lia) H''). lia.
Qed.

Lemma narrow_count l : forall n, Forall (in_u 8) l -> foldl (fun count c => count + Z.shiftr c 7) n l = n - Z.of_nat (length l) + Z.of_nat (length (flat_map encode_narrow l)) /\
  (foldl (fun count c => count + Z.shiftr c 7) n l = n -> flat_map encode_narrow l = l).
Proof.
  induction l as [|c l IH]; intros n H; [cbn; split; [lia | done]|]. apply Forall_cons_1 in H as [Hc H]. unfold in_u in Hc. cbn [foldl flat_map]. destruct (IH (n + Z.shiftr c 7) H) as [E1 E2].
  assert (Z.shiftr c 7 = if c <? 0x80 then 0 else 1) as Es.
  { rewrite Z.shiftr_div_pow2 by lia. change (2 ^ 7) with 128. destruct (Z.ltb_spec c 128); [apply Z.div_small; lia | symmetry; apply Z.div_unique with (c - 128); lia]. }
  unfold encode_narrow at 1 3. rewrite Es in *. destruct (Z.ltb_spec c 0x80); cbn [app length].
  - split; [rewrite E1; lia|]. intros E. rewrite E2; [done | lia].
  - split; [rewrite E1; lia|]. intros E. rewrite E1 in E. assert (length l <= length (flat_map encode_narrow l))%nat; [|lia].
    clear. induction l as [|c l IH]; [done|]. cbn [flat_map]. rewrite length_app. unfold encode_narrow at 1. destruct (c <? 0x80); cbn; lia.
Qed.

(** The bytes of a string *)
Definition utf8_of (p : JSString) (cesu8 : bool) : list Z := if is_wide_char p then encode_wide cesu8 (str p) else flat_map encode_narrow (str p).

Lemma to_cstring_ok p cesu8 a : wf_string p -> Z.of_nat (length (str p)) <= JS_STRING_LEN_MAX -> small_slack a ->
  exists r a', JS_ToCStringLen2 p cesu8 a = Some (r, a') /\ a' `suffix_of` a /\
    match r with Some bytes => bytes = utf8_of p cesu8 | None => fails a \/ is_wide_char p = true /\ 2 ^ 31 <= 3 * Z.of_nat (length (str p)) end.
Proof.
  intros Hp Hl Ha. unfold JS_STRING_LEN_MAX in Hl. unfold JS_ToCStringLen2, utf8_of. unfold wf_string in Hp. destruct (is_wide_char p); cbn [negb].
  - unfold write_cstring. destruct (allocate a) as [x a1] eqn:Ea. destruct (allocate_ok a x a1 Ea Ha) as (S & _ & Hx). destruct x; [|exists None, a1; auto].
    pose proof (encode_wide_length cesu8 (length (str p)) (str p) ltac:(lia) Hp) as H3. destruct (Z.ltb_spec (Z.of_nat (length (str p)) * 3) (2 ^ 31)) as [Hs|Hs].
    + rewrite sgn_small by (unfold in_s; lia). destruct (Z.ltb_spec (Z.of_nat (length (str p)) * 3) 0); [lia|].
      destruct (Z.ltb_spec (Z.of_nat (length (str p)) * 3 + 1) (Z.of_nat (length (encode_wide cesu8 (str p))) + 1)); [lia|]. eexists _, a1. split_and!; done.
    + rewrite (sgn_of_unsigned 32) by (unfold in_u; lia). change (2 ^ (32 - 1)) with (2 ^ 31). destruct (Z.leb_spec (2 ^ 31) (Z.of_nat (length (str p)) * 3)); [|lia].
      destruct (Z.ltb_spec (Z.of_nat (length (str p)) * 3 - 2 ^ 32) 0); [|lia]. exists None, a1. split_and!; [done | done | right; split; [done | lia]].
  - destruct (narrow_count (str p) 0 Hp) as [E1 E2]. destruct (Z.eqb_spec (foldl (fun count c => count + Z.shiftr c 7) 0 (str p)) 0) as [E|E].
    + eexists _, a. split_and!; [reflexivity | done | now rewrite E2].
    + unfold write_cstring. destruct (allocate a) as [x a1] eqn:Ea. destruct (allocate_ok a x a1 Ea Ha) as (S & _ & Hx). destruct x; [|exists None, a1; auto]. rewrite E1.
      assert (length (flat_map encode_narrow (str p)) <= 2 * length (str p))%nat as H2.
      { clear. induction (str p) as [|c l IH]; [done|]. cbn [flat_map length]. rewrite length_app. unfold encode_narrow at 1. destruct (c <? 0x80); cbn [length]; lia. }
      replace (Z.of_nat (length (str p)) + (0 - Z.of_nat (length (str p)) + Z.of_nat (length (flat_map encode_narrow (str p))))) with (Z.of_nat (length (flat_map encode_narrow (str p)))) by lia.
      rewrite sgn_small by (unfold in_s; lia). destruct (Z.ltb_spec (Z.of_nat (length (flat_map encode_narrow (str p)))) 0); [lia|].
      rewrite Z.ltb_irrefl. eexists _, a1. split_and!; done.
Qed.

Lemma unicode_to_utf8_bytes c : Forall (in_u 8) (unicode_to_utf8 c).
Proof. unfold unicode_to_utf8. repeat (destruct (_ <? _)); repeat (constructor; [apply wrap_range; lia|]); constructor. Qed.

Lemma encode_wide_bytes cesu8 n : forall l, (length l <= n)%nat -> Forall (in_u 16) l -> Forall (in_u 8) (encode_wide cesu8 l).
Proof.
  induction n as [|n IH]; intros l Hl H; [now destruct l|]. destruct l as [|c l]; [constructor|]. cbn [length] in Hl. pose proof H as [Hc H']%Forall_cons_1. unfold in_u in Hc.
  assert (forall d m, (length m <= n)%nat -> Forall (in_u 16) m -> Forall (in_u 8) (unicode_to_utf8 d ++ encode_wide cesu8 m)) as Hone.
  { intros d m Hm Hm'. apply Forall_app. split; [apply unicode_to_utf8_bytes | now apply IH]. }
  cbn [encode_wide]. destruct (Z.ltb_spec c 0x80); [constructor; [unfold in_u; lia | apply IH; [lia | done]]|].
  destruct (is_hi_surrogate c); [|apply Hone; [lia | done]]. destruct l as [|c1 l]; [now apply Hone; [cbn; lia|]|].
  destruct (_ && _); apply Hone; cbn [length] in *; try lia; [now apply Forall_cons_1 in H' | done].
Qed.

Lemma utf8_of_bytes p cesu8 : wf_string p -> Forall (in_u 8) (utf8_of p cesu8).
Proof.
  unfold wf_string, utf8_of. destruct (is_wide_char p); intros H; [now apply (encode_wide_bytes cesu8 (length (str p)))|].
  induction H as [|c l Hc Hl IH]; [constructor|]. cbn [flat_map]. apply Forall_app. split; [rewrite encode_narrow_eq by done; apply unicode_to_utf8_bytes | done].
Qed.

Lemma decode_utf8_of p cesu8 : wf_string p -> decode (utf8_of p cesu8) = str p.
Proof. unfold wf_string, utf8_of. destruct (is_wide_char p); intros H; [now apply (decode_wide cesu8 (length (str p))) | now apply decode_narrow]. Qed.

(** C22: C strings round-trip.  Whatever the allocator answers, [JS_ToCStringLen2]
    (in UTF-8, or in CESU-8 with each surrogate on its own) writes within the
    memory it asks for, and [JS_NewStringLen] on the bytes it gives, up to 2^30 - 1
    of them, makes a string of the same code units, unpaired surrogates included;
    either of them fails only for want of memory, which a string of more than
    715827882 16-bit units always meets. *)
Theorem c_string_round_trip p cesu8 a : wf_string p -> Z.of_nat (length (str p)) <= JS_STRING_LEN_MAX -> small_slack a ->
  exists r a1, JS_ToCStringLen2 p cesu8 a = Some (r, a1) /\
    match r with
    | None => fails a \/ is_wide_char p = true /\ 2 ^ 31 <= 3 * Z.of_nat (length (str p))
    | Some bytes =>
        Z.of_nat (length bytes) <= JS_STRING_LEN_MAX ->
        exists q a2, JS_NewStringLen bytes a1 = Some (q, a2) /\ match q with Some q => str q = str p /\ wf_string q | None => fails a end
    end.
Proof.
  intros Hp Hl Ha. destruct (to_cstring_ok p cesu8 a Hp Hl Ha) as (r & a1 & E & S & H). exists r, a1. split; [done|]. destruct r as [bytes|]; [|done]. subst bytes.
  intros Hb. destruct (new_string_len_ok (utf8_of p cesu8) a1 (utf8_of_bytes p cesu8 Hp) Hb) as (q & a2 & E2 & S2 & Hq); [eauto|]. exists q, a2. split; [done|].
  destruct q as [q|]; [rewrite decode_utf8_of in Hq by done; done | eauto].
Qed.

(** "h\u00e9\ud83d\ude00\ud800": a letter, an accent, a pair and a lone surrogate *)
Definition sample_string : JSString := mk_string true [104; 0xe9; 0xd83d; 0xde00; 0xd800].
Example sample_bytes : JS_ToCStringLen2 sample_string false [] = Some (Some [104; 0xc3; 0xa9; 0xf0; 0x9f; 0x98; 0x80; 0xed; 0xa0; 0x80], []).
Proof. vm_compute. reflexivity. Qed.

Lemma c_string_round_trip_witness : exists r a1, JS_ToCStringLen2 sample_string false [Some 8%nat; None] = Some (r, a1) /\
    match r with
    | None => fails [Some 8%nat; None] \/ is_wide_char sample_string = true /\ 2 ^ 31 <= 3 * Z.of_nat (length (str sample_string))
    | Some bytes =>
        Z.of_nat (length bytes) <= JS_STRING_LEN_MAX ->
        exists q a2, JS_NewStringLen bytes a1 = Some (q, a2) /\ match q with Some q => str q = str sample_string /\ wf_string q | None => fails [Some 8%nat; None] end
    end.
Proof.
  apply (c_string_round_trip sample_string false [Some 8%nat; None]).
  - repeat constructor; unfold in_u; lia.
  - cbn. unfold JS_STRING_LEN_MAX. lia.
  - repeat constructor; intros n [= <-]; lia.
Defined.
