(* ===== verification/CString.v ===== *)
(** * The strings that C code reads and makes

    What a C function of [src/lib/buffer.c] ends with, and the two string
    conversions it calls: [JS_ToCStringLen] and [JS_NewStringLen] of [Utf8], with
    memory available.  A string value of [Numeric] is the UTF-8 text of its 16-bit
    units (an unpaired surrogate being three bytes), so that every JavaScript
    string is one: [js_string] is the JavaScript string it stands for. *)

From Stdlib Require Import ZArith Lia Bool Ascii String.
From stdpp Require Import base numbers list option strings.
From S2P Require Import Prelude JSStrings StringBuffer StringBufferSpec Utf8 Utf8Spec.

#[local] Open Scope Z_scope.

(** ** Definitions *)

(** What a C function ends with: [Abort] is a failed assertion, [Crash] an
    access outside of the memory. *)
Inductive outcome (A : Type) : Type :=
| Return (a : A)
| Exception (e : exn)
| Abort
| Crash.
Arguments Return {A} a.
Arguments Exception {A} e.
Arguments Abort {A}.
Arguments Crash {A}.

Definition outcome_bind {A B} (m : outcome A) (f : A -> outcome B) : outcome B :=
  match m with Return a => f a | Exception e => Exception e | Abort => Abort | Crash => Crash end.
Notation "'let^' x ':=' m 'in' k" := (outcome_bind m (fun x => k))
  (at level 10, x pattern, m at level 100, k at level 200) : qn_scope.

Definition byte (x : Z) : Prop := in_u 8 x.
Abbreviation bytes := (Forall byte).

(** The bytes of a string literal, and one character. *)
Definition chr (c : ascii) : Z := Z.of_N (N_of_ascii c).
Fixpoint lit (s : string) : list Z :=
  match s with
  | EmptyString => []
  | String c s => chr c :: lit s
  end.

(** The names of [JSStrings] and [StringBuffer] that the clients use. *)
Abbreviation JSString := JSStrings.JSString.
Abbreviation mk_string := JSStrings.mk_string.
Abbreviation code_units := JSStrings.str.
Abbreviation JS_STRING_LEN_MAX := StringBuffer.JS_STRING_LEN_MAX.

(** The code units of a string value, and the string it is in memory. *)
Definition units (s : string) : list Z := decode (lit s).
Definition js_string (s : string) : JSString := mk_string (existsb (Z.leb 256) (units s)) (units s).

(** [NULL] is [None]. *)
Definition string_to_c (p : JSString) : outcome (option (list Z)) :=
  match JS_ToCStringLen2 p false [] with
  | Some (r, _) => Return r
  | None => Crash
  end.
Definition JS_ToCStringLen (s : string) : outcome (option (list Z)) := string_to_c (js_string s).

Definition new_string_len (buf : list Z) : outcome JSString :=
  match JS_NewStringLen buf [] with
  | Some (Some p, _) => Return p
  | Some (None, _) => Exception (InternalError "string too long")
  | None => Crash
  end.

(** The bytes before the terminator. *)
Fixpoint until_nul (s : list Z) : list Z :=
  match s with
  | c :: s => if c =? 0 then [] else c :: until_nul s
  | [] => []
  end.

Definition JS_NewString (str : list Z) : outcome JSString := new_string_len (until_nul str).

(** [strcmp(s, t) == 0] *)
Definition same_c_string (s : list Z) (t : string) : bool := bool_decide (until_nul s = lit t).

(** [js_malloc], through [js_def_malloc], which asserts that the size is not 0. *)
Definition js_malloc (size : Z) : outcome unit := if size =? 0 then Abort else Return tt.

(** ** Lemmas *)

Lemma chr_byte c : byte (chr c).
Proof. destruct c as [[] [] [] [] [] [] [] []]; now vm_compute. Qed.

Lemma lit_bytes s : bytes (lit s).
Proof. induction s; cbn; constructor; [apply chr_byte | done]. Qed.

Lemma lit_length s : length (lit s) = String.length s.
Proof. induction s; cbn; congruence. Qed.

Lemma decode_units_range fuel : forall p, bytes p -> Forall (in_u 16) (decode_units fuel p).
Proof.
  induction fuel as [|fuel IH]; intros p Hp; [constructor|]. cbn [decode_units]. destruct p as [|b p]; [constructor|].
  pose proof Hp as [Hb Hp']%Forall_cons_1. unfold byte, in_u in Hb. destruct (Z.ltb_spec b 128).
  - constructor; [unfold in_u; lia | now apply IH].
  - destruct (decode_char (b :: p)) as [[hi c] q] eqn:E.
    assert (bytes q) as Hq by (destruct (decode_char_suffix _ _ _ _ E) as [k Ek]; rewrite Ek in Hp; now apply Forall_app in Hp).
    apply decode_char_ok in E as (Hc & Hhi & _); [|lia]. apply Forall_app. split; [|constructor; [done | now apply IH]].
    destruct hi as [x|]; constructor; [now apply Hhi | constructor].
Qed.

Lemma string_units_range s : Forall (in_u 16) (units s).
Proof. apply decode_units_range, lit_bytes. Qed.

Lemma js_string_wf s : wf_string (js_string s).
Proof.
  unfold wf_string, js_string. cbn [is_wide_char JSStrings.str]. destruct (existsb _ _) eqn:E; [apply string_units_range|].
  apply List.Forall_forall. intros c Hc. pose proof (proj1 (List.Forall_forall _ _) (string_units_range s) c Hc) as Hr.
  apply not_true_iff_false in E. unfold in_u in *. destruct (Z.leb_spec 256 c); [|lia].
  exfalso. apply E, existsb_exists. exists c. split; [done | lia].
Qed.

Lemma small_slack_nil : small_slack [].
Proof. constructor. Qed.

Lemma fails_nil : ~ fails [].
Proof. apply not_elem_of_nil. Qed.

Lemma utf8_of_length p : wf_string p -> (length (utf8_of p false) <= 3 * length (code_units p))%nat.
Proof.
  unfold wf_string, utf8_of. destruct (is_wide_char p); intros H; [now apply (encode_wide_length false (length (code_units p)))|].
  clear H. induction (code_units p) as [|c l IH]; [done|]. cbn [flat_map length]. rewrite length_app.
  unfold encode_narrow at 1. destruct (c <? 0x80); cbn [length]; lia.
Qed.

(** The bytes of a string, or [NULL] for one too large for its copy. *)
Lemma string_to_c_ok p : wf_string p -> Z.of_nat (length (code_units p)) <= JS_STRING_LEN_MAX ->
  exists r, string_to_c p = Return r /\
    match r with
    | Some b => b = utf8_of p false /\ bytes b /\ Z.of_nat (length b) <= 3 * Z.of_nat (length (code_units p))
    | None => 2 ^ 31 <= 3 * Z.of_nat (length (code_units p))
    end.
Proof.
  intros Hp Hl. destruct (to_cstring_ok p false [] Hp Hl small_slack_nil) as (r & a & E & _ & H).
  exists r. unfold string_to_c. rewrite E. split; [done|]. destruct r as [b|].
  - subst b. split_and!; [done | now apply utf8_of_bytes |]. pose proof (utf8_of_length p Hp). lia.
  - destruct H as [H|H]; [now destruct (fails_nil H) | tauto].
Qed.

Lemma new_string_ok buf : bytes buf -> Z.of_nat (length buf) <= JS_STRING_LEN_MAX ->
  exists p, new_string_len buf = Return p /\ code_units p = decode buf /\ wf_string p.
Proof.
  intros Hb Hl. destruct (new_string_len_ok buf [] Hb Hl small_slack_nil) as (r & a & E & _ & H).
  unfold new_string_len. rewrite E. destruct r as [p|]; [eauto | now destruct (fails_nil H)].
Qed.

Lemma decode_all_ascii l : Forall (fun c => c < 128) l -> decode l = l.
Proof. induction 1 as [|c l Hc _ IH]; [done|]. rewrite decode_ascii by done. now f_equal. Qed.

Lemma count_all_ascii l : Forall (fun c => c < 128) l -> count_ascii l = length l.
Proof. induction 1 as [|c l Hc _ IH]; [done|]. cbn. destruct (Z.ltb_spec c 128); [now f_equal | lia]. Qed.

(** A text of 7-bit characters, of any length. *)
Lemma new_string_ascii buf : Forall (fun c => c < 128) buf ->
  new_string_len buf =
  if JS_STRING_LEN_MAX <? Z.of_nat (length buf) then Exception (InternalError "string too long") else Return (mk_string false buf).
Proof.
  intros H. unfold new_string_len, JS_NewStringLen. rewrite count_all_ascii, drop_all by done.
  destruct (_ <? _); [done|]. now destruct buf.
Qed.

Lemma until_nul_id l : Forall (fun c => c <> 0) l -> until_nul l = l.
Proof. induction 1 as [|c l Hc _ IH]; [done|]. cbn. destruct (Z.eqb_spec c 0); [done | now rewrite IH]. Qed.

Example non_ascii_units : units (String (ascii_of_nat 195) (String (ascii_of_nat 169) "!")) = [233; 33].
Proof. vm_compute. reflexivity. Qed.
