(* ===== verification/Encoding.v ===== *)
(** * Buffer encodings: [src/lib/buffer.c], lines 35 to 222

    The encoding names, Base64 (both alphabets), hexadecimal, and the
    conversion between a string and bytes.  A C string is the list of its bytes
    (what [JS_ToCStringLen] returns, without the terminator), a byte is a [Z]
    in [0, 256).  A decoder that returns [NULL] returns [None]; allocation
    succeeds, except that an allocation of no bytes is a failed assertion
    ([CString.js_malloc]).  The sizes allocated are definitions of their own so
    that the bounds of the writes can be stated. *)

From Stdlib Require Import ZArith Lia Bool Ascii String.
From stdpp Require Import base numbers list option strings.
From S2P Require Import Prelude StringBuffer Utf8 Utf8Spec CString.

#[local] Open Scope Z_scope.

(** ** Definitions *)

Inductive encoding : Type :=
| ENC_UTF8 | ENC_ASCII | ENC_LATIN1 | ENC_HEX | ENC_BASE64 | ENC_BASE64URL | ENC_UNKNOWN.

#[export] Instance encoding_eq_dec : EqDecision encoding.
Proof. solve_decision. Defined.

(** [None] is the null pointer. *)
Definition get_encoding_id (enc : option (list Z)) : encoding :=
  match enc with
  | None => ENC_UTF8
  | Some enc =>
      let same s := same_c_string enc s in
      if same "utf8"%string || same "utf-8"%string || same "UTF8"%string || same "UTF-8"%string then ENC_UTF8
      else if same "ascii"%string || same "ASCII"%string then ENC_ASCII
      else if same "latin1"%string || same "binary"%string || same "Latin1"%string || same "BINARY"%string then ENC_LATIN1
      else if same "hex"%string || same "HEX"%string then ENC_HEX
      else if same "base64"%string || same "BASE64"%string then ENC_BASE64
      else if same "base64url"%string || same "BASE64URL"%string then ENC_BASE64URL
      else ENC_UNKNOWN
  end.

Definition b64_table : list Z :=
  Eval cbv in lit "ABCDEFGHIJKLMNOPQRSTUVWXYZabcdefghijklmnopqrstuvwxyz0123456789+/".
Definition b64url_table : list Z :=
  Eval cbv in lit "ABCDEFGHIJKLMNOPQRSTUVWXYZabcdefghijklmnopqrstuvwxyz0123456789-_".

Definition between (c : Z) (lo hi : ascii) : bool := (chr lo <=? c) && (c <=? chr hi).

Definition b64_decode_char (c : Z) : Z :=
  if between c "A" "Z" then c - chr "A"
  else if between c "a" "z" then c - chr "a" + 26
  else if between c "0" "9" then c - chr "0" + 52
  else if (c =? chr "+") || (c =? chr "-") then 62
  else if (c =? chr "/") || (c =? chr "_") then 63
  else -1.

Definition b64_out_len (len : Z) : Z := u64 (4 * (u64 (len + 2) / 3)).

Definition b64_triple (a b c : Z) : Z := Z.lor (Z.lor (Z.shiftl a 16) (Z.shiftl b 8)) c.

Definition sextet (table : list Z) (triple shift : Z) : Z :=
  List.nth (Z.to_nat (Z.land (Z.shiftr triple shift) 63)) table 0.

(** The loop, three bytes at a time. *)
Fixpoint b64_encode_loop (table : list Z) (src : list Z) : list Z :=
  match src with
  | a :: b :: c :: src =>
      let triple := b64_triple a b c in
      sextet table triple 18 :: sextet table triple 12 :: sextet table triple 6 ::
      sextet table triple 0 :: b64_encode_loop table src
  | [a; b] =>
      let triple := b64_triple a b 0 in
      [sextet table triple 18; sextet table triple 12; sextet table triple 6; chr "="]
  | [a] =>
      let triple := b64_triple a 0 0 in
      [sextet table triple 18; sextet table triple 12; chr "="; chr "="]
  | [] => []
  end.

Definition js_buffer_base64_encode (src : list Z) (url_safe : bool) : outcome JSString :=
  JS_NewString (b64_encode_loop (if url_safe then b64url_table else b64_table) src).

(** [while (len > 0 && src[len - 1] == '=') len--], on the reversed string. *)
Fixpoint strip_pad_rev (rsrc : list Z) : list Z :=
  match rsrc with
  | c :: rsrc1 => if c =? chr "=" then strip_pad_rev rsrc1 else rsrc
  | [] => []
  end.
Definition strip_pad (src : list Z) : list Z := rev (strip_pad_rev (rev src)).

Definition b64_alloc_size (len : Z) : Z := u64 (len * 3 + 3) / 4.

(** The body of the loop on four decoded characters. *)
Definition b64_decode_group (a b c d : Z) : option (list Z) :=
  if (a <? 0) || (b <? 0) then None
  else
    let triple := Z.lor (Z.lor (Z.lor (Z.shiftl a 18) (Z.shiftl b 12))
                               (Z.shiftl (if 0 <=? c then c else 0) 6))
                        (if 0 <=? d then d else 0) in
    Some ([Z.land (Z.shiftr triple 16) 255] ++
          (if 0 <=? c then [Z.land (Z.shiftr triple 8) 255] else []) ++
          (if 0 <=? d then [Z.land triple 255] else [])).

Fixpoint b64_decode_loop (src : list Z) : option (list Z) :=
  match src with
  | a :: b :: c :: d :: src =>
      g ← b64_decode_group (b64_decode_char a) (b64_decode_char b) (b64_decode_char c) (b64_decode_char d);
      r ← b64_decode_loop src;
      Some (g ++ r)
  | [a; b; c] => b64_decode_group (b64_decode_char a) (b64_decode_char b) (b64_decode_char c) (-1)
  | [a; b] => b64_decode_group (b64_decode_char a) (b64_decode_char b) (-1) (-1)
  | [a] => b64_decode_group (b64_decode_char a) 0 (-1) (-1)
  | [] => Some []
  end.

Definition js_buffer_base64_decode (src : list Z) : outcome (option (list Z)) :=
  let src := strip_pad src in
  let^ _ := js_malloc (b64_alloc_size (Z.of_nat (length src))) in
  Return (b64_decode_loop src).

Definition hex_chars : list Z := Eval cbv in lit "0123456789abcdef".

Fixpoint hex_encode_loop (src : list Z) : list Z :=
  match src with
  | x :: src =>
      List.nth (Z.to_nat (Z.land (Z.shiftr x 4) 15)) hex_chars 0 ::
      List.nth (Z.to_nat (Z.land x 15)) hex_chars 0 :: hex_encode_loop src
  | [] => []
  end.

Definition js_buffer_hex_encode (src : list Z) : outcome JSString := JS_NewString (hex_encode_loop src).

Definition hex_digit (ch : Z) : option Z :=
  if between ch "0" "9" then Some (ch - chr "0")
  else if between ch "a" "f" then Some (ch - chr "a" + 10)
  else if between ch "A" "F" then Some (ch - chr "A" + 10)
  else None.

Fixpoint hex_decode_loop (src : list Z) : option (list Z) :=
  match src with
  | h :: l :: src =>
      hi ← hex_digit h;
      lo ← hex_digit l;
      r ← hex_decode_loop src;
      Some (u8 (Z.lor (Z.shiftl hi 4) lo) :: r)
  | _ => Some []
  end.

Definition js_buffer_hex_decode (src : list Z) : outcome (option (list Z)) :=
  let len := Z.of_nat (length src) in
  if negb (len mod 2 =? 0) then Return None
  else
    let^ _ := js_malloc (len / 2) in
    Return (hex_decode_loop src).

Definition js_buffer_string_to_bytes (str : list Z) (enc : encoding) : outcome (option (list Z)) :=
  match enc with
  | ENC_UTF8 | ENC_ASCII | ENC_LATIN1 =>
      let^ _ := js_malloc (Z.of_nat (length str)) in
      Return (Some str)
  | ENC_HEX => js_buffer_hex_decode str
  | ENC_BASE64 | ENC_BASE64URL => js_buffer_base64_decode str
  | ENC_UNKNOWN => Return None
  end.

Definition js_buffer_bytes_to_string (buf : list Z) (enc : encoding) : outcome JSString :=
  match enc with
  | ENC_UTF8 | ENC_ASCII | ENC_LATIN1 => new_string_len buf
  | ENC_HEX => js_buffer_hex_encode buf
  | ENC_BASE64 => js_buffer_base64_encode buf false
  | ENC_BASE64URL => js_buffer_base64_encode buf true
  | ENC_UNKNOWN => Exception (TypeError "unsupported encoding")
  end.

(** What the decoders return, the allocation apart. *)
Definition decoded (str : list Z) (enc : encoding) : option (list Z) :=
  match enc with
  | ENC_UTF8 | ENC_ASCII | ENC_LATIN1 => Some str
  | ENC_HEX => if negb (Z.of_nat (length str) mod 2 =? 0) then None else hex_decode_loop str
  | ENC_BASE64 | ENC_BASE64URL => b64_decode_loop (strip_pad str)
  | ENC_UNKNOWN => None
  end.

Example b64_hello : js_buffer_base64_encode (lit "Hello") false = Return (mk_string false (lit "SGVsbG8=")).
Proof. reflexivity. Qed.
Example b64_hello_back : js_buffer_base64_decode (lit "SGVsbG8=") = Return (Some (lit "Hello")).
Proof. reflexivity. Qed.
Example hex_back : js_buffer_hex_decode (lit "DeadBeef") = Return (Some [222; 173; 190; 239]).
Proof. reflexivity. Qed.

(** Without bytes to decode the allocation fails its assertion. *)
Example nothing_to_decode :
  js_buffer_string_to_bytes [] ENC_UTF8 = Abort /\ js_buffer_hex_decode [] = Abort /\
  js_buffer_base64_decode (lit "==") = Abort.
Proof. split_and!; reflexivity. Qed.

(** [strcmp] stops at a NUL character. *)
Example encoding_name_nul : get_encoding_id (Some (lit "hex" ++ 0 :: lit "x")) = ENC_HEX.
Proof. reflexivity. Qed.

(** ** Alphabets *)

Lemma Forall_seq_check (P : nat -> bool) n x :
  forallb P (seq 0 n) = true -> (x < n)%nat -> P x = true.
Proof.
  intros H Hx. apply (proj1 (forallb_forall P (seq 0 n)) H), in_seq. lia.
Qed.

Definition b64_alphabet (table : list Z) : Prop := table = b64_table \/ table = b64url_table.

Definition b64_char_check (table : list Z) (n : nat) : bool :=
  let c := List.nth n table 0 in
  (b64_decode_char c =? Z.of_nat n) && negb (c =? chr "=") && ((0 <=? c) && (c <? 256)).

Lemma b64_char_spec table x :
  b64_alphabet table -> 0 <= x < 64 ->
  let c := List.nth (Z.to_nat x) table 0 in
  b64_decode_char c = x /\ c <> chr "=" /\ byte c.
Proof.
  intros Ht Hx. cbv zeta.
  assert (b64_char_check table (Z.to_nat x) = true) as H.
  { apply (Forall_seq_check _ 64); [destruct Ht as [-> | ->]; vm_compute; reflexivity | lia]. }
  unfold b64_char_check in H. rewrite Z2Nat.id in H by lia.
  apply andb_true_iff in H as [H H3]. apply andb_true_iff in H as [H1 H2].
  apply andb_true_iff in H3 as [H3 H4]. apply Z.eqb_eq in H1. apply negb_true_iff, Z.eqb_neq in H2.
  split_and!; [done | done |]. split; [lia|]. change (2 ^ 8) with 256. lia.
Qed.

Lemma sextet_spec table triple s :
  b64_alphabet table ->
  b64_decode_char (sextet table triple s) = Z.land (Z.shiftr triple s) 63 /\
  sextet table triple s <> chr "=" /\ byte (sextet table triple s).
Proof.
  intros Ht. apply b64_char_spec; [done|]. change 63 with (2 ^ 6 - 1).
  rewrite land_pow2_mask by lia. now apply Z.mod_pos_bound.
Qed.

(** ** One group of Base64 *)

Lemma b64_triple_sum a b c : byte a -> byte b -> byte c -> b64_triple a b c = a * 65536 + b * 256 + c.
Proof.
  unfold byte, in_u, b64_triple. change (2 ^ 8) with 256. intros Ha Hb Hc.
  rewrite !Z.shiftl_mul_pow2 by lia. rewrite (lor_disjoint_add a (b * 2 ^ 8) 16) by lia.
  replace (a * 2 ^ 16 + b * 2 ^ 8) with ((a * 256 + b) * 2 ^ 8) by lia.
  rewrite lor_disjoint_add by lia. lia.
Qed.

Lemma b64_join s0 s1 s2 s3 :
  0 <= s0 < 64 -> 0 <= s1 < 64 -> 0 <= s2 < 64 -> 0 <= s3 < 64 ->
  Z.lor (Z.lor (Z.lor (Z.shiftl s0 18) (Z.shiftl s1 12)) (Z.shiftl s2 6)) s3 =
  s0 * 262144 + s1 * 4096 + s2 * 64 + s3.
Proof.
  intros H0 H1 H2 H3. rewrite !Z.shiftl_mul_pow2 by lia.
  rewrite (lor_disjoint_add s0 (s1 * 2 ^ 12) 18) by lia.
  replace (s0 * 2 ^ 18 + s1 * 2 ^ 12) with ((s0 * 64 + s1) * 2 ^ 12) by lia.
  rewrite (lor_disjoint_add _ (s2 * 2 ^ 6) 12) by lia.
  replace ((s0 * 64 + s1) * 2 ^ 12 + s2 * 2 ^ 6) with ((s0 * 4096 + s1 * 64 + s2) * 2 ^ 6) by lia.
  rewrite lor_disjoint_add by lia. lia.
Qed.

(** The sextets of a triple, as the encoder and the decoder see them. *)
Lemma land_shiftr_mask x s w : 0 <= s -> 0 <= w -> Z.land (Z.shiftr x s) (2 ^ w - 1) = x / 2 ^ s mod 2 ^ w.
Proof. intros. rewrite land_pow2_mask, Z.shiftr_div_pow2 by lia. done. Qed.

Lemma sextets_sum t :
  0 <= t < 2 ^ 24 ->
  t = (t / 262144 mod 64) * 262144 + (t / 4096 mod 64) * 4096 + (t / 64 mod 64) * 64 + t mod 64.
Proof.
  intros Ht. change (2 ^ 24) with 16777216 in Ht.
  assert (t / 4096 = t / 64 / 64) as -> by now rewrite Z.div_div.
  assert (t / 262144 = t / 64 / 64 / 64) as -> by now rewrite !Z.div_div.
  pose proof (Z.div_mod t 64 ltac:(lia)). pose proof (Z.div_mod (t / 64) 64 ltac:(lia)).
  pose proof (Z.div_mod (t / 64 / 64) 64 ltac:(lia)).
  rewrite (Z.mod_small (t / 64 / 64 / 64)); [lia|].
  split; [repeat apply Z.div_pos; lia|]. repeat (apply Z.div_lt_upper_bound; [lia|]). lia.
Qed.

Lemma b64_group_decode a b c :
  byte a -> byte b -> byte c ->
  let t := b64_triple a b c in
  let s k := Z.land (Z.shiftr t k) 63 in
  b64_decode_group (s 18) (s 12) (s 6) (s 0) = Some [a; b; c] /\
  (c = 0 -> b64_decode_group (s 18) (s 12) (s 6) (-1) = Some [a; b]) /\
  (b = 0 -> c = 0 -> b64_decode_group (s 18) (s 12) (-1) (-1) = Some [a]).
Proof.
  intros Ha Hb Hc. cbv zeta. rewrite b64_triple_sum by done. set (t := a * 65536 + b * 256 + c).
  unfold byte, in_u in *. change (2 ^ 8) with 256 in *. change 63 with (2 ^ 6 - 1).
  rewrite !land_shiftr_mask by lia. change (2 ^ 6) with 64. change (2 ^ 18) with 262144.
  change (2 ^ 12) with 4096. change (2 ^ 0) with 1. rewrite Z.div_1_r.
  assert (forall x, 0 <= x mod 64 < 64) as Hm by (intros; apply Z.mod_pos_bound; done).
  pose proof (Hm (t / 262144)). pose proof (Hm (t / 4096)). pose proof (Hm (t / 64)). pose proof (Hm t).
  assert (t = (t / 262144 mod 64) * 262144 + (t / 4096 mod 64) * 4096 + (t / 64 mod 64) * 64 + t mod 64) as Et
    by (apply sextets_sum; subst t; lia).
  set (s0 := t / 262144 mod 64) in *. set (s1 := t / 4096 mod 64) in *.
  set (s2 := t / 64 mod 64) in *. set (s3 := t mod 64) in *.
  assert (forall a b, 0 <= a -> 0 <= b -> (a <? 0) || (b <? 0) = false) as Hneg
    by (intros; apply orb_false_iff; lia).
  unfold b64_decode_group. rewrite Hneg by lia. change 255 with (2 ^ 8 - 1).
  rewrite !(proj2 (Z.leb_le 0 s2)), !(proj2 (Z.leb_le 0 s3)) by lia. change (0 <=? -1) with false. cbv iota.
  rewrite !b64_join, !land_shiftr_mask, !land_pow2_mask by lia. change (2 ^ 16) with 65536. change (2 ^ 8) with 256.
  cbn [app]. clearbody s0 s1 s2 s3.
  assert (t / 65536 mod 256 = a /\ t / 256 mod 256 = b /\ t mod 256 = c) as (E1 & E2 & E3).
  { assert (t / 65536 = a) as -> by (symmetry; apply Z.div_unique with (b * 256 + c); lia).
    assert (t / 256 = a * 256 + b) as -> by (symmetry; apply Z.div_unique with c; lia).
    split_and!; [apply Z.mod_small; lia | symmetry; apply Z.mod_unique with a; lia |].
    symmetry. apply Z.mod_unique with (a * 256 + b); lia. }
  split; [|split; [intros Ec | intros Eb Ec]].
  - now rewrite <- Et, E1, E2, E3.
  - replace (s0 * 262144 + s1 * 4096 + s2 * 64 + 0) with t by lia. now rewrite E1, E2.
  - replace (s0 * 262144 + s1 * 4096 + 0 * 64 + 0) with t by lia. now rewrite E1.
Qed.

(** ** Base64 *)

(** Induction three (four) elements at a time. *)
Lemma list_ind3 {A} (P : list A -> Prop) :
  P [] -> (forall a, P [a]) -> (forall a b, P [a; b]) ->
  (forall a b c l, P l -> P (a :: b :: c :: l)) -> forall l, P l.
Proof.
  intros H0 H1 H2 H3. fix IH 1. intros [|a [|b [|c l]]]; [exact H0 | apply H1 | apply H2 | apply H3, IH].
Qed.

Lemma list_ind4 {A} (P : list A -> Prop) :
  P [] -> (forall a, P [a]) -> (forall a b, P [a; b]) -> (forall a b c, P [a; b; c]) ->
  (forall a b c d l, P l -> P (a :: b :: c :: d :: l)) -> forall l, P l.
Proof.
  intros H0 H1 H2 H3 H4. fix IH 1.
  intros [|a [|b [|c [|d l]]]]; [exact H0 | apply H1 | apply H2 | apply H3 | apply H4, IH].
Qed.

Lemma strip_pad_app body pad :
  Forall (fun c => c <> chr "=") body -> Forall (eq (chr "=")) pad -> strip_pad (body ++ pad) = body.
Proof.
  intros Hb Hp. unfold strip_pad. rewrite rev_app_distr. rewrite <- (rev_involutive body) at 2. f_equal.
  apply Forall_rev in Hp. induction Hp as [|c l <- _ IH]; cbn [app strip_pad_rev].
  - apply Forall_rev in Hb. destruct Hb as [|c l Hc _]; [done|]. cbn.
    now rewrite (proj2 (Z.eqb_neq _ _) Hc).
  - now rewrite Z.eqb_refl.
Qed.

Lemma b64_encode_body table src :
  b64_alphabet table -> bytes src ->
  exists body pad, b64_encode_loop table src = body ++ pad /\
    Forall (fun c => c <> chr "=") body /\ Forall (eq (chr "=")) pad /\
    b64_decode_loop body = Some src.
Proof.
  intros Ht. pose proof (fun t s => sextet_spec table t s Ht) as Hs.
  assert (byte 0) as H0 by (split; [done | reflexivity]).
  induction src as [|a|a b|a b c src IH] using list_ind3; intros H.
  - exists [], []. repeat split; auto.
  - apply Forall_inv in H. destruct (b64_group_decode a 0 0 H H0 H0) as (_ & _ & G).
    eexists [_; _], [_; _]. split; [reflexivity|].
    split; [repeat constructor; apply Hs|]. split; [repeat constructor|].
    cbn [b64_decode_loop]. rewrite !(proj1 (Hs _ _)). now apply G.
  - apply Forall_cons_1 in H as [Ha H]. apply Forall_inv in H.
    destruct (b64_group_decode a b 0 Ha H H0) as (_ & G & _).
    eexists [_; _; _], [_]. split; [reflexivity|].
    split; [repeat constructor; apply Hs|]. split; [repeat constructor|].
    cbn [b64_decode_loop]. rewrite !(proj1 (Hs _ _)). now apply G.
  - apply Forall_cons_1 in H as [Ha H]. apply Forall_cons_1 in H as [Hb H]. apply Forall_cons_1 in H as [Hc H].
    destruct (IH H) as (body & pad & E & Hbody & Hpad & Hd).
    destruct (b64_group_decode a b c Ha Hb Hc) as (G & _ & _).
    eexists (_ :: _ :: _ :: _ :: body), pad. cbn [b64_encode_loop]. rewrite E. split; [reflexivity|].
    split; [repeat (apply Forall_cons_2; [apply Hs|]); exact Hbody|]. split; [done|].
    cbn [b64_decode_loop]. rewrite !(proj1 (Hs _ _)), G, Hd. reflexivity.
Qed.

Lemma base64_round_trip src table :
  b64_alphabet table -> bytes src -> b64_decode_loop (strip_pad (b64_encode_loop table src)) = Some src.
Proof.
  intros Ht H. destruct (b64_encode_body table src) as (body & pad & -> & Hb & Hp & Hd); [done..|].
  now rewrite strip_pad_app.
Qed.

Lemma b64_encode_length table src :
  Z.of_nat (length (b64_encode_loop table src)) = 4 * ((Z.of_nat (length src) + 2) / 3).
Proof.
  induction src as [|a|a b|a b c src IH] using list_ind3; try reflexivity.
  cbn [b64_encode_loop length]. rewrite !Nat2Z.inj_succ, IH.
  replace (Z.succ (Z.succ (Z.succ (Z.of_nat (length src)))) + 2) with (Z.of_nat (length src) + 2 + 1 * 3) by lia.
  rewrite Z.div_add by lia. lia.
Qed.

Lemma b64_group_length a b c d out :
  b64_decode_group a b c d = Some out ->
  (length out = 1 + (if (0 <=? c)%Z then 1 else 0) + (if (0 <=? d)%Z then 1 else 0))%nat /\ bytes out.
Proof.
  unfold b64_decode_group. destruct (_ || _); [discriminate|]. intros [= <-].
  assert (forall x, byte (Z.land x 255)) as Hb.
  { intros x. change 255 with (2 ^ 8 - 1). rewrite land_pow2_mask by lia. now apply Z.mod_pos_bound. }
  split; [destruct (0 <=? c), (0 <=? d); reflexivity|].
  destruct (0 <=? c), (0 <=? d); repeat constructor; apply Hb.
Qed.

(** Whatever the string, the bytes written fit what was allocated. *)
Lemma b64_decode_loop_bound src out :
  b64_decode_loop src = Some out -> 4 * Z.of_nat (length out) <= 3 * Z.of_nat (length src) + 3 /\ bytes out.
Proof.
  revert out. induction src as [|a|a b|a b c|a b c d src IH] using list_ind4; intros out E.
  - injection E as <-. split; [cbn; lia | constructor].
  - apply b64_group_length in E as [-> ?]. split; [cbn; lia | done].
  - apply b64_group_length in E as [-> ?]. split; [cbn; lia | done].
  - apply b64_group_length in E as [-> ?]. split; [destruct (0 <=? b64_decode_char c); cbn; lia | done].
  - cbn [b64_decode_loop] in E.
    destruct (b64_decode_group _ _ _ _) as [g|] eqn:Eg; [|discriminate]. cbn in E.
    destruct (b64_decode_loop src) as [r|] eqn:Er; [|discriminate]. cbn in E. injection E as <-.
    apply b64_group_length in Eg as [Hg ?]. destruct (IH r eq_refl) as [IHr ?].
    split; [|now apply Forall_app]. rewrite length_app, Hg. cbn [length].
    destruct (0 <=? b64_decode_char c), (0 <=? b64_decode_char d); lia.
Qed.

Lemma strip_pad_length src : (length (strip_pad src) <= length src)%nat.
Proof.
  unfold strip_pad. rewrite length_rev, <- (length_rev src). generalize (rev src) as l.
  induction l as [|c l IH]; cbn [strip_pad_rev length]; [done|]. destruct (c =? chr "="); cbn [length]; lia.
Qed.

Lemma base64_decode_bound src out :
  Z.of_nat (length src) < 2 ^ 61 -> b64_decode_loop (strip_pad src) = Some out ->
  Z.of_nat (length out) <= b64_alloc_size (Z.of_nat (length (strip_pad src))) /\ bytes out.
Proof.
  intros Hl E. apply b64_decode_loop_bound in E as [E ?]. split; [|done].
  unfold b64_alloc_size. pose proof (strip_pad_length src). change (2 ^ 61) with 2305843009213693952 in Hl.
  rewrite wrap_small by (unfold in_u; change (2 ^ 64) with 18446744073709551616; lia).
  apply Z.div_le_lower_bound; lia.
Qed.

(** ** Hexadecimal *)

Definition to_lower (c : Z) : Z := if between c "A" "Z" then c + 32 else c.

Definition hex_char_check (n : nat) : bool :=
  match hex_digit (List.nth n hex_chars 0) with Some d => d =? Z.of_nat n | None => false end.

Lemma hex_char_spec x : 0 <= x < 16 -> hex_digit (List.nth (Z.to_nat x) hex_chars 0) = Some x.
Proof.
  intros Hx. assert (hex_char_check (Z.to_nat x) = true) as H.
  { apply (Forall_seq_check _ 16); [vm_compute; reflexivity | lia]. }
  unfold hex_char_check in H. destruct (hex_digit _); [|discriminate]. apply Z.eqb_eq in H. f_equal. lia.
Qed.

Lemma hex_nibbles x : byte x ->
  0 <= Z.land (Z.shiftr x 4) 15 < 16 /\ 0 <= Z.land x 15 < 16 /\
  u8 (Z.lor (Z.shiftl (Z.land (Z.shiftr x 4) 15) 4) (Z.land x 15)) = x.
Proof.
  unfold byte, in_u. change (2 ^ 8) with 256. intros Hx. change 15 with (2 ^ 4 - 1).
  rewrite land_shiftr_mask, land_pow2_mask by lia. change (2 ^ 4) with 16.
  assert (0 <= x / 16 < 16) by (split; [apply Z.div_pos | apply Z.div_lt_upper_bound]; lia).
  rewrite (Z.mod_small (x / 16)) by lia. pose proof (Z.mod_pos_bound x 16 eq_refl).
  split_and!; try lia. rewrite Z.shiftl_mul_pow2, lor_disjoint_add by lia.
  rewrite wrap_small; unfold in_u; change (2 ^ 8) with 256; change (2 ^ 4) with 16;
    pose proof (Z.div_mod x 16); lia.
Qed.

Lemma hex_encode_length src : length (hex_encode_loop src) = (2 * length src)%nat.
Proof. induction src; cbn [hex_encode_loop length]; lia. Qed.

Lemma hex_round_trip src : bytes src -> hex_decode_loop (hex_encode_loop src) = Some src.
Proof.
  induction 1 as [|x src Hx H IH]; [reflexivity|]. cbn [hex_encode_loop hex_decode_loop]. destruct (hex_nibbles x Hx) as (H1 & H2 & E).
  rewrite !hex_char_spec by done. cbn. now rewrite IH, E.
Qed.

Lemma hex_digit_spec c d :
  hex_digit c = Some d -> 0 <= d < 16 /\ List.nth (Z.to_nat d) hex_chars 0 = to_lower c.
Proof.
  unfold hex_digit, between. change (chr "0") with 48. change (chr "9") with 57. change (chr "a") with 97.
  change (chr "f") with 102. change (chr "A") with 65. change (chr "F") with 70.
  assert (forall n, (n < 16)%nat ->
    (List.nth n hex_chars 0 =? if (n <? 10)%nat then Z.of_nat n + 48 else Z.of_nat n + 87) = true) as Ht
    by (intros n; apply (Forall_seq_check (fun n => List.nth n hex_chars 0 =?
          if (n <? 10)%nat then Z.of_nat n + 48 else Z.of_nat n + 87)); vm_compute; reflexivity).
  intros E. assert (0 <= d < 16 /\ to_lower c = if d <? 10 then d + 48 else d + 87) as [Hd El].
  { unfold to_lower, between. change (chr "A") with 65. change (chr "Z") with 90.
    destruct (Z.leb_spec 48 c), (Z.leb_spec c 57), (Z.leb_spec 97 c), (Z.leb_spec c 102),
      (Z.leb_spec 65 c), (Z.leb_spec c 70); cbn [andb] in E; try discriminate; try lia;
      injection E as <-; (split; [lia|]); destruct (Z.leb_spec c 90);
      cbn [andb]; zcases. }
  split; [done|]. rewrite El. specialize (Ht (Z.to_nat d) ltac:(lia)). apply Z.eqb_eq in Ht. rewrite Ht.
  rewrite Z2Nat.id by lia. destruct (Nat.ltb_spec (Z.to_nat d) 10), (Z.ltb_spec d 10); lia.
Qed.

Lemma list_ind2 {A} (P : list A -> Prop) :
  P [] -> (forall a, P [a]) -> (forall a b l, P l -> P (a :: b :: l)) -> forall l, P l.
Proof. intros H0 H1 H2. fix IH 1. intros [|a [|b l]]; [exact H0 | apply H1 | apply H2, IH]. Qed.

(** What decodes is a string of digit pairs, and encoding gives it back in
    lower case. *)
Lemma hex_decode_spec src out :
  Z.of_nat (length src) mod 2 = 0 -> hex_decode_loop src = Some out ->
  (2 * length out = length src)%nat /\ bytes out /\ hex_encode_loop out = map to_lower src.
Proof.
  intros Ep. revert out Ep.
  induction src as [|a|h l src IH] using list_ind2; intros out Ep E.
  - injection E as <-. repeat split; constructor.
  - discriminate Ep.
  - cbn [hex_decode_loop] in E. destruct (hex_digit h) as [hi|] eqn:Eh; [|discriminate].
    destruct (hex_digit l) as [lo|] eqn:El; [|discriminate]. cbn in E.
    destruct (hex_decode_loop src) as [r|] eqn:Er; [|discriminate]. cbn in E. injection E as <-.
    assert (Z.of_nat (length src) mod 2 = 0) as Ep'.
    { cbn [length] in Ep. rewrite !Nat2Z.inj_succ in Ep.
      replace (Z.succ (Z.succ (Z.of_nat (length src)))) with (Z.of_nat (length src) + 1 * 2) in Ep by lia.
      now rewrite Z.mod_add in Ep. }
    destruct (IH r Ep' eq_refl) as (Hl & Hb & He).
    apply hex_digit_spec in Eh as [Hh Eh], El as [Hlo El].
    assert (u8 (Z.lor (Z.shiftl hi 4) lo) = hi * 16 + lo) as Ex.
    { rewrite Z.shiftl_mul_pow2, lor_disjoint_add by lia.
      apply wrap_small. unfold in_u. change (2 ^ 8) with 256. change (2 ^ 4) with 16. lia. }
    rewrite Ex. cbn [length map hex_encode_loop]. rewrite He.
    assert (byte (hi * 16 + lo)) as Hx by (unfold byte, in_u; change (2 ^ 8) with 256; lia).
    split_and!; [lia | now constructor |]. change 15 with (2 ^ 4 - 1).
    rewrite land_shiftr_mask, land_pow2_mask by lia. change (2 ^ 4) with 16.
    rewrite Z.div_add_l, (Z.div_small lo), Z.add_0_r, (Z.mod_small hi) by lia.
    rewrite Z.add_comm, Z.mod_add, (Z.mod_small lo) by lia. now rewrite Eh, El.
Qed.

(** ** The encoders and decoders as C functions *)

(** A character of an encoded text: not the terminator, 7 bits. *)
Definition text_char (c : Z) : Prop := c <> 0 /\ 0 <= c < 128.

Definition text_char_check (table : list Z) (n : nat) : bool :=
  let c := List.nth n table 0 in negb (c =? 0) && (0 <=? c) && (c <? 128).

Lemma text_char_table (table : list Z) k n :
  forallb (text_char_check table) (seq 0 n) = true -> 0 <= k < Z.of_nat n -> text_char (List.nth (Z.to_nat k) table 0).
Proof.
  intros Ht Hk. pose proof (Forall_seq_check _ n (Z.to_nat k) Ht ltac:(lia)) as H. unfold text_char_check in H.
  apply andb_true_iff in H as [H H3]. apply andb_true_iff in H as [H1 H2]. apply negb_true_iff, Z.eqb_neq in H1.
  unfold text_char. lia.
Qed.

Lemma text_mask_range x w : 0 <= w -> 0 <= Z.land x (2 ^ w - 1) < 2 ^ w.
Proof. intros Hw. rewrite land_pow2_mask by done. apply Z.mod_pos_bound, Z.pow_pos_nonneg; lia. Qed.

Lemma sextet_text table triple k : b64_alphabet table -> text_char (sextet table triple k).
Proof.
  intros Ht. unfold sextet. apply (text_char_table _ _ 64); [destruct Ht as [-> | ->]; vm_compute; reflexivity|].
  apply (text_mask_range _ 6). lia.
Qed.

Lemma equals_text : text_char (chr "=").
Proof. unfold text_char. change (chr "=") with 61. lia. Qed.

Lemma b64_encode_text table src : b64_alphabet table -> Forall text_char (b64_encode_loop table src).
Proof.
  intros Ht. pose proof (fun t k => sextet_text table t k Ht) as Hs. pose proof equals_text.
  induction src as [|a|a b|a b c src IH] using list_ind3; cbn [b64_encode_loop]; repeat (constructor; [done|]); done || constructor.
Qed.

Lemma hex_encode_text src : Forall text_char (hex_encode_loop src).
Proof.
  assert (forall x, text_char (List.nth (Z.to_nat (Z.land x 15)) hex_chars 0)) as Hx.
  { intros x. apply (text_char_table _ _ 16); [vm_compute; reflexivity | apply (text_mask_range _ 4); lia]. }
  induction src as [|x src IH]; cbn [hex_encode_loop]; repeat (constructor; [apply Hx|]); done || constructor.
Qed.

Lemma new_string_text l : Forall text_char l ->
  JS_NewString l =
  if JS_STRING_LEN_MAX <? Z.of_nat (length l) then Exception (InternalError "string too long") else Return (mk_string false l).
Proof.
  intros H. unfold JS_NewString. rewrite until_nul_id by (eapply Forall_impl; [exact H | now intros c [? _]]).
  apply new_string_ascii. eapply Forall_impl; [exact H | intros c [_ ?]; lia].
Qed.

(** The bytes that [JS_ToCStringLen] gives for it. *)
Lemma text_to_c l : Forall text_char l -> string_to_c (mk_string false l) = Return (Some l).
Proof.
  intros H. assert (foldl (fun count c => count + Z.shiftr c 7) 0 l = 0) as E.
  { induction H as [|c l [_ Hc] _ IH]; [done|]. cbn [foldl]. rewrite Z.shiftr_div_pow2, Z.div_small by (done || (change (2 ^ 7) with 128; lia)). exact IH. }
  unfold string_to_c, JS_ToCStringLen2. cbn [JSStrings.is_wide_char JSStrings.str negb]. rewrite E. reflexivity.
Qed.

(** The text of the encodings other than UTF-8. *)
Definition encoded (src : list Z) (enc : encoding) : list Z :=
  match enc with
  | ENC_HEX => hex_encode_loop src
  | ENC_BASE64 => b64_encode_loop b64_table src
  | _ => b64_encode_loop b64url_table src
  end.

Definition encodes_text (enc : encoding) : Prop := enc = ENC_HEX \/ enc = ENC_BASE64 \/ enc = ENC_BASE64URL.

Lemma encoded_text src enc : Forall text_char (encoded src enc).
Proof. destruct enc; (apply hex_encode_text || (apply b64_encode_text; unfold b64_alphabet; auto)). Qed.

Lemma encoded_length src enc : Z.of_nat (length (encoded src enc)) <= 2 * Z.of_nat (length src) + 2.
Proof.
  destruct enc; cbn [encoded]; try (rewrite hex_encode_length; lia); rewrite b64_encode_length;
    pose proof (Z.div_le_upper_bound (Z.of_nat (length src) + 2) 3 (Z.of_nat (length src)));
    (destruct src as [|a [|b l]]; [vm_compute; discriminate.. | cbn [length] in *; Z.div_mod_to_equations; lia]).
Qed.

Lemma bytes_to_string_text src enc : encodes_text enc ->
  js_buffer_bytes_to_string src enc = JS_NewString (encoded src enc).
Proof. intros [-> | [-> | ->]]; reflexivity. Qed.

Lemma decoded_encoded src enc : encodes_text enc -> bytes src -> decoded (encoded src enc) enc = Some src.
Proof.
  intros [-> | [-> | ->]] H; cbn [decoded encoded];
    [|apply base64_round_trip; unfold b64_alphabet; auto..].
  rewrite hex_encode_length, Nat2Z.inj_mul, Z.mul_comm, Z.mod_mul by lia. now apply hex_round_trip.
Qed.

Lemma b64_group_nonempty a b c d : b64_decode_group a b c d <> Some [].
Proof. unfold b64_decode_group. now destruct (_ || _). Qed.

Lemma b64_decode_loop_nonempty a l : b64_decode_loop (a :: l) <> Some [].
Proof.
  destruct l as [|b [|c [|d l]]]; cbn [b64_decode_loop]; try apply b64_group_nonempty.
  pose proof (b64_group_nonempty (b64_decode_char a) (b64_decode_char b) (b64_decode_char c) (b64_decode_char d)).
  destruct (b64_decode_group _ _ _ _) as [[|x g]|]; cbn; [done | | done]. now destruct (b64_decode_loop l).
Qed.

(** Where something is decoded, the decoders return; where nothing is, the
    allocation fails. *)
Lemma string_to_bytes_spec str enc :
  Z.of_nat (length str) < 2 ^ 61 ->
  js_buffer_string_to_bytes str enc =
  match decoded str enc with Some [] => Abort | r => Return r end.
Proof.
  intros Hl. change (2 ^ 61) with 2305843009213693952 in Hl.
  assert (forall size r, size <> 0 -> (let^ _ := js_malloc size in Return r) = Return (A := option (list Z)) r) as Ha.
  { intros size r Hs. unfold js_malloc. now destruct (Z.eqb_spec size 0). }
  assert (js_buffer_base64_decode str = match b64_decode_loop (strip_pad str) with Some [] => Abort | r => Return r end) as Hb64.
  { unfold js_buffer_base64_decode. pose proof (strip_pad_length str). destruct (strip_pad str) as [|a l] eqn:E; [done|].
    rewrite Ha.
    - pose proof (b64_decode_loop_nonempty a l). now destruct (b64_decode_loop (a :: l)) as [[]|].
    - unfold b64_alloc_size. rewrite wrap_small; [cbn [length] in *; Z.div_mod_to_equations; lia|].
      unfold in_u. change (2 ^ 64) with 18446744073709551616. lia. }
  destruct enc; cbn [decoded js_buffer_string_to_bytes]; try done; try (destruct str; [done | apply Ha; cbn; lia]).
  unfold js_buffer_hex_decode. destruct (Z.eqb_spec (Z.of_nat (length str) mod 2) 0) as [Hm|]; cbn [negb]; [|done].
  destruct str as [|a [|b str]]; [done | done|]. rewrite Ha by (cbn [length]; Z.div_mod_to_equations; lia).
  cbn [hex_decode_loop]. destruct (hex_digit a), (hex_digit b), (hex_decode_loop str); done.
Qed.

(** ** Properties *)

(** C37: the Base64 (both alphabets) and hexadecimal texts of a buffer, read
    back as C strings, decode to its bytes.  The text of no bytes, which is the
    empty string, cannot be decoded: the allocation for its bytes fails the
    assertion of [js_def_malloc]. *)
Theorem encoding_round_trip src enc :
  bytes src -> 2 * Z.of_nat (length src) + 2 <= JS_STRING_LEN_MAX -> encodes_text enc ->
  exists p str, js_buffer_bytes_to_string src enc = Return p /\ string_to_c p = Return (Some str) /\
    js_buffer_string_to_bytes str enc = match src with [] => Abort | _ => Return (Some src) end.
Proof.
  intros Hb Hl He. pose proof (encoded_length src enc) as Hn. pose proof (encoded_text src enc) as Ht.
  exists (mk_string false (encoded src enc)), (encoded src enc). rewrite bytes_to_string_text, new_string_text by done.
  destruct (Z.ltb_spec JS_STRING_LEN_MAX (Z.of_nat (length (encoded src enc)))); [lia|].
  split_and!; [done | now apply text_to_c |]. rewrite string_to_bytes_spec.
  - rewrite decoded_encoded by done. now destruct src.
  - unfold JS_STRING_LEN_MAX in *. lia.
Qed.

Lemma encoding_round_trip_witness :
  (exists p str, js_buffer_bytes_to_string [0; 255; 62; 63] ENC_BASE64URL = Return p /\ string_to_c p = Return (Some str) /\
    js_buffer_string_to_bytes str ENC_BASE64URL = Return (Some [0; 255; 62; 63])) /\
  (exists p str, js_buffer_bytes_to_string [] ENC_HEX = Return p /\ string_to_c p = Return (Some str) /\
    js_buffer_string_to_bytes str ENC_HEX = Abort).
Proof.
  split.
  - apply (encoding_round_trip [0; 255; 62; 63] ENC_BASE64URL); [| discriminate | unfold encodes_text; auto].
    repeat (apply Forall_cons_2; [split; [discriminate | reflexivity]|]). apply Forall_nil_2.
  - apply (encoding_round_trip [] ENC_HEX); [apply Forall_nil_2 | discriminate | unfold encodes_text; auto].
Defined.

(** Memory safety of the decoders and encoders on every input, malformed
    ones included: the bytes written never exceed the allocation, and hex
    accepts exactly what re-encodes to the same string in lower case. *)
Theorem encoding_bounds src :
  Z.of_nat (length src) < 2 ^ 61 ->
  (forall table, Z.of_nat (length (b64_encode_loop table src)) = b64_out_len (Z.of_nat (length src))) /\
  (forall out, js_buffer_base64_decode src = Return (Some out) ->
     Z.of_nat (length out) <= b64_alloc_size (Z.of_nat (length (strip_pad src))) /\ bytes out) /\
  (forall out, js_buffer_hex_decode src = Return (Some out) ->
     (2 * length out = length src)%nat /\ bytes out /\ hex_encode_loop out = map to_lower src).
Proof.
  intros Hl. assert (forall size (r : option (list Z)) out, (let^ _ := js_malloc size in Return r) = Return (Some out) -> r = Some out) as Hm.
  { intros size r out. unfold js_malloc. destruct (size =? 0); [done | now intros [= ->]]. }
  split; [|split].
  - intros table. rewrite b64_encode_length.
    change (2 ^ 61) with 2305843009213693952 in Hl. unfold b64_out_len.
    assert ((Z.of_nat (length src) + 2) / 3 <= Z.of_nat (length src) + 2) by (apply Z.div_le_upper_bound; lia).
    pose proof (Z.div_pos (Z.of_nat (length src) + 2) 3 ltac:(lia) eq_refl).
    rewrite (wrap_small 64 (Z.of_nat (length src) + 2)), wrap_small;
      unfold in_u; change (2 ^ 64) with 18446744073709551616; lia.
  - intros out E%Hm. now apply base64_decode_bound.
  - intros out. unfold js_buffer_hex_decode. destruct (Z.eqb_spec (Z.of_nat (length src) mod 2) 0); cbn [negb]; [|done].
    intros E%Hm. now apply hex_decode_spec.
Qed.

Lemma encoding_bounds_witness :
  b64_decode_loop (strip_pad (lit "QUJDR")) = Some [65; 66; 67; 68] /\
  b64_alloc_size 5 = 4 /\
  Z.of_nat (length (b64_encode_loop b64url_table (lit "QUJDR"))) = b64_out_len 5.
Proof.
  split; [reflexivity|]. split; [reflexivity|].
  exact (proj1 (encoding_bounds (lit "QUJDR") ltac:(reflexivity)) b64url_table).
Defined.
