(* ===== verification/Heap.v ===== *)
(** * ArrayBuffers and typed-array views

    The store that the Buffer functions share: byte arrays ([ArrayBuffer]s,
    possibly detached), the typed-array views of them with their aliasing, and
    plain JavaScript arrays.  A C access through the data pointer of a buffer is
    [read_mem] or [write_mem], which end in [Crash] when they leave the byte
    array, as an out-of-bounds [memcpy] would be undefined behaviour, or when the
    array has been detached, after which its memory may be freed.

    Models the parts of [src/core/quickjs.c] that [src/lib/buffer.c] calls:
    [JS_GetTypedArrayBuffer] (56792), [JS_GetArrayBuffer] (56402), the
    [Uint8Array] constructor (58499) and the [ArrayBuffer] allocation (56045).
    Resizable and shared buffers are not modelled. *)

From Stdlib Require Import ZArith Lia Bool Ascii String.
From stdpp Require Import base numbers list option strings gmap.
From S2P Require Import Prelude Numeric CString Encoding.

#[local] Open Scope Z_scope.

(** ** Definitions *)

Record view : Type := mk_view {
  v_ab : Z;          (** the ArrayBuffer *)
  v_off : Z;         (** byte offset *)
  v_len : Z;         (** byte length *)
}.

Record heap : Type := mk_heap {
  arrays : gmap Z (option (list Z));   (** [None]: detached *)
  views : gmap Z view;
  lists : gmap Z (list JSValue);       (** plain arrays *)
  next_id : Z;
}.

Definition M (A : Type) : Type := heap -> outcome A * heap.

Definition ret {A} (a : A) : M A := fun h => (Return a, h).
Definition throw {A} (e : exn) : M A := fun h => (Exception e, h).
Definition crash {A} : M A := fun h => (Crash, h).
Definition lift {A} (o : outcome A) : M A := fun h => (o, h).
Definition get : M heap := fun h => (Return h, h).
Definition bind {A B} (m : M A) (f : A -> M B) : M B :=
  fun h => let (o, h) := m h in
    match o with Return a => f a h | Exception e => (Exception e, h) | Abort => (Abort, h) | Crash => (Crash, h) end.
Notation "'let!' x ':=' m 'in' k" := (bind m (fun x => k))
  (at level 10, x pattern, m at level 100, k at level 200) : qn_scope.

Definition undefined : JSValue := Prim JS_TAG_UNDEFINED.

(** [argv[k]], padded with [undefined] up to the declared length. *)
Definition arg (argv : list JSValue) (k : nat) : JSValue := List.nth k argv undefined.

Definition JS_IsUndefined (v : JSValue) : bool :=
  match v with Prim JS_TAG_UNDEFINED => true | _ => false end.
Definition JS_IsString (v : JSValue) : bool :=
  match v with Prim (JS_TAG_STRING _) => true | _ => false end.
Definition JS_IsNumber (v : JSValue) : bool :=
  match v with Prim p => is_number p | _ => false end.
Definition JS_IsObject (v : JSValue) : bool :=
  match v with JS_TAG_OBJECT _ => true | _ => false end.

(** A data pointer: the ArrayBuffer and the byte offset in it. *)
Definition ptr : Type := Z * Z.

(** The data and length of an ArrayBuffer object, [None] for NULL. *)
Definition JS_GetArrayBuffer (h : heap) (v : JSValue) : option (Z * list Z) :=
  match v with
  | JS_TAG_OBJECT id =>
      match arrays h !! id with
      | Some (Some data) => Some (id, data)
      | _ => None
      end
  | _ => None
  end.

(** The view of a typed array that is not out of bounds ([typed_array_is_oob]). *)
Definition JS_GetTypedArrayBuffer (h : heap) (v : JSValue) : option view :=
  match v with
  | JS_TAG_OBJECT id =>
      w ← views h !! id;
      match arrays h !! v_ab w with
      | Some (Some data) =>
          if Z.of_nat (length data) <? v_off w + v_len w then None else Some w
      | _ => None
      end
  | _ => None
  end.

Definition js_buffer_get_bytes (v : JSValue) : M (option (ptr * Z)) :=
  fun h => (Return (w ← JS_GetTypedArrayBuffer h v; Some ((v_ab w, v_off w), v_len w)), h).

(** [n] bytes from the pointer [p] plus [d]. *)
Definition read_mem (p : ptr) (d n : Z) : M (list Z) :=
  fun h =>
    match arrays h !! fst p with
    | Some (Some data) =>
        let i := snd p + d in
        if (0 <=? i) && (0 <=? n) && (i + n <=? Z.of_nat (length data))
        then (Return (take (Z.to_nat n) (drop (Z.to_nat i) data)), h)
        else (Crash, h)
    | _ => (Crash, h)
    end.

Definition splice (data bs : list Z) (i : nat) : list Z :=
  take i data ++ bs ++ drop (i + length bs) data.

Definition set_array (h : heap) (ab : Z) (data : list Z) : heap :=
  mk_heap (<[ab := Some data]> (arrays h)) (views h) (lists h) (next_id h).

Definition write_mem (p : ptr) (d : Z) (bs : list Z) : M unit :=
  fun h =>
    match arrays h !! fst p with
    | Some (Some data) =>
        let i := snd p + d in
        if (0 <=? i) && (i + Z.of_nat (length bs) <=? Z.of_nat (length data))
        then (Return tt, set_array h (fst p) (splice data bs (Z.to_nat i)))
        else (Crash, h)
    | _ => (Crash, h)
    end.

(** [new Uint8Array(size)], given the Buffer prototype: the size is checked by
    [JS_ToIndex] and against the 2 GB limit. *)
Definition js_buffer_create (size : Z) : M JSValue :=
  fun h =>
    let v := i64 size in
    if (v <? 0) || (MAX_SAFE_INTEGER <? v) then (Exception (RangeError "invalid array index"), h)
    else if INT32_MAX <? v then (Exception (RangeError "invalid array buffer length"), h)
    else
      let ab := next_id h in
      (Return (JS_TAG_OBJECT (ab + 1)),
       mk_heap (<[ab := Some (replicate (Z.to_nat v) 0)]> (arrays h))
               (<[ab + 1 := mk_view ab 0 v]> (views h)) (lists h) (ab + 2)).

(** [new Uint8Array(ab, offset, length)], given the Buffer prototype. *)
Definition js_buffer_view (ab offset len : Z) : M JSValue :=
  fun h =>
    let offset := i64 offset in
    let len := i64 len in
    let bad v := (v <? 0) || (MAX_SAFE_INTEGER <? v) in
    if bad offset || bad len then (Exception (RangeError "invalid array index"), h)
    else
      match arrays h !! ab with
      | Some (Some data) =>
          if Z.of_nat (length data) <? offset + len then (Exception (RangeError "invalid length"), h)
          else
            let id := next_id h in
            (Return (JS_TAG_OBJECT id),
             mk_heap (arrays h) (<[id := mk_view ab offset len]> (views h)) (lists h) (id + 1))
      | _ => (Exception (TypeError "ArrayBuffer is detached"), h)
      end.

(** ** Invariant *)

Definition wf_view (w : view) : Prop := 0 <= v_off w /\ 0 <= v_len w <= INT32_MAX.

(** Byte arrays hold bytes within the 2 GB limit, views are windows with
    non-negative bounds on allocated arrays, arrays have 32-bit lengths, and new identifiers are
    fresh. *)
Record wf_heap (h : heap) : Prop := mk_wf_heap {
  wf_bytes : forall ab data, arrays h !! ab = Some (Some data) -> bytes data;
  wf_size : forall ab data, arrays h !! ab = Some (Some data) -> Z.of_nat (length data) <= INT32_MAX;
  wf_views : forall id w, views h !! id = Some w -> wf_view w;
  wf_lists : forall id items, lists h !! id = Some items -> Z.of_nat (length items) < 2 ^ 32;
  wf_alloc : forall id w, views h !! id = Some w -> v_ab w < next_id h;
  wf_fresh : forall id, next_id h <= id -> arrays h !! id = None /\ views h !! id = None;
}.

(** The bytes a value shows through its view. *)
Definition view_bytes (h : heap) (v : JSValue) : option (list Z) :=
  w ← JS_GetTypedArrayBuffer h v;
  data ← mjoin (arrays h !! v_ab w);
  Some (take (Z.to_nat (v_len w)) (drop (Z.to_nat (v_off w)) data)).

(** ** Lemmas *)

Lemma bind_return {A B} (m : M A) (f : A -> M B) h a h' :
  m h = (Return a, h') -> bind m f h = f a h'.
Proof. intros E. unfold bind. now rewrite E. Qed.

Lemma heap_bind_assoc {A B C} (m : M A) (f : A -> M B) (g : B -> M C) h :
  bind (bind m f) g h = bind m (fun x => bind (f x) g) h.
Proof. unfold bind. now destruct (m h) as [[]]. Qed.

Lemma view_inv h v w :
  JS_GetTypedArrayBuffer h v = Some w ->
  exists data, arrays h !! v_ab w = Some (Some data) /\ v_off w + v_len w <= Z.of_nat (length data) /\
    exists id, v = JS_TAG_OBJECT id /\ views h !! id = Some w.
Proof.
  destruct v as [|id]; [discriminate|]. cbn. destruct (views h !! id) as [w'|] eqn:Ev; [|discriminate]. cbn.
  destruct (arrays h !! v_ab w') as [[data|]|] eqn:Ea; try discriminate.
  destruct (Z.ltb_spec (Z.of_nat (length data)) (v_off w' + v_len w')); [discriminate|].
  intros [= <-]. eauto 10.
Qed.

Lemma splice_length data bs i :
  (i + length bs <= length data)%nat -> length (splice data bs i) = length data.
Proof. intros H. unfold splice. rewrite !length_app, length_take, length_drop. lia. Qed.

Lemma splice_lookup data bs i n :
  (i + length bs <= length data)%nat ->
  splice data bs i !! n =
  if decide (i <= n < i + length bs)%nat then bs !! (n - i)%nat else data !! n.
Proof.
  intros H. unfold splice. assert (length (take i data) = i) as Hl by (rewrite length_take; lia).
  destruct (decide _) as [[H1 H2]|Hn].
  - rewrite lookup_app_r by lia. rewrite Hl, lookup_app_l by lia. done.
  - destruct (decide (n < i)%nat).
    + rewrite lookup_app_l by lia. now rewrite lookup_take_lt by lia.
    + rewrite lookup_app_r by lia. rewrite Hl, lookup_app_r by lia.
      rewrite lookup_drop. f_equal. lia.
Qed.

Lemma splice_bytes data bs i : bytes data -> bytes bs -> bytes (splice data bs i).
Proof.
  intros Hd Hb. unfold splice. apply Forall_app. split; [now apply Forall_take|].
  apply Forall_app. split; [done | now apply Forall_drop].
Qed.

Lemma splice_window data bs i :
  (i + length bs <= length data)%nat -> take (length bs) (drop i (splice data bs i)) = bs.
Proof.
  intros H. unfold splice. assert (length (take i data) = i) as Hl by (rewrite length_take; lia).
  rewrite drop_app_length' by done. now rewrite take_app_length.
Qed.

Lemma read_mem_ok h ab data off d n :
  arrays h !! ab = Some (Some data) -> 0 <= off + d -> 0 <= n -> off + d + n <= Z.of_nat (length data) ->
  read_mem (ab, off) d n h = (Return (take (Z.to_nat n) (drop (Z.to_nat (off + d)) data)), h).
Proof.
  intros E H1 H2 H3. unfold read_mem. cbn [fst snd]. rewrite E.
  destruct (Z.leb_spec 0 (off + d)); [|lia]. destruct (Z.leb_spec 0 n); [|lia].
  destruct (Z.leb_spec (off + d + n) (Z.of_nat (length data))); [done | lia].
Qed.

Lemma write_mem_ok h ab data off d bs :
  arrays h !! ab = Some (Some data) -> 0 <= off + d -> off + d + Z.of_nat (length bs) <= Z.of_nat (length data) ->
  write_mem (ab, off) d bs h = (Return tt, set_array h ab (splice data bs (Z.to_nat (off + d)))).
Proof.
  intros E H1 H3. unfold write_mem. cbn [fst snd]. rewrite E.
  destruct (Z.leb_spec 0 (off + d)); [|lia].
  destruct (Z.leb_spec (off + d + Z.of_nat (length bs)) (Z.of_nat (length data))); [done | lia].
Qed.

Lemma set_array_wf h ab data data' :
  wf_heap h -> arrays h !! ab = Some (Some data) -> length data' = length data -> bytes data' ->
  wf_heap (set_array h ab data').
Proof.
  intros [H1 H2 H3 Hi Ha H4] E Hl Hb. split; cbn; [| |apply H3|apply Hi|apply Ha|].
  - intros ab' d'. destruct (decide (ab' = ab)) as [->|].
    + rewrite lookup_insert_eq. now intros [= <-].
    + rewrite lookup_insert_ne by done. apply H1.
  - intros ab' d'. destruct (decide (ab' = ab)) as [->|].
    + rewrite lookup_insert_eq. intros [= <-]. rewrite Hl. eauto.
    + rewrite lookup_insert_ne by done. apply H2.
  - intros id Hid. destruct (H4 id Hid) as [Hn Hv]. split; [|done].
    rewrite lookup_insert_ne; [done|]. intros <-. now rewrite E in Hn.
Qed.

(** ** Safe computations

    [safe m h]: run on a well-formed heap, [m] does not leave the memory of its
    buffers and leaves a well-formed heap.  It may throw, or fail an assertion. *)
Definition safe {A} (m : M A) (h : heap) : Prop :=
  wf_heap h -> fst (m h) <> Crash /\ wf_heap (snd (m h)).

(** A pointer with [len] valid bytes. *)
Definition valid_ptr (h : heap) (p : ptr) (len : Z) : Prop :=
  exists data, arrays h !! fst p = Some (Some data) /\ 0 <= snd p /\ 0 <= len <= INT32_MAX /\
    snd p + len <= Z.of_nat (length data).

Lemma safe_ret {A} (a : A) h : safe (ret a) h.
Proof. intros H. done. Qed.

Lemma safe_throw {A} e h : safe (throw (A := A) e) h.
Proof. intros H. done. Qed.

Lemma safe_lift {A} (o : outcome A) h : o <> Crash -> safe (lift o) h.
Proof. now intros Ho H. Qed.

Lemma lift_inv {A} (o : outcome A) h a h' : lift o h = (Return a, h') -> h' = h /\ o = Return a.
Proof. now intros [= -> <-]. Qed.

Lemma safe_get h : safe get h.
Proof. intros H. done. Qed.

Lemma safe_bind {A B} (m : M A) (f : A -> M B) h :
  safe m h -> (forall a h', wf_heap h -> wf_heap h' -> m h = (Return a, h') -> safe (f a) h') -> safe (bind m f) h.
Proof.
  intros Hm Hf H. destruct (Hm H) as [H1 H2]. unfold bind.
  destruct (m h) as [[a|e| |] h'] eqn:E; cbn in *; [|done..].
  apply (Hf a h' H H2 eq_refl H2).
Qed.

Lemma safe_get_bytes v h : safe (js_buffer_get_bytes v) h.
Proof. intros H. done. Qed.

Lemma get_bytes_inv v h r h' :
  wf_heap h -> js_buffer_get_bytes v h = (Return r, h') ->
  h' = h /\ match r with
            | Some (p, len) => valid_ptr h p len /\
                JS_GetTypedArrayBuffer h v = Some (mk_view (fst p) (snd p) len)
            | None => JS_GetTypedArrayBuffer h v = None
            end.
Proof.
  intros Hw. unfold js_buffer_get_bytes.
  destruct (JS_GetTypedArrayBuffer h v) as [w|] eqn:E; intros [= <- <-]; split; try done.
  cbn [mbind option_bind]. destruct (view_inv h v w E) as (data & Ea & Hb & id & -> & Ev).
  destruct (wf_views h Hw id w Ev). split; [|now destruct w].
  exists data. cbn. repeat split; auto; lia.
Qed.

Lemma safe_read_mem h p d n len :
  valid_ptr h p len -> 0 <= d -> 0 <= n -> d + n <= len -> safe (read_mem p d n) h.
Proof.
  intros (data & Ea & H1 & H2 & H3) Hd Hn Hl H. destruct p as [ab off]. cbn in *.
  rewrite (read_mem_ok h ab data) by (done || lia). done.
Qed.

Lemma read_mem_inv p d n h bs h' :
  wf_heap h -> read_mem p d n h = (Return bs, h') -> h' = h /\ bytes bs /\ Z.of_nat (length bs) = n.
Proof.
  intros Hw. unfold read_mem. destruct (arrays h !! fst p) as [[data|]|] eqn:E; try discriminate.
  destruct (Z.leb_spec 0 (snd p + d)); [|discriminate]. destruct (Z.leb_spec 0 n); [|discriminate].
  destruct (Z.leb_spec (snd p + d + n) (Z.of_nat (length data))); [|discriminate].
  intros [= <- <-]. split; [done|].
  split; [apply Forall_take, Forall_drop, (wf_bytes h Hw _ _ E)|].
  rewrite length_take, length_drop. lia.
Qed.

Lemma safe_write_mem h p d bs len :
  valid_ptr h p len -> 0 <= d -> d + Z.of_nat (length bs) <= len -> bytes bs -> safe (write_mem p d bs) h.
Proof.
  intros (data & Ea & H1 & H2 & H3) Hd Hl Hb H. destruct p as [ab off]. cbn in *.
  rewrite (write_mem_ok h ab data) by (done || lia). split; [done|].
  apply (set_array_wf h ab data); auto.
  - apply splice_length. lia.
  - apply splice_bytes; [apply (wf_bytes h H _ _ Ea) | done].
Qed.

(** A write changes no length: pointers stay valid. *)
Lemma write_mem_valid p d bs h u h' q len :
  write_mem p d bs h = (Return u, h') -> valid_ptr h q len -> valid_ptr h' q len.
Proof.
  unfold write_mem. destruct (arrays h !! fst p) as [[data|]|] eqn:E; try discriminate.
  destruct (_ && _) eqn:Eb; [|discriminate]. apply andb_true_iff in Eb as [H1 H2].
  intros [= <- <-] (data' & Ea & H). unfold valid_ptr, set_array. cbn.
  destruct (decide (fst q = fst p)) as [Eq|].
  - rewrite Eq in *. rewrite E in Ea. injection Ea as <-. eexists. rewrite lookup_insert_eq. split; [reflexivity|].
    rewrite splice_length by lia. done.
  - exists data'. rewrite lookup_insert_ne by done. done.
Qed.

Lemma safe_create size h : in_s 64 size -> safe (js_buffer_create size) h.
Proof.
  intros Hs H. unfold js_buffer_create. rewrite sgn_small by (done || lia).
  destruct (Z.ltb_spec size 0); cbn [orb]; [done|]. destruct (Z.ltb_spec MAX_SAFE_INTEGER size); [done|].
  destruct (Z.ltb_spec INT32_MAX size); [done|]. cbn. split; [done|]. destruct H as [W1 W2 W3 Wi Wa W4].
  assert (forall id, next_id h + 2 <= id -> id <> next_id h /\ id <> next_id h + 1) as Hn by lia.
  split; cbn.
  - intros ab data. destruct (decide (ab = next_id h)) as [->|].
    + rewrite lookup_insert_eq. intros [= <-]. apply Forall_replicate_eq. split; [done | reflexivity].
    + rewrite lookup_insert_ne by done. apply W1.
  - intros ab data. destruct (decide (ab = next_id h)) as [->|].
    + rewrite lookup_insert_eq. intros [= <-]. rewrite length_replicate. lia.
    + rewrite lookup_insert_ne by done. apply W2.
  - intros id w. destruct (decide (id = next_id h + 1)) as [->|].
    + rewrite lookup_insert_eq. intros [= <-]. unfold wf_view. cbn. lia.
    + rewrite lookup_insert_ne by done. apply W3.
  - apply Wi.
  - intros id w. destruct (decide (id = next_id h + 1)) as [->|].
    + rewrite lookup_insert_eq. intros [= <-]. cbn. lia.
    + rewrite lookup_insert_ne by done. intros E. apply Wa in E. lia.
  - intros id Hid. destruct (Hn id Hid). destruct (W4 id ltac:(lia)). rewrite !lookup_insert_ne by done. done.
Qed.

Lemma create_inv size h v h' :
  wf_heap h -> in_s 64 size -> js_buffer_create size h = (Return v, h') ->
  0 <= size <= INT32_MAX /\ v = JS_TAG_OBJECT (next_id h + 1) /\
  h' = mk_heap (<[next_id h := Some (replicate (Z.to_nat size) 0)]> (arrays h))
               (<[next_id h + 1 := mk_view (next_id h) 0 size]> (views h)) (lists h) (next_id h + 2).
Proof.
  intros Hw Hs. unfold js_buffer_create. rewrite sgn_small by (done || lia).
  destruct (Z.ltb_spec size 0); cbn [orb]; [done|]. destruct (Z.ltb_spec MAX_SAFE_INTEGER size); [done|].
  destruct (Z.ltb_spec INT32_MAX size); [done|]. intros [= <- <-]. done.
Qed.

(** Pointers of the heap before stay valid; the new buffer has one. *)
Lemma create_valid size h v h' :
  wf_heap h -> in_s 64 size -> js_buffer_create size h = (Return v, h') ->
  (forall q len, valid_ptr h q len -> valid_ptr h' q len) /\
  JS_GetTypedArrayBuffer h' v = Some (mk_view (next_id h) 0 size) /\
  valid_ptr h' (next_id h, 0) size /\ 0 <= size <= INT32_MAX.
Proof.
  intros Hw Hs E. destruct (create_inv size h v h' Hw Hs E) as (Hr & -> & ->).
  split_and!; [| | |lia..].
  - intros [ab off] len (data & Ea & H). exists data. cbn in *. split; [|done].
    rewrite lookup_insert_ne; [done|]. intros <-. destruct (wf_fresh h Hw (next_id h) ltac:(lia)) as [Hn _].
    now rewrite Ea in Hn.
  - cbn. rewrite lookup_insert_eq. cbn. rewrite lookup_insert_eq. rewrite length_replicate.
    destruct (Z.ltb_spec (Z.of_nat (Z.to_nat size)) (0 + size)); [lia | done].
  - exists (replicate (Z.to_nat size) 0). cbn. rewrite lookup_insert_eq, length_replicate. split_and!; try done; lia.
Qed.

Lemma safe_view ab off len h : in_s 64 off -> in_s 64 len -> safe (js_buffer_view ab off len) h.
Proof.
  intros Ho Hl H. unfold js_buffer_view. rewrite !sgn_small by (done || lia).
  destruct (Z.ltb_spec off 0); cbn [orb]; [done|]. destruct (Z.ltb_spec MAX_SAFE_INTEGER off); cbn [orb]; [done|].
  destruct (Z.ltb_spec len 0); cbn [orb]; [done|]. destruct (Z.ltb_spec MAX_SAFE_INTEGER len); cbn [orb]; [done|].
  destruct (arrays h !! ab) as [[data|]|] eqn:E; [|done..].
  destruct (Z.ltb_spec (Z.of_nat (length data)) (off + len)); [done|]. cbn. split; [done|].
  pose proof (wf_size h H _ _ E). destruct H as [W1 W2 W3 Wi Wa W4]. split; cbn; auto.
  - intros id w. destruct (decide (id = next_id h)) as [->|].
    + rewrite lookup_insert_eq. intros [= <-]. unfold wf_view. cbn. lia.
    + rewrite lookup_insert_ne by done. apply W3.
  - intros id w. destruct (decide (id = next_id h)) as [->|].
    + rewrite lookup_insert_eq. intros [= <-]. cbn. destruct (Z.ltb_spec ab (next_id h)); [lia|].
      destruct (W4 ab ltac:(lia)). congruence.
    + rewrite lookup_insert_ne by done. intros Ew. apply Wa in Ew. lia.
  - intros id Hid. destruct (W4 id ltac:(lia)). rewrite lookup_insert_ne by lia. done.
Qed.
