(* ===== verification/Buffer.v ===== *)
(** * The Buffer functions: [src/lib/buffer.c], lines 267 to 961

    Each C function is a computation in [Heap.M] on the argument list.  The
    conversions of arguments are those of [Numeric] after the conversion of an
    object to a primitive, [to_primitive], a parameter that stands for the user
    code it runs ([valueOf], [toString]) and changes the heap as it likes: it may
    detach the array whose data pointer the C function holds.  A C function that
    ignores the failure of a conversion goes on with the value 0, as the code does.
    [opt_int64] and [num_int64] are the values of the conversions when the user
    code leaves the heap alone ([quiet]).

    Reading the length and the elements of an argument runs no user code: they are
    those of a plain array, of a typed array or of a string. *)

From Stdlib Require Import ZArith Lia Bool Ascii String.
From stdpp Require Import base numbers list option strings gmap.
From S2P Require Import Prelude Numeric CString Encoding Heap.

#[local] Open Scope Z_scope.

(** ** Definitions *)

(** *** Conversions that run no user code *)

Section Pure.
Context (to_primitive : Z -> res prim) (string_to_number : string -> res prim).

Definition to_int64 (v : JSValue) : res Z := JS_ToInt64Free to_primitive string_to_number v.
Definition to_int64_or_0 (v : JSValue) : Z := match to_int64 v with Ok z => z | Throw _ => 0 end.
Definition to_int32_or_0 (v : JSValue) : Z :=
  match JS_ToInt32Free to_primitive string_to_number v with Ok z => z | Throw _ => 0 end.

(** [if (argc >= k + 1 && !JS_IsUndefined(argv[k])) JS_ToInt64(ctx, &x, argv[k])] *)
Definition opt_int64 (argv : list JSValue) (k : nat) (x : Z) : Z :=
  if (k <? length argv)%nat && negb (JS_IsUndefined (arg argv k)) then to_int64_or_0 (arg argv k) else x.
End Pure.

(** The conversions of numbers: no object is converted. *)
Definition no_user_code (id : Z) : res prim := Throw (TypeError "not a number").

(** [if (argc >= k + 1 && JS_IsNumber(argv[k])) JS_ToInt64(ctx, &x, argv[k])] *)
Definition num_int64 (string_to_number : string -> res prim) (argv : list JSValue) (k : nat) (x : Z) : Z :=
  if (k <? length argv)%nat && JS_IsNumber (arg argv k) then to_int64_or_0 no_user_code string_to_number (arg argv k) else x.

(** User code that leaves the heap alone. *)
Definition quiet (to_primitive : Z -> res prim) : Z -> heap -> res prim * heap := fun id h => (to_primitive id, h).

Section Buffer.
Context (to_primitive : Z -> heap -> res prim * heap) (string_to_number : string -> res prim).
(** [memcmp]: the C standard fixes its sign only. *)
Context (memcmp : list Z -> list Z -> Z).

(** *** Conversions of arguments *)

Definition JS_ToPrimitive (v : JSValue) : M (res prim) :=
  fun h =>
    match v with
    | Prim p => (Return (Ok p), h)
    | JS_TAG_OBJECT id => let (r, h) := to_primitive id h in (Return r, h)
    end.

Definition JS_ToInt64 (v : JSValue) : M (res Z) :=
  let! r := JS_ToPrimitive v in ret (JS_ToInt64Free (fun _ => r) string_to_number v).
Definition JS_ToInt32 (v : JSValue) : M (res Z) :=
  let! r := JS_ToPrimitive v in ret (JS_ToInt32Free (fun _ => r) string_to_number v).

(** The failure is ignored. *)
Definition JS_ToInt64_or_0 (v : JSValue) : M Z :=
  let! r := JS_ToInt64 v in ret (match r with Ok z => z | Throw _ => 0 end).

(** [if (argc >= k + 1 && !JS_IsUndefined(argv[k])) JS_ToInt64(ctx, &x, argv[k])] *)
Definition JS_opt_int64 (argv : list JSValue) (k : nat) (x : Z) : M Z :=
  if (k <? length argv)%nat && negb (JS_IsUndefined (arg argv k)) then JS_ToInt64_or_0 (arg argv k) else ret x.

Definition arg_encoding (argv : list JSValue) (k : nat) : outcome encoding :=
  match arg argv k with
  | Prim (JS_TAG_STRING s) => let^ enc := JS_ToCStringLen s in Return (get_encoding_id enc)
  | _ => Return ENC_UTF8
  end.

Definition int_value (v : Z) : JSValue := Prim (JS_TAG_INT v).
Definition bool_value (b : bool) : JSValue := Prim (JS_TAG_BOOL b).

(** A string too large for [JS_ToCStringLen] to copy. *)
Definition out_of_memory : exn := InternalError "out of memory".

(** [dst = js_buffer_get_bytes(buf); if (dst) memcpy(dst + d, bs, n)] *)
Definition store_into (buf : JSValue) (d : Z) (bs : list Z) : M unit :=
  let! p := js_buffer_get_bytes buf in
  match p with
  | Some (p, _) => write_mem p d bs
  | None => ret tt
  end.

(** The elements of an object with a numeric [length]: a plain array, or a
    typed array of bytes (empty when it is out of bounds). *)
Definition array_items (h : heap) (v : JSValue) : option (list JSValue) :=
  match v with
  | JS_TAG_OBJECT id =>
      match lists h !! id with
      | Some items => Some items
      | None =>
          match views h !! id with
          | Some _ => Some (map int_value (default [] (view_bytes h v)))
          | None => None
          end
      end
  | _ => None
  end.

(** A new buffer with the given contents. *)
Definition buffer_of_bytes (bs : list Z) : M JSValue :=
  let! buf := js_buffer_create (Z.of_nat (length bs)) in
  let! _ := store_into buf 0 bs in
  ret buf.

(** The elements now; a character of a string, which is no number and no
    buffer either, is left undefined. *)
Definition array_item (h : heap) (v : JSValue) (i : Z) : JSValue :=
  List.nth (Z.to_nat i) (default [] (array_items h v)) undefined.

(** [Buffer.from(array)]: the elements in order, those that are undefined or
    fail to convert left at zero.  A conversion may change the array. *)
Fixpoint store_elements (v : JSValue) (p : ptr) (i : Z) (n : nat) : M unit :=
  match n with
  | S n =>
      let! h := get in
      let x := array_item h v i in
      let! _ :=
        if JS_IsUndefined x then ret tt
        else
          let! r := JS_ToInt32 x in
          match r with
          | Ok byte => write_mem p i [u8 byte]
          | Throw _ => ret tt
          end in
      store_elements v p (i + 1) n
  | O => ret tt
  end.

(** The cases of [Buffer.from] other than a string. *)
Definition from_object (argv : list JSValue) (a0 : JSValue) : M JSValue :=
  let! h := get in
  match JS_GetArrayBuffer h a0 with
  | Some (ab, data) =>
      let ab_len := Z.of_nat (length data) in
      let! offset := JS_opt_int64 argv 1 0 in
      let! len := JS_opt_int64 argv 2 ab_len in
      if (offset <? 0) || (len <? 0) || (ab_len <? u64 (offset + len))
      then throw (RangeError "invalid offset/length")
      else js_buffer_view ab offset len
  | None =>
      let! src := js_buffer_get_bytes a0 in
      match src with
      | Some (p, len) =>
          let! buf := js_buffer_create len in
          let! bs := read_mem p 0 len in
          let! _ := store_into buf 0 bs in
          ret buf
      | None =>
          match array_items h a0 with
          | Some elems =>
              let! buf := js_buffer_create (Z.of_nat (length elems)) in
              let! p := js_buffer_get_bytes buf in
              let! _ := match p with Some (p, _) => store_elements a0 p 0 (length elems) | None => ret tt end in
              ret buf
          | None => throw (TypeError "Buffer.from(): invalid argument type")
          end
      end
  end.

Definition js_buffer_from (argv : list JSValue) : M JSValue :=
  if (length argv <? 1)%nat then throw (TypeError "Buffer.from() requires an argument")
  else
    match arg argv 0 with
    | Prim (JS_TAG_STRING s) =>
        let! encoding := lift (if (1 <? length argv)%nat then arg_encoding argv 1 else Return ENC_UTF8) in
        let! str := lift (JS_ToCStringLen s) in
        match str with
        | None => throw out_of_memory
        | Some str =>
            let! bs := lift (js_buffer_string_to_bytes str encoding) in
            match bs with
            | None => throw (TypeError "failed to decode string")
            | Some bs => buffer_of_bytes bs
            end
        end
    | a0 => from_object argv a0
    end.

(** The byte of the second argument of [Buffer.alloc]. *)
Definition fill_byte (v : JSValue) : M Z :=
  match v with
  | Prim (JS_TAG_STRING s) =>
      let! s := lift (JS_ToCStringLen s) in
      ret (List.nth 0 (default [] s) 0)
  | _ =>
      let! r := JS_ToInt32 v in
      ret (match r with Ok v => u8 (Z.land v 255) | Throw _ => 0 end)
  end.

Definition js_buffer_alloc (argv : list JSValue) : M JSValue :=
  if (length argv <? 1)%nat then throw (TypeError "size must be a number")
  else
    let! size := JS_ToInt64 (arg argv 0) in
    match size with
    | Throw _ => throw (TypeError "size must be a number")
    | Ok size =>
        if size <? 0 then throw (RangeError "invalid size")
        else
          let! buf := js_buffer_create size in
          let! byte :=
            if (1 <? length argv)%nat && negb (JS_IsUndefined (arg argv 1)) then fill_byte (arg argv 1) else ret 0 in
          let! p := js_buffer_get_bytes buf in
          let! _ := match p with
                    | Some (p, len) => write_mem p 0 (replicate (Z.to_nat len) byte)
                    | None => ret tt
                    end in
          ret buf
    end.

Definition js_buffer_allocUnsafe (argv : list JSValue) : M JSValue :=
  if (length argv <? 1)%nat then throw (TypeError "size must be a number")
  else
    let! size := JS_ToInt64 (arg argv 0) in
    match size with
    | Throw _ => throw (TypeError "size must be a number")
    | Ok size => if size <? 0 then throw (RangeError "invalid size") else js_buffer_create size
    end.

(** The total of the lengths of the items that are buffers. *)
Fixpoint concat_total (h : heap) (items : list JSValue) : Z :=
  match items with
  | item :: items =>
      match JS_GetTypedArrayBuffer h item with Some w => v_len w | None => 0 end + concat_total h items
  | [] => 0
  end.

(** The copy loop: [offset] and [total] are sizes. *)
Fixpoint concat_loop (dst : option ptr) (items : list JSValue) (offset total : Z) : M unit :=
  match items with
  | item :: items =>
      if offset <? total then
        let! src := js_buffer_get_bytes item in
        match src, dst with
        | Some (src, len), Some dst =>
            let to_copy := if u64 (offset + len) <=? total then len else total - offset in
            let! bs := read_mem src 0 to_copy in
            let! _ := write_mem dst offset bs in
            concat_loop (Some dst) items (offset + to_copy) total
        | _, _ => concat_loop dst items offset total
        end
      else ret tt
  | [] => ret tt
  end.

(** The [length] of the list argument, 0 when it has none. *)
Definition array_length (h : heap) (v : JSValue) : nat :=
  match v with
  | Prim (JS_TAG_STRING s) => length (units s)
  | _ => length (default [] (array_items h v))
  end.

Definition js_buffer_concat (argv : list JSValue) : M JSValue :=
  if (length argv <? 1)%nat then throw (TypeError "list required")
  else
    let! h := get in
    let count := array_length h (arg argv 0) in
    if (count =? 0)%nat then js_buffer_create 0
    else
      let! total := JS_opt_int64 argv 1 (-1) in
      let! h := get in
      let items := map (fun i => array_item h (arg argv 0) (Z.of_nat i)) (seq 0 count) in
      let total := if total <? 0 then concat_total h items else total in
      let! result := js_buffer_create total in
      let! dst := js_buffer_get_bytes result in
      let! _ := concat_loop (fst <$> dst) items 0 total in
      ret result.

Definition js_buffer_byteLength (argv : list JSValue) : M JSValue :=
  if (length argv <? 1)%nat then throw (TypeError "argument required")
  else
    let! h := get in
    match JS_GetTypedArrayBuffer h (arg argv 0) with
    | Some w => ret (int_value (v_len w))
    | None =>
        match JS_GetArrayBuffer h (arg argv 0) with
        | Some (_, data) => ret (int_value (Z.of_nat (length data)))
        | None =>
            match arg argv 0 with
            | Prim (JS_TAG_STRING s) =>
                let! encoding := lift (if (1 <? length argv)%nat then arg_encoding argv 1 else Return ENC_UTF8) in
                let! str := lift (JS_ToCStringLen s) in
                match str with
                | None => throw out_of_memory
                | Some str =>
                    match encoding with
                    | ENC_UTF8 | ENC_ASCII | ENC_LATIN1 => ret (int_value (Z.of_nat (length str)))
                    | _ =>
                        let! bs := lift (js_buffer_string_to_bytes str encoding) in
                        match bs with
                        | None => throw (TypeError "failed to compute byte length")
                        | Some bs => ret (int_value (Z.of_nat (length bs)))
                        end
                    end
                end
            | _ => throw (TypeError "cannot determine byte length")
            end
        end
    end.

(** The common body of the two comparison functions. *)
Definition compare_buffers (b1 b2 : JSValue) : M JSValue :=
  let! p1 := js_buffer_get_bytes b1 in
  let! p2 := js_buffer_get_bytes b2 in
  match p1, p2 with
  | Some (p1, len1), Some (p2, len2) =>
      let min_len := if len1 <? len2 then len1 else len2 in
      let! x1 := read_mem p1 0 min_len in
      let! x2 := read_mem p2 0 min_len in
      let cmp := memcmp x1 x2 in
      let cmp := if cmp =? 0 then b2z (len2 <? len1) - b2z (len1 <? len2) else cmp in
      ret (int_value cmp)
  | _, _ => throw (TypeError "arguments must be Buffers")
  end.

Definition js_buffer_compare_static (argv : list JSValue) : M JSValue :=
  if (length argv <? 2)%nat then throw (TypeError "need two buffers")
  else compare_buffers (arg argv 0) (arg argv 1).

Definition js_buffer_compare_inst (this_val : JSValue) (argv : list JSValue) : M JSValue :=
  if (length argv <? 1)%nat then throw (TypeError "argument required")
  else compare_buffers this_val (arg argv 0).

Definition js_buffer_equals (this_val : JSValue) (argv : list JSValue) : M JSValue :=
  if (length argv <? 1)%nat then ret (bool_value false)
  else
    let! p1 := js_buffer_get_bytes this_val in
    let! p2 := js_buffer_get_bytes (arg argv 0) in
    match p1, p2 with
    | Some (p1, len1), Some (p2, len2) =>
        if len1 =? len2 then
          let! x1 := read_mem p1 0 len1 in
          let! x2 := read_mem p2 0 len1 in
          ret (bool_value (memcmp x1 x2 =? 0))
        else ret (bool_value false)
    | _, _ => ret (bool_value false)
    end.

Definition js_buffer_toString (this_val : JSValue) (argv : list JSValue) : M JSString :=
  let! encoding := lift (if (1 <=? length argv)%nat then arg_encoding argv 0 else Return ENC_UTF8) in
  let! p := js_buffer_get_bytes this_val in
  match p with
  | None => throw (TypeError "not a Buffer")
  | Some (p, len) =>
      let! start := JS_opt_int64 argv 1 0 in
      let! end_ := JS_opt_int64 argv 2 len in
      let start := if start <? 0 then 0 else start in
      let end_ := if len <? end_ then len else end_ in
      if end_ <=? start then lift (new_string_len [])
      else
        let! bs := read_mem p start (end_ - start) in
        lift (js_buffer_bytes_to_string bs encoding)
  end.

(** The window that [slice] and [subarray] clamp: [Some (start, end)] unless it
    is empty. *)
Definition clamp_window (start end_ len : Z) : option (Z * Z) :=
  let start := if start <? 0 then i64 (start + len) else start in
  let end_ := if end_ <? 0 then i64 (end_ + len) else end_ in
  let start := if start <? 0 then 0 else start in
  let end_ := if len <? end_ then len else end_ in
  if end_ <=? start then None else Some (start, end_).

(** The code tests [argv[1]] where it converts [argv[0]]. *)
Definition js_buffer_slice (this_val : JSValue) (argv : list JSValue) : M JSValue :=
  let! p := js_buffer_get_bytes this_val in
  match p with
  | None => throw (TypeError "not a Buffer")
  | Some (p, len) =>
      let! start := if (1 <=? length argv)%nat && negb (JS_IsUndefined (arg argv 1))
                    then JS_ToInt64_or_0 (arg argv 0) else ret 0 in
      let! end_ := JS_opt_int64 argv 1 len in
      match clamp_window start end_ len with
      | None => js_buffer_create 0
      | Some (start, end_) =>
          let slice_len := end_ - start in
          let! buf := js_buffer_create slice_len in
          let! bs := read_mem p start slice_len in
          let! _ := store_into buf 0 bs in
          ret buf
      end
  end.

Definition js_buffer_subarray (this_val : JSValue) (argv : list JSValue) : M JSValue :=
  let! h := get in
  match JS_GetTypedArrayBuffer h this_val with
  | None => throw (TypeError "not a Buffer")
  | Some w =>
      let! start := JS_opt_int64 argv 0 0 in
      let! end_ := JS_opt_int64 argv 1 (v_len w) in
      match clamp_window start end_ (v_len w) with
      | None => js_buffer_create 0
      | Some (start, end_) => js_buffer_view (v_ab w) (u64 (v_off w + start)) (end_ - start)
      end
  end.

(** The rest of [write], on the decoded bytes. *)
Definition write_bytes (this_val : JSValue) (argv : list JSValue) (bs : list Z) : M JSValue :=
  let! p := js_buffer_get_bytes this_val in
  match p with
  | None => throw (TypeError "not a Buffer")
  | Some (p, buf_len) =>
      let byte_len := Z.of_nat (length bs) in
      let! offset := JS_opt_int64 argv 1 0 in
      let! len := JS_opt_int64 argv 2 byte_len in
      if (offset <? 0) || (buf_len <=? offset) then ret (int_value 0)
      else
        let to_write := if u64 len <? byte_len then u64 len else byte_len in
        let to_write := if buf_len <? u64 (offset + to_write) then buf_len - offset else to_write in
        let! _ := write_mem p offset (take (Z.to_nat to_write) bs) in
        ret (int_value (i32 to_write))
  end.

(** Returns the number of bytes written. *)
Definition js_buffer_write (this_val : JSValue) (argv : list JSValue) : M JSValue :=
  match arg argv 0 with
  | Prim (JS_TAG_STRING s) =>
      let! encoding := lift (if (4 <=? length argv)%nat then arg_encoding argv 3 else Return ENC_UTF8) in
      let! str := lift (JS_ToCStringLen s) in
      match str with
      | None => throw out_of_memory
      | Some str =>
          let! bs := lift (js_buffer_string_to_bytes str encoding) in
          match bs with
          | None => throw (TypeError "encoding failed")
          | Some bs => write_bytes this_val argv bs
          end
      end
  | _ => throw (TypeError "string required")
  end.

(** A string gives its first byte, a number its low byte, anything else zero. *)
Definition fill_value (v : JSValue) : outcome Z :=
  match v with
  | Prim (JS_TAG_STRING s) =>
      let^ s := JS_ToCStringLen s in
      Return (List.nth 0 (default [] s) 0)
  | _ => Return (if JS_IsNumber v then u8 (Z.land (to_int32_or_0 no_user_code string_to_number v) 255) else 0)
  end.

Definition js_buffer_fill (this_val : JSValue) (argv : list JSValue) : M JSValue :=
  if (length argv <? 1)%nat then throw (TypeError "value required")
  else
    let! p := js_buffer_get_bytes this_val in
    match p with
    | None => throw (TypeError "not a Buffer")
    | Some (p, buf_len) =>
        let! byte := lift (fill_value (arg argv 0)) in
        let start := num_int64 string_to_number argv 1 0 in
        let end_ := num_int64 string_to_number argv 2 buf_len in
        let start := if start <? 0 then 0 else start in
        let end_ := if buf_len <? end_ then buf_len else end_ in
        let! _ := if start <? end_ then write_mem p start (replicate (Z.to_nat (end_ - start)) byte)
                  else ret tt in
        ret this_val
    end.

(** [copy_len] is a size: it wraps around when the source window is inverted. *)
Definition js_buffer_copy (this_val : JSValue) (argv : list JSValue) : M JSValue :=
  if (length argv <? 1)%nat then throw (TypeError "target required")
  else
    let! src := js_buffer_get_bytes this_val in
    let! tgt := js_buffer_get_bytes (arg argv 0) in
    match src, tgt with
    | Some (src, src_len), Some (tgt, tgt_len) =>
        let! tgt_start := JS_opt_int64 argv 1 0 in
        let! src_start := JS_opt_int64 argv 2 0 in
        let! src_end := JS_opt_int64 argv 3 src_len in
        let src_start := if src_start <? 0 then 0 else src_start in
        let src_end := if src_len <? src_end then src_len else src_end in
        let tgt_start := if tgt_start <? 0 then 0 else tgt_start in
        let copy_len := u64 (src_end - src_start) in
        let copy_len := if tgt_len <? u64 (tgt_start + copy_len) then u64 (tgt_len - tgt_start) else copy_len in
        let! _ :=
          if 0 <? copy_len then
            let! bs := read_mem src src_start copy_len in
            write_mem tgt tgt_start bs
          else ret tt in
        ret (int_value (i32 copy_len))
    | _, _ => throw (TypeError "arguments must be Buffers")
    end.

(** [for (i = offset; i < buf_len; i++) if (buf[i] == byte) return i] *)
Fixpoint find_byte (p : ptr) (buf_len byte i : Z) (fuel : nat) : M Z :=
  match fuel with
  | O => ret (-1)
  | S fuel =>
      if i <? buf_len then
        let! b := read_mem p i 1 in
        if List.nth 0 b 0 =? byte then ret i else find_byte p buf_len byte (i + 1) fuel
      else ret (-1)
  end.

Fixpoint find_bytes (p : ptr) (buf_len : Z) (needle : list Z) (i : Z) (fuel : nat) : M Z :=
  match fuel with
  | O => ret (-1)
  | S fuel =>
      let needle_len := Z.of_nat (length needle) in
      if u64 (i + needle_len) <=? buf_len then
        let! b := read_mem p i 1 in
        if List.nth 0 b 0 =? List.nth 0 needle 0 then
          let! x := read_mem p i needle_len in
          if memcmp x needle =? 0 then ret i else find_bytes p buf_len needle (i + 1) fuel
        else find_bytes p buf_len needle (i + 1) fuel
      else ret (-1)
  end.

(** The bytes of the string or buffer to look for.  [str] is not tested: the
    length of a string that cannot be read is 0. *)
Definition find_needle (argv : list JSValue) : M (option (list Z)) :=
  match arg argv 0 with
  | Prim (JS_TAG_STRING s) =>
      let! encoding := lift (if (3 <=? length argv)%nat then arg_encoding argv 2 else Return ENC_UTF8) in
      let! str := lift (JS_ToCStringLen s) in
      lift (js_buffer_string_to_bytes (default [] str) encoding)
  | v =>
      let! q := js_buffer_get_bytes v in
      match q with
      | Some (q, len) => let! bs := read_mem q 0 len in ret (Some bs)
      | None => ret None
      end
  end.

Definition js_buffer_indexOf (this_val : JSValue) (argv : list JSValue) : M Z :=
  if (length argv <? 1)%nat then ret (-1)
  else
    let! p := js_buffer_get_bytes this_val in
    match p with
    | None => ret (-1)
    | Some (p, buf_len) =>
        let offset := num_int64 string_to_number argv 1 0 in
        let offset := if offset <? 0 then 0 else offset in
        let fuel := S (Z.to_nat (buf_len - offset)) in
        if JS_IsNumber (arg argv 0) then
          find_byte p buf_len (u8 (Z.land (to_int32_or_0 no_user_code string_to_number (arg argv 0)) 255)) offset fuel
        else
          let! needle := find_needle argv in
          match needle with
          | None => ret (-1)
          | Some needle =>
              if (length needle =? 0)%nat then ret offset
              else if Z.of_nat (length needle) <=? buf_len then find_bytes p buf_len needle offset fuel
              else ret (-1)
          end
    end.

Definition js_buffer_includes (this_val : JSValue) (argv : list JSValue) : M bool :=
  let! v := js_buffer_indexOf this_val argv in
  ret (0 <=? v).

(** The elements of the [data] array of the result. *)
Definition js_buffer_toJSON (this_val : JSValue) : M (list Z) :=
  let! p := js_buffer_get_bytes this_val in
  match p with
  | None => throw (TypeError "not a Buffer")
  | Some (p, len) => read_mem p 0 len
  end.

(** [tmp = p[i]; p[i] = p[j]; p[j] = tmp] *)
Definition swap_bytes (p : ptr) (i j : Z) : M unit :=
  let! tmp := read_mem p i 1 in
  let! x := read_mem p j 1 in
  let! _ := write_mem p i x in
  write_mem p j tmp.

(** The inner loop on the element at [i]. *)
Fixpoint swap_element (p : ptr) (elem_size i j : Z) (n : nat) : M unit :=
  match n with
  | O => ret tt
  | S n =>
      let! _ := swap_bytes p (i + j) (i + elem_size - 1 - j) in
      swap_element p elem_size i (j + 1) n
  end.

Fixpoint swap_loop (p : ptr) (elem_size len i : Z) (fuel : nat) : M unit :=
  match fuel with
  | O => ret tt
  | S fuel =>
      if i <? len then
        let! _ := swap_element p elem_size i 0 (Z.to_nat (elem_size / 2)) in
        swap_loop p elem_size len (i + elem_size) fuel
      else ret tt
  end.

Definition js_buffer_swap (this_val : JSValue) (elem_size : Z) : M JSValue :=
  let! p := js_buffer_get_bytes this_val in
  match p with
  | None => throw (TypeError "not a Buffer")
  | Some (p, len) =>
      if negb (len mod elem_size =? 0) then
        throw (RangeError "Buffer size must be a multiple of the element size")
      else
        let! _ := swap_loop p elem_size len 0 (Z.to_nat len) in
        ret this_val
  end.

(** [val = (val << 8) | src[i]], high byte first. *)
Definition be_value (bs : list Z) : Z :=
  fold_left (fun val b => Z.lor (u64 (Z.shiftl val 8)) b) bs 0.

(** [bits] and the endianness are the two fields of [magic]. *)
Definition js_buffer_readUInt (this_val : JSValue) (argv : list JSValue) (bits : Z) (big_endian : bool) : M Z :=
  let! p := js_buffer_get_bytes this_val in
  match p with
  | None => throw (TypeError "not a Buffer")
  | Some (p, len) =>
      let! offset := JS_opt_int64 argv 0 0 in
      let nbytes := bits / 8 in
      if (offset <? 0) || (len <? u64 (offset + nbytes)) then throw (RangeError "out of range")
      else
        let! bs := read_mem p offset nbytes in
        let val := be_value (if big_endian then bs else rev bs) in
        ret (if bits <=? 32 then i32 (Z.land val (2 ^ 32 - 1)) else i64 val)
  end.

(** [dst[i] = uval & 0xFF; uval >>= 8], low byte first. *)
Fixpoint le_bytes (nbytes : nat) (uval : Z) : list Z :=
  match nbytes with
  | O => []
  | S n => u8 (Z.land uval 255) :: le_bytes n (Z.shiftr uval 8)
  end.

Definition js_buffer_writeUInt (this_val : JSValue) (argv : list JSValue) (bits : Z) (big_endian : bool) : M JSValue :=
  let! p := js_buffer_get_bytes this_val in
  match p with
  | None => throw (TypeError "not a Buffer")
  | Some (p, len) =>
      if (length argv <? 2)%nat then throw (TypeError "need value and offset")
      else
        let! val := JS_ToInt64_or_0 (arg argv 0) in
        let! offset := JS_ToInt64_or_0 (arg argv 1) in
        let nbytes := bits / 8 in
        if (offset <? 0) || (len <? u64 (offset + nbytes)) then throw (RangeError "out of range")
        else
          let bs := le_bytes (Z.to_nat nbytes) (u64 val) in
          let! _ := write_mem p offset (if big_endian then rev bs else bs) in
          ret this_val
  end.

End Buffer.
