(* ===== verification/BufferSafety.v ===== *)
(** * Memory safety of the Buffer functions

    Every access of a Buffer function stays inside live byte arrays, for every
    [this], argument list and well-formed heap, and the heap stays well-formed:
    one lemma per function of [Buffer], and the theorem over sequences of
    calls.  Three things make the code leave the memory, and are excluded:
    [Buffer.prototype.copy] with a source window that is inverted or a target start
    past the end of the target, whose size computation wraps around; user code,
    run by the conversion of an argument, that detaches an array whose data
    pointer a function holds; and texts of 2^30 bytes or more, for which
    [JS_NewStringLen] is not studied.  The examples at the end leave the memory in
    the first two ways. *)

From Stdlib Require Import ZArith Lia Bool Ascii String.
From stdpp Require Import base numbers list option strings gmap.
From S2P Require Import Prelude Numeric CString Encoding Heap Buffer.

#[local] Open Scope Z_scope.

(** ** Definitions *)

(** Numbers are in the range of their tag; a string has at most 2^30 - 1 units. *)
Definition value_ok (v : JSValue) : Prop :=
  match v with
  | Prim (JS_TAG_STRING s) => Z.of_nat (length (units s)) <= JS_STRING_LEN_MAX
  | Prim p => prim_ok p
  | _ => True
  end.

(** What the functions rely on of the engine: conversions yield values in the
    range of their tag. *)
Record host_ok (to_primitive : Z -> res prim) (string_to_number : string -> res prim) : Prop := mk_host_ok {
  host_primitive : forall id p, to_primitive id = Ok p -> prim_ok p;
  host_number : forall s p, string_to_number s = Ok p -> prim_ok p;
}.

(** The arrays that are live in [h] are so in [h'], with the same lengths, and
    the views are the same; contents may differ and objects may be new. *)
Record keeps (h h' : heap) : Prop := mk_keeps {
  keeps_arrays : forall ab data, arrays h !! ab = Some (Some data) ->
    exists data', arrays h' !! ab = Some (Some data') /\ length data' = length data;
  keeps_views : forall id w, views h !! id = Some w -> views h' !! id = Some w;
}.

(** User code that detaches no array: beyond that it may do what it likes to the
    heap, calls of Buffer functions included. *)
Record user_code_ok (to_primitive : Z -> heap -> res prim * heap) (string_to_number : string -> res prim) : Prop := mk_user_code_ok {
  user_primitive : forall id h p h', wf_heap h -> to_primitive id h = (Ok p, h') -> prim_ok p;
  user_heap : forall id h r h', wf_heap h -> to_primitive id h = (r, h') -> wf_heap h' /\ keeps h h';
  user_number : forall s p, string_to_number s = Ok p -> prim_ok p;
}.

(** A call of a Buffer function: the function, [this] and the arguments. *)
Inductive operation : Type :=
| From | Alloc | AllocUnsafe | Concat | ByteLength | CompareStatic
| ToString | Slice | Subarray | Write | Fill | Copy | Equals | CompareInst
| IndexOf | Includes | ToJSON
| Swap (elem_size : Z)
| ReadUInt (bits : Z) (big_endian : bool)
| WriteUInt (bits : Z) (big_endian : bool).

(** [js_buffer_init]: the methods of [Buffer.prototype], with the number of
    arguments they declare, and the functions of the constructor
    ([Buffer.isBuffer], which reads no bytes, is left out). *)
Local Open Scope string_scope.
Definition buffer_prototype : list (string * Z * operation) :=
  [("toString", 3, ToString); ("slice", 2, Slice); ("subarray", 2, Subarray); ("write", 4, Write);
   ("fill", 3, Fill); ("copy", 4, Copy); ("equals", 1, Equals); ("compare", 1, CompareInst);
   ("indexOf", 3, IndexOf); ("includes", 3, Includes); ("toJSON", 0, ToJSON);
   ("swap16", 0, Swap 2); ("swap32", 0, Swap 4); ("swap64", 0, Swap 8);
   ("readUInt8", 1, ReadUInt 8 false); ("writeUInt8", 2, WriteUInt 8 false);
   ("readUInt16BE", 1, ReadUInt 16 true); ("readUInt16LE", 1, ReadUInt 16 false);
   ("writeUInt16BE", 2, WriteUInt 16 true); ("writeUInt16LE", 2, WriteUInt 16 false);
   ("readUInt32BE", 1, ReadUInt 32 true); ("readUInt32LE", 1, ReadUInt 32 false);
   ("writeUInt32BE", 2, WriteUInt 32 true); ("writeUInt32LE", 2, WriteUInt 32 false);
   ("readInt32BE", 1, ReadUInt 32 true); ("readInt32LE", 1, ReadUInt 32 false);
   ("writeInt32BE", 2, WriteUInt 32 true); ("writeInt32LE", 2, WriteUInt 32 false)].

Definition buffer_ctor : list (string * Z * operation) :=
  [("Buffer", 2, Alloc); ("from", 3, From); ("alloc", 2, Alloc); ("allocUnsafe", 1, AllocUnsafe);
   ("concat", 2, Concat); ("byteLength", 2, ByteLength); ("compare", 2, CompareStatic);
   ("SlowBuffer", 1, AllocUnsafe)].
Local Close Scope string_scope.

Record call : Type := mk_call {
  c_op : operation;
  c_this : JSValue;
  c_argv : list JSValue;
}.

Definition void {A} (m : M A) : M unit := let! _ := m in ret tt.

Section Calls.
Context (to_primitive : Z -> heap -> res prim * heap) (string_to_number : string -> res prim).
Context (memcmp : list Z -> list Z -> Z).

Definition run_call (c : call) : M unit :=
  let this := c_this c in
  let argv := c_argv c in
  match c_op c with
  | From => void (js_buffer_from to_primitive string_to_number argv)
  | Alloc => void (js_buffer_alloc to_primitive string_to_number argv)
  | AllocUnsafe => void (js_buffer_allocUnsafe to_primitive string_to_number argv)
  | Concat => void (js_buffer_concat to_primitive string_to_number argv)
  | ByteLength => void (js_buffer_byteLength argv)
  | CompareStatic => void (js_buffer_compare_static memcmp argv)
  | ToString => void (js_buffer_toString to_primitive string_to_number this argv)
  | Slice => void (js_buffer_slice to_primitive string_to_number this argv)
  | Subarray => void (js_buffer_subarray to_primitive string_to_number this argv)
  | Write => void (js_buffer_write to_primitive string_to_number this argv)
  | Fill => void (js_buffer_fill string_to_number this argv)
  | Copy => void (js_buffer_copy to_primitive string_to_number this argv)
  | Equals => void (js_buffer_equals memcmp this argv)
  | CompareInst => void (js_buffer_compare_inst memcmp this argv)
  | IndexOf => void (js_buffer_indexOf string_to_number memcmp this argv)
  | Includes => void (js_buffer_includes string_to_number memcmp this argv)
  | ToJSON => void (js_buffer_toJSON this)
  | Swap elem_size => void (js_buffer_swap this elem_size)
  | ReadUInt bits be => void (js_buffer_readUInt to_primitive string_to_number this argv bits be)
  | WriteUInt bits be => void (js_buffer_writeUInt to_primitive string_to_number this argv bits be)
  end.

(** A program calls one function after another, whatever they throw, until a
    failed assertion ends it; the result is [None] when one of them has crashed. *)
Fixpoint run_calls (calls : list call) (h : heap) : option heap :=
  match calls with
  | c :: calls =>
      match run_call c h with
      | (Crash, _) => None
      | (Abort, h) => Some h
      | (_, h) => run_calls calls h
      end
  | [] => Some h
  end.

(** [copy]: the window of the source is not inverted once clamped and the
    target start is not past the end of the target. *)
Definition copy_ok (c : call) (h : heap) : bool :=
  match JS_GetTypedArrayBuffer h (c_this c), JS_GetTypedArrayBuffer h (arg (c_argv c) 0) with
  | Some src, Some tgt =>
      let num k x := JS_opt_int64 to_primitive string_to_number (c_argv c) k x in
      match (let! tgt_start := num 1%nat 0 in
             let! src_start := num 2%nat 0 in
             let! src_end := num 3%nat (v_len src) in
             ret ((Z.max 0 src_start <=? Z.min (v_len src) src_end) && (tgt_start <=? v_len tgt))) h with
      | (Return ok, _) => ok
      | _ => true
      end
  | _, _ => true
  end.

(** [toString]: the buffer is no longer than a string. *)
Definition text_ok (c : call) (h : heap) : bool :=
  match JS_GetTypedArrayBuffer h (c_this c) with
  | Some w => v_len w <=? JS_STRING_LEN_MAX
  | None => true
  end.

Definition call_ok (c : call) : Prop :=
  (exists name length, In (name, length, c_op c) (buffer_prototype ++ buffer_ctor)) /\ Forall value_ok (c_argv c).

Definition bounds_ok (c : call) (h : heap) : bool :=
  match c_op c with
  | Copy => copy_ok c h
  | ToString => text_ok c h
  | _ => true
  end.

(** [copy] and [toString] are called within these bounds wherever the sequence
    calls them. *)
Fixpoint calls_ok (calls : list call) (h : heap) : bool :=
  match calls with
  | c :: calls =>
      bounds_ok c h &&
      match run_call c h with
      | (Crash, _) | (Abort, _) => true
      | (_, h) => calls_ok calls h
      end
  | [] => true
  end.
End Calls.

(** ** The conversions of arguments *)

Section Safety.
Context (to_primitive : Z -> res prim) (string_to_number : string -> res prim).
Context (memcmp : list Z -> list Z -> Z).
Hypothesis host : host_ok to_primitive string_to_number.

Lemma number_case_range p z : prim_ok p -> number_case id float64_to_int64 p = Some z -> in_s 64 z.
Proof.
  assert (forall x, in_s 32 x -> in_s 64 x) as W.
  { unfold in_s. change (2 ^ (32 - 1)) with 2147483648. change (2 ^ (64 - 1)) with 9223372036854775808. lia. }
  destruct p; cbn; intros Hp [= <-]; unfold id; auto.
  - destruct b; (split; [discriminate | reflexivity]).
  - split; [discriminate | reflexivity].
  - split; [discriminate | reflexivity].
  - rewrite float64_to_int64_spec. unfold to_int_modulo. destruct (f64_isfinite u).
    + now apply sgn_range.
    + split; [discriminate | reflexivity].
Qed.

Lemma prim_number_ok p q flag :
  prim_ok p -> JS_ToNumberHint_prim string_to_number p flag = Ok q -> prim_ok q.
Proof.
  intros Hp. destruct p; cbn; try discriminate; try (intros [= <-]; cbn; done || (split; [discriminate | reflexivity])).
  - intros [= <-]. destruct b; (split; [discriminate | reflexivity]).
  - destruct flag; [discriminate|]. now intros [= <-].
  - destruct flag; [discriminate|]. now intros [= <-].
  - apply (host_number _ _ host).
Qed.

Lemma to_int64_range v z : value_ok v -> to_int64 to_primitive string_to_number v = Ok z -> in_s 64 z.
Proof.
  intros Hv0. assert (match v with Prim p => prim_ok p | _ => True end) as Hv by (destruct v as [[]|]; done).
  unfold to_int64, JS_ToInt64Free, convert.
  destruct (match v with Prim p => number_case id float64_to_int64 p | _ => None end) eqn:E.
  - intros [= <-]. destruct v; [|discriminate]. apply (number_case_range p); auto.
  - intros H. inv_res H. destruct (number_case id float64_to_int64 a) eqn:Ea; [|discriminate]. injection H as <-.
    apply (number_case_range a); [|done]. destruct v as [p|id]; cbn in H0.
    + now apply (prim_number_ok p _ TON_FLAG_NUMBER).
    + unfold JS_ToNumberFree, JS_ToNumberHintFree in H0. inv_res H0.
      apply (prim_number_ok a0 _ TON_FLAG_NUMBER); [|done]. now apply (host_primitive _ _ host id).
Qed.

Lemma to_int64_or_0_range v : value_ok v -> in_s 64 (to_int64_or_0 to_primitive string_to_number v).
Proof.
  intros Hv. unfold to_int64_or_0. destruct (to_int64 _ _ v) eqn:E.
  - now apply (to_int64_range v).
  - split; [discriminate | reflexivity].
Qed.

Lemma arg_ok argv k : Forall value_ok argv -> value_ok (arg argv k).
Proof.
  intros H. unfold arg. destruct (Nat.ltb_spec k (length argv)).
  - apply (proj1 (List.Forall_forall _ _) H). now apply nth_In.
  - rewrite nth_overflow by lia. done.
Qed.

Lemma opt_int64_range argv k x :
  Forall value_ok argv -> in_s 64 x -> in_s 64 (opt_int64 to_primitive string_to_number argv k x).
Proof. intros. unfold opt_int64. destruct (_ && _); [|done]. now apply to_int64_or_0_range, arg_ok. Qed.

Lemma num_int64_range argv k x :
  Forall value_ok argv -> in_s 64 x -> in_s 64 (num_int64 string_to_number argv k x).
Proof.
  intros Hv Hx. unfold num_int64. destruct (_ && _) eqn:E; [|done]. apply andb_true_iff in E as [_ E].
  pose proof (arg_ok argv k Hv) as Ha. destruct (arg argv k) as [p|id]; [|discriminate].
  unfold to_int64_or_0, to_int64, JS_ToInt64Free, convert.
  destruct (number_case id float64_to_int64 p) eqn:En; [|now destruct p].
  apply (number_case_range p); [now destruct p | done].
Qed.

(** ** Tactics: one step of a computation *)

Lemma keeps_same h : keeps h h.
Proof. split; eauto. Qed.

Lemma keeps_valid h h' p len : keeps h h' -> valid_ptr h p len -> valid_ptr h' p len.
Proof.
  intros K (data & Ea & H). destruct (keeps_arrays h h' K _ _ Ea) as (data' & Ea' & El).
  exists data'. now rewrite El.
Qed.

Lemma safe_store_into buf d bs h ab off len :
  JS_GetTypedArrayBuffer h buf = Some (mk_view ab off len) -> 0 <= d -> d + Z.of_nat (length bs) <= len -> bytes bs ->
  safe (store_into buf d bs) h.
Proof.
  intros E Hd Hl Hb. unfold store_into. apply safe_bind; [apply safe_get_bytes|].
  intros r h1 W _ E1. apply get_bytes_inv in E1 as [-> E1]; [|done].
  destruct r as [[p n]|]; [|apply safe_ret]. destruct E1 as [Hp Ep].
  rewrite E in Ep. injection Ep as -> -> ->. now apply (safe_write_mem _ _ _ _ n).
Qed.

Lemma in_s64 x : in_s 64 x <-> -9223372036854775808 <= x < 9223372036854775808.
Proof. reflexivity. Qed.

Lemma buffer_size_s64 x : 0 <= x <= INT32_MAX -> in_s 64 x.
Proof. rewrite in_s64. change INT32_MAX with 2147483647. lia. Qed.

Lemma u64_id x : 0 <= x < 18446744073709551616 -> u64 x = x.
Proof. intros. apply wrap_small. exact H. Qed.

Lemma valid_ptr_len h p len : valid_ptr h p len -> 0 <= len <= 2147483647.
Proof. now intros (data & _ & _ & H & _). Qed.

Lemma bytes_fill v n : bytes (replicate n (u8 v)).
Proof. apply Forall_replicate. now apply wrap_range. Qed.

End Safety.

(** ** User code *)

Section UserCode.
Context (to_primitive : Z -> heap -> res prim * heap) (string_to_number : string -> res prim).
Hypothesis user : user_code_ok to_primitive string_to_number.

Lemma to_primitive_ok v h :
  wf_heap h -> exists r h', JS_ToPrimitive to_primitive v h = (Return r, h') /\ wf_heap h' /\ keeps h h' /\
    (value_ok v -> host_ok (fun _ => r) string_to_number).
Proof.
  intros Hw. destruct v as [p|id]; cbn [JS_ToPrimitive].
  - exists (Ok p), h. split_and!; [done | done | apply keeps_same |]. intros Hv. split; [|apply (user_number _ _ user)].
    intros _ q [= <-]. now destruct p.
  - destruct (to_primitive id h) as [r h'] eqn:E. exists r, h'.
    destruct (user_heap _ _ user id h r h' Hw E). split_and!; [done..|]. split; [|apply (user_number _ _ user)].
    intros _ p ->. now apply (user_primitive _ _ user id h p h' Hw).
Qed.

Lemma ToInt64_ok v h :
  wf_heap h -> exists r h', JS_ToInt64 to_primitive string_to_number v h = (Return r, h') /\ wf_heap h' /\ keeps h h' /\
    (value_ok v -> forall z, r = Ok z -> in_s 64 z).
Proof.
  intros Hw. destruct (to_primitive_ok v h Hw) as (r & h' & E & Hw' & K & Hr). eexists _, h'. unfold JS_ToInt64.
  rewrite (bind_return _ _ _ _ _ E). split_and!; [reflexivity | done | done |]. intros Hv z Ez.
  now apply (to_int64_range _ _ (Hr Hv) v).
Qed.

Lemma ToInt64_or_0_ok v h :
  wf_heap h -> value_ok v -> exists z h', JS_ToInt64_or_0 to_primitive string_to_number v h = (Return z, h') /\ wf_heap h' /\ keeps h h' /\
    in_s 64 z.
Proof.
  intros Hw Hv. destruct (ToInt64_ok v h Hw) as (r & h' & E & Hw' & K & Hr). eexists _, h'. unfold JS_ToInt64_or_0.
  rewrite (bind_return _ _ _ _ _ E). split_and!; [reflexivity | done | done |].
  destruct r; [now apply Hr | split; [discriminate | reflexivity]].
Qed.

Lemma opt_int64_ok argv k x h :
  wf_heap h -> Forall value_ok argv -> in_s 64 x ->
  exists z h', JS_opt_int64 to_primitive string_to_number argv k x h = (Return z, h') /\ wf_heap h' /\ keeps h h' /\ in_s 64 z.
Proof.
  intros Hw Hv Hx. unfold JS_opt_int64. destruct (_ && _); [now apply ToInt64_or_0_ok, arg_ok|].
  exists x, h. split_and!; [done | done | apply keeps_same | done].
Qed.

Lemma ToInt32_ok v h :
  wf_heap h -> exists r h', JS_ToInt32 to_primitive string_to_number v h = (Return r, h') /\ wf_heap h' /\ keeps h h'.
Proof.
  intros Hw. destruct (to_primitive_ok v h Hw) as (r & h' & E & Hw' & K & _). eexists _, h'. unfold JS_ToInt32.
  rewrite (bind_return _ _ _ _ _ E). done.
Qed.
End UserCode.

Lemma safe_step {A B} (m : M A) (f : A -> M B) h a h' :
  m h = (Return a, h') -> wf_heap h' -> safe (f a) h' -> safe (bind m f) h.
Proof. intros E Hw Hs _. rewrite (bind_return _ _ _ _ _ E). now apply Hs. Qed.

Lemma safe_get_step {B} (f : heap -> M B) h : safe (f h) h -> safe (let! h := get in f h) h.
Proof. exact id. Qed.

Lemma safe_assoc {A B C} (m : M A) (f : A -> M B) (g : B -> M C) h :
  safe (bind m (fun x => bind (f x) g)) h -> safe (bind (bind m f) g) h.
Proof. unfold safe. now rewrite heap_bind_assoc. Qed.

Lemma zero64 : in_s 64 0.
Proof. split; [discriminate | reflexivity]. Qed.

(** Runs a conversion, [L] saying what it does, and carries the pointers over. *)
Ltac user_step L :=
  let E := fresh "E" in let K := fresh "K" in let z := fresh "n" in let h1 := fresh "h" in let W := fresh "W" in let R := fresh "R" in
  pose proof L as (z & h1 & E & W & K & R);
  apply (safe_step _ _ _ _ _ E W);
  repeat match goal with V : valid_ptr ?h ?p ?l |- _ =>
    lazymatch h with h1 => fail | _ => apply (keeps_valid h h1 p l K) in V end end.

(** Reduces bounds to arithmetic on literals. *)
Ltac bounds :=
  repeat match goal with
  | H : valid_ptr _ _ _ |- _ => apply valid_ptr_len in H
  | H : in_s 64 _ |- _ => rewrite in_s64 in H
  | |- in_s 64 _ => rewrite in_s64
  end; unfold INT32_MAX in *;
  change (2 ^ 31 - 1) with 2147483647 in *;
  repeat match goal with
  | H : context [u64 ?x] |- _ => rewrite (u64_id x) in H by lia
  | |- context [u64 ?x] => rewrite (u64_id x) by lia
  end; try lia.

Ltac safe_get :=
  apply safe_bind; [apply safe_get_bytes|];
  let r := fresh "r" in let h1 := fresh "h" in let E := fresh "E" in
  intros r h1 ? ? E; apply get_bytes_inv in E as [-> E]; [|assumption];
  destruct r as [[? ?]|]; [destruct E as [? ?] |].

(** Case analysis on the option that a computation matches on. *)
Tactic Notation "safe_case" ident(a) ident(E) :=
  match goal with |- safe (match ?x with _ => _ end) _ => destruct x as [a|] eqn:E end.

Ltac safe_read :=
  apply safe_bind;
  [eapply safe_read_mem; [eassumption|..] |
   let bs := fresh "bs" in let h1 := fresh "h" in let E := fresh "E" in
   intros bs h1 ? ? E; apply read_mem_inv in E as (-> & ? & ?); [|assumption]].

Ltac safe_new :=
  apply safe_bind;
  [apply safe_create |
   let buf := fresh "buf" in let h1 := fresh "h" in let E := fresh "E" in
   intros buf h1 ? ? E; apply create_valid in E as (? & ? & ? & ?); [| assumption |]];
  try solve [bounds].

(** ** The functions *)

Section Functions.
Context (to_primitive : Z -> heap -> res prim * heap) (string_to_number : string -> res prim).
Context (memcmp : list Z -> list Z -> Z).
Hypothesis user : user_code_ok to_primitive string_to_number.

Let opt_ok := opt_int64_ok to_primitive string_to_number user.

Lemma decoded_ok src enc bs :
  bytes src -> decoded src enc = Some bs -> bytes bs /\ Z.of_nat (length bs) <= Z.of_nat (length src) + 1.
Proof.
  intros Hb E. assert (forall out, b64_decode_loop (strip_pad src) = Some out -> bytes out /\ Z.of_nat (length out) <= Z.of_nat (length src) + 1) as Hd.
  { intros out Eo. apply b64_decode_loop_bound in Eo as [Eo ?]. pose proof (strip_pad_length src). split; [done | lia]. }
  destruct enc; cbn in E; try discriminate; try (injection E as <-; split; [done | lia]); auto.
  destruct (Z.eqb_spec (Z.of_nat (length src) mod 2) 0); cbn [negb] in E; [|discriminate].
  apply hex_decode_spec in E as (? & ? & ?); [split; [done | lia] | done].
Qed.

Lemma string_to_bytes_safe src enc :
  Z.of_nat (length src) < 2 ^ 61 -> js_buffer_string_to_bytes src enc <> Crash.
Proof. intros Hl. rewrite string_to_bytes_spec by done. now destruct (decoded src enc) as [[]|]. Qed.

(** The C string of an argument. *)
Lemma arg_c_string argv k s :
  Forall value_ok argv -> arg argv k = Prim (JS_TAG_STRING s) ->
  exists r, JS_ToCStringLen s = Return r /\ forall b, r = Some b -> bytes b /\ Z.of_nat (length b) <= 3221225469.
Proof.
  intros Hv Es. pose proof (arg_ok argv k Hv) as Hk. rewrite Es in Hk.
  destruct (string_to_c_ok (js_string s) (js_string_wf s) Hk) as (r & E & H). exists r. split; [done|].
  intros b ->. destruct H as (_ & Hb & Hl). split; [done|]. change (code_units (js_string s)) with (units s) in Hl.
  assert (Z.of_nat (length (units s)) <= 1073741823) by exact Hk. lia.
Qed.

Lemma arg_encoding_ok argv k : Forall value_ok argv -> exists enc, arg_encoding argv k = Return enc.
Proof.
  intros Hv. unfold arg_encoding. destruct (arg argv k) as [[]|] eqn:Es; eauto.
  destruct (arg_c_string argv k _ Hv Es) as (r & -> & _). cbn. eauto.
Qed.

Lemma safe_encoding {B} (b : bool) argv k (f : encoding -> M B) h :
  wf_heap h -> Forall value_ok argv -> (forall enc, safe (f enc) h) ->
  safe (let! enc := lift (if b then arg_encoding argv k else Return ENC_UTF8) in f enc) h.
Proof.
  intros Hw Hv Hf. destruct (arg_encoding_ok argv k Hv) as [enc E]. destruct b; [rewrite E|]; now apply (safe_step _ _ _ _ h eq_refl).
Qed.

Lemma safe_c_string {B} argv k s (f : option (list Z) -> M B) h :
  wf_heap h -> Forall value_ok argv -> arg argv k = Prim (JS_TAG_STRING s) ->
  (forall r, (forall b, r = Some b -> bytes b /\ Z.of_nat (length b) <= 3221225469) -> safe (f r) h) ->
  safe (let! str := lift (JS_ToCStringLen s) in f str) h.
Proof.
  intros Hw Hv Es Hf. destruct (arg_c_string argv k s Hv Es) as (r & E & H). rewrite E. now apply (safe_step _ _ _ _ h eq_refl), Hf.
Qed.

Lemma safe_decode {B} str enc (f : option (list Z) -> M B) h :
  bytes str -> Z.of_nat (length str) <= 3221225469 ->
  (forall r, (forall bs, r = Some bs -> bytes bs /\ 0 <= Z.of_nat (length bs) <= 4294967296) -> safe (f r) h) ->
  safe (let! bs := lift (js_buffer_string_to_bytes str enc) in f bs) h.
Proof.
  intros Hb Hl Hf. assert (Z.of_nat (length str) < 2 ^ 61) as Hl61 by (change (2 ^ 61) with 2305843009213693952; lia).
  apply safe_bind; [now apply safe_lift, string_to_bytes_safe|]. intros r h1 _ _ [-> E]%lift_inv. apply Hf.
  rewrite string_to_bytes_spec in E by done. intros bs ->.
  assert (decoded str enc = Some bs) as Ed by (destruct (decoded str enc) as [[]|]; congruence).
  destruct (decoded_ok str enc bs Hb Ed). split; [done | lia].
Qed.

Lemma safe_void {A} (m : M A) h : safe m h -> safe (void m) h.
Proof. intros H. apply safe_bind; [done | intros; apply safe_ret]. Qed.

Lemma safe_buffer_of_bytes bs h :
  bytes bs -> 0 <= Z.of_nat (length bs) <= 4294967296 -> wf_heap h -> safe (buffer_of_bytes bs) h.
Proof.
  intros Hb Hl Hw. unfold buffer_of_bytes. safe_new.
  apply safe_bind; [|intros; apply safe_ret].
  eapply safe_store_into; [eassumption | lia | lia | done].
Qed.

Lemma safe_store_elements v p i n h len :
  wf_heap h -> valid_ptr h p len -> 0 <= i -> i + Z.of_nat n <= len ->
  safe (store_elements to_primitive string_to_number v p i n) h.
Proof.
  revert i h. induction n as [|n IH]; intros i h Hw Hp Hi Hl; cbn [store_elements]; [apply safe_ret|].
  apply safe_get_step. cbv zeta. destruct (JS_IsUndefined _).
  { apply (safe_step _ _ _ _ h eq_refl); [done|]. apply IH; done || lia. }
  destruct (ToInt32_ok _ _ user (array_item h v i) h Hw) as (r & h1 & E & Hw1 & K). apply (keeps_valid h h1 p len K) in Hp.
  assert (forall h2, wf_heap h2 -> valid_ptr h2 p len -> safe (store_elements to_primitive string_to_number v p (i + 1) n) h2) as Hnext
    by (intros; apply IH; done || lia).
  destruct r as [b|e].
  - assert (safe (write_mem p i [u8 b]) h1) as Hs
      by (eapply safe_write_mem; [eassumption | lia | cbn; lia | apply (bytes_fill _ 1)]).
    apply safe_bind.
    + now apply (safe_step _ _ _ _ _ E Hw1).
    + intros u h2 _ Hw2 Eu. rewrite (bind_return _ _ _ _ _ E) in Eu. apply Hnext; [done|]. now apply (write_mem_valid _ _ _ _ _ _ _ _ Eu).
  - apply (safe_step _ _ _ tt h1); [now rewrite (bind_return _ _ _ _ _ E) | done | now apply Hnext].
Qed.

Lemma array_items_length h v items :
  wf_heap h -> array_items h v = Some items -> 0 <= Z.of_nat (length items) < 4294967296.
Proof.
  intros Hw. destruct v as [|id]; [discriminate|]. cbn [array_items].
  destruct (lists h !! id) as [l|] eqn:E; [intros [= <-]; pose proof (wf_lists h Hw id l E) as Hl; change (2 ^ 32) with 4294967296 in Hl; lia|].
  destruct (views h !! id) as [w|] eqn:Ev; [|discriminate]. intros [= <-]. rewrite length_map. clear Ev.
  destruct (view_bytes h (JS_TAG_OBJECT id)) as [bs|] eqn:Eb; cbn [default from_option length]; [|lia].
  unfold view_bytes in Eb. destruct (JS_GetTypedArrayBuffer h (JS_TAG_OBJECT id)) as [w'|] eqn:Et; [|discriminate].
  destruct (view_inv h _ w' Et) as (data & Ea & Hb & id' & [= <-] & Ev'). cbn in Eb.
  rewrite Ea in Eb. injection Eb as <-. unfold Datatypes.id. rewrite length_take.
  destruct (wf_views h Hw _ _ Ev'). change INT32_MAX with 2147483647 in *. lia.
Qed.

Lemma safe_from_object argv a0 h :
  wf_heap h -> Forall value_ok argv -> safe (from_object to_primitive string_to_number argv a0) h.
Proof.
  intros Hw Hv. apply safe_bind; [apply safe_get|]. intros ? h1 _ _ [= <- <-].
  destruct (JS_GetArrayBuffer h a0) as [[ab data]|] eqn:Ea.
  - assert (in_s 64 (Z.of_nat (length data))).
    { destruct a0 as [|id]; [discriminate|]. cbn in Ea. destruct (arrays h !! id) as [[d|]|] eqn:E; try discriminate.
      injection Ea as <- <-. apply (wf_size h Hw) in E. bounds. }
    cbv zeta. user_step (opt_ok argv 1 0 h Hw Hv zero64). user_step (opt_ok argv 2 (Z.of_nat (length data)) h0 W Hv H).
    destruct (_ || _); [apply safe_throw|]. now apply safe_view.
  - safe_get.
    + safe_new. assert (valid_ptr h0 p z) by auto. safe_read; [bounds..|].
      apply safe_bind; [|intros; apply safe_ret].
      eapply safe_store_into; [eassumption | lia | lia | done].
    + destruct (array_items h a0) as [elems|] eqn:El; [|apply safe_throw].
      pose proof (array_items_length h a0 elems Hw El). safe_new. safe_get.
      * apply safe_bind; [|intros; apply safe_ret]. replace z with (Z.of_nat (length elems)) in * by congruence.
        eapply safe_store_elements; [done | eassumption | lia | lia].
      * apply safe_bind; [apply safe_ret | intros; apply safe_ret].
Qed.

Lemma safe_from argv h : wf_heap h -> Forall value_ok argv -> safe (js_buffer_from to_primitive string_to_number argv) h.
Proof.
  intros Hw Hv. unfold js_buffer_from. destruct (length argv <? 1)%nat; [apply safe_throw|].
  destruct (arg argv 0) as [[]|] eqn:Es; try now apply safe_from_object.
  apply safe_encoding; [done..|]. intros enc. apply (safe_c_string argv 0); [done..|]. intros [str|] Hstr; [|apply safe_throw].
  destruct (Hstr str eq_refl). apply safe_decode; [done..|]. intros [bs|] Hbs; [|apply safe_throw].
  destruct (Hbs bs eq_refl). now apply safe_buffer_of_bytes.
Qed.

Lemma first_byte_ok argv k s r :
  Forall value_ok argv -> arg argv k = Prim (JS_TAG_STRING s) -> JS_ToCStringLen s = Return r -> byte (List.nth 0 (default [] r) 0).
Proof.
  intros Hv Es E. assert (byte 0) as B0 by (split; [discriminate | reflexivity]).
  destruct (arg_c_string argv k s Hv Es) as (r' & E' & Hr). rewrite E in E'. injection E' as <-.
  destruct r as [b|]; [|done]. destruct (Hr b eq_refl) as [Hb _]. destruct b as [|x b]; [done | now inversion Hb].
Qed.

Lemma fill_byte_ok argv k h :
  wf_heap h -> Forall value_ok argv ->
  exists b h', fill_byte to_primitive string_to_number (arg argv k) h = (Return b, h') /\ wf_heap h' /\ byte b.
Proof.
  intros Hw Hv. assert (forall v, exists b h', (let! r := JS_ToInt32 to_primitive string_to_number v in
    ret (match r with Ok v => u8 (Z.land v 255) | Throw _ => 0 end)) h = (Return b, h') /\ wf_heap h' /\ byte b) as Hi.
  { intros v. destruct (ToInt32_ok _ _ user v h Hw) as (r & h' & E & Hw' & _). eexists _, h'.
    rewrite (bind_return _ _ _ _ _ E). split_and!; [reflexivity | done |]. destruct r; [now apply wrap_range | split; [discriminate | reflexivity]]. }
  unfold fill_byte. destruct (arg argv k) as [[]|] eqn:Es; try apply Hi.
  destruct (arg_c_string argv k _ Hv Es) as (r & E & _). eexists _, h.
  rewrite (bind_return _ _ _ r h) by now rewrite E. split_and!; [reflexivity | done |]. now apply (first_byte_ok argv k _ r Hv Es).
Qed.

Lemma safe_alloc argv h : wf_heap h -> Forall value_ok argv -> safe (js_buffer_alloc to_primitive string_to_number argv) h.
Proof.
  intros Hw Hv. unfold js_buffer_alloc. destruct (length argv <? 1)%nat; [apply safe_throw|].
  user_step (ToInt64_ok _ _ user (arg argv 0) h Hw). destruct n as [size|]; [|apply safe_throw].
  assert (in_s 64 size) by (eapply R; [now apply arg_ok | reflexivity]).
  destruct (size <? 0); [apply safe_throw|]. safe_new.
  assert (exists b h2, (if (1 <? length argv)%nat && negb (JS_IsUndefined (arg argv 1))
      then fill_byte to_primitive string_to_number (arg argv 1) else ret 0) h1 = (Return b, h2) /\ wf_heap h2 /\ byte b) as (b & h2 & Eb & Hw2 & Hb).
  { destruct (_ && _); [now apply fill_byte_ok|]. exists 0, h1. split_and!; [done..|split; [discriminate | reflexivity]]. }
  apply (safe_step _ _ _ _ _ Eb Hw2). safe_get; (apply safe_bind; [|intros; apply safe_ret]); [|apply safe_ret].
  eapply safe_write_mem; [eassumption | lia | rewrite length_replicate; bounds |]. now apply Forall_replicate.
Qed.

Lemma safe_allocUnsafe argv h :
  wf_heap h -> Forall value_ok argv -> safe (js_buffer_allocUnsafe to_primitive string_to_number argv) h.
Proof.
  intros Hw Hv. unfold js_buffer_allocUnsafe. destruct (length argv <? 1)%nat; [apply safe_throw|].
  user_step (ToInt64_ok _ _ user (arg argv 0) h Hw). destruct n as [size|]; [|apply safe_throw].
  destruct (size <? 0); [apply safe_throw|]. apply safe_create. eapply R; [now apply arg_ok | reflexivity].
Qed.

Lemma concat_total_bound h items :
  wf_heap h -> 0 <= concat_total h items <= Z.of_nat (length items) * 2147483647.
Proof.
  intros Hw. induction items as [|v items IH]; cbn [concat_total length]; [lia|].
  destruct (JS_GetTypedArrayBuffer h v) as [w|] eqn:E; [|lia].
  destruct (view_inv h v w E) as (data & _ & _ & id & _ & Ev). destruct (wf_views h Hw _ _ Ev) as [_ Hl].
  change INT32_MAX with 2147483647 in Hl. lia.
Qed.

Lemma safe_concat_loop dst items offset total h :
  wf_heap h -> (forall p, dst = Some p -> valid_ptr h p total) -> 0 <= offset <= total -> total <= INT32_MAX ->
  safe (concat_loop dst items offset total) h.
Proof.
  revert offset h. induction items as [|v items IH]; intros offset h Hw Hp Ho Ht; cbn [concat_loop]; [apply safe_ret|].
  destruct (Z.ltb_spec offset total); [|apply safe_ret]. safe_get; [|now apply IH].
  destruct dst as [q|]; [|now apply IH]. pose proof (Hp q eq_refl) as Hq. cbv zeta.
  assert (0 <= (if u64 (offset + z) <=? total then z else total - offset) <= z /\
          offset + (if u64 (offset + z) <=? total then z else total - offset) <= total) as Hc.
  { match goal with H : valid_ptr _ p z |- _ => pose proof (valid_ptr_len _ _ _ H) end. bounds. zcases. }
  set (to_copy := if u64 (offset + z) <=? total then z else total - offset) in *.
  safe_read; [lia..|]. apply safe_bind.
  - eapply safe_write_mem; [eassumption | lia | lia | done].
  - intros ? h2 _ Hw2 E2. apply IH; [done | | lia | done]. intros p' [= <-].
    now apply (write_mem_valid _ _ _ _ _ _ _ _ E2).
Qed.

Lemma array_length_bound argv h :
  wf_heap h -> Forall value_ok argv -> Z.of_nat (array_length h (arg argv 0)) < 4294967296.
Proof.
  intros Hw Hv. pose proof (arg_ok argv 0 Hv) as Ha.
  assert (Z.of_nat (length (default [] (array_items h (arg argv 0)))) < 4294967296) as Hi.
  { destruct (array_items h (arg argv 0)) as [items|] eqn:E; cbn [default from_option length]; [|lia].
    now apply (array_items_length h (arg argv 0)). }
  unfold array_length. destruct (arg argv 0) as [[]|]; try exact Hi.
  assert (Z.of_nat (length (units s)) <= 1073741823) by exact Ha. lia.
Qed.

Lemma safe_concat argv h : wf_heap h -> Forall value_ok argv -> safe (js_buffer_concat to_primitive string_to_number argv) h.
Proof.
  intros Hw Hv. unfold js_buffer_concat. destruct (_ <? _)%nat; [apply safe_throw|].
  apply safe_get_step. cbv zeta. pose proof (array_length_bound argv h Hw Hv) as Hn.
  set (count := array_length h (arg argv 0)) in *. destruct (_ =? _)%nat; [apply safe_create, zero64|].
  user_step (opt_ok argv 1 (-1) h Hw Hv ltac:(split; [discriminate | reflexivity])).
  apply safe_get_step. set (items := map _ (seq 0 count)).
  assert (length items = count) as Hi by (unfold items; now rewrite length_map, length_seq).
  pose proof (concat_total_bound h0 items W) as Ht. set (total := if n <? 0 then concat_total h0 items else n).
  assert (in_s 64 total) as Hs by (unfold total; destruct (n <? 0); [bounds | done]).
  safe_new. safe_get; (apply safe_bind; [|intros; apply safe_ret]).
  - apply safe_concat_loop; [done | | lia | lia]. intros q [= <-].
    match goal with V : valid_ptr _ _ ?z |- valid_ptr _ _ total => replace z with total in * by congruence end. done.
  - apply safe_concat_loop; [done | discriminate | lia | lia].
Qed.

Lemma safe_byteLength argv h : wf_heap h -> Forall value_ok argv -> safe (js_buffer_byteLength argv) h.
Proof.
  intros Hw Hv. unfold js_buffer_byteLength. destruct (_ <? _)%nat; [apply safe_throw|].
  apply safe_get_step.
  destruct (JS_GetTypedArrayBuffer _ _); [apply safe_ret|].
  destruct (JS_GetArrayBuffer _ _) as [[]|]; [apply safe_ret|].
  destruct (arg argv 0) as [[]|] eqn:Es; try apply safe_throw.
  apply safe_encoding; [done..|]. intros enc. apply (safe_c_string argv 0); [done..|]. intros [str|] Hstr; [|apply safe_throw].
  destruct (Hstr str eq_refl).
  destruct enc; try apply safe_ret; (apply safe_decode; [done..|]; intros [bs|] _; [apply safe_ret | apply safe_throw]).
Qed.

Lemma safe_compare b1 b2 h : wf_heap h -> safe (compare_buffers memcmp b1 b2) h.
Proof.
  intros Hw. unfold compare_buffers. safe_get; [|safe_get; apply safe_throw]. safe_get; [|apply safe_throw].
  cbv zeta. assert (forall x y, 0 <= x -> 0 <= y -> 0 <= (if x <? y then x else y) <= x /\ (if x <? y then x else y) <= y) as Hm
    by (intros; zcases).
  repeat match goal with H : valid_ptr _ _ ?z |- _ => pose proof (valid_ptr_len _ _ _ H); revert H end. intros.
  destruct (Hm z z0); [lia..|]. safe_read; [lia..|]. safe_read; [lia..|]. apply safe_ret.
Qed.

Lemma safe_equals this argv h : wf_heap h -> safe (js_buffer_equals memcmp this argv) h.
Proof.
  intros Hw. unfold js_buffer_equals. destruct (_ <? _)%nat; [apply safe_ret|].
  safe_get; [|safe_get; apply safe_ret]. safe_get; [|apply safe_ret].
  destruct (Z.eqb_spec z z0) as [->|]; [|apply safe_ret].
  safe_read; [bounds..|]. safe_read; [bounds..|]. apply safe_ret.
Qed.

Lemma text_chars l : Forall text_char l -> bytes l.
Proof. intros H. eapply Forall_impl; [exact H|]. intros c [_ ?]. unfold byte, in_u. change (2 ^ 8) with 256. lia. Qed.

Lemma bytes_to_string_safe bs enc :
  bytes bs -> Z.of_nat (length bs) <= JS_STRING_LEN_MAX -> js_buffer_bytes_to_string bs enc <> Crash.
Proof.
  intros Hb Hl. assert (encodes_text enc -> js_buffer_bytes_to_string bs enc <> Crash) as He.
  { intros He. rewrite bytes_to_string_text, new_string_text by (done || apply encoded_text). now destruct (_ <? _). }
  destruct (new_string_ok bs Hb Hl) as (p & E & _).
  destruct enc; try (apply He; unfold encodes_text; auto; done); cbn [js_buffer_bytes_to_string]; congruence.
Qed.

(** On a buffer that is no longer than a string. *)
Lemma safe_toString this argv h :
  wf_heap h -> Forall value_ok argv -> text_ok (mk_call ToString this argv) h = true ->
  safe (js_buffer_toString to_primitive string_to_number this argv) h.
Proof.
  intros Hw Hv Ht. unfold js_buffer_toString. apply safe_encoding; [done..|]. intros enc. safe_get; [|apply safe_throw].
  unfold text_ok in Ht. cbn [c_this] in Ht.
  match goal with E : JS_GetTypedArrayBuffer _ _ = Some _ |- _ => rewrite E in Ht end. cbn [v_len] in Ht. apply Z.leb_le in Ht.
  match goal with V : valid_ptr _ _ z |- _ => pose proof (valid_ptr_len _ _ _ V) end.
  user_step (opt_ok argv 1 0 h Hw Hv zero64).
  user_step (opt_ok argv 2 z h0 W Hv ltac:(apply in_s64; lia)). cbv zeta.
  destruct (Z.leb_spec (if z <? n0 then z else n0) (if n <? 0 then 0 else n)) as [|Hlt]; [now apply safe_lift|].
  safe_read; [revert Hlt; zcases..|]. apply safe_lift, bytes_to_string_safe; [done|]. revert Hlt. zcases.
Qed.

Lemma safe_toJSON this h : wf_heap h -> safe (js_buffer_toJSON this) h.
Proof.
  intros Hw. unfold js_buffer_toJSON. safe_get; [|apply safe_throw].
  eapply safe_read_mem; [eassumption | bounds..].
Qed.

Lemma clamp_window_bounds start end_ len s e :
  in_s 64 start -> in_s 64 end_ -> 0 <= len <= 2147483647 -> clamp_window start end_ len = Some (s, e) ->
  0 <= s < e /\ e <= len.
Proof.
  rewrite !in_s64. intros Hs He Hl. unfold clamp_window.
  assert (forall x, x < 0 -> -9223372036854775808 <= x -> i64 (x + len) = x + len) as Hi
    by (intros; apply sgn_small; [lia | apply in_s64; lia]).
  assert ((if start <? 0 then i64 (start + len) else start) = if start <? 0 then start + len else start) as ->
    by (zcases; apply Hi; lia).
  assert ((if end_ <? 0 then i64 (end_ + len) else end_) = if end_ <? 0 then end_ + len else end_) as ->
    by (zcases; apply Hi; lia).
  destruct (Z.leb_spec (if len <? (if end_ <? 0 then end_ + len else end_) then len else (if end_ <? 0 then end_ + len else end_))
    (if (if start <? 0 then start + len else start) <? 0 then 0 else (if start <? 0 then start + len else start))) as [|Hlt];
    [discriminate|].
  intros [= <- <-]. revert Hlt. zcases.
Qed.

Lemma safe_slice this argv h :
  wf_heap h -> Forall value_ok argv -> safe (js_buffer_slice to_primitive string_to_number this argv) h.
Proof.
  intros Hw Hv. unfold js_buffer_slice. safe_get; [|apply safe_throw].
  match goal with V : valid_ptr _ _ z |- _ => pose proof (valid_ptr_len _ _ _ V) end.
  assert (exists start h1, (if (1 <=? length argv)%nat && negb (JS_IsUndefined (arg argv 1))
      then JS_ToInt64_or_0 to_primitive string_to_number (arg argv 0) else ret 0) h = (Return start, h1) /\ wf_heap h1 /\ keeps h h1 /\
      in_s 64 start) as Hstart.
  { destruct (_ && _); [now apply ToInt64_or_0_ok, arg_ok|]. exists 0, h. split_and!; [done | done | apply keeps_same | apply zero64]. }
  user_step Hstart. user_step (opt_ok argv 1 z h0 W Hv ltac:(apply in_s64; lia)).
  destruct (clamp_window _ _ z) as [[s e]|] eqn:Ec; [|apply safe_create, zero64].
  apply clamp_window_bounds in Ec as [Hs He]; [|done..]. safe_new.
  match goal with Hk : forall q len, valid_ptr h1 q len -> _ , V : valid_ptr h1 p z |- _ => apply Hk in V end.
  safe_read; [lia..|]. apply safe_bind; [|intros; apply safe_ret]. eapply safe_store_into; [eassumption | lia | lia | done].
Qed.

Lemma safe_subarray this argv h :
  wf_heap h -> Forall value_ok argv -> safe (js_buffer_subarray to_primitive string_to_number this argv) h.
Proof.
  intros Hw Hv. unfold js_buffer_subarray. apply safe_get_step.
  destruct (JS_GetTypedArrayBuffer h this) as [w|] eqn:Ew; [|apply safe_throw].
  destruct (view_inv h _ w Ew) as (data & Ea & Hb & id & _ & Evw). destruct (wf_views h Hw _ _ Evw) as [H1 H2].
  pose proof (wf_size h Hw _ _ Ea). change INT32_MAX with 2147483647 in *.
  user_step (opt_ok argv 0 0 h Hw Hv zero64). user_step (opt_ok argv 1 (v_len w) h0 W Hv ltac:(apply in_s64; lia)).
  destruct (clamp_window _ _ _) as [[s e]|] eqn:Ec; [|apply safe_create, zero64].
  apply clamp_window_bounds in Ec as [Hs He]; [|done..]. apply safe_view; bounds.
Qed.

Lemma safe_write_bytes this argv bs h :
  wf_heap h -> Forall value_ok argv -> bytes bs -> 0 <= Z.of_nat (length bs) <= 4294967296 ->
  safe (write_bytes to_primitive string_to_number this argv bs) h.
Proof.
  intros Hw Hv Hb Hn. unfold write_bytes. cbv zeta. safe_get; [|apply safe_throw].
  set (m := Z.of_nat (length bs)) in *.
  match goal with V : valid_ptr _ _ z |- _ => pose proof (valid_ptr_len _ _ _ V) end.
  user_step (opt_ok argv 1 0 h Hw Hv zero64). user_step (opt_ok argv 2 m h0 W Hv ltac:(apply in_s64; lia)).
  destruct (Z.ltb_spec n 0); cbn [orb]; [apply safe_ret|]. destruct (Z.leb_spec z n); [apply safe_ret|].
  assert (0 <= u64 n0) as Hl by now apply wrap_range.
  assert (0 <= (if u64 n0 <? m then u64 n0 else m) <= m) as Ht by zcases.
  set (to_write := if u64 n0 <? m then u64 n0 else m) in *. rewrite (u64_id (n + to_write)) by lia.
  apply safe_bind; [|intros; apply safe_ret].
  eapply safe_write_mem; [eassumption | lia | | now apply Forall_take]. rewrite length_take.
  destruct (Z.ltb_spec z (n + to_write)); lia.
Qed.

Lemma safe_write this argv h :
  wf_heap h -> Forall value_ok argv -> safe (js_buffer_write to_primitive string_to_number this argv) h.
Proof.
  intros Hw Hv. unfold js_buffer_write. destruct (arg argv 0) as [[]|] eqn:Es; try apply safe_throw.
  apply safe_encoding; [done..|]. intros enc. apply (safe_c_string argv 0); [done..|]. intros [str|] Hstr; [|apply safe_throw].
  destruct (Hstr str eq_refl). apply safe_decode; [done..|]. intros [bs|] Hbs; [|apply safe_throw].
  destruct (Hbs bs eq_refl). now apply safe_write_bytes.
Qed.

Lemma fill_value_ok argv k : Forall value_ok argv -> exists b, fill_value string_to_number (arg argv k) = Return b /\ byte b.
Proof.
  intros Hv. assert (byte 0) as B0 by (split; [discriminate | reflexivity]).
  assert (forall v, exists b, (Return (if JS_IsNumber v then u8 (Z.land (to_int32_or_0 no_user_code string_to_number v) 255) else 0)
      : outcome Z) = Return b /\ byte b) as Hi.
  { intros v. eexists. split; [reflexivity|]. destruct (JS_IsNumber v); [now apply wrap_range | done]. }
  unfold fill_value. destruct (arg argv k) as [[]|] eqn:Es; try apply Hi.
  destruct (arg_c_string argv k _ Hv Es) as (r & E & _). rewrite E. cbn [outcome_bind]. eexists. split; [reflexivity|].
  now apply (first_byte_ok argv k _ r Hv Es).
Qed.

Lemma safe_fill this argv h : wf_heap h -> Forall value_ok argv -> safe (js_buffer_fill string_to_number this argv) h.
Proof.
  intros Hw Hv. unfold js_buffer_fill. destruct (_ <? _)%nat; [apply safe_throw|]. safe_get; [|apply safe_throw].
  destruct (fill_value_ok argv 0 Hv) as (b & -> & Hb). apply (safe_step _ _ _ b h); [done..|]. cbv zeta.
  set (start := num_int64 _ argv 1 0). set (end_ := num_int64 _ argv 2 z).
  match goal with V : valid_ptr _ _ z |- _ => pose proof (valid_ptr_len _ _ _ V) end.
  apply safe_bind; [|intros; apply safe_ret].
  destruct (Z.ltb_spec (if start <? 0 then 0 else start) (if z <? end_ then z else end_)) as [Hlt|]; [|apply safe_ret].
  eapply safe_write_mem; [eassumption | revert Hlt; zcases | rewrite length_replicate; revert Hlt; zcases |].
  now apply Forall_replicate.
Qed.

(** The part of [copy] that moves the bytes. *)
Lemma safe_move src src_len tgt tgt_len ts ss se h :
  wf_heap h -> valid_ptr h src src_len -> valid_ptr h tgt tgt_len ->
  Z.max 0 ss <= Z.min src_len se -> ts <= tgt_len -> in_s 64 ts ->
  let src_start := if ss <? 0 then 0 else ss in
  let src_end := if src_len <? se then src_len else se in
  let tgt_start := if ts <? 0 then 0 else ts in
  let copy_len := u64 (src_end - src_start) in
  let copy_len := if tgt_len <? u64 (tgt_start + copy_len) then u64 (tgt_len - tgt_start) else copy_len in
  safe (if 0 <? copy_len then let! bs := read_mem src src_start copy_len in write_mem tgt tgt_start bs else ret tt) h.
Proof.
  intros Hw Hs Ht Hc1 Hc2 R. cbv zeta. rewrite in_s64 in R.
  pose proof (valid_ptr_len _ _ _ Hs). pose proof (valid_ptr_len _ _ _ Ht).
  assert ((if ss <? 0 then 0 else ss) = Z.max 0 ss) as -> by zcases.
  assert ((if src_len <? se then src_len else se) = Z.min src_len se) as -> by zcases.
  assert ((if ts <? 0 then 0 else ts) = Z.max 0 ts) as -> by zcases.
  rewrite !(u64_id (Z.min src_len se - Z.max 0 ss)) by lia.
  rewrite (u64_id (Z.max 0 ts + _)), (u64_id (tgt_len - _)) by lia.
  set (n := if tgt_len <? _ then _ else _).
  assert (0 <= n <= Z.min src_len se - Z.max 0 ss /\ Z.max 0 ts + n <= tgt_len) by (unfold n; zcases).
  destruct (0 <? n); [|apply safe_ret].
  safe_read; [lia..|]. eapply safe_write_mem; [eassumption | lia | lia | done].
Qed.

(** [copy] within its bounds. *)
Lemma safe_copy this argv h :
  wf_heap h -> Forall value_ok argv -> copy_ok to_primitive string_to_number (mk_call Copy this argv) h = true ->
  safe (js_buffer_copy to_primitive string_to_number this argv) h.
Proof.
  intros Hw Hv Hc. unfold js_buffer_copy. destruct (_ <? _)%nat; [apply safe_throw|].
  safe_get; [|safe_get; apply safe_throw]. safe_get; [|apply safe_throw].
  unfold copy_ok in Hc. cbn [c_argv c_this] in Hc.
  repeat match goal with E : JS_GetTypedArrayBuffer _ _ = Some _ |- _ => rewrite E in Hc end. cbn [v_len] in Hc.
  match goal with V : valid_ptr _ _ z |- _ => pose proof (valid_ptr_len _ _ _ V) end.
  user_step (opt_ok argv 1 0 h Hw Hv zero64). user_step (opt_ok argv 2 0 h0 W Hv zero64).
  user_step (opt_ok argv 3 z h1 W0 Hv ltac:(apply in_s64; lia)).
  repeat match goal with E : JS_opt_int64 _ _ _ _ _ _ = _ |- _ => rewrite (bind_return _ _ _ _ _ E) in Hc; clear E end.
  cbn [ret] in Hc. apply andb_true_iff in Hc as [Hc1 Hc2]. apply Z.leb_le in Hc1, Hc2.
  cbv zeta. apply safe_bind; [|intros; apply safe_ret]. now apply safe_move.
Qed.

Lemma safe_find_byte p len byte i fuel h :
  wf_heap h -> valid_ptr h p len -> 0 <= i -> safe (find_byte p len byte i fuel) h.
Proof.
  revert i. induction fuel as [|fuel IH]; intros i Hw Hp Hi; cbn [find_byte]; [apply safe_ret|].
  destruct (Z.ltb_spec i len); [|apply safe_ret]. safe_read; [lia..|].
  destruct (_ =? _); [apply safe_ret | apply IH; done || lia].
Qed.

Lemma safe_find_bytes p len needle i fuel h :
  wf_heap h -> valid_ptr h p len -> 0 <= i < 9223372036854775808 -> 0 < Z.of_nat (length needle) <= 4294967296 ->
  safe (find_bytes memcmp p len needle i fuel) h.
Proof.
  revert i. induction fuel as [|fuel IH]; intros i Hw Hp Hi Hn; cbn [find_bytes]; [apply safe_ret|]. cbv zeta.
  pose proof (valid_ptr_len _ _ _ Hp). rewrite u64_id by lia.
  destruct (Z.leb_spec (i + Z.of_nat (length needle)) len); [|apply safe_ret]. safe_read; [lia..|].
  destruct (_ =? _); [|apply IH; done || lia]. safe_read; [lia..|].
  destruct (_ =? _); [apply safe_ret | apply IH; done || lia].
Qed.

(** The needle is safe to find; it is the only thing that is. *)
Lemma find_needle_ok {B} argv (f : option (list Z) -> M B) h :
  wf_heap h -> Forall value_ok argv ->
  (forall r, (forall bs, r = Some bs -> 0 <= Z.of_nat (length bs) <= 4294967296) -> safe (f r) h) ->
  safe (let! needle := find_needle argv in f needle) h.
Proof.
  intros Hw Hv Hf. unfold find_needle.
  assert (forall v, safe (let! needle := (let! q := js_buffer_get_bytes v in
      match q with Some (q, len) => let! bs := read_mem q 0 len in ret (Some bs) | None => ret None end) in f needle) h) as Ho.
  { intros v. apply safe_assoc. safe_get; [|now apply (safe_step _ _ _ _ h eq_refl), Hf]. apply safe_assoc.
    safe_read; [bounds..|]. apply (safe_step _ _ _ _ h eq_refl); [done|]. apply Hf. intros b [= <-]. bounds. }
  destruct (arg argv 0) as [[]|] eqn:Es; try apply Ho.
  apply safe_assoc. apply safe_encoding; [done..|]. intros enc. apply safe_assoc. apply (safe_c_string argv 0); [done..|].
  intros str Hstr. apply safe_decode.
  - destruct str as [b|]; [now apply (Hstr b) | constructor].
  - destruct str as [b|]; [now apply (Hstr b) | cbn; lia].
  - intros r Hr. apply Hf. intros bs E. now apply Hr.
Qed.

Lemma safe_indexOf this argv h :
  wf_heap h -> Forall value_ok argv -> safe (js_buffer_indexOf string_to_number memcmp this argv) h.
Proof.
  intros Hw Hv. unfold js_buffer_indexOf. destruct (_ <? _)%nat; [apply safe_ret|]. safe_get; [|apply safe_ret].
  cbv zeta. pose proof (num_int64_range string_to_number argv 1 0 Hv zero64) as Ho.
  rewrite in_s64 in Ho. set (offset := num_int64 _ argv 1 0) in *.
  assert (0 <= (if offset <? 0 then 0 else offset) < 9223372036854775808) as Hi by zcases.
  set (i := if offset <? 0 then 0 else offset) in *.
  destruct (JS_IsNumber (arg argv 0)); [now apply safe_find_byte|].
  apply find_needle_ok; [done..|]. intros [needle|] E; [|apply safe_ret]. pose proof (E needle eq_refl) as Hl.
  destruct (Nat.eqb_spec (length needle) 0); [apply safe_ret|].
  destruct (_ <=? _); [apply safe_find_bytes; done || lia | apply safe_ret].
Qed.

Lemma safe_includes this argv h :
  wf_heap h -> Forall value_ok argv -> safe (js_buffer_includes string_to_number memcmp this argv) h.
Proof. intros Hw Hv. apply safe_bind; [now apply safe_indexOf | intros; apply safe_ret]. Qed.

Lemma safe_swap_bytes p i j len h :
  wf_heap h -> valid_ptr h p len -> 0 <= i < len -> 0 <= j < len -> safe (swap_bytes p i j) h.
Proof.
  intros Hw Hp Hi Hj. unfold swap_bytes. safe_read; [lia..|]. safe_read; [lia..|]. apply safe_bind.
  - eapply safe_write_mem; [eassumption | lia | lia | done].
  - intros ? h1 _ Hw1 E. eapply safe_write_mem; [exact (write_mem_valid _ _ _ _ _ _ _ _ E Hp) | lia | lia | done].
Qed.

Lemma swap_bytes_valid p i j h u h' q len :
  wf_heap h -> swap_bytes p i j h = (Return u, h') -> valid_ptr h q len -> valid_ptr h' q len.
Proof.
  intros Hw E Hq. unfold swap_bytes, bind in E.
  destruct (read_mem p i 1 h) as [[b| | |] h1] eqn:E1; try discriminate. apply read_mem_inv in E1 as (-> & _); [|done].
  destruct (read_mem p j 1 h) as [[b'| | |] h2] eqn:E2; try discriminate. apply read_mem_inv in E2 as (-> & _); [|done].
  destruct (write_mem p i b' h) as [[[]| | |] h3] eqn:E3; try discriminate.
  eapply write_mem_valid; [exact E|]. eapply write_mem_valid; [exact E3 | done].
Qed.

Lemma safe_swap_element p size i j n len h :
  wf_heap h -> valid_ptr h p len -> 0 <= i -> i + size <= len -> 0 <= j -> j + Z.of_nat n <= size ->
  safe (swap_element p size i j n) h /\
  forall u h', swap_element p size i j n h = (Return u, h') -> valid_ptr h' p len.
Proof.
  revert j h. induction n as [|n IH]; intros j h Hw Hp Hi Hs Hj Hn; cbn [swap_element].
  { split; [apply safe_ret | now intros u h' [= _ <-]]. }
  pose proof (safe_swap_bytes p (i + j) (i + size - 1 - j) len h Hw Hp ltac:(lia) ltac:(lia)) as Hb.
  split.
  - apply safe_bind; [done|]. intros u h1 _ Hw1 E. apply IH; try done; try lia.
    now apply (swap_bytes_valid _ _ _ _ _ _ _ _ Hw E).
  - intros u h' E. unfold bind in E. destruct (Hb Hw) as [_ Hw1].
    destruct (swap_bytes _ _ _ h) as [[v| | |] h1] eqn:E1; try discriminate. cbn in Hw1.
    eapply IH; [exact Hw1 | | | | | | exact E]; try lia. now apply (swap_bytes_valid _ _ _ _ _ _ _ _ Hw E1).
Qed.

Lemma safe_swap_loop p size len i fuel h :
  wf_heap h -> valid_ptr h p len -> 0 < size -> 0 <= i -> (size | len - i) ->
  safe (swap_loop p size len i fuel) h.
Proof.
  revert i h. induction fuel as [|fuel IH]; intros i h Hw Hp Hs Hi Hd; cbn [swap_loop]; [apply safe_ret|].
  destruct (Z.ltb_spec i len); [|apply safe_ret].
  assert (i + size <= len) by (apply Z.divide_pos_le in Hd; lia).
  assert (Z.of_nat (Z.to_nat (size / 2)) <= size) by (pose proof (Z.div_pos size 2); pose proof (Z.div_le_upper_bound size 2 size); lia).
  destruct (safe_swap_element p size i 0 (Z.to_nat (size / 2)) len h) as [Hsafe Hval]; try done; try lia.
  apply safe_bind; [done|]. intros u h1 _ Hw1 E. apply IH; [done | now apply (Hval u) | done | lia |].
  replace (len - (i + size)) with ((len - i) - 1 * size) by lia.
  apply Z.divide_sub_r; [done | apply Z.divide_factor_r].
Qed.

Lemma safe_swap this size h : wf_heap h -> 0 < size -> safe (js_buffer_swap this size) h.
Proof.
  intros Hw Hs. unfold js_buffer_swap. safe_get; [|apply safe_throw].
  destruct (Z.eqb_spec (z mod size) 0) as [Hd|]; cbn [negb]; [|apply safe_throw].
  apply safe_bind; [|intros; apply safe_ret]. apply safe_swap_loop; try done.
  rewrite Z.sub_0_r. apply Z.mod_divide; [lia | done].
Qed.

(** The guard of the fixed-width accesses. *)
Lemma width_guard offset n len :
  in_s 64 offset -> 0 < n <= 8 -> 0 <= len <= 2147483647 ->
  (offset <? 0) || (len <? u64 (offset + n)) = false -> 0 <= offset /\ offset + n <= len.
Proof.
  rewrite in_s64. intros Ho Hn Hl H. apply orb_false_iff in H as [H1 H2].
  apply Z.ltb_ge in H1. rewrite u64_id in H2 by lia. apply Z.ltb_ge in H2. lia.
Qed.

Lemma width_bytes bits : bits = 8 \/ bits = 16 \/ bits = 32 -> 0 < bits / 8 <= 8.
Proof. intros [->|[->| ->]]; now vm_compute. Qed.

Lemma safe_readUInt this argv bits be h :
  wf_heap h -> Forall value_ok argv -> bits = 8 \/ bits = 16 \/ bits = 32 ->
  safe (js_buffer_readUInt to_primitive string_to_number this argv bits be) h.
Proof.
  intros Hw Hv Hb. unfold js_buffer_readUInt. safe_get; [|apply safe_throw].
  user_step (opt_ok argv 0 0 h Hw Hv zero64). cbv zeta.
  destruct (_ || _) eqn:Eg; [apply safe_throw|]. apply width_guard in Eg as [? ?]; [|done | now apply width_bytes | bounds].
  apply width_bytes in Hb. safe_read; [lia..|]. apply safe_ret.
Qed.

Lemma le_bytes_ok n v : bytes (le_bytes n v) /\ length (le_bytes n v) = n.
Proof.
  revert v. induction n as [|n IH]; intros v; cbn [le_bytes length]; [split; [constructor | done]|].
  destruct (IH (Z.shiftr v 8)) as [? ->]. split; [constructor; [now apply wrap_range | done] | done].
Qed.

Lemma safe_writeUInt this argv bits be h :
  wf_heap h -> Forall value_ok argv -> bits = 8 \/ bits = 16 \/ bits = 32 ->
  safe (js_buffer_writeUInt to_primitive string_to_number this argv bits be) h.
Proof.
  intros Hw Hv Hb. unfold js_buffer_writeUInt. safe_get; [|apply safe_throw].
  destruct (_ <? _)%nat; [apply safe_throw|].
  user_step (ToInt64_or_0_ok _ _ user (arg argv 0) h Hw (arg_ok argv 0 Hv)).
  user_step (ToInt64_or_0_ok _ _ user (arg argv 1) h0 W (arg_ok argv 1 Hv)). cbv zeta.
  destruct (_ || _) eqn:Eg; [apply safe_throw|]. apply width_guard in Eg as [? ?]; [|done | now apply width_bytes | bounds].
  apply width_bytes in Hb. apply safe_bind; [|intros; apply safe_ret].
  set (v := u64 _). destruct (le_bytes_ok (Z.to_nat (bits / 8)) v) as [Hbs Hbl].
  eapply safe_write_mem; [eassumption | lia | destruct be; rewrite ?length_rev, Hbl; lia |].
  destruct be; [now apply Forall_rev | done].
Qed.

Lemma table_operation name length op :
  In (name, length, op) (buffer_prototype ++ buffer_ctor) ->
  match op with
  | Swap n => 0 < n
  | ReadUInt bits _ | WriteUInt bits _ => bits = 8 \/ bits = 16 \/ bits = 32
  | _ => True
  end.
Proof.
  intros H. cbn in H. repeat destruct H as [H|H]; try contradiction;
    injection H as <- <- <-; auto; now vm_compute.
Qed.

Lemma safe_call c h :
  wf_heap h -> call_ok c -> bounds_ok to_primitive string_to_number c h = true ->
  safe (run_call to_primitive string_to_number memcmp c) h.
Proof.
  intros Hw [(name & len & Ht) Hv] Hc. apply table_operation in Ht.
  destruct c as [op this argv]. cbn [c_op c_argv] in *. unfold run_call, bounds_ok in *. cbn [c_op c_this c_argv] in *.
  destruct op; apply safe_void;
    auto using safe_from, safe_alloc, safe_allocUnsafe, safe_concat, safe_byteLength, safe_toString, safe_slice,
      safe_subarray, safe_write, safe_fill, safe_copy, safe_equals, safe_indexOf, safe_includes, safe_toJSON,
      safe_swap, safe_readUInt, safe_writeUInt.
  - unfold js_buffer_compare_static. destruct (_ <? _)%nat; [apply safe_throw | now apply safe_compare].
  - unfold js_buffer_compare_inst. destruct (_ <? _)%nat; [apply safe_throw | now apply safe_compare].
Qed.

(** C11: memory safety of the buffer module: whatever sequence of its functions
    a program calls, with whatever arguments (negative, fractional or huge
    offsets, detached buffers, foreign objects, objects whose conversion runs user
    code that calls these functions again), no access leaves the live byte arrays
    and the heap stays well-formed, as long as no such user code detaches an array,
    [copy] is called within its bounds and [toString] on a buffer that is no longer
    than a string. *)
Theorem buffer_calls_safe calls h :
  wf_heap h -> Forall call_ok calls -> calls_ok to_primitive string_to_number memcmp calls h = true ->
  exists h', run_calls to_primitive string_to_number memcmp calls h = Some h' /\ wf_heap h'.
Proof.
  revert h. induction calls as [|c calls IH]; intros h Hw Hok Hc; cbn [run_calls calls_ok] in *; [eauto|].
  apply Forall_cons in Hok as [Hok Hoks]. apply andb_true_iff in Hc as [Hc Hcs].
  destruct (safe_call c h Hw Hok Hc Hw) as [Hn Hw1].
  destruct (run_call to_primitive string_to_number memcmp c h) as [[u|e| |] h1]; cbn in Hn, Hw1;
    [now apply IH | now apply IH | eauto | done].
Qed.
End Functions.

(** ** A concrete host and heap *)

Fixpoint lex_diff (a b : list Z) : Z :=
  match a, b with
  | x :: a, y :: b => if x =? y then lex_diff a b else x - y
  | _, _ => 0
  end.

Definition empty_heap : heap := mk_heap ∅ ∅ ∅ 1.

Lemma empty_heap_wf : wf_heap empty_heap.
Proof.
  split; cbn; try (intros ? ?; rewrite lookup_empty; discriminate).
  intros id _. now rewrite !lookup_empty.
Qed.

Lemma no_object_host : host_ok no_object nan_string.
Proof. split; [discriminate|]. intros s p [= <-]. split; [discriminate | reflexivity]. Qed.

Lemma quiet_ok to_primitive string_to_number :
  host_ok to_primitive string_to_number -> user_code_ok (quiet to_primitive) string_to_number.
Proof.
  intros H. split; [| |apply (host_number _ _ H)]; unfold quiet; intros id h.
  - intros p h' _ [= E _]. apply (host_primitive _ _ H id p E).
  - intros r h' Hw [= _ <-]. split; [done | apply keeps_same].
Qed.

(** Objects whose [valueOf] makes a new buffer and returns 1. *)
Definition busy_object (id : Z) (h : heap) : res prim * heap := (Ok (JS_TAG_INT 1), snd (js_buffer_create 4 h)).

Lemma busy_object_ok : user_code_ok busy_object nan_string.
Proof.
  split; [| |apply (host_number _ _ no_object_host)]; unfold busy_object; intros id h.
  - intros p h' _ [= <- _]. split; [discriminate | reflexivity].
  - intros r h' Hw [= _ <-]. assert (in_s 64 4) as S4 by (split; [discriminate | reflexivity]).
    split; [apply (safe_create 4 h S4 Hw)|]. destruct (js_buffer_create 4 h) as [[v| | |] h'] eqn:E; try discriminate.
    destruct (create_inv 4 h v h' Hw S4 E) as (_ & _ & ->). split; cbn.
    + intros ab data Ea. exists data. rewrite lookup_insert_ne; [done|]. intros <-.
      destruct (wf_fresh h Hw (next_id h) ltac:(lia)). congruence.
    + intros i w Ev. rewrite lookup_insert_ne; [done|]. intros <-.
      destruct (wf_fresh h Hw (next_id h + 1) ltac:(lia)). congruence.
Qed.

(** Objects whose [valueOf] detaches the ArrayBuffer 1 and returns 0. *)
Definition detaching_object (id : Z) (h : heap) : res prim * heap :=
  (Ok (JS_TAG_INT 0), mk_heap (<[1 := None]> (arrays h)) (views h) (lists h) (next_id h)).

Definition int (v : Z) : JSValue := Prim (JS_TAG_INT v).
Definition str (s : string) : JSValue := Prim (JS_TAG_STRING s).

(** [b = Buffer.from("Hello"); c = b.subarray(-4, 4); c.fill(0x2a, 1);
    b.copy(c, 0, 0, 1); b.readUInt32BE(100); b.toString("hex", o)]: objects 2
    and 3, and an object [o] with user code. *)
Definition sample_calls : list call :=
  [mk_call From undefined [str "Hello"];
   mk_call Subarray (JS_TAG_OBJECT 2) [int (-4); int 4];
   mk_call Fill (JS_TAG_OBJECT 3) [int 42; int 1];
   mk_call Copy (JS_TAG_OBJECT 2) [JS_TAG_OBJECT 3; int 0; int 0; int 1];
   mk_call (ReadUInt 32 true) (JS_TAG_OBJECT 2) [int 100];
   mk_call ToString (JS_TAG_OBJECT 2) [str "hex"; JS_TAG_OBJECT 100]].

Lemma buffer_calls_safe_witness :
  exists h, run_calls busy_object nan_string lex_diff sample_calls empty_heap = Some h /\ wf_heap h.
Proof.
  apply (buffer_calls_safe busy_object nan_string lex_diff busy_object_ok sample_calls empty_heap empty_heap_wf).
  - repeat apply List.Forall_cons; try apply List.Forall_nil;
      (split; [do 2 eexists; cbn; tauto | repeat apply List.Forall_cons; try apply List.Forall_nil; now vm_compute]).
  - vm_compute. reflexivity.
Defined.

(** Outside these bounds the memory is left: [b.copy(t, 0, 3, 2)] computes the
    size [2^64 - 1], which [t]'s eight bytes cut to 8, and reads three bytes
    past the end of [b]; [b.copy(t, 9)] does it on the target. *)
Definition quiet_run := run_calls (quiet no_object) nan_string lex_diff.

Example copy_inverted_window :
  quiet_run
    [mk_call From undefined [str "Hello"]; mk_call Alloc undefined [int 8];
     mk_call Copy (JS_TAG_OBJECT 2) [JS_TAG_OBJECT 4; int 0; int 3; int 2]] empty_heap = None.
Proof. vm_compute. reflexivity. Qed.

Example copy_past_target :
  quiet_run
    [mk_call From undefined [str "Hello"]; mk_call Alloc undefined [int 8];
     mk_call Copy (JS_TAG_OBJECT 2) [JS_TAG_OBJECT 4; int 9]] empty_heap = None.
Proof. vm_compute. reflexivity. Qed.

(** [Buffer.from] of the empty string ends the program. *)
Example from_empty_aborts : fst (js_buffer_from (quiet no_object) nan_string [str EmptyString] empty_heap) = Abort.
Proof. vm_compute. reflexivity. Qed.

(** User code that detaches the array of the buffer, here in the conversion of
    an offset, makes these functions use the data pointer they hold. *)
Definition detached_run (op : operation) (argv : list JSValue) : option heap :=
  run_calls detaching_object nan_string lex_diff
    [mk_call From undefined [str "Hello"]; mk_call op (JS_TAG_OBJECT 2) argv] empty_heap.

Example detached_uses :
  let o := JS_TAG_OBJECT 100 in
  detached_run Write [str "x"; o] = None /\
  detached_run ToString [str "utf8"; o] = None /\
  detached_run Slice [o; int 3] = None /\
  detached_run Copy [JS_TAG_OBJECT 2; o] = None /\
  detached_run (ReadUInt 8 false) [o] = None /\
  detached_run (WriteUInt 8 false) [int 1; o] = None /\
  detached_run Subarray [o] <> None /\ detached_run Alloc [int 4; o] <> None.
Proof. vm_compute. repeat split; discriminate. Qed.
