(* ===== verification/BufferSpec.v ===== *)
(** * Functional correctness of the Buffer functions

    What each function of [Buffer] computes, in terms of the bytes its
    arguments show ([Heap.view_bytes]): the windows of [slice] and [subarray]
    and their aliasing, the contents after [write], [fill], [copy], [concat] and
    [writeUInt], the values of [readUInt], [indexOf], [compare] and [equals], the
    round trips of [from] and [toString].  The conversions of arguments leave the
    heap alone here ([Buffer.quiet]); [BufferSafety] has those that do not. *)

From Stdlib Require Import ZArith Lia Bool Ascii String.
From stdpp Require Import base numbers list option strings gmap.
From S2P Require Import Prelude Numeric CString Encoding Heap Buffer BufferSafety.

#[local] Open Scope Z_scope.

(** ** Definitions *)

(** A value that shows the bytes [bs] through the view [w]. *)
Definition shows (h : heap) (v : JSValue) (w : view) (bs : list Z) : Prop :=
  JS_GetTypedArrayBuffer h v = Some w /\ view_bytes h v = Some bs.

(** Every view of [h] shows the same bytes in [h']. *)
Definition preserved (h h' : heap) : Prop :=
  forall v w bs, shows h v w bs -> shows h' v w bs.

(** The window of bytes [s, e) of a list. *)
Definition window (s e : Z) (bs : list Z) : list Z := take (Z.to_nat (e - s)) (drop (Z.to_nat s) bs).

(** An offset counted from the end when negative, limited to [0, len]. *)
Definition relative (x len : Z) : Z := if x <? 0 then Z.max 0 (x + len) else Z.min x len.

(** The lexicographic order of byte strings. *)
Fixpoint lex_compare (a b : list Z) : comparison :=
  match a, b with
  | [], [] => Eq
  | [], _ => Lt
  | _, [] => Gt
  | x :: a, y :: b => match x ?= y with Eq => lex_compare a b | c => c end
  end.

(** The C standard on [memcmp]: the sign of the first difference. *)
Definition memcmp_ok (memcmp : list Z -> list Z -> Z) : Prop :=
  forall a b, length a = length b -> (memcmp a b ?= 0) = lex_compare a b.

(** The bytes of a buffer argument; none for another value. *)
Definition item_bytes (h : heap) (v : JSValue) : list Z := default [] (view_bytes h v).

(** ** Reading, writing and creating through views *)

Lemma shows_inv h v w bs :
  wf_heap h -> shows h v w bs ->
  exists data, arrays h !! v_ab w = Some (Some data) /\ 0 <= v_off w /\ 0 <= v_len w <= 2147483647 /\
    v_off w + v_len w <= Z.of_nat (length data) /\ bs = window (v_off w) (v_off w + v_len w) data /\
    Z.of_nat (length bs) = v_len w.
Proof.
  intros Hw [Ew Eb]. unfold view_bytes in Eb. rewrite Ew in Eb. cbn in Eb.
  destruct (view_inv h v w Ew) as (data & Ea & Hb & id & _ & Ev). rewrite Ea in Eb. injection Eb as <-.
  destruct (wf_views h Hw _ _ Ev) as [H1 H2]. change INT32_MAX with 2147483647 in H2.
  exists data. unfold window. split_and!; try done; try lia.
  - now replace (v_off w + v_len w - v_off w) with (v_len w) by lia.
  - rewrite length_take, length_drop. lia.
Qed.

Lemma shows_intro h v w data :
  JS_GetTypedArrayBuffer h v = Some w -> arrays h !! v_ab w = Some (Some data) ->
  shows h v w (window (v_off w) (v_off w + v_len w) data).
Proof.
  intros Ew Ea. split; [done|]. unfold view_bytes. rewrite Ew. cbn. rewrite Ea. cbn. unfold window.
  now replace (v_off w + v_len w - v_off w) with (v_len w) by lia.
Qed.

Lemma get_bytes_shows h v w bs :
  shows h v w bs -> js_buffer_get_bytes v h = (Return (Some ((v_ab w, v_off w), v_len w)), h).
Proof. intros [Ew _]. unfold js_buffer_get_bytes. now rewrite Ew. Qed.

Lemma window_lookup s e (l : list Z) i :
  window s e l !! i = if decide (i < Z.to_nat (e - s))%nat then l !! (Z.to_nat s + i)%nat else None.
Proof.
  unfold window. destruct (decide _).
  - rewrite lookup_take_lt by done. apply lookup_drop.
  - apply lookup_take_ge. lia.
Qed.

Lemma window_length s e (l : list Z) :
  0 <= s <= e -> e <= Z.of_nat (length l) -> Z.of_nat (length (window s e l)) = e - s.
Proof. intros. unfold window. rewrite length_take, length_drop. lia. Qed.

Lemma window_window a b s e (l : list Z) :
  0 <= a -> 0 <= s -> a + e <= b -> window s e (window a b l) = window (a + s) (a + e) l.
Proof.
  intros. apply list_eq. intros i. rewrite !window_lookup.
  destruct (decide (i < Z.to_nat (e - s))%nat), (decide (i < Z.to_nat (a + e - (a + s)))%nat); try lia; [|done].
  rewrite decide_True by lia. f_equal. lia.
Qed.

Lemma window_full (l : list Z) : window 0 (Z.of_nat (length l)) l = l.
Proof. unfold window. cbn. apply take_ge. lia. Qed.

(** Writing inside a window of the underlying array. *)
Lemma window_splice a b d (data bs : list Z) :
  0 <= a -> 0 <= d -> a + d + Z.of_nat (length bs) <= b -> b <= Z.of_nat (length data) ->
  window a b (splice data bs (Z.to_nat (a + d))) = splice (window a b data) bs (Z.to_nat d).
Proof.
  intros. pose proof (window_length a b data ltac:(lia) ltac:(lia)). apply list_eq. intros i.
  rewrite window_lookup. rewrite (splice_lookup (window a b data)) by lia. rewrite window_lookup.
  destruct (decide (i < Z.to_nat (b - a))%nat).
  - rewrite splice_lookup by lia.
    destruct (decide (Z.to_nat d <= i < Z.to_nat d + length bs)%nat).
    + rewrite decide_True by lia. f_equal. lia.
    + now rewrite decide_False by lia.
  - now rewrite decide_False by lia.
Qed.

Lemma read_shows h v w bs d n :
  wf_heap h -> shows h v w bs -> 0 <= d -> 0 <= n -> d + n <= v_len w ->
  read_mem (v_ab w, v_off w) d n h = (Return (window d (d + n) bs), h).
Proof.
  intros Hw Hs Hd Hn Hl. destruct (shows_inv h v w bs Hw Hs) as (data & Ea & H1 & H2 & H3 & -> & H4).
  rewrite (read_mem_ok h _ data) by (done || lia). rewrite window_window by lia. unfold window.
  replace (v_off w + (d + n) - (v_off w + d)) with n by lia. done.
Qed.

(** A write through a view keeps every view in place, changes the bytes of the
    view and leaves the views of other arrays alone. *)
Lemma write_shows h v w bs d bs' :
  wf_heap h -> shows h v w bs -> 0 <= d -> d + Z.of_nat (length bs') <= v_len w -> bytes bs' ->
  exists h', write_mem (v_ab w, v_off w) d bs' h = (Return tt, h') /\ wf_heap h' /\
    shows h' v w (splice bs bs' (Z.to_nat d)) /\ views h' = views h /\ lists h' = lists h /\
    (forall x, JS_GetTypedArrayBuffer h' x = JS_GetTypedArrayBuffer h x) /\
    (forall x wx bx, shows h x wx bx -> v_ab wx <> v_ab w -> shows h' x wx bx).
Proof.
  intros Hw Hs Hd Hl Hb. destruct (shows_inv h v w bs Hw Hs) as (data & Ea & H1 & H2 & H3 & -> & H4).
  rewrite (write_mem_ok h _ data) by (done || lia). set (data' := splice _ _ _). eexists. split; [reflexivity|].
  assert (length data' = length data) as Hlen by (apply splice_length; lia).
  assert (forall x, JS_GetTypedArrayBuffer (set_array h (v_ab w) data') x = JS_GetTypedArrayBuffer h x) as Hget.
  { intros [p|id]; [done|]. cbn. destruct (views h !! id) as [wx|]; [|done]. cbn.
    destruct (decide (v_ab wx = v_ab w)) as [Eq|].
    - rewrite Eq, lookup_insert_eq, Ea, Hlen. done.
    - now rewrite lookup_insert_ne. }
  split_and!.
  - apply (set_array_wf h _ data); [done..|].
    apply splice_bytes; [exact (wf_bytes h Hw _ _ Ea) | done].
  - replace (splice (window _ _ data) bs' (Z.to_nat d)) with (window (v_off w) (v_off w + v_len w) data')
      by (apply window_splice; lia).
    apply shows_intro; [rewrite Hget; apply Hs | cbn; apply lookup_insert_eq].
  - done.
  - done.
  - exact Hget.
  - intros x wx bx Hx Hne. destruct (shows_inv h x wx bx Hw Hx) as (dx & Eax & _ & _ & _ & -> & _).
    apply shows_intro; [rewrite Hget; apply Hx | cbn; now rewrite lookup_insert_ne].
Qed.

Lemma window_zeros n : window 0 n (replicate (Z.to_nat n) 0) = replicate (Z.to_nat n) 0.
Proof. unfold window. apply take_ge. rewrite length_replicate. cbn. lia. Qed.

(** A new buffer: zeros, in an array no earlier view shows. *)
Lemma create_shows h size :
  wf_heap h -> 0 <= size <= INT32_MAX ->
  exists v h', js_buffer_create size h = (Return v, h') /\ wf_heap h' /\
    v = JS_TAG_OBJECT (next_id h + 1) /\
    shows h' v (mk_view (next_id h) 0 size) (replicate (Z.to_nat size) 0) /\ preserved h h' /\
    lists h' = lists h /\ (forall x wx bx, shows h x wx bx -> v_ab wx <> next_id h).
Proof.
  intros Hw Hs. assert (in_s 64 size) as Hs64 by now apply buffer_size_s64.
  destruct (js_buffer_create size h) as [o h'] eqn:E.
  destruct o as [v|e| |]; try (unfold js_buffer_create in E; rewrite sgn_small in E by (done || lia);
    change INT32_MAX with 2147483647 in *; change MAX_SAFE_INTEGER with 9007199254740991 in E;
    destruct (Z.ltb_spec size 0), (Z.ltb_spec 9007199254740991 size), (Z.ltb_spec 2147483647 size); cbn in E; lia || discriminate).
  pose proof (safe_create size h Hs64 Hw) as [_ Hw']. rewrite E in Hw'. cbn in Hw'.
  destruct (create_valid size h v h' Hw Hs64 E) as (_ & Hg & _ & _).
  destruct (create_inv size h v h' Hw Hs64 E) as (_ & -> & ->).
  assert (forall x wx bx, shows h x wx bx -> v_ab wx <> next_id h) as Hfresh.
  { intros x wx bx Hx Eq. destruct (shows_inv h x wx bx Hw Hx) as (dx & Eax & _).
    destruct (wf_fresh h Hw (v_ab wx) ltac:(lia)) as [Hn _]. congruence. }
  eexists _, _. split_and!; [reflexivity | done | done | | | done | exact Hfresh].
  - pose proof (shows_intro _ _ _ (replicate (Z.to_nat size) 0) Hg ltac:(cbn; apply lookup_insert_eq)) as Hsh.
    cbn [v_off v_len] in Hsh. change (0 + size) with size in Hsh. now rewrite window_zeros in Hsh.
  - intros x wx bx Hx. pose proof (Hfresh x wx bx Hx) as Hne.
    destruct (shows_inv h x wx bx Hw Hx) as (dx & Eax & _ & _ & Hbx & -> & _). apply shows_intro; cbn.
    + destruct (view_inv h x wx (proj1 Hx)) as (_ & _ & _ & id & -> & Evx). cbn.
      rewrite lookup_insert_ne by (intros <-; destruct (wf_fresh h Hw (next_id h + 1) ltac:(lia)); congruence).
      rewrite Evx. cbn. rewrite lookup_insert_ne, Eax by done.
      destruct (Z.ltb_spec (Z.of_nat (length dx)) (v_off wx + v_len wx)); [lia | done].
    + now rewrite lookup_insert_ne.
Qed.

(** A new view of an existing array shows its window. *)
Lemma view_shows h ab off len data :
  wf_heap h -> arrays h !! ab = Some (Some data) -> 0 <= off -> 0 <= len -> off + len <= Z.of_nat (length data) ->
  exists v h', js_buffer_view ab off len h = (Return v, h') /\ wf_heap h' /\ arrays h' = arrays h /\
    shows h' v (mk_view ab off len) (window off (off + len) data) /\ preserved h h'.
Proof.
  intros Hw Ea Ho Hl Hb. pose proof (wf_size h Hw _ _ Ea) as Hsz. change INT32_MAX with 2147483647 in Hsz.
  assert (in_s 64 off /\ in_s 64 len) as [So Sl] by (rewrite !in_s64; lia).
  pose proof (safe_view ab off len h So Sl Hw) as [_ Hw'].
  unfold js_buffer_view in *. rewrite !sgn_small in * by (done || lia).
  change MAX_SAFE_INTEGER with 9007199254740991 in *. rewrite Ea in *.
  destruct (Z.ltb_spec off 0), (Z.ltb_spec 9007199254740991 off), (Z.ltb_spec len 0), (Z.ltb_spec 9007199254740991 len);
    try lia. cbn [orb] in *.
  destruct (Z.ltb_spec (Z.of_nat (length data)) (off + len)); [lia|]. cbn [snd] in Hw'.
  eexists _, _. split_and!; [reflexivity | done | done | |].
  - apply (shows_intro _ _ (mk_view ab off len)); [|exact Ea]. cbn. rewrite lookup_insert_eq. cbn. rewrite Ea.
    destruct (Z.ltb_spec (Z.of_nat (length data)) (off + len)); [lia | done].
  - intros x wx bx Hx. destruct (shows_inv h x wx bx Hw Hx) as (dx & Eax & _ & _ & Hbx & -> & _).
    apply shows_intro; [|exact Eax]. destruct (view_inv h x wx (proj1 Hx)) as (_ & _ & _ & id & -> & Evx). cbn.
    rewrite lookup_insert_ne by (intros <-; destruct (wf_fresh h Hw (next_id h) ltac:(lia)); congruence).
    rewrite Evx. cbn. rewrite Eax. destruct (Z.ltb_spec (Z.of_nat (length dx)) (v_off wx + v_len wx)); [lia | done].
Qed.

(** A new buffer filled with given bytes at its start. *)
Lemma create_store h size bs :
  wf_heap h -> bytes bs -> Z.of_nat (length bs) <= size <= INT32_MAX ->
  exists v h1 h', js_buffer_create size h = (Return v, h1) /\ preserved h h1 /\ wf_heap h1 /\
    store_into v 0 bs h1 = (Return tt, h') /\ wf_heap h' /\ preserved h h' /\
    shows h' v (mk_view (next_id h) 0 size) (bs ++ replicate (Z.to_nat size - length bs) 0) /\
    (forall x wx bx, shows h x wx bx -> v_ab wx <> next_id h).
Proof.
  intros Hw Hb Hl. destruct (create_shows h size Hw ltac:(lia)) as (v & h1 & E1 & Hw1 & _ & Hs1 & Hp1 & _ & Hf).
  destruct (write_shows h1 v _ _ 0 bs Hw1 Hs1 ltac:(lia) ltac:(cbn; lia) Hb) as (h' & E2 & Hw2 & Hs2 & _ & _ & _ & Hp2).
  exists v, h1, h'. split_and!; try done.
  - unfold store_into. now rewrite (bind_return _ _ _ _ _ (get_bytes_shows h1 v _ _ Hs1)).
  - intros x wx bx Hx. apply Hp2; [now apply Hp1 | cbn; now apply (Hf x wx bx)].
  - unfold splice in Hs2. rewrite drop_replicate in Hs2. exact Hs2.
Qed.

(** ** Functions *)

Section Functions.
Context (to_primitive : Z -> res prim) (string_to_number : string -> res prim).
Context (memcmp : list Z -> list Z -> Z).
Hypothesis host : host_ok to_primitive string_to_number.

Abbreviation opt_int64 := (opt_int64 to_primitive string_to_number).
Abbreviation num_int64 := (num_int64 string_to_number).
Abbreviation user_code := (quiet to_primitive).
Abbreviation to_int64_or_0 := (to_int64_or_0 to_primitive string_to_number).

(** The conversions run without changing the heap. *)
Lemma run_to_int64 {B} v (f : Z -> M B) h :
  bind (JS_ToInt64_or_0 user_code string_to_number v) f h = f (to_int64_or_0 v) h.
Proof. now destruct v. Qed.

Lemma run_opt_int64 {B} argv k x (f : Z -> M B) h :
  bind (JS_opt_int64 user_code string_to_number argv k x) f h = f (opt_int64 argv k x) h.
Proof. unfold JS_opt_int64, Buffer.opt_int64. destruct (_ && _); [apply run_to_int64 | done]. Qed.

Lemma run_if_int64 {B} (b : bool) v (f : Z -> M B) h :
  bind (if b then JS_ToInt64_or_0 user_code string_to_number v else ret 0) f h = f (if b then to_int64_or_0 v else 0) h.
Proof. destruct b; [apply run_to_int64 | done]. Qed.

Lemma run_lift {A B} (o : outcome A) (a : A) (f : A -> M B) h : o = Return a -> bind (lift o) f h = f a h.
Proof. now intros ->. Qed.

Lemma clamp_window_spec start end_ len :
  in_s 64 start -> in_s 64 end_ -> 0 <= len <= 2147483647 ->
  clamp_window start end_ len =
  if relative end_ len <=? relative start len then None else Some (relative start len, relative end_ len).
Proof.
  rewrite !in_s64. intros Hs He Hl. unfold clamp_window, relative.
  assert (forall x, x < 0 -> -9223372036854775808 <= x -> i64 (x + len) = x + len) as Hi
    by (intros; apply sgn_small; [lia | apply in_s64; lia]).
  assert ((if start <? 0 then i64 (start + len) else start) = if start <? 0 then start + len else start) as ->
    by (zcases; apply Hi; lia).
  assert ((if end_ <? 0 then i64 (end_ + len) else end_) = if end_ <? 0 then end_ + len else end_) as ->
    by (zcases; apply Hi; lia).
  destruct (Z.ltb_spec start 0), (Z.ltb_spec end_ 0); zcases; f_equal; f_equal; lia.
Qed.

Lemma relative_bounds x len : 0 <= len -> 0 <= relative x len <= len.
Proof. unfold relative. zcases. Qed.

Lemma window_empty s e (bs : list Z) : e <= s -> window s e bs = [].
Proof. intros. unfold window. now replace (Z.to_nat (e - s)) with O by lia. Qed.

Lemma window_bytes s e bs : bytes bs -> bytes (window s e bs).
Proof. intros H. now apply Forall_take, Forall_drop. Qed.

Lemma shows_bytes h v w bs : wf_heap h -> shows h v w bs -> bytes bs.
Proof.
  intros Hw Hs. destruct (shows_inv h v w bs Hw Hs) as (data & Ea & _ & _ & _ & -> & _).
  apply window_bytes, (wf_bytes h Hw _ _ Ea).
Qed.

(** The start that [slice] uses. *)
Definition slice_start (argv : list JSValue) : Z :=
  if (1 <=? length argv)%nat && negb (JS_IsUndefined (arg argv 1)) then to_int64_or_0 (arg argv 0) else 0.

(** C32: [buf.slice(start, end)] returns a new buffer with a copy of the bytes
    of the window, offsets counting from the end when negative, in memory that
    no earlier view shows; every earlier view keeps its bytes.  The start is
    only read when the end is given. *)
Theorem slice_correct this argv h w bs :
  wf_heap h -> Forall value_ok argv -> shows h this w bs ->
  let s := relative (slice_start argv) (v_len w) in
  let e := relative (opt_int64 argv 1 (v_len w)) (v_len w) in
  exists v h' wv, js_buffer_slice user_code string_to_number this argv h = (Return v, h') /\
    shows h' v wv (window s e bs) /\ preserved h h' /\
    (forall x wx bx, shows h x wx bx -> v_ab wx <> v_ab wv).
Proof.
  intros Hw Hv Hs s e. destruct (shows_inv h this w bs Hw Hs) as (data & _ & _ & Hl & _ & _ & Hbl).
  unfold js_buffer_slice. rewrite (bind_return _ _ _ _ _ (get_bytes_shows h this w bs Hs)), run_if_int64, run_opt_int64. cbv zeta.
  assert (in_s 64 (slice_start argv)) as Hs64.
  { unfold slice_start. destruct (_ && _); [now apply to_int64_or_0_range, arg_ok | split; [discriminate | reflexivity]]. }
  change (clamp_window _ _ _) with (clamp_window (slice_start argv) (opt_int64 argv 1 (v_len w)) (v_len w)).
  rewrite clamp_window_spec; [|exact Hs64 | apply opt_int64_range; [done..|rewrite in_s64; lia] | done].
  fold s e.
  pose proof (relative_bounds (slice_start argv) (v_len w) ltac:(lia)) as Rs. fold s in Rs.
  pose proof (relative_bounds (opt_int64 argv 1 (v_len w)) (v_len w) ltac:(lia)) as Re. fold e in Re.
  destruct (Z.leb_spec e s).
  - destruct (create_shows h 0 Hw) as (v & h' & E & _ & _ & Hsh & Hp & _ & Hf); [split; discriminate|].
    exists v, h', (mk_view (next_id h) 0 0). rewrite window_empty by done. split_and!; [exact E | exact Hsh | exact Hp | exact Hf].
  - destruct (create_store h (e - s) (window s e bs) Hw (window_bytes s e bs (shows_bytes h this w bs Hw Hs)))
      as (v & h1 & h' & E1 & Hp1 & Hw1 & E2 & Hw2 & Hp2 & Hsh & Hf).
    { rewrite window_length by lia. unfold INT32_MAX. lia. }
    exists v, h', (mk_view (next_id h) 0 (e - s)).
    rewrite (bind_return _ _ _ _ _ E1), (bind_return _ _ _ _ _ (read_shows h1 this w bs s (e - s) Hw1 (Hp1 _ _ _ Hs) ltac:(lia) ltac:(lia) ltac:(lia))).
    replace (s + (e - s)) with e by lia. rewrite (bind_return _ _ _ _ _ E2). split_and!; try done.
    replace (Z.to_nat (e - s) - length (window s e bs))%nat with O in Hsh
      by (pose proof (window_length s e bs ltac:(lia) ltac:(lia)); lia).
    now rewrite app_nil_r in Hsh.
Qed.

(** [buf.subarray(start, end)] returns a buffer that shows the window of
    the bytes without copying them: bytes stored through it at an index appear
    in the original at that index plus the start. *)
Theorem subarray_correct this argv h w bs :
  wf_heap h -> Forall value_ok argv -> shows h this w bs ->
  let s := relative (opt_int64 argv 0 0) (v_len w) in
  let e := relative (opt_int64 argv 1 (v_len w)) (v_len w) in
  exists v h' wv, js_buffer_subarray user_code string_to_number this argv h = (Return v, h') /\
    shows h' v wv (window s e bs) /\ preserved h h' /\
    forall d bs', 0 <= d -> d + Z.of_nat (length bs') <= e - s -> bytes bs' -> s < e ->
      exists h'', store_into v d bs' h' = (Return tt, h'') /\
        shows h'' v wv (splice (window s e bs) bs' (Z.to_nat d)) /\
        shows h'' this w (splice bs bs' (Z.to_nat (s + d))).
Proof.
  intros Hw Hv Hs s e. destruct (shows_inv h this w bs Hw Hs) as (data & Ea & Ho & Hl & Hb & Ebs & Hbl).
  unfold js_buffer_subarray. rewrite (bind_return _ _ _ _ _ (eq_refl : get h = (Return h, h))).
  rewrite (proj1 Hs), !run_opt_int64. rewrite clamp_window_spec by (done || (apply opt_int64_range; [done..|rewrite in_s64; lia])).
  fold s e.
  pose proof (relative_bounds (opt_int64 argv 0 0) (v_len w) ltac:(lia)) as Rs. fold s in Rs.
  pose proof (relative_bounds (opt_int64 argv 1 (v_len w)) (v_len w) ltac:(lia)) as Re. fold e in Re.
  destruct (Z.leb_spec e s).
  - destruct (create_shows h 0 Hw) as (v & h' & E & _ & _ & Hsh & Hp & _ & Hf); [split; discriminate|].
    exists v, h', (mk_view (next_id h) 0 0). rewrite window_empty by done.
    split_and!; [exact E | exact Hsh | exact Hp | lia].
  - pose proof (wf_size h Hw _ _ Ea) as Hsz. change INT32_MAX with 2147483647 in Hsz. rewrite u64_id by lia.
    destruct (view_shows h (v_ab w) (v_off w + s) (e - s) data Hw Ea) as (v & h' & E & Hw' & Ea' & Hsh & Hp); [lia..|].
    replace (window (v_off w + s) (v_off w + s + (e - s)) data) with (window s e bs) in Hsh
      by (rewrite Ebs, window_window by lia; f_equal; lia).
    exists v, h', (mk_view (v_ab w) (v_off w + s) (e - s)). split_and!; try done.
    intros d bs' Hd Hn Hbs' Hse.
    destruct (write_shows h' v _ _ d bs' Hw' Hsh Hd Hn Hbs') as (h'' & E2 & _ & Hsv & _ & _ & Hg & _).
    exists h''. split_and!; [|done|].
    { unfold store_into. now rewrite (bind_return _ _ _ _ _ (get_bytes_shows h' v _ _ Hsh)). }
    pose proof (Hp _ _ _ Hs) as Hs'. cbn [v_ab v_off] in E2.
    rewrite (write_mem_ok h' _ data) in E2; [|now rewrite Ea' | lia | lia]. injection E2 as <-.
    replace (splice bs bs' (Z.to_nat (s + d))) with
      (window (v_off w) (v_off w + v_len w) (splice data bs' (Z.to_nat (v_off w + s + d)))).
    + apply shows_intro; [rewrite Hg; apply Hs' | cbn; apply lookup_insert_eq].
    + rewrite Ebs. replace (v_off w + s + d) with (v_off w + (s + d)) by lia. apply window_splice; lia.
Qed.

(** *** Fixed-width integers *)

(** The number whose bytes are [bs], low byte first. *)
Fixpoint le_num (bs : list Z) : Z :=
  match bs with
  | b :: bs => b + 256 * le_num bs
  | [] => 0
  end.

Lemma le_num_bounds bs : bytes bs -> 0 <= le_num bs < 2 ^ (8 * Z.of_nat (length bs)).
Proof.
  induction 1 as [|b bs Hb _ IH]; cbn [le_num length]; [now vm_compute|].
  rewrite Nat2Z.inj_succ, Z.mul_succ_r, Z.pow_add_r by lia. change (2 ^ 8) with 256.
  destruct Hb as [? Hb]. change (2 ^ 8) with 256 in Hb. lia.
Qed.

Lemma be_value_rev bs : bytes bs -> (length bs <= 8)%nat -> be_value (rev bs) = le_num bs.
Proof.
  induction 1 as [|b bs Hb Hbs IH]; cbn [rev length]; intros Hl; [done|].
  unfold be_value in *. rewrite fold_left_app, IH by lia. cbn [fold_left le_num].
  pose proof (le_num_bounds bs Hbs) as Hn.
  assert (2 ^ (8 * Z.of_nat (length bs)) <= 2 ^ 56) as Hp by (apply Z.pow_le_mono_r; lia).
  change (2 ^ 56) with 72057594037927936 in Hp.
  rewrite Z.shiftl_mul_pow2 by lia. rewrite u64_id by (change (2 ^ 8) with 256; lia).
  rewrite lor_disjoint_add by (done || lia). change (2 ^ 8) with 256. lia.
Qed.

Lemma le_num_le_bytes n v : 0 <= v -> le_num (le_bytes n v) = v mod 2 ^ (8 * Z.of_nat n).
Proof.
  revert v. induction n as [|n IH]; intros v Hv; cbn [le_bytes le_num]; [now rewrite Z.mod_1_r|].
  rewrite IH by (now apply Z.shiftr_nonneg). change 255 with (2 ^ 8 - 1).
  rewrite land_pow2_mask by lia. rewrite Z.shiftr_div_pow2 by lia. unfold wrap. rewrite Z.mod_mod by done.
  rewrite Nat2Z.inj_succ, Z.mul_succ_r, (Z.add_comm _ 8), Z.pow_add_r by lia.
  change (2 ^ 8) with 256. rewrite Z.rem_mul_r; [done | lia | apply Z.pow_pos_nonneg; lia].
Qed.

(** A read at an offset of bytes that hold a number. *)
Lemma readUInt_value this argv bits (be : bool) h w bs x :
  wf_heap h -> shows h this w bs -> bits = 8 \/ bits = 16 \/ bits = 32 ->
  let off := opt_int64 argv 0 0 in
  0 <= off -> off + bits / 8 <= v_len w -> bytes x ->
  window off (off + bits / 8) bs = (if be then rev x else x) ->
  js_buffer_readUInt user_code string_to_number this argv bits be h = (Return (i32 (le_num x)), h).
Proof.
  intros Hw Hs Hbits off Ho Hl Hx Ex. pose proof (width_bytes bits Hbits) as Hn.
  destruct (shows_inv h this w bs Hw Hs) as (_ & _ & _ & Hlw & _ & _ & Hbl).
  assert (Z.of_nat (length x) = bits / 8) as Hlx.
  { pose proof (window_length off (off + bits / 8) bs ltac:(lia) ltac:(lia)) as E. rewrite Ex in E.
    destruct be; rewrite ?length_rev in E; lia. }
  unfold js_buffer_readUInt. rewrite (bind_return _ _ _ _ _ (get_bytes_shows h this w bs Hs)), run_opt_int64. cbv zeta. fold off.
  rewrite u64_id by lia. destruct (Z.ltb_spec off 0); [lia|]. destruct (Z.ltb_spec (v_len w) (off + bits / 8)); [lia|].
  cbn [orb]. rewrite (bind_return _ _ _ _ _ (read_shows h this w bs off (bits / 8) Hw Hs Ho ltac:(lia) ltac:(lia))).
  rewrite Ex. replace (if be then if be then rev x else x else rev (if be then rev x else x)) with (rev x)
    by (destruct be; [done | done]). unfold ret. do 2 f_equal.
  rewrite be_value_rev by (done || lia). destruct (Z.leb_spec bits 32); [|lia].
  rewrite land_pow2_mask by lia. rewrite Z.mod_small; [done|].
  pose proof (le_num_bounds x Hx) as Hv. assert (2 ^ (8 * Z.of_nat (length x)) <= 2 ^ 32); [|lia].
  apply Z.pow_le_mono_r; [lia|]. rewrite Hlx. destruct Hbits as [->|[->| ->]]; now vm_compute.
Qed.

(** C35: [writeUInt8/16/32] in either byte order stores the value modulo
    [2^bits] at the offset and nothing else, and the read of the same width
    and order at this offset gives it back, as a signed number for 32 bits;
    the write of an offset out of range throws and changes nothing. *)
Theorem uint_write_read this argv bits be h w bs :
  wf_heap h -> Forall value_ok argv -> shows h this w bs -> bits = 8 \/ bits = 16 \/ bits = 32 ->
  (2 <= length argv)%nat ->
  let val := to_int64_or_0 (arg argv 0) in
  let off := to_int64_or_0 (arg argv 1) in
  if (0 <=? off) && (off + bits / 8 <=? v_len w) then
    exists h' bs', js_buffer_writeUInt user_code string_to_number this argv bits be h = (Return this, h') /\
      Z.of_nat (length bs') = bits / 8 /\ shows h' this w (splice bs bs' (Z.to_nat off)) /\
      forall argv', opt_int64 argv' 0 0 = off ->
        js_buffer_readUInt user_code string_to_number this argv' bits be h' = (Return (i32 (val mod 2 ^ bits)), h')
  else js_buffer_writeUInt user_code string_to_number this argv bits be h = (Exception (RangeError "out of range"), h).
Proof.
  intros Hw Hv Hs Hbits Hargc val off. pose proof (width_bytes bits Hbits) as Hn.
  destruct (shows_inv h this w bs Hw Hs) as (_ & _ & _ & Hlw & _ & _ & Hbl).
  assert (in_s 64 off) as Hoff by now apply to_int64_or_0_range, arg_ok. rewrite in_s64 in Hoff.
  unfold js_buffer_writeUInt. rewrite (bind_return _ _ _ _ _ (get_bytes_shows h this w bs Hs)).
  destruct (Nat.ltb_spec (length argv) 2); [lia|]. rewrite !run_to_int64. cbv zeta. fold val off.
  destruct (Z.leb_spec 0 off); cbn [andb].
  2: { destruct (Z.ltb_spec off 0); [done | lia]. }
  destruct (Z.ltb_spec off 0); [lia|]. rewrite u64_id by lia.
  destruct (Z.leb_spec (off + bits / 8) (v_len w)), (Z.ltb_spec (v_len w) (off + bits / 8)); try lia; cbn [orb]; [|done].
  set (x := le_bytes (Z.to_nat (bits / 8)) (u64 val)).
  destruct (le_bytes_ok (Z.to_nat (bits / 8)) (u64 val)) as [Hxb Hxl]. fold x in Hxb, Hxl.
  assert (length (if be then rev x else x) = length x) as Hlen by (destruct be; rewrite ?length_rev; done).
  destruct (write_shows h this w bs off (if be then rev x else x) Hw Hs) as (h' & E & Hw' & Hs' & _);
    [lia | lia | destruct be; [now apply Forall_rev | done] |].
  exists h', (if be then rev x else x). rewrite (bind_return _ _ _ _ _ E). split_and!; [done | lia | done |].
  intros argv' Eo. assert (val mod 2 ^ bits = le_num x) as ->.
  { unfold x. rewrite le_num_le_bytes by now apply wrap_range. unfold wrap.
    replace (8 * Z.of_nat (Z.to_nat (bits / 8))) with bits by (destruct Hbits as [->|[->| ->]]; reflexivity).
    rewrite Z.mod_mod_divide; [done|]. exists (2 ^ (64 - bits)). rewrite <- Z.pow_add_r by lia. f_equal. lia. }
  apply (readUInt_value this argv' bits be h' w (splice bs (if be then rev x else x) (Z.to_nat off)));
    rewrite ?Eo; try done; try lia.
  replace (bits / 8) with (Z.of_nat (length (if be then rev x else x))) by lia. unfold window.
  replace (Z.to_nat (off + Z.of_nat (length (if be then rev x else x)) - off)) with (length (if be then rev x else x)) by lia.
  apply splice_window. lia.
Qed.

(** *** Contents after [fill], [write] and [copy] *)

(** [buf.fill(value, start, end)] sets the bytes of the window (its bounds
    limited to the buffer) to the first byte of the string or the low byte of
    the number, and leaves the other bytes. *)
Theorem fill_correct this argv h w bs :
  wf_heap h -> Forall value_ok argv -> shows h this w bs -> (1 <= length argv)%nat ->
  let s := Z.max 0 (num_int64 argv 1 0) in
  let e := Z.min (num_int64 argv 2 (v_len w)) (v_len w) in
  exists byte, fill_value string_to_number (arg argv 0) = Return byte /\
  exists h', js_buffer_fill string_to_number this argv h = (Return this, h') /\
    shows h' this w (splice bs (replicate (Z.to_nat (e - s)) byte) (Z.to_nat (Z.min s (v_len w)))).
Proof.
  intros Hw Hv Hs Hargc s e. destruct (shows_inv h this w bs Hw Hs) as (_ & _ & _ & Hl & _ & _ & Hbl).
  destruct (fill_value_ok string_to_number argv 0 Hv) as (byte & Ef & Hbyte). exists byte. split; [done|].
  unfold js_buffer_fill. destruct (Nat.ltb_spec (length argv) 1); [lia|].
  rewrite (bind_return _ _ _ _ _ (get_bytes_shows h this w bs Hs)), (run_lift _ byte) by done. cbv zeta.
  assert ((if num_int64 argv 1 0 <? 0 then 0 else num_int64 argv 1 0) = s) as -> by (unfold s; zcases).
  assert ((if v_len w <? num_int64 argv 2 (v_len w) then v_len w else num_int64 argv 2 (v_len w)) = e) as ->
    by (unfold e; zcases).
  assert (0 <= s /\ e <= v_len w) as [? ?] by (unfold s, e; lia).
  destruct (Z.ltb_spec s e).
  - destruct (write_shows h this w bs s (replicate (Z.to_nat (e - s)) byte) Hw Hs) as (h' & E & _ & Hs' & _);
      [lia | rewrite length_replicate; lia | now apply Forall_replicate |].
    exists h'. rewrite (bind_return _ _ _ _ _ E). split; [done|]. now replace (Z.min s (v_len w)) with s by lia.
  - exists h. split; [done|]. replace (Z.to_nat (e - s)) with O by lia. unfold splice. cbn [replicate app length].
    now rewrite Nat.add_0_r, take_drop.
Qed.

(** [buf.write(string, offset, length, encoding)] stores the decoded bytes
    that fit in the buffer and in the requested length at the offset, returns
    their number and leaves the other bytes; an offset out of range or a
    string that does not decode changes nothing, and one that decodes to nothing
    ends the program. *)
Theorem write_correct this argv h w bs s str enc :
  wf_heap h -> Forall value_ok argv -> shows h this w bs -> arg argv 0 = Prim (JS_TAG_STRING s) ->
  JS_ToCStringLen s = Return (Some str) -> (if (4 <=? length argv)%nat then arg_encoding argv 3 else Return ENC_UTF8) = Return enc ->
  match decoded str enc with
  | Some [] => js_buffer_write user_code string_to_number this argv h = (Abort, h)
  | None => js_buffer_write user_code string_to_number this argv h = (Exception (TypeError "encoding failed"), h)
  | Some src =>
      let off := opt_int64 argv 1 0 in
      let len := opt_int64 argv 2 (Z.of_nat (length src)) in
      let n := Z.min (Z.min (u64 len) (Z.of_nat (length src))) (v_len w - off) in
      if (0 <=? off) && (off <? v_len w) then
        exists h', js_buffer_write user_code string_to_number this argv h = (Return (int_value n), h') /\
          shows h' this w (splice bs (take (Z.to_nat n) src) (Z.to_nat off))
      else js_buffer_write user_code string_to_number this argv h = (Return (int_value 0), h)
  end.
Proof.
  intros Hw Hv Hs Es Estr Eenc. destruct (shows_inv h this w bs Hw Hs) as (_ & _ & _ & Hl & _ & _ & Hbl).
  destruct (arg_c_string argv 0 s Hv Es) as (r & Er & Hr). rewrite Estr in Er. injection Er as <-. destruct (Hr str eq_refl) as [Hstr Hsl32].
  unfold js_buffer_write. rewrite Es, (run_lift _ _ _ _ Eenc), (run_lift _ _ _ _ Estr).
  assert (Z.of_nat (length str) < 2 ^ 61) as Hl61 by (change (2 ^ 61) with 2305843009213693952; lia).
  pose proof (string_to_bytes_spec str enc Hl61) as Eb. pose proof (decoded_ok str enc) as Hd.
  destruct (decoded str enc) as [[|x src']|]; [now rewrite Eb | | now rewrite (run_lift _ _ _ _ Eb)].
  set (src := x :: src') in *. rewrite (run_lift _ _ _ _ Eb). destruct (Hd src Hstr eq_refl) as [Hsb Hsl]. clearbody src.
  unfold write_bytes. cbv zeta. rewrite (bind_return _ _ _ _ _ (get_bytes_shows h this w bs Hs)), !run_opt_int64.
  set (off := opt_int64 argv 1 0). set (len := opt_int64 argv 2 _).
  destruct (Z.leb_spec 0 off), (Z.ltb_spec off 0); try lia; cbn [andb orb]; [|done].
  destruct (Z.ltb_spec off (v_len w)), (Z.leb_spec (v_len w) off); try lia; [|done].
  assert (0 <= u64 len) as Hlen by now apply wrap_range.
  assert ((if u64 len <? Z.of_nat (length src) then u64 len else Z.of_nat (length src))
    = Z.min (u64 len) (Z.of_nat (length src))) as -> by zcases.
  rewrite u64_id by lia. set (m := Z.min (u64 len) _) in *.
  assert ((if v_len w <? off + m then v_len w - off else m) = Z.min m (v_len w - off)) as -> by zcases.
  set (n := Z.min m (v_len w - off)).
  destruct (write_shows h this w bs off (take (Z.to_nat n) src) Hw Hs) as (h' & E & _ & Hs' & _);
    [lia | rewrite length_take; lia | now apply Forall_take |].
  exists h'. rewrite (bind_return _ _ _ _ _ E). split; [|done]. unfold ret. do 3 f_equal.
  apply sgn_small; [lia|]. unfold in_s. change (2 ^ (32 - 1)) with 2147483648. lia.
Qed.

(** C33: [src.copy(target, targetStart, sourceStart, sourceEnd)] within its
    bounds moves as many bytes of the source window as fit to the target and
    returns their number; when both show the same memory the bytes are those
    the source had before the call. *)
Theorem copy_correct this argv h ws wt sb tb :
  wf_heap h -> Forall value_ok argv -> shows h this ws sb -> shows h (arg argv 0) wt tb ->
  copy_ok user_code string_to_number (mk_call Copy this argv) h = true ->
  let ts := Z.max 0 (opt_int64 argv 1 0) in
  let ss := Z.max 0 (opt_int64 argv 2 0) in
  let se := Z.min (opt_int64 argv 3 (v_len ws)) (v_len ws) in
  let n := Z.min (se - ss) (v_len wt - ts) in
  (1 <= length argv)%nat ->
  exists h', js_buffer_copy user_code string_to_number this argv h = (Return (int_value n), h') /\
    shows h' (arg argv 0) wt (splice tb (window ss (ss + n) sb) (Z.to_nat ts)).
Proof.
  intros Hw Hv Hs Ht Hc ts ss se n Hargc. destruct (shows_inv h this ws sb Hw Hs) as (_ & _ & _ & Hls & _ & _ & Hsl).
  destruct (shows_inv h _ wt tb Hw Ht) as (_ & _ & _ & Hlt & _ & _ & Htl).
  unfold copy_ok in Hc. cbn [c_this c_argv] in Hc. rewrite (proj1 Hs), (proj1 Ht) in Hc.
  rewrite !run_opt_int64 in Hc. cbn [ret] in Hc.
  apply andb_true_iff in Hc as [Hc1 Hc2]. apply Z.leb_le in Hc1, Hc2. fold ss in Hc1.
  unfold js_buffer_copy. destruct (Nat.ltb_spec (length argv) 1); [lia|].
  rewrite (bind_return _ _ _ _ _ (get_bytes_shows h this ws sb Hs)).
  rewrite (bind_return _ _ _ _ _ (get_bytes_shows h _ wt tb Ht)), !run_opt_int64. cbv zeta.
  set (a1 := opt_int64 argv 1 0) in *. set (a2 := opt_int64 argv 2 0) in *. set (a3 := opt_int64 argv 3 (v_len ws)) in *.
  assert ((if a2 <? 0 then 0 else a2) = ss) as -> by (unfold ss; zcases).
  assert ((if v_len ws <? a3 then v_len ws else a3) = se) as -> by (unfold se; zcases).
  assert ((if a1 <? 0 then 0 else a1) = ts) as -> by (unfold ts; zcases).
  assert (0 <= ss <= se /\ se <= v_len ws /\ 0 <= ts <= v_len wt) as (? & ? & ?) by lia.
  rewrite !(u64_id (se - ss)), (u64_id (ts + _)), (u64_id (v_len wt - ts)) by lia.
  assert ((if v_len wt <? ts + (se - ss) then v_len wt - ts else se - ss) = n) as -> by (unfold n; zcases).
  assert (i32 n = n) as -> by (apply sgn_small; [lia|]; unfold in_s; change (2 ^ (32 - 1)) with 2147483648; lia).
  destruct (Z.ltb_spec 0 n).
  - assert (Z.of_nat (length (window ss (ss + n) sb)) = n) as Hn by (rewrite window_length; lia).
    destruct (write_shows h _ wt tb ts (window ss (ss + n) sb) Hw Ht) as (h' & E & _ & Hs' & _);
      [lia | lia | apply window_bytes, (shows_bytes h this ws sb Hw Hs) |].
    exists h'. split; [|done].
    rewrite (bind_return _ _ _ tt h'); [done|].
    now rewrite (bind_return _ _ _ _ _ (read_shows h this ws sb ss n Hw Hs ltac:(lia) ltac:(lia) ltac:(lia))).
  - exists h. split; [done|]. rewrite window_empty by lia. unfold splice. cbn [app length].
    now rewrite Nat.add_0_r, take_drop.
Qed.

Lemma u64_negative x : -18446744073709551616 <= x < 0 -> u64 x = x + 18446744073709551616.
Proof. intros. apply (wrap_unique 64 x _ (-1)); [lia | unfold in_u; change (2 ^ 64) with 18446744073709551616; lia | change (2 ^ 64) with 18446744073709551616; lia]. Qed.

(** C34: [copy] does leave the memory of the buffers outside its bounds: with a
    target start past the end of the target, or a source window inverted by no
    more than the target start, the size it computes is close to [2^64]. *)
Theorem copy_out_of_bounds this argv h ws wt sb tb :
  wf_heap h -> Forall value_ok argv -> shows h this ws sb -> shows h (arg argv 0) wt tb ->
  let ts := Z.max 0 (opt_int64 argv 1 0) in
  let ss := Z.max 0 (opt_int64 argv 2 0) in
  let se := Z.min (opt_int64 argv 3 (v_len ws)) (v_len ws) in
  (1 <= length argv)%nat ->
  (ss <= se /\ v_len wt < ts) \/ (1 <= ss - se <= ts /\ ts <= v_len wt) ->
  js_buffer_copy user_code string_to_number this argv h = (Crash, h).
Proof.
  intros Hw Hv Hs Ht ts ss se Hargc Hbad. destruct (shows_inv h this ws sb Hw Hs) as (data & Ea & Hlo & Hls & Hld & _ & Hsl).
  pose proof (wf_size h Hw _ _ Ea) as Hsz. change INT32_MAX with 2147483647 in Hsz.
  destruct (shows_inv h _ wt tb Hw Ht) as (_ & _ & _ & Hlt & _ & _ & Htl).
  unfold js_buffer_copy. destruct (Nat.ltb_spec (length argv) 1); [lia|].
  rewrite (bind_return _ _ _ _ _ (get_bytes_shows h this ws sb Hs)).
  rewrite (bind_return _ _ _ _ _ (get_bytes_shows h _ wt tb Ht)), !run_opt_int64. cbv zeta.
  assert (forall k x, in_s 64 x -> in_s 64 (opt_int64 argv k x)) as Hr by (intros; now apply opt_int64_range).
  pose proof (Hr 1%nat 0 ltac:(split; [discriminate | reflexivity])) as R1.
  pose proof (Hr 2%nat 0 ltac:(split; [discriminate | reflexivity])) as R2.
  pose proof (Hr 3%nat (v_len ws) ltac:(rewrite in_s64; lia)) as R3. rewrite in_s64 in R1, R2, R3.
  set (a1 := opt_int64 argv 1 0) in *. set (a2 := opt_int64 argv 2 0) in *. set (a3 := opt_int64 argv 3 (v_len ws)) in *.
  assert ((if a2 <? 0 then 0 else a2) = ss) as -> by (unfold ss; zcases).
  assert ((if v_len ws <? a3 then v_len ws else a3) = se) as -> by (unfold se; zcases).
  assert ((if a1 <? 0 then 0 else a1) = ts) as -> by (unfold ts; zcases).
  set (n := if v_len wt <? _ then _ else _). assert (9223372036854775808 <= n) as Hn.
  { unfold n. destruct Hbad as [[Hb1 Hb2]|[Hb1 Hb2]].
    - rewrite (u64_id (se - ss)) by lia. rewrite (u64_id (ts + (se - ss))) by lia.
      rewrite (u64_negative (v_len wt - ts)) by lia. zcases.
    - rewrite (u64_negative (se - ss)) by lia.
      assert (u64 (ts + (se - ss + 18446744073709551616)) = ts + (se - ss)) as ->.
      { apply (wrap_unique 64 _ _ 1); [lia | unfold in_u; change (2 ^ 64) with 18446744073709551616; lia |].
        change (2 ^ 64) with 18446744073709551616. lia. }
      zcases. }
  destruct (Z.ltb_spec 0 n); [|lia]. unfold bind at 1. unfold bind at 1. unfold read_mem. cbn [fst snd]. rewrite Ea.
  destruct (Z.leb_spec 0 (v_off ws + ss)), (Z.leb_spec 0 n), (Z.leb_spec (v_off ws + ss + n) (Z.of_nat (length data)));
    try lia; reflexivity.
Qed.

(** *** Comparison and search *)

Hypothesis memcmp_spec : memcmp_ok memcmp.

Lemma lex_compare_eq a b : lex_compare a b = Eq <-> a = b.
Proof.
  revert b. induction a as [|x a IH]; intros [|y b]; cbn; try (split; congruence).
  destruct (Z.compare_spec x y) as [->| |]; [|split; [discriminate | intros [= <- <-]; lia]..].
  rewrite IH. split; [now intros -> | now intros [= ->]].
Qed.

Lemma memcmp_zero a b : length a = length b -> (memcmp a b =? 0) = bool_decide (a = b).
Proof.
  intros H. pose proof (memcmp_spec a b H) as E.
  destruct (Z.eqb_spec (memcmp a b) 0) as [E0|].
  - rewrite E0 in E. cbn in E. symmetry. apply bool_decide_eq_true. now apply lex_compare_eq.
  - symmetry. apply bool_decide_eq_false. intros ->. destruct (Z.compare_spec (memcmp b b) 0); [lia|..];
      rewrite (proj2 (lex_compare_eq b b) eq_refl) in E; discriminate.
Qed.

(** Comparing the common prefix and then the lengths is the order of the lists. *)
Lemma lex_compare_prefix a b :
  let n := Nat.min (length a) (length b) in
  lex_compare a b = match lex_compare (take n a) (take n b) with
                    | Eq => Nat.compare (length a) (length b)
                    | c => c
                    end.
Proof.
  revert b. induction a as [|x a IH]; intros [|y b]; cbn; try done.
  destruct (x ?= y); [apply IH | done..].
Qed.

(** [Buffer.compare(b1, b2)] has the sign of the lexicographic order of
    the two contents (a proper prefix comes first), and [b1.equals(b2)] tells
    whether they are the same bytes. *)
Theorem compare_equals_correct b1 b2 argv h w1 w2 x1 x2 :
  wf_heap h -> shows h b1 w1 x1 -> shows h b2 w2 x2 -> arg argv 0 = b2 -> (1 <= length argv)%nat ->
  (exists c, js_buffer_compare_inst memcmp b1 argv h = (Return (int_value c), h) /\ (c ?= 0) = lex_compare x1 x2) /\
  js_buffer_equals memcmp b1 argv h = (Return (bool_value (bool_decide (x1 = x2))), h).
Proof.
  intros Hw H1 H2 <- Hargc. destruct (shows_inv h b1 w1 x1 Hw H1) as (_ & _ & _ & Hl1 & _ & _ & Hx1).
  destruct (shows_inv h _ w2 x2 Hw H2) as (_ & _ & _ & Hl2 & _ & _ & Hx2). split.
  - unfold js_buffer_compare_inst, compare_buffers. destruct (Nat.ltb_spec (length argv) 1); [lia|].
    rewrite (bind_return _ _ _ _ _ (get_bytes_shows h b1 w1 x1 H1)).
    rewrite (bind_return _ _ _ _ _ (get_bytes_shows h _ w2 x2 H2)). cbv zeta.
    assert ((if v_len w1 <? v_len w2 then v_len w1 else v_len w2) = Z.of_nat (Nat.min (length x1) (length x2))) as -> by zcases.
    set (n := Nat.min _ _).
    rewrite (bind_return _ _ _ _ _ (read_shows h b1 w1 x1 0 (Z.of_nat n) Hw H1 ltac:(lia) ltac:(lia) ltac:(lia))).
    rewrite (bind_return _ _ _ _ _ (read_shows h _ w2 x2 0 (Z.of_nat n) Hw H2 ltac:(lia) ltac:(lia) ltac:(lia))).
    assert (forall x, window 0 (0 + Z.of_nat n) x = take n x) as Hwin.
    { intros x. unfold window. replace (Z.to_nat (0 + Z.of_nat n - 0)) with n by lia. done. }
    rewrite !Hwin. eexists. split; [reflexivity|].
    rewrite lex_compare_prefix. fold n. cbv zeta.
    rewrite <- (memcmp_spec (take n x1) (take n x2)) by (rewrite !length_take; lia).
    destruct (Z.eqb_spec (memcmp (take n x1) (take n x2)) 0) as [->|Hne].
    + cbn [Z.compare]. destruct (Nat.compare_spec (length x1) (length x2));
        destruct (Z.ltb_spec (v_len w2) (v_len w1)), (Z.ltb_spec (v_len w1) (v_len w2)); try lia; done.
    + destruct (Z.compare_spec (memcmp (take n x1) (take n x2)) 0); [lia | done..].
  - unfold js_buffer_equals. destruct (Nat.ltb_spec (length argv) 1); [lia|].
    rewrite (bind_return _ _ _ _ _ (get_bytes_shows h b1 w1 x1 H1)).
    rewrite (bind_return _ _ _ _ _ (get_bytes_shows h _ w2 x2 H2)).
    destruct (Z.eqb_spec (v_len w1) (v_len w2)) as [El|Hne].
    + rewrite (bind_return _ _ _ _ _ (read_shows h b1 w1 x1 0 (v_len w1) Hw H1 ltac:(lia) ltac:(lia) ltac:(lia))).
      rewrite (bind_return _ _ _ _ _ (read_shows h _ w2 x2 0 (v_len w1) Hw H2 ltac:(lia) ltac:(lia) ltac:(lia))).
      assert (window 0 (0 + v_len w1) x1 = x1) as -> by (rewrite <- Hx1; apply window_full).
      assert (window 0 (0 + v_len w1) x2 = x2) as -> by (rewrite El, <- Hx2; apply window_full).
      unfold ret. now rewrite memcmp_zero by lia.
    + rewrite bool_decide_eq_false_2; [done|]. intros ->. lia.
Qed.

(** The needle is at [i]. *)
Definition occurs (bs needle : list Z) (i : Z) : Prop := window i (i + Z.of_nat (length needle)) bs = needle.

(** [r] is the first occurrence at or after [off], -1 when there is none. *)
Definition first_occurrence (bs needle : list Z) (off r : Z) : Prop :=
  (r = -1 /\ forall i, off <= i -> i + Z.of_nat (length needle) <= Z.of_nat (length bs) -> ~ occurs bs needle i) \/
  (off <= r /\ r + Z.of_nat (length needle) <= Z.of_nat (length bs) /\ occurs bs needle r /\
   forall i, off <= i < r -> ~ occurs bs needle i).

Lemma window_head i n (bs : list Z) :
  0 <= i -> 0 < n -> i + n <= Z.of_nat (length bs) -> List.nth 0 (window i (i + 1) bs) 0 = List.nth 0 (window i (i + n) bs) 0.
Proof.
  intros. unfold window. replace (Z.to_nat (i + 1 - i)) with 1%nat by lia.
  destruct (Z.to_nat (i + n - i)) as [|m] eqn:E; [lia|]. now destruct (drop (Z.to_nat i) bs).
Qed.

(** One step of the search: not here, so the first occurrence is further on. *)
Lemma first_occurrence_step bs needle off r :
  ~ occurs bs needle off -> first_occurrence bs needle (off + 1) r -> first_occurrence bs needle off r.
Proof.
  intros Hn [[-> H]|(H1 & H2 & H3 & H4)].
  - left. split; [done|]. intros i Hi Hb. destruct (decide (i = off)) as [->|]; [done | apply H; lia].
  - right. split_and!; try done; [lia|]. intros i Hi. destruct (decide (i = off)) as [->|]; [done | apply H4; lia].
Qed.

Lemma find_bytes_correct this h w bs needle i fuel :
  wf_heap h -> shows h this w bs -> 0 <= i < 9223372036854775808 -> (0 < length needle)%nat ->
  Z.of_nat (length needle) <= v_len w -> v_len w - i < Z.of_nat fuel ->
  exists r, find_bytes memcmp (v_ab w, v_off w) (v_len w) needle i fuel h = (Return r, h) /\ first_occurrence bs needle i r.
Proof.
  intros Hw Hs. destruct (shows_inv h this w bs Hw Hs) as (_ & _ & _ & Hl & _ & _ & Hbl). set (n := Z.of_nat (length needle)).
  revert i. induction fuel as [|fuel IH]; intros i Hi Hn Hnl Hf; cbn [find_bytes].
  { exists (-1). split; [done|]. left. split; [done|]. intros. lia. }
  fold n. cbv zeta. rewrite u64_id by lia. destruct (Z.leb_spec (i + n) (v_len w)).
  2: { exists (-1). split; [done|]. left. split; [done|]. intros. lia. }
  rewrite (bind_return _ _ _ _ _ (read_shows h this w bs i 1 Hw Hs ltac:(lia) ltac:(lia) ltac:(lia))).
  assert (~ occurs bs needle i ->
    exists r, find_bytes memcmp (v_ab w, v_off w) (v_len w) needle (i + 1) fuel h = (Return r, h) /\ first_occurrence bs needle i r) as Hnext.
  { intros Hno. destruct (IH (i + 1)) as (r & E & Hr); [lia..|]. exists r. split; [done|]. now apply first_occurrence_step. }
  destruct (Z.eqb_spec (List.nth 0 (window i (i + 1) bs) 0) (List.nth 0 needle 0)) as [Eh|Hne].
  - rewrite (bind_return _ _ _ _ _ (read_shows h this w bs i n Hw Hs ltac:(lia) ltac:(lia) ltac:(lia))).
    pose proof (window_length i (i + n) bs ltac:(lia) ltac:(lia)). rewrite memcmp_zero by lia.
    destruct (decide (window i (i + n) bs = needle)) as [Eo|Hno].
    + rewrite bool_decide_eq_true_2 by done. exists i. split; [done|]. right. split_and!; try done; lia.
    + rewrite bool_decide_eq_false_2 by done. now apply Hnext.
  - apply Hnext. intros Ho. apply Hne. rewrite (window_head i n) by lia. unfold occurs in Ho. fold n in Ho. now rewrite Ho.
Qed.

Lemma find_byte_correct this h w bs b i fuel :
  wf_heap h -> shows h this w bs -> 0 <= i -> v_len w - i < Z.of_nat fuel ->
  exists r, find_byte (v_ab w, v_off w) (v_len w) b i fuel h = (Return r, h) /\ first_occurrence bs [b] i r.
Proof.
  intros Hw Hs. destruct (shows_inv h this w bs Hw Hs) as (_ & _ & _ & Hl & _ & _ & Hbl).
  revert i. induction fuel as [|fuel IH]; intros i Hi Hf; cbn [find_byte].
  { exists (-1). split; [done|]. left. split; [done|]. cbn [length]. intros. lia. }
  destruct (Z.ltb_spec i (v_len w)).
  2: { exists (-1). split; [done|]. left. split; [done|]. cbn [length]. intros. lia. }
  rewrite (bind_return _ _ _ _ _ (read_shows h this w bs i 1 Hw Hs ltac:(lia) ltac:(lia) ltac:(lia))).
  assert (exists x, window i (i + 1) bs = [x]) as [x Ex].
  { pose proof (window_length i (i + 1) bs ltac:(lia) ltac:(lia)). destruct (window i (i + 1) bs) as [|x [|? ?]]; cbn in *; [lia | eauto | lia]. }
  rewrite Ex. cbn [List.nth]. destruct (Z.eqb_spec x b) as [->|Hne].
  - exists i. split; [done|]. right. unfold occurs. cbn [length]. split_and!; try done; lia.
  - destruct (IH (i + 1)) as (r & E & Hr); [lia..|]. exists r. split; [done|]. apply first_occurrence_step; [|done].
    unfold occurs. cbn [length]. change (Z.of_nat 1) with 1. rewrite Ex. congruence.
Qed.

(** The bytes that [indexOf] looks for. *)
Definition needle_of (h : heap) (argv : list JSValue) : option (list Z) :=
  match arg argv 0 with
  | Prim (JS_TAG_STRING s) =>
      match (let^ enc := (if (3 <=? length argv)%nat then arg_encoding argv 2 else Return ENC_UTF8) in
             let^ str := JS_ToCStringLen s in
             js_buffer_string_to_bytes (default [] str) enc) with
      | Return r => r
      | _ => None
      end
  | v => if JS_IsNumber v then Some [u8 (Z.land (to_int32_or_0 no_user_code string_to_number v) 255)]
         else view_bytes h v
  end.

Lemma find_needle_of h argv nd :
  wf_heap h -> JS_IsNumber (arg argv 0) = false -> needle_of h argv = Some nd ->
  find_needle argv h = (Return (Some nd), h).
Proof.
  intros Hw Hnum. unfold needle_of, find_needle.
  assert (forall v, view_bytes h v = Some nd ->
    (let! q := js_buffer_get_bytes v in
      match q with Some (q, len) => let! bs := read_mem q 0 len in ret (Some bs) | None => ret None end) h
    = (Return (Some nd), h)) as Hv.
  { intros v Eb. destruct (JS_GetTypedArrayBuffer h v) as [w|] eqn:Ew; [|unfold view_bytes in Eb; now rewrite Ew in Eb].
    assert (shows h v w nd) as Hs by done. destruct (shows_inv h v w nd Hw Hs) as (_ & _ & _ & Hl & _ & _ & Hbl).
    rewrite (bind_return _ _ _ _ _ (get_bytes_shows h v w nd Hs)).
    rewrite (bind_return _ _ _ _ _ (read_shows h v w nd 0 (v_len w) Hw Hs ltac:(lia) ltac:(lia) ltac:(lia))).
    replace (window 0 (0 + v_len w) nd) with nd; [done|]. rewrite <- Hbl. symmetry. apply window_full. }
  destruct (arg argv 0) as [[]|] eqn:Ea; try discriminate; intros E; try now apply Hv in E.
  destruct (if (3 <=? length argv)%nat then _ else _) as [enc|e| |] eqn:Ee; try discriminate E.
  destruct (JS_ToCStringLen s) as [str|e| |] eqn:Es; try discriminate E. cbn [outcome_bind] in E.
  rewrite (run_lift _ enc), (run_lift _ str) by done. unfold lift. destruct (js_buffer_string_to_bytes _ enc); congruence.
Qed.

(** [buf.indexOf(value, offset, encoding)] returns the first index at or
    after the offset where the byte, string or buffer occurs and -1 when there
    is none, and [includes] tells which; the search always ends. *)
Theorem indexOf_correct this argv h w bs nd :
  wf_heap h -> Forall value_ok argv -> shows h this w bs -> (1 <= length argv)%nat ->
  needle_of h argv = Some nd -> (0 < length nd)%nat ->
  exists r, js_buffer_indexOf string_to_number memcmp this argv h = (Return r, h) /\
    first_occurrence bs nd (Z.max 0 (num_int64 argv 1 0)) r /\
    js_buffer_includes string_to_number memcmp this argv h = (Return (negb (r =? -1)), h).
Proof.
  intros Hw Hv Hs Hargc En Hn. destruct (shows_inv h this w bs Hw Hs) as (_ & _ & _ & Hl & _ & _ & Hbl).
  set (off := Z.max 0 (num_int64 argv 1 0)).
  assert (exists r, js_buffer_indexOf string_to_number memcmp this argv h = (Return r, h) /\
    first_occurrence bs nd off r) as (r & E & Hr).
  { unfold js_buffer_indexOf. destruct (Nat.ltb_spec (length argv) 1); [lia|].
    rewrite (bind_return _ _ _ _ _ (get_bytes_shows h this w bs Hs)). cbv zeta.
    assert ((if num_int64 argv 1 0 <? 0 then 0 else num_int64 argv 1 0) = off) as -> by (unfold off; zcases).
    assert (in_s 64 (num_int64 argv 1 0)) as Ho by (now apply num_int64_range, zero64).
    rewrite in_s64 in Ho. destruct (JS_IsNumber (arg argv 0)) eqn:Enum.
    - unfold needle_of in En. assert (nd = [u8 (Z.land (to_int32_or_0 no_user_code string_to_number (arg argv 0)) 255)]) as ->
        by (destruct (arg argv 0) as [[]|]; try discriminate; now injection En as <-).
      apply (find_byte_correct this); [done | done | lia | lia].
    - rewrite (bind_return _ _ _ _ _ (find_needle_of h argv nd Hw Enum En)).
      destruct (Nat.eqb_spec (length nd) 0); [lia|].
      destruct (Z.leb_spec (Z.of_nat (length nd)) (v_len w)).
      + apply (find_bytes_correct this); done || lia.
      + exists (-1). split; [done|]. left. split; [done|]. lia. }
  exists r. split_and!; [done | done |]. unfold js_buffer_includes. rewrite (bind_return _ _ _ _ _ E).
  unfold ret. do 2 f_equal. destruct Hr as [[-> _]|[Hr _]]; [done|].
  destruct (Z.leb_spec 0 r), (Z.eqb_spec r (-1)); lia || done.
Qed.

(** *** Construction *)

Lemma buffer_of_bytes_shows h bs :
  wf_heap h -> bytes bs -> Z.of_nat (length bs) <= INT32_MAX ->
  exists v h' wv, buffer_of_bytes bs h = (Return v, h') /\ wf_heap h' /\ shows h' v wv bs /\ preserved h h' /\
    (forall x wx bx, shows h x wx bx -> v_ab wx <> v_ab wv).
Proof.
  intros Hw Hb Hl. destruct (create_store h (Z.of_nat (length bs)) bs Hw Hb) as (v & h1 & h' & E1 & _ & _ & E2 & Hw' & Hp & Hs & Hf); [lia|].
  exists v, h', (mk_view (next_id h) 0 (Z.of_nat (length bs))). unfold buffer_of_bytes.
  rewrite (bind_return _ _ _ _ _ E1), (bind_return _ _ _ _ _ E2). split_and!; try done.
  rewrite Nat2Z.id, Nat.sub_diag, app_nil_r in Hs. exact Hs.
Qed.

Lemma toString_all this h w bs name enc :
  wf_heap h -> shows h this w bs -> bs <> [] -> arg_encoding [name] 0 = Return enc ->
  js_buffer_toString user_code string_to_number this [name] h = (js_buffer_bytes_to_string bs enc, h).
Proof.
  intros Hw Hs Hne Ee. destruct (shows_inv h this w bs Hw Hs) as (_ & _ & _ & Hl & _ & _ & Hbl).
  assert (0 < v_len w) by (destruct bs; [done | cbn in Hbl; lia]).
  unfold js_buffer_toString. cbn [length Nat.leb]. rewrite (run_lift _ _ _ _ Ee).
  rewrite (bind_return _ _ _ _ _ (get_bytes_shows h this w bs Hs)), !run_opt_int64. cbv zeta. unfold Buffer.opt_int64.
  cbn [length Nat.ltb Nat.leb andb]. change (0 <? 0) with false. cbv iota. rewrite Z.ltb_irrefl.
  destruct (Z.leb_spec (v_len w) 0); [lia|]. rewrite Z.sub_0_r.
  rewrite (bind_return _ _ _ _ _ (read_shows h this w bs 0 (v_len w) Hw Hs ltac:(lia) ltac:(lia) ltac:(lia))).
  rewrite Z.add_0_l, <- Hbl, window_full. done.
Qed.

Lemma from_string s name enc str h :
  arg_encoding [name] 0 = Return enc -> JS_ToCStringLen s = Return (Some str) ->
  js_buffer_from user_code string_to_number [Prim (JS_TAG_STRING s); name] h =
  bind (lift (js_buffer_string_to_bytes str enc)) (fun bs =>
    match bs with None => throw (TypeError "failed to decode string") | Some bs => buffer_of_bytes bs end) h.
Proof.
  intros Ee Es. unfold js_buffer_from. cbn [length Nat.ltb Nat.leb arg List.nth].
  rewrite (run_lift (arg_encoding _ 1) enc), (run_lift _ (Some str)) by done. done.
Qed.

(** The encodings that copy the bytes. *)
Definition copies_text (enc : encoding) : Prop := enc = ENC_UTF8 \/ enc = ENC_ASCII \/ enc = ENC_LATIN1.

Lemma to_c_text s : Forall text_char (units s) -> JS_ToCStringLen s = Return (Some (units s)).
Proof.
  intros H. unfold JS_ToCStringLen. replace (js_string s) with (mk_string false (units s)); [now apply text_to_c|].
  unfold js_string. f_equal. symmetry. apply not_true_iff_false. intros (c & Hc & Hle)%existsb_exists.
  destruct (proj1 (List.Forall_forall _ _) H c Hc) as [_ Hr]. lia.
Qed.

Lemma from_copied s name enc h :
  wf_heap h -> arg_encoding [name] 0 = Return enc -> copies_text enc ->
  units s <> [] -> 3 * Z.of_nat (length (units s)) <= JS_STRING_LEN_MAX ->
  let bs := Utf8Spec.utf8_of (js_string s) false in
  bytes bs /\ Z.of_nat (length bs) <= JS_STRING_LEN_MAX /\ bs <> [] /\ Utf8Spec.decode bs = units s /\
  exists v h' wv, js_buffer_from user_code string_to_number [Prim (JS_TAG_STRING s); name] h = (Return v, h') /\
    wf_heap h' /\ shows h' v wv bs /\ preserved h h' /\ (forall x wx bx, shows h x wx bx -> v_ab wx <> v_ab wv).
Proof.
  intros Hw Ee He Hne Hl bs. unfold StringBuffer.JS_STRING_LEN_MAX in *.
  destruct (string_to_c_ok (js_string s) (js_string_wf s)) as (r & Er & Hr).
  { change (code_units (js_string s)) with (units s). unfold StringBuffer.JS_STRING_LEN_MAX. lia. }
  change (code_units (js_string s)) with (units s) in Hr.
  destruct r as [str|]; [|lia]. destruct Hr as (Estr & Hb & Hlen). fold bs in Estr. subst str.
  pose proof (Utf8Spec.decode_utf8_of (js_string s) false (js_string_wf s)) as Ed. fold bs in Ed. change (code_units (js_string s)) with (units s) in Ed.
  assert (bs <> []) as Hbs by (intros E; rewrite E in Ed; now apply Hne).
  split_and!; [done | lia | done | done |].
  assert (js_buffer_string_to_bytes bs enc = Return (Some bs)) as Eb.
  { rewrite string_to_bytes_spec by (change (2 ^ 61) with 2305843009213693952; lia).
    destruct bs; [done|]. destruct He as [->|[->| ->]]; done. }
  destruct (buffer_of_bytes_shows h bs Hw Hb) as (v & h' & wv & E & Hw' & H); [unfold INT32_MAX; lia|].
  exists v, h', wv. rewrite (from_string s name enc bs h Ee Er), (run_lift _ _ _ _ Eb). done.
Qed.

(** C36: [from] and [toString] agree.  For the encodings that go through UTF-8
    (UTF-8, and also ASCII and Latin-1), [Buffer.from(s, enc)] holds the UTF-8 of the
    string, which [toString(enc)] turns back into the same code units, unpaired
    surrogates included; what it makes of other bytes is their decoding as UTF-8.
    For hexadecimal and Base64, [Buffer.from] of the text that [buf.toString(enc)]
    returns is a new buffer with the same bytes.  The strings and buffers are not
    empty and fit a string. *)
Theorem toString_from_round_trip name enc h :
  wf_heap h -> arg_encoding [name] 0 = Return enc ->
  (copies_text enc -> forall s, units s <> [] -> 3 * Z.of_nat (length (units s)) <= JS_STRING_LEN_MAX ->
    exists v h' wv p,
      js_buffer_from user_code string_to_number [Prim (JS_TAG_STRING s); name] h = (Return v, h') /\
      shows h' v wv (Utf8Spec.utf8_of (js_string s) false) /\ preserved h h' /\
      (forall x wx bx, shows h x wx bx -> v_ab wx <> v_ab wv) /\
      js_buffer_toString user_code string_to_number v [name] h' = (Return p, h') /\ code_units p = units s) /\
  (forall this w bs, shows h this w bs -> bs <> [] -> 2 * Z.of_nat (length bs) + 2 <= JS_STRING_LEN_MAX ->
    (copies_text enc -> exists p,
      js_buffer_toString user_code string_to_number this [name] h = (Return p, h) /\ code_units p = Utf8Spec.decode bs) /\
    (encodes_text enc -> exists p,
      js_buffer_toString user_code string_to_number this [name] h = (Return p, h) /\
      forall s, units s = code_units p ->
        exists v h' wv,
          js_buffer_from user_code string_to_number [Prim (JS_TAG_STRING s); name] h = (Return v, h') /\
          shows h' v wv bs /\ preserved h h' /\ (forall x wx bx, shows h x wx bx -> v_ab wx <> v_ab wv))).
Proof.
  intros Hw Ee. split.
  - intros He s Hne Hl. destruct (from_copied s name enc h Hw Ee He Hne Hl) as (Hb & Hlen & Hbs & Ed & v & h' & wv & E & Hw' & Hs & Hp & Hf).
    destruct (new_string_ok _ Hb Hlen) as (p & Ep & Eu & _). exists v, h', wv, p. split_and!; try done; [|congruence].
    rewrite (toString_all v h' wv _ name enc) by done. destruct He as [->|[->| ->]]; cbn [js_buffer_bytes_to_string]; now rewrite Ep.
  - intros this w bs Hs Hne Hl. pose proof (shows_bytes h this w bs Hw Hs) as Hb.
    rewrite (toString_all this h w bs name enc) by done. unfold StringBuffer.JS_STRING_LEN_MAX in Hl. split; intros He.
    + destruct (new_string_ok bs Hb) as (p & Ep & Eu & _); [unfold StringBuffer.JS_STRING_LEN_MAX; lia|]. exists p. split; [|done].
      destruct He as [->|[->| ->]]; cbn [js_buffer_bytes_to_string]; now rewrite Ep.
    + pose proof (encoded_length bs enc) as Hn. pose proof (encoded_text bs enc) as Ht. exists (mk_string false (encoded bs enc)).
      rewrite bytes_to_string_text, new_string_text by done. unfold StringBuffer.JS_STRING_LEN_MAX.
      destruct (Z.ltb_spec (2 ^ 30 - 1) (Z.of_nat (length (encoded bs enc)))); [lia|]. split; [done|]. intros s Es. cbn [JSStrings.str] in Es.
      assert (js_buffer_string_to_bytes (encoded bs enc) enc = Return (Some bs)) as Eb.
      { rewrite string_to_bytes_spec, decoded_encoded by (done || (change (2 ^ 61) with 2305843009213693952; lia)). now destruct bs. }
      assert (JS_ToCStringLen s = Return (Some (encoded bs enc))) as Er by (rewrite to_c_text; [now rewrite Es | now rewrite Es]).
      destruct (buffer_of_bytes_shows h bs Hw Hb) as (v & h' & wv & E & _ & H'); [unfold INT32_MAX; lia|].
      exists v, h', wv. rewrite (from_string s name enc _ h Ee Er), (run_lift _ _ _ _ Eb). done.
Qed.

(** A value that refers to no object that is yet to be created. *)
Definition allocated (h : heap) (v : JSValue) : Prop :=
  match v with JS_TAG_OBJECT id => id < next_id h | _ => True end.

Lemma create_not_view h size v h' x :
  wf_heap h -> in_s 64 size -> js_buffer_create size h = (Return v, h') -> allocated h x ->
  JS_GetTypedArrayBuffer h x = None -> JS_GetTypedArrayBuffer h' x = None.
Proof.
  intros Hw Hs E Ha. destruct (create_inv size h v h' Hw Hs E) as (_ & _ & ->).
  destruct x as [|id]; [done|]. cbn in *. rewrite lookup_insert_ne by lia.
  destruct (views h !! id) as [w|] eqn:Ew; [|done]. cbn. pose proof (wf_alloc h Hw id w Ew).
  now rewrite lookup_insert_ne by lia.
Qed.

Lemma item_bytes_shows h v w : JS_GetTypedArrayBuffer h v = Some w -> wf_heap h -> shows h v w (item_bytes h v).
Proof.
  intros Ew Hw. destruct (view_inv h v w Ew) as (data & Ea & _). pose proof (shows_intro h v w data Ew Ea) as Hs.
  unfold item_bytes. now rewrite (proj2 Hs).
Qed.

Lemma item_bytes_none h v : JS_GetTypedArrayBuffer h v = None -> item_bytes h v = [].
Proof. intros E. unfold item_bytes, view_bytes. now rewrite E. Qed.

Lemma concat_total_spec h items :
  wf_heap h -> concat_total h items = Z.of_nat (length (List.concat (map (item_bytes h) items))).
Proof.
  intros Hw. induction items as [|v items IH]; cbn [concat_total map List.concat]; [done|].
  rewrite length_app, Nat2Z.inj_add, IH. f_equal.
  destruct (JS_GetTypedArrayBuffer h v) as [w|] eqn:E; [|now rewrite item_bytes_none].
  now destruct (shows_inv h v w _ Hw (item_bytes_shows h v w E Hw)) as (_ & _ & _ & _ & _ & _ & ->).
Qed.

Lemma splice_zeros (acc bs : list Z) n :
  (length acc + length bs <= n)%nat ->
  splice (acc ++ replicate (n - length acc) 0) bs (length acc) = (acc ++ bs) ++ replicate (n - length (acc ++ bs)) 0.
Proof.
  intros H. unfold splice. rewrite take_app_length, <- app_assoc. do 2 f_equal. rewrite drop_app_add, drop_replicate.
  rewrite length_app. f_equal. lia.
Qed.

Lemma take_truncated (T n : nat) (acc bx rest z : list Z) :
  n = Nat.min (length bx) (T - length acc) -> (length acc <= T)%nat ->
  take T ((acc ++ take n bx) ++ rest ++ z) = take T (acc ++ (bx ++ rest) ++ z).
Proof.
  intros -> Ha. rewrite <- !app_assoc. rewrite !(take_app acc), !(take_ge acc) by lia. f_equal.
  destruct (Nat.le_gt_cases (length bx) (T - length acc)).
  - rewrite (take_ge bx) by lia. done.
  - rewrite !take_app_le by (rewrite ?length_take; lia). rewrite take_take. f_equal. lia.
Qed.

(** The copy loop, [h0] being the heap before the result was created. *)
Lemma concat_loop_correct h0 v ab T items acc h :
  wf_heap h0 -> preserved h0 h -> wf_heap h ->
  (forall x, In x items -> JS_GetTypedArrayBuffer h0 x = None -> JS_GetTypedArrayBuffer h x = None) ->
  (forall x wx bx, shows h0 x wx bx -> v_ab wx <> ab) ->
  shows h v (mk_view ab 0 T) (acc ++ replicate (Z.to_nat T - length acc) 0) ->
  Z.of_nat (length acc) <= T <= INT32_MAX ->
  exists h', concat_loop (Some (ab, 0)) items (Z.of_nat (length acc)) T h = (Return tt, h') /\ preserved h0 h' /\
    shows h' v (mk_view ab 0 T)
      (take (Z.to_nat T) (acc ++ List.concat (map (item_bytes h0) items) ++ replicate (Z.to_nat T) 0)).
Proof.
  intros Hw0. change INT32_MAX with 2147483647. revert acc h.
  induction items as [|x items IH]; intros acc h Hp Hw Hnone Hf Hs Hacc; cbn [concat_loop map List.concat app].
  { exists h. split_and!; [done..|]. rewrite take_app, take_ge, take_replicate by lia.
    now replace (Nat.min (Z.to_nat T - length acc) (Z.to_nat T)) with (Z.to_nat T - length acc)%nat by lia. }
  destruct (Z.ltb_spec (Z.of_nat (length acc)) T) as [Hlt|Hge].
  2: { exists h. split_and!; [done..|]. rewrite take_app_length' by lia.
    replace (Z.to_nat T - length acc)%nat with O in Hs by lia. now rewrite app_nil_r in Hs. }
  destruct (JS_GetTypedArrayBuffer h0 x) as [wx|] eqn:Ex.
  2: { unfold bind, js_buffer_get_bytes at 1. rewrite (Hnone x (or_introl eq_refl) Ex). cbn.
    rewrite item_bytes_none by done. cbn [app]. apply IH; try done. intros y Hy. apply Hnone. now right. }
  pose proof (item_bytes_shows h0 x wx Ex Hw0) as Hx0. set (bx := item_bytes h0 x) in *. pose proof (Hp _ _ _ Hx0) as Hx.
  destruct (shows_inv h x wx bx Hw Hx) as (_ & _ & _ & Hl & _ & _ & Hbl).
  rewrite (bind_return _ _ _ _ _ (get_bytes_shows h x wx bx Hx)). cbv zeta. rewrite u64_id by lia.
  set (off := Z.of_nat (length acc)) in *. set (n := if off + v_len wx <=? T then v_len wx else T - off).
  assert (n = Z.min (v_len wx) (T - off)) as En by (unfold n; zcases).
  rewrite (bind_return _ _ _ _ _ (read_shows h x wx bx 0 n Hw Hx ltac:(lia) ltac:(lia) ltac:(lia))).
  assert (window 0 (0 + n) bx = take (Z.to_nat n) bx) as ->
    by (unfold window; now replace (Z.to_nat (0 + n - 0)) with (Z.to_nat n) by lia).
  set (cp := take (Z.to_nat n) bx). assert (Z.of_nat (length cp) = n) as Hcp by (unfold cp; rewrite length_take; lia).
  destruct (write_shows h v _ _ off cp Hw Hs) as (h' & E & Hw' & Hs' & _ & _ & Hg & Hpw);
    [lia | cbn; lia | apply Forall_take, (shows_bytes h x wx bx Hw Hx) |].
  cbn [v_ab v_off] in E. rewrite (bind_return _ _ _ _ _ E).
  replace (Z.to_nat off) with (length acc) in Hs' by lia. rewrite splice_zeros in Hs' by lia.
  replace (off + n) with (Z.of_nat (length (acc ++ cp))) by (rewrite length_app; lia).
  destruct (IH (acc ++ cp) h') as (h2 & E2 & Hp2 & Hs2); try done.
  - intros y wy by' Hy. apply Hpw; [now apply Hp | cbn; now apply (Hf y wy by')].
  - intros y Hy En'. rewrite Hg. apply Hnone; [now right | done].
  - rewrite length_app. lia.
  - exists h2. split_and!; [done..|]. unfold cp in Hs2. rewrite take_truncated in Hs2 by lia. exact Hs2.
Qed.

Lemma map_nth_items {A} (d : A) l : map (fun i => List.nth (Z.to_nat (Z.of_nat i)) l d) (seq 0 (length l)) = l.
Proof.
  rewrite (map_ext _ (fun i => List.nth i l d)) by (intros; now rewrite Nat2Z.id).
  induction l as [|x l IH]; [done|]. cbn [length seq map List.nth]. f_equal. now rewrite <- seq_shift, map_map.
Qed.

(** [Buffer.concat(list, totalLength)] returns a new buffer with the
    contents of the buffers of the list in order, other items skipped, cut or
    padded with zeros to the total length when it is given; a total over the
    2 GB limit throws. *)
Theorem concat_correct argv h items :
  wf_heap h -> Forall value_ok argv -> (1 <= length argv)%nat ->
  array_items h (arg argv 0) = Some items -> items <> [] -> Forall (allocated h) items ->
  let all := List.concat (map (item_bytes h) items) in
  let total := opt_int64 argv 1 (-1) in
  let T := if total <? 0 then Z.of_nat (length all) else total in
  if T <=? INT32_MAX then
    exists v h' wv, js_buffer_concat user_code string_to_number argv h = (Return v, h') /\
      shows h' v wv (take (Z.to_nat T) (all ++ replicate (Z.to_nat T) 0)) /\ preserved h h'
  else
    exists e, js_buffer_concat user_code string_to_number argv h = (Exception (RangeError e), h).
Proof.
  intros Hw Hv Hargc Ei Hne Halloc all total T. unfold js_buffer_concat. destruct (Nat.ltb_spec (length argv) 1); [lia|].
  rewrite (bind_return _ _ _ _ _ (eq_refl : get h = (Return h, h))).
  assert (array_length h (arg argv 0) = length items) as -> by (unfold array_length; rewrite Ei; now destruct (arg argv 0)).
  cbv zeta. destruct (Nat.eqb_spec (length items) 0) as [E0|_]; [now destruct items|].
  rewrite run_opt_int64. rewrite (bind_return _ _ _ _ _ (eq_refl : get h = (Return h, h))).
  unfold array_item. rewrite Ei. cbn [default from_option]. unfold id. rewrite map_nth_items.
  rewrite concat_total_spec by done. fold all total T.
  assert (in_s 64 T) as HT.
  { unfold T. destruct (Z.ltb_spec total 0); [|apply opt_int64_range; [done..|split; [discriminate | reflexivity]]].
    pose proof (concat_total_bound h items Hw) as Hb. rewrite concat_total_spec in Hb by done. fold all in Hb.
    pose proof (array_items_length h _ items Hw Ei). rewrite in_s64. lia. }
  assert (0 <= T) as HT0 by (unfold T; zcases).
  destruct (Z.leb_spec T INT32_MAX) as [Hmax|Hmax].
  - destruct (create_shows h T Hw ltac:(lia)) as (v & h1 & E1 & Hw1 & Ev & Hs1 & Hp1 & _ & Hf).
    rewrite (bind_return _ _ _ _ _ E1), (bind_return _ _ _ _ _ (get_bytes_shows h1 v _ _ Hs1)). cbn [fst fmap option_fmap option_map v_ab v_off].
    destruct (concat_loop_correct h v (next_id h) T items [] h1) as (h' & E & Hp & Hs'); try done.
    + intros x Hx. apply (create_not_view h T v h1 x Hw HT E1). exact (proj1 (List.Forall_forall _ _) Halloc x Hx).
    + cbn [length app]. rewrite Nat.sub_0_r. exact Hs1.
    + cbn [length] in E. change (Z.of_nat 0) with 0 in E. exists v, h', (mk_view (next_id h) 0 T).
      rewrite (bind_return _ _ _ _ _ E). done.
  - unfold bind, js_buffer_create. rewrite sgn_small by (done || lia). destruct (_ || _); [eauto|].
    destruct (Z.ltb_spec INT32_MAX T); [eauto | lia].
Qed.

(** *** Byte swapping *)

Abbreviation at_ k bs := (List.nth (Z.to_nat k) bs 0).

(** The index that takes its place: in the element of [size] bytes, from the other end. *)
Definition mirror (size k : Z) : Z := k - k mod size + (size - 1 - k mod size).

Lemma nth_splice1 bs x i k :
  0 <= i < Z.of_nat (length bs) -> 0 <= k -> at_ k (splice bs [x] (Z.to_nat i)) = if k =? i then x else at_ k bs.
Proof.
  intros Hi Hk. rewrite !nth_lookup, splice_lookup by (cbn; lia). cbn [length].
  destruct (decide _), (Z.eqb_spec k i) as [->|]; try lia; rewrite ?Nat.sub_diag; done.
Qed.

Lemma window_one i bs : 0 <= i < Z.of_nat (length bs) -> window i (i + 1) bs = [at_ i bs].
Proof.
  intros Hi. apply list_eq. intros k. rewrite window_lookup. replace (Z.to_nat (i + 1 - i)) with 1%nat by lia.
  destruct k as [|k]; cbn; [|done]. rewrite Nat.add_0_r.
  destruct (lookup_lt_is_Some_2 bs (Z.to_nat i)) as [x Ex]; [lia|]. now rewrite Ex, (nth_lookup_Some _ _ _ _ Ex).
Qed.

Lemma at_byte k bs : bytes bs -> byte (at_ k bs).
Proof.
  intros H. destruct (Nat.ltb_spec (Z.to_nat k) (length bs)).
  - apply (proj1 (List.Forall_forall _ _) H). now apply nth_In.
  - rewrite nth_overflow by done. split; [discriminate | reflexivity].
Qed.

Lemma swap_bytes_shows h this w bs i j :
  wf_heap h -> shows h this w bs -> 0 <= i < v_len w -> 0 <= j < v_len w ->
  exists h' bs', swap_bytes (v_ab w, v_off w) i j h = (Return tt, h') /\ wf_heap h' /\ shows h' this w bs' /\
    forall k, 0 <= k -> at_ k bs' = if k =? j then at_ i bs else if k =? i then at_ j bs else at_ k bs.
Proof.
  intros Hw Hs Hi Hj. destruct (shows_inv h this w bs Hw Hs) as (_ & _ & _ & Hl & _ & _ & Hbl).
  pose proof (shows_bytes h this w bs Hw Hs) as Hb. unfold swap_bytes.
  rewrite (bind_return _ _ _ _ _ (read_shows h this w bs i 1 Hw Hs ltac:(lia) ltac:(lia) ltac:(lia))).
  rewrite (bind_return _ _ _ _ _ (read_shows h this w bs j 1 Hw Hs ltac:(lia) ltac:(lia) ltac:(lia))).
  rewrite !window_one by lia.
  destruct (write_shows h this w bs i [at_ j bs] Hw Hs) as (h1 & E1 & Hw1 & Hs1 & _);
    [lia | cbn; lia | constructor; [now apply at_byte | done] |].
  destruct (write_shows h1 this w _ j [at_ i bs] Hw1 Hs1) as (h2 & E2 & Hw2 & Hs2 & _);
    [lia | cbn; lia | constructor; [now apply at_byte | done] |].
  rewrite (bind_return _ _ _ _ _ E1), E2. eexists _, _. split_and!; [reflexivity | done | exact Hs2 |].
  intros k Hk. rewrite nth_splice1 by (rewrite ?splice_length; cbn [length]; lia). now rewrite nth_splice1 by lia.
Qed.

(** Case analysis on the ranges of an index. *)
Ltac ranges := repeat zcase; cbn [andb orb]; first [lia | done | f_equal; lia].

Lemma swap_element_shows h this w bs size i j n :
  wf_heap h -> shows h this w bs -> 0 <= i -> i + size <= v_len w -> 0 <= j -> 2 * (j + Z.of_nat n) <= size ->
  exists h' bs', swap_element (v_ab w, v_off w) size i j n h = (Return tt, h') /\ wf_heap h' /\ shows h' this w bs' /\
    forall k, 0 <= k -> at_ k bs' =
      if ((i + j <=? k) && (k <? i + j + Z.of_nat n)) || ((i + size - j - Z.of_nat n <=? k) && (k <? i + size - j))
      then at_ (2 * i + size - 1 - k) bs else at_ k bs.
Proof.
  revert h bs j. induction n as [|n IH]; intros h bs j Hw Hs Hi Hsz Hj Hn; cbn [swap_element].
  { exists h, bs. split_and!; [done..|]. intros k Hk. ranges. }
  destruct (swap_bytes_shows h this w bs (i + j) (i + size - 1 - j) Hw Hs) as (h1 & b1 & E1 & Hw1 & Hs1 & Hk1); [lia..|].
  destruct (IH h1 b1 (j + 1) Hw1 Hs1) as (h2 & b2 & E2 & Hw2 & Hs2 & Hk2); [lia..|].
  exists h2, b2. rewrite (bind_return _ _ _ _ _ E1). split_and!; [done..|]. intros k Hk. rewrite Hk2 by done.
  destruct ((i + (j + 1) <=? k) && (k <? i + (j + 1) + Z.of_nat n) || (i + size - (j + 1) - Z.of_nat n <=? k) && (k <? i + size - (j + 1))) eqn:E.
  - assert (i + (j + 1) <= k < i + (j + 1) + Z.of_nat n \/ i + size - (j + 1) - Z.of_nat n <= k < i + size - (j + 1)) as Hin by lia. clear E.
    rewrite Hk1 by lia.
    destruct (Z.eqb_spec (2 * i + size - 1 - k) (i + size - 1 - j)), (Z.eqb_spec (2 * i + size - 1 - k) (i + j)); try lia.
    ranges.
  - assert (~ (i + (j + 1) <= k < i + (j + 1) + Z.of_nat n \/ i + size - (j + 1) - Z.of_nat n <= k < i + size - (j + 1))) as Hout by lia.
    clear E. rewrite Hk1 by done. destruct (Z.eqb_spec k (i + size - 1 - j)) as [->|].
    + ranges.
    + destruct (Z.eqb_spec k (i + j)) as [->|]; ranges.
Qed.

Lemma swap_loop_shows h this w bs size i fuel :
  wf_heap h -> shows h this w bs -> size = 2 \/ size = 4 \/ size = 8 -> 0 <= i -> i mod size = 0 -> v_len w mod size = 0 ->
  v_len w - i <= Z.of_nat fuel ->
  exists h' bs', swap_loop (v_ab w, v_off w) size (v_len w) i fuel h = (Return tt, h') /\ wf_heap h' /\ shows h' this w bs' /\
    forall k, 0 <= k -> at_ k bs' = if (i <=? k) && (k <? v_len w) then at_ (mirror size k) bs else at_ k bs.
Proof.
  intros Hw Hs Hsize. revert h bs i Hw Hs. induction fuel as [|fuel IH]; intros h bs i Hw Hs Hi Him Hlm Hf; cbn [swap_loop].
  { exists h, bs. split_and!; [done..|]. intros k Hk. ranges. }
  destruct (Z.ltb_spec i (v_len w)).
  2: { exists h, bs. split_and!; [done..|]. intros k Hk. ranges. }
  assert (i + size <= v_len w /\ 2 * (0 + Z.of_nat (Z.to_nat (size / 2))) = size /\ (i + size) mod size = 0) as (Hb & Hh & Hm)
    by (destruct Hsize as [->|[->| ->]]; split_and!; try reflexivity; Z.div_mod_to_equations; lia).
  destruct (swap_element_shows h this w bs size i 0 (Z.to_nat (size / 2)) Hw Hs) as (h1 & b1 & E1 & Hw1 & Hs1 & Hk1); [lia..|].
  destruct (IH h1 b1 (i + size) Hw1 Hs1) as (h2 & b2 & E2 & Hw2 & Hs2 & Hk2); [lia..|].
  exists h2, b2. rewrite (bind_return _ _ _ _ _ E1). split_and!; [done..|]. intros k Hk. rewrite Hk2 by done.
  assert (i + size <= k -> i + size <= mirror size k) as Hmir1
    by (unfold mirror; destruct Hsize as [->|[->| ->]]; intros; Z.div_mod_to_equations; lia).
  assert (i <= k < i + size -> mirror size k = 2 * i + size - 1 - k) as Hmir2
    by (unfold mirror; destruct Hsize as [->|[->| ->]]; intros; Z.div_mod_to_equations; lia).
  destruct (Z.leb_spec (i + size) k).
  - cbn [andb]. assert ((i <=? k) = true) as -> by lia. cbn [andb]. destruct (Z.ltb_spec k (v_len w)); rewrite Hk1 by lia; ranges.
  - cbn [andb]. rewrite Hk1 by done. destruct (Z.leb_spec i k); cbn [andb].
    + rewrite Hmir2 by lia. ranges.
    + ranges.
Qed.

Lemma mirror_involutive size k : size = 2 \/ size = 4 \/ size = 8 -> 0 <= k -> 0 <= mirror size k /\ mirror size (mirror size k) = k.
Proof. unfold mirror. intros [->|[->| ->]] Hk; Z.div_mod_to_equations; lia. Qed.

(** The whole buffer, whose length is a multiple of the element size. *)
Lemma swap_shows this size h w bs :
  wf_heap h -> shows h this w bs -> size = 2 \/ size = 4 \/ size = 8 -> v_len w mod size = 0 ->
  exists h' bs', js_buffer_swap this size h = (Return this, h') /\ wf_heap h' /\ shows h' this w bs' /\
    forall k, 0 <= k < v_len w -> at_ k bs' = at_ (mirror size k) bs.
Proof.
  intros Hw Hs Hsize Hm. destruct (shows_inv h this w bs Hw Hs) as (_ & _ & _ & Hl & _ & _ & Hbl).
  destruct (swap_loop_shows h this w bs size 0 (Z.to_nat (v_len w)) Hw Hs Hsize) as (h' & bs' & E & Hw' & Hs' & Hk);
    [lia | now apply Zmod_0_l | done | lia |].
  exists h', bs'. unfold js_buffer_swap. rewrite (bind_return _ _ _ _ _ (get_bytes_shows h this w bs Hs)).
  rewrite Hm. cbn [Z.eqb negb]. rewrite (bind_return _ _ _ _ _ E). split_and!; [done..|].
  intros k Hk'. rewrite Hk by lia. ranges.
Qed.

(** [swap16], [swap32] and [swap64] reverse the bytes of every element in
    place, and throw when the length is not a multiple of the element size;
    doing it twice restores the buffer. *)
Theorem swap_correct this size h w bs :
  wf_heap h -> shows h this w bs -> size = 2 \/ size = 4 \/ size = 8 ->
  if v_len w mod size =? 0 then
    exists h' bs', js_buffer_swap this size h = (Return this, h') /\ shows h' this w bs' /\
      (forall k, 0 <= k < v_len w -> at_ k bs' = at_ (mirror size k) bs) /\
      exists h'', js_buffer_swap this size h' = (Return this, h'') /\ shows h'' this w bs
  else exists e, js_buffer_swap this size h = (Exception (RangeError e), h).
Proof.
  intros Hw Hs Hsize. destruct (shows_inv h this w bs Hw Hs) as (_ & _ & _ & Hl & _ & _ & Hbl).
  destruct (Z.eqb_spec (v_len w mod size) 0) as [Hm|Hm].
  - destruct (swap_shows this size h w bs Hw Hs Hsize Hm) as (h1 & b1 & E1 & Hw1 & Hs1 & Hk1).
    destruct (swap_shows this size h1 w b1 Hw1 Hs1 Hsize Hm) as (h2 & b2 & E2 & Hw2 & Hs2 & Hk2).
    exists h1, b1. split_and!; [done..|]. exists h2. split; [done|]. replace bs with b2; [done|].
    destruct (shows_inv h2 this w b2 Hw2 Hs2) as (_ & _ & _ & _ & _ & _ & Hb2).
    apply (nth_ext _ _ 0 0); [lia|]. intros n Hn. specialize (Hk2 (Z.of_nat n) ltac:(lia)). rewrite Nat2Z.id in Hk2. rewrite Hk2.
    destruct (mirror_involutive size (Z.of_nat n) Hsize ltac:(lia)) as [Hm0 Hmm].
    assert (mirror size (Z.of_nat n) < v_len w) as Hlt.
    { revert Hsize Hm Hn Hb2. unfold mirror. clear. intros [->|[->| ->]] ? ? ?; Z.div_mod_to_equations; lia. }
    rewrite Hk1 by lia. rewrite Hmm. now rewrite Nat2Z.id.
  - unfold js_buffer_swap. rewrite (bind_return _ _ _ _ _ (get_bytes_shows h this w bs Hs)).
    destruct (Z.eqb_spec (v_len w mod size) 0); [done|]. cbn [negb]. eexists. reflexivity.
Qed.
End Functions.

(** ** A concrete heap

    Object 2 shows eight bytes, object 3 four of them, object 4 is the array
    [[b, 5, c]] of both. *)

Definition demo_heap : heap :=
  mk_heap {[1 := Some (lit "Hello!!!")]} (<[2 := mk_view 1 0 8]> {[3 := mk_view 1 2 4]})
          {[4 := [JS_TAG_OBJECT 2; int 5; JS_TAG_OBJECT 3]]} 5.

Abbreviation b := (JS_TAG_OBJECT 2).
Abbreviation c := (JS_TAG_OBJECT 3).

Lemma demo_heap_wf : wf_heap demo_heap.
Proof.
  split; cbn [arrays views lists next_id demo_heap].
  - intros ab data H. apply lookup_singleton_Some in H as [_ [= <-]]. apply (lit_bytes "Hello!!!").
  - intros ab data H. apply lookup_singleton_Some in H as [_ [= <-]]. now vm_compute.
  - intros id w H. apply lookup_insert_Some in H as [[_ <-]|[_ H]]; [|apply lookup_singleton_Some in H as [_ <-]];
      (split; [discriminate | split; discriminate]).
  - intros id items H. apply lookup_singleton_Some in H as [_ <-]. reflexivity.
  - intros id w H. apply lookup_insert_Some in H as [[_ <-]|[_ H]]; [|apply lookup_singleton_Some in H as [_ <-]]; reflexivity.
  - intros id H. rewrite lookup_singleton_ne, lookup_insert_ne, lookup_singleton_ne by lia. done.
Qed.

Lemma demo_shows_b : shows demo_heap b (mk_view 1 0 8) (lit "Hello!!!").
Proof. split; vm_compute; reflexivity. Qed.
Lemma demo_shows_c : shows demo_heap c (mk_view 1 2 4) (lit "llo!").
Proof. split; vm_compute; reflexivity. Qed.

Lemma lex_diff_memcmp : memcmp_ok lex_diff.
Proof.
  intros x. induction x as [|x xs IH]; intros [|y ys] H; cbn in *; try done.
  destruct (Z.eqb_spec x y) as [->|]; [rewrite Z.compare_refl; auto|].
  rewrite <- Z.compare_sub. destruct (Z.compare_spec x y); [lia | done..].
Qed.

Ltac ok_args := repeat apply List.Forall_cons; try apply List.Forall_nil; now vm_compute.

Lemma slice_correct_witness :
  exists v h' wv, js_buffer_slice (quiet no_object) nan_string b [int (-6); int 4] demo_heap = (Return v, h') /\
    shows h' v wv (lit "ll") /\ preserved demo_heap h' /\
    (forall x wx bx, shows demo_heap x wx bx -> v_ab wx <> v_ab wv).
Proof.
  apply (slice_correct no_object nan_string no_object_host b [int (-6); int 4] demo_heap (mk_view 1 0 8) (lit "Hello!!!") demo_heap_wf);
    [ok_args | exact demo_shows_b].
Defined.

(** With one argument the start is not read: [b.slice(5)] is the whole of [b],
    where [b.subarray(5)] is its last three bytes. *)
Example slice_one_argument :
  (let '(o, h) := js_buffer_slice (quiet no_object) nan_string b [int 5] demo_heap in
   match o with Return v => view_bytes h v | _ => None end) = Some (lit "Hello!!!") /\
  (let '(o, h) := js_buffer_subarray (quiet no_object) nan_string b [int 5] demo_heap in
   match o with Return v => view_bytes h v | _ => None end) = Some (lit "!!!").
Proof. split; vm_compute; reflexivity. Qed.

Lemma subarray_correct_witness :
  exists v h' wv, js_buffer_subarray (quiet no_object) nan_string b [int 1; int (-4)] demo_heap = (Return v, h') /\
    shows h' v wv (lit "ell") /\ preserved demo_heap h' /\
    forall d bs', 0 <= d -> d + Z.of_nat (length bs') <= 3 -> bytes bs' -> 1 < 4 ->
      exists h'', store_into v d bs' h' = (Return tt, h'') /\
        shows h'' v wv (splice (lit "ell") bs' (Z.to_nat d)) /\
        shows h'' b (mk_view 1 0 8) (splice (lit "Hello!!!") bs' (Z.to_nat (1 + d))).
Proof.
  apply (subarray_correct no_object nan_string no_object_host b [int 1; int (-4)] demo_heap (mk_view 1 0 8) (lit "Hello!!!") demo_heap_wf);
    [ok_args | exact demo_shows_b].
Defined.

Lemma uint_write_read_witness :
  exists h' bs', js_buffer_writeUInt (quiet no_object) nan_string b [int (-2); int 4] 32 true demo_heap = (Return b, h') /\
    Z.of_nat (length bs') = 4 /\ shows h' b (mk_view 1 0 8) (splice (lit "Hello!!!") bs' 4) /\
    forall argv', opt_int64 no_object nan_string argv' 0 0 = 4 ->
      js_buffer_readUInt (quiet no_object) nan_string b argv' 32 true h' = (Return (-2), h').
Proof.
  apply (uint_write_read no_object nan_string no_object_host b [int (-2); int 4] 32 true demo_heap (mk_view 1 0 8) (lit "Hello!!!") demo_heap_wf);
    [ok_args | exact demo_shows_b | auto | auto].
Defined.

Lemma fill_correct_witness : exists byte, fill_value nan_string (str "xyz") = Return byte /\
  exists h', js_buffer_fill nan_string c [str "xyz"; int 1; int 3] demo_heap = (Return c, h') /\
    shows h' c (mk_view 1 2 4) (splice (lit "llo!") (replicate 2 byte) 1).
Proof.
  apply (fill_correct nan_string c [str "xyz"; int 1; int 3] demo_heap (mk_view 1 2 4) (lit "llo!") demo_heap_wf);
    [ok_args | exact demo_shows_c | cbn; lia].
Defined.

Lemma write_correct_witness :
  exists h', js_buffer_write (quiet no_object) nan_string c [str "776f"; int 1; int 9; str "hex"] demo_heap = (Return (int_value 2), h') /\
    shows h' c (mk_view 1 2 4) (lit "lwo!").
Proof.
  apply (write_correct no_object nan_string c [str "776f"; int 1; int 9; str "hex"] demo_heap (mk_view 1 2 4) (lit "llo!")
    "776f" (lit "776f") ENC_HEX demo_heap_wf); [ok_args | exact demo_shows_c | reflexivity | vm_compute; reflexivity..].
Defined.

(** Source and target overlap. *)
Lemma copy_correct_witness :
  exists h', js_buffer_copy (quiet no_object) nan_string b [c; int 1; int 1] demo_heap = (Return (int_value 3), h') /\
    shows h' c (mk_view 1 2 4) (lit "lell").
Proof.
  apply (copy_correct no_object nan_string b [c; int 1; int 1] demo_heap (mk_view 1 0 8) (mk_view 1 2 4) (lit "Hello!!!") (lit "llo!") demo_heap_wf);
    [ok_args | exact demo_shows_b | exact demo_shows_c | vm_compute; reflexivity | cbn; lia].
Defined.

Lemma copy_out_of_bounds_witness :
  js_buffer_copy (quiet no_object) nan_string b [c; int 5] demo_heap = (Crash, demo_heap) /\
  js_buffer_copy (quiet no_object) nan_string b [c; int 2; int 4; int 3] demo_heap = (Crash, demo_heap).
Proof.
  split.
  - apply (copy_out_of_bounds no_object nan_string no_object_host b [c; int 5] demo_heap (mk_view 1 0 8) (mk_view 1 2 4)
      (lit "Hello!!!") (lit "llo!") demo_heap_wf); [ok_args | exact demo_shows_b | exact demo_shows_c | cbn; lia | left; vm_compute; split; done].
  - apply (copy_out_of_bounds no_object nan_string no_object_host b [c; int 2; int 4; int 3] demo_heap (mk_view 1 0 8) (mk_view 1 2 4)
      (lit "Hello!!!") (lit "llo!") demo_heap_wf); [ok_args | exact demo_shows_b | exact demo_shows_c | cbn; lia | right].
    vm_compute. split; [split; discriminate | discriminate].
Defined.

Lemma compare_equals_correct_witness :
  (exists d, js_buffer_compare_inst lex_diff b [c] demo_heap = (Return (int_value d), demo_heap) /\ (d ?= 0) = Lt) /\
  js_buffer_equals lex_diff b [c] demo_heap = (Return (bool_value false), demo_heap).
Proof.
  apply (compare_equals_correct lex_diff lex_diff_memcmp b c [c] demo_heap _ _ _ _ demo_heap_wf demo_shows_b demo_shows_c);
    [reflexivity | cbn; lia].
Defined.

Lemma indexOf_correct_witness :
  exists r, js_buffer_indexOf nan_string lex_diff b [c; int 1] demo_heap = (Return r, demo_heap) /\
    first_occurrence (lit "Hello!!!") (lit "llo!") 1 r /\
    js_buffer_includes nan_string lex_diff b [c; int 1] demo_heap = (Return (negb (r =? -1)), demo_heap).
Proof.
  apply (indexOf_correct nan_string lex_diff lex_diff_memcmp b [c; int 1] demo_heap (mk_view 1 0 8) (lit "Hello!!!") (lit "llo!") demo_heap_wf);
    [ok_args | exact demo_shows_b | cbn; lia | vm_compute; reflexivity | cbn; lia].
Defined.

(** "h\u00e9!" in UTF-8, and the Base64 text of the bytes that [c] shows. *)
Definition accented : string := String "h" (String (ascii_of_nat 195) (String (ascii_of_nat 169) "!")).

Lemma toString_from_round_trip_witness :
  (exists v h' wv p,
    js_buffer_from (quiet no_object) nan_string [str accented; str "latin1"] demo_heap = (Return v, h') /\
    shows h' v wv (Utf8Spec.utf8_of (js_string accented) false) /\ preserved demo_heap h' /\
    (forall x wx bx, shows demo_heap x wx bx -> v_ab wx <> v_ab wv) /\
    js_buffer_toString (quiet no_object) nan_string v [str "latin1"] h' = (Return p, h') /\ code_units p = [104; 233; 33]) /\
  (exists p,
    js_buffer_toString (quiet no_object) nan_string c [str "base64"] demo_heap = (Return p, demo_heap) /\
    forall s, units s = code_units p ->
      exists v h' wv,
        js_buffer_from (quiet no_object) nan_string [str s; str "base64"] demo_heap = (Return v, h') /\
        shows h' v wv (lit "llo!") /\ preserved demo_heap h' /\ (forall x wx bx, shows demo_heap x wx bx -> v_ab wx <> v_ab wv)).
Proof.
  split.
  - apply (toString_from_round_trip no_object nan_string (str "latin1") ENC_LATIN1 demo_heap demo_heap_wf);
      [vm_compute; reflexivity | unfold copies_text; auto | discriminate | now vm_compute].
  - apply (toString_from_round_trip no_object nan_string (str "base64") ENC_BASE64 demo_heap demo_heap_wf) with (w := mk_view 1 2 4);
      [vm_compute; reflexivity | exact demo_shows_c | discriminate | now vm_compute | unfold encodes_text; auto].
Defined.

(** [Buffer.from([255]).toString("latin1")] is U+FFFD, where Latin-1 has U+00FF. *)
Example latin1_is_utf8 :
  fst (js_buffer_toString (quiet no_object) nan_string (JS_TAG_OBJECT 2) [str "latin1"]
    (mk_heap {[1 := Some [255]]} {[2 := mk_view 1 0 1]} ∅ 3)) = Return (mk_string true [65533]).
Proof. vm_compute. reflexivity. Qed.

Lemma concat_correct_witness :
  exists v h' wv, js_buffer_concat (quiet no_object) nan_string [JS_TAG_OBJECT 4; int 14] demo_heap = (Return v, h') /\
    shows h' v wv (lit "Hello!!!llo!" ++ [0; 0]) /\ preserved demo_heap h'.
Proof.
  apply (concat_correct no_object nan_string no_object_host [JS_TAG_OBJECT 4; int 14] demo_heap
    [b; int 5; c] demo_heap_wf); [ok_args | cbn; lia | reflexivity | discriminate | ok_args].
Defined.

Lemma swap_correct_witness :
  exists h' bs', js_buffer_swap c 4 demo_heap = (Return c, h') /\ shows h' c (mk_view 1 2 4) bs' /\
    (forall k, 0 <= k < 4 -> List.nth (Z.to_nat k) bs' 0 = List.nth (Z.to_nat (mirror 4 k)) (lit "llo!") 0) /\
    exists h'', js_buffer_swap c 4 h' = (Return c, h'') /\ shows h'' c (mk_view 1 2 4) (lit "llo!").
Proof.
  apply (swap_correct c 4 demo_heap (mk_view 1 2 4) (lit "llo!") demo_heap_wf demo_shows_c). auto.
Defined.
