(* ===== verification/MapKey.v ===== *)
(** * The keys of Map and Set: equality and hash

    [js_same_value_zero] ([src/core/quickjs.c], 15373 and 15522) and
    [map_hash_key] (51222) on the values of [Numeric].  A string is compared and
    hashed by its code units, a parameter of the model, as is the address of an
    object or symbol. *)

From Stdlib Require Import ZArith Lia Bool String.
From stdpp Require Import base numbers list option strings.
From S2P Require Import Prelude Limbs BigInt Numeric BigIntFloat BigIntOps.

#[local] Open Scope Z_scope.

(** ** Definitions *)

(** [JS_VALUE_GET_NORM_TAG], with the numbers of the enumeration. *)
Definition tag_of (v : JSValue) : Z :=
  match v with
  | JS_TAG_OBJECT _ => -1
  | Prim p =>
      match p with
      | JS_TAG_BIG_INT _ => -9
      | JS_TAG_SYMBOL _ => -8
      | JS_TAG_STRING _ => -7
      | JS_TAG_INT _ => 0
      | JS_TAG_BOOL _ => 1
      | JS_TAG_NULL => 2
      | JS_TAG_UNDEFINED => 3
      | JS_TAG_SHORT_BIG_INT _ => 7
      | JS_TAG_FLOAT64 _ => 8
      end
  end.

(** [d1 == d2] on doubles. *)
Definition f64_eq (u1 u2 : Z) : bool :=
  negb (f64_isnan u1) && negb (f64_isnan u2) && (f64_scaled u1 =? f64_scaled u2).

(** [number_test] in the mode [JS_EQ_SAME_VALUE_ZERO]. *)
Definition same_number (d1 d2 : Z) : bool :=
  if f64_isnan d1 || f64_isnan d2 then Bool.eqb (f64_isnan d1) (f64_isnan d2) else f64_eq d1 d2.

Definition js_same_value_zero (op1 op2 : JSValue) : bool :=
  match op1, op2 with
  | JS_TAG_OBJECT p1, JS_TAG_OBJECT p2 => p1 =? p2
  | Prim a, Prim b =>
      match a, b with
      | JS_TAG_BOOL x, JS_TAG_BOOL y => Bool.eqb x y
      | JS_TAG_NULL, JS_TAG_NULL => true
      | JS_TAG_UNDEFINED, JS_TAG_UNDEFINED => true
      | JS_TAG_STRING s1, JS_TAG_STRING s2 => String.eqb s1 s2
      | JS_TAG_SYMBOL p1, JS_TAG_SYMBOL p2 => p1 =? p2
      | JS_TAG_INT v1, JS_TAG_INT v2 => same_number (f64_of_Z v1) (f64_of_Z v2)
      | JS_TAG_INT v1, JS_TAG_FLOAT64 d2 => same_number (f64_of_Z v1) d2
      | JS_TAG_FLOAT64 d1, JS_TAG_INT v2 => same_number d1 (f64_of_Z v2)
      | JS_TAG_FLOAT64 d1, JS_TAG_FLOAT64 d2 => same_number d1 d2
      | _, _ =>
          match bigint_operand a, bigint_operand b with
          | Some p1, Some p2 => js_bigint_cmp p1 p2 =? 0
          | _, _ => false
          end
      end
  | _, _ => false
  end.

Definition map_normalize_key (key : JSValue) : JSValue :=
  match key with
  | Prim (JS_TAG_FLOAT64 u) => if f64_eq u 0 then Prim (JS_TAG_INT 0) else key
  | _ => key
  end.

Definition HASH_MUL32 : Z := 0x61C88647.
Definition HASH_MUL64 : Z := 0x61C8864680B583EB.

Definition map_hash32 (a hash_bits : Z) : Z := Z.shiftr (u32 (a * HASH_MUL32)) (32 - hash_bits).
Definition map_hash64 (a hash_bits : Z) : Z := u32 (Z.shiftr (u64 (a * HASH_MUL64)) (64 - hash_bits)).

(** [h = h * 263 + c] over 32-bit [h]. *)
Definition hash_units (units : list Z) (h : Z) : Z := fold_left (fun h c => u32 (h * 263 + c)) units h.

Section Hash.
(** The code units of a string and the address of an object or symbol. *)
Context (units : string -> list Z) (address : Z -> Z).

Definition hash_string (s : string) (h : Z) : Z := hash_units (units s) h.
Definition map_hash_pointer (a hash_bits : Z) : Z := map_hash64 a hash_bits.

Definition hash_float64 (d hash_bits : Z) : Z := map_hash64 (Z.lxor d 8) hash_bits.

(** From the most significant limb down. *)
Definition hash_bigint (p : list Z) (hash_bits : Z) : Z :=
  map_hash32 (u32 (Z.lxor (hash_units (rev p) 1) (-9))) hash_bits.

Definition map_hash_key (key : JSValue) (hash_bits : Z) : Z :=
  match key with
  | JS_TAG_OBJECT p => map_hash_pointer (u64 (Z.lxor (address p) (u32 (tag_of key)))) hash_bits
  | Prim p =>
      match p with
      | JS_TAG_BOOL b => map_hash32 (u32 (Z.lxor (b2z b) 1)) hash_bits
      | JS_TAG_STRING s => map_hash32 (u32 (Z.lxor (hash_string s 0) (-7))) hash_bits
      | JS_TAG_SYMBOL a => map_hash_pointer (u64 (Z.lxor (address a) (u32 (tag_of key)))) hash_bits
      | JS_TAG_INT v => hash_float64 (f64_of_Z v) hash_bits
      | JS_TAG_FLOAT64 d =>
          hash_float64 (if f64_isnan d then 2047 * 2 ^ 52 + 2 ^ 51 else d) hash_bits
      | JS_TAG_SHORT_BIG_INT v => hash_bigint (js_bigint_set_short v) hash_bits
      | JS_TAG_BIG_INT tab => hash_bigint tab hash_bits
      | JS_TAG_NULL | JS_TAG_UNDEFINED => 0
      end
  end.
End Hash.

(** ** Specification

    SameValueZero identifies values by their kind and content: numbers by
    their value, with one NaN and one zero, BigInts by their integer. *)

Inductive identity : Type :=
| IdBool (b : bool)
| IdNull
| IdUndefined
| IdNumber (value : option Z)     (** scaled by [2^1074]; [None] for NaN *)
| IdString (s : string)
| IdSymbol (id : Z)
| IdBigInt (z : Z)
| IdObject (id : Z).

#[export] Instance identity_eq_dec : EqDecision identity.
Proof. solve_decision. Defined.

Definition number_identity (u : Z) : identity := IdNumber (if f64_isnan u then None else Some (f64_scaled u)).

Definition identify (v : JSValue) : identity :=
  match v with
  | JS_TAG_OBJECT id => IdObject id
  | Prim p =>
      match p with
      | JS_TAG_INT v => number_identity (f64_of_Z v)
      | JS_TAG_BOOL b => IdBool b
      | JS_TAG_NULL => IdNull
      | JS_TAG_UNDEFINED => IdUndefined
      | JS_TAG_FLOAT64 u => number_identity u
      | JS_TAG_SHORT_BIG_INT v => IdBigInt v
      | JS_TAG_BIG_INT tab => IdBigInt (bval tab)
      | JS_TAG_STRING s => IdString s
      | JS_TAG_SYMBOL id => IdSymbol id
      end
  end.

(** Values in the range of their tag and BigInts in their canonical form. *)
Definition key_ok (v : JSValue) : Prop := match v with Prim p => num_ok p | _ => True end.

(** What [map_normalize_key] returns. *)
Definition key_normal (v : JSValue) : Prop := key_ok v /\ map_normalize_key v = v.

(** ** Doubles and their values *)

Lemma f64_fields u : in_u 64 u -> u = f64_sign u * 2 ^ 63 + f64_exp u * 2 ^ 52 + f64_mant u /\ 0 <= f64_sign u <= 1.
Proof.
  unfold in_u, f64_sign, f64_exp, f64_mant. change 2047 with (2 ^ 11 - 1). rewrite !land_pow2_mask by lia.
  rewrite !Z.shiftr_div_pow2 by lia. change (2 ^ 64) with 18446744073709551616. change (2 ^ 63) with 9223372036854775808.
  change (2 ^ 52) with 4503599627370496. change (2 ^ 11) with 2048. intros H.
  assert (u / 9223372036854775808 = u / 4503599627370496 / 2048) as -> by (rewrite Z.div_div by lia; reflexivity).
  set (q := u / 4503599627370496). pose proof (Z.div_mod u 4503599627370496). pose proof (Z.div_mod q 2048).
  pose proof (Z.mod_pos_bound u 4503599627370496). pose proof (Z.mod_pos_bound q 2048). fold q in H0. lia.
Qed.

Lemma scaled_abs_inj u1 u2 :
  f64_scaled_abs u1 = f64_scaled_abs u2 -> f64_exp u1 = f64_exp u2 /\ f64_mant u1 = f64_mant u2.
Proof.
  unfold f64_scaled_abs. pose proof (f64_mant_range u1). pose proof (f64_mant_range u2).
  pose proof (f64_exp_range u1). pose proof (f64_exp_range u2).
  set (m1 := f64_mant u1) in *. set (m2 := f64_mant u2) in *. set (e1 := f64_exp u1) in *. set (e2 := f64_exp u2) in *.
  assert (forall m e, 0 <= m < 2 ^ 52 -> 1 <= e -> 2 ^ (52 + (e - 1)) <= (2 ^ 52 + m) * 2 ^ (e - 1) < 2 ^ (53 + (e - 1))) as Hb.
  { intros m e Hm He. rewrite !Z.pow_add_r by lia. change (2 ^ 53) with (2 * 2 ^ 52).
    assert (0 < 2 ^ (e - 1)) by (apply Z.pow_pos_nonneg; lia). nia. }
  assert (forall m e m' e', 0 <= m < 2 ^ 52 -> 0 <= m' < 2 ^ 52 -> 1 <= e -> e < e' ->
    (2 ^ 52 + m) * 2 ^ (e - 1) = (2 ^ 52 + m') * 2 ^ (e' - 1) -> False) as Hlt.
  { intros m e m' e' Hm Hm' He Hl E. pose proof (Hb m e Hm He). pose proof (Hb m' e' Hm' ltac:(lia)).
    assert (2 ^ (53 + (e - 1)) <= 2 ^ (52 + (e' - 1))) by (apply Z.pow_le_mono_r; lia). lia. }
  destruct (Z.eqb_spec e1 0), (Z.eqb_spec e2 0); intros E.
  - lia.
  - pose proof (Hb m2 e2 ltac:(lia) ltac:(lia)). assert (2 ^ 52 <= 2 ^ (52 + (e2 - 1))) by (apply Z.pow_le_mono_r; lia). lia.
  - pose proof (Hb m1 e1 ltac:(lia) ltac:(lia)). assert (2 ^ 52 <= 2 ^ (52 + (e1 - 1))) by (apply Z.pow_le_mono_r; lia). lia.
  - destruct (Z.lt_trichotomy e1 e2) as [Hl|[He|Hl]].
    + exfalso. eapply (Hlt m1 e1 m2 e2); lia || done.
    + rewrite He in E. assert (0 < 2 ^ (e2 - 1)) by (apply Z.pow_pos_nonneg; lia).
      apply Z.mul_reg_r in E; lia.
    + exfalso. eapply (Hlt m2 e2 m1 e1); lia || (symmetry; done).
Qed.

(** Only the two zeros have the same value. *)
Lemma f64_scaled_inj u1 u2 :
  in_u 64 u1 -> in_u 64 u2 -> f64_scaled u1 = f64_scaled u2 -> f64_scaled u1 <> 0 -> u1 = u2.
Proof.
  intros H1 H2 E Hz. destruct (f64_fields u1 H1) as [E1 S1], (f64_fields u2 H2) as [E2 S2].
  unfold f64_scaled in *. pose proof (f64_scaled_abs_nonneg u1). pose proof (f64_scaled_abs_nonneg u2).
  assert (f64_sign u1 = f64_sign u2 /\ f64_scaled_abs u1 = f64_scaled_abs u2) as [Es Ea].
  { destruct (Z.eqb_spec (f64_sign u1) 0), (Z.eqb_spec (f64_sign u2) 0); lia. }
  apply scaled_abs_inj in Ea as [Ee Em]. rewrite E1, E2, Es, Ee, Em. done.
Qed.

Lemma int_double v : in_s 32 v -> in_u 64 (f64_of_Z v) /\ f64_isnan (f64_of_Z v) = false /\ f64_scaled (f64_of_Z v) = v * f64_unit.
Proof.
  unfold in_s. change (2 ^ (32 - 1)) with 2147483648. intros Hv.
  destruct (f64_of_Z_exact v) as (H1 & H2 & H3); [change (2 ^ 53) with 9007199254740992; lia|].
  split_and!; try done. unfold f64_isfinite in H2. unfold f64_isnan. apply negb_true_iff in H2. now rewrite H2.
Qed.

Lemma same_number_identity u1 u2 : same_number u1 u2 = bool_decide (number_identity u1 = number_identity u2).
Proof.
  unfold same_number, number_identity, f64_eq. destruct (f64_isnan u1), (f64_isnan u2); cbn.
  - now rewrite bool_decide_eq_true_2.
  - now rewrite bool_decide_eq_false_2.
  - now rewrite bool_decide_eq_false_2.
  - destruct (Z.eqb_spec (f64_scaled u1) (f64_scaled u2)) as [->|Hne].
    + now rewrite bool_decide_eq_true_2.
    + rewrite bool_decide_eq_false_2; congruence.
Qed.

(** ** Equality and hash *)

Lemma bool_decide_Z (C : Z -> identity) x y :
  (forall x y, C x = C y -> x = y) -> (x =? y) = bool_decide (C x = C y).
Proof.
  intros Hinj. destruct (Z.eqb_spec x y) as [->|Hne].
  - now rewrite bool_decide_eq_true_2.
  - rewrite bool_decide_eq_false_2; [done|]. intros E. now apply Hne, Hinj.
Qed.

Lemma bigint_identity a b x y :
  num_ok a -> num_ok b -> bigint_of a = Some x -> bigint_of b = Some y ->
  match bigint_operand a, bigint_operand b with
  | Some p1, Some p2 => js_bigint_cmp p1 p2 =? 0
  | _, _ => false
  end = bool_decide (IdBigInt x = IdBigInt y).
Proof.
  intros Ha Hb Ea Eb. destruct (operand_spec a x Ha Ea) as (p1 & -> & H1 & <-), (operand_spec b y Hb Eb) as (p2 & -> & H2 & <-).
  rewrite cmp_spec by done. rewrite <- bool_decide_Z by congruence.
  destruct (Z.compare_spec (bval p1) (bval p2)), (Z.eqb_spec (bval p1) (bval p2)); lia || done.
Qed.

Lemma same_value_zero_spec a b :
  key_ok a -> key_ok b -> js_same_value_zero a b = bool_decide (identify a = identify b).
Proof.
  intros Ha Hb. destruct a as [p|i], b as [q|j]; cbn [js_same_value_zero identify].
  - destruct p, q; cbn [js_same_value_zero identify]; try apply same_number_identity;
      try (symmetry; apply bool_decide_eq_false_2; discriminate);
      try (now apply bigint_identity); try (now rewrite bool_decide_eq_true_2);
      try (now apply (bool_decide_Z IdSymbol); congruence).
    + destruct b, b0; reflexivity.
    + destruct (String.eqb_spec s s0) as [->|]; [now rewrite bool_decide_eq_true_2 | rewrite bool_decide_eq_false_2; congruence].
  - destruct p; symmetry; now apply bool_decide_eq_false_2.
  - destruct q; symmetry; now apply bool_decide_eq_false_2.
  - apply (bool_decide_Z IdObject). congruence.
Qed.

Lemma normal_float_nonzero u :
  key_normal (Prim (JS_TAG_FLOAT64 u)) -> f64_isnan u = false -> f64_scaled u <> 0.
Proof.
  intros [_ Hn] Hnan E. cbn in Hn. unfold f64_eq in Hn. rewrite Hnan, E in Hn. discriminate.
Qed.

Lemma normalize_normal key : key_ok key -> key_normal (map_normalize_key key) /\ identify (map_normalize_key key) = identify key.
Proof.
  intros Hk. destruct key as [p|]; [|exact (conj (conj Hk eq_refl) eq_refl)].
  destruct p; try exact (conj (conj Hk eq_refl) eq_refl). cbn [map_normalize_key].
  destruct (f64_eq u 0) eqn:E.
  - split; [split; [split; [split; [discriminate | reflexivity] | done] | done]|]. cbn [identify].
    unfold f64_eq in E. apply andb_true_iff in E as [E1 E2]. apply andb_true_iff in E1 as [E1 _].
    apply Z.eqb_eq in E2. apply negb_true_iff in E1. unfold number_identity. rewrite E1, E2. reflexivity.
  - split; [split; [exact Hk | cbn; now rewrite E] | reflexivity].
Qed.

(** SameValueZero, as the code decides it, compares the identities of the
    values: NaN equals itself, the two zeros are equal, an int equals the
    double of its value, BigInts compare by value whatever their representation. *)
Theorem same_value_zero_correct a b :
  key_ok a -> key_ok b -> js_same_value_zero a b = bool_decide (identify a = identify b).
Proof. apply same_value_zero_spec. Qed.

Section HashTheorems.
Context (units : string -> list Z) (address : Z -> Z).

Lemma map_hash32_range a bits : 1 <= bits <= 31 -> 0 <= map_hash32 a bits < 2 ^ bits.
Proof.
  intros Hb. unfold map_hash32. rewrite Z.shiftr_div_pow2 by lia.
  assert (0 <= u32 (a * HASH_MUL32) < 2 ^ 32) by now apply wrap_range.
  assert (0 < 2 ^ (32 - bits)) by (apply Z.pow_pos_nonneg; lia).
  split; [apply Z.div_pos; lia|]. apply Z.div_lt_upper_bound; [done|].
  rewrite <- Z.pow_add_r by lia. replace (32 - bits + bits) with 32 by lia. lia.
Qed.

Lemma map_hash64_range a bits : 1 <= bits <= 31 -> 0 <= map_hash64 a bits < 2 ^ bits.
Proof.
  intros Hb. unfold map_hash64. rewrite Z.shiftr_div_pow2 by lia.
  assert (0 <= u64 (a * HASH_MUL64) < 2 ^ 64) by now apply wrap_range.
  assert (0 < 2 ^ (64 - bits)) by (apply Z.pow_pos_nonneg; lia).
  assert (0 <= u64 (a * HASH_MUL64) / 2 ^ (64 - bits) < 2 ^ bits) as Hd.
  { split; [apply Z.div_pos; lia|]. apply Z.div_lt_upper_bound; [done|].
    rewrite <- Z.pow_add_r by lia. replace (64 - bits + bits) with 64 by lia. lia. }
  rewrite wrap_small; [done|]. unfold in_u. assert (2 ^ bits <= 2 ^ 32) by (apply Z.pow_le_mono_r; lia). lia.
Qed.

Lemma hash_range key bits : 1 <= bits <= 31 -> 0 <= map_hash_key units address key bits < 2 ^ bits.
Proof.
  intros Hb. assert (0 < 2 ^ bits) by (apply Z.pow_pos_nonneg; lia).
  destruct key as [[]|]; cbn [map_hash_key]; (apply map_hash32_range || apply map_hash64_range || split); lia.
Qed.

Lemma hash_number a b bits :
  key_normal a -> key_normal b -> identify a = identify b ->
  match a, b with
  | Prim (JS_TAG_INT _ | JS_TAG_FLOAT64 _), Prim (JS_TAG_INT _ | JS_TAG_FLOAT64 _) =>
      map_hash_key units address a bits = map_hash_key units address b bits
  | _, _ => True
  end.
Proof.
  intros Ha Hb. assert (forall v u, key_normal (Prim (JS_TAG_INT v)) -> key_normal (Prim (JS_TAG_FLOAT64 u)) ->
    number_identity (f64_of_Z v) = number_identity u -> f64_isnan u = false /\ f64_of_Z v = u) as Hvu.
  { intros v u [[Hv _] _] Hu E. destruct (int_double v Hv) as (Hd & Hn & _). unfold number_identity in E. rewrite Hn in E.
    destruct (f64_isnan u) eqn:Hnan; [discriminate|]. injection E as E. split; [done|].
    apply f64_scaled_inj; [done | apply Hu | done | rewrite E; now apply normal_float_nonzero]. }
  destruct a as [[]|], b as [[]|]; try done; cbn [identify map_hash_key]; intros E.
  - destruct Ha as [[Ha _] _], Hb as [[Hb _] _].
    destruct (int_double v Ha) as (_ & Hn1 & Hs1), (int_double v0 Hb) as (_ & Hn2 & Hs2).
    unfold number_identity in E. rewrite Hn1, Hn2, Hs1, Hs2 in E. injection E as E. pose proof f64_unit_pos.
    apply Z.mul_reg_r in E; [now subst | lia].
  - destruct (Hvu v u Ha Hb E) as [-> ->]. done.
  - destruct (Hvu v u Hb Ha (eq_sym E)) as [-> ->]. done.
  - unfold number_identity in E. destruct (f64_isnan u) eqn:N1, (f64_isnan u0) eqn:N2; try done. injection E as E.
    f_equal. apply f64_scaled_inj; [apply Ha | apply Hb | done | now apply normal_float_nonzero].
Qed.

Lemma hash_bigint_spec p z bits :
  num_ok p -> bigint_of p = Some z ->
  exists a, normalized a /\ bval a = z /\ map_hash_key units address (Prim p) bits = hash_bigint a bits.
Proof.
  intros Hp Ez. destruct (operand_spec p z Hp Ez) as (a & Ea & Hn & Hv). exists a. split_and!; [done..|].
  destruct p; try discriminate; injection Ea as <-; reflexivity.
Qed.

Lemma hash_identity a b bits :
  key_normal a -> key_normal b -> identify a = identify b ->
  map_hash_key units address a bits = map_hash_key units address b bits.
Proof.
  intros Ha Hb E. pose proof (hash_number a b bits Ha Hb E) as Hnum.
  assert (forall p q x, a = Prim p -> b = Prim q -> bigint_of p = Some x -> bigint_of q = Some x ->
    map_hash_key units address a bits = map_hash_key units address b bits) as Hbig.
  { intros p q x -> -> Ep Eq. destruct (hash_bigint_spec p x bits (proj1 Ha) Ep) as (r & Hr & Er & ->),
      (hash_bigint_spec q x bits (proj1 Hb) Eq) as (t & Ht & Et & ->).
    now rewrite (normalized_inj r t) by congruence. }
  destruct a as [p|i], b as [q|j]; [|destruct p; discriminate|destruct q; discriminate|injection E as ->; done].
  destruct p, q; try discriminate; try exact Hnum; try (injection E as ->; done); try done;
    (injection E as E; eapply Hbig; [reflexivity | reflexivity | reflexivity | cbn; now rewrite E]).
Qed.

(** Keys that SameValueZero identifies have the same hash, in the range of
    the table, so a lookup in one bucket is enough: an int and its double, the
    NaN patterns, a short and a limb BigInt included. *)
Theorem hash_respects_identity a b bits :
  1 <= bits <= 31 -> key_normal a -> key_normal b -> js_same_value_zero a b = true ->
  map_hash_key units address a bits = map_hash_key units address b bits /\
  0 <= map_hash_key units address a bits < 2 ^ bits.
Proof.
  intros Hbits Ha Hb E. split; [|now apply hash_range].
  rewrite same_value_zero_spec in E by apply Ha || apply Hb. apply bool_decide_eq_true in E.
  now apply hash_identity.
Qed.
End HashTheorems.

(** ** Concrete keys: the int 1 and the double 1.0, the NaN and the zeros *)

Definition double_one : Z := 1023 * 2 ^ 52.

Lemma double_one_normal : key_normal (Prim (JS_TAG_FLOAT64 double_one)).
Proof. split; [split; [split; [discriminate | reflexivity] | done]|]. vm_compute. reflexivity. Qed.

Lemma same_value_zero_correct_witness :
  js_same_value_zero (Prim (JS_TAG_INT 1)) (Prim (JS_TAG_FLOAT64 double_one)) = true /\
  js_same_value_zero (Prim JS_NAN) (Prim JS_NAN) = true.
Proof.
  split.
  - rewrite same_value_zero_correct; [vm_compute; reflexivity | split; [split; [discriminate | reflexivity] | done] |].
    exact (proj1 double_one_normal).
  - rewrite same_value_zero_correct; [vm_compute; reflexivity | ..]; (split; [split; [discriminate | reflexivity] | done]).
Defined.

Lemma hash_respects_identity_witness :
  map_hash_key (fun _ => []) id (Prim (JS_TAG_INT 1)) 7 =
  map_hash_key (fun _ => []) id (Prim (JS_TAG_FLOAT64 double_one)) 7 /\
  0 <= map_hash_key (fun _ => []) id (Prim (JS_TAG_INT 1)) 7 < 2 ^ 7.
Proof.
  apply (hash_respects_identity (fun _ => []) id); [lia | | exact double_one_normal | vm_compute; reflexivity].
  split; [split; [split; [discriminate | reflexivity] | done] | reflexivity].
Defined.
