(* ===== verification/JsMap.v ===== *)
(** * Map and Set

    The hash table of [Map] and [Set] ([src/core/quickjs.c], 51074 to 51945):
    records in a list in insertion order, hash chains through the live ones,
    and the reference counts that let iterators stand on a record while it is
    deleted.  The linked lists are lists of record identifiers.  Weak
    collections are not modelled ([is_weak] is false), nor is running out of
    memory. *)

From Stdlib Require Import ZArith Lia Bool String.
From stdpp Require Import base numbers list option strings gmap.
From S2P Require Import Prelude Limbs BigInt Numeric BigIntFloat BigIntOps MapKey.

#[local] Open Scope Z_scope.

(** ** Definitions *)

Record JSMapRecord : Type := mk_record {
  mr_key : JSValue;
  mr_value : JSValue;
  mr_empty : bool;
  mr_ref_count : Z;
}.

Record JSMapState : Type := mk_map {
  records : list Z;                  (** the list, in insertion order *)
  recs : gmap Z JSMapRecord;
  hash_table : list (list Z);        (** the chains, [hash_size] of them *)
  hash_bits : Z;
  record_count : Z;
  record_count_threshold : Z;
  next_record : Z;
}.

Definition js_undefined : JSValue := Prim JS_TAG_UNDEFINED.
Definition freed : JSMapRecord := mk_record js_undefined js_undefined true 0.
Definition record_of (s : JSMapState) (id : Z) : JSMapRecord := default freed (recs s !! id).

Definition set_recs (s : JSMapState) (r : gmap Z JSMapRecord) : JSMapState :=
  mk_map (records s) r (hash_table s) (hash_bits s) (record_count s) (record_count_threshold s) (next_record s).
Definition set_table (s : JSMapState) (t : list (list Z)) : JSMapState :=
  mk_map (records s) (recs s) t (hash_bits s) (record_count s) (record_count_threshold s) (next_record s).
Definition set_count (s : JSMapState) (n : Z) : JSMapState :=
  mk_map (records s) (recs s) (hash_table s) (hash_bits s) n (record_count_threshold s) (next_record s).

(** [js_map_constructor] without an initial iterable. *)
Definition empty_map : JSMapState := mk_map [] ∅ (replicate 2 []) 1 0 4 0.

Section Map.
Context (units : string -> list Z) (address : Z -> Z).

Definition bucket_of (s : JSMapState) (key : JSValue) : nat := Z.to_nat (map_hash_key units address key (hash_bits s)).
Definition chain_of (s : JSMapState) (h : nat) : list Z := List.nth h (hash_table s) [].

Fixpoint chain_find (s : JSMapState) (key : JSValue) (chain : list Z) : option Z :=
  match chain with
  | mr :: chain =>
      if negb (mr_empty (record_of s mr)) && js_same_value_zero (mr_key (record_of s mr)) key
      then Some mr else chain_find s key chain
  | [] => None
  end.

Definition map_find_record (s : JSMapState) (key : JSValue) : option Z :=
  chain_find s key (chain_of s (bucket_of s key)).

(** [mr->hash_next = table[h]; table[h] = mr] *)
Definition push_chain (h : nat) (mr : Z) (table : list (list Z)) : list (list Z) :=
  <[h := mr :: List.nth h table []]> table.

Definition map_hash_resize (s : JSMapState) : JSMapState :=
  let new_hash_bits := Z.min (hash_bits s + 1) 31 in
  let new_hash_size := 2 ^ new_hash_bits in
  let insert table mr :=
    if mr_empty (record_of s mr) then table
    else push_chain (Z.to_nat (map_hash_key units address (mr_key (record_of s mr)) new_hash_bits)) mr table in
  let new_hash_table := fold_left insert (records s) (replicate (Z.to_nat new_hash_size) []) in
  mk_map (records s) (recs s) new_hash_table new_hash_bits (record_count s) (u32 (new_hash_size * 2)) (next_record s).

(** The caller sets the value. *)
Definition map_add_record (s : JSMapState) (key : JSValue) : Z * JSMapState :=
  let mr := next_record s in
  let s := mk_map (records s ++ [mr]) (<[mr := mk_record key js_undefined false 1]> (recs s))
                  (push_chain (bucket_of s key) mr (hash_table s)) (hash_bits s)
                  (u32 (record_count s + 1)) (record_count_threshold s) (mr + 1) in
  (mr, if record_count_threshold s <=? record_count s then map_hash_resize s else s).

Definition set_value (s : JSMapState) (mr : Z) (value : JSValue) : JSMapState :=
  let r := record_of s mr in
  set_recs s (<[mr := mk_record (mr_key r) value (mr_empty r) (mr_ref_count r)]> (recs s)).

(** [list_del] and [js_free_rt] *)
Definition unlink_record (s : JSMapState) (mr : Z) : JSMapState :=
  mk_map (List.filter (fun id => negb (id =? mr)) (records s)) (delete mr (recs s)) (hash_table s) (hash_bits s)
         (record_count s) (record_count_threshold s) (next_record s).

Definition map_delete_record_internal (s : JSMapState) (mr : Z) : JSMapState :=
  let r := record_of s mr in
  if mr_empty r then s
  else
    let ref_count := mr_ref_count r - 1 in
    let s := if ref_count =? 0 then unlink_record s mr
             else set_recs s (<[mr := mk_record js_undefined js_undefined true ref_count]> (recs s)) in
    set_count s (u32 (record_count s - 1)).

(** [None]: [assert(mr->empty)] fails. *)
Definition map_decref_record (s : JSMapState) (mr : Z) : option JSMapState :=
  let r := record_of s mr in
  let ref_count := mr_ref_count r - 1 in
  if ref_count =? 0 then if mr_empty r then Some (unlink_record s mr) else None
  else Some (set_recs s (<[mr := mk_record (mr_key r) (mr_value r) (mr_empty r) ref_count]> (recs s))).

Definition js_map_set (s : JSMapState) (is_set : bool) (key value : JSValue) : JSMapState :=
  let key := map_normalize_key key in
  let value := if is_set then js_undefined else value in
  match map_find_record s key with
  | Some mr => set_value s mr value
  | None => let (mr, s) := map_add_record s key in set_value s mr value
  end.

Definition js_map_get (s : JSMapState) (key : JSValue) : JSValue :=
  match map_find_record s (map_normalize_key key) with
  | Some mr => mr_value (record_of s mr)
  | None => js_undefined
  end.

Definition js_map_has (s : JSMapState) (key : JSValue) : bool :=
  match map_find_record s (map_normalize_key key) with Some _ => true | None => false end.

(** The walk along [pmr]: the record found and the chain without it. *)
Fixpoint chain_unlink (s : JSMapState) (key : JSValue) (chain : list Z) : option (Z * list Z) :=
  match chain with
  | mr :: chain =>
      if negb (mr_empty (record_of s mr)) && js_same_value_zero (mr_key (record_of s mr)) key
      then Some (mr, chain)
      else '(m, rest) ← chain_unlink s key chain; Some (m, mr :: rest)
  | [] => None
  end.

Definition map_delete_record (s : JSMapState) (key : JSValue) : bool * JSMapState :=
  let key := map_normalize_key key in
  let h := bucket_of s key in
  match chain_unlink s key (chain_of s h) with
  | None => (false, s)
  | Some (mr, chain) => (true, map_delete_record_internal (set_table s (<[h := chain]> (hash_table s))) mr)
  end.

Definition js_map_delete (s : JSMapState) (key : JSValue) : bool * JSMapState := map_delete_record s key.

Definition js_map_getOrInsert (s : JSMapState) (key value : JSValue) : JSValue * JSMapState :=
  let key := map_normalize_key key in
  match map_find_record s key with
  | Some mr => (mr_value (record_of s mr), s)
  | None => let (mr, s) := map_add_record s key in (value, set_value s mr value)
  end.

(** [getOrInsertComputed] up to its callback: the value found, or [None] and the
    callback is called. *)
Definition getOrInsertComputed_find (s : JSMapState) (key : JSValue) : option JSValue :=
  (fun mr => mr_value (record_of s mr)) <$> map_find_record s (map_normalize_key key).

(** What it does once its callback has returned [value]: the callback may have
    inserted the key. *)
Definition getOrInsert_computed (s : JSMapState) (key value : JSValue) : JSValue * JSMapState :=
  let key := map_normalize_key key in
  let (_, s) := map_delete_record s key in
  let (mr, s) := map_add_record s key in
  (value, set_value s mr value).

Definition js_map_clear (s : JSMapState) : JSMapState :=
  let s := set_table s (map (fun _ => []) (hash_table s)) in
  fold_left map_delete_record_internal (records s) s.

Definition js_map_get_size (s : JSMapState) : Z := record_count s.
End Map.

(** *** Iterators *)

Inductive JSIteratorKindEnum : Type :=
| JS_ITERATOR_KIND_KEY | JS_ITERATOR_KIND_VALUE | JS_ITERATOR_KIND_KEY_AND_VALUE.

Record JSMapIteratorData : Type := mk_iterator {
  it_live : bool;              (** [obj] is not undefined *)
  it_kind : JSIteratorKindEnum;
  it_cur : option Z;
}.

Inductive iteration : Type :=
| IterDone
| IterValue (v : JSValue)
| IterPair (k v : JSValue).

Definition js_create_map_iterator (kind : JSIteratorKindEnum) : JSMapIteratorData := mk_iterator true kind None.

(** The links that follow [mr]. *)
Fixpoint after (mr : Z) (l : list Z) : list Z :=
  match l with
  | id :: l => if id =? mr then l else after mr l
  | [] => []
  end.

Fixpoint skip_empty (s : JSMapState) (el : list Z) : option Z :=
  match el with
  | mr :: el => if mr_empty (record_of s mr) then skip_empty s el else Some mr
  | [] => None
  end.

Definition iteration_result (is_set : bool) (kind : JSIteratorKindEnum) (k v : JSValue) : iteration :=
  let v := if is_set then k else v in
  match kind with
  | JS_ITERATOR_KIND_KEY => IterValue k
  | JS_ITERATOR_KIND_VALUE => IterValue v
  | JS_ITERATOR_KIND_KEY_AND_VALUE => IterPair k v
  end.

Definition js_map_iterator_next (is_set : bool) (s : JSMapState) (it : JSMapIteratorData)
  : option (iteration * JSMapState * JSMapIteratorData) :=
  if negb (it_live it) then Some (IterDone, s, it)
  else
    '(el, s) ← match it_cur it with
               | None => Some (records s, s)
               | Some mr => s' ← map_decref_record s mr; Some (after mr (records s), s')
               end;
    match skip_empty s el with
    | None => Some (IterDone, s, mk_iterator false (it_kind it) None)
    | Some mr =>
        let r := record_of s mr in
        let s := set_recs s (<[mr := mk_record (mr_key r) (mr_value r) (mr_empty r) (mr_ref_count r + 1)]> (recs s)) in
        Some (iteration_result is_set (it_kind it) (mr_key r) (mr_value r), s, mk_iterator true (it_kind it) (Some mr))
    end.

(** The map is live: the iterator has a reference to it. *)
Definition js_map_iterator_finalizer (s : JSMapState) (it : JSMapIteratorData) : option JSMapState :=
  match it_cur it with Some mr => map_decref_record s mr | None => Some s end.

(** ** A collection and its iterators *)

Record world : Type := mk_world {
  w_map : JSMapState;
  w_iters : gmap nat JSMapIteratorData;
  w_next : nat;
}.

Inductive operation : Type :=
| OSet (key value : JSValue)
| OGet (key : JSValue)
| OHas (key : JSValue)
| ODelete (key : JSValue)
| OGetOrInsert (key value : JSValue)
| OComputedFind (key : JSValue)       (** [getOrInsertComputed] up to its callback *)
| OComputed (key value : JSValue)     (** and after it; the operations of the callback are in between *)
| OClear
| OSize
| OIterator (kind : JSIteratorKindEnum)
| ONext (it : nat)
| ODrop (it : nat).

Inductive answer : Type :=
| AUndefined
| AValue (v : JSValue)
| ACallback                            (** the callback is called *)
| ABool (b : bool)
| ASize (n : Z)
| AIterator (it : nat)
| AIteration (r : iteration).

Section Run.
Context (units : string -> list Z) (address : Z -> Z) (is_set : bool).

Definition with_map (w : world) (s : JSMapState) : world := mk_world s (w_iters w) (w_next w).

(** [None]: an assertion fails. *)
Definition step (w : world) (op : operation) : option (answer * world) :=
  let s := w_map w in
  match op with
  | OSet k v => Some (AUndefined, with_map w (js_map_set units address s is_set k v))
  | OGet k => Some (AValue (js_map_get units address s k), w)
  | OHas k => Some (ABool (js_map_has units address s k), w)
  | ODelete k => let (b, s) := js_map_delete units address s k in Some (ABool b, with_map w s)
  | OGetOrInsert k v => let (r, s) := js_map_getOrInsert units address s k v in Some (AValue r, with_map w s)
  | OComputedFind k =>
      Some (match getOrInsertComputed_find units address s k with Some r => AValue r | None => ACallback end, w)
  | OComputed k v => let (r, s) := getOrInsert_computed units address s k v in Some (AValue r, with_map w s)
  | OClear => Some (AUndefined, with_map w (js_map_clear s))
  | OSize => Some (ASize (js_map_get_size s), w)
  | OIterator kind =>
      Some (AIterator (w_next w), mk_world s (<[w_next w := js_create_map_iterator kind]> (w_iters w)) (S (w_next w)))
  | ONext i =>
      match w_iters w !! i with
      | Some it =>
          '(r, s, it) ← js_map_iterator_next is_set s it;
          Some (AIteration r, mk_world s (<[i := it]> (w_iters w)) (w_next w))
      | None => Some (AUndefined, w)
      end
  | ODrop i =>
      match w_iters w !! i with
      | Some it => s ← js_map_iterator_finalizer s it; Some (AUndefined, mk_world s (delete i (w_iters w)) (w_next w))
      | None => Some (AUndefined, w)
      end
  end.

Fixpoint run (w : world) (ops : list operation) : option (list answer) :=
  match ops with
  | op :: ops => '(a, w) ← step w op; rest ← run w ops; Some (a :: rest)
  | [] => Some []
  end.
End Run.

Definition initial_world : world := mk_world empty_map ∅ 0.

(** ** Specification

    The ECMAScript [[MapData]]: a list of entries that only grows, in which a
    deletion leaves an empty entry, and iterators that are indices into it. *)

Definition entry : Type := option (JSValue * JSValue).

Record spec_iterator : Type := mk_spec_iterator {
  si_kind : JSIteratorKindEnum;
  si_index : option nat;      (** [None]: finished *)
}.

Record spec : Type := mk_spec {
  entries : list entry;
  sp_iters : gmap nat spec_iterator;
  sp_next : nat;
}.

Definition entry_is (key : JSValue) (e : entry) : bool :=
  match e with Some (k, _) => bool_decide (identify k = identify key) | None => false end.

Fixpoint index_of {A} (P : A -> bool) (l : list A) : option nat :=
  match l with
  | x :: l => if P x then Some O else S <$> index_of P l
  | [] => None
  end.

Definition live (e : entry) : bool := match e with Some _ => true | None => false end.

Definition spec_get (A : list entry) (key : JSValue) : option JSValue :=
  i ← index_of (entry_is key) A; e ← A !! i; kv ← e; Some (snd kv).

(** An existing entry keeps its place and its key. *)
Definition spec_set (A : list entry) (key value : JSValue) : list entry :=
  match index_of (entry_is key) A with
  | Some i => match A !! i with Some (Some (k, _)) => <[i := Some (k, value)]> A | _ => A end
  | None => A ++ [Some (map_normalize_key key, value)]
  end.

Definition spec_delete (A : list entry) (key : JSValue) : bool * list entry :=
  match index_of (entry_is key) A with
  | Some i => (true, <[i := None]> A)
  | None => (false, A)
  end.

Definition spec_size (A : list entry) : nat := length (List.filter live A).

(** The next entry that is not empty. *)
Definition spec_next (A : list entry) (i : nat) : option (nat * (JSValue * JSValue)) :=
  d ← index_of live (drop i A); e ← A !! (i + d)%nat; kv ← e; Some ((i + d)%nat, kv).

Section SpecRun.
Context (is_set : bool).

Definition stored (v : JSValue) : JSValue := if is_set then js_undefined else v.

Definition with_entries (w : spec) (A : list entry) : spec := mk_spec A (sp_iters w) (sp_next w).

Definition spec_step (w : spec) (op : operation) : answer * spec :=
  let A := entries w in
  match op with
  | OSet k v => (AUndefined, with_entries w (spec_set A k (stored v)))
  | OGet k => (AValue (default js_undefined (spec_get A k)), w)
  | OHas k => (ABool (match spec_get A k with Some _ => true | None => false end), w)
  | ODelete k => let (b, A) := spec_delete A k in (ABool b, with_entries w A)
  | OGetOrInsert k v =>
      match spec_get A k with
      | Some r => (AValue r, w)
      | None => (AValue v, with_entries w (spec_set A k v))
      end
  | OComputedFind k => (match spec_get A k with Some r => AValue r | None => ACallback end, w)
  | OComputed k v => (AValue v, with_entries w (spec_set A k v))
  | OClear => (AUndefined, with_entries w (map (fun _ => None) A))
  | OSize => (ASize (Z.of_nat (spec_size A)), w)
  | OIterator kind =>
      (AIterator (sp_next w), mk_spec A (<[sp_next w := mk_spec_iterator kind (Some O)]> (sp_iters w)) (S (sp_next w)))
  | ONext i =>
      match sp_iters w !! i with
      | Some (mk_spec_iterator kind (Some j)) =>
          match spec_next A j with
          | Some (j, (k, v)) =>
              (AIteration (iteration_result is_set kind k v),
               mk_spec A (<[i := mk_spec_iterator kind (Some (S j))]> (sp_iters w)) (sp_next w))
          | None => (AIteration IterDone, mk_spec A (<[i := mk_spec_iterator kind None]> (sp_iters w)) (sp_next w))
          end
      | Some (mk_spec_iterator kind None) => (AIteration IterDone, mk_spec A (<[i := mk_spec_iterator kind None]> (sp_iters w)) (sp_next w))
      | None => (AUndefined, w)
      end
  | ODrop i => (AUndefined, mk_spec A (delete i (sp_iters w)) (sp_next w))
  end.

Fixpoint spec_run (w : spec) (ops : list operation) : list answer :=
  match ops with
  | op :: ops => let (a, w) := spec_step w op in a :: spec_run w ops
  | [] => []
  end.

(** The callback of [getOrInsertComputed] has not inserted the key.  When it has,
    ECMAScript sets the value of the entry in its place, and the code deletes the
    entry and adds one at the end. *)
Definition not_inserted (w : spec) (op : operation) : Prop :=
  match op with OComputed k _ => spec_get (entries w) k = None | _ => True end.

Fixpoint callbacks_fresh (w : spec) (ops : list operation) : Prop :=
  match ops with
  | op :: ops => not_inserted w op /\ callbacks_fresh (snd (spec_step w op)) ops
  | [] => True
  end.
End SpecRun.

Definition initial_spec : spec := mk_spec [] ∅ 0.

(** The keys of the arguments are values of the engine. *)
Definition op_ok (op : operation) : Prop :=
  match op with
  | OSet k _ | OGet k | OHas k | ODelete k | OGetOrInsert k _ | OComputedFind k | OComputed k _ => key_ok k
  | _ => True
  end.

Example map_run :
  let key n := Prim (JS_TAG_INT n) in
  run (fun _ => []) id false initial_world
    [OSet (key 1) (key 10); OSet (key 2) (key 20); OIterator JS_ITERATOR_KIND_KEY; ONext 0; ODelete (key 1);
     OSet (key 3) (key 30); ONext 0; ONext 0; ONext 0; OSize; OSet (key 1) (key 11); ONext 0; OGet (key 3)]
  = Some [AUndefined; AUndefined; AIterator 0; AIteration (IterValue (key 1)); ABool true;
     AUndefined; AIteration (IterValue (key 2)); AIteration (IterValue (key 3)); AIteration IterDone; ASize 2;
     AUndefined; AIteration IterDone; AValue (key 30)].
Proof. vm_compute. reflexivity. Qed.

(** [m.getOrInsertComputed(1, () => { m.set(1, 10); m.set(2, 20); return 30 })]
    leaves the keys 1, 2 in ECMAScript and 2, 1 here. *)
Example computed_moves_key :
  let key n := Prim (JS_TAG_INT n) in
  let ops := [OComputedFind (key 1); OSet (key 1) (key 10); OSet (key 2) (key 20); OComputed (key 1) (key 30);
              OIterator JS_ITERATOR_KIND_KEY; ONext 0; ONext 0] in
  let answers k1 k2 := [ACallback; AUndefined; AUndefined; AValue (key 30); AIterator 0;
                        AIteration (IterValue (key k1)); AIteration (IterValue (key k2))] in
  run (fun _ => []) id false initial_world ops = Some (answers 2 1) /\ spec_run false initial_spec ops = answers 1 2.
Proof. split; vm_compute; reflexivity. Qed.
