(* ===== verification/JsMapSpec.v ===== *)
(** * Map and Set refine the ECMAScript list of entries

    The simulation between the hash table of [JsMap] with its reference counts
    and the specification's list that only grows, for any sequence of
    operations on the collection and its iterators. *)

From Stdlib Require Import ZArith Lia Bool String.
From stdpp Require Import base numbers list option strings gmap.
From S2P Require Import Prelude Limbs BigInt Numeric BigIntFloat BigIntOps MapKey JsMap.

#[local] Open Scope Z_scope.

(** ** Definitions: the invariant *)

(** The record of an entry that [n] iterators stand on. *)
Definition record_for (e : entry) (n : nat) : option JSMapRecord :=
  match e with
  | Some (k, v) => Some (mk_record k v false (1 + Z.of_nat n))
  | None => if (n =? 0)%nat then None else Some (mk_record js_undefined js_undefined true (Z.of_nat n))
  end.

Definition present (r : gmap Z JSMapRecord) (id : Z) : bool :=
  match r !! id with Some _ => true | None => false end.

(** The records: [ids] are those of the entries, [lk] the number of iterators
    on each. *)
Record core (s : JSMapState) (A : list entry) (ids : list Z) (lk : Z -> nat) : Prop := mk_core {
  core_len : length ids = length A;
  core_nodup : NoDup ids;
  core_old : forall id, id ∈ ids -> id < next_record s;
  core_recs : forall i id e, ids !! i = Some id -> A !! i = Some e -> recs s !! id = record_for e (lk id);
  core_dom : forall id, is_Some (recs s !! id) -> id ∈ ids;
  core_unlocked : forall id, id ∉ ids -> lk id = O;
  core_records : records s = List.filter (present (recs s)) ids;
  core_keys : forall i k v, A !! i = Some (Some (k, v)) -> key_normal k;
  core_uniq : forall i j k v k' v', A !! i = Some (Some (k, v)) -> A !! j = Some (Some (k', v')) ->
    identify k = identify k' -> i = j;
  core_count : record_count s = Z.of_nat (spec_size A);
}.

Section Spec.
Context (units : string -> list Z) (address : Z -> Z).

(** A live record in the bucket of its key. *)
Definition live_at (r : gmap Z JSMapRecord) (bits : Z) (h : nat) (id : Z) : Prop :=
  exists x, r !! id = Some x /\ mr_empty x = false /\ Z.to_nat (map_hash_key units address (mr_key x) bits) = h.

(** The chains hold the live records of their bucket. *)
Record chains (s : JSMapState) : Prop := mk_chains {
  ch_bits : 1 <= hash_bits s <= 31;
  ch_size : length (hash_table s) = Z.to_nat (2 ^ hash_bits s);
  ch_nodup : forall h, NoDup (chain_of s h);
  ch_live : forall h id, id ∈ chain_of s h <-> live_at (recs s) (hash_bits s) h id;
}.

(** ** Lists *)

Lemma index_of_Some {A} (P : A -> bool) l i :
  index_of P l = Some i -> exists x, l !! i = Some x /\ P x = true /\ forall j y, (j < i)%nat -> l !! j = Some y -> P y = false.
Proof.
  revert i. induction l as [|x l IH]; intros i; cbn [index_of]; [discriminate|]. destruct (P x) eqn:E.
  - intros [= <-]. exists x. split_and!; [done..|]. intros j y Hj. lia.
  - destruct (index_of P l) as [n|]; [|discriminate]. intros [= <-]. destruct (IH n eq_refl) as (y & Hy & Py & Hm).
    exists y. split_and!; [done..|]. intros [|j] z Hj; [now intros [= <-]|]. cbn. intros Hz. apply (Hm j); [lia | done].
Qed.

Lemma index_of_None {A} (P : A -> bool) l : index_of P l = None -> forall i x, l !! i = Some x -> P x = false.
Proof.
  induction l as [|x l IH]; cbn [index_of]; [discriminate 2|]. destruct (P x) eqn:E; [discriminate|].
  destruct (index_of P l); [discriminate|]. intros _ [|i] y; [now intros [= <-] | apply IH; reflexivity].
Qed.

Lemma index_of_unique {A} (P : A -> bool) l i x :
  l !! i = Some x -> P x = true -> (forall j y, l !! j = Some y -> P y = true -> j = i) -> index_of P l = Some i.
Proof.
  intros Hi Px Hu. destruct (index_of P l) as [j|] eqn:E.
  - apply index_of_Some in E as (y & Hy & Py & _). now rewrite (Hu j y Hy Py).
  - pose proof (index_of_None P l E i x Hi). congruence.
Qed.

Lemma filter_ext_in (P Q : Z -> bool) l : (forall x, x ∈ l -> P x = Q x) -> List.filter P l = List.filter Q l.
Proof.
  induction l as [|x l IH]; intros H; cbn; [done|]. rewrite (H x) by apply list_elem_of_here.
  rewrite IH; [done|]. intros y Hy. apply H. now apply list_elem_of_further.
Qed.

Lemma filter_elem (P : Z -> bool) l x : x ∈ List.filter P l <-> x ∈ l /\ P x = true.
Proof. rewrite !list_elem_of_In. apply List.filter_In. Qed.

(** Removing one element from a filter. *)
Lemma filter_remove (P Q : Z -> bool) l id :
  (forall x, Q x = P x && negb (x =? id)) -> List.filter (fun x => negb (x =? id)) (List.filter P l) = List.filter Q l.
Proof.
  intros H. induction l as [|x l IH]; cbn; [done|]. rewrite H.
  destruct (P x); cbn; [destruct (negb (x =? id)); cbn; now rewrite IH | done].
Qed.

Lemma size_insert_live (A : list entry) i e e' :
  A !! i = Some e ->
  (spec_size (<[i := e']> A) + (if live e then 1 else 0) = spec_size A + (if live e' then 1 else 0))%nat.
Proof.
  unfold spec_size. revert i. induction A as [|x A IH]; intros [|i] H; try discriminate.
  - injection H as ->. cbn. destruct (live e), (live e'); cbn [length]; lia.
  - specialize (IH i H). change (<[S i:=e']> (x :: A)) with (x :: <[i:=e']> A). cbn [List.filter]. destruct (live x); cbn [length]; lia.
Qed.

Lemma size_app_live (A B : list entry) : spec_size (A ++ B) = (spec_size A + spec_size B)%nat.
Proof. unfold spec_size. now rewrite List.filter_app, length_app. Qed.

(** ** Records and entries *)

Lemma core_entry s A ids lk i k v id :
  core s A ids lk -> ids !! i = Some id -> A !! i = Some (Some (k, v)) ->
  recs s !! id = Some (mk_record k v false (1 + Z.of_nat (lk id))).
Proof. intros H Hi HA. exact (core_recs _ _ _ _ H i id _ Hi HA). Qed.

Lemma core_index s A ids lk id :
  core s A ids lk -> id ∈ ids -> exists i e, ids !! i = Some id /\ A !! i = Some e /\ recs s !! id = record_for e (lk id).
Proof.
  intros H Hid. apply list_elem_of_lookup_1 in Hid as [i Hi].
  assert (i < length A)%nat as Hlt by (rewrite <- (core_len _ _ _ _ H); now apply lookup_lt_Some in Hi).
  apply lookup_lt_is_Some_2 in Hlt as [e He]. exists i, e. split_and!; [done..|]. now apply (core_recs _ _ _ _ H i).
Qed.

Lemma core_live s A ids lk id x :
  core s A ids lk -> recs s !! id = Some x -> mr_empty x = false ->
  exists i, ids !! i = Some id /\ A !! i = Some (Some (mr_key x, mr_value x)).
Proof.
  intros H Hx He. destruct (core_index s A ids lk id H) as (i & e & Hi & HA & Hr); [apply (core_dom _ _ _ _ H); eauto|].
  exists i. split; [done|]. rewrite Hx in Hr. destruct e as [[k v]|].
  - injection Hr as ->. done.
  - cbn in Hr. destruct (lk id =? 0)%nat; [discriminate|]. injection Hr as ->. discriminate.
Qed.

Lemma record_of_Some s id x : recs s !! id = Some x -> record_of s id = x.
Proof. intros H. unfold record_of. now rewrite H. Qed.

Lemma record_of_live s id : mr_empty (record_of s id) = false -> recs s !! id = Some (record_of s id).
Proof. unfold record_of. now destruct (recs s !! id). Qed.

(** ** Lookup *)

Lemma chain_find_Some s key chain id :
  chain_find s key chain = Some id ->
  id ∈ chain /\ mr_empty (record_of s id) = false /\ js_same_value_zero (mr_key (record_of s id)) key = true.
Proof.
  induction chain as [|mr chain IH]; cbn [chain_find]; [discriminate|].
  destruct (negb _ && _) eqn:E.
  - intros [= ->]. apply andb_true_iff in E as [E1 E2]. apply negb_true_iff in E1. split_and!; [apply list_elem_of_here | done..].
  - intros H. destruct (IH H) as (? & ? & ?). split_and!; [now apply list_elem_of_further | done..].
Qed.

Lemma chain_find_None s key chain id :
  chain_find s key chain = None -> id ∈ chain -> mr_empty (record_of s id) = false ->
  js_same_value_zero (mr_key (record_of s id)) key = false.
Proof.
  induction chain as [|mr chain IH]; cbn [chain_find]; intros H Hin He; [now apply elem_of_nil in Hin|].
  destruct (negb _ && _) eqn:E; [discriminate|].
  apply elem_of_cons in Hin as [<-|Hin]; [rewrite He in E; cbn in E; done | now apply IH].
Qed.

(** The unlinking walk finds the same record and drops it from the chain. *)
Lemma chain_unlink_spec s key chain :
  match chain_unlink s key chain with
  | Some (id, rest) => chain_find s key chain = Some id /\ exists l1 l2, chain = l1 ++ id :: l2 /\ rest = l1 ++ l2
  | None => chain_find s key chain = None
  end.
Proof.
  induction chain as [|mr chain IH]; cbn [chain_unlink chain_find]; [done|].
  destruct (negb _ && _); [split; [done|]; now exists [], chain|].
  destruct (chain_unlink s key chain) as [[id rest]|]; cbn; [|done].
  destruct IH as [H (l1 & l2 & -> & ->)]. split; [done|]. now exists (mr :: l1), l2.
Qed.

Lemma same_key_identity s A ids lk id key :
  core s A ids lk -> key_ok key -> mr_empty (record_of s id) = false ->
  js_same_value_zero (mr_key (record_of s id)) key = bool_decide (identify (mr_key (record_of s id)) = identify key).
Proof.
  intros H Hk He. apply same_value_zero_spec; [|done].
  destruct (core_live s A ids lk id _ H (record_of_live s id He) He) as (i & _ & HA).
  exact (proj1 (core_keys _ _ _ _ H _ _ _ HA)).
Qed.

(** The bucket search agrees with the search along the entries. *)
Lemma find_correct s A ids lk key :
  core s A ids lk -> chains s -> key_ok key ->
  map_find_record units address s (map_normalize_key key) = (i ← index_of (entry_is key) A; ids !! i).
Proof.
  intros H Hc Hk. destruct (normalize_normal key Hk) as [Hn Hid]. set (key' := map_normalize_key key) in *.
  unfold map_find_record. destruct (index_of (entry_is key) A) as [i|] eqn:Ei; cbn.
  - apply index_of_Some in Ei as (e & HA & He & _). destruct e as [[k v]|]; [|discriminate].
    cbn in He. apply bool_decide_eq_true in He.
    assert (is_Some (ids !! i)) as [id Hi].
    { apply lookup_lt_is_Some_2. rewrite (core_len _ _ _ _ H). now apply lookup_lt_Some in HA. }
    rewrite Hi. pose proof (core_entry s A ids lk i k v id H Hi HA) as Hr.
    pose proof (core_keys _ _ _ _ H i k v HA) as Hkk.
    assert (id ∈ chain_of s (bucket_of units address s key')) as Hin.
    { apply (ch_live _ Hc). eexists. split_and!; [exact Hr | done |]. cbn [mr_key]. unfold bucket_of. f_equal.
      apply hash_identity; [done.. | congruence]. }
    destruct (chain_find s key' _) as [id'|] eqn:Ef.
    + apply chain_find_Some in Ef as (Hin' & He' & Hs). f_equal.
      rewrite (same_key_identity s A ids lk) in Hs by (done || apply Hn). apply bool_decide_eq_true in Hs.
      destruct (core_live s A ids lk id' _ H (record_of_live s id' He') He') as (j & Hj & HAj).
      assert (j = i) as -> by (eapply (core_uniq _ _ _ _ H); [exact HAj | exact HA | congruence]). congruence.
    + pose proof (chain_find_None s key' _ id Ef Hin) as Hf. rewrite (record_of_Some s id _ Hr) in Hf. specialize (Hf eq_refl).
      cbn [mr_key] in Hf. rewrite same_value_zero_spec in Hf by (apply Hkk || apply Hn). apply bool_decide_eq_false in Hf. congruence.
  - destruct (chain_find s key' _) as [id'|] eqn:Ef; [|done].
    apply chain_find_Some in Ef as (Hin' & He' & Hs).
    rewrite (same_key_identity s A ids lk) in Hs by (done || apply Hn). apply bool_decide_eq_true in Hs.
    destruct (core_live s A ids lk id' _ H (record_of_live s id' He') He') as (j & Hj & HAj).
    pose proof (index_of_None _ _ Ei j _ HAj) as Hf. cbn in Hf. apply bool_decide_eq_false in Hf. congruence.
Qed.

Lemma find_entry s A ids lk key id :
  core s A ids lk -> chains s -> key_ok key -> map_find_record units address s (map_normalize_key key) = Some id ->
  exists i k v, index_of (entry_is key) A = Some i /\ ids !! i = Some id /\ A !! i = Some (Some (k, v)) /\
    recs s !! id = Some (mk_record k v false (1 + Z.of_nat (lk id))).
Proof.
  intros H Hc Hk E. rewrite (find_correct s A ids lk) in E by done.
  destruct (index_of (entry_is key) A) as [i|] eqn:Ei; [|discriminate]. cbn in E.
  pose proof (index_of_Some _ _ _ Ei) as (e & HA & He & _). destruct e as [[k v]|]; [|discriminate].
  exists i, k, v. split_and!; try done. now apply (core_entry s A ids lk i).
Qed.

(** ** One record changes *)

(** What a change of the entry [i], or of the number of iterators on it, does to
    the records: the record of [id] becomes the one of the new entry. *)
Lemma core_update s s' A ids lk lk' i id e' :
  core s A ids lk -> ids !! i = Some id -> is_Some (recs s !! id) ->
  (forall x, x <> id -> lk' x = lk x) ->
  match e' with Some (k, _) => exists v, A !! i = Some (Some (k, v)) | None => True end ->
  next_record s' = next_record s ->
  recs s' = match record_for e' (lk' id) with Some x => <[id := x]> (recs s) | None => delete id (recs s) end ->
  records s' = (if record_for e' (lk' id) is Some _ then records s else List.filter (fun x => negb (x =? id)) (records s)) ->
  record_count s' = Z.of_nat (spec_size (<[i := e']> A)) ->
  core s' (<[i := e']> A) ids lk'.
Proof.
  intros H Hi Hp Hlk Hkey Hnext Hrecs Hrecords Hcount. pose proof H as [C1 C2 C3 C4 C5 C6 C7 C8 C9 C10].
  assert (id ∈ ids) as Hin by now apply list_elem_of_lookup_2 in Hi.
  assert (i < length A)%nat as HiA by (rewrite <- C1; now apply lookup_lt_Some in Hi).
  assert (recs s' !! id = record_for e' (lk' id)) as Hid.
  { rewrite Hrecs. destruct (record_for e' (lk' id)); [apply lookup_insert_eq | apply lookup_delete_eq]. }
  assert (forall x, x <> id -> recs s' !! x = recs s !! x) as Hne.
  { intros x Hx. rewrite Hrecs. destruct (record_for e' (lk' id)); [now rewrite lookup_insert_ne | now rewrite lookup_delete_ne]. }
  split.
  - now rewrite length_insert.
  - done.
  - intros x Hx. rewrite Hnext. auto.
  - intros j x e Hj HA. destruct (decide (j = i)) as [->|].
    + rewrite list_lookup_insert_eq in HA by done. injection HA as <-. rewrite Hi in Hj. injection Hj as <-. done.
    + rewrite list_lookup_insert_ne in HA by done. assert (x <> id) as Hx by (intros ->; eauto using NoDup_lookup).
      rewrite Hne, Hlk by done. now apply (C4 j).
  - intros x [y Hy]. destruct (decide (x = id)) as [->|]; [done|]. rewrite Hne in Hy by done. eauto.
  - intros x Hx. rewrite Hlk by (intros ->; done). auto.
  - rewrite Hrecords, C7. destruct (record_for e' (lk' id)) as [r|] eqn:Er.
    + apply filter_ext_in. intros x _. unfold present. destruct (decide (x = id)) as [->|]; [|now rewrite Hne].
      rewrite Hid. destruct Hp as [y ->]. done.
    + apply filter_remove. intros x. unfold present. destruct (Z.eqb_spec x id) as [->|]; cbn.
      * rewrite Hid. now rewrite andb_false_r.
      * rewrite Hne by done. now rewrite andb_true_r.
  - intros j k v HA. destruct (decide (j = i)) as [->|].
    + rewrite list_lookup_insert_eq in HA by done. injection HA as ->. destruct Hkey as [v' HA]. eauto.
    + rewrite list_lookup_insert_ne in HA by done. eauto.
  - assert (forall j k v, <[i:=e']> A !! j = Some (Some (k, v)) -> exists v', A !! j = Some (Some (k, v'))) as Hold.
    { intros j k v HA. destruct (decide (j = i)) as [->|].
      - rewrite list_lookup_insert_eq in HA by done. injection HA as ->. done.
      - rewrite list_lookup_insert_ne in HA by done. eauto. }
    intros j j' k v k' v' H1 H2 E. apply Hold in H1 as [? H1], H2 as [? H2]. eauto.
  - done.
Qed.

Lemma chains_ext s s' :
  chains s -> hash_table s' = hash_table s -> hash_bits s' = hash_bits s ->
  (forall h id, live_at (recs s') (hash_bits s) h id <-> live_at (recs s) (hash_bits s) h id) -> chains s'.
Proof.
  intros [H1 H2 H3 H4] Et Eb Hl. split; rewrite ?Et, ?Eb; try done.
  - intros h. unfold chain_of. rewrite Et. apply H3.
  - intros h id. unfold chain_of. rewrite Et, Hl. apply H4.
Qed.

Lemma live_at_insert r bits h id id' x y :
  r !! id = Some x -> mr_empty y = mr_empty x -> mr_key y = mr_key x ->
  live_at (<[id := y]> r) bits h id' <-> live_at r bits h id'.
Proof.
  intros Hx He Hk. unfold live_at. destruct (decide (id' = id)) as [->|].
  - rewrite lookup_insert_eq, Hx. split; intros (z & [= <-] & Hz & Hh);
      [exists x; rewrite <- He, <- Hk | exists y; rewrite He, Hk]; done.
  - now rewrite lookup_insert_ne.
Qed.

Lemma set_value_correct s A ids lk i id k v0 v :
  core s A ids lk -> chains s -> ids !! i = Some id -> A !! i = Some (Some (k, v0)) ->
  core (set_value s id v) (<[i := Some (k, v)]> A) ids lk /\ chains (set_value s id v).
Proof.
  intros H Hc Hi HA. pose proof (core_entry s A ids lk i k v0 id H Hi HA) as Hr. split.
  - apply (core_update s _ A ids lk lk i id (Some (k, v))); try done; eauto.
    + unfold set_value. rewrite (record_of_Some s id _ Hr). reflexivity.
    + pose proof (size_insert_live A i _ (Some (k, v)) HA) as E. cbn [live] in E. cbn [record_count set_value set_recs].
      rewrite (core_count _ _ _ _ H). f_equal. symmetry. exact (proj1 (Nat.add_cancel_r _ _ 1) E).
  - apply (chains_ext s); try done. intros h x. unfold set_value. rewrite (record_of_Some s id _ Hr). cbn [recs set_recs].
    now apply (live_at_insert _ _ _ _ _ (mk_record k v0 false (1 + Z.of_nat (lk id)))).
Qed.

Lemma size_pos (A : list entry) i e : A !! i = Some (Some e) -> (0 < spec_size A)%nat.
Proof.
  intros HA. pose proof (size_insert_live A i _ None HA) as E. cbn [live] in E.
  revert E. generalize (spec_size (<[i:=None]> A)) (spec_size A). lia.
Qed.

Lemma delete_internal_core s A ids lk i id k v :
  core s A ids lk -> Z.of_nat (spec_size A) < 2 ^ 32 -> ids !! i = Some id -> A !! i = Some (Some (k, v)) ->
  let s' := map_delete_record_internal s id in
  core s' (<[i := None]> A) ids lk /\ hash_table s' = hash_table s /\ hash_bits s' = hash_bits s /\
  (forall x, x <> id -> recs s' !! x = recs s !! x) /\ mr_empty (record_of s' id) = true.
Proof.
  intros H Hsz Hi HA s'. pose proof (core_entry s A ids lk i k v id H Hi HA) as Hr.
  assert ((spec_size (<[i:=None]> A) + 1 = spec_size A + 0)%nat) as E by exact (size_insert_live A i _ None HA). pose proof (size_pos A i _ HA) as Hpos.
  assert (u32 (record_count s - 1) = Z.of_nat (spec_size (<[i:=None]> A))) as Hc.
  { rewrite (core_count _ _ _ _ H). revert E Hpos Hsz. generalize (spec_size (<[i:=None]> A)) (spec_size A).
    intros n m E Hpos Hsz. rewrite wrap_small; [lia|]. unfold in_u. change (2 ^ 32) with 4294967296 in *. lia. }
  unfold s', map_delete_record_internal. rewrite (record_of_Some s id _ Hr). cbn [mr_empty mr_ref_count].
  destruct (Z.eqb_spec (1 + Z.of_nat (lk id) - 1) 0) as [E0|E0].
  - assert (lk id = O) as El by lia. split_and!; try done.
    + apply (core_update s _ A ids lk lk i id None); try done; eauto; cbn [recs records set_count unlink_record record_for];
        rewrite El; done.
    + intros x Hx. cbn. now rewrite lookup_delete_ne.
    + unfold record_of. cbn. now rewrite lookup_delete_eq.
  - assert ((lk id =? 0)%nat = false) as El by (apply Nat.eqb_neq; lia). split_and!; try done.
    + apply (core_update s _ A ids lk lk i id None); try done; eauto; cbn [recs records set_count set_recs record_for];
        rewrite El; [|done]. do 3 f_equal. lia.
    + intros x Hx. cbn. now rewrite lookup_insert_ne.
    + unfold record_of. cbn. now rewrite lookup_insert_eq.
Qed.

(** *** Deletion *)

Lemma delete_correct s A ids lk key :
  core s A ids lk -> chains s -> Z.of_nat (spec_size A) < 2 ^ 32 -> key_ok key ->
  let (b, s') := map_delete_record units address s key in
  let (b', A') := spec_delete A key in
  b = b' /\ core s' A' ids lk /\ chains s'.
Proof.
  intros H Hc Hsz Hk. pose proof (find_correct s A ids lk key H Hc Hk) as Hf. unfold map_delete_record, spec_delete.
  set (key' := map_normalize_key key) in *. unfold map_find_record in Hf. set (h := bucket_of units address s key') in *.
  pose proof (chain_unlink_spec s key' (chain_of s h)) as Hu.
  destruct (chain_unlink s key' (chain_of s h)) as [[id rest]|].
  - destruct Hu as [Ef (l1 & l2 & El & ->)]. pose proof (find_entry s A ids lk key id H Hc Hk Ef) as (i & k & v & Ei & Hi & HA & Hr).
    rewrite Ei. set (s1 := set_table s _).
    destruct (delete_internal_core s1 A ids lk i id k v) as (Hcore & Et & Eb & Hne & He); [destruct H; now split | done.. |].
    split_and!; [done..|]. set (s' := map_delete_record_internal s1 id) in *. destruct Hc as [H1 H2 H3 H4].
    assert (h < length (hash_table s))%nat as Hh.
    { destruct (Nat.ltb_spec h (length (hash_table s))); [done|]. unfold chain_of in El. rewrite nth_overflow in El by done.
      destruct l1; discriminate. }
    assert (forall h', chain_of s' h' = if decide (h' = h) then l1 ++ l2 else chain_of s h') as Hch.
    { intros h'. unfold chain_of. rewrite Et. cbn [s1 hash_table set_table]. rewrite !nth_lookup.
      destruct (decide (h' = h)) as [->|]; [now rewrite list_lookup_insert_eq | now rewrite list_lookup_insert_ne]. }
    pose proof (H3 h) as Hnd. rewrite El in Hnd.
    assert (id ∉ l1 ++ l2) as Hnin.
    { apply NoDup_app in Hnd as (_ & Hx & Hnd). apply NoDup_cons in Hnd as [Hn2 _].
      rewrite not_elem_of_app. split; [|done]. intros Hin. apply (Hx id Hin), list_elem_of_here. }
    assert (forall h' x, live_at (recs s') (hash_bits s) h' x <-> live_at (recs s) (hash_bits s) h' x /\ x <> id) as Hlive.
    { intros h' x. unfold live_at. split.
      - intros (y & Hy & Hey & Hky). assert (x <> id) as Hx.
        { intros ->. rewrite (record_of_Some s' id y Hy) in He. congruence. }
        rewrite (Hne x Hx) in Hy. eauto.
      - intros [(y & Hy & Hey & Hky) Hx]. exists y. rewrite (Hne x Hx). done. }
    split; rewrite ?Eb; cbn [s1 hash_bits set_table].
    + done.
    + rewrite Et. cbn [s1 hash_table set_table]. now rewrite length_insert.
    + intros h'. rewrite Hch. destruct (decide _); [|done]. apply NoDup_app in Hnd as (Hn1 & Hx & Hn2).
      apply NoDup_cons in Hn2 as [_ Hn2]. apply NoDup_app. split_and!; [done | | done].
      intros x Hin Hin2. apply (Hx x Hin). now apply list_elem_of_further.
    + intros h' x. rewrite Hlive, Hch. destruct (decide (h' = h)) as [->|Hneh].
      * rewrite <- H4, El. rewrite !elem_of_app, elem_of_cons. split; [|tauto].
        intros Hin. split; [tauto|]. intros ->. apply Hnin. now rewrite elem_of_app.
      * rewrite <- H4. split; [|tauto]. intros Hin. split; [done|]. intros ->. apply Hneh.
        assert (id ∈ chain_of s h) as Hin' by (rewrite El; apply elem_of_app; right; apply list_elem_of_here).
        apply H4 in Hin as (y & Hy & _ & <-), Hin' as (y' & Hy' & _ & <-). congruence.
  - rewrite Hu in Hf. destruct (index_of (entry_is key) A) as [i|] eqn:Ei; [|done].
    apply index_of_Some in Ei as (e & HA & _). symmetry in Hf. cbn in Hf. apply lookup_ge_None in Hf.
    apply lookup_lt_Some in HA. rewrite (core_len _ _ _ _ H) in Hf. lia.
Qed.

(** *** Iterators taking and leaving a record *)

Lemma decref_correct s A ids lk lk' id n :
  core s A ids lk -> chains s -> lk id = S n -> lk' id = n -> (forall x, x <> id -> lk' x = lk x) ->
  exists s', map_decref_record s id = Some s' /\ core s' A ids lk' /\ chains s' /\
  (forall x, mr_empty (record_of s' x) = mr_empty (record_of s x)).
Proof.
  intros H Hc Hn Hn' Hne.
  assert (id ∈ ids) as Hin by (destruct (decide (id ∈ ids)) as [|Hx]; [done|]; rewrite (core_unlocked _ _ _ _ H id Hx) in Hn; discriminate).
  destruct (core_index s A ids lk id H Hin) as (i & e & Hi & HA & Hr).
  assert (is_Some (recs s !! id)) as Hp by (rewrite Hr, Hn; destruct e as [[]|]; cbn; eauto).
  assert (record_count s = Z.of_nat (spec_size (<[i:=e]> A))) as Hcnt by (rewrite list_insert_id by done; apply (core_count _ _ _ _ H)).
  assert (match e with Some (k, _) => exists v, A !! i = Some (Some (k, v)) | None => True end) as Hkey
    by (destruct e as [[]|]; eauto).
  rewrite <- (list_insert_id A i e HA). unfold map_decref_record.
  destruct e as [[k v]|]; cbn [record_for] in Hr; rewrite Hn in Hr; cbn [Nat.eqb] in Hr;
    rewrite (record_of_Some s id _ Hr); cbn [mr_key mr_value mr_empty mr_ref_count].
  - destruct (Z.eqb_spec (1 + Z.of_nat (S n) - 1) 0); [lia|]. eexists. split; [reflexivity|]. split_and!.
    + apply (core_update s _ A ids lk lk' i id (Some (k, v))); try done. cbn. rewrite Hn'. do 3 f_equal. lia.
    + apply (chains_ext s); try done. intros h x. now apply (live_at_insert _ _ _ _ _ (mk_record k v false (1 + Z.of_nat (S n)))).
    + intros x. unfold record_of. cbn. destruct (decide (x = id)) as [->|]; [now rewrite lookup_insert_eq, Hr | now rewrite lookup_insert_ne].
  - destruct n as [|n].
    + destruct (Z.eqb_spec (Z.of_nat 1 - 1) 0) as [_|]; [|lia]. eexists. split; [reflexivity|]. split_and!.
      * apply (core_update s _ A ids lk lk' i id None); try done; cbn; now rewrite Hn'.
      * apply (chains_ext s); try done. intros h x. unfold live_at. cbn [recs unlink_record].
        destruct (decide (x = id)) as [->|]; [|now rewrite lookup_delete_ne].
        rewrite lookup_delete_eq, Hr. split; intros (y & Hy & He & _); [discriminate Hy | now injection Hy as <-].
      * intros x. unfold record_of. cbn [recs unlink_record]. destruct (decide (x = id)) as [->|]; [now rewrite lookup_delete_eq, Hr | now rewrite lookup_delete_ne].
    + destruct (Z.eqb_spec (Z.of_nat (S (S n)) - 1) 0); [lia|]. eexists. split; [reflexivity|]. split_and!.
      * apply (core_update s _ A ids lk lk' i id None); try done; cbn [record_for]; rewrite Hn'; [|done]. cbn [Nat.eqb recs set_recs].
        do 3 f_equal. lia.
      * apply (chains_ext s); try done. intros h x. now apply (live_at_insert _ _ _ _ _ (mk_record js_undefined js_undefined true (Z.of_nat (S (S n))))).
      * intros x. unfold record_of. cbn. destruct (decide (x = id)) as [->|]; [now rewrite lookup_insert_eq, Hr | now rewrite lookup_insert_ne].
Qed.

Lemma lock_correct s A ids lk lk' i id k v :
  core s A ids lk -> chains s -> ids !! i = Some id -> A !! i = Some (Some (k, v)) ->
  lk' id = S (lk id) -> (forall x, x <> id -> lk' x = lk x) ->
  let r := record_of s id in
  let s' := set_recs s (<[id := mk_record (mr_key r) (mr_value r) (mr_empty r) (mr_ref_count r + 1)]> (recs s)) in
  core s' A ids lk' /\ chains s' /\ mr_key r = k /\ mr_value r = v.
Proof.
  intros H Hc Hi HA Hn Hne. pose proof (core_entry s A ids lk i k v id H Hi HA) as Hr.
  rewrite (record_of_Some s id _ Hr). cbn [mr_key mr_value mr_empty mr_ref_count]. split_and!; try done.
  - rewrite <- (list_insert_id A i _ HA) at 1. apply (core_update s _ A ids lk lk' i id (Some (k, v))); try done; eauto.
    + cbn [recs set_recs record_for]. rewrite Hn. replace (1 + Z.of_nat (S (lk id))) with (1 + Z.of_nat (lk id) + 1) by lia. done.
    + cbn. rewrite list_insert_id by done. apply (core_count _ _ _ _ H).
  - apply (chains_ext s); try done. intros h x. now apply (live_at_insert _ _ _ _ _ (mk_record k v false (1 + Z.of_nat (lk id)))).
Qed.

(** *** Insertion *)

Lemma fresh_record s A ids lk : core s A ids lk -> (next_record s ∉ ids) /\ recs s !! next_record s = None.
Proof.
  intros H. assert (next_record s ∉ ids) as Hn by (intros Hin; apply (core_old _ _ _ _ H) in Hin; lia).
  split; [done|]. destruct (recs s !! next_record s) eqn:E; [|done]. exfalso. apply Hn, (core_dom _ _ _ _ H). eauto.
Qed.

(** The state of [map_add_record] before the table is resized. *)
Definition add_unresized (s : JSMapState) (key : JSValue) : JSMapState :=
  mk_map (records s ++ [next_record s]) (<[next_record s := mk_record key js_undefined false 1]> (recs s))
         (push_chain (bucket_of units address s key) (next_record s) (hash_table s)) (hash_bits s)
         (u32 (record_count s + 1)) (record_count_threshold s) (next_record s + 1).

Lemma add_core s A ids lk key :
  core s A ids lk -> Z.of_nat (spec_size A) + 1 < 2 ^ 32 -> key_normal key -> index_of (entry_is key) A = None ->
  core (add_unresized s key) (A ++ [Some (key, js_undefined)]) (ids ++ [next_record s]) lk.
Proof.
  intros H Hsz Hk Hno. destruct (fresh_record s A ids lk H) as [Hf Hfr]. pose proof H as [C1 C2 C3 C4 C5 C6 C7 C8 C9 C10].
  pose proof (C6 _ Hf) as Hlk.
  assert (forall i e, (A ++ [Some (key, js_undefined)]) !! i = Some e -> A !! i = Some e \/ (i = length A /\ e = Some (key, js_undefined))) as Hcase.
  { intros i e HA. apply lookup_app_Some in HA as [HA|[Hi HA]]; [auto|]. right.
    apply list_lookup_singleton_Some in HA as [Hi' <-]. split; [|done]. unfold entry in *. lia. }
  assert (forall i k v, A !! i = Some (Some (k, v)) -> identify k <> identify key) as Hnokey.
  { intros i k v HA E. pose proof (index_of_None _ _ Hno i _ HA) as Hf'. cbn in Hf'. apply bool_decide_eq_false in Hf'. done. }
  split; cbn [records recs next_record record_count add_unresized].
  - rewrite !length_app, C1. done.
  - apply NoDup_app. split_and!; [done | | apply NoDup_singleton]. intros x Hx Hx'. apply list_elem_of_singleton in Hx' as ->. done.
  - intros x Hx. apply elem_of_app in Hx as [Hx|Hx]; [specialize (C3 x Hx); lia | apply list_elem_of_singleton in Hx as ->; lia].
  - intros i id e Hi HA. apply Hcase in HA as [HA|[-> ->]].
    + rewrite lookup_app_l in Hi by (rewrite C1; now apply lookup_lt_Some in HA).
      assert (id <> next_record s) by (intros ->; apply Hf; now apply list_elem_of_lookup_2 in Hi).
      rewrite lookup_insert_ne by done. now apply (C4 i).
    + rewrite lookup_app_r, C1, Nat.sub_diag in Hi by lia. injection Hi as <-. rewrite lookup_insert_eq. cbn. now rewrite Hlk.
  - intros id [y Hy]. apply elem_of_app. destruct (decide (id = next_record s)) as [->|]; [right; apply list_elem_of_here|].
    rewrite lookup_insert_ne in Hy by done. left. eauto.
  - intros id Hid. apply not_elem_of_app in Hid as [Hid _]. auto.
  - rewrite List.filter_app, C7. cbn. unfold present at 3. rewrite lookup_insert_eq. f_equal.
    apply filter_ext_in. intros x Hx. unfold present. rewrite lookup_insert_ne; [done|]. intros <-. done.
  - intros i k v HA. apply Hcase in HA as [HA|[_ [= -> ->]]]; eauto.
  - intros i j k v k' v' H1 H2 E. apply Hcase in H1 as [H1|[-> [= -> ->]]], H2 as [H2|[-> [= -> ->]]]; eauto.
    + exfalso. now apply (Hnokey i k v).
    + exfalso. symmetry in E. now apply (Hnokey j k' v').
  - rewrite size_app_live, C10. change (2 ^ 32) with 4294967296 in Hsz. change (spec_size [Some (key, js_undefined)]) with 1%nat.
    rewrite wrap_small; [lia|]. unfold in_u. change (2 ^ 32) with 4294967296. lia.
Qed.

Lemma bucket_range s key : chains s -> (bucket_of units address s key < length (hash_table s))%nat.
Proof.
  intros Hc. rewrite (ch_size _ Hc). unfold bucket_of.
  destruct (hash_range units address key (hash_bits s) (ch_bits _ Hc)). apply Z2Nat.inj_lt; lia.
Qed.

Lemma chain_of_push t h id h' :
  (h < length t)%nat ->
  List.nth h' (push_chain h id t) [] = if decide (h' = h) then id :: List.nth h t [] else List.nth h' t [].
Proof.
  intros Hh. unfold push_chain. rewrite (nth_lookup (<[h:=_]> t)). destruct (decide (h' = h)) as [->|].
  - now rewrite list_lookup_insert_eq.
  - rewrite list_lookup_insert_ne by done. symmetry. apply nth_lookup.
Qed.

Lemma add_chains s A ids lk key : core s A ids lk -> chains s -> chains (add_unresized s key).
Proof.
  intros H Hc. destruct (fresh_record s A ids lk H) as [_ Hf]. pose proof (bucket_range s key Hc) as Hb.
  pose proof Hc as [H1 H2 H3 H4]. split; cbn [hash_bits hash_table recs add_unresized].
  - done.
  - unfold push_chain. now rewrite length_insert.
  - intros h. unfold chain_of. cbn [hash_table add_unresized]. rewrite chain_of_push by done. destruct (decide (h = _)) as [->|]; [|apply H3].
    apply NoDup_cons. split; [|apply H3]. intros Hin. apply H4 in Hin as (x & Hx & _). congruence.
  - intros h id. unfold chain_of. cbn [hash_table add_unresized]. rewrite chain_of_push by done.
    unfold live_at. destruct (decide (id = next_record s)) as [->|Hne].
    + rewrite lookup_insert_eq. split.
      * intros Hin. eexists. split_and!; [done..|]. cbn [mr_key]. destruct (decide (h = _)) as [->|]; [done|].
        apply H4 in Hin as (x & Hx & _). congruence.
      * intros (x & [= <-] & _ & <-). cbn [mr_key]. fold (bucket_of units address s key). rewrite decide_True by done. apply list_elem_of_here.
    + rewrite lookup_insert_ne by done.
      destruct (decide (h = _)) as [->|]; [rewrite elem_of_cons; split; [intros [?|?]; [done | now apply H4] | intros ?; right; now apply H4] | apply H4].
Qed.

(** *** A larger table *)

Definition rehash (s : JSMapState) (bits : Z) (table : list (list Z)) (mr : Z) : list (list Z) :=
  if mr_empty (record_of s mr) then table
  else push_chain (Z.to_nat (map_hash_key units address (mr_key (record_of s mr)) bits)) mr table.

Lemma rehash_spec s bits l :
  1 <= bits <= 31 -> NoDup l ->
  let t := fold_left (rehash s bits) l (replicate (Z.to_nat (2 ^ bits)) []) in
  length t = Z.to_nat (2 ^ bits) /\
  forall h, NoDup (List.nth h t []) /\ forall id, id ∈ List.nth h t [] <-> id ∈ l /\ live_at (recs s) bits h id.
Proof.
  intros Hb. induction l as [|mr l IH] using rev_ind; intros Hnd t.
  - split; [apply length_replicate|]. intros h. unfold t. cbn [fold_left].
    assert (List.nth h (replicate (Z.to_nat (2 ^ bits)) (@nil Z)) [] = []) as ->
      by (rewrite nth_lookup; destruct (_ !! h) eqn:E; [now apply lookup_replicate_1 in E as [-> _] | done]).
    split; [apply NoDup_nil_2|]. intros id. split; [|intros [H _]]; [intros H|]; now apply elem_of_nil in H.
  - apply NoDup_app in Hnd as (Hl & Hx & _). specialize (IH Hl). unfold t. rewrite fold_left_app. cbn [fold_left].
    set (t0 := fold_left _ l _) in *. destruct IH as [IHl IH].
    assert (mr ∉ l) as Hn by (intros Hin; apply (Hx mr Hin), list_elem_of_here).
    unfold rehash. destruct (mr_empty (record_of s mr)) eqn:Ee.
    + split; [done|]. intros h. destruct (IH h) as [H1 H2]. split; [done|]. intros id. rewrite H2, elem_of_app, list_elem_of_singleton.
      split; [tauto|]. intros [[Hin| ->] Hlive]; [done|]. destruct Hlive as (y & Hy & He & _). rewrite (record_of_Some s mr y Hy) in Ee. congruence.
    + pose proof (record_of_live s mr Ee) as Hr. set (h0 := Z.to_nat _).
      assert (h0 < length t0)%nat as Hh.
      { rewrite IHl. destruct (hash_range units address (mr_key (record_of s mr)) bits Hb). apply Z2Nat.inj_lt; lia. }
      split; [unfold push_chain; now rewrite length_insert|]. intros h. rewrite chain_of_push by done. destruct (IH h) as [H1 H2].
      assert (forall id, live_at (recs s) bits h id -> id = mr -> h = h0) as Hu.
      { intros id (y & Hy & _ & <-) ->. unfold h0. now rewrite (record_of_Some s mr y Hy). }
      destruct (decide (h = h0)) as [->|Hne].
      * split.
        { apply NoDup_cons. split; [|done]. intros Hin. now apply H2 in Hin as [Hin _]. }
        intros id. rewrite elem_of_cons, H2, elem_of_app, list_elem_of_singleton. split; [|tauto].
        intros [->|[Hin Hlive]]; [|tauto]. split; [now right|]. exists (record_of s mr). done.
      * split; [done|]. intros id. rewrite H2, elem_of_app, list_elem_of_singleton. split; [tauto|].
        intros [[Hin|Heq] Hlive]; [done|]. exfalso. eauto.
Qed.

Lemma resize_correct s A ids lk :
  core s A ids lk -> 1 <= hash_bits s <= 31 ->
  core (map_hash_resize units address s) A ids lk /\ chains (map_hash_resize units address s).
Proof.
  intros H Hb. split; [destruct H; now split|]. set (bits := Z.min (hash_bits s + 1) 31).
  assert (NoDup (records s)) as Hnd.
  { rewrite (core_records _ _ _ _ H). apply NoDup_ListNoDup, List.NoDup_filter, NoDup_ListNoDup, (core_nodup _ _ _ _ H). }
  destruct (rehash_spec s bits (records s)) as [Hl Hs]; [lia | done|].
  assert (fold_left (rehash s bits) (records s) (replicate (Z.to_nat (2 ^ bits)) []) = hash_table (map_hash_resize units address s))
    as Et by reflexivity.
  rewrite Et in Hl, Hs. clear Et.
  split; change (hash_bits (map_hash_resize units address s)) with bits.
  - lia.
  - done.
  - intros h. apply Hs.
  - intros h id. change (recs (map_hash_resize units address s)) with (recs s). unfold chain_of. rewrite (proj2 (Hs h)).
    split; [tauto|]. intros Hlive. split; [|done].
    destruct Hlive as (y & Hy & _). rewrite (core_records _ _ _ _ H). apply filter_elem. split; [apply (core_dom _ _ _ _ H); eauto|].
    unfold present. now rewrite Hy.
Qed.

Lemma add_correct s A ids lk key value :
  core s A ids lk -> chains s -> Z.of_nat (spec_size A) + 1 < 2 ^ 32 -> key_normal key -> index_of (entry_is key) A = None ->
  let (mr, s') := map_add_record units address s key in
  core (set_value s' mr value) (A ++ [Some (key, value)]) (ids ++ [next_record s]) lk /\ chains (set_value s' mr value).
Proof.
  intros H Hc Hsz Hk Hno. unfold map_add_record. fold (add_unresized s key).
  pose proof (add_core s A ids lk key H Hsz Hk Hno) as Hcore. pose proof (add_chains s A ids lk key H Hc) as Hch.
  assert (A ++ [Some (key, value)] = <[length A := Some (key, value)]> (A ++ [Some (key, js_undefined)])) as ->
    by (now rewrite <- (Nat.add_0_r (length A)), insert_app_r).
  assert (forall s', core s' (A ++ [Some (key, js_undefined)]) (ids ++ [next_record s]) lk -> chains s' ->
    core (set_value s' (next_record s) value) (<[length A := Some (key, value)]> (A ++ [Some (key, js_undefined)]))
      (ids ++ [next_record s]) lk /\ chains (set_value s' (next_record s) value)) as Hset.
  { intros s' Hcore' Hch'. apply (set_value_correct s' _ _ lk (length A) (next_record s) key js_undefined value); [done.. | |].
    - apply list_lookup_middle. symmetry. apply (core_len _ _ _ _ H).
    - now apply (list_lookup_middle (A:=entry)). }
  destruct (record_count_threshold (add_unresized s key) <=? record_count (add_unresized s key)); [|exact (Hset _ Hcore Hch)].
  destruct (resize_correct _ _ _ lk Hcore (ch_bits _ Hch)) as [Hr Hr']. exact (Hset _ Hr Hr').
Qed.
End Spec.
