(* ===== verification/JsMapRefine.v ===== *)
(** * Map and Set: the refinement theorem

    The operations of [JsMap] one by one against the specification's list of
    entries, the iterators, and the simulation for a whole run. *)

From Stdlib Require Import ZArith Lia Bool String.
From stdpp Require Import base numbers list option strings gmap fin_maps.
From S2P Require Import Prelude Limbs BigInt Numeric BigIntFloat BigIntOps MapKey JsMap JsMapSpec.

#[local] Open Scope Z_scope.

(** ** Definitions: iterators and positions *)

(** The iterators that stand on a record. *)
Definition lock_count (its : gmap nat JSMapIteratorData) (id : Z) : nat :=
  size (filter (fun p => it_cur p.2 = Some id) its).

(** An iterator stands on the record before its position. *)
Definition iterator_rel (ids : list Z) (it : JSMapIteratorData) (si : spec_iterator) : Prop :=
  it_kind it = si_kind si /\
  match it_cur it with
  | Some id => it_live it = true /\ exists p, ids !! p = Some id /\ si_index si = Some (S p)
  | None => si_index si = if it_live it then Some O else None
  end.

Section Refine.
Context (units : string -> list Z) (address : Z -> Z) (is_set : bool).

Abbreviation chains := (chains units address).

Record sim (w : world) (sp : spec) (ids : list Z) : Prop := mk_sim {
  sim_core : core (w_map w) (entries sp) ids (lock_count (w_iters w));
  sim_chains : chains (w_map w);
  sim_next : w_next w = sp_next sp;
  sim_fresh : forall i, (w_next w <= i)%nat -> w_iters w !! i = None;
  sim_iters : forall i, option_Forall2 (iterator_rel ids) (w_iters w !! i) (sp_iters sp !! i);
}.

(** ** The operations on the entries *)

Lemma entry_is_normalize key : key_ok key -> entry_is (map_normalize_key key) = entry_is key.
Proof. intros Hk. destruct (normalize_normal key Hk) as [_ Hid]. unfold entry_is. now rewrite Hid. Qed.

Lemma core_ext s A ids lk lk' : (forall x, lk x = lk' x) -> core s A ids lk -> core s A ids lk'.
Proof. intros E [C1 C2 C3 C4 C5 C6 C7 C8 C9 C10]. split; try done; intros; rewrite <- E; eauto. Qed.

Lemma spec_size_le A : (spec_size A <= length A)%nat.
Proof. apply List.filter_length_le. Qed.

Lemma find_None s A ids lk key :
  core s A ids lk -> chains s -> key_ok key -> map_find_record units address s (map_normalize_key key) = None ->
  index_of (entry_is key) A = None.
Proof.
  intros H Hc Hk E. rewrite (find_correct units address s A ids lk) in E by done.
  destruct (index_of (entry_is key) A) as [i|] eqn:Ei; [|done]. cbn in E.
  apply index_of_Some in Ei as (e & HA & _). apply lookup_lt_Some in HA. apply lookup_ge_None in E.
  rewrite (core_len _ _ _ _ H) in E. lia.
Qed.

(** The value the bucket search reads is the entry's. *)
Lemma get_correct s A ids lk key :
  core s A ids lk -> chains s -> key_ok key ->
  spec_get A key = (fun mr => mr_value (record_of s mr)) <$> map_find_record units address s (map_normalize_key key).
Proof.
  intros H Hc Hk. unfold spec_get. destruct (map_find_record _ _ s _) as [id|] eqn:E.
  - destruct (find_entry units address s A ids lk key id H Hc Hk E) as (i & k & v & Ei & _ & HA & Hr).
    rewrite Ei. cbn. rewrite HA. cbn. now rewrite (record_of_Some s id _ Hr).
  - now rewrite (find_None s A ids lk key H Hc Hk E).
Qed.

Lemma insert_correct s A ids lk key value :
  core s A ids lk -> chains s -> Z.of_nat (spec_size A) + 1 < 2 ^ 32 -> key_ok key -> index_of (entry_is key) A = None ->
  let (mr, s') := map_add_record units address s (map_normalize_key key) in
  core (set_value s' mr value) (spec_set A key value) (ids ++ [next_record s]) lk /\ chains (set_value s' mr value).
Proof.
  intros H Hc Hsz Hk E. unfold spec_set. rewrite E.
  apply (add_correct units address s A ids lk (map_normalize_key key) value); try done.
  - apply (normalize_normal key Hk).
  - now rewrite entry_is_normalize.
Qed.

Lemma set_correct s A ids lk key value :
  core s A ids lk -> chains s -> Z.of_nat (spec_size A) + 1 < 2 ^ 32 -> key_ok key ->
  let s' := js_map_set units address s is_set key value in
  exists l, core s' (spec_set A key (stored is_set value)) (ids ++ l) lk /\ chains s'.
Proof.
  intros H Hc Hsz Hk. unfold js_map_set. fold (stored is_set value). destruct (map_find_record _ _ s _) as [id|] eqn:E.
  - destruct (find_entry units address s A ids lk key id H Hc Hk E) as (i & k & v & Ei & Hi & HA & _).
    exists []. rewrite app_nil_r. unfold spec_set. rewrite Ei, HA. now apply (set_value_correct units address s A ids lk i id k v).
  - pose proof (insert_correct s A ids lk key (stored is_set value) H Hc Hsz Hk (find_None s A ids lk key H Hc Hk E)) as Hi.
    destruct (map_add_record _ _ s _). now exists [next_record s].
Qed.

Lemma getOrInsert_correct s A ids lk key value :
  core s A ids lk -> chains s -> Z.of_nat (spec_size A) + 1 < 2 ^ 32 -> key_ok key ->
  let (r, s') := js_map_getOrInsert units address s key value in
  let (r', A') := match spec_get A key with Some r' => (r', A) | None => (value, spec_set A key value) end in
  r = r' /\ exists l, core s' A' (ids ++ l) lk /\ chains s'.
Proof.
  intros H Hc Hsz Hk. rewrite (get_correct s A ids lk key H Hc Hk). unfold js_map_getOrInsert.
  destruct (map_find_record _ _ s _) as [id|] eqn:E; cbn [fmap option_fmap option_map].
  - split; [done|]. exists []. now rewrite app_nil_r.
  - pose proof (insert_correct s A ids lk key value H Hc Hsz Hk (find_None s A ids lk key H Hc Hk E)) as Hi.
    destruct (map_add_record _ _ s _). split; [done|]. now exists [next_record s].
Qed.

Lemma deleted_absent s A ids lk key : core s A ids lk -> index_of (entry_is key) (snd (spec_delete A key)) = None.
Proof.
  intros H. unfold spec_delete. destruct (index_of (entry_is key) A) as [i|] eqn:Ei; cbn [snd]; [|done].
  destruct (index_of (entry_is key) (<[i:=None]> A)) as [j|] eqn:Ej; [exfalso|done].
  apply index_of_Some in Ei as (e & HA & He & _). apply index_of_Some in Ej as (e' & HA' & He' & _).
  destruct e as [[k v]|]; [|discriminate]. destruct e' as [[k' v']|]; [|discriminate].
  cbn in He, He'. apply bool_decide_eq_true in He, He'. destruct (decide (j = i)) as [->|].
  - rewrite list_lookup_insert_eq in HA' by (now apply lookup_lt_Some in HA). discriminate.
  - rewrite list_lookup_insert_ne in HA' by done. rewrite (core_uniq _ _ _ _ H j i k' v' k v HA' HA) in *; congruence.
Qed.

Lemma delete_absent A key : spec_get A key = None -> snd (spec_delete A key) = A.
Proof.
  unfold spec_get, spec_delete. destruct (index_of (entry_is key) A) as [i|] eqn:Ei; [|done]. intros E. exfalso.
  apply index_of_Some in Ei as (e & HA & He & _). destruct e as [[k v]|]; [|discriminate He].
  cbn in E. assert (forall x : option entry, x = Some (Some (k, v)) -> (e ← x; kv ← e; Some kv.2) <> None) as Hx by now intros x ->.
  exact (Hx _ HA E).
Qed.

Lemma delete_size A key : (spec_size (snd (spec_delete A key)) <= spec_size A)%nat.
Proof.
  unfold spec_delete. destruct (index_of (entry_is key) A) as [i|] eqn:Ei; cbn [snd]; [|done].
  apply index_of_Some in Ei as (e & HA & He & _). destruct e as [e|]; [|discriminate].
  assert ((spec_size (<[i:=None]> A) + 1 = spec_size A + 0)%nat) as E by exact (size_insert_live A i _ None HA).
  revert E. generalize (spec_size (<[i:=None]> A)) (spec_size A). lia.
Qed.

Lemma computed_correct s A ids lk key value :
  core s A ids lk -> chains s -> Z.of_nat (spec_size A) + 1 < 2 ^ 32 -> key_ok key ->
  let (r, s') := getOrInsert_computed units address s key value in
  r = value /\ exists l, core s' (spec_set (snd (spec_delete A key)) key value) (ids ++ l) lk /\ chains s'.
Proof.
  intros H Hc Hsz Hk. unfold getOrInsert_computed. pose proof (delete_size A key) as Hle.
  pose proof (delete_correct units address s A ids lk (map_normalize_key key) H Hc) as Hd.
  pose proof (deleted_absent s A ids lk key H) as Hno.
  destruct (normalize_normal key Hk) as [[Hn Hnn] Hid].
  assert (spec_delete A (map_normalize_key key) = spec_delete A key) as E by (unfold spec_delete; now rewrite entry_is_normalize).
  rewrite E in Hd. destruct (map_delete_record _ _ s _) as [b s1]. destruct (spec_delete A key) as [b' A1].
  cbn [snd] in *. destruct Hd as (_ & H1 & Hc1); [change (2 ^ 32) with 4294967296 in *; lia | done |].
  pose proof (insert_correct s1 A1 ids lk key value H1 Hc1) as Hi.
  destruct (map_add_record _ _ s1 _). split; [done|]. eexists. apply Hi; [change (2 ^ 32) with 4294967296 in *; lia | done..].
Qed.

(** *** [clear] *)

Lemma core_set_table s t A ids lk : core s A ids lk -> core (set_table s t) A ids lk.
Proof. intros []. now split. Qed.

Lemma clear_fold l : forall s A ids lk,
  core s A ids lk -> Z.of_nat (spec_size A) < 2 ^ 32 -> (forall id, id ∈ l -> id ∈ ids) ->
  let s' := fold_left map_delete_record_internal l s in
  exists A', core s' A' ids lk /\ hash_table s' = hash_table s /\ hash_bits s' = hash_bits s /\
    (forall i, A !! i = Some None -> A' !! i = Some None) /\
    (forall i id, ids !! i = Some id -> id ∈ l -> A' !! i = Some None).
Proof.
  induction l as [|id l IH]; intros s A ids lk H Hsz Hl; cbn [fold_left].
  - exists A. split_and!; try done. intros i id _ Hin. now apply elem_of_nil in Hin.
  - assert (id ∈ ids) as Hin by apply Hl, list_elem_of_here.
    assert (forall x, x ∈ l -> x ∈ ids) as Hl' by (intros x Hx; apply Hl; now apply list_elem_of_further).
    destruct (core_index s A ids lk id H Hin) as (i & e & Hi & HA & Hr).
    assert (forall j, ids !! j = Some id -> j = i) as Hu by (intros j Hj; eapply NoDup_lookup; [apply (core_nodup _ _ _ _ H) | done..]).
    destruct e as [[k v]|].
    + destruct (delete_internal_core s A ids lk i id k v H Hsz Hi HA) as (H1 & Et & Eb & _ & _).
      set (s1 := map_delete_record_internal s id) in *.
      assert (<[i:=None]> A !! i = Some (@None (JSValue * JSValue))) as Ei by (apply list_lookup_insert_eq; now apply lookup_lt_Some in HA).
      destruct (IH s1 (<[i:=None]> A) ids lk H1) as (A' & H2 & Et' & Eb' & Hold & Hnew); [|done|].
      { assert ((spec_size (<[i:=None]> A) + 1 = spec_size A + 0)%nat) as E by exact (size_insert_live A i _ None HA).
        revert E Hsz. generalize (spec_size (<[i:=None]> A)) (spec_size A). lia. }
      exists A'. split_and!; [done | congruence | congruence | |].
      * intros j HAj. apply Hold. destruct (decide (j = i)) as [->|]; [done | now rewrite list_lookup_insert_ne].
      * intros j x Hj Hx. apply elem_of_cons in Hx as [->|Hx]; [|eauto]. rewrite (Hu j Hj). now apply Hold.
    + assert (map_delete_record_internal s id = s) as ->.
      { unfold map_delete_record_internal, record_of. rewrite Hr. cbn [record_for]. now destruct (lk id =? 0)%nat. }
      destruct (IH s A ids lk H Hsz Hl') as (A' & H2 & Et & Eb & Hold & Hnew). exists A'. split_and!; try done.
      intros j x Hj Hx. apply elem_of_cons in Hx as [->|Hx]; [|eauto]. rewrite (Hu j Hj). now apply Hold.
Qed.

Lemma no_live_empty s A ids lk bits h id :
  core s A ids lk -> (forall i e, A !! i = Some e -> e = None) -> ~ live_at units address (recs s) bits h id.
Proof.
  intros H Hn (y & Hy & He & _). destruct (core_live s A ids lk id y H Hy He) as (i & _ & HA).
  discriminate (Hn i _ HA).
Qed.

Lemma lookup_map_list {A B} (f : A -> B) (l : list A) i : map f l !! i = f <$> l !! i.
Proof. exact (list_lookup_fmap f l i). Qed.

Lemma records_deleted s A (A' : list entry) ids lk :
  core s A ids lk -> (forall i, A !! i = Some None -> A' !! i = Some None) ->
  (forall i id, ids !! i = Some id -> id ∈ records s -> A' !! i = Some None) ->
  forall i e, A !! i = Some e -> A' !! i = Some None.
Proof.
  intros H Hold Hnew i [[k v]|] HA; [|auto].
  assert (is_Some (ids !! i)) as [id Hi].
  { apply lookup_lt_is_Some_2. rewrite (core_len _ _ _ _ H). now apply lookup_lt_Some in HA. }
  apply (Hnew i id Hi). rewrite (core_records _ _ _ _ H). apply filter_elem. split; [now apply list_elem_of_lookup_2 in Hi|].
  unfold present. now rewrite (core_entry s A ids lk i k v id H Hi HA).
Qed.

Lemma clear_correct s A ids lk :
  core s A ids lk -> chains s -> Z.of_nat (spec_size A) < 2 ^ 32 ->
  core (js_map_clear s) (map (fun _ => None) A) ids lk /\ chains (js_map_clear s).
Proof.
  intros H Hc Hsz. unfold js_map_clear. set (s0 := set_table s _).
  assert (forall id, id ∈ records s -> id ∈ ids) as Hin.
  { intros id Hid. rewrite (core_records _ _ _ _ H) in Hid. now apply filter_elem in Hid as [Hid _]. }
  destruct (clear_fold (records s) s0 A ids lk (core_set_table s _ A ids lk H) Hsz Hin) as (A' & H' & Et & Eb & Hold & Hnew).
  change (records s0) with (records s) in *. set (s' := fold_left _ _ _) in *.
  assert (length A' = length A) as El by (rewrite <- (core_len _ _ _ _ H'); apply (core_len _ _ _ _ H)).
  pose proof (records_deleted s A A' ids lk H Hold Hnew) as Hall.
  assert (A' = map (fun _ => None) A) as EA.
  { apply list_eq. intros i. transitivity ((fun _ : entry => @None (JSValue * JSValue)) <$> A !! i); [|symmetry; exact (lookup_map_list (B := entry) _ A i)].
    destruct (A !! i) as [e|] eqn:HA; cbn; [eauto|].
    apply lookup_ge_None. apply lookup_ge_None in HA. unfold entry in *. lia. }
  rewrite EA in H'. split; [done|].
  assert (forall h, chain_of s' h = []) as Hnil.
  { intros h. unfold chain_of. rewrite Et. unfold s0. cbn [hash_table set_table]. rewrite nth_lookup, lookup_map_list.
    now destruct (hash_table s !! h). }
  destruct Hc as [C1 C2 C3 C4]. split; rewrite ?Eb; cbn [s0 hash_bits set_table].
  - done.
  - rewrite Et. cbn [s0 hash_table set_table]. now rewrite length_map.
  - intros h. rewrite Hnil. apply NoDup_nil_2.
  - intros h id. rewrite Hnil. split; [intros Hx; now apply elem_of_nil in Hx|]. intros Hlive. exfalso.
    apply (no_live_empty s' _ ids lk _ h id H') in Hlive; [done|]. intros i e He.
    rewrite (lookup_map_list (B := entry)) in He. destruct (A !! i); [now injection He as <- | discriminate].
Qed.

(** ** Iterators *)

(** The next record is the next entry that is not empty. *)
Lemma skip_empty_correct s (P : Z -> bool) : forall ids (A : list entry),
  length ids = length A -> (forall id, id ∈ ids -> mr_empty (record_of s id) = false -> P id = true) ->
  (forall i id (e : entry), ids !! i = Some id -> A !! i = Some e -> mr_empty (record_of s id) = negb (live e)) ->
  skip_empty s (List.filter P ids) = d ← index_of live A; ids !! d.
Proof.
  induction ids as [|id ids IH]; intros [|e A] El HP He; try discriminate; [done|].
  pose proof (He O id e eq_refl eq_refl) as E0. injection El as El.
  assert (skip_empty s (List.filter P ids) = d ← index_of live A; ids !! d) as IH'.
  { apply IH; [done | |]; intros; [apply HP; [now apply list_elem_of_further | done] | now apply (He (S i))]. }
  cbn [List.filter index_of]. destruct (live e) eqn:Ee; cbn [negb] in E0.
  - rewrite (HP id) by (done || apply list_elem_of_here). cbn [skip_empty]. now rewrite E0.
  - destruct (P id); cbn [skip_empty]; [rewrite E0|]; rewrite IH'; now destruct (index_of live A).
Qed.

Lemma after_filter (P : Z -> bool) : forall ids p id,
  NoDup ids -> ids !! p = Some id -> P id = true -> after id (List.filter P ids) = List.filter P (drop (S p) ids).
Proof.
  induction ids as [|x ids IH]; intros p id Hnd Hp HP; [discriminate|]. apply NoDup_cons in Hnd as [Hx Hnd].
  destruct p as [|p].
  - injection Hp as ->. cbn [List.filter]. rewrite HP. cbn [after]. now rewrite Z.eqb_refl.
  - cbn in Hp. change (drop (S (S p)) (x :: ids)) with (drop (S p) ids). rewrite <- (IH p id) by done. cbn [List.filter]. destruct (P x); [|done]. cbn [after].
    destruct (Z.eqb_spec x id) as [->|]; [|done]. exfalso. apply Hx. now apply list_elem_of_lookup_2 in Hp.
Qed.

Lemma core_empty s A ids lk i id e :
  core s A ids lk -> ids !! i = Some id -> A !! i = Some e -> mr_empty (record_of s id) = negb (live e).
Proof.
  intros H Hi HA. unfold record_of. rewrite (core_recs _ _ _ _ H i id e Hi HA).
  destruct e as [[k v]|]; [done|]. cbn. now destruct (lk id =? 0)%nat.
Qed.

Lemma spec_next_eq A i :
  spec_next A i = match index_of live (drop i A) with
                  | Some d => match lookup (K := nat) (A := entry) (i + d)%nat A with Some (Some kv) => Some ((i + d)%nat, kv) | _ => None end
                  | None => None
                  end.
Proof. unfold spec_next. destruct (index_of live (drop i A)) as [d|]; [|done]. cbn. now destruct (A !! (i + d)%nat) as [[]|]. Qed.

(** The search of an iterator at position [i], over the links [records s0] read
    before its reference was dropped. *)
Lemma next_correct s0 s A ids lk lk' i :
  core s0 A ids lk' -> core s A ids lk ->
  skip_empty s (List.filter (present (recs s0)) (drop i ids)) = '(j, _) ← spec_next A i; ids !! j.
Proof.
  intros H0 H. rewrite (skip_empty_correct s _ (drop i ids) (drop i A)).
  - rewrite spec_next_eq. destruct (index_of live (drop i A)) as [d|] eqn:Ed; [|done].
    apply index_of_Some in Ed as (e & HA & He & _). rewrite lookup_drop in HA. destruct e as [[k v]|]; [|discriminate].
    rewrite HA. apply lookup_drop.
  - rewrite !length_drop. unfold entry in *. now rewrite (core_len _ _ _ _ H).
  - intros id Hid He. apply list_elem_of_lookup_1 in Hid as [j Hj]. rewrite lookup_drop in Hj.
    destruct (core_index s A ids lk id H) as (i' & e & Hi' & HA & _); [now apply list_elem_of_lookup_2 in Hj|].
    rewrite (core_empty s A ids lk i' id e H Hi' HA) in He. destruct e as [[k v]|]; [|discriminate].
    unfold present. now rewrite (core_entry s0 A ids lk' i' k v id H0 Hi' HA).
  - intros j id e Hj HA. rewrite lookup_drop in Hj. apply (core_empty s A ids lk (i + j)); [done..|].
    rewrite <- HA. symmetry. exact (lookup_drop (A := entry) A i j).
Qed.

Lemma spec_next_Some A i j kv : spec_next A i = Some (j, kv) -> A !! j = Some (Some kv).
Proof.
  rewrite spec_next_eq. destruct (index_of live (drop i A)) as [d|]; [|discriminate].
  destruct (A !! (i + d)%nat) as [[[k v]|]|] eqn:E; [|discriminate..]. intros [= <- <-]. done.
Qed.

(** *** The references iterators hold *)

Lemma lock_count_insert its i it id :
  its !! i = None -> lock_count (<[i := it]> its) id = (lock_count its id + if decide (it_cur it = Some id) then 1 else 0)%nat.
Proof.
  intros Hi. unfold lock_count. destruct (decide (it_cur it = Some id)) as [E|E].
  - rewrite map_filter_insert_True by done. rewrite map_size_insert_None; [lia|].
    apply map_lookup_filter_None. now left.
  - rewrite map_filter_insert_False, delete_id by done. lia.
Qed.

Lemma lock_count_delete its i it id :
  its !! i = Some it -> lock_count its id = (lock_count (delete i its) id + if decide (it_cur it = Some id) then 1 else 0)%nat.
Proof.
  intros Hi. rewrite <- (insert_delete_id its i it Hi) at 1. apply lock_count_insert, lookup_delete_eq.
Qed.

Lemma lock_count_replace its i it id :
  lock_count (<[i := it]> its) id = (lock_count (delete i its) id + if decide (it_cur it = Some id) then 1 else 0)%nat.
Proof. rewrite <- insert_delete_eq. apply lock_count_insert, lookup_delete_eq. Qed.

Definition take_ref (s : JSMapState) (mr : Z) : JSMapState :=
  let r := record_of s mr in
  set_recs s (<[mr := mk_record (mr_key r) (mr_value r) (mr_empty r) (mr_ref_count r + 1)]> (recs s)).

Lemma advance_correct s0 s A ids lk0 lk1 pos :
  core s0 A ids lk0 -> core s A ids lk1 -> chains s ->
  match skip_empty s (List.filter (present (recs s0)) (drop pos ids)), spec_next A pos with
  | Some mr, Some (j, (k, v)) =>
      ids !! j = Some mr /\ mr_key (record_of s mr) = k /\ mr_value (record_of s mr) = v /\
      forall lk2, lk2 mr = S (lk1 mr) -> (forall x, x <> mr -> lk2 x = lk1 x) -> core (take_ref s mr) A ids lk2 /\ chains (take_ref s mr)
  | None, None => True
  | _, _ => False
  end.
Proof.
  intros H0 H Hc. rewrite (next_correct s0 s A ids lk1 lk0 pos H0 H).
  destruct (spec_next A pos) as [[j [k v]]|] eqn:E; cbn; [|done]. apply spec_next_Some in E.
  assert (is_Some (ids !! j)) as [mr Hj] by (apply lookup_lt_is_Some_2; rewrite (core_len _ _ _ _ H); now apply lookup_lt_Some in E).
  rewrite Hj. rewrite (record_of_Some s mr _ (core_entry s A ids lk1 j k v mr H Hj E)). split_and!; [done..|].
  intros lk2 Hn Hne. destruct (lock_correct units address s A ids lk1 lk2 j mr k v H Hc Hj E Hn Hne) as (? & ? & _). done.
Qed.

(** The specification's answer and iterator. *)
Definition spec_advance (A : list entry) (kind : JSIteratorKindEnum) (index : option nat) : iteration * spec_iterator :=
  match index with
  | Some j =>
      match spec_next A j with
      | Some (j, (k, v)) => (iteration_result is_set kind k v, mk_spec_iterator kind (Some (S j)))
      | None => (IterDone, mk_spec_iterator kind None)
      end
  | None => (IterDone, mk_spec_iterator kind None)
  end.

Lemma iterate_correct its i s0 s A ids lk0 kind pos :
  core s0 A ids lk0 -> core s A ids (lock_count (delete i its)) -> chains s ->
  exists r s' it',
    match skip_empty s (List.filter (present (recs s0)) (drop pos ids)) with
    | None => Some (IterDone, s, mk_iterator false kind None)
    | Some mr => Some (iteration_result is_set kind (mr_key (record_of s mr)) (mr_value (record_of s mr)), take_ref s mr,
                       mk_iterator true kind (Some mr))
    end = Some (r, s', it') /\
  let (r', si') := spec_advance A kind (Some pos) in
  r = r' /\ core s' A ids (lock_count (<[i := it']> its)) /\ chains s' /\ iterator_rel ids it' si'.
Proof.
  intros H0 H Hc. pose proof (advance_correct s0 s A ids lk0 _ pos H0 H Hc) as Ha. unfold spec_advance.
  destruct (skip_empty s _) as [mr|], (spec_next A pos) as [[j [k v]]|]; try done.
  - destruct Ha as (Hj & -> & -> & Ha). eexists _, _, _. split; [reflexivity|]. split; [done|]. destruct (Ha (lock_count (<[i:=mk_iterator true kind (Some mr)]> its))) as [H1 H2].
    + rewrite lock_count_replace. cbn [it_cur]. rewrite decide_True by done. lia.
    + intros x Hx. rewrite lock_count_replace. cbn [it_cur]. rewrite decide_False by congruence. lia.
    + split_and!; [done..|]. split; [done|]. cbn. eauto.
  - eexists _, _, _. split; [reflexivity|]. split_and!; [done | | done | done]. apply (core_ext s A ids (lock_count (delete i its))); [|done].
    intros x. rewrite lock_count_replace. cbn [it_cur]. rewrite decide_False by done. lia.
Qed.

(** Dropping the reference of an iterator, as [next] and the finalizer do. *)
Lemma release_correct its i it s A ids :
  core s A ids (lock_count its) -> chains s -> its !! i = Some it ->
  exists s', js_map_iterator_finalizer s it = Some s' /\ core s' A ids (lock_count (delete i its)) /\ chains s'.
Proof.
  intros H Hc Hi. unfold js_map_iterator_finalizer. destruct (it_cur it) as [id|] eqn:Ec.
  - destruct (decref_correct units address s A ids (lock_count its) (lock_count (delete i its)) id (lock_count (delete i its) id)
      H Hc) as (s' & Es & H1 & H2 & _); [| done | | eauto].
    + rewrite (lock_count_delete its i it id Hi), Ec, decide_True by done. lia.
    + intros x Hx. rewrite (lock_count_delete its i it x Hi), Ec, decide_False by congruence. lia.
  - exists s. split; [done|]. split; [|done]. apply (core_ext s A ids (lock_count its)); [|done].
    intros x. rewrite (lock_count_delete its i it x Hi), Ec, decide_False by done. lia.
Qed.

Lemma next_refines w sp ids i it si :
  sim w sp ids -> w_iters w !! i = Some it -> iterator_rel ids it si ->
  exists r s' it', js_map_iterator_next is_set (w_map w) it = Some (r, s', it') /\
  let (r', si') := spec_advance (entries sp) (si_kind si) (si_index si) in
  r = r' /\ core s' (entries sp) ids (lock_count (<[i := it']> (w_iters w))) /\ chains s' /\ iterator_rel ids it' si'.
Proof.
  intros [H Hc _ _ _] Hi [Hkind Hrel]. destruct (release_correct (w_iters w) i it _ _ ids H Hc Hi) as (s1 & E1 & H1 & Hc1).
  unfold js_map_iterator_next, js_map_iterator_finalizer in *. rewrite <- Hkind. destruct (it_cur it) as [id|] eqn:Ec.
  - destruct Hrel as [-> (p & Hp & ->)]. cbn [negb]. rewrite E1. cbn [mbind option_bind].
    rewrite (core_records _ _ _ _ H), (after_filter (present (recs (w_map w))) ids p id); [|apply (core_nodup _ _ _ _ H) | done |].
    + exact (iterate_correct (w_iters w) i (w_map w) _ _ ids _ (it_kind it) (S p) H H1 Hc1).
    + destruct (core_index _ _ ids _ id H) as (q & e & _ & _ & Hr); [now apply list_elem_of_lookup_2 in Hp|].
      unfold present. rewrite Hr, (lock_count_delete (w_iters w) i it id Hi), Ec, decide_True by done.
      rewrite Nat.add_1_r. now destruct e as [[]|].
  - injection E1 as <-. rewrite Hrel. destruct (it_live it) eqn:El; cbn [negb mbind option_bind].
    + rewrite (core_records _ _ _ _ H). exact (iterate_correct (w_iters w) i (w_map w) _ _ ids _ (it_kind it) 0%nat H H1 Hc1).
    + eexists _, _, _. split; [reflexivity|]. cbn. split_and!; [done | | done |].
      * rewrite insert_id by done. done.
      * split; [done|]. now rewrite Ec, El.
Qed.

(** ** One step *)

Lemma iterator_rel_app ids l it si : iterator_rel ids it si -> iterator_rel (ids ++ l) it si.
Proof.
  intros [Hk Hr]. split; [done|]. destruct (it_cur it); [|done]. destruct Hr as [Hl (p & Hp & Hi)].
  split; [done|]. exists p. split; [|done]. now apply lookup_app_l_Some.
Qed.

(** An operation on the entries leaves the iterators where they are. *)
Lemma sim_entries w sp ids s A l :
  sim w sp ids -> core s A (ids ++ l) (lock_count (w_iters w)) -> chains s -> sim (with_map w s) (with_entries sp A) (ids ++ l).
Proof.
  intros [_ _ S1 S2 S3] H Hc. split; try done. intros i. cbn. pose proof (S3 i) as [it si Hr|]; constructor.
  now apply iterator_rel_app.
Qed.

(** So does one that keeps them. *)
Lemma sim_iterators w sp ids s A i it si :
  sim w sp ids -> is_Some (w_iters w !! i) -> core s A ids (lock_count (<[i := it]> (w_iters w))) -> chains s -> iterator_rel ids it si ->
  sim (mk_world s (<[i := it]> (w_iters w)) (w_next w)) (mk_spec A (<[i := si]> (sp_iters sp)) (sp_next sp)) ids.
Proof.
  intros [_ _ S1 S2 S3] [x Hx] H Hc Hr. split; try done; cbn.
  - intros j Hj. rewrite lookup_insert_ne; [auto|]. intros ->. rewrite S2 in Hx by done. discriminate.
  - intros j. destruct (decide (j = i)) as [->|]; [rewrite !lookup_insert_eq; now constructor | now rewrite !lookup_insert_ne].
Qed.

Lemma spec_set_length A key value : (length (spec_set A key value) <= length A + 1)%nat.
Proof.
  unfold spec_set. destruct (index_of _ A) as [i|]; [|rewrite length_app; cbn; lia].
  destruct (A !! i) as [[[k v]|]|]; rewrite ?length_insert; lia.
Qed.

Lemma spec_delete_length A key : length (snd (spec_delete A key)) = length A.
Proof. unfold spec_delete. destruct (index_of _ A); cbn; [apply length_insert | done]. Qed.

Lemma spec_step_length sp op : (length (entries (snd (spec_step is_set sp op))) <= length (entries sp) + 1)%nat.
Proof.
  destruct op; cbn [spec_step]; try (cbn; lia).
  - apply spec_set_length.
  - pose proof (spec_delete_length (entries sp) key). destruct (spec_delete (entries sp) key). cbn in *. lia.
  - destruct (spec_get (entries sp) key); cbn; [lia | apply spec_set_length].
  - apply spec_set_length.
  - cbn. rewrite length_map. lia.
  - destruct (sp_iters sp !! it) as [[kind [j|]]|]; cbn; try lia. destruct (spec_next (entries sp) j) as [[j' [k v]]|]; cbn; lia.
Qed.

Lemma spec_step_next sp i kind index :
  sp_iters sp !! i = Some (mk_spec_iterator kind index) ->
  spec_step is_set sp (ONext i) =
    (let (r, si) := spec_advance (entries sp) kind index in
     (AIteration r, mk_spec (entries sp) (<[i := si]> (sp_iters sp)) (sp_next sp))).
Proof.
  intros Hi. cbn [spec_step]. rewrite Hi. unfold spec_advance. destruct index as [j|]; [|done].
  now destruct (spec_next (entries sp) j) as [[j' [k v]]|].
Qed.

Lemma step_refines w sp ids op :
  sim w sp ids -> op_ok op -> not_inserted sp op -> Z.of_nat (length (entries sp)) + 1 < 2 ^ 32 ->
  exists a w' ids', step units address is_set w op = Some (a, w') /\
    a = fst (spec_step is_set sp op) /\ sim w' (snd (spec_step is_set sp op)) ids'.
Proof.
  intros Hsim Hok Hni Hlen. pose proof Hsim as [H Hc S1 S2 S3]. pose proof (spec_size_le (entries sp)) as Hle.
  assert (Z.of_nat (spec_size (entries sp)) + 1 < 2 ^ 32) as Hsz by lia.
  destruct op as [k v|k|k|k|k v|k|k v| | |kind|i|i]; cbn [op_ok] in Hok.
  - destruct (set_correct _ _ _ _ k v H Hc Hsz Hok) as (l & H1 & Hc1). eexists _, _, (ids ++ l). split; [reflexivity|].
    split; [done|]. now apply sim_entries.
  - exists (AValue (js_map_get units address (w_map w) k)), w, ids. split; [done|]. split; [|done].
    cbn. rewrite (get_correct _ _ _ _ k H Hc Hok). unfold js_map_get. now destruct (map_find_record _ _ _ _).
  - exists (ABool (js_map_has units address (w_map w) k)), w, ids. split; [done|]. split; [|done].
    cbn. rewrite (get_correct _ _ _ _ k H Hc Hok). unfold js_map_has. now destruct (map_find_record _ _ _ _).
  - cbn. unfold js_map_delete.
    pose proof (delete_correct units address _ _ _ _ k H Hc ltac:(change (2 ^ 32) with 4294967296 in *; lia) Hok) as Hd.
    destruct (map_delete_record _ _ _ k) as [b s'], (spec_delete (entries sp) k) as [b' A']. destruct Hd as (-> & H1 & Hc1).
    eexists _, _, (ids ++ []). split; [reflexivity|]. split; [done|]. apply sim_entries; [done | now rewrite app_nil_r | done].
  - cbn [step spec_step]. pose proof (getOrInsert_correct _ _ _ _ k v H Hc Hsz Hok) as Hg.
    destruct (js_map_getOrInsert _ _ _ k v) as [r s']. destruct (spec_get (entries sp) k) as [r'|];
      destruct Hg as [-> (l & H1 & Hc1)]; eexists _, _, (ids ++ l); (split; [reflexivity|]); (split; [done|]);
      pose proof (sim_entries w sp ids s' _ l Hsim H1 Hc1) as Hs; [now destruct sp | done].
  - eexists _, w, ids. split; [reflexivity|]. split; [|done].
    cbn. rewrite (get_correct _ _ _ _ k H Hc Hok). unfold getOrInsertComputed_find. now destruct (map_find_record _ _ _ _).
  - cbn [step spec_step not_inserted] in *. pose proof (computed_correct _ _ _ _ k v H Hc Hsz Hok) as Hg.
    rewrite (delete_absent (entries sp) k Hni) in Hg.
    destruct (getOrInsert_computed _ _ _ k v) as [r s']. destruct Hg as [-> (l & H1 & Hc1)].
    eexists _, _, (ids ++ l). split; [reflexivity|]. split; [done|]. now apply sim_entries.
  - destruct (clear_correct _ _ _ _ H Hc) as [H1 Hc1]; [change (2 ^ 32) with 4294967296 in *; lia|].
    eexists _, _, (ids ++ []). split; [reflexivity|]. split; [done|]. apply sim_entries; [done | now rewrite app_nil_r | done].
  - eexists _, w, ids. split; [reflexivity|]. split; [|done]. cbn. unfold js_map_get_size. now rewrite (core_count _ _ _ _ H).
  - eexists _, _, ids. split; [reflexivity|]. cbn. rewrite S1. split; [done|]. split; cbn; [| done | done | |].
    + apply (core_ext _ _ ids (lock_count (w_iters w))); [|done]. intros x.
      rewrite lock_count_insert, decide_False by (done || apply S2; lia). lia.
    + intros i Hi. rewrite lookup_insert_ne by lia. apply S2. lia.
    + intros i. destruct (decide (i = sp_next sp)) as [->|]; [rewrite !lookup_insert_eq; now constructor | now rewrite !lookup_insert_ne].
  - pose proof (S3 i) as Hrel. destruct (w_iters w !! i) as [it|] eqn:Hi.
    + inversion Hrel as [? si Hr E1 E2|]; subst. symmetry in E2. destruct si as [kind index].
      rewrite (spec_step_next sp i kind index E2). cbn [step]. rewrite Hi.
      destruct (next_refines w sp ids i it _ Hsim Hi Hr) as (r & s' & it' & -> & Hn). cbn [si_kind si_index mbind option_bind] in *.
      destruct (spec_advance (entries sp) kind index) as [r' si']. destruct Hn as (-> & H1 & Hc1 & Hr').
      eexists _, _, ids. split; [reflexivity|]. split; [done|]. apply sim_iterators; eauto.
    + inversion Hrel as [|E1 E2]. cbn [step spec_step]. rewrite Hi, <- E2. eexists _, _, ids. now split_and!.
  - pose proof (S3 i) as Hrel. cbn. destruct (w_iters w !! i) as [it|] eqn:Hi; cbn.
    + destruct (release_correct (w_iters w) i it _ _ ids H Hc Hi) as (s' & -> & H1 & Hc1). cbn.
      eexists _, _, ids. split; [reflexivity|]. split; [done|]. split; cbn; try done.
      * intros j Hj. apply lookup_delete_None. auto.
      * intros j. destruct (decide (j = i)) as [->|]; [rewrite !lookup_delete_eq; constructor | now rewrite !lookup_delete_ne].
    + inversion Hrel as [|E1 E2]. eexists _, w, ids. split; [reflexivity|]. split; [done|]. rewrite delete_id by done. now destruct sp.
Qed.

Lemma initial_sim : sim initial_world initial_spec [].
Proof.
  split; try done.
  - split; try done; cbn; try (intros; discriminate).
    + apply NoDup_nil_2.
    + intros id Hin. now apply elem_of_nil in Hin.
    + intros id [x Hx]. discriminate.
  - split; try done.
    + intros [|[|[|h]]]; apply NoDup_nil_2.
    + intros h id. split.
      * intros Hin. destruct h as [|[|[|h]]]; now apply elem_of_nil in Hin.
      * intros (x & Hx & _). discriminate.
  - intros i. constructor.
Qed.

Lemma run_refines ops : forall w sp ids,
  sim w sp ids -> Forall op_ok ops -> callbacks_fresh is_set sp ops -> Z.of_nat (length (entries sp) + length ops) < 2 ^ 32 ->
  run units address is_set w ops = Some (spec_run is_set sp ops).
Proof.
  induction ops as [|op ops IH]; intros w sp ids Hsim Hok Hfr Hlen; [done|]. apply Forall_cons in Hok as [Hop Hok].
  destruct Hfr as [Hni Hfr]. cbn [length] in Hlen.
  destruct (step_refines w sp ids op Hsim Hop Hni) as (a & w1 & ids' & Es & Ha & Hs); [lia|].
  pose proof (spec_step_length sp op) as Hl. cbn [run spec_run]. rewrite Es. cbn [mbind option_bind].
  destruct (spec_step is_set sp op) as [a' sp1]. cbn [fst snd] in *.
  rewrite Ha, (IH w1 sp1 ids'); [done..|]. lia.
Qed.
End Refine.

(** ** The theorem *)

(** C2: the hash table of Map and Set implements the ECMAScript list of
    entries.  For every sequence of set, get, has, delete, getOrInsert,
    getOrInsertComputed, clear, size, and of creation, stepping and disposal of
    any number of iterators, shorter than 2^32, no assertion fails and the answers
    of the chained table with its reference-counted records are those of the list
    that only grows: insertion order, live iteration through deletions, and keys
    identified as SameValueZero does.  The callbacks of getOrInsertComputed do
    anything, except to insert the key that the call is about: ECMAScript then
    sets the value in place, and the code moves the entry to the end of the list
    ([JsMap.computed_moves_key]). *)
Theorem map_refines units address is_set ops :
  Forall op_ok ops -> callbacks_fresh is_set initial_spec ops -> Z.of_nat (length ops) < 2 ^ 32 ->
  run units address is_set initial_world ops = Some (spec_run is_set initial_spec ops).
Proof. intros Hok Hfr Hlen. exact (run_refines units address is_set ops _ _ [] (initial_sim units address) Hok Hfr Hlen). Qed.

(** A deletion behind an iterator, an insertion ahead of it, a resize, and a
    callback that inserts another key. *)
Lemma map_refines_witness :
  let key n := Prim (JS_TAG_INT n) in
  let ops := [OSet (key 1) (key 10); OSet (key 2) (key 20); OIterator JS_ITERATOR_KIND_KEY; ONext 0; ODelete (key 1);
              OSet (key 3) (key 30); OSet (key 4) (key 40); OComputedFind (key 5); OSet (key 6) (key 60);
              OComputed (key 5) (key 50); ONext 0; OClear; ONext 0; OSize] in
  run (fun _ => []) id false initial_world ops = Some (spec_run false initial_spec ops) /\
  nth 10 (spec_run false initial_spec ops) AUndefined = AIteration (IterValue (key 2)).
Proof.
  cbv zeta. split; [|vm_compute; reflexivity].
  apply (map_refines (fun _ => []) id false); [| |reflexivity].
  - repeat constructor; vm_compute; intuition discriminate.
  - repeat (split; [first [exact I | vm_compute; reflexivity]|]). exact I.
Defined.
