(* ===== verification/Async.v ===== *)
(** * The asynchronous runtime: values, programs and state

    What promises, jobs, timers and handlers share: the values they hold, the
    user code they call (an arbitrary program over the operations of the
    engine), the state of the runtime and the monad in which [Promise] and
    [EventLoop] are written. *)

From Stdlib Require Import ZArith Lia Bool.
From stdpp Require Import base numbers list option gmap.
From S2P Require Import Prelude.

#[local] Open Scope Z_scope.

(** ** Definitions *)

Inductive combinator : Type := PROMISE_MAGIC_all | PROMISE_MAGIC_allSettled | PROMISE_MAGIC_any.

(** The messages of the errors the runtime throws. *)
Inductive message : Type :=
| not_a_function | not_a_constructor | not_an_object | not_a_promise | must_be_called_with_new
| self_resolution | resolving_function_already_set | invalid_signal_number.

Inductive value : Type :=
| VUndefined
| VNull
| VBool (b : bool)
| VInt (n : Z)
| VObject (n : nat)                              (** an object of the program *)
| VArray (a : nat)                               (** an array made by a combinator *)
| VPromise (p : nat)
| VError (n : nat) (m : message)                 (** an error thrown by the runtime *)
| VAggregate (n : nat) (errors : value)
| VSettled (is_reject : bool) (v : value)        (** an element of [allSettled] *)
| VResolvers (promise resolve reject : value)    (** the object of [withResolvers] *)
| FUser (n : nat)                                (** a function of the program *)
| FResolving (is_reject : bool) (promise presolved : nat)
| FExecutor (data : nat)
| FElement (magic : combinator) (is_reject : bool) (data : nat)
| FThenFinally (is_reject : bool) (ctor onFinally : value)
| FValueThunk (v : value)
| FThrower (v : value)
| FPromise
| FPromiseThen | FPromiseCatch | FPromiseFinally
| FPromiseResolve (is_reject : bool)
| FPromiseAll (magic : combinator)
| FPromiseRace | FPromiseTry | FPromiseWithResolvers
| FSetTimeout | FClearTimeout | FSleepAsync
| FSetHandler (write : bool)
| FSignal.

#[export] Instance combinator_eq_dec : EqDecision combinator.
Proof. solve_decision. Defined.
#[export] Instance message_eq_dec : EqDecision message.
Proof. solve_decision. Defined.
#[export] Instance value_eq_dec : EqDecision value.
Proof. solve_decision. Defined.

Definition JS_IsFunction (v : value) : bool :=
  match v with
  | FUser _ | FResolving _ _ _ | FExecutor _ | FElement _ _ _ | FThenFinally _ _ _ | FValueThunk _ | FThrower _ | FPromise
  | FPromiseThen | FPromiseCatch | FPromiseFinally | FPromiseResolve _ | FPromiseAll _ | FPromiseRace | FPromiseTry
  | FPromiseWithResolvers | FSetTimeout | FClearTimeout | FSleepAsync | FSetHandler _ | FSignal => true
  | _ => false
  end.

Definition JS_IsObject (v : value) : bool :=
  match v with VUndefined | VNull | VBool _ | VInt _ => false | _ => true end.

Definition js_same_value (v1 v2 : value) : bool := bool_decide (v1 = v2).

(** [argv[i]] of a C function, completed with undefined. *)
Definition arg (i : nat) (argv : list value) : value := List.nth i argv VUndefined.

(** *** State *)

Inductive JSPromiseStateEnum : Type := JS_PROMISE_PENDING | JS_PROMISE_FULFILLED | JS_PROMISE_REJECTED.

#[export] Instance promise_state_eq_dec : EqDecision JSPromiseStateEnum.
Proof. solve_decision. Defined.

Record JSPromiseReactionData : Type := mk_reaction {
  rd_resolve : value;
  rd_reject : value;
  rd_handler : value;
}.

Record JSPromiseData : Type := mk_promise {
  promise_state : JSPromiseStateEnum;
  fulfill_reactions : list JSPromiseReactionData;
  reject_reactions : list JSPromiseReactionData;
  is_handled : bool;
  promise_result : value;
}.

Definition reactions (is_reject : bool) (d : JSPromiseData) : list JSPromiseReactionData :=
  if is_reject then reject_reactions d else fulfill_reactions d.

Inductive JSJobEntry : Type :=
| promise_reaction (rd : JSPromiseReactionData) (is_reject : bool) (a : value)
| resolve_thenable (promise : nat) (thenable then_ : value).

Record JSOSTimer : Type := mk_timer { timer_id : Z; timeout : Z; timer_func : value }.
Record JSOSRWHandler : Type := mk_rw { rw_fd : Z; rw_read : value; rw_write : value }.
Record JSOSSignalHandler : Type := mk_sh { sig_num : Z; sig_func : value }.

(** The heap, the job queue of the runtime and [JSThreadState]; [vars] are the
    variables of the program, [ticks] counts the readings of the clock. *)
Record runtime : Type := mk_runtime {
  promises : gmap nat JSPromiseData;
  already_resolved : gmap nat bool;
  func_data : gmap nat (list value);
  arrays : gmap nat (gmap nat value);
  job_list : list JSJobEntry;
  rejected_promise_list : list (nat * value);
  os_timers : list JSOSTimer;
  os_rw_handlers : list JSOSRWHandler;
  os_signal_handlers : list JSOSSignalHandler;
  os_pending_signals : Z;
  next_timer_id : Z;
  vars : gmap nat value;
  ticks : nat;
  fresh_id : nat;
}.

Definition empty_runtime : runtime := mk_runtime ∅ ∅ ∅ ∅ [] [] [] [] [] 0 1 ∅ 0 0.

Definition with_promises (s : runtime) x : runtime :=
  mk_runtime x (already_resolved s) (func_data s) (arrays s) (job_list s) (rejected_promise_list s) (os_timers s)
    (os_rw_handlers s) (os_signal_handlers s) (os_pending_signals s) (next_timer_id s) (vars s) (ticks s) (fresh_id s).
Definition with_resolved (s : runtime) x : runtime :=
  mk_runtime (promises s) x (func_data s) (arrays s) (job_list s) (rejected_promise_list s) (os_timers s)
    (os_rw_handlers s) (os_signal_handlers s) (os_pending_signals s) (next_timer_id s) (vars s) (ticks s) (fresh_id s).
Definition with_func_data (s : runtime) x : runtime :=
  mk_runtime (promises s) (already_resolved s) x (arrays s) (job_list s) (rejected_promise_list s) (os_timers s)
    (os_rw_handlers s) (os_signal_handlers s) (os_pending_signals s) (next_timer_id s) (vars s) (ticks s) (fresh_id s).
Definition with_arrays (s : runtime) x : runtime :=
  mk_runtime (promises s) (already_resolved s) (func_data s) x (job_list s) (rejected_promise_list s) (os_timers s)
    (os_rw_handlers s) (os_signal_handlers s) (os_pending_signals s) (next_timer_id s) (vars s) (ticks s) (fresh_id s).
Definition with_jobs (s : runtime) x : runtime :=
  mk_runtime (promises s) (already_resolved s) (func_data s) (arrays s) x (rejected_promise_list s) (os_timers s)
    (os_rw_handlers s) (os_signal_handlers s) (os_pending_signals s) (next_timer_id s) (vars s) (ticks s) (fresh_id s).
Definition with_rejected (s : runtime) x : runtime :=
  mk_runtime (promises s) (already_resolved s) (func_data s) (arrays s) (job_list s) x (os_timers s)
    (os_rw_handlers s) (os_signal_handlers s) (os_pending_signals s) (next_timer_id s) (vars s) (ticks s) (fresh_id s).
Definition with_vars (s : runtime) x : runtime :=
  mk_runtime (promises s) (already_resolved s) (func_data s) (arrays s) (job_list s) (rejected_promise_list s) (os_timers s)
    (os_rw_handlers s) (os_signal_handlers s) (os_pending_signals s) (next_timer_id s) x (ticks s) (fresh_id s).
Definition with_fresh (s : runtime) x : runtime :=
  mk_runtime (promises s) (already_resolved s) (func_data s) (arrays s) (job_list s) (rejected_promise_list s) (os_timers s)
    (os_rw_handlers s) (os_signal_handlers s) (os_pending_signals s) (next_timer_id s) (vars s) (ticks s) x.
(** The part of the operating system: [JSThreadState] without the rejections. *)
Definition with_os (s : runtime) timers rw sh pending next n : runtime :=
  mk_runtime (promises s) (already_resolved s) (func_data s) (arrays s) (job_list s) (rejected_promise_list s)
    timers rw sh pending next (vars s) n (fresh_id s).
Definition with_timers (s : runtime) x : runtime :=
  with_os s x (os_rw_handlers s) (os_signal_handlers s) (os_pending_signals s) (next_timer_id s) (ticks s).
Definition with_rw (s : runtime) x : runtime :=
  with_os s (os_timers s) x (os_signal_handlers s) (os_pending_signals s) (next_timer_id s) (ticks s).
Definition with_sh (s : runtime) x : runtime :=
  with_os s (os_timers s) (os_rw_handlers s) x (os_pending_signals s) (next_timer_id s) (ticks s).
Definition with_pending (s : runtime) x : runtime :=
  with_os s (os_timers s) (os_rw_handlers s) (os_signal_handlers s) x (next_timer_id s) (ticks s).
Definition with_ticks (s : runtime) x : runtime :=
  with_os s (os_timers s) (os_rw_handlers s) (os_signal_handlers s) (os_pending_signals s) (next_timer_id s) x.

(** *** The monad

    A computation returns, throws, or runs out of fuel ([None]). *)

Inductive outcome (A : Type) : Type :=
| Normal (a : A)
| Exception (v : value).
Arguments Normal {A} a.
Arguments Exception {A} v.

Definition M (A : Type) : Type := runtime -> option (outcome A * runtime).

Definition ret {A} (a : A) : M A := fun s => Some (Normal a, s).
Definition JS_Throw {A} (v : value) : M A := fun s => Some (Exception v, s).
Definition out_of_fuel {A} : M A := fun _ => None.
Definition bind {A B} (m : M A) (k : A -> M B) : M B := fun s =>
  match m s with
  | Some (Normal a, s) => k a s
  | Some (Exception v, s) => Some (Exception v, s)
  | None => None
  end.
(** [if (JS_IsException(ret)) { error = JS_GetException(ctx); ... }] *)
Definition catch {A} (m : M A) (h : value -> M A) : M A := fun s =>
  match m s with
  | Some (Exception v, s) => h v s
  | r => r
  end.
Definition get : M runtime := fun s => Some (Normal s, s).
Definition modify (f : runtime -> runtime) : M unit := fun s => Some (Normal tt, f s).
Definition fresh : M nat := fun s => Some (Normal (fresh_id s), with_fresh s (S (fresh_id s))).

Declare Scope runtime_scope.
Delimit Scope runtime_scope with rt.
Notation "'let!' x ':=' m 'in' k" := (bind m (fun x => k))
  (at level 10, x pattern, m at level 100, k at level 200) : runtime_scope.
Notation "m ;;; k" := (bind m (fun _ => k)) (at level 100, k at level 200, right associativity) : runtime_scope.
#[local] Open Scope runtime_scope.

Definition throw_error {A} (m : message) : M A := let! n := fresh in JS_Throw (VError n m).

Definition check_function (v : value) : M unit :=
  if JS_IsFunction v then ret tt else throw_error not_a_function.

(** *** User code

    The body of a function of the program is a tree of operations: calls back
    into the engine with what follows for each outcome, and accesses to the
    variables its closures share.  Getters and iterators are such programs
    too. *)

Inductive program (A : Type) : Type :=
| Return (a : A)
| Raise (v : value)
| Call (f this : value) (argv : list value) (k : outcome value -> program A)
| New (f : value) (argv : list value) (k : outcome value -> program A)
| Read (x : nat) (k : value -> program A)
| Write (x : nat) (v : value) (k : program A)
| Index (a i : nat) (k : value -> program A).
Arguments Return {A} a.
Arguments Raise {A} v.
Arguments Call {A} f this argv k.
Arguments New {A} f argv k.
Arguments Read {A} x k.
Arguments Write {A} x v k.
Arguments Index {A} a i k.

Inductive property : Type := P_then | P_constructor | P_resolve | P_next.

(** The program and the machine: what the functions of the program do, when
    called and when constructed, the property reads, [JS_SpeciesConstructor],
    the iteration protocol and the conversion to an integer of what is not a
    number, which all may run user code; the clock, the ready descriptors and
    the signals that arrive, at each reading. *)
Record environment : Type := mk_environment {
  user : nat -> value -> list value -> program value;
  construct : nat -> list value -> program value;
  get_property : value -> property -> program value;
  species : value -> program value;
  get_iterator : value -> program value;
  iterator_next : value -> value -> program (option value);
  iterator_close : value -> program unit;
  to_integer : value -> program Z;
  rejection_tracker : bool;      (** [rt->host_promise_rejection_tracker] is set *)
  clock : nat -> Z;
  ready : nat -> bool -> Z -> bool;
  signals : nat -> Z;
}.

Section Run.
Context (JS_Call : value -> value -> list value -> M value) (JS_CallConstructor : value -> list value -> M value).

(** [Ok] and exceptions as a value the program inspects. *)
Definition reify {A} (m : M A) : M (outcome A) := fun s =>
  match m s with
  | Some (o, s) => Some (Normal o, s)
  | None => None
  end.

Fixpoint run_program {A} (p : program A) : M A :=
  match p with
  | Return a => ret a
  | Raise v => JS_Throw v
  | Call f this argv k => let! o := reify (JS_Call f this argv) in run_program (k o)
  | New f argv k => let! o := reify (JS_CallConstructor f argv) in run_program (k o)
  | Read x k => let! s := get in run_program (k (default VUndefined (vars s !! x)))
  | Write x v k => modify (fun s => with_vars s (<[x := v]> (vars s))) ;;; run_program k
  | Index a i k => let! s := get in run_program (k (default VUndefined (m ← arrays s !! a; m !! i)))
  end.
End Run.
