(* ===== verification/Promise.v ===== *)
(** * Promises

    The promises of [src/core/quickjs.c] (52618 to 53668): states, resolving
    functions, reactions, the combinators, and the two kinds of job.  The
    functions that call back, [JS_Call] and [JS_CallConstructor], are arguments:
    [EventLoop] ties the knot. *)

From Stdlib Require Import ZArith Lia Bool.
From stdpp Require Import base numbers list option gmap.
From S2P Require Import Prelude Async.

#[local] Open Scope Z_scope.
#[local] Open Scope runtime_scope.

(** ** Definitions *)

(** *** Rejections without a handler ([src/lib/quickjs-libc.c]) *)

Fixpoint find_rejected_promise (p : nat) (l : list (nat * value)) : option (nat * value) :=
  match l with
  | rp :: l => if (rp.1 =? p)%nat then Some rp else find_rejected_promise p l
  | [] => None
  end.

(** [list_del] of the entry found. *)
Fixpoint remove_rejected_promise (p : nat) (l : list (nat * value)) : list (nat * value) :=
  match l with
  | rp :: l => if (rp.1 =? p)%nat then l else rp :: remove_rejected_promise p l
  | [] => []
  end.

Definition js_std_promise_rejection_tracker (promise : nat) (reason : value) (is_handled : bool) (l : list (nat * value))
  : list (nat * value) :=
  if negb is_handled
  then match find_rejected_promise promise l with None => l ++ [(promise, reason)] | Some _ => l end
  else remove_rejected_promise promise l.

Section Builtins.
Context (env : environment) (fuel : nat).
Context (JS_Call : value -> value -> list value -> M value) (JS_CallConstructor : value -> list value -> M value).

Definition run {A} (p : program A) : M A := run_program JS_Call JS_CallConstructor p.

Definition JS_Invoke (this : value) (atom : property) (argv : list value) : M value :=
  let! f := run (get_property env this atom) in JS_Call f this argv.

Definition track (promise : nat) (reason : value) (handled : bool) : M unit :=
  if rejection_tracker env
  then modify (fun s => with_rejected s (js_std_promise_rejection_tracker promise reason handled (rejected_promise_list s)))
  else ret tt.

Definition JS_EnqueueJob (job : JSJobEntry) : M unit := modify (fun s => with_jobs s (job_list s ++ [job])).

Definition set_promise (p : nat) (d : JSPromiseData) : M unit := modify (fun s => with_promises s (<[p := d]> (promises s))).

(** *** Settling *)

Fixpoint enqueue_reactions (is_reject : bool) (v : value) (l : list JSPromiseReactionData) : M unit :=
  match l with
  | rd :: l => JS_EnqueueJob (promise_reaction rd is_reject v) ;;; enqueue_reactions is_reject v l
  | [] => ret tt
  end.

Definition fulfill_or_reject_promise (p : nat) (v : value) (is_reject : bool) : M unit :=
  let! s := get in
  match promises s !! p with
  | None => ret tt
  | Some d =>
      if negb (bool_decide (promise_state d = JS_PROMISE_PENDING)) then ret tt
      else
        set_promise p (mk_promise (if is_reject then JS_PROMISE_REJECTED else JS_PROMISE_FULFILLED)
                         (fulfill_reactions d) (reject_reactions d) (is_handled d) v) ;;;
        (if is_reject && negb (is_handled d) then track p v false else ret tt) ;;;
        enqueue_reactions is_reject v (reactions is_reject d) ;;;
        set_promise p (mk_promise (if is_reject then JS_PROMISE_REJECTED else JS_PROMISE_FULFILLED) [] [] (is_handled d) v)
  end.

Definition reject_promise (p : nat) (v : value) : M unit := fulfill_or_reject_promise p v true.

(** *** Resolving functions *)

Definition js_create_resolving_functions (p : nat) : M (value * value) :=
  let! sr := fresh in
  modify (fun s => with_resolved s (<[sr := false]> (already_resolved s))) ;;;
  ret (FResolving false p sr, FResolving true p sr).

Definition js_promise_resolve_function_call (is_reject : bool) (p sr : nat) (argv : list value) : M value :=
  let! s := get in
  match already_resolved s !! sr with
  | None | Some true => ret VUndefined
  | Some false =>
    modify (fun s => with_resolved s (<[sr := true]> (already_resolved s))) ;;;
    let resolution := arg 0 argv in
    (if is_reject || negb (JS_IsObject resolution) then fulfill_or_reject_promise p resolution is_reject
     else if js_same_value resolution (VPromise p) then
       catch (throw_error self_resolution) (fun error => reject_promise p error)
     else
       let! o := reify (run (get_property env resolution P_then)) in
       match o with
       | Exception error => reject_promise p error
       | Normal then_ =>
           if negb (JS_IsFunction then_) then fulfill_or_reject_promise p resolution is_reject
           else JS_EnqueueJob (resolve_thenable p resolution then_)
       end) ;;;
    ret VUndefined
  end.

(** *** Jobs *)

Definition promise_reaction_job (rd : JSPromiseReactionData) (is_reject : bool) (a : value) : M value :=
  let! res := reify (if bool_decide (rd_handler rd = VUndefined)
                     then if is_reject then JS_Throw a else ret a
                     else JS_Call (rd_handler rd) VUndefined [a]) in
  let (func, res) := match res with Normal v => (rd_resolve rd, v) | Exception v => (rd_reject rd, v) end in
  if bool_decide (func = VUndefined) then ret VUndefined else JS_Call func VUndefined [res].

Definition js_promise_resolve_thenable_job (p : nat) (thenable then_ : value) : M value :=
  let! (resolve, reject) := js_create_resolving_functions p in
  catch (JS_Call then_ thenable [resolve; reject]) (fun error => JS_Call reject VUndefined [error]).

(** *** Construction and capabilities *)

Definition js_promise_constructor (argv : list value) : M value :=
  let executor := arg 0 argv in
  check_function executor ;;;
  let! p := fresh in
  set_promise p (mk_promise JS_PROMISE_PENDING [] [] false VUndefined) ;;;
  let! (resolve, reject) := js_create_resolving_functions p in
  catch (JS_Call executor VUndefined [resolve; reject]) (fun error => JS_Call reject VUndefined [error]) ;;;
  ret (VPromise p).

Definition data_of (d : nat) : M (list value) := let! s := get in ret (default [] (func_data s !! d)).

Definition new_func_data (l : list value) : M nat :=
  let! d := fresh in modify (fun s => with_func_data s (<[d := l]> (func_data s))) ;;; ret d.

Definition set_data (d i : nat) (v : value) : M unit :=
  modify (fun s => with_func_data s (alter (fun l => <[i := v]> l) d (func_data s))).

Definition executor_slot (d i : nat) (argv : list value) : M unit :=
  let! data := data_of d in
  if negb (bool_decide (arg i data = VUndefined)) then throw_error resolving_function_already_set
  else set_data d i (arg i argv).

Definition js_promise_executor (d : nat) (argv : list value) : M value :=
  executor_slot d 0 argv ;;; executor_slot d 1 argv ;;; ret VUndefined.

Definition js_new_promise_capability (ctor : value) : M (value * value * value) :=
  let! d := new_func_data [VUndefined; VUndefined] in
  let! result_promise :=
    if bool_decide (ctor = VUndefined) then js_promise_constructor [FExecutor d]
    else JS_CallConstructor ctor [FExecutor d] in
  let! data := data_of d in
  check_function (arg 0 data) ;;;
  check_function (arg 1 data) ;;;
  ret (result_promise, arg 0 data, arg 1 data).

Definition js_promise_resolve (is_reject : bool) (this : value) (argv : list value) : M value :=
  if negb (JS_IsObject this) then throw_error not_an_object
  else
    let capability :=
      let! (result_promise, resolve, reject) := js_new_promise_capability this in
      JS_Call (if is_reject then reject else resolve) VUndefined [arg 0 argv] ;;;
      ret result_promise in
    match is_reject, arg 0 argv with
    | false, VPromise p =>
        let! ctor := run (get_property env (VPromise p) P_constructor) in
        if js_same_value ctor this then ret (VPromise p) else capability
    | _, _ => capability
    end.

Definition js_promise_withResolvers (this : value) : M value :=
  if negb (JS_IsObject this) then throw_error not_an_object
  else
    let! (result_promise, resolve, reject) := js_new_promise_capability this in
    ret (VResolvers result_promise resolve reject).

Definition js_promise_try (this : value) (argv : list value) : M value :=
  if negb (JS_IsObject this) then throw_error not_an_object
  else
    let! (result_promise, resolve, reject) := js_new_promise_capability this in
    let! o := reify (JS_Call (arg 0 argv) VUndefined (tail argv)) in
    let (func, v) := match o with Normal v => (resolve, v) | Exception v => (reject, v) end in
    JS_Call func VUndefined [v] ;;;
    ret result_promise.

(** *** Combinators *)

Definition new_array (m : gmap nat value) : M nat :=
  let! a := fresh in modify (fun s => with_arrays s (<[a := m]> (arrays s))) ;;; ret a.

Definition array_set (a i : nat) (v : value) : M unit :=
  modify (fun s => with_arrays s (alter (fun m => <[i := v]> m) a (arrays s))).

(** The element 0 of the shared environment; whether it reaches zero. *)
Definition remainingElementsCount_add (e : nat) (addend : Z) : M bool :=
  let! s := get in
  let count := match default ∅ (arrays s !! e) !! 0%nat with Some (VInt n) => n | _ => 0 end in
  let count := i32 (count + addend) in
  array_set e 0 (VInt count) ;;;
  ret (count =? 0).

Definition js_aggregate_error_constructor (values : nat) : M value := let! n := fresh in ret (VAggregate n (VArray values)).

Definition settle_values (magic : combinator) (func : value) (values : nat) : M value :=
  let! v := match magic with
            | PROMISE_MAGIC_any => js_aggregate_error_constructor values
            | _ => ret (VArray values)
            end in
  JS_Call func VUndefined [v].

Definition js_promise_all_resolve_element (magic : combinator) (is_reject : bool) (d : nat) (argv : list value) : M value :=
  let! data := data_of d in
  match data with
  | [VBool alreadyCalled; VInt index; VArray values; resolve; VArray e] =>
      if alreadyCalled then ret VUndefined
      else
        set_data d 0 (VBool true) ;;;
        let obj := match magic with PROMISE_MAGIC_allSettled => VSettled is_reject (arg 0 argv) | _ => arg 0 argv end in
        array_set values (Z.to_nat index) obj ;;;
        let! is_zero := remainingElementsCount_add e (-1) in
        if is_zero then settle_values magic resolve values ;;; ret VUndefined else ret VUndefined
  | _ => ret VUndefined
  end.

(** [JS_IteratorClose] with an exception pending: its own errors are dropped. *)
Definition close_on_error (iter : value) (m : M unit) : M unit :=
  catch m (fun error => catch (run (iterator_close env iter)) (fun _ => ret tt) ;;; JS_Throw error).

(** The functions passed to [then] for an element. *)
Definition element_functions (magic : combinator) (f0 f1 : value) (values e : nat) (index : Z) : M (value * value) :=
  let data := [VBool false; VInt index; VArray values;
               match magic with PROMISE_MAGIC_any => f1 | _ => f0 end; VArray e] in
  let! d := new_func_data data in
  match magic with
  | PROMISE_MAGIC_allSettled => let! d' := new_func_data data in ret (FElement magic false d, FElement magic true d')
  | PROMISE_MAGIC_any => array_set values (Z.to_nat index) VUndefined ;;; ret (f0, FElement magic false d)
  | PROMISE_MAGIC_all => ret (FElement magic false d, f1)
  end.

Fixpoint all_loop (n : nat) (magic : combinator) (this promise_resolve f0 f1 iter next_method : value) (values e : nat) (index : Z)
  : M unit :=
  match n with
  | O => out_of_fuel
  | S n =>
      let! item := run (iterator_next env iter next_method) in
      match item with
      | None => ret tt
      | Some item =>
          close_on_error iter
            (let! next_promise := JS_Call promise_resolve this [item] in
             let! (resolve_element, reject_element) := element_functions magic f0 f1 values e index in
             let! _ := remainingElementsCount_add e 1 in
             JS_Invoke next_promise P_then [resolve_element; reject_element] ;;;
             ret tt) ;;;
          all_loop n magic this promise_resolve f0 f1 iter next_method values e (index + 1)
      end
  end.

Definition js_promise_all (magic : combinator) (this : value) (argv : list value) : M value :=
  if negb (JS_IsObject this) then throw_error not_an_object
  else
    let! (result_promise, f0, f1) := js_new_promise_capability this in
    catch
      (let! promise_resolve := run (get_property env this P_resolve) in
       check_function promise_resolve ;;;
       let! iter := run (get_iterator env (arg 0 argv)) in
       let! next_method := run (get_property env iter P_next) in
       let! values := new_array ∅ in
       let! e := new_array {[ 0%nat := VInt 1 ]} in
       all_loop fuel magic this promise_resolve f0 f1 iter next_method values e 0 ;;;
       let! is_zero := remainingElementsCount_add e (-1) in
       if is_zero
       then settle_values magic (match magic with PROMISE_MAGIC_any => f1 | _ => f0 end) values ;;; ret tt
       else ret tt)
      (fun error => JS_Call f1 VUndefined [error] ;;; ret tt) ;;;
    ret result_promise.

Fixpoint race_loop (n : nat) (this promise_resolve f0 f1 iter next_method : value) : M unit :=
  match n with
  | O => out_of_fuel
  | S n =>
      let! item := run (iterator_next env iter next_method) in
      match item with
      | None => ret tt
      | Some item =>
          close_on_error iter
            (let! next_promise := JS_Call promise_resolve this [item] in
             JS_Invoke next_promise P_then [f0; f1] ;;;
             ret tt) ;;;
          race_loop n this promise_resolve f0 f1 iter next_method
      end
  end.

Definition js_promise_race (this : value) (argv : list value) : M value :=
  if negb (JS_IsObject this) then throw_error not_an_object
  else
    let! (result_promise, f0, f1) := js_new_promise_capability this in
    catch
      (let! promise_resolve := run (get_property env this P_resolve) in
       check_function promise_resolve ;;;
       let! iter := run (get_iterator env (arg 0 argv)) in
       let! next_method := run (get_property env iter P_next) in
       race_loop fuel this promise_resolve f0 f1 iter next_method)
      (fun error => JS_Call f1 VUndefined [error] ;;; ret tt) ;;;
    ret result_promise.

(** *** Reactions *)

Definition reaction_data (handler cap0 cap1 : value) : JSPromiseReactionData :=
  mk_reaction cap0 cap1 (if JS_IsFunction handler then handler else VUndefined).

Definition perform_promise_then (p : nat) (onFulfilled onRejected cap0 cap1 : value) : M unit :=
  let rd0 := reaction_data onFulfilled cap0 cap1 in
  let rd1 := reaction_data onRejected cap0 cap1 in
  let! s := get in
  match promises s !! p with
  | None => ret tt
  | Some d =>
      match promise_state d with
      | JS_PROMISE_PENDING =>
          set_promise p (mk_promise (promise_state d) (fulfill_reactions d ++ [rd0]) (reject_reactions d ++ [rd1]) true (promise_result d))
      | JS_PROMISE_FULFILLED =>
          JS_EnqueueJob (promise_reaction rd0 false (promise_result d)) ;;;
          set_promise p (mk_promise (promise_state d) (fulfill_reactions d) (reject_reactions d) true (promise_result d))
      | JS_PROMISE_REJECTED =>
          (if negb (is_handled d) then track p (promise_result d) true else ret tt) ;;;
          JS_EnqueueJob (promise_reaction rd1 true (promise_result d)) ;;;
          set_promise p (mk_promise (promise_state d) (fulfill_reactions d) (reject_reactions d) true (promise_result d))
      end
  end.

Definition js_promise_then (this : value) (argv : list value) : M value :=
  match this with
  | VPromise p =>
      let! ctor := run (species env this) in
      let! (result_promise, resolve, reject) := js_new_promise_capability ctor in
      perform_promise_then p (arg 0 argv) (arg 1 argv) resolve reject ;;;
      ret result_promise
  | _ => throw_error not_a_promise
  end.

Definition js_promise_catch (this : value) (argv : list value) : M value := JS_Invoke this P_then [VUndefined; arg 0 argv].

Definition js_promise_then_finally_func (is_reject : bool) (ctor onFinally : value) (argv : list value) : M value :=
  let! res := JS_Call onFinally VUndefined [] in
  let! promise := js_promise_resolve false ctor [res] in
  JS_Invoke promise P_then [if is_reject then FThrower (arg 0 argv) else FValueThunk (arg 0 argv)].

Definition js_promise_finally (this : value) (argv : list value) : M value :=
  let onFinally := arg 0 argv in
  let! ctor := run (species env this) in
  JS_Invoke this P_then
    (if JS_IsFunction onFinally then [FThenFinally false ctor onFinally; FThenFinally true ctor onFinally]
     else [onFinally; onFinally]).

Definition JS_PromiseState (s : runtime) (v : value) : option JSPromiseStateEnum :=
  match v with VPromise p => promise_state <$> promises s !! p | _ => None end.

Definition JS_PromiseResult (s : runtime) (v : value) : value :=
  match v with VPromise p => default VUndefined (promise_result <$> promises s !! p) | _ => VUndefined end.
End Builtins.
