(* ===== verification/EventLoop.v ===== *)
(** * The event loop

    Timers, descriptor and signal handlers of [src/lib/quickjs-libc.c], the job
    queue of [src/core/quickjs.c], and the main loop that runs them.  [perform]
    ties the knot of the functions of [Promise] and of this file: a call of any
    function value, with fuel for the depth of the calls.  Worker ports are not
    modelled, nor is Windows. *)

From Stdlib Require Import ZArith Lia Bool.
From stdpp Require Import base numbers list option gmap.
From S2P Require Import Prelude Async Promise.

#[local] Open Scope Z_scope.
#[local] Open Scope runtime_scope.

(** ** Definitions *)

Definition INT32_MAX : Z := 2147483647.

(** The timer of that id, and the list without its entry. *)
Fixpoint find_timer_by_id (id : Z) (l : list JSOSTimer) : option (JSOSTimer * list JSOSTimer) :=
  match l with
  | th :: l =>
      if timer_id th =? id then Some (th, l)
      else '(t, rest) ← find_timer_by_id id l; Some (t, th :: rest)
  | [] => None
  end.

Fixpoint find_rh (fd : Z) (l : list JSOSRWHandler) : option JSOSRWHandler :=
  match l with
  | rh :: l => if rw_fd rh =? fd then Some rh else find_rh fd l
  | [] => None
  end.

(** An assignment through [rh], and [list_del] of it when both functions are
    null. *)
Fixpoint update_rh (fd : Z) (rh' : JSOSRWHandler) (l : list JSOSRWHandler) : list JSOSRWHandler :=
  match l with
  | rh :: l =>
      if rw_fd rh =? fd
      then if bool_decide (rw_read rh' = VNull) && bool_decide (rw_write rh' = VNull) then l else rh' :: l
      else rh :: update_rh fd rh' l
  | [] => []
  end.

Definition set_rw (write : bool) (func : value) (rh : JSOSRWHandler) : JSOSRWHandler :=
  if write then mk_rw (rw_fd rh) (rw_read rh) func else mk_rw (rw_fd rh) func (rw_write rh).

Fixpoint find_sh (n : Z) (l : list JSOSSignalHandler) : option JSOSSignalHandler :=
  match l with
  | sh :: l => if sig_num sh =? n then Some sh else find_sh n l
  | [] => None
  end.

Fixpoint free_sh (n : Z) (l : list JSOSSignalHandler) : list JSOSSignalHandler :=
  match l with
  | sh :: l => if sig_num sh =? n then l else sh :: free_sh n l
  | [] => []
  end.

Fixpoint set_sh (n : Z) (func : value) (l : list JSOSSignalHandler) : list JSOSSignalHandler :=
  match l with
  | sh :: l => if sig_num sh =? n then mk_sh n func :: l else sh :: set_sh n func l
  | [] => []
  end.

(** The first timer that expired, and the list without it. *)
Fixpoint expired (cur_time : Z) (l : list JSOSTimer) : option (JSOSTimer * list JSOSTimer) :=
  match l with
  | th :: l =>
      if i64 (timeout th - cur_time) <=? 0 then Some (th, l)
      else '(t, rest) ← expired cur_time l; Some (t, th :: rest)
  | [] => None
  end.

(** The first handler of a pending signal. *)
Fixpoint pending_handler (pending : Z) (l : list JSOSSignalHandler) : option JSOSSignalHandler :=
  match l with
  | sh :: l => if Z.testbit pending (sig_num sh) then Some sh else pending_handler pending l
  | [] => None
  end.

(** The first function whose descriptor [select] reports. *)
Fixpoint ready_handler (is_ready : bool -> Z -> bool) (l : list JSOSRWHandler) : option value :=
  match l with
  | rh :: l =>
      if negb (bool_decide (rw_read rh = VNull)) && is_ready false (rw_fd rh) then Some (rw_read rh)
      else if negb (bool_decide (rw_write rh = VNull)) && is_ready true (rw_fd rh) then Some (rw_write rh)
      else ready_handler is_ready l
  | [] => None
  end.

Section Os.
Context (env : environment).
Context (JS_Call : value -> value -> list value -> M value) (JS_CallConstructor : value -> list value -> M value).

Definition to_number (w : Z -> Z) (v : value) : M Z :=
  match v with
  | VInt n => ret (w n)
  | VUndefined | VNull => ret 0
  | VBool b => ret (b2z b)
  | _ => let! n := run JS_Call JS_CallConstructor (to_integer env v) in ret (w n)
  end.

Definition get_time_ms : M Z := let! s := get in modify (fun s => with_ticks s (S (ticks s))) ;;; ret (clock env (ticks s)).

(** *** Timers *)

Definition js_os_setTimeout (argv : list value) : M value :=
  let func := arg 0 argv in
  if negb (JS_IsFunction func) then throw_error not_a_function
  else
    let! delay := to_number i64 (arg 1 argv) in
    let! s := get in
    let id := next_timer_id s in
    modify (fun s => with_os s (os_timers s) (os_rw_handlers s) (os_signal_handlers s) (os_pending_signals s)
                       (if id =? INT32_MAX then 1 else id + 1) (ticks s)) ;;;
    let! now := get_time_ms in
    modify (fun s => with_timers s (os_timers s ++ [mk_timer id (i64 (now + delay)) func])) ;;;
    ret (VInt id).

Definition js_os_clearTimeout (argv : list value) : M value :=
  let! id := to_number i32 (arg 0 argv) in
  let! s := get in
  match (if id <=? 0 then None else find_timer_by_id id (os_timers s)) with
  | None => ret VUndefined
  | Some (_, rest) => modify (fun s => with_timers s rest) ;;; ret VUndefined
  end.

Definition js_os_sleepAsync (argv : list value) : M value :=
  let! delay := to_number i64 (arg 0 argv) in
  let! (promise, resolve, _) := js_new_promise_capability JS_Call JS_CallConstructor VUndefined in
  let! now := get_time_ms in
  modify (fun s => with_timers s (os_timers s ++ [mk_timer (-1) (i64 (now + delay)) resolve])) ;;;
  ret promise.

(** *** Handlers *)

Definition js_os_setReadHandler (write : bool) (argv : list value) : M value :=
  let! fd := to_number i32 (arg 0 argv) in
  let func := arg 1 argv in
  let! s := get in
  if bool_decide (func = VNull) then
    match find_rh fd (os_rw_handlers s) with
    | None => ret VUndefined
    | Some rh => modify (fun s => with_rw s (update_rh fd (set_rw write VNull rh) (os_rw_handlers s))) ;;; ret VUndefined
    end
  else if negb (JS_IsFunction func) then throw_error not_a_function
  else
    match find_rh fd (os_rw_handlers s) with
    | None => modify (fun s => with_rw s (os_rw_handlers s ++ [set_rw write func (mk_rw fd VNull VNull)])) ;;; ret VUndefined
    | Some rh => modify (fun s => with_rw s (update_rh fd (set_rw write func rh) (os_rw_handlers s))) ;;; ret VUndefined
    end.

(** In the main thread; what the operating system does with [signal] is not
    modelled. *)
Definition js_os_signal (argv : list value) : M value :=
  let! n := to_number u32 (arg 0 argv) in
  if 64 <=? n then throw_error invalid_signal_number
  else
    let func := arg 1 argv in
    if bool_decide (func = VNull) || bool_decide (func = VUndefined)
    then modify (fun s => with_sh s (free_sh n (os_signal_handlers s))) ;;; ret VUndefined
    else if negb (JS_IsFunction func) then throw_error not_a_function
    else
      let! s := get in
      modify (fun s => with_sh s (match find_sh n (os_signal_handlers s) with
                                  | Some _ => set_sh n func (os_signal_handlers s)
                                  | None => os_signal_handlers s ++ [mk_sh n func]
                                  end)) ;;;
      ret VUndefined.

(** The exception of a handler is printed and dropped. *)
Definition call_handler (func : value) : M unit := catch (JS_Call func VUndefined [] ;;; ret tt) (fun _ => ret tt).

(** *** Polling *)

Definition poll_descriptors : M Z :=
  let! s := get in
  match ready_handler (ready env (ticks s)) (os_rw_handlers s) with
  | Some func => call_handler func ;;; ret 0
  | None => ret 0
  end.

Definition poll_timers : M Z :=
  let! s := get in
  match os_timers s with
  | [] => poll_descriptors
  | _ =>
      let! cur_time := get_time_ms in
      match expired cur_time (os_timers s) with
      | Some (th, rest) => modify (fun s => with_timers s rest) ;;; call_handler (timer_func th) ;;; ret 0
      | None => poll_descriptors
      end
  end.

Definition js_os_poll : M Z :=
  modify (fun s => with_pending s (Z.lor (os_pending_signals s) (signals env (ticks s)))) ;;;
  let! s := get in
  match (if os_pending_signals s =? 0 then None else pending_handler (os_pending_signals s) (os_signal_handlers s)) with
  | Some sh =>
      modify (fun s => with_pending s (Z.ldiff (os_pending_signals s) (2 ^ sig_num sh))) ;;;
      call_handler (sig_func sh) ;;;
      ret 0
  | None =>
      match os_rw_handlers s, os_timers s with
      | [], [] => ret (-1)
      | _, _ => poll_timers
      end
  end.

(** *** Jobs *)

Definition run_job (job : JSJobEntry) : M value :=
  match job with
  | promise_reaction rd is_reject a => promise_reaction_job JS_Call rd is_reject a
  | resolve_thenable p thenable then_ => js_promise_resolve_thenable_job JS_Call p thenable then_
  end.

Definition JS_ExecutePendingJob : M Z :=
  let! s := get in
  match job_list s with
  | [] => ret 0
  | e :: rest =>
      modify (fun s => with_jobs s rest) ;;;
      catch (run_job e ;;; ret 1) (fun _ => ret (-1))
  end.

Fixpoint run_pending_jobs (n : nat) : M unit :=
  match n with
  | O => out_of_fuel
  | S n => let! err := JS_ExecutePendingJob in if err <=? 0 then ret tt else run_pending_jobs n
  end.
End Os.

(** ** Every call *)

Inductive request : Type :=
| DoCall (f this : value) (argv : list value)
| DoNew (f : value) (argv : list value).

Definition builtin (env : environment) (fuel : nat) (call : value -> value -> list value -> M value)
  (new : value -> list value -> M value) (r : request) : M value :=
  match r with
  | DoNew FPromise argv => js_promise_constructor call argv
  | DoNew (FUser n) argv => run call new (construct env n argv)
  | DoNew _ _ => throw_error not_a_constructor
  | DoCall f this argv =>
      match f with
      | FUser n => run call new (user env n this argv)
      | FResolving is_reject p sr => js_promise_resolve_function_call env call new is_reject p sr argv
      | FExecutor d => js_promise_executor d argv
      | FElement magic is_reject d => js_promise_all_resolve_element call magic is_reject d argv
      | FThenFinally is_reject ctor onFinally => js_promise_then_finally_func env call new is_reject ctor onFinally argv
      | FValueThunk v => ret v
      | FThrower v => JS_Throw v
      | FPromise => throw_error must_be_called_with_new
      | FPromiseThen => js_promise_then env call new this argv
      | FPromiseCatch => js_promise_catch env call new this argv
      | FPromiseFinally => js_promise_finally env call new this argv
      | FPromiseResolve is_reject => js_promise_resolve env call new is_reject this argv
      | FPromiseAll magic => js_promise_all env fuel call new magic this argv
      | FPromiseRace => js_promise_race env fuel call new this argv
      | FPromiseTry => js_promise_try call new this argv
      | FPromiseWithResolvers => js_promise_withResolvers call new this
      | FSetTimeout => js_os_setTimeout env call new argv
      | FClearTimeout => js_os_clearTimeout env call new argv
      | FSleepAsync => js_os_sleepAsync env call new argv
      | FSetHandler write => js_os_setReadHandler env call new write argv
      | FSignal => js_os_signal env call new argv
      | _ => throw_error not_a_function
      end
  end.

Fixpoint perform (env : environment) (n : nat) (r : request) : M value :=
  match n with
  | O => out_of_fuel
  | S n => builtin env n (fun f this argv => perform env n (DoCall f this argv)) (fun f argv => perform env n (DoNew f argv)) r
  end.

Definition call (env : environment) (n : nat) (f this : value) (argv : list value) : M value := perform env n (DoCall f this argv).
Definition new (env : environment) (n : nat) (f : value) (argv : list value) : M value := perform env n (DoNew f argv).

(** *** The main loop *)

Inductive loop_end : Type :=
| NoMoreEvents
| ProcessExit (status : Z).

Fixpoint js_std_loop (env : environment) (n : nat) : M loop_end :=
  match n with
  | O => out_of_fuel
  | S m =>
      run_pending_jobs (call env n) n ;;;
      let! s := get in
      match rejected_promise_list s with      (* js_std_promise_rejection_check *)
      | _ :: _ => ret (ProcessExit 1)
      | [] =>
          let! err := js_os_poll env (call env n) in
          if negb (err =? 0) then ret NoMoreEvents else js_std_loop env m
      end
  end.

(** The value of the promise, [inl] when it was not rejected. *)
Fixpoint js_std_await (env : environment) (n : nat) (obj : value) : M (value + loop_end) :=
  match n with
  | O => out_of_fuel
  | S m =>
      let! s := get in
      match JS_PromiseState s obj with
      | None => ret (inl obj)
      | Some JS_PROMISE_FULFILLED => ret (inl (JS_PromiseResult s obj))
      | Some JS_PROMISE_REJECTED => JS_Throw (JS_PromiseResult s obj)
      | Some JS_PROMISE_PENDING =>
          let! err := JS_ExecutePendingJob (call env n) in
          if err =? 0 then
            let! s := get in
            match rejected_promise_list s with
            | _ :: _ => ret (inr (ProcessExit 1))
            | [] => let! _ := js_os_poll env (call env n) in js_std_await env m obj
            end
          else js_std_await env m obj
      end
  end.

(** ** An example

    [Promise.all([Promise.resolve(1), new Promise(r => setTimeout(r, 5))])
      .then(f)], where [f] stores its argument's first element. *)

Definition default_property (v : value) (p : property) : program value :=
  match p, v with
  | P_then, VPromise _ => Return FPromiseThen
  | P_constructor, VPromise _ => Return FPromise
  | P_resolve, FPromise => Return (FPromiseResolve false)
  | _, _ => Return VUndefined
  end.

(** A machine whose clock ticks at each reading, and where iterators are
    integers that count down to the items [FUser] of the variables. *)
Definition plain_environment (body : nat -> value -> list value -> program value) : environment :=
  mk_environment body (fun _ _ => Return VUndefined) default_property (fun _ => Return FPromise)
    (fun v => Return v)
    (fun iter _ => Read 0 (fun i => match i, iter with
       | VInt i, VInt n => if i <? n then Write 0 (VInt (i + 1)) (Read (S (Z.to_nat i)) (fun v => Return (Some v))) else Return None
       | _, _ => Return None end))
    (fun _ => Return tt) (fun _ => Return 0) true Z.of_nat (fun _ _ _ => false) (fun _ => 0).

Definition example_body (n : nat) (this : value) (argv : list value) : program value :=
  match n with
  | 0%nat => (* the script *)
      Call (FPromiseResolve false) FPromise [VInt 1] (fun o => match o with Exception v => Raise v | Normal p1 =>
      New FPromise [FUser 1] (fun o => match o with Exception v => Raise v | Normal p2 =>
      Write 0 (VInt 0) (Write 1 p1 (Write 2 p2 (
      Call (FPromiseAll PROMISE_MAGIC_all) FPromise [VInt 2] (fun o => match o with Exception v => Raise v | Normal p =>
      Call FPromiseThen p [FUser 2] (fun _ => Return p) end)))) end) end)
  | 1%nat => Call FSetTimeout VUndefined [arg 0 argv; VInt 5] (fun _ => Return VUndefined)
  | 2%nat => match arg 0 argv with VArray a => Index a 0 (fun v => Write 9 v (Return VUndefined)) | _ => Return VUndefined end
  | _ => Return VUndefined
  end.

Example event_loop_run :
  let env := plain_environment example_body in
  match (call env 20 (FUser 0) VUndefined [] ;;; js_std_loop env 30) empty_runtime with
  | Some (Normal NoMoreEvents, s) => vars s !! 9%nat = Some (VInt 1) /\ job_list s = [] /\ os_timers s = []
  | _ => False
  end.
Proof. vm_compute. auto. Qed.
