(* ===== verification/AsyncInv.v ===== *)
(** * Invariants of the asynchronous runtime

    What every computation of the runtime keeps, whatever the program does:
    well-formedness of the heap, and the ways a state may evolve.  One rule per
    construct of the monad, one lemma per builtin, and an induction on the fuel
    for a call of any function. *)

From Stdlib Require Import ZArith Lia Bool.
From stdpp Require Import base numbers list option gmap.
From S2P Require Import Prelude Async Promise EventLoop.

#[local] Open Scope Z_scope.
#[local] Open Scope runtime_scope.

(** ** Definitions *)

Definition pending (d : JSPromiseData) : Prop := promise_state d = JS_PROMISE_PENDING.

(** A pending promise has no result; a settled one has no reactions left. *)
Definition promise_ok (d : JSPromiseData) : Prop :=
  (pending d -> promise_result d = VUndefined) /\
  (~ pending d -> fulfill_reactions d = [] /\ reject_reactions d = []).

(** A rejected promise that no one handles. *)
Definition unhandled (d : JSPromiseData) (v : value) : Prop :=
  promise_state d = JS_PROMISE_REJECTED /\ is_handled d = false /\ promise_result d = v.

Record well_formed (env : environment) (s : runtime) : Prop := mk_wf {
  wf_promises : forall p d, promises s !! p = Some d -> promise_ok d;
  wf_tracked : rejection_tracker env = true -> forall p v,
    (p, v) ∈ rejected_promise_list s <-> exists d, promises s !! p = Some d /\ unhandled d v;
  wf_nodup : NoDup (rejected_promise_list s).*1;
  wf_fresh_promise : forall p, is_Some (promises s !! p) -> (p < fresh_id s)%nat;
  wf_fresh_resolved : forall sr, is_Some (already_resolved s !! sr) -> (sr < fresh_id s)%nat;
  wf_fresh_data : forall d, is_Some (func_data s !! d) -> (d < fresh_id s)%nat;
  wf_fresh_array : forall a, is_Some (arrays s !! a) -> (a < fresh_id s)%nat;
}.

(** The jobs of a list of reactions. *)
Definition jobs_of (is_reject : bool) (v : value) (l : list JSPromiseReactionData) : list JSJobEntry :=
  map (fun rd => promise_reaction rd is_reject v) l.

(** What may happen to a promise while the jobs [l] are enqueued: it is settled
    for ever, or its reactions are added to, or it is settled and the jobs of its
    reactions are among [l], in order. *)
Definition promise_evolves (l : list JSJobEntry) (d d' : JSPromiseData) : Prop :=
  (is_handled d = true -> is_handled d' = true) /\
  (~ pending d -> promise_state d' = promise_state d /\ promise_result d' = promise_result d) /\
  (pending d -> pending d' -> exists x y,
     fulfill_reactions d' = fulfill_reactions d ++ x /\ reject_reactions d' = reject_reactions d ++ y) /\
  (pending d -> ~ pending d' -> exists (is_reject : bool) x l1 l2,
     promise_state d' = (if is_reject then JS_PROMISE_REJECTED else JS_PROMISE_FULFILLED) /\
     l = l1 ++ jobs_of is_reject (promise_result d') (reactions is_reject d ++ x) ++ l2).

(** What may happen to the timers between polls: those without an identifier
    stay, the others may be cleared, and timers are added behind them.  Each new
    identifier costs a reading of the clock, so that they are fresh until
    [INT32_MAX] is reached. *)
Definition timers_evolve (s s' : runtime) : Prop :=
  exists kept added, os_timers s' = kept ++ added /\ kept `sublist_of` os_timers s /\
    filter (fun th => timer_id th <= 0) kept = filter (fun th => timer_id th <= 0) (os_timers s) /\
    (next_timer_id s + Z.of_nat (ticks s' - ticks s) <= INT32_MAX ->
     next_timer_id s <= next_timer_id s' <= next_timer_id s + Z.of_nat (ticks s' - ticks s) /\
     forall th, th ∈ added -> timer_id th = -1 \/ next_timer_id s <= timer_id th < next_timer_id s').

Record evolves (s s' : runtime) : Prop := mk_evolves {
  ev_promises : exists l, job_list s' = job_list s ++ l /\
    forall p d, promises s !! p = Some d -> exists d', promises s' !! p = Some d' /\ promise_evolves l d d';
  ev_resolved : forall sr b, already_resolved s !! sr = Some b -> exists b', already_resolved s' !! sr = Some b' /\ (b = true -> b' = true);
  ev_timers : timers_evolve s s';
  ev_pending : os_pending_signals s' = os_pending_signals s;
  ev_ticks : (ticks s <= ticks s')%nat;
  ev_fresh : (fresh_id s <= fresh_id s')%nat;
}.

(** ** Evolution is a preorder *)

Lemma promise_evolves_refl l d : promise_evolves l d d.
Proof.
  split_and!; try done. intros _ _. exists [], []. now rewrite !app_nil_r.
Qed.

Lemma promise_evolves_trans l l' d d' d'' :
  promise_ok d' -> promise_evolves l d d' -> promise_evolves l' d' d'' -> promise_evolves (l ++ l') d d''.
Proof.
  intros _ (H1 & H2 & H3 & H4) (K1 & K2 & K3 & K4). split_and!.
  - auto.
  - intros Hd. destruct (H2 Hd) as [E E']. destruct K2 as [F F']; [now unfold pending; rewrite E|]. split; congruence.
  - intros Hd Hd''. destruct (decide (promise_state d' = JS_PROMISE_PENDING)) as [Hd'|Hd'].
    + destruct (H3 Hd Hd') as (x & y & E & E'), (K3 Hd' Hd'') as (x' & y' & F & F').
      exists (x ++ x'), (y ++ y'). rewrite !app_assoc. split; congruence.
    + destruct (K2 Hd') as [E _]. exfalso. apply Hd'. now rewrite <- E.
  - intros Hd Hd''. destruct (decide (promise_state d' = JS_PROMISE_PENDING)) as [Hd'|Hd'].
    + destruct (H3 Hd Hd') as (x & y & E & E'), (K4 Hd' Hd'') as (b & z & l1 & l2 & F & ->).
      exists b, ((if b then y else x) ++ z), (l ++ l1), l2. split; [done|].
      assert (reactions b d' = reactions b d ++ if b then y else x) as -> by (destruct b; cbn; congruence).
      now rewrite <- !app_assoc.
    + destruct (H4 Hd Hd') as (b & z & l1 & l2 & F & ->), (K2 Hd') as [E E']. exists b, z, l1, (l2 ++ l').
      rewrite E, E'. split; [done|]. now rewrite <- !app_assoc.
Qed.

Lemma timers_same s s' :
  os_timers s' = os_timers s -> next_timer_id s' = next_timer_id s -> (ticks s <= ticks s')%nat -> timers_evolve s s'.
Proof.
  intros E1 E2 Hn. exists (os_timers s), []. rewrite app_nil_r. split_and!; [done..|].
  intros _. split; [lia|]. intros th Hth. now apply elem_of_nil in Hth.
Qed.

Lemma timers_evolve_refl s : timers_evolve s s.
Proof. now apply timers_same. Qed.

Lemma sublist_eq {A} (k l : list A) : k `sublist_of` l -> (length l <= length k)%nat -> k = l.
Proof. intros H Hl. induction H as [|x k l H IH|x k l H IH]; cbn in *; [done|f_equal; apply IH; lia|]. apply sublist_length in H. lia. Qed.

Lemma filter_sublist {A} (P : A -> Prop) `{!forall x, Decision (P x)} (k l : list A) : k `sublist_of` l -> filter P k `sublist_of` filter P l.
Proof.
  intros Hs. induction Hs as [|x k l Hs IH|x k l Hs IH]; [done|rewrite !filter_cons|rewrite filter_cons]; destruct (decide (P x)).
  - now apply sublist_skip.
  - done.
  - now apply sublist_cons.
  - done.
Qed.

Lemma timers_evolve_trans s s' s'' :
  (ticks s <= ticks s')%nat -> (ticks s' <= ticks s'')%nat -> timers_evolve s s' -> timers_evolve s' s'' -> timers_evolve s s''.
Proof.
  intros Hn Hn' (k & n & E & Hk & Hf & Hid) (k' & n' & E' & Hk' & Hf' & Hid').
  rewrite E in Hk', Hf'. apply sublist_app_r in Hk' as (k1 & k2 & -> & H1 & H2). exists k1, (k2 ++ n').
  split; [rewrite E'; now rewrite <- app_assoc|]. split; [now transitivity k|]. split.
  - rewrite <- Hf. rewrite !filter_app in Hf'. apply sublist_eq; [now apply filter_sublist|].
    assert (length (filter (fun th => (timer_id th <= 0)%Z) k2) <= length (filter (fun th => (timer_id th <= 0)%Z) n))%nat as Hl
      by (apply sublist_length; now apply filter_sublist).
    apply (f_equal length) in Hf'. rewrite !length_app in Hf'. lia.
  - intros Hmax. destruct Hid as [Hb Hnew]; [lia|]. destruct Hid' as [Hb' Hnew']; [lia|]. split; [lia|].
    intros th Hth. apply elem_of_app in Hth as [Hth|Hth].
    + assert (th ∈ n) as Hin by (eapply elem_of_submseteq; [exact Hth | now apply sublist_submseteq]).
      destruct (Hnew th Hin); [now left | right; lia].
    + destruct (Hnew' th Hth); [now left | right; lia].
Qed.

#[export] Instance evolves_refl : Reflexive evolves.
Proof.
  intros s. split; try done.
  - exists []. rewrite app_nil_r. split; [done|]. eauto using promise_evolves_refl.
  - intros sr b H. eauto.
  - apply timers_evolve_refl.
Qed.

Lemma evolves_trans env s s' s'' : well_formed env s' -> evolves s s' -> evolves s' s'' -> evolves s s''.
Proof.
  intros Hwf [(l & Hl & Hp) Hr Ht Hs Hn Hf] [(l' & Hl' & Hp') Hr' Ht' Hs' Hn' Hf']. split.
  - exists (l ++ l'). split; [rewrite Hl', Hl; now rewrite app_assoc|].
    intros p d H. destruct (Hp p d H) as (d' & H' & He). destruct (Hp' p d' H') as (d'' & H'' & He').
    exists d''. split; [done|]. eapply promise_evolves_trans; eauto using wf_promises.
  - intros sr b H. destruct (Hr sr b H) as (b' & H' & He). destruct (Hr' sr b' H') as (b'' & H'' & He'). eauto.
  - eauto using timers_evolve_trans.
  - congruence.
  - lia.
  - lia.
Qed.

(** ** The rules *)

Definition keeps (env : environment) (s s' : runtime) : Prop := well_formed env s' /\ evolves s s'.

(** [m] keeps well-formedness and evolves the state, from every state. *)
Definition preserves {A} (env : environment) (m : M A) : Prop :=
  forall s, well_formed env s -> match m s with Some (_, s') => keeps env s s' | None => True end.

Create HintDb runtime.

Section Rules.
Context (env : environment).
Abbreviation preserves := (preserves env).
Abbreviation well_formed := (well_formed env).
Abbreviation keeps := (keeps env).

Lemma keeps_refl s : well_formed s -> keeps s s.
Proof. intros H. split; [done | reflexivity]. Qed.

Lemma keeps_trans s s' s'' : keeps s s' -> keeps s' s'' -> keeps s s''.
Proof. intros [H1 H2] [H3 H4]. split; [done|]. eauto using evolves_trans. Qed.

Lemma preserves_ret {A} (a : A) : preserves (ret a).
Proof. intros s H. now apply keeps_refl. Qed.

Lemma preserves_throw {A} v : preserves (@JS_Throw A v).
Proof. intros s H. now apply keeps_refl. Qed.

Lemma preserves_fuel {A} : preserves (@out_of_fuel A).
Proof. now intros s H. Qed.

Lemma preserves_bind {A B} (m : M A) (k : A -> M B) : preserves m -> (forall a, preserves (k a)) -> preserves (bind m k).
Proof.
  intros Hm Hk s H. unfold bind. specialize (Hm s H). destruct (m s) as [[[a|v] s']|]; [|done..].
  specialize (Hk a s' (proj1 Hm)). destruct (k a s') as [[o s'']|]; [|done]. eauto using keeps_trans.
Qed.

Lemma preserves_catch {A} (m : M A) h : preserves m -> (forall v, preserves (h v)) -> preserves (catch m h).
Proof.
  intros Hm Hh s H. unfold catch. specialize (Hm s H). destruct (m s) as [[[a|v] s']|]; [done| |done].
  specialize (Hh v s' (proj1 Hm)). destruct (h v s') as [[o s'']|]; [|done]. eauto using keeps_trans.
Qed.

Lemma preserves_reify {A} (m : M A) : preserves m -> preserves (reify m).
Proof. intros Hm s H. unfold reify. specialize (Hm s H). now destruct (m s) as [[o s']|]. Qed.

Lemma preserves_get : preserves get.
Proof. intros s H. now apply keeps_refl. Qed.

Lemma preserves_modify f : (forall s, well_formed s -> keeps s (f s)) -> preserves (modify f).
Proof. intros Hf s H. now apply Hf. Qed.

(** A change outside promises, jobs and rejections. *)
Lemma keeps_frame s s' :
  well_formed s ->
  promises s' = promises s -> already_resolved s' = already_resolved s -> job_list s' = job_list s ->
  rejected_promise_list s' = rejected_promise_list s -> os_pending_signals s' = os_pending_signals s ->
  timers_evolve s s' -> (ticks s <= ticks s')%nat -> (fresh_id s <= fresh_id s')%nat ->
  (forall d, is_Some (func_data s' !! d) -> (d < fresh_id s')%nat) ->
  (forall a, is_Some (arrays s' !! a) -> (a < fresh_id s')%nat) -> keeps s s'.
Proof.
  intros [H1 H2 H3 H4 H5 H6 H7] Ep Er Ej El Es Ht Hn Hf Hd Ha. split.
  - split; rewrite ?Ep, ?Er, ?El; try done.
    + intros p Hp. specialize (H4 p Hp). lia.
    + intros sr Hsr. specialize (H5 sr Hsr). lia.
  - split; rewrite ?Ep, ?Er, ?Ej; try done.
    + exists []. rewrite app_nil_r. eauto using promise_evolves_refl.
    + eauto.
Qed.

Ltac frame := intros; apply keeps_frame; cbn; try done; try lia; try (apply timers_same; cbn; [done | done | lia]);
  try (match goal with H : well_formed _ |- _ => apply H end).

Lemma preserves_vars f : preserves (modify (fun s => with_vars s (f s))).
Proof. apply preserves_modify. frame. Qed.
Lemma preserves_rw f : preserves (modify (fun s => with_rw s (f s))).
Proof. apply preserves_modify. frame. Qed.
Lemma preserves_sh f : preserves (modify (fun s => with_sh s (f s))).
Proof. apply preserves_modify. frame. Qed.
Lemma preserves_tick : preserves (modify (fun s => with_ticks s (S (ticks s)))).
Proof. apply preserves_modify. frame. Qed.


(** A timer without an identifier. *)
Lemma timers_added s s' n th :
  os_timers s' = os_timers s ++ [th] -> (next_timer_id s <= INT32_MAX - n -> next_timer_id s' = next_timer_id s + n) ->
  ticks s' = (ticks s + 1)%nat -> (timer_id th = -1 /\ n = 0 \/ timer_id th = next_timer_id s /\ n = 1) -> timers_evolve s s'.
Proof.
  intros E1 E2 E3 Hth. exists (os_timers s), [th]. split_and!; [done..|]. rewrite E3.
  replace (ticks s + 1 - ticks s)%nat with 1%nat by lia. intros Hmax. rewrite E2 by (destruct Hth; lia). split; [lia|].
  intros th' Hin. apply list_elem_of_singleton in Hin as ->. destruct Hth as [[Hth _]|[Hth ->]]; [now left | right; lia].
Qed.

Lemma preserves_fresh : preserves fresh.
Proof.
  intros s H. cbn. apply keeps_frame; cbn; try done; try lia; [now apply timers_same | |]; intros x Hx.
  - specialize (wf_fresh_data _ _ H x Hx). lia.
  - specialize (wf_fresh_array _ _ H x Hx). lia.
Qed.

Lemma preserves_throw_error {A} m : preserves (@throw_error A m).
Proof. apply preserves_bind; [apply preserves_fresh | intros n; apply preserves_throw]. Qed.

Lemma preserves_check_function v : preserves (check_function v).
Proof. unfold check_function. destruct (JS_IsFunction v); [apply preserves_ret | apply preserves_throw_error]. Qed.

Lemma preserves_set_data d i v : preserves (set_data d i v).
Proof.
  apply preserves_modify. frame. intros x Hx. apply (wf_fresh_data _ _ H).
  destruct (decide (d = x)) as [->|]; [rewrite lookup_alter_eq in Hx; now destruct (func_data s !! x) | now rewrite lookup_alter_ne in Hx].
Qed.

Lemma preserves_array_set a i v : preserves (array_set a i v).
Proof.
  apply preserves_modify. frame. intros x Hx. apply (wf_fresh_array _ _ H).
  destruct (decide (a = x)) as [->|]; [rewrite lookup_alter_eq in Hx; now destruct (arrays s !! x) | now rewrite lookup_alter_ne in Hx].
Qed.

Lemma preserves_new_func_data l : preserves (new_func_data l).
Proof.
  intros s H. cbn. apply keeps_frame; cbn; try done; try lia; [now apply timers_same | |]; intros x Hx.
  - destruct (decide (fresh_id s = x)) as [->|]; [lia|]. rewrite lookup_insert_ne in Hx by done.
    specialize (wf_fresh_data _ _ H x Hx). lia.
  - specialize (wf_fresh_array _ _ H x Hx). lia.
Qed.

Lemma preserves_new_array m : preserves (new_array m).
Proof.
  intros s H. cbn. apply keeps_frame; cbn; try done; try lia; [now apply timers_same | |]; intros x Hx.
  - specialize (wf_fresh_data _ _ H x Hx). lia.
  - destruct (decide (fresh_id s = x)) as [->|]; [lia|]. rewrite lookup_insert_ne in Hx by done.
    specialize (wf_fresh_array _ _ H x Hx). lia.
Qed.

Lemma preserves_data_of d : preserves (data_of d).
Proof. intros s H. now apply keeps_refl. Qed.

(** *** One promise changes *)

Lemma keeps_promise s s' p d d' l :
  well_formed s -> promises s !! p = Some d -> promise_ok d' -> promise_evolves l d d' ->
  promises s' = <[p := d']> (promises s) -> job_list s' = job_list s ++ l ->
  (rejection_tracker env = true -> forall q v,
     (q, v) ∈ rejected_promise_list s' <-> if decide (q = p) then unhandled d' v else (q, v) ∈ rejected_promise_list s) ->
  NoDup (rejected_promise_list s').*1 ->
  already_resolved s' = already_resolved s -> func_data s' = func_data s -> arrays s' = arrays s ->
  os_timers s' = os_timers s -> next_timer_id s' = next_timer_id s -> os_pending_signals s' = os_pending_signals s -> ticks s' = ticks s -> fresh_id s' = fresh_id s ->
  keeps s s'.
Proof.
  intros H Hp Hok Hev Ep Ej Hr Hnd Er Ed Ea Et En Es Etk Ef. pose proof H as [H1 H2 H3 H4 H5 H6 H7]. split.
  - split; rewrite ?Ep, ?Er, ?Ed, ?Ea, ?Ef; try done.
    + intros q x Hq. destruct (decide (q = p)) as [->|]; [rewrite lookup_insert_eq in Hq; now injection Hq as <-|].
      rewrite lookup_insert_ne in Hq by done. eauto.
    + intros Ht q v. rewrite (Hr Ht). destruct (decide (q = p)) as [->|].
      * rewrite lookup_insert_eq. split; [eauto | intros (x & [= <-] & ?); done].
      * rewrite lookup_insert_ne by done. now apply H2.
    + intros q Hq. destruct (decide (q = p)) as [->|]; [apply H4; eauto|]. rewrite lookup_insert_ne in Hq by done. eauto.
  - split; rewrite ?Er, ?Es, ?Ef; try done; [| | |now rewrite Etk].
    + exists l. split; [done|]. intros q x Hq. rewrite Ep. destruct (decide (q = p)) as [->|].
      * rewrite lookup_insert_eq. rewrite Hp in Hq. injection Hq as <-. eauto.
      * rewrite lookup_insert_ne by done. eauto using promise_evolves_refl.
    + eauto.
    + apply timers_same; [done..|]. now rewrite Etk.
Qed.

(** The list of rejections. *)
Lemma find_rejected_None p l : find_rejected_promise p l = None <-> p ∉ l.*1.
Proof.
  induction l as [|[q v] l IH]; cbn; [split; [intros _ H; now apply elem_of_nil in H | done]|].
  destruct (Nat.eqb_spec q p) as [->|Hne].
  - split; [discriminate|]. intros H. exfalso. apply H, list_elem_of_here.
  - rewrite IH, not_elem_of_cons. split; [intros Hn; split; congruence | tauto].
Qed.

Lemma remove_rejected_spec p l :
  NoDup l.*1 -> NoDup (remove_rejected_promise p l).*1 /\ forall q v, (q, v) ∈ remove_rejected_promise p l <-> (q, v) ∈ l /\ q <> p.
Proof.
  induction l as [|[q v] l IH]; cbn; intros Hnd.
  - split; [done|]. intros q v. split; [intros H | intros [H _]]; now apply elem_of_nil in H.
  - apply NoDup_cons in Hnd as [Hq Hnd]. destruct (IH Hnd) as [IH1 IH2].
    assert (forall v', (q, v') ∈ l -> False) as Hno by (intros v' Hin; apply Hq, list_elem_of_fmap; now exists (q, v')).
    destruct (Nat.eqb_spec q p) as [->|Hne].
    + split; [done|]. intros q' v'. rewrite elem_of_cons. split.
      * intros Hin. split; [now right|]. intros ->. eauto.
      * intros [[[= -> ->]|Hin] Hne]; done.
    + split.
      * cbn. apply NoDup_cons. split; [|done]. intros Hin. apply list_elem_of_fmap in Hin as ([q' v'] & -> & Hin).
        cbn in Hno. apply IH2 in Hin as [Hin _]. eauto.
      * intros q' v'. rewrite !elem_of_cons, IH2. split; [|tauto].
        intros [[= -> ->]|[Hin Hne']]; [split; [now left | done] | split; [now right | done]].
Qed.

(** *** Settling *)

Lemma bind_Normal {A B} (m : M A) (k : A -> M B) s a s' : m s = Some (Normal a, s') -> bind m k s = k a s'.
Proof. intros E. unfold bind. now rewrite E. Qed.

Lemma enqueue_reactions_eq r v l s :
  enqueue_reactions r v l s = Some (Normal tt, with_jobs s (job_list s ++ jobs_of r v l)).
Proof.
  revert s. induction l as [|rd l IH]; intros s; cbn [enqueue_reactions jobs_of map].
  - rewrite app_nil_r. now destruct s.
  - unfold bind, JS_EnqueueJob, modify. rewrite IH. cbn. now rewrite <- app_assoc.
Qed.

Definition settled_as (r : bool) : JSPromiseStateEnum := if r then JS_PROMISE_REJECTED else JS_PROMISE_FULFILLED.

(** The state after [fulfill_or_reject_promise] on a pending promise. *)
Definition settle (s : runtime) (p : nat) (d : JSPromiseData) (v : value) (r : bool) : runtime :=
  let s := if r && negb (is_handled d) && rejection_tracker env
           then with_rejected s (js_std_promise_rejection_tracker p v false (rejected_promise_list s)) else s in
  with_promises (with_jobs s (job_list s ++ jobs_of r v (reactions r d)))
    (<[p := mk_promise (settled_as r) [] [] (is_handled d) v]> (promises s)).

Lemma fulfill_or_reject_eq p v r s d :
  promises s !! p = Some d ->
  fulfill_or_reject_promise env p v r s = Some (Normal tt, if bool_decide (pending d) then settle s p d v r else s).
Proof.
  intros Hp. unfold fulfill_or_reject_promise, bind at 1, get. cbv beta iota. rewrite Hp.
  destruct (decide (pending d)) as [Hd|Hd].
  - rewrite !bool_decide_true by done. cbn [negb]. unfold settle, set_promise, track, settled_as.
    generalize (reactions r d). intros l. destruct (r && negb (is_handled d)); cbn [andb].
    + destruct (rejection_tracker env); cbn; (erewrite bind_Normal by apply enqueue_reactions_eq);
        unfold modify, with_promises, with_jobs, with_rejected; cbn; now rewrite insert_insert_eq.
    + cbn. erewrite bind_Normal by apply enqueue_reactions_eq.
      unfold modify, with_promises, with_jobs. cbn. now rewrite insert_insert_eq.
  - rewrite !bool_decide_false by done. done.
Qed.

Lemma settle_keeps s p d v r : well_formed s -> promises s !! p = Some d -> pending d -> keeps s (settle s p d v r).
Proof.
  intros H Hp Hd. pose proof (wf_promises _ _ H p d Hp) as [Hok _].
  set (d' := mk_promise (settled_as r) [] [] (is_handled d) v).
  assert (~ pending d') as Hd' by (unfold pending, d'; cbn; now destruct r).
  assert (forall w, (p, w) ∈ rejected_promise_list s -> rejection_tracker env = true -> False) as Hnot.
  { intros w Hin Ht. apply (wf_tracked _ _ H Ht) in Hin as (x & Hx & Hu & _). rewrite Hp in Hx. injection Hx as <-.
    unfold pending in Hd. congruence. }
  assert (promise_evolves (jobs_of r v (reactions r d)) d d') as Hev.
  { split_and!; [done | | |].
    - intros Hx. done.
    - intros _ Hx. done.
    - intros _ _. exists r, [], [], []. cbn. now rewrite !app_nil_r. }
  unfold settle. destruct (r && negb (is_handled d) && rejection_tracker env) eqn:E.
  - apply andb_true_iff in E as [E Ht]. apply andb_true_iff in E as [-> Eh]. apply negb_true_iff in Eh.
    assert (find_rejected_promise p (rejected_promise_list s) = None) as Hfind.
    { apply find_rejected_None. intros Hin. apply list_elem_of_fmap in Hin as ([q w] & -> & Hin). eauto. }
    apply (keeps_promise s _ p d d' (jobs_of true v (reactions true d))); try done; cbn; rewrite Hfind.
    + intros _ q w. rewrite elem_of_app, list_elem_of_singleton. destruct (decide (q = p)) as [->|Hne].
      * split; [intros [Hin|[= ->]]; [exfalso; eauto | done] | intros (_ & _ & <-); now right].
      * split; [intros [Hin|[= -> _]]; done | now left].
    + rewrite fmap_app. apply NoDup_app. split_and!; [apply (wf_nodup _ _ H) | | apply NoDup_singleton].
      intros q Hq Hq'. apply list_elem_of_singleton in Hq' as ->. now apply find_rejected_None in Hfind.
  - apply (keeps_promise s _ p d d' (jobs_of r v (reactions r d))); try done; cbn; [|apply (wf_nodup _ _ H)].
    intros Ht q w. destruct (decide (q = p)) as [->|]; [|done]. split; [intros Hin; exfalso; eauto|].
    rewrite Ht, andb_true_r in E. intros (Hs & Hh & _). cbn in Hs, Hh. rewrite Hh, andb_true_r in E. now rewrite E in Hs.
Qed.

Lemma preserves_fulfill_or_reject p v r : preserves (fulfill_or_reject_promise env p v r).
Proof.
  intros s H. destruct (promises s !! p) as [d|] eqn:Hp.
  - rewrite (fulfill_or_reject_eq p v r s d Hp). case_bool_decide; [now apply settle_keeps | now apply keeps_refl].
  - unfold fulfill_or_reject_promise, bind, get. cbv beta iota. rewrite Hp. now apply keeps_refl.
Qed.

(** *** Reactions *)

(** The state after [perform_promise_then]. *)
Definition registered (s : runtime) (p : nat) (d : JSPromiseData) (rd0 rd1 : JSPromiseReactionData) : runtime :=
  let s := if bool_decide (promise_state d = JS_PROMISE_REJECTED) && negb (is_handled d) && rejection_tracker env
           then with_rejected s (js_std_promise_rejection_tracker p (promise_result d) true (rejected_promise_list s)) else s in
  match promise_state d with
  | JS_PROMISE_PENDING =>
      with_promises s (<[p := mk_promise (promise_state d) (fulfill_reactions d ++ [rd0]) (reject_reactions d ++ [rd1]) true (promise_result d)]>
                         (promises s))
  | state =>
      let r := bool_decide (state = JS_PROMISE_REJECTED) in
      with_promises (with_jobs s (job_list s ++ [promise_reaction (if r then rd1 else rd0) r (promise_result d)]))
        (<[p := mk_promise (promise_state d) (fulfill_reactions d) (reject_reactions d) true (promise_result d)]> (promises s))
  end.

Lemma perform_promise_then_eq p h0 h1 c0 c1 s d :
  promises s !! p = Some d ->
  perform_promise_then env p h0 h1 c0 c1 s =
    Some (Normal tt, registered s p d (reaction_data h0 c0 c1) (reaction_data h1 c0 c1)).
Proof.
  intros Hp. unfold perform_promise_then, bind at 1, get. cbv beta iota. rewrite Hp. unfold registered.
  destruct (promise_state d) eqn:Es; cbn [bool_decide]; try reflexivity.
  unfold track. rewrite bool_decide_true by done. destruct (negb (is_handled d)); cbn [andb]; [|reflexivity].
  now destruct (rejection_tracker env).
Qed.

Lemma registered_keeps s p d rd0 rd1 : well_formed s -> promises s !! p = Some d -> keeps s (registered s p d rd0 rd1).
Proof.
  intros H Hp. pose proof (wf_promises _ _ H p d Hp) as [Hok Hok']. unfold registered.
  destruct (promise_state d) eqn:Es.
  - rewrite bool_decide_false by done. cbn [andb].
    apply (keeps_promise s _ p d (mk_promise JS_PROMISE_PENDING (fulfill_reactions d ++ [rd0]) (reject_reactions d ++ [rd1]) true (promise_result d)) []);
      try done; cbn.
    + split; [intros _; now apply Hok | intros Hd; now destruct Hd].
    + unfold promise_evolves, pending. cbn. rewrite Es. split_and!; try done. intros _ _. now exists [rd0], [rd1].
    + now rewrite app_nil_r.
    + intros Ht q w. destruct (decide (q = p)) as [->|]; [|done]. split; [|now intros (? & ? & ?)].
      intros Hin. apply (wf_tracked _ _ H Ht) in Hin as (x & Hx & Hu & _). rewrite Hp in Hx. injection Hx as <-. congruence.
    + apply (wf_nodup _ _ H).
  - rewrite !bool_decide_false by done. cbn [andb].
    apply (keeps_promise s _ p d (mk_promise JS_PROMISE_FULFILLED (fulfill_reactions d) (reject_reactions d) true (promise_result d))
             [promise_reaction rd0 false (promise_result d)]); try done; cbn.
    + split; [done|]. intros _. apply Hok'. unfold pending. now rewrite Es.
    + unfold promise_evolves, pending. cbn. rewrite Es. split_and!; done.
    + intros Ht q w. destruct (decide (q = p)) as [->|]; [|done]. split; [|now intros (? & ? & ?)].
      intros Hin. apply (wf_tracked _ _ H Ht) in Hin as (x & Hx & Hu & _). rewrite Hp in Hx. injection Hx as <-. congruence.
    + apply (wf_nodup _ _ H).
  - rewrite !bool_decide_true by done. cbn [andb].
    set (d' := mk_promise JS_PROMISE_REJECTED (fulfill_reactions d) (reject_reactions d) true (promise_result d)).
    destruct (remove_rejected_spec p (rejected_promise_list s) (wf_nodup _ _ H)) as [Hnd Hrem].
    assert (promise_ok d') as Hokd by (split; [done | intros _; apply Hok'; unfold pending; now rewrite Es]).
    assert (promise_evolves [promise_reaction rd1 true (promise_result d)] d d') as Hev
      by (unfold promise_evolves, pending; cbn; rewrite Es; split_and!; done).
    assert (forall w, unhandled d' w <-> False) as Hno by (intros w; split; [intros (? & ? & ?); discriminate | done]).
    destruct (negb (is_handled d) && rejection_tracker env) eqn:E.
    + apply (keeps_promise s _ p d d' [promise_reaction rd1 true (promise_result d)]); try done; cbn.
      intros _ q w. rewrite Hrem. destruct (decide (q = p)) as [->|]; [rewrite Hno|]; tauto.
    + apply (keeps_promise s _ p d d' [promise_reaction rd1 true (promise_result d)]); try done; cbn; [|apply (wf_nodup _ _ H)].
      intros Ht q w. destruct (decide (q = p)) as [->|]; [|done]. rewrite Hno. split; [|done].
      intros Hin. apply (wf_tracked _ _ H Ht) in Hin as (x & Hx & _ & Hh & _). rewrite Hp in Hx. injection Hx as <-.
      rewrite Hh, Ht in E. discriminate.
Qed.

Lemma preserves_perform_promise_then p h0 h1 c0 c1 : preserves (perform_promise_then env p h0 h1 c0 c1).
Proof.
  intros s H. destruct (promises s !! p) as [d|] eqn:Hp.
  - rewrite (perform_promise_then_eq p h0 h1 c0 c1 s d Hp). now apply registered_keeps.
  - unfold perform_promise_then, bind, get. cbv beta iota. rewrite Hp. now apply keeps_refl.
Qed.

(** *** Allocation and the flag of the resolving functions *)

Lemma preserves_new_promise :
  preserves (let! p := fresh in set_promise p (mk_promise JS_PROMISE_PENDING [] [] false VUndefined) ;;; ret p).
Proof.
  intros s H. cbn. pose proof H as [H1 H2 H3 H4 H5 H6 H7].
  assert (promises s !! fresh_id s = None) as Hn.
  { destruct (promises s !! fresh_id s) eqn:E; [|done]. specialize (H4 (fresh_id s)). rewrite E in H4. lia || (assert (fresh_id s < fresh_id s)%nat by eauto; lia). }
  split.
  - split; cbn; try done.
    + intros p d Hp. destruct (decide (p = fresh_id s)) as [->|]; [rewrite lookup_insert_eq in Hp; now injection Hp as <-|].
      rewrite lookup_insert_ne in Hp by done. eauto.
    + intros Ht p v. rewrite (H2 Ht). split; intros (d & Hd & Hu).
      * exists d. split; [|done]. rewrite lookup_insert_ne; [done | intros <-; congruence].
      * destruct (decide (p = fresh_id s)) as [->|]; [rewrite lookup_insert_eq in Hd; injection Hd as <-; destruct Hu as (Hu & _); discriminate|].
        rewrite lookup_insert_ne in Hd by done. eauto.
    + intros p Hp. destruct (decide (p = fresh_id s)) as [->|]; [lia|]. rewrite lookup_insert_ne in Hp by done. specialize (H4 p Hp). lia.
    + intros x Hx. specialize (H5 x Hx). lia.
    + intros x Hx. specialize (H6 x Hx). lia.
    + intros x Hx. specialize (H7 x Hx). lia.
  - split; cbn; try done; try lia; [| eauto | now apply timers_same].
    exists []. rewrite app_nil_r. split; [done|]. intros p d Hp. exists d. split; [|apply promise_evolves_refl].
    rewrite lookup_insert_ne; [done | intros <-; congruence].
Qed.

(** Only [already_resolved] changes. *)
Lemma keeps_resolved s sr b n :
  well_formed s -> (fresh_id s <= n)%nat -> (sr < n)%nat -> (already_resolved s !! sr = Some true -> b = true) ->
  keeps s (with_fresh (with_resolved s (<[sr := b]> (already_resolved s))) n).
Proof.
  intros [H1 H2 H3 H4 H5 H6 H7] Hn Hsr Hb. split.
  - split; cbn; try done; intros x Hx.
    + specialize (H4 x Hx). lia.
    + destruct (decide (x = sr)) as [->|]; [done|]. rewrite lookup_insert_ne in Hx by done. specialize (H5 x Hx). lia.
    + specialize (H6 x Hx). lia.
    + specialize (H7 x Hx). lia.
  - split; cbn; try done; [| | now apply timers_same].
    + exists []. rewrite app_nil_r. eauto using promise_evolves_refl.
    + intros x c Hx. destruct (decide (x = sr)) as [->|]; [|rewrite lookup_insert_ne by done; eauto].
      rewrite lookup_insert_eq. exists b. split; [done|]. intros ->. auto.
Qed.

Lemma preserves_create_resolving_functions p : preserves (js_create_resolving_functions p).
Proof.
  intros s H. apply (keeps_resolved s (fresh_id s) false (S (fresh_id s)) H); [lia..|].
  intros E. specialize (wf_fresh_resolved _ _ H (fresh_id s)) as Hx. rewrite E in Hx. assert (fresh_id s < fresh_id s)%nat by eauto. lia.
Qed.
End Rules.

#[export] Hint Resolve preserves_ret preserves_throw preserves_fuel preserves_get preserves_vars preserves_rw preserves_sh
  preserves_tick preserves_fresh preserves_throw_error preserves_check_function
  preserves_set_data preserves_array_set preserves_new_func_data preserves_new_array preserves_data_of
  preserves_fulfill_or_reject preserves_perform_promise_then preserves_create_resolving_functions : runtime.

(** Through the constructs of the monad and the tests of the code, down to the
    lemmas of the database. *)
Ltac preserve :=
  repeat first
    [ solve [auto with runtime]
    | apply preserves_bind; [|intros ?]
    | apply preserves_catch; [|intros ?]
    | apply preserves_reify
    | match goal with |- preserves _ (match ?x with _ => _ end) => destruct x end ].

(** ** The builtins *)

Section Builtins.
Context (env : environment) (fuel : nat).
Context (JS_Call : value -> value -> list value -> M value) (JS_CallConstructor : value -> list value -> M value).
Context (preserves_call : forall f this argv, preserves env (JS_Call f this argv)).
Context (preserves_construct : forall f argv, preserves env (JS_CallConstructor f argv)).

#[local] Hint Resolve preserves_call preserves_construct : runtime.

Lemma preserves_run {A} (p : program A) : preserves env (run JS_Call JS_CallConstructor p).
Proof. unfold run. induction p; cbn [run_program]; preserve. Qed.

Lemma preserves_invoke this atom argv : preserves env (JS_Invoke env JS_Call JS_CallConstructor this atom argv).
Proof. unfold JS_Invoke. pose proof @preserves_run. preserve. Qed.

#[local] Hint Resolve preserves_run preserves_invoke : runtime.

Lemma preserves_enqueue job : preserves env (JS_EnqueueJob job).
Proof.
  apply preserves_modify. intros s [H1 H2 H3 H4 H5 H6 H7]. split; [now split|]. split; cbn; try done; [|eauto|now apply timers_same].
  exists [job]. eauto using promise_evolves_refl.
Qed.

#[local] Hint Resolve preserves_enqueue : runtime.

Lemma preserves_resolve_function r p sr argv :
  preserves env (js_promise_resolve_function_call env JS_Call JS_CallConstructor r p sr argv).
Proof.
  intros s H. unfold js_promise_resolve_function_call, bind at 1, get. cbv beta iota.
  destruct (already_resolved s !! sr) as [[|]|] eqn:E; [now apply keeps_refl | | now apply keeps_refl].
  unfold bind at 1, modify. cbv beta iota.
  set (s1 := with_resolved s _).
  assert (keeps env s s1) as H1.
  { assert (s1 = with_fresh s1 (fresh_id s)) as -> by reflexivity. apply keeps_resolved; [done | lia | | congruence].
    apply (wf_fresh_resolved _ _ H). eauto. }
  lazymatch goal with |- match ?m s1 with _ => _ end => assert (preserves env m) as Hm end.
  { unfold reject_promise. preserve. }
  specialize (Hm s1 (proj1 H1)). destruct (bind _ _ s1) as [[o s']|]; [|done]. eauto using keeps_trans.
Qed.

Lemma preserves_promise_constructor argv : preserves env (js_promise_constructor JS_Call argv).
Proof.
  assert (forall {B} (k : nat -> M B), (forall p, preserves env (k p)) ->
    preserves env (let! p := fresh in set_promise p (mk_promise JS_PROMISE_PENDING [] [] false VUndefined) ;;; k p)) as Hnew.
  { intros B k Hk. intros s H. apply (preserves_bind env _ k (preserves_new_promise env) Hk s H). }
  unfold js_promise_constructor. apply preserves_bind; [preserve|]. intros _. apply Hnew. intros p. preserve.
Qed.

#[local] Hint Resolve preserves_promise_constructor : runtime.

Lemma preserves_capability ctor : preserves env (js_new_promise_capability JS_Call JS_CallConstructor ctor).
Proof. unfold js_new_promise_capability. preserve. Qed.

#[local] Hint Resolve preserves_capability : runtime.

Lemma preserves_executor d argv : preserves env (js_promise_executor d argv).
Proof. unfold js_promise_executor, executor_slot. preserve. Qed.

Lemma preserves_promise_resolve r this argv : preserves env (js_promise_resolve env JS_Call JS_CallConstructor r this argv).
Proof. unfold js_promise_resolve. cbv zeta. preserve. Qed.

#[local] Hint Resolve preserves_promise_resolve : runtime.

Lemma preserves_try this argv : preserves env (js_promise_try JS_Call JS_CallConstructor this argv).
Proof. unfold js_promise_try. preserve. Qed.

Lemma preserves_withResolvers this : preserves env (js_promise_withResolvers JS_Call JS_CallConstructor this).
Proof. unfold js_promise_withResolvers. preserve. Qed.

Lemma preserves_count e n : preserves env (remainingElementsCount_add e n).
Proof. unfold remainingElementsCount_add. cbv zeta. preserve. Qed.

Lemma preserves_settle_values magic func values : preserves env (settle_values JS_Call magic func values).
Proof. unfold settle_values, js_aggregate_error_constructor. preserve. Qed.

#[local] Hint Resolve preserves_count preserves_settle_values : runtime.

Lemma preserves_element magic r d argv : preserves env (js_promise_all_resolve_element JS_Call magic r d argv).
Proof. unfold js_promise_all_resolve_element. cbv zeta. preserve. Qed.

Lemma preserves_element_functions magic f0 f1 values e index : preserves env (element_functions magic f0 f1 values e index).
Proof. unfold element_functions. cbv zeta. preserve. Qed.

#[local] Hint Resolve preserves_element_functions : runtime.

Lemma preserves_all_loop magic this pr f0 f1 iter next values e : forall n index,
  preserves env (all_loop env JS_Call JS_CallConstructor n magic this pr f0 f1 iter next values e index).
Proof.
  induction n as [|n IH]; intros index; cbn [all_loop]; preserve.
Qed.

Lemma preserves_race_loop this pr f0 f1 iter next : forall n,
  preserves env (race_loop env JS_Call JS_CallConstructor n this pr f0 f1 iter next).
Proof.
  induction n as [|n IH]; cbn [race_loop]; preserve.
Qed.

#[local] Hint Resolve preserves_all_loop preserves_race_loop : runtime.

Lemma preserves_all magic this argv : preserves env (js_promise_all env fuel JS_Call JS_CallConstructor magic this argv).
Proof. unfold js_promise_all. preserve. Qed.

Lemma preserves_race this argv : preserves env (js_promise_race env fuel JS_Call JS_CallConstructor this argv).
Proof. unfold js_promise_race. preserve. Qed.

Lemma preserves_then this argv : preserves env (js_promise_then env JS_Call JS_CallConstructor this argv).
Proof. unfold js_promise_then. preserve. Qed.

Lemma preserves_then_finally r ctor f argv :
  preserves env (js_promise_then_finally_func env JS_Call JS_CallConstructor r ctor f argv).
Proof. unfold js_promise_then_finally_func. preserve. Qed.

Lemma preserves_finally this argv : preserves env (js_promise_finally env JS_Call JS_CallConstructor this argv).
Proof. unfold js_promise_finally. cbv zeta. preserve. Qed.

Lemma preserves_to_number w v : preserves env (to_number env JS_Call JS_CallConstructor w v).
Proof. unfold to_number. preserve. Qed.

#[local] Hint Resolve preserves_to_number : runtime.

Lemma preserves_get_time : preserves env (get_time_ms env).
Proof. unfold get_time_ms. preserve. Qed.

#[local] Hint Resolve preserves_get_time : runtime.

(** One reading of the clock, and a timer at the end of the list. *)
Lemma keeps_new_timer s s' n th :
  well_formed env s -> s' = with_os s (os_timers s ++ [th]) (os_rw_handlers s) (os_signal_handlers s) (os_pending_signals s)
    (if n =? 0 then next_timer_id s else if next_timer_id s =? INT32_MAX then 1 else next_timer_id s + 1) (S (ticks s)) ->
  (timer_id th = -1 /\ n = 0 \/ timer_id th = next_timer_id s /\ n = 1) -> keeps env s s'.
Proof.
  intros H -> Hth. apply keeps_frame; cbn; try done; try lia; try apply H.
  apply (timers_added _ _ n th); cbn; [done| |lia|done]. destruct Hth as [[_ ->]|[_ ->]]; cbn; [lia|].
  destruct (Z.eqb_spec (next_timer_id s) INT32_MAX); lia.
Qed.

Lemma preserves_setTimeout argv : preserves env (js_os_setTimeout env JS_Call JS_CallConstructor argv).
Proof.
  unfold js_os_setTimeout. cbv zeta. destruct (negb _); [preserve|]. apply preserves_bind; [preserve|].
  intros delay s H. apply (keeps_new_timer s _ 1 (mk_timer (next_timer_id s) (i64 (clock env (ticks s) + delay)) (arg 0 argv)) H); auto.
Qed.

Lemma preserves_sleepAsync argv : preserves env (js_os_sleepAsync env JS_Call JS_CallConstructor argv).
Proof.
  unfold js_os_sleepAsync. apply preserves_bind; [preserve|]. intros delay. apply preserves_bind; [preserve|].
  intros [[promise resolve] r] s H.
  apply (keeps_new_timer s _ 0 (mk_timer (-1) (i64 (clock env (ticks s) + delay)) resolve) H); auto.
Qed.

Lemma find_timer_sublist id l th rest : find_timer_by_id id l = Some (th, rest) -> rest `sublist_of` l.
Proof.
  revert rest. induction l as [|x l IH]; intros rest; cbn; [discriminate|]. destruct (_ =? id).
  - intros [= <- <-]. apply sublist_cons. reflexivity.
  - destruct (find_timer_by_id id l) as [[t r]|]; [|discriminate]. intros [= <- <-]. apply sublist_skip. now apply IH.
Qed.

Lemma find_timer_filter id l th rest :
  0 < id -> find_timer_by_id id l = Some (th, rest) ->
  filter (fun th => timer_id th <= 0) rest = filter (fun th => timer_id th <= 0) l.
Proof.
  intros Hid. revert rest. induction l as [|x l IH]; intros rest; cbn [find_timer_by_id]; [discriminate|].
  destruct (Z.eqb_spec (timer_id x) id) as [Ex|Ex].
  - intros [= <- <-]. rewrite filter_cons, decide_False by lia. done.
  - destruct (find_timer_by_id id l) as [[t r]|]; [|discriminate]. intros [= <- <-]. rewrite !filter_cons, (IH r eq_refl). done.
Qed.

Lemma preserves_clearTimeout argv : preserves env (js_os_clearTimeout env JS_Call JS_CallConstructor argv).
Proof.
  unfold js_os_clearTimeout. apply preserves_bind; [preserve|]. intros id s H. unfold bind at 1, get. cbv beta iota.
  destruct (if id <=? 0 then None else find_timer_by_id id (os_timers s)) as [[th rest]|] eqn:E; [|now apply keeps_refl].
  destruct (Z.leb_spec id 0) as [|Hid]; [discriminate|]. pose proof (find_timer_filter _ _ _ _ Hid E) as Ef. apply find_timer_sublist in E.
  apply keeps_frame; cbn; try done; try apply H. exists rest, []. split_and!; cbn; [now rewrite app_nil_r | done | |].
  - exact Ef.
  - intros _. split; [lia|]. intros x Hx. now apply elem_of_nil in Hx.
Qed.

Lemma preserves_handler w argv : preserves env (js_os_setReadHandler env JS_Call JS_CallConstructor w argv).
Proof. unfold js_os_setReadHandler. cbv zeta. preserve. Qed.

Lemma preserves_signal argv : preserves env (js_os_signal env JS_Call JS_CallConstructor argv).
Proof. unfold js_os_signal. cbv zeta. preserve. Qed.

Lemma preserves_builtin r : preserves env (builtin env fuel JS_Call JS_CallConstructor r).
Proof.
  destruct r as [f this argv|f argv]; cbn [builtin]; [|destruct f; auto with runtime].
  destruct f; unfold js_promise_catch; auto using preserves_resolve_function, preserves_executor, preserves_element,
    preserves_then_finally, preserves_then, preserves_finally, preserves_all, preserves_race, preserves_try,
    preserves_withResolvers, preserves_setTimeout, preserves_clearTimeout, preserves_sleepAsync, preserves_handler,
    preserves_signal with runtime.
Qed.
End Builtins.

Lemma preserves_perform env n : forall r, preserves env (perform env n r).
Proof.
  induction n as [|n IH]; intros r; cbn [perform]; [apply preserves_fuel|]. apply preserves_builtin; intros; apply IH.
Qed.

Lemma preserves_js_call env n f this argv : preserves env (call env n f this argv).
Proof. apply preserves_perform. Qed.

Lemma preserves_js_new env n f argv : preserves env (new env n f argv).
Proof. apply preserves_perform. Qed.
