(* ===== verification/AsyncSpec.v ===== *)
(** * What the asynchronous runtime guarantees

    The runtime as a state machine, whose steps are calls, jobs and polls; the
    theorems on promises, jobs, rejections and timers hold in every reachable
    state, for every program. *)

From Stdlib Require Import ZArith Lia Bool.
From stdpp Require Import base numbers list option gmap relations.
From S2P Require Import Prelude Async Promise EventLoop AsyncInv.

#[local] Open Scope Z_scope.
#[local] Open Scope runtime_scope.

(** ** Definitions *)

Inductive step (env : environment) : runtime -> runtime -> Prop :=
| step_call n f this argv o s s' : call env n f this argv s = Some (o, s') -> step env s s'
| step_job n o s s' : JS_ExecutePendingJob (call env n) s = Some (o, s') -> step env s s'
| step_poll n o s s' : js_os_poll env (call env n) s = Some (o, s') -> step env s s'.

Definition reachable (env : environment) (s : runtime) : Prop := rtc (step env) empty_runtime s.

(** [k] jobs, one after the other. *)
Inductive jobs_run (env : environment) : nat -> runtime -> runtime -> Prop :=
| jobs_none s : jobs_run env 0 s s
| jobs_one n o k s s1 s' : JS_ExecutePendingJob (call env n) s = Some (o, s1) -> jobs_run env k s1 s' -> jobs_run env (S k) s s'.

(** Settled promises and used resolving functions stay so. *)
Record monotone (s s' : runtime) : Prop := mk_monotone {
  mono_promise : forall p d, promises s !! p = Some d -> exists d', promises s' !! p = Some d' /\
    (is_handled d = true -> is_handled d' = true) /\
    (~ pending d -> promise_state d' = promise_state d /\ promise_result d' = promise_result d);
  mono_resolved : forall sr b, already_resolved s !! sr = Some b -> exists b', already_resolved s' !! sr = Some b' /\ (b = true -> b' = true);
}.

#[export] Instance monotone_preorder : PreOrder monotone.
Proof.
  split.
  - intros s. split; eauto.
  - intros s s' s'' [H1 H2] [K1 K2]. split.
    + intros p d Hp. destruct (H1 p d Hp) as (d' & Hp' & Hh & Hs). destruct (K1 p d' Hp') as (d'' & Hp'' & Kh & Ks).
      exists d''. split_and!; [done | auto |]. intros Hd. destruct (Hs Hd) as [E E'].
      destruct Ks as [F F']; [unfold pending in *; congruence|]. split; congruence.
    + intros sr b Hr. destruct (H2 sr b Hr) as (b' & Hr' & Hb). destruct (K2 sr b' Hr') as (b'' & Hr'' & Kb). eauto.
Qed.

Section Machine.
Context (env : environment).

(** ** Steps *)

Lemma evolves_monotone s s' : evolves s s' -> monotone s s'.
Proof.
  intros [(l & _ & Hp) Hr _ _ _ _]. split; [|done]. intros p d H. destruct (Hp p d H) as (d' & H' & Hh & Hs & _). eauto.
Qed.

(** What a step may do besides evolving: drop a job, a timer or a signal. *)
Definition holds (s s' : runtime) : Prop := well_formed env s' /\ monotone s s'.

Lemma holds_keeps s s1 s' : holds s s1 -> keeps env s1 s' -> holds s s'.
Proof. intros [H1 H2] [H3 H4]. split; [done|]. transitivity s1; auto using evolves_monotone. Qed.

Lemma holds_frame s s' :
  well_formed env s -> promises s' = promises s -> already_resolved s' = already_resolved s ->
  func_data s' = func_data s -> arrays s' = arrays s -> rejected_promise_list s' = rejected_promise_list s ->
  fresh_id s' = fresh_id s -> holds s s'.
Proof.
  intros [H1 H2 H3 H4 H5 H6 H7] E1 E2 E3 E4 E5 E6. split; [split; rewrite ?E1, ?E2, ?E3, ?E4, ?E5, ?E6; done|].
  split; rewrite ?E1, ?E2; eauto.
Qed.

Lemma job_holds n s o s' : well_formed env s -> JS_ExecutePendingJob (call env n) s = Some (o, s') -> holds s s'.
Proof.
  intros H. unfold JS_ExecutePendingJob, bind at 1, get. cbv beta iota.
  destruct (job_list s) as [|e rest]; [intros [= <- <-]; split; [done | reflexivity]|].
  unfold bind at 1, modify. cbv beta iota. intros E. set (s1 := with_jobs s rest) in *.
  assert (holds s s1) as H1 by now apply holds_frame.
  assert (preserves env (catch (run_job (call env n) e;;; ret 1) (fun _ => ret (-1)))) as Hp.
  { pose proof (preserves_js_call env n). destruct e; cbn [run_job]; unfold promise_reaction_job, js_promise_resolve_thenable_job;
      cbv zeta; preserve. }
  specialize (Hp s1 (proj1 H1)). rewrite E in Hp. eauto using holds_keeps.
Qed.

Lemma preserves_call_handler n f : preserves env (call_handler (call env n) f).
Proof. pose proof (preserves_js_call env n). unfold call_handler. preserve. Qed.

Lemma poll_descriptors_holds n s o s' : well_formed env s -> poll_descriptors env (call env n) s = Some (o, s') -> holds s s'.
Proof.
  intros H. assert (preserves env (poll_descriptors env (call env n))) as Hp.
  { pose proof (preserves_call_handler n). unfold poll_descriptors. preserve. }
  specialize (Hp s H). intros E. rewrite E in Hp. split; [apply Hp | apply evolves_monotone, Hp].
Qed.

(** A handler, after a change of [s] that keeps the heap. *)
Lemma handler_holds {A} n f (a : A) s s1 o s' :
  holds s s1 -> (call_handler (call env n) f ;;; ret a) s1 = Some (o, s') -> holds s s'.
Proof.
  intros H E. assert (preserves env (call_handler (call env n) f ;;; ret a)) as Hp by (pose proof (preserves_call_handler n); preserve).
  specialize (Hp s1 (proj1 H)). rewrite E in Hp. eauto using holds_keeps.
Qed.

Lemma holds_trans s s1 s' : holds s s1 -> holds s1 s' -> holds s s'.
Proof. intros [H1 H2] [H3 H4]. split; [done | now transitivity s1]. Qed.

Lemma poll_holds n s o s' : well_formed env s -> js_os_poll env (call env n) s = Some (o, s') -> holds s s'.
Proof.
  intros H. unfold js_os_poll. unfold bind at 1, modify. cbv beta iota. set (s1 := with_pending s _).
  assert (holds s s1) as H1 by now apply holds_frame. unfold bind at 1, get. cbv beta iota.
  destruct (if os_pending_signals s1 =? 0 then None else _) as [sh|].
  - unfold bind at 1, modify. cbv beta iota. intros E. eapply handler_holds; [|exact E].
    eapply holds_trans; [exact H1|]. apply holds_frame; [apply H1 | done..].
  - intros E. apply (holds_trans s s1 s' H1). clear H1.
    assert (well_formed env s1) as Hwf by now apply (holds_frame s s1).
    assert (poll_timers env (call env n) s1 = Some (o, s') -> holds s1 s') as Ht.
    { unfold poll_timers. unfold bind at 1, get. cbv beta iota.
      destruct (os_timers s1) as [|th l] eqn:El; [now apply poll_descriptors_holds|].
      unfold get_time_ms, bind at 1, bind at 1, get, modify. cbv beta iota. unfold bind at 1. cbv beta iota.
      unfold ret at 1. cbv beta iota. set (s2 := with_ticks s1 _).
      assert (holds s1 s2) as H2 by now apply holds_frame. rewrite <- El.
      destruct (expired _ _) as [[t rest]|].
      - unfold bind at 1. cbv beta iota. intros E'. eapply handler_holds; [|exact E'].
        eapply holds_trans; [exact H2|]. apply holds_frame; [apply H2 | done..].
      - intros E'. eapply holds_trans; [exact H2|]. apply (poll_descriptors_holds n s2 o s' (proj1 H2) E'). }
    destruct (os_rw_handlers s1), (os_timers s1) eqn:?; auto.
    injection E as <- <-. split; [done | reflexivity].
Qed.

Lemma step_holds s s' : well_formed env s -> step env s s' -> holds s s'.
Proof.
  intros H Hs. destruct Hs as [n f this argv o s s' E|n o s s' E|n o s s' E].
  - pose proof (preserves_js_call env n f this argv s H) as Hp. rewrite E in Hp. split; [apply Hp | apply evolves_monotone, Hp].
  - now apply (job_holds n s o).
  - now apply (poll_holds n s o).
Qed.

Lemma steps_hold s s' : well_formed env s -> rtc (step env) s s' -> holds s s'.
Proof.
  intros H Hs. induction Hs as [s|s s1 s' H1 _ IH]; [split; [done | reflexivity]|].
  pose proof (step_holds s s1 H H1) as Hh. eapply holds_trans; [exact Hh|]. apply IH, Hh.
Qed.

Lemma empty_well_formed : well_formed env empty_runtime.
Proof.
  split; cbn; try (intros ? [? ?]; discriminate); try (intros; discriminate).
  - intros _ p v. split; [intros H; now apply elem_of_nil in H | intros (? & ? & _); discriminate].
  - apply NoDup_nil_2.
Qed.

Lemma reachable_well_formed s : reachable env s -> well_formed env s.
Proof. intros H. apply (steps_hold _ _ empty_well_formed H). Qed.

(** ** Promises *)

Lemma settled_once s s' p d :
  reachable env s -> rtc (step env) s s' -> promises s !! p = Some d ->
  promise_ok d /\ exists d', promises s' !! p = Some d' /\ promise_ok d' /\ (is_handled d = true -> is_handled d' = true) /\
    (~ pending d -> promise_state d' = promise_state d /\ promise_result d' = promise_result d).
Proof.
  intros Hr Hs Hp. pose proof (reachable_well_formed s Hr) as Hwf. destruct (steps_hold s s' Hwf Hs) as [Hwf' Hm].
  destruct (mono_promise _ _ Hm p d Hp) as (d' & Hp' & Hh & Hd).
  split; [exact (wf_promises _ _ Hwf p d Hp)|]. exists d'. split_and!; [done | exact (wf_promises _ _ Hwf' p d' Hp') | done..].
Qed.

(** The flag shared by a pair of resolving functions. *)
Lemma resolve_call_sets n r p sr this argv s o s' b :
  well_formed env s -> already_resolved s !! sr = Some b ->
  call env (S n) (FResolving r p sr) this argv s = Some (o, s') -> already_resolved s' !! sr = Some true.
Proof.
  intros H Hb. unfold call. cbn [perform builtin]. unfold js_promise_resolve_function_call, bind at 1, get. cbv beta iota. rewrite Hb.
  destruct b; [intros E; injection E as <- <-; done|]. unfold bind at 1, modify. cbv beta iota.
  set (s1 := with_resolved s _). intros E.
  assert (keeps env s s1) as H1.
  { assert (s1 = with_fresh s1 (fresh_id s)) as -> by reflexivity. apply keeps_resolved; [done | lia | | congruence].
    apply (wf_fresh_resolved _ _ H). eauto. }
  pose proof (preserves_js_call env n) as Hc. pose proof (preserves_js_new env n) as Hn.
  lazymatch type of E with ?m s1 = _ => assert (preserves env m) as Hm end.
  { pose proof (fun A => @preserves_run env _ _ Hc Hn A) as Hrun. pose proof preserves_enqueue. unfold reject_promise. preserve. }
  specialize (Hm s1 (proj1 H1)). rewrite E in Hm. destruct Hm as [_ Hev].
  destruct (ev_resolved _ _ Hev sr true) as (b' & Hb' & Ht); [cbn; apply lookup_insert_eq|]. now rewrite Hb', Ht.
Qed.

Lemma resolve_call_noop n r p sr this argv s :
  already_resolved s !! sr = Some true -> call env (S n) (FResolving r p sr) this argv s = Some (Normal VUndefined, s).
Proof.
  intros Hb. unfold call. cbn [perform builtin]. unfold js_promise_resolve_function_call, bind at 1, get. cbv beta iota. now rewrite Hb.
Qed.

(** ** Jobs *)

Lemma execute_pops n s job rest :
  job_list s = job :: rest ->
  JS_ExecutePendingJob (call env n) s = catch (run_job (call env n) job ;;; ret 1) (fun _ => ret (-1)) (with_jobs s rest).
Proof. intros E. unfold JS_ExecutePendingJob, bind at 1, get. cbv beta iota. now rewrite E. Qed.

Lemma preserves_run_job n job : preserves env (run_job (call env n) job).
Proof.
  pose proof (preserves_js_call env n). destruct job; cbn [run_job]; unfold promise_reaction_job, js_promise_resolve_thenable_job;
    cbv zeta; preserve.
Qed.

Lemma execute_appends n s job rest o s' :
  well_formed env s -> job_list s = job :: rest -> JS_ExecutePendingJob (call env n) s = Some (o, s') ->
  exists l, job_list s' = rest ++ l.
Proof.
  intros H E. rewrite (execute_pops n s job rest E). set (s1 := with_jobs s rest). intros Ex.
  assert (well_formed env s1) as H1 by now apply (holds_frame s s1).
  assert (preserves env (catch (run_job (call env n) job ;;; ret 1) (fun _ => ret (-1)))) as Hp
    by (pose proof (preserves_run_job n); preserve).
  specialize (Hp s1 H1). rewrite Ex in Hp. destruct (ev_promises _ _ (proj2 Hp)) as (l & Hl & _). eauto.
Qed.

Lemma jobs_fifo l1 : forall job l2 s s',
  well_formed env s -> job_list s = l1 ++ job :: l2 -> jobs_run env (length l1) s s' -> exists l3, job_list s' = job :: l2 ++ l3.
Proof.
  induction l1 as [|j l1 IH]; intros job l2 s s' H E Hr; cbn [length app] in *; inversion Hr as [|n o k s0 s1 s0' Ex Hr']; subst.
  - exists []. now rewrite app_nil_r.
  - destruct (execute_appends n s j _ o s1 H E Ex) as [l El]. rewrite <- app_assoc in El. cbn [app] in El.
    destruct (job_holds n s o s1 H Ex) as [H1 _]. destruct (IH job (l2 ++ l) s1 s' H1 El Hr') as [l3 Hl3].
    exists (l ++ l3). now rewrite app_assoc.
Qed.

(** ** The loop *)

Lemma pending_jobs_steps n : forall m s o s', run_pending_jobs (call env n) m s = Some (o, s') -> rtc (step env) s s'.
Proof.
  induction m as [|m IH]; intros s o s'; cbn [run_pending_jobs]; [discriminate|]. unfold bind.
  destruct (JS_ExecutePendingJob (call env n) s) as [[[err|v] s1]|] eqn:E; [| |discriminate].
  - destruct (err <=? 0).
    + intros [= <- <-]. apply rtc_once. now apply (step_job env n (Normal err)).
    + intros H. eapply rtc_l; [apply (step_job env n (Normal err)), E | eauto].
  - intros [= <- <-]. apply rtc_once. now apply (step_job env n (Exception v)).
Qed.

(** A poll that returns -1 found nothing to wait for. *)
Lemma poll_result n s err s' :
  js_os_poll env (call env n) s = Some (Normal err, s') ->
  err = 0 \/ (os_timers s' = [] /\ os_rw_handlers s' = [] /\ promises s' = promises s /\ rejected_promise_list s' = rejected_promise_list s).
Proof.
  assert (forall f s1 s2, (call_handler (call env n) f ;;; ret 0) s1 = Some (Normal err, s2) -> err = 0) as Hh.
  { intros f s1 s2. unfold bind at 1. destruct (call_handler _ f s1) as [[[|] ?]|]; [now intros [= <- _] | discriminate..]. }
  assert (forall s1 s2, poll_descriptors env (call env n) s1 = Some (Normal err, s2) -> err = 0) as Hd.
  { intros s1 s2. unfold poll_descriptors, bind at 1, get. cbv beta iota. destruct (ready_handler _ _); [apply Hh | now intros [= <- _]]. }
  assert (forall s1 s2, poll_timers env (call env n) s1 = Some (Normal err, s2) -> err = 0) as Ht.
  { intros s1 s2. unfold poll_timers, bind at 1, get. cbv beta iota. destruct (os_timers s1) as [|th l]; [apply Hd|].
    unfold bind at 1, get_time_ms, bind at 1, get, bind at 1, modify, ret at 1. cbv beta iota.
    destruct (expired _ _) as [[t rest]|]; [|apply Hd]. unfold bind at 1, modify. cbv beta iota. apply Hh. }
  unfold js_os_poll. unfold bind at 1, modify. cbv beta iota. set (s1 := with_pending s _).
  unfold bind at 1, get. cbv beta iota. destruct (if os_pending_signals s1 =? 0 then None else _) as [sh|].
  - unfold bind at 1, modify. cbv beta iota. intros E. left. now apply Hh in E.
  - destruct (os_rw_handlers s1) eqn:Er, (os_timers s1) eqn:Et; try (intros E; left; now apply Ht in E).
    intros [= <- <-]. right. done.
Qed.

Lemma loop_ends n : forall s e s',
  reachable env s -> rejection_tracker env = true -> js_std_loop env n s = Some (Normal e, s') ->
  reachable env s' /\
  match e with
  | NoMoreEvents => os_timers s' = [] /\ os_rw_handlers s' = [] /\ forall p d v, promises s' !! p = Some d -> ~ unhandled d v
  | ProcessExit status => status = 1 /\ exists p d v, promises s' !! p = Some d /\ unhandled d v
  end.
Proof.
  induction n as [|n IH]; intros s e s' Hr Ht; cbn [js_std_loop]; [discriminate|]. unfold bind at 1.
  destruct (run_pending_jobs (call env (S n)) (S n) s) as [[[[]|v] s1]|] eqn:Ej; [|discriminate..].
  assert (reachable env s1) as Hr1 by (unfold reachable; transitivity s; [exact Hr | exact (pending_jobs_steps _ _ _ _ _ Ej)]).
  pose proof (wf_tracked _ _ (reachable_well_formed s1 Hr1) Ht) as Htr.
  unfold bind at 1, get. cbv beta iota. destruct (rejected_promise_list s1) as [|[p v] l] eqn:El.
  - unfold bind at 1. destruct (js_os_poll env (call env (S n)) s1) as [[[err|v] s2]|] eqn:Ep; [|discriminate..].
    assert (reachable env s2) as Hr2 by (eapply rtc_r; [exact Hr1 | exact (step_poll env _ _ _ _ Ep)]).
    destruct (poll_result _ _ _ _ Ep) as [-> |(E1 & E2 & E3 & E4)].
    + cbn [Z.eqb negb]. intros E. now apply (IH s2 e s').
    + destruct (err =? 0) eqn:E0; cbn [negb].
      * intros E. now apply (IH s2 e s').
      * intros [= <- <-]. split_and!; [done..|]. intros p d v Hp Hu. rewrite E3 in Hp.
        assert ((p, v) ∈ ([] : list (nat * value))) as Hin by (apply Htr; eauto). now apply elem_of_nil in Hin.
  - intros [= <- <-]. split_and!; [done..|]. destruct (Htr p v) as [(d & Hd & Hu) _]; [apply list_elem_of_here|]. eauto.
Qed.
End Machine.

(** ** The theorems *)

(** The witnesses run this program: two promises, [then] on both, one of them
    waiting for a timer. *)
Definition demo_body (n : nat) (this : value) (argv : list value) : program value :=
  match n with
  | 0%nat =>
      Call (FPromiseResolve false) FPromise [VInt 1] (fun o => match o with Exception v => Raise v | Normal p1 =>
      New FPromise [FUser 1] (fun o => match o with Exception v => Raise v | Normal p2 =>
      Call FPromiseThen p1 [FUser 2] (fun _ =>
      Call FPromiseThen p2 [FUser 3] (fun _ => Return p1)) end) end)
  | 1%nat => Write 5 (arg 0 argv) (Call FSetTimeout VUndefined [FUser 4; VInt 0] (fun _ => Return VUndefined))
  | 4%nat => Read 5 (fun f => Call f VUndefined [VInt 7] (fun _ => Return VUndefined))
  | 9%nat => Call (FPromiseResolve true) FPromise [VInt 3] (fun _ => Return VUndefined)
  | _ => Return (arg 0 argv)
  end.
Definition demo : environment := plain_environment demo_body.

Definition state_of {A} (r : option (outcome A * runtime)) : runtime :=
  match r with Some (_, s) => s | None => empty_runtime end.
Definition outcome_of {A} (r : option (outcome A * runtime)) : outcome A :=
  match r with Some (o, _) => o | None => Exception VNull end.

Definition demo1 : runtime := state_of (call demo 20 (FUser 0) VUndefined [] empty_runtime).
Definition demo2 : runtime := state_of (JS_ExecutePendingJob (call demo 20) demo1).

Lemma call_reachable env s n f this argv o s' :
  reachable env s -> call env n f this argv s = Some (o, s') -> reachable env s'.
Proof. intros Hr E. exact (rtc_r _ _ _ Hr (step_call env _ _ _ _ _ _ _ E)). Qed.

Lemma demo1_reachable : reachable demo demo1.
Proof.
  assert (call demo 20 (FUser 0) VUndefined [] empty_runtime = Some (Normal (VPromise 1), demo1)) as E by (vm_compute; reflexivity).
  exact (call_reachable demo _ _ _ _ _ _ _ (rtc_refl _ _) E).
Qed.

(** C4: promises settle once.  In every state that calls, jobs and polls of an
    arbitrary program reach, a pending promise has no result and a settled one no
    reactions; from then on, whatever runs, a settled promise keeps its state and
    its result, and one that is handled stays so. *)
Theorem promise_settles_once env s s' p d :
  reachable env s -> rtc (step env) s s' -> promises s !! p = Some d ->
  promise_ok d /\ exists d', promises s' !! p = Some d' /\ promise_ok d' /\ (is_handled d = true -> is_handled d' = true) /\
    (~ pending d -> promise_state d' = promise_state d /\ promise_result d' = promise_result d).
Proof. apply settled_once. Qed.

Lemma promise_settles_once_witness :
  exists d d', promises demo1 !! 1%nat = Some d /\ promises demo2 !! 1%nat = Some d' /\ promise_result d' = VInt 1 /\
    promise_ok d /\ (~ pending d -> promise_state d' = promise_state d /\ promise_result d' = promise_result d).
Proof.
  assert (exists d, promises demo1 !! 1%nat = Some d) as [d Hd] by (vm_compute; eauto).
  assert (JS_ExecutePendingJob (call demo 20) demo1 = Some (Normal 1, demo2)) as E by (vm_compute; reflexivity).
  pose proof (rtc_once _ _ (step_job demo _ _ _ _ E)) as Hstep.
  destruct (promise_settles_once demo demo1 demo2 1 d demo1_reachable Hstep Hd) as (Hok & d' & Hd' & _ & _ & Hs).
  assert (promise_result <$> promises demo2 !! 1%nat = Some (VInt 1)) as Hv by (vm_compute; reflexivity).
  rewrite Hd' in Hv. injection Hv as Hv. exists d, d'. exact (conj Hd (conj Hd' (conj Hv (conj Hok Hs)))).
Defined.

(** C23: of all the calls of a pair of resolving functions only the first has an
    effect.  Once one of them was called, whatever ran since, calling either
    returns undefined and changes nothing. *)
Theorem resolving_functions_once env n r p sr this argv s o s1 b s2 m r' p' this' argv' :
  reachable env s -> already_resolved s !! sr = Some b ->
  call env (S n) (FResolving r p sr) this argv s = Some (o, s1) -> rtc (step env) s1 s2 ->
  call env (S m) (FResolving r' p' sr) this' argv' s2 = Some (Normal VUndefined, s2).
Proof.
  intros Hr Hb Hc Hs. pose proof (reachable_well_formed env s Hr) as Hwf.
  pose proof (resolve_call_sets env n r p sr this argv s o s1 b Hwf Hb Hc) as H1.
  assert (reachable env s1) as Hr1 by (eapply rtc_r; [exact Hr | now apply (step_call env (S n) (FResolving r p sr) this argv o)]).
  destruct (steps_hold env s1 s2 (reachable_well_formed env s1 Hr1) Hs) as [_ Hm].
  destruct (mono_resolved _ _ Hm sr true H1) as (b' & Hb' & Ht). rewrite (Ht eq_refl) in Hb'. now apply resolve_call_noop.
Qed.

(** Resolving with 7 the promise that waits for the timer, then rejecting it. *)
Lemma resolving_functions_once_witness :
  let s1 := state_of (call demo 5 (FResolving false 3 4) VUndefined [VInt 7] demo1) in
  promise_result <$> promises s1 !! 3%nat = Some (VInt 7) /\
  call demo 5 (FResolving true 3 4) VUndefined [VInt 9] s1 = Some (Normal VUndefined, s1).
Proof.
  cbv zeta. split; [vm_compute; reflexivity|]. set (s1 := state_of _).
  assert (already_resolved demo1 !! 4%nat = Some false) as Hb by (vm_compute; reflexivity).
  assert (call demo 5 (FResolving false 3 4) VUndefined [VInt 7] demo1 = Some (Normal VUndefined, s1)) as E by (vm_compute; reflexivity).
  exact (resolving_functions_once demo 4 false 3 4 VUndefined [VInt 7] demo1 _ s1 false s1 4 true 3 VUndefined [VInt 9]
    demo1_reachable Hb E (rtc_refl _ _)).
Defined.

(** C26: reactions become jobs, all of them, in order.  When a call of any
    function settles a promise that was pending, the job queue is extended, and
    the extension has, next to each other and in the order of their
    registration, one job for each reaction of that outcome the promise had
    before the call, with its final result. *)
Theorem reactions_enqueued env n f this argv s o s' p d d' :
  reachable env s -> call env n f this argv s = Some (o, s') ->
  promises s !! p = Some d -> promises s' !! p = Some d' -> pending d -> ~ pending d' ->
  exists (is_reject : bool) l1 l2 more,
    promise_state d' = (if is_reject then JS_PROMISE_REJECTED else JS_PROMISE_FULFILLED) /\
    job_list s' = job_list s ++ l1 ++ jobs_of is_reject (promise_result d') (reactions is_reject d ++ more) ++ l2.
Proof.
  intros Hr Hc Hp Hp' Hd Hd'. pose proof (preserves_js_call env n f this argv s (reachable_well_formed env s Hr)) as H.
  rewrite Hc in H. destruct (ev_promises _ _ (proj2 H)) as (l & Hl & Hev). destruct (Hev p d Hp) as (x & Hx & _ & _ & _ & H4).
  rewrite Hp' in Hx. injection Hx as <-. destruct (H4 Hd Hd') as (b & more & l1 & l2 & Hs & ->). now exists b, l1, l2, more.
Qed.

Lemma reactions_enqueued_witness :
  let s' := state_of (call demo 5 (FResolving false 3 4) VUndefined [VInt 7] demo1) in
  exists d d', promises demo1 !! 3%nat = Some d /\ promises s' !! 3%nat = Some d' /\ length (fulfill_reactions d) = 1%nat /\
  exists (is_reject : bool) l1 l2 more, job_list s' = job_list demo1 ++ l1 ++ jobs_of is_reject (VInt 7) (reactions is_reject d ++ more) ++ l2.
Proof.
  cbv zeta. set (s' := state_of _).
  assert (exists d, promises demo1 !! 3%nat = Some d /\ pending d /\ length (fulfill_reactions d) = 1%nat) as (d & Hd & Hpd & Hlen)
    by (vm_compute; eauto).
  assert (exists d', promises s' !! 3%nat = Some d' /\ ~ pending d' /\ promise_result d' = VInt 7) as (d' & Hd' & Hpd' & Hv)
    by (eexists; split_and!; [vm_compute; reflexivity | discriminate | reflexivity]).
  assert (call demo 5 (FResolving false 3 4) VUndefined [VInt 7] demo1 = Some (Normal VUndefined, s')) as Hc by (vm_compute; reflexivity).
  exists d, d'. split_and!; [done..|].
  destruct (reactions_enqueued demo 5 _ _ _ demo1 _ s' 3 d d' demo1_reachable Hc Hd Hd' Hpd Hpd') as (b & l1 & l2 & more & _ & E).
  exists b, l1, l2, more. now rewrite Hv in E.
Defined.

(** C25: every job runs.  A job with [k] others before it in the queue is, after
    exactly [k] executions, at the head of the queue, with the jobs behind it
    still in their order and any new ones after them: the next execution runs
    it. *)
Theorem queued_job_runs env s s' l1 job l2 :
  reachable env s -> job_list s = l1 ++ job :: l2 -> jobs_run env (length l1) s s' ->
  exists l3, job_list s' = job :: l2 ++ l3 /\ forall n,
    JS_ExecutePendingJob (call env n) s' = catch (run_job (call env n) job ;;; ret 1) (fun _ => ret (-1)) (with_jobs s' (l2 ++ l3)).
Proof.
  intros Hr E Hj. destruct (jobs_fifo env l1 job l2 s s' (reachable_well_formed env s Hr) E Hj) as [l3 El].
  exists l3. split; [done|]. intros n. now apply execute_pops.
Qed.

Definition demo3 : runtime := state_of (call demo 20 (FResolving false 3 4) VUndefined [VInt 7] demo1).
Definition demo4 : runtime := state_of (JS_ExecutePendingJob (call demo 20) demo3).

(** The reaction on the second promise waits behind the one on the first. *)
Lemma queued_job_runs_witness :
  exists j1 j2, job_list demo3 = [j1; j2] /\ exists l3, job_list demo4 = j2 :: [] ++ l3.
Proof.
  assert (exists j1 j2, job_list demo3 = [j1; j2]) as (j1 & j2 & E) by (do 2 eexists; vm_compute; reflexivity).
  exists j1, j2. split; [done|]. destruct (queued_job_runs demo demo3 demo4 [j1] j2 []) as (l3 & El & _); [| done | | eauto].
  - assert (call demo 20 (FResolving false 3 4) VUndefined [VInt 7] demo1 = Some (Normal VUndefined, demo3)) as E' by (vm_compute; reflexivity).
    exact (call_reachable demo _ _ _ _ _ _ _ demo1_reachable E').
  - assert (JS_ExecutePendingJob (call demo 20) demo3 = Some (Normal 1, demo4)) as E' by (vm_compute; reflexivity).
    exact (jobs_one demo _ _ _ _ _ _ E' (jobs_none demo _)).
Defined.

(** C24: the main loop ends in one of two ways.  It returns only when there is no
    timer and no descriptor handler left and every rejected promise was handled;
    it exits the process with status 1 only when some rejected promise was never
    handled.  The list of rejections is exactly the set of those promises. *)
Theorem loop_end_correct env n s e s' :
  reachable env s -> rejection_tracker env = true -> js_std_loop env n s = Some (Normal e, s') ->
  (forall p v, (p, v) ∈ rejected_promise_list s' <-> exists d, promises s' !! p = Some d /\ unhandled d v) /\
  match e with
  | NoMoreEvents => os_timers s' = [] /\ os_rw_handlers s' = [] /\ forall p d v, promises s' !! p = Some d -> ~ unhandled d v
  | ProcessExit status => status = 1 /\ exists p d v, promises s' !! p = Some d /\ unhandled d v
  end.
Proof.
  intros Hr Ht E. destruct (loop_ends env n s e s' Hr Ht E) as [Hr' He]. split; [|done].
  now apply (wf_tracked _ _ (reachable_well_formed env s' Hr')).
Qed.

Definition demo5 : runtime := state_of (call demo 20 (FUser 9) VUndefined [] demo1).

Lemma loop_end_correct_witness :
  (exists s', js_std_loop demo 30 demo1 = Some (Normal NoMoreEvents, s') /\ os_timers s' = []) /\
  (exists s', js_std_loop demo 30 demo5 = Some (Normal (ProcessExit 1), s') /\ exists p d v, promises s' !! p = Some d /\ unhandled d v).
Proof.
  split.
  - exists (state_of (js_std_loop demo 30 demo1)).
    assert (js_std_loop demo 30 demo1 = Some (Normal NoMoreEvents, state_of (js_std_loop demo 30 demo1))) as E by (vm_compute; reflexivity).
    split; [done|]. apply (loop_end_correct demo 30 demo1 NoMoreEvents _ demo1_reachable eq_refl E).
  - exists (state_of (js_std_loop demo 30 demo5)).
    assert (js_std_loop demo 30 demo5 = Some (Normal (ProcessExit 1), state_of (js_std_loop demo 30 demo5))) as E by (vm_compute; reflexivity).
    split; [done|]. refine (proj2 (proj2 (loop_end_correct demo 30 demo5 (ProcessExit 1) _ _ eq_refl E))).
    assert (call demo 20 (FUser 9) VUndefined [] demo1 = Some (Normal VUndefined, demo5)) as E' by (vm_compute; reflexivity).
    exact (call_reachable demo _ _ _ _ _ _ _ demo1_reachable E').
Defined.

(** C27: an exception in a job ends the loop early.  When the job at the head of
    the queue throws (a resolving function given by a subclass may) and nothing
    else is awaited, the main loop returns with all the other jobs still in the
    queue: their callbacks never run. *)
Theorem job_exception_drops_jobs env n s job rest v s1 :
  reachable env s -> job_list s = job :: rest -> run_job (call env (S n)) job (with_jobs s rest) = Some (Exception v, s1) ->
  rejected_promise_list s1 = [] -> os_timers s1 = [] -> os_rw_handlers s1 = [] ->
  os_pending_signals s1 = 0 -> signals env (ticks s1) = 0 ->
  exists s' l, js_std_loop env (S n) s = Some (Normal NoMoreEvents, s') /\ job_list s' = rest ++ l.
Proof.
  intros Hr E Hj E1 E2 E3 E4 E5.
  assert (run_pending_jobs (call env (S n)) (S n) s = Some (Normal tt, s1)) as Hrun.
  { cbn [run_pending_jobs]. unfold bind at 1. rewrite (execute_pops env (S n) s job rest E). unfold catch, bind. rewrite Hj. reflexivity. }
  destruct (execute_appends env (S n) s job rest (Normal (-1)) s1 (reachable_well_formed env s Hr) E) as [l El].
  { rewrite (execute_pops env (S n) s job rest E). unfold catch, bind. rewrite Hj. reflexivity. }
  exists (with_pending s1 (Z.lor 0 0)), l. split; [|done].
  cbn [js_std_loop]. unfold bind at 1. rewrite Hrun. unfold bind at 1, get. cbv beta iota. rewrite E1.
  unfold bind at 1, js_os_poll. unfold bind at 1, modify. cbv beta iota. rewrite E4, E5. unfold bind at 1, get. cbv beta iota.
  change (os_pending_signals (with_pending s1 (Z.lor 0 0))) with 0. cbn [Z.eqb].
  change (os_timers (with_pending s1 (Z.lor 0 0))) with (os_timers s1).
  change (os_rw_handlers (with_pending s1 (Z.lor 0 0))) with (os_rw_handlers s1). rewrite E2, E3. reflexivity.
Qed.

(** A subclass whose capability throws, and a plain reaction behind it. *)
Definition subclass : environment :=
  mk_environment
    (fun n this argv => match n with
       | 0%nat => Call (FPromiseResolve false) FPromise [VInt 1] (fun o => match o with Exception v => Raise v | Normal p =>
                  Write 0 (VBool true) (Call FPromiseThen p [FUser 2] (fun _ =>
                  Write 0 (VBool false) (Call FPromiseThen p [FUser 3] (fun _ => Return p)))) end)
       | 1%nat => Raise (VInt 13)
       | 3%nat => Write 9 (VInt 99) (Return VUndefined)
       | _ => Return (arg 0 argv) end)
    (fun n argv => Call (arg 0 argv) VUndefined [FUser 1; FUser 1] (fun _ => Return (VObject 0)))
    default_property (fun _ => Read 0 (fun b => Return (if bool_decide (b = VBool true) then FUser 5 else FPromise)))
    (fun v => Return v) (fun _ _ => Return None) (fun _ => Return tt) (fun _ => Return 0) true Z.of_nat (fun _ _ _ => false) (fun _ => 0).

Definition subclass1 : runtime := state_of (call subclass 20 (FUser 0) VUndefined [] empty_runtime).

Lemma job_exception_drops_jobs_witness :
  length (job_list subclass1) = 2%nat /\
  exists s' l, js_std_loop subclass 20 subclass1 = Some (Normal NoMoreEvents, s') /\ job_list s' = tail (job_list subclass1) ++ l.
Proof.
  split; [vm_compute; reflexivity|].
  assert (call subclass 20 (FUser 0) VUndefined [] empty_runtime = Some (outcome_of (call subclass 20 (FUser 0) VUndefined [] empty_runtime), subclass1))
    as E by (vm_compute; reflexivity).
  assert (exists job rest, job_list subclass1 = job :: rest) as (job & rest & El) by (do 2 eexists; vm_compute; reflexivity).
  assert (job = hd (resolve_thenable 0 VNull VNull) (job_list subclass1) /\ rest = tail (job_list subclass1)) as [-> ->]
    by (rewrite El; split; reflexivity).
  set (job := hd _ _) in *. set (rest := tail _) in *.
  assert (exists s1, run_job (call subclass 20) job (with_jobs subclass1 rest) = Some (Exception (VInt 13), s1) /\
    rejected_promise_list s1 = [] /\ os_timers s1 = [] /\ os_rw_handlers s1 = [] /\ os_pending_signals s1 = 0 /\
    signals subclass (ticks s1) = 0) as (s1 & Ej & E1 & E2 & E3 & E4 & E5)
    by (eexists; split; [vm_compute; reflexivity | split_and!; reflexivity]).
  exact (job_exception_drops_jobs subclass 19 subclass1 job rest (VInt 13) s1
    (call_reachable subclass _ _ _ _ _ _ _ (rtc_refl _ _) E) El Ej E1 E2 E3 E4 E5).
Defined.

(** [Promise.allSettled] gives each element two functions with a flag each: a
    [then] that calls both counts the element twice, and the result is fulfilled
    although the second promise is pending.  [Promise.all] is rejected by the second call. *)
Definition settled_body (magic : combinator) (n : nat) (this : value) (argv : list value) : program value :=
  match n with
  | 0%nat =>
      Call (FPromiseResolve false) FPromise [VInt 1] (fun o => match o with Exception v => Raise v | Normal p =>
      New FPromise [FUser 8] (fun o => match o with Exception v => Raise v | Normal q =>
      Write 0 (VInt 0) (Write 1 p (Write 2 q (Call (FPromiseAll magic) FPromise [VInt 2] (fun o =>
        match o with Normal v => Return v | Exception v => Raise v end)))) end) end)
  | 7%nat => Call (arg 0 argv) VUndefined [VInt 1] (fun _ => Call (arg 1 argv) VUndefined [VInt 2] (fun _ => Return VUndefined))
  | _ => Return VUndefined
  end.

(** The [then] of the first promise is the function of the program. *)
Definition settled_env (magic : combinator) : environment :=
  let e := plain_environment (settled_body magic) in
  mk_environment (user e) (construct e)
    (fun v p => match v, p with VPromise 1, P_then => Return (FUser 7) | _, _ => default_property v p end)
    (species e) (get_iterator e) (iterator_next e) (iterator_close e) (to_integer e) true (clock e) (ready e) (signals e).

Definition settled_state (magic : combinator) : option JSPromiseStateEnum :=
  let r := call (settled_env magic) 20 (FUser 0) VUndefined [] empty_runtime in
  JS_PromiseState (state_of r) (match outcome_of r with Normal v => v | Exception v => v end).

Example allSettled_counts_twice :
  settled_state PROMISE_MAGIC_allSettled = Some JS_PROMISE_FULFILLED /\ settled_state PROMISE_MAGIC_any = Some JS_PROMISE_FULFILLED /\
  settled_state PROMISE_MAGIC_all = Some JS_PROMISE_REJECTED.
Proof. vm_compute. auto. Qed.
