(* ===== verification/TimerSpec.v ===== *)
(** * Timers: order and fairness

    A poll fires the first timer of the list that expired; a timer that is due
    fires, or is cleared, within as many turns of the loop as there are timers
    before it. *)

From Stdlib Require Import ZArith Lia Bool.
From stdpp Require Import base numbers list option gmap relations.
From S2P Require Import Prelude Async Promise EventLoop AsyncInv AsyncSpec.

#[local] Open Scope Z_scope.
#[local] Open Scope runtime_scope.

(** ** Definitions *)

(** Calls and jobs, without a poll. *)
Inductive work (env : environment) : runtime -> runtime -> Prop :=
| work_call n f this argv o s s' : call env n f this argv s = Some (o, s') -> work env s s'
| work_job n o s s' : JS_ExecutePendingJob (call env n) s = Some (o, s') -> work env s s'.

(** One turn of the loop: a poll, then jobs and calls. *)
Definition turn (env : environment) (s s' : runtime) : Prop :=
  exists n err s1, js_os_poll env (call env n) s = Some (Normal err, s1) /\ rtc (work env) s1 s'.

(** Nothing but timers: no signal is pending. *)
Definition quiet (env : environment) (s : runtime) : Prop := os_pending_signals s = 0 /\ forall n, signals env n = 0.

Definition due (env : environment) (s : runtime) (th : JSOSTimer) : Prop := timeout th <= clock env (ticks s).

(** The next poll takes [th] out of the list, which leaves [rest], and calls its
    function. *)
Definition fires_leaving (env : environment) (s : runtime) (th : JSOSTimer) (rest : list JSOSTimer) : Prop :=
  (exists l1 l2, os_timers s = l1 ++ th :: l2 /\ rest = l1 ++ l2) /\
  forall n, js_os_poll env (call env n) s =
    (call_handler (call env n) (timer_func th) ;;; ret 0) (with_timers (with_ticks (with_pending s 0) (S (ticks s))) rest).

Definition fires (env : environment) (s : runtime) (th : JSOSTimer) : Prop := exists rest, fires_leaving env s th rest.

(** The program removed [th], a timer with an identifier: the poll calls the
    function of another timer and leaves [th] in the list, which is without it at
    the end of the turn. *)
Definition cleared (env : environment) (s s' : runtime) (th : JSOSTimer) : Prop :=
  0 < timer_id th /\ (exists th' rest, fires_leaving env s th' rest /\ th ∈ rest) /\ th ∉ os_timers s'.

(** The identifiers do not reach [INT32_MAX] up to the state [s']. *)
Definition ids_last (s s' : runtime) : Prop := next_timer_id s + (Z.of_nat (ticks s') - Z.of_nat (ticks s)) <= INT32_MAX.

(** A timer of [sleepAsync], or one that [setTimeout] has armed. *)
Definition armed (s : runtime) (th : JSOSTimer) : Prop := timer_id th = -1 \/ 0 < timer_id th < next_timer_id s.

#[export] Instance timer_eq_dec : EqDecision JSOSTimer.
Proof. solve_decision. Defined.

(** A clock that does not go back, and times that do not overflow. *)
Definition steady (env : environment) : Prop :=
  (forall i j, (i <= j)%nat -> clock env i <= clock env j) /\ forall i, 0 <= clock env i < 2 ^ 62.

Section Timers.
Context (env : environment) (clock_steady : steady env).

(** ** One poll *)

Lemma i64_small z : - 2 ^ 63 <= z < 2 ^ 63 -> i64 z = z.
Proof. intros H. apply sgn_small; [lia|]. exact H. Qed.

Lemma is_due t th : - 2 ^ 62 <= timeout th < 2 ^ 62 -> 0 <= t < 2 ^ 62 -> (i64 (timeout th - t) <=? 0) = (timeout th <=? t).
Proof.
  intros H1 H2. rewrite i64_small by (change (2 ^ 62) with 4611686018427387904 in *; change (2 ^ 63) with 9223372036854775808; lia).
  destruct (Z.leb_spec (timeout th - t) 0), (Z.leb_spec (timeout th) t); lia || done.
Qed.

(** The first expired timer is the due one or stands before it. *)
Lemma expired_split t th l1 l2 :
  (i64 (timeout th - t) <=? 0) = true ->
  (exists th' a b, expired t (l1 ++ th :: l2) = Some (th', a ++ b ++ th :: l2) /\ l1 = a ++ th' :: b) \/
  expired t (l1 ++ th :: l2) = Some (th, l1 ++ l2).
Proof.
  intros Hd. induction l1 as [|x l1 IH]; cbn [app expired].
  - right. now rewrite Hd.
  - destruct (i64 (timeout x - t) <=? 0); [left; now exists x, [], l1|].
    destruct IH as [(th' & a & b & -> & ->)| ->]; [left; now exists th', (x :: a), b | now right].
Qed.

Lemma expired_takes t l th rest : expired t l = Some (th, rest) -> exists l1 l2, l = l1 ++ th :: l2 /\ rest = l1 ++ l2.
Proof.
  revert rest. induction l as [|x l IH]; intros rest; cbn; [discriminate|]. destruct (i64 _ <=? 0).
  - intros [= <- <-]. now exists [], l.
  - destruct (expired t l) as [[t' r]|]; [|discriminate]. intros [= <- <-].
    destruct (IH r eq_refl) as (l1 & l2 & -> & ->). now exists (x :: l1), l2.
Qed.

Lemma poll_expired n s th rest :
  quiet env s -> expired (clock env (ticks s)) (os_timers s) = Some (th, rest) ->
  js_os_poll env (call env n) s =
    (call_handler (call env n) (timer_func th) ;;; ret 0) (with_timers (with_ticks (with_pending s 0) (S (ticks s))) rest).
Proof.
  intros [Hp Hs] He. unfold js_os_poll. unfold bind at 1, modify. cbv beta iota.
  rewrite Hp, Hs. change (Z.lor 0 0) with 0. set (s1 := with_pending s 0).
  unfold bind at 1, get. cbv beta iota. change (os_pending_signals s1 =? 0) with true. cbv iota.
  assert (os_timers s1 = os_timers s) as Et by reflexivity.
  assert (poll_timers env (call env n) s1 =
    (call_handler (call env n) (timer_func th) ;;; ret 0) (with_timers (with_ticks s1 (S (ticks s))) rest)) as Hpoll.
  { unfold poll_timers. unfold bind at 1, get. cbv beta iota. rewrite Et.
    destruct (os_timers s) as [|x l] eqn:El; [discriminate|].
    unfold bind at 1, get_time_ms, bind at 1, get, bind at 1, modify, ret at 1. cbv beta iota.
    change (ticks s1) with (ticks s). rewrite He. reflexivity. }
  rewrite Et. destruct (os_timers s) as [|x l]; [discriminate|]. destruct (os_rw_handlers s1); exact Hpoll.
Qed.

Lemma poll_fires s th rest :
  quiet env s -> expired (clock env (ticks s)) (os_timers s) = Some (th, rest) -> fires_leaving env s th rest.
Proof. intros Hq He. split; [eauto using expired_takes | intros n; now apply poll_expired]. Qed.

(** ** What happens between polls *)

Lemma work_evolves s s' :
  well_formed env s -> work env s s' ->
  well_formed env s' /\ timers_evolve s s' /\ os_pending_signals s' = os_pending_signals s /\
  (ticks s <= ticks s')%nat.
Proof.
  intros H Hw. destruct Hw as [n f this argv o s s' E|n o s s' E].
  - pose proof (preserves_js_call env n f this argv s H) as Hp. rewrite E in Hp. destruct Hp as [Hwf [? ? ? ? ? ?]]. done.
  - pose proof (job_holds env n s o s' H E) as [Hwf _]. split; [done|]. destruct (job_list s) as [|job rest] eqn:El.
    + unfold JS_ExecutePendingJob, bind, get in E. rewrite El in E. injection E as <- <-. split_and!; try done; apply timers_evolve_refl.
    + rewrite (execute_pops env n s job rest El) in E. set (s1 := with_jobs s rest) in *.
      assert (well_formed env s1) as H1 by now apply (holds_frame env s s1).
      assert (preserves env (catch (run_job (call env n) job ;;; ret 1) (fun _ => ret (-1)))) as Hp
        by (pose proof (preserves_run_job env n); preserve).
      specialize (Hp s1 H1). rewrite E in Hp. destruct Hp as [_ [? ? ? ? ? ?]].
      split; [|done]. apply (timers_evolve_trans s s1 s'); [done..|now apply timers_same|done].
Qed.

Lemma works_evolve s s' :
  well_formed env s -> rtc (work env) s s' ->
  well_formed env s' /\ timers_evolve s s' /\ os_pending_signals s' = os_pending_signals s /\
  (ticks s <= ticks s')%nat.
Proof.
  intros H Hw. induction Hw as [s|s s1 s' H1 _ IH]; [split_and!; auto using timers_evolve_refl|].
  destruct (work_evolves s s1 H H1) as (Hwf & Ht & Hp & Hn), (IH (proj1 (work_evolves s s1 H H1))) as (Hwf' & Ht' & Hp' & Hn').
  split_and!; [done | eauto using timers_evolve_trans | congruence | lia].
Qed.

(** A timer that is left by the poll stays where it is, moves forward, or is
    cleared. *)
Lemma timer_stays s0 s' th l1 l2 :
  timers_evolve s0 s' -> (ticks s0 <= ticks s')%nat -> ids_last s0 s' -> armed s0 th -> NoDup (l1 ++ th :: l2) -> os_timers s0 = l1 ++ th :: l2 ->
  (exists l1' l2', os_timers s' = l1' ++ th :: l2' /\ (length l1' <= length l1)%nat) \/ (0 < timer_id th /\ th ∉ os_timers s').
Proof.
  intros (kept & added & E & Hsub & Hf & Hid) Hn Hmax Ha Hnd E0. rewrite E0 in Hsub, Hf. unfold ids_last in Hmax.
  destruct (decide (th ∈ kept)) as [Hk|Hk]; [left | right].
  - apply sublist_app_r in Hsub as (k1 & k2 & -> & Hs1 & Hs2).
    apply NoDup_app in Hnd as (_ & Hdis & Hnd2). apply NoDup_cons in Hnd2 as [Hth _].
    apply elem_of_app in Hk as [Hk|Hk].
    + exfalso. apply (Hdis th); [|apply list_elem_of_here]. eapply elem_of_submseteq; [exact Hk|]. now apply sublist_submseteq.
    + inversion Hs2 as [|? k2' ? Hs3|? ? ? Hs3]; subst.
      * exists k1, (k2' ++ added). split; [rewrite E, <- !app_assoc; done | now apply sublist_length].
      * exfalso. apply Hth. eapply elem_of_submseteq; [exact Hk|]. now apply sublist_submseteq.
  - assert (0 < timer_id th) as Hpos.
    { destruct (Z.le_gt_cases (timer_id th) 0) as [Hle|Hgt]; [|done]. exfalso. apply Hk.
      apply (list_elem_of_filter (fun th => timer_id th <= 0)). rewrite Hf. apply list_elem_of_filter. split; [done|].
      apply elem_of_app. right. apply list_elem_of_here. }
    split; [done|]. rewrite E. intros Hin. apply elem_of_app in Hin as [|Hin]; [done|].
    destruct Hid as [_ Hnew]; [lia|]. destruct Ha as [Ha|Ha]; [lia|]. destruct (Hnew th Hin); lia.
Qed.

(** A turn that fires another timer. *)
Lemma turn_other s s' th th' l1 l2 :
  well_formed env s -> quiet env s -> NoDup (os_timers s) -> turn env s s' -> ids_last s s' -> armed s th ->
  expired (clock env (ticks s)) (os_timers s) = Some (th', l1 ++ th :: l2) ->
  well_formed env s' /\ quiet env s' /\ (ticks s <= ticks s')%nat /\
  next_timer_id s <= next_timer_id s' <= next_timer_id s + Z.of_nat (ticks s' - ticks s) /\
  ((exists l1' l2', os_timers s' = l1' ++ th :: l2' /\ (length l1' <= length l1)%nat) \/ cleared env s s' th).
Proof.
  intros H Hq Hnd (n & err & s1 & Hpoll & Hw) Hmax Ha He. pose proof (poll_fires s th' _ Hq He) as Hfires.
  rewrite (poll_expired n s th' _ Hq He) in Hpoll. set (s0 := with_timers _ _) in Hpoll.
  assert (well_formed env s0) as H0 by now apply (holds_frame env s s0).
  assert (preserves env (call_handler (call env n) (timer_func th') ;;; ret 0)) as Hp
    by (pose proof (preserves_call_handler env n); preserve).
  specialize (Hp s0 H0). rewrite Hpoll in Hp. destruct Hp as [H1 Hev].
  destruct (works_evolve s1 s' H1 Hw) as (H' & Ht & Hs & Hn).
  pose proof (ev_ticks _ _ Hev) as Hn1.
  assert (timers_evolve s0 s') as Htt by exact (timers_evolve_trans s0 s1 s' Hn1 Hn (ev_timers _ _ Hev) Ht).
  assert (ticks s0 = S (ticks s)) as En by reflexivity. assert (next_timer_id s0 = next_timer_id s) as Ei by reflexivity.
  unfold ids_last, armed in *. rewrite En in Hn1.
  destruct (expired_takes _ _ _ _ He) as (a & b & Es & Er).
  assert (NoDup (l1 ++ th :: l2)) as Hnd'.
  { rewrite Er. rewrite Es in Hnd. eapply sublist_NoDup; [exact Hnd|]. apply sublist_app; [reflexivity | now apply sublist_cons]. }
  split; [done|]. split; [split; [rewrite Hs, (ev_pending _ _ Hev); done | apply Hq]|]. split; [lia|]. split.
  - destruct Htt as (kept & added & _ & _ & _ & Hid). rewrite En, Ei in Hid. destruct Hid; lia.
  - destruct (timer_stays s0 s' th l1 l2 Htt) as [Hl|[Hpos Hout]]; [lia | unfold ids_last; lia | done | done | done | now left | right].
    split; [done|]. split; [|done]. exists th', (l1 ++ th :: l2). split; [done|]. apply elem_of_app. right. apply list_elem_of_here.
Qed.

(** ** Fairness *)

Lemma timer_served k : forall (seq : nat -> runtime) th l1 l2,
  (length l1 <= k)%nat -> well_formed env (seq 0%nat) -> quiet env (seq 0%nat) ->
  (forall i, (i <= k)%nat -> turn env (seq i) (seq (S i)) /\ NoDup (os_timers (seq i)) /\ ids_last (seq 0%nat) (seq (S i))) ->
  os_timers (seq 0%nat) = l1 ++ th :: l2 -> armed (seq 0%nat) th -> - 2 ^ 62 <= timeout th < 2 ^ 62 -> due env (seq 0%nat) th ->
  exists i, (i <= k)%nat /\ (fires env (seq i) th \/ cleared env (seq i) (seq (S i)) th).
Proof.
  destruct clock_steady as [Hmono Hrange].
  induction k as [|k IH]; intros seq th l1 l2 Hl H Hq Hseq E Ha Ht Hd.
  - destruct l1; [|cbn in Hl; lia]. exists 0%nat. split; [done|]. left. exists l2.
    destruct (expired_split (clock env (ticks (seq 0%nat))) th [] l2) as [(th' & a & b & _ & Hx)|He].
    + rewrite is_due by auto. now apply Z.leb_le.
    + destruct a; discriminate.
    + cbn [app] in *. rewrite <- E in He. now apply poll_fires.
  - destruct (expired_split (clock env (ticks (seq 0%nat))) th l1 l2) as [(th' & a & b & He & Hab)|He].
    + rewrite is_due by auto. now apply Z.leb_le.
    + destruct (Hseq 0%nat) as (Hturn & Hnd & Hmax); [lia|]. rewrite <- E, app_assoc in He.
      destruct (turn_other _ _ th th' _ l2 H Hq Hnd Hturn Hmax Ha He) as (H1 & Hq1 & Hn & Hi & [(l1' & l2' & E1 & Hlen)|Hc]).
      * destruct (IH (fun i => seq (S i)) th l1' l2') as (i & Hik & Hres); try done.
        -- subst l1. rewrite !length_app in *. cbn [length] in Hl. lia.
        -- intros i Hik. destruct (Hseq (S i)) as (? & ? & Hm); [lia|]. split_and!; [done..|]. unfold ids_last in *. lia.
        -- unfold armed in *. destruct Ha; [now left | right; lia].
        -- unfold due in *. pose proof (Hmono _ _ Hn). lia.
        -- exists (S i). split; [lia | done].
      * exists 0%nat. split; [lia | now right].
    + rewrite <- E in He. exists 0%nat. split; [lia|]. left. exists (l1 ++ l2). now apply poll_fires.
Qed.
End Timers.

(** ** The theorem *)


(** Two timers; the function of the first arms a third one. *)
Definition timers_body (n : nat) (this : value) (argv : list value) : program value :=
  match n with
  | 0%nat => Call FSetTimeout VUndefined [FUser 1; VInt 0] (fun _ =>
             Call FSetTimeout VUndefined [FUser 2; VInt (-1)] (fun _ => Return VUndefined))
  | 1%nat => Call FSetTimeout VUndefined [FUser 2; VInt (-9)] (fun _ => Return VUndefined)
  | _ => Return VUndefined
  end.
Definition timers_env : environment :=
  mk_environment timers_body (fun _ _ => Return VUndefined) default_property (fun _ => Return FPromise) (fun v => Return v)
    (fun _ _ => Return None) (fun _ => Return tt) (fun _ => Return 0) true (fun n => Z.of_nat (Nat.min n 100)) (fun _ _ _ => false) (fun _ => 0).

Definition turn0 : runtime := state_of (call timers_env 9 (FUser 0) VUndefined [] empty_runtime).
Definition turn1 : runtime := state_of (js_os_poll timers_env (call timers_env 9) turn0).
Definition turn2 : runtime := state_of (js_os_poll timers_env (call timers_env 9) turn1).

Definition turns (i : nat) : runtime := match i with 0%nat => turn0 | 1%nat => turn1 | _ => turn2 end.

