(* ===== verification/Gc.v ===== *)
(** * The cycle collector

    [gc_decref], [gc_scan] and [mark_children] of [src/core/quickjs.c] (6133 to
    6347): trial deletion over the list of the objects under the collector.  The
    intrusive lists are lists of object identifiers.  The references that the
    class-specific [gc_mark] functions report are part of the object.  A failed
    [assert] is [None]. *)

From Stdlib Require Import ZArith Lia Bool.
From stdpp Require Import base numbers list option gmap.
From S2P Require Import Prelude.

#[local] Open Scope Z_scope.

(** ** Definitions *)

(** A value, as far as the collector looks: a pointer with one of the tags of
    [JS_MarkValue], or anything else. *)
Inductive gc_value : Type :=
| GcPointer (p : nat)
| GcOther.

Inductive JSProperty : Type :=
| JS_ATOM_NULL
| JS_PROP_NORMAL (v : gc_value)
| JS_PROP_GETSET (getter setter : option nat)
| JS_PROP_VARREF (var_ref : nat)
| JS_PROP_AUTOINIT (realm : nat).

(** What [mark_children] reads, by [gc_obj_type]. *)
Inductive gc_body : Type :=
| JS_GC_OBJ_TYPE_JS_OBJECT (shape : nat) (prop : list JSProperty) (class_mark : list nat)
| JS_GC_OBJ_TYPE_FUNCTION_BYTECODE (cpool : list gc_value) (realm : option nat)
| JS_GC_OBJ_TYPE_VAR_REF (is_detached : bool) (value : gc_value) (async_func : option nat)
| JS_GC_OBJ_TYPE_ASYNC_FUNCTION (is_completed : bool) (cur_func this_val : gc_value) (stack : option (list gc_value))
    (resolving0 resolving1 : gc_value)
| JS_GC_OBJ_TYPE_SHAPE (proto : option nat)
| JS_GC_OBJ_TYPE_JS_CONTEXT (loaded_modules : list nat) (values : list gc_value) (shapes : list (option nat))
| JS_GC_OBJ_TYPE_MODULE (attributes : list gc_value) (var_refs : list (option nat)) (values : list gc_value).

Record JSGCObjectHeader : Type := mk_gc { ref_count : Z; mark : bool; body : gc_body }.

Record gc_state : Type := mk_gc_state {
  heap : gmap nat JSGCObjectHeader;
  gc_obj_list : list nat;
  tmp_obj_list : list nat;
}.

Definition JS_MarkValue (v : gc_value) : list nat := match v with GcPointer p => [p] | GcOther => [] end.
Definition mark_pointer (p : option nat) : list nat := match p with Some p => [p] | None => [] end.

Definition mark_property (pr : JSProperty) : list nat :=
  match pr with
  | JS_ATOM_NULL => []
  | JS_PROP_GETSET getter setter => mark_pointer getter ++ mark_pointer setter
  | JS_PROP_VARREF var_ref => [var_ref]
  | JS_PROP_AUTOINIT realm => [realm]
  | JS_PROP_NORMAL v => JS_MarkValue v
  end.

Definition JS_MarkContext (loaded_modules : list nat) (values : list gc_value) (shapes : list (option nat)) : list nat :=
  loaded_modules ++ concat (map JS_MarkValue values) ++ concat (map mark_pointer shapes).

Definition js_mark_module_def (attributes : list gc_value) (var_refs : list (option nat)) (values : list gc_value) : list nat :=
  concat (map JS_MarkValue attributes) ++ concat (map mark_pointer var_refs) ++ concat (map JS_MarkValue values).

(** The objects on which [mark_func] is called, in order. *)
Definition mark_children (gp : gc_body) : list nat :=
  match gp with
  | JS_GC_OBJ_TYPE_JS_OBJECT shape prop class_mark => shape :: concat (map mark_property prop) ++ class_mark
  | JS_GC_OBJ_TYPE_FUNCTION_BYTECODE cpool realm => concat (map JS_MarkValue cpool) ++ mark_pointer realm
  | JS_GC_OBJ_TYPE_VAR_REF is_detached value async_func =>
      if is_detached then JS_MarkValue value else mark_pointer async_func
  | JS_GC_OBJ_TYPE_ASYNC_FUNCTION is_completed cur_func this_val stack resolving0 resolving1 =>
      (if is_completed then []
       else JS_MarkValue cur_func ++ JS_MarkValue this_val ++
            match stack with Some values => concat (map JS_MarkValue values) | None => [] end) ++
      JS_MarkValue resolving0 ++ JS_MarkValue resolving1
  | JS_GC_OBJ_TYPE_SHAPE proto => mark_pointer proto
  | JS_GC_OBJ_TYPE_JS_CONTEXT loaded_modules values shapes => JS_MarkContext loaded_modules values shapes
  | JS_GC_OBJ_TYPE_MODULE attributes var_refs values => js_mark_module_def attributes var_refs values
  end.

(** [list_del] *)
Definition unlink (p : nat) (l : list nat) : list nat := List.filter (fun q => negb (q =? p)%nat) l.

Definition set_object (s : gc_state) (p : nat) (x : JSGCObjectHeader) : gc_state :=
  mk_gc_state (<[p := x]> (heap s)) (gc_obj_list s) (tmp_obj_list s).

(** [list_del; list_add_tail] to [tmp_obj_list]. *)
Definition move_to_tmp (s : gc_state) (p : nat) : gc_state :=
  mk_gc_state (heap s) (unlink p (gc_obj_list s)) (unlink p (tmp_obj_list s) ++ [p]).

Definition gc_decref_child (s : gc_state) (p : nat) : option gc_state :=
  x ← heap s !! p;
  if negb (0 <? ref_count x) then None
  else
    let x := mk_gc (ref_count x - 1) (mark x) (body x) in
    let s := set_object s p x in
    Some (if (ref_count x =? 0) && mark x then move_to_tmp s p else s).

(** [mark_children(rt, p, mark_func)] *)
Fixpoint each_child (mark_func : gc_state -> nat -> option gc_state) (s : gc_state) (children : list nat) : option gc_state :=
  match children with
  | c :: children => s ← mark_func s c; each_child mark_func s children
  | [] => Some s
  end.

Definition gc_decref_object (s : gc_state) (p : nat) : option gc_state :=
  x ← heap s !! p;
  if mark x then None
  else
    s ← each_child gc_decref_child s (mark_children (body x));
    x ← heap s !! p;
    let s := set_object s p (mk_gc (ref_count x) true (body x)) in
    Some (if ref_count x =? 0 then move_to_tmp s p else s).

(** The loop visits every object of the list once: only objects already visited
    leave it. *)
Definition gc_decref (s : gc_state) : option gc_state :=
  each_child gc_decref_object (mk_gc_state (heap s) (gc_obj_list s) []) (gc_obj_list s).

Definition gc_scan_incref_child (s : gc_state) (p : nat) : option gc_state :=
  x ← heap s !! p;
  let n := ref_count x + 1 in
  Some (if n =? 1
        then mk_gc_state (<[p := mk_gc n false (body x)]> (heap s)) (unlink p (gc_obj_list s) ++ [p]) (unlink p (tmp_obj_list s))
        else set_object s p (mk_gc n (mark x) (body x))).

Definition gc_scan_incref_child2 (s : gc_state) (p : nat) : option gc_state :=
  x ← heap s !! p;
  Some (set_object s p (mk_gc (ref_count x + 1) (mark x) (body x))).

Definition gc_scan_object (s : gc_state) (p : nat) : option gc_state :=
  x ← heap s !! p;
  if negb (0 <? ref_count x) then None
  else each_child gc_scan_incref_child (set_object s p (mk_gc (ref_count x) false (body x))) (mark_children (body x)).

(** The list grows while it is traversed: [i] is the position reached. *)
Fixpoint gc_scan_list (fuel : nat) (s : gc_state) (i : nat) : option gc_state :=
  match gc_obj_list s !! i with
  | None => Some s
  | Some p =>
      match fuel with
      | O => None
      | S fuel => s ← gc_scan_object s p; gc_scan_list fuel s (S i)
      end
  end.

Definition gc_restore_object (s : gc_state) (p : nat) : option gc_state :=
  x ← heap s !! p;
  each_child gc_scan_incref_child2 s (mark_children (body x)).

Definition gc_scan (fuel : nat) (s : gc_state) : option gc_state :=
  s ← gc_scan_list fuel s 0;
  each_child gc_restore_object s (tmp_obj_list s).

(** The mark phase of [JS_RunGCInternal]. *)
Definition gc_mark_phase (fuel : nat) (s : gc_state) : option gc_state := s ← gc_decref s; gc_scan fuel s.

(** ** Specification *)

Definition children_of (h : gmap nat JSGCObjectHeader) (p : nat) : list nat :=
  match h !! p with Some x => mark_children (body x) | None => [] end.

Fixpoint occurrences (p : nat) (l : list nat) : Z :=
  match l with q :: l => (if (q =? p)%nat then 1 else 0) + occurrences p l | [] => 0 end.

(** The references to [p] from the objects of a list. *)
Fixpoint references (h : gmap nat JSGCObjectHeader) (l : list nat) (p : nat) : Z :=
  match l with q :: l => occurrences p (children_of h q) + references h l p | [] => 0 end.

(** The references to [p] from elsewhere: the stack, the jobs, C code. *)
Definition external (h : gmap nat JSGCObjectHeader) (l : list nat) (p : nat) : Z :=
  match h !! p with Some x => ref_count x - references h l p | None => 0 end.

Inductive alive (h : gmap nat JSGCObjectHeader) (l : list nat) : nat -> Prop :=
| alive_root p : p ∈ l -> 0 < external h l p -> alive h l p
| alive_child p q : alive h l p -> q ∈ children_of h p -> alive h l q.

(** A heap between two collections: every object is in the list once, refers
    to objects of the list, is not marked, and its count includes every reference
    from the list. *)
Record gc_consistent (s : gc_state) : Prop := mk_consistent {
  con_nodup : NoDup (gc_obj_list s);
  con_heap : forall p, p ∈ gc_obj_list s -> exists x, heap s !! p = Some x /\ mark x = false;
  con_closed : forall p q, p ∈ gc_obj_list s -> q ∈ children_of (heap s) p -> q ∈ gc_obj_list s;
  con_counts : forall p, p ∈ gc_obj_list s -> 0 <= external (heap s) (gc_obj_list s) p;
}.
