(* ===== verification/GcSpec.v ===== *)
(** * The cycle collector finds exactly the garbage

    The mark phase of [Gc] against reachability: the objects kept are those
    that a reference from outside the heap reaches, and all counts are restored. *)

From Stdlib Require Import ZArith Lia Bool.
From stdpp Require Import base numbers list option gmap.
From S2P Require Import Prelude Gc.

#[local] Open Scope Z_scope.

(** ** Lists and counts *)

Lemma occurrences_nonneg p l : 0 <= occurrences p l.
Proof. induction l as [|q l IH]; cbn; [lia|]. destruct (q =? p)%nat; lia. Qed.

Lemma occurrences_in p l : p ∈ l -> 1 <= occurrences p l.
Proof.
  induction l as [|q l IH]; intros H; [now apply elem_of_nil in H|]. pose proof (occurrences_nonneg p l). cbn.
  apply elem_of_cons in H as [->|H]; [rewrite Nat.eqb_refl; lia|]. specialize (IH H). destruct (q =? p)%nat; lia.
Qed.

Lemma references_nonneg h l p : 0 <= references h l p.
Proof. induction l as [|q l IH]; cbn; [lia|]. pose proof (occurrences_nonneg p (children_of h q)). lia. Qed.

Lemma references_app h l l' p : references h (l ++ l') p = references h l p + references h l' p.
Proof. induction l as [|q l IH]; cbn; lia. Qed.

Lemma references_perm h l l' p : l ≡ₚ l' -> references h l p = references h l' p.
Proof. induction 1; cbn; lia. Qed.

Lemma references_in h l p q : q ∈ l -> p ∈ children_of h q -> 1 <= references h l p.
Proof.
  intros Hq Hp. apply list_elem_of_split in Hq as (l1 & l2 & ->). rewrite references_app. cbn.
  pose proof (occurrences_in p _ Hp). pose proof (references_nonneg h l1 p). pose proof (references_nonneg h l2 p). lia.
Qed.

Lemma unlink_filter p (P Q : nat -> bool) l :
  (forall q, Q q = P q && negb (q =? p)%nat) -> unlink p (List.filter P l) = List.filter Q l.
Proof.
  intros H. unfold unlink. induction l as [|q l IH]; cbn; [done|]. rewrite H.
  destruct (P q); cbn; [destruct (negb (q =? p)%nat); cbn; now rewrite IH | done].
Qed.

Lemma unlink_absent p l : p ∉ l -> unlink p l = l.
Proof.
  unfold unlink. induction l as [|q l IH]; intros H; cbn; [done|]. apply not_elem_of_cons in H as [Hq Hl].
  destruct (Nat.eqb_spec q p); [congruence|]. cbn. now rewrite IH.
Qed.

Lemma unlink_elem p q l : q ∈ unlink p l <-> q ∈ l /\ q <> p.
Proof.
  unfold unlink. rewrite !list_elem_of_In, List.filter_In. split; intros [H1 H2]; split; try done.
  - destruct (Nat.eqb_spec q p); [discriminate | done].
  - destruct (Nat.eqb_spec q p); [congruence | done].
Qed.

Lemma filter_same (P Q : nat -> bool) l : (forall q, q ∈ l -> P q = Q q) -> List.filter P l = List.filter Q l.
Proof.
  induction l as [|q l IH]; intros H; cbn; [done|]. rewrite (H q) by apply list_elem_of_here.
  rewrite IH; [done|]. intros x Hx. apply H. now apply list_elem_of_further.
Qed.

Lemma filter_elem_nat (P : nat -> bool) l p : p ∈ List.filter P l <-> p ∈ l /\ P p = true.
Proof. rewrite !list_elem_of_In. apply List.filter_In. Qed.

Lemma each_child_app f l1 : forall s l2, each_child f s (l1 ++ l2) = s' ← each_child f s l1; each_child f s' l2.
Proof. induction l1 as [|c l1 IH]; intros s l2; cbn; [done|]. destruct (f s c); cbn; [apply IH | done]. Qed.

Section Collection.
Context (h0 : gmap nat JSGCObjectHeader) (objs : list nat).
Context (objs_nodup : NoDup objs).
Context (objs_heap : forall p, p ∈ objs -> exists x, h0 !! p = Some x /\ mark x = false).
Context (objs_closed : forall p q, p ∈ objs -> q ∈ children_of h0 p -> q ∈ objs).
Context (objs_counts : forall p, p ∈ objs -> 0 <= external h0 objs p).

Abbreviation ext := (external h0 objs).
Abbreviation refs := (references h0).

Definition count0 (p : nat) : Z := match h0 !! p with Some x => ref_count x | None => 0 end.

Lemma count0_split p : p ∈ objs -> count0 p = ext p + refs objs p.
Proof. intros H. destruct (objs_heap p H) as (x & Hx & _). unfold count0, external. rewrite Hx. lia. Qed.

(** ** Decrementing *)

(** [dec] references were removed; [vis] objects were visited. *)
Record decref_inv (s : gc_state) (dec : nat -> Z) (vis : nat -> bool) : Prop := mk_decref_inv {
  di_heap : forall p x, p ∈ objs -> h0 !! p = Some x -> heap s !! p = Some (mk_gc (ref_count x - dec p) (vis p) (body x));
  di_list : gc_obj_list s = List.filter (fun p => negb (vis p && (count0 p - dec p =? 0))) objs;
  di_tmp : forall p, p ∈ tmp_obj_list s <-> p ∈ objs /\ vis p && (count0 p - dec p =? 0) = true;
  di_nodup : NoDup (tmp_obj_list s);
}.

Lemma decref_inv_ext s dec dec' vis vis' :
  (forall p, p ∈ objs -> dec p = dec' p) -> (forall p, p ∈ objs -> vis p = vis' p) -> decref_inv s dec vis -> decref_inv s dec' vis'.
Proof.
  intros Ed Ev [H1 H2 H3 H4]. split; [| |intros p |done].
  - intros p x Hp Hx. rewrite <- Ed, <- Ev by done. auto.
  - rewrite H2. apply filter_same. intros p Hp. now rewrite Ed, Ev.
  - rewrite H3. split; intros [Hp Ht]; (split; [done|]); [rewrite <- Ed, <- Ev | rewrite Ed, Ev]; done.
Qed.

Definition bump (f : nat -> Z) (p : nat) (q : nat) : Z := f q + (if (p =? q)%nat then 1 else 0).

(** The lists when the object [p] of the list reaches zero. *)
Lemma move_to_tmp_inv s dec vis dec' vis' p h :
  decref_inv s dec vis -> p ∈ objs -> vis p && (count0 p - dec p =? 0) = false -> vis' p && (count0 p - dec' p =? 0) = true ->
  (forall q, q <> p -> dec q = dec' q /\ vis q = vis' q) ->
  (forall q x, q ∈ objs -> h0 !! q = Some x -> h !! q = Some (mk_gc (ref_count x - dec' q) (vis' q) (body x))) ->
  decref_inv (move_to_tmp (mk_gc_state h (gc_obj_list s) (tmp_obj_list s)) p) dec' vis'.
Proof.
  intros [H1 H2 H3 H4] Hp Hbefore Hafter Hne Hheap.
  assert (p ∉ tmp_obj_list s) as Hn by (rewrite H3; intros [_ Ht]; congruence).
  split; cbn [heap gc_obj_list tmp_obj_list move_to_tmp].
  - done.
  - rewrite H2. apply unlink_filter. intros q. destruct (Nat.eqb_spec q p) as [->|Hq]; cbn.
    + now rewrite Hafter, andb_false_r.
    + destruct (Hne q Hq) as [-> ->]. now rewrite andb_true_r.
  - intros q. rewrite unlink_absent, elem_of_app, H3, list_elem_of_singleton by done. destruct (decide (q = p)) as [->|Hq].
    + rewrite Hafter. split; [done | now right].
    + destruct (Hne q Hq) as [-> ->]. split; [intros [?|?]; done | now left].
  - rewrite unlink_absent by done. apply NoDup_app. split_and!; [done | | apply NoDup_singleton].
    intros q Hq Hq'. apply list_elem_of_singleton in Hq' as ->. done.
Qed.

(** The lists when no object reaches zero. *)
Lemma stay_inv s dec vis dec' vis' h :
  decref_inv s dec vis ->
  (forall q, q ∈ objs -> vis' q && (count0 q - dec' q =? 0) = vis q && (count0 q - dec q =? 0)) ->
  (forall q x, q ∈ objs -> h0 !! q = Some x -> h !! q = Some (mk_gc (ref_count x - dec' q) (vis' q) (body x))) ->
  decref_inv (mk_gc_state h (gc_obj_list s) (tmp_obj_list s)) dec' vis'.
Proof.
  intros [H1 H2 H3 H4] Hsame Hheap. split; cbn; [done | | |done].
  - rewrite H2. apply filter_same. intros q Hq. now rewrite Hsame.
  - intros q. rewrite H3. split; intros [Hq Ht]; (split; [done|]); [rewrite Hsame | rewrite <- Hsame]; done.
Qed.

Lemma decref_child_inv s dec vis p :
  decref_inv s dec vis -> p ∈ objs -> dec p < count0 p ->
  exists s', gc_decref_child s p = Some s' /\ decref_inv s' (bump dec p) vis.
Proof.
  intros H Hp Hlt. destruct (objs_heap p Hp) as (x & Hx & _). pose proof (di_heap _ _ _ H p x Hp Hx) as Hs.
  assert (count0 p = ref_count x) as Ec by (unfold count0; now rewrite Hx).
  unfold gc_decref_child. rewrite Hs. cbn [mbind option_bind ref_count mark body].
  destruct (Z.ltb_spec 0 (ref_count x - dec p)); [|lia]. cbn [negb]. eexists. split; [reflexivity|].
  assert (forall q y, q ∈ objs -> h0 !! q = Some y ->
    <[p := mk_gc (ref_count x - dec p - 1) (vis p) (body x)]> (heap s) !! q = Some (mk_gc (ref_count y - bump dec p q) (vis q) (body y))) as Hheap.
  { intros q y Hq Hy. unfold bump. destruct (Nat.eqb_spec p q) as [<-|Hne].
    - rewrite lookup_insert_eq. rewrite Hx in Hy. injection Hy as <-. do 2 f_equal. lia.
    - rewrite lookup_insert_ne by done. rewrite (di_heap _ _ _ H q y Hq Hy). do 2 f_equal. lia. }
  assert (count0 p - bump dec p p = ref_count x - dec p - 1) as Eb by (unfold bump; rewrite Nat.eqb_refl; lia).
  destruct ((ref_count x - dec p - 1 =? 0) && vis p) eqn:E.
  - apply andb_true_iff in E as [E1 E2]. eapply (move_to_tmp_inv s dec vis); try done.
    + rewrite E2, Ec. destruct (Z.eqb_spec (ref_count x - dec p) 0); [lia | done].
    + now rewrite E2, Eb, E1.
    + intros q Hq. unfold bump. destruct (Nat.eqb_spec p q); [congruence|]. split; [lia | done].
  - eapply (stay_inv s dec vis); try done. intros q Hq. destruct (decide (q = p)) as [->|Hne].
    + rewrite Eb, Ec, andb_comm, E. symmetry. apply andb_false_iff. right. apply Z.eqb_neq. lia.
    + unfold bump. destruct (Nat.eqb_spec p q); [congruence|]. now rewrite Z.add_0_r.
Qed.

Lemma decref_children_inv cs : forall s dec vis,
  decref_inv s dec vis -> (forall c, c ∈ cs -> c ∈ objs) -> (forall p, p ∈ objs -> dec p + occurrences p cs <= count0 p) ->
  exists s', each_child gc_decref_child s cs = Some s' /\ decref_inv s' (fun p => dec p + occurrences p cs) vis.
Proof.
  induction cs as [|c cs IH]; intros s dec vis H Hin Hle; cbn [each_child].
  - exists s. split; [done|]. eapply decref_inv_ext; [| |exact H]; intros; cbn; [lia | done].
  - assert (c ∈ objs) as Hc by apply Hin, list_elem_of_here.
    destruct (decref_child_inv s dec vis c H Hc) as (s1 & -> & H1).
    { specialize (Hle c Hc). cbn in Hle. rewrite Nat.eqb_refl in Hle. pose proof (occurrences_nonneg c cs). lia. }
    cbn [mbind option_bind]. destruct (IH s1 (bump dec c) vis H1) as (s2 & E2 & H2).
    + intros q Hq. apply Hin. now apply list_elem_of_further.
    + intros p Hp. specialize (Hle p Hp). cbn in Hle. unfold bump. lia.
    + exists s2. split; [done|]. eapply decref_inv_ext; [| |exact H2]; intros; cbn; unfold bump; [lia | done].
Qed.

Definition visit (vis : nat -> bool) (p q : nat) : bool := (p =? q)%nat || vis q.

Lemma decref_object_inv s dec vis p :
  decref_inv s dec vis -> p ∈ objs -> vis p = false ->
  (forall q, q ∈ objs -> dec q + occurrences q (children_of h0 p) <= count0 q) ->
  exists s', gc_decref_object s p = Some s' /\ decref_inv s' (fun q => dec q + occurrences q (children_of h0 p)) (visit vis p).
Proof.
  intros H Hp Hv Hle. destruct (objs_heap p Hp) as (x & Hx & _).
  assert (children_of h0 p = mark_children (body x)) as Ech by (unfold children_of; now rewrite Hx).
  unfold gc_decref_object. rewrite (di_heap _ _ _ H p x Hp Hx). cbn [mbind option_bind mark body]. rewrite Hv, <- Ech.
  destruct (decref_children_inv (children_of h0 p) s dec vis H) as (s1 & -> & H1); [intros c Hc; now apply (objs_closed p) | done|].
  cbn [mbind option_bind]. set (dec1 := fun q => dec q + occurrences q (children_of h0 p)) in *.
  rewrite (di_heap _ _ _ H1 p x Hp Hx). cbn [mbind option_bind ref_count mark body]. eexists. split; [reflexivity|].
  assert (forall q y, q ∈ objs -> h0 !! q = Some y ->
    <[p := mk_gc (ref_count x - dec1 p) true (body x)]> (heap s1) !! q = Some (mk_gc (ref_count y - dec1 q) (visit vis p q) (body y))) as Hheap.
  { intros q y Hq Hy. unfold visit. destruct (Nat.eqb_spec p q) as [<-|Hne].
    - rewrite lookup_insert_eq. rewrite Hx in Hy. now injection Hy as <-.
    - rewrite lookup_insert_ne by done. now apply (di_heap _ _ _ H1). }
  assert (count0 p = ref_count x) as Ec by (unfold count0; now rewrite Hx).
  destruct (ref_count x - dec1 p =? 0) eqn:E.
  - eapply (move_to_tmp_inv s1 dec1 vis); try done.
    + now rewrite Hv.
    + unfold visit. rewrite Nat.eqb_refl, Ec. done.
    + intros q Hq. unfold visit. destruct (Nat.eqb_spec p q); [congruence | done].
  - eapply (stay_inv s1 dec1 vis); try done. intros q Hq. unfold visit. destruct (Nat.eqb_spec p q) as [<-|]; [|done].
    now rewrite Ec, E, Hv.
Qed.

Lemma decref_loop_inv l : forall s dec vis,
  decref_inv s dec vis -> NoDup l -> (forall p, p ∈ l -> p ∈ objs /\ vis p = false) ->
  (forall q, q ∈ objs -> dec q + refs l q <= count0 q) ->
  exists s', each_child gc_decref_object s l = Some s' /\
    decref_inv s' (fun q => dec q + refs l q) (fun q => vis q || bool_decide (q ∈ l)).
Proof.
  induction l as [|p l IH]; intros s dec vis H Hnd Hin Hle; cbn [each_child].
  - exists s. split; [done|]. eapply decref_inv_ext; [| |exact H]; intros; cbn; [lia|].
    now rewrite bool_decide_false, orb_false_r by apply not_elem_of_nil.
  - apply NoDup_cons in Hnd as [Hpl Hnd]. destruct (Hin p) as [Hp Hv]; [apply list_elem_of_here|].
    destruct (decref_object_inv s dec vis p H Hp Hv) as (s1 & -> & H1).
    { intros q Hq. specialize (Hle q Hq). cbn in Hle. pose proof (references_nonneg h0 l q). lia. }
    cbn [mbind option_bind]. destruct (IH s1 _ _ H1 Hnd) as (s2 & E2 & H2).
    + intros q Hq. destruct (Hin q) as [Hq' Hvq]; [now apply list_elem_of_further|]. split; [done|]. unfold visit.
      destruct (Nat.eqb_spec p q); [congruence | done].
    + intros q Hq. specialize (Hle q Hq). cbn in Hle. cbn. lia.
    + exists s2. split; [done|]. eapply decref_inv_ext; [| |exact H2]; intros q Hq; cbn; [lia|]. unfold visit.
      destruct (Nat.eqb_spec p q) as [->|Hne]; cbn.
      * rewrite (bool_decide_true (q ∈ q :: l)) by apply list_elem_of_here. now rewrite orb_true_r.
      * f_equal. apply bool_decide_ext. rewrite elem_of_cons. split; [now right | intros [?|?]; [congruence | done]].
Qed.

(** ** Scanning *)

(** [inc] references were counted again. *)
Record scan_inv (s : gc_state) (inc : nat -> Z) : Prop := mk_scan_inv {
  si_heap : forall p x, p ∈ objs -> h0 !! p = Some x -> exists m, heap s !! p = Some (mk_gc (ext p + inc p) m (body x));
  si_perm : gc_obj_list s ++ tmp_obj_list s ≡ₚ objs;
  si_kept : forall p, p ∈ gc_obj_list s -> 0 < ext p + inc p;
  si_tmp : forall p, p ∈ tmp_obj_list s -> ext p + inc p = 0;
  si_alive : forall p, p ∈ gc_obj_list s -> alive h0 objs p;
}.

Definition unmarked (s : gc_state) (p : nat) : Prop := forall x, heap s !! p = Some x -> mark x = false.

(** What a step keeps: the list grows at its end, and no mark is set. *)
Definition grows (s s' : gc_state) : Prop :=
  (exists e, gc_obj_list s' = gc_obj_list s ++ e) /\ (forall p, unmarked s p -> unmarked s' p).

Lemma grows_refl s : grows s s.
Proof. split; [exists []; now rewrite app_nil_r | done]. Qed.

Lemma grows_trans s s' s'' : grows s s' -> grows s' s'' -> grows s s''.
Proof.
  intros [[e E] Hm] [[e' E'] Hm']. split; [|auto]. exists (e ++ e'). now rewrite E', E, app_assoc.
Qed.

Lemma scan_inv_ext s inc inc' : (forall p, p ∈ objs -> inc p = inc' p) -> scan_inv s inc -> scan_inv s inc'.
Proof.
  intros E [H1 H2 H3 H4 H5].
  assert (forall p, p ∈ gc_obj_list s ++ tmp_obj_list s -> inc p = inc' p) as E' by (intros p Hp; apply E; now rewrite <- H2).
  split; try done.
  - intros p x Hp Hx. rewrite <- E by done. eauto.
  - intros p Hp. rewrite <- E' by (apply elem_of_app; now left). auto.
  - intros p Hp. rewrite <- E' by (apply elem_of_app; now right). auto.
Qed.

Lemma scan_child_inv s inc p :
  scan_inv s inc -> p ∈ objs -> alive h0 objs p ->
  exists s', gc_scan_incref_child s p = Some s' /\ scan_inv s' (bump inc p) /\ grows s s'.
Proof.
  intros H Hp Ha. pose proof H as [H1 H2 H3 H4 H5]. destruct (objs_heap p Hp) as (x & Hx & _). destruct (H1 p x Hp Hx) as [m Hs].
  assert (NoDup (gc_obj_list s ++ tmp_obj_list s)) as Hnd by now rewrite H2.
  unfold gc_scan_incref_child. rewrite Hs. cbn [mbind option_bind ref_count mark body]. eexists. split; [reflexivity|].
  assert (bump inc p p = inc p + 1) as Eb by (unfold bump; now rewrite Nat.eqb_refl).
  assert (forall q, q <> p -> bump inc p q = inc q) as Ene by (intros q Hq; unfold bump; destruct (Nat.eqb_spec p q); [congruence | lia]).
  assert (forall n m', n = ext p + inc p + 1 -> forall q y, q ∈ objs -> h0 !! q = Some y ->
    exists m'', <[p := mk_gc n m' (body x)]> (heap s) !! q = Some (mk_gc (ext q + bump inc p q) m'' (body y))) as Hheap.
  { intros n m' -> q y Hq Hy. destruct (decide (q = p)) as [->|Hne].
    - rewrite lookup_insert_eq, Eb. rewrite Hx in Hy. injection Hy as <-. exists m'. do 2 f_equal. lia.
    - rewrite lookup_insert_ne, Ene by done. eauto. }
  assert (forall n m' l1 l2, (m' = false \/ m' = m) -> forall q, unmarked s q -> unmarked (mk_gc_state (<[p := mk_gc n m' (body x)]> (heap s)) l1 l2) q) as Hmark.
  { intros n m' l1 l2 Hm q Hq y. cbn. destruct (decide (q = p)) as [->|Hne].
    - rewrite lookup_insert_eq. intros [= <-]. cbn. destruct Hm as [->| ->]; [done|]. exact (Hq _ Hs).
    - rewrite lookup_insert_ne by done. apply Hq. }
  destruct (Z.eqb_spec (ext p + inc p + 1) 1) as [E|E].
  - assert (p ∉ gc_obj_list s) as Hng by (intros Hin; specialize (H3 p Hin); lia).
    assert (p ∈ tmp_obj_list s) as Hpt by (rewrite <- H2, elem_of_app in Hp; tauto).
    rewrite (unlink_absent p (gc_obj_list s)) by done. split.
    + split; cbn [heap gc_obj_list tmp_obj_list].
      * now apply Hheap.
      * rewrite <- H2. rewrite <- app_assoc. apply Permutation_app_head. cbn.
        apply NoDup_app in Hnd as (_ & _ & Hnd). apply NoDup_Permutation; [apply NoDup_cons; split; [rewrite unlink_elem; tauto|] | done |].
        -- unfold unlink. apply NoDup_ListNoDup, List.NoDup_filter, NoDup_ListNoDup, Hnd.
        -- intros q. rewrite elem_of_cons, unlink_elem. split; [intros [->|[? _]]; done|]. destruct (decide (q = p)); tauto.
      * intros q Hq. apply elem_of_app in Hq as [Hq|Hq].
        -- rewrite Ene by (intros ->; done). auto.
        -- apply list_elem_of_singleton in Hq as ->. lia.
      * intros q Hq. apply unlink_elem in Hq as [Hq Hne]. rewrite Ene by done. auto.
      * intros q Hq. apply elem_of_app in Hq as [Hq|Hq]; [auto|]. now apply list_elem_of_singleton in Hq as ->.
    + split; [now exists [p] | intros q Hq; apply Hmark; auto].
  - assert (p ∉ tmp_obj_list s) as Hnt by (intros Hin; specialize (H4 p Hin); lia).
    assert (p ∈ gc_obj_list s) as Hpg by (rewrite <- H2, elem_of_app in Hp; tauto).
    split.
    + split; cbn [heap gc_obj_list tmp_obj_list set_object]; try done.
      * now apply Hheap.
      * intros q Hq. specialize (H3 q Hq). unfold bump. destruct (p =? q)%nat; lia.
      * intros q Hq. rewrite Ene by (intros ->; done). auto.
    + split; [exists []; now rewrite app_nil_r | intros q Hq; apply Hmark; auto].
Qed.

Lemma scan_children_inv cs : forall s inc,
  scan_inv s inc -> (forall c, c ∈ cs -> c ∈ objs /\ alive h0 objs c) ->
  exists s', each_child gc_scan_incref_child s cs = Some s' /\ scan_inv s' (fun p => inc p + occurrences p cs) /\ grows s s'.
Proof.
  induction cs as [|c cs IH]; intros s inc H Hin; cbn [each_child].
  - exists s. split_and!; [done | | apply grows_refl]. eapply scan_inv_ext; [|exact H]. intros. cbn. lia.
  - destruct (Hin c) as [Hc Ha]; [apply list_elem_of_here|]. destruct (scan_child_inv s inc c H Hc Ha) as (s1 & -> & H1 & G1).
    cbn [mbind option_bind]. destruct (IH s1 (bump inc c) H1) as (s2 & E2 & H2 & G2).
    + intros q Hq. apply Hin. now apply list_elem_of_further.
    + exists s2. split_and!; [done | | now apply (grows_trans s s1)].
      eapply scan_inv_ext; [|exact H2]. intros. cbn. unfold bump. lia.
Qed.

Lemma scan_object_inv s inc p :
  scan_inv s inc -> p ∈ gc_obj_list s ->
  exists s', gc_scan_object s p = Some s' /\ scan_inv s' (fun q => inc q + occurrences q (children_of h0 p)) /\ grows s s' /\ unmarked s' p.
Proof.
  intros H Hp. pose proof H as [H1 H2 H3 H4 H5]. assert (p ∈ objs) as Hpo by (rewrite <- H2; apply elem_of_app; now left).
  destruct (objs_heap p Hpo) as (x & Hx & _). destruct (H1 p x Hpo Hx) as [m Hs]. pose proof (H3 p Hp) as Hpos.
  assert (children_of h0 p = mark_children (body x)) as Ech by (unfold children_of; now rewrite Hx).
  unfold gc_scan_object. rewrite Hs. cbn [mbind option_bind ref_count mark body].
  destruct (Z.ltb_spec 0 (ext p + inc p)); [|lia]. cbn [negb]. rewrite <- Ech. set (s1 := set_object s p _).
  assert (scan_inv s1 inc) as Hs1.
  { split; try done. intros q y Hq Hy. cbn. destruct (decide (q = p)) as [->|Hne].
    - rewrite lookup_insert_eq. rewrite Hx in Hy. injection Hy as <-. eauto.
    - rewrite lookup_insert_ne by done. eauto. }
  assert (unmarked s1 p) as Hu by (intros y; cbn; rewrite lookup_insert_eq; intros [= <-]; done).
  assert (grows s s1) as G1.
  { split; [exists []; now rewrite app_nil_r|]. intros q Hq y. cbn. destruct (decide (q = p)) as [->|Hne].
    - rewrite lookup_insert_eq. intros [= <-]. done.
    - rewrite lookup_insert_ne by done. apply Hq. }
  destruct (scan_children_inv (children_of h0 p) s1 inc Hs1) as (s2 & E2 & H6 & G2).
  { intros c Hc. split; [now apply (objs_closed p)|]. exact (alive_child _ _ p c (H5 p Hp) Hc). }
  exists s2. split_and!; [done | done | now apply (grows_trans s s1) | now apply G2].
Qed.

Lemma scan_list_inv fuel : forall s i,
  scan_inv s (refs (take i (gc_obj_list s))) -> (i <= length (gc_obj_list s))%nat ->
  (forall j p, (j < i)%nat -> gc_obj_list s !! j = Some p -> unmarked s p) -> (length objs <= fuel + i)%nat ->
  exists s', gc_scan_list fuel s i = Some s' /\ scan_inv s' (refs (gc_obj_list s')) /\
    (forall p, p ∈ gc_obj_list s -> p ∈ gc_obj_list s') /\ forall p, p ∈ gc_obj_list s' -> unmarked s' p.
Proof.
  induction fuel as [|fuel IH]; intros s i H Hi Hm Hf; cbn [gc_scan_list]; destruct (gc_obj_list s !! i) as [p|] eqn:Ep.
  - exfalso. apply lookup_lt_Some in Ep. pose proof (Permutation_length (si_perm _ _ H)) as E. rewrite length_app in E. lia.
  - exists s. split; [done|]. apply lookup_ge_None in Ep. rewrite take_ge in H by lia. split_and!; [done | done |].
    intros p Hp. apply list_elem_of_lookup_1 in Hp as [j Hj]. apply (Hm j); [apply lookup_lt_Some in Hj; lia | done].
  - assert (p ∈ gc_obj_list s) as Hp by now apply list_elem_of_lookup_2 in Ep.
    destruct (scan_object_inv s _ p H Hp) as (s1 & -> & H1 & [[e E] Hg] & Hu). cbn [mbind option_bind].
    destruct (IH s1 (S i)) as (s2 & E2 & H2 & K2 & M2); [| | | |exists s2; split_and!; try done].
    + eapply scan_inv_ext; [|exact H1]. intros q _. rewrite E. rewrite take_app_le by (apply lookup_lt_Some in Ep; lia).
      rewrite (take_S_r _ _ _ Ep), references_app. cbn. lia.
    + rewrite E, length_app. apply lookup_lt_Some in Ep. lia.
    + intros j q Hj Hq. destruct (decide (j = i)) as [->|].
      * rewrite E, lookup_app_l in Hq by now apply lookup_lt_Some in Ep. rewrite Ep in Hq. now injection Hq as <-.
      * apply Hg. apply (Hm j); [lia|]. rewrite E, lookup_app_l in Hq by (apply lookup_lt_Some in Ep; lia). done.
    + lia.
    + intros q Hq. apply K2. rewrite E. apply elem_of_app. now left.
  - exists s. split; [done|]. apply lookup_ge_None in Ep. rewrite take_ge in H by lia. split_and!; [done | done |].
    intros p Hp. apply list_elem_of_lookup_1 in Hp as [j Hj]. apply (Hm j); [apply lookup_lt_Some in Hj; lia | done].
Qed.

(** ** Restoring the counts of the garbage *)

Definition counted (s : gc_state) (f : nat -> Z) : Prop :=
  forall p x, p ∈ objs -> h0 !! p = Some x -> exists m, heap s !! p = Some (mk_gc (f p) m (body x)).

Definition same_lists (s s' : gc_state) : Prop :=
  gc_obj_list s' = gc_obj_list s /\ tmp_obj_list s' = tmp_obj_list s /\ forall p, unmarked s p -> unmarked s' p.

Lemma restore_children cs : forall s f,
  counted s f -> (forall c, c ∈ cs -> c ∈ objs) ->
  exists s', each_child gc_scan_incref_child2 s cs = Some s' /\ counted s' (fun p => f p + occurrences p cs) /\ same_lists s s'.
Proof.
  induction cs as [|c cs IH]; intros s f H Hin; cbn [each_child].
  - exists s. split_and!; try done. intros p x Hp Hx. cbn. rewrite Z.add_0_r. eauto.
  - destruct (objs_heap c) as (x & Hx & _); [apply Hin, list_elem_of_here|].
    destruct (H c x) as [m Hs]; [apply Hin, list_elem_of_here | done |].
    set (s1 := set_object s c (mk_gc (f c + 1) m (body x))).
    assert (gc_scan_incref_child2 s c = Some s1) as -> by (unfold gc_scan_incref_child2; now rewrite Hs).
    cbn [mbind option_bind].
    assert (counted s1 (bump f c)) as H1.
    { intros q y Hq Hy. cbn. unfold bump. destruct (Nat.eqb_spec c q) as [<-|Hne].
      - rewrite lookup_insert_eq. rewrite Hx in Hy. injection Hy as <-. eauto.
      - rewrite lookup_insert_ne, Z.add_0_r by done. eauto. }
    destruct (IH s1 (bump f c) H1) as (s2 & E2 & H2 & L1 & L2 & L3); [intros q Hq; apply Hin; now apply list_elem_of_further|].
    exists s2. split; [done|]. split.
    + intros q y Hq Hy. destruct (H2 q y Hq Hy) as [m' Hm']. exists m'. rewrite Hm'. do 2 f_equal. cbn. unfold bump. lia.
    + split_and!; [now rewrite L1 | now rewrite L2 |]. intros q Hq. apply L3. intros y. cbn. destruct (decide (q = c)) as [->|].
      * rewrite lookup_insert_eq. intros [= <-]. exact (Hq _ Hs).
      * rewrite lookup_insert_ne by done. apply Hq.
Qed.

Lemma restore_loop l : forall s f,
  counted s f -> (forall p, p ∈ l -> p ∈ objs) ->
  exists s', each_child gc_restore_object s l = Some s' /\ counted s' (fun p => f p + refs l p) /\ same_lists s s'.
Proof.
  induction l as [|p l IH]; intros s f H Hin; cbn [each_child].
  - exists s. split_and!; try done. intros q x Hq Hx. cbn. rewrite Z.add_0_r. eauto.
  - assert (p ∈ objs) as Hp by apply Hin, list_elem_of_here. destruct (objs_heap p Hp) as (x & Hx & _). destruct (H p x Hp Hx) as [m Hs].
    assert (gc_restore_object s p = each_child gc_scan_incref_child2 s (children_of h0 p)) as ->
      by (unfold gc_restore_object, children_of; now rewrite Hs, Hx).
    destruct (restore_children (children_of h0 p) s f H) as (s1 & -> & H1 & L1 & L2 & L3); [intros c Hc; now apply (objs_closed p)|].
    cbn [mbind option_bind]. destruct (IH s1 _ H1) as (s2 & E2 & H2 & K1 & K2 & K3); [intros q Hq; apply Hin; now apply list_elem_of_further|].
    exists s2. split; [done|]. split; [|split_and!; [congruence | congruence | auto]].
    intros q y Hq Hy. destruct (H2 q y Hq Hy) as [m' Hm']. exists m'. rewrite Hm'. do 2 f_equal. cbn. lia.
Qed.

(** ** The mark phase *)

Lemma count0_external p : p ∈ objs -> count0 p - refs objs p = ext p.
Proof. intros H. rewrite (count0_split p H). lia. Qed.

(** After the first pass the counts are the references from outside, and the
    objects that have none are apart. *)
Lemma gc_decref_scan s :
  heap s = h0 -> gc_obj_list s = objs -> exists s1, gc_decref s = Some s1 /\ scan_inv s1 (refs []) /\
    forall p, p ∈ objs -> 0 < ext p -> p ∈ gc_obj_list s1.
Proof.
  intros Eh El. unfold gc_decref. rewrite Eh, El.
  destruct (decref_loop_inv objs (mk_gc_state h0 objs []) (fun _ => 0) (fun _ => false)) as (s1 & E1 & H1).
  - split; cbn.
    + intros p x Hp Hx. destruct (objs_heap p Hp) as (y & Hy & Hm). rewrite Hx in Hy. injection Hy as <-.
      rewrite Hx. destruct x as [n m b]. cbn in *. subst m. do 2 f_equal. lia.
    + symmetry. apply forallb_filter_id, forallb_forall. done.
    + intros p. split; [intros []%elem_of_nil | now intros [_ ?]].
    + apply NoDup_nil_2.
  - done.
  - done.
  - intros q Hq. pose proof (count0_external q Hq). pose proof (objs_counts q Hq). lia.
  - exists s1. split; [exact E1|]. destruct H1 as [I1 I2 I3 I4].
    assert (forall p, p ∈ objs -> (false || bool_decide (p ∈ objs)) && (count0 p - (0 + refs objs p) =? 0) = (ext p =? 0)) as Ez.
    { intros p Hp. rewrite bool_decide_true by done. cbn. f_equal. rewrite <- count0_external by done. lia. }
    assert (forall p, p ∈ gc_obj_list s1 <-> p ∈ objs /\ 0 < ext p) as Hk.
    { intros p. rewrite I2, filter_elem_nat. split; intros [Hp Hx]; (split; [done|]); specialize (objs_counts p Hp).
      - rewrite Ez in Hx by done. destruct (Z.eqb_spec (ext p) 0); [discriminate | lia].
      - rewrite Ez by done. destruct (Z.eqb_spec (ext p) 0); [lia | done]. }
    assert (forall p, p ∈ tmp_obj_list s1 <-> p ∈ objs /\ ext p = 0) as Ht.
    { intros p. rewrite I3. split; intros [Hp Hx]; (split; [done|]).
      - rewrite Ez in Hx by done. now apply Z.eqb_eq.
      - rewrite Ez by done. now apply Z.eqb_eq. }
    split; [split|].
    + intros p x Hp Hx. eexists. rewrite (I1 p x Hp Hx). do 2 f_equal. cbn. pose proof (count0_external p Hp) as E. unfold count0 in E. rewrite Hx in E. lia.
    + apply NoDup_Permutation; [| done |].
      * apply NoDup_app. split_and!; [| |done].
        -- rewrite I2. apply NoDup_ListNoDup, List.NoDup_filter, NoDup_ListNoDup. done.
        -- intros p Hg Hp. apply Hk in Hg. apply Ht in Hp. lia.
      * intros p. rewrite elem_of_app, Hk, Ht. split; [intros [[? _]|[? _]]; done|]. intros Hp. specialize (objs_counts p Hp).
        destruct (Z.eq_dec (ext p) 0); [now right | left; split; [done | lia]].
    + intros p Hp. apply Hk in Hp. cbn. lia.
    + intros p Hp. apply Ht in Hp. cbn. lia.
    + intros p Hp. apply Hk in Hp as [Hp He]. now apply alive_root.
    + intros p Hp He. now apply Hk.
Qed.

Lemma scan_counted s inc : scan_inv s inc -> counted s (fun p => ext p + inc p).
Proof. intros H p x Hp Hx. exact (si_heap _ _ H p x Hp Hx). Qed.

Lemma alive_listed p : alive h0 objs p -> p ∈ objs.
Proof. induction 1; [done|]. now apply (objs_closed p). Qed.

(** The list is closed once every object of it was scanned. *)
Lemma scanned_alive s p :
  scan_inv s (refs (gc_obj_list s)) -> (forall q, q ∈ objs -> 0 < ext q -> q ∈ gc_obj_list s) -> alive h0 objs p -> p ∈ gc_obj_list s.
Proof.
  intros H Hroots. induction 1 as [p Hp He | p q Ha IH Hq]; [auto|].
  assert (q ∈ objs) as Hqo by (apply (objs_closed p); [now apply alive_listed | done]).
  assert (q ∈ gc_obj_list s ++ tmp_obj_list s) as Hin by now rewrite (si_perm _ _ H). apply elem_of_app in Hin as [?|Ht]; [done|].
  pose proof (si_tmp _ _ H q Ht). pose proof (references_in h0 _ q p IH Hq). pose proof (objs_counts q Hqo). lia.
Qed.
End Collection.

(** ** The objects of the heap are not changed *)

Definition same_objects (h : gmap nat JSGCObjectHeader) (s : gc_state) : Prop := forall p, is_Some (heap s !! p) <-> is_Some (h !! p).

Lemma set_object_same h s p x y : same_objects h s -> heap s !! p = Some x -> same_objects h (set_object s p y).
Proof.
  intros H Hx q. rewrite <- (H q). cbn. rewrite lookup_insert_is_Some. split; [intros [->|[_ ?]]; [eauto | done]|].
  intros Hq. destruct (decide (p = q)); [now left | now right].
Qed.

Lemma each_child_same h f : (forall s p s', f s p = Some s' -> same_objects h s -> same_objects h s') ->
  forall l s s', each_child f s l = Some s' -> same_objects h s -> same_objects h s'.
Proof.
  intros Hf. induction l as [|p l IH]; intros s s'; cbn; [now intros [= <-]|]. destruct (f s p) as [s1|] eqn:E; [|discriminate].
  cbn. intros E' H. apply (IH s1 s' E'). exact (Hf s p s1 E H).
Qed.

Lemma decref_child_same h s p s' : gc_decref_child s p = Some s' -> same_objects h s -> same_objects h s'.
Proof.
  unfold gc_decref_child. destruct (heap s !! p) as [x|] eqn:Hx; [|discriminate]. cbn. destruct (negb _); [discriminate|]. intros [= <-] H.
  destruct (_ && _); exact (set_object_same h s p x _ H Hx).
Qed.

Lemma decref_object_same h s p s' : gc_decref_object s p = Some s' -> same_objects h s -> same_objects h s'.
Proof.
  unfold gc_decref_object. destruct (heap s !! p) as [x|] eqn:Hx; [|discriminate]. cbn. destruct (mark x); [discriminate|].
  destruct (each_child _ s _) as [s1|] eqn:E; [|discriminate]. cbn. destruct (heap s1 !! p) as [y|] eqn:Hy; [|discriminate]. cbn. intros [= <-] H.
  pose proof (each_child_same h _ (decref_child_same h) _ _ _ E H) as H1. destruct (_ =? _); exact (set_object_same h s1 p y _ H1 Hy).
Qed.

Lemma incref_child_same h s p s' : gc_scan_incref_child s p = Some s' -> same_objects h s -> same_objects h s'.
Proof.
  unfold gc_scan_incref_child. destruct (heap s !! p) as [x|] eqn:Hx; [|discriminate]. cbn. intros [= <-] H. destruct (_ =? _); exact (set_object_same h s p x _ H Hx).
Qed.

Lemma scan_object_same h s p s' : gc_scan_object s p = Some s' -> same_objects h s -> same_objects h s'.
Proof.
  unfold gc_scan_object. destruct (heap s !! p) as [x|] eqn:Hx; [|discriminate]. cbn. destruct (negb _); [discriminate|]. intros E H.
  apply (each_child_same h _ (incref_child_same h) _ _ _ E). exact (set_object_same h s p x _ H Hx).
Qed.

Lemma restore_object_same h s p s' : gc_restore_object s p = Some s' -> same_objects h s -> same_objects h s'.
Proof.
  unfold gc_restore_object. destruct (heap s !! p) as [x|] eqn:Hx; [|discriminate]. cbn. apply each_child_same.
  clear. intros s p s'. unfold gc_scan_incref_child2. destruct (heap s !! p) as [x|] eqn:Hx; [|discriminate]. cbn. intros [= <-] H. exact (set_object_same h s p x _ H Hx).
Qed.

Lemma mark_phase_same fuel s s' : gc_mark_phase fuel s = Some s' -> same_objects (heap s) s'.
Proof.
  unfold gc_mark_phase, gc_decref, gc_scan. intros E. destruct (each_child gc_decref_object _ _) as [s1|] eqn:E1; [|discriminate].
  apply (each_child_same (heap s) _ (decref_object_same _)) in E1; [|done]. cbn in E. destruct (gc_scan_list fuel s1 0) as [s2|] eqn:E2; [|discriminate]. cbn in E.
  apply (each_child_same (heap s) _ (restore_object_same _)) in E; [done|]. clear E. revert s1 s2 E1 E2. generalize O as i. induction fuel as [|fuel IH]; intros i s1 s2 H; cbn [gc_scan_list];
    destruct (gc_obj_list s1 !! i) as [p|]; try discriminate; try (now intros [= <-]).
  destruct (gc_scan_object s1 p) as [s3|] eqn:E3; [|discriminate]. cbn. apply IH. exact (scan_object_same _ _ _ _ E3 H).
Qed.

(** The mark phase of the collector is exact.  On a consistent heap it
    terminates without failing an assertion, and leaves in the list of the objects
    kept exactly those that a reference from outside the heap reaches, unmarked;
    the rest is set apart to be freed, and every reference count is what it was. *)
Theorem gc_mark_phase_exact s fuel :
  gc_consistent s -> (length (gc_obj_list s) <= fuel)%nat ->
  exists s', gc_mark_phase fuel s = Some s' /\
    (forall p, p ∈ gc_obj_list s' <-> alive (heap s) (gc_obj_list s) p) /\
    gc_obj_list s' ++ tmp_obj_list s' ≡ₚ gc_obj_list s /\
    (forall p x, p ∈ gc_obj_list s -> heap s !! p = Some x ->
      exists m, heap s' !! p = Some (mk_gc (ref_count x) m (body x)) /\ (p ∈ gc_obj_list s' -> m = false)).
Proof.
  intros [Cn Ch Cc Ce] Hf. set (h0 := heap s) in *. set (objs := gc_obj_list s) in *.
  destruct (gc_decref_scan h0 objs Cn Ch Cc Ce s eq_refl eq_refl) as (s1 & E1 & H1 & R1).
  destruct (scan_list_inv h0 objs Cn Ch Cc fuel s1 0) as (s2 & E2 & H2 & K2 & M2); [done | lia | lia | lia |].
  destruct (restore_loop h0 objs Ch Cc (tmp_obj_list s2) s2 _ (scan_counted h0 objs s2 _ H2)) as (s3 & E3 & H3 & L1 & L2 & L3).
  { intros p Hp. rewrite <- (si_perm _ _ _ _ H2). apply elem_of_app. now right. }
  exists s3. split; [unfold gc_mark_phase, gc_scan; rewrite E1; cbn; rewrite E2; exact E3|]. rewrite L1, L2. split_and!.
  - intros p. split; [apply (si_alive _ _ _ _ H2)|]. apply scanned_alive; auto.
  - apply (si_perm _ _ _ _ H2).
  - intros p x Hp Hx. destruct (H3 p x Hp Hx) as [m Hm]. exists m. split.
    + rewrite Hm. do 2 f_equal. rewrite <- Z.add_assoc, <- references_app, (references_perm _ _ _ _ (si_perm _ _ _ _ H2)).
      unfold external. fold h0 in Hx. rewrite Hx. lia.
    + intros Hk. exact (L3 p (M2 p Hk) _ Hm).
Qed.

(** An object and its shape that a local variable reaches, and a cycle of two
    objects of the same shape that also refers to the first. *)
Definition small_heap : gc_state :=
  mk_gc_state
    (<[0%nat := mk_gc 2 false (JS_GC_OBJ_TYPE_JS_OBJECT 1 [JS_PROP_NORMAL GcOther; JS_PROP_GETSET None (Some 0%nat)] [])]>
     (<[1%nat := mk_gc 3 false (JS_GC_OBJ_TYPE_SHAPE None)]>
      (<[2%nat := mk_gc 1 false (JS_GC_OBJ_TYPE_JS_OBJECT 1 [JS_PROP_NORMAL (GcPointer 3)] [])]>
       (<[3%nat := mk_gc 1 false (JS_GC_OBJ_TYPE_JS_OBJECT 1 [JS_PROP_NORMAL (GcPointer 2)] [])]> ∅))))
    [2; 1; 0; 3]%nat [].

Lemma closed_check h l :
  forallb (fun p => forallb (fun q => bool_decide (q ∈ l)) (children_of h p)) l = true -> forall p q, p ∈ l -> q ∈ children_of h p -> q ∈ l.
Proof.
  rewrite forallb_forall. intros H p q Hp Hq. apply list_elem_of_In in Hp, Hq. specialize (H p Hp).
  rewrite forallb_forall in H. exact (bool_decide_eq_true_1 _ (H q Hq)).
Qed.

Lemma small_heap_consistent : gc_consistent small_heap.
Proof.
  split.
  - apply NoDup_ListNoDup. repeat constructor; cbn; lia.
  - intros p Hp. repeat (apply elem_of_cons in Hp as [->|Hp]; [eexists; split; [reflexivity | reflexivity]|]). now apply elem_of_nil in Hp.
  - now apply closed_check.
  - intros p Hp. repeat (apply elem_of_cons in Hp as [->|Hp]; [vm_compute; discriminate|]). now apply elem_of_nil in Hp.
Qed.
