(* ===== verification/GcFree.v ===== *)
(** * Freeing objects

    Reference counting and the last phase of the cycle collector of
    [src/core/quickjs.c]: [__JS_FreeValueRT] (6027), [free_zero_refcount] (6009),
    [free_object] (5935) with the functions that free the other kinds of objects,
    and [gc_free_cycles] (6351), over the heap of [Gc].  A freed structure leaves
    the heap, and an access to it, a second [js_free_rt] or a failed [assert] is
    [None].  The finalizer of a class drops the references that its [gc_mark]
    reports.  Strings and the other values outside of the collector are not
    modelled, nor are weak references: [weakref_count] is 0. *)

From Stdlib Require Import ZArith Lia Bool.
From stdpp Require Import base numbers list option gmap.
From S2P Require Import Prelude Gc.

#[local] Open Scope Z_scope.

Inductive JSGCPhaseEnum : Type := JS_GC_PHASE_NONE | JS_GC_PHASE_DECREF | JS_GC_PHASE_REMOVE_CYCLES.

#[export] Instance phase_eq_dec : EqDecision JSGCPhaseEnum.
Proof. solve_decision. Defined.

Record gc_runtime : Type := mk_gc_runtime {
  gc : gc_state;
  gc_zero_ref_count_list : list nat;
  gc_phase : JSGCPhaseEnum;
}.

Definition with_phase (r : gc_runtime) (ph : JSGCPhaseEnum) : gc_runtime := mk_gc_runtime (gc r) (gc_zero_ref_count_list r) ph.
Definition with_heap (r : gc_runtime) (h : gmap nat JSGCObjectHeader) : gc_runtime :=
  mk_gc_runtime (mk_gc_state h (gc_obj_list (gc r)) (tmp_obj_list (gc r))) (gc_zero_ref_count_list r) (gc_phase r).

Definition put_object (r : gc_runtime) (p : nat) (x : JSGCObjectHeader) : gc_runtime := with_heap r (<[p := x]> (heap (gc r))).

(** [list_del], whichever list the object is on. *)
Definition list_del (r : gc_runtime) (p : nat) : gc_runtime :=
  mk_gc_runtime (mk_gc_state (heap (gc r)) (unlink p (gc_obj_list (gc r))) (unlink p (tmp_obj_list (gc r))))
    (unlink p (gc_zero_ref_count_list r)) (gc_phase r).

Definition add_zero_first (r : gc_runtime) (p : nat) : gc_runtime := mk_gc_runtime (gc r) (p :: gc_zero_ref_count_list r) (gc_phase r).
Definition add_zero_last (r : gc_runtime) (p : nat) : gc_runtime := mk_gc_runtime (gc r) (gc_zero_ref_count_list r ++ [p]) (gc_phase r).

Definition js_free_rt (r : gc_runtime) (p : nat) : option gc_runtime :=
  _ ← heap (gc r) !! p; Some (with_heap r (delete p (heap (gc r)))).

(** A loop of calls. *)
Fixpoint for_each {A} (f : gc_runtime -> A -> option gc_runtime) (r : gc_runtime) (l : list A) : option gc_runtime :=
  match l with a :: l => r ← f r a; for_each f r l | [] => Some r end.

Definition for_some {A} (f : gc_runtime -> A -> option gc_runtime) (r : gc_runtime) (o : option A) : option gc_runtime :=
  match o with Some a => f r a | None => Some r end.

Section Freeing.
(** The call of [free_zero_refcount] outside of any phase. *)
Context (free_zero : gc_runtime -> option gc_runtime).

(** [--p->ref_count] *)
Definition decrement (r : gc_runtime) (p : nat) : option (Z * gc_runtime) :=
  x ← heap (gc r) !! p;
  Some (ref_count x - 1, put_object r p (mk_gc (ref_count x - 1) (mark x) (body x))).

(** [__JS_FreeValueRT] on an object *)
Definition free_value_object (r : gc_runtime) (p : nat) : option gc_runtime :=
  if bool_decide (gc_phase r = JS_GC_PHASE_REMOVE_CYCLES) then Some r
  else
    x ← heap (gc r) !! p;
    let r := put_object (add_zero_first (list_del r p) p) p (mk_gc (ref_count x) true (body x)) in
    if bool_decide (gc_phase r = JS_GC_PHASE_NONE) then free_zero r else Some r.

Definition free_pointer (r : gc_runtime) (p : nat) : option gc_runtime :=
  '(n, r) ← decrement r p;
  if n <=? 0 then free_value_object r p else Some r.

Definition JS_FreeValueRT (r : gc_runtime) (v : gc_value) : option gc_runtime :=
  match v with GcPointer p => free_pointer r p | GcOther => Some r end.

Definition js_free_shape0 (r : gc_runtime) (sh : nat) : option gc_runtime :=
  x ← heap (gc r) !! sh;
  if negb (ref_count x =? 0) then None
  else
    match body x with
    | JS_GC_OBJ_TYPE_SHAPE proto => r ← for_some free_pointer r proto; js_free_rt (list_del r sh) sh
    | _ => None
    end.

Definition js_free_shape (r : gc_runtime) (sh : nat) : option gc_runtime :=
  '(n, r) ← decrement r sh;
  if n <=? 0 then js_free_shape0 r sh else Some r.

Definition async_func_free (r : gc_runtime) (p : nat) : option gc_runtime :=
  '(n, r) ← decrement r p;
  if n =? 0 then
    if bool_decide (gc_phase r = JS_GC_PHASE_REMOVE_CYCLES) then Some r
    else
      let r := add_zero_first (list_del r p) p in
      if bool_decide (gc_phase r = JS_GC_PHASE_NONE) then free_zero r else Some r
  else Some r.

(** The table of the open variables of a stack frame is not part of the heap:
    neither is [sf->var_refs[idx] = NULL], nor the [assert] that the entry is
    [var_ref]. *)
Definition free_var_ref (r : gc_runtime) (p : nat) : option gc_runtime :=
  x ← heap (gc r) !! p;
  if negb (0 <? ref_count x) then None
  else
    '(n, r) ← decrement r p;
    if n =? 0 then
      match body x with
      | JS_GC_OBJ_TYPE_VAR_REF is_detached value async_func =>
          r ← (if is_detached then JS_FreeValueRT r value else for_some async_func_free r async_func);
          js_free_rt (list_del r p) p
      | _ => None
      end
    else Some r.

(** [loaded_modules] of the context [ctx] becomes [modules]. *)
Definition set_modules (r : gc_runtime) (ctx : nat) (modules : list nat) : option gc_runtime :=
  x ← heap (gc r) !! ctx;
  match body x with
  | JS_GC_OBJ_TYPE_JS_CONTEXT _ values shapes =>
      Some (put_object r ctx (mk_gc (ref_count x) (mark x) (JS_GC_OBJ_TYPE_JS_CONTEXT modules values shapes)))
  | _ => None
  end.

Fixpoint js_free_modules (r : gc_runtime) (ctx : nat) (modules : list nat) : option gc_runtime :=
  match modules with
  | [] => Some r
  | m :: modules =>
      r ← set_modules r ctx modules;
      r ← free_pointer r m;
      js_free_modules r ctx modules
  end.

Definition JS_FreeContext (r : gc_runtime) (ctx : nat) : option gc_runtime :=
  '(n, r) ← decrement r ctx;
  if 0 <? n then Some r
  else if negb (n =? 0) then None
  else
    x ← heap (gc r) !! ctx;
    match body x with
    | JS_GC_OBJ_TYPE_JS_CONTEXT loaded_modules values shapes =>
        r ← js_free_modules r ctx loaded_modules;
        r ← for_each JS_FreeValueRT r values;
        r ← for_each (for_some js_free_shape) r shapes;
        js_free_rt (list_del r ctx) ctx
    | _ => None
    end.

Definition free_property (r : gc_runtime) (pr : JSProperty) : option gc_runtime :=
  match pr with
  | JS_PROP_GETSET getter setter => r ← for_some free_pointer r getter; for_some free_pointer r setter
  | JS_PROP_VARREF var_ref => free_var_ref r var_ref
  | JS_PROP_AUTOINIT realm => JS_FreeContext r realm
  | JS_PROP_NORMAL v => JS_FreeValueRT r v
  | JS_ATOM_NULL => Some r
  end.

(** A reference that a finalizer drops, by the kind of what it refers to. *)
Definition free_reference (r : gc_runtime) (p : nat) : option gc_runtime :=
  x ← heap (gc r) !! p;
  match body x with
  | JS_GC_OBJ_TYPE_JS_OBJECT _ _ _ | JS_GC_OBJ_TYPE_FUNCTION_BYTECODE _ _ | JS_GC_OBJ_TYPE_MODULE _ _ _ => free_pointer r p
  | JS_GC_OBJ_TYPE_VAR_REF _ _ _ => free_var_ref r p
  | JS_GC_OBJ_TYPE_ASYNC_FUNCTION _ _ _ _ _ _ => async_func_free r p
  | JS_GC_OBJ_TYPE_SHAPE _ => js_free_shape r p
  | JS_GC_OBJ_TYPE_JS_CONTEXT _ _ _ => JS_FreeContext r p
  end.

(** The end of the functions that free an object: the structure is kept when
    references to it are left in the cycle. *)
Definition free_structure (r : gc_runtime) (p : nat) : option gc_runtime :=
  let r := list_del r p in
  x ← heap (gc r) !! p;
  if bool_decide (gc_phase r = JS_GC_PHASE_REMOVE_CYCLES) && negb (ref_count x =? 0) then Some (add_zero_last r p)
  else js_free_rt r p.

Definition free_object (r : gc_runtime) (p shape : nat) (prop : list JSProperty) (class_mark : list nat) : option gc_runtime :=
  r ← for_each free_property r prop;
  r ← js_free_shape r shape;
  r ← for_each free_reference r class_mark;
  free_structure r p.

Definition free_function_bytecode (r : gc_runtime) (p : nat) (cpool : list gc_value) (realm : option nat) : option gc_runtime :=
  r ← for_each JS_FreeValueRT r cpool;
  r ← for_some JS_FreeContext r realm;
  free_structure r p.

(** A running function, whose stack pointer is [NULL], is not freed. *)
Definition async_func_free_frame (r : gc_runtime) (cur_func this_val : gc_value) (stack : option (list gc_value)) : option gc_runtime :=
  values ← stack;
  r ← for_each JS_FreeValueRT r values;
  r ← JS_FreeValueRT r cur_func;
  JS_FreeValueRT r this_val.

Definition __async_func_free (r : gc_runtime) (p : nat) (is_completed : bool) (cur_func this_val : gc_value) (stack : option (list gc_value))
    (resolving0 resolving1 : gc_value) : option gc_runtime :=
  r ← (if is_completed then Some r else async_func_free_frame r cur_func this_val stack);
  r ← JS_FreeValueRT r resolving0;
  r ← JS_FreeValueRT r resolving1;
  free_structure r p.

(** [list_del(&m->link)], if a context still lists the module. *)
Definition drop_module (m : nat) (x : JSGCObjectHeader) : JSGCObjectHeader :=
  match body x with
  | JS_GC_OBJ_TYPE_JS_CONTEXT modules values shapes => mk_gc (ref_count x) (mark x) (JS_GC_OBJ_TYPE_JS_CONTEXT (unlink m modules) values shapes)
  | _ => x
  end.

Definition js_free_module_def (r : gc_runtime) (m : nat) (attributes : list gc_value) (var_refs : list (option nat)) (values : list gc_value)
    : option gc_runtime :=
  r ← for_each JS_FreeValueRT r attributes;
  r ← for_each (for_some free_var_ref) r var_refs;
  r ← for_each JS_FreeValueRT r values;
  free_structure (with_heap r (drop_module m <$> heap (gc r))) m.

Definition free_gc_object (r : gc_runtime) (p : nat) : option gc_runtime :=
  x ← heap (gc r) !! p;
  match body x with
  | JS_GC_OBJ_TYPE_JS_OBJECT shape prop class_mark => free_object r p shape prop class_mark
  | JS_GC_OBJ_TYPE_FUNCTION_BYTECODE cpool realm => free_function_bytecode r p cpool realm
  | JS_GC_OBJ_TYPE_ASYNC_FUNCTION is_completed cur_func this_val stack resolving0 resolving1 =>
      __async_func_free r p is_completed cur_func this_val stack resolving0 resolving1
  | JS_GC_OBJ_TYPE_MODULE attributes var_refs values => js_free_module_def r p attributes var_refs values
  | _ => None
  end.
End Freeing.

(** ** The loops *)

(** [free_zero_refcount]; inside of its loop the phase is [JS_GC_PHASE_DECREF], in
    which the functions above do not call it again. *)
Fixpoint free_zero_loop (fuel : nat) (r : gc_runtime) : option gc_runtime :=
  match gc_zero_ref_count_list r with
  | [] => Some r
  | p :: _ =>
      match fuel with
      | O => None
      | S fuel =>
          let nested r := r ← free_zero_loop fuel (with_phase r JS_GC_PHASE_DECREF); Some (with_phase r JS_GC_PHASE_NONE) in
          x ← heap (gc r) !! p;
          if negb (ref_count x =? 0) then None
          else r ← free_gc_object nested r p; free_zero_loop fuel r
      end
  end.

Definition free_zero_refcount (fuel : nat) (r : gc_runtime) : option gc_runtime :=
  r ← free_zero_loop fuel (with_phase r JS_GC_PHASE_DECREF);
  Some (with_phase r JS_GC_PHASE_NONE).

(** [JS_FreeValue] *)
Definition JS_FreeValue (fuel : nat) (r : gc_runtime) (v : gc_value) : option gc_runtime := JS_FreeValueRT (free_zero_refcount fuel) r v.

(** Whether [gc_free_cycles] frees objects of this kind itself, and keeps their
    structure while references to it are left. *)
Definition frees_kind (b : gc_body) : bool :=
  match b with
  | JS_GC_OBJ_TYPE_JS_OBJECT _ _ _ | JS_GC_OBJ_TYPE_FUNCTION_BYTECODE _ _ | JS_GC_OBJ_TYPE_ASYNC_FUNCTION _ _ _ _ _ _
  | JS_GC_OBJ_TYPE_MODULE _ _ _ => true
  | _ => false
  end.

Fixpoint free_tmp_loop (fuel : nat) (r : gc_runtime) : option gc_runtime :=
  match tmp_obj_list (gc r) with
  | [] => Some r
  | p :: _ =>
      match fuel with
      | O => None
      | S fuel =>
          x ← heap (gc r) !! p;
          r ← (if frees_kind (body x) then free_gc_object (free_zero_refcount fuel) r p else Some (add_zero_last (list_del r p) p));
          free_tmp_loop fuel r
      end
  end.

Definition free_kept_structure (r : gc_runtime) (p : nat) : option gc_runtime :=
  x ← heap (gc r) !! p;
  if frees_kind (body x) then js_free_rt r p else None.

Definition gc_free_cycles (fuel : nat) (r : gc_runtime) : option gc_runtime :=
  r ← free_tmp_loop fuel (with_phase r JS_GC_PHASE_REMOVE_CYCLES);
  let r := with_phase r JS_GC_PHASE_NONE in
  r ← for_each free_kept_structure r (gc_zero_ref_count_list r);
  Some (mk_gc_runtime (gc r) [] (gc_phase r)).

(** Without weak references [gc_remove_weak_objects] does nothing. *)
Definition JS_RunGC (fuel : nat) (r : gc_runtime) : option gc_runtime :=
  s ← gc_mark_phase fuel (gc r);
  gc_free_cycles fuel (mk_gc_runtime s (gc_zero_ref_count_list r) (gc_phase r)).
