(* ===== verification/GcFreeInv.v ===== *)
(** * The accounts of the references

    While objects are freed, a count is the references from outside, those from
    the objects that were not freed yet, and those that the object being freed
    has still to drop.  Every step of [GcFree] keeps this. *)

From Stdlib Require Import ZArith Lia Bool.
From stdpp Require Import base numbers list option gmap.
From S2P Require Import Prelude Gc GcSpec GcFree.

#[local] Open Scope Z_scope.

(** ** Kinds *)

Inductive gc_kind : Type := KObject | KBytecode | KVarRef | KAsync | KShape | KContext | KModule.

#[export] Instance kind_eq_dec : EqDecision gc_kind.
Proof. solve_decision. Defined.

Definition kind_of (b : gc_body) : gc_kind :=
  match b with
  | JS_GC_OBJ_TYPE_JS_OBJECT _ _ _ => KObject
  | JS_GC_OBJ_TYPE_FUNCTION_BYTECODE _ _ => KBytecode
  | JS_GC_OBJ_TYPE_VAR_REF _ _ _ => KVarRef
  | JS_GC_OBJ_TYPE_ASYNC_FUNCTION _ _ _ _ _ _ => KAsync
  | JS_GC_OBJ_TYPE_SHAPE _ => KShape
  | JS_GC_OBJ_TYPE_JS_CONTEXT _ _ _ => KContext
  | JS_GC_OBJ_TYPE_MODULE _ _ _ => KModule
  end.

(** The kinds that values point to, and those whose structure outlives them in a
    cycle. *)
Definition is_value_kind (k : gc_kind) : bool := match k with KObject | KBytecode | KModule => true | _ => false end.
Definition is_kept_kind (k : gc_kind) : bool := match k with KObject | KBytecode | KModule | KAsync => true | _ => false end.

Lemma frees_kind_spec b : frees_kind b = is_kept_kind (kind_of b).
Proof. now destruct b. Qed.

Section Kinds.
Context (kind : nat -> gc_kind).

Definition to_value (v : gc_value) : Prop := match v with GcPointer p => is_value_kind (kind p) = true | GcOther => True end.
Definition to_kind (k : gc_kind) (o : option nat) : Prop := match o with Some p => kind p = k | None => True end.
Definition to_object (o : option nat) : Prop := match o with Some p => is_value_kind (kind p) = true | None => True end.

Definition property_kinds (pr : JSProperty) : Prop :=
  match pr with
  | JS_ATOM_NULL => True
  | JS_PROP_NORMAL v => to_value v
  | JS_PROP_GETSET getter setter => to_object getter /\ to_object setter
  | JS_PROP_VARREF p => kind p = KVarRef
  | JS_PROP_AUTOINIT p => kind p = KContext
  end.

(** Each pointer of an object has the type of its field. *)
Definition body_kinds (b : gc_body) : Prop :=
  match b with
  | JS_GC_OBJ_TYPE_JS_OBJECT shape prop class_mark => kind shape = KShape /\ Forall property_kinds prop
  | JS_GC_OBJ_TYPE_FUNCTION_BYTECODE cpool realm => Forall to_value cpool /\ to_kind KContext realm
  | JS_GC_OBJ_TYPE_VAR_REF _ value async_func => to_value value /\ to_kind KAsync async_func
  | JS_GC_OBJ_TYPE_ASYNC_FUNCTION _ cur_func this_val stack resolving0 resolving1 =>
      to_value cur_func /\ to_value this_val /\ Forall to_value (from_option (fun l => l) [] stack) /\ to_value resolving0 /\ to_value resolving1
  | JS_GC_OBJ_TYPE_SHAPE proto => to_object proto
  | JS_GC_OBJ_TYPE_JS_CONTEXT loaded_modules values shapes =>
      Forall (fun p => kind p = KModule) loaded_modules /\ Forall to_value values /\ Forall (to_kind KShape) shapes
  | JS_GC_OBJ_TYPE_MODULE attributes var_refs values => Forall to_value attributes /\ Forall (to_kind KVarRef) var_refs /\ Forall to_value values
  end.
End Kinds.

(** A function that runs, whose stack pointer is [NULL]. *)
Definition is_running (b : gc_body) : bool :=
  match b with JS_GC_OBJ_TYPE_ASYNC_FUNCTION false _ _ None _ _ => true | _ => false end.

(** ** References *)

Lemma occurrences_app p l l' : occurrences p (l ++ l') = occurrences p l + occurrences p l'.
Proof. induction l as [|q l IH]; cbn; lia. Qed.

Lemma occurrences_perm p l l' : l ≡ₚ l' -> occurrences p l = occurrences p l'.
Proof. induction 1; cbn; lia. Qed.

Lemma references_same h h' l p : (forall q, q ∈ l -> children_of h' q = children_of h q) -> references h' l p = references h l p.
Proof.
  induction l as [|q l IH]; intros H; cbn; [done|]. rewrite (H q) by apply list_elem_of_here. rewrite IH; [done|]. intros x Hx. apply H. now apply list_elem_of_further.
Qed.

Lemma references_le h h' l p : (forall q, q ∈ l -> occurrences p (children_of h' q) <= occurrences p (children_of h q)) -> references h' l p <= references h l p.
Proof.
  induction l as [|q l IH]; intros H; cbn; [done|]. pose proof (H q (list_elem_of_here _ _)).
  assert (references h' l p <= references h l p) by (apply IH; intros x Hx; apply H; now apply list_elem_of_further). lia.
Qed.

Lemma unlink_perm p l : NoDup l -> p ∈ l -> l ≡ₚ p :: unlink p l.
Proof.
  induction l as [|q l IH]; intros Hnd Hp; [now apply elem_of_nil in Hp|]. apply NoDup_cons in Hnd as [Hq Hnd]. unfold unlink. cbn.
  destruct (Nat.eqb_spec q p) as [->|Hne]; cbn.
  - fold (unlink p l). now rewrite unlink_absent.
  - fold (unlink p l). apply elem_of_cons in Hp as [Hp|Hp]; [congruence|]. rewrite (IH Hnd Hp) at 1. apply perm_swap.
Qed.

Lemma unlink_NoDup p l : NoDup l -> NoDup (unlink p l).
Proof. intros H. apply NoDup_ListNoDup. unfold unlink. apply List.NoDup_filter. now apply NoDup_ListNoDup. Qed.

Lemma unlink_length p l : NoDup l -> p ∈ l -> length l = S (length (unlink p l)).
Proof. intros Hnd Hp. exact (Permutation_length (unlink_perm p l Hnd Hp)). Qed.

Lemma unlink_length_le p l : (length (unlink p l) <= length l)%nat.
Proof. unfold unlink. apply List.filter_length_le. Qed.

Lemma references_out h l p q : NoDup l -> q ∈ l -> references h l p = occurrences p (children_of h q) + references h (unlink q l) p.
Proof. intros Hnd Hq. rewrite (references_perm _ _ _ p (unlink_perm q l Hnd Hq)). done. Qed.

(** ** The accounts *)

Section Accounts.
Context (ext : nat -> Z) (ext_nonneg : forall p, 0 <= ext p) (kind : nat -> gc_kind).

(** [hs] are the objects that hold their references; [pend] are references to be
    dropped. *)
Record accounts (h : gmap nat JSGCObjectHeader) (hs pend : list nat) : Prop := mk_accounts {
  ac_nodup : NoDup hs;
  ac_holder : forall p, p ∈ hs -> exists x, h !! p = Some x /\ ref_count x = ext p + references h hs p + occurrences p pend;
  ac_present : forall p, 0 < references h hs p + occurrences p pend -> is_Some (h !! p);
  ac_freed : forall p x, h !! p = Some x -> p ∉ hs -> references h hs p + occurrences p pend <= ref_count x;
  ac_kind : forall p x, h !! p = Some x -> kind_of (body x) = kind p;
  ac_kinds : forall p x, p ∈ hs -> h !! p = Some x -> body_kinds kind (body x) /\ (is_running (body x) = true -> 0 < ext p);
}.

Lemma accounts_perm h hs pend pend' : pend ≡ₚ pend' -> accounts h hs pend -> accounts h hs pend'.
Proof.
  intros E [A1 A2 A3 A4 A5 A6]. assert (forall p, occurrences p pend' = occurrences p pend) as Ep by (intros p; symmetry; now apply occurrences_perm).
  split; try done; intros p; rewrite ?Ep; auto.
Qed.

Lemma children_insert h p x q : children_of (<[p := x]> h) q = if decide (q = p) then mark_children (body x) else children_of h q.
Proof. unfold children_of. destruct (decide (q = p)) as [->|Hne]; [now rewrite lookup_insert_eq | now rewrite lookup_insert_ne]. Qed.

(** The count and the mark of an object change. *)
Lemma references_count h l p x n m q : h !! p = Some x -> references (<[p := mk_gc n m (body x)]> h) l q = references h l q.
Proof.
  intros Hx. apply references_same. intros c _. rewrite children_insert. destruct (decide (c = p)) as [->|]; [|done]. unfold children_of. now rewrite Hx.
Qed.

(** One reference is dropped. *)
Lemma accounts_drop h hs q pend : accounts h hs (q :: pend) ->
  exists x, h !! q = Some x /\ 1 <= ref_count x /\ kind_of (body x) = kind q /\
    forall m, accounts (<[q := mk_gc (ref_count x - 1) m (body x)]> h) hs pend.
Proof.
  intros [A1 A2 A3 A4 A5 A6]. assert (0 < references h hs q + occurrences q (q :: pend)) as Hq.
  { cbn. rewrite Nat.eqb_refl. pose proof (references_nonneg h hs q). pose proof (occurrences_nonneg q pend). lia. }
  destruct (A3 q Hq) as [x Hx]. exists x. split; [done|]. cbn in Hq. rewrite Nat.eqb_refl in Hq. split; [|split; [now apply A5|]].
  { destruct (decide (q ∈ hs)) as [Hin|Hnin].
    - destruct (A2 q Hin) as (x' & Hx' & E). rewrite Hx in Hx'. injection Hx' as <-. cbn in E. rewrite Nat.eqb_refl in E. pose proof (ext_nonneg q).
      pose proof (references_nonneg h hs q). pose proof (occurrences_nonneg q pend). lia.
    - pose proof (A4 q x Hx Hnin) as E. cbn in E. rewrite Nat.eqb_refl in E. pose proof (references_nonneg h hs q). pose proof (occurrences_nonneg q pend). lia. }
  intros m. split; try done.
  - intros p Hp. destruct (A2 p Hp) as (y & Hy & E). rewrite (references_count h hs q x) by done. cbn in E. destruct (Nat.eqb_spec q p) as [->|Hne].
    + rewrite Hx in Hy. injection Hy as <-. eexists. split; [apply lookup_insert_eq|]. cbn. lia.
    + exists y. rewrite lookup_insert_ne by done. split; [done | lia].
  - intros p Hp. rewrite (references_count h hs q x) in Hp by done. destruct (decide (p = q)) as [->|Hne]; [rewrite lookup_insert_eq; eauto|].
    rewrite lookup_insert_ne by congruence. apply A3. cbn. destruct (q =? p)%nat; lia.
  - intros p y Hy Hp. rewrite (references_count h hs q x) by done. apply lookup_insert_Some in Hy as [[<- <-]|[Hne Hy]].
    + pose proof (A4 q x Hx Hp) as E. cbn in E. rewrite Nat.eqb_refl in E. cbn. lia.
    + pose proof (A4 p y Hy Hp) as E. cbn in E. destruct (Nat.eqb_spec q p); [congruence | lia].
  - intros p y Hy. apply lookup_insert_Some in Hy as [[<- <-]|[_ Hy]]; [exact (A5 _ x Hx) | eauto].
  - intros p y Hp Hy. apply lookup_insert_Some in Hy as [[<- <-]|[_ Hy]]; [exact (A6 _ x Hp Hx) | eauto].
Qed.

(** An object starts to drop its references. *)
Lemma accounts_release h hs pend p : accounts h hs pend -> p ∈ hs -> accounts h (unlink p hs) (children_of h p ++ pend).
Proof.
  intros [A1 A2 A3 A4 A5 A6] Hp. assert (forall q, references h (unlink p hs) q + occurrences q (children_of h p ++ pend) = references h hs q + occurrences q pend) as E.
  { intros q. rewrite (references_out h hs q p A1 Hp), occurrences_app. lia. }
  split.
  - now apply unlink_NoDup.
  - intros q Hq. apply unlink_elem in Hq as [Hq _]. destruct (A2 q Hq) as (x & Hx & Ex). exists x. split; [done|]. specialize (E q). lia.
  - intros q Hq. apply A3. rewrite <- E. done.
  - intros q x Hx Hq. rewrite E. destruct (decide (q ∈ hs)) as [Hin|Hnin]; [|now apply A4]. destruct (A2 q Hin) as (x' & Hx' & Ex). rewrite Hx in Hx'. injection Hx' as <-.
    pose proof (ext_nonneg q). lia.
  - done.
  - intros q x Hq. apply unlink_elem in Hq as [Hq _]. now apply A6.
Qed.

(** The structure of an object without references is freed. *)
Lemma accounts_delete h hs pend p x : accounts h hs pend -> p ∉ hs -> h !! p = Some x -> ref_count x = 0 -> accounts (delete p h) hs pend.
Proof.
  intros [A1 A2 A3 A4 A5 A6] Hp Hx E0.
  assert (forall q, references (delete p h) hs q = references h hs q) as E.
  { intros q. apply references_same. intros c Hc. unfold children_of. rewrite lookup_delete_ne; [done|]. intros <-. done. }
  split; try done.
  - intros q Hq. rewrite E. destruct (A2 q Hq) as (y & Hy & Ey). exists y. rewrite lookup_delete_ne; [done|]. intros <-. done.
  - intros q Hq. rewrite E in Hq. rewrite lookup_delete_ne; [now apply A3|]. intros <-. pose proof (A4 p x Hx Hp). lia.
  - intros q y Hy Hq. rewrite E. apply lookup_delete_Some in Hy as [_ Hy]. now apply A4.
  - intros q y Hy. apply lookup_delete_Some in Hy as [_ Hy]. eauto.
  - intros q y Hq Hy. apply lookup_delete_Some in Hy as [_ Hy]. eauto.
Qed.

(** The fields of an object that holds nothing any more. *)
Lemma accounts_body h hs pend p x m b : accounts h hs pend -> p ∉ hs -> h !! p = Some x -> kind_of b = kind_of (body x) -> accounts (<[p := mk_gc (ref_count x) m b]> h) hs pend.
Proof.
  intros [A1 A2 A3 A4 A5 A6] Hp Hx Hk.
  assert (forall q, references (<[p := mk_gc (ref_count x) m b]> h) hs q = references h hs q) as E.
  { intros q. apply references_same. intros c Hc. rewrite children_insert. destruct (decide (c = p)) as [->|]; done. }
  split; try done.
  - intros q Hq. rewrite E. destruct (A2 q Hq) as (y & Hy & Ey). exists y. rewrite lookup_insert_ne; [done|]. intros <-. done.
  - intros q Hq. rewrite E in Hq. destruct (decide (q = p)) as [->|]; [rewrite lookup_insert_eq; eauto | rewrite lookup_insert_ne by done; now apply A3].
  - intros q y Hy Hq. rewrite E. apply lookup_insert_Some in Hy as [[<- <-]|[_ Hy]]; [exact (A4 _ x Hx Hq) | now apply A4].
  - intros q y Hy. apply lookup_insert_Some in Hy as [[<- <-]|[_ Hy]]; [cbn; rewrite Hk; exact (A5 _ x Hx) | eauto].
  - intros q y Hq Hy. apply lookup_insert_Some in Hy as [[<- <-]|[_ Hy]]; [done | eauto].
Qed.

(** A mark *)
Lemma accounts_mark h hs pend p x m : accounts h hs pend -> h !! p = Some x -> accounts (<[p := mk_gc (ref_count x) m (body x)]> h) hs pend.
Proof.
  intros [A1 A2 A3 A4 A5 A6] Hx.
  split; try done.
  - intros q Hq. rewrite (references_count h hs p x) by done. destruct (A2 q Hq) as (y & Hy & Ey). destruct (decide (q = p)) as [->|].
    + rewrite Hx in Hy. injection Hy as <-. eexists. split; [apply lookup_insert_eq | done].
    + exists y. rewrite lookup_insert_ne by done. done.
  - intros q Hq. rewrite (references_count h hs p x) in Hq by done. destruct (decide (q = p)) as [->|]; [rewrite lookup_insert_eq; eauto | rewrite lookup_insert_ne by done; now apply A3].
  - intros q y Hy Hq. rewrite (references_count h hs p x) by done. apply lookup_insert_Some in Hy as [[<- <-]|[_ Hy]]; [exact (A4 _ x Hx Hq) | now apply A4].
  - intros q y Hy. apply lookup_insert_Some in Hy as [[<- <-]|[_ Hy]]; [exact (A5 _ x Hx) | eauto].
  - intros q y Hq Hy. apply lookup_insert_Some in Hy as [[<- <-]|[_ Hy]]; [exact (A6 _ x Hq Hx) | eauto].
Qed.

(** A module is taken off the lists of the contexts. *)
Lemma children_drop m h q : children_of (drop_module m <$> h) q =
  match h !! q with Some x => mark_children (body (drop_module m x)) | None => [] end.
Proof. unfold children_of. rewrite lookup_fmap. now destruct (h !! q). Qed.

Lemma occurrences_unlink m l p : occurrences p (unlink m l) = if decide (p = m) then 0 else occurrences p l.
Proof.
  induction l as [|q l IH]; cbn; [now destruct (decide _)|]. unfold unlink in *. cbn. destruct (Nat.eqb_spec q m) as [->|Hne]; cbn.
  - rewrite IH. destruct (decide (p = m)) as [->|]; [done|]. destruct (Nat.eqb_spec m p); [congruence | lia].
  - rewrite IH. destruct (decide (p = m)) as [->|]; [|done]. destruct (Nat.eqb_spec q m); [congruence | lia].
Qed.

Lemma drop_module_children m x p : p <> m -> occurrences p (mark_children (body (drop_module m x))) = occurrences p (mark_children (body x)).
Proof.
  intros Hne. unfold drop_module. destruct (body x) as [| | | | |modules values shapes|] eqn:E; rewrite ?E; try done. cbn. unfold JS_MarkContext.
  rewrite !occurrences_app, occurrences_unlink, decide_False by done. done.
Qed.

Lemma drop_module_le m x p : occurrences p (mark_children (body (drop_module m x))) <= occurrences p (mark_children (body x)).
Proof.
  unfold drop_module. destruct (body x) as [| | | | |modules values shapes|] eqn:E; rewrite ?E; try done. cbn. unfold JS_MarkContext.
  rewrite !occurrences_app, occurrences_unlink. destruct (decide (p = m)); [|done]. pose proof (occurrences_nonneg p modules). lia.
Qed.

Lemma drop_module_header m x : ref_count (drop_module m x) = ref_count x /\ mark (drop_module m x) = mark x /\ kind_of (body (drop_module m x)) = kind_of (body x).
Proof. unfold drop_module. destruct (body x) eqn:E; rewrite ?E; done. Qed.

Lemma drop_module_kinds m x : body_kinds kind (body x) -> body_kinds kind (body (drop_module m x)).
Proof.
  unfold drop_module. destruct (body x) as [| | | | |modules values shapes|] eqn:E; rewrite ?E; try done. cbn. intros (H1 & H2 & H3). split_and!; [|done|done].
  rewrite Forall_forall in *. intros p Hp. apply unlink_elem in Hp as [Hp _]. auto.
Qed.

Lemma drop_module_running m x : is_running (body (drop_module m x)) = is_running (body x).
Proof. unfold drop_module. destruct (body x) eqn:E; rewrite ?E; done. Qed.

Lemma accounts_drop_module h hs pend m : accounts h hs pend -> m ∉ hs -> accounts (drop_module m <$> h) hs pend.
Proof.
  intros [A1 A2 A3 A4 A5 A6] Hm.
  assert (forall p, p <> m -> references (drop_module m <$> h) hs p = references h hs p) as E.
  { intros p Hne. clear -Hne. induction hs as [|q l IH]; cbn; [done|]. rewrite IH. f_equal. rewrite children_drop. unfold children_of. destruct (h !! q); [now apply drop_module_children | done]. }
  assert (forall p, references (drop_module m <$> h) hs p <= references h hs p) as Ele.
  { intros p. apply references_le. intros q _. rewrite children_drop. unfold children_of. destruct (h !! q); [apply drop_module_le | done]. }
  split; try done.
  - intros p Hp. rewrite E by (intros ->; done). destruct (A2 p Hp) as (x & Hx & Ex). exists (drop_module m x). rewrite lookup_fmap, Hx. split; [done|].
    now rewrite (proj1 (drop_module_header m x)).
  - intros p Hp. rewrite lookup_fmap. specialize (Ele p). destruct (A3 p ltac:(lia)) as [x ->]. eauto.
  - intros p y Hy Hp. rewrite lookup_fmap in Hy. destruct (h !! p) as [x|] eqn:Hx; [|discriminate]. injection Hy as <-. rewrite (proj1 (drop_module_header m x)).
    pose proof (A4 p x Hx Hp). specialize (Ele p). lia.
  - intros p y Hy. rewrite lookup_fmap in Hy. destruct (h !! p) as [x|] eqn:Hx; [|discriminate]. injection Hy as <-. rewrite (proj2 (proj2 (drop_module_header m x))). eauto.
  - intros p y Hp Hy. rewrite lookup_fmap in Hy. destruct (h !! p) as [x|] eqn:Hx; [|discriminate]. injection Hy as <-. destruct (A6 p x Hp Hx) as [K R].
    split; [now apply drop_module_kinds | now rewrite drop_module_running].
Qed.
End Accounts.

Arguments ac_nodup {ext kind h hs pend} _.
Arguments ac_holder {ext kind h hs pend} _.
Arguments ac_present {ext kind h hs pend} _.
Arguments ac_freed {ext kind h hs pend} _.
Arguments ac_kind {ext kind h hs pend} _.
Arguments ac_kinds {ext kind h hs pend} _.
