(* ===== verification/GcFreeStep.v ===== *)
(** * The invariant of the freeing phases

    What holds while objects are freed, in [free_zero_refcount] and in
    [gc_free_cycles]: [hs] still hold their references, [cur] are being freed,
    [pend] are the references they have still to drop.  The lemmas are the steps:
    a reference is dropped, an object starts to be freed, its structure goes. *)

From Stdlib Require Import ZArith Lia Bool.
From stdpp Require Import base numbers list option gmap.
From S2P Require Import Prelude Gc GcSpec GcFree GcFreeInv.

#[local] Open Scope Z_scope.

Section Steps.
Context (kind : nat -> gc_kind) (ext : nat -> Z) (ext_nonneg : forall p, 0 <= ext p) (h0 : gmap nat JSGCObjectHeader).

(** What a reference from outside reaches in the heap [h0]. *)
Inductive live : nat -> Prop :=
| live_root p : 0 < ext p -> live p
| live_child p q : live p -> q ∈ children_of h0 p -> live q.

Definition kept (p : nat) : bool := is_kept_kind (kind p).

(** Whether the object must go once its count is 0. *)
Definition eager (ph : JSGCPhaseEnum) (p : nat) : Prop := ph = JS_GC_PHASE_REMOVE_CYCLES -> kept p = false.

Record freeing (ph : JSGCPhaseEnum) (h : gmap nat JSGCObjectHeader) (L T Z0 hs cur pend : list nat) : Prop := mk_freeing {
  fr_phase : ph <> JS_GC_PHASE_NONE;
  fr_accounts : accounts ext kind h hs pend;
  fr_nodup : NoDup (L ++ T ++ Z0);
  fr_dom : forall p, is_Some (h !! p) <-> p ∈ L ++ T ++ Z0;
  fr_holders : forall p, p ∈ hs <-> p ∈ L ++ T ++ Z0 /\ (p ∉ cur) /\ ~ (ph = JS_GC_PHASE_REMOVE_CYCLES /\ p ∈ Z0 /\ kept p = true);
  fr_live : forall p, live p -> p ∈ L /\ p ∉ cur;
  fr_body : forall p x, p ∈ hs -> (ph = JS_GC_PHASE_REMOVE_CYCLES -> p ∈ L) -> h !! p = Some x -> exists x0, h0 !! p = Some x0 /\ body x = body x0;
  fr_mark : forall p x, p ∈ L -> h !! p = Some x -> mark x = false;
  fr_distinct : NoDup cur;
  fr_cur : forall p, p ∈ cur -> exists x, h !! p = Some x /\ (eager ph p -> ref_count x = 0);
  fr_count : forall p x, h !! p = Some x -> p ∉ cur -> (ph = JS_GC_PHASE_DECREF /\ p ∈ L) \/ kept p = false -> 1 <= ref_count x;
  fr_decref : ph = JS_GC_PHASE_DECREF -> T = [] /\ forall p, p ∈ Z0 -> kept p = true /\ exists x, h !! p = Some x /\ ref_count x = 0;
  fr_remove : ph = JS_GC_PHASE_REMOVE_CYCLES -> forall p, p ∈ L -> live p;
}.

Lemma lists_split (L T Z0 : list nat) p : p ∈ L ++ T ++ Z0 <-> p ∈ L \/ p ∈ T \/ p ∈ Z0.
Proof. rewrite !elem_of_app. done. Qed.

Section State.
Context (ph : JSGCPhaseEnum) (h : gmap nat JSGCObjectHeader) (L T Z0 hs cur pend : list nat) (F : freeing ph h L T Z0 hs cur pend).

Lemma live_holder p : live p -> p ∈ hs /\ p ∈ L.
Proof using F.
  intros Hl. destruct (fr_live _ _ _ _ _ _ _ _ F p Hl) as [HL Hc]. split; [|done]. apply (fr_holders _ _ _ _ _ _ _ _ F). rewrite lists_split. split_and!; [now left | done|].
  intros (_ & HZ & _). pose proof (fr_nodup _ _ _ _ _ _ _ _ F) as Hnd. apply NoDup_app in Hnd as (_ & Hd & _). apply (Hd p HL). rewrite elem_of_app. now right.
Qed.

(** What is live has a reference that is not pending. *)
Lemma live_referenced p : live p -> 1 <= ext p + references h hs p.
Proof using F ext_nonneg.
  pose proof (references_nonneg h hs) as Hn. pose proof ext_nonneg as He. intros Hl. inversion Hl as [q Hx|q c Hq Hc]; subst.
  - specialize (Hn p). lia.
  - destruct (live_holder q Hq) as [Hh HL]. destruct (ac_holder (fr_accounts _ _ _ _ _ _ _ _ F) q Hh) as (x & Hx & _).
    destruct (fr_body _ _ _ _ _ _ _ _ F q x Hh (fun _ => HL) Hx) as (x0 & Hx0 & E).
    assert (p ∈ children_of h q) as Hin by (unfold children_of in *; rewrite Hx, E; now rewrite Hx0 in Hc).
    pose proof (references_in h hs p q Hh Hin). specialize (He p). lia.
Qed.

Lemma counted_not_cur p x : h !! p = Some x -> 1 <= ref_count x -> eager ph p -> p ∉ cur.
Proof using F. intros Hx Hn He Hc. destruct (fr_cur _ _ _ _ _ _ _ _ F p Hc) as (y & Hy & E). rewrite Hx in Hy. injection Hy as <-. specialize (E He). lia. Qed.

Lemma counted_holder p x : h !! p = Some x -> 1 <= ref_count x -> eager ph p -> p ∈ hs.
Proof using F.
  intros Hx Hn He. apply (fr_holders _ _ _ _ _ _ _ _ F). split_and!.
  - apply (fr_dom _ _ _ _ _ _ _ _ F). eauto.
  - exact (counted_not_cur p x Hx Hn He).
  - intros (E & _ & Hk). rewrite (He E) in Hk. discriminate.
Qed.

Lemma cur_not_live p : p ∈ cur -> ~ live p.
Proof using F. intros Hc Hl. now destruct (fr_live _ _ _ _ _ _ _ _ F p Hl). Qed.
End State.

(** ** Steps *)

Ltac freeing_fields F :=
  destruct F as [F_phase F_accounts F_nodup F_dom F_holders F_live F_body F_mark F_distinct F_cur F_count F_decref F_remove].

Lemma insert_some (h : gmap nat JSGCObjectHeader) q x y p : h !! q = Some x -> is_Some (<[q := y]> h !! p) <-> is_Some (h !! p).
Proof. intros Hx. rewrite lookup_insert_is_Some. split; [intros [->|[_ H]]; [eauto | done] | intros H; destruct (decide (q = p)); [now left | now right]]. Qed.

(** The count of an object changes. *)
Lemma step_count ph h L T Z0 hs cur pend pend' q x n : freeing ph h L T Z0 hs cur pend -> h !! q = Some x ->
  accounts ext kind (<[q := mk_gc n (mark x) (body x)]> h) hs pend' ->
  (q ∈ cur -> eager ph q -> n = 0) -> (q ∉ cur -> (ph = JS_GC_PHASE_DECREF /\ q ∈ L) \/ kept q = false -> 1 <= n) ->
  (ph = JS_GC_PHASE_DECREF -> q ∈ Z0 -> n = 0) ->
  freeing ph (<[q := mk_gc n (mark x) (body x)]> h) L T Z0 hs cur pend'.
Proof using Type.
  intros F Hx A Hc1 Hc2 Hz. freeing_fields F. constructor; try done.
  - intros p. rewrite (insert_some h q x _ p Hx). apply F_dom.
  - intros p y Hp Hr Hy. apply lookup_insert_Some in Hy as [[<- <-]|[_ Hy]]; [exact (F_body q x Hp Hr Hx) | eauto].
  - intros p y Hp Hy. apply lookup_insert_Some in Hy as [[<- <-]|[_ Hy]]; [exact (F_mark q x Hp Hx) | eauto].
  - intros p Hp. destruct (decide (q = p)) as [<-|Hne].
    + eexists. split; [apply lookup_insert_eq|]. cbn. auto.
    + rewrite lookup_insert_ne by done. auto.
  - intros p y Hy. apply lookup_insert_Some in Hy as [[<- <-]|[_ Hy]]; [cbn; auto | eauto].
  - intros E. destruct (F_decref E) as [ET HZ]. split; [done|]. intros p Hp. destruct (HZ p Hp) as (Hk & y & Hy & E0). split; [done|].
    destruct (decide (q = p)) as [<-|Hne]; [|exists y; now rewrite lookup_insert_ne]. eexists. split; [apply lookup_insert_eq|]. cbn. auto.
Qed.

(** An object without references goes to the list of those to be freed. *)
Lemma step_queue h L Z0 hs cur pend pend' q x m : freeing JS_GC_PHASE_DECREF h L [] Z0 hs cur pend -> h !! q = Some x -> q ∈ L -> q ∉ cur -> ~ live q -> kept q = true ->
  accounts ext kind (<[q := mk_gc 0 m (body x)]> h) hs pend' ->
  freeing JS_GC_PHASE_DECREF (<[q := mk_gc 0 m (body x)]> h) (unlink q L) [] (q :: unlink q Z0) hs cur pend'.
Proof using Type.
  intros F Hx HL Hcq Hlive Hk A. freeing_fields F. cbn [app] in *.
  assert (q ∉ Z0) as HqZ by (apply NoDup_app in F_nodup as (_ & Hd & _); auto). rewrite (unlink_absent q Z0 HqZ).
  assert (L ++ Z0 ≡ₚ unlink q L ++ q :: Z0) as P.
  { rewrite (unlink_perm q L) at 1; [|apply NoDup_app in F_nodup; tauto | done]. apply Permutation_middle. }
  constructor; try done; cbn [app].
  - now rewrite <- P.
  - intros p. rewrite (insert_some h q x _ p Hx), F_dom. now rewrite P.
  - intros p. rewrite F_holders, P. split; intros (H1 & H2 & H3); (split_and!; [done | done | intros [? _]; discriminate]).
  - intros p Hp. destruct (F_live p Hp) as [H1 H2]. split; [|done]. apply unlink_elem. split; [done|]. intros ->. done.
  - intros p y Hp Hr Hy. apply lookup_insert_Some in Hy as [[<- <-]|[_ Hy]]; [apply (F_body q x Hp); [discriminate | done] | apply (F_body p y Hp); [discriminate | done]].
  - intros p y Hp Hy. apply unlink_elem in Hp as [Hp Hne]. rewrite lookup_insert_ne in Hy by congruence. eauto.
  - intros p Hp. rewrite lookup_insert_ne by congruence. auto.
  - intros p y Hy Hp Hd. apply lookup_insert_Some in Hy as [[<- <-]|[Hne Hy]].
    + destruct Hd as [[_ Hd]|Hd]; [apply unlink_elem in Hd; now destruct Hd | congruence].
    + apply (F_count p y Hy Hp). destruct Hd as [[_ Hd]|Hd]; [left; now apply unlink_elem in Hd as [Hd _] | now right].
  - intros _. split; [done|]. destruct (F_decref eq_refl) as [_ HZ]. intros p Hp. apply elem_of_cons in Hp as [->|Hp].
    + split; [done|]. eexists. split; [apply lookup_insert_eq | done].
    + rewrite lookup_insert_ne by congruence. auto.
Qed.
(** An object starts to drop its references. *)
Lemma step_enter ph h L T Z0 hs cur pend pend' q x n : freeing ph h L T Z0 hs cur pend -> h !! q = Some x -> q ∈ hs -> ~ live q ->
  accounts ext kind (<[q := mk_gc n (mark x) (body x)]> h) hs pend' -> (eager ph q -> n = 0) ->
  freeing ph (<[q := mk_gc n (mark x) (body x)]> h) L T Z0 (unlink q hs) (q :: cur) (mark_children (body x) ++ pend').
Proof using ext_nonneg.
  intros F Hx Hq Hlive A Hn. freeing_fields F. pose proof Hq as Hq'. apply F_holders in Hq' as (Hin & Hcq & HZ).
  constructor; try done.
  - replace (mark_children (body x)) with (children_of (<[q := mk_gc n (mark x) (body x)]> h) q); [now apply accounts_release|].
    rewrite children_insert. now rewrite decide_True.
  - intros p. rewrite (insert_some h q x _ p Hx). apply F_dom.
  - intros p. rewrite unlink_elem, F_holders, not_elem_of_cons. tauto.
  - intros p Hp. destruct (F_live p Hp) as [H1 H2]. split; [done|]. apply not_elem_of_cons. split; [intros ->; done | done].
  - intros p y Hp Hr Hy. apply unlink_elem in Hp as [Hp Hne]. rewrite lookup_insert_ne in Hy by congruence. eauto.
  - intros p y Hp Hy. apply lookup_insert_Some in Hy as [[<- <-]|[_ Hy]]; [exact (F_mark q x Hp Hx) | eauto].
  - now apply NoDup_cons.
  - intros p Hp. destruct (decide (q = p)) as [<-|Hne]; [eexists; split; [apply lookup_insert_eq | done]|].
    apply elem_of_cons in Hp as [->|Hp]; [done|]. rewrite lookup_insert_ne by done. auto.
  - intros p y Hy Hp Hd. apply not_elem_of_cons in Hp as [Hne Hp]. rewrite lookup_insert_ne in Hy by congruence. eauto.
  - intros E. destruct (F_decref E) as [ET HZ0]. split; [done|]. intros p Hp. destruct (HZ0 p Hp) as (Hk & y & Hy & E0). split; [done|].
    destruct (decide (q = p)) as [<-|Hne]; [|exists y; now rewrite lookup_insert_ne]. eexists. split; [apply lookup_insert_eq|]. cbn. apply Hn.
    intros E'. congruence.
Qed.

Lemma unlink_app p l l' : unlink p (l ++ l') = unlink p l ++ unlink p l'.
Proof. unfold unlink. apply List.filter_app. Qed.

Lemma unlink_lists p L T Z0 : unlink p L ++ unlink p T ++ unlink p Z0 = unlink p (L ++ T ++ Z0).
Proof. now rewrite !unlink_app. Qed.

(** The structure of an object without references is freed. *)
Lemma step_free ph h L T Z0 hs cur pend p x : freeing ph h L T Z0 hs (p :: cur) pend -> h !! p = Some x -> ref_count x = 0 ->
  freeing ph (delete p h) (unlink p L) (unlink p T) (unlink p Z0) hs cur pend.
Proof using Type.
  intros F Hx E0. freeing_fields F. apply NoDup_cons in F_distinct as [Hpc F_distinct].
  assert (p ∉ hs) as Hph by (rewrite F_holders; intros (_ & H & _); apply H, list_elem_of_here).
  constructor; try done; rewrite ?unlink_lists.
  - exact (accounts_delete ext kind h hs pend p x F_accounts Hph Hx E0).
  - now apply unlink_NoDup.
  - intros q. rewrite unlink_elem, <- F_dom, lookup_delete_is_Some. split; intros [H1 H2]; split; congruence || done.
  - intros q. rewrite !unlink_elem, F_holders, not_elem_of_cons. split; [tauto|]. intros (H1 & H2 & H3). split_and!; [tauto | tauto | tauto | tauto].
  - intros q Hq. destruct (F_live q Hq) as [H1 H2]. apply not_elem_of_cons in H2 as [Hne H2]. split; [|done]. now apply unlink_elem.
  - intros q y Hq Hr Hy. apply lookup_delete_Some in Hy as [Hne Hy]. apply (F_body q y Hq); [|done]. intros E. specialize (Hr E). now apply unlink_elem in Hr as [Hr _].
  - intros q y Hq Hy. apply unlink_elem in Hq as [Hq _]. apply lookup_delete_Some in Hy as [Hne Hy]. eauto.
  - intros q Hq. assert (p <> q) as Hne by (intros ->; done). rewrite lookup_delete_ne by done. apply F_cur. now apply list_elem_of_further.
  - intros q y Hy Hq Hd. apply lookup_delete_Some in Hy as [Hne Hy]. apply (F_count q y Hy).
    + apply not_elem_of_cons. split; [congruence | done].
    + destruct Hd as [[? Hd]|Hd]; [left; split; [done|]; now apply unlink_elem in Hd as [Hd _] | now right].
  - intros E. destruct (F_decref E) as [-> HZ]. split; [done|]. intros q Hq. apply unlink_elem in Hq as [Hq Hne]. rewrite lookup_delete_ne by congruence. auto.
  - intros E q Hq. apply unlink_elem in Hq as [Hq _]. auto.
Qed.

(** The structure of an object of a cycle is kept while references to it are left. *)
Lemma step_keep h L T Z0 hs cur pend p : freeing JS_GC_PHASE_REMOVE_CYCLES h L T Z0 hs (p :: cur) pend -> kept p = true ->
  freeing JS_GC_PHASE_REMOVE_CYCLES h (unlink p L) (unlink p T) (unlink p Z0 ++ [p]) hs cur pend.
Proof using Type.
  intros F Hk. freeing_fields F. apply NoDup_cons in F_distinct as [Hpc F_distinct].
  destruct (F_cur p) as (x & Hx & _); [apply list_elem_of_here|]. assert (p ∈ L ++ T ++ Z0) as Hp by (apply F_dom; eauto).
  assert (L ++ T ++ Z0 ≡ₚ unlink p L ++ unlink p T ++ unlink p Z0 ++ [p]) as P.
  { transitivity (p :: unlink p (L ++ T ++ Z0)); [now apply unlink_perm|]. rewrite <- unlink_lists, Permutation_cons_append. now rewrite <- !app_assoc. }
  assert (forall q, q ∈ unlink p Z0 ++ [p] <-> q ∈ Z0 /\ q <> p \/ q = p) as EZ by (intros q; rewrite elem_of_app, unlink_elem, list_elem_of_singleton; done).
  constructor; try done.
  - now rewrite <- P.
  - intros q. now rewrite F_dom, P.
  - intros q. rewrite F_holders, P, EZ, not_elem_of_cons. split; [intros (H1 & [H2 H2'] & H3); split_and!; tauto|]. intros (H1 & H2 & H3).
    assert (q <> p) by (intros ->; apply H3; tauto). split_and!; tauto.
  - intros q Hq. destruct (F_live q Hq) as [H1 H2]. apply not_elem_of_cons in H2 as [Hne H2]. split; [|done]. now apply unlink_elem.
  - intros q y Hq Hr Hy. apply (F_body q y Hq); [|done]. intros E. specialize (Hr E). now apply unlink_elem in Hr as [Hr _].
  - intros q y Hq Hy. apply unlink_elem in Hq as [Hq _]. eauto.
  - intros q Hq. apply F_cur. now apply list_elem_of_further.
  - intros q y Hy Hq Hd. destruct Hd as [[? Hd]|Hd]; [discriminate|]. apply (F_count q y Hy); [|now right]. apply not_elem_of_cons. split; [congruence | done].
  - intros E q Hq. apply unlink_elem in Hq as [Hq _]. auto.
Qed.

(** The fields of an object being freed. *)
Lemma step_body ph h L T Z0 hs cur pend p x b : freeing ph h L T Z0 hs cur pend -> p ∈ cur -> h !! p = Some x -> kind_of b = kind_of (body x) ->
  freeing ph (<[p := mk_gc (ref_count x) (mark x) b]> h) L T Z0 hs cur pend.
Proof using Type.
  intros F Hp Hx Hk. freeing_fields F. assert (p ∉ hs) as Hph by (rewrite F_holders; tauto).
  constructor; try done.
  - now apply accounts_body.
  - intros q. rewrite (insert_some h p x _ q Hx). apply F_dom.
  - intros q y Hq Hr Hy. apply lookup_insert_Some in Hy as [[<- <-]|[_ Hy]]; [done | eauto].
  - intros q y Hq Hy. apply lookup_insert_Some in Hy as [[<- <-]|[_ Hy]]; [exact (F_mark p x Hq Hx) | eauto].
  - intros q Hq. destruct (decide (p = q)) as [<-|Hne]; [|rewrite lookup_insert_ne by done; auto]. eexists. split; [apply lookup_insert_eq|].
    destruct (F_cur p Hp) as (y & Hy & E). rewrite Hx in Hy. now injection Hy as <-.
  - intros q y Hy Hq Hd. apply lookup_insert_Some in Hy as [[<- <-]|[_ Hy]]; [done | eauto].
  - intros E. destruct (F_decref E) as [ET HZ]. split; [done|]. intros q Hq. destruct (HZ q Hq) as (Hk' & y & Hy & E0). split; [done|].
    destruct (decide (p = q)) as [<-|Hne]; [|exists y; now rewrite lookup_insert_ne]. eexists. split; [apply lookup_insert_eq|]. rewrite Hx in Hy. now injection Hy as <-.
Qed.

Lemma drop_module_absent m x : m ∉ mark_children (body x) -> body (drop_module m x) = body x.
Proof.
  unfold drop_module. destruct (body x) as [| | | | |modules values shapes|] eqn:E; rewrite ?E; try done. cbn. unfold JS_MarkContext.
  rewrite elem_of_app. intros H. rewrite unlink_absent by tauto. done.
Qed.

(** A module being freed leaves the list of its context. *)
Lemma step_module ph h L T Z0 hs cur pend m : freeing ph h L T Z0 hs cur pend -> m ∈ cur -> kind m = KModule ->
  freeing ph (drop_module m <$> h) L T Z0 hs cur pend.
Proof using Type.
  intros F Hm Hk. pose proof F as F0. freeing_fields F. assert (m ∉ hs) as Hmh by (rewrite F_holders; tauto).
  assert (forall p x, h !! p = Some x -> exists y, (drop_module m <$> h) !! p = Some y /\ ref_count y = ref_count x /\ mark y = mark x) as Hfwd.
  { intros p x Hx. exists (drop_module m x). rewrite lookup_fmap, Hx. split; [done|]. destruct (drop_module_header m x) as (? & ? & _). done. }
  assert (forall p y, (drop_module m <$> h) !! p = Some y -> exists x, h !! p = Some x /\ y = drop_module m x) as Hbwd.
  { intros p y Hy. rewrite lookup_fmap in Hy. destruct (h !! p) as [x|]; [|discriminate]. injection Hy as <-. eauto. }
  constructor; try done.
  - now apply accounts_drop_module.
  - intros p. rewrite lookup_fmap, fmap_is_Some. apply F_dom.
  - intros p y Hp Hr Hy. destruct (Hbwd p y Hy) as (x & Hx & ->). destruct (F_body p x Hp Hr Hx) as (x0 & Hx0 & E). exists x0. split; [done|].
    rewrite drop_module_absent; [done|]. intros Hc. destruct (decide (ph = JS_GC_PHASE_REMOVE_CYCLES)) as [Eph|Hph].
    + apply (cur_not_live ph h L T Z0 hs cur pend F0 m Hm). apply (live_child p); [now apply F_remove; [|apply Hr]|]. unfold children_of. rewrite Hx0. now rewrite <- E.
    + destruct (F_cur m Hm) as (y & Hy' & E0). pose proof (ac_freed F_accounts m y Hy' Hmh) as Hle. rewrite E0 in Hle by (intros E'; now destruct Hph).
      assert (1 <= references h hs m) by (apply (references_in h hs m p Hp); unfold children_of; now rewrite Hx). pose proof (occurrences_nonneg m pend). lia.
  - intros p y Hp Hy. destruct (Hbwd p y Hy) as (x & Hx & ->). rewrite (proj1 (proj2 (drop_module_header m x))). eauto.
  - intros p Hp. destruct (F_cur p Hp) as (x & Hx & E). destruct (Hfwd p x Hx) as (y & Hy & Ey & _). exists y. now rewrite Ey.
  - intros p y Hy Hp Hd. destruct (Hbwd p y Hy) as (x & Hx & ->). rewrite (proj1 (drop_module_header m x)). eauto.
  - intros E. destruct (F_decref E) as [ET HZ]. split; [done|]. intros p Hp. destruct (HZ p Hp) as (Hk' & x & Hx & E0). split; [done|].
    destruct (Hfwd p x Hx) as (y & Hy & Ey & _). exists y. split; [done|]. now rewrite Ey.
Qed.
End Steps.

Arguments fr_phase {kind ext h0 ph h L T Z0 hs cur pend} _.
Arguments fr_accounts {kind ext h0 ph h L T Z0 hs cur pend} _.
Arguments fr_nodup {kind ext h0 ph h L T Z0 hs cur pend} _.
Arguments fr_dom {kind ext h0 ph h L T Z0 hs cur pend} _.
Arguments fr_holders {kind ext h0 ph h L T Z0 hs cur pend} _.
Arguments fr_live {kind ext h0 ph h L T Z0 hs cur pend} _.
Arguments fr_body {kind ext h0 ph h L T Z0 hs cur pend} _.
Arguments fr_mark {kind ext h0 ph h L T Z0 hs cur pend} _.
Arguments fr_distinct {kind ext h0 ph h L T Z0 hs cur pend} _.
Arguments fr_cur {kind ext h0 ph h L T Z0 hs cur pend} _.
Arguments fr_count {kind ext h0 ph h L T Z0 hs cur pend} _.
Arguments fr_decref {kind ext h0 ph h L T Z0 hs cur pend} _.
Arguments fr_remove {kind ext h0 ph h L T Z0 hs cur pend} _.

(** In a cycle, the kinds freed with their last reference wait for it. *)
Lemma step_move kind ext h0 h L T Z0 hs cur pend p : freeing kind ext h0 JS_GC_PHASE_REMOVE_CYCLES h L T Z0 hs cur pend -> p ∈ T -> kept kind p = false ->
  freeing kind ext h0 JS_GC_PHASE_REMOVE_CYCLES h (unlink p L) (unlink p T) (unlink p Z0 ++ [p]) hs cur pend.
Proof.
  intros [F_phase F_accounts F_nodup F_dom F_holders F_live F_body F_mark F_distinct F_cur F_count F_decref F_remove] HT Hk.
  assert (p ∈ L ++ T ++ Z0) as Hp by (rewrite lists_split; tauto).
  assert (p ∉ L) as HpL by (intros H; apply NoDup_app in F_nodup as (_ & Hd & _); apply (Hd p H); rewrite elem_of_app; tauto).
  assert (L ++ T ++ Z0 ≡ₚ unlink p L ++ unlink p T ++ unlink p Z0 ++ [p]) as P.
  { transitivity (p :: unlink p (L ++ T ++ Z0)); [now apply unlink_perm|]. rewrite <- unlink_lists, Permutation_cons_append. now rewrite <- !app_assoc. }
  assert (forall q, q ∈ unlink p Z0 ++ [p] <-> q ∈ Z0 /\ q <> p \/ q = p) as EZ by (intros q; rewrite elem_of_app, unlink_elem, list_elem_of_singleton; done).
  rewrite (unlink_absent p L HpL) in *. constructor; try done.
  - now rewrite <- P.
  - intros q. now rewrite F_dom, P.
  - intros q. rewrite F_holders, P, EZ. destruct (decide (q = p)) as [->|Hne].
    + rewrite Hk. split; intros (H1 & H2 & H3); (split_and!; [done | done | intros (_ & _ & ?); discriminate]).
    + split; intros (H1 & H2 & H3); split_and!; tauto.
Qed.
