(* ===== verification/GcFreeOps.v ===== *)
(** * The functions that free

    Each function of [GcFree] that drops references, against the invariant of
    [GcFreeStep]: it returns, drops the references it is charged with, and the
    objects that remain are among those before. *)

From Stdlib Require Import ZArith Lia Bool.
From stdpp Require Import base numbers list option gmap.
From S2P Require Import Prelude Gc GcSpec GcFree GcFreeInv GcFreeStep.

#[local] Open Scope Z_scope.

Definition objects_of (r : gc_runtime) : list nat := gc_obj_list (gc r) ++ tmp_obj_list (gc r) ++ gc_zero_ref_count_list r.

Record shrinks (r r' : gc_runtime) : Prop := mk_shrinks {
  sh_phase : gc_phase r' = gc_phase r;
  sh_objects : forall p, p ∈ objects_of r' -> p ∈ objects_of r;
  sh_listed : forall p, p ∈ gc_obj_list (gc r') -> p ∈ gc_obj_list (gc r);
  sh_tmp : forall p, p ∈ tmp_obj_list (gc r') -> p ∈ tmp_obj_list (gc r);
}.

#[export] Instance shrinks_preorder : PreOrder shrinks.
Proof.
  split.
  - intros r. now constructor.
  - intros r1 r2 r3 [A1 A2 A3 A4] [B1 B2 B3 B4]. constructor; [congruence | auto | auto | auto].
Qed.

Section Ops.
Context (kind : nat -> gc_kind) (ext : nat -> Z) (ext_nonneg : forall p, 0 <= ext p) (h0 : gmap nat JSGCObjectHeader).

Definition freeing_rt (r : gc_runtime) (hs cur pend : list nat) : Prop :=
  freeing kind ext h0 (gc_phase r) (heap (gc r)) (gc_obj_list (gc r)) (tmp_obj_list (gc r)) (gc_zero_ref_count_list r) hs cur pend.

(** [F] drops the references [l]. *)
Definition drops (F : gc_runtime -> option gc_runtime) (l : list nat) : Prop :=
  forall r hs cur pend, freeing_rt r hs cur (l ++ pend) -> exists r' hs', F r = Some r' /\ freeing_rt r' hs' cur pend /\ shrinks r r'.

Lemma freeing_perm r hs cur pend pend' : pend ≡ₚ pend' -> freeing_rt r hs cur pend -> freeing_rt r hs cur pend'.
Proof. intros P []. constructor; try done. now apply (accounts_perm ext kind _ _ pend). Qed.

Lemma drops_nil : drops Some [].
Proof. intros r hs cur pend F. exists r, hs. done. Qed.

Lemma drops_perm F l l' : l ≡ₚ l' -> drops F l -> drops F l'.
Proof. intros P D r hs cur pend H. apply (D r hs cur pend). now apply (freeing_perm r hs cur (l' ++ pend)); [rewrite P|]. Qed.

Lemma drops_bind F G l l' : drops F l -> drops G l' -> drops (fun r => r ← F r; G r) (l ++ l').
Proof.
  intros D D' r hs cur pend H. rewrite <- app_assoc in H. destruct (D r hs cur _ H) as (r1 & hs1 & E1 & H1 & S1).
  destruct (D' r1 hs1 cur pend H1) as (r2 & hs2 & E2 & H2 & S2). exists r2, hs2. split; [|split; [done | now transitivity r1]]. cbn. now rewrite E1.
Qed.

Lemma drops_for_each {A} (f : gc_runtime -> A -> option gc_runtime) (m : A -> list nat) l :
  (forall a, a ∈ l -> drops (fun r => f r a) (m a)) -> drops (fun r => for_each f r l) (concat (map m l)).
Proof.
  induction l as [|a l IH]; intros H; cbn; [exact drops_nil|].
  apply (drops_bind (fun r => f r a) (fun r => for_each f r l)); [apply H, list_elem_of_here|]. apply IH. intros b Hb. apply H. now apply list_elem_of_further.
Qed.

Lemma drops_for_some (f : gc_runtime -> nat -> option gc_runtime) o :
  (forall p, o = Some p -> drops (fun r => f r p) [p]) -> drops (fun r => for_some f r o) (mark_pointer o).
Proof. destruct o as [p|]; cbn; intros H; [now apply H | exact drops_nil]. Qed.

(** ** Dropping one reference *)

Lemma decrement_some r q x : heap (gc r) !! q = Some x -> decrement r q = Some (ref_count x - 1, put_object r q (mk_gc (ref_count x - 1) (mark x) (body x))).
Proof. intros Hx. unfold decrement. now rewrite Hx. Qed.

(** The object that loses a reference, and the cases of what happens next. *)
Lemma drop_reference r hs cur q pend : freeing_rt r hs cur (q :: pend) ->
  exists x, heap (gc r) !! q = Some x /\ 1 <= ref_count x /\ kind_of (body x) = kind q /\
    (forall m, accounts ext kind (<[q := mk_gc (ref_count x - 1) m (body x)]> (heap (gc r))) hs pend) /\
    (ref_count x = 1 -> ~ live ext h0 q).
Proof using ext_nonneg.
  intros F. destruct (accounts_drop ext ext_nonneg kind _ _ _ _ (fr_accounts F)) as (x & Hx & H1 & Hk & A).
  exists x. split_and!; try done. intros E Hl. pose proof (live_referenced kind ext ext_nonneg h0 _ _ _ _ _ _ _ _ F q Hl) as Hr.
  destruct (live_holder kind ext h0 _ _ _ _ _ _ _ _ F q Hl) as [Hh _].
  destruct (ac_holder (fr_accounts F) q Hh) as (y & Hy & Ey). rewrite Hx in Hy. injection Hy as <-.
  cbn in Ey. rewrite Nat.eqb_refl in Ey. pose proof (occurrences_nonneg q pend). lia.
Qed.

(** References are left. *)
Lemma drop_counted r hs cur q pend x : freeing_rt r hs cur (q :: pend) -> heap (gc r) !! q = Some x -> 2 <= ref_count x ->
  accounts ext kind (<[q := mk_gc (ref_count x - 1) (mark x) (body x)]> (heap (gc r))) hs pend ->
  freeing_rt (put_object r q (mk_gc (ref_count x - 1) (mark x) (body x))) hs cur pend.
Proof using Type.
  intros F Hx Hn A. apply (step_count kind ext h0 _ _ _ _ _ _ cur (q :: pend)); [exact F | done | done | | lia |].
  - intros Hc He. destruct (fr_cur F q Hc) as (y & Hy & E). rewrite Hx in Hy. injection Hy as <-. specialize (E He). lia.
  - intros E HZ. destruct (fr_decref F E) as [_ Hz]. destruct (Hz q HZ) as (_ & y & Hy & E0). rewrite Hx in Hy. injection Hy as <-. lia.
Qed.

(** In a cycle, an object waits for its turn. *)
Lemma drop_waiting r hs cur q pend x : freeing_rt r hs cur (q :: pend) -> heap (gc r) !! q = Some x ->
  accounts ext kind (<[q := mk_gc (ref_count x - 1) (mark x) (body x)]> (heap (gc r))) hs pend -> gc_phase r = JS_GC_PHASE_REMOVE_CYCLES -> kept kind q = true ->
  freeing_rt (put_object r q (mk_gc (ref_count x - 1) (mark x) (body x))) hs cur pend.
Proof using Type.
  intros F Hx A Eph Hk. apply (step_count kind ext h0 _ _ _ _ _ _ cur (q :: pend)); [exact F | done | done | | |].
  - intros _ He. rewrite (He Eph) in Hk. discriminate.
  - intros _ [[E _]|E]; [cbn in E|]; congruence.
  - intros E. cbn in E. congruence.
Qed.

(** Outside of the removal of cycles it goes to the list of those to be freed. *)
Lemma drop_queued r hs cur q pend x m : freeing_rt r hs cur (q :: pend) -> heap (gc r) !! q = Some x -> ref_count x = 1 -> ~ live ext h0 q ->
  accounts ext kind (<[q := mk_gc 0 m (body x)]> (heap (gc r))) hs pend -> gc_phase r <> JS_GC_PHASE_REMOVE_CYCLES -> kept kind q = true ->
  let r' := mk_gc_runtime (mk_gc_state (<[q := mk_gc 0 m (body x)]> (heap (gc r))) (unlink q (gc_obj_list (gc r))) (unlink q (tmp_obj_list (gc r))))
    (q :: unlink q (gc_zero_ref_count_list r)) (gc_phase r) in
  freeing_rt r' hs cur pend /\ shrinks r r'.
Proof using Type.
  intros F Hx E1 Hlive A Hph Hk r'. assert (gc_phase r = JS_GC_PHASE_DECREF) as Eph by (pose proof (fr_phase F); now destruct (gc_phase r)).
  destruct (fr_decref F Eph) as [ET HZ].
  assert (q ∉ cur) as Hqc by (apply (counted_not_cur kind ext h0 _ _ _ _ _ _ _ _ F q x Hx); [lia | now intros ?]).
  assert (q ∈ objects_of r) as Hq by (apply (fr_dom F); eauto).
  assert (q ∈ gc_obj_list (gc r)) as HL.
  { unfold objects_of in Hq. rewrite ET, lists_split in Hq. destruct Hq as [?|[Hq|Hq]]; [done | now apply elem_of_nil in Hq|].
    destruct (HZ q Hq) as (_ & y & Hy & E0). rewrite Hx in Hy. injection Hy as <-. lia. }
  split.
  - unfold freeing_rt in *. subst r'. cbn. rewrite Eph, ET in *. change (unlink q []) with (@nil nat). exact (step_queue kind ext h0 _ _ _ hs cur _ pend q x m F Hx HL Hqc Hlive Hk A).
  - constructor; [done | | |]; subst r'; unfold objects_of; cbn; intros p.
    + rewrite !lists_split, !elem_of_cons, !unlink_elem. intros [[? _]|[[? _]|[->|[? _]]]]; [tauto | tauto | tauto | tauto].
    + now rewrite unlink_elem; intros [? _].
    + now rewrite unlink_elem; intros [? _].
Qed.

(** The kinds freed at once start to drop their references. *)
Lemma drop_enter r hs cur q pend x : freeing_rt r hs cur (q :: pend) -> heap (gc r) !! q = Some x -> ref_count x = 1 -> ~ live ext h0 q ->
  accounts ext kind (<[q := mk_gc (ref_count x - 1) (mark x) (body x)]> (heap (gc r))) hs pend -> kept kind q = false ->
  freeing_rt (put_object r q (mk_gc (ref_count x - 1) (mark x) (body x))) (unlink q hs) (q :: cur) (mark_children (body x) ++ pend) /\ body_kinds kind (body x).
Proof using ext_nonneg.
  intros F Hx E1 Hlive A Hk. assert (q ∈ hs) as Hq by (apply (counted_holder kind ext h0 _ _ _ _ _ _ _ _ F q x Hx); [lia | now intros ?]).
  split; [|exact (proj1 (ac_kinds (fr_accounts F) q x Hq Hx))].
  apply (step_enter kind ext ext_nonneg h0 _ _ _ _ _ hs cur (q :: pend)); try done. lia.
Qed.

Lemma put_shrinks r q x : shrinks r (put_object r q x).
Proof. now constructor. Qed.

(** ** Freeing the structure *)

Lemma list_del_shrinks r p h : shrinks r (with_heap (list_del r p) h).
Proof.
  constructor; [done | | |]; unfold objects_of; cbn; intros q.
  - rewrite unlink_lists. now rewrite unlink_elem; intros [? _].
  - now rewrite unlink_elem; intros [? _].
  - now rewrite unlink_elem; intros [? _].
Qed.

Lemma freed_structure r hs cur pend p : freeing_rt r hs (p :: cur) pend -> eager kind (gc_phase r) p ->
  exists r', js_free_rt (list_del r p) p = Some r' /\ freeing_rt r' hs cur pend /\ shrinks r r' /\ p ∉ objects_of r'.
Proof using Type.
  intros F He. destruct (fr_cur F p) as (x & Hx & E); [apply list_elem_of_here|].
  exists (with_heap (list_del r p) (delete p (heap (gc r)))). split; [unfold js_free_rt; cbn; now rewrite Hx|]. split; [|split].
  - exact (step_free kind ext h0 _ _ _ _ _ hs cur pend p x F Hx (E He)).
  - apply list_del_shrinks.
  - unfold objects_of. cbn. rewrite unlink_lists, unlink_elem. now intros [_ ?].
Qed.

(** The structure of an object of a kind that cycles keep *)
Lemma freed_or_kept r hs cur pend p : freeing_rt r hs (p :: cur) pend -> kept kind p = true ->
  exists r', free_structure r p = Some r' /\ freeing_rt r' hs cur pend /\ shrinks r r' /\ (p ∉ tmp_obj_list (gc r')) /\ (gc_phase r = JS_GC_PHASE_DECREF -> p ∉ objects_of r').
Proof using Type.
  intros F Hk. unfold free_structure. destruct (fr_cur F p) as (x & Hx & E); [apply list_elem_of_here|].
  cbn [gc list_del heap]. rewrite Hx. cbn [mbind option_bind gc_phase list_del].
  destruct (bool_decide_reflect (gc_phase r = JS_GC_PHASE_REMOVE_CYCLES)) as [Eph|Hph]; cbn [andb].
  - destruct (Z.eqb_spec (ref_count x) 0) as [E0|Hne]; cbn [negb].
    + exists (with_heap (list_del r p) (delete p (heap (gc r)))). split; [unfold js_free_rt; cbn; now rewrite Hx|].
      split; [exact (step_free kind ext h0 _ _ _ _ _ hs cur pend p x F Hx E0)|]. split; [apply list_del_shrinks|]. split; [|rewrite Eph; discriminate].
      cbn. rewrite unlink_elem. now intros [_ ?].
    + exists (add_zero_last (list_del r p) p). split; [done|]. split; [|split; [|split; [cbn; rewrite unlink_elem; now intros [_ ?] | rewrite Eph; discriminate]]].
      * unfold freeing_rt in *. cbn. rewrite Eph in *. exact (step_keep kind ext h0 _ _ _ _ hs cur pend p F Hk).
      * assert (p ∈ objects_of r) as Hp by (apply (fr_dom F); eauto).
        constructor; [done | | |]; unfold objects_of; cbn; intros q; rewrite ?elem_of_app, ?list_elem_of_singleton, ?unlink_elem; unfold objects_of in Hp; rewrite ?elem_of_app in Hp.
        -- intros [[? _]|[[? _]|[[? _]|Eq]]]; [tauto | tauto | tauto | now rewrite Eq].
        -- tauto.
        -- tauto.
  - destruct (freed_structure r hs cur pend p F) as (r' & E1 & H1 & S1 & N1); [now intros ?|]. exists r'. split_and!; try done.
    intros Hp. apply N1. unfold objects_of. rewrite !elem_of_app. tauto.
Qed.

Context (free_zero : gc_runtime -> option gc_runtime).

(** ** The functions *)

Lemma free_pointer_drops q : kept kind q = true -> drops (fun r => free_pointer free_zero r q) [q].
Proof using ext_nonneg.
  intros Hk r hs cur pend F. cbn [app] in F. destruct (drop_reference r hs cur q pend F) as (x & Hx & H1 & Hkx & A & Hlive).
  unfold free_pointer. rewrite (decrement_some r q x Hx). cbn [mbind option_bind].
  destruct (Z.leb_spec (ref_count x - 1) 0) as [Hle|Hgt].
  - unfold free_value_object. cbn [gc_phase put_object with_heap]. destruct (bool_decide_reflect (gc_phase r = JS_GC_PHASE_REMOVE_CYCLES)) as [Eph|Hph].
    + eexists _, hs. split; [done|]. split; [now apply drop_waiting | apply put_shrinks].
    + assert (ref_count x = 1) as E1 by lia. cbn. rewrite lookup_insert_eq. cbn. rewrite bool_decide_false by apply (fr_phase F).
      unfold put_object, with_heap, add_zero_first, list_del. cbn [gc heap gc_obj_list tmp_obj_list gc_zero_ref_count_list gc_phase].
      rewrite insert_insert_eq, E1. cbn. specialize (A true). rewrite E1 in A. cbn in A.
      destruct (drop_queued r hs cur q pend x true F Hx E1 (Hlive E1) A Hph Hk) as [F' S']. eexists _, hs. split; [reflexivity | done].
  - eexists _, hs. split; [done|]. split; [|apply put_shrinks]. apply drop_counted; [done | done | lia | apply A].
Qed.

Lemma value_kept p : is_value_kind (kind p) = true -> kept kind p = true.
Proof using Type. unfold kept. now destruct (kind p). Qed.

Lemma JS_FreeValueRT_drops v : to_value kind v -> drops (fun r => JS_FreeValueRT free_zero r v) (JS_MarkValue v).
Proof using ext_nonneg. destruct v as [p|]; cbn; intros H; [now apply free_pointer_drops, value_kept | exact drops_nil]. Qed.

Lemma free_values_drops l : Forall (to_value kind) l -> drops (fun r => for_each (JS_FreeValueRT free_zero) r l) (concat (map JS_MarkValue l)).
Proof using ext_nonneg. rewrite Forall_forall. intros H. apply drops_for_each. intros v Hv. now apply JS_FreeValueRT_drops, H. Qed.

Lemma free_object_pointer_drops o : to_object kind o -> drops (fun r => for_some (free_pointer free_zero) r o) (mark_pointer o).
Proof using ext_nonneg. intros H. apply drops_for_some. intros p ->. apply free_pointer_drops, value_kept, H. Qed.

Lemma async_func_free_drops q : kind q = KAsync -> drops (fun r => async_func_free free_zero r q) [q].
Proof using ext_nonneg.
  intros Hkq r hs cur pend F. cbn [app] in F. destruct (drop_reference r hs cur q pend F) as (x & Hx & H1 & Hkx & A & Hlive).
  assert (kept kind q = true) as Hk by (unfold kept; now rewrite Hkq).
  unfold async_func_free. rewrite (decrement_some r q x Hx). cbn [mbind option_bind].
  destruct (Z.eqb_spec (ref_count x - 1) 0) as [E|Hne].
  - cbn [gc_phase put_object with_heap]. destruct (bool_decide_reflect (gc_phase r = JS_GC_PHASE_REMOVE_CYCLES)) as [Eph|Hph].
    + eexists _, hs. split; [done|]. split; [now apply drop_waiting | apply put_shrinks].
    + assert (ref_count x = 1) as E1 by lia. cbn. rewrite bool_decide_false by apply (fr_phase F). rewrite E1. cbn. specialize (A (mark x)). rewrite E1 in A. cbn in A.
      destruct (drop_queued r hs cur q pend x (mark x) F Hx E1 (Hlive E1) A Hph Hk) as [F' S']. eexists _, hs. split; [reflexivity | done].
  - eexists _, hs. split; [done|]. split; [|apply put_shrinks]. apply drop_counted; [done | done | lia | apply A].
Qed.

(** A function that frees at once: what it does with the references of the
    object, then the structure. *)
Lemma eager_drops q x r hs cur pend (body_of : gc_runtime -> option gc_runtime) :
  freeing_rt r hs cur (q :: pend) -> heap (gc r) !! q = Some x -> ref_count x = 1 -> kept kind q = false ->
  (body_kinds kind (body x) -> forall r hs, freeing_rt r hs (q :: cur) (mark_children (body x) ++ pend) ->
    exists r' hs', body_of r = Some r' /\ freeing_rt r' hs' (q :: cur) pend /\ shrinks r r') ->
  exists r' hs', (r ← body_of (put_object r q (mk_gc (ref_count x - 1) (mark x) (body x))); js_free_rt (list_del r q) q) = Some r' /\ freeing_rt r' hs' cur pend /\ shrinks r r'.
Proof using ext_nonneg.
  intros F Hx E1 Hk HB. destruct (drop_reference r hs cur q pend F) as (y & Hy & H1 & Hkx & A & Hlive). rewrite Hx in Hy. injection Hy as <-.
  destruct (drop_enter r hs cur q pend x F Hx E1 (Hlive E1) (A _) Hk) as [F' K]. destruct (HB K _ _ F') as (r1 & hs1 & Eb & F1 & S1).
  destruct (freed_structure r1 hs1 cur pend q F1) as (r2 & E2 & F2 & S2 & _); [now intros ?|].
  exists r2, hs1. rewrite Eb. cbn [mbind option_bind]. split; [done|]. split; [done|]. transitivity r1; [|done]. etransitivity; [apply put_shrinks | done].
Qed.
End Ops.
