(* ===== verification/GcFreeFuns.v ===== *)
(** * Freeing an object, by kind

    The functions that free the objects of each kind, with the steps of
    [GcFreeOps]: [free_gc_object] drops every reference that [mark_children]
    reports, and the structure of the object is gone or kept. *)

From Stdlib Require Import ZArith Lia Bool.
From stdpp Require Import base numbers list option gmap.
From S2P Require Import Prelude Gc GcSpec GcFree GcFreeInv GcFreeStep GcFreeOps.

#[local] Open Scope Z_scope.

Section Funs.
Context (kind : nat -> gc_kind) (ext : nat -> Z) (ext_nonneg : forall p, 0 <= ext p) (h0 : gmap nat JSGCObjectHeader) (free_zero : gc_runtime -> option gc_runtime).

#[local] Abbreviation freeing_rt := (freeing_rt kind ext h0).
#[local] Abbreviation drops := (drops kind ext h0).

Lemma js_free_shape_drops q : kind q = KShape -> drops (fun r => js_free_shape free_zero r q) [q].
Proof using ext_nonneg.
  intros Hkq r hs cur pend F. cbn [app] in F. destruct (drop_reference kind ext ext_nonneg h0 r hs cur q pend F) as (x & Hx & H1 & Hkx & A & Hlive).
  assert (kept kind q = false) as Hk by (unfold kept; now rewrite Hkq). rewrite Hkq in Hkx.
  unfold js_free_shape. rewrite (decrement_some r q x Hx). cbn [mbind option_bind]. destruct (Z.leb_spec (ref_count x - 1) 0) as [Hle|Hgt].
  - assert (ref_count x = 1) as E1 by lia. unfold js_free_shape0. cbn [gc put_object with_heap heap]. rewrite lookup_insert_eq. cbn [mbind option_bind ref_count body].
    rewrite E1. cbn [negb Z.eqb Z.sub Z.add Z.opp Z.pos_sub]. destruct (body x) as [| | | |proto| |] eqn:Eb; try discriminate.
    pose proof (eager_drops kind ext ext_nonneg h0 q x r hs cur pend (fun r => for_some (free_pointer free_zero) r proto) F Hx E1 Hk) as H.
    rewrite E1, Eb in H. apply H. cbn. intros K r1 hs1 F1. exact (free_object_pointer_drops kind ext ext_nonneg h0 free_zero proto K r1 hs1 (q :: cur) pend F1).
  - eexists _, hs. split; [done|]. split; [|apply put_shrinks]. apply drop_counted; [done | done | lia | apply A].
Qed.

Lemma free_var_ref_drops q : kind q = KVarRef -> drops (fun r => free_var_ref free_zero r q) [q].
Proof using ext_nonneg.
  intros Hkq r hs cur pend F. cbn [app] in F. destruct (drop_reference kind ext ext_nonneg h0 r hs cur q pend F) as (x & Hx & H1 & Hkx & A & Hlive).
  assert (kept kind q = false) as Hk by (unfold kept; now rewrite Hkq). rewrite Hkq in Hkx.
  unfold free_var_ref. rewrite Hx. cbn [mbind option_bind]. destruct (Z.ltb_spec 0 (ref_count x)); [|lia]. cbn [negb].
  rewrite (decrement_some r q x Hx). cbn [mbind option_bind]. destruct (Z.eqb_spec (ref_count x - 1) 0) as [E|Hne].
  - assert (ref_count x = 1) as E1 by lia. destruct (body x) as [| |is_detached value async_func| | | |] eqn:Eb; try discriminate.
    pose proof (eager_drops kind ext ext_nonneg h0 q x r hs cur pend
      (fun r => if is_detached then JS_FreeValueRT free_zero r value else for_some (async_func_free free_zero) r async_func) F Hx E1 Hk) as H2.
    rewrite Eb in H2. apply H2. cbn. intros [K1 K2] r1 hs1 F1. destruct is_detached.
    + exact (JS_FreeValueRT_drops kind ext ext_nonneg h0 free_zero value K1 r1 hs1 (q :: cur) pend F1).
    + refine (drops_for_some kind ext h0 (async_func_free free_zero) async_func _ r1 hs1 (q :: cur) pend F1). intros p ->. now apply async_func_free_drops.
  - eexists _, hs. split; [done|]. split; [|apply put_shrinks]. apply drop_counted; [done | done | lia | apply A].
Qed.

(** The list of modules of the context being freed *)
Lemma js_free_modules_drops ctx modules : kind ctx = KContext -> Forall (fun p => kind p = KModule) modules ->
  forall r hs cur pend, freeing_rt r hs (ctx :: cur) (modules ++ pend) ->
  exists r' hs', js_free_modules free_zero r ctx modules = Some r' /\ freeing_rt r' hs' (ctx :: cur) pend /\ shrinks r r'.
Proof using ext_nonneg.
  intros Hk. induction modules as [|m modules IH]; intros HK r hs cur pend F; cbn [js_free_modules]; [now exists r, hs|].
  apply Forall_cons in HK as [Hm HK]. destruct (fr_cur F ctx) as (x & Hx & _); [apply list_elem_of_here|].
  pose proof (ac_kind (fr_accounts F) ctx x Hx) as Hkx. rewrite Hk in Hkx. unfold set_modules. rewrite Hx. cbn [mbind option_bind].
  destruct (body x) as [| | | | |ms values shapes|] eqn:Eb; try discriminate.
  cbn [mbind option_bind]. set (r1 := put_object r ctx _). assert (freeing_rt r1 hs (ctx :: cur) (m :: modules ++ pend)) as F1.
  { apply (step_body kind ext h0 _ _ _ _ _ _ _ _ ctx x); [exact F | apply list_elem_of_here | done | now rewrite Eb]. }
  assert (shrinks r r1) as S1 by apply put_shrinks. clearbody r1.
  assert (kept kind m = true) as Hkm by (unfold kept; now rewrite Hm).
  destruct (free_pointer_drops kind ext ext_nonneg h0 free_zero m Hkm r1 hs (ctx :: cur) (modules ++ pend) F1) as (r2 & hs2 & -> & F2 & S2). cbn [mbind option_bind].
  destruct (IH HK r2 hs2 cur pend F2) as (r3 & hs3 & E3 & F3 & S3). exists r3, hs3. split_and!; [done | done|]. transitivity r2; [now transitivity r1 | done].
Qed.

Lemma JS_FreeContext_drops q : kind q = KContext -> drops (fun r => JS_FreeContext free_zero r q) [q].
Proof using ext_nonneg.
  intros Hkq r hs cur pend F. cbn [app] in F. destruct (drop_reference kind ext ext_nonneg h0 r hs cur q pend F) as (x & Hx & H1 & Hkx & A & Hlive).
  assert (kept kind q = false) as Hk by (unfold kept; now rewrite Hkq). rewrite Hkq in Hkx.
  unfold JS_FreeContext. rewrite (decrement_some r q x Hx). cbn [mbind option_bind]. destruct (Z.ltb_spec 0 (ref_count x - 1)) as [Hgt|Hle].
  { eexists _, hs. split; [done|]. split; [|apply put_shrinks]. apply drop_counted; [done | done | lia | apply A]. }
  assert (ref_count x = 1) as E1 by lia. cbn [gc put_object with_heap heap]. rewrite lookup_insert_eq. cbn [mbind option_bind body]. rewrite E1. cbn [negb Z.eqb Z.sub Z.add Z.opp Z.pos_sub].
  destruct (body x) as [| | | | |modules values shapes|] eqn:Eb; try discriminate.
  pose proof (eager_drops kind ext ext_nonneg h0 q x r hs cur pend (fun r =>
    r ← js_free_modules free_zero r q modules; r ← for_each (JS_FreeValueRT free_zero) r values; for_each (for_some (js_free_shape free_zero)) r shapes) F Hx E1 Hk) as H2.
  rewrite Eb, E1 in H2. cbn [mark_children] in H2. destruct H2 as (r' & hs' & E' & H2).
  - cbn. unfold JS_MarkContext. intros (K1 & K2 & K3) r1 hs1 F1. rewrite <- !app_assoc in F1.
    destruct (js_free_modules_drops q modules Hkq K1 r1 hs1 cur _ F1) as (r2 & hs2 & -> & F2 & S2). cbn [mbind option_bind]. rewrite app_assoc in F2.
    destruct (drops_bind kind ext h0 (fun r => for_each (JS_FreeValueRT free_zero) r values) (fun r => for_each (for_some (js_free_shape free_zero)) r shapes)
      (concat (map JS_MarkValue values)) (concat (map mark_pointer shapes))) with (r := r2) (hs := hs2) (cur := q :: cur) (pend := pend) as (r3 & hs3 & E3 & F3 & S3).
    + now apply free_values_drops.
    + apply drops_for_each. intros o Ho. apply drops_for_some. intros p ->. rewrite Forall_forall in K3. apply js_free_shape_drops. exact (K3 _ Ho).
    + done.
    + exists r3, hs3. split_and!; [exact E3 | done | now transitivity r2].
  - exists r', hs'. split; [|done]. rewrite <- E'. cbn. destruct (js_free_modules free_zero _ q modules); [|done]. cbn. now destruct (for_each _ _ values).
Qed.

Lemma free_property_drops pr : property_kinds kind pr -> drops (fun r => free_property free_zero r pr) (mark_property pr).
Proof using ext_nonneg.
  destruct pr as [|v|getter setter|var_ref|realm]; cbn.
  - intros _. exact (drops_nil kind ext h0).
  - intros H. now apply JS_FreeValueRT_drops.
  - intros [H1 H2]. apply (drops_bind kind ext h0 (fun r => for_some (free_pointer free_zero) r getter) (fun r => for_some (free_pointer free_zero) r setter));
      now apply free_object_pointer_drops.
  - apply free_var_ref_drops.
  - apply JS_FreeContext_drops.
Qed.

(** The references of a finalizer: the kind of the object tells the function. *)
Lemma free_reference_drops q : drops (fun r => free_reference free_zero r q) [q].
Proof using ext_nonneg.
  intros r hs cur pend F. pose proof F as F0. cbn [app] in F0. destruct (drop_reference kind ext ext_nonneg h0 r hs cur q pend F0) as (x & Hx & _ & Hk & _).
  unfold free_reference. rewrite Hx. cbn [mbind option_bind]. destruct (body x) eqn:E; cbn in Hk; symmetry in Hk.
  - refine (free_pointer_drops kind ext ext_nonneg h0 free_zero q _ r hs cur pend F). unfold kept. now rewrite Hk.
  - refine (free_pointer_drops kind ext ext_nonneg h0 free_zero q _ r hs cur pend F). unfold kept. now rewrite Hk.
  - exact (free_var_ref_drops q Hk r hs cur pend F).
  - exact (async_func_free_drops kind ext ext_nonneg h0 free_zero q Hk r hs cur pend F).
  - exact (js_free_shape_drops q Hk r hs cur pend F).
  - exact (JS_FreeContext_drops q Hk r hs cur pend F).
  - refine (free_pointer_drops kind ext ext_nonneg h0 free_zero q _ r hs cur pend F). unfold kept. now rewrite Hk.
Qed.

(** ** The objects *)

(** What [free_gc_object] does with the references of an object, before its
    structure. *)
Definition free_fields (b : gc_body) (r : gc_runtime) : option gc_runtime :=
  match b with
  | JS_GC_OBJ_TYPE_JS_OBJECT shape prop class_mark =>
      r ← for_each (free_property free_zero) r prop; r ← js_free_shape free_zero r shape; for_each (free_reference free_zero) r class_mark
  | JS_GC_OBJ_TYPE_FUNCTION_BYTECODE cpool realm => r ← for_each (JS_FreeValueRT free_zero) r cpool; for_some (JS_FreeContext free_zero) r realm
  | JS_GC_OBJ_TYPE_ASYNC_FUNCTION is_completed cur_func this_val stack resolving0 resolving1 =>
      r ← (if is_completed then Some r else async_func_free_frame free_zero r cur_func this_val stack);
      r ← JS_FreeValueRT free_zero r resolving0; JS_FreeValueRT free_zero r resolving1
  | JS_GC_OBJ_TYPE_MODULE attributes var_refs values =>
      r ← for_each (JS_FreeValueRT free_zero) r attributes; r ← for_each (for_some (free_var_ref free_zero)) r var_refs; for_each (JS_FreeValueRT free_zero) r values
  | _ => None
  end.

Lemma concat_singletons (l : list nat) : concat (map (fun p => [p]) l) = l.
Proof. induction l as [|p l IH]; cbn; [done | now rewrite IH]. Qed.

Lemma free_fields_drops b : is_kept_kind (kind_of b) = true -> body_kinds kind b -> is_running b = false -> drops (free_fields b) (mark_children b).
Proof using ext_nonneg.
  destruct b as [shape prop class_mark|cpool realm| |is_completed cur_func this_val stack r0 r1| | |attributes var_refs values]; try discriminate; intros _ K Hrun; cbn in K.
  - destruct K as [K1 K2]. rewrite Forall_forall in K2.
    apply (drops_perm kind ext h0 _ (concat (map mark_property prop) ++ shape :: class_mark)); [symmetry; apply Permutation_middle|].
    apply (drops_bind kind ext h0 (fun r => for_each (free_property free_zero) r prop)
      (fun r => r ← js_free_shape free_zero r shape; for_each (free_reference free_zero) r class_mark)).
    + apply drops_for_each. intros pr Hpr. now apply free_property_drops, K2.
    + apply (drops_bind kind ext h0 (fun r => js_free_shape free_zero r shape) (fun r => for_each (free_reference free_zero) r class_mark) [shape]); [now apply js_free_shape_drops|].
      pose proof (drops_for_each kind ext h0 (free_reference free_zero) (fun p => [p]) class_mark (fun p _ => free_reference_drops p)) as D.
      now rewrite concat_singletons in D.
  - destruct K as [K1 K2]. apply (drops_bind kind ext h0 (fun r => for_each (JS_FreeValueRT free_zero) r cpool) (fun r => for_some (JS_FreeContext free_zero) r realm));
      [now apply free_values_drops|]. apply drops_for_some. intros p ->. now apply JS_FreeContext_drops.
  - destruct K as (K1 & K2 & K3 & K4 & K5).
    apply (drops_bind kind ext h0 (fun r => if is_completed then Some r else async_func_free_frame free_zero r cur_func this_val stack)
      (fun r => r ← JS_FreeValueRT free_zero r r0; JS_FreeValueRT free_zero r r1)).
    + destruct is_completed; [apply drops_nil|]. destruct stack as [stack|]; [|discriminate]. unfold async_func_free_frame. cbn [mbind option_bind].
      apply (drops_perm kind ext h0 _ (concat (map JS_MarkValue stack) ++ JS_MarkValue cur_func ++ JS_MarkValue this_val)); [now rewrite !app_assoc, (Permutation_app_comm _ (concat _)), !app_assoc|].
      apply (drops_bind kind ext h0 (fun r => for_each (JS_FreeValueRT free_zero) r stack)
        (fun r => r ← JS_FreeValueRT free_zero r cur_func; JS_FreeValueRT free_zero r this_val)); [now apply free_values_drops|].
      apply (drops_bind kind ext h0 (fun r => JS_FreeValueRT free_zero r cur_func) (fun r => JS_FreeValueRT free_zero r this_val)); now apply JS_FreeValueRT_drops.
    + apply (drops_bind kind ext h0 (fun r => JS_FreeValueRT free_zero r r0) (fun r => JS_FreeValueRT free_zero r r1)); now apply JS_FreeValueRT_drops.
  - destruct K as (K1 & K2 & K3). unfold js_mark_module_def. cbn [mark_children]. unfold js_mark_module_def.
    apply (drops_bind kind ext h0 (fun r => for_each (JS_FreeValueRT free_zero) r attributes)
      (fun r => r ← for_each (for_some (free_var_ref free_zero)) r var_refs; for_each (JS_FreeValueRT free_zero) r values)); [now apply free_values_drops|].
    apply (drops_bind kind ext h0 (fun r => for_each (for_some (free_var_ref free_zero)) r var_refs) (fun r => for_each (JS_FreeValueRT free_zero) r values)); [|now apply free_values_drops].
    apply drops_for_each. intros o Ho. apply drops_for_some. intros p ->. rewrite Forall_forall in K2. apply free_var_ref_drops. exact (K2 _ Ho).
Qed.

(** The fields, the list of the context for a module, and the structure. *)
Lemma free_gc_object_fields r p x : heap (gc r) !! p = Some x ->
  free_gc_object free_zero r p =
    (r ← free_fields (body x) r;
     free_structure (if bool_decide (kind_of (body x) = KModule) then with_heap r (drop_module p <$> heap (gc r)) else r) p).
Proof using Type.
  intros Hx. unfold free_gc_object. rewrite Hx. cbn [mbind option_bind]. destruct (body x) as [shape prop class_mark|cpool realm| |is_completed cur_func this_val stack r0 r1| | |attributes var_refs values]; cbn; try done.
  - unfold free_object. destruct (for_each _ _ prop) as [s|]; [|done]. cbn. now destruct (js_free_shape _ s shape).
  - unfold free_function_bytecode. now destruct (for_each _ _ cpool).
  - unfold __async_func_free. destruct (if is_completed then Some r else _) as [s|]; [|done]. cbn. now destruct (JS_FreeValueRT _ s r0).
  - unfold js_free_module_def. destruct (for_each _ _ attributes) as [s|]; [|done]. cbn. now destruct (for_each _ s var_refs).
Qed.

(** An object is freed: outside of a cycle it is gone, in a cycle it leaves the
    list of the objects to be freed. *)
Lemma free_gc_object_freed r hs p : freeing_rt r hs [] [] -> p ∈ hs -> ~ live ext h0 p -> kept kind p = true ->
  (gc_phase r = JS_GC_PHASE_DECREF -> p ∈ gc_zero_ref_count_list r) ->
  exists r' hs', free_gc_object free_zero r p = Some r' /\ freeing_rt r' hs' [] [] /\ shrinks r r' /\ (p ∉ tmp_obj_list (gc r')) /\
    (gc_phase r = JS_GC_PHASE_DECREF -> p ∉ objects_of r').
Proof using ext_nonneg.
  intros F Hp Hlive Hk HZ. destruct (ac_holder (fr_accounts F) p Hp) as (x & Hx & Ex).
  pose proof (ac_kind (fr_accounts F) p x Hx) as Hkx. destruct (ac_kinds (fr_accounts F) p x Hp Hx) as [K Hrun].
  assert (<[p := mk_gc (ref_count x) (mark x) (body x)]> (heap (gc r)) = heap (gc r)) as Eid by (apply insert_id; now destruct x).
  assert (is_running (body x) = false) as Hr.
  { destruct (is_running (body x)); [|done]. destruct Hlive. now apply live_root, Hrun. }
  assert (freeing_rt r (unlink p hs) [p] (mark_children (body x) ++ [])) as F1.
  { unfold freeing_rt. rewrite <- Eid. apply (step_enter kind ext ext_nonneg h0 _ _ _ _ _ hs [] []); try done.
    - rewrite Eid. apply (fr_accounts F).
    - intros He. destruct (gc_phase r) eqn:Eph; [now destruct (fr_phase F) | | now rewrite (He eq_refl) in Hk].
      destruct (fr_decref F Eph) as [_ Hz]. destruct (Hz p (HZ eq_refl)) as (_ & y & Hy & E0). rewrite Hx in Hy. now injection Hy as <-. }
  destruct (free_fields_drops (body x)) with (r := r) (hs := unlink p hs) (cur := [p]) (pend := @nil nat) as (r1 & hs1 & E1 & F2 & S1); try done; [now rewrite Hkx|].
  rewrite (free_gc_object_fields r p x Hx), E1. cbn [mbind option_bind].
  set (r2 := if bool_decide _ then _ else r1). assert (freeing_rt r2 hs1 [p] []) as F3.
  { subst r2. destruct (bool_decide_reflect (kind_of (body x) = KModule)) as [Em|_]; [|done]. apply (step_module kind ext h0); [done | apply list_elem_of_here | congruence]. }
  assert (shrinks r1 r2) as S2 by (subst r2; destruct (bool_decide _); [now constructor | done]). clearbody r2.
  destruct (freed_or_kept kind ext h0 r2 hs1 [] [] p F3 Hk) as (r3 & E3 & F4 & S3 & N1 & N2). exists r3, hs1.
  assert (shrinks r r2) as S by now transitivity r1. split_and!; [done | done | now transitivity r2 | done|]. intros E. apply N2. now rewrite (sh_phase _ _ S).
Qed.
End Funs.
