(* ===== verification/GcFreeSpec.v ===== *)
(** * Reference counting and collection free exactly what they should

    [JS_FreeValue] and [JS_RunGC] on a consistent runtime: they return, no
    structure is used after it was freed, the counts are exact again, and what
    a reference from outside reaches is left as it was; after a collection
    nothing else is left. *)

From Stdlib Require Import ZArith Lia Bool.
From stdpp Require Import base numbers list option gmap.
From S2P Require Import Prelude Gc GcSpec GcFree GcFreeInv GcFreeStep GcFreeOps GcFreeFuns.

#[local] Open Scope Z_scope.

(** A runtime between two operations: every object is in [gc_obj_list], its
    pointers have the types of their fields, and its count is at least 1 and is
    the references to it from outside, [ext], and from the objects.  A running
    function is on the stack, which refers to it. *)
Record consistent (kind : nat -> gc_kind) (ext : nat -> Z) (r : gc_runtime) : Prop := mk_consistent_rt {
  rc_phase : gc_phase r = JS_GC_PHASE_NONE;
  rc_tmp : tmp_obj_list (gc r) = [];
  rc_zero : gc_zero_ref_count_list r = [];
  rc_ext : forall p, 0 <= ext p /\ (0 < ext p -> p ∈ gc_obj_list (gc r));
  rc_nodup : NoDup (gc_obj_list (gc r));
  rc_dom : forall p, is_Some (heap (gc r) !! p) <-> p ∈ gc_obj_list (gc r);
  rc_closed : forall p q, p ∈ gc_obj_list (gc r) -> q ∈ children_of (heap (gc r)) p -> q ∈ gc_obj_list (gc r);
  rc_count : forall p x, heap (gc r) !! p = Some x -> 1 <= ref_count x /\ ref_count x = ext p + references (heap (gc r)) (gc_obj_list (gc r)) p;
  rc_object : forall p x, heap (gc r) !! p = Some x -> mark x = false /\ kind_of (body x) = kind p /\ body_kinds kind (body x) /\ (is_running (body x) = true -> 0 < ext p);
}.

(** The objects that are left hold what they held. *)
Definition same_bodies (r r' : gc_runtime) : Prop :=
  forall p, p ∈ gc_obj_list (gc r') -> exists x x', heap (gc r) !! p = Some x /\ heap (gc r') !! p = Some x' /\ body x' = body x.

(** One of the outside references to [p] goes. *)
Definition one_less (ext : nat -> Z) (p q : nat) : Z := if (q =? p)%nat then ext q - 1 else ext q.

Lemma shorter (l l' : list nat) p : NoDup l' -> (forall q, q ∈ l' -> q ∈ l) -> p ∈ l -> p ∉ l' -> (length l' < length l)%nat.
Proof.
  intros Hnd Hin Hp Hp'. assert (NoDup (p :: l')) as H by now apply NoDup_cons.
  apply NoDup_ListNoDup in H. apply (List.NoDup_incl_length (l' := l)) in H; [cbn in H; lia|].
  intros q Hq. apply list_elem_of_In. apply list_elem_of_In, elem_of_cons in Hq as [->|Hq]; auto.
Qed.

(** ** The list of objects without references *)

Section Zero.
Context (kind : nat -> gc_kind) (ext : nat -> Z) (ext_nonneg : forall p, 0 <= ext p) (h0 : gmap nat JSGCObjectHeader).

#[local] Abbreviation freeing_rt := (freeing_rt kind ext h0).

Lemma zero_loop fuel : forall r hs, freeing_rt r hs [] [] -> gc_phase r = JS_GC_PHASE_DECREF -> (length (objects_of r) <= fuel)%nat ->
  exists r' hs', free_zero_loop fuel r = Some r' /\ freeing_rt r' hs' [] [] /\ shrinks r r' /\ gc_zero_ref_count_list r' = [].
Proof using ext_nonneg.
  induction fuel as [|fuel IH]; intros r hs F Eph Hf; cbn [free_zero_loop]; destruct (gc_zero_ref_count_list r) as [|p Z0] eqn:EZ; [now exists r, hs | | now exists r, hs |].
  - exfalso. unfold objects_of in Hf. rewrite EZ, !length_app in Hf. cbn in Hf. lia.
  - destruct (fr_decref F Eph) as [ET Hz]. destruct (Hz p) as (Hk & x & Hx & E0); [rewrite EZ; apply list_elem_of_here|].
    assert (p ∈ objects_of r) as Ho by (unfold objects_of; rewrite EZ, !elem_of_app, elem_of_cons; tauto).
    assert (p ∈ hs) as Hp.
    { apply (fr_holders F). split; [exact Ho|]. split; [apply not_elem_of_nil|]. rewrite Eph. intros (? & _). discriminate. }
    assert (~ live ext h0 p) as Hlive.
    { intros Hl. destruct (fr_live F p Hl) as [HL _]. pose proof (fr_nodup F) as Hnd. rewrite EZ in Hnd. apply NoDup_app in Hnd as (_ & Hd & _).
      apply (Hd p HL). rewrite elem_of_app, elem_of_cons. tauto. }
    rewrite Hx. cbn [mbind option_bind]. rewrite E0. cbn [negb Z.eqb].
    match goal with |- context [free_gc_object ?f r p] => destruct (free_gc_object_freed kind ext ext_nonneg h0 f r hs p F Hp Hlive Hk) as (r1 & hs1 & -> & F1 & S1 & _ & N1) end.
    { intros _. rewrite EZ. apply list_elem_of_here. }
    cbn [mbind option_bind]. destruct (IH r1 hs1 F1) as (r2 & hs2 & E2 & F2 & S2 & Z2).
    + now rewrite (sh_phase _ _ S1).
    + pose proof (shorter (objects_of r) (objects_of r1) p (fr_nodup F1) (sh_objects _ _ S1) Ho (N1 Eph)). lia.
    + exists r2, hs2. split_and!; [done | done | now transitivity r1 | done].
Qed.

(** Nothing is left to be freed: the runtime is consistent. *)
Lemma freed_consistent r hs : freeing_rt r hs [] [] -> gc_phase r = JS_GC_PHASE_DECREF -> gc_zero_ref_count_list r = [] ->
  consistent kind ext (with_phase r JS_GC_PHASE_NONE).
Proof using ext_nonneg.
  intros F Eph EZ. destruct (fr_decref F Eph) as [ET _].
  assert (forall p, p ∈ objects_of r <-> p ∈ gc_obj_list (gc r)) as Eo by (intros p; unfold objects_of; rewrite ET, EZ, !app_nil_r; done).
  assert (forall p, p ∈ hs <-> p ∈ gc_obj_list (gc r)) as Eh.
  { intros p. rewrite (fr_holders F), <- Eo. split; [now intros [? _]|]. intros H. split; [done|]. split; [apply not_elem_of_nil|]. rewrite Eph. intros (? & _). discriminate. }
  assert (NoDup (gc_obj_list (gc r))) as Hnd by (pose proof (fr_nodup F) as H; now apply NoDup_app in H as [H _]).
  assert (forall p, references (heap (gc r)) (gc_obj_list (gc r)) p = references (heap (gc r)) hs p) as Er.
  { intros p. apply references_perm, NoDup_Permutation; [done | exact (ac_nodup (fr_accounts F)) | intros q; now rewrite Eh]. }
  assert (forall p, is_Some (heap (gc r) !! p) <-> p ∈ gc_obj_list (gc r)) as Hdom by (intros p; rewrite (fr_dom F); apply Eo).
  constructor; try done; cbn.
  - intros p. split; [done|]. intros He. now destruct (fr_live F p (live_root _ _ p He)).
  - intros p q Hp Hq. apply Hdom. apply (ac_present (fr_accounts F)). rewrite <- Er. pose proof (references_in _ _ q p Hp Hq). cbn. lia.
  - intros p x Hx. assert (p ∈ gc_obj_list (gc r)) as Hp by (apply Hdom; eauto). split.
    + apply (fr_count F p x Hx); [apply not_elem_of_nil | now left].
    + destruct (ac_holder (fr_accounts F) p) as (y & Hy & E); [now apply Eh|]. rewrite Hx in Hy. injection Hy as <-. rewrite Er, E. cbn. lia.
  - intros p x Hx. assert (p ∈ gc_obj_list (gc r)) as Hp by (apply Hdom; eauto).
    destruct (ac_kinds (fr_accounts F) p x) as [K R]; [now apply Eh | done|]. split_and!; [exact (fr_mark F p x Hp Hx) | exact (ac_kind (fr_accounts F) p x Hx) | done | done].
Qed.

Lemma freeing_bodies r hs : freeing_rt r hs [] [] -> forall p, p ∈ gc_obj_list (gc r) -> exists x x', h0 !! p = Some x /\ heap (gc r) !! p = Some x' /\ body x' = body x.
Proof using Type.
  intros F p Hp. assert (p ∈ objects_of r) as Ho by (unfold objects_of; rewrite elem_of_app; tauto). destruct (proj2 (fr_dom F p) Ho) as [x' Hx'].
  destruct (fr_body F p x') as (x & Hx & E); [| done | done | now exists x, x'].
  apply (fr_holders F). split; [done|]. split; [apply not_elem_of_nil|]. intros (_ & HZ & _). pose proof (fr_nodup F) as Hnd. apply NoDup_app in Hnd as (_ & Hd & _).
  apply (Hd p Hp). rewrite elem_of_app. tauto.
Qed.
End Zero.

(** ** A reference is dropped *)

Section FreeValue.
Context (kind : nat -> gc_kind) (ext : nat -> Z) (r : gc_runtime) (C : consistent kind ext r) (p : nat) (Hext : 0 < ext p) (Hp : is_value_kind (kind p) = true).

Lemma one_less_nonneg q : 0 <= one_less ext p q.
Proof using C Hext. unfold one_less. destruct (Nat.eqb_spec q p) as [->|_]; [lia|]. now destruct (rc_ext _ _ _ C q). Qed.

Lemma live_listed q : live (one_less ext p) (heap (gc r)) q -> q ∈ gc_obj_list (gc r).
Proof using C.
  induction 1 as [q Hq|q c Hq IH Hc]; [|now apply (rc_closed _ _ _ C q)]. apply (rc_ext _ _ _ C q). unfold one_less in Hq. destruct (q =? p)%nat; lia.
Qed.

(** The reference is no longer counted as one from outside, and is to be dropped. *)
Lemma freeing_start : freeing_rt kind (one_less ext p) (heap (gc r)) (with_phase r JS_GC_PHASE_DECREF) (gc_obj_list (gc r)) [] [p].
Proof using C Hext Hp.
  pose proof C as [C1 C2 C3 C4 C5 C6 C7 C8 C9]. unfold freeing_rt. cbn. rewrite C2, C3.
  assert (forall q, one_less ext p q + occurrences q [p] = ext q) as Ee by (intros q; unfold one_less; cbn; rewrite (Nat.eqb_sym p q); destruct (q =? p)%nat; lia).
  constructor; try done; rewrite ?app_nil_r.
  - constructor.
    + done.
    + intros q Hq. destruct (proj2 (C6 q) Hq) as [x Hx]. exists x. split; [done|]. destruct (C8 q x Hx) as [_ ->]. specialize (Ee q). lia.
    + intros q Hq. apply C6. destruct (decide (q = p)) as [->|Hne]; [now apply C4|]. specialize (Ee q). unfold one_less in Ee.
      destruct (Nat.eqb_spec q p); [done|]. assert (0 < references (heap (gc r)) (gc_obj_list (gc r)) q) as Hr by lia. clear -Hr C7.
      assert (forall l, (forall c, c ∈ l -> c ∈ gc_obj_list (gc r)) -> 0 < references (heap (gc r)) l q -> q ∈ gc_obj_list (gc r)) as H; [|now apply (H (gc_obj_list (gc r)))].
      induction l as [|c l IH]; cbn; intros Hl Hq; [lia|]. destruct (decide (q ∈ children_of (heap (gc r)) c)) as [Hin|Hnin].
      * apply (C7 c); [apply Hl, list_elem_of_here | done].
      * apply IH; [intros d Hd; apply Hl; now apply list_elem_of_further|]. assert (occurrences q (children_of (heap (gc r)) c) = 0) as E; [|lia].
        clear -Hnin. induction (children_of (heap (gc r)) c) as [|d cs IH]; cbn; [done|]. apply not_elem_of_cons in Hnin as [H1 H2]. rewrite (IH H2).
        destruct (Nat.eqb_spec d q); [congruence | done].
    + intros q x Hx Hq. destruct Hq. apply C6. eauto.
    + intros q x Hx. apply (C9 q x Hx).
    + intros q x Hq Hx. destruct (C9 q x Hx) as (_ & Hk & K & R). split; [done|]. intros Hr. specialize (R Hr). unfold one_less.
      destruct (Nat.eqb_spec q p) as [->|_]; [|done]. rewrite <- Hk in Hp. now destruct (body x).
  - exact C5.
  - exact C6.
  - intros q. split; [|now intros [? _]]. intros Hq. split_and!; [done | apply not_elem_of_nil|]. intros (? & _). discriminate.
  - intros q Hq. split; [now apply live_listed | apply not_elem_of_nil].
  - intros q x Hq _ Hx. now exists x.
  - intros q x _ Hx. now apply (C9 q x Hx).
  - apply NoDup_nil_2.
  - now intros q Hq%elem_of_nil.
  - intros q x Hx _ _. now apply (C8 q x Hx).
  - intros _. split; [done|]. now intros q Hq%elem_of_nil.
Qed.

(** [JS_FreeValue] does in one go what happens in the loop of [free_zero_refcount]. *)
Lemma JS_FreeValue_loop fuel : (length (gc_obj_list (gc r)) <= fuel)%nat ->
  exists r1 r' hs', JS_FreeValue fuel r (GcPointer p) = Some (with_phase r' JS_GC_PHASE_NONE) /\ freeing_rt kind (one_less ext p) (heap (gc r)) r' hs' [] [] /\
    shrinks r1 r' /\ gc_zero_ref_count_list r' = [] /\ gc_phase r' = JS_GC_PHASE_DECREF /\ r1 = with_phase r JS_GC_PHASE_DECREF.
Proof using C Hext Hp.
  intros Hf. pose proof freeing_start as F. pose proof one_less_nonneg as Hnn. set (r0 := with_phase r JS_GC_PHASE_DECREF) in *.
  destruct (drop_reference kind _ Hnn _ r0 _ [] p [] F) as (x & Hx & H1 & Hk & A & Hlive).
  assert (kept kind p = true) as Hkept by (unfold kept; now destruct (kind p)).
  unfold JS_FreeValue, JS_FreeValueRT, free_pointer. change (heap (gc r0)) with (heap (gc r)) in *. rewrite (decrement_some r p x Hx). cbn [mbind option_bind].
  destruct (Z.leb_spec (ref_count x - 1) 0) as [Hle|Hgt].
  - assert (ref_count x = 1) as E1 by lia. specialize (A true). rewrite E1 in A. cbn in A.
    destruct (drop_queued kind (one_less ext p) (heap (gc r)) r0 _ [] p [] x true F Hx E1 (Hlive E1) A ltac:(discriminate) Hkept) as [F1 S1].
    match type of F1 with freeing_rt _ _ _ ?s _ _ _ => set (r1 := s) in * end.
    destruct (zero_loop kind (one_less ext p) Hnn _ fuel r1 _ F1 eq_refl) as (r2 & hs2 & E2 & F2 & S2 & Z2).
    { pose proof (NoDup_ListNoDup (objects_of r1)) as [Hnd _]. specialize (Hnd (fr_nodup F1)).
      apply (List.NoDup_incl_length (l' := gc_obj_list (gc r))) in Hnd; [lia|]. intros q Hq. apply list_elem_of_In in Hq. apply list_elem_of_In.
      apply (sh_objects _ _ S1) in Hq. unfold objects_of in Hq. cbn in Hq. now rewrite (rc_tmp _ _ _ C), (rc_zero _ _ _ C), !app_nil_r in Hq. }
    exists r0, r2, hs2. split_and!; [| done | now transitivity r1 | done | now rewrite (sh_phase _ _ S2) | done].
    unfold free_value_object. cbn [gc_phase put_object with_heap]. rewrite (rc_phase _ _ _ C). cbn.
    rewrite lookup_insert_eq. cbn. unfold free_zero_refcount, put_object, with_heap, add_zero_first, list_del, with_phase. cbn [gc heap gc_obj_list tmp_obj_list gc_zero_ref_count_list gc_phase].
    rewrite insert_insert_eq, E1. cbn. 
    match goal with |- context [free_zero_loop fuel ?s] => change s with r1 end. rewrite E2.
    rewrite bool_decide_false by discriminate. now rewrite bool_decide_true by exact (rc_phase _ _ _ C).
  - pose proof (drop_counted kind (one_less ext p) (heap (gc r)) r0 _ [] p [] x F Hx ltac:(lia) (A _)) as F1.
    eexists r0, _, _. split; [|split; [exact F1|split; [apply put_shrinks | split; [apply C|done]]]].
    unfold put_object, with_heap, with_phase. cbn. now rewrite (rc_phase _ _ _ C).
Qed.
End FreeValue.

(** C6: dropping a reference is exact.  When [JS_FreeValue] drops one of the
    references from outside to an object it returns, without using a freed
    structure or failing an assertion; every count is again the number of the
    references that are left, and at least 1, so that nothing unreferenced stays
    but in cycles; and whatever a reference from outside still reaches is there
    with what it held. *)
Theorem free_value_exact kind ext r p fuel :
  consistent kind ext r -> 0 < ext p -> is_value_kind (kind p) = true -> (length (gc_obj_list (gc r)) <= fuel)%nat ->
  exists r', JS_FreeValue fuel r (GcPointer p) = Some r' /\ consistent kind (one_less ext p) r' /\ same_bodies r r' /\
    (forall q, live (one_less ext p) (heap (gc r)) q -> q ∈ gc_obj_list (gc r')).
Proof.
  intros C Hext Hp Hf. destruct (JS_FreeValue_loop kind ext r C p Hext Hp fuel Hf) as (r1 & r' & hs' & E & F & S & EZ & Eph & _).
  exists (with_phase r' JS_GC_PHASE_NONE). split_and!.
  - exact E.
  - apply (freed_consistent kind (one_less ext p) (one_less_nonneg kind ext r C p Hext) (heap (gc r)) r' hs' F Eph EZ).
  - exact (freeing_bodies kind (one_less ext p) (heap (gc r)) r' hs' F).
  - intros q Hq. now destruct (fr_live F q Hq).
Qed.

(** ** Examples *)

Definition small_kind (p : nat) : gc_kind := if (p =? 1)%nat then KShape else KObject.
Definition one_root (p : nat) : Z := if (p =? 0)%nat then 1 else 0.

(** A variable refers to an object, which refers to another of the same shape. *)
Definition small_chain : gc_runtime :=
  mk_gc_runtime
    (mk_gc_state
      (<[0%nat := mk_gc 1 false (JS_GC_OBJ_TYPE_JS_OBJECT 1 [JS_PROP_NORMAL (GcPointer 2)] [])]>
       (<[1%nat := mk_gc 2 false (JS_GC_OBJ_TYPE_SHAPE None)]>
        (<[2%nat := mk_gc 1 false (JS_GC_OBJ_TYPE_JS_OBJECT 1 [JS_PROP_NORMAL GcOther] [])]> ∅)))
      [0; 1; 2]%nat [])
    [] JS_GC_PHASE_NONE.

Lemma small_nonneg p : 0 <= one_root p.
Proof. unfold one_root. destruct (p =? 0)%nat; lia. Qed.

Ltac each_object H := repeat (apply lookup_insert_Some in H as [[<- <-]|[_ H]]; [|]); try (rewrite lookup_empty in H; discriminate).

Ltac each_member H := repeat (apply elem_of_cons in H as [->|H]; [|]); try (now apply elem_of_nil in H).

Lemma dom_check (h : gmap nat JSGCObjectHeader) l p : dom h = list_to_set l -> is_Some (h !! p) <-> p ∈ l.
Proof. intros E. rewrite <- elem_of_dom, E. apply elem_of_list_to_set. Qed.

Lemma small_chain_consistent : consistent small_kind one_root small_chain.
Proof.
  constructor; try reflexivity.
  - intros p. split; [apply small_nonneg|]. unfold one_root. destruct (Nat.eqb_spec p 0) as [->|_]; [|lia]. intros _. apply list_elem_of_here.
  - apply NoDup_ListNoDup. repeat constructor; cbn; lia.
  - intros p. apply dom_check. vm_compute. reflexivity.
  - now apply closed_check.
  - intros p x H. cbn [small_chain gc heap] in H. each_object H; (split; [cbn; lia | reflexivity]).
  - intros p x H. cbn [small_chain gc heap] in H. each_object H; cbn; split_and!; try done; repeat constructor.
Qed.

Lemma free_value_exact_witness :
  consistent small_kind one_root small_chain /\
  exists r', JS_FreeValue 3 small_chain (GcPointer 0) = Some r' /\ gc_obj_list (gc r') = [] /\ consistent small_kind (one_less one_root 0) r'.
Proof.
  split; [exact small_chain_consistent|].
  destruct (free_value_exact small_kind one_root small_chain 0 3 small_chain_consistent) as (r' & E & C & _); [reflexivity | reflexivity | cbn; lia|].
  exists r'. split; [exact E|]. split; [|exact C]. vm_compute in E. injection E as <-. reflexivity.
Defined.
