(* ===== verification/GcRun.v ===== *)
(** * A collection frees exactly the garbage

    [JS_RunGC]: the mark phase of [GcSpec] sets the garbage apart, and the loops
    of [gc_free_cycles] free it with the steps of [GcFreeFuns]. *)

From Stdlib Require Import ZArith Lia Bool.
From stdpp Require Import base numbers list option gmap.
From S2P Require Import Prelude Gc GcSpec GcFree GcFreeInv GcFreeStep GcFreeOps GcFreeFuns GcFreeSpec.

#[local] Open Scope Z_scope.

(** ** The removal of the cycles *)

Section Cycles.
Context (kind : nat -> gc_kind) (ext : nat -> Z) (ext_nonneg : forall p, 0 <= ext p) (h0 : gmap nat JSGCObjectHeader).

#[local] Abbreviation freeing_rt := (freeing_rt kind ext h0).

Lemma tmp_loop fuel : forall r hs, freeing_rt r hs [] [] -> gc_phase r = JS_GC_PHASE_REMOVE_CYCLES -> (length (tmp_obj_list (gc r)) <= fuel)%nat ->
  exists r' hs', free_tmp_loop fuel r = Some r' /\ freeing_rt r' hs' [] [] /\ shrinks r r' /\ tmp_obj_list (gc r') = [].
Proof using ext_nonneg.
  induction fuel as [|fuel IH]; intros r hs F Eph Hf; cbn [free_tmp_loop]; destruct (tmp_obj_list (gc r)) as [|p T] eqn:ET; [now exists r, hs | | now exists r, hs |]; [cbn in Hf; lia|].
  assert (p ∈ tmp_obj_list (gc r)) as HT by (rewrite ET; apply list_elem_of_here).
  assert (p ∈ objects_of r) as Ho by (unfold objects_of; rewrite !elem_of_app; tauto). destruct (proj2 (fr_dom F p) Ho) as [x Hx].
  pose proof (fr_nodup F) as Hnd. apply NoDup_app in Hnd as (_ & HL & Hnd). apply NoDup_app in Hnd as (HndT & HZ & _).
  assert (~ live ext h0 p) as Hlive by (intros Hl; destruct (fr_live F p Hl) as [H _]; apply (HL p H); rewrite elem_of_app; tauto).
  rewrite Hx. cbn [mbind option_bind]. rewrite frees_kind_spec, (ac_kind (fr_accounts F) p x Hx). fold (kept kind p).
  assert (exists r1 hs1, (if kept kind p then free_gc_object (free_zero_refcount fuel) r p else Some (add_zero_last (list_del r p) p)) = Some r1 /\
    freeing_rt r1 hs1 [] [] /\ shrinks r r1 /\ p ∉ tmp_obj_list (gc r1)) as (r1 & hs1 & -> & F1 & S1 & N1).
  { destruct (kept kind p) eqn:Hk.
    - assert (p ∈ hs) as Hp by (apply (fr_holders F); split; [exact Ho|]; split; [apply not_elem_of_nil|]; intros (_ & H & _); exact (HZ p HT H)).
      destruct (free_gc_object_freed kind ext ext_nonneg h0 (free_zero_refcount fuel) r hs p F Hp Hlive Hk) as (r1 & hs1 & E1 & F1 & S1 & N1 & _); [congruence|].
      now exists r1, hs1.
    - exists (add_zero_last (list_del r p) p), hs. split; [done|]. split; [|split].
      + unfold freeing_rt, GcFreeOps.freeing_rt in *. cbn. rewrite Eph in *. exact (step_move kind ext h0 _ _ _ _ hs [] [] p F HT Hk).
      + constructor; [done | | |]; unfold objects_of; cbn; intros q; rewrite ?elem_of_app, ?list_elem_of_singleton, ?unlink_elem; [|tauto|tauto].
        intros [[? _]|[[? _]|[[? _]|Eq]]]; [tauto | tauto | tauto | rewrite Eq; tauto].
      + cbn. rewrite unlink_elem. now intros [_ ?]. }
  cbn [mbind option_bind]. destruct (IH r1 hs1 F1) as (r2 & hs2 & E2 & F2 & S2 & T2).
  - now rewrite (sh_phase _ _ S1).
  - pose proof (fr_nodup F1) as H. apply NoDup_app in H as (_ & _ & H). apply NoDup_app in H as (H & _ & _).
    pose proof (shorter (tmp_obj_list (gc r)) (tmp_obj_list (gc r1)) p H (sh_tmp _ _ S1) HT N1) as Hlen. rewrite ET in Hlen. lia.
  - exists r2, hs2. split_and!; [done | done | now transitivity r1 | done].
Qed.

(** A reference comes from an object. *)
Lemma reference_from h l q : 0 < references h l q -> exists c, c ∈ l /\ q ∈ children_of h c.
Proof using Type.
  induction l as [|c l IH]; cbn; [lia|]. intros H. destruct (decide (q ∈ children_of h c)) as [Hin|Hnin]; [exists c; split; [apply list_elem_of_here | done]|].
  destruct IH as (d & Hd & Hq); [|exists d; split; [now apply list_elem_of_further | done]].
  assert (forall cs, q ∉ cs -> occurrences q cs = 0) as E; [|rewrite E in H by done; lia].
  induction cs as [|d cs IHc]; cbn; [done|]. intros [H1 H2]%not_elem_of_cons. rewrite (IHc H2). destruct (Nat.eqb_spec d q); [congruence | done].
Qed.

Lemma values_kept l q : Forall (to_value kind) l -> q ∈ concat (map JS_MarkValue l) -> kept kind q = true.
Proof using Type.
  rewrite Forall_forall. intros H Hq. apply list_elem_of_In, in_concat in Hq as (m & Hm & Hq). apply in_map_iff in Hm as (v & <- & Hv).
  apply list_elem_of_In in Hv, Hq. specialize (H v Hv). destruct v as [p|]; cbn in *; [|now apply elem_of_nil in Hq]. apply list_elem_of_singleton in Hq as ->. now apply value_kept.
Qed.

(** What the kinds freed at once refer to: a context to shapes, otherwise to the kinds kept. *)
Lemma eager_children b q : is_kept_kind (kind_of b) = false -> body_kinds kind b -> q ∈ mark_children b ->
  kept kind q = true \/ kind_of b = KContext /\ kind q = KShape.
Proof using Type.
  destruct b as [| |is_detached value async_func| |proto|modules values shapes|]; try discriminate; intros _ K Hq; cbn in K.
  - destruct K as [K1 K2]. left. cbn in Hq. destruct is_detached.
    + apply (values_kept [value]); [now constructor | cbn; now rewrite app_nil_r].
    + destruct async_func as [p|]; cbn in Hq; [|now apply elem_of_nil in Hq]. apply list_elem_of_singleton in Hq as ->. unfold kept. cbn in K2. now rewrite K2.
  - left. destruct proto as [p|]; cbn in Hq; [|now apply elem_of_nil in Hq]. apply list_elem_of_singleton in Hq as ->. now apply value_kept.
  - destruct K as (K1 & K2 & K3). cbn in Hq. unfold JS_MarkContext in Hq. rewrite !elem_of_app in Hq. destruct Hq as [Hq|[Hq|Hq]].
    + left. rewrite Forall_forall in K1. unfold kept. now rewrite (K1 q Hq).
    + left. now apply (values_kept values).
    + right. split; [done|]. rewrite Forall_forall in K3. apply list_elem_of_In, in_concat in Hq as (m & Hm & Hq). apply in_map_iff in Hm as (o & <- & Ho).
      apply list_elem_of_In in Ho, Hq. specialize (K3 o Ho). destruct o as [p|]; cbn in *; [|now apply elem_of_nil in Hq]. now apply list_elem_of_singleton in Hq as ->.
Qed.

Section Done.
Context (r : gc_runtime) (hs : list nat) (F : freeing_rt r hs [] []) (Eph : gc_phase r = JS_GC_PHASE_REMOVE_CYCLES) (ET : tmp_obj_list (gc r) = []).

Lemma waiting_holder q : q ∈ gc_zero_ref_count_list r -> kept kind q = false -> q ∈ hs.
Proof using F.
  intros Hq Hk. apply (fr_holders F). split; [rewrite !elem_of_app; tauto|]. split; [apply not_elem_of_nil|]. rewrite Hk. intros (_ & _ & ?). discriminate.
Qed.

(** Who refers to an object that still waits for its last reference. *)
Lemma waiting_referrer q : q ∈ gc_zero_ref_count_list r -> kept kind q = false ->
  exists c x, c ∈ gc_zero_ref_count_list r /\ kept kind c = false /\ heap (gc r) !! c = Some x /\ body_kinds kind (body x) /\ kind_of (body x) = kind c /\ q ∈ mark_children (body x).
Proof using F Eph ET.
  intros Hq Hk. pose proof (waiting_holder q Hq Hk) as Hh. destruct (ac_holder (fr_accounts F) q Hh) as (x & Hx & E).
  assert (1 <= ref_count x) as H1 by (apply (fr_count F q x Hx); [apply not_elem_of_nil | now right]).
  assert (~ live ext h0 q) as Hlive.
  { intros Hl. destruct (fr_live F q Hl) as [HL _]. pose proof (fr_nodup F) as Hnd. apply NoDup_app in Hnd as (_ & Hd & _). apply (Hd q HL). rewrite elem_of_app. tauto. }
  assert (ext q <= 0) as He by (destruct (Z.leb_spec (ext q) 0); [done|]; destruct Hlive; now apply live_root). cbn in E.
  destruct (reference_from (heap (gc r)) hs q) as (c & Hc & Hin); [lia|]. destruct (ac_holder (fr_accounts F) c Hc) as (y & Hy & _).
  unfold children_of in Hin. rewrite Hy in Hin. pose proof Hc as Hc'. apply (fr_holders F) in Hc' as (Ho & _ & Hw). rewrite ET, !elem_of_app in Ho.
  exists c, y. assert (c ∈ gc_zero_ref_count_list r) as HZ.
  { destruct Ho as [HL|[Hn|HZ]]; [|now apply elem_of_nil in Hn | done]. destruct Hlive. apply (live_child _ _ c); [now apply (fr_remove F Eph)|].
    destruct (fr_body F c y Hc (fun _ => HL) Hy) as (y0 & Hy0 & Eb). unfold children_of. rewrite Hy0. now rewrite <- Eb. }
  split_and!; [done | | done | | exact (ac_kind (fr_accounts F) c y Hy) | done].
  - destruct (kept kind c); [destruct Hw; done | done].
  - exact (proj1 (ac_kinds (fr_accounts F) c y Hc Hy)).
Qed.

(** Only kept structures are left to be freed. *)
Lemma only_kept q : q ∈ gc_zero_ref_count_list r -> kept kind q = true.
Proof using F Eph ET.
  intros Hq. destruct (kept kind q) eqn:Hk; [done|]. destruct (waiting_referrer q Hq Hk) as (c & x & Hc & Hkc & Hx & K & Ek & Hin).
  destruct (eager_children (body x) q) as [H|[H _]]; [unfold kept in Hkc; now rewrite Ek | done | done | congruence|]. rewrite Ek in H.
  destruct (waiting_referrer c Hc Hkc) as (d & y & Hd & Hkd & Hy & K' & Ek' & Hin').
  destruct (eager_children (body y) c) as [H'|[_ H']]; [unfold kept in Hkd; now rewrite Ek' | done | done | congruence | congruence].
Qed.
End Done.

(** ** The structures kept *)

Lemma kept_structures l : forall r, NoDup l -> (forall p, p ∈ l -> exists x, heap (gc r) !! p = Some x /\ frees_kind (body x) = true) ->
  exists h, for_each free_kept_structure r l = Some (with_heap r h) /\ (forall p, p ∈ l -> h !! p = None) /\ (forall p, p ∉ l -> h !! p = heap (gc r) !! p).
Proof using Type.
  induction l as [|p l IH]; intros r Hnd H; cbn [for_each].
  - exists (heap (gc r)). split_and!; [now destruct r as [[] ? ?] | now intros p Hp%elem_of_nil | done].
  - apply NoDup_cons in Hnd as [Hp Hnd]. destruct (H p) as (x & Hx & Ek); [apply list_elem_of_here|]. 
    assert (free_kept_structure r p = Some (with_heap r (delete p (heap (gc r))))) as ->.
    { unfold free_kept_structure, js_free_rt. rewrite Hx. cbn [mbind option_bind]. now rewrite Ek. }
    cbn [mbind option_bind].
    destruct (IH (with_heap r (delete p (heap (gc r)))) Hnd) as (h & E & H1 & H2).
    + intros q Hq. cbn. rewrite lookup_delete_ne by (intros ->; done). apply H. now apply list_elem_of_further.
    + exists h. split; [exact E|]. split.
      * intros q Hq. destruct (decide (q ∈ l)) as [Hin|Hnin]; [auto|]. apply elem_of_cons in Hq as [->|Hq]; [|done]. rewrite (H2 p Hnin). cbn. apply lookup_delete_eq.
      * intros q [Hne Hq]%not_elem_of_cons. rewrite (H2 q Hq). cbn. now rewrite lookup_delete_ne.
Qed.
End Cycles.

(** ** The collection *)

Section Collect.
Context (kind : nat -> gc_kind) (ext : nat -> Z) (r : gc_runtime) (C : consistent kind ext r).

Lemma consistent_heap : gc_consistent (gc r).
Proof using C.
  pose proof C as [C1 C2 C3 C4 C5 C6 C7 C8 C9]. constructor; [done | | done |].
  - intros p Hp. destruct (proj2 (C6 p) Hp) as [x Hx]. exists x. split; [done | now apply (C9 p x)].
  - intros p Hp. unfold external. destruct (proj2 (C6 p) Hp) as [x Hx]. rewrite Hx. destruct (C8 p x Hx) as [_ ->]. destruct (C4 p). lia.
Qed.

Lemma alive_live p : alive (heap (gc r)) (gc_obj_list (gc r)) p <-> live ext (heap (gc r)) p.
Proof using C.
  assert (forall q, q ∈ gc_obj_list (gc r) -> external (heap (gc r)) (gc_obj_list (gc r)) q = ext q) as E.
  { intros q Hq. unfold external. destruct (proj2 (rc_dom _ _ _ C q) Hq) as [x Hx]. rewrite Hx. destruct (rc_count _ _ _ C q x Hx) as [_ ->]. lia. }
  split; induction 1 as [q|q c _ IH Hc].
  - apply live_root. now rewrite <- E.
  - now apply (live_child _ _ q).
  - pose proof (proj2 (rc_ext _ _ _ C q)) as Hin. apply alive_root; [auto|]. rewrite E; auto.
  - now apply (alive_child _ _ q).
Qed.

(** What the mark phase leaves, at the start of the removal of the cycles *)
Lemma collect_start s' :
  (forall p, p ∈ gc_obj_list s' <-> alive (heap (gc r)) (gc_obj_list (gc r)) p) -> gc_obj_list s' ++ tmp_obj_list s' ≡ₚ gc_obj_list (gc r) ->
  (forall p x, p ∈ gc_obj_list (gc r) -> heap (gc r) !! p = Some x ->
      exists m, heap s' !! p = Some (mk_gc (ref_count x) m (body x)) /\ (p ∈ gc_obj_list s' -> m = false)) ->
  same_objects (heap (gc r)) s' ->
  freeing_rt kind ext (heap (gc r)) (mk_gc_runtime s' [] JS_GC_PHASE_REMOVE_CYCLES) (gc_obj_list s' ++ tmp_obj_list s') [] [].
Proof using C.
  intros HL P Hs Hdom. pose proof C as [C1 C2 C3 C4 C5 C6 C7 C8 C9].
  assert (forall p y, heap s' !! p = Some y -> p ∈ gc_obj_list (gc r) /\ exists x, heap (gc r) !! p = Some x /\ ref_count y = ref_count x /\ body y = body x /\ (p ∈ gc_obj_list s' -> mark y = false)) as Hb.
  { intros p y Hy. destruct (proj1 (Hdom p)) as [x Hx]; [eauto|]. assert (p ∈ gc_obj_list (gc r)) as Hp by (apply C6; eauto). split; [done|]. exists x. split; [done|].
    destruct (Hs p x Hp Hx) as (m & Hm & Hf). rewrite Hy in Hm. injection Hm as ->. done. }
  assert (forall p, references (heap s') (gc_obj_list s' ++ tmp_obj_list s') p = references (heap (gc r)) (gc_obj_list (gc r)) p) as Er.
  { intros p. rewrite (references_perm _ _ _ p P). apply references_same. intros q Hq. unfold children_of. destruct (proj2 (C6 q) Hq) as [x Hx]. rewrite Hx.
    destruct (Hs q x Hq Hx) as (m & -> & _). done. }
  assert (forall p, p ∈ gc_obj_list s' ++ tmp_obj_list s' <-> p ∈ gc_obj_list (gc r)) as EL by (intros p; now rewrite P).
  assert (forall p, live ext (heap (gc r)) p <-> p ∈ gc_obj_list s') as Hlive by (intros p; now rewrite HL, alive_live).
  unfold freeing_rt. cbn. constructor; rewrite ?app_nil_r; try done.
  - constructor.
    + now rewrite P.
    + intros p Hp. apply EL in Hp. destruct (proj2 (C6 p) Hp) as [x Hx]. destruct (Hs p x Hp Hx) as (m & Hm & _). eexists. split; [exact Hm|]. cbn. rewrite Er.
      destruct (C8 p x Hx) as [_ ->]. lia.
    + intros p Hp. rewrite Er in Hp. cbn in Hp. destruct (reference_from (heap (gc r)) (gc_obj_list (gc r)) p) as (c & Hc & Hin); [lia|].
      apply Hdom, C6. now apply (C7 c).
    + intros p y Hy Hp. destruct Hp. apply EL. now destruct (Hb p y Hy).
    + intros p y Hy. destruct (Hb p y Hy) as (_ & x & Hx & _ & -> & _). now apply (C9 p x Hx).
    + intros p y _ Hy. destruct (Hb p y Hy) as (_ & x & Hx & _ & -> & _). now destruct (C9 p x Hx) as (_ & _ & ? & ?).
  - now rewrite P.
  - intros p. rewrite EL, (Hdom p). apply C6.
  - intros p. split; [|now intros [? _]]. intros Hp. split; [done|]. split; [apply not_elem_of_nil|]. intros (_ & H%elem_of_nil & _). done.
  - intros p Hp. split; [now apply Hlive | apply not_elem_of_nil].
  - intros p y _ _ Hy. destruct (Hb p y Hy) as (_ & x & Hx & _ & -> & _). now exists x.
  - intros p y Hp Hy. destruct (Hb p y Hy) as (_ & x & _ & _ & _ & Hm). auto.
  - apply NoDup_nil_2.
  - now intros p Hp%elem_of_nil.
  - intros p y Hy _ _. destruct (Hb p y Hy) as (_ & x & Hx & -> & _). now apply (C8 p x Hx).
  - intros _ p Hp. now apply Hlive.
Qed.
End Collect.

(** What is left when the garbage is gone *)
Lemma collected_consistent kind ext r hs (r0 : gc_runtime) h : (forall p, 0 <= ext p) -> freeing_rt kind ext (heap (gc r0)) r hs [] [] ->
  gc_phase r = JS_GC_PHASE_REMOVE_CYCLES -> tmp_obj_list (gc r) = [] -> (forall p, p ∈ gc_obj_list (gc r) -> live ext (heap (gc r0)) p) ->
  (forall p, p ∈ gc_zero_ref_count_list r -> h !! p = None) -> (forall p, p ∉ gc_zero_ref_count_list r -> h !! p = heap (gc r) !! p) ->
  let r' := mk_gc_runtime (mk_gc_state h (gc_obj_list (gc r)) []) [] JS_GC_PHASE_NONE in consistent kind ext r' /\ same_bodies r0 r'.
Proof.
  intros Hext F Eph ET Hlive Hz Hnz r'. pose proof (fr_nodup F) as Hnd. rewrite ET in Hnd. cbn in Hnd. apply NoDup_app in Hnd as (HndL & HLZ & _).
  assert (forall p, is_Some (h !! p) <-> p ∈ gc_obj_list (gc r)) as Hdom.
  { intros p. destruct (decide (p ∈ gc_zero_ref_count_list r)) as [Hp|Hp].
    - rewrite (Hz p Hp). split; [intros [? ?]; discriminate | intros HL; destruct (HLZ p HL Hp)].
    - rewrite (Hnz p Hp), (fr_dom F), ET, !elem_of_app. split; [|tauto]. intros [?|[?%elem_of_nil|?]]; done. }
  assert (forall p, p ∈ hs <-> p ∈ gc_obj_list (gc r)) as Eh.
  { intros p. rewrite (fr_holders F), ET, !elem_of_app. split.
    - intros ([?|[?%elem_of_nil|HZ]] & _ & Hw); [done | done|]. destruct Hw. split_and!; [done | done|]. exact (only_kept kind ext (heap (gc r0)) r hs F Eph ET p HZ).
    - intros HL. split; [tauto|]. split; [apply not_elem_of_nil|]. intros (_ & HZ & _). exact (HLZ p HL HZ). }
  assert (forall p, p ∈ gc_obj_list (gc r) -> h !! p = heap (gc r) !! p) as Hsame by (intros p Hp; apply Hnz; auto).
  assert (forall p, references h (gc_obj_list (gc r)) p = references (heap (gc r)) hs p) as Er.
  { intros p. rewrite (references_perm (heap (gc r)) hs (gc_obj_list (gc r)) p).
    - apply references_same. intros q Hq. unfold children_of. now rewrite Hsame.
    - apply NoDup_Permutation; [exact (ac_nodup (fr_accounts F)) | done | done]. }
  assert (forall p x, h !! p = Some x -> p ∈ gc_obj_list (gc r) /\ p ∈ hs /\ heap (gc r) !! p = Some x) as Hx.
  { intros p x E. assert (p ∈ gc_obj_list (gc r)) as HL by (apply Hdom; eauto). split_and!; [done | now apply Eh | now rewrite <- Hsame]. }
  split; [constructor; try done; cbn|].
  - intros p. split; [done|]. intros He. now destruct (fr_live F p (live_root _ _ p He)).
  - intros p q Hp Hq. apply Eh. apply (references_in h _ q p Hp) in Hq. rewrite Er in Hq.
    destruct (reference_from _ _ q (ltac:(lia) : 0 < references (heap (gc r)) hs q)) as (c & Hc & Hin). apply Eh in Hc.
    destruct (freeing_bodies kind ext (heap (gc r0)) r hs F c Hc) as (x0 & x & Hx0 & Hxc & Eb). unfold children_of in Hin. rewrite Hxc, Eb in Hin.
    assert (live ext (heap (gc r0)) q) as Hl by (apply (live_child _ _ c); [auto | unfold children_of; now rewrite Hx0]). apply Eh. now destruct (fr_live F q Hl).
  - intros p x E. destruct (Hx p x E) as (HL & Hh & E'). destruct (ac_holder (fr_accounts F) p Hh) as (y & Hy & Ey). rewrite E' in Hy. injection Hy as <-.
    pose proof (live_referenced kind ext Hext _ _ _ _ _ _ _ _ _ F p (Hlive p HL)) as Hr. rewrite Er. cbn in Ey. lia.
  - intros p x E. destruct (Hx p x E) as (HL & Hh & E'). destruct (ac_kinds (fr_accounts F) p x Hh E') as [K R].
    split_and!; [exact (fr_mark F p x HL E') | exact (ac_kind (fr_accounts F) p x E') | done | done].
  - intros p Hp. cbn in *. destruct (freeing_bodies kind ext (heap (gc r0)) r hs F p Hp) as (x & x' & H1 & H2 & H3). exists x, x'. now rewrite Hsame.
Qed.

(** C5: a collection is exact.  On a consistent runtime [JS_RunGC] returns, without
    using a freed structure, freeing one twice or failing an assertion; the
    objects that are left are exactly those that a reference from outside the
    heap reaches, with what they held; and the runtime is consistent again, every
    count being the number of the references that are left. *)
Theorem gc_run_exact kind ext r fuel : consistent kind ext r -> (length (gc_obj_list (gc r)) <= fuel)%nat ->
  exists r', JS_RunGC fuel r = Some r' /\ consistent kind ext r' /\ same_bodies r r' /\ (forall p, p ∈ gc_obj_list (gc r') <-> live ext (heap (gc r)) p).
Proof.
  intros C Hf. assert (forall p, 0 <= ext p) as Hext by (intros p; now destruct (rc_ext _ _ _ C p)).
  destruct (gc_mark_phase_exact (gc r) fuel (consistent_heap kind ext r C) Hf) as (s' & Em & HL & P & Hs).
  pose proof (collect_start kind ext r C s' HL P Hs (mark_phase_same _ _ _ Em)) as F.
  destruct (tmp_loop kind ext Hext (heap (gc r)) fuel _ _ F eq_refl) as (r1 & hs1 & E1 & F1 & S1 & T1).
  { cbn. apply Permutation_length in P. rewrite length_app in P. lia. }
  assert (gc_phase r1 = JS_GC_PHASE_REMOVE_CYCLES) as Eph by now rewrite (sh_phase _ _ S1).
  pose proof (fr_nodup F1) as Hnd. rewrite T1 in Hnd. cbn in Hnd. apply NoDup_app in Hnd as (_ & _ & HndZ).
  destruct (kept_structures (gc_zero_ref_count_list r1) (with_phase r1 JS_GC_PHASE_NONE) HndZ) as (h & E2 & Hz & Hnz).
  { intros p Hp. destruct (proj2 (fr_dom F1 p)) as [x Hx]; [rewrite !elem_of_app; tauto|]. exists x. split; [done|].
    rewrite frees_kind_spec, (ac_kind (fr_accounts F1) p x Hx). exact (only_kept kind ext _ r1 hs1 F1 Eph T1 p Hp). }
  assert (forall p, p ∈ gc_obj_list (gc r1) <-> live ext (heap (gc r)) p) as Hlive.
  { intros p. split; [now apply (fr_remove F1)|]. intros Hl. now destruct (fr_live F1 p Hl). }
  destruct (collected_consistent kind ext r1 hs1 r h Hext F1 Eph T1 (fun p => proj1 (Hlive p)) Hz Hnz) as [C' B'].
  eexists. split; [|split; [exact C'|split; [exact B' | exact Hlive]]].
  unfold JS_RunGC, gc_free_cycles. rewrite Em. cbn [mbind option_bind]. rewrite (rc_zero _ _ _ C).
  change (with_phase (mk_gc_runtime s' [] (gc_phase r)) JS_GC_PHASE_REMOVE_CYCLES) with (mk_gc_runtime s' [] JS_GC_PHASE_REMOVE_CYCLES). rewrite E1. cbn [mbind option_bind].
  cbn [gc_zero_ref_count_list with_phase] in *. rewrite E2. cbn. now rewrite T1.
Qed.

Definition small_runtime : gc_runtime := mk_gc_runtime small_heap [] JS_GC_PHASE_NONE.

Lemma small_runtime_consistent : consistent small_kind one_root small_runtime.
Proof.
  constructor; try reflexivity.
  - intros p. split; [apply small_nonneg|]. unfold one_root. destruct (Nat.eqb_spec p 0) as [->|_]; [|lia]. intros _. now do 2 apply list_elem_of_further; apply list_elem_of_here.
  - apply NoDup_ListNoDup. repeat constructor; cbn; lia.
  - intros p. apply dom_check. vm_compute. reflexivity.
  - now apply closed_check.
  - intros p x H. cbn [small_runtime small_heap gc heap] in H. each_object H; (split; [cbn; lia | reflexivity]).
  - intros p x H. cbn [small_runtime small_heap gc heap] in H. each_object H; cbn; split_and!; try done; repeat constructor.
Qed.

(** The cycle is freed, the object that the variable refers to is left. *)
Lemma gc_run_exact_witness :
  consistent small_kind one_root small_runtime /\
  exists r', JS_RunGC 4 small_runtime = Some r' /\ gc_obj_list (gc r') = [0; 1]%nat /\ consistent small_kind one_root r'.
Proof.
  split; [exact small_runtime_consistent|].
  destruct (gc_run_exact small_kind one_root small_runtime 4 small_runtime_consistent) as (r' & E & C & _); [cbn; lia|].
  exists r'. split; [exact E|]. split; [|exact C]. vm_compute in E. injection E as <-. reflexivity.
Defined.
