(* ===== verification/Shapes.v ===== *)
(** * Shapes: hidden classes and the property hash tables

    The shapes of [src/core/quickjs.c] (4702 to 5160): the names and flags of
    the properties of an object with a chained hash table over them, shared
    between objects through the table of the hashed shapes of the runtime.  An
    address is a [Z]; the memory of the shapes and objects is a map from
    addresses, and an access outside of it, a broken chain or a failed [assert]
    is [None].  The allocator never reuses an address, and fails where the list
    [mallocs] says so. *)

From Stdlib Require Import ZArith Lia Bool.
From stdpp Require Import base numbers list option gmap.
From S2P Require Import Prelude Limbs BigInt Numeric.

#[local] Open Scope Z_scope.

(** ** Data *)

Definition JS_PROP_CONFIGURABLE : Z := 1.
Definition JS_PROP_WRITABLE : Z := 2.
Definition JS_PROP_ENUMERABLE : Z := 4.
Definition JS_PROP_C_W_E : Z := 7.
Definition JS_PROP_LENGTH : Z := 8.
Definition JS_PROP_TMASK : Z := 48.
Definition JS_PROP_GETSET : Z := 16.
Definition JS_ATOM_NULL : Z := 0.
Definition JS_PROP_INITIAL_SIZE : Z := 2.
Definition JS_PROP_INITIAL_HASH_SIZE : Z := 4.

Record JSShapeProperty : Type := mk_prs { hash_next : Z; flags : Z; atom : Z }.

(** The element [h] of [prop_hash] is [prop_hash_end(sh)[-h - 1]]; [prop] holds
    the [prop_count] initialized properties. *)
Record JSShape : Type := mk_shape {
  ref_count : Z;
  is_hashed : bool;
  hash : Z;
  prop_hash : list Z;
  prop_size : Z;
  deleted_prop_count : Z;
  proto : option Z;
  prop : list JSShapeProperty;
}.

Definition prop_count (sh : JSShape) : Z := Z.of_nat (length (prop sh)).
Definition prop_hash_mask (sh : JSShape) : Z := Z.of_nat (length (prop_hash sh)) - 1.

Inductive JSProperty : Type :=
| Uninitialized
| Value (v : JSValue)
| GetSet (getter setter : option Z).

(** [props] is as long as the allocated array. *)
Record JSObject : Type := mk_object {
  shape : Z;
  props : list JSProperty;
  extensible : bool;
  has_immutable_prototype : bool;
  is_function : bool;
}.

(** A chain of the table of shapes is the list of its shapes.
    [context_shapes] are the references that the contexts hold. *)
Record JSRuntime : Type := mk_runtime {
  shape_hash_bits : Z;
  shape_hash_table : list (list Z);
  shape_hash_count : Z;
  shapes : gmap Z JSShape;
  objects : gmap Z JSObject;
  context_shapes : list Z;
  next_address : Z;
  mallocs : list bool;
  strict_mode : bool;
}.

Definition with_table (s : JSRuntime) (bits : Z) (table : list (list Z)) (count : Z) : JSRuntime :=
  mk_runtime bits table count (shapes s) (objects s) (context_shapes s) (next_address s) (mallocs s) (strict_mode s).
Definition with_shapes (s : JSRuntime) (m : gmap Z JSShape) : JSRuntime :=
  mk_runtime (shape_hash_bits s) (shape_hash_table s) (shape_hash_count s) m (objects s) (context_shapes s) (next_address s)
    (mallocs s) (strict_mode s).
Definition with_objects (s : JSRuntime) (m : gmap Z JSObject) : JSRuntime :=
  mk_runtime (shape_hash_bits s) (shape_hash_table s) (shape_hash_count s) (shapes s) m (context_shapes s) (next_address s)
    (mallocs s) (strict_mode s).
Definition with_allocator (s : JSRuntime) (next : Z) (answers : list bool) : JSRuntime :=
  mk_runtime (shape_hash_bits s) (shape_hash_table s) (shape_hash_count s) (shapes s) (objects s) (context_shapes s) next
    answers (strict_mode s).

Definition set_shape (s : JSRuntime) (a : Z) (sh : JSShape) : JSRuntime := with_shapes s (<[a := sh]> (shapes s)).
Definition set_object (s : JSRuntime) (p : Z) (o : JSObject) : JSRuntime := with_objects s (<[p := o]> (objects s)).

Definition with_ref_count (sh : JSShape) (n : Z) : JSShape :=
  mk_shape n (is_hashed sh) (hash sh) (prop_hash sh) (prop_size sh) (deleted_prop_count sh) (proto sh) (prop sh).
Definition with_hashed (sh : JSShape) (b : bool) (h : Z) : JSShape :=
  mk_shape (ref_count sh) b h (prop_hash sh) (prop_size sh) (deleted_prop_count sh) (proto sh) (prop sh).
Definition with_props (sh : JSShape) (table : list Z) (size deleted : Z) (prop : list JSShapeProperty) : JSShape :=
  mk_shape (ref_count sh) (is_hashed sh) (hash sh) table size deleted (proto sh) prop.
Definition with_proto (sh : JSShape) (proto : option Z) : JSShape :=
  mk_shape (ref_count sh) (is_hashed sh) (hash sh) (prop_hash sh) (prop_size sh) (deleted_prop_count sh) proto (prop sh).
Definition with_shape (o : JSObject) (a : Z) : JSObject :=
  mk_object a (props o) (extensible o) (has_immutable_prototype o) (is_function o).
Definition with_values (o : JSObject) (values : list JSProperty) : JSObject :=
  mk_object (shape o) values (extensible o) (has_immutable_prototype o) (is_function o).

(** ** The allocator *)

Definition js_malloc (s : JSRuntime) : option Z * JSRuntime :=
  match mallocs s with
  | false :: answers => (None, with_allocator s (next_address s) answers)
  | true :: answers => (Some (next_address s), with_allocator s (next_address s + 1) answers)
  | [] => (Some (next_address s), with_allocator s (next_address s + 1) [])
  end.

(** [js_realloc] of the values of an object to [size] entries. *)
Definition realloc_values (size : Z) (values : list JSProperty) : list JSProperty :=
  take (Z.to_nat size) values ++ replicate (Z.to_nat size - length values) Uninitialized.

Definition js_realloc (s : JSRuntime) (p size : Z) : option (bool * JSRuntime) :=
  o ← objects s !! p;
  let '(m, s) := js_malloc s in
  match m with
  | None => Some (false, s)
  | Some _ => Some (true, set_object s p (with_values o (realloc_values size (props o))))
  end.

(** ** The table of the hashed shapes *)

Definition shape_hash (h val : Z) : Z := u32 ((h + u32 val) * 0x9e370001).
Definition get_shape_hash (h hash_bits : Z) : Z := Z.shiftr h (32 - hash_bits).

Definition address_of (p : option Z) : Z := match p with Some p => p | None => 0 end.
Definition shape_initial_hash (proto : option Z) : Z :=
  shape_hash (shape_hash 1 (address_of proto)) (Z.shiftr (u64 (address_of proto)) 32).

Definition init_shape_hash (s : JSRuntime) : JSRuntime := with_table s 4 (replicate 16 []) 0.

(** Pushes on the chain of its hash. *)
Definition link_in (bits : Z) (m : gmap Z JSShape) (table : list (list Z)) (a : Z) : option (list (list Z)) :=
  sh ← m !! a;
  let h := Z.to_nat (get_shape_hash (hash sh) bits) in
  chain ← table !! h;
  Some (<[h := a :: chain]> table).

Fixpoint link_all (bits : Z) (m : gmap Z JSShape) (table : list (list Z)) (todo : list Z) : option (list (list Z)) :=
  match todo with
  | a :: todo => table ← link_in bits m table a; link_all bits m table todo
  | [] => Some table
  end.

Definition resize_shape_hash (s : JSRuntime) (new_shape_hash_bits : Z) : option (Z * JSRuntime) :=
  let '(m, s) := js_malloc s in
  match m with
  | None => Some (-1, s)
  | Some _ =>
      table ← link_all new_shape_hash_bits (shapes s) (replicate (Z.to_nat (Z.shiftl 1 new_shape_hash_bits)) [])
        (concat (shape_hash_table s));
      Some (0, with_table s new_shape_hash_bits table (shape_hash_count s))
  end.

Definition js_shape_hash_link (s : JSRuntime) (a : Z) : option JSRuntime :=
  table ← link_in (shape_hash_bits s) (shapes s) (shape_hash_table s) a;
  Some (with_table s (shape_hash_bits s) table (shape_hash_count s + 1)).

(** The search does not test for the end of the chain. *)
Fixpoint unlink_chain (a : Z) (chain : list Z) : option (list Z) :=
  match chain with
  | [] => None
  | b :: chain => if b =? a then Some chain else chain ← unlink_chain a chain; Some (b :: chain)
  end.

Definition js_shape_hash_unlink (s : JSRuntime) (a : Z) : option JSRuntime :=
  sh ← shapes s !! a;
  let h := Z.to_nat (get_shape_hash (hash sh) (shape_hash_bits s)) in
  chain ← shape_hash_table s !! h;
  chain ← unlink_chain a chain;
  Some (with_table s (shape_hash_bits s) (<[h := chain]> (shape_hash_table s)) (shape_hash_count s - 1)).

(** ** Making and freeing shapes *)

Definition js_new_shape_nohash (s : JSRuntime) (proto : option Z) (hash_size prop_size : Z) : option Z * JSRuntime :=
  let '(m, s) := js_malloc s in
  match m with
  | None => (None, s)
  | Some a => (Some a, set_shape s a (mk_shape 1 false 0 (replicate (Z.to_nat hash_size) 0) prop_size 0 proto []))
  end.

Definition js_new_shape2 (s : JSRuntime) (proto : option Z) (hash_size prop_size : Z) : option (option Z * JSRuntime) :=
  s ← (if Z.of_nat (length (shape_hash_table s)) <? 2 * (shape_hash_count s + 1)
       then '(_, s) ← resize_shape_hash s (shape_hash_bits s + 1); Some s else Some s);
  let '(m, s) := js_new_shape_nohash s proto hash_size prop_size in
  match m with
  | None => Some (None, s)
  | Some a =>
      sh ← shapes s !! a;
      s ← js_shape_hash_link (set_shape s a (with_hashed sh true (shape_initial_hash proto))) a;
      Some (Some a, s)
  end.

Definition js_new_shape (s : JSRuntime) (proto : option Z) : option (option Z * JSRuntime) :=
  js_new_shape2 s proto JS_PROP_INITIAL_HASH_SIZE JS_PROP_INITIAL_SIZE.

Definition js_clone_shape (s : JSRuntime) (a : Z) : option (option Z * JSRuntime) :=
  sh1 ← shapes s !! a;
  let '(m, s) := js_malloc s in
  match m with
  | None => Some (None, s)
  | Some a => Some (Some a, set_shape s a (with_hashed (with_ref_count sh1 1) false (hash sh1)))
  end.

Definition js_dup_shape (s : JSRuntime) (a : Z) : option JSRuntime :=
  sh ← shapes s !! a; Some (set_shape s a (with_ref_count sh (ref_count sh + 1))).

Definition js_free_shape0 (s : JSRuntime) (a : Z) : option JSRuntime :=
  sh ← shapes s !! a;
  if negb (ref_count sh =? 0) then None
  else
    s ← (if is_hashed sh then js_shape_hash_unlink s a else Some s);
    Some (with_shapes s (delete a (shapes s))).

Definition js_free_shape (s : JSRuntime) (a : Z) : option JSRuntime :=
  sh ← shapes s !! a;
  let s := set_shape s a (with_ref_count sh (ref_count sh - 1)) in
  if ref_count sh - 1 <=? 0 then js_free_shape0 s a else Some s.

(** ** The hash table of a shape *)

(** The bit field [hash_next] has 26 bits. *)
Definition u26 (z : Z) : Z := wrap 26 z.

(** [pr->hash_next = prop_hash_end(sh)[-h - 1]; prop_hash_end(sh)[-h - 1] = n] *)
Definition link_prop (table : list Z) (pr : JSShapeProperty) (n : Z) : option (JSShapeProperty * list Z) :=
  let h := Z.to_nat (Z.land (atom pr) (Z.of_nat (length table) - 1)) in
  first ← table !! h;
  Some (mk_prs (u26 first) (flags pr) (atom pr), <[h := n]> table).

(** The loop of [resize_properties]: [i] properties were done. *)
Fixpoint rehash (table : list Z) (i : Z) (todo : list JSShapeProperty) : option (list JSShapeProperty * list Z) :=
  match todo with
  | [] => Some ([], table)
  | pr :: todo =>
      '(pr, table) ← (if atom pr =? JS_ATOM_NULL then Some (pr, table) else link_prop table pr (i + 1));
      '(prop, table) ← rehash table (i + 1) todo;
      Some (pr :: prop, table)
  end.

Fixpoint grow_hash_size (fuel : nat) (new_hash_size new_size : Z) : option Z :=
  if new_hash_size <? new_size then
    match fuel with
    | O => None
    | S fuel => grow_hash_size fuel (u32 (2 * new_hash_size)) new_size
    end
  else Some new_hash_size.

(** The address of the new shape is stored in [*psh] by the caller; [p] may be
    [NULL]. *)
Definition resize_properties (s : JSRuntime) (a : Z) (p : option Z) (count : Z) : option (Z * Z * JSRuntime) :=
  sh ← shapes s !! a;
  let new_size := Z.max count (Z.quot (i32 (prop_size sh * 3)) 2) in
  '(ok, s) ← (match p with Some p => js_realloc s p new_size | None => Some (true, s) end);
  if negb ok then Some (-1, a, s)
  else
    new_hash_size ← grow_hash_size 32 (prop_hash_mask sh + 1) new_size;
    let '(m, s) := js_malloc s in
    match m with
    | None => Some (-1, a, s)
    | Some a' =>
        '(prop, table) ← (if new_hash_size =? prop_hash_mask sh + 1 then Some (prop sh, prop_hash sh)
                          else rehash (replicate (Z.to_nat new_hash_size) 0) 0 (prop sh));
        Some (0, a', with_shapes s (<[a' := with_props sh table new_size (deleted_prop_count sh) prop]> (delete a (shapes s))))
    end.

Fixpoint shrink_hash_size (fuel : nat) (new_hash_size new_size : Z) : option Z :=
  if new_size <=? new_hash_size / 2 then
    match fuel with
    | O => None
    | S fuel => shrink_hash_size fuel (new_hash_size / 2) new_size
    end
  else Some new_hash_size.

(** The loop of [compact_properties]: the properties kept, the new table and the
    values, of which the first [j] were moved. *)
Fixpoint compact_loop (table : list Z) (i j : nat) (values : list JSProperty) (todo : list JSShapeProperty)
    : option (list JSShapeProperty * list Z * list JSProperty) :=
  match todo with
  | [] => Some ([], table, values)
  | old_pr :: todo =>
      if atom old_pr =? JS_ATOM_NULL then compact_loop table (S i) j values todo
      else
        '(pr, table) ← link_prop table old_pr (Z.of_nat j + 1);
        v ← values !! i;
        if (j <? length values)%nat then
          '(prop, table, values) ← compact_loop table (S i) (S j) (<[j := v]> values) todo;
          Some (pr :: prop, table, values)
        else None
  end.

(** A failure to shrink the values is ignored. *)
Definition compact_properties (s : JSRuntime) (p : Z) : option (Z * JSRuntime) :=
  o ← objects s !! p;
  sh ← shapes s !! shape o;
  let new_size := Z.max JS_PROP_INITIAL_SIZE (prop_count sh - deleted_prop_count sh) in
  if is_hashed sh || negb (new_size <=? prop_size sh) then None
  else
    new_hash_size ← shrink_hash_size 32 (prop_hash_mask sh + 1) new_size;
    let '(m, s) := js_malloc s in
    match m with
    | None => Some (-1, s)
    | Some a' =>
        '(prop, table, values) ← compact_loop (replicate (Z.to_nat new_hash_size) 0) 0 0 (props o) (prop sh);
        if negb (Z.of_nat (length prop) =? prop_count sh - deleted_prop_count sh) then None
        else
          let s := with_shapes s (<[a' := with_props sh table new_size 0 prop]> (delete (shape o) (shapes s))) in
          let s := set_object s p (with_shape (with_values o values) a') in
          '(_, s) ← js_realloc s p new_size;
          Some (0, s)
    end.

Definition add_shape_property (s : JSRuntime) (a : Z) (p : option Z) (name prop_flags : Z) : option (Z * Z * JSRuntime) :=
  sh ← shapes s !! a;
  let new_shape_hash := shape_hash (shape_hash (hash sh) name) prop_flags in
  s ← (if is_hashed sh then js_shape_hash_unlink s a else Some s);
  '(r, a, s) ← (if prop_size sh <=? prop_count sh then resize_properties s a p (prop_count sh + 1) else Some (0, a, s));
  if negb (r =? 0) then
    s ← (if is_hashed sh then js_shape_hash_link s a else Some s);
    Some (-1, a, s)
  else
    sh ← shapes s !! a;
    s ← (if is_hashed sh then js_shape_hash_link (set_shape s a (with_hashed sh true new_shape_hash)) a else Some s);
    sh ← shapes s !! a;
    if prop_size sh <=? prop_count sh then None
    else
      '(pr, table) ← link_prop (prop_hash sh) (mk_prs 0 prop_flags name) (prop_count sh + 1);
      Some (0, a, set_shape s a (with_props sh table (prop_size sh) (deleted_prop_count sh) (prop sh ++ [pr]))).

(** ** Sharing *)

Definition same_proto (p q : option Z) : bool := bool_decide (p = q).

Definition matches_proto (h : Z) (proto0 : option Z) (sh1 : JSShape) : bool :=
  (hash sh1 =? h) && same_proto (proto sh1) proto0 && (prop_count sh1 =? 0).

Definition same_entry (pr1 pr : JSShapeProperty) : bool := (atom pr1 =? atom pr) && (flags pr1 =? flags pr).

Fixpoint same_entries (l1 l : list JSShapeProperty) : bool :=
  match l1, l with
  | pr1 :: l1, pr :: l => same_entry pr1 pr && same_entries l1 l
  | [], [] => true
  | _, _ => false
  end.

Definition matches_prop (h : Z) (sh : JSShape) (name prop_flags : Z) (sh1 : JSShape) : bool :=
  (hash sh1 =? h) && same_proto (proto sh1) (proto sh) && (prop_count sh1 =? prop_count sh + 1) &&
  same_entries (prop sh1) (prop sh ++ [mk_prs 0 prop_flags name]).

Fixpoint find_in_chain (m : gmap Z JSShape) (test : JSShape -> bool) (chain : list Z) : option (option Z) :=
  match chain with
  | [] => Some None
  | a :: chain => sh1 ← m !! a; if test sh1 then Some (Some a) else find_in_chain m test chain
  end.

Definition find_hashed_shape_proto (s : JSRuntime) (proto : option Z) : option (option Z) :=
  let h := shape_initial_hash proto in
  chain ← shape_hash_table s !! Z.to_nat (get_shape_hash h (shape_hash_bits s));
  find_in_chain (shapes s) (matches_proto h proto) chain.

Definition find_hashed_shape_prop (s : JSRuntime) (sh : JSShape) (name prop_flags : Z) : option (option Z) :=
  let h := shape_hash (shape_hash (hash sh) name) prop_flags in
  chain ← shape_hash_table s !! Z.to_nat (get_shape_hash h (shape_hash_bits s));
  find_in_chain (shapes s) (matches_prop h sh name prop_flags) chain.
