(* ===== verification/Objects.v ===== *)
(** * Ordinary objects: properties and prototypes

    The property operations of [src/core/quickjs.c] on ordinary objects, those
    without exotic behaviour, over the shapes of [Shapes]: lookup (5710), addition
    (8774), deletion (8906), [JS_DefineProperty] (9945), [JS_GetPropertyInternal]
    (7805), [JS_SetPropertyInternal] (9258) and the prototypes (7492).  A value or
    property is named by its index in the arrays of its object.  The calls of
    getters and setters are results.  The reference counts of values and the
    flag [is_std_array_prototype] are not modelled. *)

From Stdlib Require Import ZArith Lia Bool.
From stdpp Require Import base numbers list option gmap strings.
From S2P Require Import Prelude Limbs BigInt Numeric BigIntFloat BigIntOps MapKey Shapes.

#[local] Open Scope Z_scope.

Definition JS_PROP_HAS_CONFIGURABLE : Z := 256.
Definition JS_PROP_HAS_WRITABLE : Z := 512.
Definition JS_PROP_HAS_ENUMERABLE : Z := 1024.
Definition JS_PROP_HAS_GET : Z := 2048.
Definition JS_PROP_HAS_SET : Z := 4096.
Definition JS_PROP_HAS_VALUE : Z := 8192.
Definition JS_PROP_THROW : Z := 16384.
Definition JS_PROP_THROW_STRICT : Z := 32768.

(** [flags & mask] as a condition. *)
Definition has (flags mask : Z) : bool := negb (Z.land flags mask =? 0).

Definition undefined : JSValue := Prim JS_TAG_UNDEFINED.

(** What an operation returns: [TRUE] or [FALSE], a value, an exception, or the
    call that it ends with. *)
Inductive result : Type :=
| Done (b : bool)
| Got (v : JSValue)
| Thrown (e : exn)
| OutOfMemory
| Call (func : Z) (this_obj : JSValue) (args : list JSValue).

Definition JS_ThrowTypeErrorOrFalse (s : JSRuntime) (flags : Z) (msg : string) : result :=
  if has flags JS_PROP_THROW || (has flags JS_PROP_THROW_STRICT && strict_mode s) then Thrown (TypeError msg) else Done false.

Definition JS_ThrowTypeErrorReadOnly (s : JSRuntime) (flags : Z) : result := JS_ThrowTypeErrorOrFalse s flags "'%s' is read-only".

Definition JS_IsFunction (s : JSRuntime) (v : JSValue) : bool :=
  match v with
  | JS_TAG_OBJECT p => match objects s !! p with Some o => is_function o | None => false end
  | _ => false
  end.

Definition js_same_value (op1 op2 : JSValue) : bool :=
  let same d1 d2 := if f64_isnan d1 || f64_isnan d2 then Bool.eqb (f64_isnan d1) (f64_isnan d2) else d1 =? d2 in
  match op1, op2 with
  | Prim (JS_TAG_INT v1), Prim (JS_TAG_INT v2) => same (f64_of_Z v1) (f64_of_Z v2)
  | Prim (JS_TAG_INT v1), Prim (JS_TAG_FLOAT64 d2) => same (f64_of_Z v1) d2
  | Prim (JS_TAG_FLOAT64 d1), Prim (JS_TAG_INT v2) => same d1 (f64_of_Z v2)
  | Prim (JS_TAG_FLOAT64 d1), Prim (JS_TAG_FLOAT64 d2) => same d1 d2
  | _, _ => js_same_value_zero op1 op2
  end.

(** ** Looking up *)

(** From the entry [h] of a chain, the index of the property [name]; [None] when
    the chain leaves the array or is longer than it. *)
Fixpoint walk_chain (fuel : nat) (prop : list JSShapeProperty) (h name : Z) : option (option nat) :=
  if h =? 0 then Some None
  else
    match fuel with
    | O => None
    | S fuel =>
        pr ← prop !! Z.to_nat (h - 1);
        if atom pr =? name then Some (Some (Z.to_nat (h - 1))) else walk_chain fuel prop (hash_next pr) name
    end.

Definition find_in_shape (sh : JSShape) (name : Z) : option (option nat) :=
  first ← prop_hash sh !! Z.to_nat (Z.land name (prop_hash_mask sh));
  walk_chain (length (prop sh)) (prop sh) first name.

Definition find_own_property (s : JSRuntime) (p name : Z) : option (option nat) :=
  o ← objects s !! p;
  sh ← shapes s !! shape o;
  find_in_shape sh name.

(** [prs->flags] and [*pr] *)
Definition prop_flags (s : JSRuntime) (p : Z) (i : nat) : option Z :=
  o ← objects s !! p; sh ← shapes s !! shape o; pr ← prop sh !! i; Some (flags pr).
Definition prop_value (s : JSRuntime) (p : Z) (i : nat) : option JSProperty := o ← objects s !! p; props o !! i.

Definition write_flags (s : JSRuntime) (p : Z) (i : nat) (f : Z) : option JSRuntime :=
  o ← objects s !! p;
  sh ← shapes s !! shape o;
  pr ← prop sh !! i;
  Some (set_shape s (shape o)
          (with_props sh (prop_hash sh) (prop_size sh) (deleted_prop_count sh) (<[i := mk_prs (hash_next pr) f (atom pr)]> (prop sh)))).

Definition write_value (s : JSRuntime) (p : Z) (i : nat) (v : JSProperty) : option JSRuntime :=
  o ← objects s !! p;
  if (i <? length (props o))%nat then Some (set_object s p (with_values o (<[i := v]> (props o)))) else None.

(** ** Changing the shape of an object *)

Definition js_shape_prepare_update (s : JSRuntime) (p : Z) : option (Z * JSRuntime) :=
  o ← objects s !! p;
  sh ← shapes s !! shape o;
  if is_hashed sh then
    if negb (ref_count sh =? 1) then
      '(m, s) ← js_clone_shape s (shape o);
      match m with
      | None => Some (-1, s)
      | Some a => s ← js_free_shape s (shape o); Some (0, set_object s p (with_shape o a))
      end
    else
      s ← js_shape_hash_unlink s (shape o);
      Some (0, set_shape s (shape o) (with_hashed sh false (hash sh)))
  else Some (0, s).

Definition js_update_property_flags (s : JSRuntime) (p : Z) (i : nat) (f : Z) : option (Z * JSRuntime) :=
  old ← prop_flags s p i;
  if negb (f =? old) then
    '(r, s) ← js_shape_prepare_update s p;
    if negb (r =? 0) then Some (-1, s) else s ← write_flags s p i f; Some (0, s)
  else Some (0, s).

(** The index of the new property, or [None] when memory is short.  The shape
    of the object when it is added to is hashed and its own, or not hashed. *)
Definition add_property (s : JSRuntime) (p name f : Z) : option (option nat * JSRuntime) :=
  o ← objects s !! p;
  sh ← shapes s !! shape o;
  new_sh ← (if is_hashed sh then find_hashed_shape_prop s sh name f else Some None);
  match new_sh with
  | Some a =>
      sh1 ← shapes s !! a;
      '(ok, s) ← (if prop_size sh1 =? prop_size sh then Some (true, s) else js_realloc s p (prop_size sh1));
      if negb ok then Some (None, s)
      else
        o ← objects s !! p;
        s ← js_dup_shape s a;
        s ← js_free_shape (set_object s p (with_shape o a)) (shape o);
        Some (Some (Z.to_nat (prop_count sh1 - 1)), s)
  | None =>
      '(ok, s) ← (if is_hashed sh && negb (ref_count sh =? 1) then
                    '(m, s) ← js_clone_shape s (shape o);
                    match m with
                    | None => Some (false, s)
                    | Some a =>
                        sh1 ← shapes s !! a;
                        s ← js_shape_hash_link (set_shape s a (with_hashed sh1 true (hash sh1))) a;
                        s ← js_free_shape s (shape o);
                        Some (true, set_object s p (with_shape o a))
                    end
                  else Some (true, s));
      if negb ok then Some (None, s)
      else
        o ← objects s !! p;
        sh ← shapes s !! shape o;
        if negb (ref_count sh =? 1) then None
        else
          '(r, a, s) ← add_shape_property s (shape o) (Some p) name f;
          if negb (r =? 0) then Some (None, s)
          else
            o ← objects s !! p;
            sh ← shapes s !! a;
            Some (Some (Z.to_nat (prop_count sh - 1)), set_object s p (with_shape o a))
  end.

(** The index of the property [name] and that of the one before it in its chain. *)
Fixpoint walk_with_last (fuel : nat) (prop : list JSShapeProperty) (h name : Z) (lpr : option nat)
    : option (option (nat * option nat)) :=
  if h =? 0 then Some None
  else
    match fuel with
    | O => None
    | S fuel =>
        pr ← prop !! Z.to_nat (h - 1);
        if atom pr =? name then Some (Some (Z.to_nat (h - 1), lpr))
        else walk_with_last fuel prop (hash_next pr) name (Some (Z.to_nat (h - 1)))
    end.

(** Takes the property [i], after [lpr] in the chain [h1], out of the table. *)
Definition unlink_prop (sh : JSShape) (h1 : nat) (i : nat) (lpr : option nat) : option JSShape :=
  pr ← prop sh !! i;
  '(prop, table) ← (match lpr with
                    | Some l => lp ← prop sh !! l; Some (<[l := mk_prs (hash_next pr) (flags lp) (atom lp)]> (prop sh), prop_hash sh)
                    | None => Some (prop sh, <[h1 := hash_next pr]> (prop_hash sh))
                    end);
  Some (with_props sh table (prop_size sh) (deleted_prop_count sh + 1) (<[i := mk_prs (hash_next pr) 0 JS_ATOM_NULL]> prop)).

Definition delete_property (s : JSRuntime) (p name : Z) : option (result * JSRuntime) :=
  o ← objects s !! p;
  sh ← shapes s !! shape o;
  let h1 := Z.to_nat (Z.land name (prop_hash_mask sh)) in
  first ← prop_hash sh !! h1;
  found ← walk_with_last (length (prop sh)) (prop sh) first name None;
  match found with
  | None => Some (Done true, s)
  | Some (i, lpr) =>
      f ← prop_flags s p i;
      if negb (has f JS_PROP_CONFIGURABLE) then Some (Done false, s)
      else
        '(r, s) ← js_shape_prepare_update s p;
        if negb (r =? 0) then Some (OutOfMemory, s)
        else
          o ← objects s !! p;
          sh ← shapes s !! shape o;
          sh ← unlink_prop sh h1 i lpr;
          s ← write_value (set_shape s (shape o) sh) p i (Value undefined);
          if (8 <=? deleted_prop_count sh) && (prop_count sh / 2 <=? deleted_prop_count sh) then
            '(_, s) ← compact_properties s p; Some (Done true, s)
          else Some (Done true, s)
  end.

(** ** Defining *)

Definition is_getset (f : Z) : bool := Z.land f JS_PROP_TMASK =? JS_PROP_GETSET.

Definition check_define_prop_flags (prop_flags flags : Z) : bool :=
  if negb (has prop_flags JS_PROP_CONFIGURABLE) then
    if Z.land flags (Z.lor JS_PROP_HAS_CONFIGURABLE JS_PROP_CONFIGURABLE) =? Z.lor JS_PROP_HAS_CONFIGURABLE JS_PROP_CONFIGURABLE then false
    else if has flags JS_PROP_HAS_ENUMERABLE && negb (Z.land flags JS_PROP_ENUMERABLE =? Z.land prop_flags JS_PROP_ENUMERABLE) then false
    else if has flags (Z.lor (Z.lor JS_PROP_HAS_VALUE JS_PROP_HAS_WRITABLE) (Z.lor JS_PROP_HAS_GET JS_PROP_HAS_SET)) then
      let has_accessor := has flags (Z.lor JS_PROP_HAS_GET JS_PROP_HAS_SET) in
      if negb (Bool.eqb has_accessor (is_getset prop_flags)) then false
      else if negb (is_getset prop_flags) && negb (has prop_flags JS_PROP_WRITABLE) &&
              (Z.land flags (Z.lor JS_PROP_HAS_WRITABLE JS_PROP_WRITABLE) =? Z.lor JS_PROP_HAS_WRITABLE JS_PROP_WRITABLE) then false
      else true
    else true
  else true.

(** The accessor that a value is, [NULL] when it is not a function. *)
Definition accessor (s : JSRuntime) (v : JSValue) : option Z :=
  match v with JS_TAG_OBJECT p => if JS_IsFunction s v then Some p else None | _ => None end.

Definition JS_CreateProperty (s : JSRuntime) (p name : Z) (val getter setter : JSValue) (flags : Z) : option (result * JSRuntime) :=
  o ← objects s !! p;
  if negb (extensible o) then Some (JS_ThrowTypeErrorOrFalse s flags "object is not extensible", s)
  else
    let getset := has flags (Z.lor JS_PROP_HAS_GET JS_PROP_HAS_SET) in
    let prop_flags :=
      if getset then Z.lor (Z.land flags (Z.lor JS_PROP_CONFIGURABLE JS_PROP_ENUMERABLE)) JS_PROP_GETSET
      else Z.land flags JS_PROP_C_W_E in
    '(pr, s) ← add_property s p name prop_flags;
    match pr with
    | None => Some (OutOfMemory, s)
    | Some i =>
        s ← write_value s p i
              (if getset then GetSet (if has flags JS_PROP_HAS_GET then accessor s getter else None)
                                     (if has flags JS_PROP_HAS_SET then accessor s setter else None)
               else Value (if has flags JS_PROP_HAS_VALUE then val else undefined));
        Some (Done true, s)
    end.

Definition not_configurable (s : JSRuntime) (flags : Z) : result := JS_ThrowTypeErrorOrFalse s flags "property is not configurable".

(** [getter] and [setter] of an accessor property are updated in place. *)
Definition write_accessors (s : JSRuntime) (p : Z) (i : nat) (getter setter : JSValue) (flags : Z) : option JSRuntime :=
  v ← prop_value s p i;
  match v with
  | GetSet g f =>
      write_value s p i (GetSet (if has flags JS_PROP_HAS_GET then accessor s getter else g)
                                (if has flags JS_PROP_HAS_SET then accessor s setter else f))
  | _ => None
  end.

(** The part of [JS_DefineProperty] for a getter or setter; [None] in the result
    continues with the attributes. *)
Definition define_accessor (s : JSRuntime) (p : Z) (i : nat) (getter setter : JSValue) (flags : Z)
    : option (option result * JSRuntime) :=
  f ← prop_flags s p i;
  if negb (is_getset f) then
    '(r, s) ← js_shape_prepare_update s p;
    if negb (r =? 0) then Some (Some OutOfMemory, s)
    else
      s ← write_flags s p i (Z.lor (Z.land f (Z.lor JS_PROP_CONFIGURABLE JS_PROP_ENUMERABLE)) JS_PROP_GETSET);
      s ← write_value s p i (GetSet None None);
      s ← write_accessors s p i getter setter flags;
      Some (None, s)
  else
    v ← prop_value s p i;
    match v with
    | GetSet g st =>
        if negb (has f JS_PROP_CONFIGURABLE) &&
           ((has flags JS_PROP_HAS_GET && negb (bool_decide (accessor s getter = g))) ||
            (has flags JS_PROP_HAS_SET && negb (bool_decide (accessor s setter = st))))
        then Some (Some (not_configurable s flags), s)
        else s ← write_accessors s p i getter setter flags; Some (None, s)
    | _ => None
    end.

(** The part for a value or [writable]. *)
Definition define_value (s : JSRuntime) (p : Z) (i : nat) (val : JSValue) (flags : Z) : option (option result * JSRuntime) :=
  f ← prop_flags s p i;
  v ← prop_value s p i;
  let same :=
    match v with
    | Value old =>
        if negb (has f (Z.lor JS_PROP_CONFIGURABLE JS_PROP_WRITABLE)) && has flags JS_PROP_HAS_VALUE then Some (js_same_value val old)
        else None
    | _ => None
    end in
  '(r, s) ← (if is_getset f then
               '(r, s) ← js_shape_prepare_update s p;
               if negb (r =? 0) then Some (Some OutOfMemory, s)
               else
                 s ← write_flags s p i (Z.land f (Z.lnot (Z.lor JS_PROP_TMASK JS_PROP_WRITABLE)));
                 s ← write_value s p i (Value undefined);
                 Some (None, s)
             else
               match same with
               | Some false => Some (Some (not_configurable s flags), s)
               | Some true => Some (Some (Done true), s)
               | None => Some (None, s)
               end);
  match r with
  | Some r => Some (Some r, s)
  | None =>
      s ← (if has flags JS_PROP_HAS_VALUE then write_value s p i (Value val) else Some s);
      if has flags JS_PROP_HAS_WRITABLE then
        f ← prop_flags s p i;
        '(r, s) ← js_update_property_flags s p i (Z.lor (Z.land f (Z.lnot JS_PROP_WRITABLE)) (Z.land flags JS_PROP_WRITABLE));
        Some (if negb (r =? 0) then Some OutOfMemory else None, s)
      else Some (None, s)
  end.

Definition JS_DefineProperty (s : JSRuntime) (p name : Z) (val getter setter : JSValue) (flags : Z) : option (result * JSRuntime) :=
  prs ← find_own_property s p name;
  match prs with
  | None => JS_CreateProperty s p name val getter setter flags
  | Some i =>
      f ← prop_flags s p i;
      if negb (check_define_prop_flags f flags) then Some (not_configurable s flags, s)
      else
        '(r, s) ← (if has flags (Z.lor JS_PROP_HAS_GET JS_PROP_HAS_SET) then define_accessor s p i getter setter flags
                   else if has flags (Z.lor JS_PROP_HAS_VALUE JS_PROP_HAS_WRITABLE) then define_value s p i val flags
                   else Some (None, s));
        match r with
        | Some r => Some (r, s)
        | None =>
            f ← prop_flags s p i;
            let mask := Z.lor (if has flags JS_PROP_HAS_CONFIGURABLE then JS_PROP_CONFIGURABLE else 0)
                              (if has flags JS_PROP_HAS_ENUMERABLE then JS_PROP_ENUMERABLE else 0) in
            '(r, s) ← js_update_property_flags s p i (Z.lor (Z.land f (Z.lnot mask)) (Z.land flags mask));
            Some (if negb (r =? 0) then OutOfMemory else Done true, s)
        end
  end.

Definition JS_DeleteProperty (s : JSRuntime) (p name flags : Z) : option (result * JSRuntime) :=
  '(r, s) ← delete_property s p name;
  Some (match r with Done false => JS_ThrowTypeErrorOrFalse s flags "could not delete property" | _ => r end, s).

(** ** Prototypes *)

Definition prototype (s : JSRuntime) (p : Z) : option (option Z) := o ← objects s !! p; sh ← shapes s !! shape o; Some (proto sh).

Fixpoint JS_HasProperty (fuel : nat) (s : JSRuntime) (p name : Z) : option bool :=
  match fuel with
  | O => None
  | S fuel =>
      prs ← find_own_property s p name;
      match prs with
      | Some _ => Some true
      | None => p1 ← prototype s p; match p1 with Some p1 => JS_HasProperty fuel s p1 name | None => Some false end
      end
  end.

Fixpoint JS_GetPropertyInternal (fuel : nat) (s : JSRuntime) (p name : Z) (this_obj : JSValue) : option result :=
  match fuel with
  | O => None
  | S fuel =>
      prs ← find_own_property s p name;
      match prs with
      | Some i =>
          f ← prop_flags s p i;
          v ← prop_value s p i;
          match v with
          | GetSet g _ => if is_getset f then Some (match g with Some g => Call g this_obj [] | None => Got undefined end) else None
          | Value v => if negb (has f JS_PROP_TMASK) then Some (Got v) else None
          | Uninitialized => None
          end
      | None =>
          p1 ← prototype s p;
          match p1 with Some p1 => JS_GetPropertyInternal fuel s p1 name this_obj | None => Some (Got undefined) end
      end
  end.

Definition call_setter (s : JSRuntime) (setter : option Z) (this_obj val : JSValue) (flags : Z) : result :=
  match setter with
  | Some f => Call f this_obj [val]
  | None => JS_ThrowTypeErrorOrFalse s flags "no setter for property"
  end.

(** What the search along the prototypes finds. *)
Inductive set_target : Type :=
| Setter (setter : option Z)
| ReadOnly
| Assign.

Fixpoint prototype_lookup (fuel : nat) (s : JSRuntime) (p1 : option Z) (name : Z) : option set_target :=
  match p1 with
  | None => Some Assign
  | Some p1 =>
      match fuel with
      | O => None
      | S fuel =>
          prs ← find_own_property s p1 name;
          match prs with
          | Some i =>
              f ← prop_flags s p1 i;
              v ← prop_value s p1 i;
              if is_getset f then match v with GetSet _ st => Some (Setter st) | _ => None end
              else if negb (has f JS_PROP_WRITABLE) then Some ReadOnly else Some Assign
          | None => p2 ← prototype s p1; prototype_lookup fuel s p2 name
          end
      end
  end.

(** The end of [JS_SetPropertyInternal], when no property of the prototypes
    decides. *)
Definition set_receiver (s : JSRuntime) (obj name : Z) (val this_obj : JSValue) (flags : Z) : option (result * JSRuntime) :=
  match this_obj with
  | Prim _ => Some (JS_ThrowTypeErrorOrFalse s flags "not an object", s)
  | JS_TAG_OBJECT p =>
      o ← objects s !! p;
      if negb (extensible o) then Some (JS_ThrowTypeErrorOrFalse s flags "object is not extensible", s)
      else if p =? obj then
        '(pr, s) ← add_property s p name JS_PROP_C_W_E;
        match pr with
        | None => Some (OutOfMemory, s)
        | Some i => s ← write_value s p i (Value val); Some (Done true, s)
        end
      else
        prs ← find_own_property s p name;
        match prs with
        | Some i =>
            f ← prop_flags s p i;
            if is_getset f then Some (JS_ThrowTypeErrorOrFalse s flags "setter is forbidden", s)
            else if negb (has f JS_PROP_WRITABLE) then Some (JS_ThrowTypeErrorReadOnly s flags, s)
            else JS_DefineProperty s p name val undefined undefined JS_PROP_HAS_VALUE
        | None =>
            JS_CreateProperty s p name val undefined undefined
              (Z.lor flags (Z.lor (Z.lor JS_PROP_HAS_VALUE JS_PROP_HAS_ENUMERABLE)
                 (Z.lor (Z.lor JS_PROP_HAS_WRITABLE JS_PROP_HAS_CONFIGURABLE) JS_PROP_C_W_E)))
        end
  end.

Definition JS_SetPropertyInternal (fuel : nat) (s : JSRuntime) (obj name : Z) (val this_obj : JSValue) (flags : Z)
    : option (result * JSRuntime) :=
  let finish p1 :=
    target ← prototype_lookup fuel s p1 name;
    match target with
    | Setter st => Some (call_setter s st this_obj val flags, s)
    | ReadOnly => Some (JS_ThrowTypeErrorReadOnly s flags, s)
    | Assign => set_receiver s obj name val this_obj flags
    end in
  if match this_obj with JS_TAG_OBJECT p => p =? obj | Prim _ => false end then
    prs ← find_own_property s obj name;
    match prs with
    | Some i =>
        f ← prop_flags s obj i;
        if Z.land f (Z.lor JS_PROP_TMASK (Z.lor JS_PROP_WRITABLE JS_PROP_LENGTH)) =? JS_PROP_WRITABLE then
          s ← write_value s obj i (Value val); Some (Done true, s)
        else if is_getset f then
          v ← prop_value s obj i;
          match v with GetSet _ st => Some (call_setter s st this_obj val flags, s) | _ => None end
        else Some (JS_ThrowTypeErrorReadOnly s flags, s)
    | None => p1 ← prototype s obj; finish p1
    end
  else finish (Some obj).

Definition JS_GetPrototype (s : JSRuntime) (p : Z) : option (option Z) := prototype s p.

(** Whether [p] is on the chain of prototypes that starts at [p1]. *)
Fixpoint on_prototype_chain (fuel : nat) (s : JSRuntime) (p : Z) (p1 : option Z) : option bool :=
  match p1 with
  | None => Some false
  | Some p1 =>
      match fuel with
      | O => None
      | S fuel => if p1 =? p then Some true else p2 ← prototype s p1; on_prototype_chain fuel s p p2
      end
  end.

Definition JS_SetPrototypeInternal (fuel : nat) (s : JSRuntime) (p : Z) (proto0 : option Z) (throw_flag : bool)
    : option (result * JSRuntime) :=
  o ← objects s !! p;
  sh ← shapes s !! shape o;
  let fail msg := Some (if throw_flag then Thrown (TypeError msg) else Done false, s) in
  if same_proto (proto sh) proto0 then Some (Done true, s)
  else if has_immutable_prototype o then fail "prototype is immutable"%string
  else if negb (extensible o) then fail "object is not extensible"%string
  else
    cycle ← on_prototype_chain fuel s p proto0;
    if (cycle : bool) then fail "circular prototype chain"%string
    else
      '(r, s) ← js_shape_prepare_update s p;
      if negb (r =? 0) then Some (OutOfMemory, s)
      else
        o ← objects s !! p;
        sh ← shapes s !! shape o;
        Some (Done true, set_shape s (shape o) (with_proto sh proto0)).

Definition JS_PreventExtensions (s : JSRuntime) (p : Z) : option (result * JSRuntime) :=
  o ← objects s !! p;
  Some (Done true, set_object s p (mk_object (shape o) (props o) false (has_immutable_prototype o) (is_function o))).

Definition JS_IsExtensible (s : JSRuntime) (p : Z) : option bool := o ← objects s !! p; Some (extensible o).

(** ** Making objects *)

(** An ordinary object; a class with a [call] method makes functions. *)
Definition JS_NewObjectFromShape (s : JSRuntime) (a : Z) (callable : bool) : option (result * JSRuntime) :=
  sh ← shapes s !! a;
  let '(m, s) := js_malloc s in
  match m with
  | None => s ← js_free_shape s a; Some (OutOfMemory, s)
  | Some p =>
      let '(m, s) := js_malloc s in
      match m with
      | None => s ← js_free_shape s a; Some (OutOfMemory, s)
      | Some _ =>
          Some (Got (JS_TAG_OBJECT p),
                set_object s p (mk_object a (replicate (Z.to_nat (prop_size sh)) Uninitialized) true false callable))
      end
  end.

Definition JS_NewObjectProtoClass (s : JSRuntime) (proto0 : option Z) (callable : bool) : option (result * JSRuntime) :=
  found ← find_hashed_shape_proto s proto0;
  match found with
  | Some a => s ← js_dup_shape s a; JS_NewObjectFromShape s a callable
  | None =>
      '(m, s) ← js_new_shape s proto0;
      match m with
      | None => Some (OutOfMemory, s)
      | Some a => JS_NewObjectFromShape s a callable
      end
  end.

(** [1 << (32 - clz32(n - 1))] *)
Definition hash_size_for (n : Z) : Z := Z.shiftl 1 (Z.log2 (n - 1) + 1).

Definition JS_NewObjectProtoClassAlloc (s : JSRuntime) (proto0 : option Z) (callable : bool) (n_alloc_props : Z)
    : option (result * JSRuntime) :=
  let '(n, hash_size) :=
    if n_alloc_props <=? JS_PROP_INITIAL_SIZE then (JS_PROP_INITIAL_SIZE, JS_PROP_INITIAL_HASH_SIZE)
    else (n_alloc_props, hash_size_for n_alloc_props) in
  let '(m, s) := js_new_shape_nohash s proto0 hash_size n in
  match m with
  | None => Some (OutOfMemory, s)
  | Some a => JS_NewObjectFromShape s a callable
  end.
