(* ===== verification/ShapesInv.v ===== *)
(** * The hash table of a shape

    The chains of the property hash table of a shape list, in decreasing order,
    exactly the live properties of their hash.  Adding, deleting, resizing and
    compacting keep this, and a lookup finds the property with the name. *)

From Stdlib Require Import ZArith Lia Bool.
From stdpp Require Import base numbers list option gmap.
From S2P Require Import Prelude Limbs BigInt Numeric Shapes Objects.

#[local] Open Scope Z_scope.

(** ** Chains *)

Definition live (pr : JSShapeProperty) : bool := negb (atom pr =? JS_ATOM_NULL).
Definition in_bucket (mask h : Z) (pr : JSShapeProperty) : bool := live pr && (Z.land (atom pr) mask =? h).

(** The entries of the chain of [h]: indices from 1, the last property first;
    [i] properties precede [prop]. *)
Fixpoint bucket (mask h i : Z) (prop : list JSShapeProperty) : list Z :=
  match prop with
  | [] => []
  | pr :: prop => bucket mask h (i + 1) prop ++ (if in_bucket mask h pr then [i + 1] else [])
  end.

Fixpoint chain (prop : list JSShapeProperty) (h : Z) (l : list Z) : Prop :=
  match l with
  | [] => h = 0
  | i :: l => h = i /\ 0 < i /\ exists pr, prop !! Z.to_nat (i - 1) = Some pr /\ chain prop (hash_next pr) l
  end.

Definition table_ok (table : list Z) (prop : list JSShapeProperty) : Prop :=
  forall h first, table !! h = Some first -> chain prop first (bucket (Z.of_nat (length table) - 1) (Z.of_nat h) 0 prop).

Definition pow2_size (n : nat) : Prop := exists k, 0 <= k <= 30 /\ Z.of_nat n = 2 ^ k.

Lemma bucket_app mask h prop1 : forall i prop2,
  bucket mask h i (prop1 ++ prop2) = bucket mask h (i + Z.of_nat (length prop1)) prop2 ++ bucket mask h i prop1.
Proof.
  induction prop1 as [|pr prop1 IH]; intros i prop2; cbn [app bucket length].
  - now rewrite app_nil_r, Z.add_0_r.
  - rewrite IH, <- app_assoc. do 2 f_equal. lia.
Qed.

Lemma bucket_elem mask h prop : forall i n,
  n ∈ bucket mask h i prop <-> exists j pr, n = i + Z.of_nat j + 1 /\ prop !! j = Some pr /\ in_bucket mask h pr = true.
Proof.
  induction prop as [|pr prop IH]; intros i n; cbn [bucket].
  - split; [intros []%elem_of_nil | intros (j & pr & _ & H & _); now rewrite lookup_nil in H].
  - rewrite elem_of_app, IH. split.
    + intros [(j & q & -> & Hj & Hq)|H]; [exists (S j), q; split_and!; [lia | done | done]|].
      destruct (in_bucket mask h pr) eqn:E; [|now apply elem_of_nil in H]. apply list_elem_of_singleton in H as ->.
      exists 0%nat, pr. split_and!; [lia | done | done].
    + intros ([|j] & q & -> & Hj & Hq).
      * right. injection Hj as <-. rewrite Hq. apply list_elem_of_singleton. lia.
      * left. exists j, q. split_and!; [lia | done | done].
Qed.

Lemma bucket_length mask h prop : forall i, (length (bucket mask h i prop) <= length prop)%nat.
Proof.
  induction prop as [|pr prop IH]; intros i; cbn [bucket length]; [lia|]. rewrite length_app. specialize (IH (i + 1)).
  destruct (in_bucket mask h pr); cbn; lia.
Qed.

Lemma bucket_NoDup mask h prop : forall i, NoDup (bucket mask h i prop).
Proof.
  induction prop as [|pr prop IH]; intros i; cbn [bucket]; [apply NoDup_nil_2|]. apply NoDup_app. split_and!; [apply IH | |].
  - intros n Hn Hn'. apply bucket_elem in Hn as (j & q & -> & _). destruct (in_bucket mask h pr); [|now apply elem_of_nil in Hn'].
    apply list_elem_of_singleton in Hn'. lia.
  - destruct (in_bucket mask h pr); [apply NoDup_singleton | apply NoDup_nil_2].
Qed.

(** Only names and places matter. *)
Lemma bucket_ext mask h prop prop' : forall i, Forall2 (fun pr pr' => atom pr = atom pr') prop prop' -> bucket mask h i prop = bucket mask h i prop'.
Proof.
  intros i H. revert i. induction H as [|pr pr' l l' E _ IH]; intros i; cbn [bucket]; [done|]. rewrite IH.
  unfold in_bucket, live. now rewrite E.
Qed.

Lemma chain_ext prop prop' l : forall h,
  (forall i, i ∈ l -> forall pr, prop !! Z.to_nat (i - 1) = Some pr -> exists pr', prop' !! Z.to_nat (i - 1) = Some pr' /\ hash_next pr' = hash_next pr) ->
  chain prop h l -> chain prop' h l.
Proof.
  induction l as [|i l IH]; intros h H C; cbn in *; [done|]. destruct C as (-> & Hi & pr & Hpr & C). split_and!; [done | done|].
  destruct (H i (list_elem_of_here _ _) pr Hpr) as (pr' & Hpr' & E). exists pr'. split; [done|]. rewrite E. apply IH; [|done].
  intros j Hj. apply H. now apply list_elem_of_further.
Qed.

Lemma chain_pos prop l : forall h i, chain prop h l -> i ∈ l -> 0 < i.
Proof.
  induction l as [|j l IH]; intros h i C Hi; [now apply elem_of_nil in Hi|]. destruct C as (_ & Hj & pr & _ & C).
  apply elem_of_cons in Hi as [->|Hi]; [done | eauto].
Qed.

Lemma chain_app prop prop' l h : chain prop h l -> chain (prop ++ prop') h l.
Proof.
  apply chain_ext. intros i _ pr Hpr. exists pr. split; [|done]. now apply lookup_app_l_Some.
Qed.

(** The head of a chain is in range. *)
Lemma chain_range prop h l : chain prop h l -> 0 <= h <= Z.of_nat (length prop).
Proof.
  destruct l as [|i l]; cbn; [lia|]. intros (-> & Hi & pr & Hpr & _). apply lookup_lt_Some in Hpr. lia.
Qed.

(** ** Linking a property *)

Lemma land_mask_range n x : pow2_size n -> (Z.to_nat (Z.land x (Z.of_nat n - 1)) < n)%nat.
Proof.
  intros (k & Hk & E). rewrite E, land_pow2_mask by lia. pose proof (Z.mod_pos_bound x (2 ^ k)). lia.
Qed.

Lemma land_mask_nonneg n x : pow2_size n -> 0 <= Z.land x (Z.of_nat n - 1).
Proof. intros (k & Hk & E). rewrite E, land_pow2_mask by lia. pose proof (Z.mod_pos_bound x (2 ^ k)). lia. Qed.

Definition same_key (pr pr' : JSShapeProperty) : Prop := atom pr' = atom pr /\ flags pr' = flags pr.

Lemma link_prop_ok table prop pr :
  table_ok table prop -> pow2_size (length table) -> live pr = true -> Z.of_nat (length prop) < 2 ^ 26 ->
  exists pr' table', link_prop table pr (Z.of_nat (length prop) + 1) = Some (pr', table') /\
    table_ok table' (prop ++ [pr']) /\ length table' = length table /\ same_key pr pr'.
Proof.
  intros H Hn Hl Hlen. unfold link_prop. set (h := Z.land (atom pr) (Z.of_nat (length table) - 1)).
  destruct (lookup_lt_is_Some_2 table (Z.to_nat h)) as [first Ef]; [now apply land_mask_range|].
  rewrite Ef. cbn [mbind option_bind]. pose proof (H _ _ Ef) as Hc. pose proof (chain_range _ _ _ Hc) as Hr.
  assert (u26 first = first) as Eu by (apply wrap_small; unfold in_u; lia). rewrite Eu.
  pose proof (land_mask_nonneg (length table) (atom pr) Hn) as Hnn. fold h in Hnn.
  assert (forall m, in_bucket (Z.of_nat (length table) - 1) m (mk_prs first (flags pr) (atom pr)) = (h =? m)) as Eb.
  { intros m. unfold in_bucket, live in *. cbn. now rewrite Hl. }
  do 2 eexists. split; [reflexivity|]. split_and!; [|apply length_insert | done]. intros m x Hx. rewrite length_insert, bucket_app. cbn [bucket app].
  rewrite Eb. destruct (decide (m = Z.to_nat h)) as [->|Hne].
  - rewrite list_lookup_insert_eq in Hx by (now apply land_mask_range). injection Hx as <-.
    rewrite Z2Nat.id, Z.eqb_refl by done. cbn [app chain]. split_and!; [lia | lia|]. eexists. split.
    + rewrite lookup_app_r by lia. replace (_ - _)%nat with 0%nat by lia. reflexivity.
    + cbn. apply chain_app. rewrite Z2Nat.id in Hc by done. exact Hc.
  - rewrite list_lookup_insert_ne in Hx by done. destruct (Z.eqb_spec h (Z.of_nat m)); [lia|]. cbn [app]. apply chain_app. auto.
Qed.

Lemma dead_prop_ok table prop pr : table_ok table prop -> live pr = false -> table_ok table (prop ++ [pr]).
Proof.
  intros H Hd h x Hx. rewrite bucket_app. cbn [bucket app]. unfold in_bucket. rewrite Hd. cbn [andb app]. apply chain_app. auto.
Qed.

Lemma empty_table_ok n : table_ok (replicate n 0) [].
Proof. intros h x Hx. apply lookup_replicate in Hx as [-> _]. done. Qed.

(** ** Rebuilding the table *)

Lemma rehash_ok todo : forall done0 table,
  table_ok table done0 -> pow2_size (length table) -> Z.of_nat (length done0 + length todo) <= 2 ^ 26 ->
  exists prop' table', rehash table (Z.of_nat (length done0)) todo = Some (prop', table') /\
    table_ok table' (done0 ++ prop') /\ length table' = length table /\ Forall2 same_key todo prop'.
Proof.
  induction todo as [|pr todo IH]; intros done0 table H Hn Hlen; cbn [rehash length] in *.
  - exists [], table. rewrite app_nil_r. split_and!; try done.
  - assert (exists pr' table1, (if atom pr =? JS_ATOM_NULL then Some (pr, table) else link_prop table pr (Z.of_nat (length done0) + 1)) = Some (pr', table1) /\
      table_ok table1 (done0 ++ [pr']) /\ length table1 = length table /\ same_key pr pr') as (pr' & table1 & -> & H1 & L1 & K1).
    { destruct (atom pr =? JS_ATOM_NULL) eqn:E.
      - exists pr, table. split_and!; try done. apply dead_prop_ok; [done|]. unfold live. now rewrite E.
      - apply link_prop_ok; try done; [unfold live; now rewrite E | lia]. }
    cbn [mbind option_bind]. destruct (IH (done0 ++ [pr']) table1) as (prop' & table' & E & H2 & L2 & K2); [done | now rewrite L1 | rewrite length_app; cbn; lia|].
    rewrite length_app in E. cbn in E. replace (Z.of_nat (length done0) + 1) with (Z.of_nat (length done0 + 1)) by lia. rewrite E.
    cbn [mbind option_bind]. do 2 eexists. split; [reflexivity|]. rewrite <- app_assoc in H2. split_and!; [done | congruence | now constructor].
Qed.

(** ** Finding *)

(** The property that a walk along a chain meets first. *)
Lemma walk_chain_spec prop name l : forall fuel h,
  chain prop h l -> (length l <= fuel)%nat ->
  match walk_chain fuel prop h name with
  | Some (Some i) => exists pr, Z.of_nat i + 1 ∈ l /\ prop !! i = Some pr /\ atom pr = name
  | Some None => forall i pr, Z.of_nat i + 1 ∈ l -> prop !! i = Some pr -> atom pr <> name
  | None => False
  end.
Proof.
  induction l as [|i l IH]; intros fuel h C Hf; cbn [chain length] in *.
  - subst h. destruct fuel; cbn; intros i pr []%elem_of_nil.
  - destruct C as (-> & Hi & pr & Hpr & C). destruct fuel as [|fuel]; [lia|]. cbn [walk_chain]. destruct (Z.eqb_spec i 0); [lia|].
    rewrite Hpr. cbn [mbind option_bind]. destruct (Z.eqb_spec (atom pr) name) as [E|E].
    + exists pr. split_and!; [|done | done]. rewrite Z2Nat.id by lia. replace (i - 1 + 1) with i by lia. apply list_elem_of_here.
    + specialize (IH fuel (hash_next pr) C ltac:(lia)). destruct (walk_chain fuel prop (hash_next pr) name) as [[j|]|]; [| |done].
      * destruct IH as (q & H1 & H2 & H3). exists q. split_and!; [now apply list_elem_of_further | done | done].
      * intros j q Hj Hq. apply elem_of_cons in Hj as [<-|Hj]; [|eauto]. replace (Z.to_nat (Z.of_nat j + 1 - 1)) with j in Hpr by lia. congruence.
Qed.

(** The walk of [delete_property] splits the chain at the property. *)
Lemma walk_with_last_spec prop name l : forall fuel h lpr,
  chain prop h l -> (length l <= fuel)%nat ->
  match walk_with_last fuel prop h name lpr with
  | Some (Some (i, lpr')) => exists pr pre post, prop !! i = Some pr /\ atom pr = name /\ l = pre ++ (Z.of_nat i + 1) :: post /\
      lpr' = match List.rev pre with j :: _ => Some (Z.to_nat (j - 1)) | [] => lpr end
  | Some None => forall i pr, Z.of_nat i + 1 ∈ l -> prop !! i = Some pr -> atom pr <> name
  | None => False
  end.
Proof.
  induction l as [|i l IH]; intros fuel h lpr C Hf; cbn [chain length] in *.
  - subst h. destruct fuel; cbn; intros i pr []%elem_of_nil.
  - destruct C as (-> & Hi & pr & Hpr & C). destruct fuel as [|fuel]; [lia|]. cbn [walk_with_last]. destruct (Z.eqb_spec i 0); [lia|].
    rewrite Hpr. cbn [mbind option_bind]. destruct (Z.eqb_spec (atom pr) name) as [E|E].
    + exists pr, [], l. split_and!; [done | done | | done]. rewrite Z2Nat.id by lia. cbn. f_equal. lia.
    + specialize (IH fuel (hash_next pr) (Some (Z.to_nat (i - 1))) C ltac:(lia)).
      destruct (walk_with_last fuel prop (hash_next pr) name _) as [[[j lpr']|]|]; [| |done].
      * destruct IH as (q & pre & post & H1 & H2 & -> & ->). exists q, (i :: pre), post. split_and!; [done | done | done|]. cbn [List.rev].
        destruct (List.rev pre); done.
      * intros j q Hj Hq. apply elem_of_cons in Hj as [<-|Hj]; [|eauto]. replace (Z.to_nat (Z.of_nat j + 1 - 1)) with j in Hpr by lia. congruence.
Qed.

(** ** Unlinking a property *)

Definition without (x : Z) (l : list Z) : list Z := List.filter (fun n => negb (n =? x)) l.

Lemma without_absent x l : x ∉ l -> without x l = l.
Proof.
  intros H. apply forallb_filter_id, forallb_forall. intros n Hn. apply list_elem_of_In in Hn. destruct (Z.eqb_spec n x) as [->|]; done.
Qed.

Lemma without_middle x pre post : NoDup (pre ++ x :: post) -> without x (pre ++ x :: post) = pre ++ post.
Proof.
  intros H. apply NoDup_app in H as (_ & Hp & H). apply NoDup_cons in H as [Hx _]. unfold without. rewrite List.filter_app. cbn. rewrite Z.eqb_refl. cbn.
  f_equal; apply without_absent; [intros Hx'; apply (Hp _ Hx'); apply list_elem_of_here | done].
Qed.

Lemma bucket_delete mask m dead prop : forall i0 (i : nat),
  live dead = false ->
  bucket mask m i0 (<[i := dead]> prop) = without (i0 + Z.of_nat i + 1) (bucket mask m i0 prop).
Proof.
  induction prop as [|pr prop IH]; intros i0 i Hd; [done|]. destruct i as [|i]; cbn [bucket].
  - change (<[0%nat := dead]> (pr :: prop)) with (dead :: prop). cbn [bucket]. unfold in_bucket at 1. rewrite Hd. cbn [andb]. rewrite app_nil_r.
    replace (i0 + Z.of_nat 0 + 1) with (i0 + 1) by lia.
    assert (i0 + 1 ∉ bucket mask m (i0 + 1) prop) as Hn by (intros (j & q & E & _)%bucket_elem; lia). destruct (in_bucket mask m pr).
    + rewrite (without_middle _ _ []), app_nil_r; [done|]. apply NoDup_app. split_and!; [apply bucket_NoDup | | apply NoDup_singleton].
      intros n Hx Hn'. apply list_elem_of_singleton in Hn' as ->. done.
    + now rewrite app_nil_r, without_absent.
  - change (<[S i := dead]> (pr :: prop)) with (pr :: <[i := dead]> prop). cbn [bucket]. unfold without. rewrite List.filter_app, IH by done. f_equal.
    + apply List.filter_ext. intros n. do 2 f_equal. lia.
    + destruct (in_bucket mask m pr); cbn [List.filter]; [|done].
      destruct (Z.eqb_spec (i0 + 1) (i0 + Z.of_nat (S i) + 1)); [lia | done].
Qed.

Lemma chain_unlink prop prop' j x q q' post pre : forall h,
  NoDup (pre ++ j :: x :: post) ->
  (forall i pr, 0 < i -> i <> j -> i <> x -> prop !! Z.to_nat (i - 1) = Some pr -> exists pr', prop' !! Z.to_nat (i - 1) = Some pr' /\ hash_next pr' = hash_next pr) ->
  prop !! Z.to_nat (x - 1) = Some q -> prop' !! Z.to_nat (j - 1) = Some q' -> hash_next q' = hash_next q ->
  chain prop h (pre ++ j :: x :: post) -> chain prop' h (pre ++ j :: post).
Proof.
  induction pre as [|i pre IH]; intros h Hnd Hsame Hq Hq' E C; cbn [app chain] in *.
  - destruct C as (-> & Hj & pr & Hpr & _ & Hx & qx & Hqx & C). split_and!; [done | done|]. exists q'. split; [done|]. rewrite E.
    rewrite Hq in Hqx. injection Hqx as <-. apply NoDup_cons in Hnd as [Hjn Hnd]. apply NoDup_cons in Hnd as [Hxn _].
    pose proof C as C'. revert C. apply chain_ext. intros i Hi pr' Hpr'. apply Hsame; [now apply (chain_pos _ _ _ _ C') | intros -> | intros -> |done]; [|done].
    apply Hjn. now apply list_elem_of_further.
  - destruct C as (-> & Hi & pr & Hpr & C). apply NoDup_cons in Hnd as [Hin Hnd]. split_and!; [done | done|].
    destruct (Hsame i pr) as (pr' & Hpr' & E'); [done | intros ->; apply Hin; clear; set_solver | intros ->; apply Hin; clear; set_solver | done|].
    exists pr'. split; [done|]. rewrite E'. now apply IH.
Qed.

(** What deleting the property [i] leaves. *)
Definition deleted_at (i : nat) (prop prop' : list JSShapeProperty) : Prop :=
  length prop' = length prop /\
  (exists pr', prop' !! i = Some pr' /\ atom pr' = JS_ATOM_NULL /\ flags pr' = 0) /\
  forall n pr, n <> i -> prop !! n = Some pr -> exists pr', prop' !! n = Some pr' /\ same_key pr pr'.

Lemma deleted_bucket i prop prop' mask m :
  deleted_at i prop prop' -> (i < length prop)%nat ->
  bucket mask m 0 prop' = without (Z.of_nat i + 1) (bucket mask m 0 prop).
Proof.
  intros (Hl & (d & Hd & Ed & _) & Hs) Hi.
  change (Z.of_nat i + 1) with (0 + Z.of_nat i + 1). rewrite <- (bucket_delete mask m d prop 0 i) by (unfold live; now rewrite Ed).
  apply bucket_ext. apply Forall2_same_length_lookup_2; [now rewrite length_insert|]. intros n x y Hx Hy.
  destruct (decide (n = i)) as [->|Hne].
  - rewrite list_lookup_insert_eq in Hy by done. congruence.
  - rewrite list_lookup_insert_ne in Hy by done. destruct (Hs n y Hne Hy) as (x' & Hx' & E & _). congruence.
Qed.

Lemma bucket_disjoint mask m m' n prop :
  n ∈ bucket mask (Z.of_nat m) 0 prop -> n ∈ bucket mask (Z.of_nat m') 0 prop -> m = m'.
Proof.
  intros H H'. apply bucket_elem in H as (a & q & -> & Hq & E). apply bucket_elem in H' as (b & r & E' & Hr & F).
  assert (a = b) as <- by lia. rewrite Hq in Hr. injection Hr as <-. unfold in_bucket in *.
  apply andb_true_iff in E as [_ E]. apply andb_true_iff in F as [_ F]. lia.
Qed.

(** The chains of the other hashes do not meet the property [i], nor the one
    before it. *)
Lemma unlink_others table prop prop' m m' i x (l : list Z) :
  table_ok table prop -> deleted_at i prop prop' -> (i < length prop)%nat ->
  Z.of_nat i + 1 ∈ bucket (Z.of_nat (length table) - 1) (Z.of_nat m) 0 prop -> m' <> m -> table !! m' = Some x ->
  (forall n q, Z.of_nat n + 1 ∉ l -> prop !! n = Some q -> prop' !! n = Some q) ->
  (forall n, n ∈ l -> n ∈ bucket (Z.of_nat (length table) - 1) (Z.of_nat m) 0 prop) ->
  chain prop' x (bucket (Z.of_nat (length table) - 1) (Z.of_nat m') 0 prop').
Proof.
  intros Ht Hd Hi Hin Hne Hx Hsame Hl. rewrite (deleted_bucket i prop prop') by done.
  rewrite without_absent by (intros H; apply Hne; now rewrite (bucket_disjoint _ _ _ _ _ H Hin)).
  pose proof (Ht _ _ Hx) as C. revert C. apply chain_ext. intros n Hn q Hq. exists q. split; [|done]. apply Hsame; [|done].
  pose proof Hn as Hn'. apply bucket_elem in Hn as (a & _ & -> & _). replace (Z.of_nat (Z.to_nat _) + 1) with (0 + Z.of_nat a + 1) by lia.
  intros H. apply Hne. apply (bucket_disjoint _ _ _ _ _ Hn' (Hl _ H)).
Qed.

Section Unlink.
Context (sh : JSShape) (m i : nat) (pr : JSShapeProperty).
Abbreviation chain_of_m := (bucket (prop_hash_mask sh) (Z.of_nat m) 0 (prop sh)).
Context (sh_table : table_ok (prop_hash sh) (prop sh)) (found : prop sh !! i = Some pr) (in_table : (m < length (prop_hash sh))%nat).

Definition unlinked (lpr : option nat) : Prop :=
  exists prop' table', unlink_prop sh m i lpr = Some (with_props sh table' (prop_size sh) (deleted_prop_count sh + 1) prop') /\
    table_ok table' prop' /\ length table' = length (prop_hash sh) /\ deleted_at i (prop sh) prop'.

Lemma unlink_head post : chain_of_m = (Z.of_nat i + 1) :: post -> unlinked None.
Proof.
  intros Hb. unfold unlinked, unlink_prop. rewrite found. cbn [mbind option_bind]. do 2 eexists. split; [reflexivity|].
  assert (i < length (prop sh))%nat as Hil by now apply lookup_lt_Some in found.
  pose proof (bucket_NoDup (prop_hash_mask sh) (Z.of_nat m) (prop sh) 0) as Hnd. rewrite Hb in Hnd.
  assert (deleted_at i (prop sh) (<[i := mk_prs (hash_next pr) 0 JS_ATOM_NULL]> (prop sh))) as Hd.
  { split_and!; [now rewrite length_insert | eexists; rewrite list_lookup_insert_eq by done; done|].
    intros n q Hne Hq. exists q. rewrite list_lookup_insert_ne by done. done. }
  split_and!; [|now rewrite length_insert | done]. intros m' x Hx. rewrite length_insert. destruct (decide (m' = m)) as [->|Hne].
  - rewrite (deleted_bucket i _ _ _ _ Hd Hil). fold (prop_hash_mask sh). rewrite list_lookup_insert_eq in Hx by done. injection Hx as <-.
    pose proof (without_middle _ [] _ Hnd) as E. cbn [app] in E. rewrite Hb, E. clear E. destruct (lookup_lt_is_Some_2 _ _ in_table) as [first Ef]. pose proof (sh_table _ _ Ef) as C.
    fold (prop_hash_mask sh) in C. rewrite Hb in C. destruct C as (_ & _ & q & Hq & C).
    replace (Z.to_nat (Z.of_nat i + 1 - 1)) with i in Hq by lia. rewrite found in Hq. injection Hq as <-.
    revert C. apply chain_ext. intros n Hn q Hq. destruct (decide (Z.to_nat (n - 1) = i)) as [E|E].
    + rewrite E in Hq. rewrite found in Hq. injection Hq as <-. eexists. rewrite E, list_lookup_insert_eq by done. done.
    + exists q. rewrite list_lookup_insert_ne by done. done.
  - rewrite list_lookup_insert_ne in Hx by done. eapply (unlink_others (prop_hash sh) (prop sh) _ m m' i x [Z.of_nat i + 1]); try done.
    + fold (prop_hash_mask sh). rewrite Hb. apply list_elem_of_here.
    + intros n q Hn Hq. rewrite list_lookup_insert_ne; [done|]. intros <-. apply Hn, list_elem_of_here.
    + intros n Hn. apply list_elem_of_singleton in Hn as ->. fold (prop_hash_mask sh). rewrite Hb. apply list_elem_of_here.
Qed.

Lemma unlink_inner pre j post : chain_of_m = pre ++ j :: (Z.of_nat i + 1) :: post -> unlinked (Some (Z.to_nat (j - 1))).
Proof.
  intros Hb. unfold unlinked, unlink_prop. rewrite found. cbn [mbind option_bind].
  assert (i < length (prop sh))%nat as Hil by now apply lookup_lt_Some in found.
  pose proof (bucket_NoDup (prop_hash_mask sh) (Z.of_nat m) (prop sh) 0) as Hnd. rewrite Hb in Hnd.
  assert (j ∈ chain_of_m) as Hj by (rewrite Hb; clear; set_solver). pose proof Hj as Hjb. apply bucket_elem in Hj as (jn & lp & Ej & Hlp & _).
  assert (Z.to_nat (j - 1) = jn) as Ejn by lia. rewrite Ejn, Hlp. cbn [mbind option_bind].
  assert (jn <> i) as Hji.
  { intros <-. apply NoDup_app in Hnd as (_ & _ & Hnd). apply NoDup_cons in Hnd as [Hn _]. apply Hn. rewrite Ej. apply list_elem_of_here. }
  assert (jn < length (prop sh))%nat as Hjl by now apply lookup_lt_Some in Hlp.
  do 2 eexists. split; [reflexivity|]. set (prop1 := <[jn := mk_prs (hash_next pr) (flags lp) (atom lp)]> (prop sh)).
  set (prop2 := <[i := mk_prs (hash_next pr) 0 JS_ATOM_NULL]> prop1).
  assert (forall n q, n <> i -> n <> jn -> prop sh !! n = Some q -> prop2 !! n = Some q) as Hrest.
  { intros n q H1 H2 Hq. unfold prop2, prop1. rewrite !list_lookup_insert_ne by done. done. }
  assert (prop2 !! i = Some (mk_prs (hash_next pr) 0 JS_ATOM_NULL)) as Hp2i by (unfold prop2; rewrite list_lookup_insert_eq by (unfold prop1; rewrite length_insert; lia); done).
  assert (prop2 !! jn = Some (mk_prs (hash_next pr) (flags lp) (atom lp))) as Hp2j.
  { unfold prop2, prop1. rewrite list_lookup_insert_ne by done. rewrite list_lookup_insert_eq by done. done. }
  assert (deleted_at i (prop sh) prop2) as Hd.
  { split_and!; [unfold prop2, prop1; now rewrite !length_insert | eauto|]. intros n q Hne Hq. destruct (decide (n = jn)) as [->|Hn].
    - rewrite Hlp in Hq. injection Hq as <-. eexists. split; [exact Hp2j | done].
    - exists q. split; [auto | done]. }
  split_and!; [|done | done]. intros m' x Hx. destruct (decide (m' = m)) as [->|Hne].
  - rewrite (deleted_bucket i _ _ _ _ Hd Hil). fold (prop_hash_mask sh). pose proof (sh_table _ _ Hx) as C. fold (prop_hash_mask sh) in C. rewrite Hb in C |- *.
    replace (pre ++ j :: (Z.of_nat i + 1) :: post) with ((pre ++ [j]) ++ (Z.of_nat i + 1) :: post) by now rewrite <- app_assoc.
    rewrite without_middle by now rewrite <- app_assoc. rewrite <- app_assoc. cbn [app].
    eapply (chain_unlink (prop sh) prop2 j (Z.of_nat i + 1) pr _ post pre x Hnd); [| | | |exact C].
    + intros n q Hn H1 H2 Hq. destruct (decide (Z.to_nat (n - 1) = i)) as [E|E].
      * rewrite E in Hq. rewrite found in Hq. injection Hq as <-. eexists. rewrite E. split; [exact Hp2i | done].
      * destruct (decide (Z.to_nat (n - 1) = jn)) as [F|F]; [lia | exists q; split; [auto | done]].
    + now replace (Z.to_nat (Z.of_nat i + 1 - 1)) with i by lia.
    + rewrite Ejn. exact Hp2j.
    + done.
  - eapply (unlink_others (prop_hash sh) (prop sh) _ m m' i x [j; Z.of_nat i + 1]); try done.
    + fold (prop_hash_mask sh). rewrite Hb. apply elem_of_app. right. apply list_elem_of_further, list_elem_of_here.
    + intros n q Hn Hq. apply Hrest; [| |done]; intros ->; apply Hn; [clear; set_solver|]. replace (Z.of_nat jn + 1) with j by lia. apply list_elem_of_here.
    + fold (prop_hash_mask sh). rewrite Hb. intros n Hn. apply elem_of_app. right. apply elem_of_cons in Hn as [->|Hn]; [apply list_elem_of_here|].
      apply list_elem_of_singleton in Hn as ->. apply list_elem_of_further, list_elem_of_here.
Qed.

Lemma unlink_prop_ok pre post lpr :
  chain_of_m = pre ++ (Z.of_nat i + 1) :: post ->
  lpr = match List.rev pre with j :: _ => Some (Z.to_nat (j - 1)) | [] => None end -> unlinked lpr.
Proof.
  intros Hb ->. destruct pre as [|j pre _] using rev_ind; [now apply (unlink_head post)|].
  rewrite List.rev_app_distr. cbn. apply (unlink_inner pre j post). now rewrite Hb, <- app_assoc.
Qed.
End Unlink.

(** ** The properties that a shape and the values of an object describe *)

Definition property_entry : Type := Z * Z * JSProperty.
Definition entry_name (e : property_entry) : Z := e.1.1.

Fixpoint entries (prop : list JSShapeProperty) (values : list JSProperty) : list property_entry :=
  match prop, values with
  | pr :: prop, v :: values => if live pr then (atom pr, flags pr, v) :: entries prop values else entries prop values
  | _, _ => []
  end.

Definition live_names (prop : list JSShapeProperty) : list Z := map atom (List.filter live prop).

Lemma entries_app prop1 values1 prop2 values2 :
  length prop1 = length values1 -> entries (prop1 ++ prop2) (values1 ++ values2) = entries prop1 values1 ++ entries prop2 values2.
Proof.
  revert values1. induction prop1 as [|pr prop1 IH]; intros [|v values1] H; try discriminate; [done|]. cbn. injection H as H. rewrite IH by done.
  now destruct (live pr).
Qed.

Lemma entries_take prop values n : (length prop <= n)%nat -> entries prop (take n values) = entries prop values.
Proof.
  revert values n. induction prop as [|pr prop IH]; intros [|v values] [|n] H; cbn in *; try done; [lia|]. now rewrite IH by lia.
Qed.

Lemma entries_more prop values extra : (length prop <= length values)%nat -> entries prop (values ++ extra) = entries prop values.
Proof.
  intros H. rewrite <- (entries_take prop (values ++ extra) (length values)) by done. now rewrite take_app_length.
Qed.

Lemma entries_same_key prop prop' values : Forall2 same_key prop prop' -> entries prop' values = entries prop values.
Proof.
  intros H. revert values. induction H as [|pr pr' l l' [E1 E2] _ IH]; intros [|v values]; cbn; try done. unfold live. rewrite E1, E2.
  now destruct (negb _); rewrite IH.
Qed.

Lemma entries_names prop values : (length prop <= length values)%nat -> map entry_name (entries prop values) = live_names prop.
Proof.
  revert values. unfold live_names. induction prop as [|pr prop IH]; intros [|v values] H; cbn in *; [done | done | lia |].
  destruct (live pr); cbn; now rewrite IH by lia.
Qed.

Lemma entries_length prop values :
  (length prop <= length values)%nat -> length (entries prop values) = length (List.filter live prop).
Proof. intros H. rewrite <- (length_map entry_name), entries_names by done. unfold live_names. now rewrite length_map. Qed.

Lemma entries_elem prop values n f v :
  (n, f, v) ∈ entries prop values <-> exists i pr, prop !! i = Some pr /\ live pr = true /\ atom pr = n /\ flags pr = f /\ values !! i = Some v.
Proof.
  revert values. induction prop as [|pr prop IH]; intros [|w values]; cbn.
  - split; [intros []%elem_of_nil | intros (i & pr & H & _); now rewrite lookup_nil in H].
  - split; [intros []%elem_of_nil | intros (i & pr & H & _); now rewrite lookup_nil in H].
  - split; [intros []%elem_of_nil | intros (i & q & _ & _ & _ & _ & H); now rewrite lookup_nil in H].
  - assert ((n, f, v) ∈ (if live pr then (atom pr, flags pr, w) :: entries prop values else entries prop values) <->
      (live pr = true /\ (n, f, v) = (atom pr, flags pr, w)) \/ (n, f, v) ∈ entries prop values) as ->.
    { destruct (live pr); [rewrite elem_of_cons|]; naive_solver. }
    rewrite IH. split.
    + intros [[Hl [= -> -> ->]]|(i & q & H)]; [exists 0%nat, pr; naive_solver | exists (S i), q; naive_solver].
    + intros ([|i] & q & H); [left; naive_solver | right; exists i, q; naive_solver].
Qed.

(** ** Well-formed shapes *)

(** Data properties with their three attributes, and accessors, which have no
    [writable]. *)
Definition ordinary_flags (f : Z) : Prop := f ∈ [0; 1; 2; 3; 4; 5; 6; 7; 16; 17; 20; 21].

Definition MAX_PROPS : Z := 2 ^ 26.

Record shape_ok (sh : JSShape) : Prop := mk_shape_ok {
  so_size : pow2_size (length (prop_hash sh));
  so_table : table_ok (prop_hash sh) (prop sh);
  so_names : NoDup (live_names (prop sh));
  so_flags : Forall (fun pr => ordinary_flags (flags pr)) (prop sh);
  so_count : prop_count sh <= MAX_PROPS /\ prop_count sh <= prop_size sh /\ 1 <= prop_size sh <= 2 ^ 27;
  so_deleted : deleted_prop_count sh = prop_count sh - Z.of_nat (length (List.filter live (prop sh)));
}.

Lemma live_names_elem prop i pr : prop !! i = Some pr -> live pr = true -> atom pr ∈ live_names prop.
Proof.
  intros Hi Hl. apply list_elem_of_In, in_map, List.filter_In. split; [|done]. apply list_elem_of_In. now apply list_elem_of_lookup_2 in Hi.
Qed.

Lemma names_inj prop i j pr q :
  NoDup (live_names prop) -> prop !! i = Some pr -> prop !! j = Some q -> live pr = true -> atom pr = atom q -> i = j.
Proof.
  revert i j. induction prop as [|x prop IH]; intros i j Hnd Hi Hj Hl E; [now rewrite lookup_nil in Hi|].
  assert (live q = true) as Hlq by (unfold live in *; now rewrite <- E). unfold live_names in Hnd. cbn in Hnd.
  destruct i as [|i], j as [|j]; [done | | |].
  - injection Hi as ->. rewrite Hl in Hnd. apply NoDup_cons in Hnd as [Hn _]. exfalso. apply Hn. rewrite E. now apply (live_names_elem prop j).
  - injection Hj as ->. rewrite Hlq in Hnd. apply NoDup_cons in Hnd as [Hn _]. exfalso. apply Hn. rewrite <- E. now apply (live_names_elem prop i).
  - f_equal. apply IH; try done. destruct (live x); [now apply NoDup_cons in Hnd as [_ ?] | done].
Qed.

Lemma in_own_bucket sh i pr :
  shape_ok sh -> prop sh !! i = Some pr -> live pr = true ->
  Z.of_nat i + 1 ∈ bucket (prop_hash_mask sh) (Z.of_nat (Z.to_nat (Z.land (atom pr) (prop_hash_mask sh)))) 0 (prop sh).
Proof.
  intros H Hi Hl. apply bucket_elem. exists i, pr. split_and!; [lia | done|]. unfold in_bucket. rewrite Hl. cbn.
  apply Z.eqb_eq. pose proof (land_mask_nonneg _ (atom pr) (so_size _ H)). unfold prop_hash_mask. lia.
Qed.

(** The lookup finds the property with the name, if there is one. *)
Lemma find_in_shape_spec sh name :
  shape_ok sh -> name <> JS_ATOM_NULL ->
  exists r, find_in_shape sh name = Some r /\
    match r with
    | Some i => exists pr, prop sh !! i = Some pr /\ atom pr = name
    | None => name ∉ live_names (prop sh)
    end.
Proof.
  intros H Hn. unfold find_in_shape. set (h := Z.to_nat (Z.land name (prop_hash_mask sh))).
  destruct (lookup_lt_is_Some_2 (prop_hash sh) h) as [first Ef]; [apply land_mask_range, so_size, H|]. rewrite Ef. cbn [mbind option_bind].
  pose proof (walk_chain_spec (prop sh) name _ (length (prop sh)) first (so_table _ H _ _ Ef) (bucket_length _ _ _ _)) as W.
  destruct (walk_chain _ _ _ _) as [[i|]|]; [| |done].
  - exists (Some i). split; [done|]. destruct W as (pr & _ & Hpr & E). eauto.
  - exists None. split; [done|]. intros Hin. apply list_elem_of_In, in_map_iff in Hin as (pr & E & Hpr). apply List.filter_In in Hpr as [Hpr Hl].
    apply list_elem_of_In, list_elem_of_lookup_1 in Hpr as [i Hi]. apply (W i pr); [|done | done].
    fold (prop_hash_mask sh). unfold h. rewrite <- E. now apply in_own_bucket.
Qed.

(** ** Adding *)

Lemma live_names_app prop1 prop2 : live_names (prop1 ++ prop2) = live_names prop1 ++ live_names prop2.
Proof. unfold live_names. now rewrite List.filter_app, map_app. Qed.

Lemma same_key_filter prop prop' : Forall2 same_key prop prop' ->
  live_names prop' = live_names prop /\ length (List.filter live prop') = length (List.filter live prop) /\
  (Forall (fun pr => ordinary_flags (flags pr)) prop -> Forall (fun pr => ordinary_flags (flags pr)) prop').
Proof.
  unfold live_names. induction 1 as [|pr pr' l l' [E1 E2] _ (IH1 & IH2 & IH3)]; [done|]. cbn. unfold live in *. rewrite E1.
  split_and!; [destruct (negb _); cbn; congruence | destruct (negb _); cbn; congruence|]. intros F. apply Forall_cons in F as [F Fs]. constructor; [now rewrite E2 | auto].
Qed.

Lemma add_prop_ok sh name f :
  shape_ok sh -> name <> JS_ATOM_NULL -> name ∉ live_names (prop sh) -> ordinary_flags f ->
  prop_count sh < MAX_PROPS -> prop_count sh < prop_size sh ->
  exists pr table, link_prop (prop_hash sh) (mk_prs 0 f name) (prop_count sh + 1) = Some (pr, table) /\ atom pr = name /\ flags pr = f /\
    shape_ok (with_props sh table (prop_size sh) (deleted_prop_count sh) (prop sh ++ [pr])).
Proof.
  intros [S1 S2 S3 S4 S5 S6] Hname Hfresh Hf Hmax Hsize. unfold prop_count, MAX_PROPS in *.
  assert (live (mk_prs 0 f name) = true) as Hl by (unfold live; cbn; destruct (Z.eqb_spec name JS_ATOM_NULL); done).
  destruct (link_prop_ok (prop_hash sh) (prop sh) (mk_prs 0 f name) S2 S1 Hl Hmax) as (pr & table & E & Ht & Hlen & [K1 K2]).
  exists pr, table. split_and!; [done | done | done|]. cbn in K1, K2.
  assert (live pr = true) as Hlp by (unfold live; rewrite K1; exact Hl).
  split; cbn [prop_hash prop prop_size deleted_prop_count with_props]; unfold prop_count; cbn [prop with_props].
  - now rewrite Hlen.
  - done.
  - rewrite live_names_app. unfold live_names at 2. cbn. rewrite Hlp. cbn. rewrite K1. apply NoDup_app. split_and!; [done | | apply NoDup_singleton].
    intros n Hn Hn'. apply list_elem_of_singleton in Hn' as ->. done.
  - apply Forall_app. split; [done|]. constructor; [now rewrite K2 | done].
  - rewrite length_app. cbn. unfold MAX_PROPS. lia.
  - rewrite List.filter_app, !length_app. cbn. rewrite Hlp. cbn. lia.
Qed.

(** ** Resizing *)

Lemma grow_hash_size_spec fuel : forall k new_size,
  0 <= k -> new_size <= 2 ^ 27 -> 27 <= k + Z.of_nat fuel -> k <= 30 -> 2 ^ k <= 2 ^ 30 ->
  exists k', grow_hash_size fuel (2 ^ k) new_size = Some (2 ^ k') /\ k <= k' <= 30 /\ new_size <= 2 ^ k'.
Proof.
  induction fuel as [|fuel IH]; intros k new_size Hk Hn Hf Hk30 Hp; cbn [grow_hash_size]; destruct (Z.ltb_spec (2 ^ k) new_size) as [Hlt|Hge].
  - exfalso. assert (2 ^ 27 <= 2 ^ k) by (apply Z.pow_le_mono_r; lia). lia.
  - exists k. split_and!; [done | lia | lia | lia].
  - assert (k < 27) by (destruct (Z.lt_ge_cases k 27); [done|]; assert (2 ^ 27 <= 2 ^ k) by (apply Z.pow_le_mono_r; lia); lia).
    assert (u32 (2 * 2 ^ k) = 2 ^ (k + 1)) as ->.
    { rewrite Z.pow_add_r by lia. rewrite wrap_small; [lia|]. unfold in_u. assert (2 ^ k <= 2 ^ 27) by (apply Z.pow_le_mono_r; lia).
      assert (0 < 2 ^ k) by (apply Z.pow_pos_nonneg; lia). change (2 ^ 27) with 134217728 in *. change (2 ^ 32) with 4294967296. lia. }
    destruct (IH (k + 1) new_size) as (k' & E & Hk' & Hle); [lia | done | lia | lia | apply Z.pow_le_mono_r; lia|].
    exists k'. split_and!; [done | lia | lia | done].
  - exists k. split_and!; [done | lia | lia | lia].
Qed.

Definition same_entry_keys (sh sh' : JSShape) : Prop := Forall2 same_key (prop sh) (prop sh').

(** The shape that [resize_properties] builds. *)
Lemma resize_shape_ok sh :
  shape_ok sh -> prop_size sh <= prop_count sh -> prop_count sh < MAX_PROPS ->
  let new_size := Z.max (prop_count sh + 1) (Z.quot (i32 (prop_size sh * 3)) 2) in
  exists n prop' table', grow_hash_size 32 (prop_hash_mask sh + 1) new_size = Some n /\
    (if n =? prop_hash_mask sh + 1 then Some (prop sh, prop_hash sh) else rehash (replicate (Z.to_nat n) 0) 0 (prop sh)) = Some (prop', table') /\
    Forall2 same_key (prop sh) prop' /\ shape_ok (with_props sh table' new_size (deleted_prop_count sh) prop') /\ prop_count sh < new_size.
Proof.
  intros H Hle Hmax new_size. pose proof H as [S1 S2 S3 S4 S5 S6]. destruct S1 as (k & Hk & Ek). unfold MAX_PROPS in *.
  assert (prop_count sh < new_size <= 2 ^ 27) as Hns.
  { unfold new_size. rewrite sgn_small; [|lia | unfold in_s; change (2 ^ 26) with 67108864 in *; change (2 ^ (32 - 1)) with 2147483648; lia].
    change (2 ^ 26) with 67108864 in *. change (2 ^ 27) with 134217728 in *. rewrite Z.quot_div_nonneg by lia.
    pose proof (Z.div_le_upper_bound (prop_size sh * 3) 2 134217728). lia. }
  assert (prop_hash_mask sh + 1 = 2 ^ k) as Em by (unfold prop_hash_mask; lia). rewrite Em.
  destruct (grow_hash_size_spec 32 k new_size) as (k' & -> & Hk' & Hge); [lia | lia | lia | lia | apply Z.pow_le_mono_r; lia|].
  exists (2 ^ k').
  assert (exists prop' table', (if 2 ^ k' =? 2 ^ k then Some (prop sh, prop_hash sh) else rehash (replicate (Z.to_nat (2 ^ k')) 0) 0 (prop sh)) = Some (prop', table') /\
    table_ok table' prop' /\ pow2_size (length table') /\ Forall2 same_key (prop sh) prop') as (prop' & table' & E & Ht & Hp & Hk2).
  { destruct (2 ^ k' =? 2 ^ k).
    - do 2 eexists. split_and!; [reflexivity | done | now exists k | apply Forall_Forall2_diag, Forall_forall; done].
    - assert (0 < 2 ^ k') by (apply Z.pow_pos_nonneg; lia).
      assert (pow2_size (length (replicate (Z.to_nat (2 ^ k')) 0))) as Hp by (exists k'; rewrite length_replicate; lia).
      destruct (rehash_ok (prop sh) [] _ (empty_table_ok (Z.to_nat (2 ^ k'))) Hp) as (prop' & table' & E & Ht & Hl & Hs); [unfold prop_count in *; cbn; lia|].
      exists prop', table'. split_and!; [exact E | done | now rewrite Hl | done]. }
  exists prop', table'. split_and!; [done | done | done | | lia].
  destruct (same_key_filter _ _ Hk2) as (F1 & F2 & F3). pose proof (Forall2_length _ _ _ Hk2) as Hlen.
  split; cbn [prop_hash prop prop_size deleted_prop_count with_props]; unfold prop_count in *; cbn [prop with_props]; rewrite <- ?Hlen; try done.
  - now rewrite F1.
  - auto.
  - unfold MAX_PROPS. lia.
  - now rewrite F2.
Qed.

(** ** Compacting *)

Lemma shrink_hash_size_spec fuel : forall k new_size,
  0 <= k <= 30 -> 1 <= new_size -> k < Z.of_nat fuel -> exists k', shrink_hash_size fuel (2 ^ k) new_size = Some (2 ^ k') /\ 0 <= k' <= k.
Proof.
  induction fuel as [|fuel IH]; intros k new_size Hk Hn Hf; [lia|]. cbn [shrink_hash_size]. destruct (Z.leb_spec new_size (2 ^ k / 2)) as [Hle|Hgt].
  - assert (k <> 0) by (intros ->; change (2 ^ 0 / 2) with 0 in Hle; lia).
    assert (2 ^ k / 2 = 2 ^ (k - 1)) as -> by (rewrite <- Z.pow_pred_r, Z.mul_comm, Z.div_mul by lia; f_equal; lia).
    destruct (IH (k - 1) new_size) as (k' & E & Hk'); [lia | lia | lia|]. exists k'. split; [done | lia].
  - exists k. split; [done | lia].
Qed.

Lemma compact_loop_ok todo : forall done0 table i values,
  table_ok table done0 -> pow2_size (length table) -> (length done0 <= i)%nat -> (i + length todo <= length values)%nat ->
  Z.of_nat (length done0 + length todo) <= 2 ^ 26 ->
  exists prop' table' values', compact_loop table i (length done0) values todo = Some (prop', table', values') /\
    table_ok table' (done0 ++ prop') /\ length table' = length table /\ Forall2 same_key (List.filter live todo) prop' /\
    length values' = length values /\
    entries (done0 ++ prop') values' = entries done0 values ++ entries todo (drop i values).
Proof.
  induction todo as [|pr todo IH]; intros done0 table i values H Hn Hji Hi Hmax; cbn [compact_loop length List.filter] in *.
  - exists [], table, values. rewrite !app_nil_r. split_and!; done.
  - destruct (lookup_lt_is_Some_2 values i ltac:(lia)) as [v Hv]. rewrite (drop_S _ _ _ Hv). cbn [entries].
    destruct (atom pr =? JS_ATOM_NULL) eqn:El.
    + assert (live pr = false) as Hd by (unfold live; now rewrite El). rewrite Hd. apply IH; try done; lia.
    + assert (live pr = true) as Hl by (unfold live; now rewrite El). rewrite Hl.
      destruct (link_prop_ok table done0 pr H Hn Hl ltac:(lia)) as (pr' & table1 & -> & H1 & L1 & K1).
      cbn [mbind option_bind]. rewrite Hv. cbn [mbind option_bind]. destruct (Nat.ltb_spec (length done0) (length values)); [|lia].
      destruct (IH (done0 ++ [pr']) table1 (S i) (<[length done0 := v]> values)) as (prop' & table' & values' & E & H2 & L2 & K2 & L3 & H3);
        [done | now rewrite L1 | rewrite length_app; cbn; lia | rewrite length_insert; lia | rewrite length_app; cbn; lia|].
      rewrite length_app in E. cbn in E. rewrite Nat.add_1_r in E. rewrite E. cbn [mbind option_bind].
      do 3 eexists. split; [reflexivity|]. rewrite <- app_assoc in H2, H3. rewrite length_insert in L3.
      split_and!; [done | congruence | now constructor | done|]. cbn [app] in H3 |- *. rewrite H3, drop_insert_lt by lia.
      rewrite <- (entries_take (done0 ++ [pr']) _ (S (length done0))) by (rewrite length_app; cbn; lia).
      rewrite (take_S_r _ _ v) by (apply list_lookup_insert_eq; lia). rewrite take_insert_ge by lia.
      rewrite entries_app by (rewrite length_take; lia). rewrite entries_take by done. rewrite <- app_assoc. f_equal.
      cbn. destruct K1 as [K1 K3]. unfold live in *. now rewrite K1, Hl, K3.
Qed.

(** The shape and values that [compact_properties] builds. *)
Lemma compact_shape_ok sh values :
  shape_ok sh -> prop_size sh <= Z.of_nat (length values) -> 2 <= prop_size sh ->
  let new_size := Z.max JS_PROP_INITIAL_SIZE (prop_count sh - deleted_prop_count sh) in
  new_size <= prop_size sh /\
  exists n prop' table' values', shrink_hash_size 32 (prop_hash_mask sh + 1) new_size = Some n /\
    compact_loop (replicate (Z.to_nat n) 0) 0 0 values (prop sh) = Some (prop', table', values') /\
    Z.of_nat (length prop') = prop_count sh - deleted_prop_count sh /\
    shape_ok (with_props sh table' new_size 0 prop') /\
    length values' = length values /\ entries prop' values' = entries (prop sh) values.
Proof.
  intros [S1 S2 S3 S4 S5 S6] Hv H2 new_size. pose proof (List.filter_length_le live (prop sh)) as Hfl. unfold JS_PROP_INITIAL_SIZE, prop_count, MAX_PROPS in *.
  assert (2 <= new_size) by (unfold new_size; lia).
  split; [unfold new_size; lia|]. destruct S1 as (k & Hk & Ek). assert (prop_hash_mask sh + 1 = 2 ^ k) as -> by (unfold prop_hash_mask; lia).
  destruct (shrink_hash_size_spec 32 k new_size) as (k' & -> & Hk'); [done | lia | lia|]. assert (0 < 2 ^ k') by (apply Z.pow_pos_nonneg; lia).
  assert (pow2_size (length (replicate (Z.to_nat (2 ^ k')) 0))) as Hp by (exists k'; rewrite length_replicate; lia).
  destruct (compact_loop_ok (prop sh) [] _ 0 values (empty_table_ok (Z.to_nat (2 ^ k'))) Hp) as (prop' & table' & values' & E & Ht & Hl & Hs & Hlv & He);
    [cbn; lia | lia | cbn; lia|].
  cbn [app length entries] in *. rewrite drop_0 in He. exists (2 ^ k'), prop', table', values'.
  assert (length prop' = length (List.filter live (prop sh))) as Hlen by now rewrite (Forall2_length _ _ _ Hs).
  destruct (same_key_filter _ _ Hs) as (F1 & F2 & F3).
  assert (List.filter live (List.filter live (prop sh)) = List.filter live (prop sh)) as Eff.
  { apply forallb_filter_id, forallb_forall. intros x Hx. now apply List.filter_In in Hx as [_ Hx]. }
  split_and!; [done | done | lia | | done | done].
  split; cbn [prop_hash prop prop_size deleted_prop_count with_props]; unfold prop_count; cbn [prop with_props].
  - now rewrite Hl.
  - done.
  - rewrite F1. unfold live_names. now rewrite Eff.
  - apply F3. rewrite !Forall_forall in *. intros x Hx. apply list_elem_of_In, List.filter_In in Hx as [Hx _]. apply S4. now apply list_elem_of_In.
  - unfold MAX_PROPS, new_size. lia.
  - rewrite F2, Eff. lia.
Qed.

(** ** Deleting *)

Lemma walk_with_last_find sh name :
  shape_ok sh -> name <> JS_ATOM_NULL ->
  let m := Z.to_nat (Z.land name (prop_hash_mask sh)) in
  exists first r, prop_hash sh !! m = Some first /\ walk_with_last (length (prop sh)) (prop sh) first name None = Some r /\
    match r with
    | Some (i, lpr) => exists pr, prop sh !! i = Some pr /\ atom pr = name /\ unlinked sh m i lpr
    | None => name ∉ live_names (prop sh)
    end.
Proof.
  intros H Hn m. assert (m < length (prop_hash sh))%nat as Hm by apply land_mask_range, so_size, H.
  destruct (lookup_lt_is_Some_2 (prop_hash sh) m Hm) as [first Ef]. exists first.
  pose proof (walk_with_last_spec (prop sh) name _ (length (prop sh)) first None (so_table _ H _ _ Ef) (bucket_length _ _ _ _)) as W.
  destruct (walk_with_last _ _ _ _ _) as [[[i lpr]|]|]; [| |done].
  - destruct W as (pr & pre & post & Hi & E & Hb & Hl). exists (Some (i, lpr)). split_and!; [done | done|]. exists pr. split_and!; [done | done|].
    apply (unlink_prop_ok sh m i pr (so_table _ H) Hi Hm pre post lpr); done.
  - exists None. split_and!; [done | done|]. intros Hin. apply list_elem_of_In, in_map_iff in Hin as (pr & E & Hpr). apply List.filter_In in Hpr as [Hpr Hl].
    apply list_elem_of_In, list_elem_of_lookup_1 in Hpr as [i Hi]. apply (W i pr); [|done | done].
    fold (prop_hash_mask sh). unfold m. rewrite <- E. now apply in_own_bucket.
Qed.

Definition other_name (name : Z) (e : property_entry) : bool := negb (entry_name e =? name).

Lemma live_of_name pr : atom pr <> JS_ATOM_NULL -> live pr = true.
Proof. intros H. unfold live. destruct (Z.eqb_spec (atom pr) JS_ATOM_NULL); done. Qed.

Lemma entries_insert_dead prop values i pr d v :
  NoDup (live_names prop) -> prop !! i = Some pr -> live pr = true -> live d = false ->
  entries (<[i := d]> prop) (<[i := v]> values) = List.filter (other_name (atom pr)) (entries prop values) /\
  live_names (<[i := d]> prop) = List.filter (fun n => negb (n =? atom pr)) (live_names prop) /\
  S (length (List.filter live (<[i := d]> prop))) = length (List.filter live prop).
Proof.
  intros Hnd Hi Hl Hd. revert values i Hnd Hi. induction prop as [|q prop IH]; intros values i Hnd Hi; [now rewrite lookup_nil in Hi|].
  unfold live_names in *. destruct i as [|i].
  - injection Hi as ->. cbn in Hnd. rewrite Hl in Hnd. cbn in Hnd. apply NoDup_cons in Hnd as [Hn Hnd].
    change (<[0%nat := d]> (pr :: prop)) with (d :: prop). cbn. rewrite Hd, Hl. cbn. rewrite Z.eqb_refl. cbn. split_and!; [|symmetry|done].
    + destruct values as [|w values]; [done|]. change (<[0%nat := v]> (w :: values)) with (v :: values). cbn.
      unfold other_name at 1. cbn. rewrite Z.eqb_refl. cbn. symmetry. apply forallb_filter_id, forallb_forall. intros [[n f] u] He.
      apply list_elem_of_In, entries_elem in He as (j & r & Hj & Hlr & <- & _). unfold other_name, entry_name. cbn.
      destruct (Z.eqb_spec (atom r) (atom pr)) as [E|]; [|done]. exfalso. apply Hn. rewrite <- E. now apply (live_names_elem prop j).
    + apply forallb_filter_id, forallb_forall. intros n Hx. apply list_elem_of_In in Hx. destruct (Z.eqb_spec n (atom pr)) as [->|]; done.
  - change (prop !! i = Some pr) in Hi. assert (NoDup (map atom (List.filter live prop))) as Hnd' by (cbn in Hnd; destruct (live q); [now apply NoDup_cons in Hnd as [_ ?] | done]).
    assert (live q = true -> atom q <> atom pr) as Hqn.
    { intros Hlq E. cbn in Hnd. rewrite Hlq in Hnd. apply NoDup_cons in Hnd as [Hn _]. apply Hn. rewrite E. now apply (live_names_elem prop i). }
    change (<[S i := d]> (q :: prop)) with (q :: <[i := d]> prop). cbn [List.filter map entries].
    destruct (IH (tail values) i Hnd' Hi) as (IH1 & IH2 & IH3). split_and!.
    + destruct values as [|w values]; [done|]. change (<[S i := v]> (w :: values)) with (w :: <[i := v]> values). cbn [entries tail] in *. rewrite IH1.
      destruct (live q) eqn:Hlq; [|done]. cbn. unfold other_name at 2. cbn. destruct (Z.eqb_spec (atom q) (atom pr)); [now destruct (Hqn eq_refl) | done].
    + destruct (live q) eqn:Hlq; cbn; rewrite IH2; [|done]. destruct (Z.eqb_spec (atom q) (atom pr)); [now destruct (Hqn eq_refl) | done].
    + destruct (live q); cbn [length]; lia.
Qed.

Lemma delete_prop_ok sh i pr prop' table' values :
  shape_ok sh -> prop sh !! i = Some pr -> atom pr <> JS_ATOM_NULL ->
  table_ok table' prop' -> length table' = length (prop_hash sh) -> deleted_at i (prop sh) prop' ->
  shape_ok (with_props sh table' (prop_size sh) (deleted_prop_count sh + 1) prop') /\
  entries prop' (<[i := Value undefined]> values) = List.filter (other_name (atom pr)) (entries (prop sh) values).
Proof.
  intros [S1 S2 S3 S4 S5 S6] Hi Hn Ht Hl (Hlen & (d & Hd & Ed & Ef) & Hs).
  assert (live pr = true) as Hlp by now apply live_of_name.
  assert (live d = false) as Hld by (unfold live; now rewrite Ed).
  assert (Forall2 same_key (<[i := d]> (prop sh)) prop') as HF.
  { apply Forall2_same_length_lookup_2; [now rewrite length_insert|]. intros n x y Hx Hy. destruct (decide (n = i)) as [->|Hne].
    - rewrite list_lookup_insert_eq in Hx by now apply lookup_lt_Some in Hi. rewrite Hd in Hy. injection Hx as <-. injection Hy as <-. done.
    - rewrite list_lookup_insert_ne in Hx by done. destruct (Hs n x Hne Hx) as (y' & Hy' & K). congruence. }
  destruct (same_key_filter _ _ HF) as (F1 & F2 & F3).
  destruct (entries_insert_dead (prop sh) values i pr d (Value undefined) S3 Hi Hlp Hld) as (E1 & E2 & E3).
  split; [|now rewrite (entries_same_key _ _ _ HF)].
  split; cbn [prop_hash prop prop_size deleted_prop_count with_props]; unfold prop_count in *; cbn [prop with_props]; rewrite ?Hlen.
  - now rewrite Hl.
  - done.
  - rewrite F1, E2. apply NoDup_ListNoDup, List.NoDup_filter, NoDup_ListNoDup. done.
  - apply F3. apply Forall_insert; [done|]. rewrite Ef. apply list_elem_of_here.
  - done.
  - rewrite F2. lia.
Qed.

(** ** Changing flags and values in place *)

Definition update_entry (name : Z) (f : Z) (v : JSProperty) (e : property_entry) : property_entry :=
  if entry_name e =? name then (name, f, v) else e.

Lemma entries_update prop values i pr pr' v :
  NoDup (live_names prop) -> prop !! i = Some pr -> live pr = true -> atom pr' = atom pr -> (i < length values)%nat ->
  entries (<[i := pr']> prop) (<[i := v]> values) = map (update_entry (atom pr) (flags pr') v) (entries prop values).
Proof.
  intros Hnd Hi Hl Ea Hv. revert values i Hnd Hi Hv. induction prop as [|q prop IH]; intros values i Hnd Hi Hv; [now rewrite lookup_nil in Hi|].
  destruct values as [|w values]; [cbn in Hv; lia|]. unfold live_names in *. destruct i as [|i].
  - injection Hi as ->. cbn in Hnd. rewrite Hl in Hnd. cbn in Hnd. apply NoDup_cons in Hnd as [Hn Hnd].
    change (<[0%nat := pr']> (pr :: prop)) with (pr' :: prop). change (<[0%nat := v]> (w :: values)) with (v :: values). cbn.
    assert (live pr' = true) as -> by (unfold live in *; now rewrite Ea). rewrite Hl. cbn. unfold update_entry at 1. cbn. rewrite Z.eqb_refl, Ea. f_equal.
    rewrite <- (map_id (entries prop values)) at 1. apply map_ext_in. intros [[n f] u] He. apply list_elem_of_In, entries_elem in He as (j & r & Hj & Hlr & <- & _).
    unfold update_entry, entry_name. cbn. destruct (Z.eqb_spec (atom r) (atom pr)) as [E|]; [|done]. exfalso. apply Hn. rewrite <- E. now apply (live_names_elem prop j).
  - change (prop !! i = Some pr) in Hi. assert (NoDup (map atom (List.filter live prop))) as Hnd' by (cbn in Hnd; destruct (live q); [now apply NoDup_cons in Hnd as [_ ?] | done]).
    change (<[S i := pr']> (q :: prop)) with (q :: <[i := pr']> prop). change (<[S i := v]> (w :: values)) with (w :: <[i := v]> values). cbn [entries].
    rewrite (IH values i Hnd' Hi) by (cbn in Hv; lia). destruct (live q) eqn:Hlq; [|done]. cbn. f_equal. unfold update_entry. cbn.
    destruct (Z.eqb_spec (atom q) (atom pr)) as [E|]; [|done]. exfalso. cbn in Hnd. rewrite Hlq in Hnd. apply NoDup_cons in Hnd as [Hn _]. apply Hn. rewrite E. now apply (live_names_elem prop i).
Qed.

Lemma set_flags_ok sh i pr f :
  shape_ok sh -> prop sh !! i = Some pr -> ordinary_flags f ->
  shape_ok (with_props sh (prop_hash sh) (prop_size sh) (deleted_prop_count sh) (<[i := mk_prs (hash_next pr) f (atom pr)]> (prop sh))).
Proof.
  intros [S1 S2 S3 S4 S5 S6] Hi Hf. assert (i < length (prop sh))%nat as Hil by now apply lookup_lt_Some in Hi.
  set (pr' := mk_prs (hash_next pr) f (atom pr)).
  assert (Forall2 (fun x y => atom x = atom y) (prop sh) (<[i := pr']> (prop sh))) as HF.
  { apply Forall2_same_length_lookup_2; [now rewrite length_insert|]. intros n x y Hx Hy. destruct (decide (n = i)) as [->|Hne].
    - rewrite list_lookup_insert_eq in Hy by done. injection Hy as <-. rewrite Hi in Hx. now injection Hx as <-.
    - rewrite list_lookup_insert_ne in Hy by done. congruence. }
  assert (live_names (<[i := pr']> (prop sh)) = live_names (prop sh) /\ length (List.filter live (<[i := pr']> (prop sh))) = length (List.filter live (prop sh))) as [E1 E2].
  { unfold live_names. clear -HF. induction HF as [|x y l l' E _ [IH1 IH2]]; [done|]. cbn. unfold live in *. rewrite <- E. destruct (negb _); cbn; split; congruence. }
  split; cbn [prop_hash prop prop_size deleted_prop_count with_props]; unfold prop_count in *; cbn [prop with_props]; rewrite ?length_insert; try done.
  - intros h x Hx. rewrite <- (bucket_ext _ _ _ _ 0 HF). pose proof (S2 _ _ Hx) as C. revert C. apply chain_ext. intros n _ q Hq.
    destruct (decide (Z.to_nat (n - 1) = i)) as [E|E].
    + rewrite E in *. rewrite Hi in Hq. injection Hq as <-. exists pr'. rewrite list_lookup_insert_eq by done. done.
    + exists q. rewrite list_lookup_insert_ne by done. done.
  - now rewrite E1.
  - now apply Forall_insert.
  - now rewrite E2.
Qed.
