(* ===== verification/ObjectsInv.v ===== *)
(** * The invariant of the shapes and objects

    Every object has a live shape whose properties fit its array of values; the
    reference count of a shape is the number of its users; the table of the
    hashed shapes lists exactly those; a shape that is not hashed has one user.
    Each operation keeps this and leaves the other objects alone. *)

From Stdlib Require Import ZArith Lia Bool.
From stdpp Require Import base numbers list option gmap.
From S2P Require Import Prelude Limbs BigInt Numeric Shapes Objects ShapesInv.

#[local] Open Scope Z_scope.

(** ** The table of the hashed shapes *)

Definition shape_index (bits : Z) (sh : JSShape) : nat := Z.to_nat (get_shape_hash (hash sh) bits).

Record hash_table_ok (bits : Z) (table : list (list Z)) (m : gmap Z JSShape) : Prop := mk_hash_table {
  ht_bits : 4 <= bits <= 31;
  ht_length : Z.of_nat (length table) = 2 ^ bits;
  ht_chains : forall h l, table !! h = Some l -> NoDup l /\
    forall a, a ∈ l <-> exists sh, m !! a = Some sh /\ is_hashed sh = true /\ shape_index bits sh = h;
}.

Definition hash_in_range (sh : JSShape) : Prop := 0 <= hash sh < 2 ^ 32.

Lemma shape_index_lt bits table m sh : hash_table_ok bits table m -> hash_in_range sh -> (shape_index bits sh < length table)%nat.
Proof.
  intros [H1 H2 _] Hr. unfold shape_index, get_shape_hash, hash_in_range in *. rewrite Z.shiftr_div_pow2 by lia.
  assert (2 ^ 32 = 2 ^ (32 - bits) * 2 ^ bits) as E by (rewrite <- Z.pow_add_r by lia; f_equal; lia).
  assert (0 < 2 ^ (32 - bits)) by (apply Z.pow_pos_nonneg; lia). assert (hash sh / 2 ^ (32 - bits) < 2 ^ bits) by (apply Z.div_lt_upper_bound; lia).
  pose proof (Z.div_pos (hash sh) (2 ^ (32 - bits))). lia.
Qed.

Lemma unlink_chain_spec a l : a ∈ l -> NoDup l -> exists l', unlink_chain a l = Some l' /\ NoDup l' /\ forall b, b ∈ l' <-> b ∈ l /\ b <> a.
Proof.
  induction l as [|b l IH]; intros Ha Hnd; [now apply elem_of_nil in Ha|]. apply NoDup_cons in Hnd as [Hb Hnd]. cbn. destruct (Z.eqb_spec b a) as [->|Hne].
  - exists l. split_and!; [done | done|]. intros c. rewrite elem_of_cons. split; [intros Hc; split; [now right | intros ->; done] | intros [[->|Hc] Hn]; done].
  - apply elem_of_cons in Ha as [->|Ha]; [done|]. destruct (IH Ha Hnd) as (l' & -> & Hnd' & Hl'). exists (b :: l'). split_and!; [done | |].
    + apply NoDup_cons. split; [rewrite Hl'; tauto | done].
    + intros c. rewrite !elem_of_cons, Hl'. split; [intros [->|[? ?]]; auto | intros [[->|?] ?]; auto].
Qed.

(** Unlinking makes the table that of the other shapes. *)
Lemma unlink_table bits table m a sh :
  hash_table_ok bits table m -> m !! a = Some sh -> is_hashed sh = true -> hash_in_range sh ->
  exists l l', table !! shape_index bits sh = Some l /\ unlink_chain a l = Some l' /\
    hash_table_ok bits (<[shape_index bits sh := l']> table) (delete a m).
Proof.
  intros Ht Ha Hh Hr. pose proof (shape_index_lt _ _ _ _ Ht Hr) as Hi. destruct Ht as [H1 H2 H3].
  destruct (lookup_lt_is_Some_2 _ _ Hi) as [l Hl]. destruct (H3 _ _ Hl) as [Hnd Hin].
  destruct (unlink_chain_spec a l) as (l' & E & Hnd' & Hl'); [apply Hin; eauto | done|]. exists l, l'. split_and!; [done | done|].
  split; [done | now rewrite length_insert|]. intros h x Hx. destruct (decide (h = shape_index bits sh)) as [->|Hne].
  - rewrite list_lookup_insert_eq in Hx by done. injection Hx as <-. split; [done|]. intros b. rewrite Hl', Hin. split.
    + intros [(shb & Hb & Hhb & Eb) Hne]. exists shb. rewrite lookup_delete_ne by done. done.
    + intros (shb & Hb & Hhb & Eb). destruct (decide (b = a)) as [->|Hne]; [now rewrite lookup_delete_eq in Hb|].
      rewrite lookup_delete_ne in Hb by done. split; [eauto | done].
  - rewrite list_lookup_insert_ne in Hx by done. destruct (H3 _ _ Hx) as [Hnd2 Hin2]. split; [done|]. intros b. rewrite Hin2. split.
    + intros (shb & Hb & Hhb & Eb). exists shb. rewrite lookup_delete_ne; [done|]. intros <-. rewrite Ha in Hb. congruence.
    + intros (shb & Hb & Hhb & Eb). exists shb. destruct (decide (b = a)) as [->|Hba]; [now rewrite lookup_delete_eq in Hb|].
      rewrite lookup_delete_ne in Hb by done. done.
Qed.

Lemma link_table bits table m a sh :
  hash_table_ok bits table m -> m !! a = None -> is_hashed sh = true -> hash_in_range sh ->
  exists l, table !! shape_index bits sh = Some l /\ hash_table_ok bits (<[shape_index bits sh := a :: l]> table) (<[a := sh]> m).
Proof.
  intros Ht Ha Hh Hr. pose proof (shape_index_lt _ _ _ _ Ht Hr) as Hi. destruct Ht as [H1 H2 H3].
  destruct (lookup_lt_is_Some_2 _ _ Hi) as [l Hl]. destruct (H3 _ _ Hl) as [Hnd Hin]. exists l. split; [done|].
  assert (forall b shb, <[a := sh]> m !! b = Some shb <-> (b = a /\ shb = sh) \/ (b <> a /\ m !! b = Some shb)) as Hlook.
  { intros b shb. rewrite lookup_insert_Some. split; (intros [[? ?]|[? ?]]; [left | right]; auto). }
  split; [done | now rewrite length_insert|]. intros h x Hx. destruct (decide (h = shape_index bits sh)) as [->|Hne].
  - rewrite list_lookup_insert_eq in Hx by done. injection Hx as <-. split.
    + apply NoDup_cons. split; [|done]. rewrite Hin. intros (shb & Hb & _). congruence.
    + intros b. rewrite elem_of_cons, Hin. split.
      * intros [->|(shb & Hb & Hhb & Eb)]; [exists sh; rewrite Hlook; auto|]. exists shb. rewrite Hlook. split_and!; [right; split; [congruence | done] | done | done].
      * intros (shb & Hb & Hhb & Eb). apply Hlook in Hb as [[-> ->]|[Hn Hb]]; [now left | right; eauto].
  - rewrite list_lookup_insert_ne in Hx by done. destruct (H3 _ _ Hx) as [Hnd2 Hin2]. split; [done|]. intros b. rewrite Hin2. split.
    + intros (shb & Hb & Hhb & Eb). exists shb. rewrite Hlook. split_and!; [right; split; [congruence | done] | done | done].
    + intros (shb & Hb & Hhb & Eb). apply Hlook in Hb as [[-> ->]|[Hn Hb]]; [congruence | eauto].
Qed.

(** Shapes that are not hashed, and reference counts, do not matter. *)
Lemma hash_table_ext bits table m m' :
  hash_table_ok bits table m ->
  (forall a sh, is_hashed sh = true -> m !! a = Some sh -> exists sh', m' !! a = Some sh' /\ is_hashed sh' = true /\ hash sh' = hash sh) ->
  (forall a sh', is_hashed sh' = true -> m' !! a = Some sh' -> exists sh, m !! a = Some sh /\ is_hashed sh = true /\ hash sh = hash sh') ->
  hash_table_ok bits table m'.
Proof.
  intros [H1 H2 H3] Hf Hb. split; [done | done|]. intros h l Hl. destruct (H3 _ _ Hl) as [Hnd Hin]. split; [done|]. intros a. rewrite Hin. unfold shape_index. split.
  - intros (sh & Ha & Hh & E). destruct (Hf a sh Hh Ha) as (sh' & Ha' & Hh' & E'). exists sh'. rewrite E'. done.
  - intros (sh & Ha & Hh & E). destruct (Hb a sh Hh Ha) as (sh' & Ha' & Hh' & E'). exists sh'. rewrite E'. done.
Qed.

(** ** Users of shapes *)

Definition occurs (a b : Z) : Z := if a =? b then 1 else 0.

Definition users (m : gmap Z JSObject) (context : list Z) (a : Z) : Z :=
  Z.of_nat (size (filter (fun e : Z * JSObject => shape e.2 = a) m)) + Z.of_nat (length (List.filter (Z.eqb a) context)).

Lemma users_insert m context p o a :
  m !! p = None -> users (<[p := o]> m) context a = occurs (shape o) a + users m context a.
Proof.
  intros Hp. unfold users, occurs. destruct (Z.eqb_spec (shape o) a) as [E|E].
  - rewrite map_filter_insert_True by done. rewrite map_size_insert_None by (rewrite map_lookup_filter, Hp; done). lia.
  - rewrite map_filter_insert_False by done. rewrite delete_id by done. lia.
Qed.

Lemma users_delete m context p o a : m !! p = Some o -> users m context a = occurs (shape o) a + users (delete p m) context a.
Proof. intros Hp. rewrite <- (insert_delete_id m p o) at 1 by done. apply users_insert. apply lookup_delete_eq. Qed.

Lemma users_update m context p o o' a :
  m !! p = Some o -> users (<[p := o']> m) context a = users m context a - occurs (shape o) a + occurs (shape o') a.
Proof.
  intros Hp. rewrite <- (insert_delete_eq m). rewrite users_insert by apply lookup_delete_eq. rewrite (users_delete m context p o a Hp). lia.
Qed.

Lemma users_nonneg m context a : 0 <= users m context a.
Proof. unfold users. lia. Qed.

Lemma occurs_same a : occurs a a = 1.
Proof. unfold occurs. now rewrite Z.eqb_refl. Qed.

Lemma occurs_ne a b : a <> b -> occurs a b = 0.
Proof. intros H. unfold occurs. destruct (Z.eqb_spec a b); done. Qed.

Lemma users_object m context p o : m !! p = Some o -> 1 <= users m context (shape o).
Proof. intros Hp. rewrite (users_delete m context p o) by done. rewrite occurs_same. pose proof (users_nonneg (delete p m) context (shape o)). lia. Qed.

Lemma users_two m context p q o oq : m !! p = Some o -> m !! q = Some oq -> q <> p -> shape oq = shape o -> 2 <= users m context (shape o).
Proof.
  intros Hp Hq Hne E. rewrite (users_delete m context p o) by done. rewrite occurs_same.
  assert (delete p m !! q = Some oq) as Hq' by now rewrite lookup_delete_ne. pose proof (users_object _ context q oq Hq'). rewrite E in *. lia.
Qed.

Lemma users_context m context p o : m !! p = Some o -> shape o ∈ context -> 2 <= users m context (shape o).
Proof.
  intros Hp Hc. rewrite (users_delete m context p o) by done. rewrite occurs_same. unfold users.
  assert (shape o ∈ List.filter (Z.eqb (shape o)) context) as Hin.
  { apply list_elem_of_In, List.filter_In. split; [now apply list_elem_of_In | apply Z.eqb_refl]. }
  destruct (List.filter _ context); [now apply elem_of_nil in Hin | cbn; lia].
Qed.

Lemma users_none m context a : (forall p o, m !! p = Some o -> shape o <> a) -> a ∉ context -> users m context a = 0.
Proof.
  intros Ho Hc. unfold users. assert (filter (fun e : Z * JSObject => shape e.2 = a) m = ∅) as ->.
  { apply map_empty. intros p. rewrite map_lookup_filter. destruct (m !! p) as [o|] eqn:Hp; cbn; [|done]. rewrite option_guard_False; [done|]. exact (Ho p o Hp). }
  rewrite map_size_empty. assert (List.filter (Z.eqb a) context = []) as ->; [|done].
  destruct (List.filter (Z.eqb a) context) as [|b l] eqn:E; [done|]. assert (In b (List.filter (Z.eqb a) context)) as Hb by (rewrite E; now left).
  apply List.filter_In in Hb as [Hb Eb]. apply Z.eqb_eq in Eb as <-. apply list_elem_of_In in Hb. done.
Qed.

(** ** The invariant *)

Record runtime_ok (s : JSRuntime) : Prop := mk_runtime_ok {
  ro_shapes : forall a sh, shapes s !! a = Some sh -> shape_ok sh /\ hash_in_range sh;
  ro_fresh : forall a, next_address s <= a -> shapes s !! a = None /\ objects s !! a = None;
  ro_objects : forall p o, objects s !! p = Some o -> exists sh, shapes s !! shape o = Some sh /\ prop_size sh <= Z.of_nat (length (props o));
  ro_context : forall a, a ∈ context_shapes s -> is_Some (shapes s !! a);
  ro_counts : forall a sh, shapes s !! a = Some sh -> ref_count sh = users (objects s) (context_shapes s) a /\ 1 <= ref_count sh;
  ro_private : forall a sh, shapes s !! a = Some sh -> is_hashed sh = false -> ref_count sh = 1;
  ro_table : hash_table_ok (shape_hash_bits s) (shape_hash_table s) (shapes s);
}.

(** An object as its properties in order, its prototype and its flags. *)
Record dictionary : Type := mk_dictionary {
  d_proto : option Z;
  d_extensible : bool;
  d_immutable_prototype : bool;
  d_function : bool;
  d_entries : list property_entry;
}.

Definition describe (sh : JSShape) (o : JSObject) : dictionary :=
  mk_dictionary (proto sh) (extensible o) (has_immutable_prototype o) (is_function o) (entries (prop sh) (props o)).

Definition contents (s : JSRuntime) (p : Z) : option dictionary :=
  o ← objects s !! p; sh ← shapes s !! shape o; Some (describe sh o).

Definition same_but_count (sh sh' : JSShape) : Prop := sh' = with_ref_count sh (ref_count sh').

(** The object [p] changes its shape, its values, or both. *)
Record moved (s s' : JSRuntime) (p : Z) (o o' : JSObject) (sh' : JSShape) : Prop := mk_moved {
  mv_object : objects s !! p = Some o;
  mv_objects : objects s' = <[p := o']> (objects s);
  mv_context : context_shapes s' = context_shapes s;
  mv_next : next_address s <= next_address s' /\ shape o' < next_address s';
  mv_table : hash_table_ok (shape_hash_bits s') (shape_hash_table s') (shapes s');
  mv_rest : forall c, c <> shape o' -> c <> shape o -> shapes s' !! c = shapes s !! c;
  mv_old : shape o' <> shape o ->
    match shapes s' !! shape o with
    | None => users (objects s) (context_shapes s) (shape o) = 1
    | Some sh1 => exists sh, shapes s !! shape o = Some sh /\ sh1 = with_ref_count sh (ref_count sh - 1) /\ is_hashed sh = true /\ ref_count sh <> 1
    end;
  mv_new : shapes s' !! shape o' = Some sh';
  mv_shape_ok : shape_ok sh' /\ hash_in_range sh' /\ prop_size sh' <= Z.of_nat (length (props o'));
  mv_count : ref_count sh' = users (objects s') (context_shapes s') (shape o') /\ (is_hashed sh' = false -> ref_count sh' = 1);
  mv_sharers : forall q oq, q <> p -> objects s !! q = Some oq -> shape oq = shape o' ->
    exists old, shapes s !! shape o' = Some old /\ same_but_count old sh';
}.

(** Another object keeps its shape, up to the count. *)
Lemma moved_other s s' p o o' sh' q oq :
  runtime_ok s -> moved s s' p o o' sh' -> q <> p -> objects s !! q = Some oq ->
  exists old sh, shapes s !! shape oq = Some old /\ shapes s' !! shape oq = Some sh /\ same_but_count old sh.
Proof.
  intros R M Hne Hq. destruct (ro_objects _ R q oq Hq) as (old & Hold & _). destruct (decide (shape oq = shape o')) as [E|E].
  - destruct (mv_sharers _ _ _ _ _ _ M q oq Hne Hq E) as (old' & Hold' & Hs). exists old', sh'. rewrite E, (mv_new _ _ _ _ _ _ M). done.
  - destruct (decide (shape oq = shape o)) as [F|F].
    + pose proof (mv_old _ _ _ _ _ _ M) as Ho. rewrite F in *. specialize (Ho ltac:(congruence)).
      pose proof (users_two _ (context_shapes s) p q o oq (mv_object _ _ _ _ _ _ M) Hq Hne F) as Hu.
      destruct (shapes s' !! shape o) as [sh1|]; [|lia]. destruct Ho as (sh & Hsh & -> & _). rewrite Hold in Hsh. injection Hsh as <-.
      exists old, (with_ref_count old (ref_count old - 1)). done.
    + exists old, old. rewrite (mv_rest _ _ _ _ _ _ M) by done. split_and!; [done | done|]. unfold same_but_count. now destruct old.
Qed.

Lemma moved_contents s s' p o o' sh' q :
  runtime_ok s -> moved s s' p o o' sh' -> contents s' q = if decide (q = p) then Some (describe sh' o') else contents s q.
Proof.
  intros R M. unfold contents. rewrite (mv_objects _ _ _ _ _ _ M). destruct (decide (q = p)) as [->|Hne].
  - rewrite lookup_insert_eq. cbn. now rewrite (mv_new _ _ _ _ _ _ M).
  - rewrite lookup_insert_ne by done. destruct (objects s !! q) as [oq|] eqn:Hq; [|done]. cbn.
    destruct (moved_other _ _ _ _ _ _ q oq R M Hne Hq) as (old & sh & -> & -> & ->). done.
Qed.

Lemma moved_ok s s' p o o' sh' : runtime_ok s -> moved s s' p o o' sh' -> runtime_ok s'.
Proof.
  intros R M. pose proof M as [M1 M2 M3 M4 M5 M6 M7 M8 [M9a [M9b M9c]] [M10 M10'] M11].
  assert (forall c, users (objects s') (context_shapes s') c = users (objects s) (context_shapes s) c - occurs (shape o) c + occurs (shape o') c) as Hu.
  { intros c. rewrite M2, M3. now apply users_update. }
  assert (forall c sh1, c <> shape o' -> shapes s' !! c = Some sh1 -> exists sh, shapes s !! c = Some sh /\ same_but_count sh sh1 /\
    ref_count sh1 = users (objects s') (context_shapes s') c /\ 1 <= ref_count sh1 /\ (is_hashed sh1 = false -> ref_count sh1 = 1)) as Hold.
  { intros c sh1 Hne Hc. rewrite Hu, (occurs_ne (shape o') c) by congruence. destruct (decide (c = shape o)) as [->|Hno].
    - specialize (M7 ltac:(congruence)). rewrite Hc in M7. destruct M7 as (sh & Hsh & -> & Hh & Hr). exists sh. rewrite occurs_same.
      destruct (ro_counts _ R _ _ Hsh) as [Ec Ep]. cbn. split_and!; [done | done | lia | lia | congruence].
    - rewrite M6 in Hc by done. exists sh1. rewrite occurs_ne by congruence. destruct (ro_counts _ R _ _ Hc) as [Ec Ep].
      split_and!; [done | unfold same_but_count; now destruct sh1 | lia | done | apply (ro_private _ R _ _ Hc)]. }
  split.
  - intros a sh Ha. destruct (decide (a = shape o')) as [->|Hne]; [rewrite M8 in Ha; injection Ha as <-; done|].
    destruct (Hold a sh Hne Ha) as (sh0 & H0 & E & _). destruct (ro_shapes _ R _ _ H0) as [[X1 X2 X3 X4 X5 X6] Hr]. rewrite E. split; [split; done | done].
  - intros a Ha. destruct (ro_fresh _ R a ltac:(lia)) as [F1 F2]. rewrite M2. assert (p <> a) as Hpa by (intros <-; congruence).
    assert (a <> shape o) as Hao by (destruct (ro_objects _ R p o M1) as (x & Hx & _); intros ->; congruence).
    rewrite lookup_insert_ne, M6 by (done || lia). done.
  - intros q oq Hq. destruct (decide (q = p)) as [->|Hne].
    + rewrite M2, lookup_insert_eq in Hq. injection Hq as <-. eauto.
    + rewrite M2, lookup_insert_ne in Hq by done. destruct (moved_other _ _ _ _ _ _ q oq R M Hne Hq) as (old & sh & H1 & H2 & E).
      exists sh. split; [done|]. destruct (ro_objects _ R q oq Hq) as (old' & H3 & H4). rewrite H1 in H3. injection H3 as <-. now rewrite E.
  - intros a Ha. rewrite M3 in Ha. destruct (decide (a = shape o')) as [->|Hne]; [eauto|]. destruct (decide (a = shape o)) as [->|Hno].
    + pose proof (users_context _ _ p o M1 Ha). specialize (M7 ltac:(congruence)). destruct (shapes s' !! shape o); [eauto | lia].
    + rewrite M6 by done. now apply (ro_context _ R).
  - intros a sh Ha. destruct (decide (a = shape o')) as [->|Hne].
    + rewrite M8 in Ha. injection Ha as <-. split; [done|]. rewrite M10. apply (users_object _ _ p o'). rewrite M2. apply lookup_insert_eq.
    + destruct (Hold a sh Hne Ha) as (_ & _ & _ & H1 & H2 & _). done.
  - intros a sh Ha. destruct (decide (a = shape o')) as [->|Hne]; [rewrite M8 in Ha; injection Ha as <-; done|].
    destruct (Hold a sh Hne Ha) as (_ & _ & _ & _ & _ & H). done.
  - done.
Qed.

(** ** Steps that change one object *)

Record updates (s s' : JSRuntime) (p : Z) (d : dictionary) : Prop := mk_updates {
  up_ok : runtime_ok s';
  up_contents : forall q, contents s' q = if decide (q = p) then Some d else contents s q;
  up_mallocs : mallocs s = [] -> mallocs s' = [];
  up_strict : strict_mode s' = strict_mode s;
  up_bits : shape_hash_bits s' = shape_hash_bits s;
}.

Lemma updates_refl s p d : runtime_ok s -> contents s p = Some d -> updates s s p d.
Proof. intros R H. split; try done. intros q. now destruct (decide (q = p)) as [->|]. Qed.

Lemma updates_trans s s1 s2 p d1 d2 : updates s s1 p d1 -> updates s1 s2 p d2 -> updates s s2 p d2.
Proof.
  intros [A1 A2 A3 A4 A5] [B1 B2 B3 B4 B5]. split; [done | | auto | congruence | congruence].
  intros q. rewrite B2, A2. now destruct (decide (q = p)).
Qed.

Lemma moved_updates s s' p o o' sh' :
  runtime_ok s -> moved s s' p o o' sh' -> (mallocs s = [] -> mallocs s' = []) -> strict_mode s' = strict_mode s ->
  shape_hash_bits s' = shape_hash_bits s -> updates s s' p (describe sh' o').
Proof. intros R M H1 H2 H3. split; try done; [now apply (moved_ok s s' p o o' sh') | intros q; now apply (moved_contents s s' p o o' sh')]. Qed.

Lemma contents_Some s p o sh : objects s !! p = Some o -> shapes s !! shape o = Some sh -> contents s p = Some (describe sh o).
Proof. intros H1 H2. unfold contents. rewrite H1. cbn. now rewrite H2. Qed.

Lemma contents_inv s p d : runtime_ok s -> contents s p = Some d ->
  exists o sh, objects s !! p = Some o /\ shapes s !! shape o = Some sh /\ d = describe sh o /\ shape_ok sh /\ prop_size sh <= Z.of_nat (length (props o)).
Proof.
  intros R. unfold contents. destruct (objects s !! p) as [o|] eqn:Ho; cbn; [|done]. destruct (ro_objects _ R p o Ho) as (sh & Hsh & Hle). rewrite Hsh. cbn.
  intros [= <-]. exists o, sh. destruct (ro_shapes _ R _ _ Hsh). done.
Qed.

Lemma allocator_ok s n answers : runtime_ok s -> next_address s <= n -> runtime_ok (with_allocator s n answers).
Proof. intros [R1 R2 R3 R4 R5 R6 R7] Hn. split; try done. intros a Ha. cbn in *. apply R2. lia. Qed.

Lemma allocator_updates s n answers p d :
  runtime_ok s -> contents s p = Some d -> next_address s <= n -> (mallocs s = [] -> answers = []) -> updates s (with_allocator s n answers) p d.
Proof. intros R H Hn Hm. split; try done; [now apply allocator_ok|]. intros q. now destruct (decide (q = p)) as [->|]. Qed.

Lemma js_malloc_spec s :
  exists answers, (mallocs s = [] -> answers = []) /\
    ((js_malloc s = (None, with_allocator s (next_address s) answers) /\ mallocs s <> []) \/
     js_malloc s = (Some (next_address s), with_allocator s (next_address s + 1) answers)).
Proof. unfold js_malloc. destruct (mallocs s) as [|[] answers]; eexists; (split; [|eauto]); done. Qed.

Lemma shape_in_use s p o : runtime_ok s -> objects s !! p = Some o -> shape o < next_address s.
Proof.
  intros R Hp. destruct (ro_objects _ R p o Hp) as (sh & Hsh & _). destruct (Z.lt_ge_cases (shape o) (next_address s)) as [|Hge]; [done|].
  destruct (ro_fresh _ R _ Hge). congruence.
Qed.

(** *** Values *)

Lemma write_value_updates s p o sh i v :
  runtime_ok s -> objects s !! p = Some o -> shapes s !! shape o = Some sh -> (i < length (props o))%nat ->
  exists s', write_value s p i v = Some s' /\ s' = set_object s p (with_values o (<[i := v]> (props o))) /\
    updates s s' p (describe sh (with_values o (<[i := v]> (props o)))).
Proof.
  intros R Ho Hsh Hi. unfold write_value. rewrite Ho. cbn [mbind option_bind]. destruct (Nat.ltb_spec i (length (props o))); [|lia].
  eexists. split_and!; [reflexivity | reflexivity|]. destruct (ro_objects _ R p o Ho) as (sh0 & Hsh0 & Hle). rewrite Hsh in Hsh0. injection Hsh0 as <-.
  destruct (ro_counts _ R _ _ Hsh) as [Ec Ep]. apply (moved_updates s _ p o); try done. split; try done; cbn.
  - split; [lia | now apply (shape_in_use s p o)].
  - apply R.
  - destruct (ro_shapes _ R _ _ Hsh). rewrite length_insert. done.
  - rewrite (users_update _ _ _ _ _ _ Ho). cbn. split; [lia | apply (ro_private _ R _ _ Hsh)].
  - intros q oq _ _ _. exists sh. split; [done | unfold same_but_count; now destruct sh].
Qed.

Lemma realloc_length size values : 0 <= size -> length (realloc_values size values) = Z.to_nat size.
Proof. intros H. unfold realloc_values. rewrite length_app, length_take, length_replicate. lia. Qed.

Lemma realloc_entries prop size values :
  (length prop <= length values)%nat -> Z.of_nat (length prop) <= size -> entries prop (realloc_values size values) = entries prop values.
Proof.
  intros H1 H2. unfold realloc_values. destruct (Nat.le_gt_cases (length values) (Z.to_nat size)).
  - rewrite take_ge by lia. now apply entries_more.
  - rewrite entries_more by (rewrite length_take; lia). apply entries_take. lia.
Qed.

(** Reallocating the values, but not below the size of the shape. *)
Lemma js_realloc_updates s p o sh size :
  runtime_ok s -> objects s !! p = Some o -> shapes s !! shape o = Some sh -> prop_size sh <= size ->
  exists ok s', js_realloc s p size = Some (ok, s') /\ updates s s' p (describe sh o) /\ shapes s' = shapes s /\
    shape_hash_table s' = shape_hash_table s /\ shape_hash_count s' = shape_hash_count s /\ next_address s <= next_address s' /\
    ((ok = false /\ mallocs s <> [] /\ objects s' = objects s) \/
     (ok = true /\ objects s' = <[p := with_values o (realloc_values size (props o))]> (objects s))).
Proof.
  intros R Ho Hsh Hsize. unfold js_realloc. rewrite Ho. cbn [mbind option_bind].
  destruct (js_malloc_spec s) as (answers & Hm & [[-> Hne]| ->]); do 2 eexists; (split; [reflexivity|]).
  - split_and!; try done; [|now left]. apply allocator_updates; try done. now apply contents_Some.
  - split_and!; try done; [|cbn; lia | now right].
    apply (updates_trans _ (with_allocator s (next_address s + 1) answers) _ p (describe sh o)); [apply allocator_updates; try done; [now apply contents_Some | lia]|].
    assert (runtime_ok (with_allocator s (next_address s + 1) answers)) as R' by (apply allocator_ok; [done | lia]).
    destruct (ro_objects _ R p o Ho) as (sh0 & Hsh0 & Hle). rewrite Hsh in Hsh0. injection Hsh0 as <-.
    destruct (ro_counts _ R _ _ Hsh) as [Ec Ep]. destruct (ro_shapes _ R _ _ Hsh) as [Sok Hr]. pose proof (so_count _ Sok) as (_ & Hc & Hps). unfold prop_count in Hc.
    assert (describe sh o = describe sh (with_values o (realloc_values size (props o)))) as ->.
    { unfold describe. cbn. rewrite realloc_entries; [done | lia | lia]. }
    apply (moved_updates _ _ p o); try done. split; try done; cbn.
    + split; [lia|]. pose proof (shape_in_use s p o R Ho). lia.
    + apply R.
    + rewrite realloc_length by lia. split_and!; [done | done | lia].
    + rewrite (users_update _ _ _ _ _ _ Ho). cbn. split; [lia | apply (ro_private _ R _ _ Hsh)].
    + intros q oq _ _ _. exists sh. split; [done | unfold same_but_count; now destruct sh].
Qed.

(** *** The table *)

Lemma unlink_spec s a sh :
  hash_table_ok (shape_hash_bits s) (shape_hash_table s) (shapes s) -> shapes s !! a = Some sh -> is_hashed sh = true -> hash_in_range sh ->
  exists t, js_shape_hash_unlink s a = Some (with_table s (shape_hash_bits s) t (shape_hash_count s - 1)) /\
    hash_table_ok (shape_hash_bits s) t (delete a (shapes s)).
Proof.
  intros Ht Ha Hh Hr. destruct (unlink_table _ _ _ _ _ Ht Ha Hh Hr) as (l & l' & Hl & E & Ht'). unfold js_shape_hash_unlink. rewrite Ha. cbn [mbind option_bind].
  fold (shape_index (shape_hash_bits s) sh). rewrite Hl. cbn [mbind option_bind]. rewrite E. cbn [mbind option_bind]. eauto.
Qed.

Lemma link_spec s a sh :
  hash_table_ok (shape_hash_bits s) (shape_hash_table s) (delete a (shapes s)) -> shapes s !! a = Some sh -> is_hashed sh = true -> hash_in_range sh ->
  exists t, js_shape_hash_link s a = Some (with_table s (shape_hash_bits s) t (shape_hash_count s + 1)) /\
    hash_table_ok (shape_hash_bits s) t (shapes s).
Proof.
  intros Ht Ha Hh Hr. destruct (link_table _ _ _ a sh Ht (lookup_delete_eq _ _) Hh Hr) as (l & Hl & Ht'). unfold js_shape_hash_link, link_in. rewrite Ha. cbn [mbind option_bind].
  fold (shape_index (shape_hash_bits s) sh). rewrite Hl. cbn [mbind option_bind]. rewrite insert_delete_eq, insert_id in Ht' by done. eauto.
Qed.

(** A shape that is not in the table may be added, changed or dropped. *)
Lemma hash_table_unhashed bits table m a sh :
  hash_table_ok bits table m -> is_hashed sh = false -> (forall old, m !! a = Some old -> is_hashed old = false) -> hash_table_ok bits table (<[a := sh]> m).
Proof.
  intros Ht Hh Hold. apply (hash_table_ext _ _ m); [done | |].
  - intros b shb Hhb Hb. exists shb. rewrite lookup_insert_ne; [done|]. intros <-. specialize (Hold _ Hb). congruence.
  - intros b shb Hhb Hb. apply lookup_insert_Some in Hb as [[_ <-]|[_ Hb]]; [congruence | eauto].
Qed.

(** A change that keeps the flag and the hash. *)
Lemma hash_table_same bits table m a old sh :
  hash_table_ok bits table m -> m !! a = Some old -> is_hashed sh = is_hashed old -> hash sh = hash old -> hash_table_ok bits table (<[a := sh]> m).
Proof.
  intros Ht Ha Hh Hs. apply (hash_table_ext _ _ m); [done | |].
  - intros b shb Hhb Hb. destruct (decide (b = a)) as [->|Hne]; [|exists shb; rewrite lookup_insert_ne; done].
    rewrite Ha in Hb. injection Hb as <-. exists sh. rewrite lookup_insert_eq, Hh, Hs. done.
  - intros b shb Hhb Hb. apply lookup_insert_Some in Hb as [[<- <-]|[_ Hb]]; [|eauto]. exists old. rewrite <- Hh, <- Hs. done.
Qed.

(** *** Making the shape of an object its own *)

(** The object [p] has, under the address [shape o'], the shape [sh'], which no
    other object has and which is not in the table. *)
Definition owns (s : JSRuntime) (p : Z) (o' : JSObject) (sh' : JSShape) : Prop :=
  objects s !! p = Some o' /\ shapes s !! shape o' = Some sh' /\ is_hashed sh' = false.

Definition same_layout (sh sh' : JSShape) : Prop :=
  prop sh' = prop sh /\ prop_hash sh' = prop_hash sh /\ prop_size sh' = prop_size sh /\ deleted_prop_count sh' = deleted_prop_count sh /\ proto sh' = proto sh.

Lemma free_shared s a sh :
  shapes s !! a = Some sh -> 1 < ref_count sh -> js_free_shape s a = Some (set_shape s a (with_ref_count sh (ref_count sh - 1))).
Proof. intros Ha Hr. unfold js_free_shape. rewrite Ha. cbn [mbind option_bind]. destruct (Z.leb_spec (ref_count sh - 1) 0); [lia | done]. Qed.

(** The object takes a fresh copy [sh'] of its shared shape. *)
Lemma clone_moved s p o sh answers hashed t count :
  runtime_ok s -> objects s !! p = Some o -> shapes s !! shape o = Some sh -> is_hashed sh = true -> ref_count sh <> 1 ->
  let a := next_address s in
  let sh' := with_hashed (with_ref_count sh 1) hashed (hash sh) in
  let m := <[shape o := with_ref_count sh (ref_count sh - 1)]> (<[a := sh']> (shapes s)) in
  let s1 := with_table (with_shapes (with_allocator s (a + 1) answers) m) (shape_hash_bits s) t count in
  hash_table_ok (shape_hash_bits s) t m ->
  moved s (set_object s1 p (with_shape o a)) p o (with_shape o a) sh'.
Proof.
  intros R Ho Hsh Hh Hr a sh' m s1 Ht. pose proof (shape_in_use s p o R Ho) as Hlt. destruct (ro_shapes _ R _ _ Hsh) as [Sok Hrange].
  destruct (ro_fresh _ R a ltac:(lia)) as [Hfa _]. destruct (ro_objects _ R p o Ho) as (sh0 & Hsh0 & Hle). rewrite Hsh in Hsh0. injection Hsh0 as <-.
  split; try done; cbn.
  - unfold a. lia.
  - intros c Hc Hc'. unfold m. rewrite !lookup_insert_ne by done. done.
  - intros _. unfold m. rewrite lookup_insert_eq. eauto.
  - unfold m. rewrite lookup_insert_ne by (unfold a; lia). apply lookup_insert_eq.
  - split_and!; [destruct Sok; split; done | done | done].
  - rewrite (users_update _ _ _ _ _ _ Ho). cbn. rewrite occurs_same, occurs_ne by (unfold a; lia).
    rewrite users_none; [done | |].
    + intros q oq Hq E. pose proof (shape_in_use s q oq R Hq). unfold a in *. lia.
    + intros Hc. destruct (ro_context _ R _ Hc). congruence.
  - intros q oq _ Hq E. pose proof (shape_in_use s q oq R Hq). unfold a in *. lia.
Qed.

(** A step of the object [p] on a shape that only it has. *)
Lemma own_moved s s' p o o' sh sh' :
  runtime_ok s -> objects s !! p = Some o -> shapes s !! shape o = Some sh -> ref_count sh = 1 ->
  objects s' = <[p := o']> (objects s) -> context_shapes s' = context_shapes s -> next_address s <= next_address s' ->
  (shape o' = shape o \/ next_address s <= shape o' < next_address s') ->
  hash_table_ok (shape_hash_bits s') (shape_hash_table s') (shapes s') ->
  shapes s' = <[shape o' := sh']> (delete (shape o) (shapes s)) ->
  shape_ok sh' -> hash_in_range sh' -> prop_size sh' <= Z.of_nat (length (props o')) -> ref_count sh' = 1 -> moved s s' p o o' sh'.
Proof.
  intros R Ho Hsh Hr E1 E2 Hn Ha Ht Es Sok Hrange Hle Hr'. pose proof (shape_in_use s p o R Ho) as Hlt. destruct (ro_counts _ R _ _ Hsh) as [Ec _].
  split; try done; rewrite ?Es.
  - lia.
  - intros c Hc Hc'. rewrite lookup_insert_ne, lookup_delete_ne by done. done.
  - intros Hne. rewrite lookup_insert_ne, lookup_delete_eq by done. lia.
  - apply lookup_insert_eq.
  - rewrite E1, E2, (users_update _ _ _ _ _ _ Ho), occurs_same. split; [|done]. destruct Ha as [Ha|Ha].
    + rewrite Ha, occurs_same. lia.
    + rewrite occurs_ne, users_none; [lia | | |lia].
      * intros q oq Hq E. pose proof (shape_in_use s q oq R Hq). lia.
      * intros Hc. destruct (ro_context _ R _ Hc). destruct (ro_fresh _ R (shape o')); [lia | congruence].
  - intros q oq Hne Hq E. exfalso. destruct Ha as [Ha|Ha].
    + rewrite Ha in E. pose proof (users_two _ (context_shapes s) p q o oq Ho Hq Hne E). lia.
    + pose proof (shape_in_use s q oq R Hq). lia.
Qed.

Lemma clone_contents sh o a hashed : describe (with_hashed (with_ref_count sh 1) hashed (hash sh)) (with_shape o a) = describe sh o.
Proof. done. Qed.

Lemma prepare_update_spec s p o sh :
  runtime_ok s -> objects s !! p = Some o -> shapes s !! shape o = Some sh ->
  exists r s', js_shape_prepare_update s p = Some (r, s') /\ updates s s' p (describe sh o) /\
    ((r = -1 /\ mallocs s <> []) \/
     (r = 0 /\ exists o' sh', owns s' p o' sh' /\ o' = with_shape o (shape o') /\ same_layout sh sh')).
Proof.
  intros R Ho Hsh. pose proof (contents_Some _ _ _ _ Ho Hsh) as Hc. destruct (ro_shapes _ R _ _ Hsh) as [Sok Hrange].
  destruct (ro_counts _ R _ _ Hsh) as [_ Hpos]. destruct (ro_objects _ R p o Ho) as (sh0 & Hsh0 & Hle). rewrite Hsh in Hsh0. injection Hsh0 as <-.
  unfold js_shape_prepare_update. rewrite Ho. cbn [mbind option_bind]. rewrite Hsh. cbn [mbind option_bind].
  destruct (is_hashed sh) eqn:Hh.
  2: { exists 0, s. split_and!; [done | now apply updates_refl|]. right. split; [done|]. exists o, sh. split_and!; [done | now destruct o | done]. }
  destruct (Z.eqb_spec (ref_count sh) 1) as [Hr|Hr]; cbn [negb].
  - destruct (unlink_spec s (shape o) sh (ro_table _ R) Hsh Hh Hrange) as (t & -> & Ht). cbn [mbind option_bind]. do 2 eexists. split; [reflexivity|].
    assert (moved s (set_shape (with_table s (shape_hash_bits s) t (shape_hash_count s - 1)) (shape o) (with_hashed sh false (hash sh))) p o o (with_hashed sh false (hash sh))) as M.
    { apply (own_moved s _ p o o sh); cbn; try done; [now rewrite insert_id | now left | | | destruct Sok; split; done].
      - rewrite <- (insert_delete_eq (shapes s)). apply hash_table_unhashed; [done | done|]. intros old Hold. now rewrite lookup_delete_eq in Hold.
      - now rewrite insert_delete_eq. }
    split; [apply (moved_updates s _ p o o _ R M); done|]. right. split; [done|]. exists o, (with_hashed sh false (hash sh)).
    split_and!; [| now destruct o | done]. split_and!; [exact Ho | cbn; apply lookup_insert_eq | done].
  - unfold js_clone_shape. rewrite Hsh. cbn [mbind option_bind]. pose proof (shape_in_use s p o R Ho) as Hlt.
    destruct (js_malloc_spec s) as (answers & Hm & [[-> Hne]| ->]); cbn [mbind option_bind].
    + do 2 eexists. split; [reflexivity|]. split; [apply allocator_updates; done | now left].
    + assert (shapes s !! next_address s = None) as Hf by (apply (ro_fresh _ R); lia).
      rewrite (free_shared _ (shape o) sh) by (cbn; rewrite ?lookup_insert_ne by lia; done || lia). cbn [mbind option_bind]. do 2 eexists. split; [reflexivity|].
      split.
      * rewrite <- (clone_contents sh o (next_address s) false). apply (moved_updates s _ p o); [done | | done | done | done].
        apply (clone_moved s p o sh answers false (shape_hash_table s) (shape_hash_count s) R Ho Hsh Hh Hr).
        apply (hash_table_same _ _ _ _ sh); [|rewrite lookup_insert_ne by lia; done | done | done].
        apply hash_table_unhashed; [apply R | done | congruence].
      * right. split; [done|]. eexists _, _. split_and!; [split_and!; [cbn; apply lookup_insert_eq | cbn; rewrite lookup_insert_ne by lia; apply lookup_insert_eq | done] | done | done].
Qed.

Lemma own_update s p o sh sh2 :
  runtime_ok s -> owns s p o sh -> shape_ok sh2 -> is_hashed sh2 = false -> hash sh2 = hash sh -> ref_count sh2 = ref_count sh ->
  prop_size sh2 <= Z.of_nat (length (props o)) ->
  updates s (set_shape s (shape o) sh2) p (describe sh2 o) /\ owns (set_shape s (shape o) sh2) p o sh2.
Proof.
  intros R (Ho & Hsh & Hh) Sok Hh2 Hs2 Hr2 Hle. pose proof (ro_private _ R _ _ Hsh Hh) as Hr. destruct (ro_shapes _ R _ _ Hsh) as [_ Hrange].
  split; [|split_and!; [done | cbn; apply lookup_insert_eq | done]].
  apply (moved_updates s _ p o); [done | | done | done | done]. apply (own_moved s _ p o o sh); cbn; try done.
  - now rewrite insert_id.
  - now left.
  - apply (hash_table_same _ _ _ _ sh); [apply R | done | congruence | done].
  - now rewrite insert_delete_eq.
  - unfold hash_in_range. now rewrite Hs2.
  - congruence.
Qed.

Lemma write_flags_updates s p o sh i pr f :
  runtime_ok s -> owns s p o sh -> prop sh !! i = Some pr -> ordinary_flags f ->
  exists s' sh2, write_flags s p i f = Some s' /\ updates s s' p (describe sh2 o) /\ owns s' p o sh2 /\
    sh2 = with_props sh (prop_hash sh) (prop_size sh) (deleted_prop_count sh) (<[i := mk_prs (hash_next pr) f (atom pr)]> (prop sh)).
Proof.
  intros R Hown Hi Hf. pose proof Hown as (Ho & Hsh & Hh). unfold write_flags. rewrite Ho. cbn [mbind option_bind]. rewrite Hsh. cbn [mbind option_bind].
  rewrite Hi. cbn [mbind option_bind]. destruct (ro_shapes _ R _ _ Hsh) as [Sok _]. destruct (ro_objects _ R p o Ho) as (sh0 & Hsh0 & Hle).
  rewrite Hsh in Hsh0. injection Hsh0 as <-.
  destruct (own_update s p o sh _ R Hown (set_flags_ok sh i pr f Sok Hi Hf)) as [U O]; [done | done | done | done|].
  do 2 eexists. split_and!; [reflexivity | exact U | exact O | reflexivity].
Qed.

(** *** Adding a property *)

Lemma maybe_unlink s a sh :
  hash_table_ok (shape_hash_bits s) (shape_hash_table s) (shapes s) -> shapes s !! a = Some sh -> hash_in_range sh ->
  exists t count, (if is_hashed sh then js_shape_hash_unlink s a else Some s) = Some (with_table s (shape_hash_bits s) t count) /\
    hash_table_ok (shape_hash_bits s) t (delete a (shapes s)).
Proof.
  intros Ht Ha Hr. destruct (is_hashed sh) eqn:Hh.
  - destruct (unlink_spec s a sh Ht Ha Hh Hr) as (t & -> & Ht'). eauto.
  - exists (shape_hash_table s), (shape_hash_count s). split; [now destruct s|]. apply (hash_table_ext _ _ (shapes s)); [done | |].
    + intros b shb Hhb Hb. exists shb. rewrite lookup_delete_ne; [done|]. intros <-. congruence.
    + intros b shb Hhb Hb. apply lookup_delete_Some in Hb as [_ Hb]. eauto.
Qed.

Lemma maybe_link s a sh :
  hash_table_ok (shape_hash_bits s) (shape_hash_table s) (delete a (shapes s)) -> shapes s !! a = Some sh -> hash_in_range sh ->
  exists t count, (if is_hashed sh then js_shape_hash_link s a else Some s) = Some (with_table s (shape_hash_bits s) t count) /\
    hash_table_ok (shape_hash_bits s) t (shapes s).
Proof.
  intros Ht Ha Hr. destruct (is_hashed sh) eqn:Hh.
  - destruct (link_spec s a sh Ht Ha Hh Hr) as (t & -> & Ht'). eauto.
  - exists (shape_hash_table s), (shape_hash_count s). split; [now destruct s|]. rewrite <- (insert_id _ _ _ Ha), <- (insert_delete_eq (shapes s)).
    apply hash_table_unhashed; [done | done|]. intros old Hold. now rewrite lookup_delete_eq in Hold.
Qed.

(** What [resize_properties] keeps of a shape. *)
Definition same_kind (sh sh' : JSShape) : Prop :=
  is_hashed sh' = is_hashed sh /\ hash sh' = hash sh /\ ref_count sh' = ref_count sh /\ proto sh' = proto sh /\ Forall2 same_key (prop sh) (prop sh').

Lemma same_kind_refl sh : same_kind sh sh.
Proof. split_and!; try done. apply Forall_Forall2_diag, Forall_forall. done. Qed.

(** What the operations of this section leave of the rest of the runtime. *)
Definition same_tables (s s' : JSRuntime) : Prop :=
  shape_hash_bits s' = shape_hash_bits s /\ shape_hash_table s' = shape_hash_table s /\ context_shapes s' = context_shapes s /\
  strict_mode s' = strict_mode s /\ next_address s <= next_address s' /\ (mallocs s = [] -> mallocs s' = []).

Lemma same_tables_refl s : same_tables s s.
Proof. split_and!; done || lia. Qed.

Lemma same_tables_allocator s n answers :
  next_address s <= n -> (mallocs s = [] -> answers = []) -> same_tables s (with_allocator s n answers).
Proof. intros H1 H2. split_and!; done. Qed.

Lemma same_tables_trans s s1 s2 : same_tables s s1 -> same_tables s1 s2 -> same_tables s s2.
Proof.
  intros (A1 & A2 & A3 & A4 & A5 & A6) (B1 & B2 & B3 & B4 & B5 & B6). split_and!; [congruence | congruence | congruence | congruence | lia | auto].
Qed.

Lemma same_entries_kind sh sh' values : same_kind sh sh' -> entries (prop sh') values = entries (prop sh) values.
Proof. intros (_ & _ & _ & _ & H). now apply entries_same_key. Qed.

(** The array of values after a reallocation. *)
Definition regrown (sh : JSShape) (o : JSObject) (values : list JSProperty) : Prop :=
  prop_size sh <= Z.of_nat (length values) /\ entries (prop sh) values = entries (prop sh) (props o).

Lemma grow_phase s p o a sh :
  objects s !! p = Some o -> shapes s !! a = Some sh -> shape_ok sh -> prop_size sh <= Z.of_nat (length (props o)) -> prop_count sh < MAX_PROPS ->
  exists r a' s' values, (if prop_size sh <=? prop_count sh then resize_properties s a (Some p) (prop_count sh + 1) else Some (0, a, s)) = Some (r, a', s') /\
    same_tables s s' /\ objects s' = <[p := with_values o values]> (objects s) /\ regrown sh o values /\
    ((r = -1 /\ a' = a /\ mallocs s <> [] /\ shapes s' = shapes s) \/
     (r = 0 /\ (a' = a \/ next_address s <= a' < next_address s') /\ exists sh', shapes s' = <[a' := sh']> (delete a (shapes s)) /\ shape_ok sh' /\
        same_kind sh sh' /\ prop_count sh < prop_size sh' <= Z.of_nat (length values))).
Proof.
  intros Ho Ha Sok Hle Hmax. pose proof (so_count _ Sok) as (_ & Hc & Hps). destruct (Z.leb_spec (prop_size sh) (prop_count sh)) as [Hfull|Hroom].
  2: { exists 0, a, s, (props o). split; [done|]. split; [apply same_tables_refl|].
       split; [rewrite insert_id; [done | now destruct o]|]. split; [split; [lia | done]|]. right. split; [done|]. split; [now left|].
       exists sh. split; [now rewrite insert_delete_id|]. split; [done|]. split; [apply same_kind_refl | lia]. }
  destruct (resize_shape_ok sh Sok Hfull Hmax) as (n & prop' & table' & En & Ep & Hk & Sok' & Hns). cbv zeta in *.
  unfold resize_properties. rewrite Ha. cbn [mbind option_bind]. set (new_size := Z.max _ _) in *.
  assert (regrown sh o (props o)) as G0 by done.
  assert (regrown sh o (realloc_values new_size (props o)) /\ Z.of_nat (length (realloc_values new_size (props o))) = new_size) as [G1 G2].
  { unfold prop_count in *. rewrite realloc_length by lia. split; [|lia]. split; [rewrite realloc_length by lia; lia|]. apply realloc_entries; lia. }
  unfold js_realloc. rewrite Ho. cbn [mbind option_bind].
  destruct (js_malloc_spec s) as (answers & Hm & [[-> Hne]| ->]); cbn [mbind option_bind negb].
  { exists (-1), a, (with_allocator s (next_address s) answers), (props o). split; [done|]. split; [apply same_tables_allocator; [lia | done]|].
    split; [cbn; rewrite insert_id; [done | now destruct o]|]. split; [exact G0|].
    left. split; [reflexivity|]. split; [reflexivity|]. split; [exact Hne | reflexivity]. }
  rewrite En. cbn [mbind option_bind]. set (s1 := set_object _ p _).
  assert (same_tables s s1) as T1 by (apply (same_tables_trans _ (with_allocator s (next_address s + 1) answers)); [apply same_tables_allocator; [lia | done] | split_and!; try done; cbn; lia]).
  destruct (js_malloc_spec s1) as (answers1 & Hm1 & [[-> Hne]| ->]); cbn [mbind option_bind].
  { exists (-1), a, (with_allocator s1 (next_address s1) answers1), (realloc_values new_size (props o)).
    split; [reflexivity|]. split; [apply (same_tables_trans _ s1 _ T1), same_tables_allocator; [lia | done]|]. split; [reflexivity|]. split; [exact G1|].
    left. split; [done|]. split; [done|]. split; [|reflexivity]. intros E. apply Hne. cbn. auto. }
  rewrite Ep. cbn [mbind option_bind]. exists 0, (next_address s1). eexists. exists (realloc_values new_size (props o)). split; [reflexivity|].
  split; [apply (same_tables_trans _ (with_allocator s1 (next_address s1 + 1) answers1)); [apply (same_tables_trans _ s1 _ T1), same_tables_allocator; [lia | done] | split_and!; try done; cbn; lia]|].
  split; [reflexivity|]. split; [exact G1|]. right. split; [done|]. split; [right; cbn; lia|].
  eexists. split; [reflexivity|]. split; [exact Sok'|]. split; [split_and!; try reflexivity; exact Hk | cbn; lia].
Qed.

(** The object, its shape under the address [a], and the new last property. *)
Definition added (s s1 : JSRuntime) (p a : Z) (o o1 : JSObject) (sh sh2 : JSShape) (name f : Z) : Prop :=
  objects s1 !! p = Some o1 /\ shapes s1 !! a = Some sh2 /\
  moved s (set_object s1 p (with_shape o1 a)) p o (with_shape o1 a) sh2 /\
  (exists pr prop1, prop sh2 = prop1 ++ [pr] /\ atom pr = name /\ flags pr = f /\ length prop1 = length (prop sh) /\
    entries prop1 (props o1) = entries (prop sh) (props o)) /\
  prop_count sh < Z.of_nat (length (props o1)) /\
  proto sh2 = proto sh /\ extensible o1 = extensible o /\ has_immutable_prototype o1 = has_immutable_prototype o /\ is_function o1 = is_function o.

Definition same_settings (s s' : JSRuntime) : Prop :=
  strict_mode s' = strict_mode s /\ shape_hash_bits s' = shape_hash_bits s /\ (mallocs s = [] -> mallocs s' = []).

Lemma shape_hash_range h v : 0 <= shape_hash h v < 2 ^ 32.
Proof. unfold shape_hash. apply wrap_range. lia. Qed.

Lemma set_shape_twice s a sh sh' b t count :
  set_shape (with_table (set_shape s a sh) b t count) a sh' = with_table (set_shape s a sh') b t count.
Proof. unfold set_shape, with_shapes, with_table. cbn. now rewrite insert_insert_eq. Qed.

Section AddShape.
Context (s : JSRuntime) (p : Z) (o : JSObject) (sh : JSShape) (name f : Z).
Context (R : runtime_ok s) (Ho : objects s !! p = Some o) (Hsh : shapes s !! shape o = Some sh) (Hr : ref_count sh = 1).
Context (Hname : name <> JS_ATOM_NULL) (Hfresh : name ∉ live_names (prop sh)) (Hf : ordinary_flags f) (Hmax : prop_count sh < MAX_PROPS).

(** The table and the chain of properties, on the shape with room. *)
Lemma add_to_room s1 a sh1 new_hash :
  hash_table_ok (shape_hash_bits s1) (shape_hash_table s1) (delete a (shapes s1)) -> shapes s1 !! a = Some sh1 -> shape_ok sh1 ->
  hash_in_range sh1 -> 0 <= new_hash < 2 ^ 32 -> same_kind sh sh1 -> prop_count sh < prop_size sh1 ->
  exists s2 sh2 t count,
    (s2 ← (if is_hashed sh1 then js_shape_hash_link (set_shape s1 a (with_hashed sh1 true new_hash)) a else Some s1);
     sh2 ← shapes s2 !! a;
     if prop_size sh2 <=? prop_count sh2 then None
     else
       '(pr, table) ← link_prop (prop_hash sh2) (mk_prs 0 f name) (prop_count sh2 + 1);
       Some (0, a, set_shape s2 a (with_props sh2 table (prop_size sh2) (deleted_prop_count sh2) (prop sh2 ++ [pr])))) = Some (0, a, s2) /\
    s2 = with_table (set_shape s1 a sh2) (shape_hash_bits s1) t count /\
    hash_table_ok (shape_hash_bits s1) t (<[a := sh2]> (shapes s1)) /\ shape_ok sh2 /\ hash_in_range sh2 /\ ref_count sh2 = ref_count sh1 /\
    prop_size sh2 = prop_size sh1 /\ proto sh2 = proto sh1 /\ exists pr, prop sh2 = prop sh1 ++ [pr] /\ atom pr = name /\ flags pr = f.
Proof using Hname Hfresh Hf Hmax.
  intros Ht Ha Sok Hrange Hnew (K1 & K2 & K3 & K4 & K5) Hroom. pose proof (Forall2_length _ _ _ K5) as Hlen.
  set (sh1' := with_hashed sh1 (is_hashed sh1) (if is_hashed sh1 then new_hash else hash sh1)).
  assert (shape_ok sh1' /\ hash_in_range sh1') as [Sok' Hrange'].
  { split; [destruct Sok; split; done|]. unfold hash_in_range, sh1'. cbn. now destruct (is_hashed sh1). }
  assert (exists t count, (if is_hashed sh1 then js_shape_hash_link (set_shape s1 a (with_hashed sh1 true new_hash)) a else Some s1) =
    Some (with_table (set_shape s1 a sh1') (shape_hash_bits s1) t count) /\ hash_table_ok (shape_hash_bits s1) t (<[a := sh1']> (shapes s1))) as (t & count & -> & Ht').
  { destruct (maybe_link (set_shape s1 a sh1') a sh1') as (t & count & E & Ht'); [cbn; now rewrite delete_insert_eq | cbn; apply lookup_insert_eq | done|].
    exists t, count. split; [|exact Ht']. refine (eq_trans _ E). unfold sh1'. cbn [is_hashed with_hashed]. destruct (is_hashed sh1) eqn:Hh; [done|].
    f_equal. unfold set_shape. rewrite insert_id; [now destruct s1|]. rewrite Ha. f_equal. destruct sh1. cbn in *. now subst. }
  cbn [mbind option_bind]. cbn [shapes with_table set_shape with_shapes]. rewrite lookup_insert_eq. cbn [mbind option_bind].
  destruct (same_key_filter _ _ K5) as (F1 & _ & _).
  destruct (add_prop_ok sh1' name f Sok' Hname) as (pr & table & E & E1 & E2 & Sok2); [now rewrite <- F1 in Hfresh | done | unfold prop_count in *; cbn; lia | unfold prop_count in *; cbn; lia|].
  destruct (Z.leb_spec (prop_size sh1') (prop_count sh1')); [unfold prop_count in *; cbn in *; lia|]. rewrite E. cbn [mbind option_bind].
  eexists _, (with_props sh1' table (prop_size sh1') (deleted_prop_count sh1') (prop sh1' ++ [pr])), t, count. split; [reflexivity|].
  split; [apply set_shape_twice|].
  split; [rewrite <- (insert_insert_eq (shapes s1) a _ sh1'); apply (hash_table_same _ _ _ _ sh1'); [done | apply lookup_insert_eq | done | done]|].
  split; [exact Sok2|]. split_and!; try done. exists pr. done.
Qed.

Lemma add_shape_spec :
  exists r a s1, add_shape_property s (shape o) (Some p) name f = Some (r, a, s1) /\ same_settings s s1 /\
    ((r = -1 /\ mallocs s <> [] /\ updates s s1 p (describe sh o)) \/ (r = 0 /\ exists o1 sh2, added s s1 p a o o1 sh sh2 name f)).
Proof using All.
  destruct (ro_shapes _ R _ _ Hsh) as [Sok Hrange]. destruct (ro_objects _ R p o Ho) as (sh0 & Hsh0 & Hle). rewrite Hsh in Hsh0. injection Hsh0 as <-.
  pose proof (shape_in_use s p o R Ho) as Hlt.
  unfold add_shape_property. rewrite Hsh. cbn [mbind option_bind].
  destruct (maybe_unlink s (shape o) sh (ro_table _ R) Hsh Hrange) as (t & count & -> & Ht). cbn [mbind option_bind].
  set (s0 := with_table s (shape_hash_bits s) t count).
  destruct (grow_phase s0 p o (shape o) sh Ho Hsh Sok Hle Hmax) as (r & a & s1 & values & -> & (T1 & T2 & T3 & T4 & T5 & T6) & Eo & [G1 G2] & Hcase).
  cbn [mbind option_bind]. change (shapes s0) with (shapes s) in *. change (objects s0) with (objects s) in *. cbn [shape_hash_bits shape_hash_table s0 with_table] in T1, T2.
  destruct Hcase as [(-> & -> & Hne & Es)|(-> & Ha & sh1 & Es & Sok1 & K & Hroom)]; cbn [Z.eqb negb].
  - destruct (maybe_link s1 (shape o) sh) as (t' & count' & -> & Ht'); [rewrite T1, T2, Es; exact Ht | now rewrite Es | done|]. cbn [mbind option_bind].
    do 3 eexists. split; [reflexivity|]. split; [split_and!; [exact T4 | exact T1 | exact T6]|]. left. split; [done|]. split; [exact Hne|].
    assert (describe sh o = describe sh (with_values o values)) as -> by (unfold describe; cbn; now rewrite G2).
    apply (moved_updates s _ p o); [exact R | | exact T6 | exact T4 | exact T1].
    apply (own_moved s _ p o (with_values o values) sh); try done; cbn; [now left | rewrite Es; now rewrite insert_delete_id].
  - pose proof K as (K1 & K2 & K3 & K4 & K5).
    assert (delete a (shapes s1) = delete (shape o) (shapes s)) as Ed.
    { rewrite Es. destruct Ha as [->|Ha]; [now rewrite delete_insert_eq, delete_delete_eq|].
      apply delete_insert_id. rewrite lookup_delete_ne by (cbn in Ha; lia). apply (ro_fresh _ R). cbn in Ha. lia. }
    assert (shapes s1 !! a = Some sh1) as Ha1 by (rewrite Es; apply lookup_insert_eq). rewrite Ha1. cbn [mbind option_bind].
    destruct (add_to_room s1 a sh1 (shape_hash (shape_hash (hash sh) name) f)) as (s2 & sh2 & t' & count' & E & -> & Ht' & Sok2 & Hr2 & Hc2 & Hs2 & Hp2 & pr & Epr & Ea & Ef);
      [rewrite T1, T2, Ed; exact Ht | rewrite Es; apply lookup_insert_eq | done | unfold hash_in_range; now rewrite K2 | apply shape_hash_range | done | lia |].
    rewrite E. do 3 eexists. split; [reflexivity|]. split; [split_and!; [exact T4 | exact T1 | exact T6]|]. right. split; [done|]. exists (with_values o values), sh2.
    split; [cbn; rewrite Eo; apply lookup_insert_eq|]. split; [cbn; apply lookup_insert_eq|]. split; [|split; [|split]].
    + assert (<[a := sh2]> (shapes s1) = <[a := sh2]> (delete (shape o) (shapes s))) as E' by (rewrite <- (insert_delete_eq (shapes s1)), Ed; reflexivity || now rewrite <- Ed).
      apply (own_moved s _ p o (with_shape (with_values o values) a) sh); try done; cbn.
      * rewrite Eo. now rewrite insert_insert_eq.
      * rewrite Hs2. cbn. lia.
      * rewrite Hc2, K3. done.
    + exists pr, (prop sh1). split_and!; [done | done | done | now rewrite (Forall2_length _ _ _ K5)|]. cbn. rewrite (same_entries_kind _ _ _ K). exact G2.
    + cbn. lia.
    + split_and!; [now rewrite Hp2 | done | done | done].
Qed.
End AddShape.

(** [d] with one more property. *)
Definition push (d : dictionary) (e : property_entry) : dictionary :=
  mk_dictionary (d_proto d) (d_extensible d) (d_immutable_prototype d) (d_function d) (d_entries d ++ [e]).

(** The object has a new property, whose value [i] is still to be written. *)
Definition pushes (s s1 : JSRuntime) (p : Z) (i : nat) (d : dictionary) (name f : Z) : Prop :=
  exists d1, updates s s1 p d1 /\ d_function d1 = d_function d /\
    forall v, exists s2, write_value s1 p i v = Some s2 /\ updates s1 s2 p (push d (name, f, v)).

Lemma pushes_trans s s' s1 p i d d' name f : updates s s' p d' -> pushes s' s1 p i d name f -> pushes s s1 p i d name f.
Proof. intros U (d1 & U1 & E & W). exists d1. split_and!; [now apply (updates_trans s s' s1 p d') | done | done]. Qed.

Lemma entries_push prop1 pr values i v name f :
  live pr = true -> atom pr = name -> flags pr = f -> length prop1 = i -> (i < length values)%nat ->
  entries (prop1 ++ [pr]) (<[i := v]> values) = entries prop1 values ++ [(name, f, v)].
Proof.
  intros Hl <- <- Hi Hlt. rewrite (insert_take_drop values i v Hlt). change (v :: drop (S i) values) with ([v] ++ drop (S i) values). rewrite app_assoc.
  rewrite entries_more by (rewrite !length_app, length_take; cbn; lia). rewrite entries_app by (rewrite length_take; lia).
  rewrite entries_take by lia. cbn. now rewrite Hl.
Qed.

Lemma pushes_intro s s1 p o o1 sh sh1 name f prop1 pr i :
  runtime_ok s -> moved s s1 p o o1 sh1 -> same_settings s s1 -> name <> JS_ATOM_NULL ->
  prop sh1 = prop1 ++ [pr] -> atom pr = name -> flags pr = f -> entries prop1 (props o1) = entries (prop sh) (props o) ->
  i = length prop1 -> (i < length (props o1))%nat -> proto sh1 = proto sh ->
  extensible o1 = extensible o -> has_immutable_prototype o1 = has_immutable_prototype o -> is_function o1 = is_function o ->
  pushes s s1 p i (describe sh o) name f.
Proof.
  intros R M (S1 & S2 & S3) Hname Ep Ea Ef Ee Hi Hlt Hpr E1 E2 E3. exists (describe sh1 o1).
  pose proof (moved_updates s s1 p o o1 sh1 R M S3 S1 S2) as U. split_and!; [exact U | exact E3|]. intros v.
  assert (objects s1 !! p = Some o1) as Ho1 by (rewrite (mv_objects _ _ _ _ _ _ M); apply lookup_insert_eq).
  destruct (write_value_updates s1 p o1 sh1 i v (up_ok _ _ _ _ U) Ho1 (mv_new _ _ _ _ _ _ M) Hlt) as (s2 & E & _ & U2). exists s2. split; [done|].
  assert (push (describe sh o) (name, f, v) = describe sh1 (with_values o1 (<[i := v]> (props o1)))) as ->; [|exact U2].
  unfold push, describe. cbn. rewrite Ep, (entries_push _ _ _ _ _ name f), Ee, Hpr, E1, E2, E3; try done.
  apply live_of_name. now rewrite Ea.
Qed.

(** *** Finding a shape *)

Lemma find_in_chain_spec m test l :
  (forall a, a ∈ l -> is_Some (m !! a)) ->
  exists r, find_in_chain m test l = Some r /\ match r with Some a => a ∈ l /\ exists sh, m !! a = Some sh /\ test sh = true | None => True end.
Proof.
  induction l as [|a l IH]; intros H; cbn [find_in_chain]; [now exists None|]. destruct (H a (list_elem_of_here _ _)) as [sh Hsh]. rewrite Hsh. cbn [mbind option_bind].
  destruct (test sh) eqn:E; [exists (Some a); split_and!; [done | apply list_elem_of_here | eauto]|].
  destruct IH as (r & -> & Hr); [intros b Hb; apply H; now apply list_elem_of_further|]. exists r. split; [done|].
  destruct r as [b|]; [|done]. destruct Hr as [Hb Hr]. split; [now apply list_elem_of_further | done].
Qed.

Lemma find_hashed_spec s h test :
  runtime_ok s -> 0 <= h < 2 ^ 32 ->
  exists r, (chain ← shape_hash_table s !! Z.to_nat (get_shape_hash h (shape_hash_bits s)); find_in_chain (shapes s) test chain) = Some r /\
    match r with Some a => exists sh, shapes s !! a = Some sh /\ is_hashed sh = true /\ test sh = true | None => True end.
Proof.
  intros R Hh. pose proof (ro_table _ R) as Ht.
  pose proof (shape_index_lt _ _ _ (mk_shape 1 true h [] 0 0 None []) Ht Hh) as Hi. unfold shape_index in Hi. cbn in Hi.
  destruct (lookup_lt_is_Some_2 _ _ Hi) as [l Hl]. rewrite Hl. cbn [mbind option_bind]. destruct (ht_chains _ _ _ Ht _ _ Hl) as [_ Hin].
  destruct (find_in_chain_spec (shapes s) test l) as (r & E & Hr); [intros a Ha; apply Hin in Ha as (sh & Hsh & _); eauto|]. exists r. split; [done|].
  destruct r as [a|]; [|done]. destruct Hr as [Ha (sh & Hsh & Htest)]. apply Hin in Ha as (sh' & Hsh' & Hhash & _). rewrite Hsh in Hsh'. injection Hsh' as <-. eauto.
Qed.

Lemma same_entries_spec l1 l : same_entries l1 l = true -> Forall2 same_key l l1.
Proof.
  revert l. induction l1 as [|pr1 l1 IH]; intros [|pr l] H; try discriminate; [constructor|]. cbn in H. apply andb_true_iff in H as [H1 H2].
  apply andb_true_iff in H1 as [H1 H3]. constructor; [|auto]. split; [now apply Z.eqb_eq | now apply Z.eqb_eq].
Qed.

(** Dropping a reference to a hashed shape, which goes away with the last. *)
Lemma free_hashed s a sh :
  hash_table_ok (shape_hash_bits s) (shape_hash_table s) (shapes s) -> shapes s !! a = Some sh -> is_hashed sh = true -> hash_in_range sh -> 1 <= ref_count sh ->
  exists t count m, js_free_shape s a = Some (with_table (with_shapes s m) (shape_hash_bits s) t count) /\ hash_table_ok (shape_hash_bits s) t m /\
    (forall c, c <> a -> m !! c = shapes s !! c) /\
    m !! a = if ref_count sh =? 1 then None else Some (with_ref_count sh (ref_count sh - 1)).
Proof.
  intros Ht Ha Hh Hr Hpos. destruct (Z.eqb_spec (ref_count sh) 1) as [E|E].
  - unfold js_free_shape. rewrite Ha. cbn [mbind option_bind]. destruct (Z.leb_spec (ref_count sh - 1) 0); [|lia].
    unfold js_free_shape0. cbn [shapes set_shape with_shapes]. rewrite lookup_insert_eq. cbn [mbind option_bind ref_count with_ref_count].
    destruct (Z.eqb_spec (ref_count sh - 1) 0); [|lia]. cbn [negb]. set (s1 := set_shape s a _).
    assert (hash_table_ok (shape_hash_bits s1) (shape_hash_table s1) (shapes s1)) as Ht1 by (apply (hash_table_same _ _ _ _ sh); done).
    destruct (unlink_spec s1 a (with_ref_count sh (ref_count sh - 1)) Ht1) as (t & Eu & Ht'); [cbn; apply lookup_insert_eq | done | done|].
    cbn [is_hashed with_ref_count]. rewrite Hh, Eu. cbn [mbind option_bind]. exists t, (shape_hash_count s1 - 1), (delete a (shapes s1)).
    split; [reflexivity|]. split; [exact Ht'|]. split; [|apply lookup_delete_eq]. intros c Hc. cbn. rewrite lookup_delete_ne, lookup_insert_ne by done. done.
  - rewrite (free_shared s a sh Ha) by lia. exists (shape_hash_table s), (shape_hash_count s), (<[a := with_ref_count sh (ref_count sh - 1)]> (shapes s)).
    split; [reflexivity|]. split; [apply (hash_table_same _ _ _ _ sh); done|]. split; [|apply lookup_insert_eq]. intros c Hc. now rewrite lookup_insert_ne.
Qed.

(** The object takes another shape of the table. *)
Lemma adopt_moved s s' p o o1 sh a sh1 t count m :
  runtime_ok s -> objects s !! p = Some o -> shapes s !! shape o = Some sh -> is_hashed sh = true ->
  shapes s !! a = Some sh1 -> is_hashed sh1 = true -> a <> shape o -> prop_size sh1 <= Z.of_nat (length (props o1)) -> shape o1 = a ->
  hash_table_ok (shape_hash_bits s) t m ->
  (forall c, c <> shape o -> m !! c = <[a := with_ref_count sh1 (ref_count sh1 + 1)]> (shapes s) !! c) ->
  m !! shape o = (if ref_count sh =? 1 then None else Some (with_ref_count sh (ref_count sh - 1))) ->
  objects s' = <[p := o1]> (objects s) -> context_shapes s' = context_shapes s -> next_address s <= next_address s' ->
  shapes s' = m -> shape_hash_bits s' = shape_hash_bits s -> shape_hash_table s' = t -> shape_hash_count s' = count ->
  moved s s' p o o1 (with_ref_count sh1 (ref_count sh1 + 1)).
Proof.
  intros R Ho Hsh Hh Ha Hh1 Hne Hle Eo Ht Hm Hma E1 E2 E3 E4 E5 E6 E7. destruct (ro_shapes _ R _ _ Ha) as [[X1 X2 X3 X4 X5 X6] Hrange].
  assert (a < next_address s) as Halt.
  { destruct (Z.lt_ge_cases a (next_address s)) as [|Hge]; [done|]. destruct (ro_fresh _ R a Hge). congruence. }
  destruct (ro_counts _ R _ _ Ha) as [Ec1 Ep1]. destruct (ro_counts _ R _ _ Hsh) as [Ec Ep].
  split; rewrite ?E4, ?E5, ?E6, ?Eo; try done.
  - lia.
  - intros c Hc Hc'. rewrite Hm, lookup_insert_ne by done. done.
  - intros _. rewrite Hma. destruct (Z.eqb_spec (ref_count sh) 1); [lia|]. exists sh. done.
  - rewrite Hm by done. apply lookup_insert_eq.
  - rewrite E1, E2, (users_update _ _ _ _ _ _ Ho), Eo, occurs_same, occurs_ne by done. cbn. split; [lia | congruence].
  - intros q oq _ _ _. exists sh1. split; [done|]. unfold same_but_count. reflexivity.
Qed.

Section AddProperty.
Context (s : JSRuntime) (p : Z) (o : JSObject) (sh : JSShape) (name f : Z).
Context (R : runtime_ok s) (Ho : objects s !! p = Some o) (Hsh : shapes s !! shape o = Some sh).
Context (Hname : name <> JS_ATOM_NULL) (Hfresh : name ∉ live_names (prop sh)) (Hf : ordinary_flags f) (Hmax : prop_count sh < MAX_PROPS).

Definition add_result (r : option nat) (s1 : JSRuntime) : Prop :=
  match r with
  | None => mallocs s <> [] /\ updates s s1 p (describe sh o)
  | Some i => pushes s s1 p i (describe sh o) name f
  end.

Lemma add_own : ref_count sh = 1 ->
  exists r s1,
    ('(r, a, s) ← add_shape_property s (shape o) (Some p) name f;
     if negb (r =? 0) then Some (None, s)
     else o ← objects s !! p; sh ← shapes s !! a; Some (Some (Z.to_nat (prop_count sh - 1)), set_object s p (with_shape o a))) = Some (r, s1) /\
    add_result r s1.
Proof using All.
  intros Hr. destruct (add_shape_spec s p o sh name f R Ho Hsh Hr Hname Hfresh Hf Hmax) as (r & a & s1 & -> & S & [(-> & Hne & U)|(-> & o1 & sh2 & A)]);
    cbn [mbind option_bind Z.eqb negb].
  - exists None, s1. done.
  - destruct A as (A1 & A2 & M & (pr & prop1 & A3 & A4 & A5 & A6 & A7) & A8 & A9 & A10 & A11 & A12). rewrite A1. cbn [mbind option_bind]. rewrite A2. cbn [mbind option_bind].
    do 2 eexists. split; [reflexivity|]. cbn.
    assert (Z.to_nat (prop_count sh2 - 1) = length prop1) as -> by (unfold prop_count; rewrite A3, length_app; cbn; lia).
    apply (pushes_intro s _ p o (with_shape o1 a) sh sh2 name f prop1 pr); try done. cbn. unfold prop_count in A8. lia.
Qed.

Lemma add_adopt a sh1 :
  is_hashed sh = true -> shapes s !! a = Some sh1 -> is_hashed sh1 = true ->
  matches_prop (shape_hash (shape_hash (hash sh) name) f) sh name f sh1 = true ->
  exists r s1,
    ('(ok, s) ← (if prop_size sh1 =? prop_size sh then Some (true, s) else js_realloc s p (prop_size sh1));
     if negb ok then Some (None, s)
     else
       o0 ← objects s !! p;
       s ← js_dup_shape s a;
       s ← js_free_shape (set_object s p (with_shape o0 a)) (shape o0);
       Some (Some (Z.to_nat (prop_count sh1 - 1)), s)) = Some (r, s1) /\ add_result r s1.
Proof using All.
  intros Hh Ha Hh1 Hm. unfold matches_prop in Hm. rewrite !andb_true_iff in Hm. destruct Hm as [[[_ Hp] Hc] He].
  apply bool_decide_eq_true_1 in Hp. apply Z.eqb_eq in Hc. apply same_entries_spec in He.
  assert (a <> shape o) as Hne by (intros ->; rewrite Hsh in Ha; injection Ha as <-; lia).
  destruct (ro_objects _ R p o Ho) as (sh0 & Hsh0 & Hle). rewrite Hsh in Hsh0. injection Hsh0 as <-.
  destruct (ro_shapes _ R _ _ Ha) as [Sok1 Hrange1]. destruct (ro_shapes _ R _ _ Hsh) as [Sok Hrange]. pose proof (so_count _ Sok1) as (_ & Hc1 & Hps1).
  pose proof (so_count _ Sok) as (_ & Hc0 & _).
  pose proof (ro_counts _ R _ _ Hsh) as [_ Hpos].
  assert (exists answers n values ok s1, (if prop_size sh1 =? prop_size sh then Some (true, s) else js_realloc s p (prop_size sh1)) = Some (ok, s1) /\
    next_address s <= n /\ (mallocs s = [] -> answers = []) /\ prop_size sh1 <= Z.of_nat (length values) /\
    entries (prop sh) values = entries (prop sh) (props o) /\
    ((ok = false /\ mallocs s <> [] /\ s1 = with_allocator s n answers) \/
     (ok = true /\ s1 = set_object (with_allocator s n answers) p (with_values o values)))) as (answers & n & values & ok & s1 & -> & Hn & Hm & Hv & Hve & Hcase).
  { unfold prop_count in *. destruct (Z.eqb_spec (prop_size sh1) (prop_size sh)).
    - exists (mallocs s), (next_address s), (props o), true, s. split_and!; try done; [lia|]. right. split; [done|]. unfold set_object. cbn.
      rewrite insert_id by (rewrite Ho; now destruct o). now destruct s.
    - unfold js_realloc. rewrite Ho. cbn [mbind option_bind].
      destruct (js_malloc_spec s) as (answers & Hm & [[-> Hne']| ->]); [exists answers, (next_address s) | exists answers, (next_address s + 1)];
        exists (realloc_values (prop_size sh1) (props o)); do 2 eexists; (split; [reflexivity|]); rewrite realloc_length by lia;
        (split; [lia|]); (split; [done|]); (split; [lia|]); (split; [apply realloc_entries; lia|]); [now left | now right]. }
  destruct Hcase as [(-> & Hne' & ->)|(-> & ->)]; cbn [mbind option_bind negb].
  { exists None, (with_allocator s n answers). split; [done|]. split; [done|]. apply allocator_updates; try done. now apply contents_Some. }
  cbn [objects set_object with_objects]. rewrite lookup_insert_eq. cbn [mbind option_bind]. unfold js_dup_shape. cbn [shapes set_object with_objects with_allocator]. rewrite Ha. cbn [mbind option_bind].
  set (s2 := set_object (set_shape _ a _) p _).
  destruct (free_hashed s2 (shape o) sh) as (t & count & m & E & Ht & Hmo & Hma); [| cbn; now rewrite lookup_insert_ne | done | done | done |].
  { cbn. apply (hash_table_same _ _ _ _ sh1); [apply R | done | done | done]. }
  cbn [shape with_values]. rewrite E. cbn [mbind option_bind]. do 2 eexists. split; [reflexivity|]. cbn [add_result].
  apply Forall2_app_inv_l in He as (prop1 & l & K1 & K2 & Epr). apply Forall2_cons_inv_l in K2 as (pr & l' & [K3 K4] & K5 & ->). apply Forall2_nil_inv_l in K5 as ->. cbn in K3, K4.
  assert (Z.to_nat (prop_count sh1 - 1) = length prop1) as -> by (unfold prop_count; rewrite Epr, length_app; cbn; lia).
  apply (pushes_intro s _ p o (with_shape (with_values o values) a) sh (with_ref_count sh1 (ref_count sh1 + 1)) name f prop1 pr); try done.
  - apply (adopt_moved s _ p o _ sh a sh1 t count m); try done; cbn. now rewrite insert_insert_eq.
  - cbn. now rewrite (entries_same_key _ _ _ K1).
  - cbn. unfold prop_count in *. rewrite Epr, length_app in *. cbn in *. lia.
Qed.
End AddProperty.

(** A shared shape is copied first. *)
Lemma add_clone s p o sh name f :
  runtime_ok s -> objects s !! p = Some o -> shapes s !! shape o = Some sh -> name <> JS_ATOM_NULL -> name ∉ live_names (prop sh) ->
  ordinary_flags f -> prop_count sh < MAX_PROPS -> is_hashed sh = true -> ref_count sh <> 1 ->
  exists r s1,
    ('(ok, s) ← ('(m, s) ← js_clone_shape s (shape o);
                 match m with
                 | None => Some (false, s)
                 | Some a =>
                     sh1 ← shapes s !! a;
                     s ← js_shape_hash_link (set_shape s a (with_hashed sh1 true (hash sh1))) a;
                     s ← js_free_shape s (shape o);
                     Some (true, set_object s p (with_shape o a))
                 end);
     if negb ok then Some (None, s)
     else
       o ← objects s !! p;
       sh ← shapes s !! shape o;
       if negb (ref_count sh =? 1) then None
       else
         '(r, a, s) ← add_shape_property s (shape o) (Some p) name f;
         if negb (r =? 0) then Some (None, s)
         else o ← objects s !! p; sh ← shapes s !! a; Some (Some (Z.to_nat (prop_count sh - 1)), set_object s p (with_shape o a))) = Some (r, s1) /\
    add_result s p o sh name f r s1.
Proof.
  intros R Ho Hsh Hname Hfresh Hf Hmax Hh Hr. pose proof (contents_Some _ _ _ _ Ho Hsh) as Hd. destruct (ro_shapes _ R _ _ Hsh) as [Sok Hrange].
  unfold js_clone_shape. rewrite Hsh. cbn [mbind option_bind]. pose proof (shape_in_use s p o R Ho) as Hlt.
  destruct (js_malloc_spec s) as (answers & Hm & [[-> Hne]| ->]); cbn [mbind option_bind negb].
  { exists None, (with_allocator s (next_address s) answers). split; [done|]. split; [done|]. apply allocator_updates; done. }
  set (a := next_address s). assert (shapes s !! a = None) as Hfa by (apply (ro_fresh _ R); unfold a; lia).
  cbn [shapes set_shape with_shapes with_allocator]. rewrite lookup_insert_eq. cbn [mbind option_bind].
  set (sh1 := with_hashed (with_ref_count sh 1) true (hash sh)). set (s0 := set_shape (set_shape (with_allocator s (a + 1) answers) a _) a _).
  assert (shapes s0 = <[a := sh1]> (shapes s)) as Es0 by (cbn; now rewrite insert_insert_eq).
  destruct (link_spec s0 a sh1) as (t & E & Ht); [rewrite Es0, delete_insert_id by done; apply R | rewrite Es0; apply lookup_insert_eq | done | done|].
  rewrite E. cbn [mbind option_bind]. clear E. destruct (ro_counts _ R _ _ Hsh) as [_ Hpos].
  rewrite (free_shared _ (shape o) sh) by (cbn; rewrite ?lookup_insert_ne by (unfold a; lia); done || lia). cbn [mbind option_bind negb].
  set (s1 := set_object _ p (with_shape o a)).
  assert (moved s s1 p o (with_shape o a) sh1) as M.
  { pose proof (clone_moved s p o sh answers true t (shape_hash_count s0 + 1) R Ho Hsh Hh Hr) as M. cbv zeta in M. fold a sh1 in M.
    assert (s1 = set_object (with_table (with_shapes (with_allocator s (a + 1) answers) (<[shape o := with_ref_count sh (ref_count sh - 1)]> (<[a := sh1]> (shapes s))))
      (shape_hash_bits s) t (shape_hash_count s0 + 1)) p (with_shape o a)) as ->; [|apply M].
    - unfold s1, set_object, set_shape, with_shapes, with_table. cbn. now rewrite insert_insert_eq.
    - apply (hash_table_same _ _ _ _ sh); [rewrite <- Es0; exact Ht | rewrite lookup_insert_ne by (unfold a; lia); done | done | done]. }
  assert (updates s s1 p (describe sh o)) as U by (apply (moved_updates s s1 p o (with_shape o a) sh1 R M); done).
  assert (objects s1 !! p = Some (with_shape o a)) as Ho1 by (cbn; apply lookup_insert_eq).
  pose proof (mv_new _ _ _ _ _ _ M) as Hsh1. rewrite Ho1. cbn [mbind option_bind]. rewrite Hsh1. cbn [mbind option_bind ref_count sh1 with_hashed with_ref_count Z.eqb negb].
  destruct (add_own s1 p (with_shape o a) sh1 name f (up_ok _ _ _ _ U) Ho1 Hsh1 Hname Hfresh Hf Hmax eq_refl) as (r & s2 & E & Hres).
  exists r, s2. split; [exact E|]. destruct r as [i|]; cbn in Hres.
  * apply (pushes_trans s s1 s2 p i _ _ name f U Hres).
  * destruct Hres as [Hne U2]. split; [intros E0; apply Hne, (up_mallocs _ _ _ _ U), E0|]. apply (updates_trans s s1 s2 p _ _ U U2).
Qed.

Definition has_room (s : JSRuntime) (p : Z) : Prop :=
  forall o sh, objects s !! p = Some o -> shapes s !! shape o = Some sh -> prop_count sh < MAX_PROPS.

Definition names (d : dictionary) : list Z := map entry_name (d_entries d).

Lemma names_describe sh o : shape_ok sh -> prop_size sh <= Z.of_nat (length (props o)) -> names (describe sh o) = live_names (prop sh).
Proof. intros Sok Hle. unfold names, describe. cbn. apply entries_names. pose proof (so_count _ Sok). unfold prop_count in *. lia. Qed.

Lemma add_property_spec s p d name f :
  runtime_ok s -> contents s p = Some d -> name <> JS_ATOM_NULL -> name ∉ names d -> ordinary_flags f -> has_room s p ->
  exists r s1, add_property s p name f = Some (r, s1) /\
    match r with None => mallocs s <> [] /\ updates s s1 p d | Some i => pushes s s1 p i d name f end.
Proof.
  intros R Hd Hname Hfresh Hf Hroom. destruct (contents_inv s p d R Hd) as (o & sh & Ho & Hsh & -> & Sok & Hle). rewrite names_describe in Hfresh by done.
  pose proof (Hroom o sh Ho Hsh) as Hmax. destruct (ro_shapes _ R _ _ Hsh) as [_ Hrange].
  unfold add_property. rewrite Ho. cbn [mbind option_bind]. rewrite Hsh. cbn [mbind option_bind].
  assert (exists r, (if is_hashed sh then find_hashed_shape_prop s sh name f else Some None) = Some r /\
    match r with
    | Some a => is_hashed sh = true /\ exists sh1, shapes s !! a = Some sh1 /\ is_hashed sh1 = true /\
        matches_prop (shape_hash (shape_hash (hash sh) name) f) sh name f sh1 = true
    | None => True
    end) as (r & -> & Hfound).
  { destruct (is_hashed sh); [|now exists None]. destruct (find_hashed_spec s (shape_hash (shape_hash (hash sh) name) f) (matches_prop (shape_hash (shape_hash (hash sh) name) f) sh name f) R (shape_hash_range _ _)) as (r & E & Hr).
    exists r. split; [exact E|]. destruct r; [|done]. done. }
  cbn [mbind option_bind]. destruct r as [a|].
  - destruct Hfound as (Hh & sh1 & Ha & Hh1 & Hm). rewrite Ha. cbn [mbind option_bind]. apply (add_adopt s p o sh name f); done.
  - destruct (is_hashed sh) eqn:Hh; cbn [andb]; [destruct (Z.eqb_spec (ref_count sh) 1) as [Hr|Hr]|]; cbn [negb].
    + cbn [mbind option_bind negb]. rewrite Ho. cbn [mbind option_bind]. rewrite Hsh. cbn [mbind option_bind]. rewrite Hr. cbn [Z.eqb negb].
      apply (add_own s p o sh name f); done.
    + apply (add_clone s p o sh name f); done.
    + pose proof (ro_private _ R _ _ Hsh Hh) as Hr. cbn [mbind option_bind negb]. rewrite Ho. cbn [mbind option_bind]. rewrite Hsh. cbn [mbind option_bind]. rewrite Hr. cbn [Z.eqb negb].
      apply (add_own s p o sh name f); done.
Qed.

(** *** Deleting a property *)

Definition with_entries (d : dictionary) (l : list property_entry) : dictionary :=
  mk_dictionary (d_proto d) (d_extensible d) (d_immutable_prototype d) (d_function d) l.

Definition remove (d : dictionary) (name : Z) : dictionary := with_entries d (List.filter (other_name name) (d_entries d)).

Lemma compact_properties_spec s p o sh :
  runtime_ok s -> owns s p o sh -> 2 <= prop_size sh ->
  exists r s', compact_properties s p = Some (r, s') /\ updates s s' p (describe sh o).
Proof.
  intros R (Ho & Hsh & Hh) H2. destruct (ro_objects _ R p o Ho) as (sh0 & Hsh0 & Hle). rewrite Hsh in Hsh0. injection Hsh0 as <-.
  destruct (ro_shapes _ R _ _ Hsh) as [Sok Hrange]. pose proof (ro_private _ R _ _ Hsh Hh) as Hr. pose proof (contents_Some _ _ _ _ Ho Hsh) as Hd.
  destruct (compact_shape_ok sh (props o) Sok Hle H2) as (Hns & n & prop' & table' & values' & En & El & Hlen & Sok' & Hlv & He). cbv zeta in *.
  unfold compact_properties. rewrite Ho. cbn [mbind option_bind]. rewrite Hsh. cbn [mbind option_bind]. set (new_size := Z.max _ _) in *.
  rewrite Hh. destruct (Z.leb_spec new_size (prop_size sh)); [|lia]. cbn [orb negb]. rewrite En. cbn [mbind option_bind].
  destruct (js_malloc_spec s) as (answers & Hm & [[-> Hne]| ->]).
  { do 2 eexists. split; [reflexivity|]. apply allocator_updates; done. }
  rewrite El. cbn [mbind option_bind]. destruct (Z.eqb_spec (Z.of_nat (length prop')) (prop_count sh - deleted_prop_count sh)); [|lia]. cbn [negb].
  pose proof (shape_in_use s p o R Ho) as Hlt. set (a := next_address s) in *. set (o' := with_shape (with_values o values') a).
  set (sh' := with_props sh table' new_size 0 prop'). set (s1 := set_object _ p o').
  assert (moved s s1 p o o' sh') as M.
  { apply (own_moved s s1 p o o' sh sh'); try done; cbn; [lia | right; lia | | lia].
    apply hash_table_unhashed; [| done | rewrite lookup_delete_ne by (unfold a; lia); rewrite (proj1 (ro_fresh _ R a ltac:(unfold a; lia))); done].
    apply (hash_table_ext _ _ (shapes s)); [apply R | |].
    - intros b shb Hhb Hb. exists shb. rewrite lookup_delete_ne; [done|]. intros <-. congruence.
    - intros b shb Hhb Hb. apply lookup_delete_Some in Hb as [_ Hb]. eauto. }
  pose proof (moved_updates s s1 p o o' sh' R M Hm eq_refl eq_refl) as U.
  assert (objects s1 !! p = Some o') as Ho1 by (cbn; apply lookup_insert_eq).
  destruct (js_realloc_updates s1 p o' sh' new_size (up_ok _ _ _ _ U) Ho1 (mv_new _ _ _ _ _ _ M)) as (ok & s2 & E & U2 & _); [cbn; lia|].
  assert (describe sh o = describe sh' o') as -> by (unfold describe; cbn; now rewrite He).
  rewrite E. cbn [mbind option_bind]. do 2 eexists. split; [reflexivity|]. apply (updates_trans s s1 s2 p _ _ U U2).
Qed.

(** Taking the property out of the shape that the object owns. *)
Lemma delete_own s p o sh name m i lpr f v :
  runtime_ok s -> owns s p o sh -> name <> JS_ATOM_NULL ->
  unlinked sh m i lpr -> (exists pr, prop sh !! i = Some pr /\ atom pr = name) ->
  (name, f, v) ∈ entries (prop sh) (props o) ->
  exists s',
    (o ← objects s !! p;
     sh ← shapes s !! shape o;
     sh ← unlink_prop sh m i lpr;
     s ← write_value (set_shape s (shape o) sh) p i (Value undefined);
     if (8 <=? deleted_prop_count sh) && (prop_count sh / 2 <=? deleted_prop_count sh) then '(_, s) ← compact_properties s p; Some (Done true, s)
     else Some (Done true, s)) = Some (Done true, s') /\
    updates s s' p (remove (describe sh o) name).
Proof.
  intros R Hown Hname (prop' & table' & E & Ht & Hl & Hd) (pr & Hi & Ea) Hin. pose proof Hown as (Ho & Hsh & Hh).
  destruct (ro_objects _ R p o Ho) as (sh0 & Hsh0 & Hle). rewrite Hsh in Hsh0. injection Hsh0 as <-. destruct (ro_shapes _ R _ _ Hsh) as [Sok _].
  rewrite Ho. cbn [mbind option_bind]. rewrite Hsh. cbn [mbind option_bind]. rewrite E. cbn [mbind option_bind]. set (sh2 := with_props sh table' _ _ prop').
  destruct (delete_prop_ok sh i pr prop' table' (props o) Sok Hi) as [Sok2 He]; [congruence | done | done | done|].
  destruct (own_update s p o sh sh2 R Hown Sok2) as [U1 O1]; [done | done | done | done|]. set (s1 := set_shape s (shape o) sh2) in *.
  assert (i < length (props o))%nat as Hil by (apply lookup_lt_Some in Hi; pose proof (so_count _ Sok); unfold prop_count in *; lia).
  destruct O1 as (Ho1 & Hsh1 & Hh1). destruct (write_value_updates s1 p o sh2 i (Value undefined) (up_ok _ _ _ _ U1) Ho1 Hsh1 Hil) as (s2 & E2 & Es2 & U2).
  rewrite E2. cbn [mbind option_bind]. pose proof (updates_trans _ _ _ _ _ _ U1 U2) as U.
  assert (remove (describe sh o) name = describe sh2 (with_values o (<[i := Value undefined]> (props o)))) as -> by (unfold remove, describe, with_entries; cbn; now rewrite He, Ea).
  destruct (Z.leb_spec 8 (deleted_prop_count sh2)) as [H8|H8]; cbn [andb]; [destruct (prop_count sh2 / 2 <=? deleted_prop_count sh2)|].
  - destruct (compact_properties_spec s2 p (with_values o (<[i := Value undefined]> (props o))) sh2 (up_ok _ _ _ _ U)) as (r & s3 & E3 & U3).
    + subst s2. split_and!; [cbn; apply lookup_insert_eq | exact Hsh1 | done].
    + pose proof (so_count _ Sok2) as (_ & Hc & _). pose proof (so_deleted _ Sok2) as Hdel. fold sh2 in Hc, Hdel. lia.
    + rewrite E3. cbn [mbind option_bind]. eexists. split; [reflexivity|]. apply (updates_trans _ _ _ _ _ _ U U3).
  - eexists. split; [reflexivity | exact U].
  - eexists. split; [reflexivity | exact U].
Qed.

(** The entry at the index that a lookup returns. *)
Lemma entry_at s p o sh i pr :
  runtime_ok s -> objects s !! p = Some o -> shapes s !! shape o = Some sh -> prop sh !! i = Some pr -> atom pr <> JS_ATOM_NULL ->
  exists v, props o !! i = Some v /\ (atom pr, flags pr, v) ∈ entries (prop sh) (props o) /\ prop_flags s p i = Some (flags pr) /\ prop_value s p i = Some v.
Proof.
  intros R Ho Hsh Hi Hn. destruct (ro_objects _ R p o Ho) as (sh0 & Hsh0 & Hle). rewrite Hsh in Hsh0. injection Hsh0 as <-.
  destruct (ro_shapes _ R _ _ Hsh) as [Sok _]. pose proof (so_count _ Sok) as (_ & Hc & _). unfold prop_count in Hc.
  destruct (lookup_lt_is_Some_2 (props o) i) as [v Hv]; [apply lookup_lt_Some in Hi; lia|]. exists v. split; [done|]. split.
  - apply entries_elem. exists i, pr. split_and!; try done. now apply live_of_name.
  - unfold prop_flags, prop_value. rewrite Ho. cbn [mbind option_bind]. rewrite Hsh. cbn [mbind option_bind]. rewrite Hi. done.
Qed.

Lemma delete_property_spec s p d name :
  runtime_ok s -> contents s p = Some d -> name <> JS_ATOM_NULL ->
  exists r s', delete_property s p name = Some (r, s') /\
    ((r = OutOfMemory /\ mallocs s <> [] /\ updates s s' p d) \/
     (r = Done true /\ s' = s /\ name ∉ names d) \/
     (exists f v, (name, f, v) ∈ d_entries d /\
        if has f JS_PROP_CONFIGURABLE then r = Done true /\ updates s s' p (remove d name) else r = Done false /\ s' = s)).
Proof.
  intros R Hd Hname. destruct (contents_inv s p d R Hd) as (o & sh & Ho & Hsh & -> & Sok & Hle).
  unfold delete_property. rewrite Ho. cbn [mbind option_bind]. rewrite Hsh. cbn [mbind option_bind].
  destruct (walk_with_last_find sh name Sok Hname) as (first & r & Ef & Ew & Hr). rewrite Ef. cbn [mbind option_bind]. rewrite Ew. cbn [mbind option_bind].
  destruct r as [[i lpr]|].
  2: { do 2 eexists. split; [reflexivity|]. right. left. split_and!; [done | done|]. now rewrite names_describe. }
  destruct Hr as (pr & Hi & <- & _). destruct (entry_at s p o sh i pr R Ho Hsh Hi Hname) as (v & Hv & Hin & -> & _). cbn [mbind option_bind].
  destruct (has (flags pr) JS_PROP_CONFIGURABLE) eqn:Hc; cbn [negb].
  2: { do 2 eexists. split; [reflexivity|]. right. right. exists (flags pr), v. rewrite Hc. done. }
  destruct (prepare_update_spec s p o sh R Ho Hsh) as (r & s1 & -> & U & [[-> Hne]|(-> & o1 & sh1 & Hown & Eo & (L1 & L2 & L3 & L4 & L5))]); cbn [mbind option_bind Z.eqb negb].
  { do 2 eexists. split; [reflexivity|]. now left. }
  assert (shape_ok sh1) as Sok1 by apply (ro_shapes _ (up_ok _ _ _ _ U) _ _ (proj1 (proj2 Hown))).
  assert (prop_hash_mask sh = prop_hash_mask sh1) as Em by (unfold prop_hash_mask; now rewrite L2).
  destruct (walk_with_last_find sh1 (atom pr) Sok1 Hname) as (first1 & r1 & Ef1 & Ew1 & Hr1). rewrite <- Em, L2, Ef in Ef1. injection Ef1 as <-.
  rewrite L1, Ew in Ew1. injection Ew1 as <-. destruct Hr1 as (pr1 & Hi1 & Ea1 & Hun). assert (props o1 = props o) as Ep by now rewrite Eo.
  destruct (delete_own s1 p o1 sh1 (atom pr) _ i lpr (flags pr) v (up_ok _ _ _ _ U) Hown Hname Hun) as (s2 & E2 & U2); [eauto | now rewrite L1, Ep|].
  rewrite Em. rewrite E2. do 2 eexists. split; [reflexivity|]. right. right. exists (flags pr), v. split; [exact Hin|]. rewrite Hc. split; [done|].
  assert (describe sh o = describe sh1 o1) as Ed by (unfold describe; rewrite L1, L5, Ep; now rewrite Eo). rewrite Ed in *. apply (updates_trans _ _ _ _ _ _ U U2).
Qed.

(** *** Changing a property in place *)

Definition set_entry (d : dictionary) (name f : Z) (v : JSProperty) : dictionary :=
  with_entries d (map (update_entry name f v) (d_entries d)).

Lemma set_entry_twice d name f v f' v' : set_entry (set_entry d name f v) name f' v' = set_entry d name f' v'.
Proof.
  unfold set_entry, with_entries. cbn. f_equal. rewrite map_map. apply map_ext. intros [[n g] w]. unfold update_entry, entry_name. cbn.
  destruct (n =? name) eqn:E; cbn; [now rewrite Z.eqb_refl | now rewrite E].
Qed.

(** The property [name] of [p] is at the index [i], with flags [f] and value [v]. *)
Record located (s : JSRuntime) (p : Z) (d : dictionary) (name : Z) (i : nat) (f : Z) (v : JSProperty) : Prop := mk_located {
  lo_ok : runtime_ok s;
  lo_name : name <> JS_ATOM_NULL;
  lo_at : exists o sh pr, objects s !! p = Some o /\ shapes s !! shape o = Some sh /\ d = describe sh o /\
    prop sh !! i = Some pr /\ atom pr = name /\ flags pr = f /\ props o !! i = Some v;
}.

Definition owned (s : JSRuntime) (p : Z) : Prop := exists o sh, owns s p o sh.

Lemma located_flags s p d name i f v : located s p d name i f v -> prop_flags s p i = Some f.
Proof. intros [_ _ (o & sh & pr & Ho & Hsh & _ & Hi & _ & <- & _)]. unfold prop_flags. rewrite Ho. cbn. rewrite Hsh. cbn. now rewrite Hi. Qed.

Lemma located_value s p d name i f v : located s p d name i f v -> prop_value s p i = Some v.
Proof. intros [_ _ (o & sh & pr & Ho & _ & _ & _ & _ & _ & Hv)]. unfold prop_value. rewrite Ho. exact Hv. Qed.

Lemma located_contents s p d name i f v : located s p d name i f v -> contents s p = Some d.
Proof. intros [_ _ (o & sh & pr & Ho & Hsh & -> & _)]. now apply contents_Some. Qed.

Lemma located_ordinary s p d name i f v : located s p d name i f v -> ordinary_flags f.
Proof.
  intros [R _ (o & sh & pr & _ & Hsh & _ & Hi & _ & <- & _)]. destruct (ro_shapes _ R _ _ Hsh) as [Sok _].
  pose proof (so_flags _ Sok) as H. rewrite Forall_forall in H. apply H. now apply list_elem_of_lookup_2 in Hi.
Qed.

Lemma located_entry s p d name i f v : located s p d name i f v -> (name, f, v) ∈ d_entries d /\ NoDup (names d).
Proof.
  intros [R Hn (o & sh & pr & Ho & Hsh & -> & Hi & <- & <- & Hv)]. destruct (ro_shapes _ R _ _ Hsh) as [Sok _].
  destruct (ro_objects _ R p o Ho) as (sh0 & Hsh0 & Hle). rewrite Hsh in Hsh0. injection Hsh0 as <-. split.
  - cbn. apply entries_elem. exists i, pr. split_and!; try done. now apply live_of_name.
  - rewrite names_describe by done. apply Sok.
Qed.

Lemma update_same prop values i pr v :
  NoDup (live_names prop) -> prop !! i = Some pr -> atom pr <> JS_ATOM_NULL -> (i < length values)%nat ->
  entries prop (<[i := v]> values) = map (update_entry (atom pr) (flags pr) v) (entries prop values).
Proof. intros Hnd Hi Hn Hlt. rewrite <- (list_insert_id prop i pr Hi) at 1. apply entries_update; try done. now apply live_of_name. Qed.

Lemma write_value_located s p d name i f v v' :
  located s p d name i f v ->
  exists s', write_value s p i v' = Some s' /\ updates s s' p (set_entry d name f v') /\ located s' p (set_entry d name f v') name i f v' /\
    (owned s p -> owned s' p).
Proof.
  intros [R Hn (o & sh & pr & Ho & Hsh & -> & Hi & <- & <- & Hv)]. pose proof (lookup_lt_Some _ _ _ Hv) as Hlt. destruct (ro_shapes _ R _ _ Hsh) as [Sok _].
  destruct (write_value_updates s p o sh i v' R Ho Hsh Hlt) as (s' & E & Es & U). exists s'. split; [done|].
  assert (set_entry (describe sh o) (atom pr) (flags pr) v' = describe sh (with_values o (<[i := v']> (props o)))) as ->.
  { unfold set_entry, with_entries, describe. cbn. rewrite (update_same _ _ _ pr); [done | apply Sok | done | done | done]. }
  split; [exact U|]. subst s'. split.
  - split; [apply U | done|]. exists (with_values o (<[i := v']> (props o))), sh, pr. split_and!; try done; [cbn; apply lookup_insert_eq | cbn; now apply list_lookup_insert_eq].
  - intros (o2 & sh2 & Ho2 & Hsh2 & Hh). rewrite Ho in Ho2. injection Ho2 as <-. exists (with_values o (<[i := v']> (props o))), sh2.
    split_and!; [cbn; apply lookup_insert_eq | exact Hsh2 | done].
Qed.

Lemma write_flags_located s p d name i f v f' :
  located s p d name i f v -> owned s p -> ordinary_flags f' ->
  exists s', write_flags s p i f' = Some s' /\ updates s s' p (set_entry d name f' v) /\ located s' p (set_entry d name f' v) name i f' v /\ owned s' p.
Proof.
  intros [R Hn (o & sh & pr & Ho & Hsh & -> & Hi & <- & <- & Hv)] (o1 & sh1 & Hown) Hf. pose proof Hown as (Ho1 & Hsh1 & _).
  rewrite Ho in Ho1. injection Ho1 as <-. rewrite Hsh in Hsh1. injection Hsh1 as <-. destruct (ro_shapes _ R _ _ Hsh) as [Sok _].
  destruct (write_flags_updates s p o sh i pr f' R Hown Hi Hf) as (s' & sh2 & E & U & O & E2). exists s'. split; [done|].
  assert (set_entry (describe sh o) (atom pr) f' v = describe sh2 o) as ->.
  { unfold set_entry, with_entries, describe. rewrite E2. cbn. f_equal. rewrite <- (list_insert_id (props o) i v Hv) at 2.
    pose proof (lookup_lt_Some _ _ _ Hv) as Hlt.
    rewrite (entries_update _ _ i pr (mk_prs (hash_next pr) f' (atom pr)) v); [done | apply Sok | done | now apply live_of_name | done | done]. }
  split; [exact U|]. split; [|now exists o, sh2]. destruct O as (O1 & O2 & O3). split; [apply U | done|]. exists o, sh2, (mk_prs (hash_next pr) f' (atom pr)). split_and!; try done.
  rewrite E2. cbn. apply list_lookup_insert_eq. now apply lookup_lt_Some in Hi.
Qed.

Lemma prepare_located s p d name i f v :
  located s p d name i f v ->
  exists r s', js_shape_prepare_update s p = Some (r, s') /\ updates s s' p d /\
    ((r = -1 /\ mallocs s <> []) \/ (r = 0 /\ located s' p d name i f v /\ owned s' p)).
Proof.
  intros [R Hn (o & sh & pr & Ho & Hsh & -> & Hi & <- & <- & Hv)].
  destruct (prepare_update_spec s p o sh R Ho Hsh) as (r & s' & E & U & H). exists r, s'. split_and!; [done | done|].
  destruct H as [H|(-> & o1 & sh1 & O & Eo & (L1 & L2 & L3 & L4 & L5))]; [now left | right]. pose proof O as (O1 & O2 & _). split_and!; [done | | now exists o1, sh1].
  assert (props o1 = props o) as Ep by now rewrite Eo.
  split; [apply U | done|]. exists o1, sh1, pr. rewrite L1, Ep. split_and!; try done. unfold describe. rewrite L1, L5, Ep. now rewrite Eo.
Qed.

Lemma entry_unique l e e' : NoDup (map entry_name l) -> e ∈ l -> e' ∈ l -> entry_name e = entry_name e' -> e = e'.
Proof.
  induction l as [|x l IH]; intros Hnd He He' E; [now apply elem_of_nil in He|]. cbn in Hnd. apply NoDup_cons in Hnd as [Hx Hnd].
  assert (forall y, y ∈ l -> entry_name y <> entry_name x) as Hne.
  { intros y Hy Ey. apply Hx. rewrite <- Ey. apply list_elem_of_In, in_map. now apply list_elem_of_In. }
  apply elem_of_cons in He as [->|He]; apply elem_of_cons in He' as [->|He']; [done | | |auto]; exfalso; eapply Hne; eauto.
Qed.

Lemma set_entry_id s p d name i f v : located s p d name i f v -> set_entry d name f v = d.
Proof.
  intros L. destruct (located_entry _ _ _ _ _ _ _ L) as [Hin Hnd]. unfold set_entry, with_entries. destruct d as [d1 d2 d3 d4 l]. cbn in *. f_equal.
  rewrite <- (map_id l) at 2. apply map_ext_in. intros [[n g] w] Hi. unfold update_entry, entry_name. cbn. destruct (Z.eqb_spec n name) as [->|]; [|done].
  apply list_elem_of_In in Hi. exact (entry_unique l (name, f, v) (name, g, w) Hnd Hin Hi eq_refl).
Qed.

(** [js_update_property_flags] *)
Lemma update_flags_located s p d name i f v f' :
  located s p d name i f v -> ordinary_flags f' ->
  exists r s', js_update_property_flags s p i f' = Some (r, s') /\
    ((r = -1 /\ mallocs s <> [] /\ updates s s' p d) \/
     (r = 0 /\ updates s s' p (set_entry d name f' v) /\ located s' p (set_entry d name f' v) name i f' v)).
Proof.
  intros L Hf. unfold js_update_property_flags. rewrite (located_flags _ _ _ _ _ _ _ L). cbn [mbind option_bind]. destruct (Z.eqb_spec f' f) as [->|Hne]; cbn [negb].
  - exists 0, s. split; [done|]. right. rewrite (set_entry_id s p d name i f v L). split_and!; [done | apply updates_refl; [apply L | apply (located_contents _ _ _ _ _ _ _ L)] | done].
  - destruct (prepare_located _ _ _ _ _ _ _ L) as (r & s1 & -> & U & [[-> Hm]|(-> & L1 & O1)]); cbn [mbind option_bind Z.eqb negb].
    + exists (-1), s1. split; [done | now left].
    + destruct (write_flags_located _ _ _ _ _ _ _ f' L1 O1 Hf) as (s2 & -> & U2 & L2 & _). cbn [mbind option_bind]. exists 0, s2. split; [done|]. right.
      split_and!; [done | apply (updates_trans _ _ _ _ _ _ U U2) | done].
Qed.

(** [find_own_property] *)
Lemma find_own_spec s p d name :
  runtime_ok s -> contents s p = Some d -> name <> JS_ATOM_NULL ->
  exists r, find_own_property s p name = Some r /\
    match r with Some i => exists f v, located s p d name i f v | None => name ∉ names d end.
Proof.
  intros R Hd Hn. destruct (contents_inv s p d R Hd) as (o & sh & Ho & Hsh & -> & Sok & Hle). unfold find_own_property. rewrite Ho. cbn [mbind option_bind].
  rewrite Hsh. cbn [mbind option_bind]. destruct (find_in_shape_spec sh name Sok Hn) as (r & -> & Hr). exists r. split; [done|]. destruct r as [i|]; [|now rewrite names_describe].
  destruct Hr as (pr & Hi & E). destruct (lookup_lt_is_Some_2 (props o) i) as [v Hv].
  { apply lookup_lt_Some in Hi. pose proof (so_count _ Sok). unfold prop_count in *. lia. }
  exists (flags pr), v. split; [done | done|]. exists o, sh, pr. done.
Qed.
