(* ===== verification/ObjectsNew.v ===== *)
(** * Making objects

    The creation of shapes and objects keeps the invariant of [ObjectsInv]: a
    shape just made or found is a reference that a context holds until an object
    takes it, and a new object has no property and changes no other. *)

From Stdlib Require Import ZArith Lia Bool.
From stdpp Require Import base numbers list option gmap.
From S2P Require Import Prelude Limbs BigInt Numeric Shapes Objects ShapesInv ObjectsInv.

#[local] Open Scope Z_scope.

(** ** Growing the table of the hashed shapes *)

Lemma empty_hash_table bits : 4 <= bits <= 31 -> hash_table_ok bits (replicate (Z.to_nat (2 ^ bits)) []) ∅.
Proof.
  intros Hb. split; [done | |].
  - rewrite length_replicate. pose proof (Z.pow_pos_nonneg 2 bits). lia.
  - intros h l Hl. apply lookup_replicate in Hl as [-> _]. split; [constructor|]. intros a. split; [intros []%elem_of_nil|].
    intros (sh & Ha & _). now rewrite lookup_empty in Ha.
Qed.

Lemma link_all_spec bits m todo : forall table m0,
  hash_table_ok bits table m0 -> NoDup todo ->
  (forall a, a ∈ todo -> m0 !! a = None /\ exists sh, m !! a = Some sh /\ is_hashed sh = true /\ hash_in_range sh) ->
  exists table' m', link_all bits m table todo = Some table' /\ hash_table_ok bits table' m' /\
    forall a, m' !! a = if decide (a ∈ todo) then m !! a else m0 !! a.
Proof.
  induction todo as [|a todo IH]; intros table m0 Ht Hnd Hin.
  - exists table, m0. split_and!; [done | done|]. intros a. destruct (decide (a ∈ [])) as [H|]; [now apply elem_of_nil in H | done].
  - apply NoDup_cons in Hnd as [Ha Hnd]. destruct (Hin a (list_elem_of_here _ _)) as (Hfresh & sh & Hsh & Hh & Hr).
    destruct (link_table _ _ _ a sh Ht Hfresh Hh Hr) as (l & Hl & Ht1). cbn [link_all]. unfold link_in. rewrite Hsh. cbn [mbind option_bind].
    fold (shape_index bits sh). rewrite Hl. cbn [mbind option_bind].
    destruct (IH _ _ Ht1 Hnd) as (table' & m' & -> & Ht' & Hm').
    { intros b Hb. destruct (Hin b (list_elem_of_further _ _ _ Hb)) as (Hfb & Hsb). split; [|done]. rewrite lookup_insert_ne; [done|]. intros ->. done. }
    exists table', m'. split_and!; [done | done|]. intros b. rewrite Hm'. destruct (decide (b = a)) as [->|Hne].
    + rewrite decide_False by done. rewrite decide_True by apply list_elem_of_here. now rewrite lookup_insert_eq.
    + rewrite lookup_insert_ne by done. destruct (decide (b ∈ todo)) as [Hb|Hb].
      * rewrite decide_True; [done | now apply list_elem_of_further].
      * rewrite decide_False; [done|]. rewrite elem_of_cons. tauto.
Qed.

Lemma NoDup_buckets (idx : Z -> nat) (t : list (list Z)) : forall off,
  (forall h l, t !! h = Some l -> NoDup l /\ forall a, a ∈ l -> idx a = (off + h)%nat) -> NoDup (concat t) /\ forall a, a ∈ concat t -> (off <= idx a)%nat.
Proof.
  induction t as [|l t IH]; intros off H; [split; [constructor | intros a []%elem_of_nil]|]. destruct (H 0%nat l eq_refl) as [Hl Hil].
  destruct (IH (S off)) as [Hnd Hle]; [intros h x Hx; destruct (H (S h) x Hx) as [? Hx2]; split; [done|]; intros a Ha; rewrite (Hx2 a Ha); lia|].
  cbn. split.
  - apply NoDup_app. split_and!; [done | | done]. intros a Ha Ha2. specialize (Hle a Ha2). rewrite (Hil a Ha) in Hle. lia.
  - intros a Ha. apply elem_of_app in Ha as [Ha|Ha]; [rewrite (Hil a Ha); lia | specialize (Hle a Ha); lia].
Qed.

Lemma table_elements bits table m a : hash_table_ok bits table m -> (forall a sh, m !! a = Some sh -> hash_in_range sh) ->
  a ∈ concat table <-> exists sh, m !! a = Some sh /\ is_hashed sh = true.
Proof.
  intros Ht Hr. rewrite list_elem_of_In, in_concat. split.
  - intros (l & Hl & Ha). apply list_elem_of_In, list_elem_of_lookup_1 in Hl as [h Hl]. apply list_elem_of_In in Ha.
    destruct (ht_chains _ _ _ Ht _ _ Hl) as [_ Hin]. apply Hin in Ha as (sh & Hsh & Hh & _). eauto.
  - intros (sh & Hsh & Hh). pose proof (shape_index_lt _ _ _ sh Ht (Hr _ _ Hsh)) as Hi. destruct (lookup_lt_is_Some_2 _ _ Hi) as [l Hl].
    exists l. split; [apply list_elem_of_In; now apply list_elem_of_lookup_2 in Hl|]. apply list_elem_of_In. destruct (ht_chains _ _ _ Ht _ _ Hl) as [_ Hin].
    apply Hin. eauto.
Qed.

Lemma table_NoDup bits table m : hash_table_ok bits table m -> NoDup (concat table).
Proof.
  intros Ht. refine (proj1 (NoDup_buckets (fun a => match m !! a with Some sh => shape_index bits sh | None => 0%nat end) table 0 _)). intros h l Hl.
  destruct (ht_chains _ _ _ Ht _ _ Hl) as [Hnd Hin]. split; [done|]. intros a Ha. apply Hin in Ha as (sh & -> & _ & <-). done.
Qed.

(** A state that differs in the table and the allocator only. *)
Record retabled (s s' : JSRuntime) : Prop := mk_retabled {
  rt_ok : runtime_ok s';
  rt_shapes : shapes s' = shapes s;
  rt_objects : objects s' = objects s;
  rt_context : context_shapes s' = context_shapes s;
  rt_next : next_address s <= next_address s';
  rt_mallocs : mallocs s = [] -> mallocs s' = [];
  rt_strict : strict_mode s' = strict_mode s;
}.

Lemma retabled_refl s : runtime_ok s -> retabled s s.
Proof. intros R. split; done. Qed.

Lemma retabled_allocator s n answers : runtime_ok s -> next_address s <= n -> (mallocs s = [] -> answers = []) -> retabled s (with_allocator s n answers).
Proof. intros R Hn Hm. split; try done. now apply allocator_ok. Qed.

Lemma resize_shape_hash_spec s :
  runtime_ok s -> shape_hash_bits s < 31 ->
  exists r s', resize_shape_hash s (shape_hash_bits s + 1) = Some (r, s') /\ retabled s s'.
Proof.
  intros R Hb. pose proof (ro_table _ R) as Ht. pose proof (ht_bits _ _ _ Ht) as Hbits. unfold resize_shape_hash.
  destruct (js_malloc_spec s) as (answers & Hm & [[-> _]| ->]).
  { do 2 eexists. split; [reflexivity|]. now apply retabled_allocator. }
  cbn [shapes with_allocator shape_hash_table shape_hash_count]. rewrite Z.shiftl_1_l.
  destruct (link_all_spec (shape_hash_bits s + 1) (shapes s) (concat (shape_hash_table s)) (replicate (Z.to_nat (2 ^ (shape_hash_bits s + 1))) []) ∅) as (t & m & -> & Ht' & Hm').
  - apply empty_hash_table. lia.
  - apply (table_NoDup _ _ _ Ht).
  - intros a Ha. split; [apply lookup_empty|]. apply (table_elements _ _ _ a Ht) in Ha as (sh & Hsh & Hh); [|intros b shb Hs; apply (ro_shapes _ R _ _ Hs)].
    exists sh. split_and!; [done | done | apply (ro_shapes _ R _ _ Hsh)].
  - cbn [mbind option_bind]. do 2 eexists. split; [reflexivity|]. pose proof (allocator_ok s (next_address s + 1) answers R ltac:(lia)) as [R1 R2 R3 R4 R5 R6 R7].
    assert (forall a sh, is_hashed sh = true -> shapes s !! a = Some sh <-> (is_hashed sh = true /\ m !! a = Some sh)) as Hiff.
    { intros a sh Hh. rewrite Hm'. destruct (decide (a ∈ concat (shape_hash_table s))) as [Ha|Ha]; [tauto|]. rewrite lookup_empty. split; [|now intros []].
      intros Hs. exfalso. apply Ha. apply (table_elements _ _ _ a Ht); [intros b shb Hsb; apply (ro_shapes _ R _ _ Hsb) | eauto]. }
    split; try done; [split; try done | cbn; lia].
    apply (hash_table_ext _ _ m); [exact Ht' | |]; intros a sh Hh Ha; exists sh; split_and!; try done; [apply Hiff; [done|]; done | now apply Hiff in Ha].
Qed.

(** ** A shape that a context holds *)

Definition with_context (s : JSRuntime) (l : list Z) : JSRuntime :=
  mk_runtime (shape_hash_bits s) (shape_hash_table s) (shape_hash_count s) (shapes s) (objects s) l (next_address s) (mallocs s) (strict_mode s).

Lemma users_cons m context a b : users m (a :: context) b = occurs a b + users m context b.
Proof. unfold users, occurs. cbn. rewrite Z.eqb_sym. destruct (Z.eqb_spec a b); cbn; lia. Qed.

(** The state [s'] holds one more reference than [s], to the shape [sh] at [a],
    which has no property. *)
Record holds (s s' : JSRuntime) (a : Z) (sh : JSShape) : Prop := mk_holds {
  hd_ok : runtime_ok (with_context s' (a :: context_shapes s'));
  hd_shape : shapes s' !! a = Some sh;
  hd_empty : prop sh = [];
  hd_context : context_shapes s' = context_shapes s;
  hd_objects : objects s' = objects s;
  hd_contents : forall q, contents s' q = contents s q;
  hd_next : next_address s <= next_address s';
  hd_mallocs : mallocs s = [] -> mallocs s' = [];
  hd_strict : strict_mode s' = strict_mode s;
}.

(** Nothing is observed of a step but the allocations. *)
Record quiet (s s' : JSRuntime) : Prop := mk_quiet {
  qt_ok : runtime_ok s';
  qt_objects : objects s' = objects s;
  qt_contents : forall q, contents s' q = contents s q;
  qt_next : next_address s <= next_address s';
  qt_mallocs : mallocs s = [] -> mallocs s' = [];
  qt_strict : strict_mode s' = strict_mode s;
}.

Lemma retabled_quiet s s' : retabled s s' -> quiet s s'.
Proof. intros [R1 R2 R3 R4 R5 R6 R7]. split; try done. intros q. unfold contents. now rewrite R2, R3. Qed.

Lemma contents_ext s s' q :
  objects s' = objects s -> (forall o sh, objects s !! q = Some o -> shapes s !! shape o = Some sh -> exists sh', shapes s' !! shape o = Some sh' /\ same_but_count sh sh') ->
  (forall o, objects s !! q = Some o -> is_Some (shapes s !! shape o)) -> contents s' q = contents s q.
Proof.
  intros E H Hs. unfold contents. rewrite E. destruct (objects s !! q) as [o|] eqn:Ho; cbn; [|done]. destruct (Hs o eq_refl) as [sh Hsh].
  destruct (H o sh eq_refl Hsh) as (sh' & -> & ->). now rewrite Hsh.
Qed.

Lemma object_shape s p o : runtime_ok s -> objects s !! p = Some o -> is_Some (shapes s !! shape o).
Proof. intros R Ho. destruct (ro_objects _ R p o Ho) as (sh & Hsh & _). eauto. Qed.

(** Allocating a shape. *)
Lemma fresh_holds s sh t count answers :
  runtime_ok s -> shape_ok sh -> hash_in_range sh -> ref_count sh = 1 -> prop sh = [] -> (mallocs s = [] -> answers = []) ->
  hash_table_ok (shape_hash_bits s) t (<[next_address s := sh]> (shapes s)) ->
  holds s (with_table (set_shape (with_allocator s (next_address s + 1) answers) (next_address s) sh) (shape_hash_bits s) t count) (next_address s) sh.
Proof.
  intros R Sok Hr Hc He Hm Ht. set (a := next_address s). destruct (ro_fresh _ R a ltac:(unfold a; lia)) as [Hfs Hfo].
  assert (forall p o, objects s !! p = Some o -> shape o <> a) as Hne by (intros p o Ho; pose proof (shape_in_use s p o R Ho); unfold a; lia).
  assert (a ∉ context_shapes s) as Hnc by (intros Hin; destruct (ro_context _ R _ Hin); congruence).
  split; cbn; try done. all: [> | apply lookup_insert_eq | | lia].
  - split; cbn.
    + intros b shb Hb. apply lookup_insert_Some in Hb as [[_ <-]|[_ Hb]]; [done | apply (ro_shapes _ R _ _ Hb)].
    + intros b Hb. rewrite lookup_insert_ne by lia. apply (ro_fresh _ R). lia.
    + intros p o Ho. destruct (ro_objects _ R p o Ho) as (shb & Hsb & Hle). exists shb. rewrite lookup_insert_ne; [done|]. specialize (Hne p o Ho). congruence.
    + intros b Hb. apply elem_of_cons in Hb as [->|Hb]; [rewrite lookup_insert_eq; eauto|]. rewrite lookup_insert_ne by congruence. now apply (ro_context _ R).
    + intros b shb Hb. rewrite users_cons. apply lookup_insert_Some in Hb as [[<- <-]|[Hn Hb]].
      * rewrite occurs_same, users_none by done. lia.
      * rewrite occurs_ne by congruence. destruct (ro_counts _ R _ _ Hb). lia.
    + intros b shb Hb Hh. apply lookup_insert_Some in Hb as [[_ <-]|[_ Hb]]; [done | apply (ro_private _ R _ _ Hb Hh)].
    + done.
  - intros q. apply contents_ext; [done | | intros o; now apply (object_shape s q)].
    intros o shq Ho Hq. exists shq. cbn. rewrite lookup_insert_ne by (specialize (Hne q o Ho); congruence). split; [done|]. unfold same_but_count. now destruct shq.
Qed.

Lemma holds_after s s1 s' a sh : quiet s s1 -> context_shapes s1 = context_shapes s -> holds s1 s' a sh -> holds s s' a sh.
Proof.
  intros [Q1 Q2 Q3 Q4 Q5 Q6] Ec [H1 H2 H3 H4 H5 H6 H7 H8 H9]. constructor; [exact H1 | exact H2 | exact H3 | congruence | congruence | intros q; now rewrite H6, Q3 | lia | auto | congruence].
Qed.

Lemma new_shape_ok hash_size size b h proto0 : pow2_size (Z.to_nat hash_size) -> 1 <= size <= 2 ^ 27 ->
  shape_ok (mk_shape 1 b h (replicate (Z.to_nat hash_size) 0) size 0 proto0 []).
Proof.
  intros Hp Hs. split; cbn; [now rewrite length_replicate | apply empty_table_ok | constructor | constructor | | done].
  unfold prop_count, MAX_PROPS. cbn. lia.
Qed.

(** [js_new_shape_nohash] *)
Lemma new_shape_nohash_spec s proto0 hash_size size :
  runtime_ok s -> pow2_size (Z.to_nat hash_size) -> 1 <= size <= 2 ^ 27 ->
  exists r s', js_new_shape_nohash s proto0 hash_size size = (r, s') /\
    match r with
    | None => mallocs s <> [] /\ quiet s s'
    | Some a => exists sh, holds s s' a sh /\ proto sh = proto0
    end.
Proof.
  intros R Hp Hs. unfold js_new_shape_nohash. destruct (js_malloc_spec s) as (answers & Hm & [[-> Hne]| ->]); do 2 eexists; (split; [reflexivity|]).
  - split; [done|]. apply retabled_quiet. apply retabled_allocator; [done | lia | done].
  - set (sh := mk_shape 1 false 0 (replicate (Z.to_nat hash_size) 0) size 0 proto0 []). exists sh. split; [|done].
    refine (fresh_holds s sh (shape_hash_table s) (shape_hash_count s) answers R (new_shape_ok _ _ _ _ _ Hp Hs) _ eq_refl eq_refl Hm _).
    + unfold hash_in_range. cbn. lia.
    + apply hash_table_unhashed; [apply R | done|]. intros old Hold. destruct (ro_fresh _ R (next_address s)); [lia | congruence].
Qed.

Lemma shape_initial_hash_range proto0 : 0 <= shape_initial_hash proto0 < 2 ^ 32.
Proof. apply shape_hash_range. Qed.

(** [js_new_shape2]: the table of the shapes may grow. *)
Lemma new_shape_spec s proto0 :
  runtime_ok s -> shape_hash_bits s < 31 ->
  exists r s', js_new_shape s proto0 = Some (r, s') /\
    match r with
    | None => mallocs s <> [] /\ quiet s s'
    | Some a => exists sh, holds s s' a sh /\ proto sh = proto0
    end.
Proof.
  intros R Hb. unfold js_new_shape, js_new_shape2.
  assert (exists s1, (if Z.of_nat (length (shape_hash_table s)) <? 2 * (shape_hash_count s + 1)
       then '(_, s) ← resize_shape_hash s (shape_hash_bits s + 1); Some s else Some s) = Some s1 /\ retabled s s1) as (s1 & -> & T).
  { destruct (_ <? _); [|exists s; split; [done | now apply retabled_refl]]. destruct (resize_shape_hash_spec s R Hb) as (r & s1 & -> & T). exists s1. done. }
  pose proof (retabled_quiet _ _ T) as Q. cbn [mbind option_bind]. unfold js_new_shape_nohash.
  pose proof (rt_ok _ _ T) as R1.
  destruct (js_malloc_spec s1) as (answers & Hm & [[-> Hne]| ->]).
  { do 2 eexists. split; [reflexivity|]. split; [intros E; apply Hne, (rt_mallocs _ _ T), E|]. pose proof T as [T1 T2 T3 T4 T5 T6 T7].
    apply retabled_quiet. split; cbn; try done; [apply allocator_ok; [done | lia] | intros E; auto]. }
  cbn [shapes set_shape with_shapes with_allocator]. rewrite lookup_insert_eq. cbn [mbind option_bind].
  set (a := next_address s1). set (sh := mk_shape 1 true (shape_initial_hash proto0) (replicate (Z.to_nat JS_PROP_INITIAL_HASH_SIZE) 0) JS_PROP_INITIAL_SIZE 0 proto0 []).
  unfold with_hashed. cbn [ref_count prop_hash prop_size deleted_prop_count proto prop]. fold sh. unfold set_shape, with_shapes. cbn [shapes shape_hash_bits shape_hash_table shape_hash_count objects
    context_shapes next_address mallocs strict_mode with_allocator]. rewrite insert_insert_eq.
  set (s2 := mk_runtime _ _ _ _ _ _ _ _ _).
  assert (shapes s1 !! a = None) as Hfa by (apply (ro_fresh _ R1); unfold a; lia).
  destruct (link_spec s2 a sh) as (t & -> & Ht).
  - cbn. rewrite delete_insert_id by done. apply R1.
  - cbn. apply lookup_insert_eq.
  - done.
  - apply shape_initial_hash_range.
  - cbn [mbind option_bind]. do 2 eexists. split; [reflexivity|]. exists sh. split; [|done]. apply (holds_after s s1); [done | apply (rt_context _ _ T)|].
    refine (fresh_holds s1 sh t (shape_hash_count s1 + 1) answers R1 (new_shape_ok _ _ _ _ _ _ _) _ eq_refl eq_refl Hm Ht).
    + exists 2. done.
    + done.
    + apply shape_initial_hash_range.
Qed.

(** [js_dup_shape] of a shape of the table. *)
Lemma dup_holds s a sh :
  runtime_ok s -> shapes s !! a = Some sh -> is_hashed sh = true -> prop sh = [] ->
  exists s', js_dup_shape s a = Some s' /\ holds s s' a (with_ref_count sh (ref_count sh + 1)).
Proof.
  intros R Ha Hh He. unfold js_dup_shape. rewrite Ha. cbn [mbind option_bind]. eexists. split; [reflexivity|].
  destruct (ro_shapes _ R _ _ Ha) as [Sok Hr]. destruct (ro_counts _ R _ _ Ha) as [Ec Ep]. pose proof R as [R1 R2 R3 R4 R5 R6 R7].
  assert (forall b shb, b <> a -> <[a := with_ref_count sh (ref_count sh + 1)]> (shapes s) !! b = Some shb -> shapes s !! b = Some shb) as Hother
    by (intros b shb Hne Hb; now rewrite lookup_insert_ne in Hb by done).
  constructor; cbn; try done; [| apply lookup_insert_eq |].
  - constructor; cbn.
    + intros b shb Hb. destruct (decide (b = a)) as [->|Hne]; [rewrite lookup_insert_eq in Hb; injection Hb as <-; split; [destruct Sok; split|]; done | apply R1 with b; now apply Hother].
    + intros b Hb. destruct (decide (b = a)) as [->|Hne]; [destruct (R2 a Hb); congruence|]. rewrite lookup_insert_ne by done. now apply R2.
    + intros p o Ho. destruct (R3 p o Ho) as (shb & Hb & Hle). destruct (decide (shape o = a)) as [E|Hne]; [|exists shb; now rewrite lookup_insert_ne].
      rewrite E, Ha in Hb. injection Hb as <-. rewrite E, lookup_insert_eq. eauto.
    + intros b Hb. destruct (decide (b = a)) as [->|Hne]; [rewrite lookup_insert_eq; eauto|]. rewrite lookup_insert_ne by done.
      apply elem_of_cons in Hb as [->|Hb]; [done | now apply R4].
    + intros b shb Hb. rewrite users_cons. destruct (decide (b = a)) as [->|Hne].
      * rewrite lookup_insert_eq in Hb. injection Hb as <-. rewrite occurs_same. cbn. lia.
      * rewrite occurs_ne by done. destruct (R5 b shb (Hother _ _ Hne Hb)). lia.
    + intros b shb Hb Hhb. destruct (decide (b = a)) as [->|Hne]; [rewrite lookup_insert_eq in Hb; injection Hb as <-; cbn in Hhb; congruence | apply (R6 b); auto].
    + apply (hash_table_same _ _ _ _ sh); done.
  - intros q. apply contents_ext; [done | | intros o; now apply (object_shape s q)]. intros o shq Ho Hq. destruct (decide (shape o = a)) as [E|Hne].
    + rewrite E, Ha in Hq. injection Hq as <-. rewrite E. exists (with_ref_count sh (ref_count sh + 1)). cbn. rewrite lookup_insert_eq. done.
    + exists shq. cbn. rewrite lookup_insert_ne by done. split; [done|]. unfold same_but_count. now destruct shq.
Qed.

(** [js_free_shape] of a reference that is held. *)
Lemma free_holds s a sh :
  runtime_ok (with_context s (a :: context_shapes s)) -> shapes s !! a = Some sh -> exists s', js_free_shape s a = Some s' /\ quiet s s'.
Proof.
  intros R Ha. destruct (ro_counts _ R a sh Ha) as [Ec Ep]. destruct (ro_shapes _ R a sh Ha) as [Sok Hr]. cbn in Ec. rewrite users_cons, occurs_same in Ec.
  assert (exists t count m, js_free_shape s a = Some (with_table (with_shapes s m) (shape_hash_bits s) t count) /\ hash_table_ok (shape_hash_bits s) t m /\
    (forall c, c <> a -> m !! c = shapes s !! c) /\ m !! a = if ref_count sh =? 1 then None else Some (with_ref_count sh (ref_count sh - 1))) as (t & count & m & -> & Ht & Hm & Hma).
  { destruct (is_hashed sh) eqn:Hh; [exact (free_hashed s a sh (ro_table _ R) Ha Hh Hr Ep)|]. pose proof (ro_private _ R a sh Ha Hh) as E1.
    unfold js_free_shape, js_free_shape0. rewrite Ha. cbn [mbind option_bind]. rewrite E1. cbn [Z.leb Z.sub Z.add Z.opp Z.pos_sub Z.compare]. cbn [shapes set_shape with_shapes].
    rewrite lookup_insert_eq. cbn [mbind option_bind ref_count with_ref_count is_hashed Z.eqb negb]. rewrite Hh. cbn [mbind option_bind].
    exists (shape_hash_table s), (shape_hash_count s), (delete a (<[a := with_ref_count sh (1 - 1)]> (shapes s))). split; [reflexivity|]. split_and!.
    - rewrite delete_insert_eq. apply (hash_table_ext _ _ (shapes s)); [apply (ro_table _ R) | |].
      + intros b shb Hhb Hb. exists shb. rewrite lookup_delete_ne; [done|]. intros <-. congruence.
      + intros b shb Hhb Hb. apply lookup_delete_Some in Hb as [_ Hb]. eauto.
    - intros c Hc. rewrite lookup_delete_ne, lookup_insert_ne by done. done.
    - apply lookup_delete_eq. }
  eexists. split; [reflexivity|]. pose proof R as [R1 R2 R3 R4 R5 R6 R7]. cbn in R2, R3, R4, R5.
  assert (forall b, b <> a -> forall shb, shapes s !! b = Some shb -> m !! b = Some shb) as Hf by (intros b Hne shb; now rewrite Hm).
  assert (forall b shb, m !! b = Some shb -> exists old, shapes s !! b = Some old /\ same_but_count old shb /\ ref_count shb = ref_count old - occurs a b /\ (b = a -> ref_count sh <> 1)) as Hb.
  { intros b shb Hb. destruct (decide (b = a)) as [->|Hne].
    - rewrite Hma in Hb. destruct (Z.eqb_spec (ref_count sh) 1); [done|]. injection Hb as <-. exists sh. rewrite occurs_same. done.
    - rewrite Hm in Hb by done. exists shb. rewrite occurs_ne by congruence. split_and!; [done | unfold same_but_count; now destruct shb | lia | congruence]. }
  assert (forall b, (1 <= users (objects s) (context_shapes s) b) -> is_Some (shapes s !! b) -> exists old shb, shapes s !! b = Some old /\ m !! b = Some shb /\ same_but_count old shb) as Hkeep.
  { intros b Hu [old Hold]. destruct (decide (b = a)) as [->|Hne].
    - rewrite Ha in Hold. injection Hold as <-. exists sh. rewrite Hma. destruct (Z.eqb_spec (ref_count sh) 1); [lia|]. eexists. split; [done|]. split; [reflexivity|]. done.
    - exists old, old. rewrite Hm by done. split_and!; [done | done|]. unfold same_but_count. now destruct old. }
  constructor; cbn; try done.
  - constructor; cbn.
    + intros b shb Hsb. destruct (Hb b shb Hsb) as (old & Hold & -> & _). destruct (R1 b old Hold) as [[] Hrb]. split; [split; done | done].
    + intros b Hsb. destruct (R2 b Hsb) as [Hn Ho]. split; [|done]. destruct (m !! b) as [shb|] eqn:E; [|done]. destruct (Hb b shb E) as (old & Hold & _). congruence.
    + intros p o Ho. destruct (R3 p o Ho) as (shb & Hsb & Hle).
      destruct (Hkeep (shape o) (users_object _ _ p o Ho) ltac:(eauto)) as (old & sh' & Hold & Hs' & E). rewrite Hsb in Hold. injection Hold as <-.
      exists sh'. rewrite E. split; [now rewrite <- E | done].
    + intros b Hin. destruct (R4 b) as [shb Hsb]; [now apply list_elem_of_further|]. destruct (Hkeep b) as (old & sh' & _ & Hs' & _); [|eauto | eauto].
      unfold users. assert (b ∈ List.filter (Z.eqb b) (context_shapes s)) as Hin2 by (apply list_elem_of_In, List.filter_In; split; [now apply list_elem_of_In | apply Z.eqb_refl]).
      destruct (List.filter _ (context_shapes s)); [now apply elem_of_nil in Hin2 | cbn; lia].
    + intros b shb Hsb. destruct (Hb b shb Hsb) as (old & Hold & _ & E & Hne1). destruct (R5 b old Hold) as [E2 E3]. rewrite users_cons in E2. split; [lia|].
      destruct (decide (b = a)) as [->|Hne]; [rewrite Ha in Hold; injection Hold as <-; rewrite occurs_same in E; specialize (Hne1 eq_refl); lia|].
      rewrite occurs_ne in E by congruence. lia.
    + intros b shb Hsb Hh. destruct (Hb b shb Hsb) as (old & Hold & Es & E & Hne1). assert (is_hashed old = false) as Hho by now rewrite Es in Hh.
      pose proof (R6 b old Hold Hho). destruct (decide (b = a)) as [->|Hne]; [rewrite Ha in Hold; injection Hold as <-; now specialize (Hne1 eq_refl)|].
      rewrite occurs_ne in E by congruence. lia.
    + done.
  - intros q. apply contents_ext; [done | | intros o Ho; destruct (R3 q o Ho) as (x & Hx & _); eauto]. intros o shq Ho Hq.
    destruct (Hkeep (shape o) (users_object _ _ q o Ho) ltac:(eauto)) as (old & sh' & Hold & Hs' & E). rewrite Hq in Hold. injection Hold as <-. exists sh'. done.
Qed.

(** ** The object *)

(** The object [p] is new and is [d]; the others stay. *)
Record creates (s s' : JSRuntime) (p : Z) (d : dictionary) : Prop := mk_creates {
  cr_ok : runtime_ok s';
  cr_fresh : contents s p = None;
  cr_contents : forall q, contents s' q = if decide (q = p) then Some d else contents s q;
  cr_mallocs : mallocs s = [] -> mallocs s' = [];
  cr_strict : strict_mode s' = strict_mode s;
}.

Definition empty_dictionary (proto0 : option Z) (callable : bool) : dictionary := mk_dictionary proto0 true false callable [].

(** The object takes the reference over. *)
Lemma take_reference s a sh p o :
  runtime_ok (with_context s (a :: context_shapes s)) -> shapes s !! a = Some sh -> objects s !! p = None -> p < next_address s -> shape o = a ->
  prop_size sh <= Z.of_nat (length (props o)) -> runtime_ok (set_object s p o).
Proof.
  intros [R1 R2 R3 R4 R5 R6 R7] Ha Hp Hlt Eo Hle. cbn in *. constructor; cbn; try done.
  - intros b Hb. destruct (R2 b Hb). split; [done|]. rewrite lookup_insert_ne by lia. done.
  - intros q oq Hq. apply lookup_insert_Some in Hq as [[_ <-]|[_ Hq]]; [rewrite Eo; eauto | eauto].
  - intros b Hb. apply R4. now apply list_elem_of_further.
  - intros b shb Hb. destruct (R5 b shb Hb) as [E Hpos]. rewrite users_cons in E. split; [|done]. rewrite users_insert by done. now rewrite Eo.
Qed.

Lemma allocator_holds s a n answers :
  runtime_ok (with_context s (a :: context_shapes s)) -> next_address s <= n -> runtime_ok (with_context (with_allocator s n answers) (a :: context_shapes s)).
Proof. intros R Hn. exact (allocator_ok _ n answers R Hn). Qed.

Lemma new_from_shape_spec s a sh callable :
  runtime_ok (with_context s (a :: context_shapes s)) -> shapes s !! a = Some sh -> prop sh = [] ->
  exists r s', JS_NewObjectFromShape s a callable = Some (r, s') /\
    ((r = OutOfMemory /\ mallocs s <> [] /\ quiet s s') \/
     exists p, r = Got (JS_TAG_OBJECT p) /\ creates s s' p (empty_dictionary (proto sh) callable)).
Proof.
  intros R Ha He. unfold JS_NewObjectFromShape. rewrite Ha. cbn [mbind option_bind].
  assert (forall n answers, next_address s <= n -> (mallocs s = [] -> answers = []) -> exists s', js_free_shape (with_allocator s n answers) a = Some s' /\ quiet s s') as Hfree.
  { intros n answers Hn Hm. destruct (free_holds (with_allocator s n answers) a sh (allocator_holds _ _ _ _ R Hn) Ha) as (s' & E & [Q1 Q2 Q3 Q4 Q5 Q6]). exists s'. split; [exact E|].
    constructor; [exact Q1 | exact Q2 | exact Q3 | cbn in Q4; lia | intros H; apply Q5; cbn; auto | exact Q6]. }
  destruct (js_malloc_spec s) as (answers & Hm & [[-> Hne]| ->]).
  { destruct (Hfree (next_address s) answers ltac:(lia) Hm) as (s' & -> & Q). cbn [mbind option_bind]. do 2 eexists. split; [reflexivity|]. left. done. }
  set (s1 := with_allocator s (next_address s + 1) answers).
  destruct (js_malloc_spec s1) as (answers2 & Hm2 & [[-> Hne]| ->]); cbn [next_address s1 with_allocator].
  { destruct (Hfree (next_address s + 1) answers2 ltac:(lia) ltac:(auto)) as (s' & E & Q).
    change (js_free_shape (with_allocator s1 (next_address s + 1) answers2) a) with (js_free_shape (with_allocator s (next_address s + 1) answers2) a). rewrite E.
    cbn [mbind option_bind]. do 2 eexists. split; [reflexivity|]. left. split_and!; [done | intros H; apply Hne; cbn; auto | done]. }
  do 2 eexists. split; [reflexivity|]. right. exists (next_address s). split; [done|].
  assert (objects s !! next_address s = None) as Hp by (apply (ro_fresh _ R); cbn; lia).
  set (o := mk_object a _ true false callable). set (s2 := with_allocator s1 (next_address s + 1 + 1) answers2).
  pose proof (so_count _ (proj1 (ro_shapes _ R a sh Ha))) as (_ & _ & Hs).
  constructor.
  - assert (next_address s <= next_address s + 1 + 1) as Hn by lia. apply (take_reference s2 a sh); [exact (allocator_holds s a _ answers2 R Hn) | exact Ha | exact Hp | cbn; lia | done | cbn; rewrite length_replicate; lia].
  - unfold contents. now rewrite Hp.
  - intros q. unfold contents. cbn. destruct (decide (q = next_address s)) as [->|Hne].
    + rewrite lookup_insert_eq. cbn. rewrite Ha. cbn. unfold describe, empty_dictionary. now rewrite He.
    + now rewrite lookup_insert_ne.
  - cbn. auto.
  - done.
Qed.

(** What [JS_NewObjectProtoClass] and [JS_NewObjectProtoClassAlloc] do. *)
Definition makes (s : JSRuntime) (proto0 : option Z) (callable : bool) (r : result) (s' : JSRuntime) : Prop :=
  (r = OutOfMemory /\ mallocs s <> [] /\ quiet s s') \/
  exists p, r = Got (JS_TAG_OBJECT p) /\ creates s s' p (empty_dictionary proto0 callable).

Lemma makes_from s s1 a sh callable :
  holds s s1 a sh -> exists r s', JS_NewObjectFromShape s1 a callable = Some (r, s') /\ makes s (proto sh) callable r s'.
Proof.
  intros [H1 H2 H3 H4 H5 H6 H7 H8 H9]. destruct (new_from_shape_spec s1 a sh callable H1 H2 H3) as (r & s' & E & H). exists r, s'. split; [exact E|].
  destruct H as [(-> & Hm & [Q1 Q2 Q3 Q4 Q5 Q6])|(p & -> & [C1 C2 C3 C4 C5])]; [left | right].
  - split; [done|]. split; [intros Hs; auto|]. constructor; [exact Q1 | congruence | intros q; now rewrite Q3, H6 | lia | auto | congruence].
  - exists p. split; [done|]. constructor; [exact C1 | now rewrite <- H6 | intros q; now rewrite C3, H6 | auto | congruence].
Qed.

Lemma find_proto_spec s proto0 :
  runtime_ok s ->
  exists r, find_hashed_shape_proto s proto0 = Some r /\
    match r with Some a => exists sh, shapes s !! a = Some sh /\ is_hashed sh = true /\ proto sh = proto0 /\ prop sh = [] | None => True end.
Proof.
  intros R. unfold find_hashed_shape_proto. destruct (find_hashed_spec s (shape_initial_hash proto0) (matches_proto (shape_initial_hash proto0) proto0) R (shape_initial_hash_range _)) as (r & E & H).
  exists r. split; [exact E|]. destruct r as [a|]; [|done]. destruct H as (sh & Hsh & Hh & Ht). exists sh. unfold matches_proto, same_proto, prop_count in Ht.
  rewrite !andb_true_iff in Ht. destruct Ht as [[_ Hp] Hc]. apply bool_decide_eq_true in Hp. apply Z.eqb_eq in Hc. split_and!; [done | done | done|].
  destruct (prop sh); [done | cbn in Hc; lia].
Qed.

Lemma new_object_spec s proto0 callable :
  runtime_ok s -> shape_hash_bits s < 31 -> exists r s', JS_NewObjectProtoClass s proto0 callable = Some (r, s') /\ makes s proto0 callable r s'.
Proof.
  intros R Hb. unfold JS_NewObjectProtoClass. destruct (find_proto_spec s proto0 R) as ([a|] & -> & H); cbn [mbind option_bind].
  - destruct H as (sh & Hsh & Hh & <- & He). destruct (dup_holds s a sh R Hsh Hh He) as (s1 & -> & Hd). cbn [mbind option_bind]. exact (makes_from s s1 a _ callable Hd).
  - destruct (new_shape_spec s proto0 R Hb) as ([a|] & s1 & -> & Hn); cbn [mbind option_bind].
    + destruct Hn as (sh & Hd & <-). exact (makes_from s s1 a sh callable Hd).
    + do 2 eexists. split; [reflexivity|]. left. destruct Hn. done.
Qed.

Lemma hash_size_pow2 n : 2 < n <= 2 ^ 27 -> pow2_size (Z.to_nat (hash_size_for n)).
Proof.
  intros Hn. unfold hash_size_for, pow2_size. exists (Z.log2 (n - 1) + 1). pose proof (Z.log2_nonneg (n - 1)).
  assert (Z.log2 (n - 1) < 27) by (apply Z.log2_lt_pow2; lia). rewrite Z.shiftl_1_l. split; [lia|]. rewrite Z2Nat.id; [done | apply Z.pow_nonneg; lia].
Qed.

Lemma new_object_alloc_spec s proto0 callable n :
  runtime_ok s -> n <= 2 ^ 27 -> exists r s', JS_NewObjectProtoClassAlloc s proto0 callable n = Some (r, s') /\ makes s proto0 callable r s'.
Proof.
  intros R Hn. unfold JS_NewObjectProtoClassAlloc.
  assert (exists hs size, (if n <=? JS_PROP_INITIAL_SIZE then (JS_PROP_INITIAL_SIZE, JS_PROP_INITIAL_HASH_SIZE) else (n, hash_size_for n)) = (size, hs) /\
    pow2_size (Z.to_nat hs) /\ 1 <= size <= 2 ^ 27) as (hs & size & -> & Hp & Hs).
  { unfold JS_PROP_INITIAL_SIZE. destruct (Z.leb_spec n 2); do 2 eexists; (split; [reflexivity|]); [split; [exists 2; done | lia]|]. split; [apply hash_size_pow2; lia | lia]. }
  destruct (new_shape_nohash_spec s proto0 hs size R Hp Hs) as ([a|] & s1 & -> & H).
  - destruct H as (sh & Hd & <-). exact (makes_from s s1 a sh callable Hd).
  - do 2 eexists. split; [reflexivity|]. left. destruct H. done.
Qed.
