(* ===== verification/ObjectsSpec.v ===== *)
(** * Ordinary objects refine the ECMAScript specification

    The property operations against the internal methods of ordinary objects
    (OrdinaryGetOwnProperty, ValidateAndApplyPropertyDescriptor, OrdinaryDelete):
    an object is an ordered list of named properties, and an operation on one
    object changes no other, although objects share their shapes. *)

From Stdlib Require Import ZArith Lia Bool.
From stdpp Require Import base numbers list option gmap strings.
From S2P Require Import Prelude Limbs BigInt Numeric Shapes Objects ShapesInv ObjectsInv.

#[local] Open Scope Z_scope.

(** ** Specification *)

Inductive es_property : Type :=
| DataProperty (value : JSValue) (writable enumerable configurable : bool)
| AccessorProperty (get set : option Z) (enumerable configurable : bool).

Record es_object : Type := mk_es_object {
  e_proto : option Z;
  e_extensible : bool;
  e_immutable_prototype : bool;
  e_function : bool;
  e_props : list (Z * es_property);
}.

Record es_descriptor : Type := mk_descriptor {
  ds_value : option JSValue;
  ds_writable : option bool;
  ds_get : option (option Z);
  ds_set : option (option Z);
  ds_enumerable : option bool;
  ds_configurable : option bool;
}.

Definition with_e_props (o : es_object) (l : list (Z * es_property)) : es_object :=
  mk_es_object (e_proto o) (e_extensible o) (e_immutable_prototype o) (e_function o) l.

Fixpoint es_lookup (name : Z) (l : list (Z * es_property)) : option es_property :=
  match l with (n, p) :: l => if n =? name then Some p else es_lookup name l | [] => None end.

Definition es_update (name : Z) (p : es_property) (l : list (Z * es_property)) : list (Z * es_property) :=
  map (fun e => if e.1 =? name then (name, p) else e) l.

Definition from {A} (o : option A) (default : A) : A := match o with Some a => a | None => default end.
Definition given {A} (o : option A) : bool := match o with Some _ => true | None => false end.

Definition is_accessor_descriptor (d : es_descriptor) : bool := given (ds_get d) || given (ds_set d).
Definition is_data_descriptor (d : es_descriptor) : bool := given (ds_value d) || given (ds_writable d).
Definition is_accessor_property (p : es_property) : bool := match p with AccessorProperty _ _ _ _ => true | _ => false end.
Definition es_configurable (p : es_property) : bool := match p with DataProperty _ _ _ c => c | AccessorProperty _ _ _ c => c end.
Definition es_enumerable (p : es_property) : bool := match p with DataProperty _ _ e _ => e | AccessorProperty _ _ e _ => e end.

(** Whether the field, if given, has the value [v]. *)
Definition agrees {A} (eqb : A -> A -> bool) (o : option A) (v : A) : bool := match o with Some a => eqb a v | None => true end.
Definition same_getter (g g' : option Z) : bool := bool_decide (g = g').

(** Step 5 of ValidateAndApplyPropertyDescriptor: may a property that is not
    configurable become this? *)
Definition es_allowed (current : es_property) (d : es_descriptor) : bool :=
  es_configurable current ||
  (negb (from (ds_configurable d) false) &&
   agrees Bool.eqb (ds_enumerable d) (es_enumerable current) &&
   (negb (is_accessor_descriptor d || is_data_descriptor d) ||
    Bool.eqb (is_accessor_descriptor d) (is_accessor_property current)) &&
   match current with
   | AccessorProperty g st _ _ => agrees same_getter (ds_get d) g && agrees same_getter (ds_set d) st
   | DataProperty v w _ _ => w || (negb (from (ds_writable d) false) && agrees js_same_value (ds_value d) v)
   end).

(** Step 6.  A value that may not change is not replaced by an equal one. *)
Definition es_apply (current : es_property) (d : es_descriptor) : es_property :=
  let e := from (ds_enumerable d) (es_enumerable current) in
  let c := from (ds_configurable d) (es_configurable current) in
  match current with
  | DataProperty v w _ c0 =>
      if is_accessor_descriptor d then AccessorProperty (from (ds_get d) None) (from (ds_set d) None) e c
      else DataProperty (if c0 || w then from (ds_value d) v else v) (from (ds_writable d) w) e c
  | AccessorProperty g st _ _ =>
      if is_data_descriptor d then DataProperty (from (ds_value d) undefined) (from (ds_writable d) false) e c
      else AccessorProperty (from (ds_get d) g) (from (ds_set d) st) e c
  end.

(** Step 2: a new property, the absent fields with their defaults. *)
Definition es_new (d : es_descriptor) : es_property :=
  if is_accessor_descriptor d then
    AccessorProperty (from (ds_get d) None) (from (ds_set d) None) (from (ds_enumerable d) false) (from (ds_configurable d) false)
  else
    DataProperty (from (ds_value d) undefined) (from (ds_writable d) false) (from (ds_enumerable d) false) (from (ds_configurable d) false).

(** OrdinaryDefineOwnProperty; [None] is a rejection. *)
Definition es_define (o : es_object) (name : Z) (d : es_descriptor) : option es_object :=
  match es_lookup name (e_props o) with
  | None => if e_extensible o then Some (with_e_props o (e_props o ++ [(name, es_new d)])) else None
  | Some current => if es_allowed current d then Some (with_e_props o (es_update name (es_apply current d) (e_props o))) else None
  end.

(** OrdinaryDelete *)
Definition es_delete (o : es_object) (name : Z) : option es_object :=
  match es_lookup name (e_props o) with
  | None => Some o
  | Some p => if es_configurable p then Some (with_e_props o (List.filter (fun e => negb (e.1 =? name)) (e_props o))) else None
  end.

(** ** Reading an object of the program *)

Definition es_of (f : Z) (v : JSProperty) : es_property :=
  match v with
  | GetSet g st => AccessorProperty g st (has f JS_PROP_ENUMERABLE) (has f JS_PROP_CONFIGURABLE)
  | Value v => DataProperty v (has f JS_PROP_WRITABLE) (has f JS_PROP_ENUMERABLE) (has f JS_PROP_CONFIGURABLE)
  | Uninitialized => DataProperty undefined false false false
  end.

Definition es_entry (e : property_entry) : Z * es_property := (entry_name e, es_of e.1.2 e.2).

Definition es_object_of (d : dictionary) : es_object :=
  mk_es_object (d_proto d) (d_extensible d) (d_immutable_prototype d) (d_function d) (map es_entry (d_entries d)).

Definition view (s : JSRuntime) (p : Z) : option es_object := d ← contents s p; Some (es_object_of d).

(** The descriptor that the arguments of [JS_DefineProperty] encode. *)
Definition descriptor (s : JSRuntime) (val getter setter : JSValue) (flags : Z) : es_descriptor :=
  mk_descriptor (if has flags JS_PROP_HAS_VALUE then Some val else None)
    (if has flags JS_PROP_HAS_WRITABLE then Some (has flags JS_PROP_WRITABLE) else None)
    (if has flags JS_PROP_HAS_GET then Some (accessor s getter) else None)
    (if has flags JS_PROP_HAS_SET then Some (accessor s setter) else None)
    (if has flags JS_PROP_HAS_ENUMERABLE then Some (has flags JS_PROP_ENUMERABLE) else None)
    (if has flags JS_PROP_HAS_CONFIGURABLE then Some (has flags JS_PROP_CONFIGURABLE) else None).

(** The arguments are a descriptor: an attribute bit comes with its presence bit,
    and the descriptor is not of both kinds. *)
Definition valid_flags (flags : Z) : bool :=
  implb (has flags JS_PROP_WRITABLE) (has flags JS_PROP_HAS_WRITABLE) &&
  implb (has flags JS_PROP_ENUMERABLE) (has flags JS_PROP_HAS_ENUMERABLE) &&
  implb (has flags JS_PROP_CONFIGURABLE) (has flags JS_PROP_HAS_CONFIGURABLE) &&
  negb ((has flags JS_PROP_HAS_GET || has flags JS_PROP_HAS_SET) && (has flags JS_PROP_HAS_VALUE || has flags JS_PROP_HAS_WRITABLE)).

(** The value of a property is of the kind that its flags say. *)
Definition entry_ok (e : property_entry) : Prop :=
  match e.2 with Value _ => is_getset e.1.2 = false | GetSet _ _ => is_getset e.1.2 = true | Uninitialized => False end.

Definition values_ok (s : JSRuntime) : Prop := forall p d, contents s p = Some d -> Forall entry_ok (d_entries d).

Definition objects_ok (s : JSRuntime) : Prop := runtime_ok s /\ values_ok s.

(** ** Flags *)

Lemma land_bit flags m : m ∈ [1; 2; 4; 8; 16; 32; 256; 512; 1024; 2048; 4096; 8192; 16384; 32768] -> Z.land flags m = if has flags m then m else 0.
Proof.
  intros Hm. unfold has. assert (exists k, 0 <= k /\ m = 2 ^ k) as (k & Hk & ->).
  { repeat (apply elem_of_cons in Hm as [->|Hm]; [first [exists 0; done | exists 1; done | exists 2; done | exists 3; done | exists 4; done | exists 5; done |
      exists 8; done | exists 9; done | exists 10; done | exists 11; done | exists 12; done | exists 13; done | exists 14; done | exists 15; done]|]).
    now apply elem_of_nil in Hm. }
  assert (Z.land flags (2 ^ k) = 0 \/ Z.land flags (2 ^ k) = 2 ^ k) as [E|E].
  { destruct (Z.testbit flags k) eqn:T; [right | left]; apply Z.bits_inj'; intros n Hn; rewrite Z.land_spec, ?Z.bits_0, Z.pow2_bits_eqb by lia;
      destruct (Z.eqb_spec k n) as [<-|]; rewrite ?T, ?andb_false_r, ?andb_true_r; done. }
  - rewrite E. done.
  - rewrite E. destruct (Z.eqb_spec (2 ^ k) 0) as [E0|]; [|done]. pose proof (Z.pow_pos_nonneg 2 k). lia.
Qed.

Lemma has_lor flags a b : has flags (Z.lor a b) = has flags a || has flags b.
Proof.
  unfold has. rewrite Z.land_lor_distr_r. destruct (Z.eqb_spec (Z.land flags a) 0) as [E|E], (Z.eqb_spec (Z.land flags b) 0) as [F|F]; cbn.
  - now rewrite E, F.
  - rewrite E, Z.lor_0_l. now destruct (Z.eqb_spec (Z.land flags b) 0).
  - rewrite F, Z.lor_0_r. now destruct (Z.eqb_spec (Z.land flags a) 0).
  - destruct (Z.eqb_spec (Z.lor (Z.land flags a) (Z.land flags b)) 0) as [G|]; [|done]. apply Z.lor_eq_0_iff in G. tauto.
Qed.

(** Case analysis on ordinary flags. *)
Ltac ordinary_cases H :=
  unfold ordinary_flags in H;
  repeat (apply elem_of_cons in H as [->|H]; [|]); [..|now apply elem_of_nil in H].

Ltac bit_member := repeat (first [apply list_elem_of_here | apply list_elem_of_further]).

Definition flags_are (g : Z) (c e w getset : bool) : Prop :=
  ordinary_flags g /\ has g JS_PROP_CONFIGURABLE = c /\ has g JS_PROP_ENUMERABLE = e /\ has g JS_PROP_WRITABLE = w /\ is_getset g = getset.

#[export] Instance ordinary_flags_dec f : Decision (ordinary_flags f).
Proof. unfold ordinary_flags. apply _. Defined.

Ltac flags_by_cases := split_and!; [now apply (bool_decide_eq_true_1 _) | reflexivity..].

Lemma update_writable_flags f flags :
  ordinary_flags f -> is_getset f = false ->
  flags_are (Z.lor (Z.land f (Z.lnot JS_PROP_WRITABLE)) (Z.land flags JS_PROP_WRITABLE))
    (has f JS_PROP_CONFIGURABLE) (has f JS_PROP_ENUMERABLE) (has flags JS_PROP_WRITABLE) false.
Proof.
  intros Hf Hg. rewrite (land_bit flags JS_PROP_WRITABLE) by bit_member. unfold flags_are. generalize (has flags JS_PROP_WRITABLE). intros b.
  ordinary_cases Hf; try discriminate Hg; destruct b; flags_by_cases.
Qed.

Definition attribute_mask (flags : Z) : Z :=
  Z.lor (if has flags JS_PROP_HAS_CONFIGURABLE then JS_PROP_CONFIGURABLE else 0) (if has flags JS_PROP_HAS_ENUMERABLE then JS_PROP_ENUMERABLE else 0).

Lemma update_attribute_flags f flags :
  ordinary_flags f ->
  flags_are (Z.lor (Z.land f (Z.lnot (attribute_mask flags))) (Z.land flags (attribute_mask flags)))
    (if has flags JS_PROP_HAS_CONFIGURABLE then has flags JS_PROP_CONFIGURABLE else has f JS_PROP_CONFIGURABLE)
    (if has flags JS_PROP_HAS_ENUMERABLE then has flags JS_PROP_ENUMERABLE else has f JS_PROP_ENUMERABLE)
    (has f JS_PROP_WRITABLE) (is_getset f).
Proof.
  intros Hf. unfold flags_are, attribute_mask. generalize (has flags JS_PROP_HAS_CONFIGURABLE), (has flags JS_PROP_HAS_ENUMERABLE). intros hc he.
  rewrite Z.land_lor_distr_r. assert (forall h m, m ∈ [1; 4] -> Z.land flags (if h : bool then m else 0) = if h then if has flags m then m else 0 else 0) as Eb.
  { intros [] m Hm; [|apply Z.land_0_r]. apply land_bit.
    repeat (apply elem_of_cons in Hm as [->|Hm]; [bit_member|]). now apply elem_of_nil in Hm. }
  rewrite !Eb by bit_member. generalize (has flags JS_PROP_CONFIGURABLE), (has flags JS_PROP_ENUMERABLE). intros c e.
  ordinary_cases Hf; destruct hc, he, c, e; flags_by_cases.
Qed.

Lemma to_accessor_flags f :
  ordinary_flags f ->
  flags_are (Z.lor (Z.land f (Z.lor JS_PROP_CONFIGURABLE JS_PROP_ENUMERABLE)) JS_PROP_GETSET)
    (has f JS_PROP_CONFIGURABLE) (has f JS_PROP_ENUMERABLE) false true.
Proof. intros Hf. unfold flags_are. ordinary_cases Hf; flags_by_cases. Qed.

Lemma to_data_flags f :
  ordinary_flags f ->
  flags_are (Z.land f (Z.lnot (Z.lor JS_PROP_TMASK JS_PROP_WRITABLE))) (has f JS_PROP_CONFIGURABLE) (has f JS_PROP_ENUMERABLE) false false.
Proof. intros Hf. unfold flags_are. ordinary_cases Hf; flags_by_cases. Qed.

Lemma new_accessor_flags flags :
  flags_are (Z.lor (Z.land flags (Z.lor JS_PROP_CONFIGURABLE JS_PROP_ENUMERABLE)) JS_PROP_GETSET)
    (has flags JS_PROP_CONFIGURABLE) (has flags JS_PROP_ENUMERABLE) false true.
Proof.
  rewrite Z.land_lor_distr_r, !land_bit by bit_member. unfold flags_are.
  generalize (has flags JS_PROP_CONFIGURABLE), (has flags JS_PROP_ENUMERABLE). intros c e. destruct c, e; flags_by_cases.
Qed.

Lemma new_data_flags flags :
  flags_are (Z.land flags JS_PROP_C_W_E) (has flags JS_PROP_CONFIGURABLE) (has flags JS_PROP_ENUMERABLE) (has flags JS_PROP_WRITABLE) false.
Proof.
  change JS_PROP_C_W_E with (Z.lor JS_PROP_CONFIGURABLE (Z.lor JS_PROP_WRITABLE JS_PROP_ENUMERABLE)).
  rewrite !Z.land_lor_distr_r, !land_bit by bit_member. unfold flags_are.
  generalize (has flags JS_PROP_CONFIGURABLE), (has flags JS_PROP_ENUMERABLE), (has flags JS_PROP_WRITABLE). intros c e w. destruct c, e, w; flags_by_cases.
Qed.

(** [check_define_prop_flags] by its bits. *)
Lemma check_flags_bits f flags :
  check_define_prop_flags f flags =
    has f JS_PROP_CONFIGURABLE ||
    (negb (has flags JS_PROP_HAS_CONFIGURABLE && has flags JS_PROP_CONFIGURABLE) &&
     (negb (has flags JS_PROP_HAS_ENUMERABLE) || Bool.eqb (has flags JS_PROP_ENUMERABLE) (has f JS_PROP_ENUMERABLE)) &&
     (negb (has flags JS_PROP_HAS_VALUE || has flags JS_PROP_HAS_WRITABLE || (has flags JS_PROP_HAS_GET || has flags JS_PROP_HAS_SET)) ||
      (Bool.eqb (has flags JS_PROP_HAS_GET || has flags JS_PROP_HAS_SET) (is_getset f) &&
       (is_getset f || has f JS_PROP_WRITABLE || negb (has flags JS_PROP_HAS_WRITABLE && has flags JS_PROP_WRITABLE))))).
Proof.
  unfold check_define_prop_flags. rewrite !Z.land_lor_distr_r, !has_lor, (land_bit flags), (land_bit flags JS_PROP_CONFIGURABLE), (land_bit flags JS_PROP_ENUMERABLE),
    (land_bit f JS_PROP_ENUMERABLE), (land_bit flags JS_PROP_HAS_WRITABLE), (land_bit flags JS_PROP_WRITABLE) by bit_member.
  destruct (has f JS_PROP_CONFIGURABLE); cbn [negb orb]; [done|].
  destruct (has flags JS_PROP_HAS_CONFIGURABLE), (has flags JS_PROP_CONFIGURABLE); try reflexivity;
  destruct (has flags JS_PROP_HAS_ENUMERABLE), (has flags JS_PROP_ENUMERABLE), (has f JS_PROP_ENUMERABLE); try reflexivity;
  cbn; destruct (has flags JS_PROP_HAS_VALUE || has flags JS_PROP_HAS_WRITABLE || (has flags JS_PROP_HAS_GET || has flags JS_PROP_HAS_SET)); try reflexivity;
  cbn; destruct (Bool.eqb (has flags JS_PROP_HAS_GET || has flags JS_PROP_HAS_SET) (is_getset f)); try reflexivity;
  cbn; destruct (is_getset f); try reflexivity; destruct (has f JS_PROP_WRITABLE); try reflexivity;
  destruct (has flags JS_PROP_HAS_WRITABLE), (has flags JS_PROP_WRITABLE); reflexivity.
Qed.

(** ** Objects and their views *)

Lemma es_lookup_entry l name f v : NoDup (map entry_name l) -> (name, f, v) ∈ l -> es_lookup name (map es_entry l) = Some (es_of f v).
Proof.
  induction l as [|[[n g] w] l IH]; intros Hnd Hin; [now apply elem_of_nil in Hin|]. cbn in Hnd. apply NoDup_cons in Hnd as [Hn Hnd]. cbn.
  apply elem_of_cons in Hin as [[= <- <- <-]|Hin]; [now rewrite Z.eqb_refl|]. destruct (Z.eqb_spec n name) as [->|]; [|auto].
  exfalso. apply Hn. apply list_elem_of_In, (in_map entry_name _ (name, f, v)). now apply list_elem_of_In.
Qed.

Lemma es_lookup_none l name : name ∉ map entry_name l -> es_lookup name (map es_entry l) = None.
Proof.
  induction l as [|[[n g] w] l IH]; intros H; [done|]. cbn in *. apply not_elem_of_cons in H as [Hn H]. destruct (Z.eqb_spec n name); [congruence | auto].
Qed.

Lemma es_set_entry d name f v :
  es_object_of (set_entry d name f v) = with_e_props (es_object_of d) (es_update name (es_of f v) (e_props (es_object_of d))).
Proof.
  unfold es_object_of, set_entry, with_entries, with_e_props, es_update. cbn. f_equal. rewrite !map_map. apply map_ext. intros [[n g] w].
  unfold update_entry, es_entry, entry_name. cbn. now destruct (n =? name).
Qed.

Lemma es_push d name f v : es_object_of (push d (name, f, v)) = with_e_props (es_object_of d) (e_props (es_object_of d) ++ [(name, es_of f v)]).
Proof. unfold es_object_of, push, with_e_props. cbn. now rewrite map_app. Qed.

Lemma es_remove d name : es_object_of (remove d name) = with_e_props (es_object_of d) (List.filter (fun e => negb (e.1 =? name)) (e_props (es_object_of d))).
Proof.
  unfold es_object_of, remove, with_entries, with_e_props. cbn. f_equal. induction (d_entries d) as [|[[n g] w] l IH]; [done|].
  cbn. unfold other_name at 1, entry_name at 1. cbn. destruct (n =? name); cbn; [done | now rewrite IH].
Qed.

Lemma set_entry_ok d name f v : Forall entry_ok (d_entries d) -> entry_ok (name, f, v) -> Forall entry_ok (d_entries (set_entry d name f v)).
Proof.
  intros H He. cbn. rewrite Forall_forall in *. intros e Hin. apply list_elem_of_In, in_map_iff in Hin as (x & <- & Hx). unfold update_entry.
  destruct (entry_name x =? name); [done|]. apply H. now apply list_elem_of_In.
Qed.

Lemma located_entry_ok s p d name i f v : values_ok s -> located s p d name i f v -> entry_ok (name, f, v).
Proof.
  intros Hv L. destruct (located_entry _ _ _ _ _ _ _ L) as [Hin _]. pose proof (Hv p d (located_contents _ _ _ _ _ _ _ L)) as H.
  rewrite Forall_forall in H. now apply H.
Qed.

(** The object [p] becomes [o'], the other objects stay. *)
Record becomes (s s' : JSRuntime) (p : Z) (o' : es_object) : Prop := mk_becomes {
  be_ok : objects_ok s';
  be_view : forall q, view s' q = if decide (q = p) then Some o' else view s q;
  be_mallocs : mallocs s = [] -> mallocs s' = [];
  be_strict : strict_mode s' = strict_mode s;
}.

Lemma updates_becomes s s' p d : values_ok s -> updates s s' p d -> Forall entry_ok (d_entries d) -> becomes s s' p (es_object_of d).
Proof.
  intros Hv U Hd. split; [split; [apply U|] | | apply U | apply U].
  - intros q dq Hq. rewrite (up_contents _ _ _ _ U) in Hq. destruct (decide (q = p)); [injection Hq as <-; done | eapply Hv; eauto].
  - intros q. unfold view. rewrite (up_contents _ _ _ _ U). now destruct (decide (q = p)).
Qed.

Lemma becomes_refl s p o : objects_ok s -> view s p = Some o -> becomes s s p o.
Proof. intros H Hv. split; try done. intros q. now destruct (decide (q = p)) as [->|]. Qed.

Lemma is_function_view s p : runtime_ok s -> JS_IsFunction s (JS_TAG_OBJECT p) = match contents s p with Some d => d_function d | None => false end.
Proof.
  intros R. unfold JS_IsFunction, contents. destruct (objects s !! p) as [o|] eqn:Ho; cbn; [|done]. destruct (ro_objects _ R p o Ho) as (sh & Hsh & _).
  now rewrite Hsh.
Qed.

Lemma accessor_updates s s' p d d' v :
  runtime_ok s -> contents s p = Some d -> updates s s' p d' -> d_function d' = d_function d -> accessor s' v = accessor s v.
Proof.
  intros R Hd U Hf. unfold accessor. destruct v as [|q]; [done|]. rewrite !is_function_view by (done || apply U). rewrite (up_contents _ _ _ _ U).
  destruct (decide (q = p)) as [->|]; [now rewrite Hd, Hf | done].
Qed.

(** ** Creating *)

Lemma valid_flags_spec flags : valid_flags flags = true ->
  (has flags JS_PROP_WRITABLE = true -> has flags JS_PROP_HAS_WRITABLE = true) /\
  (has flags JS_PROP_ENUMERABLE = true -> has flags JS_PROP_HAS_ENUMERABLE = true) /\
  (has flags JS_PROP_CONFIGURABLE = true -> has flags JS_PROP_HAS_CONFIGURABLE = true) /\
  (has flags JS_PROP_HAS_GET || has flags JS_PROP_HAS_SET = true -> has flags JS_PROP_HAS_VALUE = false /\ has flags JS_PROP_HAS_WRITABLE = false).
Proof.
  unfold valid_flags. intros H. rewrite !andb_true_iff in H. destruct H as [[[H1 H2] H3] H4]. split_and!.
  - destruct (has flags JS_PROP_WRITABLE); [done | discriminate].
  - destruct (has flags JS_PROP_ENUMERABLE); [done | discriminate].
  - destruct (has flags JS_PROP_CONFIGURABLE); [done | discriminate].
  - intros E. rewrite E in H4. now destruct (has flags JS_PROP_HAS_VALUE), (has flags JS_PROP_HAS_WRITABLE).
Qed.

Lemma from_attribute flags a b : (has flags a = true -> has flags b = true) -> from (if has flags b then Some (has flags a) else None) false = has flags a.
Proof. intros H. destruct (has flags b); [done|]. cbn. destruct (has flags a); [now discriminate H | done]. Qed.

Lemma accessor_given s getter setter flags val :
  is_accessor_descriptor (descriptor s val getter setter flags) = has flags JS_PROP_HAS_GET || has flags JS_PROP_HAS_SET.
Proof. unfold is_accessor_descriptor, descriptor. cbn. now destruct (has flags JS_PROP_HAS_GET), (has flags JS_PROP_HAS_SET). Qed.

Lemma data_given s getter setter flags val :
  is_data_descriptor (descriptor s val getter setter flags) = has flags JS_PROP_HAS_VALUE || has flags JS_PROP_HAS_WRITABLE.
Proof. unfold is_data_descriptor, descriptor. cbn. now destruct (has flags JS_PROP_HAS_VALUE), (has flags JS_PROP_HAS_WRITABLE). Qed.

Lemma create_property_spec s p d name val getter setter flags :
  objects_ok s -> contents s p = Some d -> name <> JS_ATOM_NULL -> name ∉ names d -> has_room s p -> valid_flags flags = true ->
  exists r s', JS_CreateProperty s p name val getter setter flags = Some (r, s') /\
    ((r = OutOfMemory /\ mallocs s <> [] /\ becomes s s' p (es_object_of d)) \/
     if d_extensible d then
       r = Done true /\ becomes s s' p (with_e_props (es_object_of d) (e_props (es_object_of d) ++ [(name, es_new (descriptor s val getter setter flags))]))
     else r = JS_ThrowTypeErrorOrFalse s flags "object is not extensible" /\ s' = s).
Proof.
  intros [R Hv] Hd Hn Hfresh Hroom Hflags. destruct (contents_inv s p d R Hd) as (o & sh & Ho & Hsh & Ed & _). unfold JS_CreateProperty. rewrite Ho. cbn [mbind option_bind].
  assert (extensible o = d_extensible d) as -> by now rewrite Ed. destruct (d_extensible d); cbn [negb].
  2: { do 2 eexists. split; [reflexivity|]. now right. }
  destruct (valid_flags_spec _ Hflags) as (V1 & V2 & V3 & V4). rewrite has_lor. set (getset := has flags JS_PROP_HAS_GET || has flags JS_PROP_HAS_SET) in *.
  assert (exists f, (if getset then Z.lor (Z.land flags (Z.lor JS_PROP_CONFIGURABLE JS_PROP_ENUMERABLE)) JS_PROP_GETSET else Z.land flags JS_PROP_C_W_E) = f /\
    flags_are f (has flags JS_PROP_CONFIGURABLE) (has flags JS_PROP_ENUMERABLE) (negb getset && has flags JS_PROP_WRITABLE) getset) as (f & -> & Hf & F1 & F2 & F3 & F4).
  { destruct getset; eexists; (split; [reflexivity|]); [apply new_accessor_flags | apply new_data_flags]. }
  destruct (add_property_spec s p d name f R Hd Hn Hfresh Hf Hroom) as (r & s1 & -> & Hr). cbn [mbind option_bind]. destruct r as [i|].
  2: { destruct Hr as [Hm U]. do 2 eexists. split; [reflexivity|]. left. split_and!; [done | done|]. apply (updates_becomes s s1 p d Hv U (Hv p d Hd)). }
  destruct Hr as (d1 & U1 & E1 & W). rewrite !(accessor_updates s s1 p d d1 _ R Hd U1 E1).
  destruct (W (if getset then GetSet (if has flags JS_PROP_HAS_GET then accessor s getter else None) (if has flags JS_PROP_HAS_SET then accessor s setter else None)
               else Value (if has flags JS_PROP_HAS_VALUE then val else undefined))) as (s2 & -> & U2).
  cbn [mbind option_bind]. do 2 eexists. split; [reflexivity|]. right. split; [done|].
  match goal with |- becomes _ _ _ (with_e_props _ (_ ++ [(name, ?x)])) => assert (x = es_of f (if getset
    then GetSet (if has flags JS_PROP_HAS_GET then accessor s getter else None) (if has flags JS_PROP_HAS_SET then accessor s setter else None)
    else Value (if has flags JS_PROP_HAS_VALUE then val else undefined))) as -> end.
  { unfold es_new. rewrite accessor_given. fold getset. unfold descriptor. cbn [ds_get ds_set ds_enumerable ds_configurable ds_value ds_writable].
    rewrite !from_attribute by done. destruct getset eqn:Eg; cbn [es_of negb andb] in *; rewrite ?F1, ?F2, ?F3.
    - destruct (has flags JS_PROP_HAS_GET), (has flags JS_PROP_HAS_SET); done.
    - destruct (has flags JS_PROP_HAS_VALUE); done. }
  rewrite <- es_push. apply updates_becomes; [done | apply (updates_trans s s1 s2 p d1); done|].
  cbn. apply Forall_app. split; [apply (Hv p d Hd)|]. constructor; [|done]. unfold entry_ok. cbn. rewrite F4. now destruct getset.
Qed.

(** ** Defining *)

(** Two objects that differ in their properties only. *)
Definition only_props (o o' : es_object) : Prop := o' = with_e_props o (e_props o').

(** What a call on the object [o] at [p] that fails for lack of memory leaves, and
    what one that is refused does. *)
Definition out_of_memory (s s' : JSRuntime) (p : Z) (o : es_object) (r : result) : Prop :=
  r = OutOfMemory /\ mallocs s <> [] /\ exists o', becomes s s' p o' /\ only_props o o'.
Definition refused (s s' : JSRuntime) (flags : Z) (r : result) : Prop := (exists msg, r = JS_ThrowTypeErrorOrFalse s flags msg) /\ s' = s.

(** What the code tests after [check_define_prop_flags]. *)
Definition may_change (s : JSRuntime) (f : Z) (v : JSProperty) (val getter setter : JSValue) (flags : Z) : bool :=
  match v with
  | Value old => has f JS_PROP_CONFIGURABLE || has f JS_PROP_WRITABLE || negb (has flags JS_PROP_HAS_VALUE) || js_same_value val old
  | GetSet g st =>
      has f JS_PROP_CONFIGURABLE ||
      ((negb (has flags JS_PROP_HAS_GET) || bool_decide (accessor s getter = g)) && (negb (has flags JS_PROP_HAS_SET) || bool_decide (accessor s setter = st)))
  | Uninitialized => false
  end.

Section Define.
Context (s : JSRuntime) (p : Z) (d : dictionary) (name : Z) (i : nat) (f : Z) (v : JSProperty).
Context (val getter setter : JSValue) (flags : Z).
Context (Hok : objects_ok s) (L : located s p d name i f v) (Hflags : valid_flags flags = true).
Abbreviation desc := (descriptor s val getter setter flags).
Abbreviation may := (may_change s f v val getter setter flags).
Abbreviation accessors := (has flags JS_PROP_HAS_GET || has flags JS_PROP_HAS_SET).

Lemma value_kind : match v with Value _ => is_getset f = false | GetSet _ _ => is_getset f = true | Uninitialized => False end.
Proof using Hok L. exact (located_entry_ok s p d name i f v (proj2 Hok) L). Qed.

Lemma es_allowed_bits : es_allowed (es_of f v) desc = check_define_prop_flags f flags && may.
Proof using Hok L Hflags.
  destruct (valid_flags_spec _ Hflags) as (V1 & V2 & V3 & V4). pose proof value_kind as Hk. rewrite check_flags_bits. unfold es_allowed. rewrite accessor_given, data_given.
  unfold may_change, agrees, same_getter. destruct v as [|old|g st]; [done| |]; cbn [es_of es_configurable es_enumerable is_accessor_property].
  - rewrite Hk. destruct (has f JS_PROP_CONFIGURABLE); cbn [orb andb]; [done|]. unfold descriptor, from. cbn.
    destruct accessors eqn:Ea; [destruct (V4 eq_refl) as [-> ->]; cbn; now rewrite !andb_false_r|].
    destruct (has flags JS_PROP_HAS_CONFIGURABLE), (has flags JS_PROP_CONFIGURABLE), (has flags JS_PROP_HAS_ENUMERABLE), (Bool.eqb (has flags JS_PROP_ENUMERABLE) (has f JS_PROP_ENUMERABLE));
      cbn; try reflexivity; destruct (has f JS_PROP_WRITABLE), (has flags JS_PROP_HAS_VALUE), (has flags JS_PROP_HAS_WRITABLE), (has flags JS_PROP_WRITABLE); cbn; reflexivity.
  - rewrite Hk. destruct (has f JS_PROP_CONFIGURABLE); cbn [orb andb]; [done|]. unfold descriptor, from. cbn.
    destruct (has flags JS_PROP_HAS_CONFIGURABLE), (has flags JS_PROP_CONFIGURABLE), (has flags JS_PROP_HAS_ENUMERABLE), (Bool.eqb (has flags JS_PROP_ENUMERABLE) (has f JS_PROP_ENUMERABLE));
      cbn; try reflexivity; destruct (has flags JS_PROP_HAS_GET), (has flags JS_PROP_HAS_SET), (has flags JS_PROP_HAS_VALUE), (has flags JS_PROP_HAS_WRITABLE); cbn; reflexivity.
Qed.

(** The property after a step, before the attributes. *)
Definition changed (s' : JSRuntime) (f1 : Z) (v1 : JSProperty) : Prop :=
  updates s s' p (set_entry d name f1 v1) /\ located s' p (set_entry d name f1 v1) name i f1 v1 /\ entry_ok (name, f1, v1).

Definition stopped (r : option result) (s' : JSRuntime) : Prop :=
  r = Some OutOfMemory /\ mallocs s <> [] /\ exists o', becomes s s' p o' /\ only_props (es_object_of d) o'.

Abbreviation rejected r s' := (r = Some (not_configurable s flags) /\ s' = s /\ may = false).

Lemma changed_by_value s1 d1 f1 v1 v2 :
  updates s s1 p d1 -> d1 = set_entry d name f1 v1 \/ (d1 = d) -> located s1 p d1 name i f1 v1 -> entry_ok (name, f1, v2) ->
  exists s2, write_value s1 p i v2 = Some s2 /\ changed s2 f1 v2.
Proof using.
  intros U Hd L1 Hk. destruct (write_value_located s1 p d1 name i f1 v1 v2 L1) as (s2 & E & U2 & L2 & _). exists s2. split; [done|].
  assert (set_entry d1 name f1 v2 = set_entry d name f1 v2) as Ed by (destruct Hd as [->| ->]; [apply set_entry_twice | done]). rewrite Ed in *.
  split_and!; [apply (updates_trans s s1 s2 p d1); done | done | done].
Qed.

(** [getter] and [setter] of the arguments over those of the property. *)
Definition new_accessors (g st : option Z) : JSProperty := GetSet (from (ds_get desc) g) (from (ds_set desc) st).

Lemma write_accessors_spec s1 d1 f1 g st :
  contents s p = Some d -> updates s s1 p d1 -> d1 = set_entry d name f1 (GetSet g st) \/ d1 = d -> d_function d1 = d_function d -> located s1 p d1 name i f1 (GetSet g st) -> is_getset f1 = true ->
  exists s2, write_accessors s1 p i getter setter flags = Some s2 /\ changed s2 f1 (new_accessors g st).
Proof using Hok.
  intros Hc U Hd Hfn L1 Hg. unfold write_accessors. rewrite (located_value _ _ _ _ _ _ _ L1). cbn [mbind option_bind].
  rewrite !(accessor_updates s s1 p d d1 _ (proj1 Hok) Hc U Hfn).
  assert (GetSet (if has flags JS_PROP_HAS_GET then accessor s getter else g) (if has flags JS_PROP_HAS_SET then accessor s setter else st) = new_accessors g st) as ->
    by (unfold new_accessors, descriptor; cbn; now destruct (has flags JS_PROP_HAS_GET), (has flags JS_PROP_HAS_SET)).
  apply (changed_by_value s1 d1 f1 (GetSet g st)); done.
Qed.

Lemma define_accessor_spec :
  exists r s', define_accessor s p i getter setter flags = Some (r, s') /\
    (stopped r s' \/ rejected r s' \/
     (r = None /\ exists f1, flags_are f1 (has f JS_PROP_CONFIGURABLE) (has f JS_PROP_ENUMERABLE) false true /\ (is_getset f = true -> may = true) /\
        changed s' f1 (match v with GetSet g st => new_accessors g st | _ => new_accessors None None end))).
Proof using All.
  pose proof value_kind as Hk. pose proof (located_contents _ _ _ _ _ _ _ L) as Hd. pose proof (located_ordinary _ _ _ _ _ _ _ L) as Hf.
  unfold define_accessor. rewrite (located_flags _ _ _ _ _ _ _ L). cbn [mbind option_bind]. destruct (is_getset f) eqn:Hg; cbn [negb].
  - rewrite (located_value _ _ _ _ _ _ _ L). cbn [mbind option_bind]. destruct v as [|old|g st]; [done | done |].
    assert (negb (has f JS_PROP_CONFIGURABLE) &&
        ((has flags JS_PROP_HAS_GET && negb (bool_decide (accessor s getter = g))) || (has flags JS_PROP_HAS_SET && negb (bool_decide (accessor s setter = st)))) = negb (may_change s f (GetSet g st) val getter setter flags)) as ->.
    { unfold may_change. destruct (has f JS_PROP_CONFIGURABLE), (has flags JS_PROP_HAS_GET), (has flags JS_PROP_HAS_SET), (bool_decide (accessor s getter = g)), (bool_decide (accessor s setter = st)); reflexivity. }
    destruct (may_change s f (GetSet g st) val getter setter flags) eqn:Em; cbn [negb]; [|do 2 eexists; split; [reflexivity | right; left; done]].
    destruct (write_accessors_spec s d f g st) as (s2 & -> & C); [done | apply updates_refl; [apply Hok | done] | now right | done | done | done |].
    cbn [mbind option_bind]. do 2 eexists. split; [reflexivity|]. right. right. split; [done|]. exists f. split; [|done].
    unfold flags_are. split_and!; try done. clear -Hf Hg. ordinary_cases Hf; try discriminate Hg; reflexivity.
  - destruct (prepare_located _ _ _ _ _ _ _ L) as (r & s1 & -> & U & [[-> Hm]|(-> & L1 & O1)]); cbn [mbind option_bind Z.eqb negb].
    { do 2 eexists. split; [reflexivity|]. left. split_and!; [done | done|]. exists (es_object_of d). split; [|done]. apply updates_becomes; [apply Hok | done | apply (proj2 Hok p d Hd)]. }
    pose proof (to_accessor_flags f Hf) as Hfl. set (f1 := Z.lor _ _) in *.
    destruct (write_flags_located _ _ _ _ _ _ _ f1 L1 O1 (proj1 Hfl)) as (s2 & -> & U2 & L2 & O2). cbn [mbind option_bind].
    destruct (changed_by_value s2 (set_entry d name f1 v) f1 v (GetSet None None)) as (s3 & -> & U3 & L3 & _);
      [apply (updates_trans _ _ _ _ _ _ U U2) | now left | done | apply Hfl |]. cbn [mbind option_bind].
    destruct (write_accessors_spec s3 (set_entry d name f1 (GetSet None None)) f1 None None) as (s4 & -> & C); [done | done | now left | done | done | apply Hfl|].
    cbn [mbind option_bind]. do 2 eexists. split; [reflexivity|]. right. right. split; [done|]. exists f1. split; [exact Hfl|]. split; [done|].
    destruct v; [done | exact C | congruence].
Qed.

(** The value and [writable] of a data property, over the old ones. *)
Definition new_value (old : JSValue) : JSProperty := Value (from (ds_value desc) old).

Lemma write_data_spec s1 d1 f1 old :
  updates s s1 p d1 -> d1 = set_entry d name f1 (Value old) \/ d1 = d -> located s1 p d1 name i f1 (Value old) -> is_getset f1 = false -> values_ok s ->
  Forall entry_ok (d_entries d) ->
  exists r s2,
    (s1 ← (if has flags JS_PROP_HAS_VALUE then write_value s1 p i (Value val) else Some s1);
     if has flags JS_PROP_HAS_WRITABLE then
       f ← prop_flags s1 p i;
       '(r, s1) ← js_update_property_flags s1 p i (Z.lor (Z.land f (Z.lnot JS_PROP_WRITABLE)) (Z.land flags JS_PROP_WRITABLE));
       Some (if negb (r =? 0) then Some OutOfMemory else None, s1)
     else Some (None, s1)) = Some (r, s2) /\
    (stopped r s2 \/
     (r = None /\ exists f2, changed s2 f2 (new_value old) /\
        flags_are f2 (has f1 JS_PROP_CONFIGURABLE) (has f1 JS_PROP_ENUMERABLE) (from (ds_writable desc) (has f1 JS_PROP_WRITABLE)) false)).
Proof using.
  intros U Hd L1 Hg Hv Hde. pose proof (located_ordinary _ _ _ _ _ _ _ L1) as Hf1.
  assert (exists s2 d2, (if has flags JS_PROP_HAS_VALUE then write_value s1 p i (Value val) else Some s1) = Some s2 /\ updates s s2 p d2 /\
    (d2 = set_entry d name f1 (new_value old) \/ d2 = d) /\ located s2 p d2 name i f1 (new_value old)) as (s2 & d2 & -> & U2 & Hd2 & L2).
  { unfold new_value, descriptor. cbn. destruct (has flags JS_PROP_HAS_VALUE); cbn.
    - destruct (changed_by_value s1 d1 f1 (Value old) (Value val) U Hd L1) as (s2 & E & C1 & C2 & _); [done|]. exists s2, (set_entry d name f1 (Value val)).
      split_and!; [done | done | now left | done].
    - exists s1, d1. split_and!; done. }
  cbn [mbind option_bind].
  assert (Forall entry_ok (d_entries d2)) as Hd2e by (destruct Hd2 as [->| ->]; [now apply set_entry_ok | done]).
  assert (forall f', set_entry d2 name f' (new_value old) = set_entry d name f' (new_value old)) as Ed by (intros f'; destruct Hd2 as [->| ->]; [apply set_entry_twice | done]).
  change (ds_writable desc) with (if has flags JS_PROP_HAS_WRITABLE then Some (has flags JS_PROP_WRITABLE) else None).
  destruct (has flags JS_PROP_HAS_WRITABLE) eqn:Hw; cbn [from].
  - rewrite (located_flags _ _ _ _ _ _ _ L2). cbn [mbind option_bind]. pose proof (update_writable_flags f1 flags Hf1 Hg) as Hfl. set (f2 := Z.lor _ _) in *.
    destruct (update_flags_located _ _ _ _ _ _ _ f2 L2 (proj1 Hfl)) as (r & s3 & -> & [(-> & Hm & U3)|(-> & U3 & L3)]); cbn [mbind option_bind Z.eqb negb].
    + do 2 eexists. split; [reflexivity|]. left. pose proof (updates_trans _ _ _ _ _ _ U2 U3) as U4. split; [done|]. split; [intros E; apply Hm, (up_mallocs _ _ _ _ U2), E|].
      exists (es_object_of d2). split; [now apply updates_becomes | now destruct Hd2 as [->| ->]].
    + do 2 eexists. split; [reflexivity|]. right. split; [done|]. exists f2. rewrite Ed in *. split; [|exact Hfl]. split_and!; [apply (updates_trans _ _ _ _ _ _ U2 U3) | done | apply Hfl].
  - do 2 eexists. split; [reflexivity|]. right. split; [done|]. exists f1. split; [|split_and!; done].
    assert (d2 = set_entry d name f1 (new_value old)) as Ed2.
    { destruct Hd2 as [Hd2|Hd2]; [done|]. rewrite <- Ed. symmetry. apply (set_entry_id s2 p d2 name i), L2. }
    rewrite Ed2 in U2, L2. split_and!; done.
Qed.

Lemma define_value_spec :
  has flags JS_PROP_HAS_VALUE || has flags JS_PROP_HAS_WRITABLE = true ->
  exists r s', define_value s p i val flags = Some (r, s') /\
    (stopped r s' \/ rejected r s' \/
     (r = Some (Done true) /\ s' = s /\ may = true /\ exists old, v = Value old /\ has f JS_PROP_CONFIGURABLE = false /\ has f JS_PROP_WRITABLE = false /\ is_getset f = false) \/
     (r = None /\ exists f1, flags_are f1 (has f JS_PROP_CONFIGURABLE) (has f JS_PROP_ENUMERABLE)
          (from (ds_writable desc) (if is_getset f then false else has f JS_PROP_WRITABLE)) false /\ (is_getset f = false -> may = true /\ has f JS_PROP_CONFIGURABLE || has f JS_PROP_WRITABLE || negb (has flags JS_PROP_HAS_VALUE) = true) /\
        changed s' f1 (match v with Value old => new_value old | _ => new_value undefined end))).
Proof using All.
  intros _. pose proof value_kind as Hk. pose proof (located_contents _ _ _ _ _ _ _ L) as Hd. pose proof (located_ordinary _ _ _ _ _ _ _ L) as Hf.
  pose proof (proj2 Hok p d Hd) as Hde.
  unfold define_value. rewrite (located_flags _ _ _ _ _ _ _ L). cbn [mbind option_bind]. rewrite (located_value _ _ _ _ _ _ _ L). cbn [mbind option_bind].
  destruct (is_getset f) eqn:Hg.
  - destruct (prepare_located _ _ _ _ _ _ _ L) as (r & s1 & -> & U & [[-> Hm]|(-> & L1 & O1)]); cbn [mbind option_bind Z.eqb negb].
    { do 2 eexists. split; [reflexivity|]. left. split_and!; [done | done|]. exists (es_object_of d). split; [|done]. apply updates_becomes; [apply Hok | done | done]. }
    pose proof (to_data_flags f Hf) as Hfl. set (f1 := Z.land _ _) in *. pose proof Hfl as (_ & F1 & F2 & F3 & F4).
    destruct (write_flags_located _ _ _ _ _ _ _ f1 L1 O1 (proj1 Hfl)) as (s2 & -> & U2 & L2 & O2). cbn [mbind option_bind].
    destruct (changed_by_value s2 (set_entry d name f1 v) f1 v (Value undefined)) as (s3 & -> & U3 & L3 & _);
      [apply (updates_trans _ _ _ _ _ _ U U2) | now left | done | exact F4 |]. cbn [mbind option_bind].
    destruct (write_data_spec s3 (set_entry d name f1 (Value undefined)) f1 undefined) as (r & s4 & E & H); [done | now left | done | exact F4 | apply Hok | done|].
    exists r, s4. split; [exact E|]. destruct H as [H|(-> & f2 & C & Hf2)]; [now left|]. right. right. right. split; [done|]. exists f2. rewrite F1, F2, F3 in Hf2.
    split; [exact Hf2|]. split; [done|]. destruct v; [done | congruence | exact C].
  - destruct v as [|old|g st] eqn:Ev; [done | | congruence].
    assert ((if negb (has f (Z.lor JS_PROP_CONFIGURABLE JS_PROP_WRITABLE)) && has flags JS_PROP_HAS_VALUE then Some (js_same_value val old) else None) = Some false /\
              may_change s f (Value old) val getter setter flags = false \/
            (if negb (has f (Z.lor JS_PROP_CONFIGURABLE JS_PROP_WRITABLE)) && has flags JS_PROP_HAS_VALUE then Some (js_same_value val old) else None) = Some true /\
              may_change s f (Value old) val getter setter flags = true /\ has f JS_PROP_CONFIGURABLE = false /\ has f JS_PROP_WRITABLE = false \/
            (if negb (has f (Z.lor JS_PROP_CONFIGURABLE JS_PROP_WRITABLE)) && has flags JS_PROP_HAS_VALUE then Some (js_same_value val old) else None) = None /\
              may_change s f (Value old) val getter setter flags = true /\ has f JS_PROP_CONFIGURABLE || has f JS_PROP_WRITABLE || negb (has flags JS_PROP_HAS_VALUE) = true) as Hs.
    { rewrite has_lor. unfold may_change. destruct (has f JS_PROP_CONFIGURABLE), (has f JS_PROP_WRITABLE), (has flags JS_PROP_HAS_VALUE), (js_same_value val old); cbn; auto 6. }
    destruct Hs as [(-> & Hmay)|[(-> & Hmay & Hc & Hw)|(-> & Hmay & Hkeep)]]; cbn [mbind option_bind].
    + do 2 eexists. split; [reflexivity|]. right. now left.
    + do 2 eexists. split; [reflexivity|]. right. right. left. split_and!; [done | done | done|]. exists old. done.
    + destruct (write_data_spec s d f old) as (r & s4 & E & H); [apply updates_refl; [apply Hok | done] | now right | done | done | apply Hok | done|].
      exists r, s4. split; [exact E|]. destruct H as [H|(-> & f2 & C & Hf2)]; [now left|]. right. right. right. split; [done|]. exists f2. done.
Qed.
End Define.

(** The last step of [JS_DefineProperty]: the attributes. *)
Lemma define_attributes s p d name i f0 v0 val getter setter flags s1 f1 v1 :
  objects_ok s -> located s p d name i f0 v0 -> changed s p d name i s1 f1 v1 \/ (s1 = s /\ f1 = f0 /\ v1 = v0) ->
  exists r s2,
    (f ← prop_flags s1 p i;
     let mask := Z.lor (if has flags JS_PROP_HAS_CONFIGURABLE then JS_PROP_CONFIGURABLE else 0)
                       (if has flags JS_PROP_HAS_ENUMERABLE then JS_PROP_ENUMERABLE else 0) in
     '(r, s1) ← js_update_property_flags s1 p i (Z.lor (Z.land f (Z.lnot mask)) (Z.land flags mask));
     Some (if negb (r =? 0) then OutOfMemory else Done true, s1)) = Some (r, s2) /\
    (out_of_memory s s2 p (es_object_of d) r \/
     (r = Done true /\ exists f2, becomes s s2 p (es_object_of (set_entry d name f2 v1)) /\
        flags_are f2 (from (ds_configurable (descriptor s val getter setter flags)) (has f1 JS_PROP_CONFIGURABLE))
          (from (ds_enumerable (descriptor s val getter setter flags)) (has f1 JS_PROP_ENUMERABLE)) (has f1 JS_PROP_WRITABLE) (is_getset f1))).
Proof.
  intros Hok L Hc. pose proof (proj2 Hok p d (located_contents _ _ _ _ _ _ _ L)) as Hde.
  assert (exists d1, updates s s1 p d1 /\ located s1 p d1 name i f1 v1 /\ entry_ok (name, f1, v1) /\ Forall entry_ok (d_entries d1) /\
    (forall f', set_entry d1 name f' v1 = set_entry d name f' v1) /\ only_props (es_object_of d) (es_object_of d1)) as (d1 & U1 & L1 & K1 & Hd1 & Ed & Ho1).
  { destruct Hc as [(U & L1 & K)|(-> & -> & ->)].
    - exists (set_entry d name f1 v1). split_and!; try done; [now apply set_entry_ok | intros f'; apply set_entry_twice].
    - exists d. split_and!; try done; [apply updates_refl; [apply Hok | apply (located_contents _ _ _ _ _ _ _ L)] | apply (located_entry_ok s p d name i); [apply Hok | done]]. }
  rewrite (located_flags _ _ _ _ _ _ _ L1). cbn [mbind option_bind].
  pose proof (update_attribute_flags f1 flags (located_ordinary _ _ _ _ _ _ _ L1)) as Hfl. fold (attribute_mask flags). cbv zeta. set (f2 := Z.lor _ _) in *.
  destruct (update_flags_located _ _ _ _ _ _ _ f2 L1 (proj1 Hfl)) as (r & s2 & -> & [(-> & Hm & U2)|(-> & U2 & L2)]); cbn [mbind option_bind Z.eqb negb];
    do 2 eexists; (split; [reflexivity|]); [left | right].
  - split; [done|]. split; [intros E; apply Hm, (up_mallocs _ _ _ _ U1), E|]. exists (es_object_of d1). split; [|exact Ho1].
    apply updates_becomes; [apply Hok | apply (updates_trans _ _ _ _ _ _ U1 U2) | done].
  - split; [done|]. exists f2. split.
    + rewrite <- Ed. apply updates_becomes; [apply Hok | apply (updates_trans _ _ _ _ _ _ U1 U2) | apply set_entry_ok; [done|]].
      destruct Hfl as (_ & _ & _ & _ & Hg). unfold entry_ok in *. cbn in *. now rewrite Hg.
    + unfold descriptor. cbn. destruct Hfl as (G1 & G2 & G3 & G4 & G5). split_and!; [done | rewrite G2 | rewrite G3 | done | done];
        [now destruct (has flags JS_PROP_HAS_CONFIGURABLE) | now destruct (has flags JS_PROP_HAS_ENUMERABLE)].
Qed.

Lemma es_update_id l name f v : NoDup (map entry_name l) -> (name, f, v) ∈ l -> es_update name (es_of f v) (map es_entry l) = map es_entry l.
Proof.
  intros Hnd Hin. unfold es_update. rewrite map_map. apply map_ext_in. intros e He. unfold es_entry at 1. cbn. destruct (Z.eqb_spec (entry_name e) name) as [E|]; [|done].
  apply list_elem_of_In in He. rewrite (entry_unique l e (name, f, v) Hnd He Hin E). done.
Qed.

(** The property that the flags [f2] and the value describe is the one the
    specification builds. *)
Lemma es_apply_flags (d : es_descriptor) f v f1 v1 f2 :
  match v with Value _ => is_getset f = false | GetSet _ _ => is_getset f = true | Uninitialized => False end ->
  is_accessor_descriptor d && is_data_descriptor d = false ->
  flags_are f2 (from (ds_configurable d) (has f JS_PROP_CONFIGURABLE)) (from (ds_enumerable d) (has f JS_PROP_ENUMERABLE)) (has f1 JS_PROP_WRITABLE) (is_getset f1) ->
  (if is_accessor_descriptor d then
     v1 = match v with GetSet g st => GetSet (from (ds_get d) g) (from (ds_set d) st) | _ => GetSet (from (ds_get d) None) (from (ds_set d) None) end
   else if is_data_descriptor d then
     v1 = match v with
          | Value old => Value (if has f JS_PROP_CONFIGURABLE || has f JS_PROP_WRITABLE then from (ds_value d) old else old)
          | _ => Value (from (ds_value d) undefined)
          end /\
     has f1 JS_PROP_WRITABLE = from (ds_writable d) (if is_getset f then false else has f JS_PROP_WRITABLE)
   else v1 = v /\ has f1 JS_PROP_WRITABLE = has f JS_PROP_WRITABLE) ->
  es_of f2 v1 = es_apply (es_of f v) d.
Proof.
  intros Hk Hx (_ & G2 & G3 & G4 & _) H. unfold es_apply. destruct v as [|old|g st]; [done| |]; cbn [es_of es_enumerable es_configurable].
  - rewrite Hk in H. destruct (is_accessor_descriptor d); [subst v1; cbn; now rewrite G2, G3|].
    destruct (is_data_descriptor d) eqn:Ed; destruct H as [-> Hw]; cbn; rewrite G2, G3, G4, Hw; [done|].
    unfold is_data_descriptor in Ed. destruct (ds_value d), (ds_writable d); try discriminate Ed. cbn. now destruct (has f JS_PROP_CONFIGURABLE || has f JS_PROP_WRITABLE).
  - rewrite Hk in H. destruct (is_accessor_descriptor d) eqn:Ea; cbn in Hx; [rewrite Hx; subst v1; cbn; now rewrite G2, G3|].
    destruct (is_data_descriptor d) eqn:Ed; destruct H as [-> Hw]; cbn; rewrite G2, G3, ?G4, ?Hw; [done|].
    unfold is_accessor_descriptor in Ea. destruct (ds_get d), (ds_set d); try discriminate Ea. done.
Qed.

(** *** A property that is there *)

Section Existing.
Context (s : JSRuntime) (p : Z) (d : dictionary) (name : Z) (i : nat) (f : Z) (v : JSProperty).
Context (val getter setter : JSValue) (flags : Z).
Context (Hok : objects_ok s) (L : located s p d name i f v) (Hflags : valid_flags flags = true) (Hcheck : check_define_prop_flags f flags = true).
Abbreviation D := (descriptor s val getter setter flags).
Abbreviation may := (may_change s f v val getter setter flags).
Abbreviation final := (with_e_props (es_object_of d) (es_update name (es_apply (es_of f v) D) (e_props (es_object_of d)))).

Lemma not_both : is_accessor_descriptor D && is_data_descriptor D = false.
Proof using Hflags.
  rewrite accessor_given, data_given. destruct (valid_flags_spec _ Hflags) as (_ & _ & _ & V4). destruct (has flags JS_PROP_HAS_GET || has flags JS_PROP_HAS_SET); [|done].
  now destruct (V4 eq_refl) as [-> ->].
Qed.

(** The attributes after the rest of the property was changed. *)
Lemma define_end s1 f1 v1 :
  changed s p d name i s1 f1 v1 \/ (s1 = s /\ f1 = f /\ v1 = v) ->
  has f1 JS_PROP_CONFIGURABLE = has f JS_PROP_CONFIGURABLE -> has f1 JS_PROP_ENUMERABLE = has f JS_PROP_ENUMERABLE ->
  (forall f2, flags_are f2 (from (ds_configurable D) (has f JS_PROP_CONFIGURABLE)) (from (ds_enumerable D) (has f JS_PROP_ENUMERABLE)) (has f1 JS_PROP_WRITABLE) (is_getset f1) ->
     es_of f2 v1 = es_apply (es_of f v) D) ->
  exists r s', (f ← prop_flags s1 p i;
    let mask := Z.lor (if has flags JS_PROP_HAS_CONFIGURABLE then JS_PROP_CONFIGURABLE else 0) (if has flags JS_PROP_HAS_ENUMERABLE then JS_PROP_ENUMERABLE else 0) in
    '(r, s) ← js_update_property_flags s1 p i (Z.lor (Z.land f (Z.lnot mask)) (Z.land flags mask));
    Some (if negb (r =? 0) then OutOfMemory else Done true, s)) = Some (r, s') /\
    (out_of_memory s s' p (es_object_of d) r \/ (r = Done true /\ becomes s s' p final)).
Proof using Hok L.
  intros Hc Ec Ee Hap. destruct (define_attributes s p d name i f v val getter setter flags s1 f1 v1 Hok L Hc) as (r & s2 & E & H).
  exists r, s2. split; [exact E|]. destruct H as [H|(-> & f2 & B & Hfl)]; [left; exact H | right]. split; [done|].
  rewrite Ec, Ee in Hfl. rewrite <- (Hap f2 Hfl), <- es_set_entry. exact B.
Qed.

(** An equal value of a constant property: nothing is done. *)
Lemma apply_constant old :
  v = Value old -> has f JS_PROP_CONFIGURABLE = false -> has f JS_PROP_WRITABLE = false -> is_getset f = false ->
  has flags JS_PROP_HAS_GET || has flags JS_PROP_HAS_SET = false -> es_apply (es_of f v) D = es_of f v.
Proof using Hflags Hcheck.
  intros Ev Hc Hw Hg Ha. destruct (valid_flags_spec _ Hflags) as (V1 & _). pose proof Hcheck as Hcheck'. rewrite check_flags_bits, Hc, Hw, Hg, Ha in Hcheck'. rewrite Ev.
  unfold es_apply, es_of. cbn [es_enumerable es_configurable]. rewrite accessor_given, Ha, Hc, Hw. unfold descriptor. cbn. cbn in Hcheck'. rewrite !andb_true_iff in Hcheck'.
  destruct Hcheck' as [[H1 H2] H3].
  destruct (has flags JS_PROP_HAS_CONFIGURABLE), (has flags JS_PROP_CONFIGURABLE); try discriminate H1; cbn;
    (destruct (has flags JS_PROP_HAS_ENUMERABLE); cbn in *; [apply Bool.eqb_prop in H2; rewrite H2|]);
    (destruct (has flags JS_PROP_HAS_WRITABLE), (has flags JS_PROP_WRITABLE); try discriminate (V1 eq_refl); cbn in *; rewrite ?orb_true_r in H3; try discriminate H3; done).
Qed.

(** A change of kind passed the test of the attributes. *)
Lemma kind_may accessors :
  has flags JS_PROP_HAS_GET || has flags JS_PROP_HAS_SET = accessors -> has flags JS_PROP_HAS_VALUE || has flags JS_PROP_HAS_WRITABLE || accessors = true ->
  (is_getset f = accessors -> may = true) -> may = true.
Proof using Hok L Hcheck.
  intros Ha Hany Hmay. destruct (Bool.bool_dec (is_getset f) accessors) as [E|Hne]; [auto|]. pose proof Hcheck as Hcheck'. rewrite check_flags_bits, Ha in Hcheck'.
  assert (Bool.eqb accessors (is_getset f) = false) as Hx by (apply eqb_false_iff; congruence). rewrite Hx, Hany in Hcheck'.
  pose proof (located_entry_ok s p d name i f v (proj2 Hok) L) as Hk. unfold entry_ok in Hk. unfold may_change.
  destruct (has f JS_PROP_CONFIGURABLE); [now destruct v|]. cbn in Hcheck'. now rewrite andb_false_r in Hcheck'.
Qed.

Lemma attributes_may :
  has flags JS_PROP_HAS_GET || has flags JS_PROP_HAS_SET = false -> has flags JS_PROP_HAS_VALUE || has flags JS_PROP_HAS_WRITABLE = false -> may = true.
Proof using Hok L.
  intros [Hg Hs]%orb_false_iff [Hv Hw]%orb_false_iff. pose proof (located_entry_ok s p d name i f v (proj2 Hok) L) as Hk. unfold entry_ok in Hk.
  unfold may_change. rewrite Hg, Hs, Hv. destruct v; [done | |]; cbn; now rewrite ?orb_true_r.
Qed.

Lemma define_existing :
  exists r s',
    ('(r, s) ← (if has flags (Z.lor JS_PROP_HAS_GET JS_PROP_HAS_SET) then define_accessor s p i getter setter flags
                else if has flags (Z.lor JS_PROP_HAS_VALUE JS_PROP_HAS_WRITABLE) then define_value s p i val flags
                else Some (None, s));
     match r with
     | Some r => Some (r, s)
     | None =>
         f ← prop_flags s p i;
         let mask := Z.lor (if has flags JS_PROP_HAS_CONFIGURABLE then JS_PROP_CONFIGURABLE else 0)
                           (if has flags JS_PROP_HAS_ENUMERABLE then JS_PROP_ENUMERABLE else 0) in
         '(r, s) ← js_update_property_flags s p i (Z.lor (Z.land f (Z.lnot mask)) (Z.land flags mask));
         Some (if negb (r =? 0) then OutOfMemory else Done true, s)
     end) = Some (r, s') /\
    (out_of_memory s s' p (es_object_of d) r \/ if may then r = Done true /\ becomes s s' p final else refused s s' flags r).
Proof using All.
  pose proof (located_entry_ok s p d name i f v (proj2 Hok) L) as Hk. unfold entry_ok in Hk. cbn [fst snd] in Hk. destruct (located_entry _ _ _ _ _ _ _ L) as [Hin Hnd].
  rewrite !has_lor. pose proof (accessor_given s getter setter flags val) as HaD. pose proof (data_given s getter setter flags val) as HdD.
  destruct (has flags JS_PROP_HAS_GET || has flags JS_PROP_HAS_SET) eqn:Ha; [|destruct (has flags JS_PROP_HAS_VALUE || has flags JS_PROP_HAS_WRITABLE) eqn:Hd].
  - destruct (define_accessor_spec s p d name i f v val getter setter flags Hok L Hflags) as (r & s1 & -> & [(-> & Hm & Ho)|[(-> & -> & ->)|(-> & f1 & Hfl & Hmay & C)]]); cbn [mbind option_bind].
    + do 2 eexists. split; [reflexivity|]. left. done.
    + do 2 eexists. split; [reflexivity|]. right. split; [now eexists | done].
    + rewrite (kind_may true Ha (orb_true_r _) Hmay). destruct Hfl as (G1 & G2 & G3 & G4 & G5). apply (define_end s1 f1 _ (or_introl C) G2 G3). intros f2 Hf2.
      apply (es_apply_flags D f v f1); [exact Hk | exact not_both | exact Hf2|]. rewrite HaD. now destruct v.
  - destruct (define_value_spec s p d name i f v val getter setter flags Hok L Hflags Hd) as (r & s1 & -> & [(-> & Hm & Ho)|[(-> & -> & ->)|[(-> & -> & -> & old & Ev & Hc & Hw & Hg)|(-> & f1 & Hfl & Hmay & C)]]]);
      cbn [mbind option_bind].
    + do 2 eexists. split; [reflexivity|]. left. done.
    + do 2 eexists. split; [reflexivity|]. right. split; [now eexists | done].
    + do 2 eexists. split; [reflexivity|]. right. split; [done|]. rewrite (apply_constant old Ev Hc Hw Hg Ha).
      change (e_props (es_object_of d)) with (map es_entry (d_entries d)). rewrite es_update_id by done.
      apply becomes_refl; [done|]. unfold view. now rewrite (located_contents _ _ _ _ _ _ _ L).
    + rewrite (kind_may false Ha ltac:(now rewrite orb_false_r) (fun H => proj1 (Hmay H))). destruct Hfl as (G1 & G2 & G3 & G4 & G5).
      apply (define_end s1 f1 _ (or_introl C) G2 G3). intros f2 Hf2.
      apply (es_apply_flags D f v f1); [exact Hk | exact not_both | exact Hf2|]. rewrite HaD, HdD. split; [|exact G4].
      destruct v as [|old|g st]; [done | | done]. unfold new_value. destruct (has f JS_PROP_CONFIGURABLE || has f JS_PROP_WRITABLE) eqn:Ecw; [done|].
      destruct (Hmay Hk) as [_ Hkeep]. cbn in Hkeep. unfold descriptor. cbn. now destruct (has flags JS_PROP_HAS_VALUE).
  - cbn [mbind option_bind]. rewrite (attributes_may Ha Hd). apply (define_end s f v (or_intror (conj eq_refl (conj eq_refl eq_refl))) eq_refl eq_refl). intros f2 Hf2.
    apply (es_apply_flags D f v f); [exact Hk | exact not_both | exact Hf2|]. rewrite HaD, HdD. done.
Qed.
End Existing.

(** What [find_own_property] finds is what the specification looks up. *)
Lemma own_lookup s p d name :
  objects_ok s -> contents s p = Some d -> name <> JS_ATOM_NULL ->
  exists r, find_own_property s p name = Some r /\
    match r with
    | Some i => exists f v, located s p d name i f v /\ entry_ok (name, f, v) /\ es_lookup name (e_props (es_object_of d)) = Some (es_of f v)
    | None => (name ∉ names d) /\ es_lookup name (e_props (es_object_of d)) = None
    end.
Proof.
  intros [R Hv] Hd Hn. destruct (find_own_spec s p d name R Hd Hn) as (r & E & H). exists r. split; [exact E|]. destruct r as [i|].
  - destruct H as (f & v & L). destruct (located_entry _ _ _ _ _ _ _ L) as [Hin Hnd]. exists f, v.
    split_and!; [done | apply (located_entry_ok s p d name i f v Hv L) | apply es_lookup_entry; done].
  - split; [done | now apply es_lookup_none].
Qed.

Lemma define_spec s p d name val getter setter flags :
  objects_ok s -> contents s p = Some d -> name <> JS_ATOM_NULL -> has_room s p -> valid_flags flags = true ->
  exists r s', JS_DefineProperty s p name val getter setter flags = Some (r, s') /\
    (out_of_memory s s' p (es_object_of d) r \/
     match es_define (es_object_of d) name (descriptor s val getter setter flags) with
     | Some o' => r = Done true /\ becomes s s' p o'
     | None => refused s s' flags r
     end).
Proof.
  intros Hok Hd Hn Hroom Hflags. unfold JS_DefineProperty, es_define. destruct (own_lookup s p d name Hok Hd Hn) as ([i|] & -> & H); cbn [mbind option_bind].
  - destruct H as (f & v & L & _ & ->). rewrite (located_flags _ _ _ _ _ _ _ L). cbn [mbind option_bind].
    rewrite (es_allowed_bits s p d name i f v val getter setter flags Hok L Hflags). destruct (check_define_prop_flags f flags) eqn:Hcheck; cbn [negb andb].
    + destruct (define_existing s p d name i f v val getter setter flags Hok L Hflags Hcheck) as (r & s' & E & H). exists r, s'. split; [exact E|].
      destruct H as [H|H]; [now left | right]. now destruct (may_change s f v val getter setter flags).
    + do 2 eexists. split; [reflexivity|]. right. split; [now eexists | done].
  - destruct H as [Hfresh ->]. destruct (create_property_spec s p d name val getter setter flags Hok Hd Hn Hfresh Hroom Hflags) as (r & s' & E & H).
    exists r, s'. split; [exact E|]. destruct H as [(-> & Hm & B)|H]; [left; split_and!; [done | done | eexists; split; [exact B | done]] | right].
    change (e_extensible (es_object_of d)) with (d_extensible d). destruct (d_extensible d); [done|]. destruct H as [-> ->]. split; [now eexists | done].
Qed.
