(* ===== verification/ObjectsChain.v ===== *)
(** * Prototype chains

    The chain of prototypes of every object ends, so that the loops of
    [JS_HasProperty], [JS_GetPropertyInternal], [JS_SetPropertyInternal] and
    [JS_SetPrototypeInternal] do, within as many steps as there are objects; and
    what these do is what the specification says of the objects of the chain. *)

From Stdlib Require Import ZArith Lia Bool.
From stdpp Require Import base numbers list option gmap fin_maps strings.
From S2P Require Import Prelude Limbs BigInt Numeric Shapes Objects ShapesInv ObjectsInv ObjectsNew ObjectsSpec.

#[local] Open Scope Z_scope.

(** ** Chains *)

Inductive proto_chain (s : JSRuntime) : option Z -> list Z -> Prop :=
| chain_end : proto_chain s None []
| chain_step p d l : contents s p = Some d -> proto_chain s (d_proto d) l -> proto_chain s (Some p) (p :: l).

Definition protos_ok (s : JSRuntime) : Prop := forall p, is_Some (contents s p) -> exists l, proto_chain s (Some p) l.

(** A prototype is an object, or none. *)
Definition is_object (s : JSRuntime) (p1 : option Z) : Prop := match p1 with Some p => is_Some (contents s p) | None => True end.

Lemma chain_exists s p1 : protos_ok s -> is_object s p1 -> exists l, proto_chain s p1 l.
Proof. intros H Hp. destruct p1 as [p|]; [auto | exists []; constructor]. Qed.

Lemma chain_unique s p1 l1 : proto_chain s p1 l1 -> forall l2, proto_chain s p1 l2 -> l1 = l2.
Proof.
  induction 1 as [|p d l1 Hd Hc IH]; intros l2 H2; inversion H2 as [|p' d' l' Hd' Hc']; subst; [done|]. rewrite Hd in Hd'. injection Hd' as <-.
  f_equal. now apply IH.
Qed.

Lemma chain_suffix s p1 l : proto_chain s p1 l -> forall q, q ∈ l -> exists k, (k <= length l)%nat /\ proto_chain s (Some q) (drop k l) /\ (0 < length (drop k l))%nat.
Proof.
  induction 1 as [|p d l Hd Hc IH]; intros q Hq; [now apply elem_of_nil in Hq|]. apply elem_of_cons in Hq as [->|Hq].
  - exists 0%nat. cbn. split_and!; [lia | now apply (chain_step s p d) | lia].
  - destruct (IH q Hq) as (k & Hk & Hck & Hlt). exists (S k). cbn. split_and!; [lia | done | done].
Qed.

Lemma chain_NoDup s p1 l : proto_chain s p1 l -> NoDup l.
Proof.
  induction 1 as [|p d l Hd Hc IH]; [constructor|]. apply NoDup_cons. split; [|done]. intros Hin.
  destruct (chain_suffix s _ l Hc p Hin) as (k & Hk & Hck & _). pose proof (chain_unique s _ _ (chain_step s p d l Hd Hc) _ Hck) as E.
  apply (f_equal length) in E. cbn in E. rewrite length_drop in E. lia.
Qed.

Lemma chain_contents s p1 l : proto_chain s p1 l -> forall q, q ∈ l -> is_Some (contents s q).
Proof. induction 1 as [|p d l Hd Hc IH]; intros q Hq; [now apply elem_of_nil in Hq|]. apply elem_of_cons in Hq as [->|Hq]; eauto. Qed.

Lemma chain_length s p1 l : proto_chain s p1 l -> (length l <= size (objects s))%nat.
Proof.
  intros Hc. pose proof (chain_NoDup _ _ _ Hc) as Hnd.
  assert (list_to_set l ⊆ (dom (objects s) : gset Z)) as Hsub.
  { intros q Hq. apply elem_of_list_to_set in Hq. destruct (chain_contents _ _ _ Hc q Hq) as [d Hd]. apply elem_of_dom. unfold contents in Hd.
    destruct (objects s !! q); [eauto | discriminate]. }
  apply subseteq_size in Hsub. rewrite size_list_to_set, size_dom in Hsub by done. done.
Qed.

(** What [shape->proto] is. *)
Lemma prototype_spec s p d : runtime_ok s -> contents s p = Some d -> prototype s p = Some (d_proto d).
Proof.
  intros R Hd. destruct (contents_inv s p d R Hd) as (o & sh & Ho & Hsh & -> & _). unfold prototype. rewrite Ho. cbn. now rewrite Hsh.
Qed.

Lemma on_chain_spec s p p1 l : runtime_ok s -> proto_chain s p1 l -> forall fuel, (length l <= fuel)%nat -> on_prototype_chain fuel s p p1 = Some (bool_decide (p ∈ l)).
Proof.
  intros R. induction 1 as [|q d l Hd Hc IH]; intros fuel Hf.
  - destruct fuel; cbn; rewrite bool_decide_false by apply not_elem_of_nil; done.
  - destruct fuel as [|fuel]; [cbn in Hf; lia|]. cbn [on_prototype_chain]. destruct (Z.eqb_spec q p) as [->|Hne].
    + rewrite bool_decide_true by apply list_elem_of_here. done.
    + rewrite (prototype_spec s q d R Hd). cbn [mbind option_bind]. rewrite IH by (cbn in Hf; lia). f_equal. apply bool_decide_ext. rewrite elem_of_cons.
      split; [auto | intros [->|]; done].
Qed.

(** ** Chains through changes *)

Definition proto_of (s : JSRuntime) (p : Z) : option (option Z) := d ← contents s p; Some (d_proto d).

Lemma chain_transfer s s' p1 l : proto_chain s p1 l -> (forall q, q ∈ l -> proto_of s' q = proto_of s q) -> proto_chain s' p1 l.
Proof.
  induction 1 as [|p d l Hd Hc IH]; intros H; [constructor|]. pose proof (H p (list_elem_of_here _ _)) as E. unfold proto_of in E. rewrite Hd in E. cbn in E.
  destruct (contents s' p) as [d'|] eqn:Hd'; [|discriminate]. injection E as E. apply (chain_step s' p d'); [done|]. rewrite E. apply IH. intros q Hq. apply H. now apply list_elem_of_further.
Qed.

Lemma protos_same s s' : protos_ok s -> (forall q, proto_of s' q = proto_of s q) -> protos_ok s'.
Proof.
  intros H E p [d' Hd']. pose proof (E p) as Ep. unfold proto_of at 1 in Ep. rewrite Hd' in Ep. cbn in Ep.
  assert (is_Some (contents s p)) as Hp by (unfold proto_of in Ep; destruct (contents s p); [eauto | discriminate]).
  destruct (H p Hp) as [l Hl]. exists l. apply (chain_transfer s); auto.
Qed.

Lemma proto_of_view s q : proto_of s q = (o ← view s q; Some (e_proto o)).
Proof. unfold proto_of, view. destruct (contents s q); done. Qed.

Lemma is_object_view s p1 : is_object s p1 <-> match p1 with Some p => is_Some (view s p) | None => True end.
Proof.
  destruct p1 as [p|]; [|done]. cbn. unfold view. destruct (contents s p); cbn; split; intros []; try discriminate; eauto.
Qed.

Lemma becomes_protos s s' p o o' : protos_ok s -> view s p = Some o -> becomes s s' p o' -> e_proto o' = e_proto o -> protos_ok s'.
Proof.
  intros H Ho [_ B _ _] E. apply (protos_same s); [done|]. intros q. rewrite !proto_of_view, B. destruct (decide (q = p)) as [->|]; [|done]. rewrite Ho. cbn. now rewrite E.
Qed.

Lemma creates_protos s s' p d : protos_ok s -> creates s s' p d -> is_object s (d_proto d) -> protos_ok s'.
Proof.
  intros H [_ C1 C2 _ _] Hd.
  assert (forall p1 l, proto_chain s p1 l -> proto_chain s' p1 l) as Ht.
  { intros p1 l Hc. apply (chain_transfer s); [done|]. intros q Hq. unfold proto_of. rewrite C2. destruct (decide (q = p)) as [->|]; [|done].
    destruct (chain_contents _ _ _ Hc p Hq). congruence. }
  intros q [dq Hq]. rewrite C2 in Hq. destruct (decide (q = p)) as [->|Hne].
  - injection Hq as <-. destruct (chain_exists s _ H Hd) as [l Hl]. exists (p :: l). apply (chain_step s' p d); [|auto]. rewrite C2. now rewrite decide_True.
  - destruct (H q) as [l Hl]; [eauto|]. eauto.
Qed.

(** A prototype whose chain avoids the object. *)
Lemma relink_protos s s' p o o' l1 :
  protos_ok s -> view s p = Some o -> becomes s s' p o' -> proto_chain s (e_proto o') l1 -> p ∉ l1 -> protos_ok s'.
Proof.
  intros H Ho [_ B _ _] Hl Hp.
  assert (forall q, q <> p -> proto_of s' q = proto_of s q) as E by (intros q Hq; rewrite !proto_of_view, B; now rewrite decide_False).
  assert (proto_chain s' (e_proto o') l1) as Hl' by (apply (chain_transfer s); [done|]; intros q Hq; apply E; intros ->; done).
  assert (proto_chain s' (Some p) (p :: l1)) as Hpl.
  { pose proof (B p) as Bp. rewrite decide_True in Bp by done. unfold view in Bp. destruct (contents s' p) as [d'|] eqn:Hd'; [|discriminate]. injection Bp as <-. now apply (chain_step s' p d'). }
  assert (forall p1 l, proto_chain s p1 l -> exists l', proto_chain s' p1 l') as Ht.
  { intros p1 l. induction 1 as [|q d l Hd Hc [l' IH]]; [exists []; constructor|]. destruct (decide (q = p)) as [->|Hne]; [eauto|].
    exists (q :: l'). pose proof (E q Hne) as Eq. unfold proto_of in Eq. rewrite Hd in Eq. cbn in Eq. destruct (contents s' q) as [d'|] eqn:Hd'; [|discriminate].
    injection Eq as Eq. apply (chain_step s' q d'); [done|]. now rewrite Eq. }
  intros q [dq Hq]. destruct (decide (q = p)) as [->|Hne]; [eauto|]. pose proof (E q Hne) as Eq. unfold proto_of at 1 in Eq. rewrite Hq in Eq. cbn in Eq.
  destruct (H q) as [l Hc]; [unfold proto_of in Eq; destruct (contents s q); [eauto | discriminate]|]. eauto.
Qed.

(** ** Changing the prototype and the extensibility *)

(** OrdinarySetPrototypeOf, with the exotic objects whose prototype is immutable;
    [cycle]: the object is on the chain of the new prototype. *)
Definition es_set_prototype (o : es_object) (proto0 : option Z) (cycle : bool) : option es_object :=
  if same_proto (e_proto o) proto0 then Some o
  else if e_immutable_prototype o || negb (e_extensible o) || cycle then None
  else Some (mk_es_object proto0 (e_extensible o) (e_immutable_prototype o) (e_function o) (e_props o)).

Definition es_prevent_extensions (o : es_object) : es_object := mk_es_object (e_proto o) false (e_immutable_prototype o) (e_function o) (e_props o).

Lemma view_contents s p o : view s p = Some o -> exists d, contents s p = Some d /\ o = es_object_of d.
Proof. unfold view. destruct (contents s p) as [d|]; [|done]. intros [= <-]. eauto. Qed.

Lemma with_proto_ok sh q : shape_ok sh -> shape_ok (with_proto sh q).
Proof. intros []. split; done. Qed.

Lemma set_prototype_spec s p d proto0 throw_flag l fuel :
  objects_ok s -> contents s p = Some d -> proto_chain s proto0 l -> (length l <= fuel)%nat ->
  exists r s', JS_SetPrototypeInternal fuel s p proto0 throw_flag = Some (r, s') /\
    (out_of_memory s s' p (es_object_of d) r \/
     match es_set_prototype (es_object_of d) proto0 (bool_decide (p ∈ l)) with
     | Some o' => r = Done true /\ becomes s s' p o'
     | None => (exists msg, r = if throw_flag then Thrown (TypeError msg) else Done false) /\ s' = s
     end).
Proof.
  intros Hok Hd Hc Hf. destruct Hok as [R Hv]. destruct (contents_inv s p d R Hd) as (o & sh & Ho & Hsh & Ed & Sok & Hle).
  unfold JS_SetPrototypeInternal. rewrite Ho. cbn [mbind option_bind]. rewrite Hsh. cbn [mbind option_bind].
  unfold es_set_prototype. change (e_proto (es_object_of d)) with (d_proto d). change (e_immutable_prototype (es_object_of d)) with (d_immutable_prototype d).
  change (e_extensible (es_object_of d)) with (d_extensible d).
  assert (proto sh = d_proto d /\ has_immutable_prototype o = d_immutable_prototype d /\ extensible o = d_extensible d) as (-> & -> & ->) by now rewrite Ed.
  destruct (same_proto (d_proto d) proto0); [do 2 eexists; split; [reflexivity|]; right; split; [done|]; apply becomes_refl; [done | unfold view; now rewrite Hd]|].
  destruct (d_immutable_prototype d) eqn:Ei; cbn [orb]; [do 2 eexists; split; [reflexivity|]; right; eauto|].
  destruct (d_extensible d) eqn:Ee; cbn [orb negb]; [|do 2 eexists; split; [reflexivity|]; right; eauto].
  rewrite (on_chain_spec s p proto0 l R Hc fuel Hf). cbn [mbind option_bind]. destruct (bool_decide (p ∈ l)); [do 2 eexists; split; [reflexivity|]; right; eauto|].
  destruct (prepare_update_spec s p o sh R Ho Hsh) as (r & s1 & -> & U & [[-> Hm]|(-> & o1 & sh1 & Hown & Eo & (L1 & L2 & L3 & L4 & L5))]); cbn [mbind option_bind Z.eqb negb]; rewrite <- ?Ed in *.
  - do 2 eexists. split; [reflexivity|]. left. pose proof (updates_becomes s s1 p d Hv U (Hv p d Hd)). split_and!; [done | done | eexists; split; [eassumption | done]].
  - pose proof Hown as (Ho1 & Hsh1 & Hh1). rewrite Ho1. cbn [mbind option_bind]. rewrite Hsh1. cbn [mbind option_bind]. do 2 eexists. split; [reflexivity|]. right. split; [done|].
    assert (prop_size sh1 <= Z.of_nat (length (props o1))) as Hle1 by (rewrite L3; now rewrite Eo).
    destruct (own_update s1 p o1 sh1 (with_proto sh1 proto0) (up_ok _ _ _ _ U) Hown) as [U2 _]; try done; [apply with_proto_ok, (ro_shapes _ (up_ok _ _ _ _ U) _ _ Hsh1)|].
    assert (describe (with_proto sh1 proto0) o1 = mk_dictionary proto0 true (d_immutable_prototype d) (d_function d) (d_entries d)) as E.
    { unfold describe. cbn. rewrite L1, Eo. cbn. rewrite Ed. cbn. f_equal. now rewrite Ed in Ee. }
    rewrite E in U2. pose proof (updates_becomes s _ p _ Hv (updates_trans _ _ _ _ _ _ U U2) (Hv p d Hd)) as B. unfold es_object_of in B. cbn in B.
    rewrite Ei in B. exact B.
Qed.

Lemma prevent_extensions_spec s p d :
  objects_ok s -> contents s p = Some d ->
  exists s', JS_PreventExtensions s p = Some (Done true, s') /\ becomes s s' p (es_prevent_extensions (es_object_of d)).
Proof.
  intros [R Hv] Hd. destruct (contents_inv s p d R Hd) as (o & sh & Ho & Hsh & Ed & Sok & Hle). unfold JS_PreventExtensions. rewrite Ho. cbn [mbind option_bind].
  eexists. split; [reflexivity|]. set (o1 := mk_object _ _ _ _ _). destruct (ro_counts _ R _ _ Hsh) as [Ec Ep].
  assert (moved s (set_object s p o1) p o o1 sh) as M.
  { split; try done; cbn.
    - split; [lia | now apply (shape_in_use s p o)].
    - apply R.
    - destruct (ro_shapes _ R _ _ Hsh). done.
    - rewrite (users_update _ _ _ _ _ _ Ho). cbn. split; [lia | apply (ro_private _ R _ _ Hsh)].
    - intros q oq _ _ _. exists sh. split; [done | unfold same_but_count; now destruct sh]. }
  pose proof (updates_becomes s _ p _ Hv (moved_updates _ _ _ _ _ _ R M (fun H => H) eq_refl eq_refl)) as B.
  assert (es_object_of (describe sh o1) = es_prevent_extensions (es_object_of d)) as E by now rewrite Ed. rewrite E in B. apply B. pose proof (Hv p d Hd). now rewrite Ed in *.
Qed.

(** ** Deleting *)

Lemma delete_spec s p d name flags :
  objects_ok s -> contents s p = Some d -> name <> JS_ATOM_NULL ->
  exists r s', JS_DeleteProperty s p name flags = Some (r, s') /\
    (out_of_memory s s' p (es_object_of d) r \/
     match es_delete (es_object_of d) name with
     | Some o' => r = Done true /\ becomes s s' p o'
     | None => refused s s' flags r
     end).
Proof.
  intros [R Hv] Hd Hn. destruct (contents_inv s p d R Hd) as (o & sh & Ho & Hsh & Ed & Sok & Hle).
  destruct (delete_property_spec s p d name R Hd Hn) as (r & s1 & E & H). unfold JS_DeleteProperty. rewrite E. cbn [mbind option_bind]. do 2 eexists. split; [reflexivity|].
  assert (NoDup (map entry_name (d_entries d))) as Hnd by (fold (names d); rewrite Ed, names_describe by done; apply Sok).
  unfold es_delete. change (e_props (es_object_of d)) with (map es_entry (d_entries d)). destruct H as [(-> & Hm & U)|[(-> & -> & Hfresh)|(f & v & Hin & H)]].
  - left. pose proof (updates_becomes s s1 p d Hv U (Hv p d Hd)). split_and!; [done | done | eexists; split; [eassumption | done]].
  - right. rewrite es_lookup_none by done. split; [done|]. apply becomes_refl; [done | unfold view; now rewrite Hd].
  - right. rewrite (es_lookup_entry _ name f v) by done. assert (es_configurable (es_of f v) = has f JS_PROP_CONFIGURABLE) as ->.
    { pose proof (Hv p d Hd) as Hf. rewrite Forall_forall in Hf. specialize (Hf _ Hin). unfold entry_ok in Hf. now destruct v. }
    destruct (has f JS_PROP_CONFIGURABLE); destruct H as [-> H].
    + split; [done|]. rewrite <- es_remove. apply updates_becomes; [done | done|]. cbn. pose proof (Hv p d Hd) as Hf. rewrite Forall_forall in *. intros e He.
      apply Hf. apply list_elem_of_In, List.filter_In in He as [He _]. now apply list_elem_of_In.
    + subst s1. split; [eauto | done].
Qed.

(** ** Reading and assigning along the chain *)

(** The first property of the name on a chain of objects. *)
Fixpoint es_find (name : Z) (l : list es_object) : option es_property :=
  match l with
  | [] => None
  | o :: l => match es_lookup name (e_props o) with Some p => Some p | None => es_find name l end
  end.

(** OrdinaryGet *)
Definition es_get (l : list es_object) (name : Z) (this_obj : JSValue) : result :=
  match es_find name l with
  | None => Got undefined
  | Some (DataProperty v _ _ _) => Got v
  | Some (AccessorProperty (Some g) _ _ _) => Call g this_obj []
  | Some (AccessorProperty None _ _ _) => Got undefined
  end.

Inductive es_assignment : Type :=
| Assigned (o : es_object)
| CallSetter (setter : Z)
| Rejected.

(** OrdinarySet on an object that is its own receiver; [protos] is its chain. *)
Definition es_set (o : es_object) (protos : list es_object) (name : Z) (val : JSValue) : es_assignment :=
  match es_find name (o :: protos) with
  | Some (AccessorProperty _ (Some st) _ _) => CallSetter st
  | Some (AccessorProperty _ None _ _) => Rejected
  | Some (DataProperty _ false _ _) => Rejected
  | _ =>
      match es_lookup name (e_props o) with
      | Some p => Assigned (with_e_props o (es_update name (es_apply p (mk_descriptor (Some val) None None None None None)) (e_props o)))
      | None => if e_extensible o then Assigned (with_e_props o (e_props o ++ [(name, DataProperty val true true true)])) else Rejected
      end
  end.

Definition views (s : JSRuntime) (l : list Z) : list es_object := omap (view s) l.

Lemma views_cons s p d l : contents s p = Some d -> views s (p :: l) = es_object_of d :: views s l.
Proof. intros H. unfold views. cbn. unfold view. now rewrite H. Qed.

Lemma data_flags f : ordinary_flags f -> is_getset f = false -> has f JS_PROP_TMASK = false.
Proof. intros H Hg. ordinary_cases H; try discriminate Hg; reflexivity. Qed.

Lemma writable_test f : ordinary_flags f ->
  (Z.land f (Z.lor JS_PROP_TMASK (Z.lor JS_PROP_WRITABLE JS_PROP_LENGTH)) =? JS_PROP_WRITABLE) = has f JS_PROP_WRITABLE /\ (is_getset f = true -> has f JS_PROP_WRITABLE = false).
Proof. intros H. ordinary_cases H; split; (reflexivity || discriminate || done). Qed.

Section Chain.
Context (s : JSRuntime) (name : Z).
Context (Hok : objects_ok s) (Hname : name <> JS_ATOM_NULL).

Lemma has_property_spec p1 l : proto_chain s p1 l -> forall p, p1 = Some p -> forall fuel, (length l <= fuel)%nat ->
  JS_HasProperty fuel s p name = Some (match es_find name (views s l) with Some _ => true | None => false end).
Proof using Hok Hname.
  induction 1 as [|q d l Hd Hc IH]; intros p E fuel Hf; [done|]. injection E as <-. destruct fuel as [|fuel]; [cbn in Hf; lia|]. cbn [JS_HasProperty].
  rewrite (views_cons s q d l Hd). cbn [es_find]. destruct (own_lookup s q d name Hok Hd Hname) as ([i|] & -> & H); cbn [mbind option_bind].
  - destruct H as (f & v & _ & _ & ->). done.
  - destruct H as [_ ->]. rewrite (prototype_spec s q d (proj1 Hok) Hd). cbn [mbind option_bind]. destruct (d_proto d) as [q2|] eqn:E; [|inversion Hc; done].
    apply IH; [done | cbn in Hf; lia].
Qed.

Lemma get_property_spec p1 l this_obj : proto_chain s p1 l -> forall p, p1 = Some p -> forall fuel, (length l <= fuel)%nat ->
  JS_GetPropertyInternal fuel s p name this_obj = Some (es_get (views s l) name this_obj).
Proof using Hok Hname.
  unfold es_get. induction 1 as [|q d l Hd Hc IH]; intros p E fuel Hf; [done|]. injection E as <-. destruct fuel as [|fuel]; [cbn in Hf; lia|]. cbn [JS_GetPropertyInternal].
  rewrite (views_cons s q d l Hd). cbn [es_find]. destruct (own_lookup s q d name Hok Hd Hname) as ([i|] & -> & H); cbn [mbind option_bind].
  - destruct H as (f & v & L & Hk & ->). rewrite (located_flags _ _ _ _ _ _ _ L), (located_value _ _ _ _ _ _ _ L). cbn [mbind option_bind].
    pose proof (located_ordinary _ _ _ _ _ _ _ L) as Hof. unfold entry_ok in Hk. cbn in Hk. destruct v as [|v|g st]; [done | |]; cbn [es_of].
    + now rewrite (data_flags f Hof Hk).
    + rewrite Hk. now destruct g.
  - destruct H as [_ ->]. rewrite (prototype_spec s q d (proj1 Hok) Hd). cbn [mbind option_bind]. destruct (d_proto d) as [q2|] eqn:E; [|inversion Hc; done].
    apply IH; [done | cbn in Hf; lia].
Qed.

Definition found_target (p : option es_property) : set_target :=
  match p with
  | Some (AccessorProperty _ st _ _) => Setter st
  | Some (DataProperty _ w _ _) => if w then Assign else ReadOnly
  | None => Assign
  end.

Lemma prototype_lookup_spec p1 l : proto_chain s p1 l -> forall fuel, (length l <= fuel)%nat -> prototype_lookup fuel s p1 name = Some (found_target (es_find name (views s l))).
Proof using Hok Hname.
  induction 1 as [|q d l Hd Hc IH]; intros fuel Hf; [now destruct fuel|]. destruct fuel as [|fuel]; [cbn in Hf; lia|]. cbn [prototype_lookup].
  rewrite (views_cons s q d l Hd). cbn [es_find]. destruct (own_lookup s q d name Hok Hd Hname) as ([i|] & -> & H); cbn [mbind option_bind].
  - destruct H as (f & v & L & Hk & ->). rewrite (located_flags _ _ _ _ _ _ _ L), (located_value _ _ _ _ _ _ _ L). cbn [mbind option_bind].
    unfold entry_ok in Hk. cbn in Hk. destruct v as [|v|g st]; [done | |]; cbn [es_of found_target]; rewrite Hk; [|done]. now destruct (has f JS_PROP_WRITABLE).
  - destruct H as [_ ->]. rewrite (prototype_spec s q d (proj1 Hok) Hd). cbn [mbind option_bind]. apply IH. cbn in Hf. lia.
Qed.
End Chain.

(** An own data property is written in place. *)
Lemma assign_own s p d name i f old val :
  objects_ok s -> located s p d name i f (Value old) -> is_getset f = false -> has f JS_PROP_WRITABLE = true ->
  exists s', write_value s p i (Value val) = Some s' /\
    becomes s s' p (with_e_props (es_object_of d) (es_update name (es_apply (es_of f (Value old)) (mk_descriptor (Some val) None None None None None)) (e_props (es_object_of d)))).
Proof.
  intros [R Hv] L Hg Hw. destruct (write_value_located s p d name i f (Value old) (Value val) L) as (s' & E & U & _). exists s'. split; [exact E|].
  assert (es_apply (es_of f (Value old)) (mk_descriptor (Some val) None None None None None) = es_of f (Value val)) as ->.
  { unfold es_apply. cbn. rewrite Hw, orb_true_r. done. }
  rewrite <- es_set_entry. apply updates_becomes; [done | done|]. apply set_entry_ok; [apply (Hv p d (located_contents _ _ _ _ _ _ _ L)) | done].
Qed.

(** A new property of an extensible object. *)
Lemma assign_new s p d name val :
  objects_ok s -> contents s p = Some d -> name <> JS_ATOM_NULL -> name ∉ names d -> has_room s p ->
  exists r s',
    ('(pr, s) ← add_property s p name JS_PROP_C_W_E;
     match pr with
     | None => Some (OutOfMemory, s)
     | Some i => s ← write_value s p i (Value val); Some (Done true, s)
     end) = Some (r, s') /\
    (out_of_memory s s' p (es_object_of d) r \/
     r = Done true /\ becomes s s' p (with_e_props (es_object_of d) (e_props (es_object_of d) ++ [(name, DataProperty val true true true)]))).
Proof.
  intros [R Hv] Hd Hn Hfresh Hroom. assert (ordinary_flags JS_PROP_C_W_E) as Hf by now apply (bool_decide_eq_true_1 _).
  destruct (add_property_spec s p d name JS_PROP_C_W_E R Hd Hn Hfresh Hf Hroom) as ([i|] & s1 & -> & H); cbn [mbind option_bind].
  - destruct H as (d1 & U1 & E1 & W). destruct (W (Value val)) as (s2 & -> & U2). cbn [mbind option_bind]. do 2 eexists. split; [reflexivity|]. right. split; [done|].
    change (DataProperty val true true true) with (es_of JS_PROP_C_W_E (Value val)). rewrite <- es_push.
    apply updates_becomes; [done | apply (updates_trans s s1 s2 p d1); done|]. cbn. apply Forall_app. split; [apply (Hv p d Hd) | repeat constructor].
  - destruct H as [Hm U]. do 2 eexists. split; [reflexivity|]. left. split_and!; [done | done|]. exists (es_object_of d).
    split; [apply (updates_becomes s s1 p d Hv U (Hv p d Hd)) | done].
Qed.

Definition assignment_result (s s' : JSRuntime) (p : Z) (o : es_object) (val : JSValue) (flags : Z) (a : es_assignment) (r : result) : Prop :=
  match a with
  | Assigned o' => r = Done true /\ becomes s s' p o'
  | CallSetter st => r = Call st (JS_TAG_OBJECT p) [val] /\ s' = s
  | Rejected => refused s s' flags r
  end.

Lemma set_property_spec s p d l name val flags fuel :
  objects_ok s -> contents s p = Some d -> proto_chain s (Some p) (p :: l) -> name <> JS_ATOM_NULL -> has_room s p -> (length l <= fuel)%nat ->
  exists r s', JS_SetPropertyInternal fuel s p name val (JS_TAG_OBJECT p) flags = Some (r, s') /\
    (out_of_memory s s' p (es_object_of d) r \/ assignment_result s s' p (es_object_of d) val flags (es_set (es_object_of d) (views s l) name val) r).
Proof.
  intros Hok Hd Hc Hn Hroom Hf. inversion Hc as [|p' d' l' Hd' Hl]; subst. rewrite Hd in Hd'. injection Hd' as <-.
  unfold JS_SetPropertyInternal, es_set. rewrite Z.eqb_refl. cbn [es_find].
  destruct (own_lookup s p d name Hok Hd Hn) as ([i|] & -> & H); cbn [mbind option_bind].
  - destruct H as (f & v & L & Hk & ->). rewrite (located_flags _ _ _ _ _ _ _ L), (located_value _ _ _ _ _ _ _ L). cbn [mbind option_bind].
    destruct (writable_test f (located_ordinary _ _ _ _ _ _ _ L)) as [-> Hga]. unfold entry_ok in Hk. cbn in Hk. destruct v as [|v|g st]; [done | |]; cbn [es_of].
    + destruct (has f JS_PROP_WRITABLE) eqn:Hw; rewrite ?Hk.
      * destruct (assign_own s p d name i f v val Hok L Hk Hw) as (s' & -> & B). cbn [mbind option_bind]. do 2 eexists. split; [reflexivity|]. right.
        cbn [es_of] in B. rewrite Hw in B. split; [done | exact B].
      * do 2 eexists. split; [reflexivity|]. right. split; [now eexists | done].
    + rewrite (Hga Hk), Hk. do 2 eexists. split; [reflexivity|]. right. destruct st as [st|]; [done|]. split; [now eexists | done].
  - destruct H as [Hfresh ->]. rewrite (prototype_spec s p d (proj1 Hok) Hd). cbn [mbind option_bind]. rewrite (prototype_lookup_spec s name Hok Hn _ l Hl fuel Hf). cbn [mbind option_bind].
    assert (exists r s', set_receiver s p name val (JS_TAG_OBJECT p) flags = Some (r, s') /\
      (out_of_memory s s' p (es_object_of d) r \/
       assignment_result s s' p (es_object_of d) val flags (if e_extensible (es_object_of d)
         then Assigned (with_e_props (es_object_of d) (e_props (es_object_of d) ++ [(name, DataProperty val true true true)])) else Rejected) r)) as Hend.
    { destruct (contents_inv s p d (proj1 Hok) Hd) as (o & sh & Ho & Hsh & Ed & _). unfold set_receiver. rewrite Ho. cbn [mbind option_bind].
      assert (extensible o = d_extensible d) as -> by now rewrite Ed. change (e_extensible (es_object_of d)) with (d_extensible d).
      destruct (d_extensible d); cbn [negb]; [|do 2 eexists; split; [reflexivity|]; right; split; [now eexists | done]]. rewrite Z.eqb_refl.
      apply assign_new; done. }
    destruct (es_find name (views s l)) as [[v [] e c|g [st|] e c]|]; cbn [found_target];
      [exact Hend | do 2 eexists; split; [reflexivity|]; right; split; [now eexists | done] | do 2 eexists; split; [reflexivity|]; right; done |
       do 2 eexists; split; [reflexivity|]; right; split; [now eexists | done] | exact Hend].
Qed.
