(* ===== verification/ObjectsRefine.v ===== *)
(** * Operations on objects

    The operations of [Objects] as one type, what admits them, and the states
    they reach from a new runtime.  Every operation returns in every such state,
    keeps the invariants, and does what the specification says. *)

From Stdlib Require Import ZArith Lia Bool.
From stdpp Require Import base numbers list option gmap fin_maps strings.
From S2P Require Import Prelude Limbs BigInt Numeric Shapes Objects ShapesInv ObjectsInv ObjectsNew ObjectsSpec ObjectsChain.

#[local] Open Scope Z_scope.

(** ** Operations *)

Inductive operation : Type :=
| NewObject (proto0 : option Z) (callable : bool)
| NewObjectAlloc (proto0 : option Z) (callable : bool) (n_alloc_props : Z)
| DefineProperty (p name : Z) (val getter setter : JSValue) (flags : Z)
| DeleteProperty (p name flags : Z)
| SetProperty (obj name : Z) (val this_obj : JSValue) (flags : Z)
| SetPrototype (p : Z) (proto0 : option Z) (throw_flag : bool)
| PreventExtensions (p : Z).

(** The loops along the prototypes have as many steps as there are objects. *)
Definition perform (s : JSRuntime) (op : operation) : option (result * JSRuntime) :=
  match op with
  | NewObject proto0 callable => JS_NewObjectProtoClass s proto0 callable
  | NewObjectAlloc proto0 callable n => JS_NewObjectProtoClassAlloc s proto0 callable n
  | DefineProperty p name val getter setter flags => JS_DefineProperty s p name val getter setter flags
  | DeleteProperty p name flags => JS_DeleteProperty s p name flags
  | SetProperty obj name val this_obj flags => JS_SetPropertyInternal (size (objects s)) s obj name val this_obj flags
  | SetPrototype p proto0 throw_flag => JS_SetPrototypeInternal (size (objects s)) s p proto0 throw_flag
  | PreventExtensions p => JS_PreventExtensions s p
  end.

Definition exists_object (s : JSRuntime) (p : Z) : bool := match objects s !! p with Some _ => true | None => false end.
Definition exists_proto (s : JSRuntime) (p1 : option Z) : bool := match p1 with Some p => exists_object s p | None => true end.

(** An object whose shape has room for one more property. *)
Definition room (s : JSRuntime) (p : Z) : bool :=
  match objects s !! p with
  | Some o => match shapes s !! shape o with Some sh => prop_count sh <? MAX_PROPS | None => false end
  | None => false
  end.

(** The arguments are objects and property names, the flags a descriptor, and the
    shapes and their table are below their limits. *)
Definition admissible (s : JSRuntime) (op : operation) : bool :=
  match op with
  | NewObject proto0 _ => exists_proto s proto0 && (shape_hash_bits s <? 31)
  | NewObjectAlloc proto0 _ n => exists_proto s proto0 && (n <=? 2 ^ 27)
  | DefineProperty p name _ _ _ flags => room s p && negb (name =? JS_ATOM_NULL) && valid_flags flags
  | DeleteProperty p name _ => exists_object s p && negb (name =? JS_ATOM_NULL)
  | SetProperty obj name _ this_obj flags =>
      exists_object s obj && match this_obj with JS_TAG_OBJECT q => room s q | Prim _ => true end && negb (name =? JS_ATOM_NULL) &&
      negb (has flags (Z.lor JS_PROP_HAS_GET JS_PROP_HAS_SET))
  | SetPrototype p proto0 _ => exists_object s p && exists_proto s proto0
  | PreventExtensions p => exists_object s p
  end.

(** [JS_NewRuntime]: [init_shape_hash] *)
Definition new_runtime (answers : list bool) (strict : bool) : JSRuntime :=
  init_shape_hash (mk_runtime 0 [] 0 ∅ ∅ [] 1 answers strict).

Inductive reachable : JSRuntime -> Prop :=
| reach_new answers strict : reachable (new_runtime answers strict)
| reach_step s op r s' : reachable s -> admissible s op = true -> perform s op = Some (r, s') -> reachable s'.

(** ** What the specification says *)

(** The prototypes from [p1] on. *)
Fixpoint chain_of (fuel : nat) (s : JSRuntime) (p1 : option Z) : list Z :=
  match p1, fuel with
  | Some p, S fuel => p :: match contents s p with Some d => chain_of fuel s (d_proto d) | None => [] end
  | _, _ => []
  end.

Definition protos (s : JSRuntime) (p1 : option Z) : list Z := chain_of (size (objects s)) s p1.

(** The object that an operation is of; an assignment may have another receiver. *)
Definition target (op : operation) : option Z :=
  match op with
  | DefineProperty p _ _ _ _ _ | DeleteProperty p _ _ | SetPrototype p _ _ | PreventExtensions p => Some p
  | SetProperty p _ _ (JS_TAG_OBJECT q) _ => if q =? p then Some p else None
  | _ => None
  end.

Definition or_rejected (o : option es_object) : es_assignment := match o with Some o => Assigned o | None => Rejected end.

Definition es_operation (s : JSRuntime) (op : operation) (o : es_object) : es_assignment :=
  match op with
  | DefineProperty _ name val getter setter flags => or_rejected (es_define o name (descriptor s val getter setter flags))
  | DeleteProperty _ name _ => or_rejected (es_delete o name)
  | SetProperty _ name val _ _ => es_set o (views s (protos s (e_proto o))) name val
  | SetPrototype p proto0 _ => or_rejected (es_set_prototype o proto0 (bool_decide (p ∈ protos s proto0)))
  | PreventExtensions _ => Assigned (es_prevent_extensions o)
  | _ => Rejected
  end.

(** A refusal: a [TypeError], or false. *)
Definition refusal (s : JSRuntime) (op : operation) (msg : string) : result :=
  match op with
  | SetPrototype _ _ throw_flag => if throw_flag then Thrown (TypeError msg) else Done false
  | DefineProperty _ _ _ _ _ flags | DeleteProperty _ _ flags | SetProperty _ _ _ _ flags => JS_ThrowTypeErrorOrFalse s flags msg
  | _ => Done false
  end.

Definition outcome (s s' : JSRuntime) (op : operation) (p : Z) (a : es_assignment) (r : result) : Prop :=
  match a with
  | Assigned o' => r = Done true /\ becomes s s' p o'
  | CallSetter st => s' = s /\ match op with SetProperty _ _ val _ _ => r = Call st (JS_TAG_OBJECT p) [val] | _ => False end
  | Rejected => s' = s /\ exists msg, r = refusal s op msg
  end.

Definition consistent (s : JSRuntime) : Prop := objects_ok s /\ protos_ok s.

(** ** Chains, executed *)

Lemma chain_of_spec s p1 l : proto_chain s p1 l -> forall fuel, (length l <= fuel)%nat -> chain_of fuel s p1 = l.
Proof.
  induction 1 as [|p d l Hd Hc IH]; intros fuel Hf; [now destruct fuel|]. destruct fuel as [|fuel]; [cbn in Hf; lia|]. cbn. rewrite Hd, IH; [done | cbn in Hf; lia].
Qed.

Lemma protos_spec s p1 l : proto_chain s p1 l -> protos s p1 = l.
Proof. intros H. apply chain_of_spec; [done | now apply (chain_length s p1)]. Qed.

Lemma exists_object_spec s p : runtime_ok s -> exists_object s p = true -> is_Some (contents s p).
Proof.
  intros R. unfold exists_object, contents. destruct (objects s !! p) as [o|] eqn:Ho; [|done]. destruct (object_shape s p o R Ho) as [sh Hsh]. cbn. rewrite Hsh. eauto.
Qed.

Lemma exists_proto_spec s p1 : runtime_ok s -> exists_proto s p1 = true -> is_object s p1.
Proof. intros R. destruct p1 as [p|]; [apply exists_object_spec, R | done]. Qed.

Lemma room_spec s p : runtime_ok s -> room s p = true -> is_Some (contents s p) /\ has_room s p.
Proof.
  intros R. unfold room, contents, has_room. destruct (objects s !! p) as [o|] eqn:Ho; [|done]. destruct (shapes s !! shape o) as [sh|] eqn:Hsh; [|done]. intros H.
  cbn. rewrite Hsh. cbn. split; [eauto|]. intros o' sh' [= <-] Hsh'. rewrite Hsh in Hsh'. injection Hsh' as <-. now apply Z.ltb_lt.
Qed.

Lemma name_spec name : negb (name =? JS_ATOM_NULL) = true -> name <> JS_ATOM_NULL.
Proof. intros H ->. discriminate H. Qed.

(** ** Refinement *)

Lemma target_object s op p : runtime_ok s -> admissible s op = true -> target op = Some p -> is_Some (contents s p).
Proof.
  intros R Ha Ht. destruct op as [| |q name v g st f|q name f|q name v [t|q'] f|q proto0 t|q]; cbn in Ha, Ht; try discriminate Ht;
    rewrite ?andb_true_iff in Ha; try (injection Ht as ->; now apply exists_object_spec); try (injection Ht as ->; now apply room_spec).
  - destruct (q' =? q); [|discriminate]. injection Ht as ->. now apply exists_object_spec.
Qed.

Lemma operation_spec s op p o :
  consistent s -> admissible s op = true -> target op = Some p -> view s p = Some o ->
  exists r s', perform s op = Some (r, s') /\ (out_of_memory s s' p o r \/ outcome s s' op p (es_operation s op o) r).
Proof.
  intros [Hok Hp] Ha Ht Hv. pose proof (proj1 Hok) as R. destruct (view_contents s p o Hv) as (d & Hd & ->).
  destruct op as [| |q name v g st f|q name f|q name v [t|q'] f|q proto0 t|q]; cbn in Ha, Ht; try discriminate Ht; rewrite ?andb_true_iff in Ha; cbn [perform es_operation].
  - injection Ht as ->. destruct Ha as [[Hr Hn] Hfl]. destruct (room_spec s p R Hr) as [_ Hroom].
    destruct (define_spec s p d name v g st f Hok Hd (name_spec _ Hn) Hroom Hfl) as (r & s' & E & H). exists r, s'. split; [exact E|].
    destruct H as [H|H]; [now left | right]. destruct (es_define _ _ _); [exact H|]. destruct H. done.
  - injection Ht as ->. destruct Ha as [_ Hn]. destruct (delete_spec s p d name f Hok Hd (name_spec _ Hn)) as (r & s' & E & H). exists r, s'. split; [exact E|].
    destruct H as [H|H]; [now left | right]. destruct (es_delete _ _); [exact H|]. destruct H. done.
  - destruct (Z.eqb_spec q' q) as [->|]; [|discriminate]. injection Ht as ->. destruct Ha as [[[_ Hr] Hn] _]. destruct (room_spec s p R Hr) as [_ Hroom].
    destruct (Hp p ltac:(eauto)) as [l Hc]. inversion Hc as [|p' d' l' Hd' Hl]; subst. pose proof Hd' as E. rewrite Hd in E. injection E as <-.
    pose proof (chain_length s _ _ Hl) as Hlen. change (e_proto (es_object_of d)) with (d_proto d). rewrite (protos_spec s _ _ Hl).
    destruct (set_property_spec s p d l' name v f (size (objects s)) Hok Hd Hc (name_spec _ Hn) Hroom Hlen) as (r & s' & E & H). exists r, s'. split; [exact E|].
    destruct H as [H|H]; [now left | right]. unfold assignment_result in H. destruct (es_set _ _ _ _); cbn; [exact H | now destruct H | destruct H; done].
  - injection Ht as ->. destruct Ha as [_ Hq]. destruct (chain_exists s proto0 Hp (exists_proto_spec s proto0 R Hq)) as [l Hl].
    destruct (set_prototype_spec s p d proto0 t l (size (objects s)) Hok Hd Hl (chain_length s _ _ Hl)) as (r & s' & E & H). exists r, s'. split; [exact E|].
    rewrite (protos_spec s _ _ Hl). destruct H as [H|H]; [now left | right]. destruct (es_set_prototype _ _ _); cbn; [exact H|]. now destruct H.
  - injection Ht as ->. destruct (prevent_extensions_spec s p d Hok Hd) as (s' & E & B). exists (Done true), s'. split; [exact E|]. right. done.
Qed.

(** ** Consistency *)

Lemma es_set_proto o l name val o' : es_set o l name val = Assigned o' -> e_proto o' = e_proto o.
Proof.
  unfold es_set. intros H. destruct (es_find name (o :: l)) as [[v [] e c|g [st|] e c]|]; try discriminate H;
    destruct (es_lookup name (e_props o)); (try destruct (e_extensible o)); try discriminate H; injection H as <-; done.
Qed.

Lemma outcome_consistent s s' op p o r :
  consistent s -> admissible s op = true -> target op = Some p -> view s p = Some o -> outcome s s' op p (es_operation s op o) r -> consistent s'.
Proof.
  intros [Hok Hp] Ha Ht Hv Hout. pose proof (proj1 Hok) as R. destruct (es_operation s op o) as [o'|st|] eqn:E; cbn in Hout; [|destruct Hout as [-> _]; done..].
  destruct Hout as [_ B]. split; [apply B|]. destruct op as [| |q name v g st f|q name f|q name v t f|q proto0 t|q]; try discriminate Ht; cbn in E.
  - apply (becomes_protos s s' p o o' Hp Hv B). unfold es_define, or_rejected in E. repeat case_match; simplify_eq; done.
  - apply (becomes_protos s s' p o o' Hp Hv B). unfold es_delete, or_rejected in E. repeat case_match; simplify_eq; done.
  - apply (becomes_protos s s' p o o' Hp Hv B). now apply es_set_proto in E.
  - cbn in Ha, Ht. injection Ht as ->. apply andb_true_iff in Ha as [_ Hq]. destruct (chain_exists s proto0 Hp (exists_proto_spec s proto0 R Hq)) as [l Hl].
    rewrite (protos_spec s _ _ Hl) in E. unfold es_set_prototype in E.
    destruct (same_proto (e_proto o) proto0); [injection E as <-; now apply (becomes_protos s s' p o o Hp Hv B)|].
    destruct (e_immutable_prototype o), (e_extensible o); cbn in E; try discriminate E. destruct (bool_decide_reflect (p ∈ l)) as [|Hnin]; [discriminate|].
    injection E as <-. apply (relink_protos s s' p o _ l Hp Hv B); done.
  - apply (becomes_protos s s' p o o' Hp Hv B). now injection E as <-.
Qed.

(** *** Assigning with another receiver *)

Definition own_change (s s' : JSRuntime) (p : Z) (o : es_object) : Prop := s' = s \/ exists o', becomes s s' p o' /\ only_props o o'.

Lemma receiver_flags flags : has flags (Z.lor JS_PROP_HAS_GET JS_PROP_HAS_SET) = false ->
  valid_flags (Z.lor flags (Z.lor (Z.lor JS_PROP_HAS_VALUE JS_PROP_HAS_ENUMERABLE)
    (Z.lor (Z.lor JS_PROP_HAS_WRITABLE JS_PROP_HAS_CONFIGURABLE) JS_PROP_C_W_E))) = true.
Proof.
  rewrite has_lor. intros [Hg Hs]%orb_false_iff.
  assert (forall k m, has (Z.lor flags k) m = has flags m || has k m) as E.
  { intros k m. unfold has. rewrite Z.land_lor_distr_l. destruct (Z.eqb_spec (Z.land flags m) 0) as [E1|E1], (Z.eqb_spec (Z.land k m) 0) as [E2|E2]; rewrite ?E1, ?E2; try done.
    - rewrite Z.lor_0_l. now apply Z.eqb_neq in E2 as ->.
    - rewrite Z.lor_0_r. now apply Z.eqb_neq in E1 as ->.
    - destruct (Z.eqb_spec (Z.lor (Z.land flags m) (Z.land k m)) 0) as [F|]; [apply Z.lor_eq_0_iff in F; tauto | done]. }
  unfold valid_flags. rewrite !E, Hg, Hs. cbn. rewrite !orb_true_r. cbn. done.
Qed.

Lemma define_change s s' p d name val getter setter flags r :
  (out_of_memory s s' p (es_object_of d) r \/
   match es_define (es_object_of d) name (descriptor s val getter setter flags) with
   | Some o' => r = Done true /\ becomes s s' p o'
   | None => refused s s' flags r
   end) -> own_change s s' p (es_object_of d).
Proof.
  intros [(_ & _ & H)|H]; [now right|]. destruct (es_define _ _ _) as [o'|] eqn:E; [|left; apply H]. right. exists o'. split; [apply H|].
  unfold es_define in E. repeat case_match; simplify_eq; done.
Qed.

Lemma set_receiver_other s obj q dq name val flags :
  objects_ok s -> contents s q = Some dq -> q <> obj -> name <> JS_ATOM_NULL -> has_room s q -> has flags (Z.lor JS_PROP_HAS_GET JS_PROP_HAS_SET) = false ->
  exists r s', set_receiver s obj name val (JS_TAG_OBJECT q) flags = Some (r, s') /\ own_change s s' q (es_object_of dq).
Proof.
  intros Hok Hd Hne Hn Hroom Hfl. unfold set_receiver. destruct (contents_inv s q dq (proj1 Hok) Hd) as (o & sh & Ho & _). rewrite Ho. cbn [mbind option_bind].
  destruct (extensible o); cbn [negb]; [|do 2 eexists; split; [reflexivity | now left]]. destruct (Z.eqb_spec q obj); [done|].
  destruct (own_lookup s q dq name Hok Hd Hn) as ([i|] & -> & H); cbn [mbind option_bind].
  - destruct H as (f & v & L & _). rewrite (located_flags _ _ _ _ _ _ _ L). cbn [mbind option_bind].
    destruct (is_getset f); [do 2 eexists; split; [reflexivity | now left]|]. destruct (has f JS_PROP_WRITABLE); cbn [negb]; [|do 2 eexists; split; [reflexivity | now left]].
    destruct (define_spec s q dq name val undefined undefined JS_PROP_HAS_VALUE Hok Hd Hn Hroom eq_refl) as (r & s' & E & H). exists r, s'. split; [exact E|].
    apply (define_change _ _ _ _ _ _ _ _ _ _ H).
  - destruct H as [Hfresh Hlook]. set (flags' := Z.lor flags _).
    destruct (create_property_spec s q dq name val undefined undefined flags' Hok Hd Hn Hfresh Hroom (receiver_flags flags Hfl)) as (r & s' & E & H). exists r, s'. split; [exact E|].
    destruct H as [(_ & _ & B)|H]; [right; eexists; split; [exact B | done]|]. destruct (d_extensible dq); [right; eexists; split; [apply H | done] | left; apply H].
Qed.

Lemma own_change_consistent s s' p o : consistent s -> view s p = Some o -> own_change s s' p o -> consistent s'.
Proof.
  intros [Hok Hp] Hv [->|(o' & B & E)]; [done|]. split; [apply B|]. apply (becomes_protos s s' p o o' Hp Hv B). now rewrite E.
Qed.

Lemma set_other_spec s obj name val this_obj flags :
  consistent s -> admissible s (SetProperty obj name val this_obj flags) = true -> target (SetProperty obj name val this_obj flags) = None ->
  exists r s', perform s (SetProperty obj name val this_obj flags) = Some (r, s') /\ consistent s'.
Proof.
  intros Hcons Ha Ht. pose proof Hcons as [Hok Hp]. pose proof (proj1 Hok) as R. cbn in Ha. rewrite !andb_true_iff in Ha. destruct Ha as [[[Ho Hr] Hn] Hfl].
  apply name_spec in Hn. apply negb_true_iff in Hfl. destruct (exists_object_spec s obj R Ho) as [d Hd]. destruct (Hp obj ltac:(eauto)) as [l Hl].
  cbn [perform]. unfold JS_SetPropertyInternal.
  assert ((match this_obj with JS_TAG_OBJECT p => p =? obj | Prim _ => false end) = false) as -> by (cbn in Ht; destruct this_obj as [t|q]; [done | now destruct (q =? obj)]).
  rewrite (prototype_lookup_spec s name Hok Hn _ l Hl _ (chain_length s _ _ Hl)). cbn [mbind option_bind].
  destruct (found_target _) as [st| |]; [do 2 eexists; split; [reflexivity | done]..|]. destruct this_obj as [t|q].
  - do 2 eexists. split; [reflexivity | done].
  - destruct (room_spec s q R Hr) as [[dq Hdq] Hroom]. assert (q <> obj) as Hne by (intros ->; cbn in Ht; now rewrite Z.eqb_refl in Ht).
    destruct (set_receiver_other s obj q dq name val flags Hok Hdq Hne Hn Hroom Hfl) as (r & s' & E & H). exists r, s'. split; [exact E|].
    apply (own_change_consistent s s' q (es_object_of dq)); [done | unfold view; now rewrite Hdq | done].
Qed.

(** *** All of them *)

Lemma makes_consistent s proto0 callable r s' : consistent s -> is_object s proto0 -> makes s proto0 callable r s' -> consistent s'.
Proof.
  intros [Hok Hp] Hq [(_ & _ & [Q1 Q2 Q3 Q4 Q5 Q6])|(p & _ & C)].
  - split; [split; [done|]; intros q d Hd; rewrite Q3 in Hd; now apply (proj2 Hok q)|]. apply (protos_same s); [done|]. intros q. unfold proto_of. now rewrite Q3.
  - split; [split; [apply C|]|].
    + intros q d Hd. rewrite (cr_contents _ _ _ _ C) in Hd. destruct (decide (q = p)); [injection Hd as <-; constructor | now apply (proj2 Hok q)].
    + now apply (creates_protos s s' p (empty_dictionary proto0 callable)).
Qed.

Lemma step_consistent s op : consistent s -> admissible s op = true -> exists r s', perform s op = Some (r, s') /\ consistent s'.
Proof.
  intros Hc Ha. pose proof (proj1 (proj1 Hc)) as R. destruct (target op) as [p|] eqn:Ht.
  - destruct (target_object s op p R Ha Ht) as [d Hd]. assert (view s p = Some (es_object_of d)) as Hv by (unfold view; now rewrite Hd).
    destruct (operation_spec s op p _ Hc Ha Ht Hv) as (r & s' & E & H). exists r, s'. split; [exact E|]. destruct H as [(_ & _ & H)|H].
    + apply (own_change_consistent s s' p _ Hc Hv). now right.
    + exact (outcome_consistent s s' op p _ r Hc Ha Ht Hv H).
  - destruct op as [proto0 callable|proto0 callable n| | |obj name val this_obj flags| |]; try discriminate Ht.
    + cbn in Ha. apply andb_true_iff in Ha as [Hq Hb]. apply Z.ltb_lt in Hb. destruct (new_object_spec s proto0 callable R Hb) as (r & s' & E & M). exists r, s'.
      split; [exact E|]. apply (makes_consistent s proto0 callable r s' Hc); [now apply exists_proto_spec | done].
    + cbn in Ha. apply andb_true_iff in Ha as [Hq Hb]. apply Z.leb_le in Hb. destruct (new_object_alloc_spec s proto0 callable n R Hb) as (r & s' & E & M). exists r, s'.
      split; [exact E|]. apply (makes_consistent s proto0 callable r s' Hc); [now apply exists_proto_spec | done].
    + now apply set_other_spec.
Qed.

Lemma new_runtime_consistent answers strict : consistent (new_runtime answers strict).
Proof.
  assert (forall p, contents (new_runtime answers strict) p = None) as Hnone by (intros p; unfold contents; cbn; now rewrite lookup_empty).
  split; [split|].
  - constructor; cbn; try done.
    + intros a Ha. now apply elem_of_nil in Ha.
    + apply (empty_hash_table 4). lia.
  - intros p d Hd. now rewrite Hnone in Hd.
  - intros p [d Hd]. now rewrite Hnone in Hd.
Qed.

Lemma reachable_consistent s : reachable s -> consistent s.
Proof.
  induction 1 as [answers strict|s op r s' _ IH Ha E]; [apply new_runtime_consistent|]. destruct (step_consistent s op IH Ha) as (r2 & s2 & E2 & H). rewrite E in E2. now injection E2 as <- <-.
Qed.

(** ** Runs *)

Fixpoint run (s : JSRuntime) (ops : list operation) : option JSRuntime :=
  match ops with
  | [] => Some s
  | op :: ops => if admissible s op then '(_, s) ← perform s op; run s ops else None
  end.

Lemma run_reachable ops : forall s s', reachable s -> run s ops = Some s' -> reachable s'.
Proof.
  induction ops as [|op ops IH]; intros s s' H E; [now injection E as <-|]. cbn in E. destruct (admissible s op) eqn:Ha; [|discriminate].
  destruct (perform s op) as [[r s1]|] eqn:Ep; [|discriminate]. cbn in E. apply (IH s1); [now apply (reach_step s op r) | done].
Qed.

(** ** Properties *)

(** C1: defining, deleting and assigning a property, changing the prototype and
    preventing extensions do to an object what OrdinaryDefineOwnProperty,
    OrdinaryDelete, OrdinarySet, OrdinarySetPrototypeOf and
    OrdinaryPreventExtensions say, on every branch: the result is the one of the
    specification, the object becomes the one it builds, its properties in the
    same order, and no other object changes although objects share their shapes;
    a refusal changes nothing; only a failed allocation may stop the call, and
    then nothing but properties of this object differs. *)
Theorem operation_refines s op p o :
  reachable s -> admissible s op = true -> target op = Some p -> view s p = Some o ->
  exists r s', perform s op = Some (r, s') /\ (out_of_memory s s' p o r \/ outcome s s' op p (es_operation s op o) r).
Proof. intros H. apply operation_spec, reachable_consistent, H. Qed.

(** C3: whatever the sequence of operations on a new runtime, and whichever
    allocations fail, every further operation returns without leaving an array, a
    chain or the heap and without a failed assertion, and keeps the invariant:
    each shape counts its users, the table of the hashed shapes lists exactly
    those, in their buckets and once, a shape outside of it has one user, every
    property is on the chain of its hash, the flags say what the value is, and
    the prototypes of every object end. *)
Theorem operations_keep_invariant s op :
  reachable s -> admissible s op = true -> exists r s', perform s op = Some (r, s') /\ objects_ok s' /\ protos_ok s'.
Proof. intros H Ha. exact (step_consistent s op (reachable_consistent s H) Ha). Qed.

(** C13: looking a property up along the prototypes ends after at most as many
    objects as there are, and finds the first property of the name on the chain:
    [JS_HasProperty] and [JS_GetPropertyInternal] are OrdinaryHasProperty and
    OrdinaryGet, the getter called on the receiver. *)
Theorem property_access_ends s p name this_obj fuel :
  reachable s -> exists_object s p = true -> name <> JS_ATOM_NULL -> (size (objects s) <= fuel)%nat ->
  let l := protos s (Some p) in
  NoDup l /\ (length l <= size (objects s))%nat /\
  JS_HasProperty fuel s p name = Some (match es_find name (views s l) with Some _ => true | None => false end) /\
  JS_GetPropertyInternal fuel s p name this_obj = Some (es_get (views s l) name this_obj).
Proof.
  intros Hr Hp Hn Hf. destruct (reachable_consistent s Hr) as [Hok Hpr]. destruct (Hpr p (exists_object_spec s p (proj1 Hok) Hp)) as [l Hl]. cbv zeta.
  rewrite (protos_spec s _ l Hl). pose proof (chain_length s _ _ Hl). split_and!; [exact (chain_NoDup s _ _ Hl) | done | |].
  - apply (has_property_spec s name Hok Hn _ l Hl p eq_refl). lia.
  - apply (get_property_spec s name Hok Hn _ l this_obj Hl p eq_refl). lia.
Qed.

(** *** An example *)

Definition all_of (flags : Z) : Z := Z.lor flags (Z.lor JS_PROP_C_W_E (Z.lor (Z.lor JS_PROP_HAS_CONFIGURABLE JS_PROP_HAS_WRITABLE) JS_PROP_HAS_ENUMERABLE)).

(** [a = {get y() {...}}; b = {__proto__: a, x: 42}; c = {__proto__: a, x: 42}],
    where [x] is the atom 20 and [y] the atom 21. *)
Definition example_operations : list operation :=
  [NewObject None false; NewObject (Some 2) false; NewObject (Some 2) false; NewObject None true;
   DefineProperty 2 21 undefined (JS_TAG_OBJECT 9) undefined (Z.lor JS_PROP_HAS_GET (Z.lor JS_PROP_HAS_CONFIGURABLE JS_PROP_CONFIGURABLE));
   DefineProperty 5 20 (Prim (JS_TAG_INT 42)) undefined undefined (all_of JS_PROP_HAS_VALUE);
   DefineProperty 7 20 (Prim (JS_TAG_INT 42)) undefined undefined (all_of JS_PROP_HAS_VALUE)].

Definition example : JSRuntime := match run (new_runtime [] false) example_operations with Some s => s | None => new_runtime [] false end.

Definition freeze_x : operation := DefineProperty 5 20 undefined undefined undefined (Z.lor JS_PROP_HAS_WRITABLE JS_PROP_HAS_CONFIGURABLE).

Lemma example_reachable : reachable example.
Proof. apply (run_reachable example_operations (new_runtime [] false)); [constructor|]. vm_compute. reflexivity. Qed.

(** Objects 5 and 7 share their shape; a property of 5 becomes constant. *)
Lemma operation_refines_witness :
  option_map shape (objects example !! 5) = option_map shape (objects example !! 7) /\
  exists r s', perform example freeze_x = Some (r, s') /\ r = Done true /\
    view s' 5 = Some (mk_es_object (Some 2) true false false [(20, DataProperty (Prim (JS_TAG_INT 42)) false true false)]) /\
    view s' 7 = Some (mk_es_object (Some 2) true false false [(20, DataProperty (Prim (JS_TAG_INT 42)) true true true)]).
Proof.
  split; [vm_compute; reflexivity|].
  destruct (operation_refines example freeze_x 5 (mk_es_object (Some 2) true false false [(20, DataProperty (Prim (JS_TAG_INT 42)) true true true)])
    example_reachable ltac:(vm_compute; reflexivity) eq_refl ltac:(vm_compute; reflexivity)) as (r & s' & E & [(_ & Hm & _)|[Hr B]]).
  - exfalso. apply Hm. vm_compute. reflexivity.
  - exists r, s'. split; [exact E|]. split; [exact Hr|]. pose proof (be_view _ _ _ _ B) as V. split.
    + rewrite (V 5). vm_compute. reflexivity.
    + rewrite (V 7). vm_compute. reflexivity.
Defined.

Lemma operations_keep_invariant_witness :
  exists r s', perform example (SetPrototype 2 (Some 5) false) = Some (r, s') /\ objects_ok s' /\ protos_ok s'.
Proof. exact (operations_keep_invariant example (SetPrototype 2 (Some 5) false) example_reachable ltac:(vm_compute; reflexivity)). Defined.

Lemma property_access_ends_witness :
  JS_GetPropertyInternal 4 example 7 21 (JS_TAG_OBJECT 7) = Some (Call 9 (JS_TAG_OBJECT 7) []).
Proof.
  assert (size (objects example) <= 4)%nat as Hf by (vm_compute; lia).
  destruct (property_access_ends example 7 21 (JS_TAG_OBJECT 7) 4 example_reachable ltac:(vm_compute; reflexivity) ltac:(discriminate) Hf) as (_ & _ & _ & E).
  rewrite E. vm_compute. reflexivity.
Defined.

(** *** A receiver that is not extensible *)

(** [Reflect.set({}, "x", 1, r)] where [r] has a writable property [x] and is not
    extensible: the assignment is refused, although OrdinarySet would define the
    existing property of [r] again, which it may. *)
Definition receiver_operations : list operation :=
  [NewObject None false; NewObject None false; DefineProperty 4 20 (Prim (JS_TAG_INT 42)) undefined undefined (all_of JS_PROP_HAS_VALUE); PreventExtensions 4].

Lemma set_inextensible_receiver :
  match run (new_runtime [] false) receiver_operations with
  | Some s =>
      option_map fst (perform s (SetProperty 2 20 (Prim (JS_TAG_INT 1)) (JS_TAG_OBJECT 4) 0)) = Some (Done false) /\
      (o ← view s 4; es_define o 20 (mk_descriptor (Some (Prim (JS_TAG_INT 1))) None None None None None)) =
        Some (mk_es_object None false false false [(20, DataProperty (Prim (JS_TAG_INT 1)) true true true)])
  | None => False
  end.
Proof. vm_compute. done. Qed.
