(* ===== verification/Sort.v ===== *)
(** * Sorting

    [rqsort] of [src/deps/cutils.c] (522 to 638), the quicksort behind
    [Array.prototype.sort], the sort of typed arrays and the order of the
    property names, with [heapsortx] (480) and [med3] (514).  The array is a list
    of elements and a pointer is the index of an element; [pi = ptr + i * size]
    and the like are one index.  The comparison is a function of a state that it
    may change: it may call user code.  An access outside of the array or of the
    stack of segments is [None], and so is a loop that does not end within its
    fuel. *)

From Stdlib Require Import ZArith Lia Bool.
From stdpp Require Import base numbers list option.
From S2P Require Import Prelude.

#[local] Open Scope Z_scope.

Definition get {A} (l : list A) (i : Z) : option A := if i <? 0 then None else l !! Z.to_nat i.
Definition set {A} (l : list A) (i : Z) (x : A) : list A := <[Z.to_nat i := x]> l.

(** ** Exchanging elements

    [exchange_func] chooses the function that copies the largest unit of 1, 2, 4,
    8 or 16 bytes that divides the addresses and the size. *)

Definition exchange_unit (base size : Z) : Z :=
  let r := Z.land (Z.lor base size) 15 in
  if r =? 0 then 16 else if r =? 8 then 8 else if (r =? 4) || (r =? 12) then 4
  else if (r =? 2) || (r =? 6) || (r =? 10) || (r =? 14) then 2 else 1.

Fixpoint swap_bytes (mem : list Z) (ap bp : Z) (n : nat) : option (list Z) :=
  match n with
  | O => Some mem
  | S n => t ← get mem ap; u ← get mem bp; swap_bytes (set (set mem ap u) bp t) (ap + 1) (bp + 1) n
  end.

(** The loops [for (size /= unit; size-- != 0;)], unit by unit: the unit at [ap] is
    read before it is written. *)
Definition copy_unit (mem : list Z) (p : Z) (bytes : list Z) : list Z :=
  take (Z.to_nat p) mem ++ bytes ++ drop (Z.to_nat p + length bytes) mem.

Fixpoint exchange_units (mem : list Z) (ap bp unit : Z) (n : nat) : option (list Z) :=
  match n with
  | O => Some mem
  | S n =>
      let load p := take (Z.to_nat unit) (drop (Z.to_nat p) mem) in
      if (ap <? 0) || (bp <? 0) || (Z.of_nat (length mem) <? ap + unit) || (Z.of_nat (length mem) <? bp + unit) then None
      else exchange_units (copy_unit (copy_unit mem ap (load bp)) bp (load ap)) (ap + unit) (bp + unit) unit n
  end.

(** [exchange_func(base, size0)(a, b, size)] *)
Definition exchange (base size0 : Z) (mem : list Z) (a b size : Z) : option (list Z) :=
  let unit := exchange_unit base size0 in
  exchange_units mem a b unit (if size0 =? unit then 1 else Z.to_nat (size / unit)).

Section Sort.
Context {St A : Type} (cmp : St -> A -> A -> Z * St).

(** ** Computations on the array *)

Definition computation (X : Type) : Type := St * list A -> option (X * (St * list A)).

Definition ret {X} (x : X) : computation X := fun st => Some (x, st).
Definition bind {X Y} (m : computation X) (f : X -> computation Y) : computation Y :=
  fun st => match m st with Some (x, st) => f x st | None => None end.
Definition fail {X} : computation X := fun _ => None.

#[local] Notation "'do!' x ':=' m 'in' k" := (bind m (fun x => k)) (at level 10, x pattern, m at level 100, k at level 200).
#[local] Notation "m ';;!' k" := (bind m (fun _ => k)) (at level 100, k at level 200, right associativity).

(** [cmp(base + i, base + j, opaque)] *)
Definition compare (i j : Z) : computation Z :=
  fun '(s, l) => match get l i, get l j with Some a, Some b => let '(c, s) := cmp s a b in Some (c, (s, l)) | _, _ => None end.

Definition swap (i j : Z) : computation unit :=
  fun '(s, l) => match get l i, get l j with Some a, Some b => Some (tt, (s, set (set l i b) j a)) | _, _ => None end.

(** [swap_block]: [n] elements from [i] and from [j]. *)
Fixpoint swap_block (i j : Z) (n : nat) : computation unit :=
  match n with
  | O => ret tt
  | S n => swap i j ;;! swap_block (i + 1) (j + 1) n
  end.

(** ** [heapsortx] *)

(** The loop [for (r = i; (c = r * 2 + size) < n; r = c)], on the heap of [n]
    elements at [base]. *)
Fixpoint sift_down (fuel : nat) (base r n : Z) : computation unit :=
  let c := r * 2 + 1 in
  if negb (c <? n) then ret tt
  else
    match fuel with
    | O => fail
    | S fuel =>
        do! c := (if c <? n - 1 then do! d := compare (base + c) (base + c + 1) in ret (if d <=? 0 then c + 1 else c) else ret c) in
        do! d := compare (base + r) (base + c) in
        if 0 <? d then ret tt else swap (base + r) (base + c) ;;! sift_down fuel base c n
    end.

(** [while (i > 0)], where [i] is decremented first. *)
Fixpoint make_heap (i : nat) (base n : Z) : computation unit :=
  match i with
  | O => ret tt
  | S i => sift_down (Z.to_nat n) base (Z.of_nat i) n ;;! make_heap i base n
  end.

(** [for (i = n - size; i > 0; i -= size)] *)
Fixpoint take_max (i : nat) (base : Z) : computation unit :=
  match i with
  | O => ret tt
  | S i' => swap base (base + Z.of_nat i) ;;! sift_down i base 0 (Z.of_nat i) ;;! take_max i' base
  end.

Definition heapsortx (base nmemb : Z) : computation unit :=
  if 1 <? nmemb then make_heap (Z.to_nat (nmemb / 2)) base nmemb ;;! take_max (Z.to_nat (nmemb - 1)) base
  else ret tt.

(** ** [rqsort] *)

Definition med3 (a b c : Z) : computation Z :=
  do! d := compare a b in
  if d <? 0 then
    do! d := compare b c in if d <? 0 then ret b else do! d := compare a c in ret (if d <? 0 then c else a)
  else
    do! d := compare b c in if 0 <? d then ret b else do! d := compare a c in ret (if d <? 0 then a else c).

(** [while (pi < pj && (c = cmp(ptr, pi, opaque)) >= 0)] *)
Fixpoint scan_up (fuel : nat) (ptr i lt pj : Z) : computation (Z * Z) :=
  if negb (i <? pj) then ret (i, lt)
  else
    match fuel with
    | O => fail
    | S fuel =>
        do! c := compare ptr (ptr + i) in
        if 0 <=? c then
          if c =? 0 then swap (ptr + lt) (ptr + i) ;;! scan_up fuel ptr (i + 1) (lt + 1) pj
          else scan_up fuel ptr (i + 1) lt pj
        else ret (i, lt)
    end.

(** [while (pi < (pj -= size) && (c = cmp(ptr, pj, opaque)) <= 0)] *)
Fixpoint scan_down (fuel : nat) (ptr i pj gt : Z) : computation (Z * Z) :=
  let pj := pj - 1 in
  if negb (i <? pj) then ret (pj, gt)
  else
    match fuel with
    | O => fail
    | S fuel =>
        do! c := compare ptr (ptr + pj) in
        if c <=? 0 then
          if c =? 0 then swap (ptr + (gt - 1)) (ptr + pj) ;;! scan_down fuel ptr i pj (gt - 1)
          else scan_down fuel ptr i pj gt
        else ret (pj, gt)
    end.

(** The loop [for (;;)] that partitions the [n] elements around the one at [ptr] *)
Fixpoint partition_loop (fuel : nat) (ptr i lt pj gt : Z) : computation (Z * Z * Z) :=
  match fuel with
  | O => fail
  | S fuel' =>
      do! (i, lt) := scan_up fuel ptr i lt pj in
      do! (pj, gt) := scan_down fuel ptr i pj gt in
      if pj <=? i then ret (i, lt, gt)
      else swap (ptr + i) (ptr + pj) ;;! partition_loop fuel' ptr (i + 1) lt pj gt
  end.

(** From the choice of the pivot to the three parts; the result is the end of the
    first and the start of the third. *)
Definition partition (ptr nmemb : Z) : computation (Z * Z) :=
  let m4 := Z.shiftr nmemb 2 in
  do! m := med3 (ptr + m4) (ptr + 2 * m4) (ptr + 3 * m4) in
  swap ptr m ;;!
  do! (i, lt, gt) := partition_loop (Z.to_nat nmemb) ptr 1 1 nmemb nmemb in
  let span := lt in
  let span2 := i - lt in
  let lt := i - lt in
  let span := if span2 <? span then span2 else span in
  swap_block ptr (ptr + i - span) (Z.to_nat span) ;;!
  let span := nmemb - gt in
  let span2 := gt - i in
  let gt := nmemb - (gt - i) in
  let span := if span2 <? span then span2 else span in
  swap_block (ptr + i) (ptr + nmemb - span) (Z.to_nat span) ;;!
  ret (lt, gt).

(** The structure on the local stack, of 50 entries *)
Record segment : Type := mk_segment { base : Z; count : Z; depth : Z }.

Definition push (g : segment) (stack : list segment) : computation (list segment) :=
  if (length stack <? 50)%nat then ret (g :: stack) else fail.

(** [while (nmemb > 6)]; the result is the segment left to the insertion sort. *)
Fixpoint split_loop (fuel : nat) (ptr nmemb depth : Z) (stack : list segment) : computation (Z * Z * list segment) :=
  if negb (6 <? nmemb) then ret (ptr, nmemb, stack)
  else
    match fuel with
    | O => fail
    | S fuel =>
        let depth := depth + 1 in
        if 50 <? depth then heapsortx ptr nmemb ;;! ret (ptr, 0, stack)
        else
          do! (lt, gt) := partition ptr nmemb in
          if nmemb - gt <? lt then
            do! stack := push (mk_segment ptr lt depth) stack in split_loop fuel (ptr + gt) (nmemb - gt) depth stack
          else
            do! stack := push (mk_segment (ptr + gt) (nmemb - gt) depth) stack in split_loop fuel ptr lt depth stack
    end.

(** [for (pj = pi; pj > ptr && cmp(pj - size, pj, opaque) > 0; pj -= size)] *)
Fixpoint insert_down (ptr : Z) (j : nat) : computation unit :=
  match j with
  | O => ret tt
  | S j' =>
      do! c := compare (ptr + Z.of_nat j') (ptr + Z.of_nat j) in
      if 0 <? c then swap (ptr + Z.of_nat j) (ptr + Z.of_nat j') ;;! insert_down ptr j' else ret tt
  end.

(** [for (pi = ptr + size, top = ptr + nmemb * size; pi < top; pi += size)] *)
Fixpoint insertion_loop (ptr : Z) (i n : nat) : computation unit :=
  match n with
  | O => ret tt
  | S n => insert_down ptr i ;;! insertion_loop ptr (S i) n
  end.

Fixpoint sort_loop (fuel : nat) (stack : list segment) : computation unit :=
  match stack with
  | [] => ret tt
  | g :: stack =>
      match fuel with
      | O => fail
      | S fuel =>
          do! (ptr, nmemb, stack) := split_loop 51 (base g) (count g) (depth g) stack in
          insertion_loop ptr 1 (Z.to_nat (nmemb - 1)) ;;! sort_loop fuel stack
      end
  end.

(** The elements have a size of at least 1 byte. *)
Definition rqsort (nmemb : Z) : computation unit :=
  if nmemb <? 2 then ret tt else sort_loop (Z.to_nat (nmemb + 1)) [mk_segment 0 nmemb 0].
End Sort.
