(* ===== verification/SortInv.v ===== *)
(** * Heaps and partitions

    The loops of [Sort] for any comparison: they stay inside of their segment,
    they end, and what they do is exchange elements.  When the answers of the
    comparison are those of an order, the heaps are heaps and the partitions
    are partitions. *)

From Stdlib Require Import ZArith Lia Bool.
From stdpp Require Import base numbers list option.
From S2P Require Import Prelude Sort.

#[local] Open Scope Z_scope.

(** The transposition of [i] and [j] *)
Definition tr (i j k : Z) : Z := if k =? i then j else if k =? j then i else k.

(** Case analysis on transpositions, innermost first *)
Ltac tr_cases :=
  unfold tr; repeat match goal with
  | |- context [Z.eqb ?a ?b] => lazymatch constr:((a, b)) with context [if _ then _ else _] => fail | _ => destruct (Z.eqb_spec a b) end
  end; try lia.

(** ** Elements *)

Section Elements.
Context {A : Type}.
Implicit Types (l : list A) (i j k : Z) (a b : A).

Lemma get_range l i a : get l i = Some a -> 0 <= i < Z.of_nat (length l).
Proof. unfold get. destruct (Z.ltb_spec i 0) as [_|Hi]; [discriminate|]. intros H%lookup_lt_Some. lia. Qed.

Lemma get_some l i : 0 <= i < Z.of_nat (length l) -> exists a, get l i = Some a.
Proof. intros H. unfold get. destruct (Z.ltb_spec i 0); [lia|]. apply lookup_lt_is_Some. lia. Qed.

Lemma get_none l i : ~ 0 <= i < Z.of_nat (length l) -> get l i = None.
Proof. intros H. unfold get. destruct (Z.ltb_spec i 0); [done|]. apply lookup_ge_None. lia. Qed.

Lemma get_Forall (P : A -> Prop) l i a : Forall P l -> get l i = Some a -> P a.
Proof. unfold get. destruct (i <? 0); [discriminate|]. intros H Hi. exact (Forall_lookup_1 P l _ a H Hi). Qed.

Lemma set_length l i a : length (set l i a) = length l.
Proof. apply length_insert. Qed.

Lemma get_set l i j a : 0 <= i < Z.of_nat (length l) -> get (set l i a) j = if j =? i then Some a else get l j.
Proof.
  intros H. unfold get, set. destruct (Z.ltb_spec j 0); destruct (Z.eqb_spec j i) as [->|Hne]; try lia; [done | apply list_lookup_insert_eq; lia|].
  apply list_lookup_insert_ne. lia.
Qed.

Definition exchanged l i j a b : list A := set (set l i b) j a.

Lemma get_exchanged l i j a b k : get l i = Some a -> get l j = Some b -> get (exchanged l i j a b) k = get l (tr i j k).
Proof.
  intros Hi Hj. pose proof (get_range _ _ _ Hi). pose proof (get_range _ _ _ Hj). unfold exchanged, tr. rewrite !get_set by (rewrite ?set_length; lia).
  destruct (Z.eqb_spec k j) as [Ej|Hj']; destruct (Z.eqb_spec k i) as [Ei|Hi']; congruence.
Qed.

Lemma exchanged_length l i j a b : length (exchanged l i j a b) = length l.
Proof. unfold exchanged. now rewrite !set_length. Qed.

Lemma tr_inv i j k : tr i j (tr i j k) = k.
Proof. tr_cases. Qed.

Lemma lookup_get l (n : nat) : l !! n = get l (Z.of_nat n).
Proof. unfold get. destruct (Z.ltb_spec (Z.of_nat n) 0); [lia|]. now rewrite Nat2Z.id. Qed.

Lemma exchanged_perm l i j a b : get l i = Some a -> get l j = Some b -> exchanged l i j a b ≡ₚ l.
Proof.
  intros Hi Hj. pose proof (get_range _ _ _ Hi). pose proof (get_range _ _ _ Hj). apply Permutation_inj. split; [apply exchanged_length|].
  exists (fun n => Z.to_nat (tr i j (Z.of_nat n))). split.
  - intros m n E. assert (forall x : nat, 0 <= tr i j (Z.of_nat x)) as Hp by (intros x; tr_cases).
    pose proof (Hp m). pose proof (Hp n). assert (tr i j (Z.of_nat m) = tr i j (Z.of_nat n)) as E' by lia. apply (f_equal (tr i j)) in E'. rewrite !tr_inv in E'. lia.
  - intros n. rewrite !lookup_get, (get_exchanged _ _ _ _ _ _ Hi Hj), Z2Nat.id; [done|]. tr_cases.
Qed.

(** [l'] is [l] after exchanges between [p] and [q]. *)
Inductive shuffles (p q : Z) : list A -> list A -> Prop :=
| shuffle_refl l : shuffles p q l l
| shuffle_step l i j a b l' : p <= i < q -> p <= j < q -> get l i = Some a -> get l j = Some b -> shuffles p q (exchanged l i j a b) l' -> shuffles p q l l'.

Lemma shuffles_trans p q l1 l2 l3 : shuffles p q l1 l2 -> shuffles p q l2 l3 -> shuffles p q l1 l3.
Proof. induction 1 as [|l i j a b l' Hi Hj Ha Hb _ IH]; [done|]. intros H. exact (shuffle_step p q l i j a b l3 Hi Hj Ha Hb (IH H)). Qed.

Lemma shuffles_mono p q p' q' l l' : p' <= p -> q <= q' -> shuffles p q l l' -> shuffles p' q' l l'.
Proof. intros Hp Hq. induction 1 as [|l i j a b l' Hi Hj Ha Hb _ IH]; [constructor|]. apply (shuffle_step p' q' l i j a b l'); [lia | lia | done..]. Qed.

Lemma shuffles_one p q l i j a b : p <= i < q -> p <= j < q -> get l i = Some a -> get l j = Some b -> shuffles p q l (exchanged l i j a b).
Proof. intros Hi Hj Ha Hb. apply (shuffle_step p q l i j a b); [done..|constructor]. Qed.

Lemma shuffles_length p q l l' : shuffles p q l l' -> length l' = length l.
Proof. induction 1 as [|l i j a b l' _ _ _ _ _ IH]; [done|]. now rewrite IH, exchanged_length. Qed.

Lemma shuffles_perm p q l l' : shuffles p q l l' -> l' ≡ₚ l.
Proof. induction 1 as [|l i j a b l' _ _ Hi Hj _ IH]; [done|]. rewrite IH. now apply exchanged_perm. Qed.

Lemma shuffles_outside p q l l' k : shuffles p q l l' -> ~ p <= k < q -> get l' k = get l k.
Proof.
  intros H Hk. induction H as [|l i j a b l' Hpi Hpj Hi Hj _ IH]; [done|]. rewrite IH, (get_exchanged _ _ _ _ _ _ Hi Hj). f_equal. tr_cases.
Qed.

Lemma shuffles_inside p q l l' k : shuffles p q l l' -> p <= k < q -> exists k', p <= k' < q /\ get l' k = get l k'.
Proof.
  intros H. revert k. induction H as [|l i j a b l' Hpi Hpj Hi Hj _ IH]; intros k Hk; [now exists k|].
  destruct (IH k Hk) as (k' & Hk' & ->). rewrite (get_exchanged _ _ _ _ _ _ Hi Hj). exists (tr i j k'). split; [|done]. tr_cases.
Qed.
(** Where an element comes from *)
Lemma shuffles_get p q l l' k : shuffles p q l l' -> exists k', get l' k = get l k' /\ (p <= k < q -> p <= k' < q) /\ (~ p <= k < q -> k' = k).
Proof.
  intros H. destruct (Z_le_gt_dec p k) as [H1|H1]; [destruct (Z_lt_ge_dec k q) as [H2|H2]|].
  - destruct (shuffles_inside p q l l' k H) as (k' & Hk' & E); [lia|]. exists k'. split_and!; [done | done | lia].
  - exists k. split_and!; [apply (shuffles_outside p q l l' k H); lia | lia | done].
  - exists k. split_and!; [apply (shuffles_outside p q l l' k H); lia | lia | done].
Qed.
End Elements.

(** ** Computations *)

Section Inv.
Context {St A : Type} (cmp : St -> A -> A -> Z * St).
(** [I] is an invariant of the state and [ok] holds of the elements; [ord] tells
    whether the answers are those of the order [le]. *)
Context (I : St -> Prop) (ok : A -> Prop) (ord : Prop) (le : A -> A -> Prop).
Context (le_refl : ord -> forall a, le a a) (le_trans : ord -> forall a b c, le a b -> le b c -> le a c).
Context (cmp_ok : forall s a b, I s -> ok a -> ok b -> I (snd (cmp s a b)) /\ (ord -> (0 <= fst (cmp s a b) -> le b a) /\ (fst (cmp s a b) <= 0 -> le a b))).

Definition runs {X} (m : computation X) (l : list A) (Q : X -> list A -> Prop) : Prop :=
  forall s, I s -> Forall ok l -> exists x s' l', m (s, l) = Some (x, (s', l')) /\ I s' /\ Forall ok l' /\ Q x l'.

Lemma runs_ret {X} (x : X) l (Q : X -> list A -> Prop) : Q x l -> runs (ret x) l Q.
Proof using Type. intros H s Hs Hl. now exists x, s, l. Qed.

Lemma runs_bind {X Y} (m : computation X) (f : X -> computation Y) l Q R :
  runs m l Q -> (forall x l', Q x l' -> runs (f x) l' R) -> runs (bind m f) l R.
Proof using Type.
  intros Hm Hf s Hs Hl. destruct (Hm s Hs Hl) as (x & s1 & l1 & E1 & H1 & K1 & Q1). destruct (Hf x l1 Q1 s1 H1 K1) as (y & s2 & l2 & E2 & H2 & K2 & R2).
  exists y, s2, l2. unfold bind. rewrite E1. done.
Qed.

Lemma runs_weaken {X} (m : computation X) l (Q R : X -> list A -> Prop) : runs m l Q -> (forall x l', Q x l' -> R x l') -> runs m l R.
Proof using Type. intros H HQ s Hs Hl. destruct (H s Hs Hl) as (x & s1 & l1 & E & H1 & K1 & Q1). exists x, s1, l1. auto. Qed.

(** The element at [i] is not greater than the one at [j]. *)
Definition leq (l : list A) (i j : Z) : Prop := forall a b, get l i = Some a -> get l j = Some b -> le a b.

Lemma leq_refl l i : ord -> leq l i i.
Proof using le_refl. intros H a b Ha Hb. rewrite Ha in Hb. injection Hb as <-. auto. Qed.

Lemma leq_trans l i j k : ord -> 0 <= j < Z.of_nat (length l) -> leq l i j -> leq l j k -> leq l i k.
Proof using le_trans. intros H Hj H1 H2 a c Ha Hc. destruct (get_some l j Hj) as [b Hb]. apply (le_trans H a b c); eauto. Qed.

Lemma leq_get l l' i j i' j' : get l' i = get l i' -> get l' j = get l j' -> leq l i' j' -> leq l' i j.
Proof using Type. unfold leq. intros -> ->. done. Qed.

Definition in_array (l : list A) (i : Z) : Prop := 0 <= i < Z.of_nat (length l).

Lemma runs_compare i j l (Q : Z -> list A -> Prop) : in_array l i -> in_array l j ->
  (forall c, (ord -> (0 <= c -> leq l j i) /\ (c <= 0 -> leq l i j)) -> Q c l) -> runs (compare cmp i j) l Q.
Proof using cmp_ok.
  intros Hi Hj HQ s Hs Hl. destruct (get_some l i Hi) as [a Ha]. destruct (get_some l j Hj) as [b Hb]. unfold compare. rewrite Ha, Hb.
  destruct (cmp_ok s a b Hs) as [H1 H2]; [eapply (get_Forall ok); eassumption | eapply (get_Forall ok); eassumption|].
  destruct (cmp s a b) as [c s']. exists c, s', l. split_and!; [done | done | done|]. apply HQ. intros Ho. destruct (H2 Ho) as [H3 H4].
  split; intros Hc x y Hx Hy; rewrite ?Ha, ?Hb in *; injection Hx as <-; injection Hy as <-; auto.
Qed.

(** After an exchange the array is known through the transposition. *)
Lemma runs_swap i j l (Q : unit -> list A -> Prop) : in_array l i -> in_array l j ->
  (forall l', (forall k, get l' k = get l (tr i j k)) -> (forall p q, p <= i < q -> p <= j < q -> shuffles p q l l') -> length l' = length l -> Q tt l') ->
  runs (swap i j) l Q.
Proof using Type.
  intros Hi Hj HQ s Hs Hl. destruct (get_some l i Hi) as [a Ha]. destruct (get_some l j Hj) as [b Hb]. unfold swap. rewrite Ha, Hb.
  exists tt, s, (exchanged l i j a b). split_and!; [done | done | now rewrite exchanged_perm|]. apply HQ.
  - intros k. now apply get_exchanged.
  - intros p q Hp Hq. now apply shuffles_one.
  - apply exchanged_length.
Qed.

(** ** Heaps *)

Definition child (k c : Z) : Prop := c = 2 * k + 1 \/ c = 2 * k + 2.

(** Nodes from [lo] on are not smaller than their children; [hole]: but for [r],
    whose children are not greater than its parent. *)
Definition heap (l : list A) (base lo n : Z) : Prop :=
  forall k c, lo <= k -> child k c -> c < n -> leq l (base + c) (base + k).

Definition hole (l : list A) (base lo r n : Z) : Prop :=
  (forall k c, lo <= k -> k <> r -> child k c -> c < n -> leq l (base + c) (base + k)) /\
  (forall k c, lo <= k -> child k r -> child r c -> c < n -> leq l (base + c) (base + k)).

Lemma sift_down_runs fuel : forall base lo r n l, 0 <= base -> base + n <= Z.of_nat (length l) -> 0 <= lo <= r -> r < n -> n - r <= Z.of_nat fuel ->
  (ord -> hole l base lo r n) ->
  runs (sift_down cmp fuel base r n) l (fun _ l' => shuffles base (base + n) l l' /\ (ord -> heap l' base lo n)).
Proof using le_refl le_trans cmp_ok.
  induction fuel as [|fuel IH]; intros base lo r n l Hb Hn Hlo Hr Hf Hh; cbn [sift_down]; [lia|].
  destruct (Z.ltb_spec (r * 2 + 1) n) as [Hc|Hc]; cbn [negb].
  2:{ apply runs_ret. split; [constructor|]. intros Ho k c Hk Hkc Hcn. destruct (Hh Ho) as [H1 _]. apply H1; try done. intros ->. unfold child in Hkc. lia. }
  (* the greater child *)
  apply (runs_bind _ _ _ (fun c l' => l' = l /\ child r c /\ c < n /\ (ord -> forall c', child r c' -> c' < n -> leq l (base + c') (base + c)))).
  { destruct (Z.ltb_spec (r * 2 + 1) (n - 1)) as [Hc1|Hc1].
    - apply (runs_bind _ _ _ (fun d l' => l' = l /\ (ord -> (0 <= d -> leq l (base + (r * 2 + 1) + 1) (base + (r * 2 + 1))) /\ (d <= 0 -> leq l (base + (r * 2 + 1)) (base + (r * 2 + 1) + 1))))).
      { apply runs_compare; [unfold in_array; lia | unfold in_array; lia | done]. }
      intros d l' [-> Hd]. apply runs_ret. split; [done|]. destruct (Z.leb_spec d 0) as [Hd0|Hd0].
      + split; [right; lia|]. split; [lia|]. intros Ho c' [->| ->] _; [|replace (2 * r + 2) with (r * 2 + 1 + 1) by lia; now apply leq_refl].
        replace (base + (2 * r + 1)) with (base + (r * 2 + 1)) by lia. replace (base + (r * 2 + 1 + 1)) with (base + (r * 2 + 1) + 1) by lia. now apply Hd.
      + split; [left; lia|]. split; [lia|]. intros Ho c' [->| ->] _; [replace (2 * r + 1) with (r * 2 + 1) by lia; now apply leq_refl|].
        replace (base + (2 * r + 2)) with (base + (r * 2 + 1) + 1) by lia. apply Hd; [done | lia].
    - apply runs_ret. split_and!; [done | left; lia | lia|]. intros Ho c' Hc' Hcn. replace c' with (r * 2 + 1) by (unfold child in Hc'; lia). now apply leq_refl. }
  intros c l' (-> & Hrc & Hcn & Hmax). assert (r < c) as Hlt by (unfold child in Hrc; lia).
  apply (runs_bind _ _ _ (fun d l' => l' = l /\ (ord -> (0 <= d -> leq l (base + c) (base + r)) /\ (d <= 0 -> leq l (base + r) (base + c))))).
  { apply runs_compare; [unfold in_array; lia | unfold in_array; lia | done]. }
  intros d l' [-> Hd]. destruct (Z.ltb_spec 0 d) as [Hd0|Hd0].
  - apply runs_ret. split; [constructor|]. intros Ho k c' Hk Hkc Hcn'. destruct (Hh Ho) as [H1 _]. destruct (Z.eq_dec k r) as [->|Hne]; [|now apply H1].
    apply (leq_trans l _ (base + c)); [done | unfold in_array; lia | now apply Hmax | apply Hd; [done | lia]].
  - apply (runs_bind _ _ _ (fun _ l' => (forall k, get l' k = get l (tr (base + r) (base + c) k)) /\ shuffles base (base + n) l l' /\ length l' = length l)).
    { apply runs_swap; [unfold in_array; lia | unfold in_array; lia|]. intros l' H1 H2 H3. split_and!; [done | apply H2; lia | done]. }
    intros _ l' (Hg & Hs & Hlen). eapply runs_weaken; [apply (IH base lo c n l'); try lia|].
    + intros Ho. destruct (Hh Ho) as [H1 H2]. destruct (Hd Ho) as [_ Hrc']. specialize (Hrc' Hd0). specialize (Hmax Ho).
      assert (forall i j i' j', tr (base + r) (base + c) i = i' -> tr (base + r) (base + c) j = j' -> leq l i' j' -> leq l' i j) as Hleq.
      { intros i j i' j' <- <-. apply leq_get; apply Hg. }
      split.
      * intros k c' Hk Hne Hkc Hcn'. unfold child in *. destruct (Z.eq_dec k r) as [->|Hkr].
        -- destruct (Z.eq_dec c' c) as [->|Hc'].
           ++ apply (Hleq _ _ (base + r) (base + c)); [tr_cases | tr_cases | done].
           ++ apply (Hleq _ _ (base + c') (base + c)); [tr_cases | tr_cases|]. now apply Hmax.
        -- destruct (Z.eq_dec c' r) as [->|Hc'].
           ++ apply (Hleq _ _ (base + c) (base + k)); [tr_cases | tr_cases|]. now apply (H2 k).
           ++ apply (Hleq _ _ (base + c') (base + k)); [tr_cases | tr_cases|]. now apply H1.
      * intros k g Hk Hkc Hcg Hgn. unfold child in *. assert (k = r) as -> by lia.
        apply (Hleq _ _ (base + g) (base + c)); [tr_cases | tr_cases|]. apply H1; unfold child; lia.
    + intros _ l'' [S' H']. split; [now apply (shuffles_trans _ _ _ l') | done].
Qed.
Lemma make_heap_runs i : forall base n l, 0 <= base -> base + n <= Z.of_nat (length l) -> Z.of_nat i <= n / 2 ->
  (ord -> heap l base (Z.of_nat i) n) ->
  runs (make_heap cmp i base n) l (fun _ l' => shuffles base (base + n) l l' /\ (ord -> heap l' base 0 n)).
Proof using le_refl le_trans cmp_ok.
  induction i as [|i IH]; intros base n l Hb Hn Hi Hh; cbn [make_heap]; [apply runs_ret; split; [constructor | exact Hh]|].
  assert (Z.of_nat i < n) by (pose proof (Z.div_mod n 2); pose proof (Z.mod_pos_bound n 2); lia).
  eapply runs_bind; [apply (sift_down_runs (Z.to_nat n) base (Z.of_nat i) (Z.of_nat i) n l); try lia|].
  - intros Ho. split; [|unfold child; lia]. intros k c Hk Hne. apply Hh; [done | lia].
  - intros _ l' [S' H']. eapply runs_weaken; [apply (IH base n l'); [done | rewrite (shuffles_length _ _ _ _ S'); lia | lia | done]|].
    intros _ l'' [S'' H'']. split; [now apply (shuffles_trans _ _ _ l') | done].
Qed.

(** The root of a heap is not smaller than the others. *)
Lemma heap_root l base n k : ord -> 0 <= base -> base + n <= Z.of_nat (length l) -> heap l base 0 n -> 0 <= k < n -> leq l (base + k) base.
Proof using le_refl le_trans.
  intros Ho Hb Hn Hh. revert k. assert (forall (m : nat) k, 0 <= k < n -> k <= Z.of_nat m -> leq l (base + k) base) as H; [|intros k Hk; apply (H (Z.to_nat k)); lia].
  induction m as [|m IH]; intros k Hk Hm; (destruct (Z.eq_dec k 0) as [->|Hne]; [replace (base + 0) with base by lia; now apply leq_refl|]); [lia|].
  pose proof (Z.div_mod (k - 1) 2 ltac:(lia)). pose proof (Z.mod_pos_bound (k - 1) 2 ltac:(lia)).
  apply (leq_trans l _ (base + (k - 1) / 2)); [done | unfold in_array; lia | apply Hh; unfold child; lia | apply IH; lia].
Qed.

Lemma take_max_runs i : forall base n l, 0 <= base -> base + n <= Z.of_nat (length l) -> Z.of_nat i < n ->
  (ord -> heap l base 0 (Z.of_nat i + 1) /\ forall x y, 0 <= x < y -> Z.of_nat i < y < n -> leq l (base + x) (base + y)) ->
  runs (take_max cmp i base) l (fun _ l' => shuffles base (base + n) l l' /\ (ord -> forall x y, 0 <= x < y -> y < n -> leq l' (base + x) (base + y))).
Proof using le_refl le_trans cmp_ok.
  induction i as [|i IH]; intros base n l Hb Hn Hi Hj.
  { apply runs_ret. split; [constructor|]. intros Ho x y Hx Hy. apply (Hj Ho); lia. }
  change (take_max cmp (S i) base) with (bind (swap base (base + Z.of_nat (S i))) (fun _ => bind (sift_down cmp (S i) base 0 (Z.of_nat (S i))) (fun _ => take_max cmp i base))).
  set (m := Z.of_nat (S i)) in *.
  apply (runs_bind _ _ _ (fun _ l' => (forall k, get l' k = get l (tr base (base + m) k)) /\ shuffles base (base + n) l l' /\ length l' = length l)).
  { apply runs_swap; [unfold in_array; lia | unfold in_array; lia|]. intros l' H1 H2 H3. split_and!; [done | apply H2; lia | done]. }
  intros _ l1 (G1 & S1 & L1).
  assert (ord -> forall x y, 0 <= x < y -> m - 1 < y < n -> leq l1 (base + x) (base + y)) as Hy1.
  { intros Ho x y Hx Hy. destruct (Hj Ho) as [Hh Ht]. destruct (Z.eq_dec y m) as [->|Hne].
    - assert (leq l (tr base (base + m) (base + x)) base) as H.
      { replace (tr base (base + m) (base + x)) with (base + (tr base (base + m) (base + x) - base)) by lia.
        apply (heap_root l base (m + 1)); [done | lia | lia | done | tr_cases]. }
      apply (leq_get l l1 _ _ (tr base (base + m) (base + x)) base); [apply G1 | rewrite G1; f_equal; tr_cases | exact H].
    - apply (leq_get l l1 _ _ (tr base (base + m) (base + x)) (base + y)); [apply G1 | rewrite G1; f_equal; tr_cases|].
      replace (tr base (base + m) (base + x)) with (base + (tr base (base + m) (base + x) - base)) by lia. apply Ht; [tr_cases | lia]. }
  eapply runs_bind; [apply (sift_down_runs (S i) base 0 0 m l1); try lia|].
  { intros Ho. destruct (Hj Ho) as [Hh _]. split; [|unfold child; lia]. intros k c Hk Hne Hkc Hc. unfold child in Hkc.
    apply (leq_get l l1 _ _ (base + c) (base + k)); [rewrite G1; f_equal; tr_cases | rewrite G1; f_equal; tr_cases|]. apply Hh; unfold child; lia. }
  intros _ l2 [S2 H2]. pose proof (shuffles_length _ _ _ _ S2) as L2. eapply runs_weaken; [apply (IH base n l2); try lia|].
  - intros Ho. split; [replace (Z.of_nat i + 1) with m by lia; auto|]. intros x y Hx Hy.
    destruct (shuffles_get _ _ _ _ (base + x) S2) as (x' & E & Hin & Hout). destruct (shuffles_get _ _ _ _ (base + y) S2) as (y' & E' & _ & Hout').
    rewrite Hout' in E' by lia. apply (leq_get l1 l2 _ _ _ _ E E'). replace x' with (base + (x' - base)) by lia. apply Hy1; [done | lia | lia].
  - intros _ l3 [S3 H3]. split; [|done]. apply (shuffles_trans _ _ _ l1); [done|]. apply (shuffles_trans _ _ _ l2); [|done]. apply (shuffles_mono base (base + m)); [lia | lia | done].
Qed.

Definition sorted (l : list A) (p q : Z) : Prop := forall x y, p <= x < y -> y < q -> leq l x y.

Lemma heapsortx_runs base n l : 0 <= base -> base + n <= Z.of_nat (length l) ->
  runs (heapsortx cmp base n) l (fun _ l' => shuffles base (base + n) l l' /\ (ord -> sorted l' base (base + n))).
Proof using le_refl le_trans cmp_ok.
  intros Hb Hn. unfold heapsortx. destruct (Z.ltb_spec 1 n) as [H1|H1].
  2:{ apply runs_ret. split; [constructor|]. intros _ x y Hx Hy. lia. }
  eapply runs_bind; [apply (make_heap_runs (Z.to_nat (n / 2)) base n l); try lia|].
  - rewrite Z2Nat.id; [done | apply Z.div_pos; lia].
  - intros _ k c Hk Hkc Hc. rewrite Z2Nat.id in Hk by (apply Z.div_pos; lia). unfold child in Hkc. pose proof (Z.div_mod n 2). pose proof (Z.mod_pos_bound n 2). lia.
  - intros _ l1 [S1 H1']. pose proof (shuffles_length _ _ _ _ S1) as L1. eapply runs_weaken; [apply (take_max_runs (Z.to_nat (n - 1)) base n l1); try lia|].
    + intros Ho. split; [replace (Z.of_nat (Z.to_nat (n - 1)) + 1) with n by lia; auto | lia].
    + intros _ l2 [S2 H2]. split; [now apply (shuffles_trans _ _ _ l1)|]. intros Ho x y Hx Hy. specialize (H2 Ho (x - base) (y - base) ltac:(lia) ltac:(lia)).
      now replace (base + (x - base)) with x in H2 by lia; replace (base + (y - base)) with y in H2 by lia.
Qed.
(** ** Partitions *)

Lemma med3_runs a b c l : in_array l a -> in_array l b -> in_array l c -> runs (med3 cmp a b c) l (fun m l' => l' = l /\ in_array l m /\ (m = a \/ m = b \/ m = c)).
Proof using cmp_ok.
  intros Ha Hb Hc. unfold med3. apply (runs_bind _ _ _ (fun _ l' => l' = l)); [now apply runs_compare|]. intros d _ ->.
  destruct (d <? 0); (apply (runs_bind _ _ _ (fun _ l' => l' = l)); [now apply runs_compare|]; intros d' _ ->);
    [destruct (d' <? 0) | destruct (0 <? d')]; try (apply runs_ret; tauto);
    (apply (runs_bind _ _ _ (fun _ l' => l' = l)); [now apply runs_compare|]; intros d'' _ ->; apply runs_ret; destruct (d'' <? 0); tauto).
Qed.

(** The elements at [x] and [y] after an exchange were at [x'] and [y']. *)
Ltac moved G x x' y y' := refine (leq_get _ _ x y x' y' (eq_trans (G x) _) (eq_trans (G y) _) _); [f_equal; tr_cases | f_equal; tr_cases |].

Section Partition.
Context (p n : Z) (Hp : 0 <= p).

Definition same (l : list A) (k : Z) : Prop := leq l (p + k) p /\ leq l p (p + k).

(** The four parts of the segment, the pivot being its first element; the part
    from [i] to [j] is not yet known. *)
Record parts (l : list A) (i lt j gt : Z) : Prop := mk_parts {
  pt_range : 1 <= lt <= i /\ i <= j <= gt /\ gt <= n /\ p + n <= Z.of_nat (length l);
  pt_first : ord -> forall k, 0 <= k < lt -> same l k;
  pt_smaller : ord -> forall k, lt <= k < i -> leq l (p + k) p;
  pt_greater : ord -> forall k, j <= k < gt -> leq l p (p + k);
  pt_last : ord -> forall k, gt <= k < n -> same l k;
}.

Lemma scan_up_runs fuel : forall l i lt j gt, parts l i lt j gt -> j - i <= Z.of_nat fuel ->
  runs (scan_up cmp fuel p i lt j) l (fun '(i', lt') l' => parts l' i' lt' j gt /\ i <= i' /\ shuffles p (p + n) l l' /\ (i' < j -> ord -> leq l' p (p + i'))).
Proof using le_refl cmp_ok Hp.
  induction fuel as [|fuel IH]; intros l i lt j gt P Hf; cbn [scan_up]; destruct (Z.ltb_spec i j) as [Hij|Hij]; cbn [negb]; try (pose proof (pt_range _ _ _ _ _ P); lia);
    try (apply runs_ret; split_and!; [done | lia | constructor | lia]).
  pose proof (pt_range _ _ _ _ _ P) as ([Hlt Hlti] & [_ Hjgt] & Hgt & Hlen).
  apply (runs_bind _ _ _ (fun c l' => l' = l /\ (ord -> (0 <= c -> leq l (p + i) p) /\ (c <= 0 -> leq l p (p + i))))).
  { apply runs_compare; [unfold in_array; lia | unfold in_array; lia | done]. }
  intros c l' [-> Hc]. destruct (Z.leb_spec 0 c) as [H0|H0]; [destruct (Z.eqb_spec c 0) as [E0|_]|].
  - apply (runs_bind _ _ _ (fun _ l' => (forall k, get l' k = get l (tr (p + lt) (p + i) k)) /\ shuffles p (p + n) l l' /\ length l' = length l)).
    { apply runs_swap; [unfold in_array; lia | unfold in_array; lia|]. intros l' H1 H2 H3. split_and!; [done | apply H2; lia | done]. }
    intros _ l1 (G & S1 & L1). eapply runs_weaken; [apply (IH l1 (i + 1) (lt + 1) j gt); [|lia]|].
    + constructor.
      * lia.
      * intros Ho k Hk. destruct (Hc Ho) as [C1 C2]. destruct (Z.eq_dec k lt) as [->|Hne].
        -- split; [moved G (p + lt) (p + i) p p; auto | moved G p p (p + lt) (p + i); apply C2; lia].
        -- destruct (pt_first _ _ _ _ _ P Ho k) as [H1 H2]; [lia|]. split; [now moved G (p + k) (p + k) p p | now moved G p p (p + k) (p + k)].
      * intros Ho k Hk. destruct (Z.eq_dec k i) as [->|Hne]; [moved G (p + i) (p + lt) p p | moved G (p + k) (p + k) p p]; apply (pt_smaller _ _ _ _ _ P Ho); lia.
      * intros Ho k Hk. moved G p p (p + k) (p + k). apply (pt_greater _ _ _ _ _ P Ho); lia.
      * intros Ho k Hk. destruct (pt_last _ _ _ _ _ P Ho k Hk). split; [now moved G (p + k) (p + k) p p | now moved G p p (p + k) (p + k)].
    + intros [i' lt'] l2 (P2 & Hi & S2 & H2). split_and!; [done | lia | now apply (shuffles_trans _ _ _ l1) | done].
  - eapply runs_weaken; [apply (IH l (i + 1) lt j gt); [|lia]|].
    + constructor; [lia | apply P | | apply P | apply P]. intros Ho k Hk. destruct (Z.eq_dec k i) as [->|Hne]; [now apply Hc|]. apply (pt_smaller _ _ _ _ _ P Ho); lia.
    + intros [i' lt'] l2 (P2 & Hi & S2 & H2). split_and!; [done | lia | done | done].
  - apply runs_ret. split_and!; [done | lia | constructor|]. intros _ Ho. apply Hc; [done | lia].
Qed.
(** The two scans meet. *)
Lemma parts_meet l i lt j gt : parts l i lt j gt -> j - 1 <= i -> (i < j -> ord -> leq l p (p + i)) -> parts l i lt i gt.
Proof using Type.
  intros P Hj Hi. pose proof (pt_range _ _ _ _ _ P). constructor; [lia | apply P | apply P | | apply P].
  intros Ho k Hk. destruct (Z.eq_dec k i) as [->|Hne]; [destruct (Z.eq_dec i j) as [->|]; [apply (pt_greater _ _ _ _ _ P Ho); lia | apply Hi; [lia | done]]|].
  apply (pt_greater _ _ _ _ _ P Ho); lia.
Qed.

Lemma scan_down_runs fuel : forall l i lt j gt, parts l i lt j gt -> j - i <= Z.of_nat fuel -> (i < j -> ord -> leq l p (p + i)) ->
  runs (scan_down cmp fuel p i j gt) l (fun '(j', gt') l' => shuffles p (p + n) l l' /\
    (i < j' /\ j' < j /\ parts l' i lt (j' + 1) gt' /\ (ord -> leq l' (p + j') p /\ leq l' p (p + i)) \/ j' <= i /\ parts l' i lt i gt')).
Proof using cmp_ok Hp.
  induction fuel as [|fuel IH]; intros l i lt j gt P Hf Hi; cbn [scan_down]; pose proof (pt_range _ _ _ _ _ P) as ([Hlt Hlti] & [Hij Hjgt] & Hgt & Hlen);
    destruct (Z.ltb_spec i (j - 1)) as [Hij'|Hij']; cbn [negb]; try lia;
    try (apply runs_ret; split; [constructor|]; right; split; [lia | now apply (parts_meet l i lt j gt)]).
  apply (runs_bind _ _ _ (fun c l' => l' = l /\ (ord -> (0 <= c -> leq l (p + (j - 1)) p) /\ (c <= 0 -> leq l p (p + (j - 1)))))).
  { apply runs_compare; [unfold in_array; lia | unfold in_array; lia | done]. }
  intros c l' [-> Hc]. destruct (Z.leb_spec c 0) as [H0|H0]; [destruct (Z.eqb_spec c 0) as [E0|_]|].
  - apply (runs_bind _ _ _ (fun _ l' => (forall k, get l' k = get l (tr (p + (gt - 1)) (p + (j - 1)) k)) /\ shuffles p (p + n) l l' /\ length l' = length l)).
    { apply runs_swap; [unfold in_array; lia | unfold in_array; lia|]. intros l' H1 H2 H3. split_and!; [done | apply H2; lia | done]. }
    intros _ l1 (G & S1 & L1). eapply runs_weaken; [apply (IH l1 i lt (j - 1) (gt - 1)); [|lia|]|].
    + constructor.
      * lia.
      * intros Ho k Hk. destruct (pt_first _ _ _ _ _ P Ho k Hk). split; [now moved G (p + k) (p + k) p p | now moved G p p (p + k) (p + k)].
      * intros Ho k Hk. moved G (p + k) (p + k) p p. now apply (pt_smaller _ _ _ _ _ P Ho).
      * intros Ho k Hk. destruct (Z.eq_dec k (j - 1)) as [->|Hne]; [moved G p p (p + (j - 1)) (p + (gt - 1)) | moved G p p (p + k) (p + k)]; apply (pt_greater _ _ _ _ _ P Ho); lia.
      * intros Ho k Hk. destruct (Hc Ho) as [C1 C2]. destruct (Z.eq_dec k (gt - 1)) as [->|Hne].
        -- split; [moved G (p + (gt - 1)) (p + (j - 1)) p p; apply C1; lia | moved G p p (p + (gt - 1)) (p + (j - 1)); apply C2; lia].
        -- destruct (pt_last _ _ _ _ _ P Ho k) as [H1 H2]; [lia|]. split; [now moved G (p + k) (p + k) p p | now moved G p p (p + k) (p + k)].
    + intros _ Ho. moved G p p (p + i) (p + i). apply Hi; [lia | done].
    + intros [j' gt'] l2 (S2 & H2). split; [now apply (shuffles_trans _ _ _ l1)|]. destruct H2 as [H2|H2]; [left; split_and!; [apply H2 | lia | apply H2 | apply H2] | now right].
  - eapply runs_weaken; [apply (IH l i lt (j - 1) gt); [|lia|]|].
    + constructor; [lia | apply P | apply P | | apply P]. intros Ho k Hk. destruct (Z.eq_dec k (j - 1)) as [->|Hne]; [now apply Hc|]. apply (pt_greater _ _ _ _ _ P Ho); lia.
    + intros _ Ho. apply Hi; [lia | done].
    + intros [j' gt'] l2 (S2 & H2). split; [done|]. destruct H2 as [H2|H2]; [left; split_and!; [apply H2 | lia | apply H2 | apply H2] | now right].
  - apply runs_ret. split; [constructor|]. left. split_and!; [lia | lia | now replace (j - 1 + 1) with j by lia|]. intros Ho. split; [apply Hc; [done | lia] | apply Hi; [lia | done]].
Qed.

Lemma partition_loop_runs fuel : forall l i lt j gt, parts l i lt j gt -> j - i < Z.of_nat fuel ->
  runs (partition_loop cmp fuel p i lt j gt) l (fun '(i', lt', gt') l' => shuffles p (p + n) l l' /\ parts l' i' lt' i' gt').
Proof using le_refl cmp_ok Hp.
  induction fuel as [|fuel IH]; intros l i lt j gt P Hf; [pose proof (pt_range _ _ _ _ _ P); lia|].
  change (partition_loop cmp (S fuel) p i lt j gt) with (bind (scan_up cmp (S fuel) p i lt j) (fun '(i, lt) => bind (scan_down cmp (S fuel) p i j gt) (fun '(j, gt) =>
    if j <=? i then ret (i, lt, gt) else bind (swap (p + i) (p + j)) (fun _ => partition_loop cmp fuel p (i + 1) lt j gt)))).
  eapply runs_bind; [apply (scan_up_runs (S fuel) l i lt j gt P); lia|]. intros [i1 lt1] l1 (P1 & Hi1 & S1 & H1). cbn beta.
  eapply runs_bind; [apply (scan_down_runs (S fuel) l1 i1 lt1 j gt P1); [lia | done]|]. intros [j1 gt1] l2 (S2 & H2). cbn beta.
  destruct (Z.leb_spec j1 i1) as [Hle|Hgt].
  - apply runs_ret. destruct H2 as [H2|[_ P2]]; [lia|]. split; [now apply (shuffles_trans _ _ _ l1) | done].
  - destruct H2 as [(_ & Hj1 & P2 & H2)|[H2 _]]; [|lia]. pose proof (pt_range _ _ _ _ _ P2) as ([Hlt Hlti] & [Hij Hjgt] & Hgtn & Hlen).
    apply (runs_bind _ _ _ (fun _ l' => (forall k, get l' k = get l2 (tr (p + i1) (p + j1) k)) /\ shuffles p (p + n) l2 l' /\ length l' = length l2)).
    { apply runs_swap; [unfold in_array; lia | unfold in_array; lia|]. intros l' H3 H4 H5. split_and!; [done | apply H4; lia | done]. }
    intros _ l3 (G & S3 & L3). eapply runs_weaken; [apply (IH l3 (i1 + 1) lt1 j1 gt1); [|lia]|].
    + constructor.
      * lia.
      * intros Ho k Hk. destruct (pt_first _ _ _ _ _ P2 Ho k Hk). split; [now moved G (p + k) (p + k) p p | now moved G p p (p + k) (p + k)].
      * intros Ho k Hk. destruct (Z.eq_dec k i1) as [->|Hne]; [moved G (p + i1) (p + j1) p p; now apply H2 | moved G (p + k) (p + k) p p; apply (pt_smaller _ _ _ _ _ P2 Ho); lia].
      * intros Ho k Hk. destruct (Z.eq_dec k j1) as [->|Hne]; [moved G p p (p + j1) (p + i1); now apply H2 | moved G p p (p + k) (p + k); apply (pt_greater _ _ _ _ _ P2 Ho); lia].
      * intros Ho k Hk. destruct (pt_last _ _ _ _ _ P2 Ho k Hk). split; [now moved G (p + k) (p + k) p p | now moved G p p (p + k) (p + k)].
    + intros [[i' lt'] gt'] l4 (S4 & P4). split; [|done]. apply (shuffles_trans _ _ _ l1); [done|]. apply (shuffles_trans _ _ _ l2); [done|]. now apply (shuffles_trans _ _ _ l3).
Qed.
End Partition.

(** ** Blocks *)

(** The exchange of the [m] elements from [i] and from [j] *)
Definition tr_block (i j m k : Z) : Z := if (i <=? k) && (k <? i + m) then k - i + j else if (j <=? k) && (k <? j + m) then k - j + i else k.

Lemma swap_block_runs m : forall i j l p q, p <= i -> i + Z.of_nat m <= j -> j + Z.of_nat m <= q -> 0 <= p -> q <= Z.of_nat (length l) ->
  runs (swap_block i j m) l (fun _ l' => shuffles p q l l' /\ forall k, get l' k = get l (tr_block i j (Z.of_nat m) k)).
Proof using Type.
  induction m as [|m IH]; intros i j l p q Hi Hj Hq Hp Hlen; cbn [swap_block].
  - apply runs_ret. split; [constructor|]. intros k. f_equal. unfold tr_block. destruct (Z.leb_spec i k), (Z.ltb_spec k (i + Z.of_nat 0)), (Z.leb_spec j k), (Z.ltb_spec k (j + Z.of_nat 0)); cbn; lia.
  - apply (runs_bind _ _ _ (fun _ l' => (forall k, get l' k = get l (tr i j k)) /\ shuffles p q l l' /\ length l' = length l)).
    { apply runs_swap; [unfold in_array; lia | unfold in_array; lia|]. intros l' H1 H2 H3. split_and!; [done | apply H2; lia | done]. }
    intros _ l1 (G & S1 & L1). eapply runs_weaken; [apply (IH (i + 1) (j + 1) l1 p q); lia|]. intros _ l2 [S2 G2].
    split; [now apply (shuffles_trans _ _ _ l1)|]. intros k. rewrite G2, G. f_equal. unfold tr_block, tr.
    destruct (Z.leb_spec (i + 1) k), (Z.ltb_spec k (i + 1 + Z.of_nat m)), (Z.leb_spec (j + 1) k), (Z.ltb_spec k (j + 1 + Z.of_nat m)), (Z.leb_spec i k), (Z.ltb_spec k (i + Z.of_nat (S m))), (Z.leb_spec j k), (Z.ltb_spec k (j + Z.of_nat (S m)));
      cbn [andb]; try lia; repeat zcase; lia.
Qed.

(** The result of a partition: nothing before the third part is greater, and
    nothing after the first one smaller, than what is on the other side. *)
Definition separated (l : list A) (p n lt gt : Z) : Prop := forall x y, 0 <= x < y -> y < n -> ~ y < lt -> ~ gt <= x -> leq l (p + x) (p + y).

Lemma tr_block_spec i j m k : 0 <= m -> i + m <= j ->
  i <= k < i + m /\ tr_block i j m k = k - i + j \/ j <= k < j + m /\ tr_block i j m k = k - j + i \/ ~ i <= k < i + m /\ ~ j <= k < j + m /\ tr_block i j m k = k.
Proof using Type.
  intros Hm Hij. unfold tr_block. destruct (Z.leb_spec i k), (Z.ltb_spec k (i + m)), (Z.leb_spec j k), (Z.ltb_spec k (j + m)); cbn; lia.
Qed.

(** Where the elements of the three parts were *)
Lemma blocks_places p n i lt gt k : 1 <= lt <= i -> i <= gt <= n -> 0 <= k < n ->
  exists k', tr_block p (p + i - Z.min lt (i - lt)) (Z.min lt (i - lt)) (tr_block (p + i) (p + n - Z.min (n - gt) (gt - i)) (Z.min (n - gt) (gt - i)) (p + k)) = p + k' /\
    0 <= k' < n /\ (k < i - lt -> lt <= k' < i) /\ (i - lt <= k < n - (gt - i) -> 0 <= k' < lt \/ gt <= k' < n) /\ (n - (gt - i) <= k -> i <= k' < gt).
Proof using Type.
  intros Hlt Hgt Hk. set (m := Z.min lt (i - lt)). set (m' := Z.min (n - gt) (gt - i)).
  assert (0 <= m /\ m <= lt /\ m <= i - lt /\ (m = lt \/ m = i - lt)) as Hm by lia. assert (0 <= m' /\ m' <= n - gt /\ m' <= gt - i /\ (m' = n - gt \/ m' = gt - i)) as Hm' by lia. clearbody m m'.
  pose proof (tr_block_spec (p + i) (p + n - m') m' (p + k)) as H1. set (k1 := tr_block (p + i) (p + n - m') m' (p + k)) in *. clearbody k1.
  pose proof (tr_block_spec p (p + i - m) m k1) as H2. set (k2 := tr_block p (p + i - m) m k1) in *. clearbody k2. exists (k2 - p). lia.
Qed.

Lemma blocks_separated l l1 l2 p n i lt gt : parts p n l i lt i gt -> 0 <= p -> ord ->
  (forall k, get l1 k = get l (tr_block p (p + i - Z.min lt (i - lt)) (Z.min lt (i - lt)) k)) ->
  (forall k, get l2 k = get l1 (tr_block (p + i) (p + n - Z.min (n - gt) (gt - i)) (Z.min (n - gt) (gt - i)) k)) ->
  separated l2 p n (i - lt) (n - (gt - i)).
Proof using le_trans.
  intros P Hp Ho G1 G2 x y Hx Hy Hnl Hng. pose proof (pt_range _ _ _ _ _ _ _ P) as ([Hlt Hlti] & [_ Higt] & Hgt & Hlen).
  destruct (blocks_places p n i lt gt x) as (x' & Ex & Hx1 & Hx2 & Hx3 & Hx4); [lia..|]. destruct (blocks_places p n i lt gt y) as (y' & Ey & Hy1 & Hy2 & Hy3 & Hy4); [lia..|].
  apply (leq_get l l2 _ _ (p + x') (p + y')); [now rewrite G2, G1, Ex | now rewrite G2, G1, Ey|].
  apply (leq_trans l _ p); [done | unfold in_array; lia | |].
  - destruct (Z_lt_ge_dec x (i - lt)) as [H|H]; [apply (pt_smaller _ _ _ _ _ _ _ P Ho); lia|].
    destruct Hx3 as [H3|H3]; [lia | now apply (pt_first _ _ _ _ _ _ _ P Ho) | now apply (pt_last _ _ _ _ _ _ _ P Ho)].
  - destruct (Z_lt_ge_dec y (n - (gt - i))) as [H|H]; [|apply (pt_greater _ _ _ _ _ _ _ P Ho); lia].
    destruct Hy3 as [H3|H3]; [lia | now apply (pt_first _ _ _ _ _ _ _ P Ho) | now apply (pt_last _ _ _ _ _ _ _ P Ho)].
Qed.

Lemma partition_runs p n l : 0 <= p -> 6 < n -> p + n <= Z.of_nat (length l) ->
  runs (partition cmp p n) l (fun '(lt, gt) l' => 0 <= lt < gt /\ gt <= n /\ shuffles p (p + n) l l' /\ (ord -> separated l' p n lt gt)).
Proof using le_refl le_trans cmp_ok.
  intros Hp Hn Hlen. unfold partition. rewrite (Z.shiftr_div_pow2 n 2) by lia. change (2 ^ 2) with 4.
  pose proof (Z.div_mod n 4 ltac:(lia)). pose proof (Z.mod_pos_bound n 4 ltac:(lia)).
  eapply runs_bind; [apply med3_runs; unfold in_array; lia|]. intros m l0 (-> & Hm & Em). cbn beta.
  apply (runs_bind _ _ _ (fun _ l' => shuffles p (p + n) l l' /\ length l' = length l)).
  { apply runs_swap; [unfold in_array; lia | done|]. intros l' H1 H2 H3. split; [apply H2; lia | done]. }
  intros _ l1 [S1 L1]. eapply runs_bind.
  { apply (partition_loop_runs p n Hp (Z.to_nat n) l1 1 1 n n); [|lia]. constructor; [lia | | lia | lia | lia].
    intros Ho k Hk. replace k with 0 by lia. unfold same. replace (p + 0) with p by lia. split; now apply leq_refl. }
  intros [[i lt] gt] l2 [S2 P]. cbn beta. pose proof (pt_range _ _ _ _ _ _ _ P) as ([Hlt Hlti] & [_ Higt] & Hgt & Hlen2).
  replace (if i - lt <? lt then i - lt else lt) with (Z.min lt (i - lt)) by (destruct (Z.ltb_spec (i - lt) lt); lia).
  replace (if gt - i <? n - gt then gt - i else n - gt) with (Z.min (n - gt) (gt - i)) by (destruct (Z.ltb_spec (gt - i) (n - gt)); lia).
  eapply runs_bind; [apply (swap_block_runs _ _ _ l2 p (p + n)); lia|]. intros _ l3 [S3 G3]. cbn beta. rewrite Z2Nat.id in G3 by lia. pose proof (shuffles_length _ _ _ _ S3) as L3.
  eapply runs_bind; [apply (swap_block_runs _ _ _ l3 p (p + n)); lia|]. intros _ l4 [S4 G4]. cbn beta. rewrite Z2Nat.id in G4 by lia.
  apply runs_ret. split_and!; [lia | lia | lia | |].
  - apply (shuffles_trans _ _ _ l1); [done|]. apply (shuffles_trans _ _ _ l2); [done|]. now apply (shuffles_trans _ _ _ l3).
  - intros Ho. now apply (blocks_separated l2 l3).
Qed.
(** ** Insertion *)

Lemma insert_down_runs j : forall p i l, 0 <= p -> Z.of_nat j <= i -> p + i < Z.of_nat (length l) ->
  (ord -> forall x y, 0 <= x < y -> y <= i -> y <> Z.of_nat j -> leq l (p + x) (p + y)) ->
  runs (insert_down cmp p j) l (fun _ l' => shuffles p (p + i + 1) l l' /\ (ord -> sorted l' p (p + i + 1))).
Proof using le_trans cmp_ok.
  induction j as [|j IH]; intros p i l Hp Hji Hlen Hs.
  { apply runs_ret. split; [constructor|]. intros Ho x y Hx Hy. replace x with (p + (x - p)) by lia. replace y with (p + (y - p)) by lia. apply (Hs Ho); lia. }
  change (insert_down cmp p (S j)) with (bind (compare cmp (p + Z.of_nat j) (p + Z.of_nat (S j)))
    (fun c => if 0 <? c then bind (swap (p + Z.of_nat (S j)) (p + Z.of_nat j)) (fun _ => insert_down cmp p j) else ret tt)).
  set (a := p + Z.of_nat j) in *. set (b := p + Z.of_nat (S j)) in *.
  apply (runs_bind _ _ _ (fun c l' => l' = l /\ (ord -> (0 <= c -> leq l b a) /\ (c <= 0 -> leq l a b)))).
  { apply runs_compare; [unfold in_array; lia | unfold in_array; lia | done]. }
  intros c l' [-> Hc]. destruct (Z.ltb_spec 0 c) as [H0|H0].
  - apply (runs_bind _ _ _ (fun _ l' => (forall k, get l' k = get l (tr b a k)) /\ shuffles p (p + i + 1) l l' /\ length l' = length l)).
    { apply runs_swap; [unfold in_array; lia | unfold in_array; lia|]. intros l' H1 H2 H3. split_and!; [done | apply H2; lia | done]. }
    intros _ l1 (G & S1 & L1). eapply runs_weaken; [apply (IH p i l1); try lia|].
    + intros Ho x y Hx Hy Hne. specialize (Hs Ho). destruct (Hc Ho) as [C1 _]. specialize (C1 ltac:(lia)).
      destruct (Z.eq_dec y (Z.of_nat (S j))) as [->|Hy'].
      * fold b. destruct (Z.eq_dec x (Z.of_nat j)) as [->|Hx']; [fold a; moved G a b b a; exact C1|].
        moved G (p + x) (p + x) b a. apply (Hs x (Z.of_nat j)); lia.
      * destruct (Z.eq_dec x (Z.of_nat j)) as [->|Hx']; [fold a; moved G a b (p + y) (p + y); apply (Hs (Z.of_nat (S j)) y); lia|].
        destruct (Z.eq_dec x (Z.of_nat (S j))) as [->|Hx'']; [fold b; moved G b a (p + y) (p + y); apply (Hs (Z.of_nat j) y); lia|].
        moved G (p + x) (p + x) (p + y) (p + y). apply Hs; lia.
    + intros _ l2 [S2 H2]. split; [now apply (shuffles_trans _ _ _ l1) | done].
  - apply runs_ret. split; [constructor|]. intros Ho x y Hx Hy. specialize (Hs Ho). destruct (Hc Ho) as [_ C2]. specialize (C2 H0).
    replace x with (p + (x - p)) by lia. replace y with (p + (y - p)) by lia. destruct (Z.eq_dec (y - p) (Z.of_nat (S j))) as [E|Hne]; [|apply Hs; lia].
    rewrite E. fold b. destruct (Z.eq_dec (x - p) (Z.of_nat j)) as [E'|Hne']; [rewrite E'; exact C2|].
    apply (leq_trans l _ a); [done | unfold in_array; lia | apply Hs; lia | exact C2].
Qed.

Lemma insertion_loop_runs n : forall p i l, 0 <= p -> (1 <= i)%nat -> p + Z.of_nat i + Z.of_nat n <= Z.of_nat (length l) -> (ord -> sorted l p (p + Z.of_nat i)) ->
  runs (insertion_loop cmp p i n) l (fun _ l' => shuffles p (p + Z.of_nat i + Z.of_nat n) l l' /\ (ord -> sorted l' p (p + Z.of_nat i + Z.of_nat n))).
Proof using le_trans cmp_ok.
  induction n as [|n IH]; intros p i l Hp Hi Hlen Hs; cbn [insertion_loop].
  - apply runs_ret. split; [constructor|]. now rewrite Z.add_0_r.
  - eapply runs_bind; [apply (insert_down_runs i p (Z.of_nat i) l); try lia|].
    { intros Ho x y Hx Hy Hne. apply (Hs Ho); lia. }
    intros _ l1 [S1 H1]. pose proof (shuffles_length _ _ _ _ S1) as L1. replace (p + Z.of_nat i + Z.of_nat (S n)) with (p + Z.of_nat (S i) + Z.of_nat n) by lia.
    eapply runs_weaken; [apply (IH p (S i) l1); try lia|].
    + intros Ho. replace (p + Z.of_nat (S i)) with (p + Z.of_nat i + 1) by lia. auto.
    + intros _ l2 [S2 H2]. split; [|done]. apply (shuffles_trans _ _ _ l1); [|done]. apply (shuffles_mono p (p + Z.of_nat i + 1)); [lia | lia | done].
Qed.

(** ** The stack of segments *)

Section Stack.
Context (N : Z).

Definition inside (g : segment) (x : Z) : Prop := base g <= x < base g + count g.

(** What is left to do: elements in order but for those of one segment. *)
Definition settled (l : list A) (gs : list segment) : Prop :=
  forall x y, 0 <= x < y -> y < N -> (forall g, g ∈ gs -> ~ (inside g x /\ inside g y)) -> leq l x y.

Definition apart (g h : segment) : Prop := forall x, inside g x -> ~ inside h x.

Inductive stack_ok : list segment -> Prop :=
| stack_nil : stack_ok []
| stack_cons g gs : 0 <= base g -> 0 <= count g -> base g + count g <= N -> Z.of_nat (length gs) <= depth g <= 50 ->
    (forall h, h ∈ gs -> apart g h) -> stack_ok gs -> stack_ok (g :: gs).

(** The number of segments and elements of the stack *)
Fixpoint weight (gs : list segment) : Z := match gs with g :: gs => count g + 1 + weight gs | [] => 0 end.

Lemma settled_shuffled l l' g gs : (forall h, h ∈ gs -> apart g h) -> shuffles (base g) (base g + count g) l l' -> settled l (g :: gs) -> 0 <= base g -> base g + count g <= N -> settled l' (g :: gs).
Proof using Type.
  intros Hd Hs H Hb Hn x y Hx Hy Hg.
  destruct (shuffles_get _ _ _ _ x Hs) as (x' & Ex & Hx1 & Hx2). destruct (shuffles_get _ _ _ _ y Hs) as (y' & Ey & Hy1 & Hy2).
  apply (leq_get l l' _ _ x' y' Ex Ey). pose proof (Hg g (list_elem_of_here _ _)) as Hgg. unfold inside in Hgg.
  apply H.
  - destruct (Z_le_gt_dec (base g) x), (Z_lt_ge_dec x (base g + count g)), (Z_le_gt_dec (base g) y), (Z_lt_ge_dec y (base g + count g)); lia.
  - destruct (Z_le_gt_dec (base g) y), (Z_lt_ge_dec y (base g + count g)); lia.
  - intros h Hh [H1 H2]. apply elem_of_cons in Hh as [->|Hh].
    + apply Hgg. unfold inside in *. destruct (Z_le_gt_dec (base g) x), (Z_lt_ge_dec x (base g + count g)), (Z_le_gt_dec (base g) y), (Z_lt_ge_dec y (base g + count g)); lia.
    + apply (Hg h); [now apply list_elem_of_further|]. specialize (Hd h Hh). split.
      * destruct (Z_le_gt_dec (base g) x) as [?|?]; [destruct (Z_lt_ge_dec x (base g + count g)) as [?|?]|]; [|now rewrite Hx2 in H1 by lia|now rewrite Hx2 in H1 by lia].
        destruct (Hd x'); [unfold inside; lia | done].
      * destruct (Z_le_gt_dec (base g) y) as [?|?]; [destruct (Z_lt_ge_dec y (base g + count g)) as [?|?]|]; [|now rewrite Hy2 in H2 by lia|now rewrite Hy2 in H2 by lia].
        destruct (Hd y'); [unfold inside; lia | done].
Qed.

Lemma settled_sorted l g gs : settled l (g :: gs) -> sorted l (base g) (base g + count g) -> settled l gs.
Proof using Type.
  intros H Hs x y Hx Hy Hg. destruct (Z_le_gt_dec (base g) x) as [H1|H1]; [destruct (Z_lt_ge_dec y (base g + count g)) as [H2|H2]|].
  - apply Hs; lia.
  - apply H; [done | done|]. intros h Hh. apply elem_of_cons in Hh as [->|Hh]; [unfold inside; lia | auto].
  - apply H; [done | done|]. intros h Hh. apply elem_of_cons in Hh as [->|Hh]; [unfold inside; lia | auto].
Qed.

(** A partition leaves two smaller segments. *)
Lemma settled_split l p n d lt gt gs d1 d2 : settled l (mk_segment p n d :: gs) -> separated l p n lt gt -> 0 <= lt < gt -> gt <= n ->
  settled l (mk_segment p lt d1 :: mk_segment (p + gt) (n - gt) d2 :: gs).
Proof using Type.
  intros H Hs Hlt Hgt x y Hx Hy Hg. pose proof (Hg _ (list_elem_of_here _ _)) as G1. pose proof (Hg _ (list_elem_of_further _ _ _ (list_elem_of_here _ _))) as G2.
  unfold inside in G1, G2. cbn in G1, G2. destruct (Z_le_gt_dec p x) as [H1|H1]; [destruct (Z_lt_ge_dec y (p + n)) as [H2|H2]|].
  - replace x with (p + (x - p)) by lia. replace y with (p + (y - p)) by lia. apply Hs; lia.
  - apply H; [done | done|]. intros h Hh. apply elem_of_cons in Hh as [->|Hh]; [unfold inside; cbn; lia|]. apply Hg. do 2 apply list_elem_of_further. done.
  - apply H; [done | done|]. intros h Hh. apply elem_of_cons in Hh as [->|Hh]; [unfold inside; cbn; lia|]. apply Hg. do 2 apply list_elem_of_further. done.
Qed.

Lemma settled_perm l gs gs' : (forall g, g ∈ gs -> g ∈ gs') -> settled l gs -> settled l gs'.
Proof using Type. intros Hin H x y Hx Hy Hg. apply H; auto. Qed.

Lemma push_runs (g : segment) gs (l : list A) : (length gs < 50)%nat -> runs (push g gs) l (fun gs' l' => gs' = g :: gs /\ l' = l).
Proof using Type. intros Hl. unfold push. destruct (Nat.ltb_spec (length gs) 50); [now apply runs_ret | lia]. Qed.

Lemma stack_split p n d gs a b c e : stack_ok (mk_segment p n d :: gs) -> 0 <= a -> 0 <= c -> 0 <= b -> 0 <= e -> a + b <= c \/ c + e <= a -> a + b <= n -> c + e <= n -> d + 1 <= 50 ->
  stack_ok (mk_segment (p + a) b (d + 1) :: mk_segment (p + c) e (d + 1) :: gs).
Proof using Type.
  intros Hs Ha Hc Hb He Hd Hn1 Hn2 Hd1. inversion Hs as [|g gs' H1 H2 H3 H4 H5 H6]; subst. cbn in *. constructor; cbn; try lia.
  - intros h Hh x Hx. unfold inside in *. cbn in *. apply elem_of_cons in Hh as [->|Hh]; [cbn; lia|]. apply (H5 h Hh). unfold inside. cbn. lia.
  - constructor; cbn; try lia; [|done]. intros h Hh x Hx. apply (H5 h Hh). unfold inside in *. cbn in *. lia.
Qed.

Lemma split_loop_runs fuel : forall p n d gs l, stack_ok (mk_segment p n d :: gs) -> N <= Z.of_nat (length l) -> 51 - d <= Z.of_nat fuel ->
  (ord -> settled l (mk_segment p n d :: gs)) ->
  runs (split_loop cmp fuel p n d gs) l (fun '(p', n', gs') l' => shuffles 0 N l l' /\ n' <= 6 /\ weight gs' + n' <= weight gs + n /\
    exists d', stack_ok (mk_segment p' n' d' :: gs') /\ (ord -> settled l' (mk_segment p' n' d' :: gs'))).
Proof using le_refl le_trans cmp_ok.
  induction fuel as [|fuel IH]; intros p n d gs l Hok Hlen Hf Hs; cbn [split_loop]; pose proof Hok as Hok'; inversion Hok' as [|g gs' H1 H2 H3 H4 H5 H6]; subst; cbn in H1, H2, H3, H4;
    destruct (Z.ltb_spec 6 n) as [Hn|Hn]; cbn [negb]; try lia; try (apply runs_ret; split; [constructor|]; split; [lia|]; split; [lia|]; now exists d).
  destruct (Z.ltb_spec 50 (d + 1)) as [Hd|Hd].
  - eapply runs_bind; [apply (heapsortx_runs p n l); lia|]. intros _ l1 [S1 H7]. apply runs_ret.
    split; [apply (shuffles_mono p (p + n)); [lia | lia | done]|]. split; [lia|]. split; [lia|]. exists d. split.
    + constructor; cbn; try lia; [|done]. intros h Hh x Hx. unfold inside in Hx. cbn in Hx. lia.
    + intros Ho. apply (settled_perm l1 gs); [intros h Hh; now apply list_elem_of_further|]. apply (settled_sorted l1 (mk_segment p n d)); [|cbn; auto].
      apply (settled_shuffled l l1 (mk_segment p n d)); auto; cbn; lia.
  - eapply runs_bind; [apply (partition_runs p n l); lia|]. intros [lt gt] l1 (Hlt & Hgt & S1 & Hsep). cbn beta. pose proof (shuffles_length _ _ _ _ S1) as L1.
    assert (shuffles 0 N l l1) as S1' by (apply (shuffles_mono p (p + n)); [lia | lia | done]).
    assert (ord -> settled l1 (mk_segment p lt (d + 1) :: mk_segment (p + gt) (n - gt) (d + 1) :: gs)) as Hs1.
    { intros Ho. apply (settled_split l1 p n d lt gt); [|now auto | lia | lia]. apply (settled_shuffled l l1 (mk_segment p n d)); auto; cbn; lia. }
    destruct (Z.ltb_spec (n - gt) lt) as [Hc|Hc]; (eapply runs_bind; [apply push_runs; lia|]); intros gs1 l1' [-> ->]; cbn beta.
    + pose proof (stack_split p n d gs gt (n - gt) 0 lt Hok ltac:(lia) ltac:(lia) ltac:(lia) ltac:(lia) ltac:(lia) ltac:(lia) ltac:(lia) ltac:(lia)) as Hok1. rewrite Z.add_0_r in Hok1.
      eapply runs_weaken; [apply (IH _ _ _ _ l1 Hok1); [lia | lia|]|].
      * intros Ho. apply (settled_perm l1 (mk_segment p lt (d + 1) :: mk_segment (p + gt) (n - gt) (d + 1) :: gs)); [intros h Hh; rewrite !elem_of_cons in *; tauto | auto].
      * intros [[p' n'] gs'] l2 (S2 & Hn' & Hw & H7). cbn in Hw. split; [now apply (shuffles_trans _ _ _ l1)|]. split; [done|]. split; [lia | done].
    + pose proof (stack_split p n d gs 0 lt gt (n - gt) Hok ltac:(lia) ltac:(lia) ltac:(lia) ltac:(lia) ltac:(lia) ltac:(lia) ltac:(lia) ltac:(lia)) as Hok1. rewrite Z.add_0_r in Hok1.
      eapply runs_weaken; [apply (IH _ _ _ _ l1 Hok1); [lia | lia | exact Hs1]|].
      intros [[p' n'] gs'] l2 (S2 & Hn' & Hw & H7). cbn in Hw. split; [now apply (shuffles_trans _ _ _ l1)|]. split; [done|]. split; [lia | done].
Qed.

Lemma sort_loop_runs fuel : forall gs l, stack_ok gs -> N <= Z.of_nat (length l) -> weight gs <= Z.of_nat fuel -> (ord -> settled l gs) ->
  runs (sort_loop cmp fuel gs) l (fun _ l' => shuffles 0 N l l' /\ (ord -> settled l' [])).
Proof using le_refl le_trans cmp_ok.
  induction fuel as [|fuel IH]; intros gs l Hok Hlen Hf Hs; (destruct gs as [|g gs]; cbn [sort_loop]; [apply runs_ret; split; [constructor | exact Hs]|]).
  { exfalso. clear -Hok Hf. assert (forall gs, stack_ok gs -> 0 <= weight gs) as H by (induction 1; cbn; lia). inversion Hok as [|g' gs' H1 H2 H3 H4 H5 H6]; subst. specialize (H gs H6). cbn in Hf. lia. }
  destruct g as [p n d]. cbn [base count depth]. eapply runs_bind; [apply (split_loop_runs 51 p n d gs l Hok Hlen); [inversion Hok; cbn in *; lia | exact Hs]|].
  intros [[p' n'] gs'] l1 (S1 & Hn' & Hw & d' & Hok1 & Hs1). cbn beta. cbn in Hf. pose proof (shuffles_length _ _ _ _ S1) as L1. inversion Hok1 as [|g gs1 H1 H2 H3 H4 H5 H6]; subst. cbn in H1, H2, H3, H4.
  apply (runs_bind _ _ _ (fun _ l2 => shuffles p' (p' + n') l1 l2 /\ (ord -> sorted l2 p' (p' + n')))).
  { destruct (Z_le_gt_dec n' 1) as [Hle|Hgt].
    - replace (Z.to_nat (n' - 1)) with 0%nat by lia. apply runs_ret. split; [constructor|]. intros _ x y Hx Hy. lia.
    - eapply runs_weaken; [apply (insertion_loop_runs (Z.to_nat (n' - 1)) p' 1 l1); try lia|].
      + intros _ x y Hx Hy. lia.
      + intros _ l2 [S2 H7]. replace (p' + Z.of_nat 1 + Z.of_nat (Z.to_nat (n' - 1))) with (p' + n') in * by lia. done. }
  intros _ l2 [S2 H7]. pose proof (shuffles_length _ _ _ _ S2) as L2. eapply runs_weaken; [apply (IH gs' l2 H6); [lia | lia|]|].
  - intros Ho. apply (settled_sorted l2 (mk_segment p' n' d')); [|cbn; auto]. apply (settled_shuffled l1 l2 (mk_segment p' n' d')); auto; cbn; lia.
  - intros _ l3 [S3 H8]. split; [|done]. apply (shuffles_trans _ _ _ l1); [done|]. apply (shuffles_trans _ _ _ l2); [|done]. apply (shuffles_mono p' (p' + n')); [lia | lia | done].
Qed.
End Stack.

Lemma rqsort_runs n l : n <= Z.of_nat (length l) -> runs (rqsort cmp n) l (fun _ l' => shuffles 0 n l l' /\ (ord -> sorted l' 0 n)).
Proof using le_refl le_trans cmp_ok.
  intros Hlen. unfold rqsort. destruct (Z.ltb_spec n 2) as [Hn|Hn].
  { apply runs_ret. split; [constructor|]. intros _ x y Hx Hy. lia. }
  eapply runs_weaken; [apply (sort_loop_runs n (Z.to_nat (n + 1)) [mk_segment 0 n 0] l); [|lia | cbn; lia|]|].
  - constructor; cbn; try lia; [intros h Hh; now apply elem_of_nil in Hh | constructor].
  - intros _ x y Hx Hy Hg. destruct (Hg _ (list_elem_of_here _ _)). unfold inside. cbn. lia.
  - intros _ l' [S' H']. split; [done|]. intros Ho x y Hx Hy. apply (H' Ho); [lia | done|]. intros g Hg. now apply elem_of_nil in Hg.
Qed.
End Inv.
