(* ===== verification/SortSpec.v ===== *)
(** * Sorting sorts

    [rqsort] returns a permutation of the array whatever the comparison answers,
    and a sorted one when the answers are those of an order; the functions that
    exchange elements exchange their bytes. *)

From Stdlib Require Import ZArith Lia Bool.
From stdpp Require Import base numbers list option sorting.
From S2P Require Import Prelude Sort SortInv.

#[local] Open Scope Z_scope.

(** ** Exchanging bytes *)

Section Exchange.
Implicit Types (mem bytes : list Z) (p k : Z).

Lemma get_copy_unit mem p bytes k : 0 <= p -> p + Z.of_nat (length bytes) <= Z.of_nat (length mem) ->
  get (copy_unit mem p bytes) k = if (p <=? k) && (k <? p + Z.of_nat (length bytes)) then get bytes (k - p) else get mem k.
Proof.
  intros Hp Hl. unfold copy_unit, get. destruct (Z.leb_spec p k) as [H1|H1]; cbn [andb].
  - destruct (Z.ltb_spec k 0); [lia|]. rewrite lookup_app_r by (rewrite length_take; lia). rewrite length_take, Nat.min_l by lia.
    destruct (Z.ltb_spec k (p + Z.of_nat (length bytes))) as [H2|H2].
    + destruct (Z.ltb_spec (k - p) 0); [lia|]. rewrite lookup_app_l by lia. f_equal. lia.
    + rewrite lookup_app_r, lookup_drop by lia. f_equal. lia.
  - destruct (Z.ltb_spec k 0); [done|]. rewrite lookup_app_l by (rewrite length_take; lia). apply lookup_take_lt. lia.
Qed.

Lemma copy_unit_length mem p bytes : 0 <= p -> p + Z.of_nat (length bytes) <= Z.of_nat (length mem) -> length (copy_unit mem p bytes) = length mem.
Proof. intros Hp Hl. unfold copy_unit. rewrite !length_app, length_take, length_drop. lia. Qed.

Lemma get_load mem p unit k : 0 <= p -> 0 <= k < unit -> get (take (Z.to_nat unit) (drop (Z.to_nat p) mem)) k = get mem (p + k).
Proof.
  intros Hp Hk. unfold get. destruct (Z.ltb_spec k 0); [lia|]. destruct (Z.ltb_spec (p + k) 0); [lia|].
  rewrite lookup_take_lt, lookup_drop by lia. f_equal. lia.
Qed.

(** The regions do not overlap, or are the same. *)
Definition separate (a b size : Z) : Prop := a = b \/ a + size <= b \/ b + size <= a.

Lemma exchange_units_spec unit n : 0 < unit -> forall mem a b, 0 <= a -> 0 <= b -> a + unit * Z.of_nat n <= Z.of_nat (length mem) -> b + unit * Z.of_nat n <= Z.of_nat (length mem) ->
  separate a b (unit * Z.of_nat n) ->
  exists mem', exchange_units mem a b unit n = Some mem' /\ length mem' = length mem /\ forall k, get mem' k = get mem (tr_block a b (unit * Z.of_nat n) k).
Proof.
  intros Hu. induction n as [|n IH]; intros mem a b Ha Hb La Lb Hs; cbn [exchange_units].
  - exists mem. split_and!; [done | done|]. intros k. unfold tr_block. replace (unit * Z.of_nat 0) with 0 by lia.
    destruct (Z.leb_spec a k), (Z.ltb_spec k (a + 0)), (Z.leb_spec b k), (Z.ltb_spec k (b + 0)); cbn; f_equal; lia.
  - replace (unit * Z.of_nat (S n)) with (unit + unit * Z.of_nat n) in * by lia. assert (0 <= unit * Z.of_nat n) as Hm by nia. set (m := unit * Z.of_nat n) in *. clearbody m.
    destruct (Z.ltb_spec a 0); [lia|]. destruct (Z.ltb_spec b 0); [lia|]. destruct (Z.ltb_spec (Z.of_nat (length mem)) (a + unit)); [lia|]. destruct (Z.ltb_spec (Z.of_nat (length mem)) (b + unit)); [lia|].
    cbn [orb]. set (load := fun p => take (Z.to_nat unit) (drop (Z.to_nat p) mem)).
    assert (forall p, 0 <= p -> p + unit <= Z.of_nat (length mem) -> Z.of_nat (length (load p)) = unit) as Ll by (intros p Hp Hl; unfold load; rewrite length_take, length_drop; lia).
    pose proof (Ll a Ha ltac:(lia)) as Ea. pose proof (Ll b Hb ltac:(lia)) as Eb.
    assert (length (copy_unit mem a (load b)) = length mem) as L1 by (apply copy_unit_length; lia).
    assert (length (copy_unit (copy_unit mem a (load b)) b (load a)) = length mem) as L2 by (rewrite copy_unit_length; lia).
    destruct (IH (copy_unit (copy_unit mem a (load b)) b (load a)) (a + unit) (b + unit)) as (mem' & E & L & G); [lia | lia | lia | lia | unfold separate in *; lia|].
    exists mem'. split_and!; [exact E | lia|]. intros k. rewrite G. unfold tr_block at 1.
    assert (forall q, get (copy_unit (copy_unit mem a (load b)) b (load a)) q =
      if (b <=? q) && (q <? b + unit) then get mem (a + (q - b)) else if (a <=? q) && (q <? a + unit) then get mem (b + (q - a)) else get mem q) as W.
    { intros q. rewrite get_copy_unit by lia. rewrite Ea. destruct (Z.leb_spec b q), (Z.ltb_spec q (b + unit)); cbn [andb]; try (apply get_load; lia);
        (rewrite get_copy_unit by lia; rewrite Eb; destruct (Z.leb_spec a q), (Z.ltb_spec q (a + unit)); cbn [andb]; [apply get_load; lia | done | done | done]). }
    rewrite W. unfold tr_block, separate in *. clear -Hs Hm Hu.
    destruct (Z.leb_spec (a + unit) k), (Z.ltb_spec k (a + unit + m)), (Z.leb_spec (b + unit) k), (Z.ltb_spec k (b + unit + m)), (Z.leb_spec a k), (Z.ltb_spec k (a + (unit + m))), (Z.leb_spec b k), (Z.ltb_spec k (b + (unit + m)));
      cbn [andb]; try lia; repeat (zcase; cbn [andb]); try lia; f_equal; lia.
Qed.

Lemma exchange_unit_positive base size : 0 < exchange_unit base size.
Proof. unfold exchange_unit. repeat (match goal with |- context [if ?c then _ else _] => destruct c end); lia. Qed.

(** The unit divides the size. *)
Lemma exchange_unit_divides base size : 0 <= base -> 0 <= size -> (exchange_unit base size | size).
Proof.
  intros Hb Hs. unfold exchange_unit. set (r := Z.land (Z.lor base size) 15).
  assert (forall n, 0 <= n < 4 -> Z.testbit size n = true -> Z.testbit r n = true) as Hr.
  { intros n Hn Ht. unfold r. rewrite Z.land_spec, Z.lor_spec, Ht, orb_true_r. change 15 with (Z.ones 4). now rewrite Z.ones_spec_low by lia. }
  assert (forall w, 0 <= w <= 4 -> (forall n, 0 <= n < w -> Z.testbit r n = false) -> (2 ^ w | size)) as D.
  { intros w Hw Hz. apply Z.mod_divide; [lia|]. rewrite <- Z.land_ones by lia. apply Z.bits_inj'. intros n Hn. rewrite Z.bits_0, Z.land_spec.
    destruct (Z.ltb_spec n w); [|rewrite Z.ones_spec_high by lia; apply andb_false_r]. destruct (Z.testbit size n) eqn:E; [|done]. apply Hr in E; [|lia]. now rewrite Hz in E by lia. }
  assert (forall w v, 0 <= w <= 4 -> r = v -> Z.land v (Z.ones w) = 0 -> (2 ^ w | size)) as D'.
  { intros w v Hw E Hv. apply D; [done|]. intros n Hn. rewrite E. assert (Z.testbit (Z.land v (Z.ones w)) n = false) as B by now rewrite Hv, Z.bits_0.
    now rewrite Z.land_spec, Z.ones_spec_low, andb_true_r in B by lia. }
  destruct (Z.eqb_spec r 0) as [E|_]; [now apply (D' 4 0)|]. destruct (Z.eqb_spec r 8) as [E|_]; [now apply (D' 3 8)|].
  destruct (Z.eqb_spec r 4) as [E|_]; [now apply (D' 2 4)|]. destruct (Z.eqb_spec r 12) as [E|_]; [now apply (D' 2 12)|]. cbn [orb].
  destruct (Z.eqb_spec r 2) as [E|_]; [now apply (D' 1 2)|]. destruct (Z.eqb_spec r 6) as [E|_]; [now apply (D' 1 6)|].
  destruct (Z.eqb_spec r 10) as [E|_]; [now apply (D' 1 10)|]. destruct (Z.eqb_spec r 14) as [E|_]; [now apply (D' 1 14)|]. apply Z.divide_1_l.
Qed.

(** [swap] and [swap_block] exchange the bytes of one or several elements. *)
Lemma exchange_correct base size0 mem a b size : 0 <= base -> 0 <= size0 -> 0 <= size -> (exchange_unit base size0 | size) -> (exchange_unit base size0 = size0 -> size = size0) ->
  0 <= a -> 0 <= b -> a + size <= Z.of_nat (length mem) -> b + size <= Z.of_nat (length mem) -> separate a b size ->
  exists mem', exchange base size0 mem a b size = Some mem' /\ forall k, get mem' k = get mem (tr_block a b size k).
Proof.
  intros Hbase H0 Hs [q Hq] H1 Ha Hb La Lb Hsep. pose proof (exchange_unit_positive base size0) as Hu. unfold exchange. set (unit := exchange_unit base size0) in *.
  assert (unit * Z.of_nat (if size0 =? unit then 1 else Z.to_nat (size / unit)) = size) as E.
  { destruct (Z.eqb_spec size0 unit) as [Es|_]; [rewrite (H1 (eq_sym Es)); lia|]. rewrite Hq, Z.div_mul by lia. rewrite Z2Nat.id by nia. lia. }
  destruct (exchange_units_spec unit (if size0 =? unit then 1 else Z.to_nat (size / unit)) Hu mem a b) as (mem' & E' & _ & G); rewrite ?E in *; try lia; [done|].
  now exists mem'.
Qed.
End Exchange.

(** ** The result of [rqsort] *)

(** The answers of the comparison are those of the order [le]. *)
Definition answers {St A} (cmp : St -> A -> A -> Z * St) (le : A -> A -> Prop) : Prop :=
  forall s a b, (0 <= fst (cmp s a b) -> le b a) /\ (fst (cmp s a b) <= 0 -> le a b).

Lemma sorted_strongly {A} (le : A -> A -> Prop) (l : list A) : sorted le l 0 (Z.of_nat (length l)) -> StronglySorted le l.
Proof.
  intros H. assert (forall (i j : nat) a b, (i < j)%nat -> l !! i = Some a -> l !! j = Some b -> le a b) as H'.
  { intros i j a b Hij Hi Hj. pose proof (lookup_lt_Some _ _ _ Hj). apply (H (Z.of_nat i) (Z.of_nat j)); [lia | lia | now rewrite <- lookup_get | now rewrite <- lookup_get]. }
  clear H. induction l as [|x l IH]; constructor.
  - apply IH. intros i j a b Hij Hi Hj. apply (H' (S i) (S j) a b); [lia | done | done].
  - apply Forall_forall. intros y Hy. apply list_elem_of_lookup_1 in Hy as [j Hj]. apply (H' 0%nat (S j) x y); [lia | done | done].
Qed.

(** C38: sorting is safe and sorts.  With any comparison, even one that gives
    different answers to the same question, [rqsort] ends without leaving the
    array or its stack of 50 segments, and returns a permutation of the elements;
    when the answers are those of a preorder, it is sorted. *)
Theorem rqsort_correct {St A} (cmp : St -> A -> A -> Z * St) s l :
  exists s' l', rqsort cmp (Z.of_nat (length l)) (s, l) = Some (tt, (s', l')) /\ l' ≡ₚ l /\
    forall le, PreOrder le -> answers cmp le -> StronglySorted le l'.
Proof.
  assert (forall le (ord : Prop), (ord -> PreOrder le /\ answers cmp le) -> exists s' l', rqsort cmp (Z.of_nat (length l)) (s, l) = Some (tt, (s', l')) /\ l' ≡ₚ l /\
    (ord -> StronglySorted le l')) as R.
  { intros le ord Hord. destruct (rqsort_runs cmp (fun _ => True) (fun _ => True) ord le) with (n := Z.of_nat (length l)) (l := l) (s := s) as ([] & s' & l' & E & _ & _ & S' & H').
    - intros Ho a. destruct (Hord Ho) as [P _]. reflexivity.
    - intros Ho a b c. destruct (Hord Ho) as [P _]. now transitivity b.
    - intros s0 a b _ _ _. split; [done|]. intros Ho. destruct (Hord Ho) as [_ Hc]. apply Hc.
    - lia.
    - done.
    - apply Forall_forall. done.
    - exists s', l'. split; [exact E|]. split; [exact (shuffles_perm _ _ _ _ S')|]. intros Ho. apply sorted_strongly. rewrite (shuffles_length _ _ _ _ S'). auto. }
  destruct (R (fun _ _ => True) False) as (s' & l' & E & P & _); [done|]. exists s', l'. split_and!; [done | done|].
  intros le Hle Ha. destruct (R le True) as (s2 & l2 & E2 & _ & H2); [done|]. rewrite E in E2. injection E2 as <- <-. auto.
Qed.
