(* ===== verification/ArraySort.v ===== *)
(** * Array.prototype.sort

    [js_array_sort] of [src/core/quickjs.c] (42731 to 42813) with its comparison
    [js_array_cmp_generic] (42670), over [rqsort] of [Sort] and the comparison
    of strings of [JSStrings].  The object that is sorted and the user's
    comparison function are reached through the operations of [ArrayHost]: each
    of them may run user code, which may change anything. *)

From Stdlib Require Import ZArith Lia Bool.
From stdpp Require Import base numbers list option gmap.
From S2P Require Import Prelude Numeric JSStrings Sort.

#[local] Open Scope Z_scope.

(** ** The host *)

(** The operations of the engine that the sort calls, on a state [W] and values
    [V]; [None] is an exception.  [JS_TryGetPropertyInt64] tells whether there is
    such a property; [js_realloc2] gives the bytes that are usable beyond the size
    asked for. *)
Class ArrayHost (W V : Type) : Type := {
  js_get_length64 : W -> option Z * W;
  js_realloc2 : W -> Z -> option Z * W;
  JS_TryGetPropertyInt64 : W -> Z -> option (option V) * W;
  JS_SetPropertyInt64 : W -> Z -> V -> option unit * W;
  JS_DeletePropertyInt64 : W -> Z -> option unit * W;
  JS_IsUndefined : V -> bool;
  JS_UNDEFINED : V;
  same_bits : V -> V -> bool;
  JS_Call : W -> V -> V -> option V * W;
  int_value : V -> option Z;
  JS_ToFloat64Free : W -> V -> option Z * W;
  JS_ToString : W -> V -> option JSString * W;
}.

Section ArraySort.
Context {W V : Type} `{ArrayHost W V}.

(** The [str] field of a slot, which moves with it, is a map from [pos]. *)
Record ValueSlot : Type := mk_slot { val : V; pos : Z }.

Record array_sort_context : Type := mk_sort { ctx : W; exception : bool; strs : gmap Z JSString }.

(** [(val > 0) - (val < 0)] *)
Definition sign_int (v : Z) : Z := b2z (0 <? v) - b2z (v <? 0).
Definition sign_float64 (u : Z) : Z := b2z (f64_gtZ u 0) - b2z (f64_ltZ u 0).

Definition cmp_same (a b : ValueSlot) : Z := b2z (pos b <? pos a) - b2z (pos a <? pos b).

(** The comparison of the user; [None] is an exception. *)
Definition call_method (w : W) (a b : V) : option Z * W :=
  match JS_Call w a b with
  | (None, w) => (None, w)
  | (Some r, w) =>
      match int_value r with
      | Some v => (Some (sign_int v), w)
      | None => match JS_ToFloat64Free w r with (Some u, w) => (Some (sign_float64 u), w) | (None, w) => (None, w) end
      end
  end.

(** [if (!ap->str)] ... *)
Definition slot_string (psc : array_sort_context) (a : ValueSlot) : option JSString * array_sort_context :=
  match strs psc !! pos a with
  | Some s => (Some s, psc)
  | None =>
      match JS_ToString (ctx psc) (val a) with
      | (Some s, w) => (Some s, mk_sort w (exception psc) (<[pos a := s]> (strs psc)))
      | (None, w) => (None, mk_sort w (exception psc) (strs psc))
      end
  end.

Definition throw (psc : array_sort_context) : Z * array_sort_context := (0, mk_sort (ctx psc) true (strs psc)).

Definition js_array_cmp_generic (has_method : bool) (psc : array_sort_context) (a b : ValueSlot) : Z * array_sort_context :=
  if exception psc then (0, psc)
  else if has_method then
    if same_bits (val a) (val b) then (cmp_same a b, psc)
    else
      match call_method (ctx psc) (val a) (val b) with
      | (None, w) => throw (mk_sort w (exception psc) (strs psc))
      | (Some cmp, w) => (if negb (cmp =? 0) then cmp else cmp_same a b, mk_sort w (exception psc) (strs psc))
      end
  else
    match slot_string psc a with
    | (None, psc) => throw psc
    | (Some s1, psc) =>
        match slot_string psc b with
        | (None, psc) => throw psc
        | (Some s2, psc) => let cmp := js_string_compare s1 s2 in (if negb (cmp =? 0) then cmp else cmp_same a b, psc)
        end
    end.

Definition sizeof_ValueSlot : Z := 32.

(** Room for the slot [pos] in the array of slots: its new size *)
Definition reserve (w : W) (pos array_size : Z) : option Z * W :=
  if array_size <=? pos then
    let new_size := Z.land (u64 (array_size + Z.shiftr array_size 1 + 31)) (Z.lnot 15) in
    match js_realloc2 w (u64 (new_size * sizeof_ValueSlot)) with
    | (None, w) => (None, w)
    | (Some slack, w) => (Some (u64 (new_size + slack / sizeof_ValueSlot)), w)
    end
  else (Some array_size, w).

(** [for (i = 0; i < len; i++)]: the slots from [pos] on, and the number of
    undefined values *)
Fixpoint collect (n : nat) (w : W) (i pos array_size : Z) : option (list ValueSlot * Z) * W :=
  match n with
  | O => (Some ([], 0), w)
  | S n =>
      match reserve w pos array_size with
      | (None, w) => (None, w)
      | (Some array_size, w) =>
          match JS_TryGetPropertyInt64 w i with
          | (None, w) => (None, w)
          | (Some None, w) => collect n w (i + 1) pos array_size
          | (Some (Some v), w) =>
              if JS_IsUndefined v then
                match collect n w (i + 1) pos array_size with
                | (None, w) => (None, w)
                | (Some (slots, undefined_count), w) => (Some (slots, undefined_count + 1), w)
                end
              else
                match collect n w (i + 1) (pos + 1) array_size with
                | (None, w) => (None, w)
                | (Some (slots, undefined_count), w) => (Some (mk_slot v i :: slots, undefined_count), w)
                end
          end
      end
  end.

(** [while (n < pos)] *)
Fixpoint write_sorted (slots : list ValueSlot) (w : W) (n : Z) : option unit * W :=
  match slots with
  | [] => (Some tt, w)
  | a :: slots =>
      if pos a =? n then write_sorted slots w (n + 1)
      else match JS_SetPropertyInt64 w n (val a) with (Some _, w) => write_sorted slots w (n + 1) | (None, w) => (None, w) end
  end.

(** [for (i = n; undefined_count-- > 0; i++)] *)
Fixpoint write_undefined (count : nat) (w : W) (i : Z) : option unit * W :=
  match count with
  | O => (Some tt, w)
  | S count => match JS_SetPropertyInt64 w i JS_UNDEFINED with (Some _, w) => write_undefined count w (i + 1) | (None, w) => (None, w) end
  end.

(** [for (; i < len; i++)] *)
Fixpoint delete_rest (count : nat) (w : W) (i : Z) : option unit * W :=
  match count with
  | O => (Some tt, w)
  | S count => match JS_DeletePropertyInt64 w i with (Some _, w) => delete_rest count w (i + 1) | (None, w) => (None, w) end
  end.

(** The object is valid and the comparison a function or undefined.  [None] would
    be an access of [rqsort] outside of its memory. *)
Definition js_array_sort (w : W) (has_method : bool) : option (option unit * W) :=
  match js_get_length64 w with
  | (None, w) => Some (None, w)
  | (Some len, w) =>
      match collect (Z.to_nat len) w 0 0 0 with
      | (None, w) => Some (None, w)
      | (Some (slots, undefined_count), w) =>
          match rqsort (js_array_cmp_generic has_method) (Z.of_nat (length slots)) (mk_sort w false ∅, slots) with
          | None => None
          | Some (_, (asc, slots)) =>
              if exception asc then Some (None, ctx asc)
              else
                Some (let n := Z.of_nat (length slots) in
                      match write_sorted slots (ctx asc) 0 with
                      | (None, w) => (None, w)
                      | (Some _, w) =>
                          match write_undefined (Z.to_nat undefined_count) w n with
                          | (None, w) => (None, w)
                          | (Some _, w) => delete_rest (Z.to_nat (len - (n + undefined_count))) w (n + undefined_count)
                          end
                      end)
          end
      end
  end.
End ArraySort.
