(* ===== verification/ArraySortSpec.v ===== *)
(** * Array.prototype.sort against its specification

    On an object whose elements are plain properties, with a comparison function
    that is consistent, [js_array_sort] leaves what SortIndexedProperties and
    Array.prototype.sort of ECMAScript do: the values in stable order, then the
    undefined ones, then no elements.  [ArrayHost] is used through the laws of
    [PlainHost]. *)

From Stdlib Require Import ZArith Lia Bool.
From stdpp Require Import base numbers list option gmap sorting.
From S2P Require Import Prelude Numeric JSStrings Sort SortInv SortSpec ArraySort.

#[local] Open Scope Z_scope.

(** ** Comparing strings *)

(** The lexicographic order of the code units, as a sign *)
Fixpoint lexicographic (l1 l2 : list Z) : Z :=
  match l1, l2 with
  | [], [] => 0
  | [], _ => -1
  | _, [] => 1
  | a :: l1, b :: l2 => if a =? b then lexicographic l1 l2 else if a <? b then -1 else 1
  end.

Lemma compare_lexicographic p1 p2 : Z.sgn (js_string_compare p1 p2) = lexicographic (str p1) (str p2).
Proof.
  unfold js_string_compare. rewrite js_string_memcmp_units. generalize (str p1) as l1, (str p2) as l2. clear p1 p2.
  induction l1 as [|a l1 IH]; intros [|b l2]; cbn; try done. specialize (IH l2). destruct (Z.eqb_spec (a - b) 0) as [E|Hne]; cbn [negb].
  - destruct (Z.eqb_spec a b); [|lia]. exact IH.
  - destruct (Z.eqb_spec a b); [lia|]. destruct (Z.eqb_spec (a - b) 0); [lia|]. destruct (Z.ltb_spec a b); lia.
Qed.

Lemma lexicographic_antisym l1 l2 : lexicographic l2 l1 = - lexicographic l1 l2.
Proof. revert l2. induction l1 as [|a l1 IH]; intros [|b l2]; cbn; try done. rewrite IH. destruct (Z.eqb_spec a b), (Z.eqb_spec b a), (Z.ltb_spec a b), (Z.ltb_spec b a); lia. Qed.

Lemma lexicographic_trans l1 l2 l3 : lexicographic l1 l2 <= 0 -> lexicographic l2 l3 <= 0 -> lexicographic l1 l3 <= 0.
Proof.
  revert l2 l3. induction l1 as [|a l1 IH]; intros [|b l2] [|c l3]; cbn; try lia. specialize (IH l2 l3).
  destruct (Z.eqb_spec a b), (Z.eqb_spec b c), (Z.eqb_spec a c), (Z.ltb_spec a b), (Z.ltb_spec b c), (Z.ltb_spec a c); lia.
Qed.

(** ** The order of the slots *)

(** Signs that are those of a total preorder *)
Record consistent_compare {V} (compare : V -> V -> Z) : Prop := mk_consistent_compare {
  cc_antisym : forall a b, Z.sgn (compare b a) = - Z.sgn (compare a b);
  cc_trans : forall a b c, compare a b <= 0 -> compare b c <= 0 -> compare a c <= 0;
}.

Lemma compare_strings_consistent {V} (f : V -> JSString) : consistent_compare (fun a b => js_string_compare (f a) (f b)).
Proof.
  constructor; [intros a b; rewrite !compare_lexicographic; apply lexicographic_antisym|]. intros a b c. 
  assert (forall x y, js_string_compare x y <= 0 <-> lexicographic (str x) (str y) <= 0) as E by (intros x y; rewrite <- compare_lexicographic; lia).
  rewrite !E. apply lexicographic_trans.
Qed.

(** The stable insertion sort *)
Fixpoint insert_stable {V} (compare : V -> V -> Z) (x : V) (l : list V) : list V :=
  match l with
  | [] => [x]
  | y :: l' => if compare x y <=? 0 then x :: l else y :: insert_stable compare x l'
  end.
Definition stable_sort {V} (compare : V -> V -> Z) (l : list V) : list V := foldr (insert_stable compare) [] l.

Lemma insert_stable_perm {V} (compare : V -> V -> Z) x l : insert_stable compare x l ≡ₚ x :: l.
Proof. induction l as [|y l IH]; cbn; [done|]. destruct (_ <=? 0); [done|]. rewrite IH. apply perm_swap. Qed.

Lemma stable_sort_perm {V} (compare : V -> V -> Z) l : stable_sort compare l ≡ₚ l.
Proof. induction l as [|x l IH]; cbn; [done|]. now rewrite insert_stable_perm, IH. Qed.

Section Order.
Context {V : Type} (compare : V -> V -> Z) (CC : consistent_compare compare).

Definition slot_compare (a b : ValueSlot (V := V)) : Z := if negb (compare (val a) (val b) =? 0) then compare (val a) (val b) else cmp_same a b.
Definition slot_le (a b : ValueSlot (V := V)) : Prop := slot_compare a b <= 0.

Lemma cmp_same_cases (a b : ValueSlot (V := V)) : cmp_same a b = Z.sgn (pos a - pos b).
Proof. unfold cmp_same. destruct (Z.ltb_spec (pos b) (pos a)), (Z.ltb_spec (pos a) (pos b)); cbn; lia. Qed.

Lemma slot_compare_antisym a b : Z.sgn (slot_compare b a) = - Z.sgn (slot_compare a b).
Proof using CC.
  unfold slot_compare. rewrite !cmp_same_cases. pose proof (cc_antisym _ CC (val a) (val b)).
  destruct (Z.eqb_spec (compare (val a) (val b)) 0), (Z.eqb_spec (compare (val b) (val a)) 0); cbn [negb]; lia.
Qed.

#[local] Instance slot_preorder : PreOrder slot_le.
Proof using CC.
  split.
  - intros a. unfold slot_le. pose proof (slot_compare_antisym a a). lia.
  - intros a b c. unfold slot_le, slot_compare. rewrite !cmp_same_cases.
    pose proof (cc_antisym _ CC (val a) (val b)). pose proof (cc_antisym _ CC (val b) (val c)). pose proof (cc_antisym _ CC (val a) (val c)).
    pose proof (cc_trans _ CC (val a) (val b) (val c)). pose proof (cc_trans _ CC (val c) (val b) (val a)). pose proof (cc_trans _ CC (val c) (val a) (val b)). pose proof (cc_trans _ CC (val b) (val c) (val a)).
    destruct (Z.eqb_spec (compare (val a) (val b)) 0), (Z.eqb_spec (compare (val b) (val c)) 0), (Z.eqb_spec (compare (val a) (val c)) 0); cbn [negb]; lia.
Qed.

Lemma insert_slot_sorted a l : StronglySorted slot_le l -> (forall b, b ∈ l -> pos a < pos b) -> StronglySorted slot_le (insert_stable slot_compare a l).
Proof using CC.
  induction 1 as [|b l Hl IH Hb]; intros Hpos; cbn; [repeat constructor|]. destruct (Z.leb_spec (slot_compare a b) 0) as [Hle|Hgt].
  - constructor; [now constructor|]. constructor; [exact Hle|]. rewrite Forall_forall in *. intros c Hc. transitivity b; [exact Hle | now apply Hb].
  - constructor; [apply IH; intros c Hc; apply Hpos; now apply list_elem_of_further|]. rewrite Forall_forall in *. intros c Hc. rewrite insert_stable_perm in Hc.
    apply elem_of_cons in Hc as [->|Hc]; [|now apply Hb]. unfold slot_le. pose proof (slot_compare_antisym a b). lia.
Qed.

(** On slots in the order of their positions, the sort by value is the sort by
    value and position. *)
Lemma insert_slot_values a l : (forall b, b ∈ l -> pos a < pos b) -> map val (insert_stable slot_compare a l) = insert_stable compare (val a) (map val l).
Proof using Type.
  induction l as [|b l IH]; intros Hpos; cbn; [done|]. assert (pos a < pos b) as Hab by (apply Hpos, list_elem_of_here).
  assert ((slot_compare a b <=? 0) = (compare (val a) (val b) <=? 0)) as ->.
  { unfold slot_compare. rewrite cmp_same_cases. destruct (Z.eqb_spec (compare (val a) (val b)) 0) as [E|Hne]; cbn [negb]; [|done]. rewrite E. destruct (Z.leb_spec (Z.sgn (pos a - pos b)) 0); [done | lia]. }
  destruct (_ <=? 0); cbn; [done|]. f_equal. apply IH. intros c Hc. apply Hpos. now apply list_elem_of_further.
Qed.

Definition increasing (l : list (ValueSlot (V := V))) : Prop := StronglySorted (fun a b => pos a < pos b) l.

Lemma sort_slots l : increasing l -> StronglySorted slot_le (stable_sort slot_compare l) /\ map val (stable_sort slot_compare l) = stable_sort compare (map val l).
Proof using CC.
  induction 1 as [|a l Hl [IH1 IH2] Ha]; cbn; [split; [constructor | done]|]. rewrite Forall_forall in Ha.
  assert (forall b, b ∈ stable_sort slot_compare l -> pos a < pos b) as Hb by (intros b Hb; apply Ha; now rewrite stable_sort_perm in Hb).
  fold (stable_sort slot_compare l). fold (stable_sort compare (map val l)). split; [now apply insert_slot_sorted|]. now rewrite insert_slot_values, IH2.
Qed.

(** There is one way to sort slots with different positions. *)
Lemma sorted_slots_unique l l' : increasing l -> l' ≡ₚ l -> StronglySorted slot_le l' -> l' = stable_sort slot_compare l.
Proof using CC.
  intros Hi P Hs. destruct (sort_slots l Hi) as [Hs' _].
  assert (forall a b, a ∈ l -> b ∈ l -> pos a = pos b -> a = b) as Hu.
  { clear -Hi. induction Hi as [|x l Hl IH Hx]; intros a b Ha Hb E; [now apply elem_of_nil in Ha|]. rewrite Forall_forall in Hx.
    apply elem_of_cons in Ha as [->|Ha]; apply elem_of_cons in Hb as [->|Hb]; [done | specialize (Hx b Hb); lia | specialize (Hx a Ha); lia | auto]. }
  apply (StronglySorted_unique_strong slot_le); [|done|done|now rewrite P, stable_sort_perm].
  intros a b Ha Hb Hab Hba. rewrite P in Ha. rewrite stable_sort_perm in Hb. apply Hu; [done | done|].
  unfold slot_le, slot_compare in *. rewrite !cmp_same_cases in *. pose proof (cc_antisym _ CC (val a) (val b)).
  destruct (Z.eqb_spec (compare (val a) (val b)) 0), (Z.eqb_spec (compare (val b) (val a)) 0); cbn [negb] in *; lia.
Qed.
End Order.

(** ** Plain objects *)

(** A host on which the elements of the object are plain properties, and on which
    comparing values and converting them to strings does not change them.  An
    allocation may fail. *)
Class PlainHost (W V : Type) `{ArrayHost W V} : Type := {
  elements : W -> gmap Z V;
  array_length : W -> Z;
  compare_values : V -> V -> Z;
  string_of : V -> JSString;
  plain_length : forall w, js_get_length64 w = (Some (array_length w), w);
  plain_realloc : forall w n, snd (js_realloc2 w n) = w;
  plain_get : forall w i, JS_TryGetPropertyInt64 w i = (Some (elements w !! i), w);
  plain_set : forall w i v, exists w', JS_SetPropertyInt64 w i v = (Some tt, w') /\ elements w' = <[i := v]> (elements w);
  plain_delete : forall w i, exists w', JS_DeletePropertyInt64 w i = (Some tt, w') /\ elements w' = delete i (elements w);
  plain_call : forall w a b, exists w', call_method w a b = (Some (compare_values a b), w') /\ elements w' = elements w;
  plain_string : forall w a, exists w', JS_ToString w a = (Some (string_of a), w') /\ elements w' = elements w;
  plain_same : forall a b, same_bits a b = true -> a = b;
}.

Section Plain.
Context {W V : Type} `{PlainHost W V} (has_method : bool) (Hcc : consistent_compare compare_values).

(** The order of the values: the user's, or that of their strings *)
Definition order (a b : V) : Z := if has_method then compare_values a b else js_string_compare (string_of a) (string_of b).

Lemma order_consistent : consistent_compare order.
Proof using Hcc. unfold order. destruct has_method; [exact Hcc | apply compare_strings_consistent]. Qed.

(** The elements from [i], without the holes *)
Fixpoint present (E : gmap Z V) (n : nat) (i : Z) : list V :=
  match n with
  | O => []
  | S n => match E !! i with Some v => v :: present E n (i + 1) | None => present E n (i + 1) end
  end.

(** What the elements should be *)
Definition sorted_elements (E : gmap Z V) (len : Z) : list V :=
  let l := present E (Z.to_nat len) 0 in
  stable_sort order (List.filter (fun v => negb (JS_IsUndefined v)) l) ++ replicate (length (List.filter JS_IsUndefined l)) JS_UNDEFINED.

(** *** The comparison *)

Section Elements.
Context (E : gmap Z V).

Definition in_place (a : ValueSlot (V := V)) : Prop := E !! pos a = Some (val a).

Definition sorting (psc : array_sort_context (W := W)) : Prop :=
  exception psc = false /\ elements (ctx psc) = E /\ forall p s, strs psc !! p = Some s -> exists v, E !! p = Some v /\ s = string_of v.

Lemma slot_string_plain psc a : sorting psc -> in_place a -> exists psc', slot_string psc a = (Some (string_of (val a)), psc') /\ sorting psc'.
Proof using Type.
  intros (H1 & H2 & H3) Ha. unfold slot_string. destruct (strs psc !! pos a) as [s|] eqn:Es.
  - destruct (H3 _ _ Es) as (v & Hv & ->). unfold in_place in Ha. rewrite Ha in Hv. injection Hv as <-. now exists psc.
  - destruct (plain_string (ctx psc) (val a)) as (w' & -> & Ew). eexists. split; [done|]. split; [done|]. split; [cbn; congruence|].
    cbn. intros p s Hp. apply lookup_insert_Some in Hp as [[<- <-]|[_ Hp]]; [now exists (val a) | now apply H3].
Qed.

Lemma js_array_cmp_generic_plain psc a b : sorting psc -> in_place a -> in_place b ->
  sorting (snd (js_array_cmp_generic has_method psc a b)) /\ fst (js_array_cmp_generic has_method psc a b) = slot_compare order a b.
Proof using Hcc.
  intros Hs Ha Hb. pose proof Hs as (H1 & H2 & H3). unfold js_array_cmp_generic. rewrite H1. unfold slot_compare, order. destruct has_method.
  - destruct (same_bits (val a) (val b)) eqn:Esb.
    + apply plain_same in Esb. pose proof (cc_antisym _ Hcc (val a) (val a)) as Haa. rewrite <- Esb.
      destruct (Z.eqb_spec (compare_values (val a) (val a)) 0); cbn; [done | lia].
    + destruct (plain_call (ctx psc) (val a) (val b)) as (w' & -> & Ew). cbn. split; [|done]. split; [done|]. split; [cbn; congruence | done].
  - destruct (slot_string_plain psc a Hs Ha) as (psc1 & -> & Hs1). destruct (slot_string_plain psc1 b Hs1 Hb) as (psc2 & -> & Hs2). cbn. done.
Qed.

(** *** The slots *)

(** An allocation fails. *)
Definition memory_fails : Prop := exists w n, js_realloc2 w n = (None, w).

Lemma reserve_plain w n size : (exists size', reserve w n size = (Some size', w)) \/ (reserve w n size = (None, w) /\ memory_fails).
Proof using H0.
  unfold reserve. destruct (_ <=? _); [|left; eauto]. cbv zeta. set (k := u64 (_ * _)). pose proof (plain_realloc w k) as Hw.
  destruct (js_realloc2 w k) as [[slack|] w'] eqn:Er; cbn in Hw; subst w'; [left; eauto | right]. split; [done|]. now exists w, k.
Qed.

Lemma collect_plain n : forall w i p size, elements w = E ->
  (collect n w i p size = (None, w) /\ memory_fails) \/
  exists slots, collect n w i p size = (Some (slots, Z.of_nat (length (List.filter JS_IsUndefined (present E n i)))), w) /\
    map val slots = List.filter (fun v => negb (JS_IsUndefined v)) (present E n i) /\ increasing slots /\ Forall in_place slots /\ Forall (fun a => i <= pos a) slots.
Proof using Type.
  induction n as [|n IH]; intros w i p size Hw; cbn [collect present].
  - right. exists []. split_and!; [done | done | constructor | constructor | constructor].
  - destruct (reserve_plain w p size) as [[size' ->]|[-> Hm]]; [|now left]. rewrite plain_get, Hw.
    assert (forall slots, Forall (fun a : ValueSlot (V := V) => i + 1 <= pos a) slots -> Forall (fun a : ValueSlot (V := V) => i <= pos a) slots) as Hge
      by (intros slots Hs; eapply Forall_impl; [exact Hs|]; cbn; lia).
    destruct (E !! i) as [v|] eqn:Ei; [cbn [List.filter]; destruct (JS_IsUndefined v) eqn:Eu; cbn [negb]|].
    + destruct (IH w (i + 1) p size' Hw) as [[-> Hm]|(slots & -> & Hv & Hi & Hp & Hs)]; [now left | right].
      exists slots. split_and!; auto. cbn [length]. do 3 f_equal. lia.
    + destruct (IH w (i + 1) (p + 1) size' Hw) as [[-> Hm]|(slots & -> & Hv & Hi & Hp & Hs)]; [now left | right].
      exists (mk_slot v i :: slots). split_and!; [done | cbn; now rewrite Hv | | now constructor |].
      * constructor; [done|]. eapply Forall_impl; [exact Hs|]. cbn. lia.
      * constructor; [cbn; lia | auto].
    + destruct (IH w (i + 1) p size' Hw) as [[-> Hm]|(slots & -> & Hv & Hi & Hp & Hs)]; [now left | right]. exists slots. split_and!; auto.
Qed.
End Elements.

(** *** Writing the elements *)

(** The elements from [n] are those of a list. *)
Definition written (w w' : W) (l : list V) (n : Z) : Prop :=
  forall k, elements w' !! k = if (n <=? k) && (k <? n + Z.of_nat (length l)) then l !! Z.to_nat (k - n) else elements w !! k.

Lemma written_nil w n : written w w [] n.
Proof using Type. intros k. destruct (Z.leb_spec n k), (Z.ltb_spec k (n + Z.of_nat (length (@nil V)))); cbn [andb length] in *; try done. lia. Qed.

Lemma written_cons w w1 w' v l n : (forall k, elements w1 !! k = if k =? n then Some v else elements w !! k) -> written w1 w' l (n + 1) -> written w w' (v :: l) n.
Proof using Type.
  intros H1 H2 k. rewrite (H2 k), (H1 k). cbn [length]. destruct (Z.leb_spec (n + 1) k), (Z.ltb_spec k (n + 1 + Z.of_nat (length l))), (Z.eqb_spec k n), (Z.leb_spec n k), (Z.ltb_spec k (n + Z.of_nat (S (length l)))); cbn [andb]; try lia; try done.
  - replace (Z.to_nat (k - n)) with (S (Z.to_nat (k - (n + 1)))) by lia. done.
  - now replace (Z.to_nat (k - n)) with 0%nat by lia.
Qed.

Lemma write_sorted_plain slots : forall w n, (forall a, a ∈ slots -> n <= pos a -> elements w !! pos a = Some (val a)) ->
  exists w', write_sorted slots w n = (Some tt, w') /\ written w w' (map val slots) n.
Proof using Type.
  induction slots as [|a slots IH]; intros w n Hp; cbn [write_sorted].
  - exists w. split; [done | apply written_nil].
  - destruct (Z.eqb_spec (pos a) n) as [E|Hne].
    + destruct (IH w (n + 1)) as (w' & -> & H'); [intros b Hb Hpb; apply Hp; [now apply list_elem_of_further | lia]|].
      exists w'. split; [done|]. apply (written_cons w w); [|done]. intros k. destruct (Z.eqb_spec k n) as [->|]; [|done]. rewrite <- E. apply Hp; [apply list_elem_of_here | lia].
    + destruct (plain_set w n (val a)) as (w1 & -> & E1). destruct (IH w1 (n + 1)) as (w' & -> & H').
      * intros b Hb Hpb. rewrite E1, lookup_insert_ne by lia. apply Hp; [now apply list_elem_of_further | lia].
      * exists w'. split; [done|]. apply (written_cons w w1); [|done]. intros k. rewrite E1. destruct (Z.eqb_spec k n) as [->|]; [apply lookup_insert_eq | now rewrite lookup_insert_ne].
Qed.

Lemma write_undefined_plain count : forall w n, exists w', write_undefined count w n = (Some tt, w') /\ written w w' (replicate count JS_UNDEFINED) n.
Proof using Type.
  induction count as [|count IH]; intros w n; cbn [write_undefined].
  - exists w. split; [done | apply written_nil].
  - destruct (plain_set w n JS_UNDEFINED) as (w1 & -> & E1). destruct (IH w1 (n + 1)) as (w' & -> & H').
    exists w'. split; [done|]. apply (written_cons w w1); [|done]. intros k. rewrite E1. destruct (Z.eqb_spec k n) as [->|]; [apply lookup_insert_eq | now rewrite lookup_insert_ne].
Qed.

Lemma delete_rest_plain count : forall w n, exists w', delete_rest count w n = (Some tt, w') /\
  forall k, elements w' !! k = if (n <=? k) && (k <? n + Z.of_nat count) then None else elements w !! k.
Proof using Type.
  induction count as [|count IH]; intros w n; cbn [delete_rest].
  - exists w. split; [done|]. intros k. destruct (Z.leb_spec n k), (Z.ltb_spec k (n + Z.of_nat 0)); cbn [andb]; try done. lia.
  - destruct (plain_delete w n) as (w1 & -> & E1). destruct (IH w1 (n + 1)) as (w' & -> & H'). exists w'. split; [done|]. intros k. rewrite H', E1.
    destruct (Z.leb_spec (n + 1) k), (Z.ltb_spec k (n + 1 + Z.of_nat count)), (Z.leb_spec n k), (Z.ltb_spec k (n + Z.of_nat (S count))); cbn [andb]; try lia; try done.
    + now rewrite lookup_delete_ne by lia.
    + replace k with n by lia. apply lookup_delete_eq.
    + now rewrite lookup_delete_ne by lia.
Qed.

Lemma present_length E n i : (length (present E n i) <= n)%nat.
Proof using Type. revert i. induction n as [|n IH]; intros i; cbn; [lia|]. specialize (IH (i + 1)). destruct (E !! i); cbn; lia. Qed.

Lemma filter_split (f : V -> bool) l : (length (List.filter f l) + length (List.filter (fun v => negb (f v)) l))%nat = length l.
Proof using Type. induction l as [|v l IH]; cbn; [done|]. destruct (f v); cbn; lia. Qed.
End Plain.

(** The three passes together *)
Lemma assembled {V} (l : list V) (u : nat) (v : V) (x : option V) len i : Z.of_nat (length l) + Z.of_nat u <= len ->
  (if (Z.of_nat (length l) + Z.of_nat u <=? i) && (i <? Z.of_nat (length l) + Z.of_nat u + Z.of_nat (Z.to_nat (len - (Z.of_nat (length l) + Z.of_nat u)))) then None
   else if (Z.of_nat (length l) <=? i) && (i <? Z.of_nat (length l) + Z.of_nat (length (replicate u v))) then replicate u v !! Z.to_nat (i - Z.of_nat (length l))
   else if (0 <=? i) && (i <? 0 + Z.of_nat (length l)) then l !! Z.to_nat (i - 0) else x) =
  if (0 <=? i) && (i <? len) then (l ++ replicate u v) !! Z.to_nat i else x.
Proof.
  intros Hle. rewrite length_replicate, Z.sub_0_r, Z.add_0_l. rewrite Z2Nat.id by lia. replace (Z.of_nat (length l) + Z.of_nat u + (len - (Z.of_nat (length l) + Z.of_nat u))) with len by lia.
  destruct (Z.leb_spec 0 i) as [H0|H0], (Z.ltb_spec i len) as [H1|H1]; cbn [andb]; rewrite ?andb_false_r;
    destruct (Z.leb_spec (Z.of_nat (length l) + Z.of_nat u) i), (Z.leb_spec (Z.of_nat (length l)) i), (Z.ltb_spec i (Z.of_nat (length l) + Z.of_nat u)), (Z.ltb_spec i (Z.of_nat (length l))); cbn [andb]; try lia; try done.
  - symmetry. apply lookup_ge_None. rewrite length_app, length_replicate. lia.
  - rewrite lookup_app_r by lia. f_equal. lia.
  - now rewrite lookup_app_l by lia.
Qed.

(** C39: [Array.prototype.sort] sorts stably.  On an object with plain elements,
    holes and undefined values included, and with a consistent comparison
    function, or none and the order of the strings, it returns without an
    exception; the elements are then the defined values in the order of a stable
    insertion sort, followed by the undefined ones, and no others; nothing
    outside of the length changes.  Only when the array of slots cannot be
    allocated does it end with an exception, and then nothing has changed. *)
Theorem array_sort_correct {W V} `{PlainHost W V} has_method (w : W) :
  consistent_compare compare_values -> 0 <= array_length w ->
  (exists w', js_array_sort w has_method = Some (Some tt, w') /\
    forall i, elements w' !! i = if (0 <=? i) && (i <? array_length w) then sorted_elements has_method (elements w) (array_length w) !! Z.to_nat i else elements w !! i) \/
  (js_array_sort w has_method = Some (None, w) /\ memory_fails (W := W) (V := V)).
Proof.
  intros Hcc Hlen. set (E := elements w). set (len := array_length w) in *. unfold js_array_sort. rewrite plain_length. fold len.
  destruct (collect_plain E (Z.to_nat len) w 0 0 0 eq_refl) as [[-> Hm]|(slots & -> & Hv & Hi & Hp & _)]; [now right | left].
  pose proof (order_consistent has_method Hcc) as Ho.
  destruct (rqsort_runs (js_array_cmp_generic has_method) (sorting E) (in_place E) True (slot_le (order has_method))) with (n := Z.of_nat (length slots)) (l := slots) (s := mk_sort w false ∅)
    as ([] & asc & l & -> & (A1 & A2 & A3) & Hpl & S & Hsorted).
  - intros _ a. pose proof (slot_preorder _ Ho). reflexivity.
  - intros _ a b c. pose proof (slot_preorder _ Ho). now transitivity b.
  - intros psc a b Hs Ha Hb. destruct (js_array_cmp_generic_plain has_method Hcc E psc a b Hs Ha Hb) as [Hs' ->]. split; [done|]. intros _.
    pose proof (slot_compare_antisym _ Ho a b). unfold slot_le. split; [lia | done].
  - lia.
  - split; [done|]. split; [done|]. intros p s. cbn. rewrite lookup_empty. discriminate.
  - done.
  - pose proof (shuffles_length _ _ _ _ S) as Ll. rewrite A1.
    assert (StronglySorted (slot_le (order has_method)) l) as Hss by (apply sorted_strongly; rewrite Ll; auto).
    rewrite (sorted_slots_unique _ Ho slots l Hi (shuffles_perm _ _ _ _ S) Hss) in *. clear Hss Hsorted S l.
    destruct (sort_slots _ Ho slots Hi) as [_ Hvals]. set (l := stable_sort (slot_compare (order has_method)) slots) in *.
    set (u := length (List.filter JS_IsUndefined (present E (Z.to_nat len) 0))) in *.
    assert (Z.of_nat (length l) + Z.of_nat u <= len) as Hle.
    { rewrite Ll, <- (length_map val), Hv. pose proof (filter_split JS_IsUndefined (present E (Z.to_nat len) 0)). pose proof (present_length E (Z.to_nat len) 0). unfold u. lia. }
    destruct (write_sorted_plain l (ctx asc) 0) as (w1 & -> & H1).
    { intros a Ha _. rewrite A2. rewrite Forall_forall in Hpl. now apply Hpl. }
    rewrite Nat2Z.id. destruct (write_undefined_plain u w1 (Z.of_nat (length l))) as (w2 & -> & H2).
    destruct (delete_rest_plain (Z.to_nat (len - (Z.of_nat (length l) + Z.of_nat u))) w2 (Z.of_nat (length l) + Z.of_nat u)) as (w3 & -> & H3).
    exists w3. split; [done|]. intros i. rewrite H3, (H2 i), (H1 i), A2. fold E.
    unfold sorted_elements. rewrite <- Hv, <- Hvals. fold l u. rewrite <- (length_map val l) in *. now apply assembled.
Qed.

(** ** Examples *)

Definition small_number (v : JSValue) : Z := match v with Prim (JS_TAG_INT n) => n | _ => 0 end.
Definition small_same (a b : JSValue) : bool := match a, b with Prim (JS_TAG_INT m), Prim (JS_TAG_INT n) => m =? n | _, _ => false end.

(** An array of integers, sorted by [(a, b) => a - b]; [call] is what else a call does. *)
Definition small_host (call : gmap Z JSValue * Z -> gmap Z JSValue * Z) : ArrayHost (gmap Z JSValue * Z) JSValue := {|
  js_get_length64 w := (Some (snd w), w);
  js_realloc2 w n := (Some 0, w);
  JS_TryGetPropertyInt64 w i := (Some (fst w !! i), w);
  JS_SetPropertyInt64 w i v := (Some tt, (<[i := v]> (fst w), snd w));
  JS_DeletePropertyInt64 w i := (Some tt, (delete i (fst w), snd w));
  JS_IsUndefined v := match v with Prim JS_TAG_UNDEFINED => true | _ => false end;
  JS_UNDEFINED := Prim JS_TAG_UNDEFINED;
  same_bits := small_same;
  JS_Call w a b := (Some (Prim (JS_TAG_INT (small_number a - small_number b))), call w);
  int_value v := match v with Prim (JS_TAG_INT n) => Some n | _ => None end;
  JS_ToFloat64Free w v := (None, w);
  JS_ToString w v := (Some (mk_string false [48 + small_number v]), w);
|}.

Definition quiet_host : ArrayHost (gmap Z JSValue * Z) JSValue := small_host (fun w => w).

Lemma small_same_eq a b : small_same a b = true -> a = b.
Proof. destruct a as [[]|]; try discriminate. destruct b as [[]|]; try discriminate. cbn. intros H%Z.eqb_eq. now subst. Qed.

Definition quiet_plain : PlainHost (gmap Z JSValue * Z) JSValue (H := quiet_host).
Proof.
  refine (Build_PlainHost _ _ quiet_host fst snd (fun a b => sign_int (small_number a - small_number b)) (fun v => mk_string false [48 + small_number v]) _ _ _ _ _ _ _ small_same_eq).
  - reflexivity.
  - reflexivity.
  - reflexivity.
  - intros w i v. eexists. split; reflexivity.
  - intros w i. eexists. split; reflexivity.
  - intros w a b. exists w. split; reflexivity.
  - intros w a. exists w. split; reflexivity.
Defined.

Lemma quiet_consistent : consistent_compare (compare_values (PlainHost := quiet_plain)).
Proof.
  assert (forall x, sign_int x = Z.sgn x) as E by (intros x; unfold sign_int; destruct (Z.ltb_spec 0 x), (Z.ltb_spec x 0); cbn; lia).
  constructor; cbn; intros; rewrite ?E in *; lia.
Qed.

Definition small_array : gmap Z JSValue * Z :=
  (<[0 := Prim (JS_TAG_INT 3)]> (<[2 := Prim JS_TAG_UNDEFINED]> (<[3 := Prim (JS_TAG_INT 1)]> (<[4 := Prim (JS_TAG_INT 2)]> ∅))), 5).

Lemma array_sort_correct_witness :
  consistent_compare (compare_values (PlainHost := quiet_plain)) /\
  exists w', js_array_sort (H := quiet_host) small_array true = Some (Some tt, w') /\
    map (fun i => fst w' !! i) [0; 1; 2; 3; 4] = [Some (Prim (JS_TAG_INT 1)); Some (Prim (JS_TAG_INT 2)); Some (Prim (JS_TAG_INT 3)); Some (Prim JS_TAG_UNDEFINED); None].
Proof.
  split; [exact quiet_consistent|].
  destruct (array_sort_correct (H := quiet_host) (H0 := quiet_plain) true small_array quiet_consistent) as [(w' & E & H')|[_ (w & n & Hf)]]; [vm_compute; discriminate| |discriminate Hf].
  exists w'. split; [exact E|]. cbn [map]. rewrite !(H' _). vm_compute. reflexivity.
Defined.

(** A value that is at its place already is not written back, although the
    comparison function has overwritten it. *)
Definition writing_host : ArrayHost (gmap Z JSValue * Z) JSValue := small_host (fun w => (<[0 := Prim (JS_TAG_INT 99)]> (fst w), snd w)).

Example sort_skips_value_in_place :
  let w := (<[0 := Prim (JS_TAG_INT 1)]> (<[1 := Prim (JS_TAG_INT 2)]> ∅), 2) in
  match js_array_sort (H := writing_host) w true with
  | Some (Some tt, w') => fst w' !! 0 = Some (Prim (JS_TAG_INT 99)) /\ fst w' !! 1 = Some (Prim (JS_TAG_INT 2))
  | _ => False
  end.
Proof. vm_compute. split; reflexivity. Qed.
