(* ===== verification/Atoms.v ===== *)
(** * Atoms

    The interned names and symbols of [src/core/quickjs.c] (1922 to 1980, 2453 to
    3350 and 8590 to 8622) and the weak references to symbols (50993 to 51070).
    A string, an atom and a symbol are the same structure; an address is a [Z]
    that is not reused.  [None] is a failed [assert], or an access outside of the
    array or to a freed structure.  The allocator fails where [mallocs] says so. *)

From Stdlib Require Import ZArith Lia Bool Ascii String.
From stdpp Require Import base numbers list option gmap.
From S2P Require Import Prelude IntPrint JSStrings.

#[local] Open Scope Z_scope.

(** ** Data *)

Definition JS_ATOM_TYPE_STRING : Z := 1.
Definition JS_ATOM_TYPE_GLOBAL_SYMBOL : Z := 2.
Definition JS_ATOM_TYPE_SYMBOL : Z := 3.
Definition JS_ATOM_TYPE_PRIVATE : Z := 4.
Definition JS_ATOM_HASH_MASK : Z := 2 ^ 30 - 1.
Definition JS_ATOM_HASH_PRIVATE : Z := JS_ATOM_HASH_MASK.
Definition JS_ATOM_TAG_INT : Z := 2 ^ 31.
Definition JS_ATOM_MAX_INT : Z := JS_ATOM_TAG_INT - 1.
Definition JS_ATOM_MAX : Z := 2 ^ 30 - 1.
Definition JS_ATOM_COUNT_RESIZE (n : Z) : Z := i32 (n * 2).

Definition JS_ATOM_NULL : Z := 0.
Definition JS_ATOM_empty_string : Z := 47.
Definition JS_ATOM_Private_brand : Z := 225.
Definition JS_ATOM_Symbol_toPrimitive : Z := 226.
Definition JS_ATOM_END : Z := 239.

(** A [JSString] with its header; [atom_type] is 0 for a string that is not an
    atom, and [hash] counts the weak references to a symbol. *)
Record JSAtomStruct : Type := mk_atom {
  ref_count : Z;
  content : JSString;
  hash : Z;
  atom_type : Z;
  hash_next : Z;
}.

(** An element of [atom_array]: the tagged index of the next free element
    ([atom_set_free]), or a pointer. *)
Inductive atom_slot : Type :=
| AtomFree (next : Z)
| AtomPtr (p : Z).

Definition atom_is_free (a : atom_slot) : bool := match a with AtomFree _ => true | AtomPtr _ => false end.
Definition atom_set_free (v : Z) : atom_slot := AtomFree v.
Definition atom_get_free (a : atom_slot) : option Z := match a with AtomFree v => Some v | AtomPtr _ => None end.

Record JSRuntime : Type := mk_runtime {
  atom_hash_size : Z;
  atom_count : Z;
  atom_size : Z;
  atom_count_resize : Z;
  atom_hash : list Z;
  atom_array : list atom_slot;
  atom_free_index : Z;
  strings : gmap Z JSAtomStruct;
  next_address : Z;
  mallocs : list bool;
}.

Definition with_atom_hash (rt : JSRuntime) (size resize : Z) (table : list Z) : JSRuntime :=
  mk_runtime size (atom_count rt) (atom_size rt) resize table (atom_array rt) (atom_free_index rt) (strings rt)
    (next_address rt) (mallocs rt).
Definition with_atom_array (rt : JSRuntime) (count size : Z) (array : list atom_slot) (free : Z) : JSRuntime :=
  mk_runtime (atom_hash_size rt) count size (atom_count_resize rt) (atom_hash rt) array free (strings rt) (next_address rt) (mallocs rt).
Definition with_strings (rt : JSRuntime) (m : gmap Z JSAtomStruct) : JSRuntime :=
  mk_runtime (atom_hash_size rt) (atom_count rt) (atom_size rt) (atom_count_resize rt) (atom_hash rt) (atom_array rt)
    (atom_free_index rt) m (next_address rt) (mallocs rt).
Definition with_allocator (rt : JSRuntime) (next : Z) (answers : list bool) : JSRuntime :=
  mk_runtime (atom_hash_size rt) (atom_count rt) (atom_size rt) (atom_count_resize rt) (atom_hash rt) (atom_array rt)
    (atom_free_index rt) (strings rt) next answers.

Definition set_string (rt : JSRuntime) (p : Z) (s : JSAtomStruct) : JSRuntime := with_strings rt (<[p := s]> (strings rt)).
Definition set_bucket (rt : JSRuntime) (h i : Z) : JSRuntime :=
  with_atom_hash rt (atom_hash_size rt) (atom_count_resize rt) (<[Z.to_nat h := i]> (atom_hash rt)).

Definition with_ref_count (s : JSAtomStruct) (n : Z) : JSAtomStruct := mk_atom n (content s) (hash s) (atom_type s) (hash_next s).
Definition with_hash_next (s : JSAtomStruct) (i : Z) : JSAtomStruct := mk_atom (ref_count s) (content s) (hash s) (atom_type s) i.
Definition with_hash (s : JSAtomStruct) (h : Z) : JSAtomStruct := mk_atom (ref_count s) (content s) h (atom_type s) (hash_next s).
Definition as_atom (s : JSAtomStruct) (h type next : Z) : JSAtomStruct := mk_atom (ref_count s) (content s) h type next.

(** ** Memory *)

Definition js_malloc_rt (rt : JSRuntime) : option Z * JSRuntime :=
  match mallocs rt with
  | false :: answers => (None, with_allocator rt (next_address rt) answers)
  | true :: answers => (Some (next_address rt), with_allocator rt (next_address rt + 1) answers)
  | [] => (Some (next_address rt), with_allocator rt (next_address rt + 1) [])
  end.

Definition js_free_rt (rt : JSRuntime) (p : Z) : JSRuntime := with_strings rt (delete p (strings rt)).

(** [js_alloc_string_rt] and the copy of the characters *)
Definition js_alloc_string_rt (rt : JSRuntime) (s : JSString) : option Z * JSRuntime :=
  match js_malloc_rt rt with
  | (None, rt) => (None, rt)
  | (Some p, rt) => (Some p, set_string rt p (mk_atom 1 s 0 0 0))
  end.

(** [rt->atom_array[i]], and the pointer in it *)
Definition slot (rt : JSRuntime) (i : Z) : option atom_slot := if i <? 0 then None else atom_array rt !! Z.to_nat i.
Definition atom_ptr (rt : JSRuntime) (i : Z) : option Z := match slot rt i with Some (AtomPtr p) => Some p | _ => None end.
Definition deref (rt : JSRuntime) (i : Z) : option (Z * JSAtomStruct) := p ← atom_ptr rt i; s ← strings rt !! p; Some (p, s).
Definition set_slot (rt : JSRuntime) (i : Z) (a : atom_slot) : option (list atom_slot) :=
  _ ← slot rt i; Some (<[Z.to_nat i := a]> (atom_array rt)).

(** The bucket of a hash *)
Definition bucket (rt : JSRuntime) (h : Z) : Z := Z.land h (atom_hash_size rt - 1).
Definition bucket_head (rt : JSRuntime) (h : Z) : option Z := atom_hash rt !! Z.to_nat (bucket rt h).

(** More steps than a chain has elements *)
Definition chain_fuel (rt : JSRuntime) : nat := S (length (atom_array rt)).

(** ** The hash table *)

(** The [while] loop of [JS_ResizeAtomHash] on the chain from [h] *)
Fixpoint rehash_chain (fuel : nat) (rt : JSRuntime) (new_hash_mask h : Z) (new_hash : list Z) : option (JSRuntime * list Z) :=
  match fuel with
  | O => None
  | S fuel =>
      if h =? 0 then Some (rt, new_hash)
      else
        '(p, s) ← deref rt h;
        let hash_next1 := hash_next s in
        let j := Z.to_nat (Z.land (hash s) new_hash_mask) in
        first ← new_hash !! j;
        rehash_chain fuel (set_string rt p (with_hash_next s first)) new_hash_mask hash_next1 (<[j := h]> new_hash)
  end.

Fixpoint rehash (rt : JSRuntime) (new_hash_mask : Z) (heads new_hash : list Z) : option (JSRuntime * list Z) :=
  match heads with
  | [] => Some (rt, new_hash)
  | h :: heads =>
      '(rt, new_hash) ← rehash_chain (chain_fuel rt) rt new_hash_mask h new_hash;
      rehash rt new_hash_mask heads new_hash
  end.

Definition JS_ResizeAtomHash (rt : JSRuntime) (new_hash_size : Z) : option (Z * JSRuntime) :=
  if negb (Z.land new_hash_size (new_hash_size - 1) =? 0) then None
  else
    match js_malloc_rt rt with
    | (None, rt) => Some (-1, rt)
    | (Some _, rt) =>
        '(rt, new_hash) ← rehash rt (new_hash_size - 1) (atom_hash rt) (replicate (Z.to_nat new_hash_size) 0);
        Some (0, with_atom_hash rt new_hash_size (JS_ATOM_COUNT_RESIZE new_hash_size) new_hash)
    end.

Fixpoint find_index (fuel : nat) (rt : JSRuntime) (p i : Z) : option Z :=
  match fuel with
  | O => None
  | S fuel =>
      p1 ← atom_ptr rt i;
      if p1 =? p then Some i
      else if i =? 0 then None
      else s1 ← strings rt !! p1; find_index fuel rt p (hash_next s1)
  end.

Definition js_get_atom_index (rt : JSRuntime) (p : Z) : option Z :=
  s ← strings rt !! p;
  if negb (atom_type s =? JS_ATOM_TYPE_SYMBOL) then i ← bucket_head rt (hash s); find_index (chain_fuel rt) rt p i
  else Some (hash_next s).

(** ** Freeing *)

(** The [for] loop of [JS_FreeAtomStruct]: the index, once the structure is
    unlinked *)
Fixpoint unlink (fuel : nat) (rt : JSRuntime) (p p1 i : Z) : option (Z * JSRuntime) :=
  match fuel with
  | O => None
  | S fuel =>
      if i =? 0 then None
      else
        s0 ← strings rt !! p1;
        let p0 := p1 in
        let i := hash_next s0 in
        p1 ← atom_ptr rt i;
        if p1 =? p then s1 ← strings rt !! p1; Some (i, set_string rt p0 (with_hash_next s0 (hash_next s1)))
        else unlink fuel rt p p1 i
  end.

(** Removes [p], which is [s], from the hash table: its index *)
Definition unlink_atom (rt : JSRuntime) (p : Z) (s : JSAtomStruct) : option (Z * JSRuntime) :=
  if negb (atom_type s =? JS_ATOM_TYPE_SYMBOL) then
    let h0 := bucket rt (hash s) in
    i ← bucket_head rt (hash s);
    p1 ← atom_ptr rt i;
    if p1 =? p then Some (i, set_bucket rt h0 (hash_next s)) else unlink (chain_fuel rt) rt p p1 i
  else Some (hash_next s, rt).

(** "insert in free atom list", "free the string structure" unless there are
    weak references *)
Definition release_atom (rt : JSRuntime) (p : Z) (s : JSAtomStruct) (i : Z) : option JSRuntime :=
  array ← set_slot rt i (atom_set_free (atom_free_index rt));
  let rt := if (atom_type s =? JS_ATOM_TYPE_SYMBOL) && negb (hash s =? JS_ATOM_HASH_PRIVATE) && negb (hash s =? 0)
            then rt else js_free_rt rt p in
  let count := atom_count rt - 1 in
  if count <? 0 then None else Some (with_atom_array rt count (atom_size rt) array i).

Definition JS_FreeAtomStruct (rt : JSRuntime) (p : Z) : option JSRuntime :=
  s ← strings rt !! p;
  '(i, rt) ← unlink_atom rt p s;
  release_atom rt p s i.

Definition js_free_string (rt : JSRuntime) (p : Z) : option JSRuntime :=
  s ← strings rt !! p;
  let rt := set_string rt p (with_ref_count s (ref_count s - 1)) in
  if ref_count s - 1 <=? 0 then
    if negb (atom_type s =? 0) then JS_FreeAtomStruct rt p else Some (js_free_rt rt p)
  else Some rt.

Definition __JS_FreeAtom (rt : JSRuntime) (i : Z) : option JSRuntime :=
  '(p, s) ← deref rt i;
  let rt := set_string rt p (with_ref_count s (ref_count s - 1)) in
  if 0 <? ref_count s - 1 then Some rt else JS_FreeAtomStruct rt p.

Definition __JS_AtomIsConst (v : Z) : bool := i32 v <? JS_ATOM_END.
Definition __JS_AtomIsTaggedInt (v : Z) : bool := negb (Z.land v JS_ATOM_TAG_INT =? 0).
Definition __JS_AtomFromUInt32 (v : Z) : Z := Z.lor v JS_ATOM_TAG_INT.
Definition __JS_AtomToUInt32 (atom : Z) : Z := Z.land atom JS_ATOM_MAX_INT.

Definition JS_FreeAtom (rt : JSRuntime) (v : Z) : option JSRuntime :=
  if negb (__JS_AtomIsConst v) then __JS_FreeAtom rt v else Some rt.

Definition dup_string (rt : JSRuntime) (p : Z) : option JSRuntime :=
  s ← strings rt !! p; Some (set_string rt p (with_ref_count s (ref_count s + 1))).

Definition JS_DupAtom (rt : JSRuntime) (v : Z) : option (Z * JSRuntime) :=
  if negb (__JS_AtomIsConst v) then p ← atom_ptr rt v; rt ← dup_string rt p; Some (v, rt) else Some (v, rt).

(** ** Interning *)

Definition string_hash (s : JSString) (atom_type : Z) : Z := Z.land (hash_string s atom_type) JS_ATOM_HASH_MASK.

(** The test of the loop of [__JS_NewAtom] *)
Definition same_atom (h type : Z) (s : JSString) (p : JSAtomStruct) : bool :=
  (hash p =? h) && (atom_type p =? type) && (length (str (content p)) =? length (str s))%nat &&
  (js_string_memcmp (content p) 0 s 0 (length (str s)) =? 0).

(** The [while] loops of [__JS_NewAtom] and [__JS_FindAtom]: the index, or 0 *)
Fixpoint find_hashed (fuel : nat) (rt : JSRuntime) (test : JSAtomStruct -> bool) (i : Z) : option Z :=
  match fuel with
  | O => None
  | S fuel =>
      if i =? 0 then Some 0
      else '(p, s) ← deref rt i; if test s then Some i else find_hashed fuel rt test (hash_next s)
  end.

(** The new free elements, from [start]; the last one ends the list. *)
Definition free_slots (start new_size : Z) : list atom_slot :=
  map (fun i => atom_set_free (if i =? new_size - 1 then 0 else i + 1)) (seqZ start (new_size - start)).

(** [max_int(711, rt->atom_size * 3 / 2)] *)
Definition new_atom_size (size : Z) : Z := Z.max 711 (Z.quot (i32 (size * 3)) 2).

(** The fields that [js_mallocz_rt] or no assignment sets are 0. *)
Definition null_atom : JSAtomStruct := mk_atom 1 (mk_string false []) 0 JS_ATOM_TYPE_SYMBOL 0.

Definition grow_atom_array (rt : JSRuntime) : bool * JSRuntime :=
  if negb (atom_free_index rt =? 0) then (true, rt)
  else
    let new_size := new_atom_size (atom_size rt) in
    if JS_ATOM_MAX <? new_size then (false, rt)
    else
      match js_malloc_rt rt with
      | (None, rt) => (false, rt)
      | (Some _, rt) =>
          let start := atom_size rt in
          if start =? 0 then
            match js_malloc_rt rt with
            | (None, rt) => (false, rt)
            | (Some p, rt) =>
                (true, with_atom_array (set_string rt p null_atom) (atom_count rt + 1) new_size (AtomPtr p :: free_slots 1 new_size) 1)
            end
          else
            (true, with_atom_array rt (atom_count rt) new_size (take (Z.to_nat new_size) (atom_array rt) ++ free_slots start new_size) start)
      end.

(** The structure of the new atom: the string itself, or a copy; [None] when
    there is no memory. *)
Definition new_atom_struct (rt : JSRuntime) (str : option Z) (type : Z) : option (option Z * JSRuntime) :=
  match str with
  | Some p0 =>
      s ← strings rt !! p0;
      if atom_type s =? 0 then Some (Some p0, set_string rt p0 (as_atom s (hash s) type (hash_next s)))
      else
        match js_malloc_rt rt with
        | (None, rt) => Some (None, rt)
        | (Some p, rt) => rt ← js_free_string (set_string rt p (mk_atom 1 (content s) 0 0 0)) p0; Some (Some p, rt)
        end
  | None =>
      match js_malloc_rt rt with
      | (None, rt) => Some (None, rt)
      | (Some p, rt) => Some (Some p, set_string rt p (mk_atom 1 (mk_string true []) 0 0 0))
      end
  end.

(** "use an already free entry", and the hash table *)
Definition insert_atom (rt : JSRuntime) (p h h1 atom_type : Z) : option (Z * JSRuntime) :=
  let i := atom_free_index rt in
  a ← slot rt i;
  next ← atom_get_free a;
  array ← set_slot rt i (AtomPtr p);
  s ← strings rt !! p;
  let rt := with_atom_array (set_string rt p (as_atom s h atom_type i)) (atom_count rt + 1) (atom_size rt) array next in
  if negb (atom_type =? JS_ATOM_TYPE_SYMBOL) then
    first ← atom_hash rt !! Z.to_nat h1;
    let rt := set_bucket (set_string rt p (as_atom s h atom_type first)) h1 i in
    if atom_count_resize rt <=? atom_count rt then
      '(_, rt) ← JS_ResizeAtomHash rt (i32 (atom_hash_size rt * 2)); Some (i, rt)
    else Some (i, rt)
  else Some (i, rt).

(** The label [fail] *)
Definition new_atom_fail (rt : JSRuntime) (str : option Z) : option (Z * JSRuntime) :=
  match str with
  | Some p => rt ← js_free_string rt p; Some (JS_ATOM_NULL, rt)
  | None => Some (JS_ATOM_NULL, rt)
  end.

Definition new_atom (rt : JSRuntime) (str : option Z) (h h1 atom_type : Z) : option (Z * JSRuntime) :=
  match grow_atom_array rt with
  | (false, rt) => new_atom_fail rt str
  | (true, rt) =>
      '(p, rt) ← new_atom_struct rt str atom_type;
      match p with
      | None => new_atom_fail rt str
      | Some p => insert_atom rt p h h1 atom_type
      end
  end.

Definition __JS_NewAtom (rt : JSRuntime) (str : option Z) (type : Z) : option (Z * JSRuntime) :=
  if type <? JS_ATOM_TYPE_SYMBOL then
    p ← str;
    s ← strings rt !! p;
    if atom_type s =? type then
      i ← js_get_atom_index rt p;
      Some (i, if __JS_AtomIsConst i then set_string rt p (with_ref_count s (ref_count s - 1)) else rt)
    else
      let h := string_hash (content s) type in
      first ← bucket_head rt h;
      i ← find_hashed (chain_fuel rt) rt (same_atom h type (content s)) first;
      if negb (i =? 0) then
        q ← atom_ptr rt i;
        rt ← if negb (__JS_AtomIsConst i) then dup_string rt q else Some rt;
        rt ← js_free_string rt p;
        Some (i, rt)
      else new_atom rt str h (bucket rt h) type
  else if type =? JS_ATOM_TYPE_SYMBOL then new_atom rt str 0 0 JS_ATOM_TYPE_SYMBOL
  else new_atom rt str JS_ATOM_HASH_PRIVATE 0 JS_ATOM_TYPE_SYMBOL.

Definition __JS_NewAtomInit (rt : JSRuntime) (s : list Z) (atom_type : Z) : option (Z * JSRuntime) :=
  match js_alloc_string_rt rt (mk_string false s) with
  | (None, rt) => Some (JS_ATOM_NULL, rt)
  | (Some p, rt) => __JS_NewAtom rt (Some p) atom_type
  end.

(** The test of the loop of [__JS_FindAtom] *)
Definition same_ascii (h : Z) (s : list Z) (p : JSAtomStruct) : bool :=
  (hash p =? h) && (atom_type p =? JS_ATOM_TYPE_STRING) && (length (str (content p)) =? length s)%nat &&
  negb (is_wide_char (content p)) && (memcmp (str (content p)) s (length s) =? 0).

Definition __JS_FindAtom (rt : JSRuntime) (s : list Z) : option (Z * JSRuntime) :=
  let h := Z.land (hash_string8 s JS_ATOM_TYPE_STRING) JS_ATOM_HASH_MASK in
  first ← bucket_head rt h;
  i ← find_hashed (chain_fuel rt) rt (same_ascii h s) first;
  if negb (i =? 0) then
    q ← atom_ptr rt i;
    rt ← if negb (__JS_AtomIsConst i) then dup_string rt q else Some rt;
    Some (i, rt)
  else Some (JS_ATOM_NULL, rt).

(** ** The predefined atoms *)

Definition js_atom_init : list string := ([
  "null"; "false"; "true"; "if"; "else"; "return"; "var"; "this"; "delete"; "void"; "typeof"; "new"; "in"; "instanceof"; "do";
  "while"; "for"; "break"; "continue"; "switch"; "case"; "default"; "throw"; "try"; "catch"; "finally"; "function"; "debugger";
  "with"; "class"; "const"; "enum"; "export"; "extends"; "import"; "super"; "implements"; "interface"; "let"; "package";
  "private"; "protected"; "public"; "static"; "yield"; "await"; EmptyString; "keys"; "size"; "length"; "fileName"; "lineNumber";
  "columnNumber"; "message"; "cause"; "errors"; "stack"; "name"; "toString"; "toLocaleString"; "valueOf"; "eval"; "prototype";
  "constructor"; "configurable"; "writable"; "enumerable"; "value"; "get"; "set"; "of"; "__proto__"; "undefined"; "number";
  "boolean"; "string"; "object"; "symbol"; "integer"; "unknown"; "arguments"; "callee"; "caller"; "<eval>"; "<ret>"; "<var>";
  "<arg_var>"; "<with>"; "lastIndex"; "target"; "index"; "input"; "defineProperties"; "apply"; "join"; "concat"; "split";
  "construct"; "getPrototypeOf"; "setPrototypeOf"; "isExtensible"; "preventExtensions"; "has"; "deleteProperty";
  "defineProperty"; "getOwnPropertyDescriptor"; "ownKeys"; "add"; "done"; "next"; "values"; "source"; "flags"; "global";
  "unicode"; "raw"; "rawJSON"; "new.target"; "this.active_func"; "<home_object>"; "<computed_field>"; "<static_computed_field>";
  "<class_fields_init>"; "<brand>"; "#constructor"; "as"; "from"; "meta"; "*default*"; "*"; "Module"; "then"; "resolve";
  "reject"; "promise"; "proxy"; "revoke"; "async"; "exec"; "groups"; "indices"; "status"; "reason"; "globalThis"; "bigint"; "-0";
  "Infinity"; "-Infinity"; "NaN"; "hasIndices"; "ignoreCase"; "multiline"; "dotAll"; "sticky"; "unicodeSets"; "not-equal";
  "timed-out"; "ok"; "toJSON"; "maxByteLength"; "Object"; "Array"; "Error"; "Number"; "String"; "Boolean"; "Symbol"; "Arguments";
  "Math"; "JSON"; "Date"; "Function"; "GeneratorFunction"; "ForInIterator"; "RegExp"; "ArrayBuffer"; "SharedArrayBuffer";
  "Uint8ClampedArray"; "Int8Array"; "Uint8Array"; "Int16Array"; "Uint16Array"; "Int32Array"; "Uint32Array"; "BigInt64Array";
  "BigUint64Array"; "Float16Array"; "Float32Array"; "Float64Array"; "DataView"; "BigInt"; "WeakRef"; "FinalizationRegistry";
  "Map"; "Set"; "WeakMap"; "WeakSet"; "Iterator"; "Iterator Helper"; "Iterator Concat"; "Iterator Wrap"; "Map Iterator";
  "Set Iterator"; "Array Iterator"; "String Iterator"; "RegExp String Iterator"; "Generator"; "Proxy"; "Promise";
  "PromiseResolveFunction"; "PromiseRejectFunction"; "AsyncFunction"; "AsyncFunctionResolve"; "AsyncFunctionReject";
  "AsyncGeneratorFunction"; "AsyncGenerator"; "EvalError"; "RangeError"; "ReferenceError"; "SyntaxError"; "TypeError";
  "URIError"; "InternalError"; "AggregateError"; "<brand>"; "Symbol.toPrimitive"; "Symbol.iterator"; "Symbol.match";
  "Symbol.matchAll"; "Symbol.replace"; "Symbol.search"; "Symbol.split"; "Symbol.toStringTag"; "Symbol.isConcatSpreadable";
  "Symbol.hasInstance"; "Symbol.species"; "Symbol.unscopables"; "Symbol.asyncIterator"
])%string.

Definition chars (s : string) : list Z := map (fun c => Z.of_N (N_of_ascii c)) (list_ascii_of_string s).

Definition init_type (i : Z) : Z :=
  if i =? JS_ATOM_Private_brand then JS_ATOM_TYPE_PRIVATE
  else if JS_ATOM_Symbol_toPrimitive <=? i then JS_ATOM_TYPE_SYMBOL
  else JS_ATOM_TYPE_STRING.

Fixpoint init_atoms (rt : JSRuntime) (i : Z) (names : list string) : option (Z * JSRuntime) :=
  match names with
  | [] => Some (0, rt)
  | p :: names =>
      '(atom, rt) ← __JS_NewAtomInit rt (chars p) (init_type i);
      if atom =? JS_ATOM_NULL then Some (-1, rt) else init_atoms rt (i + 1) names
  end.

Definition empty_runtime (answers : list bool) : JSRuntime := mk_runtime 0 0 0 0 [] [] 0 ∅ 0 answers.

(** [rt] is a new runtime, all 0. *)
Definition JS_InitAtoms (rt : JSRuntime) : option (Z * JSRuntime) :=
  '(r, rt) ← JS_ResizeAtomHash rt 512;
  if negb (r =? 0) then Some (-1, rt) else init_atoms rt 1 js_atom_init.

(** ** Values and atoms *)

Inductive value : Type :=
| VString (p : Z)
| VSymbol (p : Z).

Definition value_ptr (v : value) : Z := match v with VString p => p | VSymbol p => p end.

Definition JS_NewAtomStr (rt : JSRuntime) (p : Z) : option (Z * JSRuntime) :=
  s ← strings rt !! p;
  match is_num_string (content s) with
  | Some n =>
      if n <=? JS_ATOM_MAX_INT then rt ← js_free_string rt p; Some (__JS_AtomFromUInt32 n, rt)
      else __JS_NewAtom rt (Some p) JS_ATOM_TYPE_STRING
  | None => __JS_NewAtom rt (Some p) JS_ATOM_TYPE_STRING
  end.

(** [js_new_string8_len] of a text that is not empty *)
Definition js_new_string8_len (rt : JSRuntime) (s : list Z) : option Z * JSRuntime := js_alloc_string_rt rt (mk_string false s).

Definition new_atom_digits (rt : JSRuntime) (digits : option (list Z)) : option (Z * JSRuntime) :=
  s ← digits;
  match js_new_string8_len rt s with
  | (None, rt) => Some (JS_ATOM_NULL, rt)
  | (Some p, rt) => __JS_NewAtom rt (Some p) JS_ATOM_TYPE_STRING
  end.

Definition JS_NewAtomUInt32 (rt : JSRuntime) (n : Z) : option (Z * JSRuntime) :=
  if n <=? JS_ATOM_MAX_INT then Some (__JS_AtomFromUInt32 n, rt) else new_atom_digits rt (u32toa n).

Definition JS_NewAtomInt64 (rt : JSRuntime) (n : Z) : option (Z * JSRuntime) :=
  if u64 n <=? JS_ATOM_MAX_INT then Some (__JS_AtomFromUInt32 (u32 n), rt) else new_atom_digits rt (i64toa n).

(** [None] in the result is JS_ThrowOutOfMemory. *)
Definition JS_NewSymbol (rt : JSRuntime) (p : option Z) (type : Z) : option (option value * JSRuntime) :=
  '(atom, rt) ← __JS_NewAtom rt p type;
  if atom =? JS_ATOM_NULL then Some (None, rt) else q ← atom_ptr rt atom; Some (Some (VSymbol q), rt).

Definition JS_NewSymbolFromAtom (rt : JSRuntime) (descr type : Z) : option (option value * JSRuntime) :=
  if __JS_AtomIsTaggedInt descr || (atom_size rt <=? descr) then None
  else p ← atom_ptr rt descr; rt ← dup_string rt p; JS_NewSymbol rt (Some p) type.

Definition no_description (s : JSAtomStruct) : bool := (length (str (content s)) =? 0)%nat && is_wide_char (content s).

Definition __JS_AtomToValue (rt : JSRuntime) (atom : Z) (force_string : bool) : option (option value * JSRuntime) :=
  if __JS_AtomIsTaggedInt atom then
    s ← u32toa (__JS_AtomToUInt32 atom);
    match js_new_string8_len rt s with
    | (None, rt) => Some (None, rt)
    | (Some p, rt) => Some (Some (VString p), rt)
    end
  else if atom_size rt <=? atom then None
  else
    '(p, s) ← deref rt atom;
    if atom_type s =? JS_ATOM_TYPE_STRING then rt ← dup_string rt p; Some (Some (VString p), rt)
    else if force_string then
      p ← if no_description s then atom_ptr rt JS_ATOM_empty_string else Some p;
      rt ← dup_string rt p; Some (Some (VString p), rt)
    else rt ← dup_string rt p; Some (Some (VSymbol p), rt).

Definition JS_AtomToValue (rt : JSRuntime) (atom : Z) : option (option value * JSRuntime) := __JS_AtomToValue rt atom false.
Definition JS_AtomToString (rt : JSRuntime) (atom : Z) : option (option value * JSRuntime) := __JS_AtomToValue rt atom true.

(** The index, [None] is FALSE. *)
Definition JS_AtomIsArrayIndex (rt : JSRuntime) (atom : Z) : option (option Z) :=
  if __JS_AtomIsTaggedInt atom then Some (Some (__JS_AtomToUInt32 atom))
  else if atom_size rt <=? atom then None
  else
    '(_, s) ← deref rt atom;
    Some (if atom_type s =? JS_ATOM_TYPE_STRING then
            match is_num_string (content s) with
            | Some val => if val =? 2 ^ 32 - 1 then None else Some val
            | None => None
            end
          else None).

Inductive JSAtomKindEnum : Type := JS_ATOM_KIND_STRING | JS_ATOM_KIND_SYMBOL | JS_ATOM_KIND_PRIVATE.

Definition JS_AtomGetKind (rt : JSRuntime) (v : Z) : option JSAtomKindEnum :=
  if __JS_AtomIsTaggedInt v then Some JS_ATOM_KIND_STRING
  else
    '(_, s) ← deref rt v;
    if atom_type s =? JS_ATOM_TYPE_STRING then Some JS_ATOM_KIND_STRING
    else if atom_type s =? JS_ATOM_TYPE_GLOBAL_SYMBOL then Some JS_ATOM_KIND_SYMBOL
    else if atom_type s =? JS_ATOM_TYPE_SYMBOL then
      if hash s =? JS_ATOM_HASH_PRIVATE then Some JS_ATOM_KIND_PRIVATE else Some JS_ATOM_KIND_SYMBOL
    else None.

Definition JS_AtomSymbolHasDescription (rt : JSRuntime) (v : Z) : option bool :=
  if __JS_AtomIsTaggedInt v then Some false
  else
    '(_, s) ← deref rt v;
    Some (((atom_type s =? JS_ATOM_TYPE_SYMBOL) && negb (hash s =? JS_ATOM_HASH_PRIVATE) || (atom_type s =? JS_ATOM_TYPE_GLOBAL_SYMBOL)) &&
          negb (no_description s)).

Definition js_symbol_to_atom (rt : JSRuntime) (p : Z) : option Z := js_get_atom_index rt p.

(** The case JS_TAG_SYMBOL of [JS_ValueToAtom], which does not free the value *)
Definition symbol_value_to_atom (rt : JSRuntime) (p : Z) : option (Z * JSRuntime) := i ← js_get_atom_index rt p; JS_DupAtom rt i.

(** ** Weak references to symbols *)

Definition js_weakref_is_target (rt : JSRuntime) (p : Z) : option bool :=
  s ← strings rt !! p; Some ((atom_type s =? JS_ATOM_TYPE_SYMBOL) && negb (hash s =? JS_ATOM_HASH_PRIVATE)).

Definition js_weakref_is_live (rt : JSRuntime) (p : Z) : option bool := s ← strings rt !! p; Some (negb (ref_count s =? 0)).

Definition js_weakref_new (rt : JSRuntime) (p : Z) : option JSRuntime :=
  s ← strings rt !! p;
  if JS_ATOM_HASH_MASK - 2 <=? hash s then None else Some (set_string rt p (with_hash s (hash s + 1))).

Definition js_weakref_free (rt : JSRuntime) (p : Z) : option JSRuntime :=
  s ← strings rt !! p;
  if hash s <? 1 then None
  else
    let rt := set_string rt p (with_hash s (hash s - 1)) in
    if (hash s - 1 =? 0) && (ref_count s =? 0) then Some (js_free_rt rt p) else Some rt.

(** The table holds the predefined atoms. *)
Definition js_rt : option (Z * JSRuntime) := JS_InitAtoms (empty_runtime []).
Example init_atoms_ok : (r ← js_rt; Some (fst r, atom_count (snd r), atom_free_index (snd r), length js_atom_init)) = Some (0, 239, 239, 238%nat).
Proof. vm_compute. reflexivity. Qed.
