(* ===== verification/AtomsInv.v ===== *)
(** * The invariant of the table of atoms

    Every structure accounts for the references to it, the chains of the hash
    table and the list of the free elements hold each element once, and no two
    atoms of a type have the same characters. *)

From Stdlib Require Import ZArith Lia Bool.
From stdpp Require Import base numbers list option gmap.
From S2P Require Import Prelude IntPrint JSStrings Atoms.

#[local] Open Scope Z_scope.

(** ** Lists linked by indices, ended by 0 *)

Fixpoint links (nx : Z -> option Z) (h : Z) (l : list Z) : Prop :=
  match l with
  | [] => h = 0
  | i :: l => h = i /\ i <> 0 /\ exists n, nx i = Some n /\ links nx n l
  end.

(** The list from [h] holds each index of [P] once. *)
Definition chain_of (nx : Z -> option Z) (h : Z) (P : Z -> Prop) : Prop :=
  exists l, links nx h l /\ NoDup l /\ forall i, i ∈ l <-> P i.

Lemma links_ext nx nx' l : forall h, (forall i, i ∈ l -> nx' i = nx i) -> links nx h l -> links nx' h l.
Proof.
  induction l as [|i l IH]; intros h E L; cbn in *; [done|]. destruct L as (-> & Hi & n & Hn & L).
  split_and!; [done | done|]. exists n. split; [rewrite E; [done | apply list_elem_of_here]|].
  apply IH; [|done]. intros j Hj. apply E. now apply list_elem_of_further.
Qed.

Lemma links_nonzero nx l : forall h i, links nx h l -> i ∈ l -> i <> 0.
Proof.
  induction l as [|j l IH]; intros h i L Hi; [now apply elem_of_nil in Hi|]. destruct L as (_ & Hj & n & _ & L).
  apply elem_of_cons in Hi as [->|Hi]; eauto.
Qed.

Lemma chain_of_ext nx nx' h P P' : chain_of nx h P -> (forall i, P i <-> P' i) -> (forall i, P i -> nx' i = nx i) -> chain_of nx' h P'.
Proof.
  intros (l & L & N & E) HP Hnx. exists l. split_and!; [|done|].
  - eapply links_ext; [|exact L]. intros i Hi. apply Hnx, E, Hi.
  - intros i. rewrite E. apply HP.
Qed.

Lemma chain_of_nil nx P : (forall i, ~ P i) -> chain_of nx 0 P.
Proof. intros H. exists []. split_and!; [done | constructor|]. intros i. rewrite elem_of_nil. split; [done | now intros ?%H]. Qed.

Lemma chain_of_cons nx nx' h i P : chain_of nx h P -> ~ P i -> i <> 0 -> nx' i = Some h -> (forall j, P j -> nx' j = nx j) ->
  chain_of nx' i (fun j => j = i \/ P j).
Proof.
  intros (l & L & N & E) Hi H0 Hn Hnx. exists (i :: l). split_and!.
  - cbn. split_and!; [done | done|]. exists h. split; [done|]. eapply links_ext; [|exact L]. intros j Hj. apply Hnx, E, Hj.
  - constructor; [|done]. now rewrite E.
  - intros j. rewrite elem_of_cons, E. done.
Qed.

Lemma chain_of_tail nx h P : chain_of nx h P -> h <> 0 -> P h /\ exists n, nx h = Some n /\ chain_of nx n (fun j => P j /\ j <> h).
Proof.
  intros (l & L & N & E) H0. destruct l as [|i l]; [now destruct H0|]. destruct L as (-> & _ & n & Hn & L). apply NoDup_cons in N as [Hi N].
  split; [apply E, list_elem_of_here|]. exists n. split; [done|]. exists l. split_and!; [done | done|].
  intros j. rewrite <- E, elem_of_cons. split; [intros Hj; split; [now right | now intros ->] | intros [[->|?] ?]; done].
Qed.

Lemma chain_of_nonzero nx h P i : chain_of nx h P -> P i -> i <> 0.
Proof. intros (l & L & _ & E) Hi. eapply links_nonzero; [exact L | now apply E]. Qed.

Lemma links_next nx l : forall h j i, links nx h l -> j ∈ l -> nx j = Some i -> i <> 0 -> i ∈ l.
Proof.
  induction l as [|k l IH]; intros h j i L Hj E Hi; [now apply elem_of_nil in Hj|]. destruct L as (-> & _ & n & Hn & L).
  apply list_elem_of_further. apply elem_of_cons in Hj as [->|Hj]; [|eauto]. rewrite E in Hn. injection Hn as <-.
  destruct l; [done|]. destruct L as (-> & _). apply list_elem_of_here.
Qed.

(** Removing [i], which follows [j]. *)
Lemma chain_of_remove nx nx' h P j i n : chain_of nx h P -> P j -> nx j = Some i -> i <> 0 -> nx i = Some n -> nx' j = Some n ->
  (forall k, P k -> k <> j -> k <> i -> nx' k = nx k) -> chain_of nx' h (fun k => P k /\ k <> i).
Proof.
  intros (l & L & N & E) Hj Hji Hi Hin Hjn Hnx.
  assert (forall l h, links nx h l -> NoDup l -> j ∈ l -> (forall k, k ∈ l -> P k) ->
    exists l', links nx' h l' /\ NoDup l' /\ forall k, k ∈ l' <-> k ∈ l /\ k <> i) as H.
  { clear l h L N E. induction l as [|k l IH]; intros h L N Hl HP; [now apply elem_of_nil in Hl|]. pose proof L as (-> & Hk & m & Hm & L').
    apply NoDup_cons in N as [Nk N]. assert (k <> i) as Hki.
    { intros ->. apply elem_of_cons in Hl as [->|Hl]; [rewrite Hm in Hji; injection Hji as ->|].
      - destruct l; [done|]. destruct L' as (-> & _). apply Nk, list_elem_of_here.
      - apply Nk. eapply links_next; [exact L' | exact Hl | exact Hji | done]. }
    destruct (decide (k = j)) as [->|Hkj].
    - rewrite Hm in Hji. injection Hji as ->. destruct l as [|i' l]; [done|]. destruct L' as (<- & _ & n' & Hn' & L').
      assert (n' = n) as -> by congruence. apply NoDup_cons in N as [Ni N]. exists (j :: l). split_and!.
      + cbn. split_and!; [done | done|]. exists n. split; [done|]. eapply links_ext; [|exact L']. intros x Hx. apply Hnx.
        * apply HP. now do 2 apply list_elem_of_further.
        * intros ->. apply Nk. now apply list_elem_of_further.
        * now intros ->.
      + constructor; [|done]. intros Hx. apply Nk. now apply list_elem_of_further.
      + intros x. rewrite !elem_of_cons. split; [intros [->|Hx]; [split; [now left | done] | split; [now do 2 right|now intros ->]] | intros [[->|[->|?]] ?]; auto; done].
    - apply elem_of_cons in Hl as [->|Hl]; [done|]. destruct (IH m L' N Hl) as (l' & L1 & N1 & E1); [intros x Hx; apply HP; now apply list_elem_of_further|].
      exists (k :: l'). split_and!.
      + cbn. split_and!; [done | done|]. exists m. split; [|done]. rewrite Hnx; [done | apply HP, list_elem_of_here | done | done].
      + constructor; [|done]. rewrite E1. now intros [].
      + intros x. rewrite !elem_of_cons, E1. split; [intros [->|[? ?]]; [split; [now left | done] | split; [now right | done]] | intros [[->|?] ?]; auto]. }
  destruct (H l h L N) as (l' & L1 & N1 & E1); [now apply E | intros k; apply E |]. exists l'. split_and!; [done | done|].
  intros k. now rewrite E1, E.
Qed.

(** A list within a range is no longer than the range. *)
Lemma bounded_length (l : list Z) (n : nat) : NoDup l -> (forall i, i ∈ l -> 0 <= i < Z.of_nat n) -> (length l <= n)%nat.
Proof.
  intros N H. rewrite <- (length_seqZ 0 (Z.of_nat n)) at 1 || idtac.
  assert (length l <= length (seqZ 0 (Z.of_nat n)))%nat as Hl; [|now rewrite length_seqZ, Nat2Z.id in Hl].
  apply submseteq_length, NoDup_submseteq; [done|]. intros i Hi. apply elem_of_seqZ. specialize (H i Hi). lia.
Qed.

(** ** Reading the state *)

Definition next_of (rt : JSRuntime) (i : Z) : option Z := '(_, s) ← deref rt i; Some (hash_next s).
Definition free_of (rt : JSRuntime) (i : Z) : option Z := a ← slot rt i; atom_get_free a.

(** The element [i] holds the structure [s] at [p]. *)
Definition holds (rt : JSRuntime) (i p : Z) (s : JSAtomStruct) : Prop := atom_ptr rt i = Some p /\ strings rt !! p = Some s.

Definition hashed_type (type : Z) : bool := (type =? JS_ATOM_TYPE_STRING) || (type =? JS_ATOM_TYPE_GLOBAL_SYMBOL).

(** [i] is an atom of the hash table, with the bucket [b] in a table of [size]. *)
Definition in_table (rt : JSRuntime) (size b i : Z) : Prop :=
  exists p s, holds rt i p s /\ hashed_type (atom_type s) = true /\ Z.land (hash s) (size - 1) = b.

Definition permanent (i : Z) : bool := i <? JS_ATOM_END.

(** ** The parts of the invariant *)

(** The structure [p] with [refs] references and [weak] weak references.
    The predefined atoms have a reference that is never dropped. *)
Definition count_ok (i refs count : Z) : Prop := if permanent i then refs < count else 0 < refs /\ count = refs.

Definition struct_ok (rt : JSRuntime) (p refs weak : Z) (s : JSAtomStruct) : Prop :=
  0 <= refs /\ 0 <= weak /\ p < next_address rt /\ wf_string (content s) /\
  ((atom_type s = 0 /\ weak = 0 /\ 0 < refs /\ ref_count s = refs /\ (forall i, atom_ptr rt i <> Some p)) \/
   (hashed_type (atom_type s) = true /\ weak = 0 /\ hash s = string_hash (content s) (atom_type s) /\
      exists i, atom_ptr rt i = Some p /\ 0 < i /\ count_ok i refs (ref_count s) /\
        (permanent i = true -> atom_type s = JS_ATOM_TYPE_STRING)) \/
   (atom_type s = JS_ATOM_TYPE_SYMBOL /\ (hash s = JS_ATOM_HASH_PRIVATE /\ weak = 0 \/ hash s = weak /\ weak < JS_ATOM_HASH_PRIVATE) /\
      ((exists i, atom_ptr rt i = Some p /\ hash_next s = i /\ count_ok i refs (ref_count s)) \/
       (refs = 0 /\ 0 < weak /\ ref_count s = 0 /\ forall i, atom_ptr rt i <> Some p)))).

Definition structs_ok (rt : JSRuntime) (refs weak : Z -> Z) : Prop :=
  forall p, match strings rt !! p with
            | Some s => struct_ok rt p (refs p) (weak p) s
            | None => refs p = 0 /\ weak p = 0
            end.

(** The elements of the array *)
Record array_ok (rt : JSRuntime) : Prop := mk_array_ok {
  ao_size : 0 <= atom_size rt <= JS_ATOM_MAX /\ length (atom_array rt) = Z.to_nat (atom_size rt);
  ao_live : forall i p, atom_ptr rt i = Some p -> exists s, strings rt !! p = Some s /\ atom_type s <> 0;
  ao_inj : forall i j p, atom_ptr rt i = Some p -> atom_ptr rt j = Some p -> i = j;
  ao_null : 0 < atom_size rt -> exists p s, holds rt 0 p s /\ atom_type s = JS_ATOM_TYPE_SYMBOL;
  ao_free : chain_of (free_of rt) (atom_free_index rt) (fun i => is_Some (free_of rt i));
  ao_count : atom_count rt = Z.of_nat (length (filter (fun a => atom_is_free a = false) (atom_array rt)));
}.

(** The hash table *)
Record table_ok (rt : JSRuntime) : Prop := mk_table_ok {
  to_size : exists k, 0 <= k /\ atom_hash_size rt = 2 ^ k;
  to_bound : atom_hash_size rt <= Z.max 512 (atom_size rt);
  to_resize : atom_count_resize rt = 2 * atom_hash_size rt;
  to_length : length (atom_hash rt) = Z.to_nat (atom_hash_size rt);
  to_chains : forall b h, atom_hash rt !! b = Some h -> chain_of (next_of rt) h (in_table rt (atom_hash_size rt) (Z.of_nat b));
}.

(** No two atoms of a type have the same characters. *)
Definition unique_atoms (rt : JSRuntime) : Prop :=
  forall i j p q s t, holds rt i p s -> holds rt j q t -> hashed_type (atom_type s) = true -> atom_type s = atom_type t ->
    str (content s) = str (content t) -> i = j.

Record inv (rt : JSRuntime) (refs weak : Z -> Z) : Prop := mk_inv {
  inv_structs : structs_ok rt refs weak;
  inv_array : array_ok rt;
  inv_table : table_ok rt;
  inv_unique : unique_atoms rt;
}.

(** ** Counts *)

Definition inc (refs : Z -> Z) (p q : Z) : Z := if q =? p then refs q + 1 else refs q.
Definition dec (refs : Z -> Z) (p q : Z) : Z := if q =? p then refs q - 1 else refs q.

Lemma inc_eq refs p : inc refs p p = refs p + 1.
Proof. unfold inc. now rewrite Z.eqb_refl. Qed.
Lemma inc_ne refs p q : q <> p -> inc refs p q = refs q.
Proof. intros H. unfold inc. now destruct (Z.eqb_spec q p). Qed.
Lemma dec_eq refs p : dec refs p p = refs p - 1.
Proof. unfold dec. now rewrite Z.eqb_refl. Qed.
Lemma dec_ne refs p q : q <> p -> dec refs p q = refs q.
Proof. intros H. unfold dec. now destruct (Z.eqb_spec q p). Qed.
Lemma dec_inc refs p q : dec (inc refs p) p q = refs q.
Proof. unfold dec, inc. destruct (q =? p); lia. Qed.
Lemma inc_dec refs p q : inc (dec refs p) p q = refs q.
Proof. unfold dec, inc. destruct (q =? p); lia. Qed.
Lemma inc_dec_comm refs p r q : inc (dec refs p) r q = dec (inc refs r) p q.
Proof. unfold dec, inc. destruct (q =? p), (q =? r); lia. Qed.

Lemma inv_ext rt refs refs' weak : (forall p, refs p = refs' p) -> inv rt refs weak -> inv rt refs' weak.
Proof.
  intros E [S A T U]. constructor; [|done..]. intros p. specialize (S p). destruct (strings rt !! p); rewrite <- E; done.
Qed.

(** ** States that differ in the structures only *)

(** The fields besides the structures and the allocator *)
Definition same_tables (rt rt' : JSRuntime) : Prop :=
  atom_hash_size rt' = atom_hash_size rt /\ atom_count rt' = atom_count rt /\ atom_size rt' = atom_size rt /\
  atom_count_resize rt' = atom_count_resize rt /\ atom_hash rt' = atom_hash rt /\ atom_array rt' = atom_array rt /\
  atom_free_index rt' = atom_free_index rt.

(** The atoms keep what the tables depend on. *)
Definition same_atoms (rt rt' : JSRuntime) : Prop :=
  same_tables rt rt' /\
  forall i p s, holds rt i p s -> exists s', strings rt' !! p = Some s' /\ atom_type s' = atom_type s /\ content s' = content s /\
    (hashed_type (atom_type s) = true -> hash s' = hash s /\ hash_next s' = hash_next s).

Lemma same_tables_slot rt rt' i : same_tables rt rt' -> slot rt' i = slot rt i.
Proof. intros (_ & _ & _ & _ & _ & E & _). unfold slot. now rewrite E. Qed.
Lemma same_tables_ptr rt rt' i : same_tables rt rt' -> atom_ptr rt' i = atom_ptr rt i.
Proof. intros E. unfold atom_ptr. now rewrite (same_tables_slot rt rt'). Qed.
Lemma same_tables_free rt rt' i : same_tables rt rt' -> free_of rt' i = free_of rt i.
Proof. intros E. unfold free_of. now rewrite (same_tables_slot rt rt'). Qed.

Lemma atom_tables_refl rt : same_tables rt rt.
Proof. done. Qed.
Lemma atom_tables_trans rt1 rt2 rt3 : same_tables rt1 rt2 -> same_tables rt2 rt3 -> same_tables rt1 rt3.
Proof. intros (?&?&?&?&?&?&?) (?&?&?&?&?&?&?). unfold same_tables. split_and!; congruence. Qed.

Lemma holds_inj rt i p s q t : holds rt i p s -> holds rt i q t -> p = q /\ s = t.
Proof. intros [H1 H2] [H3 H4]. rewrite H1 in H3. injection H3 as <-. rewrite H2 in H4. now injection H4. Qed.

Lemma same_atoms_holds rt rt' i q t : array_ok rt -> same_atoms rt rt' -> holds rt' i q t ->
  exists s, holds rt i q s /\ atom_type t = atom_type s /\ content t = content s /\
    (hashed_type (atom_type s) = true -> hash t = hash s /\ hash_next t = hash_next s).
Proof.
  intros A [E K] [H1 H2]. rewrite (same_tables_ptr rt rt') in H1 by done. destruct (ao_live rt A i q H1) as (s & Hs & _).
  destruct (K i q s) as (s' & Hs' & ? & ? & ?); [done|]. assert (s' = t) as -> by congruence. exists s. done.
Qed.

Lemma same_atoms_table rt rt' size b i : array_ok rt -> same_atoms rt rt' -> in_table rt size b i <-> in_table rt' size b i.
Proof.
  intros A K. split.
  - intros (p & s & [H1 H2] & Ht & Hb). destruct K as [E K]. destruct (K i p s) as (s' & Hs' & Et & Ec & Eh); [done|].
    exists p, s'. split_and!; [split; [now rewrite (same_tables_ptr rt rt')|done] | congruence | destruct (Eh Ht); congruence].
  - intros (q & t & H & Ht & Hb). destruct (same_atoms_holds rt rt' i q t A K H) as (s & Hs & Et & _ & Eh).
    rewrite Et in Ht. destruct (Eh Ht) as [Eh' _]. exists q, s. split_and!; [done | done | congruence].
Qed.

Lemma holds_deref rt i p s : holds rt i p s <-> deref rt i = Some (p, s).
Proof.
  unfold holds, deref. destruct (atom_ptr rt i) as [q|]; cbn; [|now split; [intros [? _]|]]. destruct (strings rt !! q) as [t|] eqn:E; cbn.
  - split; [intros [[= <-] H]; congruence | intros [= <- <-]; done].
  - split; [intros [[= <-] H]; congruence | done].
Qed.

Lemma holds_next rt i p s : holds rt i p s -> next_of rt i = Some (hash_next s).
Proof. intros H%holds_deref. unfold next_of. now rewrite H. Qed.

(** The array and the uniqueness depend on the types and the characters. *)
Lemma array_ok_types rt rt' : array_ok rt ->
  atom_size rt' = atom_size rt -> atom_array rt' = atom_array rt -> atom_free_index rt' = atom_free_index rt -> atom_count rt' = atom_count rt ->
  (forall i p s, holds rt i p s -> exists s', strings rt' !! p = Some s' /\ atom_type s' = atom_type s) -> array_ok rt'.
Proof.
  intros A E3 E6 E7 E2 K. assert (forall i, slot rt' i = slot rt i) as Es by (intros i; unfold slot; now rewrite E6).
  assert (forall i, atom_ptr rt' i = atom_ptr rt i) as Ep by (intros i; unfold atom_ptr; now rewrite Es).
  constructor.
  - rewrite E3, E6. apply A.
  - intros i p H. rewrite Ep in H. destruct (ao_live rt A i p H) as (s & Hs & Ht).
    destruct (K i p s) as (s' & Hs' & Et); [done|]. exists s'. split; [done | congruence].
  - intros i j p. rewrite !Ep. apply A.
  - rewrite E3. intros H. destruct (ao_null rt A H) as (p & s & [H1 H2] & Ht). destruct (K 0 p s) as (s' & Hs' & Et); [done|].
    exists p, s'. split; [split; [now rewrite Ep | done] | congruence].
  - rewrite E7. eapply chain_of_ext; [apply A | |]; intros i; unfold free_of; cbn; rewrite Es; done.
  - rewrite E2, E6. apply A.
Qed.

Lemma unique_atoms_types rt rt' : unique_atoms rt ->
  (forall i p s', holds rt' i p s' -> exists s, holds rt i p s /\ atom_type s' = atom_type s /\ content s' = content s) -> unique_atoms rt'.
Proof.
  intros U K i j p q s t Hs Ht Hh Et Ec. destruct (K i p s Hs) as (s0 & Hs0 & Es & Cs), (K j q t Ht) as (t0 & Ht0 & Et' & Ct).
  apply (U i j p q s0 t0); congruence.
Qed.

Lemma same_atoms_ok rt rt' : array_ok rt -> table_ok rt -> unique_atoms rt -> same_atoms rt rt' -> array_ok rt' /\ table_ok rt' /\ unique_atoms rt'.
Proof.
  intros A T U K. pose proof K as [E K']. pose proof E as (E1 & E2 & E3 & E4 & E5 & E6 & E7). split_and!.
  - apply (array_ok_types rt); try done. intros i p s H. destruct (K' i p s H) as (s' & ? & ? & _). now exists s'.
  - constructor.
    + rewrite E1. apply T.
    + rewrite E1, E3. apply T.
    + rewrite E4, E1. apply T.
    + rewrite E5, E1. apply T.
    + rewrite E5, E1. intros b h H. eapply chain_of_ext; [exact (to_chains rt T b h H) | |].
      * intros i. now apply same_atoms_table.
      * intros i (p & s & H1 & Ht & _). destruct (K' i p s H1) as (s' & Hs' & _ & _ & Eh). destruct (Eh Ht) as [_ En].
        rewrite (holds_next rt i p s H1), (holds_next rt' i p s'); [now rewrite En|]. split; [|done]. rewrite (same_tables_ptr rt rt') by done. apply H1.
  - apply (unique_atoms_types rt); [done|]. intros i p t H. destruct (same_atoms_holds rt rt' i p t A K H) as (s & ? & ? & ? & _). now exists s.
Qed.

Lemma struct_ok_ext rt rt' p refs weak s : (forall i, atom_ptr rt' i = Some p <-> atom_ptr rt i = Some p) -> next_address rt <= next_address rt' ->
  struct_ok rt p refs weak s -> struct_ok rt' p refs weak s.
Proof.
  intros E Hn (? & ? & Hp & ? & H). split_and!; try done; [lia|]. destruct H as [(? & ? & ? & ? & Hi)|[(? & ? & ? & i & Hi & ?)|(? & ? & H)]].
  - left. split_and!; try done. intros i. rewrite E. apply Hi.
  - right; left. split_and!; try done. exists i. rewrite E. done.
  - right; right. split_and!; try done. destruct H as [(i & Hi & ?)|(? & ? & ? & Hi)]; [left; exists i; now rewrite E | right].
    split_and!; try done. intros i. rewrite E. apply Hi.
Qed.

(** One structure changes. *)
Lemma inv_update rt rt' refs weak refs' weak' p : inv rt refs weak -> same_atoms rt rt' -> next_address rt <= next_address rt' ->
  (forall q, q <> p -> strings rt' !! q = strings rt !! q /\ refs' q = refs q /\ weak' q = weak q) ->
  match strings rt' !! p with Some s => struct_ok rt p (refs' p) (weak' p) s \/ struct_ok rt' p (refs' p) (weak' p) s | None => refs' p = 0 /\ weak' p = 0 end ->
  inv rt' refs' weak'.
Proof.
  intros [S A T U] K Hn Hq Hp. destruct (same_atoms_ok rt rt' A T U K) as (A' & T' & U'). constructor; [|done..].
  assert (forall q i, atom_ptr rt' i = Some q <-> atom_ptr rt i = Some q) as E.
  { intros q i. destruct K as [K _]. now rewrite (same_tables_ptr rt rt') by done. }
  intros q. destruct (decide (q = p)) as [->|Hne].
  - destruct (strings rt' !! p); [|done]. destruct Hp as [Hp|Hp]; [|done]. eapply struct_ok_ext; [apply E | done | exact Hp].
  - destruct (Hq q Hne) as (-> & -> & ->). specialize (S q). destruct (strings rt !! q); [|done]. eapply struct_ok_ext; [apply E | done | exact S].
Qed.
