(* ===== verification/AtomsOps.v ===== *)
(** * The operations on references to atoms

    Taking and dropping a reference, allocating and weak references keep the
    invariant, and change no other live string or atom. *)

From Stdlib Require Import ZArith Lia Bool.
From stdpp Require Import base numbers list option gmap.
From S2P Require Import Prelude IntPrint JSStrings Atoms AtomsInv.

#[local] Open Scope Z_scope.

(** ** What an operation keeps *)

Definition live (rt : JSRuntime) (p : Z) : Prop := exists s, strings rt !! p = Some s /\ ref_count s <> 0.

(** The kind of an atom does not change. *)
Definition same_kind (s s' : JSAtomStruct) : Prop :=
  content s' = content s /\ (atom_type s <> 0 -> atom_type s' = atom_type s) /\
  (atom_type s = JS_ATOM_TYPE_SYMBOL -> hash s' = JS_ATOM_HASH_PRIVATE <-> hash s = JS_ATOM_HASH_PRIVATE).

(** Nothing is revived, what stays alive keeps its characters, its type and its
    index, and the predefined atoms stay. *)
Record kept (rt rt' : JSRuntime) : Prop := mk_kept {
  k_next : next_address rt <= next_address rt';
  k_dead : forall p, p < next_address rt -> live rt' p -> live rt p;
  k_same : forall p s s', p < next_address rt -> live rt' p -> strings rt !! p = Some s -> strings rt' !! p = Some s' -> same_kind s s';
  k_slot : forall i p, p < next_address rt -> live rt' p -> atom_ptr rt i = Some p -> atom_ptr rt' i = Some p;
  k_perm : forall i p, permanent i = true -> atom_ptr rt i = Some p -> atom_ptr rt' i = Some p;
}.

Lemma same_atom_kind_refl s : same_kind s s.
Proof. done. Qed.

Lemma same_kind_trans s1 s2 s3 : same_kind s1 s2 -> same_kind s2 s3 -> same_kind s1 s3.
Proof.
  intros (C1 & T1 & H1) (C2 & T2 & H2). split_and!; [congruence | intros H | intros H].
  - rewrite T2, T1; [done | done | now rewrite T1].
  - assert (atom_type s2 = JS_ATOM_TYPE_SYMBOL) as E by (rewrite T1; [done | now rewrite H]). now rewrite (H2 E), (H1 H).
Qed.

Lemma kept_refl rt : kept rt rt.
Proof. constructor; try done. intros p s s' _ _ H1 H2. rewrite H1 in H2. injection H2 as <-. done. Qed.

Lemma kept_trans rt1 rt2 rt3 : kept rt1 rt2 -> kept rt2 rt3 -> kept rt1 rt3.
Proof.
  intros [N1 D1 S1 L1 P1] [N2 D2 S2 L2 P2]. constructor; [lia | | | |].
  - intros p Hp H. apply D1; [done|]. apply D2; [lia | done].
  - intros p s s' Hp H Hs Hs'. assert (live rt2 p) as H2 by (apply D2; [lia | done]). pose proof H2 as (s2 & Hs2 & _).
    eapply same_kind_trans; [eapply S1 | eapply S2]; try done. lia.
  - intros i p Hp H Hi. assert (live rt2 p) as H2 by (apply D2; [lia | done]). apply L2; [lia | done|]. now apply L1.
  - auto.
Qed.

(** Only structures change, and the array does not. *)
Lemma kept_update rt rt' : same_tables rt rt' -> next_address rt <= next_address rt' ->
  (forall p s', strings rt' !! p = Some s' -> p < next_address rt -> ref_count s' <> 0 ->
     exists s, strings rt !! p = Some s /\ ref_count s <> 0 /\ same_kind s s') -> kept rt rt'.
Proof.
  intros E N H. constructor; [done | | | |].
  - intros p Hp (s' & Hs' & H'). destruct (H p s' Hs' Hp H') as (s & Hs & Hr & _). now exists s.
  - intros p s s' Hp (s1 & Hs1 & H') Hs Hs'. assert (s1 = s') as -> by congruence. destruct (H p s' Hs' Hp H') as (s0 & Hs0 & _ & K).
    now assert (s0 = s) as -> by congruence.
  - intros i p _ _ Hi. now rewrite (same_tables_ptr rt rt').
  - intros i p _ Hi. now rewrite (same_tables_ptr rt rt').
Qed.

Lemma same_tables_set rt p s : same_tables rt (set_string rt p s).
Proof. done. Qed.

Lemma inv_struct rt refs weak p s : inv rt refs weak -> strings rt !! p = Some s -> struct_ok rt p (refs p) (weak p) s.
Proof. intros [S _ _ _] H. specialize (S p). now rewrite H in S. Qed.

Lemma inv_live rt refs weak p : inv rt refs weak -> 0 < refs p -> exists s, strings rt !! p = Some s /\ ref_count s <> 0.
Proof.
  intros I H. pose proof (inv_structs _ _ _ I p) as S. destruct (strings rt !! p) as [s|]; [|lia]. exists s. split; [done|].
  destruct S as (? & ? & ? & ? & [(? & ? & ? & ? & ?)|[(? & ? & ? & i & ? & ? & Hc & ?)|(? & ? & [(i & ? & ? & Hc)|(? & ? & ? & ?)])]]);
    try lia; unfold count_ok in Hc; destruct (permanent i); lia.
Qed.

(** The structure of an element of the array *)
Lemma inv_ptr rt refs weak i p : inv rt refs weak -> atom_ptr rt i = Some p -> exists s,
  holds rt i p s /\ atom_type s <> 0 /\ ref_count s <> 0 /\ count_ok i (refs p) (ref_count s) /\
  (atom_type s = JS_ATOM_TYPE_SYMBOL -> hash_next s = i).
Proof.
  intros I H. destruct (ao_live rt (inv_array _ _ _ I) i p H) as (s & Hs & Ht). exists s. split; [done|]. split; [done|].
  pose proof (inv_struct rt refs weak p s I Hs) as (? & ? & ? & ? & [(? & ? & ? & ? & ?)|[(Hh & ? & ? & j & Hj & ? & Hc & ?)|(Hh & ? & [(j & Hj & ? & Hc)|(? & ? & ? & Hn)])]]).
  - done.
  - assert (j = i) as -> by (eapply ao_inj; [apply I | done | done]). split_and!; [|done|].
    + unfold count_ok in Hc. destruct (permanent i); lia.
    + intros E. unfold hashed_type in Hh. rewrite E in Hh. done.
  - assert (j = i) as -> by (eapply ao_inj; [apply I | done | done]). split_and!; [|done | done].
    unfold count_ok in Hc. destruct (permanent i); lia.
  - now destruct (Hn i).
Qed.

Lemma inv_next rt refs weak p s : inv rt refs weak -> strings rt !! p = Some s -> p < next_address rt.
Proof. intros I H. pose proof (inv_struct rt refs weak p s I H) as (_ & _ & ? & _). done. Qed.

(** ** Taking a reference *)

(** A change that keeps all but the count *)
Lemma same_atoms_count rt p s n : strings rt !! p = Some s -> same_atoms rt (set_string rt p (with_ref_count s n)).
Proof.
  intros Hs. split; [done|]. intros i q t [_ H]. cbn. destruct (decide (q = p)) as [->|Hne].
  - rewrite lookup_insert_eq. assert (t = s) as -> by congruence. eexists. split; [reflexivity|]. done.
  - rewrite lookup_insert_ne by done. exists t. done.
Qed.

Lemma kept_count rt p s n : strings rt !! p = Some s -> (ref_count s <> 0 \/ n = 0) -> kept rt (set_string rt p (with_ref_count s n)).
Proof.
  intros Hs Hn. apply kept_update; [done | done|]. intros q s' Hq _ H. cbn in Hq. apply lookup_insert_Some in Hq as [[<- <-]|[_ Hq]].
  - exists s. destruct Hn as [Hn|Hn]; [done | now destruct H].
  - now exists s'.
Qed.

Lemma dup_string_ok rt refs weak p : inv rt refs weak -> live rt p ->
  exists rt', dup_string rt p = Some rt' /\ inv rt' (inc refs p) weak /\ kept rt rt'.
Proof.
  intros I (s & Hs & Hr). unfold dup_string. rewrite Hs. cbn. eexists. split; [reflexivity|]. split.
  - apply (inv_update rt _ refs weak _ _ p); [done | now apply same_atoms_count | done | |].
    + intros q Hq. cbn. rewrite lookup_insert_ne, inc_ne by done. done.
    + cbn. rewrite lookup_insert_eq. left. pose proof (inv_struct rt refs weak p s I Hs) as (? & ? & ? & ? & H). rewrite inc_eq.
      split_and!; try done; [lia|]. destruct H as [(? & ? & ? & ? & ?)|[(? & ? & ? & i & ? & ? & Hc & ?)|(? & ? & [(i & ? & ? & Hc)|(? & ? & ? & ?)])]]; [| | |done].
      * left. cbn. split_and!; try done; lia.
      * right; left. split_and!; try done. exists i. split_and!; try done. unfold count_ok in *. cbn. destruct (permanent i); lia.
      * right; right. split_and!; try done. left. exists i. split_and!; try done. unfold count_ok in *. cbn. destruct (permanent i); lia.
  - apply kept_count; [done | now left].
Qed.

(** ** Memory *)

Lemma malloc_ok rt refs weak r rt' : inv rt refs weak -> js_malloc_rt rt = (r, rt') ->
  inv rt' refs weak /\ kept rt rt' /\ same_tables rt rt' /\ strings rt' = strings rt /\
  match r with Some p => p = next_address rt /\ next_address rt' = p + 1 /\ strings rt !! p = None | None => True end.
Proof.
  intros I E. assert (same_tables rt rt' /\ strings rt' = strings rt /\ next_address rt <= next_address rt' /\
    match r with Some p => p = next_address rt /\ next_address rt' = p + 1 | None => True end) as (T & S & N & P).
  { unfold js_malloc_rt in E. destruct (mallocs rt) as [|[] l]; injection E as <- <-; cbn; split_and!; try done; lia. }
  assert (same_atoms rt rt') as K by (split; [done|]; intros i p s [_ H]; rewrite S; now exists s).
  split_and!; [| | done | done |].
  - apply (inv_update rt rt' refs weak refs weak 0); [done | done | done | intros q _; now rewrite S|]. rewrite S.
    pose proof (inv_structs _ _ _ I 0) as H. destruct (strings rt !! 0); [now left | done].
  - apply kept_update; [done | done|]. intros p s Hs _ Hr. rewrite S in Hs. exists s. done.
  - destruct r as [p|]; [|done]. destruct P as [-> ?]. split_and!; [done | done|]. destruct (strings rt !! next_address rt) as [s|] eqn:Hs; [|done].
    apply (inv_next rt refs weak) in Hs; [lia | done].
Qed.

(** A new string, or a structure for an atom *)
Lemma alloc_ok rt refs weak p s : inv rt refs weak -> p < next_address rt -> strings rt !! p = None -> wf_string s ->
  inv (set_string rt p (mk_atom 1 s 0 0 0)) (inc refs p) weak.
Proof.
  intros I Hp Hn Hs. assert (forall i, atom_ptr rt i <> Some p) as Hi.
  { intros i H. destruct (ao_live rt (inv_array _ _ _ I) i p H) as (? & ? & _). congruence. }
  pose proof (inv_structs _ _ _ I p) as S. rewrite Hn in S. destruct S as [S1 S2].
  apply (inv_update rt _ refs weak _ _ p); [done | | done | |].
  - split; [done|]. intros i q t [H1 H2]. exists t. cbn. rewrite lookup_insert_ne; [done|]. intros ->. now destruct (Hi i).
  - intros q Hq. cbn. now rewrite lookup_insert_ne, inc_ne by done.
  - cbn. rewrite lookup_insert_eq, inc_eq. left. split_and!; [lia | lia | done | done|]. left. cbn. split_and!; [done | lia | lia | lia | done].
Qed.

Lemma alloc_string_ok rt refs weak s r rt' : inv rt refs weak -> wf_string s -> js_alloc_string_rt rt s = (r, rt') ->
  kept rt rt' /\ same_tables rt rt' /\ match r with
  | Some p => inv rt' (inc refs p) weak /\ strings rt' !! p = Some (mk_atom 1 s 0 0 0) /\ refs p = 0 /\ strings rt !! p = None /\
      (forall q, q <> p -> strings rt' !! q = strings rt !! q)
  | None => inv rt' refs weak end.
Proof.
  intros I Hs. unfold js_alloc_string_rt. destruct (js_malloc_rt rt) as [[p|] rt1] eqn:E; intros [= <- <-];
    destruct (malloc_ok rt refs weak _ _ I E) as (I1 & K1 & T1 & S1 & P1); [|done].
  destruct P1 as (-> & N1 & H1). split_and!; [| done | | | | |].
  - apply kept_update; [done | cbn; lia|]. intros q s' Hq Hlt Hr. cbn in Hq. apply lookup_insert_Some in Hq as [[<- _]|[_ Hq]]; [lia|].
    rewrite S1 in Hq. now exists s'.
  - apply alloc_ok; [done | lia | now rewrite S1 | done].
  - cbn. now rewrite lookup_insert_eq.
  - pose proof (inv_structs _ _ _ I (next_address rt)) as S. now rewrite H1 in S.
  - done.
  - intros q Hq. cbn. now rewrite lookup_insert_ne, S1 by done.
Qed.

(** ** Following a chain *)

(** The indices of a list of atoms, which fit in the array *)
Definition all_atoms (rt : JSRuntime) (l : list Z) : Prop := forall i, i ∈ l -> exists p s, holds rt i p s.

Lemma slot_range rt i a : slot rt i = Some a -> 0 <= i < Z.of_nat (length (atom_array rt)).
Proof. unfold slot. destruct (Z.ltb_spec i 0); [done|]. intros E. apply lookup_lt_Some in E. lia. Qed.

Lemma ptr_slot rt i p : atom_ptr rt i = Some p <-> slot rt i = Some (AtomPtr p).
Proof. unfold atom_ptr. destruct (slot rt i) as [[]|]; split; congruence. Qed.

Lemma free_slot rt i n : free_of rt i = Some n <-> slot rt i = Some (AtomFree n).
Proof. unfold free_of. destruct (slot rt i) as [[]|]; cbn; split; congruence. Qed.

Lemma chain_short rt l : NoDup l -> all_atoms rt l -> (length l < chain_fuel rt)%nat.
Proof.
  intros N H. unfold chain_fuel. apply Nat.lt_succ_r, bounded_length; [done|]. intros i Hi. destruct (H i Hi) as (p & s & Hp & _).
  apply ptr_slot in Hp. now apply slot_range in Hp.
Qed.

Lemma find_index_ok rt p i : array_ok rt -> atom_ptr rt i = Some p -> forall l fuel h, links (next_of rt) h l -> all_atoms rt l -> i ∈ l ->
  (length l < fuel)%nat -> find_index fuel rt p h = Some i.
Proof.
  intros A Hi. induction l as [|j l IH]; intros [|fuel] h L Hl Hin Hf; try (cbn in Hf; lia); [now apply elem_of_nil in Hin|].
  destruct L as (-> & Hj & n & Hn & L). destruct (Hl j) as (q & s & H); [apply list_elem_of_here|]. pose proof H as [H1 H2].
  cbn [find_index]. rewrite H1. cbn [mbind option_bind]. destruct (Z.eqb_spec q p) as [->|Hne].
  - f_equal. eapply ao_inj; eauto.
  - destruct (Z.eqb_spec j 0); [done|]. rewrite H2. cbn. rewrite (holds_next rt j q s H) in Hn. injection Hn as <-.
    apply elem_of_cons in Hin as [->|Hin]; [congruence|]. apply IH; [done | | done | cbn in Hf; lia].
    intros k Hk. apply Hl. now apply list_elem_of_further.
Qed.

(** The bucket of an atom *)
Lemma bucket_ok rt h : table_ok rt -> exists first, bucket_head rt h = Some first /\ 0 <= bucket rt h /\
  chain_of (next_of rt) first (in_table rt (atom_hash_size rt) (bucket rt h)).
Proof.
  intros T. destruct (to_size rt T) as (k & Hk & E). unfold bucket_head, bucket. rewrite E.
  pose proof (land_pow2_mask h k Hk) as Em. pose proof (Z.mod_pos_bound h (2 ^ k)) as Hr. pose proof (Z.pow_pos_nonneg 2 k).
  destruct (atom_hash rt !! Z.to_nat (Z.land h (2 ^ k - 1))) as [first|] eqn:Ef.
  - exists first. split_and!; [done | lia|]. pose proof (to_chains rt T _ _ Ef) as C. rewrite Z2Nat.id in C by lia. now rewrite E in C.
  - apply lookup_ge_None in Ef. rewrite (to_length rt T), E in Ef. lia.
Qed.

Lemma in_table_atoms rt size b l : (forall i, i ∈ l <-> in_table rt size b i) -> all_atoms rt l.
Proof. intros E i Hi. apply E in Hi as (p & s & H & _). eauto. Qed.

Lemma hashed_not_symbol type : hashed_type type = true -> (type =? JS_ATOM_TYPE_SYMBOL) = false.
Proof. unfold hashed_type, JS_ATOM_TYPE_STRING, JS_ATOM_TYPE_GLOBAL_SYMBOL, JS_ATOM_TYPE_SYMBOL. zcases; done. Qed.

Lemma get_atom_index_ok rt refs weak i p s : inv rt refs weak -> holds rt i p s -> js_get_atom_index rt p = Some i.
Proof.
  intros I H. pose proof (inv_array _ _ _ I) as A. pose proof (inv_table _ _ _ I) as T. pose proof H as [H1 H2]. unfold js_get_atom_index.
  rewrite H2. cbn [mbind option_bind]. pose proof (inv_struct rt refs weak p s I H2) as (_ & _ & _ & _ & [(_ & _ & _ & _ & Hn)|[(Ht & _)|(Ht & _ & [(j & Hj & En & _)|(_ & _ & _ & Hn)])]]).
  - now destruct (Hn i).
  - rewrite (hashed_not_symbol _ Ht). cbn [negb]. destruct (bucket_ok rt (hash s) T) as (first & -> & _ & (l & L & N & E)). cbn [mbind option_bind].
    assert (all_atoms rt l) as Hl by (eapply in_table_atoms, E). eapply find_index_ok; try done; [|now apply chain_short].
    apply E. exists p, s. done.
  - rewrite Ht. cbn. f_equal. rewrite En. eapply ao_inj; eauto.
  - now destruct (Hn i).
Qed.

(** ** Unlinking an atom *)

(** [rt1] is [rt] with the atom [i] taken out of the chains. *)
Record unlinked (rt rt1 : JSRuntime) (i p : Z) : Prop := mk_unlinked {
  u_array : atom_array rt1 = atom_array rt /\ atom_free_index rt1 = atom_free_index rt /\ atom_size rt1 = atom_size rt /\
            atom_count rt1 = atom_count rt /\ atom_hash_size rt1 = atom_hash_size rt /\ atom_count_resize rt1 = atom_count_resize rt /\
            next_address rt1 = next_address rt /\ length (atom_hash rt1) = length (atom_hash rt);
  u_self : strings rt1 !! p = strings rt !! p;
  u_strings : forall q, strings rt1 !! q = strings rt !! q \/
    exists s n, strings rt !! q = Some s /\ hashed_type (atom_type s) = true /\ strings rt1 !! q = Some (with_hash_next s n);
  u_chains : forall b h, atom_hash rt1 !! b = Some h ->
    chain_of (next_of rt1) h (fun j => in_table rt (atom_hash_size rt) (Z.of_nat b) j /\ j <> i);
}.

Lemma unlink_ok rt p s i : array_ok rt -> holds rt i p s -> forall l fuel j q s0, holds rt j q s0 -> q <> p -> j <> 0 -> links (next_of rt) (hash_next s0) l ->
  all_atoms rt l -> i ∈ l -> (length l < fuel)%nat ->
  exists j0 q0 s1, unlink fuel rt p q j = Some (i, set_string rt q0 (with_hash_next s1 (hash_next s))) /\ (j0 = j \/ j0 ∈ l) /\
    holds rt j0 q0 s1 /\ hash_next s1 = i /\ q0 <> p.
Proof.
  intros A H. induction l as [|k l IH]; intros [|fuel] j q s0 Hj Hq Hj0 L Hl Hi Hf; try (cbn in Hf; lia); [now apply elem_of_nil in Hi|].
  destruct L as (E & Hk & n & Hn & L). cbn [unlink]. destruct (Z.eqb_spec j 0); [done|]. destruct Hj as [Hj1 Hj2]. rewrite Hj2. cbn.
  rewrite E. destruct (Hl k) as (q1 & s1 & Hk1); [apply list_elem_of_here|]. pose proof Hk1 as [Hp1 Hs1]. rewrite Hp1. cbn.
  rewrite (holds_next rt k q1 s1 Hk1) in Hn. injection Hn as <-. destruct (Z.eqb_spec q1 p) as [->|Hne].
  - assert (k = i) as -> by (eapply ao_inj; [done | exact Hp1 | apply H]). rewrite Hs1. cbn. assert (s1 = s) as -> by (destruct H; congruence).
    exists j, q, s0. split_and!; [done | now left | done | done | done].
  - apply elem_of_cons in Hi as [->|Hi]; [destruct (holds_inj rt k p s q1 s1 H Hk1); congruence|].
    destruct (IH fuel k q1 s1) as (j0 & q0 & s2 & Eu & Hin & ?); try done; [intros x Hx; apply Hl; now apply list_elem_of_further | cbn in Hf; lia|].
    exists j0, q0, s2. split; [done|]. split; [|done]. right. destruct Hin as [->|Hin]; [apply list_elem_of_here | now apply list_elem_of_further].
Qed.

Lemma in_table_bucket rt size b b' i : in_table rt size b i -> in_table rt size b' i -> b = b'.
Proof. intros (p & s & H & _ & <-) (q & t & H' & _ & <-). destruct (holds_inj rt i p s q t H H') as [_ ->]. done. Qed.

Lemma next_of_set_eq rt i q s : atom_ptr rt i = Some q -> next_of (set_string rt q s) i = Some (hash_next s).
Proof. intros H. apply (holds_next _ i q). split; [done|]. cbn. apply lookup_insert_eq. Qed.

Lemma next_of_set_ne rt i q s : atom_ptr rt i <> Some q -> next_of (set_string rt q s) i = next_of rt i.
Proof.
  intros H. unfold next_of, deref. change (atom_ptr (set_string rt q s) i) with (atom_ptr rt i). destruct (atom_ptr rt i) as [r|]; [|done].
  cbn. now rewrite lookup_insert_ne by congruence.
Qed.

Lemma unlink_atom_ok rt p s i : array_ok rt -> table_ok rt -> holds rt i p s ->
  (hashed_type (atom_type s) = true \/ atom_type s = JS_ATOM_TYPE_SYMBOL /\ hash_next s = i) ->
  exists rt1, unlink_atom rt p s = Some (i, rt1) /\ unlinked rt rt1 i p.
Proof.
  intros A T H Ht. unfold unlink_atom. destruct Ht as [Ht|[Ht En]].
  2: { rewrite Ht, En. exists rt. split; [done|]. constructor; [done | done | now left|]. intros b h Hb.
       eapply chain_of_ext; [exact (to_chains rt T b h Hb) | | done]. intros j. split; [|now intros []]. intros Hj. split; [done|]. intros ->.
       destruct Hj as (q & t & H' & Hh & _). destruct (holds_inj rt i p s q t H H') as [_ <-]. now rewrite Ht in Hh. }
  rewrite (hashed_not_symbol _ Ht). cbn [negb]. destruct (bucket_ok rt (hash s) T) as (first & Ef & Hb & C).
  set (h0 := bucket rt (hash s)) in *. assert (in_table rt (atom_hash_size rt) h0 i) as Hi by (exists p, s; done).
  assert (i <> 0) as Hi0 by (eapply chain_of_nonzero; eauto).
  pose proof C as (l & L & N & E). rewrite Ef. cbn [mbind option_bind]. assert (all_atoms rt l) as Hl by (eapply in_table_atoms, E).
  destruct l as [|j l]; [apply E in Hi; now apply elem_of_nil in Hi|]. destruct L as (-> & Hj & n & Hn & L).
  destruct (Hl j) as (q & s0 & Hj'); [apply list_elem_of_here|]. pose proof Hj' as [Hj1 Hj2]. rewrite Hj1. cbn [mbind option_bind].
  rewrite (holds_next rt j q s0 Hj') in Hn. injection Hn as <-. destruct (Z.eqb_spec q p) as [->|Hne].
  - assert (j = i) as -> by (eapply ao_inj; [done | exact Hj1 | apply H]). assert (s0 = s) as -> by (destruct H; congruence).
    exists (set_bucket rt h0 (hash_next s)). split; [done|]. constructor; [|done | now left|].
    { cbn. split_and!; try done. apply length_insert. }
    cbn. intros b h Hh. change (next_of (set_bucket rt h0 (hash_next s))) with (next_of rt).
    destruct (chain_of_tail _ _ _ C Hi0) as (_ & n & Hn & Ct). rewrite (holds_next rt i p s H) in Hn. injection Hn as <-.
    apply list_lookup_insert_Some in Hh as [(<- & <- & _)|[Hbne Hh]].
    + rewrite Z2Nat.id by done. exact Ct.
    + eapply chain_of_ext; [exact (to_chains rt T b h Hh) | | done]. intros k. split; [|now intros []]. intros Hk. split; [done|]. intros ->.
      pose proof (in_table_bucket rt _ _ _ _ Hk Hi). lia.
  - assert (i ∈ l) as Hil. { apply E in Hi. apply elem_of_cons in Hi as [->|?]; [|done]. destruct (holds_inj rt j p s q s0 H Hj'). congruence. }
    destruct (unlink_ok rt p s i A H l (chain_fuel rt) j q s0) as (j0 & q0 & s1 & Eu & Hj0 & Hs1 & Hn1 & Hq0); try done.
    { intros k Hk. apply Hl. now apply list_elem_of_further. }
    { pose proof (chain_short rt (j :: l) N Hl). cbn in *. lia. }
    rewrite Eu. exists (set_string rt q0 (with_hash_next s1 (hash_next s))). split; [done|]. pose proof Hs1 as [Hp0 Hst0].
    assert (in_table rt (atom_hash_size rt) h0 j0) as Hj0t. { apply E. destruct Hj0 as [->|Hj0]; [apply list_elem_of_here | now apply list_elem_of_further]. }
    constructor; [done | | |].
    + cbn. now rewrite lookup_insert_ne.
    + intros r. cbn. destruct (decide (r = q0)) as [->|Hr]; [right | left; now rewrite lookup_insert_ne].
      exists s1, (hash_next s). split_and!; [done | | apply lookup_insert_eq]. destruct Hj0t as (q' & s' & H' & Hh & _).
      destruct (holds_inj rt j0 q0 s1 q' s' Hs1 H') as [_ ->]. done.
    + cbn. intros b h Hh. assert (forall k, k <> j0 -> next_of (set_string rt q0 (with_hash_next s1 (hash_next s))) k = next_of rt k) as Hnx.
      { intros k Hk. apply next_of_set_ne. intros Hk'. apply Hk. eapply ao_inj; eauto. }
      destruct (decide (Z.of_nat b = h0)) as [Eb|Eb].
      * rewrite Eb. assert (h = j) as -> by (unfold bucket_head in Ef; fold h0 in Ef; rewrite <- Eb, Nat2Z.id in Ef; congruence).
        eapply (chain_of_remove _ _ _ _ j0 i (hash_next s)); [exact C | done | | done | now apply holds_next with p | |].
        -- rewrite <- Hn1. now apply holds_next with q0.
        -- now apply (next_of_set_eq rt j0 q0 (with_hash_next s1 (hash_next s))).
        -- intros k _ Hk _. now apply Hnx.
      * eapply chain_of_ext; [exact (to_chains rt T b h Hh) | |].
        -- intros k. split; [|now intros []]. intros Hk. split; [done|]. intros ->. apply Eb. eapply in_table_bucket; eauto.
        -- intros k Hk. apply Hnx. intros ->. apply Eb. eapply in_table_bucket; eauto.
Qed.

(** ** Freeing an atom *)

Definition live_count (l : list atom_slot) : nat := length (filter (fun a => atom_is_free a = false) l).

Lemma live_count_insert l : forall n a b, l !! n = Some a ->
  (live_count (<[n := b]> l) + (if atom_is_free a then 0 else 1) = live_count l + (if atom_is_free b then 0 else 1))%nat.
Proof.
  unfold live_count. induction l as [|x l IH]; intros [|n] a b H; [done | done | |].
  - injection H as ->. change (<[0%nat := b]> (a :: l)) with (b :: l). rewrite !filter_cons.
    destruct (decide (atom_is_free a = false)), (decide (atom_is_free b = false)), (atom_is_free a), (atom_is_free b); try done; cbn [length]; lia.
  - specialize (IH n a b H). change (<[S n := b]> (x :: l)) with (x :: <[n := b]> l). rewrite !filter_cons.
    destruct (decide (atom_is_free x = false)); cbn [length]; lia.
Qed.

Lemma struct_ok_next rt p refs weak s n : hashed_type (atom_type s) = true -> struct_ok rt p refs weak s -> struct_ok rt p refs weak (with_hash_next s n).
Proof.
  intros Ht (? & ? & ? & ? & H). split_and!; try done. destruct H as [(E & _)|[?|(E & _)]]; [now rewrite E in Ht | right; left; done | now rewrite E in Ht].
Qed.

(** [t] is [s], up to its place in a chain. *)
Definition up_to_next (s t : JSAtomStruct) : Prop := t = s \/ hashed_type (atom_type s) = true /\ exists n, t = with_hash_next s n.

Lemma up_to_next_same s t : up_to_next s t -> atom_type t = atom_type s /\ content t = content s /\ hash t = hash s /\ ref_count t = ref_count s.
Proof. intros [->|(_ & n & ->)]; done. Qed.

Lemma struct_ok_up_to rt p refs weak s t : up_to_next s t -> struct_ok rt p refs weak s -> struct_ok rt p refs weak t.
Proof. intros [->|(Ht & n & ->)]; [done | now apply struct_ok_next]. Qed.

Lemma unlinked_strings rt rt1 i p q : unlinked rt rt1 i p ->
  match strings rt !! q, strings rt1 !! q with Some s, Some t => up_to_next s t | None, None => True | _, _ => False end.
Proof.
  intros U. destruct (u_strings _ _ _ _ U q) as [->|(s & n & -> & Ht & ->)].
  - destruct (strings rt !! q); [now left | done].
  - right. eauto.
Qed.

(** What is left when the element [i] with the structure [p] is freed *)
Record released (rt rt' : JSRuntime) (i p : Z) : Prop := mk_released {
  r_sizes : atom_size rt' = atom_size rt /\ atom_hash_size rt' = atom_hash_size rt /\ atom_count_resize rt' = atom_count_resize rt /\
            next_address rt' = next_address rt /\ length (atom_hash rt') = length (atom_hash rt) /\ atom_count rt' = atom_count rt - 1;
  r_array : atom_array rt' = <[Z.to_nat i := AtomFree (atom_free_index rt)]> (atom_array rt);
  r_free : atom_free_index rt' = i;
  r_strings : forall q, q <> p ->
    match strings rt !! q, strings rt' !! q with Some s, Some t => up_to_next s t | None, None => True | _, _ => False end;
  r_chains : forall b h, atom_hash rt' !! b = Some h ->
    chain_of (next_of rt') h (fun j => in_table rt (atom_hash_size rt) (Z.of_nat b) j /\ j <> i);
}.

Section Released.
Context (rt rt' : JSRuntime) (i p : Z) (s : JSAtomStruct).
Context (A : array_ok rt) (T : table_ok rt) (U : unique_atoms rt) (Hi : holds rt i p s) (Hi0 : 0 < i) (R : released rt rt' i p).

Lemma released_slot k : slot rt' k = if decide (k = i) then Some (AtomFree (atom_free_index rt)) else slot rt k.
Proof using A Hi Hi0 R.
  unfold slot. rewrite (r_array _ _ _ _ R). destruct Hi as [Hp _]. apply ptr_slot in Hp. pose proof (slot_range _ _ _ Hp) as Hr.
  destruct (decide (k = i)) as [->|Hne]; (destruct (Z.ltb_spec k 0) || destruct (Z.ltb_spec i 0)); try lia; [|done|].
  - apply list_lookup_insert_eq. lia.
  - apply list_lookup_insert_ne. lia.
Qed.

Lemma released_ptr k q : atom_ptr rt' k = Some q <-> atom_ptr rt k = Some q /\ k <> i.
Proof using A Hi Hi0 R.
  rewrite !ptr_slot, released_slot. destruct (decide (k = i)) as [->|Hne]; split; [done | now intros [] | done | now intros []].
Qed.

Lemma released_ptr_ne k q : q <> p -> atom_ptr rt' k = Some q <-> atom_ptr rt k = Some q.
Proof using A Hi Hi0 R.
  intros Hq. rewrite released_ptr. split; [now intros []|]. intros H. split; [done|]. intros ->. destruct Hi; congruence.
Qed.

Lemma released_holds k q t : holds rt' k q t -> k <> i /\ q <> p /\ exists u, holds rt k q u /\ up_to_next u t.
Proof using A Hi Hi0 R.
  intros [H1 H2]. apply released_ptr in H1 as [H1 Hk]. assert (q <> p) as Hq.
  { intros ->. apply Hk. eapply ao_inj; [done | exact H1 | apply Hi]. }
  split_and!; [done | done|]. pose proof (r_strings _ _ _ _ R q Hq) as Hs. rewrite H2 in Hs. destruct (strings rt !! q) as [u|] eqn:E; [|done].
  now exists u.
Qed.

Lemma released_holds_2 k q u : holds rt k q u -> k <> i -> exists t, holds rt' k q t /\ up_to_next u t.
Proof using A Hi Hi0 R.
  intros [H1 H2] Hk. assert (q <> p) as Hq.
  { intros ->. apply Hk. eapply ao_inj; [done | exact H1 | apply Hi]. }
  pose proof (r_strings _ _ _ _ R q Hq) as Hs. rewrite H2 in Hs. destruct (strings rt' !! q) as [t|] eqn:E; [|done]. exists t. split; [|done].
  split; [|done]. now apply released_ptr.
Qed.

Lemma released_in_table size b k : in_table rt' size b k <-> in_table rt size b k /\ k <> i.
Proof using A Hi Hi0 R.
  split.
  - intros (q & t & H & Ht & Hb). apply released_holds in H as (Hk & _ & u & Hu & Hup). apply up_to_next_same in Hup as (E1 & _ & E2 & _).
    split; [|done]. exists q, u. split_and!; [done | congruence | congruence].
  - intros [(q & u & Hu & Ht & Hb) Hk]. destruct (released_holds_2 k q u Hu Hk) as (t & H & Hup).
    apply up_to_next_same in Hup as (E1 & _ & E2 & _). exists q, t. split_and!; [done | congruence | congruence].
Qed.

Lemma released_array_ok : array_ok rt'.
Proof using All.
  pose proof (r_sizes _ _ _ _ R) as (E1 & _ & _ & _ & _ & E2). pose proof (proj1 Hi) as Hp. apply ptr_slot in Hp as Hsl.
  constructor.
  - rewrite E1, (r_array _ _ _ _ R), length_insert. apply A.
  - intros k q H. apply released_ptr in H as [H Hk]. destruct (ao_live rt A k q H) as (u & Hu & Htu).
    destruct (released_holds_2 k q u) as (t & [_ Ht] & Hup); [done | done|]. exists t. split; [done|].
    apply up_to_next_same in Hup as (-> & _). done.
  - intros k l q Hk Hl. apply released_ptr in Hk as [Hk _], Hl as [Hl _]. eapply ao_inj; eauto.
  - rewrite E1. intros H. destruct (ao_null rt A H) as (q & u & Hu & Htu). destruct (released_holds_2 0 q u Hu) as (t & Ht & Hup); [lia|].
    exists q, t. split; [done|]. apply up_to_next_same in Hup as (-> & _). done.
  - rewrite (r_free _ _ _ _ R). assert (forall k, k <> i -> free_of rt' k = free_of rt k) as Ef.
    { intros k Hk. unfold free_of. rewrite released_slot. now destruct (decide (k = i)). }
    assert (free_of rt i = None) as Hn by (unfold free_of; now rewrite Hsl).
    assert (free_of rt' i = Some (atom_free_index rt)) as Hs by (unfold free_of; rewrite released_slot; now destruct (decide (i = i))).
    eapply chain_of_ext; [eapply (chain_of_cons _ (free_of rt')); [apply (ao_free rt A) | | lia | exact Hs |] | |done].
    + cbn. rewrite Hn. now intros [].
    + cbn. intros j [n Hj]. apply Ef. intros ->. congruence.
    + cbn. intros j. destruct (decide (j = i)) as [->|Hj]; [rewrite Hs; split; [now eexists | now left]|]. rewrite Ef by done.
      split; [now intros [|] | now right].
  - rewrite E2, (r_array _ _ _ _ R), (ao_count rt A). fold (live_count (atom_array rt)).
    change (length (filter _ (<[Z.to_nat i := AtomFree (atom_free_index rt)]> (atom_array rt)))) with (live_count (<[Z.to_nat i := AtomFree (atom_free_index rt)]> (atom_array rt))).
    unfold slot in Hsl. destruct (Z.ltb_spec i 0); [done|]. pose proof (live_count_insert _ _ _ (AtomFree (atom_free_index rt)) Hsl). cbn in *. lia.
Qed.

Lemma released_table_ok : table_ok rt'.
Proof using All.
  pose proof (r_sizes _ _ _ _ R) as (E1 & E2 & E3 & _ & E4 & _). constructor.
  - rewrite E2. apply T.
  - rewrite E1, E2. apply T.
  - rewrite E3, E2. apply T.
  - rewrite E4, E2. apply T.
  - rewrite E2. intros b h H. eapply chain_of_ext; [exact (r_chains _ _ _ _ R b h H) | | done]. intros k. cbn. now rewrite released_in_table.
Qed.

Lemma released_unique : unique_atoms rt'.
Proof using All.
  intros k l q r u v Hu Hv Ht Et Ec. apply released_holds in Hu as (_ & _ & u0 & Hu & Eu), Hv as (_ & _ & v0 & Hv & Ev).
  apply up_to_next_same in Eu as (E1 & E2 & _), Ev as (E3 & E4 & _). apply (U k l q r u0 v0); congruence.
Qed.

Lemma released_inv refs weak refs' weak' :
  (forall q, q <> p -> match strings rt !! q with Some u => struct_ok rt q (refs q) (weak q) u | None => refs q = 0 /\ weak q = 0 end) ->
  (forall q, q <> p -> refs' q = refs q /\ weak' q = weak q) ->
  match strings rt' !! p with Some t => struct_ok rt' p (refs' p) (weak' p) t | None => refs' p = 0 /\ weak' p = 0 end -> inv rt' refs' weak'.
Proof using All.
  intros S Hq Hp. constructor; [|apply released_array_ok | apply released_table_ok | apply released_unique].
  intros q. destruct (decide (q = p)) as [->|Hne]; [done|]. destruct (Hq q Hne) as [-> ->]. specialize (S q Hne). pose proof (r_strings _ _ _ _ R q Hne) as Hs.
  destruct (strings rt !! q) as [u|], (strings rt' !! q) as [t|]; try done. apply (struct_ok_up_to _ _ _ _ u); [done|].
  eapply struct_ok_ext; [| |exact S].
  - intros k. now apply released_ptr_ne.
  - pose proof (r_sizes _ _ _ _ R) as (_ & _ & _ & -> & _). done.
Qed.
End Released.

Definition weakly_held (s : JSAtomStruct) : bool :=
  (atom_type s =? JS_ATOM_TYPE_SYMBOL) && negb (hash s =? JS_ATOM_HASH_PRIVATE) && negb (hash s =? 0).

Lemma release_atom_ok rt rt1 i p s : array_ok rt -> holds rt i p s -> 0 < i -> unlinked rt rt1 i p ->
  exists rt', release_atom rt1 p s i = Some rt' /\ released rt rt' i p /\
    strings rt' !! p = if weakly_held s then Some s else None.
Proof.
  intros A H Hi0 U. destruct (u_array _ _ _ _ U) as (E1 & E2 & E3 & E4 & E5 & E6 & E7 & E8). pose proof H as [Hp Hs].
  apply ptr_slot in Hp as Hsl. unfold release_atom, set_slot, slot. rewrite E1. fold (slot rt i). rewrite Hsl. cbn [mbind option_bind].
  fold (weakly_held s). assert (1 <= atom_count rt) as Hc.
  { rewrite (ao_count rt A). pose proof Hsl as Hsl'. unfold slot in Hsl'. destruct (Z.ltb_spec i 0); [done|].
    fold (live_count (atom_array rt)). pose proof (live_count_insert _ _ _ (AtomFree 0) Hsl'). cbn in *. lia. }
  set (rt2 := if weakly_held s then rt1 else js_free_rt rt1 p).
  assert (atom_count rt2 = atom_count rt1 /\ atom_size rt2 = atom_size rt1 /\ atom_hash_size rt2 = atom_hash_size rt1 /\
    atom_count_resize rt2 = atom_count_resize rt1 /\ next_address rt2 = next_address rt1 /\ atom_hash rt2 = atom_hash rt1) as (F1 & F2 & F3 & F4 & F5 & F6)
    by (unfold rt2; destruct (weakly_held s); done).
  rewrite F1, E4, E2. destruct (Z.ltb_spec (atom_count rt - 1) 0); [lia|]. eexists. split; [reflexivity|].
  assert (forall q, q <> p -> strings rt2 !! q = strings rt1 !! q) as Hst.
  { intros q Hq. unfold rt2. destruct (weakly_held s); [done|]. cbn. now rewrite lookup_delete_ne. }
  split; [constructor|].
  - cbn. rewrite F2, F3, F4, F5, F6. done.
  - done.
  - done.
  - intros q Hq. cbn. rewrite Hst by done. apply (unlinked_strings _ _ _ _ _ U).
  - cbn. rewrite F6. intros b h Hh. eapply chain_of_ext; [exact (u_chains _ _ _ _ U b h Hh) | done|].
    intros j [(q & t & [Hj1 Hj2] & _) Hj]. assert (q <> p) as Hq by (intros ->; apply Hj; eapply ao_inj; [done | exact Hj1 | apply H]).
    unfold next_of, deref, atom_ptr, slot. cbn. rewrite E1. fold (slot rt j). apply ptr_slot in Hj1 as Hj1'.
    pose proof (slot_range _ _ _ Hj1') as Hr. pose proof (slot_range _ _ _ Hsl) as Hr'. destruct (Z.ltb_spec j 0); [lia|].
    rewrite list_lookup_insert_ne by lia. pose proof Hj1' as Hj2'. unfold slot in Hj1'. destruct (Z.ltb_spec j 0); [lia|]. rewrite Hj1', Hj2'. cbn.
    now rewrite Hst.
  - cbn. unfold rt2. destruct (weakly_held s); [|apply lookup_delete_eq]. now rewrite (u_self _ _ _ _ U).
Qed.

(** Dropping a reference adds nothing. *)
Record shrunk (rt rt' : JSRuntime) : Prop := mk_shrunk {
  sh_strings : forall q t, strings rt' !! q = Some t -> exists u, strings rt !! q = Some u /\ atom_type t = atom_type u /\ content t = content u;
  sh_ptr : forall k q, atom_ptr rt' k = Some q -> atom_ptr rt k = Some q;
  sh_size : atom_hash_size rt' = atom_hash_size rt;
  sh_free : atom_free_index rt <> 0 -> atom_free_index rt' <> 0;
}.

Lemma shrunk_count rt p s n : strings rt !! p = Some s -> shrunk rt (set_string rt p (with_ref_count s n)).
Proof.
  intros Hs. constructor; [|done..]. intros q t Ht. cbn in Ht. apply lookup_insert_Some in Ht as [[<- <-]|[_ Ht]]; [now exists s | now exists t].
Qed.

(** Every atom of [rt'] but [i] is one of [rt]. *)
Definition fewer (i : Z) (rt rt' : JSRuntime) : Prop := forall j q t, holds rt' j q t -> j <> 0 -> j <> i ->
  exists u, holds rt j q u /\ atom_type t = atom_type u /\ content t = content u.

Lemma fewer_refl i rt : fewer i rt rt.
Proof. intros j q t H _ _. now exists t. Qed.

Lemma fewer_trans i rt1 rt2 rt3 : fewer i rt1 rt2 -> fewer i rt2 rt3 -> fewer i rt1 rt3.
Proof.
  intros F1 F2 j q t H H0 Hi. destruct (F2 j q t H H0 Hi) as (u & Hu & E1 & E2). destruct (F1 j q u Hu H0 Hi) as (v & Hv & E3 & E4).
  exists v. split_and!; [done | congruence | congruence].
Qed.

Lemma fewer_none i rt rt' : fewer 0 rt rt' -> fewer i rt rt'.
Proof. intros F j q t H H0 _. now apply F. Qed.

Lemma shrunk_fewer i rt rt' : shrunk rt rt' -> fewer i rt rt'.
Proof. intros S j q t [H1 H2] _ _. destruct (sh_strings _ _ S q t H2) as (u & Hu & ? & ?). exists u. split; [|done]. split; [now apply (sh_ptr _ _ S) | done]. Qed.

Lemma same_strings_fewer i rt rt' : same_tables rt rt' -> strings rt' = strings rt -> fewer i rt rt'.
Proof. intros T E j q t [H1 H2] _ _. exists t. split; [|done]. rewrite E in H2. split; [|done]. now rewrite <- (same_tables_ptr rt rt'). Qed.

Lemma same_atoms_fewer i rt rt' : array_ok rt -> same_atoms rt rt' -> fewer i rt rt'.
Proof. intros A K j q t H _ _. destruct (same_atoms_holds rt rt' j q t A K H) as (s & ? & ? & ? & _). now exists s. Qed.

(** The structure of an atom whose last reference is dropped *)
Lemma free_atom_struct_ok rt refs weak i p s : inv rt refs weak -> holds rt i p s -> permanent i = false -> refs p = 1 ->
  exists rt', JS_FreeAtomStruct (set_string rt p (with_ref_count s 0)) p = Some rt' /\ inv rt' (dec refs p) weak /\ kept rt rt' /\ shrunk rt rt'.
Proof.
  intros I H Hperm Hr. pose proof H as [Hp Hs]. pose proof I as [S A T U].
  set (rt0 := set_string rt p (with_ref_count s 0)). set (s0 := with_ref_count s 0).
  assert (same_atoms rt rt0) as K by now apply same_atoms_count. destruct (same_atoms_ok rt rt0 A T U K) as (A0 & T0 & U0).
  assert (holds rt0 i p s0) as H0 by (split; [done | apply lookup_insert_eq]).
  assert (0 < i) as Hi0 by (unfold permanent, JS_ATOM_END in Hperm; destruct (Z.ltb_spec i 239); [done | lia]).
  pose proof (inv_struct rt refs weak p s I Hs) as (_ & Hw & Hlt & Hwf & Hcase).
  assert (hashed_type (atom_type s) = true \/ atom_type s = JS_ATOM_TYPE_SYMBOL /\ hash_next s = i) as Ht.
  { destruct (inv_ptr rt refs weak i p I Hp) as (t & Ht & _ & _ & _ & Hn). destruct (holds_inj rt i p s p t H Ht) as [_ <-].
    destruct Hcase as [(_ & _ & _ & _ & Hi)|[(? & _)|(? & _)]]; [now destruct (Hi i) | now left | right; auto]. }
  destruct (unlink_atom_ok rt0 p s0 i A0 T0 H0 Ht) as (rt1 & Eu & Un).
  destruct (release_atom_ok rt0 rt1 i p s0 A0 H0 Hi0 Un) as (rt' & Er & R & Hp'). exists rt'.
  split; [|split; [|split]].
  - unfold JS_FreeAtomStruct. change (strings rt0 !! p) with (strings (set_string rt p s0) !! p). cbn [strings set_string with_strings].
    rewrite lookup_insert_eq. cbn [mbind option_bind]. rewrite Eu. cbn [mbind option_bind]. exact Er.
  - apply (released_inv rt0 rt' i p s0 A0 T0 U0 H0 Hi0 R refs weak).
    + intros q Hq. cbn. rewrite lookup_insert_ne by done. specialize (S q). destruct (strings rt !! q); [|done].
      eapply struct_ok_ext; [| |exact S]; done.
    + intros q Hq. now rewrite dec_ne by done.
    + rewrite Hp', dec_eq, Hr. unfold weakly_held. cbn. assert (forall k, atom_ptr rt' k <> Some p) as Hn.
      { intros k Hk. apply (released_ptr rt0 rt' i p s0 A0 H0 Hi0 R) in Hk as [Hk Hki]. apply Hki. eapply ao_inj; [exact A0 | exact Hk | apply H0]. }
      pose proof (r_sizes _ _ _ _ R) as (_ & _ & _ & En & _).
      destruct Hcase as [(_ & _ & _ & _ & Hi)|[(Hh & -> & _)|(Hh & Hhash & _)]]; [now destruct (Hi i) | now rewrite (hashed_not_symbol _ Hh)|].
      rewrite Hh. cbn. destruct Hhash as [[Eh ->]|[Eh Hwp]]; rewrite Eh; [done|]. destruct (Z.eqb_spec (weak p) JS_ATOM_HASH_PRIVATE); [lia|]. cbn.
      destruct (Z.eqb_spec (weak p) 0) as [E0|E0]; cbn; [done|]. split_and!; [lia | lia | rewrite En; done | done|]. right; right.
      split_and!; [done | now right|]. right. split_and!; [lia | lia | done | done].
  - pose proof (r_sizes _ _ _ _ R) as (_ & _ & _ & En & _). assert (forall q t, strings rt' !! q = Some t -> ref_count t <> 0 -> q <> p) as Hne.
    { intros q t Ht' Hr' ->. rewrite Hp' in Ht'. destruct (weakly_held s0); [|done]. injection Ht' as <-. done. }
    assert (forall q t, q <> p -> strings rt' !! q = Some t -> exists u, strings rt !! q = Some u /\ up_to_next u t) as Hst.
    { intros q t Hq Ht'. pose proof (r_strings _ _ _ _ R q Hq) as E. rewrite Ht' in E. cbn in E. rewrite lookup_insert_ne in E by done.
      destruct (strings rt !! q) as [u|]; [|done]. now exists u. }
    constructor.
    + rewrite En. done.
    + intros q _ (t & Ht' & Hr'). destruct (Hst q t) as (u & Hu & Hup); [eauto | done|]. exists u. split; [done|].
      apply up_to_next_same in Hup as (_ & _ & _ & <-). done.
    + intros q u t _ (t' & Ht' & Hr') Hu Ht''. assert (t' = t) as -> by congruence. destruct (Hst q t) as (u' & Hu' & Hup); [eauto | done|].
      assert (u' = u) as -> by congruence. apply up_to_next_same in Hup as (E1 & E2 & E3 & _). split_and!; [done | done|]. intros _. now rewrite E3.
    + intros k q _ (t & Ht' & Hr') Hk. apply (released_ptr_ne rt0 rt' i p s0 A0 H0 Hi0 R); [eauto | done].
    + intros k q Hk Hkq. apply (released_ptr rt0 rt' i p s0 A0 H0 Hi0 R). split; [done|]. intros ->. congruence.
  - pose proof (r_sizes _ _ _ _ R) as (_ & Eh & _). constructor.
    + intros q t Ht'. destruct (decide (q = p)) as [->|Hq].
      * rewrite Hp' in Ht'. destruct (weakly_held s0); [|done]. injection Ht' as <-. now exists s.
      * pose proof (r_strings _ _ _ _ R q Hq) as E. rewrite Ht' in E. cbn in E. rewrite lookup_insert_ne in E by done.
        destruct (strings rt !! q) as [u|]; [|done]. apply up_to_next_same in E as (E1 & E2 & _). now exists u.
    + intros k q Hk. now apply (released_ptr rt0 rt' i p s0 A0 H0 Hi0 R) in Hk as [Hk _].
    + exact Eh.
    + intros _. rewrite (r_free _ _ _ _ R). lia.
Qed.

(** ** Dropping a reference *)

Lemma drop_ref_ok rt refs weak p s : inv rt refs weak -> strings rt !! p = Some s -> 0 < refs p -> 1 < ref_count s ->
  inv (set_string rt p (with_ref_count s (ref_count s - 1))) (dec refs p) weak /\ kept rt (set_string rt p (with_ref_count s (ref_count s - 1))).
Proof.
  intros I Hs Hr Hc. split; [|apply kept_count; [done | left; lia]].
  apply (inv_update rt _ refs weak _ _ p); [done | now apply same_atoms_count | done | |].
  - intros q Hq. cbn. rewrite lookup_insert_ne, dec_ne by done. done.
  - cbn. rewrite lookup_insert_eq. left. pose proof (inv_struct rt refs weak p s I Hs) as (? & ? & ? & ? & H). rewrite dec_eq.
    split_and!; try done; [lia|]. destruct H as [(? & ? & ? & ? & ?)|[(? & ? & ? & i & ? & ? & Hc' & ?)|(? & ? & [(i & ? & ? & Hc')|(? & ? & ? & ?)])]].
    + left. cbn. split_and!; try done; lia.
    + right; left. split_and!; try done. exists i. split_and!; try done. unfold count_ok in *. cbn. destruct (permanent i); lia.
    + right; right. split_and!; try done. left. exists i. split_and!; try done. unfold count_ok in *. cbn. destruct (permanent i); lia.
    + right; right. lia.
Qed.

(** The last reference to a string that is not an atom *)
Lemma free_plain_ok rt refs weak p s : inv rt refs weak -> strings rt !! p = Some s -> atom_type s = 0 -> refs p = 1 ->
  inv (js_free_rt (set_string rt p (with_ref_count s 0)) p) (dec refs p) weak /\ kept rt (js_free_rt (set_string rt p (with_ref_count s 0)) p) /\
  shrunk rt (js_free_rt (set_string rt p (with_ref_count s 0)) p).
Proof.
  intros I Hs Ht Hr. pose proof (inv_struct rt refs weak p s I Hs) as (_ & _ & _ & _ & H).
  assert (weak p = 0 /\ forall i, atom_ptr rt i <> Some p) as [Hw Hn].
  { destruct H as [(? & ? & ? & ? & ?)|[(E & _)|(E & _)]]; [done | now rewrite Ht in E | now rewrite Ht in E]. }
  assert (forall q t, strings (js_free_rt (set_string rt p (with_ref_count s 0)) p) !! q = Some t -> strings rt !! q = Some t) as Hst.
  { intros q t Hq. cbn in Hq. apply lookup_delete_Some in Hq as [Hne Hq]. now rewrite lookup_insert_ne in Hq. }
  split; [|split].
  - apply (inv_update rt _ refs weak _ _ p); [done | | done | |].
    + split; [done|]. intros i q t [H1 H2]. exists t. split; [|done]. cbn. assert (q <> p) by (intros ->; now destruct (Hn i)).
      now rewrite lookup_delete_ne, lookup_insert_ne by done.
    + intros q Hq. cbn. now rewrite lookup_delete_ne, lookup_insert_ne, dec_ne by done.
    + cbn. rewrite lookup_delete_eq, dec_eq. lia.
  - apply kept_update; [done | done|]. intros q t Hq%Hst _ Hr'. now exists t.
  - constructor; [|done..]. intros q t Hq%Hst. now exists t.
Qed.

Lemma js_free_string_ok rt refs weak p : inv rt refs weak -> 0 < refs p ->
  exists rt', js_free_string rt p = Some rt' /\ inv rt' (dec refs p) weak /\ kept rt rt' /\ shrunk rt rt'.
Proof.
  intros I Hr. destruct (inv_live rt refs weak p I Hr) as (s & Hs & _). unfold js_free_string. rewrite Hs. cbn [mbind option_bind].
  pose proof (inv_struct rt refs weak p s I Hs) as (_ & _ & _ & _ & H). destruct (Z.leb_spec (ref_count s - 1) 0) as [Hle|Hlt].
  2: { eexists. split; [reflexivity|]. split; [|split; [|now apply shrunk_count]]; apply (drop_ref_ok rt refs weak p s); try done; lia. }
  assert (forall i, atom_ptr rt i = Some p -> ref_count s = 1 /\ exists rt', JS_FreeAtomStruct (set_string rt p (with_ref_count s 0)) p = Some rt' /\
    inv rt' (dec refs p) weak /\ kept rt rt' /\ shrunk rt rt') as Hfree.
  { intros i Hi. destruct (inv_ptr rt refs weak i p I Hi) as (t & Ht & _ & _ & Hc & _). assert (t = s) as -> by (destruct Ht; congruence).
    unfold count_ok in Hc. destruct (permanent i) eqn:Ep; [lia|]. split; [lia|]. apply (free_atom_struct_ok rt refs weak i p s); try done. lia. }
  destruct H as [(Ht & ? & ? & ? & Hn)|[(Ht & ? & ? & i & Hi & _)|(Ht & _ & [(i & Hi & _)|?])]]; [| | |lia].
  - rewrite Ht. cbn [Z.eqb negb]. replace (ref_count s - 1) with 0 by lia. eexists. split; [reflexivity|]. apply free_plain_ok; [done | done | done | lia].
  - destruct (Z.eqb_spec (atom_type s) 0) as [E|_]; [now rewrite E in Ht|]. cbn [negb]. destruct (Hfree i Hi) as [-> ?]. done.
  - rewrite Ht. cbn [Z.eqb negb JS_ATOM_TYPE_SYMBOL]. destruct (Hfree i Hi) as [-> ?]. done.
Qed.

(** ** Atoms *)

(** A reference to an atom: none for the predefined ones and the integers. *)
Definition atom_is_const (v : Z) : bool := __JS_AtomIsConst v.

Lemma const_index i : 0 <= i <= JS_ATOM_MAX -> __JS_AtomIsConst i = permanent i.
Proof. intros H. unfold __JS_AtomIsConst, permanent. rewrite sgn_small; [done | lia|]. unfold in_s, JS_ATOM_MAX in *. lia. Qed.

Lemma ptr_range rt i p : array_ok rt -> atom_ptr rt i = Some p -> 0 <= i < atom_size rt /\ i < JS_ATOM_MAX.
Proof. intros A H. apply ptr_slot, slot_range in H. pose proof (ao_size rt A) as [? E]. lia. Qed.

Lemma const_ptr rt i p : array_ok rt -> atom_ptr rt i = Some p -> __JS_AtomIsConst i = permanent i.
Proof. intros A H. apply const_index. pose proof (ptr_range rt i p A H). lia. Qed.

Lemma free_atom_ok rt refs weak i p : inv rt refs weak -> atom_ptr rt i = Some p -> (permanent i = false -> 0 < refs p) ->
  exists rt', JS_FreeAtom rt i = Some rt' /\ inv rt' (if permanent i then refs else dec refs p) weak /\ kept rt rt' /\ fewer 0 rt rt'.
Proof.
  intros I Hi Hr. unfold JS_FreeAtom. rewrite (const_ptr rt i p (inv_array _ _ _ I) Hi). destruct (permanent i) eqn:Ep; cbn [negb].
  { exists rt. split_and!; [done | done | apply kept_refl | apply fewer_refl]. }
  destruct (inv_ptr rt refs weak i p I Hi) as (s & H & _ & _ & Hc & _). unfold __JS_FreeAtom. rewrite (proj1 (holds_deref rt i p s) H).
  cbn [mbind option_bind]. unfold count_ok in Hc. rewrite Ep in Hc. destruct Hc as [_ Hc]. destruct (Z.ltb_spec 0 (ref_count s - 1)).
  - eexists. split; [reflexivity|]. destruct (drop_ref_ok rt refs weak p s I (proj2 H)) as [? ?]; [auto | lia|]. split_and!; [done | done|].
    apply shrunk_fewer, shrunk_count, H.
  - replace (ref_count s - 1) with 0 by (specialize (Hr eq_refl); lia). destruct (free_atom_struct_ok rt refs weak i p s) as (rt' & ? & ? & ? & ?);
      try done; [|exists rt'; split_and!; try done; now apply shrunk_fewer]. specialize (Hr eq_refl). lia.
Qed.

Lemma dup_atom_ok rt refs weak i p : inv rt refs weak -> atom_ptr rt i = Some p ->
  exists rt', JS_DupAtom rt i = Some (i, rt') /\ inv rt' (if permanent i then refs else inc refs p) weak /\ kept rt rt'.
Proof.
  intros I Hi. unfold JS_DupAtom. rewrite (const_ptr rt i p (inv_array _ _ _ I) Hi). destruct (permanent i); cbn [negb].
  { exists rt. split_and!; [done | done | apply kept_refl]. }
  rewrite Hi. cbn [mbind option_bind]. destruct (inv_ptr rt refs weak i p I Hi) as (s & [_ Hs] & _ & Hc & _).
  destruct (dup_string_ok rt refs weak p I) as (rt' & -> & I' & K); [now exists s|]. cbn. eauto.
Qed.

(** ** Weak references *)

Lemma same_atoms_hash rt p s h : strings rt !! p = Some s -> atom_type s = JS_ATOM_TYPE_SYMBOL -> same_atoms rt (set_string rt p (with_hash s h)).
Proof.
  intros Hs Ht. split; [done|]. intros i q t [_ H]. cbn. destruct (decide (q = p)) as [->|Hne].
  - rewrite lookup_insert_eq. assert (t = s) as -> by congruence. eexists. split; [reflexivity|]. split_and!; [done | done|]. now rewrite Ht.
  - rewrite lookup_insert_ne by done. exists t. done.
Qed.

Lemma kept_hash rt p s h : strings rt !! p = Some s -> (h = JS_ATOM_HASH_PRIVATE <-> hash s = JS_ATOM_HASH_PRIVATE) ->
  kept rt (set_string rt p (with_hash s h)).
Proof.
  intros Hs Hh. apply kept_update; [done | done|]. intros q t Hq _ Hr. cbn in Hq. apply lookup_insert_Some in Hq as [[<- <-]|[_ Hq]]; [exists s; done | now exists t].
Qed.

Lemma weakref_new_ok rt refs weak p s : inv rt refs weak -> strings rt !! p = Some s -> js_weakref_is_target rt p = Some true ->
  weak p < JS_ATOM_HASH_MASK - 2 -> exists rt', js_weakref_new rt p = Some rt' /\ inv rt' refs (inc weak p) /\ kept rt rt'.
Proof.
  intros I Hs Ht Hw. unfold js_weakref_is_target in Ht. rewrite Hs in Ht. injection Ht as [Ht Hh]%andb_prop.
  apply Z.eqb_eq in Ht. apply negb_true_iff, Z.eqb_neq in Hh.
  pose proof (inv_struct rt refs weak p s I Hs) as (? & ? & ? & ? & [(E & _)|[(E & _)|(_ & Hhash & Hc)]]); [now rewrite Ht in E | now rewrite Ht in E|].
  destruct Hhash as [[? _]|[Eh Hp]]; [done|]. unfold js_weakref_new. rewrite Hs. cbn [mbind option_bind]. rewrite Eh.
  destruct (Z.leb_spec (JS_ATOM_HASH_MASK - 2) (weak p)); [lia|]. eexists. split; [reflexivity|]. unfold JS_ATOM_HASH_PRIVATE in *. split.
  - apply (inv_update rt _ refs weak _ _ p); [done | now apply same_atoms_hash | done | |].
    + intros q Hq. cbn. now rewrite lookup_insert_ne, inc_ne by done.
    + cbn. rewrite lookup_insert_eq, inc_eq. left. split_and!; [done | lia | done | done|]. right; right. split_and!; [done | right; cbn; unfold JS_ATOM_HASH_PRIVATE; lia |].
      destruct Hc as [Hc|(? & ? & ? & ?)]; [left; exact Hc | right; cbn; split_and!; try done; lia].
  - apply kept_hash; [done|]. unfold JS_ATOM_HASH_PRIVATE. lia.
Qed.

Lemma weakref_free_ok rt refs weak p : inv rt refs weak -> 0 < weak p ->
  exists rt', js_weakref_free rt p = Some rt' /\ inv rt' refs (dec weak p) /\ kept rt rt'.
Proof.
  intros I Hw. pose proof (inv_structs _ _ _ I p) as S. destruct (strings rt !! p) as [s|] eqn:Hs; [|lia].
  destruct S as (? & ? & ? & ? & [(_ & ? & _)|[(_ & ? & _)|(Ht & Hhash & Hc)]]); [lia | lia|].
  destruct Hhash as [[_ ?]|[Eh Hp]]; [lia|]. unfold js_weakref_free. rewrite Hs. cbn [mbind option_bind]. rewrite Eh.
  destruct (Z.ltb_spec (weak p) 1); [lia|]. set (rt1 := set_string rt p (with_hash s (weak p - 1))).
  assert (kept rt rt1) as K1 by (apply kept_hash; [done | lia]).
  destruct Hc as [(i & Hi & En & Hc)|(Hr0 & _ & Hr & Hn)].
  - assert (ref_count s <> 0) as Hr by (unfold count_ok in Hc; destruct (permanent i); lia).
    destruct (Z.eqb_spec (ref_count s) 0); [done|]. rewrite andb_false_r. exists rt1. split_and!; [done | | done].
    apply (inv_update rt _ refs weak _ _ p); [done | now apply same_atoms_hash | done | |].
    + intros q Hq. cbn. now rewrite lookup_insert_ne, dec_ne by done.
    + cbn. rewrite lookup_insert_eq, dec_eq. left. split_and!; [done | lia | done | done|]. right; right.
      split_and!; [done | right; cbn; lia | left; exists i; done].
  - rewrite Hr. cbn [Z.eqb]. rewrite andb_true_r. assert (same_atoms rt rt1 /\ same_atoms rt (js_free_rt rt1 p)) as [SA SB].
    { split; [now apply same_atoms_hash|]. split; [done|]. intros i q t [Hq1 Hq2]. exists t. split; [|done]. cbn.
      assert (q <> p) by (intros ->; now destruct (Hn i)). now rewrite lookup_delete_ne, lookup_insert_ne by done. }
    destruct (Z.eqb_spec (weak p - 1) 0) as [E0|E0].
    + exists (js_free_rt rt1 p). split_and!; [done | |].
      * apply (inv_update rt _ refs weak _ _ p); [done | done | done | |].
        -- intros q Hq. cbn. now rewrite lookup_delete_ne, lookup_insert_ne, dec_ne by done.
        -- cbn. rewrite lookup_delete_eq, dec_eq. done.
      * apply kept_update; [done | done|]. intros q t Hq _ Hr'. cbn in Hq. apply lookup_delete_Some in Hq as [Hne Hq].
        rewrite lookup_insert_ne in Hq by done. now exists t.
    + exists rt1. split_and!; [done | | done]. apply (inv_update rt _ refs weak _ _ p); [done | done | done | |].
      * intros q Hq. cbn. now rewrite lookup_insert_ne, dec_ne by done.
      * cbn. rewrite lookup_insert_eq, dec_eq. left. split_and!; [done | lia | done | done|]. right; right.
        split_and!; [done | right; cbn; lia | right; cbn; split_and!; try done; lia].
Qed.
