(* ===== verification/AtomsNew.v ===== *)
(** * Making atoms

    Looking up the hash table, growing it and the array, and adding an atom keep
    the invariant: [__JS_NewAtom] on every path, also when memory runs out. *)

From Stdlib Require Import ZArith Lia Bool.
From stdpp Require Import base numbers list option gmap.
From S2P Require Import Prelude IntPrint JSStrings Atoms AtomsInv AtomsOps.

#[local] Open Scope Z_scope.

(** ** Lookup *)

Lemma find_hashed_ok rt test : forall l fuel h, links (next_of rt) h l -> all_atoms rt l -> (length l < fuel)%nat ->
  exists i, find_hashed fuel rt test h = Some i /\
    ((i = 0 /\ forall j q s, j ∈ l -> holds rt j q s -> test s = false) \/ (i ∈ l /\ exists q s, holds rt i q s /\ test s = true)).
Proof.
  induction l as [|j l IH]; intros [|fuel] h L Hl Hf; try (cbn in Hf; lia); cbn [find_hashed].
  - cbn in L. subst h. exists 0. split; [done|]. left. split; [done|]. intros j q s Hj. now apply elem_of_nil in Hj.
  - destruct L as (-> & Hj & n & Hn & L). destruct (Z.eqb_spec j 0); [done|]. destruct (Hl j) as (q & s & H); [apply list_elem_of_here|].
    rewrite (holds_next rt j q s H) in Hn. injection Hn as <-. rewrite (proj1 (holds_deref rt j q s) H). cbn [mbind option_bind].
    destruct (test s) eqn:Et.
    + exists j. split; [done|]. right. split; [apply list_elem_of_here | eauto].
    + destruct (IH fuel (hash_next s)) as (i & -> & Hi); [done | intros k Hk; apply Hl; now apply list_elem_of_further | cbn in Hf; lia|].
      exists i. split; [done|]. destruct Hi as [[-> Hi]|[Hi Hex]]; [left; split; [done|] | right; split; [now apply list_elem_of_further | done]].
      intros k r t Hk Hkr. apply elem_of_cons in Hk as [->|Hk]; [|eauto]. destruct (holds_inj rt j q s r t H Hkr) as [_ <-]. done.
Qed.

Lemma in_bucket_ok rt test h : table_ok rt -> exists first i, bucket_head rt h = Some first /\ find_hashed (chain_fuel rt) rt test first = Some i /\
  ((i = 0 /\ forall j q s, in_table rt (atom_hash_size rt) (bucket rt h) j -> holds rt j q s -> test s = false) \/
   (in_table rt (atom_hash_size rt) (bucket rt h) i /\ exists q s, holds rt i q s /\ test s = true)).
Proof.
  intros T. destruct (bucket_ok rt h T) as (first & Ef & _ & (l & L & N & E)). exists first.
  assert (all_atoms rt l) as Hl by (eapply in_table_atoms, E).
  destruct (find_hashed_ok rt test l (chain_fuel rt) first L Hl) as (i & Ei & H); [now apply chain_short|]. exists i. split_and!; [done | done|].
  destruct H as [[-> H]|[Hi H]]; [left; split; [done|]; intros j q s Hj; apply H, E, Hj | right; split; [now apply E | done]].
Qed.

(** ** Growing the hash table *)

Lemma kept_up_to rt rt' : (forall q, match strings rt !! q, strings rt' !! q with Some s, Some t => up_to_next s t | None, None => True | _, _ => False end) ->
  (forall i, atom_ptr rt' i = atom_ptr rt i) -> next_address rt <= next_address rt' -> kept rt rt'.
Proof.
  intros Hst Hp Hn. constructor; [done | | | |].
  - intros p _ (t & Ht & Hr). specialize (Hst p). rewrite Ht in Hst. destruct (strings rt !! p) as [s|] eqn:Es; [|done]. exists s. split; [done|].
    apply up_to_next_same in Hst as (_ & _ & _ & <-). done.
  - intros p s t _ _ Hs Ht. specialize (Hst p). rewrite Hs, Ht in Hst. apply up_to_next_same in Hst as (E1 & E2 & E3 & _).
    split_and!; [done | done|]. intros _. now rewrite E3.
  - intros i p _ _ H. now rewrite Hp.
  - intros i p _ H. now rewrite Hp.
Qed.

Section Rehash.
Context (rt0 : JSRuntime) (new_size : Z) (k : Z) (Hk : 0 <= k) (Hsize : new_size = 2 ^ k).
Context (A : array_ok rt0).

(** The atoms of [D] are in the new table [new_hash], the others are where they were. *)
Record rehashing (rt : JSRuntime) (new_hash : list Z) (D : list Z) : Prop := mk_rehashing {
  rh_tables : same_tables rt0 rt /\ next_address rt = next_address rt0 /\ mallocs rt = mallocs rt0;
  rh_strings : forall q, match strings rt0 !! q, strings rt !! q with Some s, Some t => up_to_next s t | None, None => True | _, _ => False end;
  rh_length : length new_hash = Z.to_nat new_size;
  rh_chains : forall b h, new_hash !! b = Some h -> chain_of (next_of rt) h (fun j => j ∈ D /\ in_table rt0 new_size (Z.of_nat b) j);
  rh_rest : forall j, (j ∉ D) -> next_of rt j = next_of rt0 j;
}.

Lemma rehashing_holds rt new_hash D i p s : rehashing rt new_hash D -> holds rt0 i p s -> exists t, holds rt i p t /\ up_to_next s t.
Proof using.
  intros R [H1 H2]. destruct (rh_tables _ _ _ R) as (T & _). pose proof (rh_strings _ _ _ R p) as Hs. rewrite H2 in Hs.
  destruct (strings rt !! p) as [t|] eqn:E; [|done]. exists t. split; [|done]. split; [now rewrite (same_tables_ptr rt0 rt) | done].
Qed.

Lemma rehash_chain_ok l : forall fuel rt h new_hash D, rehashing rt new_hash D -> links (next_of rt0) h l -> NoDup l ->
  (forall j, j ∈ l -> (j ∉ D) /\ exists p s, holds rt0 j p s /\ hashed_type (atom_type s) = true) -> (length l < fuel)%nat ->
  exists rt' new_hash', rehash_chain fuel rt (new_size - 1) h new_hash = Some (rt', new_hash') /\ rehashing rt' new_hash' (l ++ D).
Proof using Hk Hsize A.
  induction l as [|j l IH]; intros [|fuel] rt h new_hash D R L N Hl Hf; try (cbn in Hf; lia); cbn [rehash_chain].
  - cbn in L. subst h. exists rt, new_hash. done.
  - destruct L as (-> & Hj & n & Hn & L). destruct (Z.eqb_spec j 0); [done|]. apply NoDup_cons in N as [Nj N].
    destruct (Hl j) as (Hd & p & s0 & Hs0 & Ht); [apply list_elem_of_here|]. destruct (rehashing_holds rt new_hash D j p s0 R Hs0) as (s & Hs & Hup).
    rewrite (proj1 (holds_deref rt j p s) Hs). cbn [mbind option_bind]. pose proof (up_to_next_same _ _ Hup) as (E1 & _ & E2 & _).
    assert (hash_next s = n) as En. { pose proof (rh_rest _ _ _ R j Hd) as E. rewrite (holds_next rt j p s Hs), Hn in E. now injection E. }
    rewrite En. set (b := Z.land (hash s) (new_size - 1)) in *. assert (0 <= b < new_size) as Hb0.
    { unfold b. rewrite Hsize, land_pow2_mask by done. apply Z.mod_pos_bound, Z.pow_pos_nonneg; lia. }
    destruct (lookup_lt_is_Some_2 new_hash (Z.to_nat b)) as [first Ef]; [rewrite (rh_length _ _ _ R); lia|].
    rewrite Ef. cbn [mbind option_bind]. set (rt1 := set_string rt p (with_hash_next s first)).
    assert (forall i, i <> j -> next_of rt1 i = next_of rt i) as Hnx.
    { intros i Hi. apply next_of_set_ne. destruct (rh_tables _ _ _ R) as (T & _). rewrite (same_tables_ptr rt0 rt) by done. intros Hp.
      apply Hi. eapply ao_inj; [exact A | exact Hp | apply Hs0]. }
    assert (in_table rt0 new_size b j) as Hb by (exists p, s0; split_and!; [done | done | unfold b; congruence]).
    assert (rehashing rt1 (<[Z.to_nat b := j]> new_hash) (j :: D)) as R1.
    { constructor.
      - apply R.
      - intros q. cbn. pose proof (rh_strings _ _ _ R q) as Hq. destruct (decide (q = p)) as [->|Hne]; [|now rewrite lookup_insert_ne].
        rewrite lookup_insert_eq. destruct Hs0 as [_ Hs0]. rewrite Hs0. right. split; [done|]. exists first.
        destruct Hup as [->|(_ & m & ->)]; done.
      - rewrite length_insert. apply R.
      - intros b' h Hh. apply list_lookup_insert_Some in Hh as [(<- & <- & _)|[Hne Hh]].
        + eapply chain_of_ext; [eapply (chain_of_cons _ (next_of rt1)); [exact (rh_chains _ _ _ R _ _ Ef) | now intros [] | done | |] | | done].
          * now apply (next_of_set_eq rt j p (with_hash_next s first)), Hs.
          * cbn. intros i [Hi _]. apply Hnx. now intros ->.
          * cbn. rewrite Z2Nat.id by lia. intros i. rewrite elem_of_cons. split; [intros [->|[]]; auto | intros [[->|] ?]; auto].
        + eapply chain_of_ext; [exact (rh_chains _ _ _ R _ _ Hh) | |].
          * intros i. rewrite elem_of_cons. split; [intros []; auto | intros [[->|] Hi]; [|done]].
            pose proof (in_table_bucket rt0 _ _ _ _ Hi Hb). lia.
          * intros i [Hi _]. apply Hnx. now intros ->.
      - intros i Hi. rewrite elem_of_cons in Hi. rewrite Hnx by (intros ->; apply Hi; now left). apply R. intros ?. apply Hi. now right. }
    destruct (IH fuel rt1 n (<[Z.to_nat b := j]> new_hash) (j :: D) R1 L N) as (rt' & nh' & -> & R'); [|cbn in Hf; lia|].
    + intros i Hi. destruct (Hl i) as (Hid & Hex); [now apply list_elem_of_further|]. split; [|done]. rewrite elem_of_cons. intros [->|]; done.
    + exists rt', nh'. split; [done|]. destruct R'. constructor; try done.
      * intros b' h Hh. eapply chain_of_ext; [exact (rh_chains0 b' h Hh) | |done]. cbn. intros i. rewrite !elem_of_app, !elem_of_cons, elem_of_app. tauto.
      * intros i Hi. apply rh_rest0. rewrite elem_of_app, elem_of_cons. rewrite elem_of_app, elem_of_cons in Hi. tauto.
Qed.

Lemma rehash_atoms_ok heads : table_ok rt0 -> forall (n : nat) rt new_hash D, (forall m h, heads !! m = Some h -> atom_hash rt0 !! (n + m)%nat = Some h) ->
  rehashing rt new_hash D -> (forall j, j ∈ D <-> exists b : nat, (b < n)%nat /\ in_table rt0 (atom_hash_size rt0) (Z.of_nat b) j) ->
  exists rt' new_hash' D', rehash rt (new_size - 1) heads new_hash = Some (rt', new_hash') /\ rehashing rt' new_hash' D' /\
    forall j, j ∈ D' <-> exists b : nat, (b < n + length heads)%nat /\ in_table rt0 (atom_hash_size rt0) (Z.of_nat b) j.
Proof using Hk Hsize A.
  intros T. induction heads as [|h heads IH]; intros n rt new_hash D Hh R HD; cbn [rehash].
  - exists rt, new_hash, D. rewrite Nat.add_0_r. done.
  - pose proof (Hh 0%nat h eq_refl) as H0. rewrite Nat.add_0_r in H0. destruct (to_chains rt0 T n h H0) as (l & L & N & E).
    destruct (rehash_chain_ok l (chain_fuel rt) rt h new_hash D R L N) as (rt1 & nh1 & -> & R1).
    + intros j Hj. apply E in Hj. split; [|destruct Hj as (p & s & ? & ? & _); eauto]. rewrite HD. intros (b & Hb & Hin).
      pose proof (in_table_bucket rt0 _ _ _ _ Hj Hin). lia.
    + assert (chain_fuel rt = chain_fuel rt0) as -> by (unfold chain_fuel; destruct (rh_tables _ _ _ R) as ((_ & _ & _ & _ & _ & -> & _) & _); done).
      apply chain_short; [done|]. eapply in_table_atoms, E.
    + cbn [mbind option_bind]. destruct (IH (S n) rt1 nh1 (l ++ D)) as (rt' & nh' & D' & E' & R' & HD'); [|done| |].
      * intros m x Hm. replace (S n + m)%nat with (n + S m)%nat by lia. now apply Hh.
      * intros j. rewrite elem_of_app, E, HD. split.
        -- intros [Hj|(b & Hb & Hj)]; [exists n; split; [lia | done] | exists b; split; [lia | done]].
        -- intros (b & Hb & Hj). destruct (decide (b = n)) as [->|]; [now left | right]. exists b. split; [lia | done].
      * exists rt', nh', D'. split_and!; [done | done|]. intros j. rewrite HD'. cbn [length]. now replace (S n + length heads)%nat with (n + S (length heads))%nat by lia.
Qed.
End Rehash.

(** The empty table *)
Lemma rehashing_start rt new_size : 0 <= new_size -> rehashing rt new_size rt (replicate (Z.to_nat new_size) 0) [].
Proof.
  intros H. constructor; [done | | apply length_replicate | | done].
  - intros q. destruct (strings rt !! q); [now left | done].
  - intros b h Hh. apply lookup_replicate in Hh as [-> _]. apply chain_of_nil. intros i [Hi _]. now apply elem_of_nil in Hi.
Qed.

Lemma pow2_land k : 0 <= k -> Z.land (2 ^ k) (2 ^ k - 1) = 0.
Proof. intros Hk. rewrite land_pow2_mask by done. apply Z.mod_same. pose proof (Z.pow_pos_nonneg 2 k). lia. Qed.

Lemma resize_hash_ok rt refs weak k : inv rt refs weak -> 0 <= k -> 2 ^ k <= Z.max 512 (atom_size rt) ->
  exists r rt', JS_ResizeAtomHash rt (2 ^ k) = Some (r, rt') /\ inv rt' refs weak /\ kept rt rt' /\
    atom_array rt' = atom_array rt /\ atom_size rt' = atom_size rt /\ atom_free_index rt' = atom_free_index rt /\
    (forall q, match strings rt !! q, strings rt' !! q with Some s, Some t => up_to_next s t | None, None => True | _, _ => False end).
Proof.
  intros I Hk Hmax. unfold JS_ResizeAtomHash. rewrite (pow2_land k Hk). cbn [Z.eqb negb].
  destruct (js_malloc_rt rt) as [m rt1] eqn:Em. destruct (malloc_ok rt refs weak _ _ I Em) as (I1 & K1 & T1 & S1 & _).
  pose proof T1 as (F1 & F2 & F3 & F4 & F5 & F6 & F7). destruct m as [m|].
  2: { exists (-1), rt1. split_and!; try done. intros q. rewrite S1. destruct (strings rt !! q); [now left | done]. }
  pose proof (inv_array _ _ _ I1) as A1. pose proof (inv_table _ _ _ I1) as Tb1. assert (0 <= 2 ^ k) as Hp by (apply Z.pow_nonneg; lia).
  destruct (rehash_atoms_ok rt1 (2 ^ k) k Hk eq_refl A1 (atom_hash rt1) Tb1 0 rt1 (replicate (Z.to_nat (2 ^ k)) 0) []) as (rt2 & nh & D & E & R & HD);
    [done | now apply rehashing_start | intros j; split; [now intros ?%elem_of_nil | intros (b & ? & _); lia] |].
  rewrite E. cbn [mbind option_bind]. eexists _, _. split; [reflexivity|]. destruct (rh_tables _ _ _ _ _ R) as ((G1 & G2 & G3 & G4 & G5 & G6 & G7) & Hn & _).
  set (rt' := with_atom_hash rt2 (2 ^ k) (JS_ATOM_COUNT_RESIZE (2 ^ k)) nh).
  pose proof (rh_strings _ _ _ _ _ R) as Hst. assert (2 ^ k < 2 ^ 30) as Hsz by (pose proof (ao_size _ A1) as [? _]; unfold JS_ATOM_MAX in *; lia).
  assert (forall i, atom_ptr rt' i = atom_ptr rt1 i) as Hptr by (intros i; unfold atom_ptr, slot; cbn; now rewrite G6).
  assert (forall i p s, holds rt1 i p s -> exists t, holds rt' i p t /\ up_to_next s t) as Hup.
  { intros i p s [Hp1 Hp2]. specialize (Hst p). rewrite Hp2 in Hst. destruct (strings rt2 !! p) as [t|] eqn:Et; [|done]. exists t.
    split; [split; [now rewrite Hptr | done] | done]. }
  assert (forall i p t, holds rt' i p t -> exists s, holds rt1 i p s /\ up_to_next s t) as Hdown.
  { intros i p t [Hp1 Hp2]. rewrite Hptr in Hp1. specialize (Hst p). cbn in Hp2. rewrite Hp2 in Hst. destruct (strings rt1 !! p) as [s|] eqn:Es; [|done].
    exists s. done. }
  split_and!; [| | | | |].
  - constructor.
    + intros p. pose proof (inv_structs _ _ _ I1 p) as S. specialize (Hst p). cbn. destruct (strings rt1 !! p) as [s|], (strings rt2 !! p) as [t|]; try done.
      apply (struct_ok_up_to _ _ _ _ s); [done|]. eapply struct_ok_ext; [| |exact S]; [intros i; now rewrite Hptr | cbn; lia].
    + apply (array_ok_types rt1); try done. intros i p s H. destruct (Hup i p s H) as (t & [_ Ht] & E'). exists t. split; [done|].
      now apply up_to_next_same in E' as (-> & _).
    + constructor; cbn.
      * now exists k.
      * rewrite G3, F3. done.
      * unfold JS_ATOM_COUNT_RESIZE. rewrite sgn_small; [lia | lia|]. unfold in_s. lia.
      * apply R.
      * intros b h Hh. eapply chain_of_ext; [exact (rh_chains _ _ _ _ _ R b h Hh) | | done]. cbn. intros i. rewrite HD. split.
        -- intros (_ & p & s & H & Ht & Hb). destruct (Hup i p s H) as (t & H' & E'). apply up_to_next_same in E' as (E1 & _ & E2 & _).
           exists p, t. split_and!; [done | congruence | congruence].
        -- intros (p & t & H & Ht & Hb). destruct (Hdown i p t H) as (s & H' & E'). apply up_to_next_same in E' as (E1 & _ & E2 & _).
           split; [|exists p, s; split_and!; [done | congruence | congruence]].
           destruct (bucket_ok rt1 (hash s) Tb1) as (first & Ef & Hb0 & _). exists (Z.to_nat (bucket rt1 (hash s))).
           split; [unfold bucket_head in Ef; now apply lookup_lt_Some in Ef|]. rewrite Z2Nat.id by done. exists p, s. split_and!; [done | congruence | done].
    + apply (unique_atoms_types rt1); [apply I1|]. intros i p t H. destruct (Hdown i p t H) as (s & ? & E'). apply up_to_next_same in E' as (? & ? & _). now exists s.
  - eapply kept_trans; [exact K1|]. apply kept_up_to; [exact Hst | exact Hptr | cbn; lia].
  - cbn. congruence.
  - cbn. congruence.
  - cbn. congruence.
  - intros q. specialize (Hst q). rewrite S1 in Hst. exact Hst.
Qed.

(** ** Growing the array *)

Definition next_free (new_size i : Z) : Z := if i =? new_size - 1 then 0 else i + 1.

Lemma free_slots_lookup start new_size (j : nat) : start + Z.of_nat j < new_size ->
  free_slots start new_size !! j = Some (AtomFree (next_free new_size (start + Z.of_nat j))).
Proof.
  intros H. unfold free_slots. change (map ?f ?l) with (f <$> l). rewrite list_lookup_fmap, (proj2 (lookup_seqZ start (new_size - start) j (start + Z.of_nat j))) by lia.
  done.
Qed.

Lemma free_slots_length start new_size : length (free_slots start new_size) = Z.to_nat (new_size - start).
Proof. unfold free_slots. rewrite length_map. apply length_seqZ. Qed.

Lemma free_slots_none start new_size (j : nat) : new_size <= start + Z.of_nat j -> free_slots start new_size !! j = None.
Proof. intros H. apply lookup_ge_None_2. rewrite free_slots_length. lia. Qed.

Lemma free_links nx new_size (n : nat) : forall start, 0 < start -> start + Z.of_nat n = new_size -> (0 < n)%nat ->
  (forall i, start <= i < new_size -> nx i = Some (next_free new_size i)) -> links nx start (seqZ start (Z.of_nat n)).
Proof.
  induction n as [|n IH]; intros start H0 Hn Hpos Hnx; [lia|]. rewrite seqZ_cons by lia. cbn [links]. split_and!; [done | lia|].
  exists (next_free new_size start). split; [apply Hnx; lia|]. unfold next_free. replace (Z.pred (Z.of_nat (S n))) with (Z.of_nat n) by lia.
  destruct n as [|n].
  - destruct (Z.eqb_spec start (new_size - 1)); [done | lia].
  - destruct (Z.eqb_spec start (new_size - 1)); [lia|]. apply IH; [lia | lia | lia|]. intros i Hi. apply Hnx. lia.
Qed.

(** [rt'] is [rt] with free elements from [start], which is the number of elements that are taken. *)
Lemma free_range_chain rt start new_size : 0 < start < new_size -> atom_free_index rt = start ->
  (forall i n, free_of rt i = Some n <-> start <= i < new_size /\ n = next_free new_size i) ->
  chain_of (free_of rt) (atom_free_index rt) (fun i => is_Some (free_of rt i)).
Proof.
  intros Hs -> Hf. exists (seqZ start (new_size - start)). split_and!.
  - replace (new_size - start) with (Z.of_nat (Z.to_nat (new_size - start))) by lia. apply (free_links _ new_size); [lia | lia | lia|].
    intros i Hi. now apply Hf.
  - apply NoDup_seqZ.
  - intros i. rewrite elem_of_seqZ. split.
    + intros Hi. exists (next_free new_size i). apply Hf. split; [lia | done].
    + intros [n Hn]. apply Hf in Hn. lia.
Qed.

Lemma live_count_app l l' : live_count (l ++ l') = (live_count l + live_count l')%nat.
Proof. unfold live_count. now rewrite filter_app, length_app. Qed.

Lemma live_count_free start new_size : live_count (free_slots start new_size) = 0%nat.
Proof. unfold live_count, free_slots. induction (seqZ start (new_size - start)) as [|i l IH]; [done|]. exact IH. Qed.

Lemma new_atom_size_gt size : 0 <= size -> size * 3 < 2 ^ 31 -> size < new_atom_size size /\ 711 <= new_atom_size size.
Proof.
  intros H H3. unfold new_atom_size. rewrite sgn_small by (unfold in_s; lia). rewrite Z.quot_div_nonneg by lia.
  pose proof (Z.div_mod (size * 3) 2). pose proof (Z.mod_pos_bound (size * 3) 2). lia.
Qed.

(** What growing keeps *)
Record grown (rt rt' : JSRuntime) : Prop := mk_grown {
  gr_strings : forall p s, strings rt !! p = Some s -> strings rt' !! p = Some s;
  gr_hash : atom_hash rt' = atom_hash rt /\ atom_hash_size rt' = atom_hash_size rt;
  gr_holds : forall i p s, holds rt' i p s -> i <> 0 -> holds rt i p s;
  gr_free : atom_free_index rt' <> 0;
}.

Lemma grow_first_ok rt rt1 rt2 refs weak q p : inv rt refs weak -> atom_size rt = 0 -> js_malloc_rt rt = (q, rt1) -> js_malloc_rt rt1 = (Some p, rt2) ->
  let rt' := with_atom_array (set_string rt2 p null_atom) (atom_count rt2 + 1) 711 (AtomPtr p :: free_slots 1 711) 1 in
  inv rt' refs weak /\ kept rt rt' /\ grown rt rt'.
Proof.
  intros I E0 E1 E2 rt'. destruct (malloc_ok rt refs weak _ _ I E1) as (I1 & K1 & T1 & S1 & _).
  destruct (malloc_ok rt1 refs weak _ _ I1 E2) as (I2 & K2 & T2 & S2 & (Ep & Ep' & Hp)). pose proof (atom_tables_trans _ _ _ T1 T2) as T.
  pose proof T as (F1 & F2 & F3 & F4 & F5 & F6 & F7). pose proof (inv_array _ _ _ I) as A. pose proof (ao_size _ A) as [_ El].
  rewrite E0 in El. apply length_zero_iff_nil in El. assert (forall i, slot rt i = None) as Hnone.
  { intros i. unfold slot. rewrite El. now destruct (i <? 0). }
  assert (forall i s, slot rt' i = Some s <-> (i = 0 /\ s = AtomPtr p) \/ (1 <= i < 711 /\ s = AtomFree (next_free 711 i))) as Hslot.
  { intros i s. unfold slot. cbn [atom_array rt' with_atom_array]. destruct (Z.ltb_spec i 0); [split; [done | intros [[? _]|[? _]]; lia]|].
    destruct (Z.to_nat i) as [|j] eqn:Ej; cbn [lookup list_lookup].
    - split; [intros [= <-]; left; split; [lia | done] | intros [[_ ->]|[? _]]; [done | lia]].
    - change (list_lookup j (free_slots 1 711)) with (free_slots 1 711 !! j). destruct (decide (i < 711)) as [Hlt|Hge].
      + rewrite free_slots_lookup by lia. replace (1 + Z.of_nat j) with i by lia. split; [intros [= <-]; right; split; [lia | done] | intros [[? _]|[_ ->]]; [lia | done]].
      + rewrite free_slots_none by lia. split; [done | intros [[? _]|[? _]]; lia]. }
  assert (forall i r, atom_ptr rt' i = Some r <-> i = 0 /\ r = p) as Hptr.
  { intros i r. rewrite ptr_slot, Hslot. split; [intros [[? [= ->]]|[_ ?]]; done | intros [-> ->]; now left]. }
  assert (forall i n, free_of rt' i = Some n <-> 1 <= i < 711 /\ n = next_free 711 i) as Hfree.
  { intros i n. rewrite free_slot, Hslot. split; [intros [[_ ?]|[? [= ->]]]; done | intros [? ->]; now right]. }
  assert (forall b r i, ~ in_table rt b r i) as Hnt.
  { intros b r i (r' & s & [H _] & _). unfold atom_ptr in H. now rewrite Hnone in H. }
  assert (strings rt !! p = None) as Hpn by now rewrite <- S1.
  pose proof (inv_structs _ _ _ I p) as Sp. rewrite Hpn in Sp. destruct Sp as [Sp1 Sp2].
  assert (next_address rt' = p + 1) as Hn by done. assert (next_address rt <= p) as Hn' by (pose proof (k_next _ _ K1); lia).
  split_and!.
  - constructor.
    + intros r. cbn [strings rt' with_atom_array set_string with_strings]. destruct (decide (r = p)) as [->|Hne].
      * rewrite lookup_insert_eq, Sp1, Sp2. split_and!; [lia | lia | lia | constructor|]. right; right. split_and!; [done | right; done|].
        left. exists 0. split_and!; [now apply Hptr | done | done].
      * rewrite lookup_insert_ne, S2, S1 by done. pose proof (inv_structs _ _ _ I r) as S. destruct (strings rt !! r); [|done].
        eapply struct_ok_ext; [| |exact S]; [|lia]. intros i. rewrite Hptr. unfold atom_ptr. rewrite Hnone. split; [now intros [_ ->] | done].
    + constructor.
      * cbn. split; [unfold JS_ATOM_MAX; lia|]. rewrite free_slots_length. done.
      * intros i r Hr. apply Hptr in Hr as [-> ->]. exists null_atom. cbn. now rewrite lookup_insert_eq.
      * intros i j r Hi Hj. apply Hptr in Hi as [-> _], Hj as [-> _]. done.
      * intros _. exists p, null_atom. split; [split; [now apply Hptr | cbn; now rewrite lookup_insert_eq] | done].
      * apply (free_range_chain rt' 1 711); [lia | done | done].
      * cbn [atom_count rt' with_atom_array atom_array]. rewrite F2, (ao_count rt A), El. done.
    + pose proof (inv_table _ _ _ I) as Tb. constructor; cbn [atom_hash_size atom_size atom_count_resize atom_hash rt' with_atom_array set_string with_strings]; rewrite ?F1, ?F4, ?F5.
      * apply Tb.
      * pose proof (to_bound _ Tb). lia.
      * apply Tb.
      * apply Tb.
      * intros b h Hh. eapply chain_of_ext; [exact (to_chains rt Tb b h Hh) | |intros i Hi; now destruct (Hnt _ _ _ Hi)].
        intros i. split; [intros Hi; now destruct (Hnt _ _ _ Hi)|]. intros (r & s & [H1 H2] & Ht & _). apply Hptr in H1 as [-> ->].
        cbn in H2. rewrite lookup_insert_eq in H2. injection H2 as <-. done.
    + intros i j r r' s t [H1 H2] [H3 _] _ _ _. apply Hptr in H1 as [-> _], H3 as [-> _]. done.
  - constructor.
    + lia.
    + intros r Hr (s & Hs & Hc). cbn in Hs. rewrite lookup_insert_ne, S2, S1 in Hs by lia. now exists s.
    + intros r s t Hr _ Hs Ht. cbn in Ht. rewrite lookup_insert_ne, S2, S1 in Ht by lia. assert (s = t) as -> by congruence. done.
    + intros i r _ _ H. unfold atom_ptr in H. now rewrite Hnone in H.
    + intros i r _ H. unfold atom_ptr in H. now rewrite Hnone in H.
  - constructor; cbn [strings rt' with_atom_array set_string with_strings atom_hash atom_hash_size atom_free_index].
    + intros r s Hs. rewrite lookup_insert_ne, S2, S1; [done|]. intros ->. congruence.
    + now rewrite F5, F1.
    + intros i r s [H1 _] Hi. now apply Hptr in H1 as [-> _].
    + done.
Qed.

Section GrowMore.
Context (rt rt1 : JSRuntime) (refs weak : Z -> Z) (q new_size : Z).
Context (I : inv rt refs weak) (Hpos : 0 < atom_size rt) (Hfree0 : atom_free_index rt = 0).
Context (Hnew : atom_size rt < new_size) (Hmax : new_size <= JS_ATOM_MAX) (E1 : js_malloc_rt rt = (Some q, rt1)).

Let rt' : JSRuntime := with_atom_array rt1 (atom_count rt1) new_size (take (Z.to_nat new_size) (atom_array rt1) ++ free_slots (atom_size rt) new_size) (atom_size rt).

(** No element is free. *)
Lemma full_array i : free_of rt i = None.
Proof using I Hfree0.
  destruct (ao_free rt (inv_array _ _ _ I)) as (l & L & _ & E). rewrite Hfree0 in L. destruct l as [|j l]; [|now destruct L as (<- & [] & _)].
  destruct (free_of rt i) eqn:Ef; [|done]. exfalso. assert (i ∈ ([] : list Z)) as H by (apply E; now rewrite Ef). now apply elem_of_nil in H.
Qed.

Lemma grow_more_slot i : slot rt' i = if decide (atom_size rt <= i < new_size) then Some (AtomFree (next_free new_size i)) else slot rt i.
Proof using I Hpos Hnew E1.
  destruct (malloc_ok rt refs weak _ _ I E1) as (_ & _ & (_ & _ & _ & _ & _ & F6 & _) & _). pose proof (ao_size rt (inv_array _ _ _ I)) as [_ El].
  unfold slot, rt'. cbn [atom_array with_atom_array]. rewrite F6, take_ge by lia. destruct (Z.ltb_spec i 0).
  { destruct (decide _); [lia | done]. }
  destruct (decide (i < atom_size rt)) as [Hlt|Hge].
  - rewrite lookup_app_l by lia. destruct (decide _); [lia | done].
  - rewrite lookup_app_r by lia. destruct (decide (atom_size rt <= i < new_size)) as [Hr|Hr].
    + rewrite free_slots_lookup by lia. do 3 f_equal. lia.
    + rewrite free_slots_none by lia. rewrite lookup_ge_None_2 by lia. done.
Qed.

Lemma grow_more_ptr i : atom_ptr rt' i = atom_ptr rt i.
Proof using I Hpos Hnew E1.
  unfold atom_ptr. rewrite grow_more_slot. destruct (decide _) as [Hr|]; [|done]. pose proof (ao_size rt (inv_array _ _ _ I)) as [_ El].
  unfold slot. destruct (i <? 0); [done|]. now rewrite lookup_ge_None_2 by lia.
Qed.

Lemma grow_more_ok : inv rt' refs weak /\ kept rt rt' /\ grown rt rt'.
Proof using All.
  destruct (malloc_ok rt refs weak _ _ I E1) as (I1 & K1 & T1 & S1 & _). pose proof T1 as (F1 & F2 & F3 & F4 & F5 & F6 & F7).
  pose proof (ao_size rt (inv_array _ _ _ I)) as [Hsz El]. pose proof (inv_array _ _ _ I) as A. pose proof (inv_table _ _ _ I) as Tb.
  assert (strings rt' = strings rt) as Est by exact S1. assert (next_address rt <= next_address rt') as Hn by apply K1.
  assert (forall i p s, holds rt' i p s <-> holds rt i p s) as Hh by (intros i p s; unfold holds; now rewrite grow_more_ptr, Est).
  assert (forall b r i, in_table rt' b r i <-> in_table rt b r i) as Ht by (intros b r i; unfold in_table; now setoid_rewrite Hh).
  split_and!.
  - constructor.
    + intros p. rewrite Est. pose proof (inv_structs _ _ _ I p) as S. destruct (strings rt !! p); [|done].
      eapply struct_ok_ext; [|exact Hn | exact S]. intros i. now rewrite grow_more_ptr.
    + constructor.
      * cbn. rewrite length_app, length_take, free_slots_length, F6. lia.
      * intros i p. rewrite grow_more_ptr, Est. apply A.
      * intros i j p. rewrite !grow_more_ptr. apply A.
      * intros _. setoid_rewrite Hh. now apply A.
      * apply (free_range_chain rt' (atom_size rt) new_size); [lia | done|]. intros i n. rewrite free_slot, grow_more_slot.
        destruct (decide _) as [Hr|Hr]; [split; [now intros [= <-] | now intros [_ ->]]|]. rewrite <- free_slot, full_array. split; [done | now intros []].
      * cbn [atom_count rt' with_atom_array atom_array]. rewrite F2, (ao_count rt A), F6, take_ge by lia. fold (live_count (atom_array rt)).
        change (length (filter _ ?l)) with (live_count l). rewrite live_count_app, live_count_free. lia.
    + constructor; cbn [atom_hash_size atom_size atom_count_resize atom_hash rt' with_atom_array]; rewrite ?F1, ?F4, ?F5.
      * apply Tb.
      * pose proof (to_bound _ Tb). lia.
      * apply Tb.
      * apply Tb.
      * intros b h Hb. eapply chain_of_ext; [exact (to_chains rt Tb b h Hb) | |]; intros i; [now rewrite Ht|]. intros _.
        unfold next_of, deref. now rewrite grow_more_ptr, Est.
    + intros i j p r s t Hs Hr. apply Hh in Hs, Hr. apply (inv_unique _ _ _ I i j p r s t Hs Hr).
  - constructor; [done | | | |].
    + intros p _ (s & Hs & Hr). rewrite Est in Hs. now exists s.
    + intros p s t _ _ Hs Hr. rewrite Est in Hr. assert (s = t) as -> by congruence. done.
    + intros i p _ _. now rewrite grow_more_ptr.
    + intros i p _. now rewrite grow_more_ptr.
  - constructor; cbn [atom_hash atom_hash_size atom_free_index rt' with_atom_array].
    + intros p s. now rewrite Est.
    + done.
    + intros i p s H _. now apply Hh.
    + lia.
Qed.
End GrowMore.

Lemma grown_fewer rt rt' : grown rt rt' -> fewer 0 rt rt'.
Proof. intros G j q t H H0 _. exists t. split; [now apply (gr_holds _ _ G) | done]. Qed.

Lemma grow_atom_array_ok rt refs weak b rt' : inv rt refs weak -> atom_size rt * 3 < 2 ^ 31 -> grow_atom_array rt = (b, rt') ->
  inv rt' refs weak /\ kept rt rt' /\ fewer 0 rt rt' /\ (b = true -> grown rt rt').
Proof.
  intros I H3. pose proof (ao_size rt (inv_array _ _ _ I)) as [Hsz _]. unfold grow_atom_array.
  destruct (Z.eqb_spec (atom_free_index rt) 0) as [E|E]; cbn [negb].
  2: { intros [= <- <-]. split_and!; [done | apply kept_refl | apply fewer_refl|]. intros _. constructor; done. }
  destruct (new_atom_size_gt (atom_size rt)) as [Hgt H711]; [lia | done|]. destruct (Z.ltb_spec JS_ATOM_MAX (new_atom_size (atom_size rt))).
  { intros [= <- <-]. split_and!; [done | apply kept_refl | apply fewer_refl | done]. }
  destruct (js_malloc_rt rt) as [[q|] rt1] eqn:E1.
  2: { intros [= <- <-]. destruct (malloc_ok rt refs weak _ _ I E1) as (I1 & K1 & T1 & S1 & _).
    split_and!; [done | done | now apply same_strings_fewer | done]. }
  destruct (malloc_ok rt refs weak _ _ I E1) as (I1 & K1 & T1 & S1 & _). assert (atom_size rt1 = atom_size rt) as F3 by apply T1. rewrite F3.
  destruct (Z.eqb_spec (atom_size rt) 0) as [E0|E0].
  - destruct (js_malloc_rt rt1) as [[p|] rt2] eqn:E2; intros [= <- <-].
    + destruct (grow_first_ok rt rt1 rt2 refs weak _ p I E0 E1 E2) as (? & ? & G). rewrite E0. change (new_atom_size 0) with 711.
      split_and!; [done | done | now apply grown_fewer | done].
    + destruct (malloc_ok rt1 refs weak _ _ I1 E2) as (I2 & K2 & T2 & S2 & _). split_and!; [done | exact (kept_trans rt rt1 rt2 K1 K2) | | done].
      apply same_strings_fewer; [exact (atom_tables_trans _ _ _ T1 T2) | congruence].
  - intros [= <- <-]. destruct (grow_more_ok rt rt1 refs weak q (new_atom_size (atom_size rt))) as (? & ? & G); try done; try lia.
    split_and!; [done | done | now apply grown_fewer | done].
Qed.

(** ** Adding an atom *)

(** The string [p] becomes the atom [i], with the structure [s']. *)
Record inserted (rt rt' : JSRuntime) (i p : Z) (s' : JSAtomStruct) : Prop := mk_inserted {
  i_sizes : atom_size rt' = atom_size rt /\ atom_hash_size rt' = atom_hash_size rt /\ atom_count_resize rt' = atom_count_resize rt /\
            next_address rt' = next_address rt /\ length (atom_hash rt') = length (atom_hash rt) /\ atom_count rt' = atom_count rt + 1;
  i_array : atom_array rt' = <[Z.to_nat i := AtomPtr p]> (atom_array rt);
  i_free : free_of rt i = Some (atom_free_index rt');
  i_strings : forall q, q <> p -> strings rt' !! q = strings rt !! q;
  i_self : strings rt' !! p = Some s';
  i_chains : forall b h, atom_hash rt' !! b = Some h ->
    chain_of (next_of rt') h (fun j => in_table rt (atom_hash_size rt) (Z.of_nat b) j \/
      j = i /\ hashed_type (atom_type s') = true /\ Z.land (hash s') (atom_hash_size rt - 1) = Z.of_nat b);
}.

(** What the structure of a new atom is *)
Definition new_struct_ok (rt : JSRuntime) (i : Z) (s' : JSAtomStruct) : Prop :=
  (hashed_type (atom_type s') = true /\ hash s' = string_hash (content s') (atom_type s') /\
     (permanent i = true -> atom_type s' = JS_ATOM_TYPE_STRING) /\
     (forall j q u, holds rt j q u -> atom_type u = atom_type s' -> str (content u) <> str (content s'))) \/
  (atom_type s' = JS_ATOM_TYPE_SYMBOL /\ (hash s' = JS_ATOM_HASH_PRIVATE \/ hash s' = 0) /\ hash_next s' = i).

Section Inserted.
Context (rt rt' : JSRuntime) (refs weak : Z -> Z) (i p : Z) (s s' : JSAtomStruct).
Context (I : inv rt refs weak) (Hs : strings rt !! p = Some s) (Ht : atom_type s = 0).
Context (Hi : i = atom_free_index rt) (Hi0 : i <> 0) (N : inserted rt rt' i p s').
Context (Hc : content s' = content s) (Hr : ref_count s' = ref_count s) (Hok : new_struct_ok rt i s').

Lemma inserted_slot_range : slot rt i = Some (AtomFree (atom_free_index rt')) /\ 0 < i < Z.of_nat (length (atom_array rt)).
Proof using All. pose proof (i_free _ _ _ _ _ N) as H. apply free_slot in H. split; [done|]. apply slot_range in H. lia. Qed.

Lemma inserted_slot k : slot rt' k = if decide (k = i) then Some (AtomPtr p) else slot rt k.
Proof using All.
  destruct inserted_slot_range as [_ Hrange]. unfold slot. rewrite (i_array _ _ _ _ _ N).
  destruct (decide (k = i)) as [->|Hne]; (destruct (Z.ltb_spec k 0) || destruct (Z.ltb_spec i 0)); try lia; [|done|].
  - apply list_lookup_insert_eq. lia.
  - apply list_lookup_insert_ne. lia.
Qed.

Lemma inserted_ptr k q : atom_ptr rt' k = Some q <-> (k = i /\ q = p) \/ atom_ptr rt k = Some q.
Proof using All.
  destruct inserted_slot_range as [Hsl _]. rewrite !ptr_slot, inserted_slot. destruct (decide (k = i)) as [->|Hne].
  - rewrite Hsl. split; [intros [= ->]; now left | intros [[_ ->]|]; done].
  - split; [now right | now intros [[]|]].
Qed.

Lemma plain_not_atom k : atom_ptr rt k <> Some p.
Proof using All. intros H. destruct (ao_live rt (inv_array _ _ _ I) k p H) as (t & Et & ?). congruence. Qed.

Lemma inserted_holds k q t : holds rt' k q t <-> (k = i /\ q = p /\ t = s') \/ holds rt k q t.
Proof using All.
  unfold holds at 1. rewrite inserted_ptr. split.
  - intros [[[-> ->]|Hk] Hq]; [left; rewrite (i_self _ _ _ _ _ N) in Hq; split_and!; congruence|]. right. split; [done|].
    rewrite <- (i_strings _ _ _ _ _ N); [done|]. intros ->. now apply plain_not_atom in Hk.
  - intros [(-> & -> & ->)|[Hk Hq]]; [split; [now left | apply N]|]. split; [now right|].
    rewrite (i_strings _ _ _ _ _ N); [done|]. intros ->. now apply plain_not_atom in Hk.
Qed.

Lemma inserted_in_table size b k : in_table rt' size b k <-> in_table rt size b k \/ k = i /\ hashed_type (atom_type s') = true /\ Z.land (hash s') (size - 1) = b.
Proof using All.
  unfold in_table. split.
  - intros (q & t & [(-> & -> & ->)|H]%inserted_holds & Hh & Hb); [now right | left; eauto].
  - intros [(q & t & H & Hh & Hb)|(-> & Hh & Hb)]; [exists q, t | exists p, s']; (split; [apply inserted_holds; auto | done]).
Qed.

Lemma inserted_array_ok : array_ok rt'.
Proof using All.
  pose proof (i_sizes _ _ _ _ _ N) as (E1 & _ & _ & _ & _ & E2). destruct inserted_slot_range as [Hsl Hrange]. pose proof (inv_array _ _ _ I) as A. constructor.
  - rewrite E1, (i_array _ _ _ _ _ N), length_insert. apply A.
  - intros k q Hk. apply inserted_ptr in Hk as [[-> ->]|Hk].
    + exists s'. split; [apply N|]. destruct Hok as [(H & _)|(H & _)]; intros E; rewrite E in H; done.
    + destruct (ao_live rt A k q Hk) as (t & Et & ?). exists t. split; [|done]. rewrite (i_strings _ _ _ _ _ N); [done|]. intros ->. now apply plain_not_atom in Hk.
  - intros j k q Hj Hk. apply inserted_ptr in Hj, Hk. destruct Hj as [[-> ->]|Hj], Hk as [[-> Eq]|Hk]; try done.
    + now apply plain_not_atom in Hk.
    + subst q. now apply plain_not_atom in Hj.
    + eapply ao_inj; eauto.
  - rewrite E1. intros H. destruct (ao_null rt A H) as (q & t & Hq & Htq). exists q, t. split; [|done]. apply inserted_holds. now right.
  - assert (forall k, k <> i -> free_of rt' k = free_of rt k) as Ef.
    { intros k Hk. unfold free_of. rewrite inserted_slot. now destruct (decide (k = i)). }
    assert (free_of rt' i = None) as Hn by (unfold free_of; rewrite inserted_slot; now destruct (decide (i = i))).
    pose proof (ao_free rt A) as C. rewrite <- Hi in C. destruct (chain_of_tail _ _ _ C Hi0) as (_ & n & En & C').
    rewrite (i_free _ _ _ _ _ N) in En. injection En as <-. eapply chain_of_ext; [exact C' | |].
    + intros k. cbn. destruct (decide (k = i)) as [->|Hne]; [rewrite Hn; split; [now intros [] | now intros []]|]. rewrite Ef by done. split; [now intros [] | done].
    + cbn. intros k [_ Hk]. now apply Ef.
  - rewrite E2, (i_array _ _ _ _ _ N), (ao_count rt A). fold (live_count (atom_array rt)).
    change (length (filter _ (<[Z.to_nat i := AtomPtr p]> (atom_array rt)))) with (live_count (<[Z.to_nat i := AtomPtr p]> (atom_array rt))).
    unfold slot in Hsl. destruct (Z.ltb_spec i 0); [done|]. pose proof (live_count_insert _ _ _ (AtomPtr p) Hsl). cbn in *. lia.
Qed.

Lemma inserted_struct : struct_ok rt' p (if permanent i then refs p - 1 else refs p) (weak p) s'.
Proof using All.
  pose proof (inv_struct rt refs weak p s I Hs) as (H1 & H2 & H3 & H4 & H5). pose proof (i_sizes _ _ _ _ _ N) as (_ & _ & _ & En & _).
  assert (weak p = 0 /\ 0 < refs p /\ ref_count s = refs p) as (Hw & Hrp & Hrc).
  { destruct H5 as [(_ & ? & ? & ? & _)|[(E & _)|(E & _)]]; [done | now rewrite Ht in E | now rewrite Ht in E]. }
  assert (atom_ptr rt' i = Some p) as Hp by (apply inserted_ptr; now left). destruct inserted_slot_range as [_ Hrange].
  assert (count_ok i (if permanent i then refs p - 1 else refs p) (ref_count s')) as Hcount by (unfold count_ok; rewrite Hr, Hrc; destruct (permanent i); lia).
  rewrite Hw. split_and!; [destruct (permanent i); lia | done | lia | now rewrite Hc|].
  destruct Hok as [(Hh & Eh & Hperm & _)|(Ht' & Hh & Hn)].
  - right; left. split_and!; [done | done | done|]. exists i. split_and!; [done | lia | done | done].
  - right; right. split_and!; [done | | left; exists i; done]. destruct Hh as [?|?]; [now left | right; split; [done|]]. unfold JS_ATOM_HASH_PRIVATE, JS_ATOM_HASH_MASK. lia.
Qed.

Lemma inserted_inv : inv rt' (if permanent i then dec refs p else refs) weak.
Proof using All.
  pose proof (i_sizes _ _ _ _ _ N) as (E1 & E2 & E3 & En & E4 & _). constructor.
  - intros q. destruct (decide (q = p)) as [->|Hne].
    + rewrite (i_self _ _ _ _ _ N). pose proof inserted_struct as H. destruct (permanent i); [now rewrite dec_eq | done].
    + rewrite (i_strings _ _ _ _ _ N) by done. pose proof (inv_structs _ _ _ I q) as S.
      replace ((if permanent i then dec refs p else refs) q) with (refs q) by (destruct (permanent i); now rewrite ?dec_ne by done).
      destruct (strings rt !! q); [|done]. eapply struct_ok_ext; [| |exact S]; [|lia].
      intros k. rewrite inserted_ptr. split; [intros [[_ ?]|]; done | now right].
  - apply inserted_array_ok.
  - pose proof (inv_table _ _ _ I) as T. constructor; rewrite ?E1, ?E2, ?E3, ?E4; try apply T.
    intros b h Hb. eapply chain_of_ext; [exact (i_chains _ _ _ _ _ N b h Hb) | |done]. intros k. cbn. now rewrite inserted_in_table.
  - intros k l q r u v Hu Hv Hh Et Ec. apply inserted_holds in Hu, Hv.
    destruct Hok as [(_ & _ & _ & Hnew)|(Ht' & _)].
    + destruct Hu as [(-> & -> & ->)|Hu], Hv as [(-> & -> & ->)|Hv]; [done | | |].
      * destruct (Hnew l r v Hv); congruence.
      * destruct (Hnew k q u Hu); congruence.
      * apply (inv_unique _ _ _ I k l q r u v); done.
    + destruct Hu as [(-> & -> & ->)|Hu]; [now rewrite Ht' in Hh|]. destruct Hv as [(-> & -> & ->)|Hv]; [rewrite Et, Ht' in Hh; done|].
      apply (inv_unique _ _ _ I k l q r u v); done.
Qed.

Lemma inserted_kept : kept rt rt'.
Proof using All.
  pose proof (i_sizes _ _ _ _ _ N) as (_ & _ & _ & En & _). assert (ref_count s <> 0) as Hs0.
  { pose proof (inv_struct rt refs weak p s I Hs) as (_ & _ & _ & _ & [(_ & _ & ? & ? & _)|[(E & _)|(E & _)]]); [lia | now rewrite Ht in E | now rewrite Ht in E]. }
  constructor; [lia | | | |].
  - intros q _ (t & Et & Hrt). destruct (decide (q = p)) as [->|Hne]; [now exists s|]. rewrite (i_strings _ _ _ _ _ N) in Et by done. now exists t.
  - intros q t t' _ _ Et Et'. destruct (decide (q = p)) as [->|Hne].
    + rewrite (i_self _ _ _ _ _ N) in Et'. assert (t = s) as -> by congruence. injection Et' as <-. split_and!; [done | done|]. intros E. now rewrite Ht in E.
    + rewrite (i_strings _ _ _ _ _ N) in Et' by done. assert (t = t') as -> by congruence. done.
  - intros k q _ _ Hk. apply inserted_ptr. now right.
  - intros k q _ Hk. apply inserted_ptr. now right.
Qed.
End Inserted.

(** What [__JS_NewAtom] is asked to add: the type and the hash *)
Definition new_type_ok (rt : JSRuntime) (s : JSString) (h type : Z) : Prop :=
  (hashed_type type = true /\ h = string_hash s type /\ (permanent (atom_free_index rt) = true -> type = JS_ATOM_TYPE_STRING) /\
     (forall j q u, holds rt j q u -> atom_type u = type -> str (content u) <> str s)) \/
  (type = JS_ATOM_TYPE_SYMBOL /\ (h = JS_ATOM_HASH_PRIVATE \/ h = 0)).

Lemma hashed_or_symbol type : hashed_type type = true \/ type = JS_ATOM_TYPE_SYMBOL -> (type =? JS_ATOM_TYPE_SYMBOL) = negb (hashed_type type).
Proof. intros [H | ->]; [|done]. now rewrite (hashed_not_symbol _ H), H. Qed.

(** The code before the test of the size of the table *)
Definition link_atom (rt : JSRuntime) (p h h1 type : Z) : option (Z * JSRuntime) :=
  let i := atom_free_index rt in
  a ← slot rt i;
  next ← atom_get_free a;
  array ← set_slot rt i (AtomPtr p);
  s ← strings rt !! p;
  let rt := with_atom_array (set_string rt p (as_atom s h type i)) (atom_count rt + 1) (atom_size rt) array next in
  if negb (type =? JS_ATOM_TYPE_SYMBOL) then
    first ← atom_hash rt !! Z.to_nat h1; Some (i, set_bucket (set_string rt p (as_atom s h type first)) h1 i)
  else Some (i, rt).

Lemma insert_atom_link rt p h h1 type : insert_atom rt p h h1 type =
  '(i, rt) ← link_atom rt p h h1 type;
  if negb (type =? JS_ATOM_TYPE_SYMBOL) && (atom_count_resize rt <=? atom_count rt) then
    '(_, rt) ← JS_ResizeAtomHash rt (i32 (atom_hash_size rt * 2)); Some (i, rt)
  else Some (i, rt).
Proof.
  unfold insert_atom, link_atom. destruct (slot rt (atom_free_index rt)) as [a|]; [|done]. cbn [mbind option_bind]. destruct (atom_get_free a); [|done]. cbn [mbind option_bind].
  destruct (set_slot rt _ _); [|done]. cbn [mbind option_bind]. destruct (strings rt !! p); [|done]. cbn [mbind option_bind].
  destruct (negb _); [|done]. destruct (atom_hash _ !! _); done.
Qed.

Lemma link_atom_ok rt refs weak p s s1 h h1 type : inv rt refs weak -> strings rt !! p = Some s -> atom_type s = 0 ->
  content s1 = content s -> ref_count s1 = ref_count s -> atom_free_index rt <> 0 -> new_type_ok rt (content s) h type ->
  (hashed_type type = true -> h1 = bucket rt h) ->
  exists rt' s', link_atom (set_string rt p s1) p h h1 type = Some (atom_free_index rt, rt') /\ inserted rt rt' (atom_free_index rt) p s' /\
    content s' = content s /\ ref_count s' = ref_count s /\ atom_type s' = type /\ hash s' = h /\ new_struct_ok rt (atom_free_index rt) s'.
Proof.
  intros I Hs Ht Hc Hr Hi0 Hok Hh1. pose proof (inv_array _ _ _ I) as A. pose proof (inv_table _ _ _ I) as T. set (i := atom_free_index rt) in *.
  destruct (chain_of_tail _ _ _ (ao_free rt A) Hi0) as ([n0 _] & n & Hn & _). fold i in Hn. apply free_slot in Hn as Hsl.
  pose proof (slot_range _ _ _ Hsl) as Hrange. assert (forall k, atom_ptr rt k <> Some p) as Hplain.
  { intros k Hk. destruct (ao_live rt A k p Hk) as (t & Et & ?). congruence. }
  assert (forall rt', atom_array rt' = <[Z.to_nat i := AtomPtr p]> (atom_array rt) -> (forall q, q <> p -> strings rt' !! q = strings rt !! q) ->
    forall j, j <> i -> is_Some (atom_ptr rt j) -> next_of rt' j = next_of rt j) as Hnx.
  { intros rt' Ea Est j Hj [q Hq]. pose proof Hq as Hq'. apply ptr_slot in Hq'. pose proof (slot_range _ _ _ Hq') as Hjr. unfold next_of, deref.
    assert (atom_ptr rt' j = Some q) as ->.
    { apply ptr_slot. unfold slot in *. rewrite Ea. destruct (Z.ltb_spec j 0); [lia|]. now rewrite list_lookup_insert_ne by lia. }
    rewrite Hq. cbn [mbind option_bind]. rewrite Est; [done|]. intros ->. now apply Hplain in Hq. }
  unfold link_atom, set_slot. change (atom_free_index (set_string rt p s1)) with i. change (slot (set_string rt p s1) i) with (slot rt i).
  rewrite Hsl. cbn [mbind option_bind atom_get_free strings set_string with_strings]. rewrite lookup_insert_eq. cbn [mbind option_bind].
  destruct Hok as [(Hh & Eh & Hperm & Hnew)|(-> & Hh)].
  - rewrite (hashed_not_symbol _ Hh). cbn [negb]. cbn [atom_hash with_atom_array set_string with_strings]. rewrite (Hh1 Hh).
    destruct (bucket_ok rt h T) as (first & Ef & Hb & C). unfold bucket_head in Ef. rewrite Ef. cbn [mbind option_bind].
    eexists _, (as_atom s1 h type first). split; [reflexivity|]. split.
    + constructor.
      * cbn. rewrite length_insert. done.
      * done.
      * exact Hn.
      * intros q Hq. cbn. now rewrite !lookup_insert_ne by done.
      * cbn. now rewrite lookup_insert_eq.
      * set (rt' := set_bucket _ _ _). assert (forall j, j <> i -> is_Some (atom_ptr rt j) -> next_of rt' j = next_of rt j) as Hnx'.
        { apply (Hnx rt'); [done|]. intros q Hq. cbn. now rewrite !lookup_insert_ne by done. }
        intros b hd Hhd. cbn in Hhd. apply list_lookup_insert_Some in Hhd as [(<- & <- & _)|[Hne Hhd]].
        -- eapply chain_of_ext; [eapply (chain_of_cons _ (next_of rt') first i); [exact C | | done | |] | | done].
           ++ intros (q & u & [Hq _] & _). apply ptr_slot in Hq. rewrite Hsl in Hq. done.
           ++ apply (holds_next rt' i p (as_atom s1 h type first)). split; [|cbn; now rewrite lookup_insert_eq]. apply ptr_slot. unfold slot. cbn.
              destruct (Z.ltb_spec i 0); [lia|]. apply list_lookup_insert_eq. lia.
           ++ intros j (q & u & [Hq _] & _). apply Hnx'; [|exists q; exact Hq]. intros ->. apply ptr_slot in Hq. rewrite Hsl in Hq. done.
           ++ cbn. rewrite Z2Nat.id by done. intros j. unfold bucket. tauto.
        -- eapply chain_of_ext; [exact (to_chains rt T b hd Hhd) | |].
           ++ cbn. intros j. split; [now left|]. intros [|(_ & _ & E)]; [done|]. unfold bucket in Hne. lia.
           ++ intros j (q & u & [Hq _] & _). apply Hnx'; [|exists q; exact Hq]. intros ->. apply ptr_slot in Hq. rewrite Hsl in Hq. done.
    + split_and!; try done. left. cbn. rewrite Hc. done.
  - cbn [JS_ATOM_TYPE_SYMBOL Z.eqb Pos.eqb negb]. eexists _, (as_atom s1 h 3 i). split; [reflexivity|]. split.
    + constructor.
      * done.
      * done.
      * exact Hn.
      * intros q Hq. cbn. now rewrite !lookup_insert_ne by done.
      * cbn. now rewrite lookup_insert_eq.
      * cbn. intros b hd Hhd. eapply chain_of_ext; [exact (to_chains rt T b hd Hhd) | |].
        -- cbn. intros j. split; [now left | now intros [|(_ & ? & _)]].
        -- intros j (q & u & [Hq _] & _). apply Hnx; [done | | |exists q; exact Hq].
           ++ intros r Hr'. cbn. now rewrite !lookup_insert_ne by done.
           ++ intros ->. apply ptr_slot in Hq. rewrite Hsl in Hq. done.
    + split_and!; try done. right. done.
Qed.

(** What is known of an atom that was made from the string [p] *)
Definition is_new_atom (rt' : JSRuntime) (i : Z) (s : JSString) (h type : Z) : Prop :=
  exists q s', holds rt' i q s' /\ str (content s') = str s /\ atom_type s' = type /\ (type = JS_ATOM_TYPE_SYMBOL -> hash s' = h).

Lemma live_count_le l : (live_count l <= length l)%nat.
Proof. apply length_filter. Qed.

Lemma insert_atom_ok rt refs weak p s s1 h h1 type : inv rt refs weak -> strings rt !! p = Some s -> atom_type s = 0 ->
  content s1 = content s -> ref_count s1 = ref_count s -> atom_free_index rt <> 0 -> new_type_ok rt (content s) h type ->
  (hashed_type type = true -> h1 = bucket rt h) -> let i := atom_free_index rt in
  exists rt' s', insert_atom (set_string rt p s1) p h h1 type = Some (i, rt') /\
    inv rt' (if permanent i then dec refs p else refs) weak /\ kept rt rt' /\
    holds rt' i p s' /\ content s' = content s /\ atom_type s' = type /\ (type = JS_ATOM_TYPE_SYMBOL -> hash s' = h) /\
    0 < i /\ fewer i rt rt' /\ (forall k, k <> i -> slot rt' k = slot rt k) /\ atom_size rt' = atom_size rt /\ free_of rt i = Some (atom_free_index rt').
Proof.
  intros I Hs Ht Hc Hr Hi0 Hok Hh1 i. rewrite insert_atom_link.
  destruct (link_atom_ok rt refs weak p s s1 h h1 type I Hs Ht Hc Hr Hi0 Hok Hh1) as (rt1 & s' & -> & N & Hc' & Hr' & Ht' & Hh' & Hnew).
  cbn [mbind option_bind]. fold i in N, Hnew |- *. pose proof (i_sizes _ _ _ _ _ N) as (E1 & E2 & E3 & E4 & E5 & E6).
  assert (inv rt1 (if permanent i then dec refs p else refs) weak) as I1 by now apply (inserted_inv rt rt1 refs weak i p s s').
  assert (kept rt rt1) as K1 by now apply (inserted_kept rt rt1 refs weak i p s s').
  assert (holds rt1 i p s') as Hp1 by (apply (inserted_holds rt rt1 refs weak i p s s'); auto).
  assert (forall k, k <> i -> slot rt1 k = slot rt k) as Hsl1.
  { intros k Hk. rewrite (inserted_slot rt rt1 refs weak i p s s') by done. now destruct (decide (k = i)). }
  assert (0 < i) as Hpos by now apply (inserted_slot_range rt rt1 refs weak i p s s').
  assert (free_of rt i = Some (atom_free_index rt1)) as Hf1 by apply N.
  assert (fewer i rt rt1) as Fw1.
  { intros j q t Hj _ Hji. apply (inserted_holds rt rt1 refs weak i p s s') in Hj; try done. destruct Hj as [[? _]|Hj]; [done | now exists t]. }
  destruct (negb (type =? JS_ATOM_TYPE_SYMBOL) && (atom_count_resize rt1 <=? atom_count rt1)) eqn:Eresize.
  2: { exists rt1, s'. split_and!; done. }
  apply andb_prop in Eresize as [_ Hle]. apply Z.leb_le in Hle. pose proof (inv_table _ _ _ I1) as T1. pose proof (inv_array _ _ _ I1) as A1.
  destruct (to_size _ T1) as (k & Hk & Ek). rewrite (to_resize _ T1) in Hle. pose proof (ao_count _ A1) as Ecount. fold (live_count (atom_array rt1)) in Ecount.
  pose proof (live_count_le (atom_array rt1)). pose proof (ao_size _ A1) as [Hmax El]. unfold JS_ATOM_MAX in Hmax. assert (0 <= 2 ^ k) by (apply Z.pow_nonneg; lia).
  rewrite Ek in *. assert (i32 (2 ^ k * 2) = 2 ^ (k + 1)) as ->.
  { rewrite Z.pow_add_r by lia. apply sgn_small; [lia|]. unfold in_s. lia. }
  destruct (resize_hash_ok rt1 _ weak (k + 1) I1) as (r & rt2 & -> & I2 & K2 & Ea & Es & Ef & Hst); [lia | rewrite Z.pow_add_r by lia; lia|].
  cbn [mbind option_bind]. pose proof (Hst p) as Hstp. destruct Hp1 as [Hp1 Hp2]. rewrite Hp2 in Hstp. destruct (strings rt2 !! p) as [s2|] eqn:E2p; [|done].
  apply up_to_next_same in Hstp as (F1 & F2 & F3 & _). exists rt2, s2. split_and!; try done; try congruence.
  - eapply kept_trans; eauto.
  - split; [|done]. unfold atom_ptr, slot in *. now rewrite Ea.
  - apply (fewer_trans i rt rt1 rt2); [done|]. intros j q t [Hq1 Hq2] _ _. specialize (Hst q). rewrite Hq2 in Hst.
    destruct (strings rt1 !! q) as [u|] eqn:Eu; [|done]. apply up_to_next_same in Hst as (? & ? & _). exists u. split; [|done].
    split; [|done]. unfold atom_ptr, slot in *. now rewrite <- Ea.
  - intros j Hj. rewrite <- Hsl1 by done. unfold slot. now rewrite Ea.
Qed.

Lemma set_string_id rt p s : strings rt !! p = Some s -> set_string rt p s = rt.
Proof. intros H. unfold set_string, with_strings. rewrite insert_id by done. now destruct rt. Qed.

Lemma new_atom_fail_ok rt refs weak p : inv rt refs weak -> 0 < refs p ->
  exists rt', new_atom_fail rt (Some p) = Some (JS_ATOM_NULL, rt') /\ inv rt' (dec refs p) weak /\ kept rt rt' /\ fewer 0 rt rt'.
Proof.
  intros I Hr. unfold new_atom_fail. destruct (js_free_string_ok rt refs weak p I Hr) as (rt' & -> & I' & K & S). exists rt'.
  split_and!; try done. now apply shrunk_fewer.
Qed.

(** The references after [__JS_NewAtom] on the string [p], whose reference is
    taken: the one to the atom [i] counts on its structure. *)
Definition refs_after (rt' : JSRuntime) (i : Z) (refs refs' : Z -> Z) : Prop :=
  if permanent i then forall q, refs' q = refs q
  else exists q, atom_ptr rt' i = Some q /\ forall r, refs' r = inc refs q r.

(** A new symbol takes an index that nothing alive has. *)
Definition new_symbol_index (rt rt' : JSRuntime) (i type : Z) : Prop :=
  type = JS_ATOM_TYPE_SYMBOL -> forall q, q < next_address rt -> atom_ptr rt i = Some q -> ~ live rt' q.

Lemma free_new_index rt rt0 rt' i n type : kept rt rt0 -> kept rt0 rt' -> free_of rt0 i = Some n -> new_symbol_index rt rt' i type.
Proof.
  intros K K' H _ q Hq Hi Hl. assert (live rt0 q) as Hl0 by (apply (k_dead _ _ K'); [pose proof (k_next _ _ K); lia | done]).
  pose proof (k_slot _ _ K i q Hq Hl0 Hi) as H0. apply ptr_slot in H0. apply free_slot in H. congruence.
Qed.

(** The result of making an atom of the characters [s]: out of memory, or the atom *)
Definition made (rt : JSRuntime) (weak : Z -> Z) (refs : Z -> Z) (s : JSString) (h type : Z) (r : option (Z * JSRuntime)) : Prop :=
  exists i rt', r = Some (i, rt') /\ kept rt rt' /\ fewer i rt rt' /\
    ((i = JS_ATOM_NULL /\ inv rt' refs weak) \/
     (0 < i /\ is_new_atom rt' i s h type /\ new_symbol_index rt rt' i type /\
        exists refs', refs_after rt' i refs refs' /\ inv rt' refs' weak)).

(** The element 0 is not a hashed atom. *)
Lemma hashed_nonzero rt i p s : array_ok rt -> holds rt i p s -> hashed_type (atom_type s) = true -> i <> 0.
Proof.
  intros A H Ht ->. pose proof (ptr_range rt 0 p A (proj1 H)) as [Hr _]. destruct (ao_null rt A) as (q & t & Hq & Htq); [lia|].
  destruct (holds_inj rt 0 p s q t H Hq) as [_ ->]. now rewrite Htq in Ht.
Qed.

(** The predefined atoms are there. *)
Definition all_permanent (rt : JSRuntime) : Prop := forall i, 0 <= i -> permanent i = true -> is_Some (atom_ptr rt i).

Lemma all_permanent_kept rt rt' : kept rt rt' -> all_permanent rt -> all_permanent rt'.
Proof. intros K H i Hi Hp. destruct (H i Hi Hp) as [p E]. exists p. now apply (k_perm _ _ K). Qed.

Lemma free_not_permanent rt refs weak : inv rt refs weak -> all_permanent rt -> atom_free_index rt <> 0 -> permanent (atom_free_index rt) = false.
Proof.
  intros I H Hi. destruct (permanent (atom_free_index rt)) eqn:Ep; [|done].
  destruct (chain_of_tail _ _ _ (ao_free rt (inv_array _ _ _ I)) Hi) as ([n Hn] & _). apply free_slot in Hn.
  destruct (H (atom_free_index rt)) as [p E]; [apply slot_range in Hn; lia | done|]. apply ptr_slot in E. congruence.
Qed.

(** The request of a new atom with the characters [s], of a type in the hash
    table or a symbol *)
Definition request_ok (rt : JSRuntime) (s : JSString) (h h1 type : Z) : Prop :=
  (hashed_type type = true /\ h = string_hash s type /\ h1 = bucket rt h /\ (type = JS_ATOM_TYPE_STRING \/ all_permanent rt) /\
     (forall j q u, holds rt j q u -> atom_type u = type -> str (content u) <> str s)) \/
  (type = JS_ATOM_TYPE_SYMBOL /\ (h = JS_ATOM_HASH_PRIVATE \/ h = 0)).

Lemma request_kept rt rt' s h h1 type : kept rt rt' -> atom_hash_size rt' = atom_hash_size rt ->
  (forall i p t, holds rt' i p t -> hashed_type (atom_type t) = true -> exists u, holds rt i p u /\ atom_type t = atom_type u /\ content t = content u) ->
  request_ok rt s h h1 type -> request_ok rt' s h h1 type.
Proof.
  intros K E H [(Hh & Eh & E1 & Hp & Hn)|?]; [left | now right]. split_and!; [done | done | | |].
  - rewrite E1. unfold bucket. now rewrite E.
  - destruct Hp as [?|Hp]; [now left | right; now apply (all_permanent_kept rt)].
  - intros j q t Hj Ht. destruct (H j q t Hj) as (u & Hu & E2 & E3); [now rewrite Ht|]. rewrite E3. apply (Hn j q u Hu). congruence.
Qed.

Lemma request_new_type rt refs weak s h h1 type : inv rt refs weak -> atom_free_index rt <> 0 -> request_ok rt s h h1 type ->
  new_type_ok rt s h type /\ (hashed_type type = true -> h1 = bucket rt h) /\ (hashed_type type = true \/ type = JS_ATOM_TYPE_SYMBOL).
Proof.
  intros I Hi [(Hh & Eh & E1 & Hp & Hn)|[-> Hh]]; [|split_and!; [now right | done | now right]]. split_and!; [left | done | now left]. split_and!; try done.
  intros Hperm. destruct Hp as [?|Hp]; [done|]. rewrite (free_not_permanent rt refs weak I Hp Hi) in Hperm. done.
Qed.

Lemma new_atom_struct_ok rt refs weak p s type : inv rt refs weak -> strings rt !! p = Some s -> 0 < refs p -> atom_free_index rt <> 0 ->
  exists r rt', new_atom_struct rt (Some p) type = Some (r, rt') /\
    match r with
    | None => inv rt' refs weak /\ kept rt rt' /\ fewer 0 rt rt'
    | Some q => exists rt0 s0 s1 refs0, rt' = set_string rt0 q s1 /\ inv rt0 refs0 weak /\ (forall r, refs0 r = inc (dec refs p) q r) /\ kept rt rt0 /\
        strings rt0 !! q = Some s0 /\ atom_type s0 = 0 /\ content s0 = content s /\ content s1 = content s0 /\ ref_count s1 = ref_count s0 /\
        atom_free_index rt0 <> 0 /\ atom_hash_size rt0 = atom_hash_size rt /\
        (forall i r t, holds rt0 i r t -> exists u, holds rt i r u /\ atom_type t = atom_type u /\ content t = content u)
    end.
Proof.
  intros I Hs Hr Hi. unfold new_atom_struct. rewrite Hs. cbn [mbind option_bind]. destruct (Z.eqb_spec (atom_type s) 0) as [E|E].
  - eexists _, _. split; [reflexivity|]. exists rt, s, (as_atom s (hash s) type (hash_next s)), refs.
    split_and!; try done; [intros r; now rewrite inc_dec | apply kept_refl | intros i r t H; now exists t].
  - assert (wf_string (content s)) as Hwf by (pose proof (inv_struct rt refs weak p s I Hs) as (_ & _ & _ & ? & _); done).
    destruct (js_alloc_string_rt rt (content s)) as [r rt2] eqn:E2. destruct (alloc_string_ok rt refs weak _ _ _ I Hwf E2) as (K2 & T2 & P2).
    unfold js_alloc_string_rt in E2. destruct (js_malloc_rt rt) as [[q|] rt1] eqn:Em; injection E2 as <- E2; rewrite E2.
    2: { destruct (malloc_ok rt refs weak _ _ I Em) as (_ & _ & _ & S1 & _). eexists _, _. split; [reflexivity|]. split_and!; [done | done|].
         apply same_strings_fewer; congruence. }
    destruct P2 as (I2 & Hq2 & Hq0 & Hqn & Hrest). assert (q <> p) as Hqp by congruence.
    destruct (js_free_string_ok rt2 _ weak p I2) as (rt3 & E3 & I3 & K3 & Sh); [now rewrite inc_ne|].
    rewrite E3. cbn [mbind option_bind]. eexists _, _. split; [reflexivity|].
    destruct (inv_live rt3 _ weak q I3) as (s0 & Hs0 & _); [rewrite dec_ne, inc_eq by done; lia|].
    destruct (sh_strings _ _ Sh q s0 Hs0) as (u & Hu & Et & Ec). assert (u = mk_atom 1 (content s) 0 0 0) as -> by congruence. cbn in Et, Ec.
    pose proof T2 as (F1 & _ & _ & _ & _ & _ & F7). exists rt3, s0, s0, (dec (inc refs q) p). split_and!; try done.
    + symmetry. now apply set_string_id.
    + intros r. now rewrite inc_dec_comm.
    + exact (kept_trans rt rt2 rt3 K2 K3).
    + apply (sh_free _ _ Sh). congruence.
    + rewrite (sh_size _ _ Sh). done.
    + intros i r t [H1 H2]. apply (sh_ptr _ _ Sh) in H1. rewrite (same_tables_ptr rt rt2) in H1 by done.
      destruct (sh_strings _ _ Sh r t H2) as (v & Hv & ? & ?). exists v. split; [|done]. split; [done|].
      destruct (ao_live rt (inv_array _ _ _ I) i r H1) as (w & Hw & _). rewrite <- Hv. symmetry. apply Hrest. congruence.
Qed.

Lemma refs_after_made rt' i q p refs refs0 refs1 : atom_ptr rt' i = Some q -> (forall r, refs0 r = inc (dec refs p) q r) ->
  (forall r, refs1 r = (if permanent i then dec refs0 q else refs0) r) -> refs_after rt' i (dec refs p) refs1.
Proof.
  intros Hq H0 H1. unfold refs_after. destruct (permanent i).
  - intros r. rewrite H1. unfold dec at 1. rewrite H0. unfold inc. destruct (r =? q); lia.
  - exists q. split; [done|]. intros r. now rewrite H1, H0.
Qed.

Lemma new_atom_ok rt refs weak p s h h1 type : inv rt refs weak -> atom_size rt * 3 < 2 ^ 31 -> strings rt !! p = Some s -> 0 < refs p ->
  request_ok rt (content s) h h1 type -> made rt weak (dec refs p) (content s) h type (new_atom rt (Some p) h h1 type).
Proof.
  intros I H3 Hs Hr Hreq. unfold new_atom. destruct (grow_atom_array rt) as [b rt1] eqn:E1.
  destruct (grow_atom_array_ok rt refs weak b rt1 I H3 E1) as (I1 & K1 & F1 & G).
  assert (forall rt2, inv rt2 refs weak -> kept rt rt2 -> fewer 0 rt rt2 -> made rt weak (dec refs p) (content s) h type (new_atom_fail rt2 (Some p))) as Hfail.
  { intros rt2 I2 K2 F2. destruct (new_atom_fail_ok rt2 refs weak p I2 Hr) as (rt3 & -> & I3 & K3 & F3). exists JS_ATOM_NULL, rt3.
    split_and!; [done | exact (kept_trans _ _ _ K2 K3) | exact (fewer_trans _ _ _ _ F2 F3) | now left]. }
  destruct b; [|now apply Hfail]. specialize (G eq_refl). pose proof (gr_strings _ _ G p s Hs) as Hs1.
  assert (request_ok rt1 (content s) h h1 type) as Hreq1.
  { apply (request_kept rt); [done | apply G | | done]. intros i q t H Ht. exists t. split; [|done].
    apply (gr_holds _ _ G); [done|]. exact (hashed_nonzero rt1 i q t (inv_array _ _ _ I1) H Ht). }
  destruct (new_atom_struct_ok rt1 refs weak p s type I1 Hs1 Hr (gr_free _ _ G)) as (r & rt2 & -> & H). cbn [mbind option_bind].
  destruct r as [q|].
  2: { destruct H as (I2 & K2 & F2). apply Hfail; [done | exact (kept_trans _ _ _ K1 K2) | exact (fewer_trans _ _ _ _ F1 F2)]. }
  destruct H as (rt0 & s0 & s1 & refs0 & -> & I0 & Hrefs & K0 & Hq & Ht0 & Hc0 & Hc1 & Hr1 & Hi0 & Hsz & Hold).
  assert (request_ok rt0 (content s0) h h1 type) as Hreq0.
  { rewrite Hc0. apply (request_kept rt1); [done | done | | done]. intros i q' t Hh _. now apply Hold. }
  destruct (request_new_type rt0 refs0 weak _ _ _ _ I0 Hi0 Hreq0) as (Hnew & Hh1 & Htype).
  destruct (insert_atom_ok rt0 refs0 weak q s0 s1 h h1 type I0 Hq Ht0 Hc1 Hr1 Hi0 Hnew Hh1) as (rt' & s' & -> & I' & K' & Hh' & Hc' & Ht' & Hsym & Hpos & Fw & _ & _ & Hfi).
  exists (atom_free_index rt0), rt'. split_and!; [done | exact (kept_trans _ _ _ K1 (kept_trans _ _ _ K0 K')) | |].
  { apply (fewer_trans _ rt rt1); [now apply fewer_none|]. apply (fewer_trans _ rt1 rt0); [|done]. intros j r t Hj _ _. now apply Hold. }
  right. split_and!; [done | | |].
  - exists q, s'. split_and!; [done | congruence | done | done].
  - exact (free_new_index rt rt0 rt' _ _ _ (kept_trans _ _ _ K1 K0) K' Hfi).
  - eexists. split; [|exact I']. apply (refs_after_made rt' _ q p refs refs0); [apply Hh' | done | done].
Qed.

(** A symbol without a description *)
Lemma new_atom_null_ok rt refs weak h : inv rt refs weak -> atom_size rt * 3 < 2 ^ 31 -> h = JS_ATOM_HASH_PRIVATE \/ h = 0 -> all_permanent rt ->
  made rt weak refs (mk_string true []) h JS_ATOM_TYPE_SYMBOL (new_atom rt None h 0 JS_ATOM_TYPE_SYMBOL).
Proof.
  intros I H3 Hh Hp. unfold new_atom. destruct (grow_atom_array rt) as [b rt1] eqn:E1.
  destruct (grow_atom_array_ok rt refs weak b rt1 I H3 E1) as (I1 & K1 & F1 & G).
  assert (forall rt2, inv rt2 refs weak -> kept rt rt2 -> fewer 0 rt rt2 -> made rt weak refs (mk_string true []) h 3 (new_atom_fail rt2 None)) as Hfail.
  { intros rt2 I2 K2 F2. exists JS_ATOM_NULL, rt2. split_and!; [done | done | done | now left]. }
  destruct b; [|now apply Hfail]. specialize (G eq_refl). destruct (js_alloc_string_rt rt1 (mk_string true [])) as [r rt2] eqn:E2.
  assert (wf_string (mk_string true [])) as Hwf by constructor.
  destruct (alloc_string_ok rt1 refs weak _ r rt2 I1 Hwf E2) as (K2 & T2 & P2).
  unfold js_alloc_string_rt in E2. unfold new_atom_struct. destruct (js_malloc_rt rt1) as [[q|] rt1'] eqn:Em; injection E2 as <- E2; rewrite E2; cbn [mbind option_bind].
  2: { apply Hfail; [done | exact (kept_trans _ _ _ K1 K2) |]. apply (fewer_trans _ rt rt1); [done|].
       destruct (malloc_ok rt1 refs weak _ _ I1 Em) as (_ & _ & _ & S1 & _). apply same_strings_fewer; congruence. }
  destruct P2 as (I2 & Hq2 & Hq0 & Hqn & Hrest). pose proof T2 as (_ & _ & _ & _ & _ & _ & F7).
  assert (atom_free_index rt2 <> 0) as Hi by (rewrite F7; apply G). pose proof (set_string_id rt2 q _ Hq2) as Eid. 
  destruct (insert_atom_ok rt2 _ weak q _ _ h 0 JS_ATOM_TYPE_SYMBOL I2 Hq2 eq_refl eq_refl eq_refl Hi) as (rt' & s' & Ei & I' & K' & Hh' & Hc' & Ht' & Hsym & Hpos & Fw & _ & _ & Hfi);
    [now right | done|]. rewrite Eid in Ei. rewrite Ei.
  pose proof (kept_trans _ _ _ K1 K2) as K12. assert (permanent (atom_free_index rt2) = false) as Hnp.
  { apply (free_not_permanent rt2 _ weak I2); [now apply (all_permanent_kept rt) | done]. }
  exists (atom_free_index rt2), rt'. split_and!; [done | exact (kept_trans _ _ _ K12 K') | |].
  { apply (fewer_trans _ rt rt1); [now apply fewer_none|]. apply (fewer_trans _ rt1 rt2); [|done]. intros j r t [Hj1 Hj2] _ _. exists t. split; [|done].
    rewrite (same_tables_ptr rt1 rt2) in Hj1 by done. destruct (ao_live rt1 (inv_array _ _ _ I1) j r Hj1) as (u & Hu & _). split; [done|].
    rewrite <- Hrest; [done | congruence]. }
  right. split_and!; [done | | |].
  - exists q, s'. split_and!; [done | now rewrite Hc' | done | done].
  - exact (free_new_index rt rt2 rt' _ _ _ K12 K' Hfi).
  - eexists. split; [|exact I']. unfold refs_after. rewrite Hnp. exists q. split; [apply Hh' | done].
Qed.

(** ** __JS_NewAtom *)

Lemma same_atom_spec h type s p : same_atom h type s p = true <->
  hash p = h /\ atom_type p = type /\ str (content p) = str s.
Proof.
  unfold same_atom. rewrite !andb_true_iff, !Z.eqb_eq, Nat.eqb_eq. split.
  - intros (((? & ?) & El) & Hm). split_and!; try done. rewrite <- El in Hm. now apply js_string_memcmp_eq.
  - intros (? & ? & E). rewrite E. split_and!; try done. rewrite <- E. now apply js_string_memcmp_eq; rewrite E.
Qed.

Lemma string_hash_units s s' type : str s = str s' -> string_hash s type = string_hash s' type.
Proof. intros E. unfold string_hash. now rewrite !hash_string_units, E. Qed.

(** An atom of the table has the hash of its characters. *)
Lemma holds_hash rt refs weak i p s : inv rt refs weak -> holds rt i p s -> hashed_type (atom_type s) = true -> hash s = string_hash (content s) (atom_type s).
Proof.
  intros I [_ Hs] Hh. pose proof (inv_struct rt refs weak p s I Hs) as (_ & _ & _ & _ & [(E & _)|[(_ & _ & ? & _)|(E & _)]]); [now rewrite E in Hh | done | now rewrite E in Hh].
Qed.

(** An atom with references, or a predefined one, survives. *)
Lemma kept_holds rt rt' refs weak refs' weak' i p s : inv rt refs weak -> inv rt' refs' weak' -> kept rt rt' -> holds rt i p s ->
  (permanent i = true \/ 0 < refs' p) -> exists s', holds rt' i p s' /\ same_kind s s'.
Proof.
  intros I I' K [Hp Hs] Hl. pose proof (inv_next rt refs weak p s I Hs) as Hlt. assert (live rt' p) as Hlive.
  { destruct Hl as [Hl|Hl]; [|now apply (inv_live rt' refs' weak')].
    destruct (inv_ptr rt' refs' weak' i p I') as (t & [_ Ht] & _ & Hr & _); [now apply (k_perm _ _ K)|]. now exists t. }
  pose proof Hlive as (t & Ht & Hr). exists t. split; [split; [now apply (k_slot _ _ K) | done]|]. now apply (k_same _ _ K p).
Qed.

(** The string is the atom. *)
Lemma same_string_ok rt refs weak p s i type h : inv rt refs weak -> strings rt !! p = Some s -> 0 < refs p -> atom_type s = type -> hashed_type type = true ->
  js_get_atom_index rt p = Some i ->
  made rt weak (dec refs p) (content s) h type (Some (i, if __JS_AtomIsConst i then set_string rt p (with_ref_count s (ref_count s - 1)) else rt)).
Proof.
  intros I Hs Hr Ht Hh Ei. pose proof (inv_struct rt refs weak p s I Hs) as (_ & _ & _ & _ & [(E & _)|[(_ & _ & _ & j & Hj & Hj0 & Hc & _)|(E & _)]]);
    [now rewrite <- Ht, E in Hh | | now rewrite <- Ht, E in Hh].
  rewrite (get_atom_index_ok rt refs weak j p s I) in Ei by done. injection Ei as <-. rewrite (const_ptr rt j p (inv_array _ _ _ I) Hj).
  assert (type <> JS_ATOM_TYPE_SYMBOL) as Hns by (intros ->; done). unfold count_ok in Hc. eexists _, _. split; [reflexivity|]. destruct (permanent j) eqn:Ep.
  - destruct (drop_ref_ok rt refs weak p s I Hs Hr) as [I' K']; [lia|]. split; [done|]. split; [apply shrunk_fewer, shrunk_count, Hs|]. right. split_and!; [done | | |].
    + exists p. eexists. split_and!; [split; [exact Hj | apply lookup_insert_eq] | done | done | done].
    + now intros ?.
    + exists (dec refs p). unfold refs_after. rewrite Ep. done.
  - split; [apply kept_refl|]. split; [apply fewer_refl|]. right. split_and!; [done | now exists p, s | now intros ? |]. exists refs. unfold refs_after. rewrite Ep. split; [|done].
    exists p. split; [done|]. intros r. now rewrite inc_dec.
Qed.

(** An atom with the characters is there. *)
Lemma found_atom_ok rt refs weak p s i q t type h : inv rt refs weak -> strings rt !! p = Some s -> 0 < refs p -> holds rt i q t -> i <> 0 ->
  str (content t) = str (content s) -> atom_type t = type -> hashed_type type = true ->
  made rt weak (dec refs p) (content s) h type
    (q ← atom_ptr rt i; rt ← if negb (__JS_AtomIsConst i) then dup_string rt q else Some rt; rt ← js_free_string rt p; Some (i, rt)).
Proof.
  intros I Hs Hr Hi Hi0 Hc Ht Hh. pose proof (proj1 Hi) as Hptr. rewrite Hptr. cbn [mbind option_bind]. pose proof (ptr_range rt i q (inv_array _ _ _ I) Hptr) as Hrange.
  rewrite (const_ptr rt i q (inv_array _ _ _ I) Hptr). assert (type <> JS_ATOM_TYPE_SYMBOL) as Hns by (intros ->; done).
  assert (exists rt1 refs1, (if negb (permanent i) then dup_string rt q else Some rt) = Some rt1 /\ inv rt1 refs1 weak /\ kept rt rt1 /\ fewer i rt rt1 /\
    (forall r, refs1 r = if permanent i then refs r else inc refs q r)) as (rt1 & refs1 & -> & I1 & K1 & F1 & R1).
  { destruct (permanent i); cbn [negb]; [exists rt, refs; split_and!; [done | done | apply kept_refl | apply fewer_refl | done]|].
    destruct (inv_ptr rt refs weak i q I Hptr) as (u & [_ Hu] & _ & Hl & _). destruct (dup_string_ok rt refs weak q I) as (rt1 & E & I1 & K1); [now exists u|].
    exists rt1, (inc refs q). split_and!; try done. unfold dup_string in E. rewrite Hu in E. injection E as <-.
    apply shrunk_fewer, shrunk_count, Hu. }
  cbn [mbind option_bind]. destruct (js_free_string_ok rt1 refs1 weak p I1) as (rt2 & -> & I2 & K2 & Sh).
  { rewrite R1. destruct (permanent i); [done|]. unfold inc. destruct (p =? q); lia. }
  cbn [mbind option_bind]. pose proof (kept_trans _ _ _ K1 K2) as K. exists i, rt2. split_and!; [done | done | exact (fewer_trans _ _ _ _ F1 (shrunk_fewer _ _ _ Sh)) |]. right.
  assert (refs_after rt i (dec refs p) (dec refs1 p)) as Hafter.
  { unfold refs_after. destruct (permanent i).
    - intros r. unfold dec. now rewrite R1.
    - exists q. split; [done|]. intros r. rewrite inc_dec_comm. unfold dec. now rewrite R1. }
  destruct (kept_holds rt rt2 refs weak _ weak i q t I I2 K Hi) as (t' & Ht' & (C' & T' & _)).
  { unfold refs_after in Hafter. destruct (permanent i); [now left | right]. destruct Hafter as (q' & Hq' & E). assert (q' = q) as -> by congruence.
    rewrite E. rewrite inc_eq. unfold dec. destruct (Z.eqb_spec q p) as [->|]; [lia|].
    pose proof (inv_struct rt refs weak q t I (proj2 Hi)) as (? & _). lia. }
  split_and!; [lia | | now intros ? |].
  - exists q, t'. split_and!; [done | congruence | | done]. rewrite T'; [done|]. rewrite Ht. intros ->. done.
  - exists (dec refs1 p). split; [|done]. unfold refs_after in *. destruct (permanent i); [done|]. destruct Hafter as (q' & Hq' & E).
    exists q'. split; [|done]. assert (q' = q) as -> by congruence. apply Ht'.
Qed.

(** The type and the hash of the atom that is made *)
Definition made_type (type : Z) : Z := if type <? JS_ATOM_TYPE_SYMBOL then type else JS_ATOM_TYPE_SYMBOL.
Definition symbol_hash (type : Z) : Z := if type =? JS_ATOM_TYPE_SYMBOL then 0 else JS_ATOM_HASH_PRIVATE.

Lemma made_any_hash rt weak refs s h h' type r : hashed_type type = true -> made rt weak refs s h type r -> made rt weak refs s h' type r.
Proof.
  intros Hh (i & rt' & -> & K & F & H). exists i, rt'. split_and!; [done | done | done|]. destruct H as [?|(? & (q & t & ? & ? & ? & _) & ? & ?)]; [now left | right].
  split_and!; [done | | done | done]. exists q, t. split_and!; [done | done | done|]. now intros ->.
Qed.

Lemma js_new_atom_ok rt refs weak p s type : inv rt refs weak -> atom_size rt * 3 < 2 ^ 31 -> strings rt !! p = Some s -> 0 < refs p ->
  1 <= type <= 4 -> (type = JS_ATOM_TYPE_GLOBAL_SYMBOL -> all_permanent rt) ->
  made rt weak (dec refs p) (content s) (symbol_hash type) (made_type type) (__JS_NewAtom rt (Some p) type).
Proof.
  intros I H3 Hs Hr Htype Hp. unfold __JS_NewAtom, made_type, symbol_hash. destruct (Z.ltb_spec type JS_ATOM_TYPE_SYMBOL) as [Hlt|Hge].
  - assert (hashed_type type = true) as Hh. { unfold hashed_type, JS_ATOM_TYPE_SYMBOL in *. assert (type = 1 \/ type = 2) as [->| ->] by lia; done. }
    cbn [mbind option_bind]. rewrite Hs. cbn [mbind option_bind]. destruct (Z.eqb_spec (atom_type s) type) as [E|E].
    + pose proof (inv_struct rt refs weak p s I Hs) as (_ & _ & _ & _ & [(E' & _)|[(_ & _ & _ & j & Hj & _)|(E' & _)]]); [now rewrite <- E, E' in Hh | | now rewrite <- E, E' in Hh].
      pose proof (get_atom_index_ok rt refs weak j p s I (conj Hj Hs)) as Ei. rewrite Ei. cbn [mbind option_bind]. now apply (same_string_ok rt refs weak p s j type).
    + pose proof (inv_table _ _ _ I) as T. destruct (in_bucket_ok rt (same_atom (string_hash (content s) type) type (content s)) (string_hash (content s) type) T) as (first & i & -> & Ei & H).
      cbn [mbind option_bind]. rewrite Ei. cbn [mbind option_bind]. destruct H as [[-> Hnone]|[Hin (q & t & Hq & Et)]].
      * cbn [Z.eqb negb]. apply (made_any_hash _ _ _ _ (string_hash (content s) type)); [done|]. apply (new_atom_ok rt refs weak p s); try done. left. split_and!; [done | done | done | |].
        -- destruct (decide (type = 1)) as [->|]; [now left | right]. apply Hp. unfold JS_ATOM_TYPE_GLOBAL_SYMBOL, JS_ATOM_TYPE_SYMBOL in *. lia.
        -- intros j r u Hu Eu Ec. assert (same_atom (string_hash (content s) type) type (content s) u = true) as Es.
           { apply same_atom_spec. split_and!; [|done | done]. rewrite (holds_hash rt refs weak j r u I Hu) by congruence. rewrite Eu. now apply string_hash_units. }
           rewrite (Hnone j r u) in Es; [done | | done]. exists r, u. split_and!; [done | congruence|]. apply same_atom_spec in Es as [-> _]. done.
      * apply same_atom_spec in Et as (_ & E1 & E2). assert (i <> 0) as Hi0.
        { destruct (bucket_ok rt (string_hash (content s) type) T) as (f & _ & _ & C). eapply chain_of_nonzero; [exact C | exact Hin]. }
        destruct (Z.eqb_spec i 0); [done|]. cbn [negb]. now apply (found_atom_ok rt refs weak p s i q t type).
  - destruct (Z.eqb_spec type JS_ATOM_TYPE_SYMBOL); (apply (new_atom_ok rt refs weak p s); try done); right; auto.
Qed.
