(* ===== verification/AtomsInit.v ===== *)
(** * The predefined atoms

    [JS_InitAtoms] either runs out of memory or leaves a table in which the atom
    of each [JS_ATOM_x] has its name and its type, and nothing else. *)

From Stdlib Require Import ZArith Lia Bool String.
From stdpp Require Import base numbers list option gmap.
From S2P Require Import Prelude IntPrint JSStrings Atoms AtomsInv AtomsOps AtomsNew.

#[local] Open Scope Z_scope.

(** The elements before [k] are taken, those from [k] are free in order. *)
Definition fresh_at (rt : JSRuntime) (k : Z) : Prop :=
  (atom_size rt = 0 /\ atom_free_index rt = 0 /\ k = 1) \/
  (atom_size rt = 711 /\ atom_free_index rt = k /\ 0 < k /\ forall i, k <= i < 711 -> slot rt i = Some (AtomFree (next_free 711 i))).

Lemma grow_fresh rt refs weak k rt1 : inv rt refs weak -> fresh_at rt k -> grow_atom_array rt = (true, rt1) ->
  atom_size rt1 = 711 /\ fresh_at rt1 k /\ atom_free_index rt1 = k.
Proof.
  intros I H. unfold grow_atom_array. destruct H as [(E0 & E1 & ->)|(E0 & E1 & Hk & Hs)].
  - rewrite E0, E1. change (new_atom_size 0) with 711. cbn [Z.eqb negb]. change (JS_ATOM_MAX <? 711) with false. cbn [negb].
    destruct (js_malloc_rt rt) as [[q|] rt2] eqn:Eq; [|done]. destruct (malloc_ok rt refs weak _ _ I Eq) as (I2 & _ & (_ & _ & F3 & _) & _).
    rewrite F3, E0. cbn [Z.eqb]. destruct (js_malloc_rt rt2) as [[p|] rt3]; intros [= <-]. split; [done | split; [|done]].
    right. split; [done|]. split; [done|]. split; [done|]. intros i Hi. unfold slot. cbn [atom_array with_atom_array]. destruct (Z.ltb_spec i 0); [lia|].
    replace (Z.to_nat i) with (S (Z.to_nat (i - 1))) by lia. change ((?x :: ?l) !! S ?n) with (l !! n). rewrite free_slots_lookup by lia.
    do 3 f_equal. lia.
  - destruct (Z.eqb_spec (atom_free_index rt) 0) as [E|E]; [lia|]. cbn [negb]. intros [= <-]. split_and!; [done | now right | done].
Qed.

Lemma new_atom_fresh rt refs weak p s h h1 type k : inv rt refs weak -> strings rt !! p = Some s -> atom_type s = 0 -> 0 < refs p ->
  request_ok rt (content s) h h1 type -> fresh_at rt k -> k < 239 ->
  exists i rt', new_atom rt (Some p) h h1 type = Some (i, rt') /\
    (i = 0 \/ (i = k /\ fresh_at rt' (k + 1) /\ inv rt' (dec refs p) weak /\ fewer k rt rt' /\ kept rt rt' /\
       exists q s', holds rt' k q s' /\ str (content s') = str (content s) /\ atom_type s' = type /\ (type = JS_ATOM_TYPE_SYMBOL -> hash s' = h))).
Proof.
  intros I Hs Ht Hr Hreq Hf Hk. assert (atom_size rt * 3 < 2 ^ 31) as H3 by (destruct Hf as [(-> & _)|(-> & _)]; lia).
  unfold new_atom. destruct (grow_atom_array rt) as [b rt1] eqn:E1. destruct (grow_atom_array_ok rt refs weak b rt1 I H3 E1) as (I1 & K1 & F1 & G).
  destruct b.
  2: { destruct (new_atom_fail_ok rt1 refs weak p I1 Hr) as (rt2 & E2 & _). exists 0, rt2. split; [exact E2 | now left]. }
  specialize (G eq_refl). destruct (grow_fresh rt refs weak k rt1 I Hf E1) as (Esz & Hf1 & Ei). pose proof (gr_strings _ _ G p s Hs) as Hs1.
  assert (request_ok rt1 (content s) h h1 type) as Hreq1.
  { apply (request_kept rt); [done | apply G | | done]. intros i q t H Ht'. exists t. split; [|done].
    apply (gr_holds _ _ G); [done|]. exact (hashed_nonzero rt1 i q t (inv_array _ _ _ I1) H Ht'). }
  unfold new_atom_struct. rewrite Hs1. cbn [mbind option_bind]. rewrite Ht. cbn [Z.eqb mbind option_bind].
  destruct (request_new_type rt1 refs weak _ _ _ _ I1 (gr_free _ _ G) Hreq1) as (Hnew & Hh1 & _).
  destruct (insert_atom_ok rt1 refs weak p s (as_atom s (hash s) type (hash_next s)) h h1 type I1 Hs1 Ht eq_refl eq_refl (gr_free _ _ G) Hnew Hh1)
    as (rt' & s' & -> & I' & K' & Hh' & Hc' & Ht' & Hsym & Hpos & Fw & Hslots & Hsz & Hnext).
  rewrite Ei in *. exists k, rt'. split; [done|]. right. split_and!; try done.
  - destruct Hf1 as [(E & _)|(_ & _ & Hk0 & Hfree)]; [lia|]. right. split_and!; [congruence | | lia|].
    + apply free_slot in Hnext. rewrite Hfree in Hnext by lia. injection Hnext as <-. unfold next_free. destruct (Z.eqb_spec k (711 - 1)); [lia | done].
    + intros i Hi. rewrite Hslots by lia. apply Hfree. lia.
  - assert (permanent k = true) as Ep by (unfold permanent, JS_ATOM_END; apply Z.ltb_lt; lia). now rewrite Ep in I'.
  - apply (fewer_trans _ rt rt1); [now apply fewer_none | done].
  - exact (kept_trans _ _ _ K1 K').
  - exists p, s'. split_and!; try done. now rewrite Hc'.
Qed.

(** ** The names *)

Definition init_name (i : Z) : list Z := chars (nth (Z.to_nat (i - 1)) js_atom_init EmptyString).

(** The table holds the first predefined atoms, before [k]. *)
Record init_upto (rt : JSRuntime) (k : Z) : Prop := mk_init_upto {
  iu_inv : inv rt (fun _ => 0) (fun _ => 0);
  iu_fresh : fresh_at rt k;
  iu_atoms : forall j q u, holds rt j q u -> j <> 0 -> 0 < j < k /\ str (content u) = init_name j /\
    atom_type u = made_type (init_type j) /\ (atom_type u = JS_ATOM_TYPE_SYMBOL -> hash u = JS_ATOM_HASH_PRIVATE <-> init_type j = JS_ATOM_TYPE_PRIVATE);
  iu_all : forall j, 0 < j < k -> is_Some (atom_ptr rt j);
}.

Lemma init_names_distinct : NoDup (chars <$> take 224 js_atom_init).
Proof. apply (bool_decide_unpack _). vm_compute. exact I. Qed.

Lemma init_type_string j : init_type j = JS_ATOM_TYPE_STRING <-> j < 225.
Proof.
  unfold init_type, JS_ATOM_Private_brand, JS_ATOM_Symbol_toPrimitive, JS_ATOM_TYPE_STRING, JS_ATOM_TYPE_PRIVATE, JS_ATOM_TYPE_SYMBOL.
  zcases; split; intros; lia.
Qed.

Lemma init_type_range j : 1 <= init_type j <= 4 /\ init_type j <> JS_ATOM_TYPE_GLOBAL_SYMBOL.
Proof.
  unfold init_type, JS_ATOM_Private_brand, JS_ATOM_Symbol_toPrimitive, JS_ATOM_TYPE_STRING, JS_ATOM_TYPE_GLOBAL_SYMBOL, JS_ATOM_TYPE_PRIVATE, JS_ATOM_TYPE_SYMBOL.
  zcases; split; lia.
Qed.

Lemma take_chars_lookup (l : list string) (n j : nat) : (j < n)%nat -> (j < length l)%nat ->
  (chars <$> take n l) !! j = Some (chars (nth j l EmptyString)).
Proof.
  intros Hn Hl. rewrite list_lookup_fmap, lookup_take_lt by done. destruct (lookup_lt_is_Some_2 l j Hl) as [x Hx].
  rewrite Hx, (nth_lookup_Some _ _ _ _ Hx). done.
Qed.

(** The name of a string atom has not been used before. *)
Lemma init_name_new i j : 0 < i < j -> init_type j = JS_ATOM_TYPE_STRING -> init_name i <> init_name j.
Proof.
  intros Hi Hj%init_type_string E. pose proof init_names_distinct as N.
  assert (forall k, 0 < k < 225 -> (chars <$> take 224 js_atom_init) !! Z.to_nat (k - 1) = Some (init_name k)) as H.
  { intros k Hk. apply take_chars_lookup; [lia|]. change (length js_atom_init) with 238%nat. lia. }
  assert (Z.to_nat (i - 1) = Z.to_nat (j - 1)) as E'; [|lia].
  apply (NoDup_lookup _ _ _ (init_name i) N); [apply H; lia | rewrite E; apply H; lia].
Qed.

Lemma chars_wf s : wf_string (mk_string false (chars s)).
Proof.
  unfold wf_string, chars. cbn. apply Forall_forall. intros c Hc. apply list_elem_of_In, in_map_iff in Hc as (a & <- & _).
  unfold in_u. pose proof (Ascii.N_ascii_bounded a). lia.
Qed.

Lemma init_step rt k : init_upto rt k -> 0 < k < 239 ->
  exists i rt', __JS_NewAtomInit rt (init_name k) (init_type k) = Some (i, rt') /\ (i = 0 \/ (i <> 0 /\ init_upto rt' (k + 1))).
Proof.
  intros [I Hf Ha Hall] Hk. unfold __JS_NewAtomInit. assert (wf_string (mk_string false (init_name k))) as Hwf by apply chars_wf.
  destruct (js_alloc_string_rt rt (mk_string false (init_name k))) as [[p|] rt1] eqn:E1;
    destruct (alloc_string_ok rt _ _ _ _ _ I Hwf E1) as (K1 & T1 & P1); [|exists 0, rt1; split; [done | now left]].
  destruct P1 as (I1 & Hp & _ & Hn & Hrest). pose proof T1 as (G1 & G2 & G3 & G4 & G5 & G6 & G7).
  assert (fresh_at rt1 k) as Hf1.
  { unfold fresh_at in *. rewrite G3, G7. destruct Hf as [?|(? & ? & ? & Hs)]; [now left | right]. split_and!; try done. intros i Hi.
    rewrite (same_tables_slot rt rt1) by done. now apply Hs. }
  assert (forall j q u, holds rt1 j q u -> holds rt j q u) as Hback.
  { intros j q u [H1 H2]. rewrite (same_tables_ptr rt rt1) in H1 by done. split; [done|].
    destruct (ao_live rt (inv_array _ _ _ I) j q H1) as (v & Hv & _). rewrite <- (Hrest q); [done | congruence]. }
  remember (mk_atom 1 (mk_string false (init_name k)) 0 0 0) as s eqn:Es0.
  assert (atom_type s = 0 /\ str (content s) = init_name k) as [Ht0 Hc0] by now rewrite Es0. clear Es0. pose proof (init_type_range k) as [Htr Htg].
  assert (exists i rt', __JS_NewAtom rt1 (Some p) (init_type k) = Some (i, rt') /\
    (i = 0 \/ (i = k /\ fresh_at rt' (k + 1) /\ inv rt' (dec (inc (fun _ => 0) p) p) (fun _ => 0) /\ fewer k rt1 rt' /\ kept rt1 rt' /\
       exists q s', holds rt' k q s' /\ str (content s') = str (content s) /\ atom_type s' = made_type (init_type k) /\
         (made_type (init_type k) = JS_ATOM_TYPE_SYMBOL -> hash s' = symbol_hash (init_type k))))) as (i & rt' & E & H).
  { assert (0 < inc (fun _ => 0) p p) as Hr by (rewrite inc_eq; lia). unfold __JS_NewAtom, made_type, symbol_hash.
    destruct (Z.ltb_spec (init_type k) JS_ATOM_TYPE_SYMBOL) as [Hlt|Hge].
    - assert (init_type k = JS_ATOM_TYPE_STRING) as Et by (unfold JS_ATOM_TYPE_SYMBOL, JS_ATOM_TYPE_GLOBAL_SYMBOL, JS_ATOM_TYPE_STRING in *; lia). rewrite Et.
      cbn [mbind option_bind]. rewrite Hp. cbn [mbind option_bind]. rewrite Ht0. change (0 =? JS_ATOM_TYPE_STRING) with false.
      pose proof (inv_table _ _ _ I1) as T. set (h := string_hash (content s) JS_ATOM_TYPE_STRING). cbv zeta iota. fold h.
      assert (forall j q u, holds rt1 j q u -> atom_type u = JS_ATOM_TYPE_STRING -> str (content u) <> init_name k) as Hnew.
      { intros j q u Hu Eu. assert (j <> 0) as Hj0 by (apply (hashed_nonzero rt1 j q u (inv_array _ _ _ I1) Hu); now rewrite Eu).
        destruct (Ha j q u (Hback j q u Hu) Hj0) as (Hj & -> & _). apply init_name_new; [done | exact Et]. }
      destruct (in_bucket_ok rt1 (same_atom h JS_ATOM_TYPE_STRING (content s)) h T) as (first & i & -> & Ei & H).
      cbn [mbind option_bind]. rewrite Ei. cbn [mbind option_bind]. destruct H as [[-> _]|[_ (q & t & Hq & Est)]].
      + cbn [Z.eqb negb]. destruct (new_atom_fresh rt1 _ _ p s h (bucket rt1 h) JS_ATOM_TYPE_STRING k I1 Hp Ht0 Hr) as (i & rt' & E & H); try done; [|lia|].
        * left. split_and!; [done | done | done | now left |]. rewrite Hc0. exact Hnew.
        * exists i, rt'. split; [exact E|]. destruct H as [?|(? & ? & ? & ? & ? & q & s' & ? & ? & ? & _)]; [now left | right]. split_and!; try done. now exists q, s'.
      + apply same_atom_spec in Est as (_ & E2 & E3). destruct (Hnew i q t Hq E2). congruence.
    - destruct (new_atom_fresh rt1 _ _ p s (symbol_hash (init_type k)) 0 JS_ATOM_TYPE_SYMBOL k I1 Hp Ht0 Hr) as (i & rt' & E & H); try done; [| lia|].
      { right. split; [done|]. unfold symbol_hash. destruct (init_type k =? JS_ATOM_TYPE_SYMBOL); auto. }
      exists i, rt'. split; [|exact H]. unfold symbol_hash in E. destruct (init_type k =? JS_ATOM_TYPE_SYMBOL); exact E. }
  exists i, rt'. split; [exact E|]. destruct H as [?|(-> & Hf' & I' & F' & K' & q & s' & Hq & Hc & Ht & Hh)]; [now left | right]. split; [lia|].
  assert (inv rt' (fun _ => 0) (fun _ => 0)) as I0 by (eapply inv_ext; [|exact I']; intros r; apply dec_inc).
  constructor; [done | done | |].
  - intros j r u Hu Hj0. destruct (decide (j = k)) as [->|Hjk].
    + destruct (holds_inj rt' k q s' r u Hq Hu) as [_ <-]. split_and!; [lia | lia | congruence | done|]. intros Es. rewrite Hh by congruence.
      unfold symbol_hash, JS_ATOM_TYPE_PRIVATE, JS_ATOM_TYPE_SYMBOL in *. destruct (Z.eqb_spec (init_type k) 3) as [E3|E3].
      * rewrite E3. split; [done | lia].
      * split; [|done]. intros _. unfold made_type, JS_ATOM_TYPE_SYMBOL in Ht. destruct (Z.ltb_spec (init_type k) 3); lia.
    + destruct (F' j r u Hu Hj0 Hjk) as (v & Hv & Ev & Ec). pose proof (Hback j r v Hv) as Hv0. destruct (Ha j r v Hv0 Hj0) as (Hj & En & Et & Ehash).
      split_and!; [lia | lia | congruence | congruence|]. intros Es.
      destruct (inv_ptr rt' _ _ j r I0 (proj1 Hu)) as (u' & Hu' & _ & Hlive & _). destruct (holds_inj rt' j r u r u' Hu Hu') as [_ <-].
      destruct (k_same _ _ K' r v u) as (_ & _ & Hpriv); [apply (inv_next rt1 _ _ r v I1), Hv | exists u; split; [apply Hu | done] | apply Hv | apply Hu|].
      rewrite Hpriv by congruence. apply Ehash. congruence.
  - intros j Hj. destruct (decide (j = k)) as [->|Hjk]; [exists q; apply Hq|]. destruct (Hall j) as [r Hr]; [lia|]. exists r.
    apply (k_perm _ _ (kept_trans _ _ _ K1 K')); [|done]. unfold permanent, JS_ATOM_END. apply Z.ltb_lt. lia.
Qed.

Lemma init_length : length js_atom_init = 238%nat.
Proof. done. Qed.
#[local] Opaque js_atom_init.

Lemma init_atoms_ok_from names : forall k rt, init_upto rt k -> 0 < k <= 239 -> names = drop (Z.to_nat (k - 1)) js_atom_init ->
  exists r rt', init_atoms rt k names = Some (r, rt') /\ (r = -1 \/ (r = 0 /\ init_upto rt' 239)).
Proof.
  pose proof init_length as Hlen. induction names as [|x names IH]; intros k rt Hrt Hk Hx; cbn [init_atoms].
  - exists 0, rt. split; [done|]. right. split; [done|]. assert (k = 239) as <-; [|done].
    apply (f_equal length) in Hx. rewrite length_drop, Hlen in Hx. cbn in Hx. lia.
  - pose proof (f_equal length Hx) as Hl. rewrite length_drop, Hlen in Hl. cbn [length] in Hl.
    assert (nth (Z.to_nat (k - 1)) js_atom_init EmptyString = x) as Hn.
    { apply nth_lookup_Some. rewrite <- (Nat.add_0_r (Z.to_nat (k - 1))), <- lookup_drop, <- Hx. done. }
    destruct (init_step rt k Hrt) as (i & rt1 & E & H); [lia|]. unfold init_name in E. rewrite Hn in E. rewrite E. cbn [mbind option_bind].
    destruct (Z.eqb_spec i JS_ATOM_NULL) as [Ei|Ei]; [exists (-1), rt1; split; [done | now left]|].
    destruct H as [?|[_ H]]; [done|]. apply IH; [done | lia|].
    replace (Z.to_nat (k + 1 - 1)) with (S (Z.to_nat (k - 1))) by lia. rewrite <- Nat.add_1_r, <- drop_drop, <- Hx. done.
Qed.

(** The table of 512 empty chains *)
Lemma init_start answers rt : JS_ResizeAtomHash (empty_runtime answers) 512 = Some (0, rt) -> init_upto rt 1.
Proof.
  unfold JS_ResizeAtomHash. change (negb (Z.land 512 (512 - 1) =? 0)) with false. cbv iota.
  destruct (js_malloc_rt (empty_runtime answers)) as [m rt1] eqn:Em. assert (same_tables (empty_runtime answers) rt1 /\ strings rt1 = ∅) as [T S].
  { unfold js_malloc_rt in Em. destruct (mallocs (empty_runtime answers)) as [|[] l]; injection Em as <- <-; done. }
  destruct T as (E1 & E2 & E3 & E4 & E5 & E6 & E7). destruct m; [|done]. rewrite E5. cbn [rehash empty_runtime atom_hash mbind option_bind].
  intros [= <-]. set (rt' := with_atom_hash _ _ _ _).
  assert (forall i, slot rt' i = None) as Hslot. { intros i. unfold slot. cbn [atom_array rt' with_atom_hash]. rewrite E6. cbn. now destruct (i <? 0). }
  assert (forall i p s, ~ holds rt' i p s) as Hh. { intros i p s [H _]. unfold atom_ptr in H. now rewrite Hslot in H. }
  constructor.
  - constructor.
    + intros p. cbn [strings rt' with_atom_hash]. now rewrite S, lookup_empty.
    + constructor.
      * cbn [atom_size atom_array rt' with_atom_hash]. rewrite E3, E6. done.
      * intros i p H. unfold atom_ptr in H. now rewrite Hslot in H.
      * intros i j p H. unfold atom_ptr in H. now rewrite Hslot in H.
      * cbn [atom_size rt' with_atom_hash]. rewrite E3. done.
      * cbn [atom_free_index rt' with_atom_hash]. rewrite E7. apply chain_of_nil. intros i [n H]. unfold free_of in H. now rewrite Hslot in H.
      * cbn [atom_count atom_array rt' with_atom_hash]. rewrite E2, E6. done.
    + constructor; cbn [atom_hash_size atom_size atom_count_resize atom_hash rt' with_atom_hash].
      * exists 9. done.
      * lia.
      * done.
      * done.
      * intros b h H. change (replicate (Z.to_nat 512) 0 !! b = Some h) in H. apply lookup_replicate in H as [-> _]. apply chain_of_nil. intros i (p & s & H & _). now apply Hh in H.
    + intros i j p q s t H. now apply Hh in H.
  - left. cbn [atom_size atom_free_index rt' with_atom_hash]. now rewrite E3, E7.
  - intros j q u H. now apply Hh in H.
  - intros j Hj. lia.
Qed.

Lemma JS_InitAtoms_ok answers : exists r rt, JS_InitAtoms (empty_runtime answers) = Some (r, rt) /\ (r = -1 \/ (r = 0 /\ init_upto rt 239)).
Proof.
  unfold JS_InitAtoms. destruct (JS_ResizeAtomHash (empty_runtime answers) 512) as [[r rt]|] eqn:E.
  - cbn [mbind option_bind]. destruct (Z.eqb_spec r 0) as [->|Hr]; cbn [negb]; [|exists (-1), rt; auto].
    apply init_atoms_ok_from; [now apply (init_start answers) | lia | done].
  - exfalso. unfold JS_ResizeAtomHash, js_malloc_rt in E. cbn [mallocs empty_runtime] in E. destruct answers as [|[] l]; discriminate E.
Qed.
