(* ===== verification/AtomsClient.v ===== *)
(** * Clients of the table of atoms

    The engine sees strings, symbols and atoms through handles: references to
    values, to atoms and weak references.  A client holds handles and calls the
    operations of [Atoms] on them, in any order; every state it reaches keeps the
    invariant with exact counts. *)

From Stdlib Require Import ZArith Lia Bool.
From stdpp Require Import base numbers list option gmap.
From S2P Require Import Prelude IntPrint JSStrings Atoms AtomsInv AtomsOps AtomsNew AtomsInit.

#[local] Open Scope Z_scope.

(** ** The machine *)

Inductive handle : Type :=
| HValue (v : value)
| HAtom (a : Z)
| HWeak (p : Z).

Record client : Type := mk_client { runtime : JSRuntime; handles : list handle }.

(** The argument [k] is the position of a handle.  [CFree], [CNewAtomStr],
    [CNewSymbol] and [CSymbolToAtomFree] take the handle. *)
Inductive command : Type :=
| CNewString (wide : bool) (units : list Z)
| CDup (k : nat)
| CFree (k : nat)
| CNewAtomStr (k : nat)
| CNewSymbol (k : nat) (type : Z)
| CNewSymbolNull
| CNewSymbolFromAtom (k : nat) (type : Z)
| CNewAtomUInt32 (n : Z)
| CNewAtomInt64 (n : Z)
| CFindAtom (chars : list Z)
| CConstAtom (i : Z)
| CAtomToValue (k : nat) (force_string : bool)
| CSymbolToAtom (k : nat)
| CSymbolToAtomFree (k : nat)
| CWeakref (k : nat).

Definition add_atom (a : Z) (hs : list handle) : list handle := if a =? JS_ATOM_NULL then hs else HAtom a :: hs.
Definition add_value (v : option value) (hs : list handle) : list handle := match v with Some v => HValue v :: hs | None => hs end.

(** A command on a handle of the wrong kind does nothing. *)
Definition step (c : command) (st : client) : option client :=
  let rt := runtime st in
  let hs := handles st in
  match c with
  | CNewString wide units =>
      let '(p, rt) := js_alloc_string_rt rt (mk_string wide (map (wrap (if wide then 16 else 8)) units)) in
      Some (mk_client rt (add_value (VString <$> p) hs))
  | CDup k =>
      match hs !! k with
      | Some (HValue v) => rt ← dup_string rt (value_ptr v); Some (mk_client rt (HValue v :: hs))
      | Some (HAtom a) => '(a, rt) ← JS_DupAtom rt a; Some (mk_client rt (HAtom a :: hs))
      | _ => Some st
      end
  | CFree k =>
      match hs !! k with
      | Some (HValue v) => rt ← js_free_string rt (value_ptr v); Some (mk_client rt (delete k hs))
      | Some (HAtom a) => rt ← JS_FreeAtom rt a; Some (mk_client rt (delete k hs))
      | Some (HWeak p) => rt ← js_weakref_free rt p; Some (mk_client rt (delete k hs))
      | None => Some st
      end
  | CNewAtomStr k =>
      match hs !! k with
      | Some (HValue (VString p)) => '(a, rt) ← JS_NewAtomStr rt p; Some (mk_client rt (add_atom a (delete k hs)))
      | _ => Some st
      end
  | CNewSymbol k type =>
      match hs !! k with
      | Some (HValue (VString p)) =>
          if (JS_ATOM_TYPE_GLOBAL_SYMBOL <=? type) && (type <=? JS_ATOM_TYPE_PRIVATE) then
            '(v, rt) ← JS_NewSymbol rt (Some p) type; Some (mk_client rt (add_value v (delete k hs)))
          else Some st
      | _ => Some st
      end
  | CNewSymbolNull => '(v, rt) ← JS_NewSymbol rt None JS_ATOM_TYPE_SYMBOL; Some (mk_client rt (add_value v hs))
  | CNewSymbolFromAtom k type =>
      match hs !! k with
      | Some (HAtom a) =>
          if (JS_ATOM_TYPE_SYMBOL <=? type) && (type <=? JS_ATOM_TYPE_PRIVATE) && negb (__JS_AtomIsTaggedInt a) then
            '(v, rt) ← JS_NewSymbolFromAtom rt a type; Some (mk_client rt (add_value v hs))
          else Some st
      | _ => Some st
      end
  | CNewAtomUInt32 n => '(a, rt) ← JS_NewAtomUInt32 rt (u32 n); Some (mk_client rt (add_atom a hs))
  | CNewAtomInt64 n => '(a, rt) ← JS_NewAtomInt64 rt (i64 n); Some (mk_client rt (add_atom a hs))
  | CFindAtom chars => '(a, rt) ← __JS_FindAtom rt (map u8 chars); Some (mk_client rt (add_atom a hs))
  | CConstAtom i => if (0 <? i) && (i <? JS_ATOM_END) then Some (mk_client rt (HAtom i :: hs)) else Some st
  | CAtomToValue k force_string =>
      match hs !! k with
      | Some (HAtom a) => '(v, rt) ← __JS_AtomToValue rt a force_string; Some (mk_client rt (add_value v hs))
      | _ => Some st
      end
  | CSymbolToAtom k =>
      match hs !! k with
      | Some (HValue (VSymbol p)) => '(a, rt) ← symbol_value_to_atom rt p; Some (mk_client rt (HAtom a :: hs))
      | _ => Some st
      end
  | CSymbolToAtomFree k =>
      match hs !! k with
      | Some (HValue (VSymbol p)) => a ← js_symbol_to_atom rt p; Some (mk_client rt (HAtom a :: delete k hs))
      | _ => Some st
      end
  | CWeakref k =>
      match hs !! k with
      | Some (HValue (VSymbol p)) =>
          target ← js_weakref_is_target rt p;
          if target : bool then rt ← js_weakref_new rt p; Some (mk_client rt (HWeak p :: hs)) else Some st
      | _ => Some st
      end
  end.

(** The array is below the size at which [int] overflows, and no symbol has too
    many weak references for its counter. *)
Definition small (st : client) : Prop := atom_size (runtime st) * 3 < 2 ^ 31 /\ Z.of_nat (length (handles st)) < JS_ATOM_HASH_MASK - 2.

Inductive reachable : client -> Prop :=
| reach_init answers rt : JS_InitAtoms (empty_runtime answers) = Some (0, rt) -> reachable (mk_client rt [])
| reach_step c st st' : reachable st -> small st -> step c st = Some st' -> reachable st'.

(** ** References of the handles *)

Definition handle_refs (rt : JSRuntime) (h : handle) (p : Z) : Z :=
  match h with
  | HValue v => if p =? value_ptr v then 1 else 0
  | HAtom a => if __JS_AtomIsConst a then 0 else match atom_ptr rt a with Some q => if p =? q then 1 else 0 | None => 0 end
  | HWeak _ => 0
  end.
Definition handle_weak (h : handle) (p : Z) : Z := match h with HWeak q => if p =? q then 1 else 0 | _ => 0 end.

Definition refs_of (rt : JSRuntime) (hs : list handle) (p : Z) : Z := foldr (fun h n => handle_refs rt h p + n) 0 hs.
Definition weak_of (hs : list handle) (p : Z) : Z := foldr (fun h n => handle_weak h p + n) 0 hs.

Definition tagged (a : Z) : Prop := 2 ^ 31 <= a < 2 ^ 32.

(** What a handle refers to is there. *)
Definition handle_ok (rt : JSRuntime) (h : handle) : Prop :=
  match h with
  | HValue (VString _) => True
  | HValue (VSymbol p) => exists i s, holds rt i p s /\ 0 < i /\ atom_type s <> JS_ATOM_TYPE_STRING
  | HAtom a => tagged a \/ exists p s, 0 < a /\ holds rt a p s
  | HWeak _ => True
  end.

(** Atoms for the integers below 2^31 are tagged, not in the table. *)
Definition no_small_ints (rt : JSRuntime) : Prop :=
  forall i p s n, holds rt i p s -> atom_type s = JS_ATOM_TYPE_STRING -> is_num_string (content s) = Some n -> JS_ATOM_MAX_INT < n.

Record client_ok (st : client) : Prop := mk_client_ok {
  co_inv : inv (runtime st) (refs_of (runtime st) (handles st)) (weak_of (handles st));
  co_perm : all_permanent (runtime st);
  co_handles : Forall (handle_ok (runtime st)) (handles st);
  co_ints : no_small_ints (runtime st);
}.

Lemma handle_refs_nonneg rt h p : 0 <= handle_refs rt h p.
Proof. destruct h; cbn; try lia; repeat case_match; lia. Qed.

Lemma refs_of_cons rt h hs p : refs_of rt (h :: hs) p = handle_refs rt h p + refs_of rt hs p.
Proof. done. Qed.
Lemma weak_of_cons h hs p : weak_of (h :: hs) p = handle_weak h p + weak_of hs p.
Proof. done. Qed.

Lemma refs_of_nonneg rt hs p : 0 <= refs_of rt hs p.
Proof. induction hs as [|h hs IH]; [done|]. rewrite refs_of_cons. pose proof (handle_refs_nonneg rt h p). lia. Qed.

Lemma handle_refs_le rt h hs p : h ∈ hs -> handle_refs rt h p <= refs_of rt hs p.
Proof.
  induction hs as [|h' hs IH]; intros H; [now apply elem_of_nil in H|]. rewrite refs_of_cons. pose proof (refs_of_nonneg rt hs p). pose proof (handle_refs_nonneg rt h' p).
  apply elem_of_cons in H as [->|H]; [lia|]. specialize (IH H). lia.
Qed.

Lemma refs_of_delete rt hs k h p : hs !! k = Some h -> refs_of rt hs p = handle_refs rt h p + refs_of rt (delete k hs) p.
Proof.
  revert k. induction hs as [|h' hs IH]; intros [|k] H; [done | done | now injection H as -> |].
  change (delete (S k) (h' :: hs)) with (h' :: delete k hs). rewrite !refs_of_cons, (IH k H). lia.
Qed.

Lemma weak_of_delete hs k h p : hs !! k = Some h -> weak_of hs p = handle_weak h p + weak_of (delete k hs) p.
Proof.
  revert k. induction hs as [|h' hs IH]; intros [|k] H; [done | done | now injection H as -> |].
  change (delete (S k) (h' :: hs)) with (h' :: delete k hs). rewrite !weak_of_cons, (IH k H). lia.
Qed.

Lemma weak_of_le hs p : 0 <= weak_of hs p <= Z.of_nat (length hs).
Proof. induction hs as [|h hs IH]; [done|]. rewrite weak_of_cons. cbn [length]. assert (0 <= handle_weak h p <= 1) by (destruct h; cbn; repeat case_match; lia). lia. Qed.

Lemma Forall_delete {A} (P : A -> Prop) l k : Forall P l -> Forall P (delete k l).
Proof. intros H. revert k. induction H as [|x l Hx Hl IH]; intros [|k]; cbn; [constructor | constructor | done|]. constructor; [done | apply IH]. Qed.

(** ** Handles that are kept *)

Lemma handle_kept rt rt' refs weak refs' weak' h : inv rt refs weak -> inv rt' refs' weak' -> kept rt rt' -> handle_ok rt h ->
  (forall p, handle_refs rt h p <= refs' p) -> (forall p, handle_refs rt' h p = handle_refs rt h p) /\ handle_ok rt' h.
Proof.
  intros I I' K Hh Hr. destruct h as [[p|p]|a|p]; cbn in *; try done.
  - split; [done|]. destruct Hh as (i & s & Hi & Hi0 & Ht). destruct (kept_holds rt rt' refs weak refs' weak' i p s I I' K Hi) as (s' & Hi' & (_ & Ht' & _)).
    + right. specialize (Hr p). rewrite Z.eqb_refl in Hr. lia.
    + exists i, s'. split_and!; [done | done|]. rewrite Ht'; [done|]. destruct (ao_live rt (inv_array _ _ _ I) i p (proj1 Hi)) as (t & Ht0 & ?).
      destruct Hi as [_ Hs]. assert (s = t) as -> by congruence. done.
  - destruct Hh as [Hh|(p & s & Ha & Hh)].
    + assert (__JS_AtomIsConst a = true) as ->; [|split; [done | now left]]. unfold __JS_AtomIsConst, tagged in *. apply Z.ltb_lt.
      rewrite sgn_of_unsigned by (unfold in_u; lia). change (2 ^ (32 - 1)) with (2 ^ 31). destruct (Z.leb_spec (2 ^ 31) a); [|lia]. unfold JS_ATOM_END. lia.
    + assert (permanent a = true \/ 0 < refs' p) as Hl.
      { rewrite (const_ptr rt a p (inv_array _ _ _ I) (proj1 Hh)) in Hr. destruct (permanent a); [now left | right]. specialize (Hr p).
        rewrite (proj1 Hh), Z.eqb_refl in Hr. lia. }
      destruct (kept_holds rt rt' refs weak refs' weak' a p s I I' K Hh Hl) as (s' & Hh' & _).
      split; [|right; now exists p, s']. intros q. now rewrite (proj1 Hh), (proj1 Hh').
Qed.

Lemma handles_kept rt rt' refs weak refs' weak' hs : inv rt refs weak -> inv rt' refs' weak' -> kept rt rt' -> Forall (handle_ok rt) hs ->
  (forall p, refs_of rt hs p <= refs' p) -> (forall p, refs_of rt' hs p = refs_of rt hs p) /\ Forall (handle_ok rt') hs.
Proof.
  intros I I' K Hh Hr. assert (forall h, h ∈ hs -> (forall p, handle_refs rt' h p = handle_refs rt h p) /\ handle_ok rt' h) as H.
  { intros h Hin. apply (handle_kept rt rt' refs weak refs' weak'); try done.
    - rewrite Forall_forall in Hh. now apply Hh.
    - intros p. etransitivity; [|apply Hr]. now apply handle_refs_le. }
  split.
  - intros p. clear Hh Hr. induction hs as [|h hs IH]; [done|]. rewrite !refs_of_cons, (proj1 (H h (list_elem_of_here _ _))). f_equal. apply IH.
    intros h' Hh'. apply H. now apply list_elem_of_further.
  - apply Forall_forall. intros h Hin. now apply H.
Qed.

(** A command that leaves the handles [rest] and adds [added] *)
Lemma client_step rt hs rt' rest added refs' weak' i : client_ok (mk_client rt hs) -> kept rt rt' -> fewer i rt rt' -> inv rt' refs' weak' ->
  Forall (handle_ok rt) rest -> (forall p, refs' p = refs_of rt' added p + refs_of rt rest p) -> (forall p, weak' p = weak_of (added ++ rest) p) ->
  Forall (handle_ok rt') added -> (forall q t n, holds rt' i q t -> atom_type t = JS_ATOM_TYPE_STRING -> is_num_string (content t) = Some n -> JS_ATOM_MAX_INT < n) ->
  client_ok (mk_client rt' (added ++ rest)).
Proof.
  intros [I P H N] K F I' Hrest Hrefs Hweak Hadded Hi. cbn [runtime handles] in *.
  destruct (handles_kept rt rt' _ _ refs' weak' rest I I' K Hrest) as [E Hrest'].
  { intros p. rewrite Hrefs. pose proof (refs_of_nonneg rt' added p). lia. }
  constructor; cbn [runtime handles].
  - destruct I' as [S A T U]. constructor; [|done..]. intros p. specialize (S p). rewrite <- Hweak.
    assert (refs_of rt' (added ++ rest) p = refs' p) as ->; [|done]. rewrite Hrefs, <- E. clear.
    induction added as [|h added IH]; [done|]. cbn [app]. rewrite !refs_of_cons. lia.
  - now apply (all_permanent_kept rt).
  - now apply Forall_app.
  - intros j p s n Hj Ht Hn. destruct (decide (j = i)) as [->|Hji]; [eauto|].
    assert (j <> 0) as Hj0 by (apply (hashed_nonzero rt' j p s (inv_array _ _ _ I') Hj); now rewrite Ht).
    destruct (F j p s Hj Hj0 Hji) as (u & Hu & Et & Ec). apply (N j p u n); congruence.
Qed.

(** ** Integer atoms *)

Lemma tagged_const a : tagged a -> __JS_AtomIsConst a = true.
Proof.
  intros H. unfold __JS_AtomIsConst, tagged in *. apply Z.ltb_lt. rewrite sgn_of_unsigned by (unfold in_u; lia).
  change (2 ^ (32 - 1)) with (2 ^ 31). destruct (Z.leb_spec (2 ^ 31) a); [|lia]. unfold JS_ATOM_END. lia.
Qed.


Lemma land_tag a : 0 <= a < 2 ^ 32 -> Z.land a (2 ^ 31) = if 2 ^ 31 <=? a then 2 ^ 31 else 0.
Proof.
  intros H. apply Z.bits_inj'. intros m Hm. rewrite Z.land_spec, Z.pow2_bits_eqb by lia. destruct (Z.eqb_spec 31 m) as [<-|Hne].
  - rewrite andb_true_r. destruct (Z.leb_spec (2 ^ 31) a).
    + rewrite Z.pow2_bits_true by lia. rewrite Z.testbit_true by lia. replace (a / 2 ^ 31) with 1; [done|]. apply Z.div_unique with (a - 2 ^ 31); lia.
    + rewrite Z.bits_0. apply Z.testbit_false; [lia|]. rewrite Z.div_small by lia. done.
  - rewrite andb_false_r. destruct (Z.leb_spec (2 ^ 31) a); [now rewrite Z.pow2_bits_false by lia | now rewrite Z.bits_0].
Qed.

Lemma is_tagged a : 0 <= a < 2 ^ 32 -> __JS_AtomIsTaggedInt a = true <-> tagged a.
Proof.
  intros H. unfold __JS_AtomIsTaggedInt, JS_ATOM_TAG_INT, tagged. rewrite land_tag by done. destruct (Z.leb_spec (2 ^ 31) a); cbn; split; try done; lia.
Qed.

Lemma from_uint32_eq n : 0 <= n < 2 ^ 31 -> __JS_AtomFromUInt32 n = n + 2 ^ 31.
Proof.
  intros H. unfold __JS_AtomFromUInt32, JS_ATOM_TAG_INT. pose proof (land_tag n) as L. pose proof (Z.add_lor_land n (2 ^ 31)) as E.
  destruct (Z.leb_spec (2 ^ 31) n); lia.
Qed.

Lemma to_uint32_eq a : tagged a -> __JS_AtomToUInt32 a = a - 2 ^ 31.
Proof.
  unfold tagged, __JS_AtomToUInt32, JS_ATOM_MAX_INT, JS_ATOM_TAG_INT. intros H. rewrite land_pow2_mask by lia.
  symmetry. apply Z.mod_unique with 1; lia.
Qed.

Lemma from_uint32_tagged n : 0 <= n < 2 ^ 31 -> tagged (__JS_AtomFromUInt32 n).
Proof. intros H. rewrite from_uint32_eq by done. unfold tagged. lia. Qed.

Lemma index_not_tagged rt a p : array_ok rt -> atom_ptr rt a = Some p -> __JS_AtomIsTaggedInt a = false.
Proof.
  intros A H. pose proof (ptr_range rt a p A H) as [? ?]. unfold JS_ATOM_MAX in *. destruct (__JS_AtomIsTaggedInt a) eqn:E; [|done].
  apply is_tagged in E; [unfold tagged in E; lia | lia].
Qed.

(** ** Atoms and symbols that are made *)

Lemma is_num_string_units s s' : str s = str s' -> is_num_string s = is_num_string s'.
Proof. intros E. unfold is_num_string. now rewrite E. Qed.

Lemma made_atom_client rt hs rest refs0 s h type r : client_ok (mk_client rt hs) -> made rt (weak_of hs) refs0 s h type r ->
  Forall (handle_ok rt) rest -> (forall p, refs0 p = refs_of rt rest p) -> (forall p, weak_of rest p = weak_of hs p) ->
  (type = JS_ATOM_TYPE_STRING -> forall n, is_num_string s = Some n -> JS_ATOM_MAX_INT < n) ->
  exists i rt', r = Some (i, rt') /\ client_ok (mk_client rt' (add_atom i rest)).
Proof.
  intros C (i & rt' & -> & K & F & H) Hrest Hrefs Hweak Hnum. exists i, rt'. split; [done|]. unfold add_atom.
  destruct H as [[-> I']|(Hi & (q & t & Hq & Ec & Et & _) & _ & refs' & Hrefs' & I')].
  - apply (client_step rt hs rt' rest [] refs0 (weak_of hs) 0); try done.
    intros q t n Hq Ht _. pose proof (hashed_nonzero rt' 0 q t (inv_array _ _ _ I') Hq) as Hz. rewrite Ht in Hz. now destruct Hz.
  - destruct (Z.eqb_spec i JS_ATOM_NULL) as [E|_]; [unfold JS_ATOM_NULL in E; lia|].
    apply (client_step rt hs rt' rest [HAtom i] refs' (weak_of hs) i); try done.
    + intros p. rewrite refs_of_cons. cbn [handle_refs]. rewrite (const_ptr rt' i q (inv_array _ _ _ I') (proj1 Hq)). unfold refs_after in Hrefs'.
      destruct (permanent i); [rewrite Hrefs', Hrefs; cbn; lia|]. destruct Hrefs' as (q' & Hq' & E). rewrite E, Hq'. unfold inc. rewrite Hrefs.
      cbn [refs_of foldr]. destruct (p =? q'); lia.
    + intros p. exact (eq_sym (Hweak p)).
    + constructor; [|constructor]. right. exists q, t. done.
    + intros q' t' n Hq' Ht' Hn. destruct (holds_inj rt' i q t q' t' Hq Hq') as [_ <-]. rewrite (is_num_string_units _ s Ec) in Hn. apply Hnum; congruence.
Qed.

(** A new symbol has an index of its own, and a global symbol is not predefined. *)
Lemma made_symbol_index rt rt' refs weak refs' weak' i s h type : inv rt refs weak -> all_permanent rt -> kept rt rt' -> inv rt' refs' weak' -> 0 < i ->
  is_new_atom rt' i s h type -> type <> JS_ATOM_TYPE_STRING -> new_symbol_index rt rt' i type -> permanent i = false.
Proof.
  intros I P K I' Hi (q & t & Hq & _ & Et & _) Hns Hnew. destruct (permanent i) eqn:Ep; [|done]. exfalso.
  destruct (inv_ptr rt' refs' weak' i q I' (proj1 Hq)) as (t' & Hq' & _ & Hl & _). destruct (holds_inj rt' i q t q t' Hq Hq') as [_ <-].
  pose proof (inv_struct rt' refs' weak' q t I' (proj2 Hq)) as (_ & _ & _ & _ & [(_ & _ & _ & _ & Hn)|[(_ & _ & _ & j & Hj & _ & _ & Hperm)|(Ht & _)]]).
  - now apply (Hn i), Hq.
  - assert (j = i) as -> by (eapply ao_inj; [apply I' | exact Hj | apply Hq]). apply Hns. rewrite <- Et. auto.
  - destruct (P i ltac:(lia) Ep) as [r Hr]. assert (r = q) as -> by (pose proof (k_perm _ _ K i r Ep Hr); destruct Hq; congruence).
    apply (Hnew ltac:(congruence) q); [|done | exists t; split; [apply Hq | done]]. destruct (inv_ptr rt refs weak i q I Hr) as (u & [_ Hu] & _). eapply inv_next; eauto.
Qed.

Definition symbol_result (r : option (Z * JSRuntime)) : option (option value * JSRuntime) :=
  '(atom, rt) ← r; if atom =? JS_ATOM_NULL then Some (None, rt) else q ← atom_ptr rt atom; Some (Some (VSymbol q), rt).

Lemma made_symbol_client rt hs rest refs0 s h type r : client_ok (mk_client rt hs) -> made rt (weak_of hs) refs0 s h type r ->
  Forall (handle_ok rt) rest -> (forall p, refs0 p = refs_of rt rest p) -> (forall p, weak_of rest p = weak_of hs p) -> type <> JS_ATOM_TYPE_STRING ->
  exists v rt', symbol_result r = Some (v, rt') /\ client_ok (mk_client rt' (add_value v rest)).
Proof.
  intros C (i & rt' & -> & K & F & H) Hrest Hrefs Hweak Hns. unfold symbol_result. cbn [mbind option_bind].
  destruct H as [[-> I']|(Hi & Hnew & Hidx & refs' & Hrefs' & I')].
  - exists None, rt'. split; [done|]. apply (client_step rt hs rt' rest [] refs0 (weak_of hs) 0); try done.
    intros q t n Hq Ht _. pose proof (hashed_nonzero rt' 0 q t (inv_array _ _ _ I') Hq) as Hz. rewrite Ht in Hz. now destruct Hz.
  - pose proof (made_symbol_index rt rt' _ _ refs' _ i s h type (co_inv _ C) (co_perm _ C) K I' Hi Hnew Hns Hidx) as Ep.
    destruct Hnew as (q & t & Hq & Ec & Et & _). destruct (Z.eqb_spec i JS_ATOM_NULL) as [E|_]; [unfold JS_ATOM_NULL in E; lia|].
    rewrite (proj1 Hq). cbn [mbind option_bind]. exists (Some (VSymbol q)), rt'. split; [done|].
    apply (client_step rt hs rt' rest [HValue (VSymbol q)] refs' (weak_of hs) i); try done.
    + intros p. rewrite refs_of_cons. cbn [handle_refs value_ptr refs_of foldr]. unfold refs_after in Hrefs'. rewrite Ep in Hrefs'.
      destruct Hrefs' as (q' & Hq' & E). assert (q' = q) as -> by (destruct Hq; congruence). rewrite E. unfold inc. rewrite Hrefs. destruct (p =? q); lia.
    + intros p. exact (eq_sym (Hweak p)).
    + constructor; [|constructor]. exists i, t. split_and!; [done | done | congruence].
    + intros q' t' n Hq' Ht'. destruct (holds_inj rt' i q t q' t' Hq Hq') as [_ <-]. congruence.
Qed.

(** ** Every command *)

Lemma alloc_string_fewer i rt refs weak s r rt' : inv rt refs weak -> wf_string s -> js_alloc_string_rt rt s = (r, rt') -> fewer i rt rt'.
Proof.
  intros I Hs E. pose proof E as E'. destruct (alloc_string_ok rt refs weak s r rt' I Hs E) as (_ & T & P). unfold js_alloc_string_rt in E'.
  destruct (js_malloc_rt rt) as [[p|] rt1] eqn:Em; injection E' as <- <-.
  - destruct P as (_ & _ & _ & Hn & Hrest). intros j q t [Hj1 Hj2] _ _. exists t. split; [|done]. rewrite (same_tables_ptr rt _) in Hj1 by exact T.
    destruct (ao_live rt (inv_array _ _ _ I) j q Hj1) as (u & Hu & _). split; [done|]. rewrite <- Hrest; [done | congruence].
  - destruct (malloc_ok rt refs weak _ _ I Em) as (_ & _ & _ & S & _). now apply same_strings_fewer.
Qed.

(** No string atom at the index 0 *)
Lemma no_atom_zero rt refs weak q t n : inv rt refs weak -> holds rt 0 q t -> atom_type t = JS_ATOM_TYPE_STRING -> is_num_string (content t) = Some n -> JS_ATOM_MAX_INT < n.
Proof. intros I Hq Ht _. destruct (hashed_nonzero rt 0 q t (inv_array _ _ _ I) Hq); [now rewrite Ht | done]. Qed.

Lemma new_string_client rt hs s r rt' : client_ok (mk_client rt hs) -> wf_string s -> js_alloc_string_rt rt s = (r, rt') ->
  client_ok (mk_client rt' (add_value (VString <$> r) hs)).
Proof.
  intros C Hs E. pose proof (co_inv _ C) as I. destruct (alloc_string_ok rt _ _ s r rt' I Hs E) as (K & T & P).
  pose proof (alloc_string_fewer 0 rt _ _ s r rt' I Hs E) as F. pose proof (co_handles _ C) as H. destruct r as [p|]; cbn [add_value fmap option_fmap option_map].
  - destruct P as (I' & _). apply (client_step rt hs rt' hs [HValue (VString p)] _ _ 0 C K F I'); try done; [| now constructor|].
    + intros q. rewrite refs_of_cons. cbn [handle_refs value_ptr refs_of foldr runtime handles]. unfold inc. unfold refs_of. destruct (q =? p); lia.
    + intros q t n. now apply (no_atom_zero rt' _ _ q t n I').
  - apply (client_step rt hs rt' hs [] _ _ 0 C K F P); try done. intros q t n. now apply (no_atom_zero rt' _ _ q t n P).
Qed.

Lemma value_live rt hs v : client_ok (mk_client rt hs) -> HValue v ∈ hs -> 0 < refs_of rt hs (value_ptr v).
Proof. intros _ H. pose proof (handle_refs_le rt _ hs (value_ptr v) H) as Hr. cbn in Hr. rewrite Z.eqb_refl in Hr. lia. Qed.

Lemma dup_string_fewer i rt p rt' : dup_string rt p = Some rt' -> fewer i rt rt'.
Proof. unfold dup_string. destruct (strings rt !! p) as [s|] eqn:Hs; [|done]. intros [= <-]. apply shrunk_fewer, shrunk_count, Hs. Qed.

(** A new reference to the structure [p], for the value [v] *)
Lemma dup_value_client rt hs v : client_ok (mk_client rt hs) -> live rt (value_ptr v) -> handle_ok rt (HValue v) ->
  exists rt', dup_string rt (value_ptr v) = Some rt' /\ client_ok (mk_client rt' (HValue v :: hs)).
Proof.
  intros C Hl Hv. destruct (dup_string_ok rt _ _ (value_ptr v) (co_inv _ C) Hl) as (rt' & E & I' & K). exists rt'. split; [done|].
  pose proof (dup_string_fewer 0 rt _ rt' E) as F. cbn [runtime handles] in I'.
  destruct (handle_kept rt rt' _ _ _ _ (HValue v) (co_inv _ C) I' K Hv) as [_ Hv'].
  { intros q. cbn [handle_refs]. unfold inc. pose proof (refs_of_nonneg rt hs q). destruct (q =? value_ptr v); lia. }
  apply (client_step rt hs rt' hs [HValue v] _ _ 0 C K F I'); try done; [apply C | | now constructor|].
  - intros q. rewrite refs_of_cons. cbn [handle_refs refs_of foldr]. unfold inc. destruct (q =? value_ptr v); unfold refs_of; lia.
  - intros q t n. now apply (no_atom_zero rt' _ _ q t n I').
Qed.

Lemma dup_atom_client rt hs a p : client_ok (mk_client rt hs) -> 0 < a -> atom_ptr rt a = Some p ->
  exists rt', JS_DupAtom rt a = Some (a, rt') /\ client_ok (mk_client rt' (HAtom a :: hs)).
Proof.
  intros C Ha Hp. pose proof (co_inv _ C) as I. cbn [runtime handles] in I. destruct (dup_atom_ok rt _ _ a p I Hp) as (rt' & E & I' & K). exists rt'. split; [done|].
  assert (fewer 0 rt rt') as F.
  { unfold JS_DupAtom in E. destruct (negb _); [|injection E as <-; apply fewer_refl]. rewrite Hp in E. cbn [mbind option_bind] in E.
    destruct (dup_string rt p) as [rt1|] eqn:E1; [|done]. injection E as <-. now apply (dup_string_fewer 0 rt p). }
  destruct (inv_ptr rt _ _ a p I Hp) as (s & Hs & _). destruct (kept_holds rt rt' _ _ _ _ a p s I I' K Hs) as (s' & Hs' & _).
  { destruct (permanent a); [now left | right]. rewrite inc_eq. pose proof (refs_of_nonneg rt hs p). lia. }
  apply (client_step rt hs rt' hs [HAtom a] _ _ 0 C K F I'); try done; [apply C | | |].
  - intros q. rewrite refs_of_cons. cbn [handle_refs refs_of foldr]. rewrite (const_ptr rt' a p (inv_array _ _ _ I') (proj1 Hs')), (proj1 Hs').
    destruct (permanent a); [unfold refs_of; lia|]. unfold inc. destruct (q =? p); unfold refs_of; lia.
  - constructor; [|constructor]. right. now exists p, s'.
  - intros q t n. now apply (no_atom_zero rt' _ _ q t n I').
Qed.

Lemma dup_client rt hs k h : client_ok (mk_client rt hs) -> hs !! k = Some h -> exists st', step (CDup k) (mk_client rt hs) = Some st' /\ client_ok st'.
Proof.
  intros C Hk. pose proof (list_elem_of_lookup_2 _ _ _ Hk) as Hin. pose proof (co_handles _ C) as H. rewrite Forall_forall in H. specialize (H h Hin).
  cbn [step runtime handles] in *. rewrite Hk. destruct h as [v|a|p]; [| |now exists (mk_client rt hs)].
  - destruct (inv_live rt _ _ (value_ptr v) (co_inv _ C) (value_live rt hs v C Hin)) as (s & Hs & Hr).
    destruct (dup_value_client rt hs v C) as (rt' & E & C'); [now exists s | done|]. rewrite E. cbn. eauto.
  - destruct H as [H|(p & s & Ha & Hp)].
    + unfold JS_DupAtom. rewrite (tagged_const a H). cbn. eexists. split; [reflexivity|].
      apply (client_step rt hs rt hs [HAtom a] _ _ 0 C (kept_refl rt) (fewer_refl 0 rt) (co_inv _ C)); try done; [apply C | | |].
      * intros q. rewrite refs_of_cons. cbn [handle_refs]. rewrite (tagged_const a H). done.
      * constructor; [now left | constructor].
      * intros q t n. now apply (no_atom_zero rt _ _ q t n (co_inv _ C)).
    + destruct (dup_atom_client rt hs a p C Ha (proj1 Hp)) as (rt' & E & C'). rewrite E. cbn. eauto.
Qed.

Lemma elem_delete {A} (l : list A) k x : x ∈ delete k l -> x ∈ l.
Proof.
  revert k. induction l as [|y l IH]; intros [|k] H; [done | done | now apply list_elem_of_further |].
  change (delete (S k) (y :: l)) with (y :: delete k l) in H. apply elem_of_cons in H as [->|H]; [apply list_elem_of_here | apply list_elem_of_further; eauto].
Qed.

(** Dropping the handle [k] *)
Lemma drop_client rt hs k h rt' refs' weak' : client_ok (mk_client rt hs) -> hs !! k = Some h -> kept rt rt' -> fewer 0 rt rt' -> inv rt' refs' weak' ->
  (forall p, refs' p = refs_of rt hs p - handle_refs rt h p) -> (forall p, weak' p = weak_of hs p - handle_weak h p) ->
  client_ok (mk_client rt' (delete k hs)).
Proof.
  intros C Hk K F I' Hr Hw. apply (client_step rt hs rt' (delete k hs) [] refs' weak' 0 C K F I'); try done.
  - apply Forall_delete, C.
  - intros p. rewrite Hr, (refs_of_delete rt hs k h p Hk). now rewrite Z.add_simpl_l.
  - intros p. rewrite Hw, (weak_of_delete hs k h p Hk). now rewrite Z.add_simpl_l.
  - intros q t n. now apply (no_atom_zero rt' _ _ q t n I').
Qed.

Lemma weakref_free_fewer rt p rt' : (forall s, strings rt !! p = Some s -> atom_type s = JS_ATOM_TYPE_SYMBOL) -> js_weakref_free rt p = Some rt' -> fewer 0 rt rt'.
Proof.
  intros Ht. unfold js_weakref_free. destruct (strings rt !! p) as [s|] eqn:Hs; [|done]. cbn [mbind option_bind]. destruct (hash s <? 1); [done|].
  assert (forall q t, strings (set_string rt p (with_hash s (hash s - 1))) !! q = Some t -> exists u, strings rt !! q = Some u /\ atom_type t = atom_type u /\ content t = content u) as H.
  { intros q t Hq. cbn in Hq. apply lookup_insert_Some in Hq as [[<- <-]|[_ Hq]]; [now exists s | now exists t]. }
  destruct (_ && _); intros [= <-] j q t [Hj1 Hj2] _ _.
  - cbn in Hj2. apply lookup_delete_Some in Hj2 as [_ Hj2]. destruct (H q t Hj2) as (u & Hu & ?). now exists u.
  - destruct (H q t Hj2) as (u & Hu & ?). now exists u.
Qed.

Lemma free_client rt hs k h : client_ok (mk_client rt hs) -> hs !! k = Some h -> exists st', step (CFree k) (mk_client rt hs) = Some st' /\ client_ok st'.
Proof.
  intros C Hk. pose proof (list_elem_of_lookup_2 _ _ _ Hk) as Hin. pose proof (co_handles _ C) as H. rewrite Forall_forall in H. specialize (H h Hin).
  pose proof (co_inv _ C) as I. cbn [step runtime handles] in *. rewrite Hk. destruct h as [v|a|p].
  - destruct (js_free_string_ok rt _ _ (value_ptr v) I (value_live rt hs v C Hin)) as (rt' & E & I' & K & S). rewrite E. cbn [mbind option_bind].
    eexists. split; [reflexivity|]. apply (drop_client rt hs k (HValue v) rt' _ _ C Hk K (shrunk_fewer 0 _ _ S) I').
    + intros q. unfold dec. cbn [handle_refs]. destruct (q =? value_ptr v); lia.
    + intros q. cbn. lia.
  - destruct H as [H|(p & s & Ha & Hp)].
    + unfold JS_FreeAtom. rewrite (tagged_const a H). cbn [negb mbind option_bind]. eexists. split; [reflexivity|].
      apply (drop_client rt hs k (HAtom a) rt _ _ C Hk (kept_refl rt) (fewer_refl 0 rt) I); intros q; cbn [handle_refs handle_weak]; rewrite ?(tagged_const a H); lia.
    + pose proof (const_ptr rt a p (inv_array _ _ _ I) (proj1 Hp)) as Ec.
      destruct (free_atom_ok rt _ _ a p I (proj1 Hp)) as (rt' & E & I' & K & F).
      { intros Ep. pose proof (handle_refs_le rt _ hs p Hin) as Hr. cbn [handle_refs] in Hr. rewrite Ec, Ep, (proj1 Hp), Z.eqb_refl in Hr. lia. }
      rewrite E. cbn [mbind option_bind]. eexists. split; [reflexivity|]. apply (drop_client rt hs k (HAtom a) rt' _ _ C Hk K F I').
      * intros q. cbn [handle_refs]. rewrite Ec, (proj1 Hp). destruct (permanent a); [lia|]. unfold dec. destruct (q =? p); lia.
      * intros q. cbn. lia.
  - assert (0 < weak_of hs p) as Hw.
    { rewrite (weak_of_delete hs k _ p Hk). cbn [handle_weak]. rewrite Z.eqb_refl. pose proof (weak_of_le (delete k hs) p). lia. }
    destruct (weakref_free_ok rt _ _ p I Hw) as (rt' & E & I' & K). rewrite E. cbn [mbind option_bind]. eexists. split; [reflexivity|].
    assert (fewer 0 rt rt') as F.
    { apply (weakref_free_fewer rt p); [|done]. intros s Hs. pose proof (inv_struct rt _ _ p s I Hs) as (_ & _ & _ & _ & [(_ & ? & _)|[(_ & ? & _)|(? & _)]]); [lia | lia | done]. }
    apply (drop_client rt hs k (HWeak p) rt' _ _ C Hk K F I').
    + intros q. cbn. lia.
    + intros q. unfold dec. cbn [handle_weak]. destruct (q =? p); lia.
Qed.

(** Taking the reference of the handle [k] *)
Lemma taken_refs rt hs k v p : hs !! k = Some (HValue v) -> dec (refs_of rt hs) (value_ptr v) p = refs_of rt (delete k hs) p.
Proof. intros Hk. unfold dec. rewrite (refs_of_delete rt hs k _ p Hk). cbn [handle_refs]. destruct (p =? value_ptr v); lia. Qed.

Lemma taken_weak hs k v p : hs !! k = Some (HValue v) -> weak_of (delete k hs) p = weak_of hs p.
Proof. intros Hk. rewrite (weak_of_delete hs k _ p Hk). done. Qed.

Lemma JS_MAX_INT_eq : JS_ATOM_MAX_INT = 2 ^ 31 - 1.
Proof. done. Qed.

Lemma new_atom_str_client rt hs k p : client_ok (mk_client rt hs) -> atom_size rt * 3 < 2 ^ 31 -> hs !! k = Some (HValue (VString p)) ->
  exists st', step (CNewAtomStr k) (mk_client rt hs) = Some st' /\ client_ok st'.
Proof.
  intros C Hsm Hk. pose proof (list_elem_of_lookup_2 _ _ _ Hk) as Hin. pose proof (co_inv _ C) as I. cbn [step runtime handles] in *. rewrite Hk.
  pose proof (value_live rt hs _ C Hin) as Hr. cbn [value_ptr] in Hr. destruct (inv_live rt _ _ p I Hr) as (s & Hs & _). unfold JS_NewAtomStr. rewrite Hs. cbn [mbind option_bind].
  assert ((forall n, is_num_string (content s) = Some n -> JS_ATOM_MAX_INT < n) ->
    exists a rt', __JS_NewAtom rt (Some p) JS_ATOM_TYPE_STRING = Some (a, rt') /\ client_ok (mk_client rt' (add_atom a (delete k hs)))) as Hnew.
  { intros Hn. pose proof (js_new_atom_ok rt _ _ p s JS_ATOM_TYPE_STRING I Hsm Hs Hr ltac:(unfold JS_ATOM_TYPE_STRING; lia) ltac:(done)) as M.
    apply (made_atom_client rt hs (delete k hs) _ _ _ _ _ C M); [apply Forall_delete, C | | | done].
    - intros q. now apply (taken_refs rt hs k (VString p)).
    - intros q. now apply (taken_weak hs k (VString p)). }
  destruct (is_num_string (content s)) as [n|] eqn:En; [destruct (Z.leb_spec n JS_ATOM_MAX_INT) as [Hle|Hgt]|].
  - destruct (js_free_string_ok rt _ _ p I Hr) as (rt' & -> & I' & K & S). cbn [mbind option_bind]. eexists. split; [reflexivity|].
    apply u32toa_is_num_string in En as [Hn _]. unfold in_u in Hn. rewrite JS_MAX_INT_eq in Hle.
    pose proof (from_uint32_tagged n ltac:(lia)) as Ht. unfold add_atom. destruct (Z.eqb_spec (__JS_AtomFromUInt32 n) JS_ATOM_NULL) as [E|_]; [rewrite E in Ht; unfold tagged, JS_ATOM_NULL in Ht; lia|].
    apply (client_step rt hs rt' (delete k hs) [HAtom _] _ _ 0 C K (shrunk_fewer 0 _ _ S) I'); [apply Forall_delete, C | | | |].
    + intros q. rewrite (taken_refs rt hs k (VString p)) by done. cbn [refs_of foldr handle_refs]. rewrite (tagged_const _ Ht). done.
    + intros q. exact (eq_sym (taken_weak hs k (VString p) q Hk)).
    + constructor; [now left | constructor].
    + intros q t m. now apply (no_atom_zero rt' _ _ q t m I').
  - destruct Hnew as (a & rt' & E & C'); [now intros m [= <-]|]. rewrite E. cbn [mbind option_bind]. eauto.
  - destruct Hnew as (a & rt' & E & C'); [done|]. rewrite E. cbn [mbind option_bind]. eauto.
Qed.

Lemma symbol_result_eq rt p type : JS_NewSymbol rt p type = symbol_result (__JS_NewAtom rt p type).
Proof. done. Qed.

Lemma new_symbol_client rt hs k p type : client_ok (mk_client rt hs) -> atom_size rt * 3 < 2 ^ 31 -> hs !! k = Some (HValue (VString p)) ->
  2 <= type <= 4 -> exists v rt', JS_NewSymbol rt (Some p) type = Some (v, rt') /\ client_ok (mk_client rt' (add_value v (delete k hs))).
Proof.
  intros C Hsm Hk Htype. pose proof (list_elem_of_lookup_2 _ _ _ Hk) as Hin. pose proof (co_inv _ C) as I. cbn [runtime handles] in *.
  pose proof (value_live rt hs _ C Hin) as Hr. cbn [value_ptr] in Hr. destruct (inv_live rt _ _ p I Hr) as (s & Hs & _).
  pose proof (js_new_atom_ok rt _ _ p s type I Hsm Hs Hr ltac:(lia) (fun _ => co_perm _ C)) as M. rewrite symbol_result_eq.
  apply (made_symbol_client rt hs (delete k hs) _ _ _ _ _ C M); [apply Forall_delete, C | | |].
  - intros q. now apply (taken_refs rt hs k (VString p)).
  - intros q. now apply (taken_weak hs k (VString p)).
  - unfold made_type, JS_ATOM_TYPE_SYMBOL, JS_ATOM_TYPE_STRING. destruct (type <? 3); lia.
Qed.

Lemma new_symbol_null_client rt hs : client_ok (mk_client rt hs) -> atom_size rt * 3 < 2 ^ 31 ->
  exists v rt', JS_NewSymbol rt None JS_ATOM_TYPE_SYMBOL = Some (v, rt') /\ client_ok (mk_client rt' (add_value v hs)).
Proof.
  intros C Hsm. pose proof (new_atom_null_ok rt _ _ 0 (co_inv _ C) Hsm ltac:(now right) (co_perm _ C)) as M. rewrite symbol_result_eq.
  now apply (made_symbol_client rt hs hs _ _ _ _ _ C M); [apply C | | |].
Qed.

(** [JS_NewSymbolFromAtom] takes a reference to the description first. *)
Lemma new_symbol_from_atom_client rt hs a p type : client_ok (mk_client rt hs) -> atom_size rt * 3 < 2 ^ 31 -> 0 < a -> atom_ptr rt a = Some p ->
  2 <= type <= 4 -> exists v rt', JS_NewSymbolFromAtom rt a type = Some (v, rt') /\ client_ok (mk_client rt' (add_value v hs)).
Proof.
  intros C Hsm Ha Hp Htype. pose proof (co_inv _ C) as I. cbn [runtime handles] in *. pose proof (ptr_range rt a p (inv_array _ _ _ I) Hp) as [Hrange _].
  unfold JS_NewSymbolFromAtom. rewrite (index_not_tagged rt a p (inv_array _ _ _ I) Hp). destruct (Z.leb_spec (atom_size rt) a); [lia|]. cbn [orb].
  rewrite Hp. cbn [mbind option_bind]. destruct (inv_ptr rt _ _ a p I Hp) as (s & [_ Hs] & _ & Hl & _).
  destruct (dup_value_client rt hs (VString p) C) as (rt1 & E & C1); [now exists s | done|]. cbn [value_ptr] in E. rewrite E. cbn [mbind option_bind].
  apply (new_symbol_client rt1 (HValue (VString p) :: hs) 0 p type C1); [|done | done].
  unfold dup_string in E. rewrite Hs in E. injection E as <-. exact Hsm.
Qed.

Lemma prints_bytes n s : prints 10 n s -> wf_string (mk_string false s).
Proof.
  intros [[D _] _]. unfold wf_string. cbn. eapply Forall_impl; [exact D|]. intros c (d & Hd & ->). unfold to_digit, in_u. destruct (Z.ltb_spec d 10); lia.
Qed.

Lemma new_digits_client rt hs s : client_ok (mk_client rt hs) -> atom_size rt * 3 < 2 ^ 31 -> wf_string (mk_string false s) ->
  (forall n, is_num_string (mk_string false s) = Some n -> JS_ATOM_MAX_INT < n) ->
  exists a rt', new_atom_digits rt (Some s) = Some (a, rt') /\ client_ok (mk_client rt' (add_atom a hs)).
Proof.
  intros C Hsm Hwf Hn. unfold new_atom_digits, js_new_string8_len. cbn [mbind option_bind]. destruct (js_alloc_string_rt rt (mk_string false s)) as [r rt1] eqn:E.
  pose proof (new_string_client rt hs _ _ _ C Hwf E) as C1. destruct (alloc_string_ok rt _ _ _ _ _ (co_inv _ C) Hwf E) as (_ & T & P).
  destruct r as [p|]; cbn [add_value fmap option_fmap option_map] in C1.
  - destruct P as (_ & Hp & _). pose proof T as (_ & _ & E3 & _). pose proof (co_inv _ C1) as I1. cbn [runtime handles] in I1.
    pose proof (value_live rt1 _ (VString p) C1 (list_elem_of_here _ _)) as Hr. cbn [value_ptr] in Hr.
    pose proof (js_new_atom_ok rt1 _ _ p _ JS_ATOM_TYPE_STRING I1 ltac:(lia) Hp Hr ltac:(unfold JS_ATOM_TYPE_STRING; lia) ltac:(done)) as M.
    apply (made_atom_client rt1 (HValue (VString p) :: hs) hs _ _ _ _ _ C1 M); [apply Forall_inv_tail with (HValue (VString p)), C1 | | done | done].
    intros q. now apply (taken_refs rt1 (HValue (VString p) :: hs) 0 (VString p)).
  - exists JS_ATOM_NULL, rt1. done.
Qed.

(** Handles of integers hold no reference. *)
Lemma tagged_client rt hs a : client_ok (mk_client rt hs) -> tagged a -> client_ok (mk_client rt (HAtom a :: hs)).
Proof.
  intros C Ht. apply (client_step rt hs rt hs [HAtom a] _ _ 0 C (kept_refl rt) (fewer_refl 0 rt) (co_inv _ C)); try done; [apply C | | |].
  - intros q. rewrite refs_of_cons. cbn [handle_refs]. now rewrite (tagged_const a Ht).
  - constructor; [now left | constructor].
  - intros q t n. now apply (no_atom_zero rt _ _ q t n (co_inv _ C)).
Qed.

Lemma add_tagged a hs : tagged a -> add_atom a hs = HAtom a :: hs.
Proof. intros H. unfold add_atom. destruct (Z.eqb_spec a JS_ATOM_NULL) as [->|]; [unfold tagged, JS_ATOM_NULL in H; lia | done]. Qed.

Lemma new_uint32_client rt hs n : client_ok (mk_client rt hs) -> atom_size rt * 3 < 2 ^ 31 -> in_u 32 n ->
  exists a rt', JS_NewAtomUInt32 rt n = Some (a, rt') /\ client_ok (mk_client rt' (add_atom a hs)).
Proof.
  intros C Hsm Hn. unfold JS_NewAtomUInt32. pose proof Hn as Hn'. unfold in_u in Hn'. destruct (Z.leb_spec n JS_ATOM_MAX_INT) as [Hle|Hgt].
  - rewrite JS_MAX_INT_eq in Hle. pose proof (from_uint32_tagged n ltac:(lia)) as Ht. eexists _, rt. split; [reflexivity|]. rewrite add_tagged by done. now apply tagged_client.
  - destruct (u32toa_prints n Hn) as (s & -> & P). apply new_digits_client; [done | done | now apply (prints_bytes n)|].
    intros m [[_ Em] _]%is_num_string_spec. destruct P as [_ En]. cbn [str] in Em. lia.
Qed.

Lemma new_int64_client rt hs n : client_ok (mk_client rt hs) -> atom_size rt * 3 < 2 ^ 31 -> in_s 64 n ->
  exists a rt', JS_NewAtomInt64 rt n = Some (a, rt') /\ client_ok (mk_client rt' (add_atom a hs)).
Proof.
  intros C Hsm Hn. unfold JS_NewAtomInt64. unfold in_s in Hn. rewrite JS_MAX_INT_eq. destruct (Z.leb_spec (u64 n) (2 ^ 31 - 1)) as [Hle|Hgt].
  - assert (0 <= n <= 2 ^ 31 - 1) as Hr.
    { destruct (decide (0 <= n)) as [H0|H0]; [rewrite wrap_small in Hle by (unfold in_u; lia); lia|]. rewrite (wrap_unique 64 n (n + 2 ^ 64) (-1)) in Hle by (unfold in_u; lia). lia. }
    rewrite (wrap_small 32) by (unfold in_u; lia). pose proof (from_uint32_tagged n ltac:(lia)) as Ht. eexists _, rt. split; [reflexivity|].
    rewrite add_tagged by done. now apply tagged_client.
  - unfold i64toa. destruct (Z.leb_spec 0 n) as [H0|H0].
    + rewrite wrap_small in Hgt by (unfold in_u; lia). destruct (u64toa_prints n) as (s & -> & P); [unfold in_u; lia|].
      apply new_digits_client; [done | done | now apply (prints_bytes n)|]. intros m [[_ Em] _]%is_num_string_spec. destruct P as [_ En]. cbn [str] in Em. rewrite JS_MAX_INT_eq. lia.
    + assert (in_u 64 (u64 (- u64 n))) as Hu by (apply wrap_range; lia). destruct (u64toa_prints _ Hu) as (s & -> & P). cbn [mbind option_bind].
      apply new_digits_client; [done | done | |].
      * pose proof (prints_bytes _ s P) as Hwf. unfold wf_string in *. cbn in *. constructor; [unfold in_u; lia | done].
      * intros m [[[D _] _] _]%is_num_string_spec. cbn in D. apply Forall_cons_1 in D as [(d & Hd & E) _]. unfold to_digit in E. destruct (Z.ltb_spec d 10); lia.
Qed.

Lemma find_atom_client rt hs l : client_ok (mk_client rt hs) -> exists a rt', __JS_FindAtom rt l = Some (a, rt') /\ client_ok (mk_client rt' (add_atom a hs)).
Proof.
  intros C. pose proof (co_inv _ C) as I. cbn [runtime handles] in I. unfold __JS_FindAtom.
  set (h := Z.land (hash_string8 l JS_ATOM_TYPE_STRING) JS_ATOM_HASH_MASK) in *.
  destruct (in_bucket_ok rt (same_ascii h l) h (inv_table _ _ _ I)) as (first & i & -> & Ei & H). cbn [mbind option_bind]. rewrite Ei. cbn [mbind option_bind].
  destruct (Z.eqb_spec i 0) as [->|Hi]; cbn [negb]; [exists JS_ATOM_NULL, rt; done|]. destruct H as [[? _]|[_ (q & s & Hq & _)]]; [done|].
  pose proof (ptr_range rt i q (inv_array _ _ _ I) (proj1 Hq)) as [Hr _]. destruct (dup_atom_client rt hs i q C ltac:(lia) (proj1 Hq)) as (rt' & E & C').
  exists i, rt'. unfold add_atom. destruct (Z.eqb_spec i JS_ATOM_NULL) as [E0|_]; [now destruct Hi|]. split; [|done].
  rewrite (proj1 Hq). cbn [mbind option_bind]. unfold JS_DupAtom in E. destruct (negb (__JS_AtomIsConst i)); [|exact E].
  rewrite (proj1 Hq) in E. exact E.
Qed.

Lemma const_atom_client rt hs i : client_ok (mk_client rt hs) -> 0 < i < JS_ATOM_END -> client_ok (mk_client rt (HAtom i :: hs)).
Proof.
  intros C Hi. assert (permanent i = true) as Ep by (apply Z.ltb_lt; lia). destruct (co_perm _ C i) as [p Hp]; [lia | done|]. cbn [runtime] in Hp.
  pose proof (dup_atom_client rt hs i p C) as D. unfold JS_DupAtom in D. rewrite (const_ptr rt i p (inv_array _ _ _ (co_inv _ C)) Hp), Ep in D.
  destruct D as (rt' & [= <-] & C'); [lia | done|]. done.
Qed.

Lemma atom_to_value_client rt hs a force : client_ok (mk_client rt hs) -> handle_ok rt (HAtom a) ->
  exists v rt', __JS_AtomToValue rt a force = Some (v, rt') /\ client_ok (mk_client rt' (add_value v hs)).
Proof.
  intros C H. pose proof (co_inv _ C) as I. cbn [runtime handles] in I. unfold __JS_AtomToValue. destruct H as [Ht|(p & s & Ha & Hp)].
  - rewrite (proj2 (is_tagged a ltac:(unfold tagged in Ht; lia)) Ht), (to_uint32_eq a Ht). unfold tagged in Ht.
    destruct (u32toa_prints (a - 2 ^ 31)) as (s & -> & P); [unfold in_u; lia|]. cbn [mbind option_bind]. unfold js_new_string8_len.
    destruct (js_alloc_string_rt rt (mk_string false s)) as [r rt1] eqn:E. pose proof (new_string_client rt hs _ _ _ C (prints_bytes _ s P) E) as C1.
    destruct r as [p|]; eexists _, rt1; (split; [reflexivity | exact C1]).
  - rewrite (index_not_tagged rt a p (inv_array _ _ _ I) (proj1 Hp)). pose proof (ptr_range rt a p (inv_array _ _ _ I) (proj1 Hp)) as [Hrange _].
    destruct (Z.leb_spec (atom_size rt) a); [lia|]. rewrite (proj1 (holds_deref rt a p s) Hp). cbn [mbind option_bind].
    destruct (inv_ptr rt _ _ a p I (proj1 Hp)) as (s' & Hp' & _ & Hl & _). destruct (holds_inj rt a p s p s' Hp Hp') as [_ <-].
    assert (live rt p) as Hlive by (exists s; split; [apply Hp | done]).
    assert (forall v, live rt (value_ptr v) -> handle_ok rt (HValue v) ->
      exists v' rt', (rt0 ← dup_string rt (value_ptr v); Some (Some v, rt0)) = Some (v', rt') /\ client_ok (mk_client rt' (add_value v' hs))) as Hdup.
    { intros v Hv Hok. destruct (dup_value_client rt hs v C Hv Hok) as (rt' & -> & C'). cbn. eauto. }
    destruct (Z.eqb_spec (atom_type s) JS_ATOM_TYPE_STRING) as [E|E]; [now apply (Hdup (VString p))|]. destruct force.
    + destruct (no_description s); [|now apply (Hdup (VString p))].
      destruct (co_perm _ C JS_ATOM_empty_string) as [q Hq]; [done | done|]. cbn [runtime] in Hq. rewrite Hq. cbn [mbind option_bind].
      destruct (inv_ptr rt _ _ _ q I Hq) as (t & [_ Ht] & _ & Hlt & _). apply (Hdup (VString q)); [now exists t | done].
    + apply (Hdup (VSymbol p)); [done|]. exists a, s. done.
Qed.

(** The reference of a predefined symbol is not given back. *)
Lemma leak_ok rt refs weak i p : inv rt refs weak -> atom_ptr rt i = Some p -> permanent i = true -> 0 < refs p -> inv rt (dec refs p) weak.
Proof.
  intros I Hp Ep Hr. constructor; try apply I. intros q. pose proof (inv_structs _ _ _ I q) as S. destruct (decide (q = p)) as [->|Hne]; [|now rewrite dec_ne].
  destruct (inv_ptr rt refs weak i p I Hp) as (s & [_ Hs] & _). rewrite Hs in *. rewrite dec_eq.
  destruct S as (? & ? & ? & ? & [(_ & _ & _ & _ & Hn)|[(? & ? & ? & j & Hj & ? & Hc & ?)|(? & ? & [(j & Hj & ? & Hc)|(? & _)])]]); [now destruct (Hn i) | | | lia];
    (assert (j = i) as -> by (eapply ao_inj; [apply I | done | done])); unfold count_ok in *; rewrite Ep in Hc; (split_and!; try done; [lia|]).
  - right; left. split_and!; try done. exists i. unfold count_ok. rewrite Ep. split_and!; try done; [lia | auto].
  - right; right. split_and!; try done. left. exists i. unfold count_ok. rewrite Ep. split_and!; try done. lia.
Qed.

Lemma symbol_to_atom_client rt hs k p : client_ok (mk_client rt hs) -> hs !! k = Some (HValue (VSymbol p)) ->
  exists a, js_symbol_to_atom rt p = Some a /\ (exists rt', symbol_value_to_atom rt p = Some (a, rt') /\ client_ok (mk_client rt' (HAtom a :: hs))) /\
    client_ok (mk_client rt (HAtom a :: delete k hs)).
Proof.
  intros C Hk. pose proof (list_elem_of_lookup_2 _ _ _ Hk) as Hin. pose proof (co_handles _ C) as H. rewrite Forall_forall in H. specialize (H _ Hin).
  pose proof (co_inv _ C) as I. cbn [handle_ok runtime handles] in *. destruct H as (i & s & Hi & Hi0 & Ht).
  pose proof (get_atom_index_ok rt _ _ i p s I Hi) as Ei. exists i. split; [exact Ei|]. split.
  - unfold symbol_value_to_atom. rewrite Ei. cbn [mbind option_bind]. apply (dup_atom_client rt hs i p); [done | done | apply Hi].
  - pose proof (value_live rt hs _ C Hin) as Hr. cbn [value_ptr] in Hr. assert (handle_ok rt (HAtom i)) as Hok by (right; now exists p, s).
    assert (forall refs', inv rt refs' (weak_of hs) -> (forall q, refs' q = refs_of rt [HAtom i] q + refs_of rt (delete k hs) q) ->
      client_ok (mk_client rt (HAtom i :: delete k hs))) as Hdone.
    { intros refs' I' E. apply (client_step rt hs rt (delete k hs) [HAtom i] refs' _ 0 C (kept_refl rt) (fewer_refl 0 rt) I'); try done.
      - apply Forall_delete, C.
      - intros q. exact (eq_sym (taken_weak hs k (VSymbol p) q Hk)).
      - now constructor.
      - intros q t n. now apply (no_atom_zero rt _ _ q t n I). }
    assert (forall q, refs_of rt [HAtom i] q = if permanent i then 0 else if q =? p then 1 else 0) as E1.
    { intros q. cbn [refs_of foldr handle_refs]. rewrite (const_ptr rt i p (inv_array _ _ _ I) (proj1 Hi)), (proj1 Hi). destruct (permanent i), (q =? p); done. }
    destruct (permanent i) eqn:Ep.
    + apply (Hdone (dec (refs_of rt hs) p)); [apply (leak_ok rt _ _ i); [done | apply Hi | done | done]|]. intros q. now rewrite E1, (taken_refs rt hs k (VSymbol p)).
    + apply (Hdone (refs_of rt hs)); [done|]. intros q. rewrite E1, (refs_of_delete rt hs k _ q Hk). done.
Qed.
