(* ===== verification/AtomsSpec.v ===== *)
(** * What the table of atoms promises

    Every command returns in every state that a client reaches, whichever
    allocations fail, with exact counts; two atoms are equal exactly when they are
    the same property key; a string and its atom have the same characters. *)

From Stdlib Require Import ZArith Lia Bool String.
From stdpp Require Import base numbers list option gmap.
From S2P Require Import Prelude IntPrint JSStrings Atoms AtomsInv AtomsOps AtomsNew AtomsInit AtomsClient.

#[local] Open Scope Z_scope.

(** ** The reachable states *)

Lemma new_symbol_step rt hs k p type : client_ok (mk_client rt hs) -> atom_size rt * 3 < 2 ^ 31 -> hs !! k = Some (HValue (VString p)) ->
  exists st', step (CNewSymbol k type) (mk_client rt hs) = Some st' /\ client_ok st'.
Proof.
  intros C Hsm Hk. cbn [step runtime handles]. rewrite Hk. unfold JS_ATOM_TYPE_GLOBAL_SYMBOL, JS_ATOM_TYPE_PRIVATE.
  destruct (Z.leb_spec 2 type); cbn [andb]; [|eauto]. destruct (Z.leb_spec type 4); [|eauto].
  destruct (new_symbol_client rt hs k p type C Hsm Hk) as (v & rt' & E & C'); [lia|]. rewrite E. cbn [mbind option_bind]. eauto.
Qed.

Lemma new_symbol_from_atom_step rt hs k a type : client_ok (mk_client rt hs) -> atom_size rt * 3 < 2 ^ 31 -> hs !! k = Some (HAtom a) -> handle_ok rt (HAtom a) ->
  exists st', step (CNewSymbolFromAtom k type) (mk_client rt hs) = Some st' /\ client_ok st'.
Proof.
  intros C Hsm Hk Ha. cbn [step runtime handles]. rewrite Hk. unfold JS_ATOM_TYPE_SYMBOL, JS_ATOM_TYPE_PRIVATE.
  destruct (Z.leb_spec 3 type); cbn [andb]; [|eauto]. destruct (Z.leb_spec type 4); cbn [andb]; [|eauto].
  destruct Ha as [Ha|(p & s & Ha & Hp)].
  - rewrite (proj2 (is_tagged a ltac:(unfold tagged in Ha; lia)) Ha). cbn [negb]. eauto.
  - rewrite (index_not_tagged rt a p (inv_array _ _ _ (co_inv _ C)) (proj1 Hp)). cbn [negb].
    destruct (new_symbol_from_atom_client rt hs a p type C Hsm Ha (proj1 Hp)) as (v & rt' & E & C'); [lia|]. rewrite E. cbn [mbind option_bind]. eauto.
Qed.

Lemma weakref_step rt hs k p : client_ok (mk_client rt hs) -> Z.of_nat (length hs) < JS_ATOM_HASH_MASK - 2 -> hs !! k = Some (HValue (VSymbol p)) ->
  exists st', step (CWeakref k) (mk_client rt hs) = Some st' /\ client_ok st'.
Proof.
  intros C Hlen Hk. pose proof (list_elem_of_lookup_2 _ _ _ Hk) as Hin. pose proof (co_inv _ C) as I. cbn [step runtime handles] in *. rewrite Hk.
  destruct (inv_live rt _ _ p I (value_live rt hs _ C Hin)) as (s & Hs & _).
  destruct (js_weakref_is_target rt p) as [[]|] eqn:Et; cbn [mbind option_bind]; [|eauto|unfold js_weakref_is_target in Et; now rewrite Hs in Et].
  pose proof (weak_of_le hs p) as Hw. destruct (weakref_new_ok rt _ _ p s I Hs Et) as (rt' & E & I' & K); [lia|]. rewrite E. cbn [mbind option_bind].
  eexists. split; [reflexivity|]. assert (fewer 0 rt rt') as F; [|apply (client_step rt hs rt' hs [HWeak p] _ _ 0 C K F I'); [apply C | done | | now constructor|]].
  - unfold js_weakref_new in E. rewrite Hs in E. cbn [mbind option_bind] in E. destruct (_ <=? hash s); [done|]. injection E as <-.
    apply same_atoms_fewer; [apply I|]. apply same_atoms_hash; [done|]. unfold js_weakref_is_target in Et. rewrite Hs in Et. injection Et as [Et _]%andb_prop.
    now apply Z.eqb_eq.
  - intros q. cbn [app]. rewrite weak_of_cons. unfold inc. cbn [handle_weak]. destruct (q =? p); lia.
  - intros q t n. now apply (no_atom_zero rt' _ _ q t n I').
Qed.

Lemma step_ok c st : client_ok st -> small st -> exists st', step c st = Some st' /\ client_ok st'.
Proof.
  destruct st as [rt hs]. intros C [Hsm Hlen]. cbn [runtime handles] in Hsm, Hlen.
  pose proof (co_handles _ C) as H. rewrite Forall_forall in H. cbn [runtime handles] in H.
  assert (forall k h, hs !! k = Some h -> handle_ok rt h) as Hok by (intros k h Hk; apply H; eapply list_elem_of_lookup_2; eauto).
  destruct c as [wide units|k|k|k|k type| |k type|n|n|l|i|k force|k|k|k].
  - cbn [step runtime handles]. destruct (js_alloc_string_rt rt _) as [r rt1] eqn:E. eexists. split; [reflexivity|]. eapply new_string_client; [exact C | | exact E].
    unfold wf_string. cbn. apply Forall_forall. intros x (y & -> & _)%list_elem_of_fmap. destruct wide; apply wrap_range; lia.
  - destruct (hs !! k) as [h|] eqn:Ek; [now apply (dup_client rt hs k h)|]. cbn [step runtime handles]. rewrite Ek. eauto.
  - destruct (hs !! k) as [h|] eqn:Ek; [now apply (free_client rt hs k h)|]. cbn [step runtime handles]. rewrite Ek. eauto.
  - destruct (hs !! k) as [[[p|p]|a|p]|] eqn:Ek; [now apply (new_atom_str_client rt hs k p)| | | |]; cbn [step runtime handles]; rewrite Ek; eauto.
  - destruct (hs !! k) as [[[p|p]|a|p]|] eqn:Ek; [now apply (new_symbol_step rt hs k p)| | | |]; cbn [step runtime handles]; rewrite Ek; eauto.
  - destruct (new_symbol_null_client rt hs C Hsm) as (v & rt' & E & C'). cbn [step runtime handles]. rewrite E. cbn [mbind option_bind]. eauto.
  - destruct (hs !! k) as [[v|a|p]|] eqn:Ek; [|apply (new_symbol_from_atom_step rt hs k a); try done; now apply (Hok k) | |]; cbn [step runtime handles]; rewrite Ek; eauto.
  - destruct (new_uint32_client rt hs (u32 n) C Hsm) as (a & rt' & E & C'); [apply wrap_range; lia|]. cbn [step runtime handles]. rewrite E. cbn [mbind option_bind]. eauto.
  - destruct (new_int64_client rt hs (i64 n) C Hsm) as (a & rt' & E & C'); [apply sgn_range; lia|]. cbn [step runtime handles]. rewrite E. cbn [mbind option_bind]. eauto.
  - destruct (find_atom_client rt hs (map u8 l) C) as (a & rt' & E & C'). cbn [step runtime handles]. rewrite E. cbn [mbind option_bind]. eauto.
  - cbn [step runtime handles]. destruct (Z.ltb_spec 0 i), (Z.ltb_spec i JS_ATOM_END); cbn [andb]; eauto. eexists. split; [reflexivity|]. now apply const_atom_client.
  - cbn [step runtime handles]. destruct (hs !! k) as [[v|a|p]|] eqn:Ek; eauto. destruct (atom_to_value_client rt hs a force C (Hok k _ Ek)) as (v & rt' & E & C').
    rewrite E. cbn [mbind option_bind]. eauto.
  - cbn [step runtime handles]. destruct (hs !! k) as [[[p|p]|a|p]|] eqn:Ek; eauto. destruct (symbol_to_atom_client rt hs k p C Ek) as (a & _ & (rt' & E & C') & _).
    rewrite E. cbn [mbind option_bind]. eauto.
  - cbn [step runtime handles]. destruct (hs !! k) as [[[p|p]|a|p]|] eqn:Ek; eauto. destruct (symbol_to_atom_client rt hs k p C Ek) as (a & E & _ & C').
    rewrite E. cbn [mbind option_bind]. eauto.
  - destruct (hs !! k) as [[[p|p]|a|p]|] eqn:Ek; [|now apply (weakref_step rt hs k p)| | |]; cbn [step runtime handles]; rewrite Ek; eauto.
Qed.

Lemma init_names_not_numbers : Forall (fun x => is_num_string (mk_string false (chars x)) = None) js_atom_init.
Proof. repeat constructor. Qed.

Lemma init_client rt : init_upto rt 239 -> client_ok (mk_client rt []).
Proof.
  intros [I F Ha Hall]. constructor; cbn [runtime handles]; [exact I | | constructor |].
  - intros i Hi Hp. unfold permanent, JS_ATOM_END in Hp. apply Z.ltb_lt in Hp. destruct (decide (i = 0)) as [->|Hne]; [|apply Hall; lia].
    destruct (ao_null rt (inv_array _ _ _ I)) as (p & s & [H _] & _); [destruct F as [(_ & _ & ?)|(-> & _)]; lia | now exists p].
  - intros i p s n Hi Ht Hn. assert (i <> 0) as Hi0 by (apply (hashed_nonzero rt i p s (inv_array _ _ _ I) Hi); now rewrite Ht).
    destruct (Ha i p s Hi Hi0) as (Hr & En & _). exfalso. pose proof init_names_not_numbers as N. rewrite Forall_forall in N.
    rewrite (is_num_string_units _ (mk_string false (init_name i))) in Hn by done. unfold init_name in Hn. rewrite N in Hn; [done|].
    destruct (nth_lookup_or_length js_atom_init (Z.to_nat (i - 1)) EmptyString) as [E|E]; [eapply list_elem_of_lookup_2, E|]. rewrite init_length in E. lia.
Qed.

Lemma reachable_ok st : reachable st -> client_ok st.
Proof.
  induction 1 as [answers rt E | c st st' _ IH Hs E].
  - destruct (JS_InitAtoms_ok answers) as (r & rt' & E' & H). rewrite E in E'. injection E' as <- <-. destruct H as [?|[_ H]]; [done | now apply init_client].
  - destruct (step_ok c st IH Hs) as (st1 & E1 & C1). congruence.
Qed.

(** ** Counts *)

Definition predefined (rt : JSRuntime) (p : Z) : Prop := exists i, permanent i = true /\ atom_ptr rt i = Some p.

(** A structure has the references of the handles, and is there for one of them
    or for a weak one; the predefined atoms have more. *)
Definition counts_exact (st : client) : Prop :=
  forall p, let refs := refs_of (runtime st) (handles st) p in
    match strings (runtime st) !! p with
    | Some s => (predefined (runtime st) p /\ refs < ref_count s) \/ (ref_count s = refs /\ (0 < refs \/ 0 < weak_of (handles st) p))
    | None => refs = 0 /\ weak_of (handles st) p = 0
    end.

Lemma counts_ok st : client_ok st -> counts_exact st.
Proof.
  intros [I _ _ _] p. pose proof (inv_structs _ _ _ I p) as S. cbv zeta. destruct (strings (runtime st) !! p) as [s|]; [|done].
  destruct S as (_ & _ & _ & _ & [(_ & _ & ? & ? & _)|[(_ & _ & _ & i & Hi & _ & Hc & _)|(_ & _ & [(i & Hi & _ & Hc)|(? & ? & ? & _)])]]).
  - right. auto.
  - unfold count_ok in Hc. destruct (permanent i) eqn:Ep; [left; split; [now exists i | done] | right; lia].
  - unfold count_ok in Hc. destruct (permanent i) eqn:Ep; [left; split; [now exists i | done] | right; lia].
  - right. lia.
Qed.

(** C7: Strings, atoms and symbols are managed safely.  From a runtime that
    [JS_InitAtoms] has set up, a client creates strings, interns them, makes
    symbols (local, global and private), atoms of integers, converts between
    values and atoms, takes and drops strong and weak references, in any order and
    with any allocation failing.  In every state it reaches, with fewer than
    715827883 elements in the array, every further operation returns: no [assert]
    fails, and nothing freed or out of range is read.  The array, its free list,
    the chains of the hash table and the uniqueness of the atoms stay well formed,
    every handle refers to a live structure of its kind, and the counts are exact:
    a structure is there precisely while there is a reference to it, except for
    the predefined atoms. *)
Theorem atoms_well_formed st : reachable st -> small st ->
  (forall c, exists st', step c st = Some st' /\ reachable st') /\
  array_ok (runtime st) /\ table_ok (runtime st) /\ unique_atoms (runtime st) /\
  (forall h, h ∈ handles st -> handle_ok (runtime st) h) /\ counts_exact st.
Proof.
  intros R Hs. pose proof (reachable_ok st R) as C. pose proof C as [I _ H _]. split_and!.
  - intros c. destruct (step_ok c st C Hs) as (st' & E & _). exists st'. split; [done|]. now apply (reach_step c st).
  - apply I.
  - apply I.
  - apply I.
  - now apply Forall_forall.
  - now apply counts_ok.
Qed.

(** ** Property keys *)

(** The property key of an atom: a string, a symbol of the global registry with
    its key, or a symbol *)
Inductive property_key : Type :=
| KeyString (units : list Z)
| KeyRegistered (units : list Z)
| KeySymbol (index : Z).

Definition key_of (rt : JSRuntime) (a : Z) : option property_key :=
  if __JS_AtomIsTaggedInt a then KeyString <$> u32toa (__JS_AtomToUInt32 a)
  else
    '(_, s) ← deref rt a;
    Some (if atom_type s =? JS_ATOM_TYPE_STRING then KeyString (str (content s))
          else if atom_type s =? JS_ATOM_TYPE_GLOBAL_SYMBOL then KeyRegistered (str (content s))
          else KeySymbol a).

Lemma key_of_tagged rt a : tagged a -> exists s, key_of rt a = Some (KeyString s) /\ prints 10 (a - 2 ^ 31) s.
Proof.
  intros Ht. unfold key_of. rewrite (proj2 (is_tagged a ltac:(unfold tagged in Ht; lia)) Ht), (to_uint32_eq a Ht). unfold tagged in Ht.
  destruct (u32toa_prints (a - 2 ^ 31)) as (s & -> & P); [unfold in_u; lia|]. now exists s.
Qed.

Lemma key_of_holds rt a p s : array_ok rt -> holds rt a p s -> key_of rt a =
  Some (if atom_type s =? JS_ATOM_TYPE_STRING then KeyString (str (content s))
        else if atom_type s =? JS_ATOM_TYPE_GLOBAL_SYMBOL then KeyRegistered (str (content s)) else KeySymbol a).
Proof. intros A H. unfold key_of. rewrite (index_not_tagged rt a p A (proj1 H)), (proj1 (holds_deref rt a p s) H). done. Qed.

(** A string of the table is not the numeral of a tagged integer. *)
Lemma string_not_small st a p s n : client_ok st -> holds (runtime st) a p s -> atom_type s = JS_ATOM_TYPE_STRING -> 0 <= n < 2 ^ 31 ->
  prints 10 n (str (content s)) -> False.
Proof.
  intros C H Ht Hn P. pose proof (co_ints _ C a p s n H Ht) as Hi. rewrite JS_MAX_INT_eq in Hi.
  assert (is_num_string (content s) = Some n) as E by (apply is_num_string_spec; split; [done | lia]). specialize (Hi E). lia.
Qed.

Lemma same_key_same_atom st a b k : client_ok st -> handle_ok (runtime st) (HAtom a) -> handle_ok (runtime st) (HAtom b) ->
  key_of (runtime st) a = Some k -> key_of (runtime st) b = Some k -> a = b.
Proof.
  intros C Ha Hb Ea Eb. pose proof (inv_array _ _ _ (co_inv _ C)) as A. pose proof (inv_unique _ _ _ (co_inv _ C)) as U.
  destruct Ha as [Ha|(p & s & _ & Ha)], Hb as [Hb|(q & t & _ & Hb)].
  - destruct (key_of_tagged (runtime st) a Ha) as (s & Es & [_ Ps]), (key_of_tagged (runtime st) b Hb) as (t & Et & [_ Pt]).
    rewrite Es in Ea. rewrite Et in Eb. assert (s = t) as -> by congruence. lia.
  - destruct (key_of_tagged (runtime st) a Ha) as (s & Es & Ps). rewrite Es in Ea. injection Ea as <-. rewrite (key_of_holds _ b q t A Hb) in Eb.
    destruct (Z.eqb_spec (atom_type t) JS_ATOM_TYPE_STRING) as [Et|_]; [|now destruct (_ =? _)]. injection Eb as <-. unfold tagged in Ha.
    exfalso. eapply (string_not_small st b q t (a - 2 ^ 31)); try done. lia.
  - destruct (key_of_tagged (runtime st) b Hb) as (t & Et & Pt). rewrite Et in Eb. injection Eb as <-. rewrite (key_of_holds _ a p s A Ha) in Ea.
    destruct (Z.eqb_spec (atom_type s) JS_ATOM_TYPE_STRING) as [Es|_]; [|now destruct (_ =? _)]. injection Ea as <-. unfold tagged in Hb.
    exfalso. eapply (string_not_small st a p s (b - 2 ^ 31)); try done. lia.
  - rewrite (key_of_holds _ a p s A Ha) in Ea. rewrite (key_of_holds _ b q t A Hb) in Eb. rewrite <- Eb in Ea. clear Eb.
    destruct (Z.eqb_spec (atom_type s) JS_ATOM_TYPE_STRING) as [Es|Es], (Z.eqb_spec (atom_type t) JS_ATOM_TYPE_STRING) as [Et|Et];
      try (now destruct (_ =? _)); [apply (U a b p q s t Ha Hb); [now rewrite Es | congruence | congruence]|].
    destruct (Z.eqb_spec (atom_type s) JS_ATOM_TYPE_GLOBAL_SYMBOL) as [Es'|Es'], (Z.eqb_spec (atom_type t) JS_ATOM_TYPE_GLOBAL_SYMBOL) as [Et'|Et']; try done.
    + apply (U a b p q s t Ha Hb); [now rewrite Es' | congruence | congruence].
    + congruence.
Qed.

(** C8: Comparing atoms is comparing property keys.  For two atoms that a client
    holds, in every reachable state, the indices are equal exactly when the keys
    are: the same string, be it a tagged integer, a predefined name or an interned
    string with 8- or 16-bit characters; the same key of the global symbol
    registry; or the same symbol.  No string is both a tagged integer and an entry
    of the table. *)
Theorem atoms_are_property_keys st a b : reachable st -> HAtom a ∈ handles st -> HAtom b ∈ handles st ->
  is_Some (key_of (runtime st) a) /\ (key_of (runtime st) a = key_of (runtime st) b <-> a = b).
Proof.
  intros R Ha Hb. pose proof (reachable_ok st R) as C. pose proof (co_handles _ C) as H. rewrite Forall_forall in H.
  assert (is_Some (key_of (runtime st) a)) as [k Ek].
  { destruct (H _ Ha) as [Ht|(p & s & _ & Hp)].
    - destruct (key_of_tagged (runtime st) a Ht) as (s & -> & _). eauto.
    - rewrite (key_of_holds _ a p s (inv_array _ _ _ (co_inv _ C)) Hp). eauto. }
  split; [now exists k|]. split; [|now intros ->]. rewrite Ek. intros E. symmetry in E. exact (same_key_same_atom st a b k C (H _ Ha) (H _ Hb) Ek E).
Qed.

(** ** From strings to atoms and back *)

(** The string [u] is read from the atom [a]. *)
Definition reads_back (rt : JSRuntime) (a : Z) (u : list Z) : Prop :=
  (exists v rt', JS_AtomToString rt a = Some (v, rt') /\
     forall w, v = Some w -> exists t, strings rt' !! value_ptr w = Some t /\ str (content t) = u) /\
  (exists i, JS_AtomIsArrayIndex rt a = Some i /\ forall n, i = Some n <-> prints 10 n u /\ n < 2 ^ 32 - 1).

Lemma prints_unique n m u : prints 10 n u -> prints 10 m u -> n = m.
Proof. intros [_ <-] [_ <-]. done. Qed.

Lemma tagged_reads_back rt hs a u : client_ok (mk_client rt hs) -> tagged a -> key_of rt a = Some (KeyString u) -> reads_back rt a u.
Proof.
  intros C Ht Hk. destruct (key_of_tagged rt a Ht) as (s & Es & P). assert (s = u) as -> by congruence. pose proof Ht as Hr. unfold tagged in Hr.
  assert (__JS_AtomIsTaggedInt a = true) as Hi by (apply is_tagged; [lia | done]). split.
  - unfold JS_AtomToString, __JS_AtomToValue. unfold key_of in Hk. rewrite Hi in *. destruct (u32toa (__JS_AtomToUInt32 a)) as [s|] eqn:Eu; [|done].
    injection Hk as ->. cbn [mbind option_bind]. unfold js_new_string8_len. destruct (js_alloc_string_rt rt (mk_string false u)) as [[p|] rt1] eqn:Ea.
    + exists (Some (VString p)), rt1. split; [done|]. intros w [= <-].
      destruct (alloc_string_ok rt _ _ _ _ _ (co_inv _ C) (prints_bytes _ _ P) Ea) as (_ & _ & _ & Hp & _). eexists. split; [exact Hp | done].
    + exists None, rt1. done.
  - exists (Some (a - 2 ^ 31)). unfold JS_AtomIsArrayIndex. rewrite Hi, to_uint32_eq by done. split; [done|]. intros n. split.
    + intros [= <-]. split; [done | lia].
    + intros [Pn _]. f_equal. now apply (prints_unique _ _ u).
Qed.

Lemma string_reads_back rt hs a p s : client_ok (mk_client rt hs) -> holds rt a p s -> atom_type s = JS_ATOM_TYPE_STRING -> reads_back rt a (str (content s)).
Proof.
  intros C Hp Ht. pose proof (inv_array _ _ _ (co_inv _ C)) as A. cbn [runtime] in A. pose proof (index_not_tagged rt a p A (proj1 Hp)) as Hi.
  pose proof (ptr_range rt a p A (proj1 Hp)) as [Hr _]. pose proof (proj1 (holds_deref rt a p s) Hp) as Hd. split.
  - unfold JS_AtomToString, __JS_AtomToValue. rewrite Hi, Hd. destruct (Z.leb_spec (atom_size rt) a); [lia|]. cbn [mbind option_bind]. rewrite Ht. cbn [Z.eqb Pos.eqb].
    unfold dup_string. rewrite (proj2 Hp). cbn [mbind option_bind]. eexists _, _. split; [reflexivity|]. intros w [= <-]. cbn. rewrite lookup_insert_eq. now eexists.
  - unfold JS_AtomIsArrayIndex. rewrite Hi, Hd. destruct (Z.leb_spec (atom_size rt) a); [lia|]. cbn [mbind option_bind]. rewrite Ht. cbn [Z.eqb Pos.eqb].
    eexists. split; [reflexivity|]. intros n. pose proof (is_num_string_spec (content s)) as Hn. destruct (is_num_string (content s)) as [m|].
    + destruct (proj1 (Hn m) eq_refl) as [P Hm]. split.
      * destruct (Z.eqb_spec m (2 ^ 32 - 1)); [done|]. intros [= <-]. split; [done | lia].
      * intros [Pn Hlt]. assert (n = m) as -> by now apply (prints_unique _ _ (str (content s))). destruct (Z.eqb_spec m (2 ^ 32 - 1)); [lia | done].
    + split; [done|]. intros [P Hlt]. assert (None = Some n) by (apply Hn; split; [done | lia]). done.
Qed.

(** C17: Interning a string is a round trip.  In a reachable state, when
    [JS_NewAtomStr] makes an atom of a string that the client holds, the key of the
    atom is that string, [JS_AtomToString] gives a string with the same characters
    (or runs out of memory), and [JS_AtomIsArrayIndex] recognises the atom as the
    array index n exactly when the string is the decimal numeral of n with
    n < 2^32 - 1, although the atoms of numerals below 2^31 do not keep the
    characters. *)
Theorem atom_string_round_trip st k p s a rt' : reachable st -> small st -> handles st !! k = Some (HValue (VString p)) ->
  strings (runtime st) !! p = Some s -> JS_NewAtomStr (runtime st) p = Some (a, rt') -> a <> JS_ATOM_NULL ->
  key_of rt' a = Some (KeyString (str (content s))) /\ reads_back rt' a (str (content s)).
Proof.
  destruct st as [rt hs]. intros R [Hsm _] Hk Hs E Ha. pose proof (reachable_ok _ R) as C. cbn [runtime handles] in *. pose proof (co_inv _ C) as I. cbn [runtime handles] in I.
  pose proof (value_live rt hs _ C (list_elem_of_lookup_2 _ _ _ Hk)) as Hr. cbn [value_ptr] in Hr.
  assert (client_ok (mk_client rt' (HAtom a :: delete k hs))) as C'.
  { destruct (new_atom_str_client rt hs k p C Hsm Hk) as (st' & E' & C'). cbn [step runtime handles] in E'. rewrite Hk, E in E'. cbn [mbind option_bind] in E'.
    injection E' as <-. unfold add_atom in C'. destruct (Z.eqb_spec a JS_ATOM_NULL); done. }
  unfold JS_NewAtomStr in E. rewrite Hs in E. cbn [mbind option_bind] in E.
  assert (__JS_NewAtom rt (Some p) JS_ATOM_TYPE_STRING = Some (a, rt') ->
    key_of rt' a = Some (KeyString (str (content s))) /\ reads_back rt' a (str (content s))) as Hnew.
  { intros En. destruct (js_new_atom_ok rt _ _ p s JS_ATOM_TYPE_STRING I Hsm Hs Hr ltac:(unfold JS_ATOM_TYPE_STRING; lia) ltac:(done)) as (i & rt1 & E1 & _ & _ & H).
    rewrite En in E1. injection E1 as <- <-. destruct H as [[? _]|(_ & (q & t & Hq & Ec & Et & _) & _)]; [done|]. rewrite <- Ec. split.
    - rewrite (key_of_holds rt' a q t (inv_array _ _ _ (co_inv _ C')) Hq), Et. done.
    - now apply (string_reads_back rt' (HAtom a :: delete k hs) a q t). }
  destruct (is_num_string (content s)) as [n|] eqn:En; [|now apply Hnew]. destruct (Z.leb_spec n JS_ATOM_MAX_INT) as [Hle|_]; [|now apply Hnew].
  destruct (js_free_string rt p); [|done]. injection E as <- <-. pose proof En as [P Hn]%is_num_string_spec. apply u32toa_is_num_string in En as [Hu Eu]. unfold in_u in Hu. rewrite JS_MAX_INT_eq in Hle.
  pose proof (from_uint32_tagged n ltac:(lia)) as Ht. assert (0 <= __JS_AtomFromUInt32 n < 2 ^ 32) as Hrange by (unfold tagged in Ht; lia). assert (key_of j (__JS_AtomFromUInt32 n) = Some (KeyString (str (content s)))) as Hkey.
  { unfold key_of. rewrite (proj2 (is_tagged _ Hrange) Ht), to_uint32_eq, from_uint32_eq by (done || lia).
    replace (n + 2 ^ 31 - 2 ^ 31) with n by lia. now rewrite Eu. }
  split; [done|]. now apply (tagged_reads_back j _ _ _ C').
Qed.

(** ** Runs *)

Definition start_runtime : JSRuntime := match JS_InitAtoms (empty_runtime []) with Some (_, rt) => rt | None => empty_runtime [] end.
Definition start : client := mk_client start_runtime [].

Definition after (c : command) (st : client) : client := default st (step c st).
Definition run (cs : list command) : client := foldl (fun st c => after c st) start cs.

Definition is_small (st : client) : bool := (atom_size (runtime st) * 3 <? 2 ^ 31) && (Z.of_nat (length (handles st)) <? JS_ATOM_HASH_MASK - 2).

Lemma is_small_ok st : is_small st = true -> small st.
Proof. intros [? ?]%andb_prop. split; now apply Z.ltb_lt. Qed.

Lemma start_reachable : reachable start.
Proof.
  assert (JS_InitAtoms (empty_runtime []) = Some (0, start_runtime)) as E by (vm_compute; reflexivity). exact (reach_init [] start_runtime E).
Qed.

(** Every prefix of the run is small. *)
Lemma run_prefix_reachable st cs : reachable st -> forallb is_small (map (fun n => foldl (fun st c => after c st) st (take n cs)) (seq 0 (length cs))) = true ->
  reachable (foldl (fun st c => after c st) st cs).
Proof.
  revert st. induction cs as [|c cs IH]; intros st R H; [done|]. cbn [length seq map forallb take foldl] in *. apply andb_prop in H as [H0 H]. apply is_small_ok in H0.
  apply IH.
  - unfold after. destruct (step c st) as [st'|] eqn:E; [exact (reach_step c st st' R H0 E) | exact R].
  - rewrite <- H, <- seq_shift, map_map. done.
Qed.

(** "hello" twice, once with 16-bit units, and "7", as atoms; a private name and
    a symbol that lose their atom; a lookup of a predefined name *)
Definition hello : list Z := [104; 101; 108; 108; 111].
Definition sample : list command :=
  [CNewString false hello; CNewAtomStr 0; CNewString true hello; CNewAtomStr 0; CNewString false [55]; CNewAtomStr 0; CNewAtomUInt32 7;
   CNewSymbolNull; CWeakref 0; CFree 1; CConstAtom 48; CFindAtom [107; 101; 121; 115]].

Lemma sample_reachable cs : forallb is_small (map (fun n => foldl (fun st c => after c st) start (take n cs)) (seq 0 (length cs))) = true -> reachable (run cs).
Proof. apply run_prefix_reachable, start_reachable. Qed.

Example sample_handles : handles (run sample) = [HAtom 48; HAtom 48; HWeak 244; HAtom (2 ^ 31 + 7); HAtom (2 ^ 31 + 7); HAtom 239; HAtom 239].
Proof. vm_compute. reflexivity. Qed.

Lemma atoms_well_formed_witness : exists st', step (CFree 2) (run sample) = Some st' /\ reachable st'.
Proof.
  refine (proj1 (atoms_well_formed (run sample) _ _) (CFree 2)).
  - apply sample_reachable. vm_compute. reflexivity.
  - apply is_small_ok. vm_compute. reflexivity.
Defined.

Lemma atoms_are_property_keys_witness :
  is_Some (key_of (runtime (run sample)) 239) /\ (key_of (runtime (run sample)) 239 = key_of (runtime (run sample)) (2 ^ 31 + 7) <-> 239 = 2 ^ 31 + 7).
Proof.
  apply (atoms_are_property_keys (run sample) 239 (2 ^ 31 + 7)); [apply sample_reachable; vm_compute; reflexivity | |];
    (eapply list_elem_of_In; vm_compute; tauto).
Defined.

Definition seven : client := run (take 5 sample).
Definition seven_atom : Z * JSRuntime := default (0, runtime seven) (JS_NewAtomStr (runtime seven) 243).

Lemma atom_string_round_trip_witness : key_of (snd seven_atom) (2 ^ 31 + 7) = Some (KeyString [55]) /\ reads_back (snd seven_atom) (2 ^ 31 + 7) [55].
Proof.
  refine (atom_string_round_trip seven 0 243 (mk_atom 1 (mk_string false [55]) 0 0 0) (2 ^ 31 + 7) (snd seven_atom) _ _ _ _ _ _).
  - apply sample_reachable. vm_compute. reflexivity.
  - apply is_small_ok. vm_compute. reflexivity.
  - vm_compute. reflexivity.
  - vm_compute. reflexivity.
  - vm_compute. reflexivity.
  - discriminate.
Defined.

(** ** Two limits *)

(** [atom_size * 3 / 2] is computed in [int]: the array that has grown to 1034394552
    elements, below [JS_ATOM_MAX], is made 711 elements long. *)
Example new_atom_size_wraps : Nat.iter 36 new_atom_size 0 = 1034394552 /\ 1034394552 <= JS_ATOM_MAX /\ new_atom_size 1034394552 = 711.
Proof. vm_compute. split_and!; done. Qed.

(** [js_symbol_to_atom] gives the atom the reference of the value.  For a predefined
    symbol, here Symbol.iterator, [JS_FreeAtom] does not give it back. *)
Definition predefined_count (st : client) (i : Z) : option Z := p ← atom_ptr (runtime st) i; s ← strings (runtime st) !! p; Some (ref_count s).

Example predefined_symbol_reference_kept :
  let st := run [CConstAtom 227; CAtomToValue 0 false; CSymbolToAtomFree 0; CFree 0; CFree 0] in
  handles st = [] /\ predefined_count start 227 = Some 1 /\ predefined_count st 227 = Some 2.
Proof. vm_compute. split_and!; reflexivity. Qed.
