(* ===== verification/Ropes.v ===== *)
(** * Ropes

    Concatenation in [src/core/quickjs.c] (4216 to 4700): short strings are copied,
    long ones become the leaves of a binary tree, a rope, that is rebalanced when
    it is deeper than 60.  A rope is a value here: the only write to a rope that
    others may refer to, its replacement by its own characters in
    [js_linearize_string_rope], returns the new value.  Reference counts are not
    modelled: a condition on one is an answer of the state or an argument. *)

From Stdlib Require Import ZArith Lia Bool.
From stdpp Require Import base numbers list option gmap.
From S2P Require Import Prelude JSStrings StringBuffer.

#[local] Open Scope Z_scope.

(** ** Data *)

(** A string with its field [len], which is the length of the array *)
Record leaf : Type := mk_leaf { leaf_len : Z; leaf_str : JSString }.

Inductive rope : Type :=
| RString (p : leaf)
| RRope (len : Z) (is_wide_char : bool) (depth : Z) (lft rgt : rope).

Definition JS_STRING_ROPE_SHORT_LEN : Z := 512.
Definition JS_STRING_ROPE_SHORT2_LEN : Z := 8192.
Definition JS_STRING_ROPE_MAX_DEPTH : Z := 60.

(** Returned, stopped at an [assert] or an access outside of an array, or not
    ended with the fuel *)
Inductive outcome (A : Type) : Type :=
| Done (a : A)
| Crash
| NoFuel.
Arguments Done {A} a.
Arguments Crash {A}.
Arguments NoFuel {A}.

(** The answers of the allocator, and whether the first operand of each
    concatenation may be extended in place *)
Record state : Type := mk_state { answers : allocator; in_place : list bool }.

Definition M (A : Type) : Type := state -> outcome (A * state).
#[export] Instance M_ret : MRet M := fun A a s => Done (a, s).
#[export] Instance M_bind : MBind M := fun A B f m s => match m s with Done (a, s) => f a s | Crash => Crash | NoFuel => NoFuel end.

Definition crash {A} : M A := fun _ => Crash.
Definition no_fuel {A} : M A := fun _ => NoFuel.
(** An access that must succeed *)
Definition access {A} (o : option A) : M A := match o with Some a => mret a | None => crash end.

Definition js_malloc : M bool := fun s =>
  let '(x, a) := allocate (answers s) in Done (match x with Some _ => true | None => false end, mk_state a (in_place s)).
(** [ref_count] is 1 and there is room. *)
Definition has_room : M bool := fun s =>
  match in_place s with [] => Done (false, s) | b :: r => Done (b, mk_state (answers s) r) end.

(** ** Flat strings *)

Definition leaf_wide (p : leaf) : bool := is_wide_char (leaf_str p).

(** The units, as 16-bit ones *)
Definition copy_str16 (p : leaf) : list Z := str (leaf_str p).

Definition concat_units (p1 p2 : leaf) : leaf :=
  let len := u32 (leaf_len p1 + leaf_len p2) in
  if negb (leaf_wide p1 || leaf_wide p2) then mk_leaf len (mk_string false (str (leaf_str p1) ++ str (leaf_str p2)))
  else mk_leaf len (mk_string true (copy_str16 p1 ++ copy_str16 p2)).

(** [None] is JS_EXCEPTION, for want of memory or "string too long". *)
Definition JS_ConcatString1 (p1 p2 : leaf) : M (option leaf) :=
  if JS_STRING_LEN_MAX <? u32 (leaf_len p1 + leaf_len p2) then mret None
  else m ← js_malloc; mret (if m : bool then Some (concat_units p1 p2) else None).

(** [p1] with the characters of the second operand, unless FALSE *)
Definition JS_ConcatStringInPlace (p1 p2 : leaf) : M (option leaf) :=
  if leaf_len p2 =? 0 then mret (Some p1)
  else
    room ← has_room;
    mret (if (room : bool) && (leaf_wide p1 || negb (leaf_wide p2))
          then Some (mk_leaf (leaf_len p1 + leaf_len p2) (mk_string (leaf_wide p1) (str (leaf_str p1) ++ str (leaf_str p2)))) else None).

Definition JS_ConcatString2 (op1 op2 : leaf) : M (option leaf) :=
  p ← JS_ConcatStringInPlace op1 op2;
  match p with Some p1 => mret (Some p1) | None => JS_ConcatString1 op1 op2 end.

(** ** Building ropes *)

Definition string_rope_get_len (v : rope) : Z := match v with RString p => leaf_len p | RRope len _ _ _ _ => len end.
Definition rope_wide (v : rope) : bool := match v with RString p => leaf_wide p | RRope _ w _ _ _ => w end.
Definition rope_depth (v : rope) : Z := match v with RString _ => 0 | RRope _ _ d _ _ => d end.

Definition js_new_string_rope (js_rebalancee_string_rope : rope -> M (option rope)) (op1 op2 : rope) : M (option rope) :=
  let len := u32 (string_rope_get_len op1 + string_rope_get_len op2) in
  if JS_STRING_LEN_MAX <? len then mret None
  else
    m ← js_malloc;
    if negb m then mret None
    else
      let r := RRope len (rope_wide op1 || rope_wide op2) (u8 (Z.max (rope_depth op1) (rope_depth op2) + 1)) op1 op2 in
      if JS_STRING_ROPE_MAX_DEPTH <? rope_depth r then js_rebalancee_string_rope r else mret (Some r).

(** ** Rebalancing *)

Definition ROPE_N_BUCKETS : nat := 44.

Definition rope_bucket_len : list Z := [
  1; 2; 3; 5; 8; 13; 21; 34; 55; 89; 144; 233; 377; 610; 987; 1597; 2584; 4181; 6765; 10946; 17711; 28657; 46368; 75025;
  121393; 196418; 317811; 514229; 832040; 1346269; 2178309; 3524578; 5702887; 9227465; 14930352; 24157817;
  39088169; 63245986; 102334155; 165580141; 267914296; 433494437; 701408733; 1134903170].

(** The length of the bucket [i] *)
Definition fib (i : nat) : Z := nth i rope_bucket_len 0.

Definition buckets : Type := list (option rope).

Section Rebalance.
Variable js_rebalancee_string_rope : rope -> M (option rope).
Let new_rope := js_new_string_rope js_rebalancee_string_rope.

(** The loop that concatenates the ropes in the buckets before the one of the
    length: FALSE is -1, and the index, the buckets and [a] *)
Fixpoint collect (fuel : nat) (len : Z) (i : nat) (bs : buckets) (a : option rope) : M (bool * (nat * buckets * option rope)) :=
  match fuel with
  | O => crash
  | S fuel =>
      next ← access (rope_bucket_len !! S i);
      if next <=? len then
        b ← access (bs !! i);
        match b with
        | None => collect fuel len (S i) bs a
        | Some b =>
            let bs := <[i := None]> bs in
            match a with
            | None => collect fuel len (S i) bs (Some b)
            | Some a =>
                r ← new_rope b a;
                match r with None => mret (false, (i, bs, None)) | Some a => collect fuel len (S i) bs (Some a) end
            end
        end
      else mret (true, (i, bs, a))
  end.

(** The loop that makes [a] find an empty bucket *)
Fixpoint place (fuel : nat) (i : nat) (bs : buckets) (a : rope) : M (bool * buckets) :=
  match fuel with
  | O => crash
  | S fuel =>
      b ← access (bs !! i);
      match b with
      | None => mret (true, <[i := Some a]> bs)
      | Some b =>
          r ← new_rope b a;
          let bs := <[i := None]> bs in
          match r with None => mret (false, bs) | Some a => place fuel (S i) bs a end
      end
  end.

Definition rebalance_string (p : leaf) (bs : buckets) : M (bool * buckets) :=
  let len := leaf_len p in
  if len =? 0 then mret (true, bs)
  else
    '(ok, (i, bs, a)) ← collect ROPE_N_BUCKETS len 0 bs None;
    if negb ok then mret (false, bs)
    else
      r ← match a with Some a => new_rope a (RString p) | None => mret (Some (RString p)) end;
      match r with None => mret (false, bs) | Some a => place (S ROPE_N_BUCKETS) i bs a end.

(** The results of the two calls are not used. *)
Fixpoint js_rebalancee_string_rope_rec (v : rope) (bs : buckets) : M (bool * buckets) :=
  match v with
  | RString p => rebalance_string p bs
  | RRope _ _ _ lft rgt =>
      '(_, bs) ← js_rebalancee_string_rope_rec lft bs;
      '(_, bs) ← js_rebalancee_string_rope_rec rgt bs;
      mret (true, bs)
  end.

(** The last loop: FALSE is the label [fail]. *)
Fixpoint gather (bs : buckets) (a : option rope) : M (bool * option rope) :=
  match bs with
  | [] => mret (true, a)
  | None :: bs => gather bs a
  | Some b :: bs =>
      match a with
      | None => gather bs (Some b)
      | Some a => r ← new_rope b a; match r with None => mret (false, None) | Some a => gather bs (Some a) end
      end
  end.

Definition rebalance (v : rope) : M (option rope) :=
  '(ok, bs) ← js_rebalancee_string_rope_rec v (replicate ROPE_N_BUCKETS None);
  if negb ok then mret None
  else
    '(ok, a) ← gather bs None;
    if negb ok then mret None
    else mret (Some (match a with Some a => a | None => RString (mk_leaf 0 (mk_string false [])) end)).
End Rebalance.

(** The fuel bounds the calls of itself through [js_new_string_rope]. *)
Fixpoint js_rebalancee_string_rope (fuel : nat) (v : rope) : M (option rope) :=
  match fuel with
  | O => no_fuel
  | S fuel => rebalance (js_rebalancee_string_rope fuel) v
  end.

(** ** Concatenation *)

Section Concat.
Variable js_rebalancee_string_rope : rope -> M (option rope).
Let new_rope := js_new_string_rope js_rebalancee_string_rope.

(** [JS_ConcatString] from "normal concatenation for short strings" *)
Definition concat_strings (op1 op2 : rope) : M (option rope) :=
  match op2 with
  | RString p2 =>
      if leaf_len p2 =? 0 then mret (Some op1)
      else if leaf_len p2 <=? JS_STRING_ROPE_SHORT_LEN then
        match op1 with
        | RString p1 =>
            if leaf_len p1 <=? JS_STRING_ROPE_SHORT2_LEN then p ← JS_ConcatString2 p1 p2; mret (RString <$> p)
            else new_rope op1 op2
        | RRope _ _ _ lft (RString rgt) =>
            if leaf_len rgt <=? JS_STRING_ROPE_SHORT_LEN then
              val ← JS_ConcatString2 rgt p2;
              match val with None => mret None | Some val => new_rope lft (RString val) end
            else new_rope op1 op2
        | _ => new_rope op1 op2
        end
      else new_rope op1 op2
  | RRope _ _ _ lft rgt =>
      match op1 with
      | RString p1 =>
          if leaf_len p1 =? 0 then mret (Some op2)
          else
            match lft with
            | RString l =>
                if leaf_len l <=? JS_STRING_ROPE_SHORT_LEN then
                  val ← JS_ConcatString2 p1 l;
                  match val with None => mret None | Some val => new_rope (RString val) rgt end
                else new_rope op1 op2
            | _ => new_rope op1 op2
            end
      | _ => new_rope op1 op2
      end
  end.

End Concat.

(** An operand: a string or a rope, or another value, which is converted *)
Definition to_rope {V} (JS_ToStringFree : V -> option leaf) (op : rope + V) : option rope :=
  match op with inl r => Some r | inr v => RString <$> JS_ToStringFree v end.

Definition JS_ConcatString {V} (JS_ToStringFree : V -> option leaf) (fuel : nat) (op1 op2 : rope + V) : M (option rope) :=
  match to_rope JS_ToStringFree op1 with
  | None => mret None
  | Some op1 =>
      match to_rope JS_ToStringFree op2 with
      | None => mret None
      | Some op2 => concat_strings (js_rebalancee_string_rope fuel) op1 op2
      end
  end.

(** ** Reading ropes *)

Fixpoint string_rope_get (val : rope) (idx : Z) : option Z :=
  match val with
  | RString p => if idx <? 0 then None else string_get (leaf_str p) (Z.to_nat idx)
  | RRope _ _ _ lft rgt =>
      let len := string_rope_get_len lft in
      if idx <? len then string_rope_get lft idx else string_rope_get rgt (u32 (idx - len))
  end.

(** The stack of [JSStringRopeIter], the top first *)
Definition iterator : Type := list rope.

Definition string_rope_iter_init (val : rope) : iterator := [val].

(** The loop of [string_rope_iter_next]; [None] is a failed [assert]. *)
Fixpoint descend (val : rope) (stack : iterator) : option (leaf * iterator) :=
  match val with
  | RString p => Some (p, stack)
  | RRope _ _ _ lft rgt => if Z.of_nat (length stack) <? JS_STRING_ROPE_MAX_DEPTH then descend lft (rgt :: stack) else None
  end.

(** NULL at the end *)
Definition string_rope_iter_next (s : iterator) : option (option leaf * iterator) :=
  match s with
  | [] => Some (None, [])
  | val :: stack => '(p, stack) ← descend val stack; Some (Some p, stack)
  end.

(** A turn of the loop reads from both strings, and moves on at their ends. *)
Definition advance (p : leaf) (pos l : Z) (it : iterator) : option (option leaf * Z * iterator) :=
  if leaf_len p <=? pos + l then '(p, it) ← string_rope_iter_next it; Some (p, 0, it) else Some (Some p, pos + l, it).

Fixpoint compare_loop (fuel : nat) (p1 p2 : option leaf) (pos1 pos2 len : Z) (it1 it2 : iterator) : option (option Z) :=
  match fuel with
  | O => None
  | S fuel =>
      if len =? 0 then Some None
      else
        q1 ← p1; q2 ← p2;
        let l := Z.min (Z.min (u32 (leaf_len q1 - pos1)) (u32 (leaf_len q2 - pos2))) len in
        let res := js_string_memcmp (leaf_str q1) (Z.to_nat pos1) (leaf_str q2) (Z.to_nat pos2) (Z.to_nat l) in
        if negb (res =? 0) then Some (Some res)
        else
          '(p1, pos1, it1) ← advance q1 pos1 l it1;
          '(p2, pos2, it2) ← advance q2 pos2 l it2;
          compare_loop fuel p1 p2 pos1 pos2 (len - l) it1 it2
  end.

Fixpoint leaves (v : rope) : list leaf := match v with RString p => [p] | RRope _ _ _ l r => leaves l ++ leaves r end.

Definition js_string_rope_compare (op1 op2 : rope) (eq_only : bool) : option Z :=
  let len1 := string_rope_get_len op1 in
  let len2 := string_rope_get_len op2 in
  if eq_only && negb (len1 =? len2) then Some 1
  else
    '(p1, it1) ← string_rope_iter_next (string_rope_iter_init op1);
    '(p2, it2) ← string_rope_iter_next (string_rope_iter_init op2);
    res ← compare_loop (S (length (leaves op1) + length (leaves op2))) p1 p2 0 0 (Z.min len1 len2) it1 it2;
    Some (match res with
          | Some res => res
          | None => if len1 =? len2 then 0 else if len1 <? len2 then -1 else 1
          end).

(** ** Flattening *)

(** [string_buffer_concat_value] on a string or a rope *)
Fixpoint string_buffer_concat_value (v : rope) (s : StringBuffer) (a : allocator) : option (Z * StringBuffer * allocator) :=
  if negb (error_status s =? 0) then Some (-1, s, a)
  else
    match v with
    | RString p => string_buffer_concat s (leaf_str p) 0 (Z.to_nat (leaf_len p)) a
    | RRope _ _ _ lft rgt =>
        '(r, s, a) ← string_buffer_concat_value lft s a;
        if negb (r =? 0) then Some (-1, s, a) else string_buffer_concat_value rgt s a
    end.

Definition empty_leaf : leaf := mk_leaf 0 (mk_string false []).

(** The result, and the rope: when it is [shared] it becomes its characters and
    the empty string.  [None] is also a shared rope with an exception in it. *)
Definition js_linearize_string_rope (r : rope) (shared : bool) (a : allocator) : option (option rope * rope * allocator) :=
  match r with
  | RString _ => None
  | RRope len wide depth lft rgt =>
      if match rgt with RString p => leaf_len p =? 0 | _ => false end then Some (Some lft, r, a)
      else
        let '(x, b, a) := string_buffer_init2 a len wide in
        if negb (x =? 0) then Some (None, r, a)
        else
          '(x, b, a) ← string_buffer_concat_value r b a;
          if negb (x =? 0) then Some (None, r, a)
          else
            '(ret, a) ← string_buffer_end b a;
            match ret with
            | None => if shared then None else Some (None, r, a)
            | Some p =>
                let ret := RString (mk_leaf (Z.of_nat (length (str p))) p) in
                Some (Some ret, if shared then RRope len wide depth ret (RString empty_leaf) else r, a)
            end
  end.
