(* ===== verification/RopesDiverge.v ===== *)
(** * A concatenation that does not end

    Rebalancing may build a rope that is deeper than 60 from its own first leaves,
    and [js_new_string_rope] then calls it on that rope: the same leaves, the same
    rope, without end. *)

From Stdlib Require Import ZArith Lia Bool.
From stdpp Require Import base numbers list option gmap.
From S2P Require Import Prelude JSStrings StringBuffer Ropes.

#[local] Open Scope Z_scope.

(** ** Programs of concatenations *)

Inductive expression : Type :=
| Literal (p : leaf)
| Plus (e1 e2 : expression).

Section Eval.
Variable rb : rope -> M (option rope).

Fixpoint eval_with (e : expression) : M (option rope) :=
  match e with
  | Literal p => mret (Some (RString p))
  | Plus e1 e2 =>
      r1 ← eval_with e1;
      match r1 with
      | None => mret None
      | Some r1 => r2 ← eval_with e2; match r2 with None => mret None | Some r2 => concat_strings rb r1 r2 end
      end
  end.

End Eval.

Definition eval (fuel : nat) : expression -> M (option rope) := eval_with (js_rebalancee_string_rope fuel).

Definition total_len (ps : list leaf) : Z := foldr (fun p n => leaf_len p + n) 0 ps.

Fixpoint literals (e : expression) : list leaf := match e with Literal p => [p] | Plus e1 e2 => literals e1 ++ literals e2 end.

(** ** Rebalancing depends on the leaves *)

Fixpoint fold_leaves (rb : rope -> M (option rope)) (ls : list leaf) (bs : buckets) : M buckets :=
  match ls with
  | [] => mret bs
  | p :: ls => '(_, bs) ← rebalance_string rb p bs; fold_leaves rb ls bs
  end.

Lemma bind_assoc {A B C} (m : M A) (f : A -> M B) (g : B -> M C) s : mbind g (mbind f m) s = mbind (fun x => mbind g (f x)) m s.
Proof. unfold mbind, M_bind. destruct (m s) as [[a s']| |]; done. Qed.

Lemma bind_ext {A B} (m : M A) (f g : A -> M B) s : (forall a s, f a s = g a s) -> mbind f m s = mbind g m s.
Proof. intros H. unfold mbind, M_bind. destruct (m s) as [[a s']| |]; [apply H | done | done]. Qed.

Lemma fold_leaves_app rb l1 l2 bs s : fold_leaves rb (l1 ++ l2) bs s = mbind (fold_leaves rb l2) (fold_leaves rb l1 bs) s.
Proof.
  revert bs s. induction l1 as [|p l1 IH]; intros bs s; [done|]. cbn [app fold_leaves]. rewrite bind_assoc. apply bind_ext. intros [ok b] s1. apply IH.
Qed.

Lemma rebalance_rec_leaves rb v : forall bs s,
  mbind (fun '(_, bs) => mret bs : M buckets) (js_rebalancee_string_rope_rec rb v bs) s = fold_leaves rb (leaves v) bs s.
Proof.
  induction v as [p|len w d l IHl r IHr]; intros bs s.
  - cbn [js_rebalancee_string_rope_rec leaves fold_leaves]. apply bind_ext. now intros [ok b].
  - cbn [js_rebalancee_string_rope_rec leaves]. rewrite fold_leaves_app. rewrite bind_assoc. unfold mbind at 1 4, M_bind at 1 4. rewrite <- IHl.
    unfold mbind, M_bind. destruct (js_rebalancee_string_rope_rec rb l bs s) as [[[ok b] s1]| |]; [|done..]. cbn. rewrite <- IHr. unfold mbind, M_bind.
    destruct (js_rebalancee_string_rope_rec rb r b s1) as [[[ok2 b2] s2]| |]; done.
Qed.

(** ** The leaves *)

Section Leaves.
(** The characters of the string of each length *)
Variable text : Z -> list Z.

Definition string_of (n : Z) : leaf := mk_leaf n (mk_string false (text n)).

(** "1" and a string of the length of the bucket [i], from the bucket 3 *)
Fixpoint tower (k : nat) : rope :=
  match k with
  | O => RRope (1 + fib 3) false 1 (RString (string_of 1)) (RString (string_of (fib 3)))
  | S k =>
      let t := tower k in
      let len := string_rope_get_len t in
      RRope (len + 1 + fib (S k + 3)) false (rope_depth t + 2) (RRope (len + 1) false (rope_depth t + 1) t (RString (string_of 1))) (RString (string_of (fib (S k + 3))))
  end.

(** "1" + a string of 610 characters or more is a rope. *)
Definition pair (i : nat) : expression := Plus (Literal (string_of 1)) (Literal (string_of (fib i))).

(** Appending a pair, so that the left of the rope is no string, then prepending
    a string of at most 377 characters *)
Fixpoint grow (e : expression) (i : nat) (short : list Z) : expression :=
  match short with
  | [] => e
  | n :: short => grow (Plus (Literal (string_of n)) (Plus e (pair i))) (S i) short
  end.

Definition short_lengths : list Z := flat_map (fun i => [fib i; 1]) (rev (seq 3 10)).

Fixpoint deepen (n : nat) (e : expression) : expression := match n with O => e | S n => deepen n (Plus e (Literal (string_of 513))) end.

Definition endless : expression := deepen 20 (grow (pair 13) 14 short_lengths).

(** Rebalancing the leaves of the tower concatenates the tower, which is too deep. *)
Lemma tower_calls_itself rb l : rb (tower 30) (mk_state [] l) = NoFuel ->
  fold_leaves rb (leaves (tower 30)) (replicate ROPE_N_BUCKETS None) (mk_state [] l) = NoFuel.
Proof. intros H. vm_compute. vm_compute in H. now rewrite H. Qed.

Lemma diverges l fuel : forall r rest, leaves r = leaves (tower 30) ++ rest -> js_rebalancee_string_rope fuel r (mk_state [] l) = NoFuel.
Proof.
  induction fuel as [|fuel IH]; intros r rest E; [done|]. cbn [js_rebalancee_string_rope].
  assert (N : fold_leaves (js_rebalancee_string_rope fuel) (leaves r) (replicate ROPE_N_BUCKETS None) (mk_state [] l) = NoFuel).
  { rewrite E, fold_leaves_app. unfold mbind, M_bind. now rewrite (tower_calls_itself _ _ (IH _ [] (eq_sym (app_nil_r _)))). }
  rewrite <- rebalance_rec_leaves in N. unfold rebalance, mbind, M_bind in *.
  destruct (js_rebalancee_string_rope_rec _ r _ _) as [[[ok b] s1]| |]; done.
Qed.

(** The rope that is too deep at the last step *)
Definition too_deep : rope :=
  match eval_with (fun r => mret (Some r)) endless (mk_state [] []) with Done (Some r, _) => r | _ => tower 0 end.

Lemma too_deep_leaves : leaves too_deep = leaves (tower 30) ++ drop 62 (leaves too_deep).
Proof. vm_compute. reflexivity. Qed.

Lemma endless_rebalances rb l : eval_with rb endless (mk_state [] l) = rb too_deep (mk_state [] l).
Proof. vm_compute. reflexivity. Qed.
End Leaves.

(** C19: concatenating strings with + may never return.  For [endless], an expression of the operator + on 82 strings
    of 1, 5, 8, ... characters, 24168100 characters in all, [JS_ConcatString] makes no progress however long it runs,
    when every allocation succeeds and whatever the characters are: rebalancing builds the very rope that it was
    called on the first leaves of, and calls itself on it (in C, until the stack overflows). *)
Theorem concatenation_diverges text l fuel :
  eval fuel (endless text) (mk_state [] l) = NoFuel /\
  total_len (literals (endless text)) = 24168100 /\ 24168100 < JS_STRING_LEN_MAX.
Proof.
  split; [|split; [vm_compute; reflexivity | done]].
  unfold eval. rewrite endless_rebalances. exact (diverges text l fuel _ _ (too_deep_leaves text)).
Qed.
