(* ===== verification/RopesSpec.v ===== *)
(** * What concatenation promises

    Ropes stand for sequences of code units.  Concatenation, rebalancing, reading,
    comparing and flattening agree with the operations on flat strings; rebalancing
    ends at once for ropes of less than 3524578 characters. *)

From Stdlib Require Import ZArith Lia Bool.
From stdpp Require Import base numbers list option gmap.
From S2P Require Import Prelude JSStrings StringBuffer StringBufferSpec Ropes.

#[local] Open Scope Z_scope.

(** ** Well-formed ropes *)

Definition leaf_ok (p : leaf) : Prop :=
  leaf_len p = Z.of_nat (length (str (leaf_str p))) /\ wf_string (leaf_str p) /\ leaf_len p <= JS_STRING_LEN_MAX.

Lemma empty_leaf_ok : leaf_ok empty_leaf.
Proof. split; [done|]. split; [apply Forall_nil_2 | done]. Qed.

Definition is_string (v : rope) : Prop := match v with RString _ => True | RRope _ _ _ _ _ => False end.

(** The flag of wide characters and the depth are bounds: flattening a rope that
    others contain changes neither. *)
Fixpoint rope_ok (v : rope) : Prop :=
  match v with
  | RString p => leaf_ok p
  | RRope len wide depth l r =>
      rope_ok l /\ rope_ok r /\ len = string_rope_get_len l + string_rope_get_len r /\ 0 < len <= JS_STRING_LEN_MAX /\
      (wide = false -> rope_wide l = false /\ rope_wide r = false) /\
      0 <= rope_depth l < depth /\ 0 <= rope_depth r < depth /\ (string_rope_get_len r = 0 -> is_string l)
  end.

#[export] Instance leaf_ok_dec p : Decision (leaf_ok p).
Proof. unfold leaf_ok, wf_string. apply _. Defined.
#[export] Instance is_string_dec v : Decision (is_string v).
Proof. destruct v; cbn; apply _. Defined.
#[export] Instance rope_ok_dec v : Decision (rope_ok v).
Proof. induction v; cbn; apply _. Defined.

Definition chars (v : rope) : list Z := flat_map (fun p => str (leaf_str p)) (leaves v).

Lemma chars_node len w d l r : chars (RRope len w d l r) = chars l ++ chars r.
Proof. apply flat_map_app. Qed.
Lemma chars_string p : chars (RString p) = str (leaf_str p).
Proof. unfold chars. cbn. apply app_nil_r. Qed.

Lemma len_chars v : rope_ok v -> string_rope_get_len v = Z.of_nat (length (chars v)) /\ 0 <= string_rope_get_len v <= JS_STRING_LEN_MAX.
Proof.
  induction v as [p|len w d l IHl r IHr]; cbn [rope_ok string_rope_get_len].
  - intros (E & _ & H). rewrite chars_string. split; [done | lia].
  - intros (Hl & Hr & -> & Hlen & _). rewrite chars_node, length_app. destruct (IHl Hl) as [El _], (IHr Hr) as [Er _]. lia.
Qed.

Lemma depth_nonneg v : rope_ok v -> 0 <= rope_depth v.
Proof. destruct v; cbn; [lia|]. intros (_ & _ & _ & _ & _ & ? & _). lia. Qed.

Definition no_failure (s : state) : Prop := ~ fails (answers s).
Definition after (s s' : state) : Prop := answers s' `suffix_of` answers s.

Lemma after_refl s : after s s.
Proof. unfold after. reflexivity. Qed.
Lemma after_trans s1 s2 s3 : after s1 s2 -> after s2 s3 -> after s1 s3.
Proof. unfold after. intros. now transitivity (answers s2). Qed.
Lemma no_failure_after s s' : after s s' -> no_failure s -> no_failure s'.
Proof. intros H N F. apply N. eapply fails_suffix; eauto. Qed.
#[export] Hint Resolve after_refl after_trans no_failure_after : core.

Lemma rope_malloc_ok s : exists b s', js_malloc s = Done (b, s') /\ after s s' /\ (b = false -> ~ no_failure s).
Proof.
  unfold js_malloc, allocate, after, no_failure, fails. destruct (answers s) as [|x a].
  - exists true, (mk_state [] (in_place s)). cbn. split; [reflexivity|]. split; [reflexivity | intros ?; discriminate].
  - exists (match x with Some _ => true | None => false end), (mk_state a (in_place s)). cbn. split; [reflexivity|]. split; [now apply suffix_cons_r|].
    destruct x; [done|]. intros _ H. apply H, list_elem_of_here.
Qed.

Lemma access_some {A B} (o : option A) a (f : A -> M B) s : o = Some a -> mbind f (access o) s = f a s.
Proof. now intros ->. Qed.

(** ** Making a node *)

Definition node (l r : rope) : rope :=
  RRope (string_rope_get_len l + string_rope_get_len r) (rope_wide l || rope_wide r) (Z.max (rope_depth l) (rope_depth r) + 1) l r.

Lemma node_ok l r : rope_ok l -> rope_ok r -> 0 < string_rope_get_len l + string_rope_get_len r <= JS_STRING_LEN_MAX ->
  (string_rope_get_len r = 0 -> is_string l) -> rope_ok (node l r).
Proof.
  intros Hl Hr Hlen He. pose proof (depth_nonneg l Hl). pose proof (depth_nonneg r Hr). cbn.
  repeat split; try done; try lia; now apply orb_false_elim in H1.
Qed.

(** [js_new_string_rope] *)
Lemma new_rope_node rb l r s : rope_ok l -> rope_ok r -> string_rope_get_len l + string_rope_get_len r <= JS_STRING_LEN_MAX ->
  rope_depth l <= JS_STRING_ROPE_MAX_DEPTH -> rope_depth r <= JS_STRING_ROPE_MAX_DEPTH ->
  exists s', after s s' /\
    ((js_new_string_rope rb l r s = Done (None, s') /\ ~ no_failure s) \/
     js_new_string_rope rb l r s = if JS_STRING_ROPE_MAX_DEPTH <? rope_depth (node l r) then rb (node l r) s' else Done (Some (node l r), s')).
Proof.
  intros Hl Hr Hlen Hdl Hdr. pose proof (len_chars l Hl) as [_ Hl0]. pose proof (len_chars r Hr) as [_ Hr0]. pose proof (depth_nonneg l Hl). pose proof (depth_nonneg r Hr).
  unfold js_new_string_rope, JS_STRING_LEN_MAX, JS_STRING_ROPE_MAX_DEPTH in *. rewrite wrap_small by (unfold in_u; lia). destruct (Z.ltb_spec (2 ^ 30 - 1) (string_rope_get_len l + string_rope_get_len r)); [lia|].
  destruct (rope_malloc_ok s) as (b & s' & E & A & Hb). exists s'. split; [done|]. unfold mbind, M_bind. rewrite E. destruct b; cbn [negb]; [right | left; auto].
  rewrite wrap_small by (unfold in_u; lia). fold (node l r). now destruct (60 <? rope_depth (node l r)).
Qed.

Lemma new_rope_too_long rb l r s : 0 <= string_rope_get_len l < 2 ^ 31 -> 0 <= string_rope_get_len r < 2 ^ 31 ->
  JS_STRING_LEN_MAX < string_rope_get_len l + string_rope_get_len r -> js_new_string_rope rb l r s = Done (None, s).
Proof.
  intros Hl Hr H. unfold js_new_string_rope. rewrite wrap_small by (unfold in_u; lia). now rewrite (proj2 (Z.ltb_lt _ _) H).
Qed.

(** Ropes whose depth is tracked when they are [small], and at most 60 otherwise *)
Section Depth.
Variable small : bool.
Definition depth_le (k : Z) (r : rope) : Prop := rope_depth r <= if small then k else JS_STRING_ROPE_MAX_DEPTH.

(** Memory only runs out in small ropes. *)
Definition live (s : state) : Prop := small = false -> no_failure s.

Lemma live_after s s' : after s s' -> live s -> live s'.
Proof. unfold live. eauto. Qed.

(** A rope with characters in [P], or no memory, or for large ropes no end *)
Definition good (s : state) (k : Z) (P : list Z -> Prop) (o : outcome (option rope * state)) : Prop :=
  match o with
  | Done (Some r, s') => after s s' /\ rope_ok r /\ depth_le k r /\ P (chars r)
  | Done (None, s') => after s s' /\ ~ no_failure s
  | Crash => False
  | NoFuel => small = false
  end.

Lemma good_mono s k k' (P P' : list Z -> Prop) o : k <= k' -> (forall c, P c -> P' c) -> good s k P o -> good s k' P' o.
Proof.
  intros Hk HP. destruct o as [[[r|] s']| |]; cbn; try done. intros (? & ? & Hd & ?). split_and!; auto. unfold depth_le in *. destruct small; lia.
Qed.

Lemma good_after s s' k P o : after s s' -> good s' k P o -> good s k P o.
Proof. intros A. destruct o as [[[r|] s2]| |]; cbn; try done; intros [? ?]; split; eauto. Qed.

Lemma depth_le_mono k k' r : k <= k' -> depth_le k r -> depth_le k' r.
Proof. unfold depth_le. destruct small; lia. Qed.

Variable total : Z.
Variable rb : rope -> M (option rope).

(** What is needed of the function that rebalances *)
Definition rebalances : Prop := forall r s, rope_ok r -> string_rope_get_len r <= total -> rope_depth r <= 61 -> live s ->
  good s JS_STRING_ROPE_MAX_DEPTH (fun c => no_failure s -> c = chars r) (rb r s).

Lemma new_rope_good k l r s : (small = false -> rebalances) -> total <= JS_STRING_LEN_MAX ->
  rope_ok l -> rope_ok r -> 0 < string_rope_get_len l + string_rope_get_len r <= total -> (string_rope_get_len r = 0 -> is_string l) ->
  depth_le k l -> depth_le k r -> (small = true -> k <= 59) -> live s ->
  good s (k + 1) (eq (chars l ++ chars r)) (js_new_string_rope rb l r s).
Proof.
  intros Hrb Htot Hl Hr Hlen He Hdl Hdr Hk Hs. pose proof (node_ok l r Hl Hr ltac:(lia) He) as Hn.
  destruct (new_rope_node rb l r s Hl Hr) as (s' & A & [[-> N]|E]); [lia | unfold depth_le, JS_STRING_ROPE_MAX_DEPTH in *; destruct small; lia.. | now split|].
  rewrite E. clear E. apply (good_after s s'); [done|]. rewrite <- (chars_node (string_rope_get_len l + string_rope_get_len r) (rope_wide l || rope_wide r) (Z.max (rope_depth l) (rope_depth r) + 1)). fold (node l r).
  unfold depth_le, JS_STRING_ROPE_MAX_DEPTH in *. destruct (Z.ltb_spec 60 (rope_depth (node l r))) as [D|D].
  - cbn [node rope_depth] in D. destruct small eqn:Es; [lia|]. pose proof (live_after s s' A Hs) as Hs'.
    assert (R : good s' JS_STRING_ROPE_MAX_DEPTH (fun c => no_failure s' -> c = chars (node l r)) (rb (node l r) s')) by (apply Hrb; try done; cbn [node rope_depth string_rope_get_len]; lia).
    unfold live in Hs'. destruct (rb (node l r) s') as [[[q|] s2]| |]; cbn in *; unfold depth_le in *; rewrite ?Es in *; try done.
    destruct R as (? & ? & Hq & HP). repeat split; auto. symmetry. auto.
  - split; [apply after_refl|]. split; [exact Hn|]. split; [|reflexivity]. unfold depth_le. cbn [node rope_depth] in *. unfold JS_STRING_ROPE_MAX_DEPTH. destruct small; lia.
Qed.

(** The same for any operands, when rebalancing is safe *)
Lemma new_rope_top l r s : rebalances -> total <= JS_STRING_LEN_MAX ->
  rope_ok l -> rope_ok r -> 0 < string_rope_get_len l + string_rope_get_len r <= total -> (string_rope_get_len r = 0 -> is_string l) ->
  rope_depth l <= JS_STRING_ROPE_MAX_DEPTH -> rope_depth r <= JS_STRING_ROPE_MAX_DEPTH -> live s ->
  good s JS_STRING_ROPE_MAX_DEPTH (fun c => no_failure s -> c = chars l ++ chars r) (js_new_string_rope rb l r s).
Proof.
  intros Hrb Htot Hl Hr Hlen He Hdl Hdr Hs. pose proof (node_ok l r Hl Hr ltac:(lia) He) as Hn.
  destruct (new_rope_node rb l r s Hl Hr ltac:(lia) Hdl Hdr) as (s' & A & [[-> N]|E]); [now split|].
  rewrite E. clear E. apply (good_after s s'); [done|]. rewrite <- (chars_node (string_rope_get_len l + string_rope_get_len r) (rope_wide l || rope_wide r) (Z.max (rope_depth l) (rope_depth r) + 1)). fold (node l r).
  destruct (Z.ltb_spec JS_STRING_ROPE_MAX_DEPTH (rope_depth (node l r))) as [D|D].
  - eapply good_mono; [apply Z.le_refl | | apply Hrb; eauto using live_after; cbn; unfold JS_STRING_ROPE_MAX_DEPTH in *; lia]. cbn beta. eauto.
  - split; [apply after_refl|]. split; [exact Hn|]. split; [|done]. unfold depth_le. destruct small; lia.
Qed.
(** ** The buckets *)


Lemma fib_checks : forallb (fun i => (fib (S i) <=? 2 * fib i) && (fib i <? fib (S i)) && ((fib i <? 3524578) && (i <=? 30)%nat || (3524578 <=? fib i) && (31 <=? i)%nat)) (seq 0 43) = true.
Proof. vm_compute. reflexivity. Qed.

Lemma fib_facts i : (i < 43)%nat -> fib (S i) <= 2 * fib i /\ fib i < fib (S i) /\ (fib i < 3524578 -> (i <= 30)%nat).
Proof.
  intros H. pose proof fib_checks as C. rewrite forallb_forall in C. specialize (C i). rewrite in_seq in C. specialize (C ltac:(lia)).
  rewrite !andb_true_iff, orb_true_iff, !andb_true_iff, !Z.leb_le, !Z.ltb_lt, !Nat.leb_le in C. lia.
Qed.

Lemma fib_pos i : (i < 44)%nat -> 1 <= fib i.
Proof. induction i; intros H; [done|]. pose proof (fib_facts i ltac:(lia)). lia. Qed.

Lemma fib_lookup i : (i < 44)%nat -> rope_bucket_len !! i = Some (fib i).
Proof. intros H. unfold fib. rewrite nth_lookup. destruct (lookup_lt_is_Some_2 rope_bucket_len i H) as [x E]. now rewrite E. Qed.

(** The depth of the rope in a bucket *)
Definition bucket_depth (i : nat) : Z := Z.max 0 (2 * Z.of_nat i - 1).
Definition bucket_ok (i : nat) (b : rope) : Prop := rope_ok b /\ fib i <= string_rope_get_len b /\ depth_le (bucket_depth i) b.

Definition opt_len (o : option rope) : Z := match o with Some r => string_rope_get_len r | None => 0 end.
Definition opt_chars (o : option rope) : list Z := match o with Some r => chars r | None => [] end.

(** The buckets from [i] *)
Fixpoint buckets_ok (i : nat) (bs : buckets) : Prop :=
  match bs with [] => i = 44%nat | o :: bs => match o with Some b => bucket_ok i b | None => True end /\ buckets_ok (S i) bs end.
Definition buckets_len (bs : buckets) : Z := foldr (fun o n => n + opt_len o) 0 bs.
(** The last bucket has the first characters. *)
Definition buckets_chars (bs : buckets) : list Z := foldr (fun o l => l ++ opt_chars o) [] bs.

Lemma buckets_ok_length i bs : buckets_ok i bs -> (i + length bs = 44)%nat.
Proof. revert i. induction bs as [|o bs IH]; cbn; intros i H; [lia|]. destruct H as [_ H]. apply IH in H. lia. Qed.

Lemma bucket_ok_len i b : (i < 44)%nat -> bucket_ok i b -> 1 <= string_rope_get_len b.
Proof. intros H (_ & ? & _). pose proof (fib_pos i H). lia. Qed.

Lemma buckets_len_nonneg i bs : buckets_ok i bs -> 0 <= buckets_len bs.
Proof.
  revert i. induction bs as [|o bs IH]; intros i H; [done|]. pose proof (buckets_ok_length _ _ H) as L. cbn in *. destruct H as [Ho H]. apply IH in H.
  unfold buckets_len in *. cbn. destruct o as [b|]; cbn; [|lia]. apply bucket_ok_len in Ho; lia.
Qed.

Lemma replicate_snoc_app {A} n (x : A) l : replicate n x ++ x :: l = replicate (S n) x ++ l.
Proof. change (replicate (S n) x ++ l) with (x :: replicate n x ++ l). induction n; cbn in *; [done | now f_equal]. Qed.

Lemma buckets_ok_cleared i j bs : buckets_ok i (replicate j None ++ bs) <-> buckets_ok (i + j) bs.
Proof. revert i. induction j as [|j IH]; intros i; cbn; [now rewrite Nat.add_0_r|]. rewrite IH. replace (S i + j)%nat with (i + S j)%nat by lia. tauto. Qed.
Lemma buckets_len_cleared j bs : buckets_len (replicate j None ++ bs) = buckets_len bs.
Proof. induction j as [|j IH]; [done|]. unfold buckets_len in *. cbn. rewrite IH. apply Z.add_0_r. Qed.
Lemma buckets_chars_cleared j bs : buckets_chars (replicate j None ++ bs) = buckets_chars bs.
Proof. induction j as [|j IH]; [done|]. unfold buckets_chars in *. cbn. rewrite IH. apply app_nil_r. Qed.

Lemma lookup_bucket {A} j (x : A) b bs : (replicate j x ++ b :: bs) !! j = Some b.
Proof. rewrite lookup_app_r by (rewrite length_replicate; lia). now rewrite length_replicate, Nat.sub_diag. Qed.
Lemma insert_bucket {A} j (x y : A) b bs : <[j := y]> (replicate j x ++ b :: bs) = replicate j x ++ y :: bs.
Proof. rewrite insert_app_r_alt by (rewrite length_replicate; lia). now rewrite length_replicate, Nat.sub_diag. Qed.

(** ** The steps of the rebalancing *)

Hypothesis Hrb : small = false -> rebalances.
Hypothesis Htotal : total <= (if small then 3524577 else JS_STRING_LEN_MAX).

Lemma total_max : total <= JS_STRING_LEN_MAX.
Proof. unfold JS_STRING_LEN_MAX. destruct small; [lia | done]. Qed.

(** A bucket that is used is low when the ropes are small. *)
Lemma used_low i n : (i < 44)%nat -> fib i <= n -> n <= total -> small = true -> (i <= 30)%nat.
Proof.
  intros Hi Hn Ht Es. rewrite Es in Htotal. destruct (Nat.lt_ge_cases i 43); [apply fib_facts; lia|]. replace i with 43%nat in * by lia.
  change (fib 43) with 1134903170 in *. lia.
Qed.

(** Two ropes of a bucket, or one more than is left, make one for the next bucket. *)
Lemma twice_next i n : (i < 44)%nat -> 2 * fib i <= n -> n <= total -> (i < 43)%nat /\ fib (S i) <= n /\ (small = true -> (i <= 29)%nat).
Proof.
  intros Hi Hn Ht. pose proof total_max as M. unfold JS_STRING_LEN_MAX in *. assert (i < 43)%nat.
  { destruct (Nat.lt_ge_cases i 43); [done|]. replace i with 43%nat in * by lia. change (fib 43) with 1134903170 in *. lia. }
  pose proof (fib_facts i ltac:(lia)) as (F & F' & F30). split_and!; [done | lia|]. intros Es. rewrite Es in Htotal. destruct (Nat.eq_dec i 30%nat) as [->|]; [|lia].
  change (fib 30) with 2178309 in *. lia.
Qed.

(** [js_new_string_rope], with what it gives to the next step *)
Lemma step_good k l r s : rope_ok l -> rope_ok r -> 0 < string_rope_get_len l -> 0 < string_rope_get_len r ->
  string_rope_get_len l + string_rope_get_len r <= total -> depth_le k l -> depth_le k r -> (small = true -> k <= 59) -> live s ->
  match js_new_string_rope rb l r s with
  | Done (Some q, s') => after s s' /\ live s' /\ rope_ok q /\ depth_le (k + 1) q /\ chars q = chars l ++ chars r /\
      string_rope_get_len q = string_rope_get_len l + string_rope_get_len r
  | Done (None, s') => after s s' /\ live s' /\ ~ no_failure s
  | Crash => False
  | NoFuel => small = false
  end.
Proof.
  intros Hl Hr Hl0 Hr0 Hlen Hdl Hdr Hk Hs.
  pose proof (new_rope_good k l r s Hrb total_max Hl Hr ltac:(lia) ltac:(lia) Hdl Hdr Hk Hs) as G.
  destruct (js_new_string_rope rb l r s) as [[[q|] s']| |]; try done.
  - destruct G as (A & Hq & Hd & E). split_and!; eauto using live_after.
    destruct (len_chars q Hq) as [-> _]. rewrite <- E, length_app. destruct (len_chars l Hl) as [-> _], (len_chars r Hr) as [-> _]. lia.
  - destruct G as [A N]. split_and!; eauto using live_after.
Qed.

(** The state after a step on the buckets: what they hold is [P]. *)
Definition tracks (s s' : state) (n : Z) (bs' : buckets) (P : list Z -> Prop) : Prop :=
  after s s' /\ live s' /\ buckets_ok 0 bs' /\ buckets_len bs' <= n /\ (no_failure s -> P (buckets_chars bs')).

Lemma buckets_ok_rest i bs o : buckets_ok i (o :: bs) -> buckets_ok 0 (replicate (S i) None ++ bs).
Proof. intros [_ H]. now apply buckets_ok_cleared. Qed.

Lemma place_ok fuel : forall i bs a s, (44 - i < fuel)%nat -> buckets_ok i bs -> (i < 44)%nat -> bucket_ok i a ->
  buckets_len bs + string_rope_get_len a <= total -> live s ->
  match place rb fuel i (replicate i None ++ bs) a s with
  | Done ((ok, bs'), s') => tracks s s' (buckets_len bs + string_rope_get_len a) bs' (fun c => c = buckets_chars bs ++ chars a) /\ (ok = false -> ~ no_failure s)
  | Crash => False
  | NoFuel => small = false
  end.
Proof.
  induction fuel as [|fuel IH]; intros i bs a s Hf Hbs Hi Ha Hlen Hs; [lia|]. cbn [place]. pose proof (buckets_ok_length _ _ Hbs) as L.
  destruct bs as [|o bs]; [cbn in L; lia|]. unfold buckets in *. rewrite (access_some _ _ _ _ (lookup_bucket i None o bs)).
  pose proof Hbs as [Ho Hrest]. cbn [buckets_len foldr] in *. fold (buckets_len bs) in *. pose proof (buckets_len_nonneg _ _ Hrest) as P0.
  destruct o as [b|]; cbn [opt_len] in *.
  - pose proof (bucket_ok_len _ _ Hi Ho) as Hb1. pose proof (bucket_ok_len _ _ Hi Ha) as Ha1. destruct Ho as (Hb & Hbl & Hbd), Ha as (Ha & Hal & Had).
    assert (T : (i < 43)%nat /\ fib (S i) <= string_rope_get_len b + string_rope_get_len a /\ (small = true -> (i <= 29)%nat)) by (apply twice_next; lia).
    destruct T as (Hi' & Hf' & Hlow).
    pose proof (step_good (bucket_depth i) b a s Hb Ha ltac:(lia) ltac:(lia) ltac:(lia) Hbd Had ltac:(unfold bucket_depth; intros E; specialize (Hlow E); lia) Hs) as G.
    unfold mbind, M_bind. rewrite insert_bucket, replicate_snoc_app. destruct (js_new_string_rope rb b a s) as [[[q|] s1]| |]; [|cbn|done..].
    + destruct G as (A & Hs1 & Hq & Hqd & Eq & El). specialize (IH (S i) bs q s1 ltac:(lia) Hrest ltac:(lia)).
      assert (Q : bucket_ok (S i) q) by (split_and!; [done | lia | eapply depth_le_mono; [|exact Hqd]; unfold bucket_depth; lia]).
      specialize (IH Q ltac:(lia) Hs1). destruct (place rb fuel _ _ _ s1) as [[[ok bs'] s2]| |]; try done.
      destruct IH as [(A2 & ? & ? & ? & E2) Hok]. split; [|intros E N; apply Hok; eauto]. repeat split; eauto; [lia|].
      intros N. rewrite E2 by eauto. cbn. now rewrite Eq, app_assoc.
    + destruct G as (A & Hs1 & N). repeat split; auto; [now apply (buckets_ok_rest i bs (Some b)) | | now intros ?].
      change (None :: replicate i None ++ bs) with (replicate (S i) None ++ bs). rewrite buckets_len_cleared. lia.
  - rewrite insert_bucket. split; [|done]. repeat split; auto.
    + now apply buckets_ok_cleared.
    + rewrite buckets_len_cleared. cbn. fold (buckets_len bs). lia.
    + intros _. rewrite buckets_chars_cleared. cbn. now rewrite app_nil_r.
Qed.

(** The rope collected from the buckets before [i] *)
Definition collected (i : nat) (a : option rope) : Prop :=
  match a with Some a => (0 < i)%nat /\ rope_ok a /\ 0 < string_rope_get_len a /\ depth_le (2 * Z.of_nat i - 2) a | None => True end.

Lemma collected_next i a : collected i a -> collected (S i) a.
Proof. destruct a; cbn; [|done]. intros (? & ? & ? & ?). split_and!; [lia | done | done|]. eapply depth_le_mono; [|eassumption]. lia. Qed.

Definition collects (s : state) (len : Z) (n : Z) (c : list Z) (o : outcome (bool * (nat * buckets * option rope) * state)) : Prop :=
  match o with
  | Done ((true, (i', bs', a')), s') => after s s' /\ live s' /\ (i' < 44)%nat /\ fib i' <= len /\ collected i' a' /\
      exists rest, bs' = replicate i' None ++ rest /\ buckets_ok i' rest /\ buckets_len rest + opt_len a' = n /\ buckets_chars rest ++ opt_chars a' = c
  | Done ((false, (_, bs', _)), s') => after s s' /\ live s' /\ ~ no_failure s /\ buckets_ok 0 bs' /\ buckets_len bs' <= n
  | Crash => False
  | NoFuel => small = false
  end.

Lemma collects_after s s' len n c o : after s s' -> collects s' len n c o -> collects s len n c o.
Proof.
  intros A. destruct o as [[[[] [[i bs] a]] s2]| |]; cbn; try done.
  - intros (? & H). split; eauto.
  - intros (? & ? & ? & ?). split_and!; eauto; apply H2.
Qed.

Lemma collect_ok fuel : forall i bs a s len, (44 - i <= fuel)%nat -> buckets_ok i bs -> (i < 44)%nat -> fib i <= len -> collected i a ->
  buckets_len bs + opt_len a + len <= total -> live s ->
  collects s len (buckets_len bs + opt_len a) (buckets_chars bs ++ opt_chars a) (collect rb fuel len i (replicate i None ++ bs) a s).
Proof.
  induction fuel as [|fuel IH]; intros i bs a s len Hf Hbs Hi Hlen Ha Htot Hs; [lia|]. cbn [collect]. pose proof (buckets_ok_length _ _ Hbs) as L.
  assert (Hlow : (i < 43)%nat /\ (small = true -> fib (S i) <= len -> (i <= 29)%nat)).
  { pose proof total_max as M. unfold JS_STRING_LEN_MAX in *. pose proof (buckets_len_nonneg _ _ Hbs). assert (0 <= opt_len a) by (destruct a; cbn in *; [lia | done]).
    assert (i < 43)%nat by (destruct (Nat.lt_ge_cases i 43); [done|]; replace i with 43%nat in * by lia; change (fib 43) with 1134903170 in *; lia).
    split; [done|]. intros Es Hnext. rewrite Es in Htotal. destruct (Nat.lt_ge_cases i 30); [lia|].
    destruct (Nat.eq_dec i 30%nat) as [->|]; [change (fib 31) with 3524578 in *; lia|]. destruct (fib_facts i ltac:(lia)) as (_ & ? & F). pose proof (F ltac:(lia)). lia. }
  pose proof (fib_pos i Hi) as Hp. destruct Hlow as [Hi' Hlow]. rewrite (access_some _ _ _ _ (fib_lookup (S i) ltac:(lia))).
  destruct (Z.leb_spec (fib (S i)) len) as [Hnext|Hnext]; [|repeat split; eauto].
  destruct bs as [|o bs]; [cbn in L; lia|]. unfold buckets in *. rewrite (access_some _ _ _ _ (lookup_bucket i None o bs)).
  pose proof Hbs as [Ho Hrest]. cbn [buckets_len buckets_chars foldr] in *. fold (buckets_len bs) (buckets_chars bs) in *. pose proof (buckets_len_nonneg _ _ Hrest) as P0.
  destruct o as [b|]; cbn [opt_len opt_chars] in *.
  - pose proof (bucket_ok_len _ _ Hi Ho) as Hb1. destruct Ho as (Hb & Hbl & Hbd). rewrite insert_bucket, replicate_snoc_app. destruct a as [a|].
    + destruct Ha as (Hi0 & Ha & Ha0 & Had). cbn [opt_len opt_chars] in *.
      assert (Had' : depth_le (bucket_depth i) a) by (eapply depth_le_mono; [|exact Had]; unfold bucket_depth; lia).
      pose proof (step_good (bucket_depth i) b a s Hb Ha ltac:(lia) Ha0 ltac:(lia) Hbd Had'
        ltac:(unfold bucket_depth; intros E; specialize (Hlow E Hnext); lia) Hs) as G.
      unfold mbind, M_bind. destruct (js_new_string_rope rb b a s) as [[[q|] s1]| |]; [|cbn|destruct G|exact G].
      * destruct G as (A & Hs1 & Hq & Hqd & Eq & El). apply (collects_after s s1); [done|].
        replace (buckets_len bs + string_rope_get_len b + string_rope_get_len a) with (buckets_len bs + opt_len (Some q)) by (cbn; lia).
        replace ((buckets_chars bs ++ chars b) ++ chars a) with (buckets_chars bs ++ opt_chars (Some q)) by (cbn; now rewrite Eq, app_assoc).
        apply IH; auto; try lia; [|cbn; lia]. cbn. split_and!; [lia | done | lia|]. eapply depth_le_mono; [|exact Hqd]. unfold bucket_depth. lia.
      * destruct G as (A & Hs1 & N). split_and!; auto; [now apply (buckets_ok_rest i bs (Some b))|].
        change (None :: replicate i None ++ bs) with (replicate (S i) None ++ bs). rewrite buckets_len_cleared. lia.
    + cbn [opt_len opt_chars] in *. rewrite app_nil_r, Z.add_0_r in *.
      apply (IH (S i) bs (Some b)); auto; try lia. cbn. split_and!; [lia | done | lia|]. eapply depth_le_mono; [|exact Hbd]. unfold bucket_depth. lia.
  - rewrite Z.add_0_r, app_nil_r in *. rewrite replicate_snoc_app. apply IH; auto; try lia. now apply collected_next.
Qed.

Definition grows (s : state) (n : Z) (c : list Z) (o : outcome (bool * buckets * state)) : Prop :=
  match o with
  | Done ((ok, bs'), s') => tracks s s' n bs' (fun d => d = c) /\ (ok = false -> ~ no_failure s)
  | Crash => False
  | NoFuel => small = false
  end.

Lemma tracks_weaken s n n' bs' s' (P : list Z -> Prop) : n <= n' -> tracks s s' n bs' P -> tracks s s' n' bs' P.
Proof. intros H (? & ? & ? & ? & ?). repeat split; auto. lia. Qed.

Lemma tracks_after s s1 n bs' s' (P : list Z -> Prop) : after s s1 -> tracks s1 s' n bs' P -> tracks s s' n bs' P.
Proof. intros A (? & ? & ? & ? & ?). repeat split; eauto. Qed.

(** Nothing is left to be said of the characters when memory ran out. *)
Lemma tracks_failed s s' n bs' (P : list Z -> Prop) : after s s' -> live s' -> ~ no_failure s -> buckets_ok 0 bs' -> buckets_len bs' <= n -> tracks s s' n bs' P.
Proof. intros. repeat split; auto. now intros. Qed.

Lemma rebalance_string_ok p bs s : leaf_ok p -> buckets_ok 0 bs -> buckets_len bs + leaf_len p <= total -> live s ->
  grows s (buckets_len bs + leaf_len p) (buckets_chars bs ++ str (leaf_str p)) (rebalance_string rb p bs s).
Proof.
  intros Hp Hbs Hlen Hs. unfold rebalance_string. pose proof (len_chars (RString p) Hp) as [El Hl0]. rewrite chars_string in El. cbn [string_rope_get_len] in *.
  pose proof (buckets_len_nonneg _ _ Hbs) as P0. destruct (Z.eqb_spec (leaf_len p) 0) as [E0|N0].
  - split; [|done]. repeat split; auto; [lia|]. destruct (str (leaf_str p)); [now rewrite app_nil_r | cbn in *; lia].
  - pose proof (collect_ok ROPE_N_BUCKETS 0 bs None s (leaf_len p) ltac:(unfold ROPE_N_BUCKETS; lia) Hbs ltac:(lia) ltac:(change (fib 0) with 1; lia) I ltac:(cbn; lia) Hs) as C.
    cbn [opt_len opt_chars] in C. rewrite app_nil_r, Z.add_0_r in C. change (replicate 0 None ++ bs) with bs in C.
    unfold mbind at 1, M_bind at 1. destruct (collect rb ROPE_N_BUCKETS (leaf_len p) 0 bs None s) as [[[ok [[i bs'] a]] s1]| |]; [|destruct C|exact C]. destruct ok; cbn [negb].
    + destruct C as (A & Hs1 & Hi & Hfib & Ha & rest & -> & Hrest & En & Ec). pose proof (buckets_len_nonneg _ _ Hrest).
      (* the leaf, after what was collected *)
      pose (m := match a with Some a => js_new_string_rope rb a (RString p) | None => mret (Some (RString p)) end).
      assert (G : match m s1 with
        | Done (Some q, s2) => after s1 s2 /\ live s2 /\ bucket_ok i q /\ chars q = opt_chars a ++ str (leaf_str p) /\ string_rope_get_len q = opt_len a + leaf_len p
        | Done (None, s2) => after s1 s2 /\ live s2 /\ ~ no_failure s1
        | Crash => False | NoFuel => small = false end).
      { unfold m. destruct a as [a|]; cbn [opt_len opt_chars] in *.
        - destruct Ha as (Hi0 & Ha & Ha0 & Had). assert (Dp : depth_le (2 * Z.of_nat i - 2) (RString p)) by (unfold depth_le; cbn; unfold JS_STRING_ROPE_MAX_DEPTH; destruct small; lia).
          pose proof (step_good (2 * Z.of_nat i - 2) a (RString p) s1 Ha Hp Ha0 ltac:(cbn; lia) ltac:(cbn; lia) Had Dp
            ltac:(intros Es; pose proof (used_low i (leaf_len p) Hi Hfib ltac:(lia) Es); lia) Hs1) as G. rewrite chars_string in G.
          destruct (js_new_string_rope rb a (RString p) s1) as [[[q|] s2]| |]; try done. destruct G as (? & ? & ? & ? & ? & Elq). cbn [string_rope_get_len] in Elq. split_and!; auto.
          split_and!; [done | lia|]. eapply depth_le_mono; [|eassumption]. unfold bucket_depth. lia.
        - split; [apply after_refl|]. split; [done|]. split; [|split; [apply chars_string | done]]. split; [exact Hp|]. split; [exact Hfib|]. unfold depth_le, bucket_depth, JS_STRING_ROPE_MAX_DEPTH. cbn. destruct small; lia. }
      fold m. unfold mbind at 1, M_bind at 1. destruct (m s1) as [[[q|] s2]| |]; [| |destruct G|exact G].
      * destruct G as (A2 & Hs2 & Hq & Eq & Elq). pose proof (place_ok (S ROPE_N_BUCKETS) i rest q s2 ltac:(unfold ROPE_N_BUCKETS; lia) Hrest Hi Hq ltac:(lia) Hs2) as Pl.
        destruct (place rb _ i _ q s2) as [[[ok bs2] s3]| |]; [|destruct Pl|exact Pl]. destruct Pl as [T Hok]. split; [|intros E N; apply Hok; eauto].
        apply (tracks_after s s2); [eauto|]. apply (tracks_weaken _ (buckets_len rest + string_rope_get_len q)); [lia|].
        replace (buckets_chars bs ++ str (leaf_str p)) with (buckets_chars rest ++ chars q) by (now rewrite Eq, app_assoc, Ec). exact T.
      * destruct G as (A2 & Hs2 & N). split; [|intros _ ?; eauto]. apply tracks_failed; eauto; [now apply buckets_ok_cleared|]. rewrite buckets_len_cleared.
        assert (0 <= opt_len a) by (destruct a; cbn in *; [lia | done]). lia.
    + destruct C as (A & Hs1 & N & Hbs' & Hle). split; [|done]. apply tracks_failed; auto. lia.
Qed.

Lemma rebalance_rec_ok v : forall bs s, rope_ok v -> buckets_ok 0 bs -> buckets_len bs + string_rope_get_len v <= total -> live s ->
  grows s (buckets_len bs + string_rope_get_len v) (buckets_chars bs ++ chars v) (js_rebalancee_string_rope_rec rb v bs s).
Proof.
  induction v as [p|len w d l IHl r IHr]; intros bs s Hv Hbs Hlen Hs; [rewrite chars_string; now apply rebalance_string_ok|].
  destruct Hv as (Hl & Hr & -> & _). cbn [string_rope_get_len js_rebalancee_string_rope_rec] in *. destruct (len_chars l Hl) as [_ Hl0], (len_chars r Hr) as [_ Hr0].
  specialize (IHl bs s Hl Hbs ltac:(lia) Hs). unfold mbind, M_bind. destruct (js_rebalancee_string_rope_rec rb l bs s) as [[[ok bs1] s1]| |]; [|destruct IHl|exact IHl].
  destruct IHl as [(A1 & Hs1 & Hbs1 & Hlen1 & E1) Hok1]. specialize (IHr bs1 s1 Hr Hbs1 ltac:(lia) Hs1).
  destruct (js_rebalancee_string_rope_rec rb r bs1 s1) as [[[ok2 bs2] s2]| |]; [|destruct IHr|exact IHr].
  destruct IHr as [(A2 & Hs2 & Hbs2 & Hlen2 & E2) Hok2]. split; [|done]. repeat split; eauto; [lia|].
  intros N. rewrite E2, E1 by eauto. now rewrite chars_node, app_assoc.
Qed.

Lemma gather_ok : forall bs i a s, buckets_ok i bs -> match a with Some a => rope_ok a /\ 0 < string_rope_get_len a /\ depth_le (Z.min 60 (2 * Z.of_nat i - 2)) a | None => True end ->
  buckets_len bs + opt_len a <= total -> live s ->
  match gather rb bs a s with
  | Done ((true, q), s') => after s s' /\ match q with Some q => rope_ok q /\ depth_le 60 q | None => True end /\ opt_chars q = buckets_chars bs ++ opt_chars a
  | Done ((false, _), s') => after s s' /\ ~ no_failure s
  | Crash => False
  | NoFuel => small = false
  end.
Proof.
  induction bs as [|o bs IH]; intros i a s Hbs Ha Hlen Hs; cbn [gather].
  - cbn. split_and!; auto. destruct a as [a|]; [|done]. destruct Ha as (? & ? & Hd). split; [done|]. eapply depth_le_mono; [|exact Hd]. lia.
  - pose proof (buckets_ok_length _ _ Hbs) as L. destruct Hbs as [Ho Hrest]. cbn [buckets_len buckets_chars foldr length] in *. fold (buckets_len bs) (buckets_chars bs) in *.
    pose proof (buckets_len_nonneg _ _ Hrest) as P0. destruct o as [b|]; cbn [opt_len opt_chars] in *.
    + assert (Hi : (i < 44)%nat) by lia. pose proof (bucket_ok_len _ _ Hi Ho) as Hb1. destruct Ho as (Hb & Hbl & Hbd).
      assert (Hlow : small = true -> (i <= 30)%nat) by (apply (used_low i (string_rope_get_len b)); [done.. | destruct a; cbn in *; lia]).
      destruct a as [a|]; cbn [opt_len opt_chars] in *.
      * destruct Ha as (Ha & Ha0 & Had). assert (Had' : depth_le (bucket_depth i) a) by (eapply depth_le_mono; [|exact Had]; unfold bucket_depth; lia).
        pose proof (step_good (bucket_depth i) b a s Hb Ha ltac:(lia) Ha0 ltac:(lia) Hbd Had' ltac:(intros E; specialize (Hlow E); unfold bucket_depth; lia) Hs) as G.
        unfold mbind, M_bind. destruct (js_new_string_rope rb b a s) as [[[q|] s1]| |]; [|cbn; tauto|destruct G|exact G].
        destruct G as (A & Hs1 & Hq & Hqd & Eq & El). specialize (IH (S i) (Some q) s1 Hrest). cbn [opt_len opt_chars] in IH.
        assert (Q : depth_le (Z.min 60 (2 * Z.of_nat (S i) - 2)) q).
        { unfold depth_le in *. destruct small eqn:Es; [|done]. specialize (Hlow eq_refl). destruct i; [|unfold bucket_depth in *; lia]. pose proof (depth_nonneg a Ha). cbn in *. lia. }
        specialize (IH ltac:(split_and!; [done | lia | done]) ltac:(lia) Hs1). destruct (gather rb bs (Some q) s1) as [[[[] q'] s2]| |]; try done.
        -- destruct IH as (A2 & H & ->). split_and!; eauto. now rewrite Eq, app_assoc.
        -- destruct IH as [A2 N]. split; eauto.
      * rewrite app_nil_r, Z.add_0_r in *. specialize (IH (S i) (Some b) s Hrest). cbn [opt_len opt_chars] in IH. apply IH; auto. split_and!; [done | lia|].
        unfold depth_le, bucket_depth in *. destruct small; [|done]. specialize (Hlow eq_refl). lia.
    + rewrite Z.add_0_r, app_nil_r in *. apply (IH (S i)); auto. destruct a as [a|]; [|done]. destruct Ha as (? & ? & Hd). split_and!; auto. eapply depth_le_mono; [|exact Hd]. lia.
Qed.

Lemma buckets_start : buckets_ok 0 (replicate ROPE_N_BUCKETS None).
Proof. unfold ROPE_N_BUCKETS. rewrite <- (app_nil_r (replicate _ _)). now apply buckets_ok_cleared. Qed.

Lemma rebalance_good v s : rope_ok v -> string_rope_get_len v <= total -> live s ->
  good s JS_STRING_ROPE_MAX_DEPTH (fun c => no_failure s -> c = chars v) (rebalance rb v s).
Proof.
  intros Hv Hlen Hs. unfold rebalance. pose proof (rebalance_rec_ok v (replicate ROPE_N_BUCKETS None) s Hv buckets_start ltac:(cbn; lia) Hs) as R.
  change (buckets_len (replicate ROPE_N_BUCKETS None)) with 0 in R. change (buckets_chars (replicate ROPE_N_BUCKETS None)) with (@nil Z) in R. cbn [app] in R.
  unfold mbind at 1, M_bind at 1. destruct (js_rebalancee_string_rope_rec rb v _ s) as [[[ok bs] s1]| |]; [|destruct R|exact R].
  destruct R as [(A & Hs1 & Hbs & Hl & E) Hok]. destruct ok; cbn [negb]; [|split; auto].
  pose proof (gather_ok bs 0 None s1 Hbs I ltac:(cbn; lia) Hs1) as G. unfold mbind at 1, M_bind at 1. destruct (gather rb bs None s1) as [[[[] q] s2]| |]; cbn [negb]; [| |destruct G|exact G].
  - destruct G as (A2 & Hq & Eq). cbn [opt_chars] in Eq. rewrite app_nil_r in Eq. destruct q as [q|]; cbn.
    + destruct Hq as [Hq Hd]. repeat split; eauto. intros N. cbn in Eq. rewrite Eq. now apply E.
    + split; [eauto|]. split; [exact empty_leaf_ok|]. split; [unfold depth_le, JS_STRING_ROPE_MAX_DEPTH; cbn; destruct small; lia|]. intros N. cbn in Eq. rewrite <- E, <- Eq by done. done.
  - destruct G as [A2 N]. split; eauto.
Qed.
End Depth.

(** ** Rebalancing *)

Lemma rebalances_any fuel : rebalances false JS_STRING_LEN_MAX (js_rebalancee_string_rope fuel).
Proof.
  induction fuel as [|fuel IH]; intros r s Hr Hlen Hd Hs; [done|]. cbn [js_rebalancee_string_rope]. now apply (rebalance_good false JS_STRING_LEN_MAX).
Qed.

(** One call is enough, whatever follows. *)
Lemma rebalances_small fuel : rebalances true 3524577 (js_rebalancee_string_rope (S fuel)).
Proof. intros r s Hr Hlen Hd Hs. cbn [js_rebalancee_string_rope]. now apply (rebalance_good true 3524577). Qed.

(** ** Concatenation *)

Lemma wf_append w1 w2 l1 l2 (w : bool) : (w1 = true -> w = true) -> (w2 = true -> w = true) -> wf_string (mk_string w1 l1) -> wf_string (mk_string w2 l2) -> wf_string (mk_string w (l1 ++ l2)).
Proof.
  unfold wf_string, in_u. cbn. intros H1 H2 F1 F2. rewrite Forall_app. split; (eapply Forall_impl; [eassumption|]); cbn; intros x Hx; destruct w1, w2, w; auto; try discriminate (H1 eq_refl); try discriminate (H2 eq_refl); lia.
Qed.

Lemma append_leaf_ok p1 p2 (w : bool) : leaf_ok p1 -> leaf_ok p2 -> leaf_len p1 + leaf_len p2 <= JS_STRING_LEN_MAX -> (leaf_wide p1 || leaf_wide p2 = true -> w = true) ->
  leaf_ok (mk_leaf (leaf_len p1 + leaf_len p2) (mk_string w (str (leaf_str p1) ++ str (leaf_str p2)))).
Proof.
  destruct p1 as [n1 [w1 l1]], p2 as [n2 [w2 l2]]. unfold leaf_ok, leaf_wide. cbn. intros (-> & H1 & _) (-> & H2 & _) H Hw. split_and!; [rewrite length_app; lia | | done].
  apply (wf_append w1 w2); auto; intros ->; apply Hw; [done | apply orb_true_r].
Qed.

Definition joins (p1 p2 q : leaf) : Prop :=
  leaf_len q = leaf_len p1 + leaf_len p2 /\ (leaf_len p1 + leaf_len p2 <= JS_STRING_LEN_MAX -> leaf_ok q) /\ str (leaf_str q) = str (leaf_str p1) ++ str (leaf_str p2).

Lemma concat_string2_ok p1 p2 s : leaf_ok p1 -> leaf_ok p2 ->
  exists o s', JS_ConcatString2 p1 p2 s = Done (o, s') /\ after s s' /\
    match o with None => ~ no_failure s \/ JS_STRING_LEN_MAX < leaf_len p1 + leaf_len p2 | Some q => joins p1 p2 q end.
Proof.
  intros H1 H2. pose proof (len_chars (RString p1) H1) as [_ L1]. pose proof (len_chars (RString p2) H2) as [E2 L2]. rewrite chars_string in E2. cbn [string_rope_get_len] in *.
  assert (F : forall s1, after s s1 -> exists o s', JS_ConcatString1 p1 p2 s1 = Done (o, s') /\ after s s' /\
    match o with None => ~ no_failure s \/ JS_STRING_LEN_MAX < leaf_len p1 + leaf_len p2 | Some q => joins p1 p2 q end).
  { intros s1 A. unfold JS_ConcatString1. unfold JS_STRING_LEN_MAX in L1, L2. rewrite wrap_small by (unfold in_u; lia). destruct (Z.ltb_spec JS_STRING_LEN_MAX (leaf_len p1 + leaf_len p2)) as [D|D].
    - exists None, s1. auto.
    - destruct (rope_malloc_ok s1) as (b & s2 & E & A2 & Hb). unfold mbind, M_bind. rewrite E. destruct b; cbn; eexists _, _; (split; [reflexivity|]); (split; [eauto|]); [|left; intros N; apply Hb; eauto].
      unfold concat_units, joins. rewrite wrap_small by (unfold in_u; lia). destruct (leaf_wide p1 || leaf_wide p2) eqn:W; cbn; split_and!; auto; intros _; apply append_leaf_ok; auto. now rewrite W. }
  unfold JS_ConcatString2, JS_ConcatStringInPlace. destruct (Z.eqb_spec (leaf_len p2) 0) as [E0|N0].
  - exists (Some p1), s. split; [done|]. split; [done|]. split; [lia|]. split; [done|]. destruct (str (leaf_str p2)); [now rewrite app_nil_r | cbn in E2; lia].
  - unfold has_room, mbind, M_bind. destruct (in_place s) as [|b r] eqn:Ei; cbn; [apply F; eauto|].
    assert (A : after s (mk_state (answers s) r)) by exact (after_refl s). destruct (b && (leaf_wide p1 || negb (leaf_wide p2))) eqn:B; [|apply F; exact A].
    eexists _, _. split; [reflexivity|]. split; [exact A|]. split; [done|]. split; [|done]. intros HL. apply append_leaf_ok; auto. destruct (leaf_wide p1), (leaf_wide p2), b; cbn in *; congruence.
Qed.

Definition operand_ok (r : rope) : Prop := rope_ok r /\ rope_depth r <= JS_STRING_ROPE_MAX_DEPTH.
#[export] Instance operand_ok_dec r : Decision (operand_ok r).
Proof. unfold operand_ok. apply _. Defined.

Section Concatenation.
Variable small : bool.
Variable total : Z.
Variable rb : rope -> M (option rope).
Hypothesis Hrb : rebalances small total rb.
Hypothesis Htotal : total <= JS_STRING_LEN_MAX.


Lemma join_then_node p1 p2 s (mk : leaf -> rope * rope) c : leaf_ok p1 -> leaf_ok p2 -> leaf_len p1 + leaf_len p2 <= total -> live small s ->
  (forall q, leaf_ok q -> joins p1 p2 q -> let '(l, r) := mk q in operand_ok l /\ operand_ok r /\
    0 < string_rope_get_len l + string_rope_get_len r <= total /\ (string_rope_get_len r = 0 -> is_string l) /\ chars l ++ chars r = c) ->
  good small s JS_STRING_ROPE_MAX_DEPTH (fun d => no_failure s -> d = c)
    (mbind (fun val => match val with None => mret None | Some val => js_new_string_rope rb (mk val).1 (mk val).2 end) (JS_ConcatString2 p1 p2) s).
Proof.
  intros H1 H2 Hlen Hs Hmk. destruct (concat_string2_ok p1 p2 s H1 H2) as (o & s' & E & A & Ho). unfold mbind, M_bind. rewrite E. destruct o as [q|]; [|destruct Ho; [split; auto | lia]].
  pose proof Ho as (_ & Hq & _). specialize (Hmk q (Hq ltac:(lia)) Ho). destruct (mk q) as [l r]. destruct Hmk as ((Hl & Dl) & (Hr & Dr) & HL & He & <-). cbn.
  apply (good_after _ s s'); [done|]. eapply good_mono; [apply Z.le_refl | | apply (new_rope_top small total); eauto using live_after]. eauto.
Qed.

Lemma concat_strings_good r1 r2 s : operand_ok r1 -> operand_ok r2 -> string_rope_get_len r1 + string_rope_get_len r2 <= total -> live small s ->
  good small s JS_STRING_ROPE_MAX_DEPTH (fun c => no_failure s -> c = chars r1 ++ chars r2) (concat_strings rb r1 r2 s).
Proof.
  intros [H1 D1] [H2 D2] Hlen Hs. pose proof (len_chars r1 H1) as [E1 L1]. pose proof (len_chars r2 H2) as [E2 L2].
  assert (N : 0 < string_rope_get_len r1 + string_rope_get_len r2 -> (string_rope_get_len r2 = 0 -> is_string r1) ->
    good small s JS_STRING_ROPE_MAX_DEPTH (fun c => no_failure s -> c = chars r1 ++ chars r2) (js_new_string_rope rb r1 r2 s)).
  { intros Hp He. apply (new_rope_top small total); auto; lia. }
  assert (K : forall r, operand_ok r -> (no_failure s -> chars r = chars r1 ++ chars r2) ->
    good small s JS_STRING_ROPE_MAX_DEPTH (fun c => no_failure s -> c = chars r1 ++ chars r2) (Done (Some r, s))).
  { intros r [Hr Dr] Hc. split; [apply after_refl|]. split; [done|]. split; [unfold depth_le; destruct small; lia | done]. }
  unfold concat_strings. destruct r2 as [p2|n2 w2 d2 l2 r2]; cbn [string_rope_get_len] in *.
  - destruct (Z.eqb_spec (leaf_len p2) 0) as [E0|N0].
    + apply K; [now split|]. intros _. destruct (chars (RString p2)); [now rewrite app_nil_r | cbn in E2; lia].
    + destruct (Z.leb_spec (leaf_len p2) JS_STRING_ROPE_SHORT_LEN) as [S2|S2]; [|apply N; lia]. destruct r1 as [p1|n1 w1 d1 l1 r1]; cbn [string_rope_get_len] in *.
      * destruct (Z.leb_spec (leaf_len p1) JS_STRING_ROPE_SHORT2_LEN) as [S1|S1]; [|apply N; lia].
        destruct (concat_string2_ok p1 p2 s H1 H2) as (o & s' & E & A & Ho). unfold mbind, M_bind. rewrite E. destruct o as [q|]; cbn; [|destruct Ho; [split; auto | lia]].
        destruct Ho as (_ & Hq & Eq). split; [done|]. split; [apply Hq; lia|]. split; [unfold depth_le, JS_STRING_ROPE_MAX_DEPTH; cbn; destruct small; lia|]. intros _. now rewrite !app_nil_r.
      * destruct r1 as [r1|]; [|apply N; lia]. destruct (Z.leb_spec (leaf_len r1) JS_STRING_ROPE_SHORT_LEN) as [S1|S1]; [|apply N; lia].
        pose proof H1 as (Hl1 & Hr1 & -> & _ & _ & Hd1 & _). cbn [string_rope_get_len] in *. pose proof (len_chars l1 Hl1) as [_ L3]. pose proof (len_chars (RString r1) Hr1) as [_ L4]. cbn [string_rope_get_len rope_depth] in *.
        apply (join_then_node r1 p2 s (fun q => (l1, RString q))); auto; [lia|]. intros q Hq (El & _ & Eq). cbn [string_rope_get_len]. unfold operand_ok. cbn [rope_depth rope_ok].
        split_and!; auto; try lia; try (unfold JS_STRING_ROPE_MAX_DEPTH; lia). rewrite chars_node, !chars_string, Eq. now rewrite app_assoc.
  - pose proof H2 as (Hl2 & Hr2 & En2 & Hp2 & _ & Hd2 & Hd2' & He2). pose proof (len_chars l2 Hl2) as [_ L3]. pose proof (len_chars r2 Hr2) as [_ L4].
    destruct r1 as [p1|n1 w1 d1 l1 r1]; cbn [string_rope_get_len rope_depth] in *; [|apply N; lia]. destruct (Z.eqb_spec (leaf_len p1) 0) as [E0|N0].
    + apply K; [now split|]. intros _. destruct (chars (RString p1)); [done | cbn in E1; lia].
    + destruct l2 as [l2|]; [|apply N; lia]. destruct (Z.leb_spec (leaf_len l2) JS_STRING_ROPE_SHORT_LEN) as [S1|S1]; [|apply N; lia]. cbn [string_rope_get_len rope_depth] in *.
      apply (join_then_node p1 l2 s (fun q => (RString q, r2))); auto; [lia|]. intros q Hq (El & _ & Eq). cbn [string_rope_get_len]. unfold operand_ok. cbn [rope_depth rope_ok].
      split_and!; auto; try lia; try (unfold JS_STRING_ROPE_MAX_DEPTH; lia). rewrite chars_node, !chars_string, Eq. now rewrite app_assoc.
Qed.
End Concatenation.

(** "string too long", or memory that ran out before *)
Lemma concat_strings_too_long rb r1 r2 s : rope_ok r1 -> rope_ok r2 -> JS_STRING_LEN_MAX < string_rope_get_len r1 + string_rope_get_len r2 ->
  exists s', concat_strings rb r1 r2 s = Done (None, s').
Proof.
  intros H1 H2 Hlen. pose proof (len_chars r1 H1) as [_ L1]. pose proof (len_chars r2 H2) as [_ L2]. unfold JS_STRING_LEN_MAX in L1, L2.
  assert (N : forall l r s, 0 <= string_rope_get_len l < 2 ^ 31 -> 0 <= string_rope_get_len r < 2 ^ 31 -> JS_STRING_LEN_MAX < string_rope_get_len l + string_rope_get_len r ->
    exists s', js_new_string_rope rb l r s = Done (None, s')) by (intros; eexists; now apply new_rope_too_long).
  unfold concat_strings. destruct r2 as [p2|n2 w2 d2 l2 r2]; cbn [string_rope_get_len] in *.
  - destruct (Z.eqb_spec (leaf_len p2) 0) as [E0|N0]; [unfold JS_STRING_LEN_MAX in *; lia|].
    destruct (Z.leb_spec (leaf_len p2) JS_STRING_ROPE_SHORT_LEN) as [S2|S2]; [|apply N; cbn; lia]. destruct r1 as [p1|n1 w1 d1 l1 r1]; cbn [string_rope_get_len] in *.
    + destruct (Z.leb_spec (leaf_len p1) JS_STRING_ROPE_SHORT2_LEN) as [S1|S1]; [|apply N; cbn; lia]. unfold JS_STRING_ROPE_SHORT_LEN, JS_STRING_ROPE_SHORT2_LEN, JS_STRING_LEN_MAX in *. lia.
    + destruct r1 as [r1|]; [|apply N; cbn; lia]. destruct (Z.leb_spec (leaf_len r1) JS_STRING_ROPE_SHORT_LEN) as [S1|S1]; [|apply N; cbn; lia].
      destruct H1 as (Hl1 & Hr1 & -> & _). cbn [string_rope_get_len] in *. pose proof (len_chars l1 Hl1) as [_ L3]. pose proof (len_chars (RString r1) Hr1) as [_ L4]. cbn [string_rope_get_len] in *.
      destruct (concat_string2_ok r1 p2 s Hr1 H2) as (o & s' & E & A & Ho). unfold mbind, M_bind. rewrite E. unfold JS_STRING_LEN_MAX in *. destruct o as [q|]; [|now eexists].
      destruct Ho as (El & _). apply N; cbn; lia.
  - pose proof H2 as (Hl2 & Hr2 & En2 & Hp2 & _). pose proof (len_chars l2 Hl2) as [_ L3]. pose proof (len_chars r2 Hr2) as [_ L4]. unfold JS_STRING_LEN_MAX in L3, L4.
    destruct r1 as [p1|n1 w1 d1 l1 r1]; cbn [string_rope_get_len] in *; [|apply N; cbn; lia]. destruct (Z.eqb_spec (leaf_len p1) 0) as [E0|N0]; [unfold JS_STRING_LEN_MAX in *; lia|].
    destruct l2 as [l2|]; [|apply N; cbn; lia]. destruct (Z.leb_spec (leaf_len l2) JS_STRING_ROPE_SHORT_LEN) as [S1|S1]; [|apply N; cbn; lia]. cbn [string_rope_get_len] in *.
    destruct (concat_string2_ok p1 l2 s H1 Hl2) as (o & s' & E & A & Ho). unfold mbind, M_bind. rewrite E. destruct o as [q|]; [|now eexists]. destruct Ho as (El & _).
    unfold JS_STRING_ROPE_SHORT_LEN in *. apply N; cbn; lia.
Qed.

(** Operands that are less than 60 deep need no rebalancing. *)
Lemma new_rope_shallow rb l r s : 0 <= rope_depth l < 60 -> 0 <= rope_depth r < 60 -> js_new_string_rope rb l r s <> NoFuel.
Proof.
  intros Dl Dr. unfold js_new_string_rope.
  destruct (_ <? _); [done|]. destruct (rope_malloc_ok s) as (b & s' & E & _). unfold mbind, M_bind. rewrite E. destruct b; cbn [negb]; [|done].
  rewrite (wrap_small 8) by (unfold in_u; lia). cbn [rope_depth]. unfold JS_STRING_ROPE_MAX_DEPTH. destruct (Z.ltb_spec 60 (Z.max (rope_depth l) (rope_depth r) + 1)); [lia | done].
Qed.

Lemma concat_shallow rb r1 r2 s : operand_ok r1 -> operand_ok r2 -> concat_strings rb r1 r2 s = NoFuel -> rope_depth r1 = 60 \/ rope_depth r2 = 60.
Proof.
  intros [H1 D1] [H2 D2] E. unfold JS_STRING_ROPE_MAX_DEPTH in *. destruct (decide (rope_depth r1 = 60)) as [|N1]; [now left|].
  destruct (decide (rope_depth r2 = 60)) as [|N2]; [now right|]. exfalso. revert E.
  assert (J : forall p1 p2 (f : leaf -> M (option rope)), leaf_ok p1 -> leaf_ok p2 -> (forall q s', f q s' <> NoFuel) ->
    mbind (fun val => match val with None => mret None | Some val => f val end) (JS_ConcatString2 p1 p2) s <> NoFuel).
  { intros p1 p2 f P1 P2 Hf. destruct (concat_string2_ok p1 p2 s P1 P2) as (o & s' & Eq & _). unfold mbind, M_bind. rewrite Eq. destruct o; [apply Hf | done]. }
  assert (N : js_new_string_rope rb r1 r2 s <> NoFuel) by (pose proof (depth_nonneg r1 H1); pose proof (depth_nonneg r2 H2); apply new_rope_shallow; lia).
  unfold concat_strings. destruct r2 as [p2|n2 w2 d2 l2 r2]; cbn [rope_depth] in *.
  - destruct (_ =? 0); [done|]. destruct (_ <=? _); [|done]. destruct r1 as [p1|n1 w1 d1 l1 [p1|]]; [| |done]; (destruct (_ <=? _); [|done]).
    + destruct (concat_string2_ok p1 p2 s H1 H2) as (o & s' & Eq & _). unfold mbind, M_bind. now rewrite Eq.
    + destruct H1 as (Hl1 & Hr1 & _ & _ & _ & Hd & _). cbn [rope_depth] in *.
      apply (J p1 p2 (fun q => js_new_string_rope rb l1 (RString q))); [done..|]. intros q s'. apply new_rope_shallow; cbn [rope_depth]; lia.
  - destruct H2 as (Hl2 & Hr2 & _ & _ & _ & _ & Hd & _). destruct r1 as [p1|]; [|done]. destruct (_ =? 0); [done|].
    destruct l2 as [l2|]; [|done]. destruct (_ <=? _); [|done].
    apply (J p1 l2 (fun q => js_new_string_rope rb (RString q) r2)); [done..|]. intros q s'. apply new_rope_shallow; cbn [rope_depth]; lia.
Qed.

(** ** Reading *)

Lemma string_rope_get_ok v : rope_ok v -> forall idx, 0 <= idx < string_rope_get_len v -> string_rope_get v idx = chars v !! Z.to_nat idx.
Proof.
  induction v as [p|len w d l IHl r IHr]; intros Hv idx Hi.
  - rewrite chars_string. cbn. destruct (Z.ltb_spec idx 0); [lia | done].
  - destruct Hv as (Hl & Hr & -> & Hlen & _). cbn [string_rope_get string_rope_get_len] in *. destruct (len_chars l Hl) as [El Hl0]. rewrite chars_node.
    destruct (Z.ltb_spec idx (string_rope_get_len l)).
    + rewrite IHl by (auto; lia). rewrite lookup_app_l by lia. done.
    + unfold JS_STRING_LEN_MAX in *. rewrite wrap_small by (unfold in_u; lia). rewrite IHr by (auto; lia). rewrite lookup_app_r by lia. f_equal. lia.
Qed.

(** ** The theorems *)

(** C14: concatenation.  For operands that are well-formed strings or ropes of depth at most 60, or values converted
    to such strings, and as long as memory lasts, [JS_ConcatString] stays inside its table of buckets and returns, with
    any fuel for the rebalancing that is not 0, in each of these cases: the length exceeds 2^30 - 1, it is below 3524578,
    or neither operand has the greatest depth, 60.  Otherwise a rope has to be rebalanced, which may not end: see
    [RopesDiverge].  When it returns, it fails exactly when the length exceeds 2^30 - 1, with "string too long"; else the
    result is a well-formed rope of depth at most 60 that reads as the characters of both, in order, whether a string was
    extended, a short end was merged, a node made or the rope rebalanced. *)
Theorem rope_concat_correct {V} (JS_ToStringFree : V -> option leaf) fuel op1 op2 r1 r2 s :
  to_rope JS_ToStringFree op1 = Some r1 -> to_rope JS_ToStringFree op2 = Some r2 -> operand_ok r1 -> operand_ok r2 -> no_failure s ->
  match JS_ConcatString JS_ToStringFree (S fuel) op1 op2 s with
  | Done (Some r, _) => string_rope_get_len r1 + string_rope_get_len r2 <= JS_STRING_LEN_MAX /\ operand_ok r /\
      string_rope_get_len r = string_rope_get_len r1 + string_rope_get_len r2 /\
      (forall idx, 0 <= idx < string_rope_get_len r -> string_rope_get r idx = (chars r1 ++ chars r2) !! Z.to_nat idx)
  | Done (None, _) => JS_STRING_LEN_MAX < string_rope_get_len r1 + string_rope_get_len r2
  | Crash => False
  | NoFuel => 3524578 <= string_rope_get_len r1 + string_rope_get_len r2 <= JS_STRING_LEN_MAX /\ (rope_depth r1 = 60 \/ rope_depth r2 = 60)
  end.
Proof.
  intros E1 E2 H1 H2 N. unfold JS_ConcatString. rewrite E1, E2.
  destruct (Z.le_gt_cases (string_rope_get_len r1 + string_rope_get_len r2) JS_STRING_LEN_MAX) as [HL|HL].
  2: { destruct (concat_strings_too_long (js_rebalancee_string_rope (S fuel)) r1 r2 s (proj1 H1) (proj1 H2) HL) as [s' ->]. lia. }
  pose proof (concat_strings_good false JS_STRING_LEN_MAX _ (rebalances_any (S fuel)) ltac:(lia) r1 r2 s H1 H2 HL ltac:(now intros ?)) as G.
  pose proof (concat_strings_good true 3524577 _ (rebalances_small fuel) ltac:(unfold JS_STRING_LEN_MAX; lia) r1 r2 s H1 H2) as T.
  pose proof (concat_shallow (js_rebalancee_string_rope (S fuel)) r1 r2 s H1 H2) as Sh.
  destruct (concat_strings (js_rebalancee_string_rope (S fuel)) r1 r2 s) as [[[r|] s']| |]; [| |exact G|].
  - destruct G as (_ & Hr & Hd & Hc). specialize (Hc N). split; [done|]. split; [now split|]. pose proof (len_chars r Hr) as [Er Lr].
    destruct (len_chars r1 (proj1 H1)) as [-> _], (len_chars r2 (proj1 H2)) as [-> _]. split; [rewrite Er, Hc, length_app; lia|].
    intros idx Hi. rewrite string_rope_get_ok by auto. now rewrite Hc.
  - now destruct G.
  - destruct (Z.le_gt_cases 3524578 (string_rope_get_len r1 + string_rope_get_len r2)); [|discriminate T; [lia | now intros ?]].
    split; [lia | now apply Sh].
Qed.

(** A rope of "ab" and "\u03b1c", and a number whose conversion is "42" *)
Definition sample_rope : rope :=
  RRope 4 true 1 (RString (mk_leaf 2 (mk_string false [97; 98]))) (RString (mk_leaf 2 (mk_string true [0x3b1; 99]))).
Definition sample_to_string (n : Z) : option leaf := Some (mk_leaf 2 (mk_string false [48 + n / 10; 48 + n mod 10])).
Definition sample_digits : rope := RString (mk_leaf 2 (mk_string false [52; 50])).

Lemma rope_concat_correct_witness :
  match JS_ConcatString sample_to_string 1 (inl sample_rope) (inr 42) (mk_state [] [true]) with
  | Done (Some r, _) => 6 <= JS_STRING_LEN_MAX /\ operand_ok r /\ string_rope_get_len r = 6 /\
      (forall idx, 0 <= idx < string_rope_get_len r -> string_rope_get r idx = (chars sample_rope ++ chars sample_digits) !! Z.to_nat idx)
  | Done (None, _) => JS_STRING_LEN_MAX < 6
  | Crash => False
  | NoFuel => 3524578 <= 6 <= JS_STRING_LEN_MAX /\ (rope_depth sample_rope = 60 \/ rope_depth sample_digits = 60)
  end.
Proof.
  apply (rope_concat_correct sample_to_string 0 (inl sample_rope) (inr 42) sample_rope sample_digits (mk_state [] [true])); try reflexivity.
  - apply (bool_decide_unpack _). vm_compute. exact I.
  - apply (bool_decide_unpack _). vm_compute. exact I.
  - intros H. apply elem_of_nil in H. exact H.
Defined.

(** C20: below 3524578 characters concatenation returns, however the allocations fail: one call of the rebalancing
    function is enough.  The result is an exception only if an allocation fails; otherwise it is a
    well-formed rope of depth at most 60, which reads as both operands if no allocation fails. *)
Theorem rope_concat_terminates fuel r1 r2 s : operand_ok r1 -> operand_ok r2 -> string_rope_get_len r1 + string_rope_get_len r2 < 3524578 ->
  exists res s', concat_strings (js_rebalancee_string_rope (S fuel)) r1 r2 s = Done (res, s') /\
    match res with
    | Some r => operand_ok r /\ (no_failure s -> chars r = chars r1 ++ chars r2)
    | None => ~ no_failure s
    end.
Proof.
  intros H1 H2 HL. pose proof (concat_strings_good true 3524577 _ (rebalances_small fuel) ltac:(unfold JS_STRING_LEN_MAX; lia) r1 r2 s H1 H2 ltac:(lia) ltac:(now intros ?)) as G.
  destruct (concat_strings _ r1 r2 s) as [[[r|] s']| |]; try done; eexists _, _; (split; [reflexivity|]).
  - destruct G as (_ & Hr & Hd & Hc). split; [now split | done].
  - now destruct G.
Qed.

Lemma rope_concat_terminates_witness : exists res s', concat_strings (js_rebalancee_string_rope 1) sample_digits sample_rope (mk_state [None] []) = Done (res, s') /\
    match res with
    | Some r => operand_ok r /\ (no_failure (mk_state [None] []) -> chars r = chars sample_digits ++ chars sample_rope)
    | None => ~ no_failure (mk_state [None] [])
    end.
Proof.
  apply (rope_concat_terminates 0 sample_digits sample_rope (mk_state [None] [])).
  - apply (bool_decide_unpack _). vm_compute. exact I.
  - apply (bool_decide_unpack _). vm_compute. exact I.
  - reflexivity.
Defined.

(** When an allocation fails while the leaves are put into the buckets, the rebalancing goes on without the
    characters that it could not keep, and returns: here "abbc" becomes "c". *)
Definition four_letters : rope :=
  RRope 4 false 2 (RRope 3 false 1 (RString (mk_leaf 1 (mk_string false [97]))) (RString (mk_leaf 2 (mk_string false [98; 98])))) (RString (mk_leaf 1 (mk_string false [99]))).
Example rebalancing_drops : js_rebalancee_string_rope 1 four_letters (mk_state [None] []) = Done (Some (RString (mk_leaf 1 (mk_string false [99]))), mk_state [] []).
Proof. vm_compute. reflexivity. Qed.
