(* ===== verification/RopesRead.v ===== *)
(** * Comparing and flattening ropes

    [js_string_rope_compare] walks through both ropes leaf by leaf, with a stack of
    60 ropes for each; it compares them as the flat strings are compared.
    [js_linearize_string_rope] puts the leaves into a string buffer. *)

From Stdlib Require Import ZArith Lia Bool.
From stdpp Require Import base numbers list option gmap.
From S2P Require Import Prelude JSStrings StringBuffer StringBufferSpec Ropes RopesSpec.

#[local] Open Scope Z_scope.

(** ** Comparing in pieces *)

Lemma memcmp_at p1 pos1 p2 pos2 len : js_string_memcmp p1 pos1 p2 pos2 len = memcmp (drop pos1 (str p1)) (drop pos2 (str p2)) len.
Proof.
  unfold js_string_memcmp, memcmp16, memcmp16_8. destruct (is_wide_char p1), (is_wide_char p2); cbn; try done. now rewrite memcmp_antisym, Z.opp_involutive.
Qed.

Lemma memcmp_0 a b : memcmp a b 0 = 0.
Proof. now destruct a. Qed.

Lemma memcmp_app a b x y n : (n <= length a)%nat -> (n <= length b)%nat -> memcmp (a ++ x) (b ++ y) n = memcmp a b n.
Proof.
  revert a b. induction n as [|n IH]; intros a b Ha Hb; [now rewrite !memcmp_0|]. destruct a as [|u a], b as [|v b]; cbn in *; try lia. now rewrite IH by lia.
Qed.

Lemma memcmp_split a b n m : (n <= length a)%nat -> (n <= length b)%nat ->
  memcmp a b (n + m) = if memcmp a b n =? 0 then memcmp (drop n a) (drop n b) m else memcmp a b n.
Proof.
  revert a b. induction n as [|n IH]; intros a b Ha Hb; [now rewrite memcmp_0|]. destruct a as [|u a], b as [|v b]; cbn in *; try lia.
  destruct (Z.eqb_spec (u - v) 0) as [E|N]; cbn; [apply IH; lia|]. now destruct (Z.eqb_spec (u - v) 0).
Qed.

(** ** The iterator *)

Fixpoint stack_ok (it : iterator) : Prop :=
  match it with
  | [] => True
  | v :: it => rope_ok v /\ Z.of_nat (length it) + rope_depth v <= JS_STRING_ROPE_MAX_DEPTH /\ stack_ok it
  end.
Definition stack_leaves (it : iterator) : list leaf := flat_map leaves it.
Definition leaves_chars (ps : list leaf) : list Z := flat_map (fun p => str (leaf_str p)) ps.

(** The stack of 60 ropes does not overflow. *)
Lemma descend_ok v : forall it, rope_ok v -> Z.of_nat (length it) + rope_depth v <= JS_STRING_ROPE_MAX_DEPTH -> stack_ok it ->
  exists p it', descend v it = Some (p, it') /\ leaf_ok p /\ stack_ok it' /\ p :: stack_leaves it' = leaves v ++ stack_leaves it.
Proof.
  induction v as [p|len w d l IHl r _]; intros it Hv Hd Hs; [now exists p, it|].
  destruct Hv as (Hl & Hr & _ & _ & _ & Hdl & Hdr & _). cbn [descend rope_depth leaves] in *. destruct (Z.ltb_spec (Z.of_nat (length it)) JS_STRING_ROPE_MAX_DEPTH); [|lia].
  destruct (IHl (r :: it) Hl) as (p & it' & E & Hp & Hs' & El); [cbn [length]; lia | cbn; split_and!; [done | lia | done]|].
  exists p, it'. split_and!; auto. rewrite El. cbn. apply app_assoc.
Qed.

(** A reader: the leaf that is read, from a position, and the iterator *)
Definition reads (p : option leaf) (pos : Z) (it : iterator) (n : nat) (l : list Z) : Prop :=
  stack_ok it /\
  match p with
  | None => it = [] /\ n = 0%nat /\ l = []
  | Some q => leaf_ok q /\ 0 <= pos <= leaf_len q /\ n = S (length (stack_leaves it)) /\ l = drop (Z.to_nat pos) (str (leaf_str q)) ++ leaves_chars (stack_leaves it)
  end.

Lemma next_ok it : stack_ok it -> exists p it', string_rope_iter_next it = Some (p, it') /\ reads p 0 it' (length (stack_leaves it)) (leaves_chars (stack_leaves it)).
Proof.
  destruct it as [|v it]; intros H; [now exists None, []|]. destruct H as (Hv & Hd & Hs). destruct (descend_ok v it Hv Hd Hs) as (p & it' & E & Hp & Hs' & El).
  exists (Some p), it'. cbn. rewrite E. split; [done|]. split; [done|]. cbn. rewrite drop_0. fold (stack_leaves it). rewrite <- El. split; [exact Hp|]. split; [destruct Hp as (-> & _); lia | split; reflexivity].
Qed.

Lemma advance_ok q pos it n l k : reads (Some q) pos it n l -> 0 <= k -> pos + k <= leaf_len q ->
  exists p' pos' it' (n' : nat), advance q pos k it = Some (p', pos', it') /\ reads p' pos' it' n' (drop (Z.to_nat k) l) /\ (n' <= n)%nat /\ (pos + k = leaf_len q -> (n' < n)%nat).
Proof.
  intros (Hs & Hq & Hpos & -> & ->) Hk Hle. unfold advance. pose proof Hq as (El & _). destruct (Z.leb_spec (leaf_len q) (pos + k)) as [D|D].
  - destruct (next_ok it Hs) as (p' & it' & E & R). rewrite E. exists p', 0, it', (length (stack_leaves it)). cbn. split; [done|]. split; [|lia].
    rewrite drop_app_ge by (rewrite length_drop; lia). rewrite length_drop. now replace (Z.to_nat k - _)%nat with 0%nat by lia.
  - exists (Some q), (pos + k), it, (S (length (stack_leaves it))). split; [done|]. split; [|lia]. split; [done|]. split_and!; auto; try lia.
    rewrite drop_app_le by (rewrite length_drop; lia). rewrite drop_drop. do 2 f_equal. lia.
Qed.

(** ** The comparison *)

Lemma compare_loop_ok fuel : forall p1 p2 pos1 pos2 len it1 it2 n1 n2 l1 l2, reads p1 pos1 it1 n1 l1 -> reads p2 pos2 it2 n2 l2 ->
  0 <= len -> (Z.to_nat len <= length l1)%nat -> (Z.to_nat len <= length l2)%nat -> (n1 + n2 < fuel)%nat \/ (0 < fuel)%nat /\ len = 0 ->
  compare_loop fuel p1 p2 pos1 pos2 len it1 it2 = Some (let c := memcmp l1 l2 (Z.to_nat len) in if c =? 0 then None else Some c).
Proof.
  induction fuel as [|fuel IH]; intros p1 p2 pos1 pos2 len it1 it2 n1 n2 l1 l2 R1 R2 Hlen L1 L2 Hf; [lia|]. cbn [compare_loop].
  destruct (Z.eqb_spec len 0) as [->|N0]; [now rewrite memcmp_0|].
  destruct p1 as [q1|]; [|destruct R1 as (_ & _ & _ & ->); cbn in L1; lia]. destruct p2 as [q2|]; [|destruct R2 as (_ & _ & _ & ->); cbn in L2; lia]. cbn [mbind option_bind].
  pose proof R1 as (_ & Hq1 & Hp1 & En1 & El1). pose proof R2 as (_ & Hq2 & Hp2 & En2 & El2). destruct Hq1 as (E1 & _ & M1), Hq2 as (E2 & _ & M2). unfold JS_STRING_LEN_MAX in *.
  rewrite !wrap_small by (unfold in_u; lia). set (k := Z.min (Z.min (leaf_len q1 - pos1) (leaf_len q2 - pos2)) len). rewrite memcmp_at.
  assert (C : memcmp (drop (Z.to_nat pos1) (str (leaf_str q1))) (drop (Z.to_nat pos2) (str (leaf_str q2))) (Z.to_nat k) = memcmp l1 l2 (Z.to_nat k)).
  { rewrite El1, El2. symmetry. apply memcmp_app; rewrite length_drop; lia. }
  rewrite C. replace (Z.to_nat len) with (Z.to_nat k + Z.to_nat (len - k))%nat by lia. rewrite memcmp_split by lia. cbv zeta.
  destruct (Z.eqb_spec (memcmp l1 l2 (Z.to_nat k)) 0) as [Ec|Nc]; cbn [negb]; [|now destruct (Z.eqb_spec (memcmp l1 l2 (Z.to_nat k)) 0)].
  destruct (advance_ok q1 pos1 it1 n1 l1 k R1 ltac:(lia) ltac:(lia)) as (p1' & pos1' & it1' & n1' & -> & R1' & Hn1 & Hx1).
  destruct (advance_ok q2 pos2 it2 n2 l2 k R2 ltac:(lia) ltac:(lia)) as (p2' & pos2' & it2' & n2' & -> & R2' & Hn2 & Hx2). cbn [mbind option_bind].
  apply (IH _ _ _ _ _ _ _ n1' n2'); auto; try (rewrite length_drop; lia); [lia|].
  destruct (Z.eq_dec k len); [right; lia|]. left. destruct (Z.eq_dec k (leaf_len q1 - pos1)); [|assert (k = leaf_len q2 - pos2) by lia]; [specialize (Hx1 ltac:(lia)) | specialize (Hx2 ltac:(lia))]; lia.
Qed.

(** The characters of a rope, in one string *)
Definition flat (v : rope) : JSString := mk_string (rope_wide v) (chars v).

(** C18: comparing two well-formed ropes of depth at most 60 is comparing the flat strings: [js_string_rope_compare]
    returns, its iterators stay inside their stacks of 60 ropes, and its result is the very integer
    that [js_string_compare] gives for the characters of both (with [eq_only], 1 as soon as the lengths differ). *)
Theorem rope_compare_flat r1 r2 eq_only : operand_ok r1 -> operand_ok r2 ->
  js_string_rope_compare r1 r2 eq_only =
  Some (if eq_only && negb (string_rope_get_len r1 =? string_rope_get_len r2) then 1 else js_string_compare (flat r1) (flat r2)).
Proof.
  intros [H1 D1] [H2 D2]. unfold js_string_rope_compare, string_rope_iter_init. destruct (eq_only && _); [done|]. destruct (len_chars r1 H1) as [E1 L1], (len_chars r2 H2) as [E2 L2].
  destruct (next_ok [r1]) as (p1 & it1 & -> & R1); [cbn; split_and!; [done | lia | done]|]. destruct (next_ok [r2]) as (p2 & it2 & -> & R2); [cbn; split_and!; [done | lia | done]|].
  cbn [mbind option_bind]. unfold stack_leaves in R1, R2. cbn [flat_map] in R1, R2. rewrite app_nil_r in R1, R2. fold (chars r1) in R1. fold (chars r2) in R2.
  rewrite (compare_loop_ok _ _ _ _ _ _ _ _ _ _ _ _ R1 R2) by (unfold leaves_chars; fold (chars r1) (chars r2); lia). cbn [mbind option_bind]. f_equal.
  unfold js_string_compare. rewrite js_string_memcmp_units. cbn [flat str]. unfold leaves_chars. fold (chars r1) (chars r2).
  replace (Z.to_nat (Z.min (string_rope_get_len r1) (string_rope_get_len r2))) with (Nat.min (length (chars r1)) (length (chars r2))) by lia.
  set (c := memcmp (chars r1) (chars r2) _). rewrite E1, E2. cbv zeta. destruct (Z.eqb_spec c 0); [|done].
  destruct (Z.eqb_spec (Z.of_nat (length (chars r1))) (Z.of_nat (length (chars r2)))), (Nat.eqb_spec (length (chars r1)) (length (chars r2))); try lia.
  destruct (Z.ltb_spec (Z.of_nat (length (chars r1))) (Z.of_nat (length (chars r2)))), (Nat.ltb_spec (length (chars r1)) (length (chars r2))); lia.
Qed.

Lemma rope_compare_flat_witness : js_string_rope_compare sample_rope sample_digits false =
  Some (if false && negb (string_rope_get_len sample_rope =? string_rope_get_len sample_digits) then 1 else js_string_compare (flat sample_rope) (flat sample_digits)).
Proof. apply (rope_compare_flat sample_rope sample_digits false); apply (bool_decide_unpack _); vm_compute; exact I. Defined.

(** ** Flattening *)

(** The operations on a buffer do nothing after an error. *)
Lemma appends_guard l op : appends l op -> appends l (fun s a => if negb (error_status s =? 0) then Some (-1, s, a) else op s a).
Proof.
  intros H a0 s u a S Ha T Hl. destruct (Z.eqb_spec (error_status s) 0) as [E|E]; cbn [negb]; [now apply H|].
  destruct T as [(E0 & _)|[Hf HF]]; [done|]. exists (-1), s, a. split_and!; [done | done | | auto]. apply tracks_more; [done | right; auto].
Qed.

Lemma concat_value_appends v : rope_ok v -> appends (chars v) (string_buffer_concat_value v).
Proof.
  induction v as [p|len w d l IHl r IHr]; intros Hv.
  - destruct Hv as (El & Hp & _). apply appends_guard. rewrite chars_string. pose proof (concat_appends (leaf_str p) 0 (Z.to_nat (leaf_len p)) Hp ltac:(lia)) as A.
    rewrite drop_0, take_ge in A by lia. exact A.
  - destruct Hv as (Hl & Hr & _). apply appends_guard. rewrite chars_node. apply (appends_bind (chars l) (chars r)); auto.
Qed.

(** 8-bit strings do not widen a buffer. *)
Definition stays_narrow (op : StringBuffer -> allocator -> option (Z * StringBuffer * allocator)) : Prop :=
  forall s a x s' a', op s a = Some (x, s', a') -> buf_wide s = false -> buf_wide s' = false.

Lemma write8_narrow l : stays_narrow (fun s a => string_buffer_write8 s l a).
Proof.
  assert (A : stays_narrow (fun s a => append s l a)).
  { intros s a x s' a' E Hw. unfold append, put_ok in E. rewrite Hw in E. unfold append8 in E. destruct l as [|c l]; [now injection E as <- <- <-|].
    destruct (buf_str s) as [b|]; [|done]. cbn [mbind option_bind] in E. destruct (store8 b _ _); [|done]. now injection E as <- <- <-. }
  intros s a x s' a' E Hw. unfold string_buffer_write8, with_room in E. destruct (_ <? _); [|now apply (A s a x s' a')].
  destruct (string_buffer_realloc s _ 0 a) as [[[y s1] a1]|] eqn:R; [|done]. cbn [mbind option_bind] in E. assert (buf_wide s1 = false) as Hw1.
  { unfold string_buffer_realloc in R. destruct (negb _); [now injection R as <- <- <-|]. destruct (_ <? _); [now injection R as <- <- <-|]. rewrite Hw in R. cbn [negb andb Z.leb] in R.
    destruct (buf_str s); [|done]. cbn [mbind option_bind] in R. destruct (allocate a) as [[n|] a2]; now injection R as <- <- <-. }
  destruct (negb (y =? 0)); [now injection E as <- <- <- | now apply (A s1 a1 x s' a')].
Qed.

Lemma concat_value_narrow v : rope_ok v -> rope_wide v = false -> stays_narrow (string_buffer_concat_value v).
Proof.
  induction v as [p|len w d l IHl r IHr]; intros Hv Hw s a x s' a' E Hs; cbn [string_buffer_concat_value] in E; (destruct (negb (error_status s =? 0)); [now injection E as <- <- <-|]).
  - unfold string_buffer_concat in E. unfold rope_wide, leaf_wide in Hw. rewrite Hw in E. destruct (_ <=? _)%nat; [now injection E as <- <- <-|]. destruct (_ <? _)%nat; [done|]. exact (write8_narrow _ s a x s' a' E Hs).
  - destruct Hv as (Hl & Hr & _ & _ & Hn & _). destruct (Hn Hw) as [Wl Wr]. destruct (string_buffer_concat_value l s a) as [[[y s1] a1]|] eqn:El; [|done]. cbn [mbind option_bind] in E.
    pose proof (IHl Hl Wl _ _ _ _ _ El Hs) as Hs1. destruct (negb (y =? 0)); [now injection E as <- <- <- | exact (IHr Hr Wr _ _ _ _ _ E Hs1)].
Qed.

(** A result of 0 means that there is no error. *)
Definition reports_errors (op : StringBuffer -> allocator -> option (Z * StringBuffer * allocator)) : Prop :=
  forall s a s' a', op s a = Some (0, s', a') -> error_status s = 0 -> error_status s' = 0.

Lemma append_reports l : reports_errors (fun s a => append s l a).
Proof.
  intros s a s' a' E Hs. unfold append, put_ok, append8, append16 in E. destruct l as [|c l]; [now injection E as <- <-|].
  destruct (buf_wide s), (buf_str s) as [b|]; try done; cbn [mbind option_bind] in E; [destruct (store16 b _ _) | destruct (store8 b _ _)]; try done; now injection E as <- <-.
Qed.

Lemma widen_reports n : reports_errors (fun s a => string_buffer_widen s n a).
Proof.
  intros s a s' a' E Hs. unfold string_buffer_widen in E. destruct (negb _); [done|]. destruct (buf_str s); [|done]. cbn [mbind option_bind] in E.
  destruct (allocate a) as [[k|] a2]; [|done]. destruct (widen_loop _ _); [|done]. now injection E as <- <-.
Qed.

Lemma realloc_reports n c : reports_errors (fun s a => string_buffer_realloc s n c a).
Proof.
  intros s a s' a' E Hs. unfold string_buffer_realloc in E. destruct (negb (error_status s =? 0)); [done|]. destruct (_ <? _); [done|]. destruct (_ && _); [exact (widen_reports _ _ _ _ _ E Hs)|].
  destruct (buf_str s); [|done]. cbn [mbind option_bind] in E. destruct (allocate a) as [[k|] a2]; [|done]. now injection E as <- <-.
Qed.

Lemma bind_reports op1 op2 : reports_errors op1 -> reports_errors op2 -> reports_errors (fun s a => '(r, s, a) ← op1 s a; if negb (r =? 0) then Some (-1, s, a) else op2 s a).
Proof.
  intros H1 H2 s a s' a' E Hs. destruct (op1 s a) as [[[r s1] a1]|] eqn:E1; [|done]. cbn [mbind option_bind] in E. destruct (Z.eqb_spec r 0) as [->|]; [|done].
  apply (H2 s1 a1 s' a' E). exact (H1 _ _ _ _ E1 Hs).
Qed.

Lemma concat_reports p from to : reports_errors (fun s a => string_buffer_concat s p from to a).
Proof.
  intros s a s' a' E Hs. unfold string_buffer_concat in E. destruct (_ <=? _)%nat; [now injection E as <- <-|]. destruct (_ <? _)%nat; [done|].
  destruct (is_wide_char p); [unfold string_buffer_write16 in E | unfold string_buffer_write8, with_room in E]; destruct (_ <? _); try destruct (_ && _);
    first [exact (append_reports _ s a s' a' E Hs) | exact (bind_reports _ _ (realloc_reports _ _) (append_reports _) s a s' a' E Hs) | exact (bind_reports _ _ (widen_reports _) (append_reports _) s a s' a' E Hs)].
Qed.

Lemma concat_value_reports v : reports_errors (string_buffer_concat_value v).
Proof.
  induction v as [p|len w d l IHl r IHr]; intros s a s' a' E Hs; cbn [string_buffer_concat_value] in E; rewrite Hs in E; cbn [Z.eqb negb] in E;
    [exact (concat_reports _ _ _ s a s' a' E Hs) | exact (bind_reports _ _ IHl IHr s a s' a' E Hs)].
Qed.

Lemma end_reports s a r a' : error_status s = 0 -> string_buffer_end s a = Some (r, a') -> r <> None.
Proof.
  intros Hs. unfold string_buffer_end. rewrite Hs. cbn [Z.eqb negb]. destruct (buf_str s); [|done]. cbn [mbind option_bind]. destruct (buf_len s =? 0); [now intros [= <- <-]|].
  destruct (if buf_len s <? buf_size s then _ else _) as [b a1]. destruct (if buf_wide s then _ else _); [|done]. now intros [= <- <-].
Qed.

(** C21: flattening.  For a well-formed rope and any answers of the allocator, [js_linearize_string_rope] returns without an access
    outside of an array, and it fails only for want of memory: its result is a string with the
    characters of the rope.  The rope keeps its characters, its depth and its flag of wide characters, and stays well-formed, when it
    is replaced by the flat string, so that every rope that contains it stays well-formed. *)
Theorem linearize_correct len wide depth lft rgt shared a : let r := RRope len wide depth lft rgt in
  rope_ok r -> small_slack a ->
  exists ret r' a', js_linearize_string_rope r shared a = Some (ret, r', a') /\
    rope_ok r' /\ chars r' = chars r /\ rope_depth r' = rope_depth r /\ rope_wide r' = rope_wide r /\
    match ret with Some v => is_string v /\ rope_ok v /\ chars v = chars r | None => fails a end.
Proof.
  intros r Hr Ha. pose proof Hr as (Hl & Hg & El & Hlen & Hn & Hdl & Hdg & He). destruct (len_chars r Hr) as [Ec _]. cbn [r string_rope_get_len] in Ec. unfold js_linearize_string_rope. subst r.
  cbv zeta. destruct (match rgt with RString p => leaf_len p =? 0 | _ => false end) eqn:E0; rewrite ?E0.
  - assert (string_rope_get_len rgt = 0) as Z0 by (destruct rgt; cbn in *; [lia | done]). exists (Some lft), (RRope len wide depth lft rgt), a. split_and!; try done; [now apply He|].
    rewrite chars_node. destruct (len_chars rgt Hg) as [Eg _]. destruct (chars rgt); [now rewrite app_nil_r | cbn in Eg; lia].
  - destruct (init2_ok a len wide ltac:(lia) Ha) as (x & b & a1 & -> & S1 & H1). destruct H1 as [(-> & H1 & Hw)|(-> & _ & HF)]; cbn [Z.eqb negb].
    2: { exists None, (RRope len wide depth lft rgt), a1. split_and!; done. }
    pose proof (concat_value_narrow _ Hr) as Nar.
    destruct (concat_value_appends _ Hr a b [] a1 S1 Ha (or_introl H1)) as (y & b2 & a2 & E2 & S2 & T2 & Hy); [unfold JS_STRING_LEN_MAX in *; cbn [app]; lia|].
    rewrite E2. cbn [mbind option_bind app] in *. destruct Hy as [->|[-> Hf]]; cbn [Z.eqb negb].
    2: { exists None, (RRope len wide depth lft rgt), a2. split_and!; try done. destruct T2 as [T2|[_ [T2|T2]]]; [now destruct (failed_not_holds b2 _ Hf T2) | done | unfold JS_STRING_LEN_MAX in *; lia]. }
    pose proof (concat_value_reports _ _ _ _ _ E2 (proj1 H1)) as Hok. destruct (end_ok a b2 _ a2 T2) as (ret & a3 & Ee & _ & H3). pose proof (end_reports _ _ _ _ Hok Ee) as Hret. rewrite Ee.
    cbn [mbind option_bind]. destruct ret as [p|]; [clear Hret | done].
    destruct H3 as (Ep & Hp & Hpw). assert (Hq : rope_ok (RString (mk_leaf (Z.of_nat (length (str p))) p))) by (split; [done | split; [exact Hp | cbn [leaf_len]; rewrite Ep; lia]]).
    assert (Hc : chars (RString (mk_leaf (Z.of_nat (length (str p))) p)) = chars (RRope len wide depth lft rgt)) by (rewrite chars_string; exact Ep).
    eexists _, _, a3. split; [reflexivity|]. cut (rope_ok (RRope len wide depth (RString (mk_leaf (Z.of_nat (length (str p))) p)) (RString empty_leaf)) /\
      chars (RRope len wide depth (RString (mk_leaf (Z.of_nat (length (str p))) p)) (RString empty_leaf)) = chars (RRope len wide depth lft rgt)).
    { intros [K1 K2]. destruct shared; split_and!; done. }
    split; [|rewrite chars_node, Hc; apply app_nil_r]. split; [exact Hq|]. split; [exact empty_leaf_ok|]. split; [cbn [string_rope_get_len leaf_len empty_leaf]; rewrite Ep; lia|]. split; [done|].
    split; [|split; [cbn; lia | split; [cbn; lia | done]]]. intros ->. split; [|done]. unfold rope_wide, leaf_wide. cbn [leaf_str].
    rewrite Hpw by (intros E; rewrite E in Ec; cbn in Ec; lia). exact (Nar eq_refl _ _ _ _ _ E2 Hw).
Qed.

Lemma linearize_correct_witness : exists ret r' a', js_linearize_string_rope sample_rope true [Some 3%nat; None] = Some (ret, r', a') /\
    rope_ok r' /\ chars r' = chars sample_rope /\ rope_depth r' = rope_depth sample_rope /\ rope_wide r' = rope_wide sample_rope /\
    match ret with Some v => is_string v /\ rope_ok v /\ chars v = chars sample_rope | None => fails [Some 3%nat; None] end.
Proof.
  apply (linearize_correct 4 true 1 (RString (mk_leaf 2 (mk_string false [97; 98]))) (RString (mk_leaf 2 (mk_string true [0x3b1; 99]))) true [Some 3%nat; None]).
  - apply (bool_decide_unpack _). vm_compute. exact I.
  - repeat constructor; intros n; [intros [= <-]; lia | intros [=]].
Defined.
