(* ===== verification/RopesAtoms.v ===== *)
(** * Extending a string that is an atom

    [JS_ConcatStringInPlace] ([src/core/quickjs.c], 4254) asks only that nobody else
    refers to the string.  The hash table of the atoms does not count as a reference:
    a string that was a property key, and is referred to by one variable, is still
    in the table when it is extended. *)

From Stdlib Require Import ZArith Lia Bool.
From stdpp Require Import base numbers list option gmap.
From S2P Require Import Prelude JSStrings StringBuffer Ropes Atoms.

#[local] Open Scope Z_scope.

(** [s += t] for a variable [s] that refers to the string at [p] *)
Definition append_in_place (rt : JSRuntime) (p : Z) (t : JSString) : option JSRuntime :=
  s ← strings rt !! p;
  let l := fun c => mk_leaf (Z.of_nat (length (str c))) c in
  match JS_ConcatStringInPlace (l (content s)) (l t) (mk_state [] [ref_count s =? 1]) with
  | Done (Some q, _) => Some (set_string rt p (mk_atom (ref_count s) (leaf_str q) (hash s) (atom_type s) (hash_next s)))
  | _ => None
  end.

(** The key of [o\[s\]], a string: [JS_ValueToAtom] *)
Definition key (rt : JSRuntime) (p : Z) : option (Z * JSRuntime) := rt ← dup_string rt p; JS_NewAtomStr rt p.

(** s = "ab"; o\[s\]; s += "c": the atoms of s and of another "abc", and their strings *)
Definition extended_key : option (Z * Z * list Z * list Z) :=
  '(_, rt) ← js_rt;
  '(p, rt) ← match js_alloc_string_rt rt (mk_string false [97; 98]) with (Some p, rt) => Some (p, rt) | _ => None end;
  '(a, rt) ← key rt p;
  rt ← JS_FreeAtom rt a;
  rt ← append_in_place rt p (mk_string false [99]);
  '(a1, rt) ← key rt p;
  '(q, rt) ← match js_alloc_string_rt rt (mk_string false [97; 98; 99]) with (Some q, rt) => Some (q, rt) | _ => None end;
  '(a2, rt) ← key rt q;
  '(_, s1) ← deref rt a1;
  '(_, s2) ← deref rt a2;
  Some (a1, a2, str (content s1), str (content s2)).

(** Equal strings have different atoms: [o\[s\]] and [o.abc] are different properties. *)
Example in_place_concatenation_splits_keys : extended_key = Some (239, 240, [97; 98; 99], [97; 98; 99]).
Proof. vm_compute. reflexivity. Qed.
